(* ===== verification/_CoqProject ===== *)
-Q . S2P
Prelude.v
JsValue.v
JsJson.v
IndexedHeap.v
JsMap.v
AttestTypes.v
AttestCanonical.v
AttestCodec.v
AttestTime.v
AttestStore.v
AttestKeys.v
AttestVerify.v
AttestMiddleware.v
HeapAdmission.v
JsBuffer.v
VaultBinding.v
VaultDpop.v
VaultTickets.v
VaultStore.v
VaultSweep.v
VaultSafety.v
VaultGuarantees.v
AccessRules.v
AccessComplexity.v
AccessSort.v
AccessGuard.v
AccessConcurrency.v
AccessHookGate.v
DpopNonce.v
DpopPolicy.v
DpopTarget.v
DpopReplay.v
DpopChallenge.v
DpopJson.v
DpopProof.v
ApiAccessToken.v
ApiAuthenticator.v
JsUri.v
VaultCookies.v
VaultRoute.v
PortableCopy.v
VaultRecords.v
VaultOrigins.v
VaultProvider.v
RouteTask.v
VaultHandler.v
VaultExchange.v
VaultLogin.v
VaultNavigation.v
VaultLogout.v
VaultScenario.v
FrameValue.v
FrameTraverse.v
FrameAccept.v
FrameOptions.v
FrameParse.v
FrameSchema.v
FrameColumn.v
FrameExport.v
FrameTable.v
FrameLaws.v
FrameState.v
FrameWf.v
FrameRoundtrip.v
FrameTheorems.v
FrameScenario.v
ClientTask.v
ClientTypes.v
ClientState.v
ClientSession.v
ClientInvariant.v
ClientChanges.v
ClientLogic.v
ClientQuiet.v
ClientSafety.v
ClientRuns.v
ClientTheorems.v
ClientCredentials.v
ClientScenario.v
