(* ===== verification/Prelude.v ===== *)
(** A verification development of the web-ts-toolkit packages that decide who may do what:
    request attestation, the OIDC vault with its routes, its in-memory store and its DPoP sender
    constraint, its browser client, the access rules of the access router, and the JSON tables of json-frame. Paths below are under src/packages/.

    * How the program is modelled

    JavaScript strings are lists of UTF-16 code units and numbers are rationals with the
    special values, rounded to binary64 where the code can leave the safe integers ([JsValue],
    [JsJson], [JsBuffer]); an argument of type [unknown] is any [jsval], one with a TypeScript
    type has that type. A throw is [Err], with the error's code or message where the code tells
    errors apart and without its [cause]. A [Map] is an association list in insertion order
    ([JsMap]) where the order matters, a location table where entries are shared objects
    ([IndexedHeap]), and a memory of byte arrays where callers keep aliases ([AttestKeys]).
    Clock readings, random bytes and answers of injected services are arguments. An async method
    that does not suspend is one function of the state; one that suspends is split at its [await]s,
    and a schedule or a list of operations interleaves the parts.

    Parameters of Sections stand for code that is not in the repository: [new URL],
    SHA-256, HMAC, and jose's key import, signature checks and thumbprint. Hypotheses about them
    say output lengths, that outputs are bytes, or name the answers a theorem is about; the
    witnesses use the executable stand-ins [toy_hash], [toy_hmac], [example_target_parser],
    [example_jws] and [example_thumbprint].

    * The packages and their files

    express-request-attestation binds a request to a shared key. [AttestCanonical] (shared/canonical.ts)
    and [AttestCodec] (shared/codec.ts) are the encodings, [AttestTime] (shared/time-policy.ts) the windows,
    [AttestKeys] (keys.ts) the key snapshots and providers, [AttestVerify] (verify.ts,
    request-signer.ts) the two ends, [AttestStore] (stores/memory.ts) the replay store over
    [IndexedHeap], [AttestMiddleware] (middleware.ts) a whole request. Theorems: what verification accepts
    ([verify_sound], [tamper_evident]); that a signed request verifies ([sign_verify]) and an envelope has
    one spelling ([decode_iff_encode]); that the store refines a map of deadlines
    ([reserve_refines]); that a proof passes once and a fresh one does pass ([guard_refuses_replay],
    [guard_admits_fresh]); that reservations outlive acceptance ([retention_covers_acceptance]).

    express-oidc-vault-memory-store keeps transactions, exchange codes, sessions, rotated handles, logout
    tickets and DPoP reservations. [VaultBinding] (binding.ts), [VaultDpop] (dpop-replay.ts),
    [VaultTickets] (logout-tickets.ts, logout-ticket-validation.ts) and [VaultStore] (index.ts) are the
    operations; the last two tables share [HeapAdmission] and [IndexedHeap]. [VaultSweep] shows that the
    batched sweeps reclaim, [VaultSafety] and [VaultGuarantees] hold for every sequence of
    operations of any callers: the state invariant ([vault_run_safe]), single use, rotation,
    revocation of a lineage, and that no live session is lost otherwise.

    express-oidc-vault constrains sessions to a key with DPoP. [DpopPolicy] (errors.ts,
    lifetime-policy.ts, dpop-failure-policy.ts, device-binding-policy.ts) are the options and bindings,
    [DpopTarget] (dpop-target.ts) the request targets, [DpopNonce] (dpop-nonce.ts) the stateless nonces,
    [DpopJson] and [DpopProof] (dpop-proof.ts) the proof, [DpopReplay] (dpop-replay.ts) its admission
    and [DpopChallenge] the responses together with what oidc-vault-dpop-client
    (auth-challenge.ts, nonce-cache.ts) makes of them. Admission is proved against the class
    [ReplayStoreLaws]; [memory_replay_laws] shows that [VaultDpop] satisfies it. Theorems:
    a proof is accepted at most once ([proof_accepted_once]) and only if signed for this request
    ([proof_sound], [admission_sound]); the duplicate scan is the JSON grammar's
    ([parse_object_exact]); nonces and challenges ([nonce_exact], [challenge_accepted],
    [challenge_delivered]); targets, bindings and options ([target_agrees], [binding_resolved],
    [options_resolved]).

    [ApiAccessToken] (access-token-confirmation.ts, the headers and error responses of
    access-token-middleware.ts, the JWT validator of token-validation.ts) and [ApiAuthenticator]
    (access-token-middleware.ts) authenticate an API request: a handler is cut at its awaits and
    the moves of hooks, observers, other authenticators and response objects come in any order.
    Theorems: what a guard that lets through may rely on ([guard_sound]), that a request goes
    downstream once and reentry poisons it ([downstream_once], [reentry_poisons]), that a good one is
    served ([bound_request_served]), how the client reads each denial ([denial_read],
    [every_denial_prepared]), and where a JWT's constraint comes from ([jwt_confirmation_signed]).

    A browser's way through the vault: [JsUri] is the standard library's percent-encoding,
    [VaultCookies] (cookies.ts, transaction-cookie.ts) the session cookie and the cookie that ties a
    login to its browser, [VaultRoute] (vault-route-proof.ts) the proof of a POST route. Theorems: a
    cookie is read back as it was written and only a well-formed single one counts
    ([session_cookie_returned], [browser_cookie_exact], [cookie_deadline]); the vault's snapshots of
    bindings are the memory store's ([guarded_match_agrees]); a proof selects or confirms a key and is
    taken by one route only ([route_binding_sound], [route_proof_once]).

    The routes themselves (index.ts). [RouteTask] makes a handler a tree of the calls it makes of its store, its
    proof verifier, the provider, the application's hooks and the clock, over every answer; [spec] is what holds
    at each call and at the end, [world] runs any number of handlers over one memory store. [PortableCopy]
    and [VaultRecords] (vault-session.ts, fingerprint-recognition.ts, authorization-transaction.ts) are the snapshots a
    handler trusts, [VaultOrigins] (config.ts, origins.ts, utils.ts) its configuration and source origins,
    [VaultProvider] (provider-client.ts, token-validation.ts, token-issuance.ts) what it makes of the provider's
    and the issuer's answers, [VaultHandler] the steps the handlers share. [VaultExchange] is exchange and
    refresh, [VaultLogin] both logins and the callback, [VaultNavigation] (logout-navigation.ts) the logout's
    continuation, [VaultLogout] the logouts. Theorems: what a request has shown when a credential is spent, a token
    issued or sessions are deleted, whatever the surroundings answer ([exchange_guarded], [refresh_guarded],
    [callback_guarded], [logout_guarded], [backchannel_guarded], [navigation_authorized]); that of requests side by
    side at most one gets through ([exchange_once], [refresh_once], [callback_once]); that a failure after a commit is
    rolled back or does not show ([issuance_rolls_back], [refresh_rolls_back], [logout_commits]); that what a
    request leaves behind is what the next one finds ([login_continues], [navigation_completes],
    [session_snapshot_stable], [recognition_restored], [portable_copy_detached]). [VaultScenario] runs one browser
    through all of them on the memory store and applies the theorems to these runs.

    oidc-vault-dpop-client is the browser's end. [ClientTypes] (errors.ts, cookie-session.ts, credentials.ts) reads
    credentials, [ClientState] (session-lifecycle.ts, the variables of auth-session.ts) is a session and a log of what it
    did, [ClientSession] (auth-session.ts) its methods, message handlers and timers as tasks of [ClientTask], which pause
    wherever the code awaits and interleave without restriction. [ClientInvariant] says which event may follow which log and
    what a process grants the others; [ClientChanges], [ClientLogic] and [ClientQuiet] are a rely-guarantee logic for the
    tasks, [ClientSafety] and [ClientRuns] prove every method in it. Theorems ([ClientTheorems], [ClientCredentials]), for
    every interleaving and all answers: superseded work is silent ([superseded_work_silent]), bodies take turns
    ([bodies_take_turns]) and present the latest handle ([latest_handle_presented]), stale failures and peers change
    nothing ([stale_failure_harmless], [stale_peer_harmless]), the credential in memory is current
    ([memory_is_current]); a peer reads a credential as it is held ([peer_reads_credential]). [ClientScenario] plays
    schedules of both transports.

    access-router serves models behind rules. [AccessRules] (permission.ts, acl/field-authorization.ts)
    decides fields per request and per document, [AccessComplexity] (request-complexity.ts) budgets
    requests, [AccessSort] (helpers/sort-policy.ts) sorts, [AccessGuard] (operation-access.ts) route
    guards, [AccessConcurrency] and [AccessHookGate] (helpers/concurrency.ts) bound concurrent work.
    Theorems compare the planner with the per-document evaluation ([prepared_decision_exact],
    [planned_field_sound]) and the counters with a declarative cost ([complexity_exact]); the
    schedulers keep their limits and order and never deadlock under any schedule, several gates as long as hooks call them
    upward in some order ([scheduler_fifo], [bounded_map_ordered], [gate_branches_bounded], [gate_never_stuck]).

    json-frame reads tables from JSON. [FrameValue] (errors.ts, types.ts) is its data, [FrameTraverse] (json.ts) the two
    iterative traversals over the containers of callers and [FrameAccept] what they accept; [FrameOptions] (options.ts),
    [FrameParse] and [FrameSchema] (parse/parse.ts) read the six layouts; [FrameColumn] (frame/column.ts) types and
    packs columns, [FrameExport] (export/payload.ts) writes the layouts, [FrameTable] (frame/DataFrame.ts, api.ts) is
    the frame. [FrameLaws], [FrameState], [FrameWf] and [FrameRoundtrip] are its lemmas, [FrameTheorems] the theorems:
    both traversals end, also on cycles, and accept the finite trees within the limits ([traversal_exact]); every frame
    a program can hold is well formed ([frames_well_formed]); packing is invisible ([packing_invisible]); layouts and
    records come back ([layout_roundtrip], [records_exact]); derived frames show the rows of their source
    ([filter_keeps_rows], [sort_orders_rows]); exports fail where they should ([key_collision_exact],
    [stringify_within_limits]). [FrameScenario] applies them to concrete frames.

    * Fuel and bounds

    Heap moves run with the heap's size as fuel, which the depth of a heap does not exceed; sweeps
    with the batch limit of the code. The JSON parser, the duplicate scan and the challenge scan have
    the length of the text, and every step consumes a unit of it. [assertOperationAccessUpdate] recurses at
    most three members deep. [owner] follows the parents of a hook frame, which are older frames, with
    their number as fuel; a portable copy the containers of its memory. A traversal of json-frame has [turns] turns, which
    the widest container and the depth limit bound. Functions that could run out return [option], and the theorems show
    [Some] for every well-formed state.

    * Not modelled

    Diagnostics observers, console warnings, error causes and metrics counters. The Redis and
    MongoDB stores, whose transitions run inside the database. Express wiring, streams, fetch,
    IndexedDB and WebCrypto glue; of the vault, the discovery and key-set caches, time-outs and body bounds of the
    provider client, middleware construction and diagnostics; of the browser client, the options, the automatic refresh, the
    credential observer and what surrounds the sessions (key store, proofs, HTTP, guarded fetch); the
    access-router services over Mongoose, its projection and publication; the asset inliner, runtime,
    message, moo, PDF and utility packages. *)

From Stdlib Require Export ZArith QArith Lia ZifyNat.
From stdpp Require Export base gmap strings list fin_maps.
Open Scope Z_scope.
Open Scope list_scope.

(** * Results: a value or an exception *)

Inductive result (E A : Type) : Type :=
  | Ok (a : A)
  | Err (e : E).
Arguments Ok {E A} a.
Arguments Err {E A} e.

Definition res_bind {E A B} (c : result E A) (k : A → result E B) : result E B :=
  match c with
  | Ok a => k a
  | Err e => Err e
  end.

Definition res_map {E A B} (f : A → B) (c : result E A) : result E B :=
  res_bind c (λ a, Ok (f a)).

(** [try { c } catch (e) { h(e) }] *)
Definition res_catch {E F A} (c : result E A) (h : E → result F A) : result F A :=
  match c with
  | Ok a => Ok a
  | Err e => h e
  end.

Definition is_ok {E A} (c : result E A) : bool :=
  match c with Ok _ => true | Err _ => false end.

Declare Scope res_scope.
Delimit Scope res_scope with res.
Notation "'let*' x ':=' c 'in' k" := (res_bind c (λ x, k))
  (at level 10, x pattern, c at level 100, k at level 200) : res_scope.
Notation "c ';;;' k" := (res_bind c (λ _, k))
  (at level 100, right associativity) : res_scope.
Open Scope res_scope.

(** [if (!b) throw e] *)
Definition guard {E} (b : bool) (e : E) : result E unit :=
  if b then Ok tt else Err e.

Fixpoint res_mapM {E A B} (f : A → result E B) (l : list A) : result E (list B) :=
  match l with
  | [] => Ok []
  | x :: l => let* y := f x in let* ys := res_mapM f l in Ok (y :: ys)
  end.

(** A loop over [l] that may throw: [for (const x of l) f(x)]. *)
Fixpoint res_iter {E A} (f : A → result E unit) (l : list A) : result E unit :=
  match l with
  | [] => Ok tt
  | x :: l => f x ;;; res_iter f l
  end.

Section result_lemmas.
Context {E A B : Type}.
Implicit Types (c : result E A) (k : A → result E B).

Lemma res_bind_Ok c k b : res_bind c k = Ok b ↔ ∃ a, c = Ok a ∧ k a = Ok b.
Proof. destruct c; naive_solver. Qed.

Lemma res_bind_Err c k e :
  res_bind c k = Err e ↔ c = Err e ∨ ∃ a, c = Ok a ∧ k a = Err e.
Proof. destruct c; naive_solver. Qed.

Lemma res_bind_cong c c' k k' :
  c = c' → (∀ a, c = Ok a → k a = k' a) → res_bind c k = res_bind c' k'.
Proof. intros <-. destruct c; naive_solver. Qed.

Lemma res_catch_Ok {F} c (h : E → result F A) a :
  res_catch c h = Ok a ↔ c = Ok a ∨ ∃ e, c = Err e ∧ h e = Ok a.
Proof. destruct c; naive_solver. Qed.

End result_lemmas.

Section result_loops.
Context {E A B : Type}.

Lemma res_mapM_Forall2 (f : A → result E B) l ys :
  res_mapM f l = Ok ys ↔ Forall2 (λ x y, f x = Ok y) l ys.
Proof.
  revert ys. induction l as [|x l IH]; intros ys; simpl.
  - split; [intros [= <-]; constructor | by inversion 1].
  - split.
    + intros (y & Hy & (ys' & Hys & [= <-])%res_bind_Ok)%res_bind_Ok.
      constructor; [done|]. by apply IH.
    + inversion 1; subst. apply res_bind_Ok. eexists; split; [done|].
      apply res_bind_Ok. eexists; split; [by apply IH|done].
Qed.

Lemma res_iter_Ok (f : A → result E unit) l :
  res_iter f l = Ok tt ↔ Forall (λ x, f x = Ok tt) l.
Proof.
  induction l as [|x l IH]; simpl; [split; [constructor|done]|].
  rewrite Forall_cons, <- IH. split.
  - intros ([] & ? & ?)%res_bind_Ok. done.
  - intros [? ?]. apply res_bind_Ok. by exists tt.
Qed.

End result_loops.

Section guards.
Context {E : Type}.

Lemma guard_Ok b (e : E) u : guard b e = Ok u ↔ b = true.
Proof. destruct b, u; naive_solver. Qed.

Lemma guard_Err b (e e' : E) : guard b e = Err e' ↔ b = false ∧ e = e'.
Proof. destruct b; naive_solver. Qed.
End guards.

(** * Automation *)

(** Facts about what travels on the wire: code units, bytes, alphabets. *)
Create HintDb wire.

(** [H], a chain of fallible steps, returned: name what its first step did. *)
Tactic Notation "res_step" hyp(H) "as" simple_intropattern(p) simple_intropattern(q) :=
  apply res_bind_Ok in H as (p & q & H).

(** Decompose every hypothesis that says a chain of fallible steps returned. *)
Ltac res_inv :=
  repeat match goal with
  | H : Ok _ = Ok _ |- _ => injection H as H
  | H : Err _ = Err _ |- _ => injection H as H
  | H : Ok _ = Err _ |- _ => discriminate H
  | H : Err _ = Ok _ |- _ => discriminate H
  | H : res_bind _ _ = Ok _ |- _ =>
      apply res_bind_Ok in H; destruct H as (? & ? & ?)
  | H : guard _ _ = Ok _ |- _ => apply guard_Ok in H
  | H : guard _ _ = Err _ |- _ => apply guard_Err in H; destruct H as [? ?]
  end; subst.

(** Case analysis on the scrutinee of a [match]/[if] in the goal or a hypothesis. *)
Ltac case_eqn :=
  match goal with
  | |- context [ match ?x with _ => _ end ] =>
      lazymatch x with context [ match _ with _ => _ end ] => fail | _ => destruct x eqn:? end
  end.
Ltac case_eqn_in H :=
  match type of H with
  | context [ match ?x with _ => _ end ] =>
      lazymatch x with context [ match _ with _ => _ end ] => fail | _ => destruct x eqn:? end
  end.

(** Turn boolean tests of [Z], [nat] and [bool] into propositions. *)
Ltac bool_prop :=
  repeat match goal with
  | H : _ && _ = true |- _ => apply andb_true_iff in H; destruct H
  | H : _ || _ = false |- _ => apply orb_false_iff in H; destruct H
  | H : negb _ = true |- _ => apply negb_true_iff in H
  | H : negb _ = false |- _ => apply negb_false_iff in H
  | H : Z.leb _ _ = true |- _ => apply Z.leb_le in H
  | H : Z.leb _ _ = false |- _ => apply Z.leb_gt in H
  | H : Z.ltb _ _ = true |- _ => apply Z.ltb_lt in H
  | H : Z.ltb _ _ = false |- _ => apply Z.ltb_ge in H
  | H : Z.eqb _ _ = true |- _ => apply Z.eqb_eq in H
  | H : Z.eqb _ _ = false |- _ => apply Z.eqb_neq in H
  | H : bool_decide _ = true |- _ => apply bool_decide_eq_true in H
  | H : bool_decide _ = false |- _ => apply bool_decide_eq_false in H
  end.

(** * Generic list lemmas *)

Section list_lemmas.
Context {A : Type}.
Implicit Types (l : list A).

Lemma lookup_snoc_cases l x y i :
  (l ++ [x]) !! i = Some y ↔ (i = length l ∧ y = x) ∨ (i < length l)%nat ∧ l !! i = Some y.
Proof.
  destruct (decide (i < length l)%nat) as [Hi|Hi].
  - rewrite lookup_app_l by done. split; [by right; eauto|]. intros [[-> ?]|[? ?]]; [lia|done].
  - rewrite lookup_app_r by lia. destruct (decide (i = length l)) as [->|Hne].
    + rewrite Nat.sub_diag. simpl. split; [intros [= ->]; by left|].
      intros [[_ ->]|[? ?]]; [done|lia].
    + rewrite list_lookup_singleton_Some. split; [intros [? ?]; lia|].
      intros [[? ?]|[? ?]]; lia.
Qed.

Lemma lookup_removelast l i :
  (i < length l - 1)%nat → (take (length l - 1) l) !! i = l !! i.
Proof. intros. rewrite lookup_take_lt; [done|lia]. Qed.
End list_lemmas.

(** * Generic set lemmas *)

(** A set that relates injectively into another is no larger. *)
Lemma injective_size {A B} `{Countable A, Countable B} (R : A → B → Prop) (X : gset A) (Y : gset B) :
  (∀ a, a ∈ X → ∃ b, b ∈ Y ∧ R a b) →
  (∀ a a' b, a ∈ X → a' ∈ X → R a b → R a' b → a = a') → (size X <= size Y)%nat.
Proof.
  revert Y. induction X as [|x X Hx IH] using set_ind_L; intros Y Hsome Hinj; [rewrite size_empty; lia|].
  destruct (Hsome x) as (b & Hb & Hxb); [set_solver|].
  assert (size X <= size (Y ∖ {[b]}))%nat as Hle.
  { apply IH; [|set_solver]. intros a Ha. destruct (Hsome a) as (b' & Hb' & Hab); [set_solver|].
    exists b'. split; [|done]. apply elem_of_difference. split; [done|]. intros ->%elem_of_singleton.
    assert (a = x) as -> by (eapply Hinj; set_solver). done. }
  rewrite size_union, size_singleton by set_solver.
  assert (size Y = S (size (Y ∖ {[b]})))%nat as ->; [|lia].
  rewrite (union_difference_L {[b]} Y) at 1 by set_solver. by rewrite size_union, size_singleton by set_solver.
Qed.
