(* ===== verification/JsValue.v ===== *)
(** JavaScript values, strings and the string functions the program uses.

    A string is the list of its UTF-16 code units; a number is a rational or
    one of the three special values (the two zeros are not told apart); a plain
    object is the list of its own enumerable string-keyed data properties in
    enumeration order.  [code_points] and [utf8_encode]/[utf8_decode] follow the
    string iterator, [TextEncoder] and the fatal [TextDecoder]. *)

From S2P Require Import Prelude.

(** * Strings *)

Abbreviation jsstr := (list Z).

Definition js (s : string) : jsstr :=
  map (λ b, Z.of_N (Byte.to_N b)) (String.list_byte_of_string s).

Definition jsstr_eqb (a b : jsstr) : bool := bool_decide (a = b).

Fixpoint starts_with (p s : jsstr) : bool :=
  match p, s with
  | [], _ => true
  | c :: p, d :: s => (c =? d) && starts_with p s
  | _, [] => false
  end.

(** [s.indexOf(c)] for a one-unit string; [None] for -1. *)
Fixpoint index_of (c : Z) (s : jsstr) : option nat :=
  match s with
  | [] => None
  | d :: s => if c =? d then Some 0%nat else S <$> index_of c s
  end.

Definition includes_char (c : Z) (s : jsstr) : bool := existsb (Z.eqb c) s.

(** [s.split(c)] for a one-unit separator: never empty. *)
Fixpoint split_on (c : Z) (s : jsstr) : list jsstr :=
  match s with
  | [] => [[]]
  | d :: s =>
      if c =? d then [] :: split_on c s
      else match split_on c s with
           | w :: ws => (d :: w) :: ws
           | [] => [[d]]
           end
  end.

Fixpoint join_with (c : Z) (ws : list jsstr) : jsstr :=
  match ws with
  | [] => []
  | [w] => w
  | w :: ws => w ++ c :: join_with c ws
  end.

Definition in_range (lo hi c : Z) : bool := (lo <=? c) && (c <=? hi).
Definition is_digit (c : Z) : bool := in_range 48 57 c.
Definition is_upper (c : Z) : bool := in_range 65 90 c.
Definition is_lower (c : Z) : bool := in_range 97 122 c.
Definition is_alpha (c : Z) : bool := is_upper c || is_lower c.
Definition is_alnum (c : Z) : bool := is_alpha c || is_digit c.
(** [[A-Za-z0-9_-]] *)
Definition name_unit (c : Z) : bool := is_alnum c || (c =? 95) || (c =? 45).
Definition is_hex_lower (c : Z) : bool := is_digit c || in_range 97 102 c.
Definition is_hex (c : Z) : bool := is_hex_lower c || in_range 65 70 c.

(** [toLowerCase]/[toUpperCase] on the ASCII letters; other units are kept. *)
Definition lower_unit (c : Z) : Z := if is_upper c then c + 32 else c.
Definition upper_unit (c : Z) : Z := if is_lower c then c - 32 else c.
Definition to_lower (s : jsstr) : jsstr := map lower_unit s.
Definition to_upper (s : jsstr) : jsstr := map upper_unit s.

(** ECMAScript white space and line terminators. *)
Definition is_space (c : Z) : bool :=
  in_range 9 13 c || (c =? 32) || (c =? 160) || (c =? 5760) || in_range 8192 8202 c
  || (c =? 8232) || (c =? 8233) || (c =? 8239) || (c =? 8287) || (c =? 12288) || (c =? 65279).

Fixpoint drop_while (p : Z → bool) (s : jsstr) : jsstr :=
  match s with
  | [] => []
  | c :: s' => if p c then drop_while p s' else s
  end.

Definition trim_by (p : Z → bool) (s : jsstr) : jsstr :=
  reverse (drop_while p (reverse (drop_while p s))).
Definition trim (s : jsstr) : jsstr := trim_by is_space s.

(** [s.slice(a, b)] for [0 <= a <= b]. *)
Definition slice (a b : nat) (s : jsstr) : jsstr := take (b - a) (drop a s).

Definition all_units (p : Z → bool) (s : jsstr) : bool := forallb p s.

(** * Code points and UTF-8 *)

Definition is_high (u : Z) : bool := in_range 55296 56319 u.
Definition is_low (u : Z) : bool := in_range 56320 57343 u.
Definition is_surrogate (u : Z) : bool := in_range 55296 57343 u.

(** The string iterator: surrogate pairs are joined, lone surrogates kept. *)
Fixpoint code_points (s : jsstr) : list Z :=
  match s with
  | [] => []
  | u :: s' =>
      match s' with
      | v :: s'' =>
          if is_high u && is_low v
          then (65536 + (u - 55296) * 1024 + (v - 56320)) :: code_points s''
          else u :: code_points s'
      | [] => [u]
      end
  end.

Definition utf8_of_code_point (c : Z) : list Z :=
  if c <? 128 then [c]
  else if c <? 2048 then [192 + c / 64; 128 + c mod 64]
  else if is_surrogate c then [239; 191; 189]
  else if c <? 65536 then [224 + c / 4096; 128 + c / 64 mod 64; 128 + c mod 64]
  else [240 + c / 262144; 128 + c / 4096 mod 64; 128 + c / 64 mod 64; 128 + c mod 64].

(** [new TextEncoder().encode(s)]: a lone surrogate becomes U+FFFD. *)
Definition utf8_encode (s : jsstr) : list Z := flat_map utf8_of_code_point (code_points s).

Definition units_of_code_point (c : Z) : jsstr :=
  if c <? 65536 then [c]
  else [55296 + (c - 65536) / 1024; 56320 + (c - 65536) mod 1024].

Definition is_cont (b : Z) : bool := in_range 128 191 b.

(** One code point of valid UTF-8, with the rest of the bytes. *)
Definition utf8_next (bs : list Z) : option (Z * list Z) :=
  match bs with
  | b0 :: bs1 =>
      if b0 <? 128 then Some (b0, bs1)
      else if in_range 194 223 b0 then
        match bs1 with
        | b1 :: r => if is_cont b1 then Some ((b0 - 192) * 64 + (b1 - 128), r) else None
        | _ => None
        end
      else if in_range 224 239 b0 then
        match bs1 with
        | b1 :: b2 :: r =>
            let lo := if b0 =? 224 then 160 else 128 in
            let hi := if b0 =? 237 then 159 else 191 in
            if in_range lo hi b1 && is_cont b2
            then Some ((b0 - 224) * 4096 + (b1 - 128) * 64 + (b2 - 128), r) else None
        | _ => None
        end
      else if in_range 240 244 b0 then
        match bs1 with
        | b1 :: b2 :: b3 :: r =>
            let lo := if b0 =? 240 then 144 else 128 in
            let hi := if b0 =? 244 then 143 else 191 in
            if in_range lo hi b1 && is_cont b2 && is_cont b3
            then Some ((b0 - 240) * 262144 + (b1 - 128) * 4096 + (b2 - 128) * 64 + (b3 - 128), r)
            else None
        | _ => None
        end
      else None
  | [] => None
  end.

Fixpoint utf8_units (fuel : nat) (bs : list Z) : option jsstr :=
  match bs with
  | [] => Some []
  | _ =>
      match fuel with
      | O => None
      | S fuel =>
          '(c, r) ← utf8_next bs;
          s ← utf8_units fuel r;
          Some (units_of_code_point c ++ s)
      end
  end.

(** [new TextDecoder('utf-8', { fatal: true }).decode(bs)]; a leading byte-order
    mark is consumed. *)
Definition utf8_decode (bs : list Z) : option jsstr :=
  let bs := if starts_with [239; 187; 191] bs then drop 3 bs else bs in
  utf8_units (length bs) bs.

(** * Numbers *)

Inductive num :=
  | NaN
  | Infty (negative : bool)
  | Fin (q : Q).

Definition num_of_Z (z : Z) : num := Fin (inject_Z z).

Definition MAX_SAFE_INTEGER : Z := 9007199254740991.

Definition Q_to_Z (q : Q) : option Z :=
  if Z.eqb (Z.rem (Qnum q) (Zpos (Qden q))) 0 then Some (Z.quot (Qnum q) (Zpos (Qden q))) else None.

Definition is_finite (n : num) : bool := match n with Fin _ => true | _ => false end.

(** [Number.isSafeInteger(n)], with the integer when it holds. *)
Definition safe_integer (n : num) : option Z :=
  match n with
  | Fin q => z ← Q_to_Z q; if Z.abs z <=? MAX_SAFE_INTEGER then Some z else None
  | _ => None
  end.
Definition is_safe (z : Z) : bool := Z.abs z <=? MAX_SAFE_INTEGER.

(** [a <= b] and [a === b]; false as soon as one side is NaN. *)
Definition num_le (a b : num) : bool :=
  match a, b with
  | NaN, _ | _, NaN => false
  | Infty true, _ | _, Infty false => true
  | Infty false, _ | _, Infty true => false
  | Fin p, Fin q => Qle_bool p q
  end.
Definition num_eqb (a b : num) : bool :=
  match a, b with
  | Fin p, Fin q => Qeq_bool p q
  | Infty b1, Infty b2 => Bool.eqb b1 b2
  | _, _ => false
  end.
Definition num_lt (a b : num) : bool := num_le a b && negb (num_le b a).

(** * Values *)

Inductive jsval :=
  | JUndef
  | JNull
  | JBool (b : bool)
  | JNum (n : num)
  | JStr (s : jsstr)
  | JArr (l : list jsval)
  | JObj (plain : bool) (fields : list (jsstr * jsval))
  | JBytes (bs : list Z)            (** a [Uint8Array] *)
  | JFun (id : nat).

Section jsval_ind'.
Variable Pv : jsval → Prop.
Hypothesis Hundef : Pv JUndef.
Hypothesis Hnull : Pv JNull.
Hypothesis Hbool : ∀ b, Pv (JBool b).
Hypothesis Hnum : ∀ n, Pv (JNum n).
Hypothesis Hstr : ∀ s, Pv (JStr s).
Hypothesis Harr : ∀ l, Forall Pv l → Pv (JArr l).
Hypothesis Hobj : ∀ p fs, Forall (λ kv, Pv kv.2) fs → Pv (JObj p fs).
Hypothesis Hbytes : ∀ bs, Pv (JBytes bs).
Hypothesis Hfun : ∀ id, Pv (JFun id).

Fixpoint jsval_ind' (v : jsval) : Pv v :=
match v with
| JUndef => Hundef
| JNull => Hnull
| JBool b => Hbool b
| JNum n => Hnum n
| JStr s => Hstr s
| JArr l => Harr l ((fix go l : Forall Pv l :=
    match l with [] => Forall_nil_2 _ | v :: l => Forall_cons_2 _ _ _ (jsval_ind' v) (go l) end) l)
| JObj p fs => Hobj p fs ((fix go fs : Forall (λ kv, Pv kv.2) fs :=
    match fs with [] => Forall_nil_2 _ | kv :: fs => Forall_cons_2 _ _ _ (jsval_ind' kv.2) (go fs) end) fs)
| JBytes bs => Hbytes bs
| JFun id => Hfun id
end.
End jsval_ind'.

Definition is_undef (v : jsval) : bool := match v with JUndef => true | _ => false end.
Definition is_array (v : jsval) : bool := match v with JArr _ => true | _ => false end.

(** [value !== null && typeof value === 'object' && !Array.isArray(value)] *)
Definition is_non_array_object (v : jsval) : bool :=
  match v with JObj _ _ | JBytes _ => true | _ => false end.

(** [a === b] on primitives; two objects are different objects. *)
Definition js_strict_eq (a b : jsval) : bool :=
  match a, b with
  | JUndef, JUndef | JNull, JNull => true
  | JBool x, JBool y => Bool.eqb x y
  | JNum x, JNum y => num_eqb x y
  | JStr x, JStr y => jsstr_eqb x y
  | _, _ => false
  end.

Fixpoint field_lookup {A} (fs : list (jsstr * A)) (k : jsstr) : option A :=
  match fs with
  | [] => None
  | (k', v) :: fs => if jsstr_eqb k k' then Some v else field_lookup fs k
  end.

(** [value.k] for a property that no prototype provides. *)
Definition get_field (v : jsval) (k : jsstr) : jsval :=
  match v with
  | JObj _ fs => default JUndef (field_lookup fs k)
  | _ => JUndef
  end.

(** [value ?? d] *)
Definition nullish_or (v d : jsval) : jsval :=
  match v with JUndef | JNull => d | _ => v end.

(** An array index: a canonical decimal below [2^32 - 1]. *)
Definition digits_value (s : jsstr) : Z := fold_left (λ acc c, acc * 10 + (c - 48)) s 0.
Definition array_index (k : jsstr) : option Z :=
  match k with
  | [48] => Some 0
  | c :: _ =>
      if negb (c =? 48) && all_units is_digit k && (digits_value k <? 4294967295)
      then Some (digits_value k) else None
  | [] => None
  end.

(** [CreateDataProperty]: a present key keeps its place; a new array index goes
    among the indices in ascending order; any other new key goes last. *)
Fixpoint insert_field {A} (fs : list (jsstr * A)) (k : jsstr) (v : A) : list (jsstr * A) :=
  match fs with
  | [] => [(k, v)]
  | (k', v') :: fs' =>
      match array_index k, array_index k' with
      | Some i, Some j => if i <? j then (k, v) :: fs else (k', v') :: insert_field fs' k v
      | Some _, None => (k, v) :: fs
      | None, _ => (k', v') :: insert_field fs' k v
      end
  end.
Definition set_field {A} (fs : list (jsstr * A)) (k : jsstr) (v : A) : list (jsstr * A) :=
  match field_lookup fs k with
  | Some _ => map (λ kv, if jsstr_eqb kv.1 k then (kv.1, v) else kv) fs
  | None => insert_field fs k v
  end.

(** The members of a parsed WHATWG [URL] that the program reads.  The parser
    itself is a parameter of the definitions that call [new URL]. *)
Record URL := mkURL {
  url_href : jsstr;
  url_protocol : jsstr;
  url_username : jsstr;
  url_password : jsstr;
  url_host : jsstr;
  url_hostname : jsstr;
  url_pathname : jsstr;
  url_search : jsstr;
  url_hash : jsstr
}.

(** * String lemmas *)

Lemma in_range_spec lo hi c : in_range lo hi c = true ↔ lo <= c <= hi.
Proof. unfold in_range. rewrite andb_true_iff, !Z.leb_le. lia. Qed.
Lemma in_range_false lo hi c : in_range lo hi c = false ↔ c < lo ∨ hi < c.
Proof. rewrite <- not_true_iff_false, in_range_spec. lia. Qed.

(** Turn unit-class tests into arithmetic. *)
Ltac unit_class :=
  unfold is_alnum, is_alpha, is_hex, is_hex_lower, is_digit, is_upper, is_lower, is_high,
    is_low, is_surrogate, is_cont in *;
  rewrite ?orb_true_iff, ?andb_true_iff, ?in_range_spec, ?Z.eqb_eq in *;
  repeat match goal with
  | H : _ || _ = false |- _ => apply orb_false_iff in H; destruct H
  | H : in_range _ _ _ = false |- _ => apply in_range_false in H
  | H : in_range _ _ _ = true |- _ => apply in_range_spec in H
  | H : (_ <? _) = true |- _ => apply Z.ltb_lt in H
  | H : (_ <? _) = false |- _ => apply Z.ltb_ge in H
  | H : (_ =? _) = true |- _ => apply Z.eqb_eq in H
  | H : (_ =? _) = false |- _ => apply Z.eqb_neq in H
  end.

Definition unit_ok (u : Z) : Prop := 0 <= u < 65536.
Definition units_ok (s : jsstr) : Prop := Forall unit_ok s.
(** No lone surrogate. *)
Definition well_formed (s : jsstr) : Prop :=
  units_ok s ∧ Forall (λ c, is_surrogate c = false) (code_points s).

Lemma jsstr_eqb_true a b : jsstr_eqb a b = true ↔ a = b.
Proof. unfold jsstr_eqb. by rewrite bool_decide_eq_true. Qed.
Lemma jsstr_eqb_false a b : jsstr_eqb a b = false ↔ a ≠ b.
Proof. unfold jsstr_eqb. by rewrite bool_decide_eq_false. Qed.
Lemma jsstr_eqb_refl a : jsstr_eqb a a = true.
Proof. by rewrite jsstr_eqb_true. Qed.

Lemma starts_with_spec p s : starts_with p s = true ↔ ∃ r, s = p ++ r.
Proof.
  revert s. induction p as [|c p IH]; intros s; simpl; [naive_solver|].
  destruct s as [|d s]; simpl; [naive_solver|].
  rewrite andb_true_iff, Z.eqb_eq, IH. naive_solver.
Qed.

(** Pairs are joined left to right: an induction that follows the iterator. *)
Lemma code_points_ind (Pc : jsstr → Prop) :
  Pc [] →
  (∀ u v s, is_high u = true → is_low v = true → Pc s → Pc (u :: v :: s)) →
  (∀ u s, (∀ v s', s = v :: s' → is_high u && is_low v = false) → Pc s → Pc (u :: s)) →
  ∀ s, Pc s.
Proof.
  intros Hnil Hpair Hsingle s.
  remember (length s) as n eqn:Hn. revert s Hn.
  induction n as [n IHn] using lt_wf_ind. intros [|u s] ->; [done|].
  destruct s as [|v s].
  - apply Hsingle; [done|]. done.
  - destruct (is_high u && is_low v) eqn:E.
    + apply andb_true_iff in E as [??]. apply Hpair; [done..|].
      eapply IHn; [|done]. simpl. lia.
    + apply Hsingle; [naive_solver|]. eapply IHn; [|done]. simpl. lia.
Qed.

Lemma code_points_pair u v s :
  is_high u = true → is_low v = true →
  code_points (u :: v :: s) = (65536 + (u - 55296) * 1024 + (v - 56320)) :: code_points s.
Proof. intros Hu Hv. simpl. by rewrite Hu, Hv. Qed.

Lemma code_points_single u s :
  (∀ v s', s = v :: s' → is_high u && is_low v = false) →
  code_points (u :: s) = u :: code_points s.
Proof.
  intros H. destruct s as [|v s]; [done|]. simpl. by rewrite (H v s).
Qed.

Lemma code_points_range s :
  units_ok s → Forall (λ c, 0 <= c < 1114112) (code_points s).
Proof.
  induction s as [|u v s Hu Hv IH|u s Hs IH] using code_points_ind; intros Hok.
  - constructor.
  - rewrite code_points_pair by done. unfold units_ok in Hok. rewrite !Forall_cons in Hok.
    destruct Hok as (?&?&?). constructor; [|by apply IH]. unit_class. lia.
  - rewrite code_points_single by done. inversion Hok as [|? ? Hu Hrest]; subst.
    constructor; [unfold unit_ok in Hu; lia|by apply IH].
Qed.

Lemma units_of_code_points s :
  units_ok s → flat_map units_of_code_point (code_points s) = s.
Proof.
  induction s as [|u v s Hu Hv IH|u s Hs IH] using code_points_ind; intros Hok; [done|..].
  - rewrite code_points_pair by done. unfold units_ok in Hok. rewrite !Forall_cons in Hok.
    destruct Hok as (?&?&?). simpl. rewrite IH by done. unfold units_of_code_point. unit_class.
    rewrite (proj2 (Z.ltb_ge _ _)) by lia. simpl. repeat f_equal; lia.
  - rewrite code_points_single by done. inversion Hok as [|? ? Hu Hrest]; subst. simpl.
    rewrite IH by done. unfold units_of_code_point, unit_ok in *.
    by rewrite (proj2 (Z.ltb_lt _ _)) by lia.
Qed.

Lemma utf8_next_code_point c r :
  0 <= c < 1114112 → is_surrogate c = false →
  utf8_next (utf8_of_code_point c ++ r) = Some (c, r).
Proof.
  intros Hc Hs. apply in_range_false in Hs. unfold utf8_of_code_point.
  destruct (Z.ltb_spec c 128).
  { simpl. by rewrite (proj2 (Z.ltb_lt _ _)) by lia. }
  destruct (Z.ltb_spec c 2048).
  { simpl. rewrite (proj2 (Z.ltb_ge _ _)), (proj2 (in_range_spec _ _ _)) by lia.
    unfold is_cont. rewrite (proj2 (in_range_spec _ _ _)) by lia. repeat f_equal; lia. }
  unfold is_surrogate. rewrite (proj2 (in_range_false _ _ _)) by lia.
  destruct (Z.ltb_spec c 65536).
  { simpl. rewrite (proj2 (Z.ltb_ge _ _)), (proj2 (in_range_false 194 _ _)),
      (proj2 (in_range_spec 224 _ _)) by lia.
    unfold is_cont.
    assert (in_range (if 224 + c / 4096 =? 224 then 160 else 128)
              (if 224 + c / 4096 =? 237 then 159 else 191) (128 + c / 64 mod 64) = true) as ->.
    { apply in_range_spec. destruct (Z.eqb_spec (224 + c / 4096) 224), (Z.eqb_spec (224 + c / 4096) 237); lia. }
    rewrite (proj2 (in_range_spec 128 _ _)) by lia. simpl. repeat f_equal; lia. }
  simpl. rewrite (proj2 (Z.ltb_ge _ _)), (proj2 (in_range_false 194 _ _)),
    (proj2 (in_range_false 224 _ _)), (proj2 (in_range_spec 240 _ _)) by lia.
  unfold is_cont.
  assert (in_range (if 240 + c / 262144 =? 240 then 144 else 128)
            (if 240 + c / 262144 =? 244 then 143 else 191) (128 + c / 4096 mod 64) = true) as ->.
  { apply in_range_spec. destruct (Z.eqb_spec (240 + c / 262144) 240), (Z.eqb_spec (240 + c / 262144) 244); lia. }
  rewrite !(proj2 (in_range_spec 128 191 _)) by lia. simpl. repeat f_equal; lia.
Qed.

Lemma utf8_of_code_point_length c : (0 < length (utf8_of_code_point c))%nat.
Proof. unfold utf8_of_code_point. repeat case_match; simpl; lia. Qed.

Lemma utf8_units_code_points cs fuel :
  Forall (λ c, 0 <= c < 1114112) cs → Forall (λ c, is_surrogate c = false) cs →
  (length (flat_map utf8_of_code_point cs) <= fuel)%nat →
  utf8_units fuel (flat_map utf8_of_code_point cs) = Some (flat_map units_of_code_point cs).
Proof.
  intros Hr Hs. revert fuel. induction cs as [|c cs IH]; intros fuel Hf; [by destruct fuel|].
  inversion Hr; inversion Hs; subst. simpl in *. rewrite length_app in Hf.
  pose proof (utf8_of_code_point_length c).
  destruct fuel as [|fuel]; [lia|]. cbn [utf8_units].
  destruct (utf8_of_code_point c ++ flat_map utf8_of_code_point cs) as [|b bs] eqn:E.
  { apply app_eq_nil in E as [E _]. rewrite E in *. simpl in *. lia. }
  rewrite <- E, utf8_next_code_point by done. simpl. rewrite IH by (done || lia). done.
Qed.

(** Encoding then decoding a string without lone surrogates. *)
Lemma utf8_roundtrip s :
  well_formed s → starts_with [239; 187; 191] (utf8_encode s) = false →
  utf8_decode (utf8_encode s) = Some s.
Proof.
  intros [Hok Hwf] Hbom. unfold utf8_decode. rewrite Hbom. unfold utf8_encode.
  rewrite utf8_units_code_points by (done || by apply code_points_range).
  by rewrite units_of_code_points.
Qed.

Lemma utf8_encode_inj s t :
  well_formed s → well_formed t → utf8_encode s = utf8_encode t → s = t.
Proof.
  intros [Hs1 Hs2] [Ht1 Ht2] E. unfold utf8_encode in E.
  pose proof (utf8_units_code_points (code_points s) _ (code_points_range _ Hs1) Hs2 (Nat.le_refl _)) as H1.
  pose proof (utf8_units_code_points (code_points t) _ (code_points_range _ Ht1) Ht2 (Nat.le_refl _)) as H2.
  rewrite E in H1. rewrite H1 in H2. injection H2 as H2.
  rewrite !units_of_code_points in H2; done.
Qed.

(** ASCII text is its own encoding. *)
Definition is_ascii (c : Z) : bool := in_range 0 127 c.

Lemma ascii_code_points s : forallb is_ascii s = true → code_points s = s.
Proof.
  induction s as [|u s IH]; [done|]. cbn [forallb]. intros [Hu Hs]%andb_true_iff.
  rewrite code_points_single; [by rewrite IH|]. intros v s' ->. unfold is_ascii in Hu.
  apply in_range_spec in Hu. apply andb_false_iff. left. apply in_range_false. lia.
Qed.

Lemma ascii_well_formed s : forallb is_ascii s = true → well_formed s.
Proof.
  intros Hs. split.
  - apply Forall_forall. intros u Hu. rewrite forallb_forall in Hs.
    specialize (Hs u). unfold is_ascii in Hs. rewrite in_range_spec, <- list_elem_of_In in Hs.
    unfold unit_ok. naive_solver lia.
  - rewrite ascii_code_points by done. apply Forall_forall. intros u Hu.
    rewrite forallb_forall in Hs. specialize (Hs u). unfold is_ascii in Hs.
    rewrite in_range_spec, <- list_elem_of_In in Hs. apply in_range_false. naive_solver lia.
Qed.

Lemma ascii_utf8 s : forallb is_ascii s = true → utf8_encode s = s.
Proof.
  intros Hs. unfold utf8_encode. rewrite ascii_code_points by done.
  induction s as [|u s IH]; [done|]. simpl in *. apply andb_true_iff in Hs as [Hu Hs].
  rewrite IH by done. unfold is_ascii in Hu. apply in_range_spec in Hu.
  unfold utf8_of_code_point. by rewrite (proj2 (Z.ltb_lt _ _)) by lia.
Qed.

Lemma code_points_app s t :
  Forall (λ c, is_surrogate c = false) (code_points s) →
  code_points (s ++ t) = code_points s ++ code_points t.
Proof.
  induction s as [|u v s Hu Hv IH|u s Hs IH] using code_points_ind; intros Hwf; [done|..].
  - rewrite code_points_pair in * by done. inversion Hwf; subst.
    cbn [app]. by rewrite code_points_pair, IH.
  - rewrite code_points_single in Hwf by done. inversion Hwf as [|? ? Hu Hrest]; subst.
    cbn [app]. rewrite !code_points_single, IH; [done..|].
    intros v s' _. apply andb_false_iff. left. unit_class. apply in_range_false. lia.
Qed.

Lemma well_formed_app s t : well_formed s → well_formed t → well_formed (s ++ t).
Proof.
  intros [Hs1 Hs2] [Ht1 Ht2]. split; [by apply Forall_app|].
  rewrite code_points_app by done. by apply Forall_app.
Qed.

Lemma well_formed_nil : well_formed [].
Proof. split; constructor. Qed.

Lemma well_formed_pair u v : unit_ok u → unit_ok v → is_high u = true → is_low v = true →
  well_formed [u; v].
Proof.
  intros Hu Hv Hh Hl. split; [apply Forall_cons; split; [done|]; apply Forall_cons; split; [done|constructor]|].
  rewrite code_points_pair by done.
  repeat constructor. unit_class. apply in_range_false. lia.
Qed.

Lemma well_formed_unit u : unit_ok u → is_surrogate u = false → well_formed [u].
Proof. intros Hu Hs. split; apply Forall_cons; (split; [done|constructor]). Qed.

(** * Decoding then encoding UTF-8 *)

Definition scalar (c : Z) : Prop := 0 <= c < 1114112 ∧ is_surrogate c = false.

Lemma utf8_next_inv bs c r :
  Forall (λ b, 0 <= b) bs → utf8_next bs = Some (c, r) →
  bs = utf8_of_code_point c ++ r ∧ scalar c.
Proof.
  intros Hpos H. destruct bs as [|b0 bs]; [done|]. apply Forall_cons in Hpos as [H0 _].
  unfold scalar, utf8_of_code_point. cbn [utf8_next] in H.
  repeat case_match; simplify_eq; bool_prop; unit_class; rewrite ?in_range_false in *;
    split_and!; try lia; rewrite ?in_range_false; try lia; cbn [app]; repeat f_equal; try lia.
Qed.

Lemma code_points_units cs :
  Forall scalar cs → code_points (flat_map units_of_code_point cs) = cs.
Proof.
  induction cs as [|c cs IH]; [done|]. intros [[Hc Hs] Hcs]%Forall_cons.
  cbn [flat_map]. apply in_range_false in Hs.
  unfold units_of_code_point at 1. destruct (Z.ltb_spec c 65536); cbn [app].
  - rewrite code_points_single, IH; [done..|].
    intros v s' _. apply andb_false_iff. left. apply in_range_false. lia.
  - rewrite code_points_pair, IH; [f_equal; lia|done|apply in_range_spec; lia|apply in_range_spec; lia].
Qed.

Lemma utf8_units_inv fuel bs s :
  Forall (λ b, 0 <= b) bs → utf8_units fuel bs = Some s →
  ∃ cs, Forall scalar cs ∧ s = flat_map units_of_code_point cs ∧ bs = flat_map utf8_of_code_point cs.
Proof.
  revert bs s. induction fuel as [|fuel IH]; intros bs s Hpos H.
  { destruct bs; simplify_eq/=. by exists []. }
  cbn [utf8_units] in H. destruct bs as [|b bs]; [simplify_eq; by exists []|].
  destruct (utf8_next (b :: bs)) as [[c r]|] eqn:E; [|done]. cbn [mbind option_bind] in H.
  destruct (utf8_units fuel r) as [s'|] eqn:E'; [|done]. cbn [mbind option_bind] in H.
  apply utf8_next_inv in E as [Hbs Hc]; [|done]. rewrite Hbs in Hpos |- *.
  apply Forall_app in Hpos as [_ Hr]. destruct (IH _ _ Hr E') as (cs & Hcs & -> & ->).
  exists (c :: cs). simplify_eq. split_and!; [by constructor|done..].
Qed.

Lemma utf8_decode_inv bs s :
  Forall (λ b, 0 <= b) bs → starts_with [239; 187; 191] bs = false →
  utf8_decode bs = Some s → utf8_encode s = bs.
Proof.
  intros Hpos Hbom. unfold utf8_decode. rewrite Hbom. intros H.
  apply utf8_units_inv in H as (cs & Hcs & -> & ->); [|done].
  unfold utf8_encode. by rewrite code_points_units.
Qed.

Lemma utf8_encode_bytes s : units_ok s → Forall (λ b, 0 <= b < 256) (utf8_encode s).
Proof.
  intros Hs%code_points_range. unfold utf8_encode. induction Hs as [|c cs Hc Hcs IH]; [constructor|].
  cbn [flat_map]. apply Forall_app. split; [|done]. unfold utf8_of_code_point.
  repeat case_match; repeat constructor; unit_class; try lia.
Qed.

Lemma all_units_impl (p q : Z → bool) s :
  (∀ c, p c = true → q c = true) → all_units p s = true → all_units q s = true.
Proof. unfold all_units. rewrite !forallb_forall. naive_solver. Qed.

Lemma ascii_units_ok s : all_units is_ascii s = true → units_ok s.
Proof. intros H. by apply ascii_well_formed. Qed.

Lemma index_of_Some c s i :
  index_of c s = Some i → s = take i s ++ c :: drop (S i) s ∧ index_of c (take i s) = None.
Proof.
  revert i. induction s as [|d s IH]; intros i; cbn; [done|].
  destruct (Z.eqb_spec c d) as [->|Hne]; [by intros [= <-]|].
  intros (j & Hj & ->)%fmap_Some. destruct (IH j Hj) as [Hs Hno]. cbn.
  rewrite (proj2 (Z.eqb_neq _ _)) by done. rewrite Hno. by rewrite <- Hs.
Qed.

(** Appending after a unit that is no low surrogate does not join pairs. *)
Lemma code_points_snoc s u t :
  is_low u = false → code_points (s ++ u :: t) = code_points s ++ code_points (u :: t).
Proof.
  intros Hu. induction s as [|a b s Ha Hb IH|a s Hs IH] using code_points_ind; [done|..].
  - cbn [app]. by rewrite !code_points_pair, IH.
  - cbn [app]. rewrite (code_points_single a s), code_points_single, IH; [done|..|done].
    intros v s' E. destruct s as [|b s]; cbn in E; simplify_eq; [by rewrite Hu, andb_false_r|].
    by eapply Hs.
Qed.

Lemma trim_by_idempotent p s : trim_by p (trim_by p s) = trim_by p s.
Proof.
  assert (∀ t, drop_while p (drop_while p t) = drop_while p t) as Hd.
  { intros t. induction t as [|c t IH]; [done|]. cbn. destruct (p c) eqn:E; [done|]. cbn. by rewrite E. }
  assert (∀ t, drop_while p t = t → drop_while p (reverse (drop_while p (reverse t))) =
            reverse (drop_while p (reverse t))) as Hkeep.
  { intros t Ht. destruct t as [|c t]; [done|]. cbn in Ht. destruct (p c) eqn:E.
    - assert (length (drop_while p t) <= length t)%nat as Hl.
      { clear. induction t as [|d t IH]; cbn; [lia|]. case_match; cbn; lia. }
      rewrite Ht in Hl. cbn in Hl. lia.
    - assert (∀ r, drop_while p (r ++ [c]) = drop_while p r ++ [c]) as Hsnoc.
      { induction r as [|d r IHr]; cbn; [by rewrite E|]. by case_match. }
      rewrite reverse_cons, Hsnoc, reverse_app. cbn. by rewrite E. }
  unfold trim_by. rewrite (Hkeep (drop_while p s)) by apply Hd.
  by rewrite reverse_involutive, Hd.
Qed.

Lemma num_le_trans a b c : num_le a b = true → num_le b c = true → num_le a c = true.
Proof.
  destruct a as [|[]|p], b as [|[]|q], c as [|[]|r]; cbn; try done.
  rewrite !Qle_bool_iff. apply Qle_trans.
Qed.

#[export] Hint Resolve ascii_units_ok : wire.
