(* ===== verification/JsJson.v ===== *)
(** [JSON.parse] and [JSON.stringify] of ECMAScript, as the wire codec uses them.

    Numbers are read exactly and then rounded to binary64 ([double_of_Q]);
    safe integers, the only numbers the protocol accepts, are their own
    rounding.  [JSON.stringify] is without replacer, indentation or [toJSON]
    hooks; [JSON.parse] is without a reviver.  The recursion of the parser is
    bounded by the length of the text, which no nesting exceeds. *)

From S2P Require Import Prelude JsValue.

(** * Decimal integers *)

Fixpoint dec_digits (fuel : nat) (n : Z) : jsstr :=
  match fuel with
  | O => []
  | S fuel => if n <? 10 then [48 + n] else dec_digits fuel (n / 10) ++ [48 + n mod 10]
  end.

Definition dec_of_Z (z : Z) : jsstr :=
  let digits n := dec_digits (S (Z.to_nat (Z.log2 n))) n in
  if z <? 0 then 45 :: digits (- z) else digits z.

(** * Binary64 rounding of exact rationals *)

Definition round_half_even (n d : Z) : Z :=
  let q := n / d in
  let r := n mod d in
  if 2 * r <? d then q
  else if d <? 2 * r then q + 1
  else if Z.even q then q else q + 1.

(** Greatest [l] with [2^l <= n/d], for positive [n] and [d]. *)
Definition floor_log2 (n d : Z) : Z :=
  let l := Z.log2 n - Z.log2 d in
  if 0 <=? l then (if 2 ^ l * d <=? n then l else l - 1)
  else (if d <=? n * 2 ^ (- l) then l else l - 1).

Definition round_binary64 (q : Q) : num :=
  let n := Z.abs (Qnum q) in
  let d := Zpos (Qden q) in
  if n =? 0 then num_of_Z 0
  else
    let p := Z.max (floor_log2 n d - 52) (-1074) in
    let m := if 0 <=? p then round_half_even n (d * 2 ^ p) else round_half_even (n * 2 ^ (- p)) d in
    let v := if 0 <=? p then inject_Z (m * 2 ^ p) else Qmake m (Z.to_pos (2 ^ (- p))) in
    if Qle_bool (inject_Z (2 ^ 1024)) v then Infty (Qnum q <? 0)
    else Fin (if Qnum q <? 0 then Qopp v else v).

Definition double_of_Q (q : Q) : num :=
  match Q_to_Z q with
  | Some z => if is_safe z then num_of_Z z else round_binary64 q
  | None => round_binary64 q
  end.

(** [a - b], rounded. *)
Definition num_sub (a b : num) : num :=
  match a, b with
  | Fin p, Fin q => double_of_Q (Qplus p (Qopp q))
  | NaN, _ | _, NaN => NaN
  | Infty x, Infty y => if Bool.eqb x y then NaN else Infty x
  | Infty x, Fin _ => Infty x
  | Fin _, Infty y => Infty (negb y)
  end.

(** * [Number::toString] *)

Definition zeros (n : Z) : jsstr := repeat 48 (Z.to_nat n).

Definition Q_pow10 (e : Z) : Q :=
  if 0 <=? e then inject_Z (10 ^ e) else Qmake 1 (Z.to_pos (10 ^ (- e))).

(** [n] with [10^(n-1) <= q < 10^n], for positive [q]. *)
Definition dec_exponent (q : Q) : Z :=
  let n0 := Z.of_nat (length (dec_of_Z (Qnum q))) - Z.of_nat (length (dec_of_Z (Zpos (Qden q)))) in
  if Qle_bool (Q_pow10 n0) q then n0 + 1 else n0.

(** Fewest significant digits that read back as [q]: digits and exponent. *)
Fixpoint shortest_digits (fuel : nat) (k n : Z) (q : Q) : jsstr * Z :=
  let scaled := Qmult q (Q_pow10 (k - n)) in
  let s := round_half_even (Qnum scaled) (Zpos (Qden scaled)) in
  let back := double_of_Q (Qmult (inject_Z s) (Q_pow10 (n - k))) in
  match fuel with
  | O => (dec_of_Z s, n)
  | S fuel =>
      if num_eqb back (Fin q) then
        (if s =? 10 ^ k then ([49], n + 1) else (dec_of_Z s, n))
      else shortest_digits fuel (k + 1) n q
  end.

Definition format_digits (digits : jsstr) (n : Z) : jsstr :=
  let k := Z.of_nat (length digits) in
  if (k <=? n) && (n <=? 21) then digits ++ zeros (n - k)
  else if (0 <? n) && (n <=? 21) then take (Z.to_nat n) digits ++ 46 :: drop (Z.to_nat n) digits
  else if (-6 <? n) && (n <=? 0) then [48; 46] ++ zeros (- n) ++ digits
  else
    let e := n - 1 in
    let ex := [101; if e <? 0 then 45 else 43] ++ dec_of_Z (Z.abs e) in
    match digits with
    | [d] => d :: ex
    | d :: ds => d :: 46 :: ds ++ ex
    | [] => ex
    end.

Definition num_to_string (n : num) : jsstr :=
  match safe_integer n with
  | Some z => dec_of_Z z
  | None =>
      match n with
      | NaN => js "NaN"
      | Infty neg => js (if neg then "-Infinity" else "Infinity")
      | Fin q =>
          let a := if Qnum q <? 0 then Qopp q else q in
          let '(ds, e) := shortest_digits 17 1 (dec_exponent a) a in
          (if Qnum q <? 0 then [45] else []) ++ format_digits ds e
      end
  end.

(** * [JSON.stringify] *)

Definition hex_digit (n : Z) : Z := if n <? 10 then 48 + n else 87 + n.
Definition hex4 (u : Z) : jsstr :=
  [hex_digit (u / 4096); hex_digit (u / 256 mod 16); hex_digit (u / 16 mod 16); hex_digit (u mod 16)].

Definition escape_unit (u : Z) : jsstr :=
  if u =? 8 then [92; 98]
  else if u =? 9 then [92; 116]
  else if u =? 10 then [92; 110]
  else if u =? 12 then [92; 102]
  else if u =? 13 then [92; 114]
  else if u =? 34 then [92; 34]
  else if u =? 92 then [92; 92]
  else if (u <? 32) || is_surrogate u then [92; 117] ++ hex4 u
  else [u].

(** Surrogate pairs are copied; lone surrogates are escaped. *)
Fixpoint quote_units (s : jsstr) : jsstr :=
  match s with
  | [] => []
  | u :: s' =>
      match s' with
      | v :: s'' =>
          if is_high u && is_low v then u :: v :: quote_units s''
          else escape_unit u ++ quote_units s'
      | [] => escape_unit u
      end
  end.

Definition json_quote (s : jsstr) : jsstr := 34 :: quote_units s ++ [34].

(** [Object.keys(v)] of an object. *)
Definition object_keys (v : jsval) : list jsstr :=
  match v with
  | JObj _ fields => map fst fields
  | JBytes bs => map (λ i, dec_of_Z (Z.of_nat i)) (seq 0 (length bs))
  | JArr l => map (λ i, dec_of_Z (Z.of_nat i)) (seq 0 (length l))
  | _ => []
  end.

(** [String(v)] on a value that [JSON.parse] returned; [None] when the conversion
    throws a [TypeError] (an object with an own, hence not callable, [toString]). *)
Fixpoint js_String (v : jsval) : option jsstr :=
  match v with
  | JUndef => Some (js "undefined")
  | JNull => Some (js "null")
  | JBool b => Some (if b then js "true" else js "false")
  | JNum n => Some (num_to_string n)
  | JStr s => Some s
  | JArr l =>
      join_with 44 <$>
        (fix elements l :=
           match l with
           | [] => Some []
           | v :: l =>
               w ← match v with JUndef | JNull => Some [] | _ => js_String v end;
               ws ← elements l;
               Some (w :: ws)
           end) l
  | JObj _ fields =>
      match field_lookup fields (js "toString") with
      | Some _ => None
      | None => Some (js "[object Object]")
      end
  | JBytes _ | JFun _ => None
  end.

(** [None] is the result [undefined]. *)
Fixpoint json_stringify (v : jsval) : option jsstr :=
  match v with
  | JUndef | JFun _ => None
  | JNull => Some (js "null")
  | JBool b => Some (js (if b then "true" else "false"))
  | JNum n => Some (if is_finite n then num_to_string n else js "null")
  | JStr s => Some (json_quote s)
  | JArr l =>
      Some (91 :: join_with 44 (map (λ v, default (js "null") (json_stringify v)) l) ++ [93])
  | JObj _ fs =>
      Some (123 :: join_with 44
        (flat_map (λ kv, match json_stringify kv.2 with
                         | Some t => [json_quote kv.1 ++ 58 :: t]
                         | None => []
                         end) fs) ++ [125])
  | JBytes bs =>
      Some (123 :: join_with 44
        (imap (λ i b, json_quote (dec_of_Z (Z.of_nat i)) ++ 58 :: dec_of_Z b) bs) ++ [125])
  end.

(** * [JSON.parse] *)

Definition is_json_space (c : Z) : bool := (c =? 32) || (c =? 9) || (c =? 10) || (c =? 13).
Definition skip_ws (s : jsstr) : jsstr := drop_while is_json_space s.

Fixpoint take_digits (s : jsstr) : jsstr * jsstr :=
  match s with
  | c :: s' => if is_digit c then let '(ds, r) := take_digits s' in (c :: ds, r) else ([], s)
  | [] => ([], [])
  end.

Definition parse_fraction (r : jsstr) : option (jsstr * jsstr) :=
  match r with
  | 46 :: r' => let '(fp, r'') := take_digits r' in
                match fp with [] => None | _ => Some (fp, r'') end
  | _ => Some ([], r)
  end.

Definition parse_exponent (r : jsstr) : option (Z * jsstr) :=
  match r with
  | 101 :: r' | 69 :: r' =>
      let '(eneg, r1) := match r' with
                         | 45 :: r1 => (true, r1)
                         | 43 :: r1 => (false, r1)
                         | _ => (false, r')
                         end in
      let '(ed, r2) := take_digits r1 in
      match ed with
      | [] => None
      | _ => Some ((if eneg then - digits_value ed else digits_value ed), r2)
      end
  | _ => Some (0, r)
  end.

Definition valid_int_part (ip : jsstr) : bool :=
  match ip with
  | [] => false
  | 48 :: _ :: _ => false
  | _ => true
  end.

(** [int frac? exp?] after the optional minus sign. *)
Definition parse_number (neg : bool) (s : jsstr) : option (num * jsstr) :=
  let '(ip, r) := take_digits s in
  if valid_int_part ip then
    '(fp, r) ← parse_fraction r;
    '(ex, r) ← parse_exponent r;
    let m := digits_value (ip ++ fp) in
    let q := Qmult (inject_Z (if neg then - m else m)) (Q_pow10 (ex - Z.of_nat (length fp))) in
    Some (double_of_Q q, r)
  else None.

Definition hex_value (c : Z) : option Z :=
  if is_digit c then Some (c - 48)
  else if in_range 97 102 c then Some (c - 87)
  else if in_range 65 70 c then Some (c - 55)
  else None.

(** * [Number(s)] on a string *)

(** The digits of a [0x], [0o] or [0b] literal. *)
Definition radix_digits (radix : Z) (s : jsstr) : option num :=
  match s with
  | [] => None
  | _ => (λ v, double_of_Q (inject_Z v)) <$>
      fold_left (λ acc c, a ← acc; d ← hex_value c; if d <? radix then Some (a * radix + d) else None)
        s (Some 0)
  end.

Definition decimal_literal (s : jsstr) : option num :=
  if jsstr_eqb s (js "Infinity") then Some (Infty false)
  else
    let '(ip, r) := take_digits s in
    let '(fp, r) := match r with 46 :: r' => take_digits r' | _ => ([], r) end in
    match ip ++ fp with
    | [] => None
    | ds =>
        '(ex, r) ← parse_exponent r;
        match r with
        | [] => Some (double_of_Q (Qmult (inject_Z (digits_value ds)) (Q_pow10 (ex - Z.of_nat (length fp)))))
        | _ => None
        end
    end.

Definition num_neg (n : num) : num :=
  match n with NaN => NaN | Infty b => Infty (negb b) | Fin q => Fin (Qopp q) end.

Definition string_to_number (s : jsstr) : num :=
  default NaN
    match trim s with
    | [] => Some (num_of_Z 0)
    | 48 :: 120 :: ds | 48 :: 88 :: ds => radix_digits 16 ds
    | 48 :: 111 :: ds | 48 :: 79 :: ds => radix_digits 8 ds
    | 48 :: 98 :: ds | 48 :: 66 :: ds => radix_digits 2 ds
    | 45 :: ds => num_neg <$> decimal_literal ds
    | 43 :: ds => decimal_literal ds
    | ds => decimal_literal ds
    end.

Definition unescape (c : Z) : option Z :=
  if c =? 34 then Some 34 else if c =? 92 then Some 92 else if c =? 47 then Some 47
  else if c =? 98 then Some 8 else if c =? 102 then Some 12 else if c =? 110 then Some 10
  else if c =? 114 then Some 13 else if c =? 116 then Some 9 else None.

(** The characters of a string literal after its opening quote. *)
Fixpoint parse_string (fuel : nat) (s : jsstr) : option (jsstr * jsstr) :=
  match fuel with
  | O => None
  | S fuel =>
      match s with
      | [] => None
      | c :: s' =>
          if c =? 34 then Some ([], s')
          else if c =? 92 then
            match s' with
            | 117 :: a :: b :: d :: e :: s'' =>
                va ← hex_value a; vb ← hex_value b; vd ← hex_value d; ve ← hex_value e;
                '(t, r) ← parse_string fuel s'';
                Some (va * 4096 + vb * 256 + vd * 16 + ve :: t, r)
            | x :: s'' => u ← unescape x; '(t, r) ← parse_string fuel s''; Some (u :: t, r)
            | [] => None
            end
          else if c <? 32 then None
          else '(t, r) ← parse_string fuel s'; Some (c :: t, r)
      end
  end.

Fixpoint parse_value (fuel : nat) (s : jsstr) {struct fuel} : option (jsval * jsstr) :=
  match fuel with
  | O => None
  | S fuel =>
      match skip_ws s with
      | [] => None
      | c :: s' =>
          if c =? 34 then '(t, r) ← parse_string (length s) s'; Some (JStr t, r)
          else if c =? 91 then
            match skip_ws s' with
            | 93 :: r => Some (JArr [], r)
            | _ => '(l, r) ← parse_elements fuel s'; Some (JArr l, r)
            end
          else if c =? 123 then
            match skip_ws s' with
            | 125 :: r => Some (JObj true [], r)
            | _ => '(fs, r) ← parse_members fuel s' []; Some (JObj true fs, r)
            end
          else if c =? 45 then '(n, r) ← parse_number true s'; Some (JNum n, r)
          else if is_digit c then '(n, r) ← parse_number false (c :: s'); Some (JNum n, r)
          else if starts_with (js "true") (c :: s') then Some (JBool true, drop 4 (c :: s'))
          else if starts_with (js "false") (c :: s') then Some (JBool false, drop 5 (c :: s'))
          else if starts_with (js "null") (c :: s') then Some (JNull, drop 4 (c :: s'))
          else None
      end
  end
with parse_elements (fuel : nat) (s : jsstr) {struct fuel} : option (list jsval * jsstr) :=
  match fuel with
  | O => None
  | S fuel =>
      '(v, r) ← parse_value fuel s;
      match skip_ws r with
      | 44 :: r' => '(l, r'') ← parse_elements fuel r'; Some (v :: l, r'')
      | 93 :: r' => Some ([v], r')
      | _ => None
      end
  end
with parse_members (fuel : nat) (s : jsstr) (acc : list (jsstr * jsval)) {struct fuel} :
    option (list (jsstr * jsval) * jsstr) :=
  match fuel with
  | O => None
  | S fuel =>
      match skip_ws s with
      | 34 :: s' =>
          '(k, r) ← parse_string (length s) s';
          match skip_ws r with
          | 58 :: r' =>
              '(v, r'') ← parse_value fuel r';
              let acc' := set_field acc k v in
              match skip_ws r'' with
              | 44 :: r3 => parse_members fuel r3 acc'
              | 125 :: r3 => Some (acc', r3)
              | _ => None
              end
          | _ => None
          end
      | _ => None
      end
  end.

(** [None] is the thrown [SyntaxError]. *)
Definition json_parse (s : jsstr) : option jsval :=
  '(v, r) ← parse_value (S (2 * length s)) s;
  match skip_ws r with [] => Some v | _ => None end.

(** * Round trip on the values the protocol frames *)

Lemma digits_value_app s t :
  digits_value (s ++ t) = fold_left (λ acc c, acc * 10 + (c - 48)) t (digits_value s).
Proof. unfold digits_value. by rewrite fold_left_app. Qed.

Lemma div10_log2 n : 10 <= n → Z.log2 (n / 10) < Z.log2 n.
Proof.
  intros H. assert (2 * (n / 10) <= n) by lia.
  assert (0 < n / 10) by lia.
  apply Z.lt_le_trans with (Z.log2 (2 * (n / 10))); [|by apply Z.log2_le_mono].
  rewrite Z.log2_double by done. lia.
Qed.

(** The fuel of [dec_of_Z] is enough: the digits denote the number, are all
    digits, and carry no leading zero. *)
Lemma dec_digits_spec fuel n :
  0 <= n → (Z.to_nat (Z.log2 n) < fuel)%nat →
  digits_value (dec_digits fuel n) = n
  ∧ forallb is_digit (dec_digits fuel n) = true
  ∧ ∃ c ds, dec_digits fuel n = c :: ds ∧ (n ≠ 0 → c ≠ 48) ∧ (n = 0 → ds = []).
Proof.
  revert n. induction fuel as [|fuel IH]; intros n Hn Hf; [lia|]. simpl.
  destruct (Z.ltb_spec n 10) as [Hlt|Hge].
  - split_and!.
    + unfold digits_value. simpl. lia.
    + simpl. rewrite andb_true_r. apply in_range_spec. lia.
    + exists (48 + n), []. split_and!; [done|lia|done].
  - pose proof (div10_log2 n Hge). pose proof (Z.log2_nonneg (n / 10)).
    destruct (IH (n / 10)) as (Hv & Hd & c & ds & Hc & Hnz & _); [lia..|].
    split_and!.
    + rewrite digits_value_app, Hv. simpl. lia.
    + rewrite forallb_app, Hd. simpl. rewrite andb_true_r. apply in_range_spec. lia.
    + rewrite Hc. exists c, (ds ++ [48 + n mod 10]). split_and!; [done|lia|lia].
Qed.

Lemma take_digits_app ds r :
  forallb is_digit ds = true → (∀ c s, r = c :: s → is_digit c = false) →
  take_digits (ds ++ r) = (ds, r).
Proof.
  intros Hd Hr. induction ds as [|d ds IH]; simpl in *.
  - destruct r as [|c s]; [done|]. simpl. by rewrite (Hr c s).
  - apply andb_true_iff in Hd as [-> Hd]. by rewrite IH.
Qed.

(** Text that may follow a value inside a document. *)
Definition delimited (r : jsstr) : Prop :=
  r = [] ∨ ∃ s, r = 44 :: s ∨ r = 93 :: s.

Lemma double_of_safe z :
  is_safe z = true → double_of_Q (Qmult (inject_Z z) (Q_pow10 (0 - Z.of_nat 0))) = num_of_Z z.
Proof.
  intros Hz. unfold double_of_Q, Q_to_Z, Q_pow10. simpl.
  rewrite Z.mul_1_r, Z.rem_1_r, Z.quot_1_r. simpl. by rewrite Hz.
Qed.

Lemma parse_number_dec neg n r :
  0 <= n → is_safe n = true → delimited r →
  parse_number neg (dec_digits (S (Z.to_nat (Z.log2 n))) n ++ r)
  = Some (num_of_Z (if neg then - n else n), r).
Proof.
  intros Hn Hsafe Hr.
  destruct (dec_digits_spec (S (Z.to_nat (Z.log2 n))) n Hn) as (Hv & Hd & c & ds & Hc & Hnz & Hz); [lia|].
  unfold parse_number. rewrite take_digits_app; [|done|].
  2:{ intros c' s ->. destruct Hr as [?|[s' [[= -> ->]|[= -> ->]]]]; done. }
  assert (valid_int_part (dec_digits (S (Z.to_nat (Z.log2 n))) n) = true) as ->.
  { rewrite Hc. unfold valid_int_part. destruct ds as [|d ds]; [by repeat case_match|].
    destruct (decide (c = 48)) as [->|]; [|by repeat case_match].
    exfalso. destruct (decide (n = 0)) as [->|]; [by specialize (Hz eq_refl)|by apply Hnz]. }
  assert (parse_fraction r = Some ([], r)) as -> by (by destruct Hr as [->|[s' [-> | ->]]]).
  cbn [mbind option_bind]. assert (parse_exponent r = Some (0, r)) as -> by (by destruct Hr as [->|[s' [-> | ->]]]).
  cbn [mbind option_bind]. rewrite app_nil_r, Hv. cbn [length].
  rewrite double_of_safe; [done|].
  destruct neg; [|done]. unfold is_safe in *. by rewrite Z.abs_opp.
Qed.

Lemma hex_value_digit n : 0 <= n < 16 → hex_value (hex_digit n) = Some n.
Proof.
  intros Hn. unfold hex_value, hex_digit, is_digit.
  destruct (Z.ltb_spec n 10).
  - rewrite (proj2 (in_range_spec _ _ _)) by lia. f_equal. lia.
  - rewrite (proj2 (in_range_false _ _ _)), (proj2 (in_range_spec _ _ _)) by lia. f_equal. lia.
Qed.

Lemma escape_unit_step fuel u t :
  unit_ok u →
  parse_string (S fuel) (escape_unit u ++ t)
  = '(s, r) ← parse_string fuel t; Some (u :: s, r).
Proof.
  intros Hu. unfold unit_ok in Hu. unfold escape_unit.
  repeat (case_match; [unit_class; subst; done|]).
  case_match; unit_class.
  - cbn -[hex_value hex_digit]. rewrite !hex_value_digit by lia.
    cbn [mbind option_bind]. destruct (parse_string fuel t) as [[s r]|]; [simpl|done].
    repeat f_equal. lia.
  - simpl. unit_class.
    rewrite (proj2 (Z.eqb_neq u 34)), (proj2 (Z.eqb_neq u 92)), (proj2 (Z.ltb_ge u 32)) by done.
    done.
Qed.

Lemma plain_unit_step fuel u t :
  256 <= u →
  parse_string (S fuel) (u :: t) = '(s, r) ← parse_string fuel t; Some (u :: s, r).
Proof.
  intros Hu. simpl. by rewrite (proj2 (Z.eqb_neq u 34)), (proj2 (Z.eqb_neq u 92)),
    (proj2 (Z.ltb_ge u 32)) by lia.
Qed.

Lemma quote_units_pair u v s :
  is_high u = true → is_low v = true → quote_units (u :: v :: s) = u :: v :: quote_units s.
Proof. intros Hu Hv. simpl. by rewrite Hu, Hv. Qed.

Lemma quote_units_single u s :
  (∀ v s', s = v :: s' → is_high u && is_low v = false) →
  quote_units (u :: s) = escape_unit u ++ quote_units s.
Proof.
  intros H. destruct s as [|v s]; [by rewrite app_nil_r|]. simpl. by rewrite (H v s).
Qed.

Lemma parse_string_quote s fuel r :
  units_ok s → (length s < fuel)%nat →
  parse_string fuel (quote_units s ++ 34 :: r) = Some (s, r).
Proof.
  revert fuel. induction s as [|u v s Hu Hv IH|u s Hs IH] using code_points_ind; intros fuel Hok Hf.
  - destruct fuel; [simpl in Hf; lia|]. done.
  - rewrite quote_units_pair by done. unfold units_ok in Hok. rewrite !Forall_cons in Hok.
    destruct Hok as (?&?&?). simpl in Hf.
    destruct fuel as [|[|fuel]]; [lia..|]. unit_class.
    cbn [app]. rewrite !plain_unit_step, IH by (done || lia). done.
  - rewrite quote_units_single by done. inversion Hok as [|? ? Hu Hrest]; subst.
    simpl in Hf. destruct fuel as [|fuel]; [lia|].
    rewrite <- app_assoc, escape_unit_step, IH by (done || lia). done.
Qed.

(** Quoted text never contains a lone surrogate, and only units of [s]. *)
Lemma escape_unit_ok u : unit_ok u → units_ok (escape_unit u).
Proof.
  intros Hu. unfold escape_unit, units_ok, hex4, hex_digit. unfold unit_ok in *.
  repeat case_match; repeat constructor; unit_class; lia.
Qed.

Lemma length_quote_units s : (length s <= length (quote_units s))%nat.
Proof.
  induction s as [|u v s Hu Hv IH|u s Hs IH] using code_points_ind; [done|..].
  - rewrite quote_units_pair by done. simpl. lia.
  - rewrite quote_units_single by done. rewrite length_app. simpl.
    assert (0 < length (escape_unit u))%nat; [|lia].
    unfold escape_unit. repeat case_match; simpl; lia.
Qed.

(** The JSON values framed by the protocol: scalars with safe integers, nested
    in arrays. *)
Fixpoint frame_value (v : jsval) : Prop :=
  match v with
  | JNull | JBool _ => True
  | JNum n => ∃ z, n = num_of_Z z ∧ is_safe z = true
  | JStr s => units_ok s
  | JArr l => (fix go l := match l with [] => True | v :: l => frame_value v ∧ go l end) l
  | _ => False
  end.

Lemma frame_value_array l : frame_value (JArr l) ↔ Forall frame_value l.
Proof.
  simpl. induction l as [|v l IH]; [by split; constructor|].
  rewrite Forall_cons, <- IH. done.
Qed.

Lemma Q_to_Z_inject z : Q_to_Z (inject_Z z) = Some z.
Proof. unfold Q_to_Z. simpl. by rewrite Z.rem_1_r, Z.quot_1_r. Qed.

Lemma safe_integer_of_Z z : is_safe z = true → safe_integer (num_of_Z z) = Some z.
Proof.
  intros Hz. unfold safe_integer, num_of_Z. rewrite Q_to_Z_inject. simpl.
  unfold is_safe in Hz. by rewrite Hz.
Qed.

Lemma stringify_int z : is_safe z = true → json_stringify (JNum (num_of_Z z)) = Some (dec_of_Z z).
Proof. intros Hz. simpl. unfold num_to_string. by rewrite safe_integer_of_Z. Qed.

Lemma dec_of_Z_head z : ∃ c t, dec_of_Z z = c :: t ∧ (c = 45 ∨ is_digit c = true).
Proof.
  unfold dec_of_Z. destruct (Z.ltb_spec z 0); [eauto|].
  destruct (dec_digits_spec (S (Z.to_nat (Z.log2 z))) z) as (_ & Hd & c & ds & Hc & _); [lia..|].
  rewrite Hc in *. simpl in Hd. apply andb_true_iff in Hd as [Hd _]. eauto.
Qed.

(** First character of a serialized value: not white space, not a bracket that
    closes. *)
Lemma stringify_head v :
  frame_value v → ∃ c t, json_stringify v = Some (c :: t) ∧ is_json_space c = false ∧ c ≠ 93.
Proof.
  destruct v as [| |b|n|s|l|p fs|bs|i]; intros Hv; try done.
  - by do 2 eexists.
  - destruct b; by do 2 eexists.
  - destruct Hv as (z & -> & Hz). rewrite stringify_int by done.
    destruct (dec_of_Z_head z) as (c & t & -> & Hc). do 2 eexists. split; [done|].
    unfold is_json_space. destruct Hc as [->|Hc]; [done|]. unit_class.
    rewrite !orb_false_iff, !Z.eqb_neq. lia.
  - by do 2 eexists.
  - by do 2 eexists.
Qed.

Definition json_text (v : jsval) : jsstr := default (js "null") (json_stringify v).

Lemma json_text_head v :
  frame_value v → ∃ c t, json_text v = c :: t ∧ is_json_space c = false ∧ c ≠ 93.
Proof.
  intros Hv. destruct (stringify_head v Hv) as (c & t & E & ?). unfold json_text.
  rewrite E. eauto.
Qed.

Lemma skip_ws_text v r : frame_value v → skip_ws (json_text v ++ r) = json_text v ++ r.
Proof.
  intros Hv. destruct (json_text_head v Hv) as (c & t & -> & Hc & _). unfold skip_ws. simpl.
  by rewrite Hc.
Qed.

Lemma parse_value_dec fuel z r :
  is_safe z = true → delimited r → (0 < fuel)%nat →
  parse_value fuel (dec_of_Z z ++ r) = Some (JNum (num_of_Z z), r).
Proof.
  intros Hz Hr Hf. destruct fuel as [|fuel]; [lia|]. cbn [parse_value].
  assert (skip_ws (dec_of_Z z ++ r) = dec_of_Z z ++ r) as ->.
  { destruct (dec_of_Z_head z) as (c & t & -> & Hc). unfold skip_ws. simpl.
    unfold is_json_space. destruct Hc as [->|Hc]; [done|]. unit_class.
    assert ((c =? 32) || (c =? 9) || (c =? 10) || (c =? 13) = false) as ->; [|done].
    rewrite !orb_false_iff, !Z.eqb_neq. lia. }
  unfold dec_of_Z. destruct (Z.ltb_spec z 0) as [Hneg|Hpos].
  - cbn [app]. cbn -[parse_number dec_digits]. rewrite (parse_number_dec true (- z) r); [|lia| |done].
    + simpl. do 3 f_equal. unfold num_of_Z. do 2 f_equal. lia.
    + unfold is_safe in *. by rewrite Z.abs_opp.
  - destruct (dec_digits_spec (S (Z.to_nat (Z.log2 z))) z) as (_ & Hd & c & ds & Hc & _); [lia..|].
    pose proof (parse_number_dec false z r Hpos Hz Hr) as Hnum.
    rewrite Hc in *. cbn [app] in *. cbn [forallb] in Hd. apply andb_true_iff in Hd as [Hd _].
    rewrite Hd. unfold is_digit in Hd. apply in_range_spec in Hd.
    rewrite !(proj2 (Z.eqb_neq c _)) by lia. rewrite Hnum. done.
Qed.

(** Parsing the elements of a serialized array, given that each parses. *)
Lemma parse_elements_text fuel l r :
  l ≠ [] → Forall frame_value l →
  Forall (λ v, ∀ fuel r, (2 * length (json_text v) <= fuel)%nat → delimited r →
            parse_value fuel (json_text v ++ r) = Some (v, r)) l →
  (2 * length (join_with 44 (map json_text l)) + 1 <= fuel)%nat →
  parse_elements fuel (join_with 44 (map json_text l) ++ 93 :: r) = Some (l, r).
Proof.
  intros Hne Hok Hp. revert fuel. induction l as [|v l IH]; [done|]. intros fuel Hf.
  rewrite !Forall_cons in *. destruct Hok as [Hv Hl], Hp as [Hpv Hpl].
  destruct fuel as [|fuel]; [lia|]. cbn [parse_elements].
  destruct l as [|w l].
  - simpl in *. rewrite Hpv; [|lia|right; eauto]. simpl. done.
  - set (rest := join_with 44 (map json_text (w :: l))) in *.
    assert (join_with 44 (map json_text (v :: w :: l)) = json_text v ++ 44 :: rest) as E by done.
    rewrite E in *. rewrite length_app in Hf. simpl in Hf. rewrite <- app_assoc. cbn [app].
    rewrite Hpv; [|lia|right; eauto]. cbn [mbind option_bind].
    change (skip_ws (44 :: rest ++ 93 :: r)) with (44 :: rest ++ 93 :: r). cbv iota.
    rewrite IH; [done..|lia].
Qed.

Lemma parse_value_text v fuel r :
  frame_value v → (2 * length (json_text v) <= fuel)%nat → delimited r →
  parse_value fuel (json_text v ++ r) = Some (v, r).
Proof.
  revert fuel r. induction v as [| |b|n|s|l IH|p fs|bs|i] using jsval_ind'; intros fuel r Hv Hf Hr; try done.
  - destruct fuel; [simpl in Hf; lia|]. done.
  - destruct b; (destruct fuel; [simpl in Hf; lia|]); done.
  - destruct Hv as (z & -> & Hz). unfold json_text in *. rewrite stringify_int in * by done.
    simpl in *. destruct (dec_of_Z_head z) as (c & t & E & _).
    apply parse_value_dec; [done..|]. rewrite E in Hf. simpl in Hf. lia.
  - destruct fuel as [|fuel]; [simpl in Hf; lia|].
    change (json_text (JStr s)) with (34 :: quote_units s ++ [34]) in *.
    cbn [app]. rewrite <- app_assoc. cbn [app]. cbn -[parse_string length].
    rewrite parse_string_quote; [done|done|].
    rewrite length_cons, length_app. pose proof (length_quote_units s). lia.
  - apply frame_value_array in Hv.
    destruct fuel as [|fuel]; [simpl in Hf; lia|].
    change (json_text (JArr l)) with (91 :: join_with 44 (map json_text l) ++ [93]) in *.
    cbn [app]. rewrite <- app_assoc. cbn [app].
    assert (Forall (λ v, ∀ fuel r, (2 * length (json_text v) <= fuel)%nat → delimited r →
            parse_value fuel (json_text v ++ r) = Some (v, r)) l) as Hall.
    { rewrite Forall_forall in *. intros x Hx fuel' r' Hf' Hr'. apply IH; auto. }
    destruct l as [|v l]; [done|].
    assert (parse_elements fuel (join_with 44 (map json_text (v :: l)) ++ 93 :: r) = Some (v :: l, r)) as Hel.
    { apply parse_elements_text; [done..|]. rewrite length_cons, length_app in Hf. cbn [length] in Hf. lia. }
    assert (∃ c t, join_with 44 (map json_text (v :: l)) = c :: t ∧ is_json_space c = false ∧ c ≠ 93)
      as (c & t & E & Hc & Hc').
    { inversion Hv as [|? ? Hv1 _]; subst. destruct (json_text_head v Hv1) as (c & t & E & ? & ?).
      destruct l; simpl; rewrite E; simpl; eauto. }
    rewrite E in *. cbn [app] in *. cbn -[parse_elements]. rewrite Hc.
    assert ((match c :: t ++ 93 :: r with
            | 93 :: r0 => Some (JArr [], r0)
            | _ => '(l0, r0) ← parse_elements fuel (c :: t ++ 93 :: r); Some (JArr l0, r0)
            end) = '(l0, r0) ← parse_elements fuel (c :: t ++ 93 :: r); Some (JArr l0, r0)) as ->
      by (repeat case_match; done).
    by rewrite Hel.
Qed.

(** [JSON.parse(JSON.stringify(v))] is [v]. *)
Lemma json_roundtrip v t :
  frame_value v → json_stringify v = Some t → json_parse t = Some v.
Proof.
  intros Hv Ht. assert (t = json_text v) as -> by (unfold json_text; by rewrite Ht).
  unfold json_parse. rewrite <- (app_nil_r (json_text v)) at 2.
  rewrite parse_value_text; [done|done|lia|by left].
Qed.

Lemma json_text_defined v : frame_value v → json_stringify v = Some (json_text v).
Proof. intros Hv. destruct (stringify_head v Hv) as (c & t & E & _). unfold json_text. by rewrite E. Qed.

Lemma json_text_inj v w : frame_value v → frame_value w → json_text v = json_text w → v = w.
Proof.
  intros Hv Hw E.
  pose proof (json_roundtrip v _ Hv (json_text_defined _ Hv)) as H1.
  pose proof (json_roundtrip w _ Hw (json_text_defined _ Hw)) as H2.
  rewrite E in H1. congruence.
Qed.

(** Serialized text has no lone surrogate, so its UTF-8 bytes determine it. *)
Lemma escape_unit_well_formed u : unit_ok u → well_formed (escape_unit u).
Proof.
  intros Hu. unfold escape_unit.
  repeat (case_match; [by apply ascii_well_formed|]). case_match.
  - apply ascii_well_formed. unfold hex4, hex_digit. unfold unit_ok in Hu. simpl.
    rewrite !andb_true_iff. unfold is_ascii. rewrite !in_range_spec.
    repeat case_match; unit_class; lia.
  - unit_class. apply well_formed_unit; [done|]. apply in_range_false. lia.
Qed.

Lemma quote_units_well_formed s : units_ok s → well_formed (quote_units s).
Proof.
  induction s as [|u v s Hu Hv IH|u s Hs IH] using code_points_ind; intros Hok.
  - apply well_formed_nil.
  - rewrite quote_units_pair by done. unfold units_ok in Hok. rewrite !Forall_cons in Hok.
    destruct Hok as (?&?&?).
    apply (well_formed_app [u; v]); [by apply well_formed_pair|by apply IH].
  - rewrite quote_units_single by done. inversion Hok as [|? ? Hu Hrest]; subst.
    apply well_formed_app; [by apply escape_unit_well_formed|by apply IH].
Qed.

Lemma dec_of_Z_ascii z : forallb is_ascii (dec_of_Z z) = true.
Proof.
  assert (∀ n, 0 <= n → forallb is_ascii (dec_digits (S (Z.to_nat (Z.log2 n))) n) = true) as Hd.
  { intros n Hn. destruct (dec_digits_spec (S (Z.to_nat (Z.log2 n))) n) as (_ & Hd & _); [lia..|].
    rewrite forallb_forall in *. intros c Hc. specialize (Hd c Hc). unfold is_ascii.
    unit_class. lia. }
  unfold dec_of_Z. destruct (Z.ltb_spec z 0).
  - cbn [forallb]. apply andb_true_iff. split; [done|]. apply Hd. lia.
  - by apply Hd.
Qed.

Lemma json_quote_well_formed s : units_ok s → well_formed (json_quote s).
Proof.
  intros Hs. apply (well_formed_app [34]); [by apply ascii_well_formed|].
  apply well_formed_app; [by apply quote_units_well_formed|by apply ascii_well_formed].
Qed.

Lemma join_well_formed ws : Forall well_formed ws → well_formed (join_with 44 ws).
Proof.
  induction ws as [|w ws IH]; [intros; apply well_formed_nil|].
  rewrite Forall_cons. intros [Hw Hws]. destruct ws as [|w' ws]; [done|].
  apply well_formed_app; [done|].
  apply (well_formed_app [44]); [by apply ascii_well_formed|by apply IH].
Qed.

Lemma json_text_well_formed v : frame_value v → well_formed (json_text v).
Proof.
  induction v as [| |b|n|s|l IH|p fs|bs|i] using jsval_ind'; intros Hv; try done.
  - by apply ascii_well_formed.
  - destruct b; by apply ascii_well_formed.
  - destruct Hv as (z & -> & Hz). unfold json_text. rewrite stringify_int by done. simpl.
    apply ascii_well_formed, dec_of_Z_ascii.
  - by apply json_quote_well_formed.
  - apply frame_value_array in Hv.
    apply (well_formed_app [91]); [by apply ascii_well_formed|].
    apply well_formed_app; [|by apply ascii_well_formed].
    apply join_well_formed. apply Forall_forall. intros w Hw.
    apply list_elem_of_fmap in Hw as (x & -> & Hx).
    exact (proj1 (Forall_forall _ _) IH x Hx (proj1 (Forall_forall _ _) Hv x Hx)).
Qed.

Lemma json_bytes_inj v w :
  frame_value v → frame_value w →
  utf8_encode (json_text v) = utf8_encode (json_text w) → v = w.
Proof.
  intros Hv Hw E. apply json_text_inj; [done..|].
  apply utf8_encode_inj; [by apply json_text_well_formed..|done].
Qed.

(** * Text of arrays and of plain strings *)

Lemma name_unit_ascii c : name_unit c = true → is_ascii c = true.
Proof. unfold name_unit, is_ascii. intros H. unit_class. lia. Qed.

Lemma stringify_array_cong l l' :
  map json_text l = map json_text l' → json_stringify (JArr l) = json_stringify (JArr l').
Proof. intros H. unfold json_text in H. cbn [json_stringify]. by rewrite H. Qed.

Lemma stringify_safe n z :
  safe_integer n = Some z → json_stringify (JNum n) = json_stringify (JNum (num_of_Z z)).
Proof.
  intros Hn. assert (is_safe z = true) as Hz.
  { unfold safe_integer in Hn. destruct n as [| |q]; try done. destruct (Q_to_Z q); cbn in Hn; [|done].
    unfold is_safe. case_match; by simplify_eq. }
  rewrite stringify_int by done. destruct n; try done. cbn. unfold num_to_string. by rewrite Hn.
Qed.

Lemma json_text_safe n z :
  safe_integer n = Some z → json_text (JNum n) = json_text (JNum (num_of_Z z)).
Proof. intros Hn. unfold json_text. by rewrite (stringify_safe n z). Qed.

(** Names, hex and base64url text is quoted verbatim. *)
Lemma quote_name s : all_units name_unit s = true → json_quote s = 34 :: s ++ [34].
Proof.
  intros Hs. unfold json_quote. f_equal. f_equal.
  induction s as [|u s IH]; [done|]. apply andb_true_iff in Hs as [Hu Hs].
  assert (is_high u = false) as Hhigh
    by (unfold name_unit in Hu; unit_class; apply in_range_false; lia).
  rewrite quote_units_single by (intros; by rewrite Hhigh).
  rewrite IH by done. change (u :: s) with ([u] ++ s). f_equal.
  unfold escape_unit. unfold name_unit in Hu. unit_class.
  repeat (case_match; unit_class; try lia). done.
Qed.

Lemma dec_digits_length fuel n k :
  0 <= n < 10 ^ Z.of_nat (S k) → (length (dec_digits fuel n) <= S k)%nat.
Proof.
  revert n k. induction fuel as [|fuel IH]; intros n k Hn; cbn [dec_digits length]; [lia|].
  destruct (Z.ltb_spec n 10); [cbn [length]; lia|]. rewrite length_app. cbn [length].
  destruct k as [|k]; [change (10 ^ Z.of_nat 1) with 10 in Hn; lia|].
  rewrite (Nat2Z.inj_succ (S k)), Z.pow_succ_r in Hn by lia.
  assert (length (dec_digits fuel (n / 10)) <= S k)%nat; [|lia].
  apply IH. set (p := 10 ^ Z.of_nat (S k)) in *. lia.
Qed.

Lemma ascii_join ws : Forall (λ w, forallb is_ascii w = true) ws → forallb is_ascii (join_with 44 ws) = true.
Proof.
  induction ws as [|w ws IH]; [done|]. intros [Hw Hws]%Forall_cons.
  destruct ws as [|w' ws]; [done|]. cbn [join_with] in *. rewrite forallb_app, Hw.
  cbn [forallb andb]. by apply IH.
Qed.

Lemma quote_name_ascii s : all_units name_unit s = true → forallb is_ascii (json_quote s) = true.
Proof.
  intros Hs. rewrite quote_name by done. change (34 :: s ++ [34]) with ([34] ++ s ++ [34]).
  rewrite !forallb_app. pose proof (all_units_impl _ _ s name_unit_ascii Hs) as Ha.
  unfold all_units in Ha. by rewrite Ha.
Qed.

#[export] Hint Resolve json_quote_well_formed quote_name_ascii name_unit_ascii : wire.
