(* ===== verification/IndexedHeap.v ===== *)
(** The indexed binary min-heap shared by the three in-memory stores.

    The memory replay store of express-request-attestation, the DPoP
    reservation table and the logout-ticket table of
    express-oidc-vault-memory-store are written with the same three private
    methods ([remove], [swap], [moveUp]/[moveDown]) over a [Map] and an array
    of the same entry objects.  Entries are shared between the two containers
    and carry a mutable [index] field, so the model keeps an explicit object
    store: the [Map] and the array hold locations, and a write to [index]
    through the array is seen by a later read through the [Map].

    The functions return [None] where JavaScript would throw a [TypeError] on
    an undefined slot, or where the loop fuel is used up; the theorems show
    that neither happens on a well-formed state, and relate the state to the
    plain finite map [view] from identifiers to records. *)

From S2P Require Import Prelude.

Record Node (P : Type) := mkNode {
  node_id : list Z;
  node_rec : P;
  node_index : nat
}.
Arguments mkNode {P} _ _ _.
Arguments node_id {P} _.
Arguments node_rec {P} _.
Arguments node_index {P} _.

Record HeapState (P : Type) := mkHeap {
  table : gmap (list Z) nat;       (** the [Map]: identifier to entry object *)
  expiryHeap : list nat;           (** the array of entry objects *)
  objects : gmap nat (Node P);     (** the entry objects themselves *)
  next_loc : nat                   (** allocation counter *)
}.
Arguments mkHeap {P} _ _ _ _.
Arguments table {P} _.
Arguments expiryHeap {P} _.
Arguments objects {P} _.
Arguments next_loc {P} _.

Definition empty_heap {P} : HeapState P := mkHeap ∅ [] ∅ 0.

Definition heap_parent (i : nat) : nat := ((i - 1) / 2)%nat.

Section operations.
Context {P : Type} (expiry : P → Z).
Implicit Types (st : HeapState P).

(** [objects[l].index = i] *)
Definition set_index (l i : nat) (objs : gmap nat (Node P)) : gmap nat (Node P) :=
alter (λ n, mkNode (node_id n) (node_rec n) i) l objs.

(** [expiryHeap[i]?.expiresAt] *)
Definition expiry_at st (i : nat) : option Z :=
l ← expiryHeap st !! i;
n ← objects st !! l;
Some (expiry (node_rec n)).

Definition heap_swap (left right : nat) st : option (HeapState P) :=
leftRow ← expiryHeap st !! left;
rightRow ← expiryHeap st !! right;
Some (mkHeap (table st)
        (<[right := leftRow]> (<[left := rightRow]> (expiryHeap st)))
        (set_index leftRow right (set_index rightRow left (objects st)))
        (next_loc st)).

Fixpoint move_up_loop (fuel : nat) st (index : nat) : option (HeapState P) :=
match fuel with
| O => None
| S fuel =>
    if decide (index = 0)%nat then Some st
    else
      let parent := heap_parent index in
      p ← expiry_at st parent;
      k ← expiry_at st index;
      if p <=? k then Some st
      else st' ← heap_swap parent index st; move_up_loop fuel st' parent
end.

Definition heap_move_up st (index : nat) : option (HeapState P) :=
move_up_loop (S index) st index.

Fixpoint move_down_loop (fuel : nat) st (index : nat) : option (HeapState P) :=
match fuel with
| O => None
| S fuel =>
    let left := (index * 2 + 1)%nat in
    if decide (length (expiryHeap st) <= left)%nat then Some st
    else
      let right := S left in
      kl ← expiry_at st left;
      child ← (if decide (right < length (expiryHeap st))%nat
               then kr ← expiry_at st right; Some (if kr <? kl then right else left)
               else Some left);
      k ← expiry_at st index;
      kc ← expiry_at st child;
      if k <=? kc then Some st
      else st' ← heap_swap index child st; move_down_loop fuel st' child
end.

Definition heap_move_down st (index : nat) : option (HeapState P) :=
move_down_loop (S (length (expiryHeap st))) st index.

Definition heap_remove st (index : nat) : option (HeapState P) :=
removed ← expiryHeap st !! index;
lastRow ← last (expiryHeap st);
removedRow ← objects st !! removed;
let popped := take (length (expiryHeap st) - 1) (expiryHeap st) in
let st1 := mkHeap (delete (node_id removedRow) (table st)) popped
             (objects st) (next_loc st) in
if decide (index = length popped) then Some st1
else
  let st2 := mkHeap (table st1) (<[index := lastRow]> popped)
               (set_index lastRow index (objects st1)) (next_loc st1) in
  st3 ← heap_move_up st2 index;
  moved ← objects st3 !! lastRow;
  heap_move_down st3 (node_index moved).

(** A fresh entry object, [Map.set], [Array.push], [moveUp]. *)
Definition heap_push st (k : list Z) (p : P) : option (HeapState P) :=
let index := length (expiryHeap st) in
let l := next_loc st in
heap_move_up
  (mkHeap (<[k := l]> (table st)) (expiryHeap st ++ [l])
     (<[l := mkNode k p index]> (objects st)) (S l)) index.

(** [for (cleaned = 0; cleaned < n && expired(heap[0]); cleaned++) remove(0)] *)
Fixpoint heap_sweep (n : nat) (expired : Z → bool) st : option (HeapState P) :=
match n with
| O => Some st
| S n =>
    match expiry_at st 0 with
    | Some e => if expired e then st' ← heap_remove st 0; heap_sweep n expired st'
                else Some st
    | None => Some st
    end
end.

(** What the [Map] denotes once the entry objects are read through it. *)
Definition view st : gmap (list Z) P :=
omap (λ l, node_rec <$> objects st !! l) (table st).

Definition heap_size st : Z := Z.of_nat (size (table st)).
End operations.

(** * Heap order on key functions *)

Definition ordered (K : nat → Z) (n : nat) : Prop :=
  ∀ j, (0 < j < n)%nat → K (heap_parent j) <= K j.

(** Children of [i] dominate the parent of [i]. *)
Definition skip_ordered (K : nat → Z) (n i : nat) : Prop :=
  (0 < i)%nat → ∀ c, (0 < c < n)%nat → heap_parent c = i → K (heap_parent i) <= K c.

Definition ordered_but (K : nat → Z) (n i : nat) : Prop :=
  (∀ j, (0 < j < n)%nat → j ≠ i → heap_parent j ≠ i → K (heap_parent j) <= K j)
  ∧ skip_ordered K n i.
Definition ordered_above (K : nat → Z) (n i : nat) : Prop :=
  (∀ j, (0 < j < n)%nat → heap_parent j ≠ i → K (heap_parent j) <= K j)
  ∧ skip_ordered K n i.
Definition ordered_below (K : nat → Z) (n i : nat) : Prop :=
  (∀ j, (0 < j < n)%nat → j ≠ i → K (heap_parent j) <= K j) ∧ skip_ordered K n i.

Definition swap_keys (K : nat → Z) (a b : nat) : nat → Z :=
  λ j, if decide (j = a) then K b else if decide (j = b) then K a else K j.

Lemma heap_parent_lt j : (0 < j)%nat → (heap_parent j < j)%nat.
Proof. unfold heap_parent. intros. lia. Qed.

Ltac heap_order :=
  unfold swap_keys; repeat case_decide; subst;
  try lia; try (unfold heap_parent in *; lia).

Lemma ordered_weaken K n i : ordered K n → ordered_above K n i.
Proof.
  intros H. split; [intros; by apply H|]. intros Hi c Hc <-.
  pose proof (heap_parent_lt c ltac:(lia)).
  etrans; [apply (H (heap_parent c)); lia|]. by apply H.
Qed.

Lemma up_step K n i :
  ordered_but K n i → (0 < i < n)%nat → K i < K (heap_parent i) →
  ordered_below (swap_keys K (heap_parent i) i) n (heap_parent i).
Proof.
  intros [H1 H2] Hi Hlt. pose proof (heap_parent_lt i ltac:(lia)).
  split.
  - intros j Hj Hne. unfold swap_keys.
    destruct (decide (j = i)) as [->|Hji].
    { rewrite decide_True by done. rewrite decide_False by lia. lia. }
    rewrite (decide_False (P := j = heap_parent i)) by done.
    destruct (decide (heap_parent j = heap_parent i)) as [Hs|].
    { assert (K (heap_parent i) <= K j) by (rewrite <- Hs; apply H1; lia). lia. }
    destruct (decide (heap_parent j = i)); [|by apply H1]. by apply H2; [lia|..].
  - intros Hp c Hc Hpc. pose proof (heap_parent_lt _ Hp). unfold swap_keys.
    rewrite !(decide_False (P := heap_parent (heap_parent i) = _)) by lia.
    assert (K (heap_parent (heap_parent i)) <= K (heap_parent i)) by (apply H1; lia).
    pose proof (heap_parent_lt c ltac:(lia)). rewrite decide_False by lia.
    case_decide; [done|].
    assert (K (heap_parent c) <= K c) by (apply H1; lia). rewrite Hpc in *. lia.
Qed.

Lemma up_stop K n i :
  ordered_below K n i → (i = 0)%nat ∨ K (heap_parent i) <= K i → ordered K n.
Proof.
  intros [H1 _] Hi j Hj. destruct (decide (j = i)) as [->|]; [|by apply H1].
  destruct Hi; [lia|done].
Qed.

Lemma but_stop K n i :
  ordered_but K n i → (i = 0)%nat ∨ K (heap_parent i) <= K i → ordered_above K n i.
Proof.
  intros [H1 H2] Hi. split; [|done]. intros j Hj Hne.
  destruct (decide (j = i)) as [->|]; [|by apply H1].
  destruct Hi; [lia|done].
Qed.

Lemma below_but K n i : ordered_below K n i → ordered_but K n i.
Proof. intros [H1 H2]. split; [|done]. intros. by apply H1. Qed.

Lemma down_step K n i c :
  ordered_above K n i → (0 < c < n)%nat → heap_parent c = i → K c < K i →
  (∀ d, (0 < d < n)%nat → heap_parent d = i → K c <= K d) →
  ordered_above (swap_keys K i c) n c.
Proof.
  intros [H1 H2] Hc Hpc Hlt Hmin. pose proof (heap_parent_lt c ltac:(lia)).
  split.
  - intros j Hj Hne. pose proof (heap_parent_lt j ltac:(lia)). unfold swap_keys.
    rewrite (decide_False (P := heap_parent j = c)) by done.
    destruct (decide (heap_parent j = i)) as [Hs|Hs].
    { rewrite (decide_False (P := j = i)) by lia. case_decide; [lia|]. by apply Hmin. }
    destruct (decide (j = i)) as [->|]; [by apply H2; [lia|..]|].
    destruct (decide (j = c)) as [->|]; [done|]. by apply H1.
  - intros _ d Hd Hpd. pose proof (heap_parent_lt d ltac:(lia)). unfold swap_keys.
    rewrite Hpc, decide_True, !(decide_False (P := d = _)) by lia.
    rewrite <- Hpd. apply H1; lia.
Qed.

Lemma down_stop K n i :
  ordered_above K n i → (∀ d, (0 < d < n)%nat → heap_parent d = i → K i <= K d) → ordered K n.
Proof.
  intros [H1 _] Hd j Hj. destruct (decide (heap_parent j = i)) as [Hp|]; [|by apply H1].
  rewrite Hp. by apply Hd.
Qed.

Lemma ordered_root K n i : ordered K n → (i < n)%nat → K 0%nat <= K i.
Proof.
  intros H. induction i as [i IH] using lt_wf_ind. intros Hi.
  destruct (decide (i = 0)%nat) as [->|]; [lia|].
  pose proof (heap_parent_lt i). etrans; [apply (IH (heap_parent i)); lia|]. apply H. lia.
Qed.

Lemma ordered_ext K K' n :
  (∀ i, (i < n)%nat → K i = K' i) → ordered K n → ordered K' n.
Proof.
  intros He H j Hj. pose proof (heap_parent_lt j). rewrite <- !He by lia. by apply H.
Qed.

(** * Well-formed states *)

Section invariant.
Context {P : Type} (expiry : P → Z).
Implicit Types (st : HeapState P).

(** The [Map], the array and the [index] fields agree. *)
Record synced st : Prop := {
synced_heap i l : expiryHeap st !! i = Some l →
  ∃ n, objects st !! l = Some n ∧ node_index n = i ∧ table st !! node_id n = Some l;
synced_table k l : table st !! k = Some l →
  ∃ n, objects st !! l = Some n ∧ node_id n = k ∧ expiryHeap st !! node_index n = Some l;
synced_fresh l n : objects st !! l = Some n → (l < next_loc st)%nat
}.

Definition key_at st (i : nat) : Z := default 0 (expiry_at expiry st i).

Record wf_heap st : Prop := {
wf_synced : synced st;
wf_ordered : ordered (key_at st) (length (expiryHeap st))
}.

(** Only the array order and the [index] fields may have changed. *)
Record same_records st st' : Prop := {
same_table : table st' = table st;
same_next : next_loc st' = next_loc st;
same_length : length (expiryHeap st') = length (expiryHeap st);
same_objects l : (λ n, (node_id n, node_rec n)) <$> objects st' !! l
               = (λ n, (node_id n, node_rec n)) <$> objects st !! l
}.

Lemma same_records_refl st : same_records st st.
Proof. by split. Qed.

Lemma same_records_trans st1 st2 st3 :
  same_records st1 st2 → same_records st2 st3 → same_records st1 st3.
Proof. intros [] []. split; congruence. Qed.

Lemma same_records_view st st' : same_records st st' → view st' = view st.
Proof.
  intros [Ht _ _ Ho]. unfold view. rewrite Ht. apply map_eq. intros k.
  rewrite !lookup_omap. destruct (table st !! k) as [l|]; [|done]. simpl.
  specialize (Ho l). destruct (objects st' !! l), (objects st !! l); simplify_eq/=; congruence.
Qed.

Lemma empty_wf : wf_heap empty_heap.
Proof.
  split; [split|]; simpl.
  - intros i l Hl. by rewrite lookup_nil in Hl.
  - intros k l Hl. by rewrite lookup_empty in Hl.
  - intros l n Hl. by rewrite lookup_empty in Hl.
  - intros j Hj. simpl in Hj. lia.
Qed.

Lemma lookup_set_index l i j (objs : gmap nat (Node P)) :
  set_index l i objs !! j
  = if decide (l = j) then (λ n, mkNode (node_id n) (node_rec n) i) <$> objs !! j
  else objs !! j.
Proof. unfold set_index. rewrite lookup_alter. by case_decide; subst. Qed.

Lemma synced_expiry_at st i :
  synced st → (i < length (expiryHeap st))%nat → expiry_at expiry st i = Some (key_at st i).
Proof.
  intros Hs Hi. unfold key_at, expiry_at.
  destruct (lookup_lt_is_Some_2 _ _ Hi) as [l Hl]. rewrite Hl. simpl.
  destruct (synced_heap _ Hs _ _ Hl) as (n & Hn & _). by rewrite Hn.
Qed.

Lemma synced_inj st i j l :
  synced st → expiryHeap st !! i = Some l → expiryHeap st !! j = Some l → i = j.
Proof.
  intros Hs Hi Hj. destruct (synced_heap _ Hs _ _ Hi) as (n & Hn & <- & _).
  destruct (synced_heap _ Hs _ _ Hj) as (m & Hm & <- & _). congruence.
Qed.

(** An array write that moves entries around keeps the two containers in
  agreement as soon as every slot's [index] is the slot's position and the
  set of entries is unchanged. *)
Lemma synced_permute st st' :
  synced st → same_records st st' →
  (∀ i l, expiryHeap st' !! i = Some l →
   (∃ j, expiryHeap st !! j = Some l) ∧ node_index <$> objects st' !! l = Some i) →
  (∀ j l, expiryHeap st !! j = Some l → ∃ i, expiryHeap st' !! i = Some l) →
  synced st'.
Proof.
  intros Hs Hsame H1 H2. destruct Hsame as [Ht Hn Hl Ho]. split.
  - intros i l Hi. destruct (H1 _ _ Hi) as [[j Hj] Hidx].
    destruct (synced_heap _ Hs _ _ Hj) as (n & Hn' & _ & Htab).
    specialize (Ho l). rewrite Hn' in Ho.
    destruct (objects st' !! l) as [n'|]; [|done]. simplify_eq/=.
    exists n'. rewrite Ht. split_and!; congruence.
  - intros k l Hk. rewrite Ht in Hk.
    destruct (synced_table _ Hs _ _ Hk) as (n & Hn' & Hid & Hj).
    destruct (H2 _ _ Hj) as [i Hi]. destruct (H1 _ _ Hi) as [_ Hidx].
    specialize (Ho l). rewrite Hn' in Ho.
    destruct (objects st' !! l) as [n'|]; [|done]. simplify_eq/=.
    exists n'. split_and!; congruence.
  - intros l n Hln. specialize (Ho l). rewrite Hln in Ho.
    destruct (objects st !! l) as [n'|] eqn:E; [|done].
    rewrite Hn. by eapply synced_fresh.
Qed.

Lemma same_records_key st st' i j :
  same_records st st' → expiryHeap st' !! i = expiryHeap st !! j → key_at st' i = key_at st j.
Proof.
  intros [_ _ _ Ho] Hij. unfold key_at, expiry_at. rewrite Hij.
  destruct (expiryHeap st !! j) as [l|]; [simpl|done].
  specialize (Ho l). destruct (objects st' !! l), (objects st !! l); simplify_eq/=; congruence.
Qed.

Definition transpose (a b i : nat) : nat :=
if decide (i = a) then b else if decide (i = b) then a else i.

Lemma transpose_involutive a b i : transpose a b (transpose a b i) = i.
Proof. unfold transpose. repeat case_decide; congruence. Qed.

Lemma swap_spec st a b :
  synced st → a ≠ b →
  (a < length (expiryHeap st))%nat → (b < length (expiryHeap st))%nat →
  ∃ st', heap_swap a b st = Some st' ∧ synced st' ∧ same_records st st'
  ∧ ∀ i, key_at st' i = swap_keys (key_at st) a b i.
Proof.
  intros Hs Hab Ha Hb.
  destruct (lookup_lt_is_Some_2 _ _ Ha) as [la Hla].
  destruct (lookup_lt_is_Some_2 _ _ Hb) as [lb Hlb].
  assert (la ≠ lb) as Hne by (intros ->; eauto using synced_inj).
  unfold heap_swap. rewrite Hla, Hlb. simpl. eexists; split; [done|].
  set (st' := mkHeap _ _ _ _).
  assert (same_records st st') as Hsame.
  { split; try done; simpl; [by rewrite !length_insert|]. intros l.
    rewrite !lookup_set_index. repeat case_decide; by destruct (objects st !! l). }
  assert (∀ i, expiryHeap st' !! i = expiryHeap st !! transpose a b i) as Hlk.
  { intros i. unfold st', transpose. simpl. repeat case_decide; subst.
    - by rewrite list_lookup_insert_ne, list_lookup_insert_eq, Hlb by done.
    - by rewrite list_lookup_insert_eq, Hla by (by rewrite length_insert).
    - by rewrite !list_lookup_insert_ne by done. }
  split; [|split; [done|]].
  - eapply synced_permute; [done..| |].
    + intros i l Hi. rewrite Hlk in Hi. split; [by eauto|].
      destruct (synced_heap _ Hs _ _ Hi) as (n & Hn & Hidx & _).
      unfold st'; simpl. rewrite !lookup_set_index, Hn. unfold transpose in *.
      repeat case_decide; simplify_eq/=; try done; exfalso;
        eauto using synced_inj.
    + intros j l Hj. exists (transpose a b j). by rewrite Hlk, transpose_involutive.
  - intros i. rewrite (same_records_key _ _ _ _ Hsame (Hlk i)).
    unfold transpose, swap_keys. by repeat case_decide.
Qed.

Lemma ordered_key_ext K st n :
  (∀ i, key_at st i = K i) → ordered K n → ordered (key_at st) n.
Proof. intros He. by apply ordered_ext. Qed.

(** [moveUp] terminates, and repairs the order above [index]. *)
Lemma move_up_spec fuel st index :
  synced st → (index < length (expiryHeap st))%nat → (index < fuel)%nat →
  let n := length (expiryHeap st) in
  ∃ st', move_up_loop expiry fuel st index = Some st' ∧ synced st' ∧ same_records st st'
  ∧ (ordered_below (key_at st) n index → ordered (key_at st') n)
  ∧ (ordered_but (key_at st) n index →
       ordered (key_at st') n ∨ (st' = st ∧ ordered_above (key_at st) n index)).
Proof.
  revert st index. induction fuel as [|fuel IH]; intros st index Hs Hi Hf n; [lia|]. simpl.
  destruct (decide (index = 0)%nat) as [->|Hne].
  { exists st. split_and!; [done..|apply same_records_refl| |].
    - intros H. eapply up_stop; [done|by left].
    - intros H. right. split; [done|]. eapply but_stop; [done|by left]. }
  pose proof (heap_parent_lt index ltac:(lia)) as Hlt.
  rewrite !synced_expiry_at by (done || lia). simpl.
  destruct (Z.leb_spec (key_at st (heap_parent index)) (key_at st index)) as [Hle|Hgt].
  { exists st. split_and!; [done..|apply same_records_refl| |].
    - intros H. eapply up_stop; [done|by right].
    - intros H. right. split; [done|]. eapply but_stop; [done|by right]. }
  destruct (swap_spec st (heap_parent index) index) as (st1 & -> & Hs1 & Hsame & Hkey); [done|lia..|].
  simpl. destruct (IH st1 (heap_parent index)) as (st2 & -> & Hs2 & Hsame2 & Hb & _);
    [done|rewrite (same_length _ _ Hsame); lia|lia|].
  rewrite (same_length _ _ Hsame) in Hb. fold n in Hb.
  assert (ordered_but (key_at st) n index → ordered (key_at st2) n) as Hdone.
  { intros Hbut. apply Hb. destruct (up_step _ _ _ Hbut) as [H1 H2]; [lia|lia|].
    split; [intros j Hj Hj'; rewrite !Hkey; by apply H1|].
    intros Hp c Hc Hpc. rewrite !Hkey. by apply H2. }
  exists st2. split_and!; [done..|by eapply same_records_trans| |].
  - intros Hbelow. by apply Hdone, below_but.
  - intros Hbut. left. by apply Hdone.
Qed.

(** [moveDown] terminates, and repairs the order below [index]. *)
Lemma move_down_spec fuel st index :
  synced st → (index < length (expiryHeap st))%nat →
  (length (expiryHeap st) - index < fuel)%nat →
  let n := length (expiryHeap st) in
  ∃ st', move_down_loop expiry fuel st index = Some st' ∧ synced st' ∧ same_records st st'
  ∧ (ordered_above (key_at st) n index → ordered (key_at st') n).
Proof.
  revert st index. induction fuel as [|fuel IH]; intros st index Hs Hi Hf n; [lia|].
  cbn [move_down_loop].
  assert (∀ d, (0 < d < n)%nat → heap_parent d = index →
    d = (index * 2 + 1)%nat ∨ d = S (index * 2 + 1)) as Hchild by (unfold heap_parent; lia).
  destruct (decide (length (expiryHeap st) <= index * 2 + 1)%nat) as [Hleaf|Hleaf].
  { exists st. split_and!; [done..|apply same_records_refl|].
    intros H. eapply down_stop; [done|]. intros d Hd Hp. destruct (Hchild d Hd Hp); lia. }
  set (left := (index * 2 + 1)%nat) in *.
  rewrite (synced_expiry_at _ left) by (done || lia). simpl.
  set (child := if decide (S left < length (expiryHeap st))%nat
                then if key_at st (S left) <? key_at st left then S left else left else left).
  assert ((if decide (S left < length (expiryHeap st))%nat
           then kr ← expiry_at expiry st (S left);
                Some (if kr <? key_at st left then S left else left)
           else Some left) = Some child) as ->.
  { unfold child. case_decide; [|done]. by rewrite synced_expiry_at. }
  simpl. assert (0 < child < n ∧ heap_parent child = index ∧ index < child)%nat as (Hc & Hp & Hlt).
  { unfold child, heap_parent, left. repeat case_match; lia. }
  assert (∀ d, (0 < d < n)%nat → heap_parent d = index → key_at st child <= key_at st d) as Hmin.
  { intros d Hd Hpd. unfold child.
    destruct (Hchild d Hd Hpd) as [-> | ->]; fold left; 
      (case_decide; [|lia]); destruct (Z.ltb_spec (key_at st (S left)) (key_at st left)); lia. }
  rewrite !synced_expiry_at by (done || lia). simpl.
  destruct (Z.leb_spec (key_at st index) (key_at st child)) as [Hle|Hgt].
  { exists st. split_and!; [done..|apply same_records_refl|].
    intros H. eapply down_stop; [done|]. intros d Hd Hpd. specialize (Hmin d Hd Hpd). lia. }
  destruct (swap_spec st index child) as (st1 & -> & Hs1 & Hsame & Hkey); [done|lia..|].
  simpl. pose proof (same_length _ _ Hsame) as Hlen. fold n in Hlen.
  destruct (IH st1 child) as (st2 & -> & Hs2 & Hsame2 & Hb); [done|lia|lia|].
  rewrite Hlen in Hb. exists st2. split_and!; [done..|by eapply same_records_trans|].
  intros Habove. apply Hb.
  destruct (down_step _ _ _ child Habove) as [H1 H2]; [done..|].
  split; [intros j Hj Hj'; rewrite !Hkey; by apply H1|].
  intros Hq c Hcc Hpc. rewrite !Hkey. by apply H2.
Qed.

Lemma view_lookup st k p :
  view st !! k = Some p ↔
  ∃ l n, table st !! k = Some l ∧ objects st !! l = Some n ∧ node_rec n = p.
Proof.
  unfold view. rewrite lookup_omap. split.
  - destruct (table st !! k) as [l|]; [simpl|done].
    destruct (objects st !! l) as [n|] eqn:E; [|done]. intros [= <-]. by exists l, n.
  - intros (l & n & -> & Hn & <-). simpl. by rewrite Hn.
Qed.

Lemma view_heap st k p :
  synced st → view st !! k = Some p →
  ∃ i l n, expiryHeap st !! i = Some l ∧ objects st !! l = Some n
  ∧ node_id n = k ∧ node_rec n = p ∧ node_index n = i ∧ table st !! k = Some l.
Proof.
  intros Hs (l & n & Hk & Hn & Hp)%view_lookup.
  destruct (synced_table _ Hs _ _ Hk) as (n' & Hn' & Hid & Hi).
  simplify_eq. by exists (node_index n), l, n.
Qed.

Lemma view_dom st : synced st → dom (view st) = dom (table st).
Proof.
  intros Hs. apply set_eq. intros k. rewrite !elem_of_dom. split.
  - intros [p (l & n & Hk & _)%view_lookup]. eauto.
  - intros [l Hk]. destruct (synced_table _ Hs _ _ Hk) as (n & Hn & _).
    exists (node_rec n). apply view_lookup. eauto.
Qed.

Lemma view_size st : synced st → size (view st) = size (table st).
Proof. intros Hs. rewrite <- !size_dom. by rewrite view_dom. Qed.

(** The root of the array holds a record of least expiry. *)
Lemma root_least st k p e :
  wf_heap st → expiry_at expiry st 0 = Some e → view st !! k = Some p → e <= expiry p.
Proof.
  intros [Hs Ho] He Hk.
  destruct (view_heap _ _ _ Hs Hk) as (i & l & n & Hi & Hn & Hid & Hp & Hidx & Hl).
  apply lookup_lt_Some in Hi as Hlt.
  assert (key_at st 0 = e) as <- by (unfold key_at; by rewrite He).
  assert (key_at st i = expiry p) as <-
    by (unfold key_at, expiry_at; rewrite Hi; simpl; rewrite Hn; simpl; by rewrite Hp).
  by eapply ordered_root.
Qed.

(** Dropping slot [i]: the last entry takes its place (or is the one dropped). *)
Lemma drop_synced st i l n lastRow :
  synced st → expiryHeap st !! i = Some l → objects st !! l = Some n →
  last (expiryHeap st) = Some lastRow → i ≠ (length (expiryHeap st) - 1)%nat →
  let popped := take (length (expiryHeap st) - 1) (expiryHeap st) in
  synced (mkHeap (delete (node_id n) (table st)) (<[i := lastRow]> popped)
          (set_index lastRow i (objects st)) (next_loc st)).
Proof.
  intros Hs Hi Hn Hlast Hne popped. apply lookup_lt_Some in Hi as Hlt.
  rewrite last_lookup, <- Nat.sub_1_r in Hlast.
  assert (∀ j x, popped !! j = Some x → expiryHeap st !! j = Some x ∧ (j < length (expiryHeap st) - 1)%nat) as Hpop.
  { intros j x. unfold popped. rewrite lookup_take_Some. done. }
  assert (length popped = length (expiryHeap st) - 1)%nat as Hlen
    by (unfold popped; rewrite length_take; lia).
  destruct (synced_heap _ Hs _ _ Hi) as (n' & Hn' & Hidx & Htab). simplify_eq.
  split; simpl.
  - intros j x Hj. rewrite lookup_set_index.
    destruct (decide (j = node_index n)) as [->|Hji].
    + rewrite list_lookup_insert_eq in Hj by lia. simplify_eq.
      rewrite decide_True by done.
      destruct (synced_heap _ Hs _ _ Hlast) as (m & Hm & Hmi & Hmt). rewrite Hm. simpl.
      eexists; split_and!; [done..|]. simpl. rewrite lookup_delete_ne; [done|].
      intros Heq. rewrite Heq in *. simplify_eq; lia.
    + rewrite list_lookup_insert_ne in Hj by done. apply Hpop in Hj as [Hj Hjl].
      destruct (synced_heap _ Hs _ _ Hj) as (m & Hm & Hmi & Hmt).
      rewrite decide_False.
      * exists m. split_and!; [done..|]. rewrite lookup_delete_ne; [done|].
        intros Heq. rewrite Heq in *. simplify_eq.
      * intros ->. pose proof (synced_inj _ _ _ _ Hs Hj Hlast). lia.
  - intros k x [Hk Hx]%lookup_delete_Some.
    destruct (synced_table _ Hs _ _ Hx) as (m & Hm & Hmid & Hmi).
    rewrite lookup_set_index. case_decide as Hd; subst.
    + rewrite Hm. simpl. eexists; split_and!; [done..|]. simpl.
      apply list_lookup_insert_eq. lia.
    + exists m. split_and!; [done..|]. rewrite list_lookup_insert_ne.
      * unfold popped. rewrite lookup_take_lt; [done|].
        apply lookup_lt_Some in Hmi as ?.
        destruct (decide (node_index m = length (expiryHeap st) - 1)%nat) as [E|]; [|lia].
        rewrite E in Hmi. simplify_eq.
      * intros E. rewrite E in Hi. simplify_eq.
  - intros x m. rewrite lookup_set_index. case_decide; subst.
    + destruct (objects st !! x) eqn:E; [|done]. intros _. by eapply synced_fresh.
    + by apply synced_fresh.
Qed.

Lemma drop_last_synced st l n :
  synced st → expiryHeap st !! (length (expiryHeap st) - 1)%nat = Some l →
  objects st !! l = Some n →
  synced (mkHeap (delete (node_id n) (table st))
          (take (length (expiryHeap st) - 1) (expiryHeap st)) (objects st) (next_loc st)).
Proof.
  intros Hs Hl Hn. destruct (synced_heap _ Hs _ _ Hl) as (n' & Hn' & Hidx & Htab). simplify_eq.
  split; simpl.
  - intros j x [Hj Hlt]%lookup_take_Some.
    destruct (synced_heap _ Hs _ _ Hj) as (m & Hm & Hmi & Hmt).
    exists m. split_and!; [done..|]. rewrite lookup_delete_ne; [done|].
    intros Heq. rewrite Heq in *. simplify_eq; lia.
  - intros k x [Hk Hx]%lookup_delete_Some.
    destruct (synced_table _ Hs _ _ Hx) as (m & Hm & Hmid & Hmi).
    exists m. split_and!; [done..|]. apply lookup_lt_Some in Hmi as Hlt.
    rewrite lookup_take_lt; [done|].
    destruct (decide (node_index m = length (expiryHeap st) - 1)%nat) as [E|]; [|lia].
    rewrite E in Hmi. simplify_eq.
  - by apply synced_fresh.
Qed.

Lemma view_delete st k h objs nx :
  (∀ l, node_rec <$> objs !! l = node_rec <$> objects st !! l) →
  view (mkHeap (delete k (table st)) h objs nx) = delete k (view st).
Proof.
  intros Ho. unfold view. simpl. rewrite omap_delete. f_equal. apply map_eq. intros j.
  rewrite !lookup_omap. destruct (table st !! j); [simpl|done]. by rewrite Ho.
Qed.

(** Keys after dropping slot [i]: unchanged outside slot [i]. *)
Lemma drop_key_at st tb objs nx h j :
  (∀ l, node_rec <$> objs !! l = node_rec <$> objects st !! l) →
  h !! j = expiryHeap st !! j →
  key_at (mkHeap tb h objs nx) j = key_at st j.
Proof.
  intros Hrec Hj. unfold key_at, expiry_at. simpl. rewrite Hj.
  destruct (expiryHeap st !! j) as [x|]; [simpl|done]. specialize (Hrec x).
  destruct (objs !! x), (objects st !! x); simplify_eq/=; congruence.
Qed.

Lemma ordered_drop K K' n i :
  ordered K n → (∀ j, (j < n - 1)%nat → j ≠ i → K' j = K j) → ordered_but K' (n - 1) i.
Proof.
  intros Ho Hk. split.
  - intros j Hj Hji Hpi. pose proof (heap_parent_lt j ltac:(lia)).
    rewrite !Hk by (done || lia). apply Ho. lia.
  - intros Hi0 c Hc Hpc. pose proof (heap_parent_lt c ltac:(lia)).
    pose proof (heap_parent_lt i ltac:(lia)).
    rewrite !Hk by (done || lia). etrans; [apply Ho; lia|]. rewrite <- Hpc. apply Ho. lia.
Qed.

(** [moveUp(index); moveDown(last.index)] *)
Lemma reposition_spec st i l :
  synced st → expiryHeap st !! i = Some l →
  ordered_but (key_at st) (length (expiryHeap st)) i →
  ∃ st', (st3 ← heap_move_up expiry st i;
        moved ← objects st3 !! l;
        heap_move_down expiry st3 (node_index moved)) = Some st'
  ∧ wf_heap st' ∧ same_records st st'.
Proof.
  intros Hs Hi Hbut. apply lookup_lt_Some in Hi as Hlt.
  destruct (move_up_spec (S i) st i) as (st3 & Hup & Hs3 & Hsame3 & _ & Hor); [done|lia..|].
  specialize (Hor Hbut). unfold heap_move_up. rewrite Hup. simpl.
  destruct (synced_heap _ Hs _ _ Hi) as (n & Hn & Hni & Hnt).
  rewrite <- (same_table _ _ Hsame3) in Hnt.
  destruct (synced_table _ Hs3 _ _ Hnt) as (m & Hm & _ & Hmi).
  rewrite Hm. simpl. apply lookup_lt_Some in Hmi as Hmlt.
  pose proof (same_length _ _ Hsame3) as Hlen3.
  destruct (move_down_spec (S (length (expiryHeap st3))) st3 (node_index m))
    as (st4 & Hdown & Hs4 & Hsame4 & Hor4); [done|done|lia|].
  unfold heap_move_down. rewrite Hdown. eexists. split; [done|].
  rewrite Hlen3 in Hor4. split; [split; [done|]|by eapply same_records_trans].
  rewrite (same_length _ _ Hsame4), Hlen3. apply Hor4.
  destruct Hor as [Hord | [-> Habove]]; [by apply ordered_weaken|]. by simplify_eq.
Qed.

(** [remove(index)] deletes exactly the entry in that slot. *)
Lemma remove_spec st i l n :
  wf_heap st → expiryHeap st !! i = Some l → objects st !! l = Some n →
  ∃ st', heap_remove expiry st i = Some st' ∧ wf_heap st'
  ∧ view st' = delete (node_id n) (view st).
Proof.
  intros [Hs Ho] Hi Hn. apply lookup_lt_Some in Hi as Hlt.
  destruct (last (expiryHeap st)) as [lastRow|] eqn:Hlast.
  2:{ apply last_None in Hlast. rewrite Hlast in Hlt. simpl in Hlt. lia. }
  unfold heap_remove. rewrite Hi. simpl. rewrite Hlast. simpl. rewrite Hn.
  cbn -[take heap_move_up heap_move_down].
  assert (length (take (length (expiryHeap st) - 1) (expiryHeap st)) = length (expiryHeap st) - 1)%nat
    as Hlen by (rewrite length_take; lia).
  rewrite Hlen. case_decide as Hd.
  - eexists. split; [done|]. split; [split|by apply view_delete].
    + apply (drop_last_synced _ l); [done| |done]. by rewrite <- Hd.
    + simpl. rewrite Hlen. intros j Hj. pose proof (heap_parent_lt j ltac:(lia)).
      rewrite !(drop_key_at st) by (done || by rewrite lookup_take_lt by lia). apply Ho. lia.
  - pose proof (drop_synced _ _ _ _ _ Hs Hi Hn Hlast Hd) as Hs2. cbv zeta in Hs2.
    match type of Hs2 with synced ?x => set (st2 := x) in * end.
    assert (∀ k, node_rec <$> set_index lastRow i (objects st) !! k = node_rec <$> objects st !! k) as Hrec.
    { intros k. rewrite lookup_set_index. case_decide; [|done]. by destruct (objects st !! k). }
    assert (length (expiryHeap st2) = (length (expiryHeap st) - 1)%nat) as Hlen2
      by (unfold st2; cbn -[take]; by rewrite length_insert).
    destruct (reposition_spec st2 i lastRow) as (st' & Hrun & Hwf & Hsame); [done|..].
    + unfold st2; cbn -[take]; apply list_lookup_insert_eq; lia.
    + rewrite Hlen2. eapply ordered_drop; [done|]. intros j Hj Hji. unfold st2.
      apply drop_key_at; [done|]. by rewrite list_lookup_insert_ne, lookup_take_lt by done.
    + exists st'. split_and!; [done..|]. rewrite (same_records_view _ _ Hsame).
      by apply view_delete.
Qed.

(** [Map.set] of a fresh object and [Array.push], before [moveUp]. *)
Lemma append_synced st k p :
  synced st → table st !! k = None →
  synced (mkHeap (<[k := next_loc st]> (table st)) (expiryHeap st ++ [next_loc st])
          (<[next_loc st := mkNode k p (length (expiryHeap st))]> (objects st))
          (S (next_loc st))).
Proof.
  intros Hs Htab.
  assert (objects st !! next_loc st = None) as Hfresh.
  { destruct (objects st !! next_loc st) eqn:E; [|done].
    apply (synced_fresh _ Hs) in E. lia. }
  split; simpl.
  - intros i l [[-> ->]|[Hlt Hi]]%lookup_snoc_cases.
    + eexists. rewrite !lookup_insert_eq. split_and!; [done..|]. simpl. by rewrite lookup_insert_eq.
    + destruct (synced_heap _ Hs _ _ Hi) as (n & Hn & Hni & Hnt).
      exists n. rewrite !lookup_insert_ne by (intros E; congruence). done.
  - intros k' l. rewrite lookup_insert. case_decide; subst.
    + intros [= <-]. eexists. rewrite lookup_insert_eq. split_and!; [done..|]. simpl.
      apply lookup_snoc_cases. by left.
    + intros Hk'. destruct (synced_table _ Hs _ _ Hk') as (n & Hn & Hni & Hnh).
      exists n. rewrite lookup_insert_ne by (intros E; congruence). split_and!; [done..|].
      apply lookup_snoc_cases. right. split; [by eapply lookup_lt_Some|done].
  - intros l n. rewrite lookup_insert. case_decide; subst; [lia|].
    intros Hl. apply (synced_fresh _ Hs) in Hl. lia.
Qed.

(** Records already stored are read unchanged through a grown object store. *)
Lemma grown_objects st k p i l n :
  synced st → objects st !! l = Some n →
  <[next_loc st := mkNode k p i]> (objects st) !! l = Some n.
Proof.
  intros Hs Hl. apply (synced_fresh _ Hs) in Hl as Hlt.
  rewrite lookup_insert_ne; [done|lia].
Qed.

(** Inserting a fresh identifier: [Map.set], [Array.push], [moveUp]. *)
Lemma push_spec st k p :
  wf_heap st → view st !! k = None →
  ∃ st', heap_push expiry st k p = Some st' ∧ wf_heap st' ∧ view st' = <[k := p]> (view st).
Proof.
  intros [Hs Ho] Hk.
  assert (table st !! k = None) as Htab.
  { apply not_elem_of_dom. rewrite <- view_dom by done. by apply not_elem_of_dom. }
  pose proof (append_synced st k p Hs Htab) as Hs1.
  unfold heap_push, heap_move_up. set (st1 := mkHeap _ _ _ _) in *.
  assert (length (expiryHeap st1) = S (length (expiryHeap st))) as Hlen
    by (unfold st1; simpl; rewrite length_app; simpl; lia).
  destruct (move_up_spec (S (length (expiryHeap st))) st1 (length (expiryHeap st)))
    as (st' & -> & Hs' & Hsame & Hor & _); [done|lia..|].
  exists st'. split; [done|]. split; [split; [done|]|].
  - rewrite (same_length _ _ Hsame). apply Hor. rewrite Hlen. split.
    + intros j Hj Hne. pose proof (heap_parent_lt j ltac:(lia)).
      assert (∀ m, (m < length (expiryHeap st))%nat → key_at st1 m = key_at st m) as Hkey.
      { intros m Hm. unfold key_at, expiry_at, st1. simpl. rewrite lookup_app_l by done.
        destruct (expiryHeap st !! m) as [l|] eqn:E; [simpl|done].
        destruct (synced_heap _ Hs _ _ E) as (n & Hn & _).
        by rewrite (grown_objects _ _ _ _ _ _ Hs Hn), Hn. }
      rewrite !Hkey by lia. apply Ho. lia.
    + intros Hi0 c Hc Hpc. pose proof (heap_parent_lt c ltac:(lia)). lia.
  - rewrite (same_records_view _ _ Hsame). apply map_eq. intros k'. unfold view, st1. simpl.
    rewrite lookup_omap, !lookup_insert. case_decide; subst; simpl.
    + by rewrite lookup_insert_eq.
    + rewrite lookup_omap. destruct (table st !! k') as [l|] eqn:E; [simpl|done].
      destruct (synced_table _ Hs _ _ E) as (n & Hn & _).
      by rewrite (grown_objects _ _ _ _ _ _ Hs Hn), Hn.
Qed.

(** [tables.get(k)], the entry object itself. *)
Definition lookup_entry st (k : list Z) : option (Node P) :=
l ← table st !! k; objects st !! l.

Lemma lookup_entry_view st k :
  view st !! k = node_rec <$> lookup_entry st k.
Proof. unfold view, lookup_entry. rewrite lookup_omap. by destruct (table st !! k). Qed.

Lemma remove_entry_spec st k n :
  wf_heap st → lookup_entry st k = Some n →
  ∃ st', heap_remove expiry st (node_index n) = Some st' ∧ wf_heap st'
  ∧ view st' = delete k (view st).
Proof.
  intros Hwf (l & Hl & Hn)%bind_Some.
  destruct (synced_table _ (wf_synced _ Hwf) _ _ Hl) as (n' & Hn' & Hid & Hi). simplify_eq.
  by eapply remove_spec.
Qed.

Lemma remove_root_spec st e :
  wf_heap st → expiry_at expiry st 0 = Some e →
  ∃ st' k p, heap_remove expiry st 0 = Some st' ∧ wf_heap st'
  ∧ view st !! k = Some p ∧ expiry p = e ∧ view st' = delete k (view st).
Proof.
  intros Hwf (l & Hl & (n & Hn & [= <-])%bind_Some)%bind_Some.
  destruct (remove_spec st 0 l n) as (st' & Hr & Hwf' & Hv); [done..|].
  destruct (synced_heap _ (wf_synced _ Hwf) _ _ Hl) as (n' & Hn' & _ & Ht). simplify_eq.
  exists st', (node_id n), (node_rec n). split_and!; [done..| |done|done].
  apply view_lookup. eauto.
Qed.

(** The bounded sweep: it terminates without error, removes at most [n]
  records, all of them expired, and stops early only when none is left. *)
Lemma sweep_spec n (expired : Z → bool) st :
  wf_heap st → (∀ e e', e <= e' → expired e' = true → expired e = true) →
  ∃ st', heap_sweep expiry n expired st = Some st' ∧ wf_heap st'
  ∧ view st' ⊆ view st
  ∧ (∀ k p, view st !! k = Some p → expired (expiry p) = false → view st' !! k = Some p)
  ∧ (size (view st) <= size (view st') + n)%nat
  ∧ ((∀ k p, view st' !! k = Some p → expired (expiry p) = false)
     ∨ size (view st) = (size (view st') + n)%nat).
Proof.
  intros Hwf Hmono. revert st Hwf. induction n as [|n IH]; intros st Hwf; simpl.
  { exists st. split_and!; [done..|lia|]. right. lia. }
  assert ((∀ k p, view st !! k = Some p → expired (expiry p) = false) →
    ∃ st', Some st = Some st' ∧ wf_heap st' ∧ view st' ⊆ view st
    ∧ (∀ k p, view st !! k = Some p → expired (expiry p) = false → view st' !! k = Some p)
    ∧ (size (view st) <= size (view st') + S n)%nat
    ∧ ((∀ k p, view st' !! k = Some p → expired (expiry p) = false)
       ∨ size (view st) = (size (view st') + S n)%nat)) as Hstop.
  { intros Hnone. exists st. split_and!; [done..|lia|by left]. }
  destruct (expiry_at expiry st 0) as [e|] eqn:He.
  2:{ apply Hstop. intros k p Hk.
      destruct (view_heap _ _ _ (wf_synced _ Hwf) Hk) as (i & l & m & Hi & _).
      apply lookup_lt_Some in Hi.
      rewrite synced_expiry_at in He by (apply Hwf || lia). done. }
  destruct (expired e) eqn:Hexp.
  2:{ apply Hstop. intros k p Hk. pose proof (root_least _ _ _ _ Hwf He Hk).
      apply not_true_is_false. intros H1. apply (Hmono e) in H1; [congruence|done]. }
  destruct (remove_root_spec _ _ Hwf He) as (st1 & k & p & -> & Hwf1 & Hk & <- & Hv). simpl.
  destruct (IH st1 Hwf1) as (st2 & -> & Hwf2 & Hsub & Hkeep & Hsz & Hdone).
  assert (size (view st) = S (size (view st1))) as Hsize.
  { rewrite Hv, map_size_delete_Some by eauto.
    assert (size (view st) ≠ 0%nat); [|lia]. intros H0%map_size_empty_inv.
    rewrite H0, lookup_empty in Hk. done. }
  exists st2. split_and!; [done..| | |lia|].
  - etrans; [done|]. rewrite Hv. apply delete_subseteq.
  - intros k' p' Hk' Hlive. apply Hkeep; [|done]. rewrite Hv, lookup_delete_ne; [done|].
    intros ->. simplify_eq. congruence.
  - destruct Hdone as [?|?]; [by left|right; lia].
Qed.
End invariant.

#[export] Hint Resolve empty_wf same_records_refl : core.
