(* ===== verification/JsMap.v ===== *)
(** The JavaScript [Map] with string keys, where iteration order matters: an
    association list in insertion order.  Setting a present key keeps its place,
    a new key goes last, and a deleted key that is set again goes last. *)

From S2P Require Import Prelude JsValue.

Abbreviation jsmap A := (list (jsstr * A)).

Section jsmap.
Context {A : Type}.
Implicit Types (m : jsmap A) (k : jsstr) (v : A).

Fixpoint map_get m k : option A :=
match m with
| [] => None
| (k', v) :: m => if jsstr_eqb k k' then Some v else map_get m k
end.

Fixpoint map_set m k v : jsmap A :=
match m with
| [] => [(k, v)]
| (k', v') :: m => if jsstr_eqb k k' then (k', v) :: m else (k', v') :: map_set m k v
end.

Fixpoint map_delete m k : jsmap A :=
match m with
| [] => []
| (k', v) :: m => if jsstr_eqb k k' then m else (k', v) :: map_delete m k
end.

Definition map_keys m : list jsstr := map fst m.
Definition map_size m : nat := length m.

(** Keys are unique. *)
Definition map_ok m : Prop := NoDup (map_keys m).

Lemma get_set m k v k' : map_get (map_set m k v) k' = if jsstr_eqb k' k then Some v else map_get m k'.
Proof.
  induction m as [|[k0 v0] m IH]; simpl; [done|].
  destruct (jsstr_eqb k k0) eqn:E0; simpl.
  - apply jsstr_eqb_true in E0 as <-. by destruct (jsstr_eqb k' k).
  - destruct (jsstr_eqb k' k0) eqn:E1; [|by rewrite IH].
    apply jsstr_eqb_true in E1 as ->. apply jsstr_eqb_false in E0.
    by rewrite (proj2 (jsstr_eqb_false _ _)) by congruence.
Qed.

Lemma get_set_eq m k v : map_get (map_set m k v) k = Some v.
Proof. by rewrite get_set, jsstr_eqb_refl. Qed.
Lemma get_set_ne m k v k' : k' ≠ k → map_get (map_set m k v) k' = map_get m k'.
Proof. intros. by rewrite get_set, (proj2 (jsstr_eqb_false _ _)). Qed.

Lemma get_None m k : map_get m k = None ↔ k ∉ map_keys m.
Proof.
  induction m as [|[k0 v0] m IH]; simpl; [split; [intros _ H; inversion H|done]|].
  rewrite not_elem_of_cons. destruct (jsstr_eqb k k0) eqn:E.
  - apply jsstr_eqb_true in E. naive_solver.
  - apply jsstr_eqb_false in E. naive_solver.
Qed.

Lemma get_Some_in m k v : map_get m k = Some v → (k, v) ∈ m.
Proof.
  induction m as [|[k0 v0] m IH]; simpl; [done|]. destruct (jsstr_eqb k k0) eqn:E.
  - apply jsstr_eqb_true in E as ->. intros [= ->]. left.
  - intros. right. by apply IH.
Qed.

Lemma in_get m k v : map_ok m → (k, v) ∈ m → map_get m k = Some v.
Proof.
  induction m as [|[k0 v0] m IH]; intros Hok Hin; [inversion Hin|].
  apply NoDup_cons in Hok as [Hnew Hok]. simpl. apply elem_of_cons in Hin as [[= -> ->]|Hin].
  - by rewrite jsstr_eqb_refl.
  - destruct (jsstr_eqb k k0) eqn:E; [|by apply IH]. apply jsstr_eqb_true in E as ->.
    exfalso. apply Hnew. apply list_elem_of_In, in_map_iff. exists (k0, v).
    split; [done|]. by apply list_elem_of_In.
Qed.

Lemma keys_set m k v : map_keys (map_set m k v)
  = match map_get m k with Some _ => map_keys m | None => map_keys m ++ [k] end.
Proof.
  induction m as [|[k0 v0] m IH]; simpl; [done|]. destruct (jsstr_eqb k k0); simpl; [done|].
  rewrite IH. by destruct (map_get m k).
Qed.

Lemma set_ok m k v : map_ok m → map_ok (map_set m k v).
Proof.
  unfold map_ok. intros Hok. rewrite keys_set. destruct (map_get m k) eqn:E; [done|].
  apply get_None in E. apply NoDup_app. split_and!; [done| |apply NoDup_singleton].
  intros x Hx ->%list_elem_of_singleton. done.
Qed.

Lemma keys_delete m k x : map_ok m → x ∈ map_keys (map_delete m k) ↔ x ∈ map_keys m ∧ x ≠ k.
Proof.
  induction m as [|[k0 v0] m IH]; intros Hok; simpl; [rewrite elem_of_nil; naive_solver|].
  apply NoDup_cons in Hok as [Hnew Hok]. simpl in Hnew. destruct (jsstr_eqb k k0) eqn:E; simpl.
  - apply jsstr_eqb_true in E as ->. rewrite elem_of_cons. naive_solver.
  - apply jsstr_eqb_false in E. rewrite !elem_of_cons, IH by done. naive_solver.
Qed.

Lemma delete_ok m k : map_ok m → map_ok (map_delete m k).
Proof.
  unfold map_ok. induction m as [|[k0 v0] m IH]; intros Hok; simpl; [done|].
  pose proof Hok as [Hnew Hok']%NoDup_cons. destruct (jsstr_eqb k k0); [done|]. simpl.
  apply NoDup_cons. split; [|by apply IH]. by intros [? _]%keys_delete.
Qed.

Lemma get_delete m k k' : map_ok m →
  map_get (map_delete m k) k' = if jsstr_eqb k' k then None else map_get m k'.
Proof.
  intros Hok. destruct (jsstr_eqb k' k) eqn:E.
  - apply jsstr_eqb_true in E as ->. apply get_None. rewrite keys_delete by done. naive_solver.
  - apply jsstr_eqb_false in E. clear Hok. induction m as [|[k0 v0] m IH]; simpl; [done|].
    destruct (jsstr_eqb k k0) eqn:E0; simpl.
    + apply jsstr_eqb_true in E0 as ->. by rewrite (proj2 (jsstr_eqb_false _ _)).
    + by rewrite IH.
Qed.

Lemma get_delete_eq m k : map_ok m → map_get (map_delete m k) k = None.
Proof. intros. by rewrite get_delete, jsstr_eqb_refl. Qed.
Lemma get_delete_ne m k k' : map_ok m → k' ≠ k → map_get (map_delete m k) k' = map_get m k'.
Proof. intros. by rewrite get_delete, (proj2 (jsstr_eqb_false _ _)). Qed.

(** [m'] is [m] without some of its entries. *)
Definition map_shrinks (gone : jsstr → A → Prop) m m' : Prop :=
∀ k, map_get m' k = map_get m k ∨ map_get m' k = None ∧ ∃ v, map_get m k = Some v ∧ gone k v.

Lemma shrinks_refl gone m : map_shrinks gone m m.
Proof. by left. Qed.

Lemma shrinks_trans gone m1 m2 m3 :
  map_shrinks gone m1 m2 → map_shrinks gone m2 m3 → map_shrinks gone m1 m3.
Proof.
  intros H1 H2 k. destruct (H2 k) as [->|(-> & v & Hv & Hg)]; [done|].
  destruct (H1 k) as [E|(E & _)]; [|congruence]. right. rewrite E in Hv. eauto.
Qed.

Lemma shrinks_delete (gone : jsstr → A → Prop) m k :
  map_ok m → (∀ v, map_get m k = Some v → gone k v) → map_shrinks gone m (map_delete m k).
Proof.
  intros Hok Hg k'. rewrite get_delete by done. destruct (jsstr_eqb k' k) eqn:E; [|by left].
  apply jsstr_eqb_true in E as ->. destruct (map_get m k) eqn:Em; [right|by left]. eauto.
Qed.
End jsmap.

#[export] Hint Resolve set_ok delete_ok shrinks_refl : core.
