(* ===== verification/AttestTypes.v ===== *)
(** express-request-attestation, [shared/types.ts]: protocol constants, the
    error of the shared helpers and the wire records. *)

From S2P Require Import Prelude JsValue.

Definition PROTOCOL_VERSION : Z := 1.
Definition MAC_INPUT_LABEL : jsstr := js "wtt-request-signature".
Definition ATTESTATION_ERROR_RESPONSE_HEADER : jsstr := js "x-attestation-error".
Definition REPLAY_KEY_PREFIX : jsstr := js "att:v1:".
Definition KEY_BYTES_LENGTH : Z := 32.
Definition MAC_BYTES_LENGTH : Z := 32.
Definition MAX_KEY_ID_LENGTH : Z := 64.
Definition MAX_REPLAY_NAMESPACE_LENGTH : Z := 128.
Definition MAX_ENCODED_TRANSACTION_ID_BYTES : Z := 1024.
Definition MAX_REQUEST_TARGET_BYTES : Z := 8192.
Definition MAX_CONTENT_TYPE_BYTES : Z := 256.
Definition MAX_PUBLIC_ORIGIN_BYTES : Z := 512.
Definition MIN_REPLAY_KEY_BYTES : Z := 1.
Definition MAX_REPLAY_KEY_BYTES : Z := 256.
Definition MAX_HEADER_NAME_BYTES : Z := 128.
Definition DEFAULT_MAX_AGE_MS : Z := 30000.
Definition MIN_MAX_AGE_MS : Z := 1000.
Definition MAX_MAX_AGE_MS : Z := 120000.
Definition DEFAULT_CLOCK_SKEW_MS : Z := 5000.
Definition MIN_CLOCK_SKEW_MS : Z := 0.
Definition MAX_CLOCK_SKEW_MS : Z := 30000.
Definition DEFAULT_CLUSTER_CLOCK_GUARD_MS : Z := 5000.
Definition MIN_CLUSTER_CLOCK_GUARD_MS : Z := 0.
Definition MAX_CLUSTER_CLOCK_GUARD_MS : Z := 30000.
Definition GLOBAL_MAX_RETENTION_MS : Z := 240000.

(** Thrown by the shared helpers; the message carries the package prefix. *)
Record AttestationProtocolError := mkProtocolError { protocol_message : jsstr }.

(** What a helper can throw: its own error, or the [TypeError] of a failed
    conversion to a string. *)
Inductive thrown := ThrownProtocol (e : AttestationProtocolError) | ThrownTypeError.

Definition protocolError (message : jsstr) : thrown :=
  ThrownProtocol (mkProtocolError (js "[express-request-attestation] " ++ message)).

(** Fields of the transaction-ID envelope [[1, keyId, timestampMs, nonceHex, mac]]. *)
Record TransactionIdFields := mkTransactionIdFields {
  keyId : jsstr;
  timestampMs : num;
  nonceHex : jsstr;
  mac : jsstr
}.

Record MacInputFields := mkMacInputFields {
  mi_replayNamespace : jsstr;
  mi_publicOrigin : jsstr;
  mi_keyId : jsstr;
  mi_timestampMs : num;
  mi_nonceHex : jsstr;
  mi_method : jsstr;
  mi_requestTarget : jsstr;
  mi_contentType : jsstr;
  mi_bodyHashHex : jsstr
}.

Record ResolvedTimePolicy := mkPolicy {
  maxAgeMs : Z;
  clockSkewMs : Z;
  clusterClockGuardMs : Z
}.

Inductive ProofTimingDecision := Valid | Future | Expired | StaleKey.

#[export] Instance ProofTimingDecision_eq_dec : EqDecision ProofTimingDecision.
Proof. solve_decision. Defined.

(** Deadlines are [None] for [null]. *)
Record ProofTiming := mkTiming {
  decision : ProofTimingDecision;
  timeDeadlineMs : option Z;
  proofDeadlineMs : option Z;
  retainUntilMs : option Z
}.

Inductive RetentionAdmission := Admissible | RetentionExpired | Overlong.
