(* ===== verification/AttestCanonical.v ===== *)
(** express-request-attestation, [shared/canonical.ts]: unpadded canonical
    base64url, canonical JSON and the timestamp assertion. *)

From S2P Require Import Prelude JsValue JsJson AttestTypes.

Notation pres := (result thrown).
Definition throw {A} (message : string) : pres A := Err (protocolError (js message)).
Definition require (b : bool) (message : string) : pres unit :=
  guard b (protocolError (js message)).

Definition BASE64URL_ALPHABET : jsstr :=
  js "ABCDEFGHIJKLMNOPQRSTUVWXYZabcdefghijklmnopqrstuvwxyz0123456789-_".

Definition BASE64URL_DECODE_TABLE (c : Z) : option Z := Z.of_nat <$> index_of c BASE64URL_ALPHABET.

Definition utf8ByteLength (text : jsstr) : Z := Z.of_nat (length (utf8_encode text)).

Definition utf8Decode (bytes : list Z) : pres jsstr :=
  match utf8_decode bytes with
  | Some text => Ok text
  | None => throw "input is not valid UTF-8"
  end.

Definition sextet (triplet shift : Z) : Z :=
  nth (Z.to_nat (Z.land (Z.shiftr triplet shift) 63)) BASE64URL_ALPHABET 0.

Fixpoint base64urlEncode (bytes : list Z) : jsstr :=
  match bytes with
  | [] => []
  | [first] =>
      let triplet := Z.lor (Z.lor (Z.shiftl first 16) (Z.shiftl 0 8)) 0 in
      [sextet triplet 18; sextet triplet 12]
  | [first; second] =>
      let triplet := Z.lor (Z.lor (Z.shiftl first 16) (Z.shiftl second 8)) 0 in
      [sextet triplet 18; sextet triplet 12; sextet triplet 6]
  | first :: second :: third :: rest =>
      let triplet := Z.lor (Z.lor (Z.shiftl first 16) (Z.shiftl second 8)) third in
      [sextet triplet 18; sextet triplet 12; sextet triplet 6; sextet triplet 0]
        ++ base64urlEncode rest
  end.

(** The result of a JavaScript bitwise operator. *)
Definition to_int32 (x : Z) : Z := (x + 2147483648) mod 4294967296 - 2147483648.

Record DecodeState := mkDecode {
  dec_out : list Z;     (** the [Uint8Array], written at [dec_cursor] *)
  dec_cursor : nat;
  dec_buffer : Z;
  dec_bits : Z
}.

Definition decode_step (st : DecodeState) (char : Z) : DecodeState :=
  let buffer := to_int32 (Z.lor (to_int32 (Z.shiftl (dec_buffer st) 6))
                            (default 0 (BASE64URL_DECODE_TABLE char))) in
  let bits := dec_bits st + 6 in
  if 8 <=? bits then
    mkDecode (<[dec_cursor st := Z.land (Z.shiftr buffer (bits - 8)) 255]> (dec_out st))
      (S (dec_cursor st)) buffer (bits - 8)
  else mkDecode (dec_out st) (dec_cursor st) buffer bits.

Definition base64urlDecode (input : jsstr) : pres (list Z) :=
  require (negb (bool_decide (input = []))) "base64url input must be a non-empty string" ;;;
  require (forallb (λ c, bool_decide (is_Some (BASE64URL_DECODE_TABLE c))) (code_points input))
    "base64url input uses a non-canonical alphabet or padding" ;;;
  require (negb (Nat.modulo (length input) 4 =? 1)%nat)
    "base64url input has an impossible length" ;;;
  let st := fold_left decode_step (code_points input)
              (mkDecode (repeat 0 (length input * 6 / 8)%nat) 0 0 0) in
  require (negb ((0 <? dec_bits st)
                 && negb (Z.land (dec_buffer st) (Z.shiftl 1 (dec_bits st) - 1) =? 0)))
    "base64url input has non-canonical trailing bits" ;;;
  require (jsstr_eqb (base64urlEncode (dec_out st)) input) "base64url input is not canonical" ;;;
  Ok (dec_out st).

Definition canonicalJsonBytes (value : jsval) : pres (list Z) :=
  match json_stringify value with
  | Some text => Ok (utf8_encode text)
  | None => throw "value is not JSON-serializable"
  end.

Definition parseCanonicalJsonArray (text : jsstr) (expectedLength : option nat) : pres (list jsval) :=
  match json_parse text with
  | None => throw "input is not valid JSON"
  | Some (JArr l) =>
      require (bool_decide (json_stringify (JArr l) = Some text)) "JSON input is not in canonical form" ;;;
      match expectedLength with
      | Some n =>
          guard (length l =? n)%nat
            (protocolError (js "canonical JSON array must have exactly " ++ dec_of_Z (Z.of_nat n)
                            ++ js " elements"))
      | None => Ok tt
      end ;;;
      Ok l
  | Some _ => throw "canonical JSON input must be an array"
  end.

(** [assertTimestampMs]: the asserted number, as an integer. *)
Definition assertTimestampMs (name : jsstr) (value : jsval) : pres Z :=
  let fail := Err (protocolError (name ++ js " must be a non-negative safe integer")) in
  match value with
  | JNum n =>
      match safe_integer n with
      | Some z => if z <? 0 then fail else Ok z
      | None => fail
      end
  | _ => fail
  end.

(** * base64url: decoding inverts encoding *)

Definition byte_ok (b : Z) : Prop := 0 <= b < 256.
Definition bytes_ok (bs : list Z) : Prop := Forall byte_ok bs.

(** The character of a sextet. *)
Definition b64_char (s : Z) : Z := nth (Z.to_nat s) BASE64URL_ALPHABET 0.

Lemma land_63 x : Z.land x 63 = x mod 64.
Proof. by apply (Z.land_ones x 6). Qed.
Lemma land_255 x : Z.land x 255 = x mod 256.
Proof. by apply (Z.land_ones x 8). Qed.

(** Joining disjoint bit fields is addition. *)
Lemma lor_field x k s : 0 <= k → 0 <= s < 2 ^ k → Z.lor (x * 2 ^ k) s = x * 2 ^ k + s.
Proof.
  intros Hk Hs. assert (Z.land (x * 2 ^ k) s = 0) as Hdisj.
  { apply Z.bits_inj'. intros n Hn. rewrite Z.land_spec, Z.bits_0, <- Z.shiftl_mul_pow2 by done.
    destruct (Z.lt_ge_cases n k) as [Hlt|Hge]; [by rewrite Z.shiftl_spec_low|].
    rewrite andb_comm, <- (Z.mod_small s (2 ^ k)) by done. by rewrite Z.mod_pow2_bits_high by lia. }
  by rewrite <- Z.lxor_lor, <- Z.add_nocarry_lxor.
Qed.

Lemma decode_table_char s : 0 <= s < 64 → BASE64URL_DECODE_TABLE (b64_char s) = Some s.
Proof.
  intros Hs.
  assert (forallb (λ n, bool_decide (BASE64URL_DECODE_TABLE (b64_char (Z.of_nat n)) = Some (Z.of_nat n)))
            (seq 0 64) = true) as Hall by (vm_compute; done).
  rewrite forallb_forall in Hall. specialize (Hall (Z.to_nat s)).
  rewrite Z2Nat.id, bool_decide_eq_true in Hall by lia. apply Hall, in_seq. lia.
Qed.

Lemma b64_char_ascii s : 0 <= s < 64 → is_ascii (b64_char s) = true.
Proof.
  intros Hs.
  assert (forallb (λ n, is_ascii (b64_char (Z.of_nat n))) (seq 0 64) = true) as Hall
    by (vm_compute; done).
  rewrite forallb_forall in Hall. specialize (Hall (Z.to_nat s)).
  rewrite Z2Nat.id in Hall by lia. apply Hall, in_seq. lia.
Qed.

Lemma triplet_sum f s t :
  byte_ok f → byte_ok s → byte_ok t →
  Z.lor (Z.lor (Z.shiftl f 16) (Z.shiftl s 8)) t = f * 65536 + s * 256 + t.
Proof.
  unfold byte_ok. intros Hf Hs Ht. rewrite !Z.shiftl_mul_pow2 by lia.
  replace (f * 2 ^ 16) with ((f * 2 ^ 8) * 2 ^ 8) by lia.
  rewrite <- (Z.shiftl_mul_pow2 (f * 2 ^ 8)), <- (Z.shiftl_mul_pow2 s), <- Z.shiftl_lor by lia.
  rewrite (lor_field f 8 s), Z.shiftl_mul_pow2 by lia.
  rewrite (lor_field _ 8 t) by lia. lia.
Qed.

Lemma sextet_char x k : 0 <= k → sextet x k = b64_char (x / 2 ^ k mod 64).
Proof. intros. unfold sextet, b64_char. by rewrite land_63, Z.shiftr_div_pow2. Qed.

(** The sextets of the three shapes of a final or inner group. *)
Lemma encode_one f : byte_ok f →
  base64urlEncode [f] = [b64_char (f / 4); b64_char (f mod 4 * 16)].
Proof.
  intros Hf. cbn [base64urlEncode].   rewrite triplet_sum, !sextet_char by (done || lia). unfold byte_ok in Hf.
  repeat (apply (f_equal2 cons); [f_equal; lia|]). done.
Qed.
Lemma encode_two f s : byte_ok f → byte_ok s →
  base64urlEncode [f; s] = [b64_char (f / 4); b64_char (f mod 4 * 16 + s / 16); b64_char (s mod 16 * 4)].
Proof.
  intros Hf Hs. cbn [base64urlEncode]. rewrite triplet_sum, !sextet_char by (done || lia).
  unfold byte_ok in *.
  repeat (apply (f_equal2 cons); [f_equal; lia|]). done.
Qed.
Lemma encode_three f s t rest : byte_ok f → byte_ok s → byte_ok t →
  base64urlEncode (f :: s :: t :: rest)
  = [b64_char (f / 4); b64_char (f mod 4 * 16 + s / 16); b64_char (s mod 16 * 4 + t / 64);
     b64_char (t mod 64)] ++ base64urlEncode rest.
Proof.
  intros Hf Hs Ht. cbn [base64urlEncode]. rewrite triplet_sum, !sextet_char by (done || lia).
  unfold byte_ok in *. apply (f_equal2 app); [|done].
  repeat (apply (f_equal2 cons); [f_equal; lia|]). done.
Qed.

(** Induction in groups of three bytes. *)
Lemma triples_ind (Pt : list Z → Prop) :
  Pt [] → (∀ f, Pt [f]) → (∀ f s, Pt [f; s]) →
  (∀ f s t rest, Pt rest → Pt (f :: s :: t :: rest)) → ∀ bs, Pt bs.
Proof.
  intros H0 H1 H2 H3. fix IH 1. intros [|f [|s [|t rest]]]; [done|done|done|]. apply H3, IH.
Qed.

Lemma encode_ascii bs : bytes_ok bs → forallb is_ascii (base64urlEncode bs) = true.
Proof.
  induction bs as [|f|f s|f s t rest IH] using triples_ind; intros Hok; [done|..];
    unfold bytes_ok in Hok; rewrite ?Forall_cons in Hok; unfold byte_ok in Hok.
  - rewrite encode_one by naive_solver. cbn [forallb]. rewrite !b64_char_ascii by lia. done.
  - rewrite encode_two by naive_solver. cbn [forallb]. rewrite !b64_char_ascii by lia. done.
  - rewrite encode_three by naive_solver. cbn [app forallb].
    rewrite !b64_char_ascii by lia. apply IH. naive_solver.
Qed.

Lemma encode_length bs : length (base64urlEncode bs) = ((length bs * 4 + 2) / 3)%nat.
Proof.
  induction bs as [|f|f s|f s t rest IH] using triples_ind; [done..|].
  cbn [base64urlEncode length app]. rewrite IH. lia.
Qed.

Lemma to_int32_mod x k : 0 <= k <= 32 → to_int32 x mod 2 ^ k = x mod 2 ^ k.
Proof.
  intros Hk. unfold to_int32. rewrite Zminus_mod.
  assert ((2 ^ k | 4294967296)) as Hdiv.
  { exists (2 ^ (32 - k)). rewrite <- Z.pow_add_r by lia. by replace (32 - k + k) with 32 by lia. }
  rewrite <- (Znumtheory.Zmod_div_mod (2 ^ k) 4294967296) by (done || lia || by apply Z.pow_pos_nonneg; lia).
  rewrite <- Zminus_mod. f_equal. lia.
Qed.

(** The low bits of the shift register after one character. *)
Lemma buffer_step b s :
  0 <= s < 64 →
  to_int32 (Z.lor (to_int32 (Z.shiftl b 6)) s) mod 4096 = (b mod 64 * 64 + s) mod 4096.
Proof.
  intros Hs. change 4096 with (2 ^ 12). rewrite (to_int32_mod _ 12), Z.shiftl_mul_pow2 by lia.
  pose proof (to_int32_mod (b * 2 ^ 6) 6) as H6. rewrite Z.mod_mul in H6 by lia.
  pose proof (to_int32_mod (b * 2 ^ 6) 12) as H12.
  set (x := to_int32 (b * 2 ^ 6)) in *.
  replace x with (x / 2 ^ 6 * 2 ^ 6) by lia. rewrite lor_field by lia. lia.
Qed.

(** One character into a register whose low bits are known. *)
Lemma decode_step_char w n cur b bits s :
  0 <= s < 64 → 0 <= bits < 8 → cur = length w →
  ∃ b', b' mod 4096 = (b mod 64 * 64 + s) mod 4096
  ∧ decode_step (mkDecode (w ++ repeat 0 n) cur b bits) (b64_char s)
    = if 8 <=? bits + 6
      then mkDecode (w ++ <[0%nat := b' / 2 ^ (bits - 2) mod 256]> (repeat 0 n)) (S cur) b' (bits - 2)
      else mkDecode (w ++ repeat 0 n) cur b' (bits + 6).
Proof.
  intros Hs Hbits ->. eexists. split; [by apply buffer_step|].
  unfold decode_step. cbn [dec_out dec_cursor dec_buffer dec_bits].
  rewrite decode_table_char by done. cbn [default]. case_eqn; [|done]. bool_prop.
  replace (bits + 6 - 8) with (bits - 2) by lia.
  rewrite land_255, Z.shiftr_div_pow2 by lia.
  f_equal. replace (length w) with (length w + 0)%nat by lia. by rewrite insert_app_r.
Qed.

(** The two-, three- and four-character groups, from a register at a byte boundary. *)
Lemma decode_two w n b s1 s2 :
  0 <= s1 < 64 → 0 <= s2 < 64 →
  ∃ b', b' mod 4096 = s1 * 64 + s2
  ∧ fold_left decode_step [b64_char s1; b64_char s2] (mkDecode (w ++ repeat 0 (S n)) (length w) b 0)
    = mkDecode ((w ++ [s1 * 4 + s2 / 16]) ++ repeat 0 n) (S (length w)) b' 4.
Proof.
  intros H1 H2. cbn [fold_left].
  destruct (decode_step_char w (S n) (length w) b 0 s1) as (b1 & Hb1 & ->); [lia..|].
  destruct (decode_step_char w (S n) (length w) b1 6 s2) as (b2 & Hb2 & E); [lia..|].
  exists b2. change (8 <=? 0 + 6) with false. cbn iota. change (0 + 6) with 6. rewrite E. clear E.
  assert (b2 mod 4096 = s1 * 64 + s2) as Hb by lia. split; [done|].
  change (8 <=? 6 + 6) with true. cbn iota. rewrite <- app_assoc. cbn [repeat app].
  change (6 - 2) with 4. f_equal. f_equal.
  replace (b2 / 2 ^ 4 mod 256) with (s1 * 4 + s2 / 16) by lia. done.
Qed.

Lemma decode_third w n b s2 s3 p :
  0 <= s2 < 64 → 0 <= s3 < 64 → b mod 4096 = p * 64 + s2 → 0 <= p < 64 →
  ∃ b', b' mod 4096 = s2 * 64 + s3
  ∧ decode_step (mkDecode (w ++ repeat 0 (S n)) (length w) b 4) (b64_char s3)
    = mkDecode ((w ++ [s2 mod 16 * 16 + s3 / 4]) ++ repeat 0 n) (S (length w)) b' 2.
Proof.
  intros H2 H3 Hb Hp.
  destruct (decode_step_char w (S n) (length w) b 4 s3) as (b3 & Hb3 & ->); [lia..|].
  exists b3. assert (b3 mod 4096 = s2 * 64 + s3) as Hb' by lia. split; [done|].
  change (8 <=? 4 + 6) with true. cbn iota. rewrite <- app_assoc. cbn [repeat app].
  change (4 - 2) with 2. f_equal. f_equal.
  replace (b3 / 2 ^ 2 mod 256) with (s2 mod 16 * 16 + s3 / 4) by lia. done.
Qed.

Lemma decode_fourth w n b s3 s4 p :
  0 <= s3 < 64 → 0 <= s4 < 64 → b mod 4096 = p * 64 + s3 → 0 <= p < 64 →
  ∃ b', decode_step (mkDecode (w ++ repeat 0 (S n)) (length w) b 2) (b64_char s4)
    = mkDecode ((w ++ [s3 mod 4 * 64 + s4]) ++ repeat 0 n) (S (length w)) b' 0.
Proof.
  intros H3 H4 Hb Hp.
  destruct (decode_step_char w (S n) (length w) b 2 s4) as (b4 & Hb4 & ->); [lia..|].
  exists b4. change (8 <=? 2 + 6) with true. cbn iota. rewrite <- app_assoc. cbn [repeat app].
  change (2 - 2) with 0. f_equal. f_equal.
  replace (b4 / 2 ^ 0 mod 256) with (s3 mod 4 * 64 + s4) by lia. done.
Qed.

Lemma decode_group w n b f s t :
  byte_ok f → byte_ok s → byte_ok t →
  ∃ b', fold_left decode_step
      [b64_char (f / 4); b64_char (f mod 4 * 16 + s / 16); b64_char (s mod 16 * 4 + t / 64);
       b64_char (t mod 64)] (mkDecode (w ++ repeat 0 (S (S (S n)))) (length w) b 0)
    = mkDecode ((w ++ [f; s; t]) ++ repeat 0 n) (length w + 3) b' 0.
Proof.
  unfold byte_ok. intros Hf Hs Ht.
  destruct (decode_two w (S (S n)) b (f / 4) (f mod 4 * 16 + s / 16)) as (b2 & Hb2 & E); [lia..|].
  destruct (decode_third (w ++ [f]) (S n) b2 (f mod 4 * 16 + s / 16) (s mod 16 * 4 + t / 64) (f / 4))
    as (b3 & Hb3 & E3); [lia..|].
  destruct (decode_fourth (w ++ [f; s]) n b3 (s mod 16 * 4 + t / 64) (t mod 64)
    (f mod 4 * 16 + s / 16)) as (b4 & E4); [lia..|].
  exists b4. change (fold_left decode_step [?x; ?y; ?z; ?u] ?st)
    with (decode_step (decode_step (fold_left decode_step [x; y] st) z) u).
  rewrite E. replace (f / 4 * 4 + (f mod 4 * 16 + s / 16) / 16) with f by lia.
  rewrite length_app in E3, E4. cbn [length] in E3, E4. rewrite Nat.add_1_r in E3. rewrite E3.
  replace ((f mod 4 * 16 + s / 16) mod 16 * 16 + (s mod 16 * 4 + t / 64) / 4) with s by lia.
  rewrite <- (app_assoc w). cbn [app]. replace (S (S (length w))) with (length w + 2)%nat by lia.
  rewrite E4. rewrite <- (app_assoc w). cbn [app].
  replace ((s mod 16 * 4 + t / 64) mod 4 * 64 + t mod 64) with t by lia.
  f_equal. lia.
Qed.

(** The decoding loop over an encoding writes the encoded bytes and leaves no
    trailing bits. *)
Definition no_trailing_bits (b bits : Z) : Prop :=
  0 <= bits <= 4 ∧ Z.land b (Z.shiftl 1 bits - 1) = 0.

Lemma trailing_zero b bits : 0 <= bits <= 4 → b mod 2 ^ bits = 0 → no_trailing_bits b bits.
Proof.
  intros Hb Hm. split; [done|]. rewrite Z.shiftl_1_l, Z.sub_1_r, <- Z.ones_equiv, Z.land_ones by lia. done.
Qed.

Lemma decode_loop bs w b :
  bytes_ok bs →
  ∃ b' bits, no_trailing_bits b' bits
  ∧ fold_left decode_step (base64urlEncode bs)
      (mkDecode (w ++ repeat 0 (length bs)) (length w) b 0)
    = mkDecode (w ++ bs) (length w + length bs) b' bits.
Proof.
  revert w b. induction bs as [|f|f s|f s t rest IH] using triples_ind; intros w b Hok;
    unfold bytes_ok in Hok; rewrite ?Forall_cons in Hok; unfold byte_ok in Hok.
  - exists b, 0. split; [by apply trailing_zero; [lia|rewrite Z.mod_1_r]|]. cbn. by rewrite Nat.add_0_r.
  - rewrite encode_one by naive_solver. destruct Hok as [Hf _].
    destruct (decode_two w 0 b (f / 4) (f mod 4 * 16)) as (b2 & Hb2 & E); [lia..|].
    exists b2, 4. split; [apply trailing_zero; lia|]. cbn [length]. rewrite E.
    cbn [repeat]. rewrite app_nil_r, Nat.add_1_r. do 2 f_equal. f_equal. lia.
  - rewrite encode_two by naive_solver. destruct Hok as (Hf & Hs & _).
    destruct (decode_two w 1 b (f / 4) (f mod 4 * 16 + s / 16)) as (b2 & Hb2 & E); [lia..|].
    destruct (decode_third (w ++ [f]) 0 b2 (f mod 4 * 16 + s / 16) (s mod 16 * 4) (f / 4))
      as (b3 & Hb3 & E3); [lia..|].
    exists b3, 2. split; [apply trailing_zero; lia|].
    change (fold_left decode_step [?x; ?y; ?z] ?st) with (decode_step (fold_left decode_step [x; y] st) z).
    cbn [length]. rewrite E. replace (f / 4 * 4 + (f mod 4 * 16 + s / 16) / 16) with f by lia.
    rewrite length_app in E3. cbn [length] in E3. rewrite Nat.add_1_r in E3. rewrite E3.
    cbn [repeat]. rewrite app_nil_r, <- app_assoc. cbn [app].
    f_equal; [do 2 f_equal|lia]. f_equal. lia.
  - rewrite encode_three by naive_solver. destruct Hok as (Hf & Hs & Ht & Hrest).
    destruct (decode_group w (length rest) b f s t) as (b4 & E); [done..|].
    rewrite fold_left_app. cbn [length]. rewrite E.
    destruct (IH (w ++ [f; s; t]) b4 Hrest) as (b' & bits & Hno & E').
    exists b', bits. split; [done|]. rewrite length_app in E'. cbn [length] in E'.
    rewrite E', <- app_assoc. cbn [app]. f_equal. lia.
Qed.

Lemma encode_alphabet bs : bytes_ok bs →
  Forall (λ c, is_Some (BASE64URL_DECODE_TABLE c)) (base64urlEncode bs).
Proof.
  assert (∀ s, 0 <= s < 64 → is_Some (BASE64URL_DECODE_TABLE (b64_char s))) as Hc.
  { intros s Hs. rewrite decode_table_char by done. eauto. }
  induction bs as [|f|f s|f s t rest IH] using triples_ind; intros Hok; [constructor|..];
    unfold bytes_ok in Hok; rewrite ?Forall_cons in Hok; unfold byte_ok in Hok.
  - rewrite encode_one by naive_solver. repeat constructor; apply Hc; lia.
  - rewrite encode_two by naive_solver. repeat constructor; apply Hc; lia.
  - rewrite encode_three by naive_solver.
    apply Forall_app; split; [repeat constructor; apply Hc; lia|]. apply IH. naive_solver.
Qed.

Lemma encoded_length_mod4 n : (((n * 4 + 2) / 3) mod 4 ≠ 1)%nat.
Proof.
  assert (∃ q r, n = 3 * q + r ∧ r < 3)%nat as (q & r & -> & Hr)
    by (exists (n / 3)%nat, (n mod 3)%nat; lia).
  replace ((3 * q + r) * 4 + 2)%nat with (r * 4 + 2 + (q * 4) * 3)%nat by lia.
  rewrite Nat.div_add by lia. rewrite Nat.Div0.mod_add. destruct r as [|[|[|]]]; simpl; lia.
Qed.

Lemma encoded_length_bytes n : ((n * 4 + 2) / 3 * 6 / 8 = n)%nat.
Proof.
  assert (∃ q r, n = 3 * q + r ∧ r < 3)%nat as (q & r & -> & Hr)
    by (exists (n / 3)%nat, (n mod 3)%nat; lia).
  replace ((3 * q + r) * 4 + 2)%nat with (r * 4 + 2 + (q * 4) * 3)%nat by lia.
  rewrite Nat.div_add by lia.
  replace (((r * 4 + 2) / 3 + q * 4) * 6)%nat with ((r * 4 + 2) / 3 * 6 + (3 * q) * 8)%nat by lia.
  rewrite Nat.div_add by lia. destruct r as [|[|[|]]]; simpl; lia.
Qed.

Lemma base64url_decode_encode bs :
  bytes_ok bs → bs ≠ [] → base64urlDecode (base64urlEncode bs) = Ok bs.
Proof.
  intros Hok Hne. unfold base64urlDecode, require.
  assert (base64urlEncode bs ≠ []) as Henc.
  { by destruct bs as [|f [|s [|t r]]]. }
  rewrite bool_decide_false by done. cbn [negb guard res_bind].
  rewrite ascii_code_points by by apply encode_ascii.
  rewrite (proj2 (forallb_forall _ _)).
  2: { intros c Hc. apply bool_decide_eq_true. pose proof (encode_alphabet bs Hok) as Ha.
       rewrite Forall_forall in Ha. apply Ha. by apply list_elem_of_In. }
  cbn [guard res_bind]. rewrite encode_length.
  replace (((length bs * 4 + 2) / 3) mod 4 =? 1)%nat with false by (symmetry; apply Nat.eqb_neq, encoded_length_mod4).
  cbn [negb guard res_bind].
  replace ((length bs * 4 + 2) / 3 * 6 / 8)%nat with (length bs) by (by rewrite encoded_length_bytes).
  destruct (decode_loop bs [] 0 Hok) as (b' & bits & [Hbits Hno] & E). cbn [app length Nat.add] in E.
  rewrite E. cbn [dec_bits dec_buffer dec_out]. rewrite Hno, andb_false_r. cbn [negb guard res_bind].
  by rewrite jsstr_eqb_refl.
Qed.

Lemma decode_out_bytes cs st : bytes_ok (dec_out st) → bytes_ok (dec_out (fold_left decode_step cs st)).
Proof.
  revert st. induction cs as [|c cs IH]; intros st Hst; [done|]. cbn [fold_left]. apply IH.
  unfold decode_step. case_match; cbn [dec_out]; [|done].
  apply Forall_insert; [done|]. rewrite land_255. unfold byte_ok. lia.
Qed.

Lemma base64url_decode_sound input bs :
  base64urlDecode input = Ok bs → base64urlEncode bs = input ∧ bytes_ok bs ∧ bs ≠ [].
Proof.
  unfold base64urlDecode, require. cbv zeta. intros H. res_inv. bool_prop.
  match goal with H : jsstr_eqb _ _ = true |- _ => apply jsstr_eqb_true in H; rename H into Heq end.
  split_and!; [done| |].
  - apply decode_out_bytes. cbn [dec_out]. apply Forall_forall. intros y Hy.
    apply list_elem_of_In, repeat_spec in Hy. unfold byte_ok. lia.
  - intros E. pose proof (eq_trans (eq_sym Heq) (f_equal base64urlEncode E)). done.
Qed.

(** [decode] accepts exactly the encodings: no padding, no other alphabet, no
    spare trailing bits, and a unique spelling of every byte string. *)
Theorem base64url_canonical (input : jsstr) (bs : list Z) :
  base64urlDecode input = Ok bs ↔ bs ≠ [] ∧ bytes_ok bs ∧ input = base64urlEncode bs.
Proof.
  split.
  - intros (? & ? & ?)%base64url_decode_sound. done.
  - intros (? & ? & ->). by apply base64url_decode_encode.
Qed.

(** * Canonical JSON arrays *)

Lemma parse_canonical_encoded l n :
  Forall frame_value l → length l = n →
  parseCanonicalJsonArray (json_text (JArr l)) (Some n) = Ok l.
Proof.
  intros Hl Hn. unfold parseCanonicalJsonArray.
  rewrite (json_roundtrip (JArr l)) by (by apply json_text_defined, frame_value_array || by apply frame_value_array).
  unfold require. rewrite bool_decide_true by by apply json_text_defined, frame_value_array.
  cbn [guard res_bind]. by rewrite (proj2 (Nat.eqb_eq _ _) Hn).
Qed.

Lemma parse_canonical_sound text n l :
  parseCanonicalJsonArray text (Some n) = Ok l → json_stringify (JArr l) = Some text ∧ length l = n.
Proof.
  unfold parseCanonicalJsonArray, throw, require. intros H. repeat case_match; try discriminate.
  res_inv. bool_prop. split; [done|]. by apply Nat.eqb_eq.
Qed.

Lemma timestamp_safe name v z :
  assertTimestampMs name v = Ok z → ∃ n, v = JNum n ∧ safe_integer n = Some z ∧ 0 <= z <= MAX_SAFE_INTEGER.
Proof.
  unfold assertTimestampMs. intros H. repeat case_match; simplify_eq. exists n. bool_prop.
  split_and!; try done. unfold safe_integer in *. destruct n as [| |q]; try done.
  destruct (Q_to_Z q) as [z'|]; cbn in *; [|done].
  destruct (Z.leb_spec (Z.abs z') MAX_SAFE_INTEGER); simplify_eq. lia.
Qed.

Lemma timestamp_of_Z name z :
  0 <= z <= MAX_SAFE_INTEGER → assertTimestampMs name (JNum (num_of_Z z)) = Ok z.
Proof.
  intros Hz. unfold assertTimestampMs. rewrite safe_integer_of_Z.
  - by rewrite (proj2 (Z.ltb_ge _ _)) by lia.
  - apply Z.leb_le. lia.
Qed.
