(* ===== verification/AttestCodec.v ===== *)
(** express-request-attestation, [shared/codec.ts]: the field validators, the
    request-target and content-type normal forms, the transaction-ID envelope,
    the MAC input and the replay-key preimage. *)

From S2P Require Import Prelude JsValue JsJson AttestTypes AttestCanonical.

(** * Patterns *)

Definition bounded_length (lo hi : Z) (s : jsstr) : bool :=
  (lo <=? Z.of_nat (length s)) && (Z.of_nat (length s) <=? hi).

Definition KEY_ID_PATTERN (s : jsstr) : bool := all_units name_unit s && bounded_length 1 64 s.
Definition REPLAY_NAMESPACE_PATTERN (s : jsstr) : bool :=
  all_units name_unit s && bounded_length 1 128 s.
Definition NONCE_HEX_PATTERN (s : jsstr) : bool := all_units is_hex_lower s && (length s =? 32)%nat.
Definition BODY_HASH_HEX_PATTERN (s : jsstr) : bool :=
  all_units is_hex_lower s && (length s =? 64)%nat.
Definition token_unit (c : Z) : bool := includes_char c (js "!#$%&'*+-.^_`|~") || is_alnum c.
Definition HTTP_TOKEN_PATTERN (s : jsstr) : bool :=
  all_units token_unit s && (1 <=? length s)%nat.
Definition HEX_BYTE_PATTERN (s : jsstr) : bool := all_units is_hex s && (length s =? 2)%nat.

Definition assertEncodedTransactionIdBound (value : jsstr) : pres unit :=
  guard (Z.of_nat (length value) <=? MAX_ENCODED_TRANSACTION_ID_BYTES)
    (protocolError (js "encoded transactionId must be at most "
      ++ dec_of_Z MAX_ENCODED_TRANSACTION_ID_BYTES ++ js " bytes")).

Definition RESERVED_HEADER_NAMES : list jsstr :=
  [js "authorization"; js "proxy-authenticate"; js "proxy-authorization"; js "www-authenticate";
   js "cookie"; js "set-cookie"; js "host"; js "origin"; js "content-encoding";
   js "content-length"; js "content-type"; js "transfer-encoding";
   ATTESTATION_ERROR_RESPONSE_HEADER].

Definition isLoopbackHostname (hostname : jsstr) : bool :=
  jsstr_eqb hostname (js "localhost") || jsstr_eqb hostname (js "[::1]")
  || starts_with (js "127.") hostname.

(** * Field validators *)

(** A validator of an [unknown] returns the narrowed value. *)
Definition validateKeyId (keyId : jsval) : pres jsstr :=
  match keyId with
  | JStr s =>
      require (KEY_ID_PATTERN s && (Z.of_nat (length s) <=? MAX_KEY_ID_LENGTH))
        "keyId must match [A-Za-z0-9_-]{1,64}" ;;; Ok s
  | _ => throw "keyId must match [A-Za-z0-9_-]{1,64}"
  end.

Definition validateReplayNamespace (namespace : jsval) : pres jsstr :=
  match namespace with
  | JStr s =>
      require (REPLAY_NAMESPACE_PATTERN s && (Z.of_nat (length s) <=? MAX_REPLAY_NAMESPACE_LENGTH))
        "replayNamespace must match [A-Za-z0-9_-]{1,128}" ;;; Ok s
  | _ => throw "replayNamespace must match [A-Za-z0-9_-]{1,128}"
  end.

Definition validateNonceHex (nonceHex : jsval) : pres jsstr :=
  match nonceHex with
  | JStr s =>
      require (NONCE_HEX_PATTERN s) "nonceHex must be exactly 32 lowercase hex characters" ;;; Ok s
  | _ => throw "nonceHex must be exactly 32 lowercase hex characters"
  end.

Definition validateBodyHashHex (bodyHashHex : jsval) : pres jsstr :=
  match bodyHashHex with
  | JStr s =>
      require (BODY_HASH_HEX_PATTERN s) "bodyHashHex must be exactly 64 lowercase hex characters" ;;;
      Ok s
  | _ => throw "bodyHashHex must be exactly 64 lowercase hex characters"
  end.

Definition validateMac (mac : jsval) : pres jsstr :=
  match mac with
  | JStr s =>
      require (length s =? 43)%nat "mac must be exactly 43 base64url characters" ;;;
      let* decoded := base64urlDecode s in
      require (Z.of_nat (length decoded) =? MAC_BYTES_LENGTH) "mac must decode to 32 bytes" ;;;
      Ok s
  | _ => throw "mac must be exactly 43 base64url characters"
  end.

Definition validateKeyBytes (key : jsval) : pres (list Z) :=
  match key with
  | JBytes bs =>
      require (Z.of_nat (length bs) =? KEY_BYTES_LENGTH) "signing key must be exactly 32 bytes" ;;;
      Ok bs
  | _ => throw "signing key must be exactly 32 bytes"
  end.

(** [parse_url s] is [new URL(s)], [None] when the constructor throws. *)
Definition validatePublicOrigin (parse_url : jsstr → option URL) (origin : jsval) : pres jsstr :=
  match origin with
  | JStr s =>
      guard (negb (bool_decide (s = [])) && (utf8ByteLength s <=? MAX_PUBLIC_ORIGIN_BYTES))
        (protocolError (js "publicOrigin must be 1-" ++ dec_of_Z MAX_PUBLIC_ORIGIN_BYTES
                          ++ js " UTF-8 bytes")) ;;;
      let* url := match parse_url s with
                  | Some url => Ok url
                  | None => throw "publicOrigin must be a valid HTTP(S) origin"
                  end in
      require (jsstr_eqb (url_protocol url) (js "https:") || jsstr_eqb (url_protocol url) (js "http:"))
        "publicOrigin must use http or https" ;;;
      require (jsstr_eqb (url_username url) [] && jsstr_eqb (url_password url) [])
        "publicOrigin must not contain userinfo" ;;;
      require (jsstr_eqb s (url_protocol url ++ js "//" ++ url_host url))
        "publicOrigin must be canonical (lowercase, no path, no trailing slash, no default port)" ;;;
      require (negb (jsstr_eqb (url_protocol url) (js "http:")
                     && negb (isLoopbackHostname (url_hostname url))))
        "http publicOrigin is allowed only for loopback development" ;;;
      Ok s
  | _ => throw "publicOrigin must be a string"
  end.

Definition normalizeMethod (method : jsval) : pres jsstr :=
  match method with
  | JStr s =>
      require (negb (length s =? 0)%nat && HTTP_TOKEN_PATTERN s)
        "method must be a non-empty valid HTTP token" ;;;
      Ok (to_upper s)
  | _ => throw "method must be a non-empty valid HTTP token"
  end.

Definition is_ows (c : Z) : bool := (c =? 32) || (c =? 9).

Definition content_type_char (code : Z) : bool :=
  (code =? 9) || (code =? 32) || negb ((code <? 32) || (code =? 127)).

Definition normalizeContentType (contentType : jsval) : pres jsstr :=
  match contentType with
  | JUndef | JNull => Ok []
  | JStr s =>
      let trimmed := trim_by is_ows s in
      require (forallb content_type_char (code_points trimmed))
        "contentType must not contain control characters" ;;;
      guard (utf8ByteLength trimmed <=? MAX_CONTENT_TYPE_BYTES)
        (protocolError (js "contentType must be at most " ++ dec_of_Z MAX_CONTENT_TYPE_BYTES
                          ++ js " UTF-8 bytes")) ;;;
      Ok trimmed
  | _ => throw "contentType must be a string"
  end.

(** * Request targets *)

(** The escape [%hh] at the loop's index, else one unit. *)
Fixpoint assertValidPercentEscapes (target : jsstr) : pres unit :=
  match target with
  | [] => Ok tt
  | c :: rest =>
      if c =? 37 then
        match rest with
        | h1 :: h2 :: rest' =>
            require (HEX_BYTE_PATTERN [h1; h2]) "requestTarget contains a malformed percent escape" ;;;
            assertValidPercentEscapes rest'
        | _ => throw "requestTarget contains a malformed percent escape"
        end
      else assertValidPercentEscapes rest
  end.

Fixpoint percentDecodeSegment (segment : jsstr) : jsstr :=
  match segment with
  | [] => []
  | c :: rest =>
      match rest with
      | h1 :: h2 :: rest' =>
          if (c =? 37) && is_hex h1 && is_hex h2
          then (default 0 (hex_value h1) * 16 + default 0 (hex_value h2)) :: percentDecodeSegment rest'
          else c :: percentDecodeSegment rest
      | _ => c :: percentDecodeSegment rest
      end
  end.

Definition is_dot_segment (s : jsstr) : bool := jsstr_eqb s (js ".") || jsstr_eqb s (js "..").

Definition check_target_char (code : Z) : pres unit :=
  require (negb ((code <=? 32) || (code =? 127)))
    "requestTarget must not contain controls or raw spaces" ;;;
  require (negb ((code =? 35) || (code =? 92)))
    "requestTarget must not contain fragments or backslashes".

Definition check_target_segment (segment : jsstr) : pres unit :=
  require (negb (is_dot_segment segment)) "requestTarget must not contain dot segments" ;;;
  require (negb (is_dot_segment (to_lower (percentDecodeSegment segment))))
    "requestTarget must not contain encoded dot segments".

(** The part before the first [?]. *)
Definition target_path (target : jsstr) : jsstr :=
  match index_of 63 target with Some i => take i target | None => target end.

Definition canonicalizeRequestTarget (target : jsval) : pres jsstr :=
  match target with
  | JStr s =>
      require (negb (length s =? 0)%nat) "requestTarget must not be empty" ;;;
      guard (utf8ByteLength s <=? MAX_REQUEST_TARGET_BYTES)
        (protocolError (js "requestTarget must be at most " ++ dec_of_Z MAX_REQUEST_TARGET_BYTES
                          ++ js " UTF-8 bytes")) ;;;
      require (starts_with (js "/") s) "requestTarget must be an origin-form target starting with /" ;;;
      require (negb (starts_with (js "//") s)) "requestTarget must not resolve as an authority" ;;;
      res_iter check_target_char (code_points s) ;;;
      assertValidPercentEscapes s ;;;
      res_iter check_target_segment (split_on 47 (target_path s)) ;;;
      Ok (match index_of 63 s with
          | Some queryIndex => if (queryIndex =? length s - 1)%nat then take queryIndex s else s
          | None => s
          end)
  | _ => throw "requestTarget must be a string"
  end.

(** * Headers *)

Definition validateHeaderName (name : jsval) : pres jsstr :=
  match name with
  | JStr s =>
      require (negb (length s =? 0)%nat) "headerName must be a non-empty string" ;;;
      guard (utf8ByteLength s <=? MAX_HEADER_NAME_BYTES)
        (protocolError (js "headerName must be at most " ++ dec_of_Z MAX_HEADER_NAME_BYTES
                          ++ js " UTF-8 bytes")) ;;;
      require (HTTP_TOKEN_PATTERN s) "headerName must be a valid HTTP token" ;;;
      guard (negb (bool_decide (to_lower s ∈ RESERVED_HEADER_NAMES)))
        (protocolError (js "headerName must not collide with reserved header " ++ s)) ;;;
      Ok s
  | _ => throw "headerName must be a non-empty string"
  end.

(** The signature field of a request: [None] when absent. *)
Definition extractSingleHeaderValue (raw : jsval) : pres (option jsstr) :=
  match raw with
  | JUndef => Ok None
  | _ =>
      match List.filter (λ entry, negb (is_undef entry)) (match raw with JArr l => l | _ => [raw] end) with
      | [] => Ok None
      | [JStr value] =>
          if (length value =? 0)%nat then Ok None
          else
            assertEncodedTransactionIdBound value ;;;
            require (negb (includes_char 44 value))
              "comma-joined signature headers are not allowed" ;;;
            Ok (Some value)
      | [_] => Ok None
      | _ => throw "duplicate signature headers are not allowed"
      end
  end.

Definition validateReplayKey (replayKey : jsval) : pres jsstr :=
  match replayKey with
  | JStr s =>
      guard (bounded_length MIN_REPLAY_KEY_BYTES MAX_REPLAY_KEY_BYTES s)
        (protocolError (js "replayKey must be " ++ dec_of_Z MIN_REPLAY_KEY_BYTES ++ js "-"
                          ++ dec_of_Z MAX_REPLAY_KEY_BYTES ++ js " characters")) ;;;
      require (forallb (in_range 32 126) (code_points s)) "replayKey must be printable ASCII" ;;;
      Ok s
  | _ => throw "replayKey must be a string"
  end.

(** * Framing *)

Section framing.
Variable parse_url : jsstr → option URL.

Definition buildMacInputBytes (fields : MacInputFields) : pres (list Z) :=
validateReplayNamespace (JStr (mi_replayNamespace fields)) ;;;
validatePublicOrigin parse_url (JStr (mi_publicOrigin fields)) ;;;
validateKeyId (JStr (mi_keyId fields)) ;;;
assertTimestampMs (js "timestampMs") (JNum (mi_timestampMs fields)) ;;;
validateNonceHex (JStr (mi_nonceHex fields)) ;;;
let* method := normalizeMethod (JStr (mi_method fields)) in
let* requestTarget := canonicalizeRequestTarget (JStr (mi_requestTarget fields)) in
let* contentType := normalizeContentType (JStr (mi_contentType fields)) in
validateBodyHashHex (JStr (mi_bodyHashHex fields)) ;;;
canonicalJsonBytes (JArr
  [JStr MAC_INPUT_LABEL; JNum (num_of_Z PROTOCOL_VERSION); JStr (mi_replayNamespace fields);
   JStr (mi_publicOrigin fields); JStr (mi_keyId fields); JNum (mi_timestampMs fields);
   JStr (mi_nonceHex fields); JStr method; JStr requestTarget; JStr contentType;
   JStr (mi_bodyHashHex fields)]).

Definition buildReplayKeyPreimageBytes (replayNamespace publicOrigin nonceHex : jsstr)
  : pres (list Z) :=
validateReplayNamespace (JStr replayNamespace) ;;;
validatePublicOrigin parse_url (JStr publicOrigin) ;;;
validateNonceHex (JStr nonceHex) ;;;
canonicalJsonBytes (JArr [JStr replayNamespace; JStr publicOrigin; JStr nonceHex]).
End framing.

Definition encodeTransactionId (fields : TransactionIdFields) : pres jsstr :=
  validateKeyId (JStr (keyId fields)) ;;;
  assertTimestampMs (js "timestampMs") (JNum (timestampMs fields)) ;;;
  validateNonceHex (JStr (nonceHex fields)) ;;;
  validateMac (JStr (mac fields)) ;;;
  let* bytes := canonicalJsonBytes (JArr
    [JNum (num_of_Z PROTOCOL_VERSION); JStr (keyId fields); JNum (timestampMs fields);
     JStr (nonceHex fields); JStr (mac fields)]) in
  let encoded := base64urlEncode bytes in
  assertEncodedTransactionIdBound encoded ;;;
  Ok encoded.

Definition decodeTransactionId (headerValue : jsval) : pres TransactionIdFields :=
  match headerValue with
  | JStr s =>
      require (negb (length s =? 0)%nat) "transactionId must be a non-empty string" ;;;
      assertEncodedTransactionIdBound s ;;;
      let* bytes := base64urlDecode s in
      require (negb (starts_with [239; 187; 191] bytes)) "transactionId must not contain a UTF-8 BOM" ;;;
      let* text := utf8Decode bytes in
      let* envelope := parseCanonicalJsonArray text (Some 5%nat) in
      match envelope with
      | [version; k; t; n; m] =>
          guard (match version with JNum v => num_eqb v (num_of_Z PROTOCOL_VERSION) | _ => false end)
            (match js_String version with
             | Some text => protocolError (js "unsupported transactionId version " ++ text)
             | None => ThrownTypeError
             end) ;;;
          let* keyId := validateKeyId k in
          assertTimestampMs (js "timestampMs") t ;;;
          let* nonceHex := validateNonceHex n in
          let* mac := validateMac m in
          Ok (mkTransactionIdFields keyId (match t with JNum v => v | _ => NaN end) nonceHex mac)
      | _ => throw "unreachable: the envelope has five elements"
      end
  | _ => throw "transactionId must be a non-empty string"
  end.

(** * Lemmas: the validators *)

Lemma require_Ok b m u : require b m = Ok u ↔ b = true.
Proof. apply guard_Ok. Qed.

(** Decompose a chain of checks that returned, the boolean conditions included. *)
Ltac pres_inv :=
  repeat (res_inv; match goal with
  | H : require _ _ = Ok _ |- _ => apply require_Ok in H
  | H : throw _ = Ok _ |- _ => discriminate H
  end); res_inv; bool_prop.

Lemma hex_lower_ascii c : is_hex_lower c = true → is_ascii c = true.
Proof. unfold is_ascii. intros H. unit_class. lia. Qed.

Lemma validateKeyId_Ok v k :
  validateKeyId v = Ok k ↔ v = JStr k ∧ KEY_ID_PATTERN k = true.
Proof.
  unfold validateKeyId. split.
  - intros H. destruct v; try done. pres_inv. done.
  - intros [-> Hk]. rewrite Hk. unfold KEY_ID_PATTERN, bounded_length in Hk. bool_prop.
    unfold MAX_KEY_ID_LENGTH. by rewrite (proj2 (Z.leb_le _ _)) by lia.
Qed.

Lemma validateReplayNamespace_Ok v k :
  validateReplayNamespace v = Ok k ↔ v = JStr k ∧ REPLAY_NAMESPACE_PATTERN k = true.
Proof.
  unfold validateReplayNamespace. split.
  - intros H. destruct v; try done. pres_inv. done.
  - intros [-> Hk]. rewrite Hk. unfold REPLAY_NAMESPACE_PATTERN, bounded_length in Hk. bool_prop.
    unfold MAX_REPLAY_NAMESPACE_LENGTH. by rewrite (proj2 (Z.leb_le _ _)) by lia.
Qed.

Lemma validateNonceHex_Ok v k :
  validateNonceHex v = Ok k ↔ v = JStr k ∧ NONCE_HEX_PATTERN k = true.
Proof.
  unfold validateNonceHex. split.
  - intros H. destruct v; try done. pres_inv. done.
  - by intros [-> ->].
Qed.

Lemma validateBodyHashHex_Ok v k :
  validateBodyHashHex v = Ok k ↔ v = JStr k ∧ BODY_HASH_HEX_PATTERN k = true.
Proof.
  unfold validateBodyHashHex. split.
  - intros H. destruct v; try done. pres_inv. done.
  - by intros [-> ->].
Qed.

(** The MAC strings: the encodings of 32 bytes. *)
Definition mac_string (m : jsstr) : Prop :=
  ∃ bs, bytes_ok bs ∧ length bs = 32%nat ∧ m = base64urlEncode bs.

Lemma validateMac_Ok v m : validateMac v = Ok m ↔ v = JStr m ∧ mac_string m.
Proof.
  unfold validateMac. split.
  - intros H. destruct v; try done. pres_inv. split; [done|].
    match goal with H : base64urlDecode _ = Ok _ |- _ => apply base64url_decode_sound in H as (? & ? & ?) end.
    eexists; split_and!; [done| |done]. unfold MAC_BYTES_LENGTH in *. lia.
  - intros (-> & bs & Hbs & Hl & ->).
    rewrite encode_length, Hl, base64url_decode_encode by (done || by intros ->).
    cbn [res_bind]. by rewrite Hl.
Qed.

Lemma key_id_ascii k : KEY_ID_PATTERN k = true → all_units is_ascii k = true.
Proof. intros [H _]%andb_true_iff. by eapply all_units_impl, H; apply name_unit_ascii. Qed.
Lemma namespace_ascii k : REPLAY_NAMESPACE_PATTERN k = true → all_units is_ascii k = true.
Proof. intros [H _]%andb_true_iff. by eapply all_units_impl, H; apply name_unit_ascii. Qed.
Lemma nonce_ascii k : NONCE_HEX_PATTERN k = true → all_units is_ascii k = true.
Proof. intros [H _]%andb_true_iff. by eapply all_units_impl, H; apply hex_lower_ascii. Qed.
Lemma body_hash_ascii k : BODY_HASH_HEX_PATTERN k = true → all_units is_ascii k = true.
Proof. intros [H _]%andb_true_iff. by eapply all_units_impl, H; apply hex_lower_ascii. Qed.
Lemma mac_ascii m : mac_string m → all_units is_ascii m = true.
Proof. intros (bs & Hbs & _ & ->). by apply encode_ascii. Qed.

Create HintDb attest.
#[export] Hint Resolve key_id_ascii namespace_ascii nonce_ascii body_hash_ascii mac_ascii
  ascii_units_ok : attest.

(** * The transaction-ID envelope *)

(** A JSON number's text depends on its integer value only. *)
Lemma canonical_array l b :
  canonicalJsonBytes (JArr l) = Ok b ↔ b = utf8_encode (json_text (JArr l)).
Proof. change (canonicalJsonBytes (JArr l)) with (Ok (E:=thrown) (utf8_encode (json_text (JArr l)))). split; congruence. Qed.

Definition envelope (k : jsstr) (z : Z) (n m : jsstr) : list jsval :=
  [JNum (num_of_Z PROTOCOL_VERSION); JStr k; JNum (num_of_Z z); JStr n; JStr m].

Definition valid_fields (f : TransactionIdFields) (z : Z) : Prop :=
  KEY_ID_PATTERN (keyId f) = true ∧ safe_integer (timestampMs f) = Some z
  ∧ 0 <= z <= MAX_SAFE_INTEGER ∧ NONCE_HEX_PATTERN (nonceHex f) = true ∧ mac_string (mac f).

Lemma is_safe_nonneg z : 0 <= z <= MAX_SAFE_INTEGER → is_safe z = true.
Proof. intros Hz. apply Z.leb_le. lia. Qed.

Lemma envelope_frame f z : valid_fields f z →
  Forall frame_value (envelope (keyId f) z (nonceHex f) (mac f)).
Proof.
  intros (Hk & Ht & Hz & Hn & Hm). repeat constructor; cbn [frame_value]; eauto using is_safe_nonneg with attest.
Qed.

Definition envelope_text (f : TransactionIdFields) (z : Z) : jsstr :=
  json_text (JArr (envelope (keyId f) z (nonceHex f) (mac f))).

Lemma json_text_array_head l : Forall frame_value l → ∃ t, json_text (JArr l) = 91 :: t.
Proof. intros Hl. unfold json_text. cbn. eauto. Qed.

Lemma encode_valid f z :
  valid_fields f z →
  encodeTransactionId f
  = (assertEncodedTransactionIdBound (base64urlEncode (utf8_encode (envelope_text f z))) ;;;
     Ok (base64urlEncode (utf8_encode (envelope_text f z)))).
Proof.
  intros Hv. pose proof Hv as (Hk & Ht & Hz & Hn & Hm). unfold encodeTransactionId.
  rewrite (proj2 (validateKeyId_Ok _ _)), (proj2 (validateNonceHex_Ok _ _)),
    (proj2 (validateMac_Ok _ _)) by done. cbn [res_bind].
  assert (assertTimestampMs (js "timestampMs") (JNum (timestampMs f)) = Ok z) as ->.
  { unfold assertTimestampMs. rewrite Ht. by rewrite (proj2 (Z.ltb_ge _ _)) by lia. }
  cbn [res_bind]. unfold canonicalJsonBytes.
  replace (json_stringify _) with (json_stringify (JArr (envelope (keyId f) z (nonceHex f) (mac f)))).
  2: { apply stringify_array_cong. cbn [map envelope]. by rewrite (json_text_safe _ _ Ht). }
  by rewrite json_text_defined by by apply frame_value_array, envelope_frame.
Qed.

Lemma encode_Ok_valid f h : encodeTransactionId f = Ok h → ∃ z, valid_fields f z.
Proof.
  unfold encodeTransactionId. intros H. pres_inv.
  repeat match goal with
  | H : validateKeyId _ = Ok _ |- _ => apply validateKeyId_Ok in H as [[= <-] ?]
  | H : validateNonceHex _ = Ok _ |- _ => apply validateNonceHex_Ok in H as [[= <-] ?]
  | H : validateMac _ = Ok _ |- _ => apply validateMac_Ok in H as [[= <-] ?]
  | H : assertTimestampMs _ _ = Ok _ |- _ => apply timestamp_safe in H as (? & [= <-] & ? & ?)
  end. eexists. split_and!; eauto; lia.
Qed.

Lemma envelope_text_units f z : valid_fields f z → well_formed (envelope_text f z).
Proof. intros Hv. by apply json_text_well_formed, frame_value_array, envelope_frame. Qed.

Lemma envelope_bytes f z : valid_fields f z →
  bytes_ok (utf8_encode (envelope_text f z)) ∧ utf8_encode (envelope_text f z) ≠ []
  ∧ starts_with [239; 187; 191] (utf8_encode (envelope_text f z)) = false.
Proof.
  intros Hv. split; [apply utf8_encode_bytes, envelope_text_units, Hv|].
  destruct (json_text_array_head _ (envelope_frame f z Hv)) as [t Ht].
  unfold envelope_text. rewrite Ht. unfold utf8_encode.
  rewrite code_points_single by (intros; by apply andb_false_iff; left). done.
Qed.

Lemma decode_encoded f z :
  valid_fields f z →
  Z.of_nat (length (base64urlEncode (utf8_encode (envelope_text f z)))) <= MAX_ENCODED_TRANSACTION_ID_BYTES →
  decodeTransactionId (JStr (base64urlEncode (utf8_encode (envelope_text f z))))
  = Ok (mkTransactionIdFields (keyId f) (num_of_Z z) (nonceHex f) (mac f)).
Proof.
  intros Hv Hlen. pose proof (envelope_bytes f z Hv) as (Hbytes & Hne & Hbom).
  pose proof (base64url_decode_encode _ Hbytes Hne) as Hdec.
  pose proof Hv as (Hk & Ht & Hz & Hn & Hm). unfold decodeTransactionId, require.
  assert (base64urlEncode (utf8_encode (envelope_text f z)) ≠ []) as Hne'.
  { by destruct (utf8_encode (envelope_text f z)) as [|? [|? [|? ?]]]. }
  replace (length _ =? 0)%nat with false by (by destruct (base64urlEncode _)).
  unfold assertEncodedTransactionIdBound. rewrite (proj2 (Z.leb_le _ _) Hlen).
  cbn [negb guard res_bind]. rewrite Hdec. cbn [res_bind]. rewrite Hbom. cbn [negb guard res_bind].
  unfold utf8Decode. rewrite utf8_roundtrip by (done || by apply envelope_text_units). cbn [res_bind].
  unfold envelope_text. rewrite parse_canonical_encoded by (done || by apply envelope_frame).
  cbn [res_bind envelope num_eqb num_of_Z guard].
  change (Qeq_bool (inject_Z PROTOCOL_VERSION) (inject_Z PROTOCOL_VERSION)) with true. cbn [guard res_bind].
  rewrite (proj2 (validateKeyId_Ok _ _)), (proj2 (validateNonceHex_Ok _ _)),
    (proj2 (validateMac_Ok _ _)) by done. cbn [res_bind].
  change (Fin (inject_Z z)) with (num_of_Z z). by rewrite timestamp_of_Z.
Qed.

Lemma alphabet_name c : is_Some (BASE64URL_DECODE_TABLE c) → name_unit c = true.
Proof.
  intros [i Hi]. unfold BASE64URL_DECODE_TABLE in Hi. apply fmap_Some in Hi as (n & Hi & _).
  assert (forallb name_unit BASE64URL_ALPHABET = true) as Hall by (vm_compute; done).
  rewrite forallb_forall in Hall. apply Hall. revert Hi. generalize BASE64URL_ALPHABET as s.
  intros s. revert n. induction s as [|d s IH]; intros n; cbn; [done|].
  destruct (Z.eqb_spec c d) as [->|]; [by left|]. intros (m & ? & _)%fmap_Some. right. eauto.
Qed.

Lemma mac_name m : mac_string m → all_units name_unit m = true ∧ length m = 43%nat.
Proof.
  intros (bs & Hbs & Hl & ->). rewrite encode_length, Hl. split; [|done].
  apply forallb_forall. intros c Hc. apply alphabet_name.
  pose proof (encode_alphabet bs Hbs) as Ha. rewrite Forall_forall in Ha. by apply Ha, list_elem_of_In.
Qed.

Lemma envelope_text_length f z : valid_fields f z → (length (envelope_text f z) <= 168)%nat.
Proof.
  intros (Hk & Ht & Hz & Hn & Hm). destruct (mac_name _ Hm) as [Hmn Hml].
  unfold envelope_text, json_text. cbn -[dec_of_Z json_quote num_to_string].
  change (Fin (inject_Z z)) with (num_of_Z z). unfold num_to_string.
  rewrite (safe_integer_of_Z z) by by apply is_safe_nonneg.
  unfold KEY_ID_PATTERN, NONCE_HEX_PATTERN, bounded_length in *. bool_prop.
  rewrite !quote_name; [|done| |done].
  2: { eapply all_units_impl; [|done]. intros c Hc. unfold name_unit. unit_class. lia. }
  assert (length (dec_of_Z z) <= 16)%nat as Hd.
  { unfold dec_of_Z. rewrite (proj2 (Z.ltb_ge _ _)) by lia. apply (dec_digits_length _ _ 15).
    unfold MAX_SAFE_INTEGER in Hz. lia. }
  repeat (rewrite ?length_app; cbn [length]).
  match goal with H : (length (nonceHex f) =? 32)%nat = true |- _ => apply Nat.eqb_eq in H end.
  change (safe_integer (num_of_Z PROTOCOL_VERSION)) with (Some 1). cbn iota.
  change (length (dec_of_Z 1)) with 1%nat. lia.
Qed.

Lemma hex_name s : all_units is_hex_lower s = true → all_units name_unit s = true.
Proof. apply all_units_impl. intros c Hc. unfold name_unit. unit_class. lia. Qed.

Lemma envelope_text_ascii f z : valid_fields f z → forallb is_ascii (envelope_text f z) = true.
Proof.
  intros (Hk & Ht & Hz & Hn & Hm). destruct (mac_name _ Hm) as [Hmn _].
  apply andb_true_iff in Hk as [Hk _], Hn as [Hn _].
  change (envelope_text f z)
    with ([91] ++ join_with 44 (map json_text (envelope (keyId f) z (nonceHex f) (mac f))) ++ [93]).
  rewrite !forallb_app, ascii_join; [done|].
  repeat (apply Forall_cons; split); try done.
  - by apply quote_name_ascii.
  - unfold json_text. cbn [json_stringify default is_finite num_of_Z]. unfold num_to_string.
    change (Fin (inject_Z z)) with (num_of_Z z). cbn [default].
    rewrite (safe_integer_of_Z z) by by apply is_safe_nonneg. apply dec_of_Z_ascii.
  - by apply quote_name_ascii, hex_name.
  - by apply quote_name_ascii.
Qed.

Lemma encoded_bound f z : valid_fields f z →
  Z.of_nat (length (base64urlEncode (utf8_encode (envelope_text f z)))) <= MAX_ENCODED_TRANSACTION_ID_BYTES.
Proof.
  intros Hv. rewrite ascii_utf8 by by apply envelope_text_ascii. rewrite encode_length.
  pose proof (envelope_text_length f z Hv) as Hl. unfold MAX_ENCODED_TRANSACTION_ID_BYTES.
  assert ((length (envelope_text f z) * 4 + 2) / 3 <= (168 * 4 + 2) / 3)%nat as Hd
    by (apply Nat.Div0.div_le_mono; lia).
  change ((168 * 4 + 2) / 3)%nat with 224%nat in Hd. lia.
Qed.

Lemma encode_of_valid f z :
  valid_fields f z → encodeTransactionId f = Ok (base64urlEncode (utf8_encode (envelope_text f z))).
Proof.
  intros Hv. rewrite (encode_valid f z Hv). unfold assertEncodedTransactionIdBound.
  by rewrite (proj2 (Z.leb_le _ _) (encoded_bound f z Hv)).
Qed.

Lemma utf8Decode_sound bytes text :
  bytes_ok bytes → starts_with [239; 187; 191] bytes = false →
  utf8Decode bytes = Ok text → utf8_encode text = bytes.
Proof.
  intros Hb Hbom. unfold utf8Decode. destruct (utf8_decode bytes) as [t|] eqn:E; [|done].
  intros [= <-]. apply utf8_decode_inv in E; try done.
  eapply Forall_impl; [exact Hb|]. unfold byte_ok. intros; lia.
Qed.

(** The envelope's text determines the parsed array. *)
Lemma envelope_parsed text l f z :
  valid_fields f z →
  parseCanonicalJsonArray text (Some 5%nat) = Ok l →
  map json_text l = map json_text (envelope (keyId f) z (nonceHex f) (mac f)) →
  text = envelope_text f z ∧ l = envelope (keyId f) z (nonceHex f) (mac f).
Proof.
  intros Hv Hp Hl. pose proof (envelope_frame f z Hv) as Hframe.
  pose proof (parse_canonical_sound _ _ _ Hp) as [Ht _].
  rewrite (stringify_array_cong _ _ Hl), json_text_defined in Ht by by apply frame_value_array.
  injection Ht as <-. split; [done|].
  rewrite parse_canonical_encoded in Hp by done. by injection Hp as <-.
Qed.

Lemma version_text v : num_eqb v (num_of_Z PROTOCOL_VERSION) = true →
  json_text (JNum v) = json_text (JNum (num_of_Z PROTOCOL_VERSION)).
Proof.
  intros Hv. apply json_text_safe. destruct v as [| |q]; try done. apply Qeq_bool_iff in Hv.
  unfold Qeq in Hv. cbn in Hv. rewrite Z.mul_1_r in Hv. unfold safe_integer, Q_to_Z.
  rewrite Hv, Z.rem_same, Z.quot_same by done. done.
Qed.

Lemma decode_sound h f :
  decodeTransactionId (JStr h) = Ok f →
  ∃ z, valid_fields f z ∧ timestampMs f = num_of_Z z
  ∧ h = base64urlEncode (utf8_encode (envelope_text f z)).
Proof.
  unfold decodeTransactionId. intros H. pres_inv.
  match goal with H : base64urlDecode _ = Ok _ |- _ =>
    apply base64url_decode_sound in H as (Henc & Hbytes & _) end.
  match goal with H : utf8Decode _ = Ok _ |- _ => apply utf8Decode_sound in H; [|done..] end.
  do 5 (case_match; try discriminate). case_match; [|discriminate]. pres_inv.
  repeat match goal with
  | H : validateKeyId _ = Ok _ |- _ => apply validateKeyId_Ok in H as [-> ?]
  | H : validateNonceHex _ = Ok _ |- _ => apply validateNonceHex_Ok in H as [-> ?]
  | H : validateMac _ = Ok _ |- _ => apply validateMac_Ok in H as [-> ?]
  | H : assertTimestampMs _ _ = Ok _ |- _ => apply timestamp_safe in H as (? & -> & ? & ?)
  end.
  case_match; try discriminate.
  match goal with H : safe_integer ?n = Some ?z |- context [mkTransactionIdFields ?k _ ?nn ?m] =>
    assert (valid_fields (mkTransactionIdFields k n nn m) z) as Hv by (split_and!; simpl; tauto);
    pose proof (json_text_safe _ _ H) as Hz end.
  match goal with H : parseCanonicalJsonArray _ _ = _ |- _ => eapply envelope_parsed in H as [-> Heq] end;
    [|exact Hv|].
  - unfold envelope in Heq. simplify_eq. eexists. split; [exact Hv|]. split; [done|].
    by subst.
  - cbn [map envelope keyId nonceHex mac]. rewrite Hz. rewrite version_text by done. done.
Qed.

Lemma decode_of_encode f z h :
  valid_fields f z → encodeTransactionId f = Ok h →
  decodeTransactionId (JStr h) = Ok (mkTransactionIdFields (keyId f) (num_of_Z z) (nonceHex f) (mac f)).
Proof.
  intros Hv Hh. rewrite (encode_of_valid f z Hv) in Hh.
  assert (h = base64urlEncode (utf8_encode (envelope_text f z))) as -> by congruence.
  apply decode_encoded; [done|by apply encoded_bound].
Qed.

(** An envelope whose fields satisfy the field rules always encodes, within the
    1024-byte bound, and decodes to the same fields. *)
Theorem encode_total (f : TransactionIdFields) (z : Z) :
  valid_fields f z →
  ∃ h, encodeTransactionId f = Ok h
  ∧ Z.of_nat (length h) <= MAX_ENCODED_TRANSACTION_ID_BYTES
  ∧ decodeTransactionId (JStr h)
    = Ok (mkTransactionIdFields (keyId f) (num_of_Z z) (nonceHex f) (mac f)).
Proof.
  intros Hv. eexists. split; [by apply encode_of_valid|]. split; [by apply encoded_bound|].
  apply decode_encoded; [done|by apply encoded_bound].
Qed.

(** Decoding accepts exactly the encodings: no other header value decodes. *)
Theorem decode_iff_encode (h : jsstr) (f : TransactionIdFields) :
  decodeTransactionId (JStr h) = Ok f
  ↔ encodeTransactionId f = Ok h ∧ ∃ z, timestampMs f = num_of_Z z.
Proof.
  split.
  - intros (z & Hv & Ht & ->)%decode_sound. split; [by apply encode_of_valid|eauto].
  - intros [Henc [z Ht]]. destruct (encode_Ok_valid f h Henc) as [z' Hv].
    pose proof Hv as (_ & Hsafe & Hz & _).
    assert (z' = z) as ->.
    { rewrite Ht in Hsafe. unfold safe_integer, num_of_Z in Hsafe. rewrite Q_to_Z_inject in Hsafe.
      cbn in Hsafe. case_match; by simplify_eq. }
    rewrite (encode_of_valid f z Hv) in Henc.
    assert (h = base64urlEncode (utf8_encode (envelope_text f z))) as -> by congruence.
    rewrite decode_encoded by (done || by apply encoded_bound). destruct f; cbn in *. by subst.
Qed.

(** * Lemmas: request targets *)

Definition strip_empty_query (s : jsstr) : jsstr :=
  match index_of 63 s with
  | Some queryIndex => if (queryIndex =? length s - 1)%nat then take queryIndex s else s
  | None => s
  end.

Definition target_char (code : Z) : bool :=
  negb ((code <=? 32) || (code =? 127)) && negb ((code =? 35) || (code =? 92)).
Definition target_segment (segment : jsstr) : bool :=
  negb (is_dot_segment segment) && negb (is_dot_segment (to_lower (percentDecodeSegment segment))).

(** The accepted targets, as one predicate. *)
Definition target_ok (s : jsstr) : Prop :=
  utf8ByteLength s <= MAX_REQUEST_TARGET_BYTES
  ∧ starts_with (js "/") s = true ∧ starts_with (js "//") s = false
  ∧ Forall (λ c, target_char c = true) (code_points s)
  ∧ assertValidPercentEscapes s = Ok tt
  ∧ Forall (λ w, target_segment w = true) (split_on 47 (target_path s)).

Lemma check_target_char_Ok c : check_target_char c = Ok tt ↔ target_char c = true.
Proof.
  unfold check_target_char, target_char. split.
  - intros H. apply res_bind_Ok in H as ([] & H1%require_Ok & H2%require_Ok). by rewrite H1, H2.
  - intros [-> ->]%andb_true_iff. done.
Qed.
Lemma check_target_segment_Ok w : check_target_segment w = Ok tt ↔ target_segment w = true.
Proof.
  unfold check_target_segment, target_segment. split.
  - intros H. apply res_bind_Ok in H as ([] & H1%require_Ok & H2%require_Ok). by rewrite H1, H2.
  - intros [-> ->]%andb_true_iff. done.
Qed.

Lemma canonicalize_Ok v u :
  canonicalizeRequestTarget v = Ok u ↔ ∃ s, v = JStr s ∧ target_ok s ∧ u = strip_empty_query s.
Proof.
  split.
  - unfold canonicalizeRequestTarget. intros H. destruct v; try done. pres_inv.
    repeat match goal with x : unit |- _ => destruct x end.
    repeat match goal with H : res_iter _ _ = Ok _ |- _ => apply res_iter_Ok in H end.
    eexists. split_and!; [done| |done]. repeat split; try done.
    + eapply Forall_impl; [done|]. intros c. apply check_target_char_Ok.
    + eapply Forall_impl; [done|]. intros c. apply check_target_segment_Ok.
  - intros (s & -> & (Hl & H1 & H2 & Hc & Hp & Hs) & ->). unfold canonicalizeRequestTarget, require.
    destruct s as [|c s']; [done|]. set (s := c :: s') in *. cbn [length Nat.eqb negb guard res_bind].
    rewrite (proj2 (Z.leb_le _ _) Hl), H1, H2. cbn [negb guard res_bind].
    rewrite (proj2 (res_iter_Ok _ _)) by (by eapply Forall_impl; [done|]; intros; apply check_target_char_Ok).
    cbn [res_bind]. rewrite Hp. cbn [res_bind].
    rewrite (proj2 (res_iter_Ok _ _)) by (by eapply Forall_impl; [done|]; intros; apply check_target_segment_Ok).
    done.
Qed.

Lemma strip_cases s :
  strip_empty_query s = s ∨ ∃ p, s = p ++ [63] ∧ index_of 63 p = None ∧ strip_empty_query s = p
    ∧ target_path s = p.
Proof.
  unfold strip_empty_query, target_path. destruct (index_of 63 s) as [i|] eqn:E; [|by left].
  destruct (Nat.eqb_spec i (length s - 1)) as [Hi|]; [|by left]. right.
  apply index_of_Some in E as [Hs Hno]. exists (take i s). split_and!; try done.
  assert (drop (S i) s = []) as Hd by (apply drop_ge; lia). by rewrite Hd in Hs.
Qed.

Lemma percent_escapes_prefix p :
  assertValidPercentEscapes (p ++ [63]) = Ok tt → assertValidPercentEscapes p = Ok tt.
Proof.
  remember (length p) as n eqn:Hn. revert p Hn.
  induction n as [n IH] using lt_wf_ind. intros p ->. destruct p as [|c p]; [done|].
  cbn [app assertValidPercentEscapes]. destruct (Z.eqb_spec c 37).
  - destruct p as [|h1 [|h2 p]]; cbn [app].
    + done.
    + intros (u & H%require_Ok & _)%res_bind_Ok. unfold HEX_BYTE_PATTERN in H. cbn [all_units forallb] in H.
      bool_prop. unit_class. lia.
    + intros (u & H%require_Ok & Hp)%res_bind_Ok. apply res_bind_Ok. exists tt.
      split; [by apply require_Ok|]. eapply IH; [|done|done]. cbn. lia.
  - intros Hp. eapply IH; [|done|done]. cbn. lia.
Qed.

Lemma strip_ok s : target_ok s → target_ok (strip_empty_query s).
Proof.
  intros Hok. destruct (strip_cases s) as [->|(p & Hs & Hno & -> & Hpath)]; [done|].
  destruct Hok as (Hl & H1 & H2 & Hc & Hp & Hseg). rewrite Hpath in Hseg. subst s.
  rewrite code_points_snoc in Hc by done. apply Forall_app in Hc as [Hc _].
  assert (target_path p = p) as Hpp by (unfold target_path; by rewrite Hno).
  unfold target_ok. rewrite Hpp. split; [|split; [|split; [|split; [|split]]]].
  - unfold utf8ByteLength, utf8_encode in *. rewrite code_points_snoc, flat_map_app, length_app in Hl by done. lia.
  - by destruct p as [|c p].
  - by destruct p as [|c [|d p]].
  - done.
  - by apply percent_escapes_prefix.
  - done.
Qed.

Lemma strip_idempotent s : strip_empty_query (strip_empty_query s) = strip_empty_query s.
Proof.
  destruct (strip_cases s) as [E|(p & _ & Hno & -> & _)]; [by rewrite !E|].
  unfold strip_empty_query. by rewrite Hno.
Qed.

Lemma canonicalize_idempotent v u :
  canonicalizeRequestTarget v = Ok u → canonicalizeRequestTarget (JStr u) = Ok u.
Proof.
  intros (s & -> & Hok & ->)%canonicalize_Ok. apply canonicalize_Ok.
  eexists. split_and!; [done|by apply strip_ok|]. by rewrite strip_idempotent.
Qed.

(** A canonical target is an absolute path without authority, fragment, control,
    space or backslash, none of whose segments is a dot segment once its percent
    escapes are decoded; canonicalizing it again changes nothing. *)
Theorem request_target_canonical (v : jsval) (u : jsstr) :
  canonicalizeRequestTarget v = Ok u →
  canonicalizeRequestTarget (JStr u) = Ok u
  ∧ starts_with (js "/") u = true ∧ starts_with (js "//") u = false
  ∧ Forall (λ c, 32 < c ∧ c ≠ 127 ∧ c ≠ 35 ∧ c ≠ 92) (code_points u)
  ∧ (∀ w, w ∈ split_on 47 (target_path u) →
       percentDecodeSegment w ≠ js "." ∧ percentDecodeSegment w ≠ js "..")
  ∧ utf8ByteLength u <= MAX_REQUEST_TARGET_BYTES.
Proof.
  intros H. pose proof (canonicalize_idempotent v u H) as Hu. split; [done|].
  apply canonicalize_Ok in H as (s & _ & (Hl & H1 & H2 & Hc & _ & Hseg)%strip_ok & ->).
  split_and!; try done.
  - eapply Forall_impl; [done|]. cbv beta. unfold target_char. intros c Hcc. bool_prop. unit_class. lia.
  - rewrite Forall_forall in Hseg. intros w Hw. specialize (Hseg w Hw). unfold target_segment in Hseg.
    apply andb_true_iff in Hseg as [_ Hd]. unfold is_dot_segment in Hd. bool_prop.
    split; intros E; by rewrite E in *.
Qed.

(** * Lemmas: methods and content types *)

Lemma token_unit_ascii c : token_unit c = true → is_ascii c = true.
Proof.
  unfold token_unit. intros [H|H]%orb_true_iff.
  - unfold includes_char in H. apply existsb_exists in H as (d & Hd & ->%Z.eqb_eq).
    assert (forallb is_ascii (js "!#$%&'*+-.^_`|~") = true) as Hall by (vm_compute; done).
    rewrite forallb_forall in Hall. by apply Hall.
  - unfold is_ascii. unit_class. lia.
Qed.

Lemma token_upper c : token_unit c = true → token_unit (upper_unit c) = true ∧ upper_unit (upper_unit c) = upper_unit c.
Proof.
  intros Hc. pose proof (token_unit_ascii c Hc) as Ha. unfold is_ascii in Ha. apply in_range_spec in Ha.
  assert (forallb (λ n, let c := Z.of_nat n in
            implb (token_unit c) (token_unit (upper_unit c) && (upper_unit (upper_unit c) =? upper_unit c)))
            (seq 0 128) = true) as Hall by (vm_compute; done).
  rewrite forallb_forall in Hall. specialize (Hall (Z.to_nat c)). cbv zeta in Hall.
  rewrite Z2Nat.id, Hc in Hall by lia. cbn [implb] in Hall.
  assert (In (Z.to_nat c) (seq 0 128)) as Hin by (apply in_seq; lia). specialize (Hall Hin).
  by apply andb_true_iff in Hall as [? ?%Z.eqb_eq].
Qed.

Lemma normalizeMethod_Ok v m :
  normalizeMethod v = Ok m ↔ ∃ s, v = JStr s ∧ HTTP_TOKEN_PATTERN s = true ∧ m = to_upper s.
Proof.
  unfold normalizeMethod. split.
  - intros H. destruct v; try done. pres_inv. eauto.
  - intros (s & -> & Hs & ->). rewrite Hs. unfold HTTP_TOKEN_PATTERN in Hs. bool_prop.
    by destruct s.
Qed.

Lemma normalizeMethod_idempotent v m : normalizeMethod v = Ok m → normalizeMethod (JStr m) = Ok m.
Proof.
  intros (s & -> & Hs & ->)%normalizeMethod_Ok. apply normalizeMethod_Ok. exists (to_upper s).
  split; [done|]. unfold HTTP_TOKEN_PATTERN, to_upper in *. apply andb_true_iff in Hs as [Hs Hl].
  rewrite length_map, Hl, andb_true_r. unfold all_units in *. rewrite forallb_forall in Hs. split.
  - apply forallb_forall. intros c (d & <- & Hd)%in_map_iff. by apply token_upper, Hs.
  - rewrite map_map. apply map_ext_in. intros c Hc. symmetry. by apply token_upper, Hs.
Qed.

Lemma method_ascii v m : normalizeMethod v = Ok m → all_units is_ascii m = true.
Proof.
  intros H%normalizeMethod_idempotent. apply normalizeMethod_Ok in H as (s & [= <-] & Hs & _).
  apply andb_true_iff in Hs as [Hs _]. by eapply all_units_impl, Hs; apply token_unit_ascii.
Qed.

Definition content_type_ok (t : jsstr) : Prop :=
  forallb content_type_char (code_points t) = true ∧ utf8ByteLength t <= MAX_CONTENT_TYPE_BYTES.

Lemma normalizeContentType_Ok v c :
  normalizeContentType v = Ok c ↔
  (v = JUndef ∨ v = JNull) ∧ c = []
  ∨ ∃ s, v = JStr s ∧ content_type_ok (trim_by is_ows s) ∧ c = trim_by is_ows s.
Proof.
  unfold normalizeContentType, content_type_ok. split.
  - intros H. destruct v; try done; pres_inv; eauto 10.
  - intros [[[-> | ->] ->]|(s & -> & [H1 H2] & ->)]; [done..|].
    unfold require. rewrite H1, (proj2 (Z.leb_le _ _) H2). done.
Qed.

Lemma normalizeContentType_idempotent v c :
  normalizeContentType v = Ok c → normalizeContentType (JStr c) = Ok c.
Proof.
  intros H. apply normalizeContentType_Ok. right. exists c. split; [done|].
  apply normalizeContentType_Ok in H as [[_ ->]|(s & _ & Hok & ->)]; [done|].
  by rewrite trim_by_idempotent.
Qed.

Lemma drop_while_units p s : units_ok s → units_ok (drop_while p s).
Proof. induction 1; cbn; [constructor|]. case_match; [done|by constructor]. Qed.
Lemma trim_by_units p s : units_ok s → units_ok (trim_by p s).
Proof.
  intros H. unfold trim_by. apply Forall_reverse, drop_while_units, Forall_reverse. by apply drop_while_units.
Qed.
Lemma canonicalize_units s u : units_ok s → canonicalizeRequestTarget (JStr s) = Ok u → units_ok u.
Proof.
  intros Hs (s' & [= <-] & _ & ->)%canonicalize_Ok. unfold strip_empty_query.
  repeat case_match; try done. by apply Forall_take.
Qed.
Lemma content_type_units s u : units_ok s → normalizeContentType (JStr s) = Ok u → units_ok u.
Proof.
  intros Hs [[[?|?] ?]|(s' & [= <-] & _ & ->)]%normalizeContentType_Ok; try done. by apply trim_by_units.
Qed.

(** * Framing of the MAC input and of the replay key *)

(** The strings of a [MacInputFields] are JavaScript strings. *)
Definition fields_units (f : MacInputFields) : Prop :=
  units_ok (mi_publicOrigin f) ∧ units_ok (mi_requestTarget f) ∧ units_ok (mi_contentType f).

Definition mac_tuple (f : MacInputFields) (z : Z) (method target contentType : jsstr) : list jsval :=
  [JStr MAC_INPUT_LABEL; JNum (num_of_Z PROTOCOL_VERSION); JStr (mi_replayNamespace f);
   JStr (mi_publicOrigin f); JStr (mi_keyId f); JNum (num_of_Z z); JStr (mi_nonceHex f);
   JStr method; JStr target; JStr contentType; JStr (mi_bodyHashHex f)].

(** The fields of [f] with its method, target and content type replaced. *)
Definition with_request (f : MacInputFields) (method target contentType : jsstr) : MacInputFields :=
  mkMacInputFields (mi_replayNamespace f) (mi_publicOrigin f) (mi_keyId f) (mi_timestampMs f)
    (mi_nonceHex f) method target contentType (mi_bodyHashHex f).

Section framing_lemmas.
Variable parse_url : jsstr → option URL.

Definition framed (f : MacInputFields) (z : Z) (method target contentType : jsstr) : Prop :=
REPLAY_NAMESPACE_PATTERN (mi_replayNamespace f) = true
∧ is_ok (validatePublicOrigin parse_url (JStr (mi_publicOrigin f))) = true
∧ KEY_ID_PATTERN (mi_keyId f) = true
∧ safe_integer (mi_timestampMs f) = Some z ∧ 0 <= z <= MAX_SAFE_INTEGER
∧ NONCE_HEX_PATTERN (mi_nonceHex f) = true
∧ normalizeMethod (JStr (mi_method f)) = Ok method
∧ canonicalizeRequestTarget (JStr (mi_requestTarget f)) = Ok target
∧ normalizeContentType (JStr (mi_contentType f)) = Ok contentType
∧ BODY_HASH_HEX_PATTERN (mi_bodyHashHex f) = true.

Lemma mac_tuple_frame f z m t c :
  fields_units f → framed f z m t c → Forall frame_value (mac_tuple f z m t c).
Proof.
  intros (Ho & Ht & Hc) (H1 & _ & H3 & _ & Hz & H5 & H6 & H7 & H8 & H9).
  pose proof (method_ascii _ _ H6). pose proof (canonicalize_units _ _ Ht H7).
  pose proof (content_type_units _ _ Hc H8).
  unfold mac_tuple. repeat match goal with
    | |- Forall frame_value (_ :: _) => apply Forall_cons; split
    | |- Forall frame_value [] => constructor
    end; cbn [frame_value]; eauto using is_safe_nonneg with attest.
Qed.

(** The bytes are the UTF-8 of the JSON text of the normalized tuple, and the
  builder returns exactly when every field satisfies its rule. *)
Lemma build_mac_Ok f b :
  buildMacInputBytes parse_url f = Ok b ↔
  ∃ z m t c, framed f z m t c ∧ b = utf8_encode (json_text (JArr (mac_tuple f z m t c))).
Proof.
  unfold buildMacInputBytes. split.
  - intros H. pres_inv.
    repeat match goal with
    | H : validateReplayNamespace _ = Ok _ |- _ => apply validateReplayNamespace_Ok in H as [[= <-] ?]
    | H : validateKeyId _ = Ok _ |- _ => apply validateKeyId_Ok in H as [[= <-] ?]
    | H : validateNonceHex _ = Ok _ |- _ => apply validateNonceHex_Ok in H as [[= <-] ?]
    | H : validateBodyHashHex _ = Ok _ |- _ => apply validateBodyHashHex_Ok in H as [[= <-] ?]
    | H : assertTimestampMs _ _ = Ok _ |- _ => apply timestamp_safe in H as (? & [= <-] & Hts & ?)
    end.
    do 4 eexists. split; [split_and!; eauto; try lia|].
    { by match goal with H : validatePublicOrigin _ _ = Ok _ |- _ => rewrite H end. }
    match goal with H : canonicalJsonBytes _ = Ok _ |- _ => apply canonical_array in H as -> end.
    apply (f_equal utf8_encode), (f_equal (default (js "null"))), stringify_array_cong.
    cbn [map mac_tuple]. by rewrite (json_text_safe _ _ Hts).
  - intros (z & m & t & c & (H1 & H2 & H3 & H4 & Hz & H5 & H6 & H7 & H8 & H9) & ->).
    destruct (validatePublicOrigin _ _) eqn:Ho; [|done].
    rewrite (proj2 (validateReplayNamespace_Ok _ _)), (proj2 (validateKeyId_Ok _ _)),
      (proj2 (validateNonceHex_Ok _ _)), (proj2 (validateBodyHashHex_Ok _ _)) by done.
    rewrite H6, H7, H8. cbn [res_bind]. unfold assertTimestampMs. rewrite H4.
    rewrite (proj2 (Z.ltb_ge _ _)) by lia. cbn [res_bind]. apply canonical_array.
    apply (f_equal utf8_encode), (f_equal (default (js "null"))), stringify_array_cong.
    cbn [map mac_tuple]. by rewrite (json_text_safe _ _ H4).
Qed.

(** The MAC input determines every protected field: two requests with the same
  bytes have the same space, key, time, nonce, method, target, content type
  and body digest. *)
Lemma build_mac_injective (f g : MacInputFields) (b : list Z) :
  fields_units f → fields_units g →
  buildMacInputBytes parse_url f = Ok b → buildMacInputBytes parse_url g = Ok b →
  mi_replayNamespace f = mi_replayNamespace g ∧ mi_publicOrigin f = mi_publicOrigin g
  ∧ mi_keyId f = mi_keyId g ∧ safe_integer (mi_timestampMs f) = safe_integer (mi_timestampMs g)
  ∧ mi_nonceHex f = mi_nonceHex g
  ∧ normalizeMethod (JStr (mi_method f)) = normalizeMethod (JStr (mi_method g))
  ∧ canonicalizeRequestTarget (JStr (mi_requestTarget f))
  = canonicalizeRequestTarget (JStr (mi_requestTarget g))
  ∧ normalizeContentType (JStr (mi_contentType f)) = normalizeContentType (JStr (mi_contentType g))
  ∧ mi_bodyHashHex f = mi_bodyHashHex g.
Proof.
  intros Hf Hg (zf & mf & tf & cf & Ff & ->)%build_mac_Ok (zg & mg & tg & cg & Fg & E)%build_mac_Ok.
  apply json_bytes_inj in E; try by apply frame_value_array, mac_tuple_frame.
  injection E. intros. destruct Ff as (_ & _ & _ & Hzf & _ & _ & Hmf & Htf & Hcf & _).
  destruct Fg as (_ & _ & _ & Hzg & _ & _ & Hmg & Htg & Hcg & _).
  split_and!; congruence.
Qed.

(** Signer and verifier agree: framing the normalized request gives the bytes
  of the raw request. *)
Theorem mac_input_normalized (f : MacInputFields) (b : list Z) (m t c : jsstr) :
  buildMacInputBytes parse_url f = Ok b →
  normalizeMethod (JStr (mi_method f)) = Ok m →
  canonicalizeRequestTarget (JStr (mi_requestTarget f)) = Ok t →
  normalizeContentType (JStr (mi_contentType f)) = Ok c →
  buildMacInputBytes parse_url (with_request f m t c) = Ok b.
Proof.
  intros (z & m' & t' & c' & (H1 & H2 & H3 & H4 & Hz & H5 & H6 & H7 & H8 & H9) & ->)%build_mac_Ok Hm Ht Hc.
  apply build_mac_Ok. exists z, m, t, c.
  rewrite H6 in Hm. rewrite H7 in Ht. rewrite H8 in Hc.
  injection Hm as <-. injection Ht as <-. injection Hc as <-. split; [|done].
  repeat (split; [done|]). split; [|split; [|split; [|done]]].
  - by eapply normalizeMethod_idempotent.
  - by eapply canonicalize_idempotent.
  - by eapply normalizeContentType_idempotent.
Qed.

Lemma preimage_Ok ns origin nonce b :
  buildReplayKeyPreimageBytes parse_url ns origin nonce = Ok b →
  REPLAY_NAMESPACE_PATTERN ns = true ∧ NONCE_HEX_PATTERN nonce = true
  ∧ b = utf8_encode (json_text (JArr [JStr ns; JStr origin; JStr nonce])).
Proof.
  unfold buildReplayKeyPreimageBytes. intros H. pres_inv.
  repeat match goal with
  | H : validateReplayNamespace _ = Ok _ |- _ => apply validateReplayNamespace_Ok in H as [[= <-] ?]
  | H : validateNonceHex _ = Ok _ |- _ => apply validateNonceHex_Ok in H as [[= <-] ?]
  | H : canonicalJsonBytes _ = Ok _ |- _ => apply canonical_array in H as ->
  end. done.
Qed.

(** The replay-key preimage separates protection spaces and nonces. *)
Lemma preimage_injective (ns1 o1 n1 ns2 o2 n2 : jsstr) (b : list Z) :
  units_ok o1 → units_ok o2 →
  buildReplayKeyPreimageBytes parse_url ns1 o1 n1 = Ok b →
  buildReplayKeyPreimageBytes parse_url ns2 o2 n2 = Ok b →
  ns1 = ns2 ∧ o1 = o2 ∧ n1 = n2.
Proof.
  intros Ho1 Ho2 (Hn1 & Hx1 & ->)%preimage_Ok (Hn2 & Hx2 & E)%preimage_Ok.
  apply json_bytes_inj in E; [by injection E|..]; apply frame_value_array;
    repeat match goal with
    | |- Forall frame_value (_ :: _) => apply Forall_cons; split
    | |- Forall frame_value [] => constructor
    end; cbn [frame_value]; eauto with attest.
Qed.
End framing_lemmas.

(** * Concrete instances *)

Definition example_origin : jsstr := js "https://api.example.com".
Definition example_url_parser (s : jsstr) : option URL :=
  if jsstr_eqb s example_origin
  then Some (mkURL (example_origin ++ js "/") (js "https:") [] [] (js "api.example.com")
               (js "api.example.com") (js "/") [] [])
  else None.
Definition example_fields : TransactionIdFields :=
  mkTransactionIdFields (js "k-2024_01") (num_of_Z 1700000000000)
    (js "00112233445566778899aabbccddeeff") (base64urlEncode (repeat 200 32)).
Definition example_request (method target contentType : string) : MacInputFields :=
  mkMacInputFields (js "orders") example_origin (js "k-2024_01") (num_of_Z 1700000000000)
    (js "00112233445566778899aabbccddeeff") (js method) (js target) (js contentType)
    (repeat 48 64).

Lemma example_fields_valid : valid_fields example_fields 1700000000000.
Proof.
  split_and!; try (vm_compute; done). exists (repeat 200 32). split_and!; [|done..].
  apply Forall_forall. intros b Hb%list_elem_of_In%repeat_spec. subst. done.
Qed.

Lemma encode_total_witness :
  valid_fields example_fields 1700000000000
  ∧ ∃ h, encodeTransactionId example_fields = Ok h
    ∧ Z.of_nat (length h) <= MAX_ENCODED_TRANSACTION_ID_BYTES
    ∧ decodeTransactionId (JStr h)
      = Ok (mkTransactionIdFields (keyId example_fields) (num_of_Z 1700000000000)
              (nonceHex example_fields) (mac example_fields)).
Proof. split; [apply example_fields_valid|]. apply (encode_total example_fields). apply example_fields_valid. Defined.

Lemma request_target_canonical_witness :
  canonicalizeRequestTarget (JStr (js "/a/%2e%2ex//b?")) = Ok (js "/a/%2e%2ex//b")
  ∧ canonicalizeRequestTarget (JStr (js "/a/%2e%2ex//b")) = Ok (js "/a/%2e%2ex//b").
Proof.
  split; [vm_compute; done|].
  apply (request_target_canonical (JStr (js "/a/%2e%2ex//b?")) (js "/a/%2e%2ex//b")).
  vm_compute. done.
Defined.

Definition example_mac_bytes : list Z :=
  match buildMacInputBytes example_url_parser (example_request "get" "/a?" " text/plain ") with
  | Ok b => b | Err _ => []
  end.

Lemma mac_input_normalized_witness :
  buildMacInputBytes example_url_parser
    (with_request (example_request "get" "/a?" " text/plain ") (js "GET") (js "/a") (js "text/plain"))
  = Ok example_mac_bytes.
Proof.
  apply (mac_input_normalized example_url_parser (example_request "get" "/a?" " text/plain "));
    vm_compute; done.
Defined.
