(* ===== verification/AttestTime.v ===== *)
(** express-request-attestation, [shared/time-policy.ts]: acceptance of a proof
    in time and the retention of its replay key.

    Sums are exact: all operands are non-negative safe integers (asserted, or
    bounded by [resolveTimePolicy]), so a sum that a double cannot hold is at
    least [2^53] in both readings and fails [Number.isSafeInteger]. *)

From S2P Require Import Prelude JsValue JsJson AttestTypes AttestCanonical.

Definition assertPolicyField (name : jsstr) (value : jsval) (min max : Z) : pres Z :=
  let fail := Err (protocolError (name ++ js " must be a safe integer in [" ++ dec_of_Z min
                                   ++ js ", " ++ dec_of_Z max ++ js "]")) in
  match value with
  | JNum n =>
      match safe_integer n with
      | Some z => if (z <? min) || (max <? z) then fail else Ok z
      | None => fail
      end
  | _ => fail
  end.

Definition time_policy_keys : list jsstr :=
  [js "maxAgeMs"; js "clockSkewMs"; js "clusterClockGuardMs"].

(** The call without an argument passes the default [{}]. *)
Definition resolveTimePolicy (options : jsval) : pres ResolvedTimePolicy :=
  let options := if is_undef options then JObj true [] else options in
  require (is_non_array_object options) "time policy options must be an object" ;;;
  res_iter (λ key, guard (bool_decide (key ∈ time_policy_keys))
                     (protocolError (js "unknown time policy option " ++ key)))
    (object_keys options) ;;;
  let field name default := nullish_or (get_field options (js name)) (JNum (num_of_Z default)) in
  let* maxAgeMs := assertPolicyField (js "maxAgeMs") (field "maxAgeMs" DEFAULT_MAX_AGE_MS)
                     MIN_MAX_AGE_MS MAX_MAX_AGE_MS in
  let* clockSkewMs := assertPolicyField (js "clockSkewMs") (field "clockSkewMs" DEFAULT_CLOCK_SKEW_MS)
                        MIN_CLOCK_SKEW_MS MAX_CLOCK_SKEW_MS in
  let* clusterClockGuardMs :=
    assertPolicyField (js "clusterClockGuardMs")
      (field "clusterClockGuardMs" DEFAULT_CLUSTER_CLOCK_GUARD_MS)
      MIN_CLUSTER_CLOCK_GUARD_MS MAX_CLUSTER_CLOCK_GUARD_MS in
  Ok (mkPolicy maxAgeMs clockSkewMs clusterClockGuardMs).

Definition safeAdd (first second : Z) : option Z :=
  let sum := first + second in if is_safe sum then Some sum else None.
Definition safeAdd3 (first second third : Z) : option Z :=
  let sum := first + second + third in if is_safe sum then Some sum else None.

Definition evaluateProofTiming (timestamp now from until : num) (policy : ResolvedTimePolicy)
    : pres ProofTiming :=
  let* timestampMs := assertTimestampMs (js "timestampMs") (JNum timestamp) in
  let* nowMs := assertTimestampMs (js "nowMs") (JNum now) in
  let* acceptFrom := assertTimestampMs (js "acceptFrom") (JNum from) in
  let* acceptUntil := assertTimestampMs (js "acceptUntil") (JNum until) in
  require (negb (acceptUntil <=? acceptFrom))
    "key acceptance window must satisfy acceptFrom < acceptUntil" ;;;
  let active := (acceptFrom <=? nowMs) && (nowMs <? acceptUntil) in
  let deadline := safeAdd3 timestampMs (maxAgeMs policy) (clockSkewMs policy) in
  let bounded := match deadline with None => acceptUntil | Some d => Z.min d acceptUntil end in
  let retain := safeAdd bounded (clusterClockGuardMs policy) in
  if negb active then Ok (mkTiming StaleKey deadline (Some bounded) retain)
  else if nowMs + clockSkewMs policy <? timestampMs then
    Ok (mkTiming Future deadline (Some bounded) retain)
  else
    match deadline with
    | None => Ok (mkTiming Expired None None None)
    | Some _ =>
        Ok (mkTiming (if bounded <=? nowMs then Expired else Valid) deadline (Some bounded) retain)
    end.

Definition maxVerifierRemainingMs (policy : ResolvedTimePolicy) : Z :=
  maxAgeMs policy + 2 * clockSkewMs policy + clusterClockGuardMs policy.

Definition maxStoreAdmissionMs (policy : ResolvedTimePolicy) : Z :=
  Z.min GLOBAL_MAX_RETENTION_MS
    (maxAgeMs policy + 2 * clockSkewMs policy + 2 * clusterClockGuardMs policy).

Definition checkRetentionAdmissible (retainUntil now : num) (policy : ResolvedTimePolicy)
    : pres RetentionAdmission :=
  let* retainUntilMs := assertTimestampMs (js "retainUntilMs") (JNum retainUntil) in
  let* nowMs := assertTimestampMs (js "nowMs") (JNum now) in
  if retainUntilMs <=? nowMs then Ok RetentionExpired
  else
    let remaining := retainUntilMs - nowMs in
    if negb (is_safe remaining) then Ok Overlong
    else if GLOBAL_MAX_RETENTION_MS <? remaining then Ok Overlong
    else if maxStoreAdmissionMs policy <? remaining then Ok Overlong
    else Ok Admissible.

(** * Lemmas *)

Definition policy_ok (p : ResolvedTimePolicy) : Prop :=
  MIN_MAX_AGE_MS <= maxAgeMs p <= MAX_MAX_AGE_MS
  ∧ MIN_CLOCK_SKEW_MS <= clockSkewMs p <= MAX_CLOCK_SKEW_MS
  ∧ MIN_CLUSTER_CLOCK_GUARD_MS <= clusterClockGuardMs p <= MAX_CLUSTER_CLOCK_GUARD_MS.

(** Unfold the numeric constants for [lia]. *)
Ltac unfold_bounds :=
  unfold policy_ok, MIN_MAX_AGE_MS, MAX_MAX_AGE_MS, MIN_CLOCK_SKEW_MS, MAX_CLOCK_SKEW_MS,
    MIN_CLUSTER_CLOCK_GUARD_MS, MAX_CLUSTER_CLOCK_GUARD_MS, GLOBAL_MAX_RETENTION_MS,
    maxVerifierRemainingMs, maxStoreAdmissionMs, GLOBAL_MAX_RETENTION_MS in *.

Lemma policy_field_range name v min max z :
  assertPolicyField name v min max = Ok z → min <= z <= max.
Proof. unfold assertPolicyField. intros H. repeat case_match; simplify_eq. bool_prop. lia. Qed.

Lemma policy_ok_resolved v p : resolveTimePolicy v = Ok p → policy_ok p.
Proof.
  unfold resolveTimePolicy. cbv zeta. intros H. res_inv.
  repeat match goal with H : assertPolicyField _ _ _ _ = Ok _ |- _ => apply policy_field_range in H end.
  done.
Qed.

Definition is_timestamp (n : num) (z : Z) : Prop := safe_integer n = Some z ∧ 0 <= z.

Lemma timestamp_Ok name n z : assertTimestampMs name (JNum n) = Ok z ↔ is_timestamp n z.
Proof.
  unfold assertTimestampMs, is_timestamp. split.
  - intros H. repeat case_match; simplify_eq. bool_prop. done.
  - intros [-> Hz]. by rewrite (proj2 (Z.ltb_ge _ _)).
Qed.

Lemma timestamp_max n z : is_timestamp n z → z <= MAX_SAFE_INTEGER.
Proof. intros H. apply (timestamp_Ok []) in H. apply timestamp_safe in H as (? & _ & _ & ?). lia. Qed.

Lemma is_safe_iff z : is_safe z = true ↔ - MAX_SAFE_INTEGER <= z <= MAX_SAFE_INTEGER.
Proof. unfold is_safe. rewrite Z.leb_le. lia. Qed.

Section timing.
Context (p : ResolvedTimePolicy) (Hp : policy_ok p).
Context (nt nn nf nu : num) (t now from until : Z).
Context (Ht : is_timestamp nt t) (Hn : is_timestamp nn now)
      (Hf : is_timestamp nf from) (Hu : is_timestamp nu until) (Hwin : from < until).

(** The documented acceptance condition and the deadlines of an accepted proof. *)
Definition accepted : Prop :=
from <= now < until ∧ t <= now + clockSkewMs p
∧ t + maxAgeMs p + clockSkewMs p <= MAX_SAFE_INTEGER
∧ now < t + maxAgeMs p + clockSkewMs p.

Definition deadline_of : Z := Z.min (t + maxAgeMs p + clockSkewMs p) until.

Lemma evaluate_unfold :
  evaluateProofTiming nt nn nf nu p =
  let deadline := safeAdd3 t (maxAgeMs p) (clockSkewMs p) in
  let bounded := match deadline with None => until | Some d => Z.min d until end in
  let retain := safeAdd bounded (clusterClockGuardMs p) in
  if negb ((from <=? now) && (now <? until)) then Ok (mkTiming StaleKey deadline (Some bounded) retain)
  else if now + clockSkewMs p <? t then Ok (mkTiming Future deadline (Some bounded) retain)
  else match deadline with
     | None => Ok (mkTiming Expired None None None)
     | Some _ => Ok (mkTiming (if bounded <=? now then Expired else Valid) deadline (Some bounded) retain)
     end.
Proof.
  unfold evaluateProofTiming.
  rewrite (proj2 (timestamp_Ok _ _ _) Ht), (proj2 (timestamp_Ok _ _ _) Hn),
    (proj2 (timestamp_Ok _ _ _) Hf), (proj2 (timestamp_Ok _ _ _) Hu).
  cbn [res_bind]. rewrite (proj2 (Z.leb_gt _ _)) by done. done.
Qed.

Lemma evaluate_valid r :
  evaluateProofTiming nt nn nf nu p = Ok r → decision r = Valid →
  accepted ∧ timeDeadlineMs r = Some (t + maxAgeMs p + clockSkewMs p)
  ∧ proofDeadlineMs r = Some deadline_of
  ∧ retainUntilMs r = safeAdd deadline_of (clusterClockGuardMs p).
Proof.
  rewrite evaluate_unfold. unfold accepted, deadline_of, safeAdd3. cbv zeta.
  destruct Hn, Ht, Hu. unfold_bounds.
  intros He Hv. repeat (case_match; bool_prop; simplify_eq/=);
    match goal with H : is_safe _ = true |- _ => apply is_safe_iff in H end.
  split_and!; try done; lia.
Qed.

Lemma accepted_valid :
  accepted → evaluateProofTiming nt nn nf nu p
  = Ok (mkTiming Valid (Some (t + maxAgeMs p + clockSkewMs p)) (Some deadline_of)
          (safeAdd deadline_of (clusterClockGuardMs p))).
Proof.
  intros (Ha & Hb & Hc & Hd). rewrite evaluate_unfold. unfold safeAdd3, deadline_of. cbv zeta.
  destruct Hn, Ht, Hu. unfold_bounds.
  rewrite (proj2 (is_safe_iff _)) by lia. rewrite (proj2 (Z.leb_le _ _)), (proj2 (Z.ltb_lt _ _)) by lia.
  cbn [negb andb]. rewrite (proj2 (Z.ltb_ge _ _)), (proj2 (Z.leb_gt _ _)) by lia. done.
Qed.

(** [evaluateProofTiming] never throws on timestamps with a proper window, and
  answers in the documented order: an inactive key is stale whatever the
  timestamp, then a timestamp ahead of the skew is future, then an elapsed
  (or unrepresentable) deadline is expired, else the proof is valid. *)
Theorem evaluate_decision :
  ∃ r, evaluateProofTiming nt nn nf nu p = Ok r
  ∧ decision r =
  if decide (from <= now < until) then
    if decide (now + clockSkewMs p < t) then Future
    else if decide (t + maxAgeMs p + clockSkewMs p <= MAX_SAFE_INTEGER
                    ∧ now < t + maxAgeMs p + clockSkewMs p) then Valid
    else Expired
  else StaleKey.
Proof.
  rewrite evaluate_unfold. unfold safeAdd3. cbv zeta. destruct Hn, Ht, Hu. unfold_bounds.
  destruct (is_safe _) eqn:Hs; [apply is_safe_iff in Hs|rewrite <- not_true_iff_false, is_safe_iff in Hs];
  repeat case_decide; repeat (case_eqn; bool_prop); try (eexists; split; [done|]; cbn);
    repeat (case_eqn; bool_prop); try done; lia.
Qed.
End timing.

Lemma evaluate_inputs nt nn nf nu p r :
  evaluateProofTiming nt nn nf nu p = Ok r →
  ∃ t now from until, is_timestamp nt t ∧ is_timestamp nn now ∧ is_timestamp nf from
    ∧ is_timestamp nu until ∧ from < until.
Proof.
  unfold evaluateProofTiming. intros H.
  apply res_bind_Ok in H as (t & Ht%timestamp_Ok & H).
  apply res_bind_Ok in H as (now & Hn%timestamp_Ok & H).
  apply res_bind_Ok in H as (from & Hf%timestamp_Ok & H).
  apply res_bind_Ok in H as (until & Hu%timestamp_Ok & H).
  apply res_bind_Ok in H as ([] & Hw%guard_Ok & H). bool_prop. eauto 10.
Qed.

(** A valid timing with all its facts, for any numeric inputs. *)
Lemma valid_timing nt nn nf nu p r :
  policy_ok p → evaluateProofTiming nt nn nf nu p = Ok r → decision r = Valid →
  ∃ t now from until, is_timestamp nt t ∧ is_timestamp nn now ∧ is_timestamp nf from
    ∧ is_timestamp nu until ∧ from < until ∧ accepted p t now from until
    ∧ proofDeadlineMs r = Some (deadline_of p t until)
    ∧ retainUntilMs r = safeAdd (deadline_of p t until) (clusterClockGuardMs p).
Proof.
  intros Hp H Hv. destruct (evaluate_inputs _ _ _ _ _ _ H) as (t & now & from & until & Ht & Hn & Hf & Hu & Hw).
  edestruct (evaluate_valid p nt nn nf nu t now from until) as (Ha & _ & Hd & Hr); try eassumption.
  exists t, now, from, until. done.
Qed.

Lemma is_timestamp_inj n a b : is_timestamp n a → is_timestamp n b → a = b.
Proof. intros [Ha _] [Hb _]. congruence. Qed.

Lemma safeAdd_Some a b r : safeAdd a b = Some r → r = a + b ∧ is_safe r = true.
Proof. unfold safeAdd. intros. by case_match; simplify_eq. Qed.

(** Two acceptances of one proof compute the same retention deadline, which lies
    beyond the guard of the later acceptance and within the global cap. *)
Lemma same_retention p nt n1 n2 nf nu r1 r2 R now2 :
  policy_ok p →
  evaluateProofTiming nt n1 nf nu p = Ok r1 → decision r1 = Valid → retainUntilMs r1 = Some R →
  evaluateProofTiming nt n2 nf nu p = Ok r2 → decision r2 = Valid → is_timestamp n2 now2 →
  retainUntilMs r2 = Some R ∧ is_timestamp (num_of_Z R) R
  ∧ now2 + clusterClockGuardMs p < R
  ∧ R <= now2 + maxAgeMs p + 2 * clockSkewMs p + clusterClockGuardMs p.
Proof.
  intros Hp H1 V1 HR H2 V2 Hn2.
  destruct (valid_timing _ _ _ _ _ _ Hp H1 V1) as (t & now1 & from & until & Ht & _ & _ & Hu & _ & _ & _ & Hr).
  destruct (valid_timing _ _ _ _ _ _ Hp H2 V2)
    as (t' & now' & from' & until' & Ht' & Hn' & _ & Hu' & _ & (Ha & Hb & _ & Hd) & _ & Hr').
  rewrite (is_timestamp_inj _ _ _ Ht' Ht) in *. rewrite (is_timestamp_inj _ _ _ Hu' Hu) in *.
  rewrite (is_timestamp_inj _ _ _ Hn' Hn2) in *.
  rewrite HR in Hr. symmetry in Hr. rewrite Hr in Hr'. apply safeAdd_Some in Hr as [-> Hsafe].
  pose proof Hn2 as [_ Hn0]. unfold deadline_of in *. unfold_bounds.
  split; [done|]. split; [split; [by apply safe_integer_of_Z|lia]|lia].
Qed.

(** While some verifier can still accept the proof, no store whose clock is
    within the guard of that verifier has let its reservation expire. *)
Theorem retention_covers_acceptance (p : ResolvedTimePolicy) (nt n1 n2 nf nu : num)
    (r1 r2 : ProofTiming) (R now2 store : Z) :
  policy_ok p →
  evaluateProofTiming nt n1 nf nu p = Ok r1 → decision r1 = Valid → retainUntilMs r1 = Some R →
  evaluateProofTiming nt n2 nf nu p = Ok r2 → decision r2 = Valid → is_timestamp n2 now2 →
  store <= now2 + clusterClockGuardMs p →
  store < R.
Proof.
  intros Hp H1 V1 HR H2 V2 Hn2 Hs.
  destruct (same_retention p nt n1 n2 nf nu r1 r2 R now2) as (_ & _ & ? & _); [done..|lia].
Qed.

(** A proof a verifier accepts is admissible at every store whose clock is within
    the guard: never expired there, never beyond the admission bound or the
    global 240 s cap, and within the verifier's own remaining bound. *)
Theorem accepted_proof_admissible (p : ResolvedTimePolicy) (nt nn nf nu ns : num)
    (r : ProofTiming) (R now store : Z) :
  policy_ok p →
  evaluateProofTiming nt nn nf nu p = Ok r → decision r = Valid → retainUntilMs r = Some R →
  is_timestamp nn now → is_timestamp ns store → Z.abs (store - now) <= clusterClockGuardMs p →
  checkRetentionAdmissible (num_of_Z R) ns p = Ok Admissible
  ∧ R - store <= GLOBAL_MAX_RETENTION_MS ∧ R - now <= maxVerifierRemainingMs p.
Proof.
  intros Hp H V HR Hn Hs Hguard.
  destruct (valid_timing _ _ _ _ _ _ Hp H V)
    as (t & now' & from & until & _ & Hn' & _ & _ & _ & (Ha & Hb & _ & Hd) & _ & Hr).
  rewrite (is_timestamp_inj _ _ _ Hn' Hn) in *. clear now' Hn'.
  rewrite HR in Hr. symmetry in Hr. apply safeAdd_Some in Hr as [E Hsafe].
  pose proof Hn as [_ Hn0]. pose proof Hs as [_ Hs0]. unfold deadline_of in E. unfold_bounds.
  split; [|lia]. unfold checkRetentionAdmissible.
  rewrite (proj2 (timestamp_Ok _ (num_of_Z R) R)), (proj2 (timestamp_Ok _ _ _) Hs).
  2: { split; [by apply safe_integer_of_Z|lia]. }
  apply is_safe_iff in Hsafe. cbn [res_bind]. unfold_bounds.
  rewrite (proj2 (Z.leb_gt _ _)), (proj2 (is_safe_iff _)) by (unfold MAX_SAFE_INTEGER in *; lia).
  cbn [negb]. rewrite !(proj2 (Z.ltb_ge _ _)) by lia. done.
Qed.

(** [checkRetentionAdmissible] decides by the exact remaining time. *)
Theorem admissible_iff (p : ResolvedTimePolicy) (nr nn : num) (R now : Z) :
  policy_ok p → is_timestamp nr R → is_timestamp nn now →
  checkRetentionAdmissible nr nn p = Ok
    (if decide (R <= now) then RetentionExpired
     else if decide (R - now <= maxAgeMs p + 2 * clockSkewMs p + 2 * clusterClockGuardMs p) then Admissible
     else Overlong).
Proof.
  intros Hp Hr Hn. unfold checkRetentionAdmissible.
  rewrite (proj2 (timestamp_Ok _ _ _) Hr), (proj2 (timestamp_Ok _ _ _) Hn). cbn [res_bind].
  pose proof (timestamp_max _ _ Hr). pose proof (timestamp_max _ _ Hn). destruct Hr, Hn.
  unfold_bounds. repeat case_decide.
  - by rewrite (proj2 (Z.leb_le _ _)).
  - rewrite (proj2 (Z.leb_gt _ _)), (proj2 (is_safe_iff _)) by lia. cbn [negb].
    rewrite !(proj2 (Z.ltb_ge _ _)) by lia. done.
  - rewrite (proj2 (Z.leb_gt _ _)), (proj2 (is_safe_iff _)) by lia. cbn [negb].
    case_match; [done|]. by rewrite (proj2 (Z.ltb_lt _ _)) by lia.
Qed.

(** * Concrete instances *)

Definition default_policy : ResolvedTimePolicy := mkPolicy 30000 5000 5000.
Definition example_timing : ProofTiming :=
  mkTiming Valid (Some 1035000) (Some 1035000) (Some 1040000).

Lemma default_policy_ok : policy_ok default_policy.
Proof. apply (policy_ok_resolved JUndef). vm_compute. done. Qed.

Lemma timestamp_num z : 0 <= z <= MAX_SAFE_INTEGER → is_timestamp (num_of_Z z) z.
Proof. intros Hz. split; [|lia]. apply safe_integer_of_Z. apply is_safe_iff. lia. Qed.

Lemma evaluate_decision_witness :
  ∃ r, evaluateProofTiming (num_of_Z 1000000) (num_of_Z 1034999) (num_of_Z 0) (num_of_Z 9000000)
         default_policy = Ok r ∧ decision r = Valid.
Proof.
  apply (evaluate_decision default_policy) with (t := 1000000) (now := 1034999) (from := 0) (until := 9000000);
    try (apply timestamp_num; done); try apply default_policy_ok; done.
Defined.

Lemma retention_covers_acceptance_witness : 1039999 < 1040000.
Proof.
  apply (retention_covers_acceptance default_policy (num_of_Z 1000000) (num_of_Z 1000000)
    (num_of_Z 1034999) (num_of_Z 0) (num_of_Z 9000000) example_timing example_timing 1040000 1034999);
    try (vm_compute; done); apply default_policy_ok.
Defined.

Lemma accepted_proof_admissible_witness :
  checkRetentionAdmissible (num_of_Z 1040000) (num_of_Z 996000) default_policy = Ok Admissible
  ∧ 1040000 - 996000 <= GLOBAL_MAX_RETENTION_MS ∧ 1040000 - 1000000 <= maxVerifierRemainingMs default_policy.
Proof.
  apply (accepted_proof_admissible default_policy (num_of_Z 1000000) (num_of_Z 1000000)
    (num_of_Z 0) (num_of_Z 9000000) (num_of_Z 996000) example_timing 1040000 1000000 996000);
    try (vm_compute; done); apply default_policy_ok.
Defined.

Lemma admissible_iff_witness :
  checkRetentionAdmissible (num_of_Z 1050001) (num_of_Z 1000000) default_policy = Ok Overlong.
Proof.
  apply (admissible_iff default_policy _ _ 1050001 1000000); try apply default_policy_ok;
    by apply timestamp_num.
Defined.
