(* ===== verification/AttestStore.v ===== *)
(** express-request-attestation, [stores/memory.ts]: the bounded in-memory replay
    store, an instance of [IndexedHeap] whose records are the retention deadlines. *)

From S2P Require Import Prelude JsValue JsJson AttestTypes AttestCanonical AttestCodec AttestTime IndexedHeap.

Definition MEMORY_ATTESTATION_STORE_DEFAULT_MAX_ENTRIES : Z := 50000.
Definition EXPIRY_SWEEP_BATCH_SIZE : nat := 64.
Definition STORE_OPTION_KEYS : list jsstr := [js "maxEntries"; js "now"].

Inductive store_error := StoreThrown (e : thrown) | AttestationCapacityError.
Inductive ReserveResult := Reserved | Duplicate | ReserveExpired.

#[export] Instance ReserveResult_eq_dec : EqDecision ReserveResult.
Proof. solve_decision. Defined.

(** The record of a reservation is its [retainUntilMs]. *)
Abbreviation StoreState := (HeapState Z).
Definition retention (r : Z) : Z := r.

(** The constructor: the capacity of the store (the clock is an argument of
    [reserve]). *)
Definition createMemoryAttestationStore (options : jsval) : pres Z :=
  let options := if is_undef options then JObj true [] else options in
  require (is_non_array_object options) "memory attestation store options must be an object" ;;;
  res_iter (λ key, guard (bool_decide (key ∈ STORE_OPTION_KEYS))
                     (protocolError (js "unknown memory attestation store option " ++ key)))
    (object_keys options) ;;;
  let* maxEntries :=
    match get_field options (js "maxEntries") with
    | JUndef => Ok MEMORY_ATTESTATION_STORE_DEFAULT_MAX_ENTRIES
    | JNum n =>
        match safe_integer n with
        | Some z => require (0 <? z)
                      "memory attestation store maxEntries must be a positive safe integer" ;;; Ok z
        | None => throw "memory attestation store maxEntries must be a positive safe integer"
        end
    | _ => throw "memory attestation store maxEntries must be a positive safe integer"
    end in
  match get_field options (js "now") with
  | JUndef | JFun _ => Ok maxEntries
  | _ => throw "memory attestation store now must be a function"
  end.

(** The checks of [reserve] before it touches the store: [None] is the early
    ['expired'], otherwise the key, the deadline and the store clock. *)
Definition reserve_checks (now : num) (input : jsval) : pres (option (jsstr * Z * Z)) :=
  require (is_non_array_object input) "attestation store reserve input must be an object" ;;;
  let retain := nullish_or (get_field input (js "retainUntilMs")) (get_field input (js "retainUntil")) in
  let* nowMs :=
    match safe_integer now with
    | Some z => require (negb (z <? 0))
                  "attestation store clock must return a non-negative safe integer" ;;; Ok z
    | None => throw "attestation store clock must return a non-negative safe integer"
    end in
  let* replayKey := validateReplayKey (get_field input (js "replayKey")) in
  require (negb (is_undef retain)) "retainUntilMs must be a non-negative safe integer" ;;;
  let* retainUntilMs := assertTimestampMs (js "retainUntilMs") retain in
  if retainUntilMs <=? nowMs then Ok None
  else
    guard (negb (GLOBAL_MAX_RETENTION_MS <? retainUntilMs - nowMs))
      (protocolError (js "retainUntilMs exceeds the " ++ dec_of_Z GLOBAL_MAX_RETENTION_MS
                        ++ js " ms global retention cap")) ;;;
    Ok (Some (replayKey, retainUntilMs, nowMs)).

(** The body of [reserve] after the checks. *)
Definition reserve_admit (maxEntries : Z) (replayKey : jsstr) (retainUntilMs nowMs : Z)
    (st : StoreState) : option (result store_error ReserveResult * StoreState) :=
  let existing := lookup_entry st replayKey in
  if match existing with Some e => nowMs <? node_rec e | None => false end
  then Some (Ok Duplicate, st)
  else
    st1 ← match existing with
          | Some e => heap_remove retention st (node_index e)
          | None => Some st
          end;
    st2 ← heap_sweep retention EXPIRY_SWEEP_BATCH_SIZE (λ e, e <=? nowMs) st1;
    if maxEntries <=? heap_size st2 then Some (Err AttestationCapacityError, st2)
    else
      st3 ← heap_push retention st2 replayKey retainUntilMs;
      Some (Ok Reserved, st3).

Definition reserve (maxEntries : Z) (now : num) (input : jsval) (st : StoreState)
    : option (result store_error ReserveResult * StoreState) :=
  match reserve_checks now input with
  | Err e => Some (Err (StoreThrown e), st)
  | Ok None => Some (Ok ReserveExpired, st)
  | Ok (Some (replayKey, retainUntilMs, nowMs)) =>
      reserve_admit maxEntries replayKey retainUntilMs nowMs st
  end.

(** A sequence of calls on one store object, in the order the event loop runs
    them: [reserve] has no await before its insertion. *)
Fixpoint run (maxEntries : Z) (calls : list (num * jsval)) (st : StoreState)
    : option (list (result store_error ReserveResult) * StoreState) :=
  match calls with
  | [] => Some ([], st)
  | (now, input) :: calls =>
      '(o, st1) ← reserve maxEntries now input st;
      '(os, st2) ← run maxEntries calls st1;
      Some (o :: os, st2)
  end.

(** * Abstract specification: a map from replay keys to deadlines *)

(** [m'] drops only expired entries of [m], at most one batch, and drops all of
    them unless the batch was used up. *)
Definition reclaimed (now : Z) (m m' : gmap jsstr Z) : Prop :=
  m' ⊆ m ∧ (∀ k e, m !! k = Some e → now < e → m' !! k = Some e)
  ∧ (size m <= size m' + EXPIRY_SWEEP_BATCH_SIZE)%nat
  ∧ ((∀ k e, m' !! k = Some e → now < e) ∨ size m = (size m' + EXPIRY_SWEEP_BATCH_SIZE)%nat).

Inductive admits (max : Z) (k : jsstr) (r now : Z) (m : gmap jsstr Z)
    : result store_error ReserveResult → gmap jsstr Z → Prop :=
  | admits_duplicate e : m !! k = Some e → now < e → admits max k r now m (Ok Duplicate) m
  | admits_reserved m' :
      (∀ e, m !! k = Some e → e <= now) → reclaimed now (delete k m) m' →
      Z.of_nat (size m') < max →
      admits max k r now m (Ok Reserved) (<[k := r]> m')
  | admits_full m' :
      (∀ e, m !! k = Some e → e <= now) → reclaimed now (delete k m) m' →
      max <= Z.of_nat (size m') →
      admits max k r now m (Err AttestationCapacityError) m'.

Definition store_inv (max : Z) (st : StoreState) : Prop :=
  wf_heap retention st ∧ Z.of_nat (size (view st)) <= max.

Lemma heap_size_view st : wf_heap retention st → heap_size st = Z.of_nat (size (view st)).
Proof. intros [Hs _]. unfold heap_size. by rewrite view_size. Qed.

Lemma remove_existing st k now :
  wf_heap retention st →
  (∀ e, view st !! k = Some e → e <= now) →
  ∃ st1, match lookup_entry st k with
         | Some e => heap_remove retention st (node_index e)
         | None => Some st
         end = Some st1 ∧ wf_heap retention st1 ∧ view st1 = delete k (view st).
Proof.
  intros Hwf Hk. destruct (lookup_entry st k) as [n|] eqn:E.
  - destruct (remove_entry_spec retention st k n Hwf E) as (st1 & ? & ? & ?). eauto.
  - exists st. split_and!; [done..|]. rewrite delete_id; [done|]. by rewrite lookup_entry_view, E.
Qed.

Lemma reservation_admit_spec max k r now st :
  wf_heap retention st →
  ∃ o st', reserve_admit max k r now st = Some (o, st') ∧ wf_heap retention st'
    ∧ admits max k r now (view st) o (view st').
Proof.
  intros Hwf. unfold reserve_admit.
  destruct (match lookup_entry st k with Some e => now <? node_rec e | None => false end) eqn:Hlive.
  { exists (Ok Duplicate), st. split_and!; [done..|].
    destruct (lookup_entry st k) as [n|] eqn:E; [|done]. bool_prop.
    apply (admits_duplicate _ _ _ _ _ (node_rec n)); [|done]. by rewrite lookup_entry_view, E. }
  assert (∀ e, view st !! k = Some e → e <= now) as Hexp.
  { intros e. rewrite lookup_entry_view. destruct (lookup_entry st k); [|done].
    intros [= <-]. by bool_prop. }
  destruct (remove_existing st k now Hwf Hexp) as (st1 & -> & Hwf1 & Hv1). cbn [mbind option_bind].
  destruct (sweep_spec retention EXPIRY_SWEEP_BATCH_SIZE (λ e, e <=? now) st1)
    as (st2 & -> & Hwf2 & Hsub & Hkeep & Hsize & Hall); [done|intros; bool_prop; apply Z.leb_le; lia|].
  cbn [mbind option_bind]. rewrite heap_size_view by done.
  assert (reclaimed now (delete k (view st)) (view st2)) as Hrec.
  { rewrite <- Hv1. split_and!; [done| |done|].
    - intros k' e He Hlt. apply Hkeep; [done|]. by apply Z.leb_gt.
    - destruct Hall as [Hall|]; [left|by right]. intros k' e He. by apply Z.leb_gt, (Hall k'). }
  destruct (Z.leb_spec max (Z.of_nat (size (view st2)))).
  { eexists _, st2. split_and!; [done..|]. by apply admits_full. }
  destruct (push_spec retention st2 k r) as (st3 & -> & Hwf3 & Hv3); [done| |].
  { apply eq_None_not_Some. intros [e He]. eapply lookup_weaken in He; [|apply Hsub].
    by rewrite Hv1, lookup_delete_eq in He. }
  cbn [mbind option_bind]. eexists _, st3. split_and!; [done..|]. rewrite Hv3. by apply admits_reserved.
Qed.

Lemma reclaimed_size now m m' : reclaimed now m m' → (size m' <= size m)%nat.
Proof. intros (Hsub & _). by apply map_subseteq_size. Qed.

Lemma admits_size max k r now m o m' :
  admits max k r now m o m' → Z.of_nat (size m) <= max → Z.of_nat (size m') <= max.
Proof.
  intros H Hm. destruct H as [e He Hlt|m' He Hr Hlt|m' He Hr Hlt].
  - done.
  - destruct (m' !! k) eqn:E; [rewrite map_size_insert_Some by eauto|rewrite map_size_insert_None by done]; lia.
  - apply reclaimed_size in Hr. assert (size (delete k m) <= size m)%nat; [|lia].
    apply map_subseteq_size, delete_subseteq.
Qed.

(** Entries other than [k] that are live at [now] survive any admission. *)
Lemma admits_live max k r now m o m' k' e :
  admits max k r now m o m' → m !! k' = Some e → now < e →
  m' !! k' = Some e ∧ (k' = k → o = Ok Duplicate).
Proof.
  intros H Hk Hlt. destruct H as [e' He' Hlt'|m' He Hr Hs|m' He Hr Hs].
  - done.
  - assert (k' ≠ k) as Hne by (intros ->; specialize (He e Hk); lia). split; [|done].
    rewrite lookup_insert_ne by done. destruct Hr as (_ & Hr & _). apply Hr; [|done].
    by rewrite lookup_delete_ne.
  - assert (k' ≠ k) as Hne by (intros ->; specialize (He e Hk); lia). split; [|done].
    destruct Hr as (_ & Hr & _). apply Hr; [|done]. by rewrite lookup_delete_ne.
Qed.

Lemma reserve_total max now input st :
  wf_heap retention st →
  ∃ o st', reserve max now input st = Some (o, st') ∧ wf_heap retention st'
    ∧ match reserve_checks now input with
      | Ok (Some (k, r, t)) => admits max k r t (view st) o (view st')
      | _ => st' = st ∧ o ≠ Ok Reserved ∧ o ≠ Ok Duplicate
      end.
Proof.
  intros Hwf. unfold reserve. destruct (reserve_checks now input) as [[[[k r] t]|]|e].
  - by apply reservation_admit_spec.
  - eauto 10.
  - eauto 10.
Qed.

Lemma reservations_total max calls st :
  store_inv max st → ∃ os st', run max calls st = Some (os, st') ∧ store_inv max st'
    ∧ length os = length calls.
Proof.
  revert st. induction calls as [|c calls IH]; intros st [Hwf Hsize].
  { exists [], st. done. }
  destruct c as [tn input].
  cbn [run]. destruct (reserve_total max tn input st Hwf) as (o & st1 & -> & Hwf1 & Ho).
  cbn [mbind option_bind].
  assert (store_inv max st1) as Hinv1.
  { split; [done|]. destruct (reserve_checks tn input) as [[[[k r] t]|]|e];
      [by eapply admits_size|by destruct Ho as [-> _]..]. }
  destruct (IH st1 Hinv1) as (os & st2 & -> & ? & ?). cbn [mbind option_bind].
  eexists _, _. split_and!; [done..|]. cbn. by f_equal.
Qed.

(** A reservation stays while the clocks of the calls are before its deadline. *)
Lemma reservations_keep max calls st os st' k e :
  wf_heap retention st → view st !! k = Some e →
  Forall (λ c, ∀ t, safe_integer c.1 = Some t → t < e) calls →
  run max calls st = Some (os, st') → wf_heap retention st' ∧ view st' !! k = Some e.
Proof.
  revert st os. induction calls as [|c calls IH]; intros st os Hwf Hk Hc Hrun;
    [cbn in Hrun; by simplify_eq|].
  destruct c as [tn input].
  apply Forall_cons in Hc as [Hnow Hc]. cbn [run] in Hrun.
  destruct (reserve_total max tn input st Hwf) as (o & st1 & Hres & Hwf1 & Ho).
  rewrite Hres in Hrun. cbn [mbind option_bind] in Hrun.
  destruct (run max calls st1) as [[os1 st2]|] eqn:Hrun1; [|done]. cbn in Hrun. simplify_eq.
  eapply (IH st1 os1); [done| |done..].
  destruct (reserve_checks tn input) as [[[[k' r'] t']|]|e'] eqn:Hchk; [|by destruct Ho as [-> _]..].
  eapply admits_live; [done..|]. apply Hnow. unfold reserve_checks in Hchk. cbv zeta in Hchk.
  apply res_bind_Ok in Hchk as (_ & _ & Hchk). apply res_bind_Ok in Hchk as (t & Ht & Hchk).
  apply res_bind_Ok in Hchk as (kk & _ & Hchk). apply res_bind_Ok in Hchk as (_ & _ & Hchk).
  apply res_bind_Ok in Hchk as (rr & _ & Hchk). case_match; [done|].
  apply res_bind_Ok in Hchk as (_ & _ & Hchk). simplify_eq.
  cbn [fst]. destruct (safe_integer tn) as [z|]; [|done].
  apply res_bind_Ok in Ht as (_ & _ & Ht). by simplify_eq.
Qed.

(** * Properties *)

(** C22: Every call on a well-formed store returns (no undefined heap slot, no loop
    left unfinished), keeps the invariant and the capacity, and acts on the map of
    deadlines as specified: a live key is a duplicate and nothing changes; a free
    or expired key is inserted after dropping only expired entries, at most one
    batch; a full store refuses without dropping a live entry. *)
Theorem reserve_refines (max : Z) (now : num) (input : jsval) (st : StoreState) :
  store_inv max st →
  ∃ o st', reserve max now input st = Some (o, st') ∧ store_inv max st'
    ∧ match reserve_checks now input with
      | Ok (Some (k, r, t)) => admits max k r t (view st) o (view st')
      | Ok None => o = Ok ReserveExpired ∧ st' = st
      | Err e => o = Err (StoreThrown e) ∧ st' = st
      end.
Proof.
  intros [Hwf Hsize]. destruct (reserve_total max now input st Hwf) as (o & st' & Hres & Hwf' & Ho).
  exists o, st'. split; [done|]. unfold reserve in Hres.
  destruct (reserve_checks now input) as [[[[k r] t]|]|e].
  - split; [|done]. split; [done|]. by eapply admits_size.
  - simplify_eq. done.
  - simplify_eq. done.
Qed.

Lemma reserve_wf max n i st o st' :
  wf_heap retention st → reserve max n i st = Some (o, st') → wf_heap retention st'.
Proof.
  intros Hwf H. destruct (reserve_total max n i st Hwf) as (? & ? & E & ? & _).
  rewrite E in H. by simplify_eq.
Qed.

Lemma reserve_reserved max n i st st' k r t :
  wf_heap retention st → reserve_checks n i = Ok (Some (k, r, t)) →
  reserve max n i st = Some (Ok Reserved, st') → view st' !! k = Some r.
Proof.
  intros Hwf C H. destruct (reserve_total max n i st Hwf) as (? & ? & E & _ & Adm).
  rewrite E in H. rewrite C in Adm. simplify_eq. inversion Adm. by rewrite lookup_insert_eq.
Qed.

(** From the empty store every sequence of calls runs to the end, one answer per
    call, never exceeding the capacity. *)
Theorem run_bounded (max : Z) (calls : list (num * jsval)) :
  0 <= max →
  ∃ os st, run max calls empty_heap = Some (os, st) ∧ length os = length calls
    ∧ heap_size st <= max.
Proof.
  intros Hmax. destruct (reservations_total max calls empty_heap) as (os & st & Hrun & [Hwf Hs] & Hl).
  - split; [apply empty_wf|]. done.
  - exists os, st. split_and!; [done..|]. by rewrite heap_size_view.
Qed.

(** One winner: once [k] is reserved until [r], another call for [k] made while
    all clocks in between are before [r] answers ['duplicate']. *)
Theorem reserved_once (max : Z) (n1 n2 : num) (i1 i2 : jsval) (k : jsstr) (r r2 t1 t2 : Z)
    (mid : list (num * jsval)) (st st1 st2 st3 : StoreState) (os : list _) (o : _) :
  wf_heap retention st →
  reserve_checks n1 i1 = Ok (Some (k, r, t1)) → reserve max n1 i1 st = Some (Ok Reserved, st1) →
  run max mid st1 = Some (os, st2) →
  Forall (λ c, ∀ t, safe_integer c.1 = Some t → t < r) mid → t2 < r →
  reserve_checks n2 i2 = Ok (Some (k, r2, t2)) → reserve max n2 i2 st2 = Some (o, st3) →
  o = Ok Duplicate.
Proof.
  intros Hwf H1 R1 Hmid Hclk Ht2 H2 R2.
  destruct (reservations_keep max mid st1 os st2 k r) as [Hwf2 Hk2];
    [by eapply reserve_wf|by eapply reserve_reserved|done..|].
  destruct (reserve_total max n2 i2 st2 Hwf2) as (o2 & s2 & E2 & _ & A2).
  rewrite E2 in R2. rewrite H2 in A2. simplify_eq. by eapply admits_live.
Qed.

(** The call the verifier's middleware makes for an accepted proof. *)
Definition reserve_input (replayKey : jsstr) (R : Z) : jsval :=
  JObj true [(js "replayKey", JStr replayKey); (js "retainUntilMs", JNum (num_of_Z R))].

Lemma reserve_checks_input k R n t :
  is_ok (validateReplayKey (JStr k)) = true → is_timestamp n t → is_timestamp (num_of_Z R) R →
  t < R → R - t <= GLOBAL_MAX_RETENTION_MS →
  reserve_checks n (reserve_input k R) = Ok (Some (k, R, t)).
Proof.
  intros Hk [Hn Ht] HR Hlt Hcap. unfold reserve_checks, reserve_input. cbv zeta.
  change (get_field _ (js "replayKey")) with (JStr k).
  change (nullish_or _ _) with (JNum (num_of_Z R)).
  cbn [is_non_array_object require guard res_bind is_undef negb]. rewrite Hn. unfold require.
  rewrite (proj2 (Z.ltb_ge _ _)) by done. cbn [negb guard res_bind].
  destruct (validateReplayKey (JStr k)) as [k'|] eqn:Ek; [|done]. cbn [res_bind guard].
  rewrite (proj2 (timestamp_Ok _ _ _) HR). cbn [res_bind].
  rewrite (proj2 (Z.leb_gt _ _)), (proj2 (Z.ltb_ge _ _)) by done. cbn [negb guard res_bind].
  unfold validateReplayKey in Ek. by pres_inv.
Qed.

Lemma checked_key k R n x :
  reserve_checks n (reserve_input k R) = Ok x → is_ok (validateReplayKey (JStr k)) = true.
Proof.
  unfold reserve_checks. cbv zeta. change (get_field _ (js "replayKey")) with (JStr k). intros H.
  apply res_bind_Ok in H as (? & _ & H). apply res_bind_Ok in H as (? & _ & H).
  apply res_bind_Ok in H as (? & -> & _). done.
Qed.

Lemma reserved_checks max k R n st st' :
  reserve max n (reserve_input k R) st = Some (Ok Reserved, st') →
  ∃ t, reserve_checks n (reserve_input k R) = Ok (Some (k, R, t)).
Proof.
  unfold reserve. destruct (reserve_checks n (reserve_input k R)) as [[[[k' R'] t]|]|e] eqn:E; try done.
  intros _. exists t. unfold reserve_checks in E. cbv zeta in E.
  change (get_field _ (js "replayKey")) with (JStr k) in E.
  change (nullish_or _ _) with (JNum (num_of_Z R)) in E.
  apply res_bind_Ok in E as (? & _ & E). apply res_bind_Ok in E as (t' & _ & E).
  apply res_bind_Ok in E as (k'' & Hk & E). apply res_bind_Ok in E as (? & _ & E).
  apply res_bind_Ok in E as (R'' & HR%timestamp_Ok & E). case_match; [done|].
  apply res_bind_Ok in E as (? & _ & E). injection E as -> -> ->.
  destruct HR as [HR _]. unfold validateReplayKey in Hk. pres_inv.
  unfold safe_integer, num_of_Z in HR. rewrite Q_to_Z_inject in HR. cbn in HR.
  case_match; [|done]. by injection HR as ->.
Qed.

(** End to end: a proof whose replay key was reserved with the deadline computed
    at its first acceptance is refused as a duplicate whenever a verifier still
    finds it valid, as long as the store clock stays within the cluster guard. *)
Lemma replay_refused (p : ResolvedTimePolicy) (nt n1 n2 nf nu c1 c2 : num) (r1 r2 : ProofTiming)
    (R R2 now2 t1 t2 : Z) (k : jsstr) (max : Z) (mid : list (num * jsval))
    (st st1 st2 st3 : StoreState) (os : list _) (o : _) :
  policy_ok p → wf_heap retention st →
  evaluateProofTiming nt n1 nf nu p = Ok r1 → decision r1 = Valid → retainUntilMs r1 = Some R →
  reserve_checks c1 (reserve_input k R) = Ok (Some (k, R, t1)) →
  reserve max c1 (reserve_input k R) st = Some (Ok Reserved, st1) →
  run max mid st1 = Some (os, st2) →
  evaluateProofTiming nt n2 nf nu p = Ok r2 → decision r2 = Valid → retainUntilMs r2 = Some R2 →
  is_timestamp n2 now2 → is_timestamp c2 t2 →
  Z.abs (t2 - now2) <= clusterClockGuardMs p →
  Forall (λ c, ∀ t, safe_integer c.1 = Some t → t <= now2 + clusterClockGuardMs p) mid →
  reserve max c2 (reserve_input k R2) st2 = Some (o, st3) →
  o = Ok Duplicate.
Proof.
  intros Hp Hwf H1 V1 HR1 C1 A1 Hmid H2 V2 HR2 Hn2 Hc2 Hguard Hclk A2.
  destruct (same_retention p nt n1 n2 nf nu r1 r2 R now2) as (HR & Hts & Hlo & Hhi); [done..|].
  assert (R2 = R) as -> by congruence.
  assert (view st1 !! k = Some R) as Hk by (by eapply reserve_reserved).
  assert (wf_heap retention st1) as Hwf1 by (by eapply reserve_wf).
  destruct (reservations_keep max mid st1 os st2 k R) as [Hwf2 Hk2]; [done|done| |done|].
  { eapply Forall_impl; [exact Hclk|]. cbv beta. intros c Hc tc Htc. specialize (Hc _ Htc). lia. }
  assert (reserve_checks c2 (reserve_input k R) = Ok (Some (k, R, t2))) as C2.
  { apply reserve_checks_input; [by eapply checked_key|done|done| |]; unfold_bounds; lia. }
  destruct (reserve_total max c2 (reserve_input k R) st2 Hwf2) as (o2 & s2 & E2 & _ & Adm2).
  rewrite E2 in A2. rewrite C2 in Adm2. simplify_eq. eapply admits_live; [done..|lia|done].
Qed.

(** * Concrete instances *)

Definition example_key : jsstr := js "att:v1:00ff".

(** The state after a call that returns. *)
Definition after (c : option (result store_error ReserveResult * StoreState)) : StoreState :=
  match c with Some (_, st) => st | None => empty_heap end.
Definition example_store : StoreState :=
  after (reserve 2 (num_of_Z 1000000) (reserve_input example_key 1040000) empty_heap).
(** One other admission in between. *)
Definition example_mid : list (num * jsval) :=
  [(num_of_Z 1000500, reserve_input (js "att:v1:ab") 1040500)].
Definition example_store' : StoreState :=
  match run 2 example_mid example_store with Some (_, st) => st | None => empty_heap end.

Lemma reserve_refines_witness :
  ∃ o st', reserve 2 (num_of_Z 1000000) (reserve_input example_key 1040000) empty_heap = Some (o, st')
    ∧ store_inv 2 st' ∧ admits 2 example_key 1040000 1000000 ∅ o (view st').
Proof.
  destruct (reserve_refines 2 (num_of_Z 1000000) (reserve_input example_key 1040000) empty_heap)
    as (o & st' & H1 & H2 & H3).
  - split; [apply empty_wf|]. vm_compute. done.
  - exists o, st'. split; [exact H1|]. split; [exact H2|].
    replace (reserve_checks (num_of_Z 1000000) (reserve_input example_key 1040000))
      with (Ok (E:=thrown) (Some (example_key, 1040000, 1000000))) in H3 by (vm_compute; done).
    exact H3.
Defined.

Lemma run_bounded_witness :
  ∃ os st, run 2 example_mid empty_heap = Some (os, st) ∧ length os = 1%nat ∧ heap_size st <= 2.
Proof. apply (run_bounded 2 example_mid). done. Defined.

Lemma reserved_once_witness :
  ∃ o st3, reserve 2 (num_of_Z 1039999) (reserve_input example_key 1060000) example_store'
           = Some (o, st3) ∧ o = Ok Duplicate.
Proof.
  destruct (reserve 2 (num_of_Z 1039999) (reserve_input example_key 1060000) example_store')
    as [[o st3]|] eqn:E.
  - exists o, st3. split; [reflexivity|].
    apply (reserved_once 2 (num_of_Z 1000000) (num_of_Z 1039999) (reserve_input example_key 1040000)
        (reserve_input example_key 1060000) example_key 1040000 1060000 1000000 1039999 example_mid
        empty_heap example_store example_store' st3 [Ok Reserved] o).
    + apply empty_wf.
    + vm_compute; reflexivity.
    + vm_compute; reflexivity.
    + vm_compute; reflexivity.
    + apply Forall_cons; split; [|constructor]. intros t Ht. vm_compute in Ht. injection Ht as <-. clear E; done.
    + clear E; done.
    + vm_compute; reflexivity.
    + exact E.
  - vm_compute in E. discriminate.
Defined.
