(* ===== verification/AttestKeys.v ===== *)
(** express-request-attestation, [keys.ts]: signing-key snapshots and the static
    and rotating key providers.

    Key bytes are mutable [Uint8Array]s that callers may keep and write to, so
    a memory of byte arrays is explicit: a snapshot refers to its keys by
    location, and [new Uint8Array(bytes)] allocates a copy. *)

From S2P Require Import Prelude JsValue JsJson AttestTypes AttestCanonical AttestCodec AttestTime.

Definition MAX_RETAINED_ATTESTATION_KEYS : Z := 16.
Definition SNAPSHOT_OPTION_KEYS : list jsstr := [js "currentKeyId"; js "keys"].
Definition KEY_ENTRY_KEYS : list jsstr :=
  [js "keyId"; js "key"; js "acceptFrom"; js "acceptUntil"].
Definition KEY_WINDOW_KEYS : list jsstr := [js "acceptFrom"; js "acceptUntil"].

(** * Memory of byte arrays *)

Record Memory := mkMemory { arrays : gmap nat (list Z); next_array : nat }.

Definition read_array (m : Memory) (l : nat) : list Z := default [] (arrays m !! l).
(** [new Uint8Array(bytes)] *)
Definition new_array (bytes : list Z) (m : Memory) : nat * Memory :=
  (next_array m, mkMemory (<[next_array m := bytes]> (arrays m)) (S (next_array m))).
(** [bytes[i] = x] by whoever holds the array: an arbitrary overwrite. *)
Definition write_array (l : nat) (bytes : list Z) (m : Memory) : Memory :=
  mkMemory (<[l := bytes]> (arrays m)) (next_array m).

Record KeyEntry := mkKeyEntry {
  entry_keyId : jsstr;
  entry_key : nat;
  entry_acceptFrom : num;
  entry_acceptUntil : num
}.

Record KeySnapshot := mkSnapshot {
  snapshot_currentKeyId : jsstr;
  snapshot_keys : list KeyEntry
}.

(** A snapshot as the plain object the validator reads. *)
Definition entry_value (m : Memory) (e : KeyEntry) : jsval :=
  JObj true [(js "keyId", JStr (entry_keyId e)); (js "key", JBytes (read_array m (entry_key e)));
             (js "acceptFrom", JNum (entry_acceptFrom e));
             (js "acceptUntil", JNum (entry_acceptUntil e))].
Definition snapshot_value (m : Memory) (s : KeySnapshot) : jsval :=
  JObj true [(js "currentKeyId", JStr (snapshot_currentKeyId s));
             (js "keys", JArr (map (entry_value m) (snapshot_keys s)))].

Fixpoint bytesEqual_loop (xs ys : list Z) : bool :=
  match xs, ys with
  | x :: xs, y :: ys => if x =? y then bytesEqual_loop xs ys else false
  | _, _ => true
  end.
Definition bytesEqual (xs ys : list Z) : bool :=
  if negb (length xs =? length ys)%nat then false else bytesEqual_loop xs ys.

(** * Validation *)

Definition snapshot_entry_check (seen : list jsstr) (entry : jsval) : pres (list jsstr) :=
  require (is_non_array_object entry) "key snapshot entry must be an object" ;;;
  res_iter (λ key, guard (bool_decide (key ∈ KEY_ENTRY_KEYS))
                     (protocolError (js "unknown key snapshot entry option " ++ key)))
    (object_keys entry) ;;;
  let* keyId := validateKeyId (get_field entry (js "keyId")) in
  validateKeyBytes (get_field entry (js "key")) ;;;
  let* acceptFrom := assertTimestampMs (js "acceptFrom") (get_field entry (js "acceptFrom")) in
  let* acceptUntil := assertTimestampMs (js "acceptUntil") (get_field entry (js "acceptUntil")) in
  require (negb (acceptUntil <=? acceptFrom))
    "key acceptance window must satisfy acceptFrom < acceptUntil" ;;;
  require (negb (bool_decide (keyId ∈ seen))) "key snapshot keyIds must be unique" ;;;
  Ok (seen ++ [keyId]).

Fixpoint snapshot_entries_check (seen : list jsstr) (entries : list jsval) : pres (list jsstr) :=
  match entries with
  | [] => Ok seen
  | entry :: entries =>
      let* seen := snapshot_entry_check seen entry in snapshot_entries_check seen entries
  end.

Definition assertValidSnapshotShape (snapshot : jsval) : pres unit :=
  require (is_non_array_object snapshot) "key snapshot must be an object" ;;;
  res_iter (λ key, guard (bool_decide (key ∈ SNAPSHOT_OPTION_KEYS))
                     (protocolError (js "unknown key snapshot option " ++ key)))
    (object_keys snapshot) ;;;
  let* currentKeyId := validateKeyId (get_field snapshot (js "currentKeyId")) in
  match get_field snapshot (js "keys") with
  | JArr entries =>
      guard ((1 <=? Z.of_nat (length entries))
             && (Z.of_nat (length entries) <=? MAX_RETAINED_ATTESTATION_KEYS))
        (protocolError (js "key snapshot must retain 1-" ++ dec_of_Z MAX_RETAINED_ATTESTATION_KEYS
                          ++ js " keys")) ;;;
      let* seen := snapshot_entries_check [] entries in
      require (bool_decide (currentKeyId ∈ seen)) "key snapshot currentKeyId must name a present entry"
  | _ => throw "key snapshot keys must be an array"
  end.

(** * Copies *)

Definition copyKeyEntry (entry : KeyEntry) (m : Memory) : KeyEntry * Memory :=
  let '(keyCopy, m) := new_array (read_array m (entry_key entry)) m in
  (mkKeyEntry (entry_keyId entry) keyCopy (entry_acceptFrom entry) (entry_acceptUntil entry), m).

Fixpoint copyKeyEntries (entries : list KeyEntry) (m : Memory) : list KeyEntry * Memory :=
  match entries with
  | [] => ([], m)
  | entry :: entries =>
      let '(entry, m) := copyKeyEntry entry m in
      let '(entries, m) := copyKeyEntries entries m in
      (entry :: entries, m)
  end.

Definition copySnapshot (snapshot : KeySnapshot) (m : Memory) : KeySnapshot * Memory :=
  let '(keys, m) := copyKeyEntries (snapshot_keys snapshot) m in
  (mkSnapshot (snapshot_currentKeyId snapshot) keys, m).

Definition ownSnapshot (input : KeySnapshot) (m : Memory) : pres (KeySnapshot * Memory) :=
  assertValidSnapshotShape (snapshot_value m input) ;;;
  Ok (copySnapshot input m).

(** [generateAttestationKey]: [random] is the result of [randomBytes(32)]. *)
Definition generateAttestationKey (random : list Z) (keyId window : jsval) (m : Memory)
    : pres (KeyEntry * Memory) :=
  let* keyId := validateKeyId keyId in
  require (is_non_array_object window) "key window must be an object" ;;;
  res_iter (λ key, guard (bool_decide (key ∈ KEY_WINDOW_KEYS))
                     (protocolError (js "unknown key window option " ++ key)))
    (object_keys window) ;;;
  let* acceptFrom := assertTimestampMs (js "acceptFrom") (get_field window (js "acceptFrom")) in
  let* acceptUntil := assertTimestampMs (js "acceptUntil") (get_field window (js "acceptUntil")) in
  require (negb (acceptUntil <=? acceptFrom))
    "key acceptance window must satisfy acceptFrom < acceptUntil" ;;;
  let '(key, m) := new_array random m in
  Ok (mkKeyEntry keyId key (num_of_Z acceptFrom) (num_of_Z acceptUntil), m).

(** * Providers *)

(** [previousById.get(keyId)] after filling the [Map] in order. *)
Definition previousById (previous : list KeyEntry) (keyId : jsstr) : option KeyEntry :=
  fold_left (λ found e, if jsstr_eqb (entry_keyId e) keyId then Some e else found) previous None.

Definition check_entry_remapping (m : Memory) (previous : list KeyEntry) (entry : KeyEntry) : pres unit :=
  match previousById previous (entry_keyId entry) with
  | None => Ok tt
  | Some prior =>
      guard (bytesEqual (read_array m (entry_key prior)) (read_array m (entry_key entry)))
        (protocolError (js "key snapshot must not remap retained keyId " ++ entry_keyId entry
                          ++ js " to different key material")) ;;;
      guard (num_eqb (entry_acceptFrom prior) (entry_acceptFrom entry)
             && num_eqb (entry_acceptUntil prior) (entry_acceptUntil entry))
        (protocolError (js "key snapshot must not remap retained keyId " ++ entry_keyId entry
                          ++ js " to a different acceptance window"))
  end.

Definition checkRemappingPreserved (m : Memory) (previous next : KeySnapshot) : pres unit :=
  res_iter (check_entry_remapping m (snapshot_keys previous)) (snapshot_keys next).

(** The closure state of a provider is its [current] (or [owned]) snapshot. *)
Definition createKeyProvider := ownSnapshot.
Definition getSnapshot := copySnapshot.

Definition replace (next current : KeySnapshot) (m : Memory) : pres (KeySnapshot * Memory) :=
  assertValidSnapshotShape (snapshot_value m next) ;;;
  checkRemappingPreserved m current next ;;;
  ownSnapshot next m.

(** * A provider among callers that keep references to its arrays *)

Record World := mkWorld {
  mem : Memory;
  current : KeySnapshot;
  exposed : gset nat      (** the arrays that code outside the provider can reach *)
}.

Definition key_locations (s : KeySnapshot) : list nat := map entry_key (snapshot_keys s).

Inductive event :=
  | CallerArray (bytes : list Z)
  | CallerWrite (l : nat) (bytes : list Z)
  | GetSnapshot
  | Replaced (next : KeySnapshot)
  | ReplaceRejected (next : KeySnapshot).

Inductive provider_step : World → event → World → Prop :=
  | step_array w bytes l m :
      new_array bytes (mem w) = (l, m) →
      provider_step w (CallerArray bytes) (mkWorld m (current w) ({[l]} ∪ exposed w))
  | step_write w l bytes :
      l ∈ exposed w →
      provider_step w (CallerWrite l bytes) (mkWorld (write_array l bytes (mem w)) (current w) (exposed w))
  | step_get w s m :
      getSnapshot (current w) (mem w) = (s, m) →
      provider_step w GetSnapshot (mkWorld m (current w) (list_to_set (key_locations s) ∪ exposed w))
  | step_replace w next s m :
      (∀ l, l ∈ key_locations next → l ∈ exposed w) →
      replace next (current w) (mem w) = Ok (s, m) →
      provider_step w (Replaced next) (mkWorld m s (exposed w))
  | step_reject w next e :
      (∀ l, l ∈ key_locations next → l ∈ exposed w) →
      replace next (current w) (mem w) = Err e →
      provider_step w (ReplaceRejected next) w.

(** * Lemmas *)

Lemma bytesEqual_eq xs ys : bytesEqual xs ys = true ↔ xs = ys.
Proof.
  unfold bytesEqual. destruct (Nat.eqb_spec (length xs) (length ys)) as [Hl|Hl]; cbn [negb].
  - revert ys Hl. induction xs as [|x xs IH]; intros [|y ys] Hl; try done. cbn [bytesEqual_loop].
    injection Hl as Hl. destruct (Z.eqb_spec x y) as [->|]; [rewrite IH by done|]; naive_solver.
  - split; [done|congruence].
Qed.

(** The contents of a snapshot, arrays read. *)
Definition entry_deep (m : Memory) (e : KeyEntry) : jsstr * list Z * num * num :=
  (entry_keyId e, read_array m (entry_key e), entry_acceptFrom e, entry_acceptUntil e).
Definition snapshot_deep (m : Memory) (s : KeySnapshot) : jsstr * list (jsstr * list Z * num * num) :=
  (snapshot_currentKeyId s, map (entry_deep m) (snapshot_keys s)).

Lemma value_of_deep m m' s s' :
  snapshot_deep m s = snapshot_deep m' s' → snapshot_value m s = snapshot_value m' s'.
Proof.
  intros [= Hc Hk]. unfold snapshot_value. rewrite Hc.
  assert (map (entry_value m) (snapshot_keys s) = map (entry_value m') (snapshot_keys s')) as ->; [|done].
  apply (f_equal (map (λ d : jsstr * list Z * num * num,
    JObj true [(js "keyId", JStr d.1.1.1); (js "key", JBytes d.1.1.2);
               (js "acceptFrom", JNum d.1.2); (js "acceptUntil", JNum d.2)]))) in Hk.
  by rewrite !map_map in Hk.
Qed.

Definition agree_below (n : nat) (m m' : Memory) : Prop :=
  ∀ l, (l < n)%nat → arrays m' !! l = arrays m !! l.

Lemma deep_agree n m m' s :
  agree_below n m m' → (∀ l, l ∈ key_locations s → (l < n)%nat) → snapshot_deep m' s = snapshot_deep m s.
Proof.
  intros Hag Hl. unfold snapshot_deep. f_equal. apply map_ext_in. intros e He.
  unfold entry_deep, read_array. rewrite Hag; [done|]. apply Hl, list_elem_of_In.
  by apply (in_map entry_key).
Qed.

Lemma copyKeyEntries_spec es m es' m' :
  copyKeyEntries es m = (es', m') → (∀ e, e ∈ es → (entry_key e < next_array m)%nat) →
  (next_array m <= next_array m')%nat ∧ agree_below (next_array m) m m'
  ∧ map (entry_deep m') es' = map (entry_deep m) es
  ∧ (∀ e, e ∈ es' → (next_array m <= entry_key e < next_array m')%nat).
Proof.
  revert m es'. induction es as [|e es IH]; intros m es' H Hlt; cbn in H.
  - simplify_eq. split_and!; [done|by intros l ?|done|]. intros e He. by apply elem_of_nil in He.
  - destruct (copyKeyEntries es _) as [es1 m1] eqn:E. simplify_eq.
    apply IH in E as (Hn & Hag & Hdeep & Hfresh).
    2: { intros e' He'. cbn. specialize (Hlt e'). rewrite elem_of_cons in Hlt. naive_solver lia. }
    cbn in *. split_and!; [lia| | |].
    + intros l Hl. rewrite Hag by lia. cbn. by rewrite lookup_insert_ne by lia.
    + f_equal.
      * unfold entry_deep, read_array. cbn. rewrite Hag by lia. cbn. by rewrite lookup_insert_eq.
      * rewrite Hdeep. apply map_ext_in. intros e' He'. unfold entry_deep, read_array. cbn.
        rewrite lookup_insert_ne; [done|]. apply list_elem_of_In in He'.
        specialize (Hlt e'). rewrite elem_of_cons in Hlt. naive_solver lia.
    + intros e' [->|He']%elem_of_cons; cbn; [lia|]. specialize (Hfresh _ He'). lia.
Qed.

Lemma elem_key_locations s l : l ∈ key_locations s ↔ ∃ e, e ∈ snapshot_keys s ∧ entry_key e = l.
Proof.
  unfold key_locations. rewrite list_elem_of_In, in_map_iff. setoid_rewrite list_elem_of_In. naive_solver.
Qed.

Lemma copySnapshot_spec s m s' m' :
  copySnapshot s m = (s', m') → (∀ l, l ∈ key_locations s → (l < next_array m)%nat) →
  (next_array m <= next_array m')%nat ∧ agree_below (next_array m) m m'
  ∧ snapshot_deep m' s' = snapshot_deep m s
  ∧ (∀ l, l ∈ key_locations s' → (next_array m <= l < next_array m')%nat).
Proof.
  unfold copySnapshot. destruct (copyKeyEntries (snapshot_keys s) m) as [ks m1] eqn:E.
  intros [= <- <-] Hlt. apply copyKeyEntries_spec in E as (H1 & H2 & H3 & H4).
  2: { intros e He. apply Hlt, elem_key_locations. eauto. }
  split_and!; [done|done|unfold snapshot_deep; cbn; by rewrite H3|].
  intros l (e & He & <-)%elem_key_locations. by apply H4.
Qed.

(** What code outside the provider can do to a world that is well formed. *)
Definition world_ok (w : World) : Prop :=
  assertValidSnapshotShape (snapshot_value (mem w) (current w)) = Ok tt
  ∧ (∀ l, l ∈ key_locations (current w) → (l < next_array (mem w))%nat ∧ l ∉ exposed w)
  ∧ (∀ l, l ∈ exposed w → (l < next_array (mem w))%nat).

Definition world_deep (w : World) := snapshot_deep (mem w) (current w).

Lemma world_agree w m cur ex :
  world_ok w → (next_array (mem w) <= next_array m)%nat →
  (∀ l, l ∈ key_locations (current w) → arrays m !! l = arrays (mem w) !! l) →
  cur = current w →
  (∀ l, l ∈ ex → (l < next_array m)%nat ∧ l ∉ key_locations (current w)) →
  world_ok (mkWorld m cur ex) ∧ world_deep (mkWorld m cur ex) = world_deep w.
Proof.
  intros (Hv & Hcur & Hexp) Hn Hsame -> Hex.
  assert (world_deep (mkWorld m (current w) ex) = world_deep w) as Hdeep.
  { unfold world_deep, snapshot_deep. cbn. f_equal. apply map_ext_in. intros e He.
    unfold entry_deep, read_array. rewrite Hsame; [done|].
    apply list_elem_of_In. by apply (in_map entry_key). }
  split; [|done]. split_and!; cbn [mem current exposed].
  - by rewrite (value_of_deep m (mem w) (current w) (current w)).
  - intros l Hl. split; [|intros Hl'; by apply (Hex l)]. specialize (Hcur _ Hl). lia.
  - intros l Hl. by apply Hex.
Qed.

Lemma fst_Ok_tt (c : pres unit) u : c = Ok u → c = Ok tt.
Proof. by destruct u. Qed.

Lemma step_inv w ev w' :
  provider_step w ev w' → world_ok w →
  world_ok w' ∧ world_deep w' =
    match ev with Replaced next => snapshot_deep (mem w) next | _ => world_deep w end.
Proof.
  intros H Hok. pose proof Hok as (Hv & Hcur & Hexp).
  destruct H as [w bytes l m Hnew|w l bytes Hl|w s m Hget|w next s m Hknown Hrep|w next e Hknown Hrej].
  - injection Hnew as <- <-. apply world_agree; cbn [next_array arrays write_array]; [done|lia| |done|].
    + intros l Hl. apply Hcur in Hl. by rewrite lookup_insert_ne by lia.
    + intros l [->%elem_of_singleton|Hl]%elem_of_union.
      * split; [lia|]. intros Hl. apply Hcur in Hl. lia.
      * split; [apply Hexp in Hl; lia|]. intros Hl'. by destruct (Hcur _ Hl').
  - apply world_agree; cbn [next_array arrays write_array]; [done|lia| |done|].
    + intros l' Hl'. rewrite lookup_insert_ne; [done|]. intros ->. by destruct (Hcur _ Hl').
    + intros l' Hl'. split; [by apply Hexp|]. intros Hc. by destruct (Hcur _ Hc).
  - apply copySnapshot_spec in Hget as (Hn & Hag & _ & Hfresh).
    2: { intros l Hl. by apply Hcur. }
    apply world_agree; cbn [next_array arrays write_array]; [done|done| |done|].
    + intros l Hl. apply Hag. by apply Hcur.
    + intros l [Hl%elem_of_list_to_set|Hl]%elem_of_union.
      * apply Hfresh in Hl. split; [lia|]. intros Hc. apply Hcur in Hc. lia.
      * split; [apply Hexp in Hl; lia|]. intros Hc. by destruct (Hcur _ Hc).
  - unfold replace, ownSnapshot in Hrep.
    apply res_bind_Ok in Hrep as (u & Hvalid & Hrep). apply res_bind_Ok in Hrep as (_ & _ & Hrep).
    apply res_bind_Ok in Hrep as (_ & _ & Hrep). injection Hrep as Hrep.
    apply copySnapshot_spec in Hrep as (Hn & Hag & Hdeep & Hfresh).
    2: { intros l Hl. by apply Hexp, Hknown. }
    split; [|done]. split_and!; cbn [mem current exposed].
    + rewrite (value_of_deep m (mem w) s next) by done. by eapply fst_Ok_tt.
    + intros l Hl. apply Hfresh in Hl. split; [lia|]. intros Hl'%Hexp. lia.
    + intros l Hl%Hexp. lia.
  - done.
Qed.

(** What the validator guarantees of a snapshot. *)
Definition entry_rules (m : Memory) (e : KeyEntry) : Prop :=
  KEY_ID_PATTERN (entry_keyId e) = true ∧ length (read_array m (entry_key e)) = 32%nat
  ∧ ∃ from until, is_timestamp (entry_acceptFrom e) from ∧ is_timestamp (entry_acceptUntil e) until
    ∧ from < until.
Definition snapshot_rules (m : Memory) (s : KeySnapshot) : Prop :=
  (1 <= length (snapshot_keys s) <= 16)%nat
  ∧ NoDup (map entry_keyId (snapshot_keys s))
  ∧ snapshot_currentKeyId s ∈ map entry_keyId (snapshot_keys s)
  ∧ Forall (entry_rules m) (snapshot_keys s).

Lemma entry_check_Ok m seen e seen' :
  snapshot_entry_check seen (entry_value m e) = Ok seen' →
  entry_rules m e ∧ entry_keyId e ∉ seen ∧ seen' = seen ++ [entry_keyId e].
Proof.
  unfold snapshot_entry_check. intros H.
  apply res_bind_Ok in H as (? & _ & H). apply res_bind_Ok in H as (? & _ & H).
  apply res_bind_Ok in H as (k & Hk & H). apply res_bind_Ok in H as (bs & Hb & H).
  apply res_bind_Ok in H as (from & Hf & H). apply res_bind_Ok in H as (until & Hu & H).
  apply res_bind_Ok in H as (? & Hw & H). apply res_bind_Ok in H as (? & Hn & H). injection H as <-.
  change (get_field (entry_value m e) (js "keyId")) with (JStr (entry_keyId e)) in Hk.
  change (get_field (entry_value m e) (js "key")) with (JBytes (read_array m (entry_key e))) in Hb.
  change (get_field (entry_value m e) (js "acceptFrom")) with (JNum (entry_acceptFrom e)) in Hf.
  change (get_field (entry_value m e) (js "acceptUntil")) with (JNum (entry_acceptUntil e)) in Hu.
  apply validateKeyId_Ok in Hk as [[= <-] Hk]. apply timestamp_Ok in Hf. apply timestamp_Ok in Hu.
  apply require_Ok in Hw, Hn. bool_prop. split_and!; [|done|done].
  split; [done|]. split; [|by exists from, until].
  unfold validateKeyBytes in Hb. pres_inv. unfold KEY_BYTES_LENGTH in *. lia.
Qed.

Lemma entries_check_Ok m es seen seen' :
  snapshot_entries_check seen (map (entry_value m) es) = Ok seen' → NoDup seen →
  Forall (entry_rules m) es ∧ NoDup seen' ∧ seen' = seen ++ map entry_keyId es.
Proof.
  revert seen. induction es as [|e es IH]; intros seen H Hnd; cbn [map snapshot_entries_check] in H.
  - injection H as <-. by rewrite app_nil_r.
  - apply res_bind_Ok in H as (seen1 & (He & Hnew & ->)%entry_check_Ok & H).
    apply IH in H as (Hes & Hnd' & ->).
    + split_and!; [by constructor|done|]. by rewrite <- app_assoc.
    + apply NoDup_app. split_and!; [done| |apply NoDup_singleton].
      intros x Hx ->%list_elem_of_singleton. done.
Qed.

Lemma valid_rules m s :
  assertValidSnapshotShape (snapshot_value m s) = Ok tt → snapshot_rules m s.
Proof.
  unfold assertValidSnapshotShape. intros H.
  apply res_bind_Ok in H as (? & _ & H). apply res_bind_Ok in H as (? & _ & H).
  apply res_bind_Ok in H as (k & Hk & H).
  change (get_field (snapshot_value m s) (js "currentKeyId")) with (JStr (snapshot_currentKeyId s)) in Hk.
  change (get_field (snapshot_value m s) (js "keys"))
    with (JArr (map (entry_value m) (snapshot_keys s))) in H.
  apply validateKeyId_Ok in Hk as [[= <-] _].
  apply res_bind_Ok in H as (? & Hlen%guard_Ok & H).
  apply res_bind_Ok in H as (seen & Hseen & Hcur%require_Ok).
  apply entries_check_Ok in Hseen as (Hes & Hnd & Heq); [|constructor]. cbn in Heq. subst seen.
  rewrite length_map in Hlen. unfold MAX_RETAINED_ATTESTATION_KEYS in Hlen. bool_prop.
  split_and!; [lia|lia|done..].
Qed.

Lemma previousById_unique es e :
  NoDup (map entry_keyId es) → e ∈ es → previousById es (entry_keyId e) = Some e.
Proof.
  intros Hnd He. unfold previousById. generalize (@None KeyEntry) as found.
  revert Hnd He. induction es as [|d es IH]; intros Hnd He found; [by apply elem_of_nil in He|].
  cbn [map] in Hnd. apply NoDup_cons in Hnd as [Hnew Hnd]. cbn [fold_left].
  apply elem_of_cons in He as [<-|He]; [|by apply IH].
  rewrite jsstr_eqb_refl. clear IH Hnd. revert Hnew. generalize (entry_keyId e) as k. intros k Hnew.
  assert (∀ found : option KeyEntry, fold_left (λ found e, if jsstr_eqb (entry_keyId e) k then Some e else found)
            es found = found) as ->; [|done].
  induction es as [|d es IH]; intros f; [done|]. cbn [fold_left map] in *.
  rewrite elem_of_cons in Hnew. rewrite (proj2 (jsstr_eqb_false _ _)) by naive_solver. naive_solver.
Qed.

(** A replacement is atomic and never remaps: if it is rejected nothing changes;
    if it succeeds, every identifier retained from the previous snapshot keeps its
    key bytes and its acceptance window, and the new state has the contents of
    the replacement. *)
Theorem replace_preserves_retained (next current s : KeySnapshot) (m m' : Memory) :
  assertValidSnapshotShape (snapshot_value m current) = Ok tt →
  replace next current m = Ok (s, m') →
  (∀ l, l ∈ key_locations next → (l < next_array m)%nat) →
  snapshot_deep m' s = snapshot_deep m next ∧ snapshot_rules m' s
  ∧ ∀ old new, old ∈ snapshot_keys current → new ∈ snapshot_keys next →
      entry_keyId old = entry_keyId new →
      read_array m (entry_key old) = read_array m (entry_key new)
      ∧ num_eqb (entry_acceptFrom old) (entry_acceptFrom new) = true
      ∧ num_eqb (entry_acceptUntil old) (entry_acceptUntil new) = true.
Proof.
  intros Hcur Hrep Hlt. unfold replace, ownSnapshot in Hrep.
  apply res_bind_Ok in Hrep as (u & Hvalid & Hrep).
  apply res_bind_Ok in Hrep as (u' & Hremap & Hrep).
  apply res_bind_Ok in Hrep as (? & _ & Hrep). injection Hrep as Hrep.
  apply copySnapshot_spec in Hrep as (_ & _ & Hdeep & _); [|done]. split; [done|]. split.
  - apply valid_rules. rewrite (value_of_deep m' m s next) by done. by eapply fst_Ok_tt.
  - intros old new Hold Hnew Hid. destruct u'. apply res_iter_Ok in Hremap.
    rewrite Forall_forall in Hremap. specialize (Hremap new Hnew).
    unfold check_entry_remapping in Hremap. rewrite <- Hid in Hremap.
    rewrite previousById_unique in Hremap; [|by apply valid_rules in Hcur as (_ & ? & _)|done].
    apply res_bind_Ok in Hremap as (? & Hb%guard_Ok & Hw%guard_Ok).
    apply bytesEqual_eq in Hb. apply andb_true_iff in Hw as [??]. done.
Qed.

Definition reachable_world (w0 w : World) : Prop := rtc (λ a b, ∃ ev, provider_step a ev b) w0 w.

Lemma reachable_ok w0 w : world_ok w0 → reachable_world w0 w → world_ok w.
Proof. intros Hok. induction 1 as [|a b c [ev Hev] _ IH]; [done|]. apply IH. by eapply step_inv. Qed.

Lemma created_ok input m s m' ex :
  createKeyProvider input m = Ok (s, m') →
  (∀ l, l ∈ key_locations input → l ∈ ex) → (∀ l, l ∈ ex → (l < next_array m)%nat) →
  world_ok (mkWorld m' s ex).
Proof.
  unfold createKeyProvider, ownSnapshot. intros Hc Hin Hex.
  apply res_bind_Ok in Hc as (u & Hvalid & Hc). injection Hc as Hc.
  apply copySnapshot_spec in Hc as (Hn & _ & Hdeep & Hfresh); [|by intros l Hl; apply Hex, Hin].
  split_and!; cbn [mem current exposed].
  - rewrite (value_of_deep m' m s input) by done. by eapply fst_Ok_tt.
  - intros l Hl. apply Hfresh in Hl. split; [lia|]. intros Hl'%Hex. lia.
  - intros l Hl%Hex. lia.
Qed.

(** Isolation: however callers keep writing to the arrays they passed in or got
    from [getSnapshot], the provider's key material changes only by an accepted
    [replace], to the contents the replacement had then, and always satisfies the
    snapshot rules. *)
Theorem provider_isolated (input s : KeySnapshot) (m m' : Memory) (ex : gset nat) (w w' : World) (ev : event) :
  createKeyProvider input m = Ok (s, m') →
  (∀ l, l ∈ key_locations input → l ∈ ex) → (∀ l, l ∈ ex → (l < next_array m)%nat) →
  reachable_world (mkWorld m' s ex) w → provider_step w ev w' →
  snapshot_rules (mem w) (current w)
  ∧ snapshot_deep (mem w') (current w')
    = match ev with Replaced next => snapshot_deep (mem w) next | _ => snapshot_deep (mem w) (current w) end.
Proof.
  intros Hc Hin Hex Hreach Hstep.
  assert (world_ok w) as Hok by (eapply reachable_ok, Hreach; by eapply created_ok).
  split; [apply valid_rules, Hok|]. by eapply step_inv.
Qed.

(** * Concrete instances *)

Definition example_memory : Memory := mkMemory {[0%nat := repeat 7 32]} 1.
Definition example_snapshot : KeySnapshot :=
  mkSnapshot (js "k1") [mkKeyEntry (js "k1") 0 (num_of_Z 0) (num_of_Z 1000)].
Definition created (c : pres (KeySnapshot * Memory)) : KeySnapshot * Memory :=
  match c with Ok p => p | Err _ => (mkSnapshot [] [], mkMemory ∅ 0) end.
Definition example_provider : KeySnapshot * Memory :=
  created (createKeyProvider example_snapshot example_memory).

Lemma replace_preserves_retained_witness :
  snapshot_rules (created (replace example_snapshot example_provider.1 example_provider.2)).2
    (created (replace example_snapshot example_provider.1 example_provider.2)).1.
Proof.
  apply (replace_preserves_retained example_snapshot example_provider.1 _ example_provider.2).
  - vm_compute. reflexivity.
  - vm_compute. reflexivity.
  - intros l Hl. apply list_elem_of_singleton in Hl as ->. vm_compute. lia.
Defined.

Lemma provider_isolated_witness :
  snapshot_deep (write_array 0 (repeat 9 32) example_provider.2) example_provider.1
  = snapshot_deep example_provider.2 example_provider.1.
Proof.
  apply (provider_isolated example_snapshot example_provider.1 example_memory example_provider.2 {[0%nat]}
    (mkWorld example_provider.2 example_provider.1 {[0%nat]})
    (mkWorld (write_array 0 (repeat 9 32) example_provider.2) example_provider.1 {[0%nat]})
    (CallerWrite 0 (repeat 9 32))).
  - vm_compute. reflexivity.
  - intros l Hl. apply list_elem_of_singleton in Hl as ->. set_solver.
  - intros l ->%elem_of_singleton. vm_compute. lia.
  - apply rtc_refl.
  - pose proof (step_write (mkWorld example_provider.2 example_provider.1 {[0%nat]}) 0
      (repeat 9 32)) as Hstep.
    cbn [mem current exposed] in Hstep. apply Hstep. set_solver.
Defined.
