(* ===== verification/AttestVerify.v ===== *)
(** express-request-attestation, [verify.ts], the error table of
    [server-types.ts] and the signer of [request-signer.ts]: framing, lookup,
    timing and MAC comparison, without replay state.

    SHA-256 and HMAC-SHA-256 are parameters ([node:crypto] and WebCrypto), as is
    the URL parser. *)

From S2P Require Import Prelude JsValue JsJson AttestTypes AttestCanonical AttestCodec AttestTime.

(** * Errors *)

Inductive AttestationErrorCode :=
  | ATTESTATION_MISSING
  | ATTESTATION_MALFORMED
  | ATTESTATION_STALE_KEY
  | ATTESTATION_EXPIRED
  | ATTESTATION_FUTURE
  | ATTESTATION_INVALID_SIGNATURE
  | ATTESTATION_REPLAY
  | ATTESTATION_BODY_TOO_LARGE
  | ATTESTATION_UNSUPPORTED_ENCODING
  | ATTESTATION_BODY_CAPTURE_REQUIRED
  | ATTESTATION_INTERNAL_ERROR
  | ATTESTATION_KEYS_UNAVAILABLE
  | ATTESTATION_REPLAY_UNAVAILABLE.

#[export] Instance AttestationErrorCode_eq_dec : EqDecision AttestationErrorCode.
Proof. solve_decision. Defined.

Definition ERROR_DETAILS (code : AttestationErrorCode) : Z * jsstr :=
  match code with
  | ATTESTATION_MISSING => (403, js "Request signature is required.")
  | ATTESTATION_MALFORMED => (403, js "Request signature is invalid.")
  | ATTESTATION_STALE_KEY => (403, js "Request signing key is no longer accepted.")
  | ATTESTATION_EXPIRED => (403, js "Request signature has expired.")
  | ATTESTATION_FUTURE =>
      (403, js "Request signature timestamp is ahead of the allowed clock window.")
  | ATTESTATION_INVALID_SIGNATURE => (403, js "Request signature does not match.")
  | ATTESTATION_REPLAY => (403, js "Request signature was already used.")
  | ATTESTATION_BODY_TOO_LARGE => (413, js "Request body exceeds the configured byte limit.")
  | ATTESTATION_UNSUPPORTED_ENCODING => (415, js "Request body encoding is unsupported.")
  | ATTESTATION_BODY_CAPTURE_REQUIRED => (500, js "Request body capture is not configured.")
  | ATTESTATION_INTERNAL_ERROR => (500, js "Request signature verification failed.")
  | ATTESTATION_KEYS_UNAVAILABLE => (503, js "Request signing keys are unavailable.")
  | ATTESTATION_REPLAY_UNAVAILABLE => (503, js "Request replay protection is unavailable.")
  end.

Notation ares := (result AttestationErrorCode).

(** [try { c } catch { fail(code) }] *)
Definition or_fail {A} (c : pres A) (code : AttestationErrorCode) : ares A :=
  res_catch c (λ _, Err code).

Lemma or_fail_Ok {A} (c : pres A) code a : or_fail c code = Ok a ↔ c = Ok a.
Proof. unfold or_fail. rewrite res_catch_Ok. naive_solver. Qed.

(** * Key snapshots *)

Record AttestationKeyEntry := mkEntry {
  ke_keyId : jsstr;
  ke_key : list Z;
  ke_acceptFrom : Z;
  ke_acceptUntil : Z
}.

Record AttestationKeySnapshot := mkKeys {
  ks_currentKeyId : jsstr;
  ks_keys : list AttestationKeyEntry
}.

(** One row of the provider's snapshot, with the identifiers seen before it. *)
Definition copy_row (seen : list jsstr) (entry : jsval) : pres AttestationKeyEntry :=
  require (is_non_array_object entry) "key snapshot entry must be an object" ;;;
  let* keyId := validateKeyId (get_field entry (js "keyId")) in
  let* key := validateKeyBytes (get_field entry (js "key")) in
  let* acceptFrom := assertTimestampMs (js "acceptFrom") (get_field entry (js "acceptFrom")) in
  let* acceptUntil := assertTimestampMs (js "acceptUntil") (get_field entry (js "acceptUntil")) in
  require (negb (acceptUntil <=? acceptFrom))
    "key acceptance window must satisfy acceptFrom < acceptUntil" ;;;
  require (negb (bool_decide (keyId ∈ seen))) "key snapshot keyIds must be unique" ;;;
  Ok (mkEntry keyId key acceptFrom acceptUntil).

Fixpoint copy_rows (seen : list jsstr) (rows : list jsval) : pres (list AttestationKeyEntry) :=
  match rows with
  | [] => Ok []
  | row :: rows =>
      let* entry := copy_row seen row in
      let* entries := copy_rows (ke_keyId entry :: seen) rows in
      Ok (entry :: entries)
  end.

Definition copyAttestationSnapshot (snapshot : jsval) : ares AttestationKeySnapshot :=
  or_fail
    (require (is_non_array_object snapshot) "key snapshot must be an object" ;;;
     let* currentKeyId := validateKeyId (get_field snapshot (js "currentKeyId")) in
     match get_field snapshot (js "keys") with
     | JArr rows =>
         require ((1 <=? Z.of_nat (length rows)) && (Z.of_nat (length rows) <=? 16))
           "key snapshot must retain 1-16 keys" ;;;
         let* copied := copy_rows [] rows in
         require (bool_decide (currentKeyId ∈ map ke_keyId copied))
           "key snapshot currentKeyId must name a present entry" ;;;
         Ok (mkKeys currentKeyId copied)
     | _ => throw "key snapshot keys must be an array"
     end)
    ATTESTATION_KEYS_UNAVAILABLE.

(** A copied snapshot, passed on as the value it is. *)
Definition entry_to_value (e : AttestationKeyEntry) : jsval :=
  JObj true [(js "keyId", JStr (ke_keyId e)); (js "key", JBytes (ke_key e));
             (js "acceptFrom", JNum (num_of_Z (ke_acceptFrom e)));
             (js "acceptUntil", JNum (num_of_Z (ke_acceptUntil e)))].
Definition snapshot_to_value (s : AttestationKeySnapshot) : jsval :=
  JObj true [(js "currentKeyId", JStr (ks_currentKeyId s));
             (js "keys", JArr (map entry_to_value (ks_keys s)))].

(** * Stages *)

Definition checkProofTiming (timestampMs nowMs : num) (keyEntry : AttestationKeyEntry)
    (policy : ResolvedTimePolicy) : ares ProofTiming :=
  let* timing := or_fail
    (evaluateProofTiming timestampMs nowMs (num_of_Z (ke_acceptFrom keyEntry))
       (num_of_Z (ke_acceptUntil keyEntry)) policy)
    ATTESTATION_INTERNAL_ERROR in
  match decision timing with
  | Valid => Ok timing
  | Future => Err ATTESTATION_FUTURE
  | Expired => Err ATTESTATION_EXPIRED
  | StaleKey => Err ATTESTATION_STALE_KEY
  end.

Definition resolveRequestTarget (originalUrl : jsval) (publicPathPrefix : jsstr) : ares jsstr :=
  or_fail
    (match originalUrl with
     | JStr s =>
         require (negb (length s =? 0)%nat) "request target must be a non-empty string" ;;;
         canonicalizeRequestTarget (JStr (publicPathPrefix ++ s))
     | _ => throw "request target must be a non-empty string"
     end)
    ATTESTATION_MALFORMED.

Definition resolveContentType (header : jsval) : ares jsstr :=
  or_fail
    (match header with
     | JUndef | JNull => Ok []
     | JArr [] => Ok []
     | JArr [value] => normalizeContentType value
     | JArr _ => throw "duplicate content-type headers are not allowed"
     | _ => normalizeContentType header
     end)
    ATTESTATION_MALFORMED.

Definition encoding_tokens (value : jsval) : ares (list jsstr) :=
  match value with
  | JStr s =>
      Ok (map to_lower
            (List.filter (λ t, negb (bool_decide (t = []))) (map trim (split_on 44 s))))
  | _ => Err ATTESTATION_MALFORMED
  end.

Definition assertAllowedContentEncoding (header : jsval) : ares unit :=
  match header with
  | JUndef | JNull => Ok tt
  | _ =>
      let* tokens := res_mapM encoding_tokens (match header with JArr l => l | _ => [header] end) in
      res_iter (λ token, guard (jsstr_eqb token (js "identity")) ATTESTATION_UNSUPPORTED_ENCODING)
        (concat tokens)
  end.

Definition resolveBodyDigest (digest : jsval) : ares jsstr :=
  or_fail (validateBodyHashHex digest) ATTESTATION_INTERNAL_ERROR.

(** [digest('hex')] and the signer's [hexEncode]. *)
Definition hexEncode (bytes : list Z) : jsstr :=
  flat_map (λ b, [hex_digit (b / 16); hex_digit (b mod 16)]) bytes.

Record VerifyContext := mkContext {
  vi_method : jsval;
  vi_originalUrl : jsval;
  vi_publicPathPrefix : jsstr;
  vi_contentTypeHeader : jsval;
  vi_contentEncodingHeader : jsval;
  vi_bodyDigestHex : jsval;
  vi_snapshot : jsval;
  vi_nowMs : num;
  vi_policy : ResolvedTimePolicy;
  vi_replayNamespace : jsstr;
  vi_publicOrigin : jsstr
}.

Record AttestationVerifiedProof := mkVerified {
  vp_keyId : jsstr;
  vp_timestampMs : num;
  vp_nonceHex : jsstr;
  vp_keyEntry : AttestationKeyEntry;
  vp_timing : ProofTiming;
  vp_replayKey : jsstr;
  vp_retainUntilMs : Z;
  vp_method : jsstr;
  vp_requestTarget : jsstr;
  vp_contentType : jsstr;
  vp_bodyHashHex : jsstr
}.

Section verifier.
Variable parse_url : jsstr → option URL.
Variable sha256 : list Z → list Z.
Variable hmac_sha256 : list Z → list Z → list Z.

Definition deriveReplayKey (replayNamespace publicOrigin nonceHex : jsstr) : pres jsstr :=
let* preimage := buildReplayKeyPreimageBytes parse_url replayNamespace publicOrigin nonceHex in
Ok (REPLAY_KEY_PREFIX ++ hexEncode (sha256 preimage)).

Definition find_key (keyId : jsstr) (keys : list AttestationKeyEntry) : option AttestationKeyEntry :=
List.find (λ entry, jsstr_eqb (ke_keyId entry) keyId) keys.

Definition verifyDecodedAttestationProof (input : VerifyContext) (envelope : TransactionIdFields)
  : ares AttestationVerifiedProof :=
let* snapshot := copyAttestationSnapshot (vi_snapshot input) in
let* keyEntry := match find_key (keyId envelope) (ks_keys snapshot) with
                 | Some entry => Ok entry
                 | None => Err ATTESTATION_STALE_KEY
                 end in
or_fail (assertTimestampMs (js "nowMs") (JNum (vi_nowMs input))) ATTESTATION_INTERNAL_ERROR ;;;
let* timing := checkProofTiming (timestampMs envelope) (vi_nowMs input) keyEntry (vi_policy input) in
let* requestTarget := resolveRequestTarget (vi_originalUrl input) (vi_publicPathPrefix input) in
let* method := or_fail (normalizeMethod (vi_method input)) ATTESTATION_MALFORMED in
assertAllowedContentEncoding (vi_contentEncodingHeader input) ;;;
let* contentType := resolveContentType (vi_contentTypeHeader input) in
let* bodyHashHex := resolveBodyDigest (vi_bodyDigestHex input) in
let* macInput := or_fail
  (buildMacInputBytes parse_url
     (mkMacInputFields (vi_replayNamespace input) (vi_publicOrigin input) (keyId envelope)
        (timestampMs envelope) (nonceHex envelope) method requestTarget contentType bodyHashHex))
  ATTESTATION_INTERNAL_ERROR in
let* presented := or_fail (base64urlDecode (mac envelope)) ATTESTATION_MALFORMED in
guard (length presented =? 32)%nat ATTESTATION_INVALID_SIGNATURE ;;;
let expected := hmac_sha256 (ke_key keyEntry) macInput in
guard ((length presented =? length expected)%nat && bool_decide (presented = expected))
  ATTESTATION_INVALID_SIGNATURE ;;;
let* replayKey := or_fail
  (deriveReplayKey (vi_replayNamespace input) (vi_publicOrigin input) (nonceHex envelope))
  ATTESTATION_INTERNAL_ERROR in
match retainUntilMs timing with
| Some retain =>
    guard (is_safe retain) ATTESTATION_EXPIRED ;;;
    Ok (mkVerified (keyId envelope) (timestampMs envelope) (nonceHex envelope) keyEntry timing
          replayKey retain method requestTarget contentType bodyHashHex)
| None => Err ATTESTATION_EXPIRED
end.

(** The continuation captures the decoded envelope. *)
Definition preflightAttestationProof (rawHeader : jsval)
  : ares (VerifyContext → ares AttestationVerifiedProof) :=
let* headerValue := or_fail (extractSingleHeaderValue rawHeader) ATTESTATION_MALFORMED in
match headerValue with
| None => Err ATTESTATION_MISSING
| Some value =>
    let* envelope := or_fail (decodeTransactionId (JStr value)) ATTESTATION_MALFORMED in
    Ok (λ input, verifyDecodedAttestationProof input envelope)
end.

Definition verifyAttestationProof (headerValue : jsval) (input : VerifyContext)
  : ares AttestationVerifiedProof :=
let* verify := preflightAttestationProof headerValue in verify input.

(** [sign] of the signer bound to [signer_keyId], [key] and a protection space. *)
Record SignInput := mkSignInput {
si_method : jsval;
si_requestTarget : jsval;
si_contentType : jsval;
si_bodyHashHex : jsval;
si_timestampMs : num;
si_nonceHex : jsval
}.

Definition sign (signer_keyId publicOrigin replayNamespace : jsstr) (key : list Z) (input : SignInput)
  : pres jsstr :=
let* method := normalizeMethod (si_method input) in
let* requestTarget := canonicalizeRequestTarget (si_requestTarget input) in
let* contentType := normalizeContentType (si_contentType input) in
let* bodyHashHex := validateBodyHashHex (si_bodyHashHex input) in
assertTimestampMs (js "timestampMs") (JNum (si_timestampMs input)) ;;;
let* nonce := validateNonceHex (si_nonceHex input) in
let* macInput := buildMacInputBytes parse_url
  (mkMacInputFields replayNamespace publicOrigin signer_keyId (si_timestampMs input) nonce
     method requestTarget contentType bodyHashHex) in
let signature := hmac_sha256 key macInput in
encodeTransactionId
  (mkTransactionIdFields signer_keyId (si_timestampMs input) nonce (base64urlEncode signature)).
End verifier.

(** * Lemmas: snapshots *)

Definition entry_ok (e : AttestationKeyEntry) : Prop :=
  KEY_ID_PATTERN (ke_keyId e) = true ∧ length (ke_key e) = 32%nat
  ∧ 0 <= ke_acceptFrom e ∧ ke_acceptFrom e < ke_acceptUntil e ∧ ke_acceptUntil e <= MAX_SAFE_INTEGER.

Lemma copy_row_Ok seen row e :
  copy_row seen row = Ok e → entry_ok e ∧ ke_keyId e ∉ seen.
Proof.
  unfold copy_row. intros H.
  apply res_bind_Ok in H as (? & _ & H). apply res_bind_Ok in H as (k & Hk & H).
  apply res_bind_Ok in H as (bs & Hb & H). apply res_bind_Ok in H as (from & Hf & H).
  apply res_bind_Ok in H as (until & Hu & H). apply res_bind_Ok in H as (? & Hw%require_Ok & H).
  apply res_bind_Ok in H as (? & Hn%require_Ok & H). injection H as <-. bool_prop.
  apply validateKeyId_Ok in Hk as [_ Hk]. apply timestamp_safe in Hf as (? & _ & _ & Hf).
  apply timestamp_safe in Hu as (? & _ & _ & Hu).
  unfold validateKeyBytes in Hb. destruct (get_field row (js "key")) as [| | | | | | |key|]; try done. pres_inv.
  unfold KEY_BYTES_LENGTH in *. split; [|done]. split_and!; cbn; try done; lia.
Qed.

Lemma copy_row_value seen e :
  entry_ok e → ke_keyId e ∉ seen → copy_row seen (entry_to_value e) = Ok e.
Proof.
  intros (Hk & Hb & Hf & Hw & Hu) Hn. unfold copy_row.
  change (get_field (entry_to_value e) (js "keyId")) with (JStr (ke_keyId e)).
  change (get_field (entry_to_value e) (js "key")) with (JBytes (ke_key e)).
  change (get_field (entry_to_value e) (js "acceptFrom")) with (JNum (num_of_Z (ke_acceptFrom e))).
  change (get_field (entry_to_value e) (js "acceptUntil")) with (JNum (num_of_Z (ke_acceptUntil e))).
  rewrite (proj2 (validateKeyId_Ok _ _)) by done. cbn [res_bind require guard is_non_array_object entry_to_value].
  unfold validateKeyBytes, require. rewrite Hb. cbn [res_bind guard].
  rewrite !timestamp_of_Z by lia. cbn [res_bind].
  rewrite (proj2 (Z.leb_gt _ _)), bool_decide_false by done. cbn. by destruct e.
Qed.

Lemma copy_rows_Ok seen rows es :
  copy_rows seen rows = Ok es →
  Forall entry_ok es ∧ NoDup (map ke_keyId es) ∧ (∀ e, e ∈ es → ke_keyId e ∉ seen)
  ∧ length es = length rows ∧ copy_rows seen (map entry_to_value es) = Ok es.
Proof.
  revert seen es. induction rows as [|row rows IH]; intros seen es H; cbn [copy_rows] in H.
  - injection H as <-. split_and!; [done|constructor|by intros e ?%elem_of_nil|done..].
  - apply res_bind_Ok in H as (e & He & H). apply res_bind_Ok in H as (es' & Hes & H). injection H as <-.
    apply copy_row_Ok in He as [Hok Hnew]. apply IH in Hes as (Hall & Hnd & Hseen & Hlen & Hagain).
    split_and!; [by constructor| | |cbn; by f_equal|].
    + cbn [map]. apply NoDup_cons. split; [|done]. intros Hin. apply list_elem_of_In, in_map_iff in Hin
        as (e' & Heq & He'%list_elem_of_In). apply Hseen in He'. rewrite Heq in He'. apply He'. left.
    + intros e' [->|He']%elem_of_cons; [done|]. apply Hseen in He'. rewrite elem_of_cons in He'. naive_solver.
    + cbn [map copy_rows]. rewrite copy_row_value by done. cbn [res_bind]. by rewrite Hagain.
Qed.

Definition keys_ok (s : AttestationKeySnapshot) : Prop :=
  (1 <= length (ks_keys s) <= 16)%nat ∧ Forall entry_ok (ks_keys s)
  ∧ NoDup (map ke_keyId (ks_keys s)) ∧ ks_currentKeyId s ∈ map ke_keyId (ks_keys s).

(** A copied snapshot obeys the snapshot rules, and copying it again is the
    identity. *)
Lemma copy_snapshot_Ok v s :
  copyAttestationSnapshot v = Ok s → keys_ok s ∧ copyAttestationSnapshot (snapshot_to_value s) = Ok s.
Proof.
  unfold copyAttestationSnapshot. rewrite !or_fail_Ok. intros H.
  apply res_bind_Ok in H as (? & _ & H). apply res_bind_Ok in H as (k & Hk & H).
  destruct (get_field v (js "keys")) as [| | | | |rows| | |]; try discriminate.
  apply res_bind_Ok in H as (? & Hlen%require_Ok & H). apply res_bind_Ok in H as (es & Hes & H).
  apply res_bind_Ok in H as (? & Hcur%require_Ok & H). injection H as <-. bool_prop.
  apply copy_rows_Ok in Hes as (Hall & Hnd & _ & Hl & Hagain). split.
  { split_and!; cbn; [lia|lia|done..]. }
  change (get_field (snapshot_to_value (mkKeys k es)) (js "currentKeyId")) with (JStr k).
  change (get_field (snapshot_to_value (mkKeys k es)) (js "keys")) with (JArr (map entry_to_value es)).
  apply validateKeyId_Ok in Hk as [_ Hk]. rewrite (proj2 (validateKeyId_Ok _ _)) by done.
  cbn [is_non_array_object snapshot_to_value require guard res_bind].
  rewrite length_map. unfold require. rewrite !(proj2 (Z.leb_le _ _)) by lia. cbn [andb guard res_bind].
  rewrite Hagain. cbn [res_bind]. by rewrite bool_decide_true.
Qed.

Lemma find_key_Some k es e : find_key k es = Some e → e ∈ es ∧ ke_keyId e = k.
Proof. intros [H1 H2]%find_some. apply jsstr_eqb_true in H2. by rewrite list_elem_of_In. Qed.

Lemma check_timing_Ok nt nn e p r :
  checkProofTiming nt nn e p = Ok r →
  evaluateProofTiming nt nn (num_of_Z (ke_acceptFrom e)) (num_of_Z (ke_acceptUntil e)) p = Ok r
  ∧ decision r = Valid.
Proof.
  unfold checkProofTiming. intros (t & H%or_fail_Ok & Hd)%res_bind_Ok.
  destruct (decision t) eqn:E; try done. by injection Hd as <-.
Qed.

(** * Soundness and completeness *)

Section verifier_theorems.
Variable parse_url : jsstr → option URL.
Variable sha256 : list Z → list Z.
Variable hmac_sha256 : list Z → list Z → list Z.

(** What an accepted proof has established. *)
Record proof_established (input : VerifyContext) (f : TransactionIdFields)
  (v : AttestationVerifiedProof) : Prop := {
est_key : ∃ s, copyAttestationSnapshot (vi_snapshot input) = Ok s
  ∧ vp_keyEntry v ∈ ks_keys s ∧ ke_keyId (vp_keyEntry v) = keyId f;
est_timing : evaluateProofTiming (timestampMs f) (vi_nowMs input)
    (num_of_Z (ke_acceptFrom (vp_keyEntry v))) (num_of_Z (ke_acceptUntil (vp_keyEntry v)))
    (vi_policy input) = Ok (vp_timing v)
  ∧ decision (vp_timing v) = Valid ∧ retainUntilMs (vp_timing v) = Some (vp_retainUntilMs v);
est_target : resolveRequestTarget (vi_originalUrl input) (vi_publicPathPrefix input)
             = Ok (vp_requestTarget v);
est_method : normalizeMethod (vi_method input) = Ok (vp_method v);
est_encoding : assertAllowedContentEncoding (vi_contentEncodingHeader input) = Ok tt;
est_content_type : resolveContentType (vi_contentTypeHeader input) = Ok (vp_contentType v);
est_body : vi_bodyDigestHex input = JStr (vp_bodyHashHex v);
est_mac : ∃ b, buildMacInputBytes parse_url
    (mkMacInputFields (vi_replayNamespace input) (vi_publicOrigin input) (keyId f) (timestampMs f)
       (nonceHex f) (vp_method v) (vp_requestTarget v) (vp_contentType v) (vp_bodyHashHex v)) = Ok b
  ∧ mac f = base64urlEncode (hmac_sha256 (ke_key (vp_keyEntry v)) b);
est_replay : deriveReplayKey parse_url sha256 (vi_replayNamespace input) (vi_publicOrigin input)
               (nonceHex f) = Ok (vp_replayKey v);
est_fields : vp_keyId v = keyId f ∧ vp_timestampMs v = timestampMs f ∧ vp_nonceHex v = nonceHex f
}.

Lemma verify_decoded_sound input f v :
  verifyDecodedAttestationProof parse_url sha256 hmac_sha256 input f = Ok v → proof_established input f v.
Proof.
  unfold verifyDecodedAttestationProof. intros H.
  apply res_bind_Ok in H as (s & Hs & H). apply res_bind_Ok in H as (e & He & H).
  apply res_bind_Ok in H as (? & _ & H). apply res_bind_Ok in H as (t & Ht & H).
  apply res_bind_Ok in H as (tgt & Htgt & H). apply res_bind_Ok in H as (m & Hm%or_fail_Ok & H).
  apply res_bind_Ok in H as ([] & Henc & H). apply res_bind_Ok in H as (ct & Hct & H).
  apply res_bind_Ok in H as (body & Hbody%or_fail_Ok & H).
  apply res_bind_Ok in H as (b & Hb%or_fail_Ok & H).
  apply res_bind_Ok in H as (pr & Hpr%or_fail_Ok & H).
  apply res_bind_Ok in H as (? & _ & H). apply res_bind_Ok in H as (? & Heq%guard_Ok & H).
  apply res_bind_Ok in H as (rk & Hrk%or_fail_Ok & H).
  destruct (retainUntilMs t) as [R|] eqn:HR; [|done].
  apply res_bind_Ok in H as (? & _ & H). injection H as <-. bool_prop. subst pr.
  destruct (find_key _ _) as [e'|] eqn:Hf; [|done]. injection He as ->.
  apply find_key_Some in Hf as [Hin Hid]. apply check_timing_Ok in Ht as [Ht Hv].
  apply validateBodyHashHex_Ok in Hbody as [Hbody _].
  apply base64url_decode_sound in Hpr as (Hpr & _).
  split; cbn; eauto.
Qed.

Lemma preflight_Ok h k :
  preflightAttestationProof parse_url sha256 hmac_sha256 h = Ok k →
  ∃ value f, extractSingleHeaderValue h = Ok (Some value) ∧ decodeTransactionId (JStr value) = Ok f
  ∧ k = λ input, verifyDecodedAttestationProof parse_url sha256 hmac_sha256 input f.
Proof.
  unfold preflightAttestationProof. intros H.
  apply res_bind_Ok in H as ([value|] & Hv%or_fail_Ok & H); [|done].
  apply res_bind_Ok in H as (f & Hf%or_fail_Ok & H). injection H as <-. eauto.
Qed.

(** C1: Soundness: a proof is accepted only for the single presented header value,
  decoded strictly, whose key is a present snapshot entry active now, fresh
  under the policy, and whose MAC is the HMAC under that key of the actual
  normalized request; the replay key is the digest of its space and nonce. *)
Theorem verify_sound (h : jsval) (input : VerifyContext) (v : AttestationVerifiedProof) :
  verifyAttestationProof parse_url sha256 hmac_sha256 h input = Ok v →
  ∃ value f, extractSingleHeaderValue h = Ok (Some value)
  ∧ decodeTransactionId (JStr value) = Ok f ∧ encodeTransactionId f = Ok value
  ∧ proof_established input f v.
Proof.
  unfold verifyAttestationProof. intros (k & Hk & Hv)%res_bind_Ok.
  apply preflight_Ok in Hk as (value & f & He & Hd & ->). exists value, f.
  split_and!; [done|done| |by apply verify_decoded_sound].
  apply decode_sound in Hd as (z & Hval & _ & ->). by apply encode_of_valid.
Qed.

Lemma target_canonical_again o p t :
  resolveRequestTarget o p = Ok t → canonicalizeRequestTarget (JStr t) = Ok t.
Proof.
  unfold resolveRequestTarget. intros H%or_fail_Ok. destruct o; try done.
  apply res_bind_Ok in H as (? & _ & H). by eapply canonicalize_idempotent.
Qed.

Lemma content_type_again h c : resolveContentType h = Ok c → normalizeContentType (JStr c) = Ok c.
Proof.
  unfold resolveContentType. intros H%or_fail_Ok.
  destruct h as [| | | | |[|x [|y l]]| | |]; try done; try (by injection H as <-);
    by eapply normalizeContentType_idempotent.
Qed.

(** Tampering: if one header value is accepted for two requests under the same
  key bytes, then either the requests agree on every protected field or HMAC
  has a collision under that key. *)
Theorem tamper_evident (h : jsval) (c1 c2 : VerifyContext) (v1 v2 : AttestationVerifiedProof) :
  verifyAttestationProof parse_url sha256 hmac_sha256 h c1 = Ok v1 →
  verifyAttestationProof parse_url sha256 hmac_sha256 h c2 = Ok v2 →
  ke_key (vp_keyEntry v1) = ke_key (vp_keyEntry v2) →
  (∀ k m, bytes_ok (hmac_sha256 k m) ∧ hmac_sha256 k m ≠ []) →
  units_ok (vi_publicOrigin c1) ∧ units_ok (vp_requestTarget v1) ∧ units_ok (vp_contentType v1) →
  units_ok (vi_publicOrigin c2) ∧ units_ok (vp_requestTarget v2) ∧ units_ok (vp_contentType v2) →
  (∃ b1 b2, b1 ≠ b2 ∧ hmac_sha256 (ke_key (vp_keyEntry v1)) b1 = hmac_sha256 (ke_key (vp_keyEntry v1)) b2)
  ∨ (vi_replayNamespace c1 = vi_replayNamespace c2 ∧ vi_publicOrigin c1 = vi_publicOrigin c2
   ∧ vp_method v1 = vp_method v2 ∧ vp_requestTarget v1 = vp_requestTarget v2
   ∧ vp_contentType v1 = vp_contentType v2 ∧ vp_bodyHashHex v1 = vp_bodyHashHex v2).
Proof.
  intros H1 H2 Hkey Hhmac U1 U2.
  apply res_bind_Ok in H1 as (k1 & (x1 & f1 & E1 & D1 & ->)%preflight_Ok & [_ _ T1 M1 _ C1 _ (b1 & B1 & A1) _ _]%verify_decoded_sound).
  apply res_bind_Ok in H2 as (k2 & (x2 & f2 & E2 & D2 & ->)%preflight_Ok & [_ _ T2 M2 _ C2 _ (b2 & B2 & A2) _ _]%verify_decoded_sound).
  assert (x2 = x1) as -> by congruence. assert (f2 = f1) as -> by congruence. clear E1 E2 D1 D2.
  rewrite <- Hkey in A2.
  assert (hmac_sha256 (ke_key (vp_keyEntry v1)) b1 = hmac_sha256 (ke_key (vp_keyEntry v1)) b2) as Hmac.
  { rewrite A1 in A2. apply (f_equal base64urlDecode) in A2.
    rewrite !base64url_decode_encode in A2 by apply Hhmac. congruence. }
  destruct (decide (b1 = b2)) as [<-|Hne]; [right|left; by exists b1, b2].
  pose proof (λ U V, build_mac_injective parse_url _ _ b1 U V B1 B2) as Hinj.
  destruct (Hinj U1 U2) as (Hns & Ho & _ & _ & _ & Hm & Ht & Hc & Hb).
  cbn [mi_replayNamespace mi_publicOrigin mi_method mi_requestTarget mi_contentType mi_bodyHashHex] in *.
  rewrite (normalizeMethod_idempotent _ _ M1), (normalizeMethod_idempotent _ _ M2) in Hm.
  rewrite (target_canonical_again _ _ _ T1), (target_canonical_again _ _ _ T2) in Ht.
  rewrite (content_type_again _ _ C1), (content_type_again _ _ C2) in Hc.
  split_and!; congruence.
Qed.

Lemma hexEncode_inj xs ys :
  bytes_ok xs → bytes_ok ys → hexEncode xs = hexEncode ys → xs = ys.
Proof.
  intros Hxs. revert ys. induction Hxs as [|x xs Hx Hxs IH]; intros [|y ys] Hys E; try done.
  apply Forall_cons in Hys as [Hy Hys]. unfold byte_ok in *.
  cbn [hexEncode flat_map app] in E. injection E as E1 E2 E3.
  apply (f_equal hex_value) in E1, E2. rewrite !hex_value_digit in E1, E2 by lia.
  f_equal; [|by apply IH]. injection E1. injection E2. lia.
Qed.

(** Replay keys separate protection spaces and nonces, up to SHA-256 collisions. *)
Theorem replay_keys_separate (ns1 o1 n1 ns2 o2 n2 k : jsstr) :
  (∀ m, bytes_ok (sha256 m)) → units_ok o1 → units_ok o2 →
  deriveReplayKey parse_url sha256 ns1 o1 n1 = Ok k → deriveReplayKey parse_url sha256 ns2 o2 n2 = Ok k →
  (∃ b1 b2, b1 ≠ b2 ∧ sha256 b1 = sha256 b2) ∨ (ns1 = ns2 ∧ o1 = o2 ∧ n1 = n2).
Proof.
  intros Hsha Ho1 Ho2 (b1 & P1 & E1)%res_bind_Ok (b2 & P2 & E2)%res_bind_Ok.
  assert (hexEncode (sha256 b1) = hexEncode (sha256 b2)) as E.
  { apply (app_inv_head REPLAY_KEY_PREFIX). congruence. }
  apply hexEncode_inj in E; [|apply Hsha..].
  destruct (decide (b1 = b2)) as [<-|Hne]; [right|left; by exists b1, b2].
  by eapply preimage_injective.
Qed.

Hypothesis hmac_length : ∀ k m, length (hmac_sha256 k m) = 32%nat.
Hypothesis hmac_bytes : ∀ k m, bytes_ok (hmac_sha256 k m).

Lemma extract_encoded f h : encodeTransactionId f = Ok h → extractSingleHeaderValue (JStr h) = Ok (Some h).
Proof.
  intros Henc. destruct (encode_Ok_valid f h Henc) as [z Hv].
  rewrite (encode_of_valid f z Hv) in Henc.
  assert (h = base64urlEncode (utf8_encode (envelope_text f z))) as -> by congruence. clear Henc.
  pose proof (encoded_bound f z Hv) as Hb. pose proof (envelope_bytes f z Hv) as (Hbytes & Hne & _).
  set (e := base64urlEncode (utf8_encode (envelope_text f z))) in *.
  assert (e ≠ []) as Hne' by (unfold e; by destruct (utf8_encode _) as [|? [|? [|? ?]]]).
  assert (includes_char 44 e = false) as Hcomma.
  { apply not_true_iff_false. intros (c & Hc & <-%Z.eqb_eq)%existsb_exists.
    pose proof (encode_alphabet _ Hbytes) as Ha. rewrite Forall_forall in Ha.
    apply list_elem_of_In in Hc. by destruct (Ha _ Hc). }
  unfold extractSingleHeaderValue. cbn [List.filter is_undef negb].
  replace (length e =? 0)%nat with false by (by destruct e).
  unfold assertEncodedTransactionIdBound, require. rewrite (proj2 (Z.leb_le _ _) Hb), Hcomma. done.
Qed.

(** The context in which a verifier sees the request that was signed. *)
Definition same_request (i : SignInput) (c : VerifyContext) : Prop :=
vi_method c = si_method i
∧ resolveRequestTarget (vi_originalUrl c) (vi_publicPathPrefix c)
  = or_fail (canonicalizeRequestTarget (si_requestTarget i)) ATTESTATION_MALFORMED
∧ resolveContentType (vi_contentTypeHeader c)
  = or_fail (normalizeContentType (si_contentType i)) ATTESTATION_MALFORMED
∧ vi_bodyDigestHex c = si_bodyHashHex i
∧ assertAllowedContentEncoding (vi_contentEncodingHeader c) = Ok tt.

Lemma verify_decoded_complete c f s e t R m tgt ct bh b rk nowz :
  copyAttestationSnapshot (vi_snapshot c) = Ok s → find_key (keyId f) (ks_keys s) = Some e →
  is_timestamp (vi_nowMs c) nowz →
  checkProofTiming (timestampMs f) (vi_nowMs c) e (vi_policy c) = Ok t → retainUntilMs t = Some R →
  is_safe R = true →
  resolveRequestTarget (vi_originalUrl c) (vi_publicPathPrefix c) = Ok tgt →
  normalizeMethod (vi_method c) = Ok m → assertAllowedContentEncoding (vi_contentEncodingHeader c) = Ok tt →
  resolveContentType (vi_contentTypeHeader c) = Ok ct → resolveBodyDigest (vi_bodyDigestHex c) = Ok bh →
  buildMacInputBytes parse_url (mkMacInputFields (vi_replayNamespace c) (vi_publicOrigin c) (keyId f)
  (timestampMs f) (nonceHex f) m tgt ct bh) = Ok b →
  mac f = base64urlEncode (hmac_sha256 (ke_key e) b) →
  deriveReplayKey parse_url sha256 (vi_replayNamespace c) (vi_publicOrigin c) (nonceHex f) = Ok rk →
  verifyDecodedAttestationProof parse_url sha256 hmac_sha256 c f
  = Ok (mkVerified (keyId f) (timestampMs f) (nonceHex f) e t rk R m tgt ct bh).
Proof.
  intros Hs He Hn Ht HR Hsafe Htgt Hm Henc Hct Hbh Hb Hmac Hrk. unfold verifyDecodedAttestationProof.
  rewrite Hs. cbn [res_bind]. rewrite He. cbn [res_bind].
  rewrite (proj2 (timestamp_Ok _ _ _) Hn). cbn [or_fail res_catch res_bind]. rewrite Ht. cbn [res_bind].
  rewrite Htgt, Hm. cbn [or_fail res_catch res_bind]. rewrite Henc. cbn [res_bind].
  rewrite Hct, Hbh. cbn [res_bind]. rewrite Hb. cbn [or_fail res_catch res_bind].
  rewrite Hmac, base64url_decode_encode; [|by apply hmac_bytes|].
  2: { intros E. pose proof (hmac_length (ke_key e) b) as Hl. by rewrite E in Hl. }
  cbn [or_fail res_catch res_bind]. rewrite hmac_length, bool_decide_true by done. cbn [Nat.eqb andb guard res_bind].
  rewrite Hrk. cbn [or_fail res_catch res_bind]. rewrite HR, Hsafe. done.
Qed.

Lemma derive_of_framed f z m t c :
  framed parse_url f z m t c →
  ∃ rk, deriveReplayKey parse_url sha256 (mi_replayNamespace f) (mi_publicOrigin f) (mi_nonceHex f) = Ok rk.
Proof.
  intros (H1 & H2 & _ & _ & _ & H5 & _). unfold deriveReplayKey, buildReplayKeyPreimageBytes.
  rewrite (proj2 (validateReplayNamespace_Ok _ _)), (proj2 (validateNonceHex_Ok _ _)) by done.
  destruct (validatePublicOrigin _ _); [|done]. cbn [res_bind].
  rewrite (proj2 (canonical_array _ _) eq_refl). cbn [res_bind]. eauto.
Qed.

Lemma sign_Ok kid origin ns key i h :
  sign parse_url hmac_sha256 kid origin ns key i = Ok h →
  ∃ m tgt ct bh nonce b z, normalizeMethod (si_method i) = Ok m
  ∧ canonicalizeRequestTarget (si_requestTarget i) = Ok tgt
  ∧ normalizeContentType (si_contentType i) = Ok ct
  ∧ validateBodyHashHex (si_bodyHashHex i) = Ok bh ∧ si_nonceHex i = JStr nonce
  ∧ buildMacInputBytes parse_url
      (mkMacInputFields ns origin kid (si_timestampMs i) nonce m tgt ct bh) = Ok b
  ∧ encodeTransactionId (mkTransactionIdFields kid (si_timestampMs i) nonce
      (base64urlEncode (hmac_sha256 key b))) = Ok h
  ∧ valid_fields (mkTransactionIdFields kid (si_timestampMs i) nonce
      (base64urlEncode (hmac_sha256 key b))) z.
Proof.
  unfold sign. intros H.
  apply res_bind_Ok in H as (m & Hm & H). apply res_bind_Ok in H as (tgt & Htgt & H).
  apply res_bind_Ok in H as (ct & Hct & H). apply res_bind_Ok in H as (bh & Hbh & H).
  apply res_bind_Ok in H as (? & _ & H). apply res_bind_Ok in H as (nonce & [Hnonce _]%validateNonceHex_Ok & H).
  apply res_bind_Ok in H as (b & Hb & H). destruct (encode_Ok_valid _ _ H) as [z Hz].
  exists m, tgt, ct, bh, nonce, b, z. done.
Qed.

(** Changing the number's representation does not change the framing. *)
Lemma build_mac_num ns o k n n' z nonce m t c bh b :
  safe_integer n = Some z → safe_integer n' = Some z →
  buildMacInputBytes parse_url (mkMacInputFields ns o k n nonce m t c bh) = Ok b →
  buildMacInputBytes parse_url (mkMacInputFields ns o k n' nonce m t c bh) = Ok b.
Proof.
  intros Hn Hn' (z' & m' & t' & c' & (H1 & H2 & H3 & H4 & Hz & H5 & H6 & H7 & H8 & H9) & ->)%build_mac_Ok.
  cbn [mi_timestampMs] in H4. assert (z' = z) as -> by congruence.
  apply build_mac_Ok. exists z, m', t', c'. split; [|reflexivity].
  split_and!; first [exact Hn'|assumption|tauto].
Qed.

(** C37: Completeness: what the signer produces, the verifier of the same protection
  space, holding the same key, accepts for the same request while the proof
  is fresh; the replay key is that of the signed nonce. *)
Theorem sign_verify (kid : jsstr) (key : list Z) (i : SignInput) (h : jsstr) (c : VerifyContext)
  (s : AttestationKeySnapshot) (e : AttestationKeyEntry) (t : ProofTiming) (R now z : Z) :
  sign parse_url hmac_sha256 kid (vi_publicOrigin c) (vi_replayNamespace c) key i = Ok h →
  same_request i c →
  copyAttestationSnapshot (vi_snapshot c) = Ok s → find_key kid (ks_keys s) = Some e → ke_key e = key →
  is_timestamp (vi_nowMs c) now → safe_integer (si_timestampMs i) = Some z →
  checkProofTiming (num_of_Z z) (vi_nowMs c) e (vi_policy c) = Ok t →
  retainUntilMs t = Some R → is_safe R = true →
  ∃ v, verifyAttestationProof parse_url sha256 hmac_sha256 (JStr h) c = Ok v
  ∧ vp_keyId v = kid ∧ vp_timestampMs v = num_of_Z z ∧ vp_retainUntilMs v = R
  ∧ si_nonceHex i = JStr (vp_nonceHex v).
Proof.
  intros Hsign (Hm & Htgt & Hct & Hbody & Henc) Hs He Hkey Hn Hz Ht HR Hsafe.
  apply sign_Ok in Hsign as (m & tgt & ct & bh & nonce & b & z' & H1 & H2 & H3 & H4 & Hnonce & H5 & H6 & H7).
  assert (z' = z) as -> by (destruct H7 as (_ & H7 & _); cbn [timestampMs] in H7; congruence).
  pose proof (extract_encoded _ _ H6) as Hext. pose proof (decode_of_encode _ _ _ H7 H6) as Hdec.
  cbn [keyId nonceHex mac] in Hdec.
  pose proof H5 as (z2 & m2 & t2 & c2 & Hframed & _)%build_mac_Ok.
  destruct (derive_of_framed _ _ _ _ _ Hframed) as [rk Hrk]. cbn [mi_replayNamespace mi_publicOrigin mi_nonceHex] in Hrk.
  exists (mkVerified kid (num_of_Z z) nonce e t rk R m tgt ct bh). split; [|done].
  unfold verifyAttestationProof, preflightAttestationProof. rewrite Hext. cbn [or_fail res_catch res_bind].
  rewrite Hdec. cbn [or_fail res_catch res_bind].
  set (f := mkTransactionIdFields kid (num_of_Z z) nonce (base64urlEncode (hmac_sha256 key b))).
  apply (verify_decoded_complete c f s e t R m tgt ct bh b rk now).
  - exact Hs.
  - exact He.
  - exact Hn.
  - exact Ht.
  - exact HR.
  - exact Hsafe.
  - rewrite Htgt. by apply or_fail_Ok.
  - by rewrite Hm.
  - exact Henc.
  - rewrite Hct. by apply or_fail_Ok.
  - unfold resolveBodyDigest. rewrite Hbody. by apply or_fail_Ok.
  - eapply build_mac_num; [exact Hz| |exact H5]. apply safe_integer_of_Z.
    destruct H7 as (_ & _ & Hr & _). by apply is_safe_nonneg.
  - by rewrite Hkey.
  - exact Hrk.
Qed.
End verifier_theorems.

(** * Concrete instances *)

(** Stand-ins for the digests: 32 bytes, computed from the input. *)
Definition toy_hash (m : list Z) : list Z := repeat (fold_left Z.add m 0 mod 256) 32.
Definition toy_hmac (k m : list Z) : list Z := toy_hash (k ++ m).

Lemma toy_hash_bytes m : bytes_ok (toy_hash m).
Proof.
  apply Forall_forall. intros b Hb%list_elem_of_In%repeat_spec. subst. unfold byte_ok. lia.
Qed.

Definition example_key_bytes : list Z := repeat 7 32.
Definition example_sign_input : SignInput :=
  mkSignInput (JStr (js "get")) (JStr (js "/a?x=1")) (JStr (js " text/plain")) (JStr (repeat 48 64))
    (num_of_Z 1000000) (JStr (nonceHex example_fields)).
Definition example_header : jsstr :=
  match sign example_url_parser toy_hmac (js "k1") example_origin (js "orders") example_key_bytes
          example_sign_input with Ok h => h | Err _ => [] end.
Definition example_entry : AttestationKeyEntry := mkEntry (js "k1") example_key_bytes 0 9000000.
Definition example_keys : AttestationKeySnapshot := mkKeys (js "k1") [example_entry].
Definition example_context : VerifyContext :=
  mkContext (JStr (js "get")) (JStr (js "/a?x=1")) [] (JStr (js "text/plain")) JUndef
    (JStr (repeat 48 64)) (snapshot_to_value example_keys) (num_of_Z 1000000) default_policy
    (js "orders") example_origin.
Definition example_verified : AttestationVerifiedProof :=
  mkVerified (js "k1") (num_of_Z 1000000) (nonceHex example_fields) example_entry example_timing
    (match deriveReplayKey example_url_parser toy_hash (js "orders") example_origin (nonceHex example_fields)
     with Ok k => k | Err _ => [] end)
    1040000 (js "GET") (js "/a?x=1") (js "text/plain") (repeat 48 64).

Lemma verify_sound_witness :
  ∃ value f, extractSingleHeaderValue (JStr example_header) = Ok (Some value)
    ∧ decodeTransactionId (JStr value) = Ok f ∧ encodeTransactionId f = Ok value
    ∧ proof_established example_url_parser toy_hash toy_hmac example_context f example_verified.
Proof.
  apply (verify_sound example_url_parser toy_hash toy_hmac (JStr example_header) example_context).
  vm_compute. reflexivity.
Defined.

Lemma sign_verify_witness :
  ∃ v, verifyAttestationProof example_url_parser toy_hash toy_hmac (JStr example_header) example_context = Ok v
    ∧ vp_keyId v = js "k1" ∧ vp_timestampMs v = num_of_Z 1000000 ∧ vp_retainUntilMs v = 1040000
    ∧ si_nonceHex example_sign_input = JStr (vp_nonceHex v).
Proof.
  apply (sign_verify example_url_parser toy_hash toy_hmac) with (key := example_key_bytes)
    (s := example_keys) (e := example_entry) (t := example_timing) (now := 1000000).
  - reflexivity.
  - intros k m. apply toy_hash_bytes.
  - vm_compute. reflexivity.
  - repeat split; vm_compute; reflexivity.
  - vm_compute. reflexivity.
  - reflexivity.
  - reflexivity.
  - by apply timestamp_num.
  - reflexivity.
  - vm_compute. reflexivity.
  - reflexivity.
  - reflexivity.
Defined.

Lemma example_units s : all_units is_ascii s = true → units_ok s.
Proof. apply ascii_units_ok. Qed.

Lemma tamper_evident_witness :
  (∃ b1 b2, b1 ≠ b2 ∧ toy_hmac example_key_bytes b1 = toy_hmac example_key_bytes b2)
  ∨ (js "orders" = js "orders" ∧ example_origin = example_origin
     ∧ vp_method example_verified = vp_method example_verified
     ∧ vp_requestTarget example_verified = vp_requestTarget example_verified
     ∧ vp_contentType example_verified = vp_contentType example_verified
     ∧ vp_bodyHashHex example_verified = vp_bodyHashHex example_verified).
Proof.
  apply (tamper_evident example_url_parser toy_hash toy_hmac (JStr example_header) example_context
    example_context example_verified example_verified).
  - vm_compute. reflexivity.
  - vm_compute. reflexivity.
  - reflexivity.
  - intros k m. split; [apply toy_hash_bytes|discriminate].
  - repeat split; apply example_units; vm_compute; reflexivity.
  - repeat split; apply example_units; vm_compute; reflexivity.
Defined.

Lemma replay_keys_separate_witness :
  (∃ b1 b2, b1 ≠ b2 ∧ toy_hash b1 = toy_hash b2)
  ∨ (js "orders" = js "orders" ∧ example_origin = example_origin
     ∧ nonceHex example_fields = nonceHex example_fields).
Proof.
  apply (replay_keys_separate example_url_parser toy_hash toy_hmac _ _ _ _ _ _ (vp_replayKey example_verified)).
  - apply toy_hash_bytes.
  - apply example_units; vm_compute; reflexivity.
  - apply example_units; vm_compute; reflexivity.
  - vm_compute. reflexivity.
  - vm_compute. reflexivity.
Defined.
