(* ===== verification/AttestMiddleware.v ===== *)
(** express-request-attestation, [middleware.ts]: configuration, extraction of the
    request facts and the verify-before-reserve guard, run against the in-memory
    store.

    The asynchronous waits are inputs of the model: the provider's answer ([None]
    when it throws, rejects or times out), the clock readings, and whether the
    store's answer arrives before the operation timeout. *)

From S2P Require Import Prelude JsValue JsJson AttestTypes AttestCanonical AttestCodec AttestTime IndexedHeap AttestStore AttestVerify.

Definition DEFAULT_ATTESTATION_HEADER : jsstr := js "x-client-transaction-id".
Definition EMPTY_BODY_SHA256_HEX : jsstr :=
  js "e3b0c44298fc1c149afbf4c8996fb92427ae41e4649b934ca495991b7852b855".
Definition MIDDLEWARE_OPTION_KEYS : list jsstr :=
  [js "publicOrigin"; js "replayNamespace"; js "publicPathPrefix"; js "keyProvider"; js "store";
   js "maxAgeMs"; js "clockSkewMs"; js "clusterClockGuardMs"; js "headerName"; js "now";
   js "operationTimeoutMs"; js "onDiagnostic"].
Definition DEFAULT_OPERATION_TIMEOUT_MS : Z := 5000.
Definition MIN_OPERATION_TIMEOUT_MS : Z := 1.
Definition MAX_OPERATION_TIMEOUT_MS : Z := 60000.

(** * Configuration *)

Definition ends_with_char (c : Z) (s : jsstr) : bool :=
  match last s with Some d => d =? c | None => false end.

Definition validatePublicPathPrefix (value : jsval) : pres jsstr :=
  match value with
  | JUndef => Ok []
  | JStr [] => Ok []
  | JStr s =>
      require (starts_with (js "/") s) "publicPathPrefix must start with /" ;;;
      require (negb (ends_with_char 47 s)) "publicPathPrefix must not end with /" ;;;
      require (negb (includes_char 63 s || includes_char 35 s || includes_char 92 s))
        "publicPathPrefix must not contain query, fragment, or backslashes" ;;;
      require (forallb (λ code, negb ((code <=? 32) || (code =? 127))) (code_points s))
        "publicPathPrefix must not contain controls or spaces" ;;;
      Ok s
  | _ => throw "publicPathPrefix must be a string"
  end.

Definition is_function (v : jsval) : bool := match v with JFun _ => true | _ => false end.

Record ResolvedMiddlewareConfig := mkConfig {
  cfg_publicOrigin : jsstr;
  cfg_replayNamespace : jsstr;
  cfg_publicPathPrefix : jsstr;
  cfg_policy : ResolvedTimePolicy;
  cfg_headerName : jsstr;
  cfg_headerNameLower : jsstr;
  cfg_operationTimeoutMs : Z
}.

(** [options.k === undefined ? {} : { k: options.k }] *)
Definition present_option (options : jsval) (k : jsstr) : list (jsstr * jsval) :=
  match get_field options k with JUndef => [] | v => [(k, v)] end.

(** A service: an object with the named method (an array is an object here). *)
Definition exposes (service : jsval) (method : jsstr) : bool :=
  match service with
  | JObj _ _ => is_function (get_field service method)
  | _ => false
  end.

Definition resolveConfig (parse_url : jsstr → option URL) (options : jsval)
    : pres ResolvedMiddlewareConfig :=
  require (is_non_array_object options) "attestation middleware options must be an object" ;;;
  res_iter (λ key, guard (bool_decide (key ∈ MIDDLEWARE_OPTION_KEYS))
                     (protocolError (js "unknown attestation middleware option " ++ key)))
    (object_keys options) ;;;
  let* publicOrigin := validatePublicOrigin parse_url (get_field options (js "publicOrigin")) in
  let* replayNamespace := validateReplayNamespace (get_field options (js "replayNamespace")) in
  let* publicPathPrefix := validatePublicPathPrefix (get_field options (js "publicPathPrefix")) in
  require (exposes (get_field options (js "keyProvider")) (js "getSnapshot"))
    "attestation middleware keyProvider must expose getSnapshot()" ;;;
  require (exposes (get_field options (js "store")) (js "reserve"))
    "attestation middleware store must expose reserve()" ;;;
  let* policy := resolveTimePolicy
    (JObj true (present_option options (js "maxAgeMs") ++ present_option options (js "clockSkewMs")
                ++ present_option options (js "clusterClockGuardMs"))) in
  let* headerName := validateHeaderName
    (nullish_or (get_field options (js "headerName")) (JStr DEFAULT_ATTESTATION_HEADER)) in
  require (is_function (nullish_or (get_field options (js "now")) (JFun 0)))
    "attestation middleware now must be a function" ;;;
  let range := Err (protocolError (js "operationTimeoutMs must be a safe integer in ["
    ++ dec_of_Z MIN_OPERATION_TIMEOUT_MS ++ js ", " ++ dec_of_Z MAX_OPERATION_TIMEOUT_MS ++ js "]")) in
  let* operationTimeoutMs :=
    match nullish_or (get_field options (js "operationTimeoutMs"))
            (JNum (num_of_Z DEFAULT_OPERATION_TIMEOUT_MS)) with
    | JNum n =>
        match safe_integer n with
        | Some z => if (z <? MIN_OPERATION_TIMEOUT_MS) || (MAX_OPERATION_TIMEOUT_MS <? z)
                    then range else Ok z
        | None => range
        end
    | _ => range
    end in
  require (match get_field options (js "onDiagnostic") with JUndef | JFun _ => true | _ => false end)
    "attestation middleware onDiagnostic must be a function" ;;;
  Ok (mkConfig publicOrigin replayNamespace publicPathPrefix policy headerName (to_lower headerName)
        operationTimeoutMs).

(** * Request facts *)

(** [rq_digest] is the digest of the body-capture record of the request, if any. *)
Record GuardRequest := mkRequest {
  rq_headers : jsval;
  rq_rawHeaders : jsval;
  rq_method : jsval;
  rq_originalUrl : jsval;
  rq_url : jsval;
  rq_body : jsval;
  rq_digest : option jsstr
}.

Definition checkedNow (value : num) : ares num :=
  or_fail (assertTimestampMs (js "nowMs") (JNum value)) ATTESTATION_INTERNAL_ERROR ;;; Ok value.

(** The occurrences of a name in [rawHeaders], as [(rawCount, firstRaw)]. *)
Fixpoint raw_occurrences (raw : list jsval) (lowerName : jsstr) (rawCount : nat)
    (firstRaw : option jsstr) : nat * option jsstr :=
  match raw with
  | name :: value :: raw =>
      match name with
      | JStr n =>
          if jsstr_eqb (to_lower n) lowerName
          then raw_occurrences raw lowerName (S rawCount)
                 (match firstRaw, value with
                  | None, JStr v => Some v
                  | _, _ => firstRaw
                  end)
          else raw_occurrences raw lowerName rawCount firstRaw
      | _ => raw_occurrences raw lowerName rawCount firstRaw
      end
  | _ => (rawCount, firstRaw)
  end.

Definition extractRawHeader (rq : GuardRequest) (lowerName : jsstr) : ares jsval :=
  let '(rawCount, firstRaw) :=
    match rq_rawHeaders rq with
    | JArr raw => raw_occurrences raw lowerName 0 None
    | _ => (0%nat, None)
    end in
  guard (rawCount <=? 1)%nat ATTESTATION_MALFORMED ;;;
  match get_field (rq_headers rq) lowerName with
  | JUndef =>
      Ok (match firstRaw with
          | Some first => if (rawCount =? 1)%nat then JStr first else JUndef
          | None => JUndef
          end)
  | JArr l =>
      match List.filter (λ entry, negb (is_undef entry)) l with
      | [] => Ok JUndef
      | [entry] => Ok entry
      | _ => Err ATTESTATION_MALFORMED
      end
  | value => Ok value
  end.

(** [Number(s.trim())] is a safe integer and zero. *)
Definition zero_length (s : jsstr) : bool :=
  match safe_integer (string_to_number (trim s)) with
  | Some z => z =? 0
  | None => false
  end.
Definition blank (v : jsval) : bool :=
  match v with JStr s => bool_decide (trim s = []) | _ => true end.

Definition resolveBodyDigestHex (rq : GuardRequest) : ares jsstr :=
  match rq_digest rq with
  | Some digestHex => Ok digestHex
  | None =>
      guard
        (match get_field (rq_headers rq) (js "content-length") with
         | JStr s => bool_decide (trim s = []) || zero_length s
         | JArr l => forallb (λ entry, blank entry || match entry with JStr s => zero_length s | _ => true end) l
         | _ => true
         end)
        ATTESTATION_BODY_CAPTURE_REQUIRED ;;;
      guard
        (match get_field (rq_headers rq) (js "transfer-encoding") with
         | JStr s => bool_decide (trim s = [])
         | JArr l => forallb blank l
         | _ => true
         end)
        ATTESTATION_BODY_CAPTURE_REQUIRED ;;;
      guard
        (match rq_body rq with
         | JStr s => (length s =? 0)%nat
         | JBytes bs => (length bs =? 0)%nat
         | JArr l => (length l =? 0)%nat
         | JObj _ _ as body => (length (object_keys body) =? 0)%nat
         | _ => true
         end)
        ATTESTATION_BODY_CAPTURE_REQUIRED ;;;
      Ok EMPTY_BODY_SHA256_HEX
  end.

(** [sendControlledError]: status, added headers and JSON body. *)
Record ErrorResponse := mkResponse {
  resp_status : Z;
  resp_headers : list (jsstr * jsstr);
  resp_body : jsval
}.

Definition error_response (code_text : jsstr) (code : AttestationErrorCode) : ErrorResponse :=
  let '(status, message) := ERROR_DETAILS code in
  mkResponse status
    ((js "Cache-Control", js "no-store")
     :: (if bool_decide (code = ATTESTATION_STALE_KEY)
         then [(js "X-Attestation-Error", js "stale-key")] else []))
    (JObj true [(js "code", JStr code_text); (js "message", JStr message)]).

(** * The guard *)

(** Everything the environment decides during one request. *)
Record Environment := mkEnv {
  env_now1 : num;               (** [now()] before the provider is asked *)
  env_provider : option jsval;  (** the provider's snapshot, [None] on failure *)
  env_now2 : num;               (** before the reservation *)
  env_store : num;              (** the store's clock *)
  env_late : bool;              (** the reservation outlasts the operation timeout *)
  env_now3 : num                (** after the reservation *)
}.

Section guard.
Variable parse_url : jsstr → option URL.
Variable sha256 : list Z → list Z.
Variable hmac_sha256 : list Z → list Z → list Z.
Variable cfg : ResolvedMiddlewareConfig.

Definition guard_context (rq : GuardRequest) (contentType : jsval) (nowMs : num)
  (snapshot : AttestationKeySnapshot) (digest : jsstr) : VerifyContext :=
mkContext (rq_method rq)
  (match rq_originalUrl rq with JStr s => JStr s | _ => rq_url rq end)
  (cfg_publicPathPrefix cfg) contentType
  (nullish_or (get_field (rq_headers rq) (js "content-encoding")) JUndef)
  (JStr digest) (snapshot_to_value snapshot) nowMs (cfg_policy cfg)
  (cfg_replayNamespace cfg) (cfg_publicOrigin cfg).

(** Up to [verifyProof]. *)
Definition guard_verify (rq : GuardRequest) (env : Environment) : ares AttestationVerifiedProof :=
let* header := extractRawHeader rq (cfg_headerNameLower cfg) in
let* verifyProof := preflightAttestationProof parse_url sha256 hmac_sha256 header in
let* contentType := extractRawHeader rq (js "content-type") in
let* nowMs := checkedNow (env_now1 env) in
let* snapshot := match env_provider env with
                 | Some value => copyAttestationSnapshot value
                 | None => Err ATTESTATION_KEYS_UNAVAILABLE
                 end in
let* digest := resolveBodyDigestHex rq in
verifyProof (guard_context rq contentType nowMs snapshot digest).

Definition guard_recheck (v : AttestationVerifiedProof) (now : num) : ares ProofTiming :=
let* nowMs := checkedNow now in
checkProofTiming (vp_timestampMs v) nowMs (vp_keyEntry v) (cfg_policy cfg).

(** The recheck before the reservation: the deadline to reserve until. *)
Definition guard_retain (v : AttestationVerifiedProof) (now : num) : ares Z :=
let* rechecked := guard_recheck v now in
match retainUntilMs rechecked with
| Some R => guard (is_safe R) ATTESTATION_EXPIRED ;;; Ok R
| None => Err ATTESTATION_EXPIRED
end.

Definition reserve_outcome (late : bool) (o : result store_error ReserveResult) : ares unit :=
if late then Err ATTESTATION_REPLAY_UNAVAILABLE
else
  match o with
  | Err _ => Err ATTESTATION_REPLAY_UNAVAILABLE
  | Ok Duplicate => Err ATTESTATION_REPLAY
  | Ok ReserveExpired => Err ATTESTATION_EXPIRED
  | Ok Reserved => Ok tt
  end.

(** One request against the memory store: [Ok tt] is the single [next()]. *)
Definition guard_request (max : Z) (rq : GuardRequest) (env : Environment) (st : StoreState)
  : option (ares unit * StoreState) :=
match (let* v := guard_verify rq env in let* R := guard_retain v (env_now2 env) in Ok (v, R)) with
| Err code => Some (Err code, st)
| Ok (v, R) =>
    '(o, st') ← reserve max (env_store env) (reserve_input (vp_replayKey v) R) st;
    Some ((reserve_outcome (env_late env) o ;;; guard_recheck v (env_now3 env) ;;; Ok tt), st')
end.
End guard.

(** * Properties *)

Section guard_theorems.
Variable parse_url : jsstr → option URL.
Variable sha256 : list Z → list Z.
Variable hmac_sha256 : list Z → list Z → list Z.
Variable cfg : ResolvedMiddlewareConfig.

Lemma guard_verify_Ok rq env v :
  guard_verify parse_url sha256 hmac_sha256 cfg rq env = Ok v →
  ∃ header value f provided s c,
  extractRawHeader rq (cfg_headerNameLower cfg) = Ok header
  ∧ extractSingleHeaderValue header = Ok (Some value) ∧ decodeTransactionId (JStr value) = Ok f
  ∧ env_provider env = Some provided ∧ copyAttestationSnapshot provided = Ok s
  ∧ vi_snapshot c = snapshot_to_value s ∧ vi_policy c = cfg_policy cfg
  ∧ vi_replayNamespace c = cfg_replayNamespace cfg ∧ vi_publicOrigin c = cfg_publicOrigin cfg
  ∧ proof_established parse_url sha256 hmac_sha256 c f v.
Proof.
  unfold guard_verify. intros H.
  apply res_bind_Ok in H as (header & Hh & H). apply res_bind_Ok in H as (k & Hk & H).
  apply preflight_Ok in Hk as (value & f & Hext & Hdec & ->).
  apply res_bind_Ok in H as (ct & _ & H). apply res_bind_Ok in H as (nowMs & _ & H).
  apply res_bind_Ok in H as (s & Hs & H). apply res_bind_Ok in H as (d & _ & H).
  destruct (env_provider env) as [provided|] eqn:Hp; [|done].
  exists header, value, f, provided, s, (guard_context cfg rq ct nowMs s d).
  split_and!; try done. by apply verify_decoded_sound.
Qed.

Lemma guard_retain_Ok v now R :
  guard_retain cfg v now = Ok R →
  ∃ r z, is_timestamp now z
  ∧ evaluateProofTiming (vp_timestampMs v) now (num_of_Z (ke_acceptFrom (vp_keyEntry v)))
      (num_of_Z (ke_acceptUntil (vp_keyEntry v))) (cfg_policy cfg) = Ok r
  ∧ decision r = Valid ∧ retainUntilMs r = Some R.
Proof.
  unfold guard_retain, guard_recheck, checkedNow. intros (r & H & HR)%res_bind_Ok.
  apply res_bind_Ok in H as (now' & Hnow & Ht). apply res_bind_Ok in Hnow as (z & Hz%or_fail_Ok & [= <-]).
  apply check_timing_Ok in Ht as [Ht Hv]. apply timestamp_Ok in Hz. exists r, z.
  destruct (retainUntilMs r) as [R'|]; [|done].
  apply res_bind_Ok in HR as (? & _ & [= ->]). done.
Qed.

Lemma guard_request_passed max rq env st st' :
  guard_request parse_url sha256 hmac_sha256 cfg max rq env st = Some (Ok tt, st') →
  ∃ v R, guard_verify parse_url sha256 hmac_sha256 cfg rq env = Ok v
  ∧ guard_retain cfg v (env_now2 env) = Ok R
  ∧ reserve max (env_store env) (reserve_input (vp_replayKey v) R) st = Some (Ok Reserved, st').
Proof.
  unfold guard_request. destruct (res_bind _ _) as [[v R]|] eqn:E; [|done].
  apply res_bind_Ok in E as (v' & Hv & E). apply res_bind_Ok in E as (R' & HR & [= -> ->]).
  destruct (reserve _ _ _ st) as [[o st1]|] eqn:Hres; [|done]. cbn [mbind option_bind].
  intros [= Ho <-]. apply res_bind_Ok in Ho as ([] & Hout & _). unfold reserve_outcome in Hout.
  destruct (env_late env); [done|]. destruct o as [[]|]; try done. eauto.
Qed.

(** The key windows two providers publish agree on shared identifiers, as the
  package requires of one protection space. *)
Definition same_windows (s1 s2 : AttestationKeySnapshot) : Prop :=
∀ e1 e2, e1 ∈ ks_keys s1 → e2 ∈ ks_keys s2 → ke_keyId e1 = ke_keyId e2 →
  ke_acceptFrom e1 = ke_acceptFrom e2 ∧ ke_acceptUntil e1 = ke_acceptUntil e2.

(** C2: No replay: after one request passed the guard, no request that presents the
  same header value passes it again, whatever else differs (method, target,
  body, other calls on the store in between), provided the keys have the same
  acceptance windows in the key snapshots of the two requests (a key whose window
  is widened in between can outlive the reservation), and the store clocks stay
  within the cluster guard of the verifier that rechecks the second request. *)
Theorem guard_refuses_replay (max : Z) (rq1 rq2 : GuardRequest) (env1 env2 : Environment)
  (p1 p2 : jsval) (s1 s2 : AttestationKeySnapshot) (now2 t2 : Z) (mid : list (num * jsval))
  (os : list _) (st st1 st2 st3 : StoreState) (result : ares unit) :
  policy_ok (cfg_policy cfg) → wf_heap retention st →
  extractRawHeader rq1 (cfg_headerNameLower cfg) = extractRawHeader rq2 (cfg_headerNameLower cfg) →
  env_provider env1 = Some p1 → copyAttestationSnapshot p1 = Ok s1 →
  env_provider env2 = Some p2 → copyAttestationSnapshot p2 = Ok s2 → same_windows s1 s2 →
  is_timestamp (env_now2 env2) now2 → is_timestamp (env_store env2) t2 →
  Z.abs (t2 - now2) <= clusterClockGuardMs (cfg_policy cfg) →
  Forall (λ c, ∀ t, safe_integer c.1 = Some t → t <= now2 + clusterClockGuardMs (cfg_policy cfg)) mid →
  guard_request parse_url sha256 hmac_sha256 cfg max rq1 env1 st = Some (Ok tt, st1) →
  run max mid st1 = Some (os, st2) →
  guard_request parse_url sha256 hmac_sha256 cfg max rq2 env2 st2 = Some (result, st3) →
  result ≠ Ok tt.
Proof.
  intros Hp Hwf Hhdr Hp1 Hs1 Hp2 Hs2 Hwin Hn2 Ht2 Hguard Hclk G1 Hmid G2 ->.
  apply guard_request_passed in G1 as (v1 & R1 & V1 & A1 & E1).
  apply guard_request_passed in G2 as (v2 & R2 & V2 & A2 & E2).
  apply guard_verify_Ok in V1 as (h1 & x1 & f1 & p1' & s1' & c1 & X1 & Y1 & D1 & P1 & S1 & CS1 & _ & CN1 & CO1
    & [(k1 & K1 & I1 & N1) _ _ _ _ _ _ _ RK1 (_ & TS1 & _)]).
  apply guard_verify_Ok in V2 as (h2 & x2 & f2 & p2' & s2' & c2 & X2 & Y2 & D2 & P2 & S2 & CS2 & _ & CN2 & CO2
    & [(k2 & K2 & I2 & N2) _ _ _ _ _ _ _ RK2 (_ & TS2 & _)]).
  assert (f2 = f1) as -> by congruence. clear X1 Y1 D1 X2 Y2 D2.
  rewrite CS1, (proj2 (copy_snapshot_Ok _ _ S1)) in K1. rewrite CS2, (proj2 (copy_snapshot_Ok _ _ S2)) in K2.
  assert (k1 = s1) as -> by congruence. assert (k2 = s2) as -> by congruence.
  destruct (Hwin _ _ I1 I2) as [HF HU]; [congruence|].
  assert (vp_replayKey v2 = vp_replayKey v1) as HK by congruence.
  apply guard_retain_Ok in A1 as (r1 & z1 & _ & Ev1 & Va1 & Re1).
  apply guard_retain_Ok in A2 as (r2 & z2 & _ & Ev2 & Va2 & Re2).
  rewrite TS1, HF, HU in Ev1. rewrite TS2 in Ev2. rewrite HK in E2.
  destruct (reserved_checks _ _ _ _ _ _ E1) as [t1 C1].
  assert (Ok Reserved = Ok (E:=store_error) Duplicate) as Hbad; [|done].
  exact (replay_refused (cfg_policy cfg) (timestampMs f1) (env_now2 env1) (env_now2 env2) _ _
    (env_store env1) (env_store env2) r1 r2 R1 R2 now2 t1 t2 (vp_replayKey v1) max mid
    st st1 st2 st3 os _ Hp Hwf Ev1 Va1 Re1 C1 E1 Hmid Ev2 Va2 Re2 Hn2 Ht2 Hguard Hclk E2).
Qed.

Hypothesis sha_length : ∀ m, length (sha256 m) = 32%nat.
Hypothesis sha_bytes : ∀ m, bytes_ok (sha256 m).

Lemma hex_printable bs : bytes_ok bs →
  forallb (in_range 32 126) (hexEncode bs) = true ∧ length (hexEncode bs) = (2 * length bs)%nat.
Proof.
  induction 1 as [|b bs Hb _ [IH1 IH2]]; [done|]. unfold byte_ok in Hb.
  assert (∀ n, 0 <= n < 16 → in_range 32 126 (hex_digit n) = true) as Hd.
  { intros n Hn. unfold hex_digit. case_match; apply in_range_spec; unit_class; lia. }
  cbn [hexEncode flat_map app forallb length]. rewrite !Hd by lia. cbn [andb]. unfold hexEncode in *.
  rewrite IH1, IH2. split; [done|lia].
Qed.

Lemma replay_key_valid ns o n k :
  deriveReplayKey parse_url sha256 ns o n = Ok k → is_ok (validateReplayKey (JStr k)) = true.
Proof.
  intros (pre & _ & Hk)%res_bind_Ok.
  assert (k = REPLAY_KEY_PREFIX ++ hexEncode (sha256 pre)) as -> by congruence.
  destruct (hex_printable (sha256 pre) (sha_bytes pre)) as [Hp Hl]. rewrite sha_length in Hl.
  unfold validateReplayKey, bounded_length. rewrite length_app, Hl.
  change (guard _ _) with (Ok (E:=thrown) tt) at 1.
  assert (forallb (in_range 32 126) (REPLAY_KEY_PREFIX ++ hexEncode (sha256 pre)) = true) as Hall
    by (rewrite forallb_app, Hp; done).
  rewrite ascii_code_points; [by rewrite Hall|].
  eapply (all_units_impl (in_range 32 126)); [|exact Hall].
  unfold is_ascii. intros c. rewrite !in_range_spec. lia.
Qed.

(** C24: Liveness: a proof that verifies and is still fresh at both rechecks passes
  the guard when its key is free, the store has room, the store's clock is within the
  cluster guard, and the reservation comes back before the time-out of the request
  ([env_late] is false); the deadline is then reserved under its key. *)
Theorem guard_admits_fresh (max : Z) (rq : GuardRequest) (env : Environment) (st : StoreState)
  (v : AttestationVerifiedProof) (R now2 t : Z) (r3 : ProofTiming) :
  policy_ok (cfg_policy cfg) → wf_heap retention st →
  guard_verify parse_url sha256 hmac_sha256 cfg rq env = Ok v →
  guard_retain cfg v (env_now2 env) = Ok R → guard_recheck cfg v (env_now3 env) = Ok r3 →
  env_late env = false → is_timestamp (env_now2 env) now2 → is_timestamp (env_store env) t →
  Z.abs (t - now2) <= clusterClockGuardMs (cfg_policy cfg) →
  (∀ e, view st !! vp_replayKey v = Some e → e <= t) → Z.of_nat (size (view st)) < max →
  ∃ st', guard_request parse_url sha256 hmac_sha256 cfg max rq env st = Some (Ok tt, st')
  ∧ view st' !! vp_replayKey v = Some R.
Proof.
  intros Hp Hwf Hv HR H3 Hlate Hn2 Ht Hguard Hfree Hroom. unfold guard_request.
  rewrite Hv. cbn [res_bind]. rewrite HR. cbn [res_bind].
  apply guard_verify_Ok in Hv as (? & ? & f & ? & ? & c & _ & _ & _ & _ & _ & _ & _ & _ & _ & [_ _ _ _ _ _ _ _ RK _]).
  apply guard_retain_Ok in HR as (r & z & Hz & Ev & Va & Re).
  destruct (same_retention _ _ _ _ _ _ _ _ _ _ Hp Ev Va Re Ev Va Hn2) as (_ & HRt & Hlo & Hhi).
  assert (reserve_checks (env_store env) (reserve_input (vp_replayKey v) R)
          = Ok (Some (vp_replayKey v, R, t))) as C.
  { apply reserve_checks_input; [by eapply replay_key_valid|done|done| |]; unfold_bounds; lia. }
  destruct (reserve_total max (env_store env) (reserve_input (vp_replayKey v) R) st Hwf)
    as (o & st' & E & _ & Adm). rewrite C in Adm. rewrite E. cbn [mbind option_bind].
  destruct Adm as [e He Hlt|m' _ _ _|m' _ Hrec Hfull].
  - specialize (Hfree e He). lia.
  - rewrite Hlate. cbn [reserve_outcome res_bind]. rewrite H3. eexists. split; [done|].
    by eapply reserve_reserved.
  - exfalso. apply reclaimed_size in Hrec.
    assert (size (delete (vp_replayKey v) (view st)) <= size (view st))%nat
      by (apply map_subseteq_size, delete_subseteq). lia.
Qed.
End guard_theorems.

(** * Concrete instances *)

Definition example_config : ResolvedMiddlewareConfig :=
  mkConfig example_origin (js "orders") [] default_policy DEFAULT_ATTESTATION_HEADER
    DEFAULT_ATTESTATION_HEADER 5000.
Definition example_rq : GuardRequest :=
  mkRequest (JObj true [(DEFAULT_ATTESTATION_HEADER, JStr example_header);
                        (js "content-type", JStr (js "text/plain"))])
    (JArr []) (JStr (js "get")) (JStr (js "/a?x=1")) JUndef JUndef (Some (repeat 48 64)).
Definition example_env (now : Z) : Environment :=
  mkEnv (num_of_Z now) (Some (snapshot_to_value example_keys)) (num_of_Z now) (num_of_Z now) false (num_of_Z now).
Definition guard_state (c : option (ares unit * StoreState)) : StoreState :=
  match c with Some (_, st) => st | None => empty_heap end.
Definition example_after : StoreState :=
  guard_state (guard_request example_url_parser toy_hash toy_hmac example_config 2 example_rq
                 (example_env 1000000) empty_heap).

Lemma guard_admits_fresh_witness :
  ∃ st', guard_request example_url_parser toy_hash toy_hmac example_config 2 example_rq
           (example_env 1000000) empty_heap = Some (Ok tt, st')
    ∧ view st' !! vp_replayKey example_verified = Some 1040000.
Proof.
  apply (guard_admits_fresh example_url_parser toy_hash toy_hmac) with
    (now2 := 1000000) (t := 1000000) (r3 := example_timing).
  - reflexivity.
  - apply toy_hash_bytes.
  - apply default_policy_ok.
  - apply empty_wf.
  - vm_compute. reflexivity.
  - vm_compute. reflexivity.
  - vm_compute. reflexivity.
  - reflexivity.
  - by apply timestamp_num.
  - by apply timestamp_num.
  - done.
  - intros e He. vm_compute in He. discriminate.
  - done.
Defined.

Lemma guard_refuses_replay_witness :
  ∃ result st, guard_request example_url_parser toy_hash toy_hmac example_config 2 example_rq
      (example_env 1034000) example_after = Some (result, st) ∧ result ≠ Ok tt.
Proof.
  destruct (guard_request example_url_parser toy_hash toy_hmac example_config 2 example_rq
      (example_env 1034000) example_after) as [[result st3]|] eqn:E.
  - exists result, st3. split; [reflexivity|].
    apply (guard_refuses_replay example_url_parser toy_hash toy_hmac example_config 2 example_rq example_rq
      (example_env 1000000) (example_env 1034000) (snapshot_to_value example_keys)
      (snapshot_to_value example_keys) example_keys example_keys 1034000 1034000 [] []
      empty_heap example_after example_after st3 result).
    + apply default_policy_ok.
    + apply empty_wf.
    + reflexivity.
    + reflexivity.
    + vm_compute. reflexivity.
    + reflexivity.
    + vm_compute. reflexivity.
    + clear E. intros e1 e2 H1 H2 _. apply list_elem_of_singleton in H1 as ->.
      apply list_elem_of_singleton in H2 as ->. split; reflexivity.
    + clear E. by apply timestamp_num.
    + clear E. by apply timestamp_num.
    + clear E. done.
    + constructor.
    + vm_compute. reflexivity.
    + reflexivity.
    + exact E.
  - vm_compute in E. discriminate.
Defined.
