(* ===== verification/HeapAdmission.v ===== *)
(** Bounded admission into an indexed heap, as the DPoP reservations and the logout
    tickets do it: a live holder of the identifier blocks; otherwise the stale
    holder and at most one batch of expired entries are dropped before the
    capacity is checked and the entry inserted. *)

From S2P Require Import Prelude IndexedHeap.

Inductive admission := AdmitLive | AdmitFull | AdmitInserted.

Section admission.
Context {P : Type} (expiry : P → Z).
Implicit Types (st : HeapState P).

Definition remove_holder st (k : list Z) : option (HeapState P) :=
match lookup_entry st k with
| Some e => heap_remove expiry st (node_index e)
| None => Some st
end.

Definition heap_admit (batch : nat) (max : Z) (live : P → bool) (expired : Z → bool)
  (k : list Z) (p : P) st : option (admission * HeapState P) :=
if match lookup_entry st k with Some e => live (node_rec e) | None => false end
then Some (AdmitLive, st)
else
  st1 ← remove_holder st k;
  st2 ← heap_sweep expiry batch expired st1;
  if max <=? heap_size st2 then Some (AdmitFull, st2)
  else st3 ← heap_push expiry st2 k p; Some (AdmitInserted, st3).

(** [m'] is [m] without at most [batch] expired entries. *)
Definition swept (batch : nat) (expired : Z → bool) (m m' : gmap (list Z) P) : Prop :=
m' ⊆ m ∧ (∀ k p, m !! k = Some p → expired (expiry p) = false → m' !! k = Some p)
∧ (size m <= size m' + batch)%nat
∧ ((∀ k p, m' !! k = Some p → expired (expiry p) = false) ∨ size m = (size m' + batch)%nat).

Lemma remove_holder_spec st k :
  wf_heap expiry st →
  ∃ st', remove_holder st k = Some st' ∧ wf_heap expiry st' ∧ view st' = delete k (view st).
Proof.
  intros Hwf. unfold remove_holder. destruct (lookup_entry st k) as [n|] eqn:E.
  - by apply remove_entry_spec.
  - exists st. split_and!; [done..|]. rewrite delete_id; [done|]. by rewrite lookup_entry_view, E.
Qed.

Lemma sweep_swept batch expired st :
  wf_heap expiry st → (∀ e e', e <= e' → expired e' = true → expired e = true) →
  ∃ st', heap_sweep expiry batch expired st = Some st' ∧ wf_heap expiry st'
  ∧ swept batch expired (view st) (view st').
Proof.
  intros Hwf Hmono. destruct (sweep_spec expiry batch expired st Hwf Hmono) as (st' & H1 & H2 & H3).
  by exists st'.
Qed.

Lemma heap_size_of_view st : wf_heap expiry st → heap_size st = Z.of_nat (size (view st)).
Proof. intros [Hs _]. unfold heap_size. by rewrite (view_size st). Qed.

Lemma admit_spec batch max live expired k p st :
  wf_heap expiry st → (∀ e e', e <= e' → expired e' = true → expired e = true) →
  ∃ a st', heap_admit batch max live expired k p st = Some (a, st') ∧ wf_heap expiry st' ∧
  match a with
  | AdmitLive => st' = st ∧ ∃ q, view st !! k = Some q ∧ live q = true
  | AdmitInserted => (∀ q, view st !! k = Some q → live q = false)
      ∧ ∃ m, view st' = <[k := p]> m ∧ swept batch expired (delete k (view st)) m
          ∧ Z.of_nat (size m) < max
  | AdmitFull => (∀ q, view st !! k = Some q → live q = false)
      ∧ swept batch expired (delete k (view st)) (view st') ∧ max <= Z.of_nat (size (view st'))
  end.
Proof.
  intros Hwf Hmono. unfold heap_admit.
  destruct (match lookup_entry st k with Some e => live (node_rec e) | None => false end) eqn:Hlive.
  { exists AdmitLive, st. split_and!; [done..|]. destruct (lookup_entry st k) as [n|] eqn:E; [|done].
    exists (node_rec n). by rewrite lookup_entry_view, E. }
  assert (∀ q, view st !! k = Some q → live q = false) as Hdead.
  { intros q. rewrite lookup_entry_view. destruct (lookup_entry st k); [|done]. by intros [= <-]. }
  destruct (remove_holder_spec st k Hwf) as (st1 & -> & Hwf1 & Hv1). cbn [mbind option_bind].
  destruct (sweep_swept batch expired st1 Hwf1 Hmono) as (st2 & -> & Hwf2 & Hsw). cbn [mbind option_bind].
  rewrite Hv1 in Hsw. rewrite heap_size_of_view by done. destruct (Z.leb_spec max (Z.of_nat (size (view st2)))).
  { exists AdmitFull, st2. done. }
  destruct (push_spec expiry st2 k p) as (st3 & -> & Hwf3 & Hv3); [done| |].
  { apply eq_None_not_Some. intros [e He]. destruct Hsw as [Hsub _].
    eapply lookup_weaken in He; [|apply Hsub]. by rewrite lookup_delete_eq in He. }
  cbn [mbind option_bind]. exists AdmitInserted, st3. split_and!; [done..|]. eauto.
Qed.

Lemma swept_size (batch : nat) (expired : Z → bool) (m m' : gmap (list Z) P) : swept batch expired m m' → (size m' <= size m)%nat.
Proof. intros (Hsub & _). by apply map_subseteq_size. Qed.
End admission.
