(* ===== verification/JsBuffer.v ===== *)
(** What the Node packages use of [Buffer] and of binary64 arithmetic: base64url
    text, UTF-8 decoding with replacement, rounded sums and products. *)

From S2P Require Import Prelude JsValue JsJson AttestTypes AttestCanonical.

(** The bytes of a sequence of sextets; spare bits and a single left-over sextet
    are dropped. *)
Fixpoint sextet_bytes (vs : list Z) : list Z :=
  match vs with
  | a :: b :: c :: d :: vs =>
      [a * 4 + b / 16; (b mod 16) * 16 + c / 4; (c mod 4) * 64 + d] ++ sextet_bytes vs
  | [a; b; c] => [a * 4 + b / 16; (b mod 16) * 16 + c / 4]
  | [a; b] => [a * 4 + b / 16]
  | _ => []
  end.

(** [Buffer.from(s, 'base64url')] for a string over the base64url alphabet. *)
Definition buffer_of_base64url (s : jsstr) : list Z :=
  sextet_bytes (map (λ c, default 0 (BASE64URL_DECODE_TABLE c)) s).

(** Length of the part of an invalid sequence that one U+FFFD replaces. *)
Definition utf8_invalid_length (bs : list Z) : nat :=
  match bs with
  | b0 :: b1 :: rest =>
      let lo := if b0 =? 224 then 160 else if b0 =? 240 then 144 else 128 in
      let hi := if b0 =? 237 then 159 else if b0 =? 244 then 143 else 191 in
      if in_range 224 239 b0 && in_range lo hi b1 then 2
      else if in_range 240 244 b0 && in_range lo hi b1
      then match rest with b2 :: _ => if is_cont b2 then 3 else 2 | [] => 2 end
      else 1
  | _ => 1
  end.

Fixpoint utf8_replacing (fuel : nat) (bs : list Z) : jsstr :=
  match bs, fuel with
  | [], _ | _, O => []
  | _, S fuel =>
      match utf8_next bs with
      | Some (c, r) => units_of_code_point c ++ utf8_replacing fuel r
      | None => 65533 :: utf8_replacing fuel (drop (utf8_invalid_length bs) bs)
      end
  end.

(** [buffer.toString('utf8')]: a byte-order mark is kept. *)
Definition buffer_to_utf8 (bs : list Z) : jsstr := utf8_replacing (length bs) bs.

(** [Buffer.byteLength(s, 'utf8')] *)
Definition byteLength (s : jsstr) : Z := Z.of_nat (length (utf8_encode s)).

(** [Buffer.from(s, 'ascii')] *)
Definition buffer_of_ascii (s : jsstr) : list Z := map (λ c, c mod 256) s.

(** [a + b] and [a * b], rounded. *)
Definition num_add (a b : num) : num :=
  match a, b with
  | Fin p, Fin q => double_of_Q (Qplus p q)
  | NaN, _ | _, NaN => NaN
  | Infty x, Infty y => if Bool.eqb x y then Infty x else NaN
  | Infty x, Fin _ | Fin _, Infty x => Infty x
  end.

Definition num_mul (a b : num) : num :=
  match a, b with
  | Fin p, Fin q => double_of_Q (Qmult p q)
  | NaN, _ | _, NaN => NaN
  | Infty x, Infty y => Infty (xorb x y)
  | Infty x, Fin q | Fin q, Infty x =>
      if Qnum q =? 0 then NaN else Infty (xorb x (Qnum q <? 0))
  end.

(** [Number.isInteger(n)], with the integer when it holds. *)
Definition integer_of (n : num) : option Z := match n with Fin q => Q_to_Z q | _ => None end.

(** [typeof value === 'number' && Number.isSafeInteger(value) && value >= 0],
    with the integer when it holds. *)
Definition epoch_ms (v : jsval) : option Z :=
  match v with
  | JNum n => z ← safe_integer n; if 0 <=? z then Some z else None
  | _ => None
  end.

(** * base64url *)

Lemma sextets_bytes vs : Forall (λ v, 0 <= v < 64) vs → bytes_ok (sextet_bytes vs).
Proof.
  assert (∀ n vs, (length vs <= n)%nat → Forall (λ v, 0 <= v < 64) vs → bytes_ok (sextet_bytes vs)) as H.
  { induction n as [|n IH]; intros [|a [|b [|c [|d rest]]]] Hn Hv; try (cbn in Hn; lia);
      rewrite ?Forall_cons in Hv; repeat (constructor; [unfold byte_ok; lia|]); try constructor.
    apply IH; [cbn in Hn; lia|tauto]. }
  by apply (H (length vs)).
Qed.

Lemma table_range c : 0 <= default 0 (BASE64URL_DECODE_TABLE c) < 64.
Proof.
  unfold BASE64URL_DECODE_TABLE. destruct (index_of c BASE64URL_ALPHABET) as [i|] eqn:E; [|done].
  apply index_of_Some in E as [E _]. apply (f_equal length) in E.
  rewrite length_app, length_take in E. change (length BASE64URL_ALPHABET) with 64%nat in E.
  cbn [length] in E. cbn. lia.
Qed.

Lemma buffer_base64url_bytes s : bytes_ok (buffer_of_base64url s).
Proof.
  apply sextets_bytes, Forall_forall. intros v (c & -> & _)%list_elem_of_fmap. apply table_range.
Qed.

Lemma buffer_of_encode bs : bytes_ok bs → buffer_of_base64url (base64urlEncode bs) = bs.
Proof.
  unfold buffer_of_base64url.
  induction bs as [|f|f s|f s t rest IH] using triples_ind; intros Hok; [done|..];
    unfold bytes_ok in Hok; rewrite ?Forall_cons in Hok; unfold byte_ok in Hok.
  - rewrite encode_one by naive_solver. cbn [map]. rewrite !decode_table_char by lia. cbn.
    f_equal. lia.
  - rewrite encode_two by naive_solver. cbn [map]. rewrite !decode_table_char by lia. cbn.
    repeat f_equal; lia.
  - rewrite encode_three by naive_solver. rewrite map_app. cbn [map app].
    rewrite !decode_table_char by lia. cbn. unfold id. f_equal; [lia|]. f_equal; [lia|].
    f_equal; [lia|]. apply IH. tauto.
Qed.

Lemma b64_char_unit s : 0 <= s < 64 → name_unit (b64_char s) = true.
Proof.
  intros Hs.
  assert (forallb (λ n, name_unit (b64_char (Z.of_nat n))) (seq 0 64) = true) as Hall
    by (vm_compute; done).
  rewrite forallb_forall in Hall. specialize (Hall (Z.to_nat s)).
  rewrite Z2Nat.id in Hall by lia. apply Hall, in_seq. lia.
Qed.

Lemma encode_units bs : bytes_ok bs → all_units name_unit (base64urlEncode bs) = true.
Proof.
  induction bs as [|f|f s|f s t rest IH] using triples_ind; intros Hok; [done|..];
    unfold bytes_ok in Hok; rewrite ?Forall_cons in Hok; unfold byte_ok in Hok; unfold all_units in *.
  - rewrite encode_one by naive_solver. cbn [forallb]. by rewrite !b64_char_unit by lia.
  - rewrite encode_two by naive_solver. cbn [forallb]. by rewrite !b64_char_unit by lia.
  - rewrite encode_three by naive_solver. cbn [forallb app]. rewrite !b64_char_unit by lia.
    apply IH. tauto.
Qed.

Lemma encode_nonempty bs : bs ≠ [] → base64urlEncode bs ≠ [].
Proof. by destruct bs as [|f [|s [|t r]]]. Qed.

Lemma unit_ascii c : name_unit c = true → is_ascii c = true ∧ c ≠ 46.
Proof.
  unfold name_unit, is_ascii, is_alnum, is_alpha, is_digit, is_upper, is_lower.
  rewrite in_range_spec, !orb_true_iff, !in_range_spec, !Z.eqb_eq. lia.
Qed.

Lemma units_ascii s : all_units name_unit s = true → forallb is_ascii s = true.
Proof. intros H. eapply all_units_impl; [|exact H]. intros c Hc. by apply unit_ascii. Qed.

(** * UTF-8 *)

Lemma utf8_replacing_points cs fuel :
  Forall scalar cs → (length (flat_map utf8_of_code_point cs) <= fuel)%nat →
  utf8_replacing fuel (flat_map utf8_of_code_point cs) = flat_map units_of_code_point cs.
Proof.
  revert fuel. induction cs as [|c cs IH]; intros fuel Hcs Hf; [by destruct fuel|].
  rewrite Forall_cons in Hcs. destruct Hcs as [[Hc Hs] Hcs]. cbn [flat_map] in *.
  pose proof (utf8_of_code_point_length c) as Hlen. rewrite length_app in Hf.
  destruct fuel as [|fuel]; [lia|]. pose proof (utf8_next_code_point c (flat_map utf8_of_code_point cs) Hc Hs) as Hn.
  destruct (utf8_of_code_point c ++ _) as [|b bs] eqn:E; [done|]. cbn [utf8_replacing]. rewrite Hn.
  f_equal. apply IH; [done|lia].
Qed.

(** Decoding the encoding of a string without lone surrogates. *)
Lemma buffer_utf8_encode s : well_formed s → buffer_to_utf8 (utf8_encode s) = s.
Proof.
  intros [Hok Hwf]. unfold buffer_to_utf8, utf8_encode. rewrite utf8_replacing_points.
  - by apply units_of_code_points.
  - pose proof (code_points_range _ Hok) as Hr. rewrite Forall_forall in *.
    intros c Hc. split; auto.
  - done.
Qed.

(** * Arithmetic: a safe integer result is the exact one *)

Lemma Q_to_Z_eq q z : Q_to_Z q = Some z → q == inject_Z z.
Proof.
  unfold Q_to_Z. destruct (Z.eqb_spec (Z.rem (Qnum q) (Zpos (Qden q))) 0) as [E|]; [|done].
  intros [= <-]. unfold Qeq. cbn. pose proof (Z.quot_rem' (Qnum q) (Zpos (Qden q))). lia.
Qed.

Lemma Q_to_Z_of_eq q z : q == inject_Z z → Q_to_Z q = Some z.
Proof.
  unfold Qeq, Q_to_Z. cbn. rewrite Z.mul_1_r. intros ->.
  rewrite Z.rem_mul, Z.quot_mul by lia. done.
Qed.

Lemma round_half_even_ge n d m : 0 < d → 0 <= n → m * d <= n → m <= round_half_even n d.
Proof.
  intros Hd Hn Hm. unfold round_half_even. assert (m <= n / d) by (apply Z.div_le_lower_bound; lia).
  repeat case_match; lia.
Qed.

Lemma floor_log2_lower n d : 0 < n → 0 < d → 0 <= floor_log2 n d → 2 ^ floor_log2 n d * d <= n.
Proof.
  intros Hn Hd. unfold floor_log2. pose proof (Z.log2_spec n Hn) as [Hn1 Hn2]. pose proof (Z.log2_spec d Hd) as [Hd1 Hd2].
  destruct (Z.leb_spec 0 (Z.log2 n - Z.log2 d)).
  - destruct (Z.leb_spec (2 ^ (Z.log2 n - Z.log2 d) * d) n); [done|]. intros Hpos.
    assert (2 ^ (Z.log2 n - Z.log2 d - 1) * 2 ^ Z.succ (Z.log2 d) = 2 ^ Z.log2 n) as E.
    { rewrite <- Z.pow_add_r by (try lia; apply Z.le_le_succ_r, Z.log2_nonneg). f_equal. lia. }
    nia.
  - case_match; lia.
Qed.

Lemma floor_log2_max n d k : 0 < n → 0 < d → 0 <= k → 2 ^ k * d <= n → k <= floor_log2 n d.
Proof.
  intros Hn Hd Hk Hle. pose proof (Z.log2_spec n Hn) as [_ Hn2]. pose proof (Z.log2_spec d Hd) as [Hd1 _].
  assert (k + Z.log2 d < Z.succ (Z.log2 n)) as Hlt.
  { apply (Z.pow_lt_mono_r_iff 2); [lia|pose proof (Z.log2_nonneg n); lia|].
    rewrite Z.pow_add_r by (done || apply Z.log2_nonneg). nia. }
  unfold floor_log2. rewrite (proj2 (Z.leb_le 0 _)) by lia.
  destruct (Z.leb_spec (2 ^ (Z.log2 n - Z.log2 d) * d) n); [lia|].
  destruct (Z.eq_dec k (Z.log2 n - Z.log2 d)) as [->|]; lia.
Qed.

Lemma unsafe_rounds_unsafe q z : q == inject_Z z → is_safe z = false → safe_integer (round_binary64 q) = None.
Proof.
  intros Hq Hz. apply Z.leb_gt in Hz. change MAX_SAFE_INTEGER with (2 ^ 53 - 1) in Hz.
  unfold Qeq in Hq. cbn in Hq. rewrite Z.mul_1_r in Hq. unfold round_binary64. cbv zeta.
  rewrite Hq, Z.abs_mul. set (d := Zpos (Qden q)). change (Z.abs d) with d. assert (0 < d) as Hd by done.
  rewrite (proj2 (Z.eqb_neq _ _)) by nia. set (n := Z.abs z * d).
  pose proof (floor_log2_max n d 53 ltac:(nia) Hd ltac:(done) ltac:(nia)) as Hl.
  pose proof (floor_log2_lower n d ltac:(nia) Hd ltac:(lia)) as Hlow.
  set (l := floor_log2 n d) in *. rewrite Z.max_l by lia. rewrite (proj2 (Z.leb_le 0 (l - 52))) by lia.
  assert (2 ^ l = 2 ^ 52 * 2 ^ (l - 52)) as El by (rewrite <- Z.pow_add_r by lia; f_equal; lia).
  pose proof (round_half_even_ge n (d * 2 ^ (l - 52)) (2 ^ 52) ltac:(nia) ltac:(nia) ltac:(nia)) as Hm.
  assert (2 ^ 1 <= 2 ^ (l - 52)) as Hp by (apply Z.pow_le_mono_r; lia).
  set (v := round_half_even n (d * 2 ^ (l - 52)) * 2 ^ (l - 52)) in *.
  assert (2 ^ 53 <= v) as Hv by (unfold v; nia). clearbody v. case_match; [done|].
  assert (∀ w, 2 ^ 53 <= Z.abs w → safe_integer (Fin (inject_Z w)) = None) as Hno.
  { intros w Hw. cbn. rewrite Q_to_Z_inject. cbn. rewrite (proj2 (Z.leb_gt _ _)); [done|].
    change MAX_SAFE_INTEGER with (2 ^ 53 - 1). lia. }
  case_match; [|apply Hno; lia]. change (- inject_Z v)%Q with (inject_Z (- v)). apply Hno. lia.
Qed.

(** A rounded integer that is a safe integer was not changed by the rounding. *)
Lemma double_safe_exact q z c : q == inject_Z z → safe_integer (double_of_Q q) = Some c → c = z ∧ is_safe z = true.
Proof.
  intros Hq. unfold double_of_Q. rewrite (Q_to_Z_of_eq _ _ Hq).
  destruct (is_safe z) eqn:Hz; [rewrite safe_integer_of_Z by done; by intros [= <-]|].
  by rewrite (unsafe_rounds_unsafe _ z).
Qed.

Lemma double_of_integer q z : q == inject_Z z → is_safe z = true → double_of_Q q = num_of_Z z.
Proof. intros Hq Hz. unfold double_of_Q. by rewrite (Q_to_Z_of_eq _ _ Hq), Hz. Qed.

(** A number that is the integer [z]. *)
Definition num_is (n : num) (z : Z) : Prop := ∃ q, n = Fin q ∧ q == inject_Z z.

Lemma num_is_of_Z z : num_is (num_of_Z z) z.
Proof. by eexists. Qed.

Lemma safe_integer_is n z : safe_integer n = Some z ↔ num_is n z ∧ is_safe z = true.
Proof.
  split.
  - destruct n as [| |q]; try done. cbn. destruct (Q_to_Z q) as [z'|] eqn:E; [|done]. cbn.
    destruct (Z.abs z' <=? _) eqn:Hs; [|done]. intros [= <-]. split; [|done]. eexists. split; [done|].
    by apply Q_to_Z_eq.
  - intros [(q & -> & Hq) Hs]. cbn. rewrite (Q_to_Z_of_eq _ _ Hq). cbn. unfold is_safe in Hs. by rewrite Hs.
Qed.

Lemma integer_of_is n z : integer_of n = Some z ↔ num_is n z.
Proof.
  split.
  - destruct n as [| |q]; try done. intros H%Q_to_Z_eq. by eexists.
  - intros (q & -> & Hq). by apply Q_to_Z_of_eq.
Qed.

Section arithmetic.
Context (m n : num) (a b : Z) (Hm : num_is m a) (Hn : num_is n b).

Lemma num_add_exact : is_safe (a + b) = true → num_add m n = num_of_Z (a + b).
Proof.
  destruct Hm as (p & -> & Hp), Hn as (q & -> & Hq). cbn. apply double_of_integer.
  rewrite Hp, Hq. by rewrite inject_Z_plus.
Qed.

Lemma num_add_safe c : safe_integer (num_add m n) = Some c → c = a + b ∧ is_safe (a + b) = true.
Proof.
  destruct Hm as (p & -> & Hp), Hn as (q & -> & Hq). cbn [num_add]. apply double_safe_exact.
  rewrite Hp, Hq. by rewrite inject_Z_plus.
Qed.

Lemma num_mul_exact : is_safe (a * b) = true → num_mul m n = num_of_Z (a * b).
Proof.
  destruct Hm as (p & -> & Hp), Hn as (q & -> & Hq). cbn. apply double_of_integer.
  rewrite Hp, Hq. by rewrite inject_Z_mult.
Qed.

Lemma num_mul_safe c : safe_integer (num_mul m n) = Some c → c = a * b ∧ is_safe (a * b) = true.
Proof.
  destruct Hm as (p & -> & Hp), Hn as (q & -> & Hq). cbn [num_mul]. apply double_safe_exact.
  rewrite Hp, Hq. by rewrite inject_Z_mult.
Qed.

Lemma num_sub_exact : is_safe (a - b) = true → num_sub m n = num_of_Z (a - b).
Proof.
  destruct Hm as (p & -> & Hp), Hn as (q & -> & Hq). cbn. apply double_of_integer.
  rewrite Hp, Hq. unfold Z.sub. by rewrite inject_Z_plus, inject_Z_opp.
Qed.

Lemma num_le_is : num_le m n = (a <=? b).
Proof.
  destruct Hm as (p & -> & Hp), Hn as (q & -> & Hq). cbn.
  apply eq_true_iff_eq. rewrite Qle_bool_iff, Z.leb_le, Hp, Hq. by rewrite <- Zle_Qle.
Qed.
End arithmetic.

Lemma num_lt_is m n a b : num_is m a → num_is n b → num_lt m n = (a <? b).
Proof. intros Hm Hn. unfold num_lt. rewrite (num_le_is m n a b), (num_le_is n m b a) by done. lia. Qed.

Lemma epoch_ms_is v z : epoch_ms v = Some z ↔ ∃ n, v = JNum n ∧ num_is n z ∧ 0 <= z <= MAX_SAFE_INTEGER.
Proof.
  split.
  - destruct v as [| | |n| | | | |]; try done. cbn. destruct (safe_integer n) as [z'|] eqn:E; [|done]. cbn.
    apply safe_integer_is in E as [Hn Hs]. apply Z.leb_le in Hs. destruct (Z.leb_spec 0 z'); [|done].
    intros [= <-]. exists n. split_and!; [done..|lia].
  - intros (n & -> & Hn & Hz). cbn. assert (safe_integer n = Some z) as ->.
    { apply safe_integer_is. split; [done|]. apply Z.leb_le. lia. }
    cbn. by rewrite (proj2 (Z.leb_le 0 z)) by lia.
Qed.

(** * Splitting *)

Lemma split_on_cons c s : ∃ w ws, split_on c s = w :: ws.
Proof. destruct s as [|d s]; cbn; [eauto|]. repeat case_match; eauto. Qed.

Lemma join_split c s : join_with c (split_on c s) = s.
Proof.
  induction s as [|d s IH]; [done|]. cbn. destruct (Z.eqb_spec c d) as [->|Hne].
  - destruct (split_on_cons d s) as (w & ws & E). rewrite E in *. cbn in *. by rewrite IH.
  - destruct (split_on_cons c s) as (w & ws & E). rewrite E in *. destruct ws; cbn in *; by rewrite IH.
Qed.

Lemma split_on_none c w : c ∉ w → split_on c w = [w].
Proof.
  induction w as [|d w IH]; [done|]. rewrite not_elem_of_cons. intros [Hd Hw]. cbn.
  by rewrite (proj2 (Z.eqb_neq _ _)), IH.
Qed.

Lemma split_on_app c w s : c ∉ w → split_on c (w ++ c :: s) = w :: split_on c s.
Proof.
  induction w as [|d w IH]; [cbn; by rewrite Z.eqb_refl|]. rewrite not_elem_of_cons. intros [Hd Hw]. cbn.
  by rewrite (proj2 (Z.eqb_neq _ _)), IH.
Qed.

Lemma units_no_dot s : all_units name_unit s = true → 46 ∉ s.
Proof.
  unfold all_units. rewrite forallb_forall. intros H Hin%list_elem_of_In%H.
  by apply unit_ascii in Hin as [_ ?].
Qed.

#[export] Hint Resolve buffer_base64url_bytes encode_units units_ascii : wire.
