(* ===== verification/VaultBinding.v ===== *)
(** express-oidc-vault-memory-store, [binding.ts]: device and browser bindings of the
    stored records, and the revocation authority of a session.

    Fields the TypeScript interfaces declare as plain strings are strings here
    ([sessionId], [logicalSessionId], the one-time identifiers); every field the
    code inspects at run time is an arbitrary value. *)

From S2P Require Import Prelude JsValue JsJson.

(** What the store throws, by class. *)
Inductive vault_error :=
  | VaultTypeError (message : jsstr)
  | VaultStoreError (message : jsstr)
  | OidcVaultStoreConflictError
  | OidcVaultDpopReplayCapacityError
  | OidcVaultLogoutNavigationCapacityError.

Notation vres := (result vault_error).

(** [OidcVaultSession]; an absent optional field is [JUndef] (or [None]). *)
Record Session := mkSession {
  s_sessionId : jsstr;
  s_logicalSessionId : option jsstr;
  s_subject : jsval;
  s_providerSessionId : jsval;
  s_provider : jsval;
  s_deviceBinding : jsval;
  s_refreshToken : jsval;
  s_idToken : jsval;
  s_expiresAt : jsval;
  s_createdAt : jsval;
  s_updatedAt : jsval;
  s_rest : list (jsstr * jsval)
}.

(** An authorization transaction ([ot_id] is its [state]) or an exchange code
    ([ot_id] is its [code]); [ot_rest] holds the other fields. *)
Record OneTimeRecord := mkOneTime {
  ot_id : jsstr;
  ot_deviceBinding : jsval;
  ot_browserBindingHash : jsval;
  ot_createdAt : jsval;
  ot_expiresAt : jsval;
  ot_rest : list (jsstr * jsval)
}.

(** An object with [Object.prototype] or a null prototype. *)
Definition isRecord (v : jsval) : bool := match v with JObj true _ => true | _ => false end.

(** [/^[A-Za-z0-9_-]{42}[AEIMQUYcgkosw048]$/] *)
Definition hash_pattern (s : jsstr) : bool :=
  (length s =? 43)%nat && all_units name_unit (take 42 s)
  && forallb (λ c, includes_char c (js "AEIMQUYcgkosw048")) (drop 42 s).

Definition isHash (v : jsval) : bool :=
  match v with JStr s => (length s =? 43)%nat && hash_pattern s | _ => false end.

Definition has_own (v : jsval) (k : jsstr) : bool := bool_decide (k ∈ object_keys v).

Definition isBinding (v : jsval) : bool :=
  isRecord v && (length (object_keys v) =? 2)%nat && has_own v (js "type") && has_own v (js "jkt")
  && js_strict_eq (get_field v (js "type")) (JStr (js "dpop")) && isHash (get_field v (js "jkt")).

Definition hasValidBinding (deviceBinding : jsval) : bool :=
  is_undef deviceBinding || isBinding deviceBinding.

Definition hasValidRecordBinding (deviceBinding browserBindingHash : jsval) : bool :=
  hasValidBinding deviceBinding
  && (is_undef browserBindingHash || isHash browserBindingHash)
  && (is_undef deviceBinding || negb (is_undef browserBindingHash)).

Definition assertRecordBinding (record : OneTimeRecord) : vres unit :=
  guard (hasValidRecordBinding (ot_deviceBinding record) (ot_browserBindingHash record))
    (VaultTypeError (js "OIDC vault store record has invalid device/browser binding.")).

Definition assertSessionBinding (session : Session) : vres unit :=
  guard (hasValidBinding (s_deviceBinding session))
    (VaultTypeError (js "OIDC vault store session has invalid device binding.")).

(** The [match] argument of the guarded consumes. *)
Definition isBindingMatch (m : jsval) : bool :=
  isRecord m && has_own m (js "deviceBinding") && has_own m (js "browserBindingHash")
  && (match get_field m (js "deviceBinding") with JNull => true | v => isBinding v end)
  && (match get_field m (js "browserBindingHash") with JNull => true | v => isHash v end).

(** [record.deviceBinding?.jkt] *)
Definition jkt_of (deviceBinding : jsval) : jsval := get_field deviceBinding (js "jkt").

Definition matchesRecordBinding (record : OneTimeRecord) (m : jsval) : bool :=
  match get_field m (js "deviceBinding") with
  | JNull => is_undef (ot_deviceBinding record)
  | d => js_strict_eq (get_field (ot_deviceBinding record) (js "type")) (get_field d (js "type"))
         && js_strict_eq (jkt_of (ot_deviceBinding record)) (jkt_of d)
  end
  && match get_field m (js "browserBindingHash") with
     | JNull => is_undef (ot_browserBindingHash record)
     | h => js_strict_eq (ot_browserBindingHash record) h
     end.

Definition dpop_binding (jkt : jsval) : jsval :=
  JObj true [(js "type", JStr (js "dpop")); (js "jkt", jkt)].

Definition with_binding (s : Session) (b : jsval) : Session :=
  mkSession (s_sessionId s) (s_logicalSessionId s) (s_subject s) (s_providerSessionId s)
    (s_provider s) b (s_refreshToken s) (s_idToken s) (s_expiresAt s) (s_createdAt s)
    (s_updatedAt s) (s_rest s).

(** [inheritSessionBinding]: [next] after the call. *)
Definition inheritSessionBinding (source next : Session) : vres Session :=
  assertSessionBinding source ;;;
  assertSessionBinding next ;;;
  guard (is_undef (s_deviceBinding next)
         || js_strict_eq (jkt_of (s_deviceBinding next)) (jkt_of (s_deviceBinding source)))
    OidcVaultStoreConflictError ;;;
  Ok (if is_undef (s_deviceBinding source) then next
      else with_binding next (dpop_binding (jkt_of (s_deviceBinding source)))).

(** [session.logicalSessionId ?? session.sessionId] *)
Definition lineage (s : Session) : jsstr := default (s_sessionId s) (s_logicalSessionId s).

Record RevocationContext := mkRevocation {
  rc_logicalSessionId : jsstr;
  rc_provider : option (option jsstr * option jsstr);   (** issuer, client ID *)
  rc_deviceBinding : jsval
}.

Definition is_string (v : jsval) : bool := match v with JStr _ => true | _ => false end.
Definition as_string (v : jsval) : option jsstr := match v with JStr s => Some s | _ => None end.
Definition optional_string (v : jsval) : bool := is_undef v || is_string v.

Definition sessionRevocationContext (session : Session) : vres RevocationContext :=
  assertSessionBinding session ;;;
  guard (is_string (s_subject session))
    (VaultStoreError (js "OIDC vault store lineage has malformed session authority.")) ;;;
  let provider := s_provider session in
  guard (is_undef provider
         || (isRecord provider && optional_string (get_field provider (js "issuer"))
             && optional_string (get_field provider (js "clientId"))))
    (VaultStoreError (js "OIDC vault store lineage has malformed provider identity.")) ;;;
  Ok (mkRevocation (lineage session)
        (if is_undef provider then None
         else Some (as_string (get_field provider (js "issuer")),
                    as_string (get_field provider (js "clientId"))))
        (s_deviceBinding session)).

Definition finite_number (v : jsval) : bool := match v with JNum n => is_finite n | _ => false end.

Definition hasValidSessionRecord (session : Session) (sessionId : jsstr) : bool :=
  jsstr_eqb (s_sessionId session) sessionId && is_string (s_subject session)
  && is_string (s_refreshToken session) && is_string (s_idToken session)
  && (is_undef (s_expiresAt session) || finite_number (s_expiresAt session))
  && hasValidBinding (s_deviceBinding session).

(** An optional string against the same field of a revocation context. *)
Definition same_optional (v : jsval) (o : option jsstr) : bool :=
  js_strict_eq v (match o with Some s => JStr s | None => JUndef end).

Definition assertSameLineageAuthority (source member : Session) : vres unit :=
  assertSessionBinding member ;;;
  let* authority := sessionRevocationContext member in
  guard (js_strict_eq (jkt_of (s_deviceBinding source)) (jkt_of (rc_deviceBinding authority))
         && js_strict_eq (s_subject source) (s_subject member)
         && same_optional (get_field (s_provider source) (js "issuer")) (rc_provider authority ≫= fst)
         && same_optional (get_field (s_provider source) (js "clientId")) (rc_provider authority ≫= snd))
    (VaultStoreError
       (js "OIDC vault store lineage has inconsistent device binding or provider identity.")).

(** * Lemmas *)

Lemma strict_eq_string v s : js_strict_eq v (JStr s) = true ↔ v = JStr s.
Proof.
  destruct v; cbn; try (split; [done|congruence]). rewrite jsstr_eqb_true. split; congruence.
Qed.

Lemma isHash_string v : isHash v = true → ∃ s, v = JStr s ∧ hash_pattern s = true.
Proof. destruct v; cbn; try done. intros [_ H]%andb_true_iff. eauto. Qed.

Lemma binding_jkt b : isBinding b = true → ∃ s, jkt_of b = JStr s ∧ hash_pattern s = true.
Proof. unfold isBinding. intros H. apply andb_true_iff in H as [_ H]. by apply isHash_string. Qed.

Lemma binding_not_undef b : isBinding b = true → is_undef b = false.
Proof. by destruct b. Qed.

(** The sender constraint of a session: the thumbprint of its binding, if any. *)
Definition constraint_of (s : Session) : option jsstr :=
  if is_undef (s_deviceBinding s) then None else as_string (jkt_of (s_deviceBinding s)).

Lemma inherit_constraint source next next' :
  inheritSessionBinding source next = Ok next' →
  constraint_of next' = constraint_of source ∧ hasValidBinding (s_deviceBinding next') = true
  ∧ s_sessionId next' = s_sessionId next ∧ s_logicalSessionId next' = s_logicalSessionId next.
Proof.
  unfold inheritSessionBinding, assertSessionBinding. intros H.
  apply res_bind_Ok in H as (? & Hs%guard_Ok & H). apply res_bind_Ok in H as (? & Hn%guard_Ok & H).
  apply res_bind_Ok in H as (? & Hc%guard_Ok & H). injection H as <-. unfold hasValidBinding in *.
  destruct (is_undef (s_deviceBinding source)) eqn:Es.
  - split_and!; [|done..]. unfold constraint_of. rewrite Es.
    destruct (is_undef (s_deviceBinding next)) eqn:En; [done|]. exfalso. cbn [orb] in Hc, Hn.
    destruct (binding_jkt _ Hn) as (j & Hj & _). rewrite Hj in Hc.
    destruct (s_deviceBinding source); try done.
  - cbn [orb] in Hs. destruct (binding_jkt _ Hs) as (j & Hj & Hp). split_and!; [| |done..].
    + unfold constraint_of. cbn [s_deviceBinding with_binding]. rewrite Es.
      cbn [dpop_binding is_undef]. change (jkt_of (dpop_binding ?x)) with x. by rewrite Hj.
    + cbn [s_deviceBinding with_binding]. rewrite Hj. unfold isBinding.
      change (isHash (get_field (dpop_binding (JStr j)) (js "jkt"))) with (isHash (JStr j)).
      assert (isHash (JStr j) = true) as ->; [|by vm_compute].
      unfold isHash. rewrite Hp, andb_true_r. unfold hash_pattern in Hp. by bool_prop.
Qed.
