(* ===== verification/VaultDpop.v ===== *)
(** express-oidc-vault-memory-store, [dpop-replay.ts]: reservations of DPoP proof
    identifiers, an instance of [IndexedHeap] whose records are the expiries.
    The store clock is any finite number. *)

From S2P Require Import Prelude JsValue JsJson IndexedHeap HeapAdmission VaultBinding.

Definition dpop_expiry (e : Z) : Z := e.

(** [expiresAt > now] and [expiresAt <= now]. *)
Definition dpop_live (now : num) (e : Z) : bool := num_lt now (num_of_Z e).
Definition dpop_expired (now : num) (e : Z) : bool := num_le (num_of_Z e) now.

Definition dpop_reserve (maxEntries : Z) (replayKey expiresAt : jsval) (now : num) (st : HeapState Z)
    : option (vres bool * HeapState Z) :=
  if negb (is_finite now)
  then Some (Err (VaultStoreError (js "OIDC vault DPoP replay store clock is invalid.")), st)
  else
    match replayKey, expiresAt with
    | JStr key, JNum n =>
        match safe_integer n with
        | Some e =>
            if dpop_expired now e || num_lt (num_of_Z 360000) (num_sub (num_of_Z e) now)
            then Some (Ok false, st)
            else
              '(a, st') ← heap_admit dpop_expiry 64 maxEntries (dpop_live now) (dpop_expired now) key e st;
              Some (match a with
                    | AdmitLive => Ok false
                    | AdmitFull => Err OidcVaultDpopReplayCapacityError
                    | AdmitInserted => Ok true
                    end, st')
        | None => Some (Ok false, st)
        end
    | _, _ => Some (Ok false, st)
    end.

(** * Properties *)

Lemma num_le_of_Z a b : num_le (num_of_Z a) (num_of_Z b) = (a <=? b).
Proof. cbn. unfold Qle_bool. cbn. by rewrite !Z.mul_1_r. Qed.

Lemma expired_mono now e e' : e <= e' → dpop_expired now e' = true → dpop_expired now e = true.
Proof.
  unfold dpop_expired. intros He H. eapply num_le_trans; [|exact H].
  rewrite num_le_of_Z. by apply Z.leb_le.
Qed.

Lemma live_not_expired now e : is_finite now = true → dpop_live now e = negb (dpop_expired now e).
Proof.
  unfold dpop_live, dpop_expired, num_lt. destruct now as [| |q]; try done. intros _. cbn.
  destruct (Qle_bool (inject_Z e) q) eqn:E1; [by rewrite andb_false_r|].
  rewrite andb_true_r. apply Qle_bool_iff. apply not_true_iff_false in E1. rewrite Qle_bool_iff in E1.
  by apply Qlt_le_weak, Qnot_le_lt.
Qed.

Definition dpop_inv (max : Z) (st : HeapState Z) : Prop :=
  wf_heap dpop_expiry st ∧ Z.of_nat (size (view st)) <= max.

Lemma dpop_reserve_total max k e now st :
  dpop_inv max st →
  ∃ r st', dpop_reserve max k e now st = Some (r, st') ∧ dpop_inv max st'
    ∧ (∀ key x, view st !! key = Some x → dpop_expired now x = false → view st' !! key = Some x)
    ∧ (r = Ok true → ∃ key n x, k = JStr key ∧ e = JNum n ∧ safe_integer n = Some x
        ∧ view st' !! key = Some x ∧ (∀ y, view st !! key = Some y → dpop_expired now y = true))
    ∧ (r ≠ Ok true → view st' ⊆ view st).
Proof.
  intros [Hwf Hsize]. unfold dpop_reserve. destruct (is_finite now) eqn:Hfin; cbn [negb].
  2: { eexists _, st. split_and!; try done. }
  assert (∀ r : vres bool, r ≠ Ok true → ∃ r' st', Some (r, st) = Some (r', st') ∧ dpop_inv max st'
    ∧ (∀ key x, view st !! key = Some x → dpop_expired now x = false → view st' !! key = Some x)
    ∧ (r' = Ok true → ∃ key n x, k = JStr key ∧ e = JNum n ∧ safe_integer n = Some x
        ∧ view st' !! key = Some x ∧ (∀ y, view st !! key = Some y → dpop_expired now y = true))
    ∧ (r' ≠ Ok true → view st' ⊆ view st)) as Hskip.
  { intros r Hr. exists r, st. split_and!; try done. }
  destruct k as [| | | |key| | | |]; try by apply Hskip. destruct e as [| | |n| | | | |]; try by apply Hskip.
  destruct (safe_integer n) as [x|] eqn:Hx; [|by apply Hskip].
  destruct (_ || _) eqn:Hrange; [by apply Hskip|]. clear Hskip.
  destruct (admit_spec dpop_expiry 64 max (dpop_live now) (dpop_expired now) key x st Hwf (expired_mono now))
    as (a & st' & -> & Hwf' & Ha). cbn [mbind option_bind]. eexists _, st'. split; [done|].
  destruct a as [| |].
  - destruct Ha as [-> _]. split_and!; done.
  - destruct Ha as (Hdead & Hsw & Hfull). pose proof (swept_size _ _ _ _ _ Hsw) as Hle.
    assert (size (delete key (view st)) <= size (view st))%nat as Hd
      by (apply map_subseteq_size, delete_subseteq).
    destruct Hsw as (Hsub & Hkeep & _). split_and!; [by split; [|lia]| |done|].
    + intros key' y Hy Hexp. apply Hkeep; [|done]. destruct (decide (key' = key)) as [->|Hne].
      * specialize (Hdead y Hy). rewrite live_not_expired, Hexp in Hdead by done. done.
      * by rewrite lookup_delete_ne.
    + intros _. etrans; [exact Hsub|]. apply delete_subseteq.
  - destruct Ha as (Hdead & m & Hv & (Hsub & Hkeep & _) & Hroom).
    assert (∀ y, view st !! key = Some y → dpop_expired now y = true) as Hexp.
    { intros y Hy. specialize (Hdead y Hy). rewrite live_not_expired in Hdead by done.
      by apply negb_false_iff in Hdead. }
    assert (m !! key = None) as Hm.
    { apply eq_None_not_Some. intros [y Hy]. eapply lookup_weaken in Hy; [|exact Hsub].
      by rewrite lookup_delete_eq in Hy. }
    split_and!; [split; [done|]|..].
    + rewrite Hv, map_size_insert_None by done. lia.
    + intros key' y Hy He. rewrite Hv. destruct (decide (key' = key)) as [->|Hne].
      * specialize (Hexp y Hy). congruence.
      * rewrite lookup_insert_ne by done. apply Hkeep; [|done]. by rewrite lookup_delete_ne.
    + intros _. exists key, n, x. split_and!; [done..| |done]. rewrite Hv. by rewrite lookup_insert_eq.
    + done.
Qed.

(** A sequence of calls on one object. *)
Fixpoint dpop_run (max : Z) (calls : list (jsval * jsval * num)) (st : HeapState Z)
    : option (list (vres bool) * HeapState Z) :=
  match calls with
  | [] => Some ([], st)
  | (k, e, now) :: calls =>
      '(r, st1) ← dpop_reserve max k e now st;
      '(rs, st2) ← dpop_run max calls st1;
      Some (r :: rs, st2)
  end.

Lemma dpop_run_keeps max calls st rs st' key x :
  dpop_inv max st → view st !! key = Some x →
  Forall (λ c, dpop_expired c.2 x = false) calls →
  dpop_run max calls st = Some (rs, st') → dpop_inv max st' ∧ view st' !! key = Some x.
Proof.
  revert st rs. induction calls as [|c calls IH]; intros st rs Hinv Hk Hc Hrun.
  { injection Hrun as <- <-. done. }
  destruct c as [[k e] tn]. apply Forall_cons in Hc as [Hnow Hc]. cbn [dpop_run] in Hrun.
  destruct (dpop_reserve_total max k e tn st Hinv) as (r & st1 & Hres & Hinv1 & Hkeep & _).
  rewrite Hres in Hrun. cbn [mbind option_bind] in Hrun.
  destruct (dpop_run max calls st1) as [[rs1 st2]|] eqn:Hrun1; [|done].
  injection Hrun as <- <-. eapply IH; [exact Hinv1| |exact Hc|exact Hrun1]. by apply Hkeep.
Qed.

(** A DPoP proof identifier is admitted at most once while its reservation has not
    expired: after a [true], every later call for the key answers [false], whatever
    calls come in between, and the reservations never exceed the capacity. *)
Theorem dpop_reserved_once (max : Z) (key : jsstr) (n : num) (e2 : jsval) (x : Z) (now1 now2 : num)
    (mid : list (jsval * jsval * num)) (st st1 st2 : HeapState Z) (rs : list (vres bool)) :
  dpop_inv max st → safe_integer n = Some x →
  dpop_reserve max (JStr key) (JNum n) now1 st = Some (Ok true, st1) →
  dpop_run max mid st1 = Some (rs, st2) →
  Forall (λ c, dpop_expired c.2 x = false) mid → dpop_expired now2 x = false →
  ∃ r st3, dpop_reserve max (JStr key) e2 now2 st2 = Some (r, st3) ∧ r ≠ Ok true ∧ dpop_inv max st3.
Proof.
  intros Hinv Hn H1 Hmid Hc Hx.
  destruct (dpop_reserve_total max (JStr key) (JNum n) now1 st Hinv) as (r & st1' & E1 & Hinv1 & _ & Htrue & _).
  rewrite E1 in H1. injection H1 as -> ->. destruct (Htrue eq_refl) as (key' & n' & x' & [= <-] & [= <-] & Hn' & Hk & _).
  assert (x' = x) as -> by congruence.
  destruct (dpop_run_keeps max mid st1 rs st2 key x) as [Hinv2 Hk2]; [done..|].
  destruct (dpop_reserve_total max (JStr key) e2 now2 st2 Hinv2) as (r & st3 & E3 & Hinv3 & _ & Htrue3 & _).
  exists r, st3. split_and!; [done| |done]. intros ->.
  destruct (Htrue3 eq_refl) as (key'' & ? & ? & [= <-] & _ & _ & _ & Hdead). specialize (Hdead x Hk2). congruence.
Qed.

(** * Concrete instance *)

Definition dpop_state (c : option (vres bool * HeapState Z)) : HeapState Z :=
  match c with Some (_, st) => st | None => empty_heap end.
Definition example_dpop : HeapState Z :=
  dpop_state (dpop_reserve 5 (JStr (js "jti-1")) (JNum (num_of_Z 61000)) (num_of_Z 1000) empty_heap).

Lemma dpop_reserved_once_witness :
  ∃ r st3, dpop_reserve 5 (JStr (js "jti-1")) (JNum (num_of_Z 90000)) (num_of_Z 60999) example_dpop
           = Some (r, st3) ∧ r ≠ Ok true ∧ dpop_inv 5 st3.
Proof.
  apply (dpop_reserved_once 5 (js "jti-1") (num_of_Z 61000) _ 61000 (num_of_Z 1000) (num_of_Z 60999) []
    empty_heap example_dpop example_dpop []).
  - split; [apply empty_wf|]. vm_compute. discriminate.
  - reflexivity.
  - vm_compute. reflexivity.
  - reflexivity.
  - constructor.
  - reflexivity.
Defined.
