(* ===== verification/VaultTickets.v ===== *)
(** express-oidc-vault-memory-store, [logout-ticket-validation.ts] and
    [logout-tickets.ts]: single-use logout navigation tickets, an instance of
    [IndexedHeap] whose records are the captured tickets.  The URL parser is a
    parameter. *)

From S2P Require Import Prelude JsValue JsJson IndexedHeap HeapAdmission VaultBinding.

(** * Validation *)

Definition HASH := hash_pattern.
Definition PREFIX : jsstr := js "logout-navigation:v1:".

(** A unit of [/[\s\\\u0000-\u001f\u007f-\u009f]/u]. *)
Definition unsafe_unit (c : Z) : bool :=
  is_space c || (c =? 92) || in_range 0 31 c || in_range 127 159 c.

Definition usableEpoch (v : jsval) : option Z :=
  match v with
  | JNum n => z ← safe_integer n; if Z.abs z <=? 8640000000000000 then Some z else None
  | _ => None
  end.

Definition ticketNow (now : num) : vres Z :=
  match usableEpoch (JNum now) with
  | Some z => Ok z
  | None => Err (VaultStoreError (js "OIDC vault logout navigation store clock is invalid."))
  end.

Definition captureTicketIdentity (input : jsval) : jsval :=
  JObj true [(js "namespace", get_field input (js "namespace"));
             (js "ticketHash", get_field input (js "ticketHash"))].

Definition validTicketIdentity (input : jsval) : bool :=
  match get_field input (js "namespace") with
  | JStr ns => starts_with PREFIX ns && HASH (drop (length PREFIX) ns)
  | _ => false
  end
  && match get_field input (js "ticketHash") with JStr h => HASH h | _ => false end.

Definition captureTicket (input : jsval) : jsval :=
  JObj true [(js "namespace", get_field input (js "namespace"));
             (js "ticketHash", get_field input (js "ticketHash"));
             (js "upstreamLogoutUrl", get_field input (js "upstreamLogoutUrl"));
             (js "createdAt", get_field input (js "createdAt"));
             (js "expiresAt", get_field input (js "expiresAt"))].

(** [/^https?:\/\//i]: the rest of the string after the scheme. *)
Definition http_rest (s : jsstr) : option jsstr :=
  let l := to_lower s in
  if starts_with (js "https://") l then Some (drop 8 s)
  else if starts_with (js "http://") l then Some (drop 7 s)
  else None.

(** [/^https?:\/\/[^/?#]*@/i] *)
Fixpoint authority_has_at (s : jsstr) : bool :=
  match s with
  | [] => false
  | c :: s => if c =? 64 then true
              else if (c =? 47) || (c =? 63) || (c =? 35) then false else authority_has_at s
  end.

Definition byte_length (s : jsstr) : Z := Z.of_nat (length (utf8_encode s)).

Section tickets.
Variable parse_url : jsstr → option URL.

Definition valid_upstream_url (v : jsval) : bool :=
match v with
| JStr s =>
    match http_rest s with
    | Some rest =>
        negb (authority_has_at rest) && negb (existsb unsafe_unit s) && (byte_length s <=? 16384)
        && match parse_url s with
           | Some url =>
               (jsstr_eqb (url_protocol url) (js "https:") || jsstr_eqb (url_protocol url) (js "http:"))
               && jsstr_eqb (url_username url) [] && jsstr_eqb (url_password url) []
               && jsstr_eqb (url_hash url) [] && negb (includes_char 35 s)
               && (byte_length (url_href url) <=? 16384)
           | None => false
           end
    | None => false
    end
| _ => false
end.

(** [validTicket(record, now)] with a usable [now]. *)
Definition validTicket (record : jsval) (now : Z) : bool :=
is_non_array_object record && (length (object_keys record) =? 5)%nat && validTicketIdentity record
&& match usableEpoch (get_field record (js "createdAt")), usableEpoch (get_field record (js "expiresAt")) with
   | Some c, Some e =>
       negb (e - c <? 1000) && negb (120000 <? e - c)
       && negb ((e <=? now) || (120000 <? e - now))
   | _, _ => false
   end
&& valid_upstream_url (get_field record (js "upstreamLogoutUrl")).

Definition assertTicket (record : jsval) (now : Z) : vres unit :=
guard (validTicket record now)
  (VaultTypeError (js "OIDC vault logout navigation ticket is invalid or expired.")).

Definition ticketLimit (value : jsval) : vres Z :=
match value with
| JUndef => Ok 10000
| JNum n =>
    match safe_integer n with
    | Some z => guard (0 <? z) (VaultTypeError
        (js "OIDC vault logoutNavigationMaxEntries must be a positive safe integer.")) ;;; Ok z
    | None => Err (VaultTypeError
        (js "OIDC vault logoutNavigationMaxEntries must be a positive safe integer."))
    end
| _ => Err (VaultTypeError
    (js "OIDC vault logoutNavigationMaxEntries must be a positive safe integer."))
end.

(** [`${namespace}:${ticketHash}`] of a validated identity. *)
Definition string_field (v : jsval) (k : jsstr) : jsstr := default [] (as_string (get_field v k)).
Definition ticketId (v : jsval) : jsstr :=
string_field v (js "namespace") ++ 58 :: string_field v (js "ticketHash").

(** * The store *)

Definition ticket_expiry (record : jsval) : Z :=
default 0 (usableEpoch (get_field record (js "expiresAt"))).

Definition ticket_expired (now : Z) (e : Z) : bool := e <=? now.

Definition ticket_create (maxEntries : Z) (record : jsval) (now : num) (st : HeapState jsval)
  : option (vres unit * HeapState jsval) :=
match (let* t := ticketNow now in assertTicket record t ;;; Ok t) with
| Err e => Some (Err e, st)
| Ok t =>
    '(a, st') ← heap_admit ticket_expiry 64 maxEntries (λ r, validTicket r t) (ticket_expired t)
                  (ticketId record) record st;
    Some (match a with
          | AdmitLive => Err OidcVaultStoreConflictError
          | AdmitFull => Err OidcVaultLogoutNavigationCapacityError
          | AdmitInserted => Ok tt
          end, st')
end.

Definition ticket_consume (input : jsval) (now : num) (st : HeapState jsval)
  : option (vres (option jsval) * HeapState jsval) :=
match ticketNow now with
| Err e => Some (Err e, st)
| Ok t =>
    let selected := node_rec <$> lookup_entry st (ticketId input) in
    st1 ← remove_holder ticket_expiry st (ticketId input);
    st2 ← heap_sweep ticket_expiry 64 (ticket_expired t) st1;
    Some (Ok match selected with
             | Some r => if validTicket r t && jsstr_eqb (ticketId r) (ticketId input)
                         then Some r else None
             | None => None
             end, st2)
end.

(** The public methods. *)
Definition createLogoutNavigationTicket (max : Z) (input : jsval) (now : num) (st : HeapState jsval) :=
ticket_create max (captureTicket input) now st.
Definition consumeLogoutNavigationTicket (input : jsval) (now : num) (st : HeapState jsval) :=
let identity := captureTicketIdentity input in
if validTicketIdentity identity then ticket_consume identity now st else Some (Ok None, st).

(** * Properties *)

Definition tickets_inv (max : Z) (st : HeapState jsval) : Prop :=
wf_heap ticket_expiry st ∧ Z.of_nat (size (view st)) <= max
∧ ∀ id r, view st !! id = Some r → ticketId r = id.

Lemma ticket_mono t e e' : e <= e' → ticket_expired t e' = true → ticket_expired t e = true.
Proof. unfold ticket_expired. rewrite !Z.leb_le. lia. Qed.

Lemma create_total max r now st :
  tickets_inv max st →
  ∃ o st', ticket_create max r now st = Some (o, st') ∧ tickets_inv max st' ∧
  match o with
  | Ok tt => (∀ q, view st !! ticketId r = Some q → ∃ t, ticketNow now = Ok t ∧ validTicket q t = false)
      ∧ view st' !! ticketId r = Some r ∧ view st' ⊆ <[ticketId r := r]> (view st)
      ∧ ∃ t, ticketNow now = Ok t ∧ ∀ id q, id ≠ ticketId r → view st !! id = Some q →
          t < ticket_expiry q → view st' !! id = Some q
  | Err _ => view st' ⊆ view st
  end.
Proof.
  intros (Hwf & Hsize & Hid). unfold ticket_create.
  destruct (ticketNow now) as [t|e] eqn:Ht; cbn [res_bind].
  2: { exists (Err e), st. split; [done|]. split; [done|reflexivity]. }
  destruct (assertTicket r t) as [[]|e]; cbn [res_bind].
  2: { exists (Err e), st. split; [done|]. split; [done|reflexivity]. }
  destruct (admit_spec ticket_expiry 64 max (λ r, validTicket r t) (ticket_expired t) (ticketId r) r st
    Hwf (ticket_mono t)) as (a & st' & -> & Hwf' & Ha). cbn [mbind option_bind].
  eexists _, st'. split; [done|]. destruct a as [| |].
  - destruct Ha as [-> _]. split; [done|reflexivity].
  - destruct Ha as (_ & Hsw & _). pose proof (swept_size _ _ _ _ _ Hsw) as Hle.
    assert (size (delete (ticketId r) (view st)) <= size (view st))%nat as Hd
      by (apply map_subseteq_size, delete_subseteq).
    assert (view st' ⊆ view st) as Hsub.
    { destruct Hsw as (Hsub & _). etrans; [exact Hsub|]. apply delete_subseteq. }
    split; [split; [done|split; [lia|]]|done]. intros id q Hq. apply Hid. by eapply lookup_weaken.
  - destruct Ha as (Hdead & m & Hv & (Hsub & Hkeep & _) & Hroom).
    assert (m !! ticketId r = None) as Hm.
    { apply eq_None_not_Some. intros [y Hy]. eapply lookup_weaken in Hy; [|exact Hsub].
      by rewrite lookup_delete_eq in Hy. }
    rewrite Hv. split_and!.
    + split_and!; [done|rewrite Hv, map_size_insert_None by done; lia|].
      rewrite Hv. intros id q [[<- <-]|[Hne Hq]]%lookup_insert_Some; [done|].
      eapply lookup_weaken in Hq; [|exact Hsub]. apply Hid.
      by apply lookup_delete_Some in Hq as [_ ?].
    + eauto.
    + by rewrite lookup_insert_eq.
    + apply insert_mono. etrans; [exact Hsub|]. apply delete_subseteq.
    + exists t. split; [done|]. intros id q Hne Hq Hlt. rewrite lookup_insert_ne by done.
      apply Hkeep; [by rewrite lookup_delete_ne|]. by apply Z.leb_gt.
Qed.

Lemma consume_total max i now st :
  tickets_inv max st →
  ∃ o st', ticket_consume i now st = Some (o, st') ∧ tickets_inv max st' ∧ view st' ⊆ view st ∧
  match o with
  | Ok out => view st' !! ticketId i = None
      ∧ ∀ r, out = Some r → view st !! ticketId i = Some r ∧ ∃ t, ticketNow now = Ok t ∧ validTicket r t = true
  | Err _ => st' = st
  end.
Proof.
  intros (Hwf & Hsize & Hid). unfold ticket_consume. destruct (ticketNow now) as [t|e] eqn:Ht.
  2: { exists (Err e), st. split; [done|]. split; [done|]. split; [reflexivity|done]. }
  destruct (remove_holder_spec ticket_expiry st (ticketId i) Hwf) as (st1 & -> & Hwf1 & Hv1).
  cbn [mbind option_bind].
  destruct (sweep_swept ticket_expiry 64 (ticket_expired t) st1 Hwf1 (ticket_mono t)) as (st2 & -> & Hwf2 & Hsw).
  cbn [mbind option_bind]. rewrite Hv1 in Hsw. pose proof (swept_size _ _ _ _ _ Hsw) as Hle.
  destruct Hsw as (Hsub & _). assert (view st2 ⊆ view st) as Hsub' by (etrans; [exact Hsub|apply delete_subseteq]).
  assert (size (delete (ticketId i) (view st)) <= size (view st))%nat as Hd
    by (apply map_subseteq_size, delete_subseteq).
  eexists _, st2. split; [done|]. split; [|split; [done|split]].
  - split_and!; [done|lia|]. intros id q Hq. apply Hid. by eapply lookup_weaken.
  - apply eq_None_not_Some. intros [y Hy]. eapply lookup_weaken in Hy; [|exact Hsub].
    by rewrite lookup_delete_eq in Hy.
  - intros r. rewrite lookup_entry_view. destruct (lookup_entry st (ticketId i)) as [n|]; [|done]. cbn.
    destruct (validTicket (node_rec n) t) eqn:Hval; cbn [andb]; [|done].
    destruct (jsstr_eqb _ _); [|done]. intros [= <-]. split; [done|]. by exists t.
Qed.

(** Operations of any callers on one ticket store. *)
Inductive ticket_op := CreateTicket (input : jsval) | ConsumeTicket (input : jsval).

Definition ticket_exec (max : Z) (op : ticket_op) (now : num) (st : HeapState jsval)
  : option (vres (option jsval) * HeapState jsval) :=
match op with
| CreateTicket input =>
    '(o, st') ← createLogoutNavigationTicket max input now st; Some (res_map (λ _, None) o, st')
| ConsumeTicket input => consumeLogoutNavigationTicket input now st
end.

Fixpoint ticket_run (max : Z) (ops : list (ticket_op * num)) (st : HeapState jsval)
  : option (list (vres (option jsval)) * HeapState jsval) :=
match ops with
| [] => Some ([], st)
| (op, now) :: ops =>
    '(o, st1) ← ticket_exec max op now st;
    '(os, st2) ← ticket_run max ops st1;
    Some (o :: os, st2)
end.

Definition creates (id : jsstr) (op : ticket_op) : Prop :=
match op with CreateTicket input => ticketId (captureTicket input) = id | ConsumeTicket _ => False end.

Lemma ticket_exec_total max op now st :
  tickets_inv max st →
  ∃ o st', ticket_exec max op now st = Some (o, st') ∧ tickets_inv max st'
  ∧ ∀ id, ¬ creates id op → view st !! id = None → view st' !! id = None.
Proof.
  intros Hinv. assert (∀ m m' : gmap (list Z) jsval, ∀ id, m' ⊆ m → m !! id = None → m' !! id = None) as Hnone.
  { intros m m' id Hsub Hm. apply eq_None_not_Some. intros [y Hy].
    eapply lookup_weaken in Hy; [|exact Hsub]. congruence. }
  destruct op as [input|input]; unfold ticket_exec.
  - unfold createLogoutNavigationTicket.
    destruct (create_total max (captureTicket input) now st Hinv) as (o & st' & -> & Hinv' & Ho).
    cbn [mbind option_bind]. eexists _, st'. split_and!; [done..|]. intros id Hid Hm.
    destruct o as [[]|e]; [|by eapply Hnone]. destruct Ho as (_ & _ & Hsub & _).
    eapply Hnone; [exact Hsub|]. rewrite lookup_insert_ne; [done|]. exact Hid.
  - unfold consumeLogoutNavigationTicket. case_match; [|by eexists _, st].
    destruct (consume_total max (captureTicketIdentity input) now st Hinv) as (o & st' & -> & Hinv' & Hsub & _).
    eexists _, st'. split_and!; [done..|]. intros id _ Hm. by eapply Hnone.
Qed.

Lemma run_keeps_absent max ops st os st' id :
  tickets_inv max st → view st !! id = None → Forall (λ o, ¬ creates id o.1) ops →
  ticket_run max ops st = Some (os, st') → tickets_inv max st' ∧ view st' !! id = None.
Proof.
  revert st os. induction ops as [|o ops IH]; intros st os Hinv Hid Hops Hrun.
  { injection Hrun as <- <-. done. }
  destruct o as [op tn]. apply Forall_cons in Hops as [Hop Hops]. cbn [ticket_run] in Hrun.
  destruct (ticket_exec_total max op tn st Hinv) as (o & st1 & Hex & Hinv1 & Hnone).
  rewrite Hex in Hrun. cbn [mbind option_bind] in Hrun.
  destruct (ticket_run max ops st1) as [[os1 st2]|] eqn:Hrun1; [|done]. injection Hrun as <- <-.
  eapply IH; [exact Hinv1| |exact Hops|exact Hrun1]. by apply Hnone.
Qed.

(** A ticket is consumed at most once: after a consume of an identity answered
  (with the ticket or without), no later consume of it returns a ticket unless
  it is created again, whatever other operations run in between. *)
Theorem ticket_single_use (max : Z) (input1 input2 : jsval) (now1 now2 : num) (o1 : option jsval)
  (ops : list (ticket_op * num)) (st st1 st2 : HeapState jsval) (os : list _) :
  tickets_inv max st →
  validTicketIdentity (captureTicketIdentity input1) = true →
  consumeLogoutNavigationTicket input1 now1 st = Some (Ok o1, st1) →
  ticketId (captureTicketIdentity input2) = ticketId (captureTicketIdentity input1) →
  Forall (λ o, ¬ creates (ticketId (captureTicketIdentity input1)) o.1) ops →
  ticket_run max ops st1 = Some (os, st2) →
  ∃ o2 st3, consumeLogoutNavigationTicket input2 now2 st2 = Some (o2, st3)
  ∧ tickets_inv max st3 ∧ (∀ r, o2 ≠ Ok (Some r)).
Proof.
  intros Hinv Hvalid H1 Hsame Hops Hrun. unfold consumeLogoutNavigationTicket in *. rewrite Hvalid in H1.
  destruct (consume_total max (captureTicketIdentity input1) now1 st Hinv) as (o & st1' & E1 & Hinv1 & _ & Ho).
  rewrite E1 in H1. injection H1 as -> ->. destruct Ho as [Habsent _].
  destruct (run_keeps_absent max ops st1 os st2 _ Hinv1 Habsent Hops Hrun) as [Hinv2 Habsent2].
  case_match; [|exists (Ok None), st2; done].
  destruct (consume_total max (captureTicketIdentity input2) now2 st2 Hinv2) as (o2 & st3 & E3 & Hinv3 & _ & Ho2).
  exists o2, st3. split_and!; [done..|]. intros r ->. destruct Ho2 as [_ Hr].
  destruct (Hr r eq_refl) as [Hr' _]. rewrite Hsame in Hr'. congruence.
Qed.

(** A created ticket is there to be consumed, exactly as captured, as long as it
  is valid: creation succeeds on a free identity with room, and the consume
  that follows returns the ticket. *)
Theorem ticket_create_consume (max : Z) (input : jsval) (now1 now2 : num) (t2 : Z) (st st1 : HeapState jsval) :
  tickets_inv max st →
  createLogoutNavigationTicket max input now1 st = Some (Ok tt, st1) →
  ticketNow now2 = Ok t2 → validTicket (captureTicket input) t2 = true →
  ∃ st2, consumeLogoutNavigationTicket input now2 st1 = Some (Ok (Some (captureTicket input)), st2)
  ∧ view st2 !! ticketId (captureTicket input) = None.
Proof.
  intros Hinv H1 Ht Hvalid. unfold createLogoutNavigationTicket in H1.
  destruct (create_total max (captureTicket input) now1 st Hinv) as (o & st1' & E1 & Hinv1 & Ho).
  rewrite E1 in H1. injection H1 as -> ->. destruct Ho as (_ & Hk & _).
  assert (ticketId (captureTicketIdentity input) = ticketId (captureTicket input)) as Hid by done.
  unfold consumeLogoutNavigationTicket.
  assert (validTicketIdentity (captureTicketIdentity input) = true) as ->.
  { unfold validTicket in Hvalid. apply andb_true_iff in Hvalid as [Hvalid _].
    apply andb_true_iff in Hvalid as [Hvalid _]. apply andb_true_iff in Hvalid as [_ Hvalid]. exact Hvalid. }
  destruct (consume_total max (captureTicketIdentity input) now2 st1 Hinv1) as (o2 & st3 & E3 & _ & _ & Ho2).
  exists st3. rewrite E3. unfold ticket_consume in E3. rewrite Ht in E3.
  destruct (remove_holder _ st1 _) as [s1|]; [|done]. cbn [mbind option_bind] in E3.
  destruct (heap_sweep _ _ _ s1) as [s2|]; [|done]. cbn [mbind option_bind] in E3.
  injection E3 as <- ->. rewrite lookup_entry_view in Hk. rewrite Hid in *.
  destruct (lookup_entry st1 (ticketId (captureTicket input))) as [n|]; [|done]. cbn in Hk. injection Hk as Hk.
  cbn [fmap option_fmap option_map] in *. rewrite Hk, Hvalid, jsstr_eqb_refl in *. split; [done|]. by apply Ho2.
Qed.
End tickets.

(** * Concrete instance *)

Definition example_upstream : jsstr := js "https://idp.example/logout".
Definition example_upstream_parser (s : jsstr) : option URL :=
  if jsstr_eqb s example_upstream
  then Some (mkURL s (js "https:") [] [] (js "idp.example") (js "idp.example") (js "/logout") [] [])
  else None.
Definition example_hash : jsstr := repeat 97 42 ++ js "A".
Definition example_ticket : jsval :=
  JObj true [(js "namespace", JStr (PREFIX ++ example_hash)); (js "ticketHash", JStr example_hash);
             (js "upstreamLogoutUrl", JStr example_upstream);
             (js "createdAt", JNum (num_of_Z 1000)); (js "expiresAt", JNum (num_of_Z 61000))].

Definition state_of {A} (c : option (A * HeapState jsval)) : HeapState jsval :=
  match c with Some (_, st) => st | None => empty_heap end.
Definition example_created : HeapState jsval :=
  state_of (createLogoutNavigationTicket example_upstream_parser 5 example_ticket (num_of_Z 1000) empty_heap).
Definition example_consumed : HeapState jsval :=
  state_of (consumeLogoutNavigationTicket example_upstream_parser example_ticket (num_of_Z 2000) example_created).

Lemma empty_tickets_inv max : 0 <= max → tickets_inv max empty_heap.
Proof. intros. split; [apply empty_wf|]. split; [done|]. intros id r Hr. vm_compute in Hr. by destruct id. Qed.

Lemma example_created_ok :
  createLogoutNavigationTicket example_upstream_parser 5 example_ticket (num_of_Z 1000) empty_heap
  = Some (Ok tt, example_created).
Proof. vm_compute. reflexivity. Qed.

Lemma example_created_inv : tickets_inv 5 example_created.
Proof.
  destruct (create_total example_upstream_parser 5 (captureTicket example_ticket) (num_of_Z 1000) empty_heap)
    as (o & st' & E & Hinv & _); [by apply empty_tickets_inv|].
  pose proof example_created_ok as E'. unfold createLogoutNavigationTicket in E'.
  rewrite E' in E. injection E as _ <-. exact Hinv.
Qed.

Lemma ticket_create_consume_witness :
  ∃ st2, consumeLogoutNavigationTicket example_upstream_parser example_ticket (num_of_Z 60999) example_created
         = Some (Ok (Some (captureTicket example_ticket)), st2)
    ∧ view st2 !! ticketId (captureTicket example_ticket) = None.
Proof.
  apply (ticket_create_consume example_upstream_parser 5 example_ticket (num_of_Z 1000) (num_of_Z 60999) 60999
    empty_heap example_created).
  - by apply empty_tickets_inv.
  - apply example_created_ok.
  - reflexivity.
  - vm_compute. reflexivity.
Defined.

Lemma ticket_single_use_witness :
  ∃ o2 st3, consumeLogoutNavigationTicket example_upstream_parser example_ticket (num_of_Z 3000) example_consumed
            = Some (o2, st3) ∧ tickets_inv 5 st3 ∧ (∀ r, o2 ≠ Ok (Some r)).
Proof.
  apply (ticket_single_use example_upstream_parser 5 example_ticket example_ticket (num_of_Z 2000) (num_of_Z 3000)
    (Some (captureTicket example_ticket)) [] example_created example_consumed example_consumed []).
  - apply example_created_inv.
  - vm_compute. reflexivity.
  - vm_compute. reflexivity.
  - reflexivity.
  - constructor.
  - reflexivity.
Defined.
