(* ===== verification/VaultStore.v ===== *)
(** express-oidc-vault-memory-store, [index.ts]: the in-memory vault store.

    [Vault] is the class' state; every public method is a function of the state and
    of the clock readings it takes.  A record map and its positional sweep cursor
    are one [SweptMap].  [deleteSession] awaits another method on one path: what
    runs after the [await] is a step of its own, [deleteSession_resume], between
    which other operations may run.  The [sweepWork] counters, which no method
    reads, are left out. *)

From S2P Require Import Prelude JsValue JsJson IndexedHeap JsMap HeapAdmission VaultBinding VaultDpop VaultTickets.

(** * Expiry and the batched sweep *)

(** [typeof value.expiresAt === 'number' && value.expiresAt <= now] *)
Definition isExpiredRecord (expiresAt : jsval) (now : num) : bool :=
  match expiresAt with JNum e => num_le e now | _ => false end.

Definition EXPIRY_SWEEP_BATCH_SIZE : nat := 64.

Record SweptMap (A : Type) := mkSwept {
  sw_map : jsmap A;
  sw_keys : list jsstr;
  sw_position : nat
}.
Arguments mkSwept {A} _ _ _.
Arguments sw_map {A} _.
Arguments sw_keys {A} _.
Arguments sw_position {A} _.

Definition empty_swept {A} : SweptMap A := mkSwept [] [] 0.
Definition with_map {A} (s : SweptMap A) (m : jsmap A) : SweptMap A :=
  mkSwept m (sw_keys s) (sw_position s).

Definition rebuildSweepSnapshot {A} (s : SweptMap A) : SweptMap A :=
  mkSwept (sw_map s) (map_keys (sw_map s)) 0.

Definition exhausted {A} (s : SweptMap A) : bool := (length (sw_keys s) <=? sw_position s)%nat.
Definition advance {A} (s : SweptMap A) : SweptMap A :=
  mkSwept (sw_map s) (sw_keys s) (S (sw_position s)).

Section sweep.
Context {A : Type} (expires : A → jsval) (now : num).

(** [while (visited < EXPIRY_SWEEP_BATCH_SIZE)], with the visits left as fuel and
  the deleted records in the order of their deletion. *)
Fixpoint sweep_loop (visits : nat) (s : SweptMap A) (gone : list A) : SweptMap A * list A :=
match visits with
| O => (s, gone)
| S visits =>
    if exhausted s && (map_size (sw_map s) <=? length (sw_keys s))%nat then (s, gone)
    else
      let s := if exhausted s then rebuildSweepSnapshot s else s in
      match sw_keys s !! sw_position s with
      | Some key =>
          match map_get (sw_map s) key with
          | Some value =>
              if isExpiredRecord (expires value) now
              then sweep_loop visits (advance (with_map s (map_delete (sw_map s) key))) (gone ++ [value])
              else sweep_loop visits (advance s) gone
          | None => sweep_loop visits (advance s) gone
          end
      | None => sweep_loop visits (advance s) gone
      end
end.

Definition sweep_batch (s : SweptMap A) : SweptMap A * list A :=
if (map_size (sw_map s) =? 0)%nat then (mkSwept (sw_map s) [] 0, [])
else sweep_loop EXPIRY_SWEEP_BATCH_SIZE (if exhausted s then rebuildSweepSnapshot s else s) [].

Definition pruneMapBatch (s : SweptMap A) : SweptMap A := fst (sweep_batch s).
End sweep.

(** * State *)

Record RotatedSessionAlias := mkAlias { al_logicalSessionId : jsstr; al_expiresAt : jsval }.

Record Vault := mkVault {
  dpopMaxEntries : Z;
  ticketMaxEntries : Z;
  authorizationTransactions : SweptMap OneTimeRecord;
  exchangeCodes : SweptMap OneTimeRecord;
  sessions : SweptMap Session;
  rotatedSessionAliases : SweptMap RotatedSessionAlias;
  backchannelLogoutTokenJtis : SweptMap jsval;
  dpopProofs : HeapState Z;
  logoutTickets : HeapState jsval
}.

Definition with_transactions (v : Vault) m := mkVault (dpopMaxEntries v) (ticketMaxEntries v) m
  (exchangeCodes v) (sessions v) (rotatedSessionAliases v) (backchannelLogoutTokenJtis v)
  (dpopProofs v) (logoutTickets v).
Definition with_codes (v : Vault) m := mkVault (dpopMaxEntries v) (ticketMaxEntries v)
  (authorizationTransactions v) m (sessions v) (rotatedSessionAliases v) (backchannelLogoutTokenJtis v)
  (dpopProofs v) (logoutTickets v).
Definition with_sessions (v : Vault) m := mkVault (dpopMaxEntries v) (ticketMaxEntries v)
  (authorizationTransactions v) (exchangeCodes v) m (rotatedSessionAliases v)
  (backchannelLogoutTokenJtis v) (dpopProofs v) (logoutTickets v).
Definition with_aliases (v : Vault) m := mkVault (dpopMaxEntries v) (ticketMaxEntries v)
  (authorizationTransactions v) (exchangeCodes v) (sessions v) m (backchannelLogoutTokenJtis v)
  (dpopProofs v) (logoutTickets v).
Definition with_jtis (v : Vault) m := mkVault (dpopMaxEntries v) (ticketMaxEntries v)
  (authorizationTransactions v) (exchangeCodes v) (sessions v) (rotatedSessionAliases v) m
  (dpopProofs v) (logoutTickets v).
Definition with_dpop (v : Vault) h := mkVault (dpopMaxEntries v) (ticketMaxEntries v)
  (authorizationTransactions v) (exchangeCodes v) (sessions v) (rotatedSessionAliases v)
  (backchannelLogoutTokenJtis v) h (logoutTickets v).
Definition with_tickets (v : Vault) h := mkVault (dpopMaxEntries v) (ticketMaxEntries v)
  (authorizationTransactions v) (exchangeCodes v) (sessions v) (rotatedSessionAliases v)
  (backchannelLogoutTokenJtis v) (dpopProofs v) h.

(** [map.set] / [map.delete] on a swept map: the cursor stays. *)
Definition sw_set {A} (s : SweptMap A) k a : SweptMap A := with_map s (map_set (sw_map s) k a).
Definition sw_delete {A} (s : SweptMap A) k : SweptMap A := with_map s (map_delete (sw_map s) k).
Definition sw_get {A} (s : SweptMap A) k : option A := map_get (sw_map s) k.

(** [new MemoryOidcVaultStore(options)] *)
Definition createMemoryOidcVaultStore (dpopReplayMaxEntries logoutNavigationMaxEntries : jsval) : vres Vault :=
  let bad := VaultTypeError (js "OIDC vault DPoP replay maximum entries must be a positive safe integer.") in
  let* maxEntries :=
    match dpopReplayMaxEntries with
    | JUndef => Ok 100000
    | JNum n => match safe_integer n with
                | Some z => guard (0 <? z) bad ;;; Ok z
                | None => Err bad
                end
    | _ => Err bad
    end in
  let* maxTickets := ticketLimit logoutNavigationMaxEntries in
  Ok (mkVault maxEntries maxTickets empty_swept empty_swept empty_swept empty_swept empty_swept
        empty_heap empty_heap).

(** * One-time records *)

Definition ot_field (r : OneTimeRecord) (k : jsstr) : jsval := get_field (JObj true (ot_rest r)) k.
Definition ot_expired (r : OneTimeRecord) (now : num) : bool := isExpiredRecord (ot_expiresAt r) now.

(** [readOneTimeRecord] *)
Definition readOneTimeRecord (s : SweptMap OneTimeRecord) (id : jsstr) (now : num)
    : option OneTimeRecord * SweptMap OneTimeRecord :=
  match sw_get s id with
  | None => (None, s)
  | Some r =>
      if negb (finite_number (ot_createdAt r)) || negb (finite_number (ot_expiresAt r))
         || ot_expired r now || negb (hasValidRecordBinding (ot_deviceBinding r) (ot_browserBindingHash r))
      then (None, sw_delete s id)
      else (Some r, s)
  end.

Definition usable_transaction (r : OneTimeRecord) (id : jsstr) : bool :=
  jsstr_eqb (ot_id r) id && is_string (ot_field r (js "nonce"))
  && is_string (ot_field r (js "pkceVerifier")) && is_string (ot_field r (js "codeChallenge")).

Definition createAuthorizationTransaction (input : OneTimeRecord) (now : num) (v : Vault) : vres unit * Vault :=
  match assertRecordBinding input with
  | Err e => (Err e, v)
  | Ok _ => (Ok tt, with_transactions v
      (sw_set (pruneMapBatch ot_expiresAt now (authorizationTransactions v)) (ot_id input) input))
  end.

Definition getAuthorizationTransaction (state : jsstr) (now : num) (v : Vault) : option OneTimeRecord * Vault :=
  let '(record, m) := readOneTimeRecord (authorizationTransactions v) state now in
  (r ← record; if usable_transaction r state then Some r else None, with_transactions v m).

Definition consumeAuthorizationTransactionIfMatches (state : jsstr) (m : jsval) (now : num) (v : Vault)
    : option OneTimeRecord * Vault :=
  if negb (isBindingMatch m) then (None, v)
  else
    let pruned := pruneMapBatch ot_expiresAt now (authorizationTransactions v) in
    let '(record, s) := readOneTimeRecord pruned state now in
    match record with
    | Some r =>
        if usable_transaction r state && matchesRecordBinding r m
        then (Some r, with_transactions v (sw_delete s state))
        else (None, with_transactions v s)
    | None => (None, with_transactions v s)
    end.

(** [{ deviceBinding: null, browserBindingHash: null }] *)
Definition unbound_match : jsval :=
  JObj true [(js "deviceBinding", JNull); (js "browserBindingHash", JNull)].

Definition consumeAuthorizationTransaction (state : jsstr) (now : num) (v : Vault)
    : option OneTimeRecord * Vault :=
  consumeAuthorizationTransactionIfMatches state unbound_match now v.

Definition usable_code (r : OneTimeRecord) (code : jsstr) : bool :=
  jsstr_eqb (ot_id r) code && is_string (ot_field r (js "sessionId")).

Definition createExchangeCode (input : OneTimeRecord) (now : num) (v : Vault) : vres unit * Vault :=
  match assertRecordBinding input with
  | Err e => (Err e, v)
  | Ok _ => (Ok tt, with_codes v
      (sw_set (pruneMapBatch ot_expiresAt now (exchangeCodes v)) (ot_id input) input))
  end.

Definition getExchangeCode (code : jsstr) (now : num) (v : Vault) : option OneTimeRecord * Vault :=
  let '(record, m) := readOneTimeRecord (exchangeCodes v) code now in
  (r ← record; if usable_code r code then Some r else None, with_codes v m).

Definition consumeExchangeRecord (code : jsstr) (m : jsval) (now : num) (expectedSessionId : option jsstr)
    (v : Vault) : option OneTimeRecord * Vault :=
  let '(record, s) := readOneTimeRecord (exchangeCodes v) code now in
  match record with
  | Some r =>
      if usable_code r code
         && match expectedSessionId with
            | Some e => js_strict_eq (ot_field r (js "sessionId")) (JStr e)
            | None => true
            end
         && matchesRecordBinding r m
      then (Some r, with_codes v (sw_delete s code))
      else (None, with_codes v s)
  | None => (None, with_codes v s)
  end.

Definition prune_codes (now : num) (v : Vault) : Vault :=
  with_codes v (pruneMapBatch ot_expiresAt now (exchangeCodes v)).

Definition consumeExchangeCode (code : jsstr) (now : num) (v : Vault) : option OneTimeRecord * Vault :=
  consumeExchangeRecord code unbound_match now None (prune_codes now v).

Definition consumeExchangeCodeIfMatches (code : jsstr) (m expectedSessionId : jsval) (now : num) (v : Vault)
    : option OneTimeRecord * Vault :=
  match expectedSessionId with
  | JStr e => if isBindingMatch m then consumeExchangeRecord code m now (Some e) (prune_codes now v)
              else (None, v)
  | _ => (None, v)
  end.

(** * Sessions and rotated aliases *)

Definition s_expired (s : Session) (now : num) : bool := isExpiredRecord (s_expiresAt s) now.
Definition al_expired (a : RotatedSessionAlias) (now : num) : bool := isExpiredRecord (al_expiresAt a) now.

Definition hasLiveSessionForLogicalSession (logicalSessionId : jsstr) (now : num) (v : Vault) : bool :=
  existsb (λ kv, jsstr_eqb (lineage kv.2) logicalSessionId && negb (s_expired kv.2 now)) (sw_map (sessions v)).

(** [for (const [sessionId, alias] of aliases) if (…) aliases.delete(sessionId)] *)
Definition removeAliasesForLogicalSession (logicalSessionId : jsstr) (v : Vault) : Vault :=
  let aliases := rotatedSessionAliases v in
  with_aliases v (foldl (λ m kv, if jsstr_eqb (al_logicalSessionId kv.2) logicalSessionId
                                 then sw_delete m kv.1 else m) aliases (sw_map aliases)).

Definition removeAliasesForInactiveLogicalSession (logicalSessionId : jsstr) (now : num) (v : Vault) : Vault :=
  if hasLiveSessionForLogicalSession logicalSessionId now v then v
  else removeAliasesForLogicalSession logicalSessionId v.

Definition removeAliasesForInactiveLogicalSessions (ids : list jsstr) (now : num) (v : Vault) : Vault :=
  foldl (λ v id, removeAliasesForInactiveLogicalSession id now v) v ids.

(** [Set.prototype.add] on a set of strings, in insertion order. *)
Definition set_add (s : list jsstr) (x : jsstr) : list jsstr :=
  if bool_decide (x ∈ s) then s else s ++ [x].

Definition pruneSessionsBatch (now : num) (v : Vault) : Vault :=
  let '(s, gone) := sweep_batch s_expiresAt now (sessions v) in
  removeAliasesForInactiveLogicalSessions (foldl (λ ids x, set_add ids (lineage x)) [] gone) now
    (with_sessions v s).

Definition prune_aliases (now : num) (v : Vault) : Vault :=
  with_aliases v (pruneMapBatch al_expiresAt now (rotatedSessionAliases v)).

(** [{ ...s, logicalSessionId, createdAt, updatedAt }] *)
Definition with_defaults (s : Session) (logicalSessionId : jsstr) (now : num) : Session :=
  mkSession (s_sessionId s) (Some logicalSessionId) (s_subject s) (s_providerSessionId s) (s_provider s)
    (s_deviceBinding s) (s_refreshToken s) (s_idToken s) (s_expiresAt s)
    (nullish_or (s_createdAt s) (JNum now)) (nullish_or (s_updatedAt s) (JNum now)) (s_rest s).

Definition createSession (input : Session) (now : num) (v : Vault) : vres Session * Vault :=
  match assertSessionBinding input with
  | Err e => (Err e, v)
  | Ok _ =>
      let v := prune_aliases now (pruneSessionsBatch now v) in
      let session := with_defaults input (lineage input) now in
      let previous := sw_get (sessions v) (s_sessionId session) in
      let v := with_sessions v (sw_set (sessions v) (s_sessionId session) session) in
      let v := with_aliases v (sw_delete (rotatedSessionAliases v) (s_sessionId session)) in
      let v := match previous with
               | Some p => if jsstr_eqb (lineage p) (lineage session) then v
                           else removeAliasesForInactiveLogicalSession (lineage p) now v
               | None => v
               end in
      (Ok session, v)
  end.

Definition getSession (sessionId : jsstr) (now : num) (v : Vault) : option Session * Vault :=
  match sw_get (sessions v) sessionId with
  | Some s =>
      if s_expired s now
      then (None, removeAliasesForInactiveLogicalSession (lineage s) now
                    (with_sessions v (sw_delete (sessions v) sessionId)))
      else (if hasValidSessionRecord s sessionId then Some s else None, v)
  | None => (None, v)
  end.

Definition malformed (m : string) : vault_error := VaultStoreError (js m).

Definition live_session (v : Vault) (sessionId : jsstr) (now : num) : option Session :=
  s ← sw_get (sessions v) sessionId; if s_expired s now then None else Some s.

(** The loop over the members of the lineage, with the first one as [source]. *)
Fixpoint lineage_loop (members : list Session) (logicalSessionId : jsstr) (now : num) (source : option Session)
    : vres (option Session) :=
  match members with
  | [] => Ok source
  | member :: members =>
      if negb (jsstr_eqb (lineage member) logicalSessionId) || s_expired member now
      then lineage_loop members logicalSessionId now source
      else
        guard (is_string (s_subject member)
               && (is_undef (s_expiresAt member) || finite_number (s_expiresAt member)))
          (malformed "OIDC vault store lineage has malformed session authority.") ;;;
        sessionRevocationContext member ;;;
        match source with
        | Some s => assertSameLineageAuthority s member ;;; lineage_loop members logicalSessionId now source
        | None => lineage_loop members logicalSessionId now (Some member)
        end
  end.

Definition getSessionRevocationContext (sessionId : jsstr) (now : num) (v : Vault)
    : vres (option RevocationContext) :=
  let live := live_session v sessionId now in
  let alias := sw_get (rotatedSessionAliases v) sessionId in
  match live with
  | Some s =>
      guard (jsstr_eqb (s_sessionId s) sessionId)
        (malformed "OIDC vault store has malformed revocation authority.") ;;;
      sessionRevocationContext s ;;; Ok tt
  | None =>
      match alias with
      | Some a => guard (is_undef (al_expiresAt a) || finite_number (al_expiresAt a))
                    (malformed "OIDC vault store has malformed revocation alias.")
      | None => Ok tt
      end
  end ;;;
  match (match live with
         | Some s => Some (lineage s)
         | None => a ← alias; if al_expired a now then None else Some (al_logicalSessionId a)
         end) with
  | None => Ok None
  | Some logicalSessionId =>
      let* source := lineage_loop (map snd (sw_map (sessions v))) logicalSessionId now None in
      match source with
      | Some s => let* c := sessionRevocationContext s in Ok (Some c)
      | None => Ok None
      end
  end.

Definition rotateSession (sessionId : jsstr) (input_nextSession : Session) (now : num) (v : Vault)
    : vres Session * Vault :=
  let v :=
    match sw_get (sessions v) sessionId with
    | Some s => if s_expired s now
                then removeAliasesForInactiveLogicalSession (lineage s) now
                       (with_sessions v (sw_delete (sessions v) sessionId))
                else v
    | None => v
    end in
  match sw_get (sessions v) sessionId with
  | None => (Err OidcVaultStoreConflictError, v)
  | Some source =>
      if negb (hasValidSessionRecord source sessionId) then (Err OidcVaultStoreConflictError, v)
      else if jsstr_eqb (s_sessionId input_nextSession) sessionId then (Err OidcVaultStoreConflictError, v)
      else
        let target := sw_get (sessions v) (s_sessionId input_nextSession) in
        if match target with Some t => negb (s_expired t now) | None => false end
        then (Err OidcVaultStoreConflictError, v)
        else
          match inheritSessionBinding source input_nextSession with
          | Err e => (Err e, v)
          | Ok next =>
              let session := with_defaults next (default (lineage source) (s_logicalSessionId next)) now in
              let v := match target with
                       | Some t => removeAliasesForInactiveLogicalSession (lineage t) now
                                     (with_sessions v (sw_delete (sessions v) (s_sessionId session)))
                       | None => v
                       end in
              let v := with_sessions v (sw_delete (sessions v) sessionId) in
              let v := with_sessions v (sw_set (sessions v) (s_sessionId session) session) in
              let v := with_aliases v (sw_delete (rotatedSessionAliases v) (s_sessionId session)) in
              let v := with_aliases v (sw_set (rotatedSessionAliases v) sessionId
                                         (mkAlias (lineage session) (s_expiresAt session))) in
              let v := if jsstr_eqb (lineage source) (lineage session) then v
                       else removeAliasesForInactiveLogicalSession (lineage source) now v in
              (Ok session, v)
          end
  end.

(** * Revocation *)

(** [DeleteSessionsBySubjectInput] and [DeleteSessionsByProviderSessionIdInput]:
    the identifier with the optional issuer and client. *)
Record ScopedDeleteInput := mkScoped {
  sd_id : jsstr;
  sd_issuer : option jsstr;
  sd_clientId : option jsstr
}.

Definition toScopedDeleteInput (input : jsstr + ScopedDeleteInput) : ScopedDeleteInput :=
  match input with inl s => mkScoped s None None | inr i => i end.

Definition matchesProviderScope (session : Session) (input : ScopedDeleteInput) : bool :=
  match sd_issuer input with
  | Some i => js_strict_eq (get_field (s_provider session) (js "issuer")) (JStr i)
  | None => true
  end
  && match sd_clientId input with
     | Some c => js_strict_eq (get_field (s_provider session) (js "clientId")) (JStr c)
     | None => true
     end.

Record DeleteScan := mkScan {
  scan_sessions : SweptMap Session;
  scan_deleted : Z;
  scan_matched : list jsstr;
  scan_expired : list jsstr
}.

(** One turn of the loop the three bulk deletions share. *)
Definition scan_step (now : num) (matches : Session → bool) (acc : DeleteScan) (kv : jsstr * Session)
    : DeleteScan :=
  if s_expired kv.2 now
  then mkScan (sw_delete (scan_sessions acc) kv.1) (scan_deleted acc) (scan_matched acc)
         (set_add (scan_expired acc) (lineage kv.2))
  else if matches kv.2
  then mkScan (sw_delete (scan_sessions acc) kv.1) (scan_deleted acc + 1)
         (set_add (scan_matched acc) (lineage kv.2)) (scan_expired acc)
  else acc.

Definition delete_scan (now : num) (matches : Session → bool) (v : Vault) : DeleteScan :=
  foldl (scan_step now matches) (mkScan (sessions v) 0 [] []) (sw_map (sessions v)).

Definition deleteSessionsByLogicalSessionId (logicalSessionId : jsstr) (now : num) (v : Vault) : Z * Vault :=
  let scan := delete_scan now (λ s, jsstr_eqb (lineage s) logicalSessionId) v in
  let v := removeAliasesForInactiveLogicalSessions (scan_expired scan) now
             (with_sessions v (scan_sessions scan)) in
  (scan_deleted scan, removeAliasesForLogicalSession logicalSessionId v).

Definition delete_scoped (matches : Session → bool) (now : num) (v : Vault) : Z * Vault :=
  let scan := delete_scan now matches v in
  let v := removeAliasesForInactiveLogicalSessions (scan_expired scan) now
             (with_sessions v (scan_sessions scan)) in
  (scan_deleted scan, removeAliasesForInactiveLogicalSessions (scan_matched scan) now v).

Definition deleteSessionsBySubject (input : jsstr + ScopedDeleteInput) (now : num) (v : Vault) : Z * Vault :=
  let resolved := toScopedDeleteInput input in
  delete_scoped (λ s, js_strict_eq (s_subject s) (JStr (sd_id resolved)) && matchesProviderScope s resolved) now v.

Definition deleteSessionsByProviderSessionId (input : jsstr + ScopedDeleteInput) (now : num) (v : Vault)
    : Z * Vault :=
  let resolved := toScopedDeleteInput input in
  delete_scoped (λ s, js_strict_eq (s_providerSessionId s) (JStr (sd_id resolved))
                      && matchesProviderScope s resolved) now v.

(** [deleteSession] up to its end or its [await] ([true]: the rest is pending);
    [now2] is the clock reading of the awaited method. *)
Definition deleteSession (sessionId : jsstr) (now now2 : num) (v : Vault) : bool * Vault :=
  let v := prune_aliases now (pruneSessionsBatch now v) in
  match sw_get (sessions v) sessionId with
  | Some s =>
      let v := with_sessions v (sw_delete (sessions v) sessionId) in
      let v := with_aliases v (sw_delete (rotatedSessionAliases v) sessionId) in
      (false, removeAliasesForInactiveLogicalSession (lineage s) now v)
  | None =>
      match sw_get (rotatedSessionAliases v) sessionId with
      | Some alias =>
          if al_expired alias now
          then (false, with_aliases v (sw_delete (rotatedSessionAliases v) sessionId))
          else (true, snd (deleteSessionsByLogicalSessionId (al_logicalSessionId alias) now2 v))
      | None => (false, v)
      end
  end.

Definition deleteSession_resume (sessionId : jsstr) (v : Vault) : Vault :=
  with_aliases v (sw_delete (rotatedSessionAliases v) sessionId).

Definition consumeBackchannelLogoutTokenJti (jti : jsstr) (expiresAt now : num) (v : Vault) : bool * Vault :=
  let v := with_jtis v (pruneMapBatch id now (backchannelLogoutTokenJtis v)) in
  if negb (is_finite expiresAt) || num_le expiresAt now then (false, v)
  else
    match sw_get (backchannelLogoutTokenJtis v) jti with
    | Some r => if isExpiredRecord r now
                then (true, with_jtis v (sw_set (backchannelLogoutTokenJtis v) jti (JNum expiresAt)))
                else (false, v)
    | None => (true, with_jtis v (sw_set (backchannelLogoutTokenJtis v) jti (JNum expiresAt)))
    end.

(** * Sweeps remove nothing but expired records *)

Definition sw_ok {A} (s : SweptMap A) : Prop := map_ok (sw_map s).
Definition sw_shrinks {A} (gone : jsstr → A → Prop) (s s' : SweptMap A) : Prop :=
  map_shrinks gone (sw_map s) (sw_map s').

Lemma sw_delete_ok {A} (s : SweptMap A) k : sw_ok s → sw_ok (sw_delete s k).
Proof. apply delete_ok. Qed.
Lemma sw_set_ok {A} (s : SweptMap A) k a : sw_ok s → sw_ok (sw_set s k a).
Proof. apply set_ok. Qed.
#[export] Hint Resolve sw_delete_ok sw_set_ok : core.

Lemma sw_get_delete {A} (s : SweptMap A) k k' : sw_ok s →
  sw_get (sw_delete s k) k' = if jsstr_eqb k' k then None else sw_get s k'.
Proof. apply get_delete. Qed.
Lemma sw_get_set {A} (s : SweptMap A) k a k' :
  sw_get (sw_set s k a) k' = if jsstr_eqb k' k then Some a else sw_get s k'.
Proof. apply get_set. Qed.

Lemma sw_shrinks_get {A} (gone : jsstr → A → Prop) s s' k a :
  sw_shrinks gone s s' → sw_get s' k = Some a → sw_get s k = Some a.
Proof. intros H Hk. unfold sw_get in *. destruct (H k) as [E|(E & _)]; congruence. Qed.

Lemma sw_shrinks_keep {A} (gone : jsstr → A → Prop) s s' k a :
  sw_shrinks gone s s' → sw_get s k = Some a → ¬ gone k a → sw_get s' k = Some a.
Proof.
  intros H Hk Hg. unfold sw_get in *. destruct (H k) as [E|(_ & a' & E & Hg')]; [congruence|].
  destruct Hg. congruence.
Qed.

Lemma sw_shrinks_none {A} (gone : jsstr → A → Prop) s s' k :
  sw_shrinks gone s s' → sw_get s k = None → sw_get s' k = None.
Proof. intros H Hk. unfold sw_get in *. destruct (H k) as [E|(E & _)]; congruence. Qed.

Lemma sw_shrinks_refl {A} (gone : jsstr → A → Prop) s : sw_shrinks gone s s.
Proof. apply shrinks_refl. Qed.
Lemma sw_shrinks_trans {A} (gone : jsstr → A → Prop) s1 s2 s3 :
  sw_shrinks gone s1 s2 → sw_shrinks gone s2 s3 → sw_shrinks gone s1 s3.
Proof. apply shrinks_trans. Qed.
Lemma sw_shrinks_impl {A} (g g' : jsstr → A → Prop) s s' :
  (∀ k a, g k a → g' k a) → sw_shrinks g s s' → sw_shrinks g' s s'.
Proof. intros Hi H k. destruct (H k) as [?|(? & a & ? & ?)]; [by left|right; eauto]. Qed.
Lemma sw_shrinks_delete {A} (gone : jsstr → A → Prop) s k :
  sw_ok s → (∀ a, sw_get s k = Some a → gone k a) → sw_shrinks gone s (sw_delete s k).
Proof. apply shrinks_delete. Qed.
#[export] Hint Resolve sw_shrinks_refl : core.

Section sweep_lemmas.
Context {A : Type} (expires : A → jsval) (now : num).
Implicit Types s : SweptMap A.

Definition expired_entry (_ : jsstr) (a : A) : Prop := isExpiredRecord (expires a) now = true.

(** What a sweep deletes is in the list it hands on. *)
Definition swept_into (s s' : SweptMap A) (gone : list A) : Prop :=
sw_ok s' ∧ sw_shrinks (λ k a, expired_entry k a ∧ a ∈ gone) s s'
∧ Forall (λ a, isExpiredRecord (expires a) now = true) gone.

Lemma sweep_loop_spec visits s gone :
  sw_ok s → Forall (λ a, isExpiredRecord (expires a) now = true) gone →
  let r := sweep_loop expires now visits s gone in
  swept_into s (fst r) (snd r) ∧ (∀ a, a ∈ gone → a ∈ snd r).
Proof.
  revert s gone. induction visits as [|n IH]; intros s gone Hok Hgone; cbn [sweep_loop].
  { split; [|done]. split; [done|]. split; [apply sw_shrinks_refl|done]. }
  destruct (exhausted s && _).
  { split; [|done]. split; [done|]. split; [apply sw_shrinks_refl|done]. }
  assert (∃ s0, (if exhausted s then rebuildSweepSnapshot s else s) = s0 ∧ sw_map s0 = sw_map s)
    as (s0 & -> & Hs0) by (destruct (exhausted s); eauto).
  assert (∀ s1, sw_map s1 = sw_map s → let r := sweep_loop expires now n s1 gone in
    swept_into s (fst r) (snd r) ∧ (∀ a, a ∈ gone → a ∈ snd r)) as Hnext.
  { intros s1 Hs1. assert (sw_ok s1) as Hok1 by (unfold sw_ok; by rewrite Hs1).
    pose proof (IH s1 gone Hok1 Hgone) as H. cbn zeta in *.
    unfold swept_into, sw_shrinks in *. rewrite Hs1 in H. exact H. }
  destruct (sw_keys s0 !! sw_position s0) as [key|]; [|by apply Hnext].
  rewrite Hs0. destruct (map_get (sw_map s) key) as [value|] eqn:Hv; [|by apply Hnext].
  destruct (isExpiredRecord (expires value) now) eqn:Hexp; [|by apply Hnext].
  set (s1 := advance _). assert (sw_map s1 = map_delete (sw_map s) key) as Hs1 by done.
  assert (sw_ok s1) as Hok1 by (unfold sw_ok; rewrite Hs1; by apply delete_ok).
  destruct (IH s1 (gone ++ [value]) Hok1) as [(Hok' & Hsh & Hall) Hin].
  { apply Forall_app. split; [done|]. by apply Forall_singleton. }
  split; [|intros a Ha; apply Hin; apply elem_of_app; by left].
  split; [done|]. split; [|done]. eapply sw_shrinks_trans; [|exact Hsh].
  unfold sw_shrinks. rewrite Hs1. apply shrinks_delete; [done|]. intros a Ha.
  assert (a = value) as -> by congruence. split; [done|]. apply Hin, elem_of_app. right. by left.
Qed.

Lemma sweep_batch_spec s : sw_ok s → swept_into s (fst (sweep_batch expires now s)) (snd (sweep_batch expires now s)).
Proof.
  intros Hok. unfold sweep_batch. destruct (map_size (sw_map s) =? 0)%nat.
  { split; [done|]. split; [apply shrinks_refl|by constructor]. }
  set (s0 := if exhausted s then _ else s). assert (sw_map s0 = sw_map s) as Hs0.
  { unfold s0. by destruct (exhausted s). }
  assert (sw_ok s0) as Hok0 by (unfold sw_ok; by rewrite Hs0).
  destruct (sweep_loop_spec EXPIRY_SWEEP_BATCH_SIZE s0 [] Hok0) as [H _]; [by constructor|].
  unfold swept_into, sw_shrinks in *. by rewrite Hs0 in H.
Qed.

Lemma prune_spec s : sw_ok s →
  sw_ok (pruneMapBatch expires now s) ∧ sw_shrinks expired_entry s (pruneMapBatch expires now s).
Proof.
  intros Hok. destruct (sweep_batch_spec s Hok) as (H1 & H2 & _). split; [exact H1|].
  eapply sw_shrinks_impl; [|exact H2]. by intros k a [? _].
Qed.
End sweep_lemmas.

(** * Deleting while iterating *)

Section fold_delete.
Context {A : Type} (p : A → bool).
Implicit Types s : SweptMap A.

Definition delete_hits (l : jsmap A) (k : jsstr) : bool := existsb (λ kv, jsstr_eqb k kv.1 && p kv.2) l.
Definition fold_delete (l : jsmap A) s : SweptMap A :=
foldl (λ m kv, if p kv.2 then sw_delete m kv.1 else m) s l.

Lemma fold_delete_ok l s : sw_ok s → sw_ok (fold_delete l s).
Proof.
  revert s. induction l as [|kv l IH]; intros s Hok; [done|]. cbn. apply IH. destruct (p kv.2); auto.
Qed.

Lemma fold_delete_get l s k : sw_ok s →
  sw_get (fold_delete l s) k = if delete_hits l k then None else sw_get s k.
Proof.
  revert s. induction l as [|kv l IH]; intros s Hok; [done|].
  cbn [fold_delete foldl delete_hits existsb]. change (foldl _ ?x l) with (fold_delete l x).
  change (existsb _ l) with (delete_hits l k). destruct (p kv.2); rewrite IH by auto.
  - rewrite andb_true_r, sw_get_delete by done. by destruct (jsstr_eqb k kv.1), (delete_hits l k).
  - by rewrite andb_false_r.
Qed.

Lemma delete_hits_self s k : sw_ok s →
  delete_hits (sw_map s) k = match sw_get s k with Some a => p a | None => false end.
Proof.
  intros Hok. apply eq_true_iff_eq. unfold delete_hits. rewrite existsb_exists. split.
  - intros ([k' a] & Hin%list_elem_of_In & [->%jsstr_eqb_true Hp]%andb_true_iff). cbn [fst snd] in *.
    unfold sw_get. by rewrite (in_get _ _ _ Hok Hin).
  - unfold sw_get. destruct (map_get (sw_map s) k) as [a|] eqn:E; [|done]. intros Hp. exists (k, a).
    split; [by apply list_elem_of_In, get_Some_in|]. by rewrite jsstr_eqb_refl.
Qed.

Lemma fold_delete_all s k : sw_ok s →
  sw_get (fold_delete (sw_map s) s) k
  = match sw_get s k with Some a => if p a then None else Some a | None => None end.
Proof.
  intros Hok. rewrite fold_delete_get, delete_hits_self by done.
  destruct (sw_get s k) as [a|]; [|done]. by destruct (p a).
Qed.

Lemma fold_delete_shrinks s : sw_ok s → sw_shrinks (λ _ a, p a = true) s (fold_delete (sw_map s) s).
Proof.
  intros Hok k. pose proof (fold_delete_all s k Hok) as H. unfold sw_get in H.
  rewrite H. destruct (map_get (sw_map s) k) as [a|]; [|by left].
  destruct (p a) eqn:E; [right; eauto|by left].
Qed.
End fold_delete.

(** [v'] differs from [v] in the aliases at most, which only lose entries of the
    lineages [gone]. *)
Definition aliases_dropped (gone : jsstr → Prop) (v v' : Vault) : Prop :=
  ∃ m, v' = with_aliases v m ∧ sw_ok m
    ∧ sw_shrinks (λ _ a, gone (al_logicalSessionId a)) (rotatedSessionAliases v) m.

Definition has_live (v : Vault) (l : jsstr) (now : num) : Prop :=
  ∃ k s, sw_get (sessions v) k = Some s ∧ lineage s = l ∧ s_expired s now = false.

Lemma with_aliases_self v : with_aliases v (rotatedSessionAliases v) = v.
Proof. by destruct v. Qed.

Lemma dropped_refl gone v : sw_ok (rotatedSessionAliases v) → aliases_dropped gone v v.
Proof. intros. exists (rotatedSessionAliases v). split; [by rewrite with_aliases_self|]. auto. Qed.

Lemma dropped_trans gone v1 v2 v3 :
  aliases_dropped gone v1 v2 → aliases_dropped gone v2 v3 → aliases_dropped gone v1 v3.
Proof.
  intros (m1 & -> & Hok1 & H1) (m2 & -> & Hok2 & H2). exists m2. split; [done|]. split; [done|].
  eapply sw_shrinks_trans; [exact H1|exact H2].
Qed.

Lemma dropped_impl (g g' : jsstr → Prop) v v' :
  (∀ l, g l → g' l) → aliases_dropped g v v' → aliases_dropped g' v v'.
Proof.
  intros Hi (m & -> & Hok & H). exists m. split; [done|]. split; [done|].
  eapply sw_shrinks_impl; [|exact H]. cbn. auto.
Qed.

Lemma hasLive_spec l now v : sw_ok (sessions v) →
  hasLiveSessionForLogicalSession l now v = true ↔ has_live v l now.
Proof.
  intros Hok. unfold hasLiveSessionForLogicalSession. rewrite existsb_exists. split.
  - intros ([k s] & Hin%list_elem_of_In & [Hl%jsstr_eqb_true He%negb_true_iff]%andb_true_iff).
    exists k, s. split; [by apply in_get|done].
  - intros (k & s & Hk & Hl & He). exists (k, s). split; [by apply list_elem_of_In, get_Some_in|].
    cbn [snd]. rewrite Hl, He. by rewrite jsstr_eqb_refl.
Qed.

Lemma remove_lineage_dropped l v : sw_ok (rotatedSessionAliases v) →
  aliases_dropped (eq l) v (removeAliasesForLogicalSession l v)
  ∧ ∀ k a, sw_get (rotatedSessionAliases (removeAliasesForLogicalSession l v)) k = Some a →
      al_logicalSessionId a ≠ l.
Proof.
  intros Hok. unfold removeAliasesForLogicalSession.
  change (foldl _ ?s (sw_map ?s)) with (fold_delete (λ a, jsstr_eqb (al_logicalSessionId a) l) (sw_map s) s).
  split.
  - eexists. split; [done|]. split; [by apply fold_delete_ok|].
    eapply sw_shrinks_impl; [|by apply fold_delete_shrinks]. cbn. by intros k a ->%jsstr_eqb_true.
  - intros k a. cbn [rotatedSessionAliases with_aliases]. rewrite fold_delete_all by done.
    destruct (sw_get (rotatedSessionAliases v) k) as [a'|]; [|done].
    destruct (jsstr_eqb (al_logicalSessionId a') l) eqn:E; [done|]. intros [= <-]. by apply jsstr_eqb_false.
Qed.

Lemma remove_inactive_dropped l now v : sw_ok (sessions v) → sw_ok (rotatedSessionAliases v) →
  aliases_dropped (λ l', l' = l ∧ ¬ has_live v l now) v (removeAliasesForInactiveLogicalSession l now v).
Proof.
  intros Hs Ha. unfold removeAliasesForInactiveLogicalSession.
  destruct (hasLiveSessionForLogicalSession l now v) eqn:E; [by apply dropped_refl|].
  destruct (remove_lineage_dropped l v Ha) as [H _]. eapply dropped_impl; [|exact H].
  intros l' <-. split; [done|]. rewrite <- hasLive_spec by done. by rewrite E.
Qed.

Lemma remove_inactive_all_dropped ids now v : sw_ok (sessions v) → sw_ok (rotatedSessionAliases v) →
  aliases_dropped (λ l, l ∈ ids ∧ ¬ has_live v l now) v (removeAliasesForInactiveLogicalSessions ids now v).
Proof.
  revert v. induction ids as [|l ids IH]; intros v Hs Ha; [by apply dropped_refl|].
  cbn [removeAliasesForInactiveLogicalSessions foldl].
  change (foldl _ ?x ids) with (removeAliasesForInactiveLogicalSessions ids now x).
  pose proof (remove_inactive_dropped l now v Hs Ha) as Hd. pose proof Hd as (m & E & Hm & _).
  eapply dropped_trans.
  - eapply dropped_impl; [|exact Hd]. cbn. intros l' [-> ?]. split; [left|done].
  - rewrite E. eapply dropped_impl; [|apply IH; [exact Hs|exact Hm]]. intros l' [? ?].
    split; [by right|done].
Qed.

(** * The shared deletion loop *)

Section scan_lemmas.
Context (now : num) (matches : Session → bool).

Definition scan_hit (s : Session) : bool := s_expired s now || matches s.
Definition scan_counts (s : Session) : bool := negb (s_expired s now) && matches s.

Lemma scan_fold l acc :
  let r := foldl (scan_step now matches) acc l in
  scan_sessions r = fold_delete scan_hit l (scan_sessions acc)
  ∧ scan_deleted r = scan_deleted acc + Z.of_nat (length (List.filter (λ kv, scan_counts kv.2) l)).
Proof.
  revert acc. induction l as [|kv l IH]; intros acc; [cbn; split; [done|lia]|].
  cbn [foldl]. destruct (IH (scan_step now matches acc kv)) as [H1 H2]. cbn zeta. rewrite H1, H2.
  cbn [fold_delete foldl List.filter]. change (foldl _ ?x l) with (fold_delete scan_hit l x).
  unfold scan_step, scan_hit, scan_counts. destruct (s_expired kv.2 now), (matches kv.2); cbn; split; lia || done.
Qed.

Lemma set_add_elem s x y : x ∈ set_add s y ↔ x ∈ s ∨ x = y.
Proof.
  unfold set_add. case_bool_decide; [naive_solver|]. rewrite elem_of_app, list_elem_of_singleton. done.
Qed.

Definition scan_ids_of (q : Session → bool) (l : jsmap Session) (x : jsstr) : Prop :=
∃ k s, (k, s) ∈ l ∧ q s = true ∧ lineage s = x.

Lemma scan_ids_cons q k s l x :
  scan_ids_of q ((k, s) :: l) x ↔ (q s = true ∧ lineage s = x) ∨ scan_ids_of q l x.
Proof.
  unfold scan_ids_of. setoid_rewrite elem_of_cons. split.
  - intros (k' & s' & [[= -> ->]|?] & ? & ?); [by left|right; eauto].
  - intros [[? ?]|(k' & s' & ? & ? & ?)]; [exists k, s; auto|exists k', s'; auto].
Qed.

Lemma scan_step_ids acc k s x :
  (x ∈ scan_expired (scan_step now matches acc (k, s)) ↔
   x ∈ scan_expired acc ∨ (s_expired s now = true ∧ lineage s = x))
  ∧ (x ∈ scan_matched (scan_step now matches acc (k, s)) ↔
   x ∈ scan_matched acc ∨ (scan_counts s = true ∧ lineage s = x)).
Proof.
  unfold scan_step, scan_counts. cbn [snd].
  destruct (s_expired s now), (matches s); cbn [scan_expired scan_matched negb andb];
    rewrite ?set_add_elem; naive_solver.
Qed.

Lemma scan_ids l acc x :
  let r := foldl (scan_step now matches) acc l in
  (x ∈ scan_expired r ↔ x ∈ scan_expired acc ∨ scan_ids_of (λ s, s_expired s now) l x)
  ∧ (x ∈ scan_matched r ↔ x ∈ scan_matched acc ∨ scan_ids_of scan_counts l x).
Proof.
  revert acc. induction l as [|[k s] l IH]; intros acc.
  { cbn. unfold scan_ids_of. setoid_rewrite elem_of_nil. naive_solver. }
  cbn [foldl]. destruct (IH (scan_step now matches acc (k, s))) as [H1 H2]. cbn zeta.
  destruct (scan_step_ids acc k s x) as [S1 S2]. rewrite H1, H2, S1, S2, !scan_ids_cons. tauto.
Qed.

Lemma delete_scan_spec v : sw_ok (sessions v) →
  sw_ok (scan_sessions (delete_scan now matches v))
  ∧ sw_shrinks (λ _ s, scan_hit s = true) (sessions v) (scan_sessions (delete_scan now matches v))
  ∧ (∀ k s, sw_get (scan_sessions (delete_scan now matches v)) k = Some s → scan_hit s = false)
  ∧ scan_deleted (delete_scan now matches v)
  = Z.of_nat (length (List.filter (λ kv, scan_counts kv.2) (sw_map (sessions v)))).
Proof.
  intros Hok. unfold delete_scan.
  destruct (scan_fold (sw_map (sessions v)) (mkScan (sessions v) 0 [] [])) as [-> ->]. cbn [scan_sessions scan_deleted].
  split_and!; [by apply fold_delete_ok|by apply fold_delete_shrinks| |lia].
  intros k s. rewrite fold_delete_all by done. destruct (sw_get (sessions v) k) as [s'|]; [|done].
  destruct (scan_hit s') eqn:E; [done|]. by intros [= <-].
Qed.
End scan_lemmas.
