(* ===== verification/VaultSweep.v ===== *)
(** express-oidc-vault-memory-store: the opportunistic sweep reclaims.  Each
    operation inspects at most 64 slots of a snapshot of the keys; this file proves
    that the batches together still visit every record. *)

From S2P Require Import Prelude JsValue JsJson JsMap VaultStore.

Section sweep.
Context {A : Type} (expires : A → jsval) (now : num).
Implicit Types s : SweptMap A.

Definition dead (a : A) : Prop := isExpiredRecord (expires a) now = true.

(** No record that is expired at [now] is left. *)
Definition reclaimed s : Prop := ∀ k a, sw_get s k = Some a → ¬ dead a.

(** Every expired record is still to be visited by the cursor. *)
Definition ahead s : Prop :=
∀ k a, sw_get s k = Some a → dead a → ∃ i, (sw_position s <= i)%nat ∧ sw_keys s !! i = Some k.

Definition remaining s : nat := length (sw_keys s) - sw_position s.

Lemma exhausted_remaining s : exhausted s = true ↔ remaining s = 0%nat.
Proof. unfold exhausted, remaining. rewrite Nat.leb_le. lia. Qed.

Lemma ahead_exhausted s : ahead s → exhausted s = true → reclaimed s.
Proof.
  intros Ha He k a Hk Hd. destruct (Ha k a Hk Hd) as (i & Hi & Hl). apply lookup_lt_Some in Hl.
  unfold exhausted in He. apply Nat.leb_le in He. lia.
Qed.

Lemma rebuild_ahead s : ahead (rebuildSweepSnapshot s).
Proof.
  intros k a Hk _. cbn [rebuildSweepSnapshot sw_position sw_keys]. unfold sw_get in Hk. cbn in Hk.
  apply get_Some_in, list_elem_of_In, (in_map fst) in Hk.
  apply list_elem_of_In, list_elem_of_lookup_1 in Hk as (i & Hi).
  exists i. split; [lia|done].
Qed.

Lemma rebuild_remaining s : remaining (rebuildSweepSnapshot s) = map_size (sw_map s).
Proof. unfold remaining, map_size. cbn. unfold map_keys. rewrite length_map. lia. Qed.

Lemma reclaimed_loses gone s s' : sw_shrinks gone s s' → reclaimed s → reclaimed s'.
Proof. intros Hsh Hr k a Hk. apply (Hr k). by eapply sw_shrinks_get. Qed.

(** One slot: the map loses the record under the cursor if it is expired. *)
Definition visit t s : SweptMap A :=
match sw_keys s !! sw_position s with
| Some key =>
    match map_get (sw_map s) key with
    | Some value => if isExpiredRecord (expires value) t
                    then advance (with_map s (map_delete (sw_map s) key)) else advance s
    | None => advance s
    end
| None => advance s
end.

Lemma visit_keys t s : sw_keys (visit t s) = sw_keys s ∧ sw_position (visit t s) = S (sw_position s).
Proof. unfold visit. by repeat case_match. Qed.

Lemma visit_remaining t s : remaining (visit t s) = (remaining s - 1)%nat.
Proof. unfold remaining. destruct (visit_keys t s) as [-> ->]. lia. Qed.

Lemma visit_ok t s : sw_ok s → sw_ok (visit t s).
Proof. unfold visit, sw_ok. intros. repeat case_match; try done. cbn. by apply delete_ok. Qed.

Lemma visit_get t s k a : sw_ok s → sw_get (visit t s) k = Some a →
  sw_get s k = Some a ∧ (sw_keys s !! sw_position s = Some k → isExpiredRecord (expires a) t = false).
Proof.
  intros Hok. unfold visit. destruct (sw_keys s !! sw_position s) as [key|] eqn:Ek; [|done].
  destruct (map_get (sw_map s) key) as [value|] eqn:Ev.
  - destruct (isExpiredRecord (expires value) t) eqn:Ex; intros Hk.
    + change (sw_get (sw_delete s key) k = Some a) in Hk. rewrite sw_get_delete in Hk by done.
      destruct (jsstr_eqb k key) eqn:E; [done|]. split; [done|]. intros [= ->]. by rewrite jsstr_eqb_refl in E.
    + change (sw_get s k = Some a) in Hk. split; [done|]. intros [= ->]. unfold sw_get in Hk. congruence.
  - intros Hk. change (sw_get s k = Some a) in Hk. split; [done|]. intros [= ->]. unfold sw_get in Hk. congruence.
Qed.

Lemma map_delete_size (m : jsmap A) k : (map_size (map_delete m k) <= map_size m)%nat.
Proof. unfold map_size. induction m as [|[k' a] m IH]; cbn; [lia|]. destruct (jsstr_eqb k k'); cbn; lia. Qed.

Lemma visit_size t s : (map_size (sw_map (visit t s)) <= map_size (sw_map s))%nat.
Proof. unfold visit. repeat case_match; cbn; try done. apply map_delete_size. Qed.

Section later.
Context (t : num) (Hlater : num_le now t = true).

Lemma dead_later a : dead a → isExpiredRecord (expires a) t = true.
Proof. unfold dead, isExpiredRecord. destruct (expires a); try done. intros. by eapply num_le_trans. Qed.

Lemma visit_ahead s : sw_ok s → ahead s → ahead (visit t s).
Proof.
  intros Hok Ha k a Hk Hd. destruct (visit_get t s k a Hok Hk) as [Hk0 Hv].
  destruct (visit_keys t s) as [-> ->]. destruct (Ha k a Hk0 Hd) as (i & Hi & Hl). exists i.
  split; [|done]. destruct (decide (i = sw_position s)) as [->|]; [|lia].
  specialize (Hv Hl). rewrite dead_later in Hv; done.
Qed.

Lemma loop_step n s gone :
  exhausted s && (map_size (sw_map s) <=? length (sw_keys s))%nat = false →
  ∃ gone', sweep_loop expires t (S n) s gone
  = sweep_loop expires t n (visit t (if exhausted s then rebuildSweepSnapshot s else s)) gone'.
Proof.
  intros E. cbn [sweep_loop]. rewrite E. unfold visit. set (s0 := if exhausted s then _ else s). clearbody s0.
  destruct (sw_keys s0 !! sw_position s0) as [key|]; [|eauto].
  destruct (map_get (sw_map s0) key) as [value|]; [|eauto].
  destruct (isExpiredRecord (expires value) t); eauto.
Qed.
Lemma loop_spec n s gone : sw_ok s →
  let s' := fst (sweep_loop expires t n s gone) in
  sw_ok s' ∧ (map_size (sw_map s') <= map_size (sw_map s))%nat ∧ (reclaimed s → reclaimed s')
  ∧ (ahead s → reclaimed s' ∨ ahead s' ∧ (remaining s' + n <= remaining s)%nat)
  ∧ (reclaimed s' ∨ ahead s' ∧ (remaining s' <= map_size (sw_map s))%nat
 ∨ (remaining s' + n <= remaining s)%nat ∨ exhausted s' = true).
Proof.
  revert s gone. induction n as [|n IH]; intros s gone Hok; cbn zeta.
  { cbn [sweep_loop fst]. split_and!; [done..| |]; [right; split; [done|lia]|]. right; right; left; lia. }
  destruct (exhausted s && (map_size (sw_map s) <=? length (sw_keys s))%nat) eqn:E.
  { cbn [sweep_loop]. rewrite E. apply andb_true_iff in E as [E _]. cbn [fst].
  split_and!; [done..| |by right; right; right]. intros Ha. left. by apply ahead_exhausted. }
  destruct (loop_step n s gone E) as (gone' & ->).
  set (s0 := if exhausted s then rebuildSweepSnapshot s else s).
  assert (sw_map s0 = sw_map s) as Hm0 by (unfold s0; by destruct (exhausted s)).
  assert (sw_ok s0) as Hok0 by (unfold sw_ok; by rewrite Hm0).
  destruct (IH (visit t s0) gone' (visit_ok t s0 Hok0)) as (H1 & H2 & H3 & H4 & H5).
  pose proof (visit_size t s0) as Hsz. rewrite Hm0 in Hsz.
  pose proof (visit_remaining t s0) as Hrem.
  assert (reclaimed s → reclaimed (visit t s0)) as Hrec.
  { intros Hr k a Hk. apply (visit_get t s0 k a Hok0) in Hk as [Hk _]. apply (Hr k).
  unfold sw_get in *. by rewrite Hm0 in Hk. }
  split_and!; [done|lia|auto| |].
  - intros Ha. destruct (exhausted s) eqn:Ex; [left; by apply H3, Hrec, ahead_exhausted|].
  destruct (H4 (visit_ahead s0 Hok0 Ha)) as [?|[? ?]]; [by left|]. right. split; [done|].
  assert (remaining s ≠ 0%nat) by (rewrite <- exhausted_remaining; congruence). unfold s0 in *. lia.
  - destruct (exhausted s) eqn:Ex.
  + destruct (H4 (visit_ahead s0 Hok0 (rebuild_ahead s))) as [?|[? ?]]; [by left|]. right; left.
    split; [done|]. pose proof (rebuild_remaining s). unfold s0 in *. lia.
  + assert (remaining s ≠ 0%nat) by (rewrite <- exhausted_remaining; congruence).
    destruct H5 as [?|[[? ?]|[?|?]]]; [by left|right; left; split; [done|lia]|right; right; left|by right; right; right].
    unfold s0 in *. lia.
Qed.

Lemma prune_step s : sw_ok s →
  let s' := pruneMapBatch expires t s in
  sw_ok s' ∧ (map_size (sw_map s') <= map_size (sw_map s))%nat ∧ (reclaimed s → reclaimed s')
  ∧ (ahead s → reclaimed s' ∨ ahead s' ∧ (remaining s' + 64 <= remaining s)%nat)
  ∧ (exhausted s = true → reclaimed s' ∨ ahead s' ∧ (remaining s' + 64 <= map_size (sw_map s))%nat)
  ∧ (reclaimed s' ∨ ahead s' ∧ (remaining s' <= map_size (sw_map s))%nat
 ∨ (remaining s' + 64 <= remaining s)%nat ∨ exhausted s' = true).
Proof.
  intros Hok. cbn zeta. unfold pruneMapBatch, sweep_batch.
  destruct (map_size (sw_map s) =? 0)%nat eqn:Ez.
  { apply Nat.eqb_eq in Ez. unfold map_size in Ez. apply nil_length_inv in Ez. cbn [fst].
  assert (reclaimed (mkSwept (sw_map s) [] 0)) as Hr.
  { intros k a. unfold sw_get. cbn. by rewrite Ez. }
  split_and!; [done|done|auto..]. }
  set (s0 := if exhausted s then rebuildSweepSnapshot s else s).
  assert (sw_map s0 = sw_map s) as Hm0 by (unfold s0; by destruct (exhausted s)).
  assert (sw_ok s0) as Hok0 by (unfold sw_ok; by rewrite Hm0).
  destruct (loop_spec EXPIRY_SWEEP_BATCH_SIZE s0 [] Hok0) as (H1 & H2 & H3 & H4 & H5).
  rewrite Hm0 in H2, H5. change EXPIRY_SWEEP_BATCH_SIZE with 64%nat in *.
  assert (reclaimed s → reclaimed s0) as Hrec.
  { intros Hr k a. unfold sw_get. rewrite Hm0. apply Hr. }
  split_and!; [done|done|auto| | |].
  - intros Ha. destruct (exhausted s) eqn:Ex; [left; by apply H3, Hrec, ahead_exhausted|]. by apply H4.
  - intros Ex. destruct (H4) as [?|[? ?]]; [unfold s0; rewrite Ex; apply rebuild_ahead|by left|].
  right. split; [done|]. pose proof (rebuild_remaining s) as Hb. unfold s0 in *. rewrite Ex in *. lia.
  - destruct (exhausted s) eqn:Ex.
  + destruct (H4 (rebuild_ahead s)) as [?|[? ?]]; [by left|]. right; left. split; [done|].
    pose proof (rebuild_remaining s) as Hb. unfold s0 in *. lia.
  + exact H5.
Qed.
End later.

Definition prunes (ts : list num) s : SweptMap A := foldl (λ s t, pruneMapBatch expires t s) s ts.

Lemma prunes_reclaimed ts s : sw_ok s → Forall (λ t, num_le now t = true) ts → reclaimed s → reclaimed (prunes ts s).
Proof.
  revert s. induction ts as [|t ts IH]; intros s Hok Hts Hr; [done|]. apply Forall_cons in Hts as [Ht Hts].
  destruct (prune_step t Ht s Hok) as (H1 & _ & H3 & _). apply IH; auto.
Qed.

Lemma prunes_ahead ts s : sw_ok s → Forall (λ t, num_le now t = true) ts → ahead s →
  (remaining s < 64 * length ts)%nat → reclaimed (prunes ts s).
Proof.
  revert s. induction ts as [|t ts IH]; intros s Hok Hts Ha Hlen; [cbn in Hlen; lia|].
  apply Forall_cons in Hts as [Ht Hts]. destruct (prune_step t Ht s Hok) as (H1 & _ & _ & H4 & _).
  change (prunes (t :: ts) s) with (prunes ts (pruneMapBatch expires t s)). cbn [length] in Hlen.
  destruct (H4 Ha) as [?|[? ?]]; [by apply prunes_reclaimed|]. apply IH; [done..|lia].
Qed.

(** The sweep reclaims: whatever state the cursor is in, a bounded number of
  batches (64 slots each, on non-decreasing clock readings) deletes every record
  that was expired when they began; the number depends only on the slots left
  in the snapshot and the size of the map. *)
Theorem sweep_reclaims (ts : list num) (s : SweptMap A) :
  sw_ok s → Forall (λ t, num_le now t = true) ts →
  (remaining s + map_size (sw_map s) + 64 < 64 * length ts)%nat →
  ∀ k a, sw_get (foldl (λ s t, pruneMapBatch expires t s) s ts) k = Some a →
  isExpiredRecord (expires a) now = false.
Proof.
  intros Hok Hts Hlen k a Hk. apply not_true_is_false. intros Hd. revert k a Hk Hd.
  fold (prunes ts s). change (reclaimed (prunes ts s)).
  revert s Hok Hlen. induction ts as [|t ts IH]; intros s Hok Hlen; [cbn in Hlen; lia|].
  apply Forall_cons in Hts as [Ht Hts]. destruct (prune_step t Ht s Hok) as (H1 & H2 & _ & _ & _ & H6).
  change (prunes (t :: ts) s) with (prunes ts (pruneMapBatch expires t s)). cbn [length] in Hlen.
  destruct H6 as [?|[[? ?]|[?|Hex]]].
  - by apply prunes_reclaimed.
  - apply prunes_ahead; [done..|lia].
  - apply IH; [done..|lia].
  - destruct ts as [|t' ts]; [cbn in Hlen; lia|]. apply Forall_cons in Hts as [Ht' Hts].
    destruct (prune_step t' Ht' _ H1) as (H1' & _ & _ & _ & H5' & _).
    change (prunes (t' :: ts) ?x) with (prunes ts (pruneMapBatch expires t' x)). cbn [length] in Hlen.
    destruct (H5' Hex) as [?|[? ?]]; [by apply prunes_reclaimed|]. apply prunes_ahead; [done..|lia].
Qed.
End sweep.

(** * Concrete instance *)

Definition example_swept : SweptMap jsval :=
  mkSwept [(js "a", JNum (num_of_Z 5)); (js "b", JNum (num_of_Z 50)); (js "c", JUndef)] [js "c"; js "gone"] 1.

Lemma sweep_reclaims_witness :
  sw_ok example_swept ∧ ∀ k a, sw_get (foldl (λ s t, pruneMapBatch id t s) example_swept [num_of_Z 10; num_of_Z 10; num_of_Z 20]) k = Some a →
    isExpiredRecord a (num_of_Z 10) = false.
Proof.
  assert (sw_ok example_swept) as Hok.
  { unfold sw_ok, map_ok. apply (bool_decide_eq_true_1 _). vm_compute. reflexivity. }
  split; [exact Hok|].
  apply (sweep_reclaims id (num_of_Z 10) [num_of_Z 10; num_of_Z 10; num_of_Z 20] example_swept).
  - exact Hok.
  - repeat constructor.
  - cbn. lia.
Defined.
