(* ===== verification/VaultSafety.v ===== *)
(** express-oidc-vault-memory-store: what the vault store guarantees.  Every public
    method is one step of [vault_exec]; the theorems hold for any sequence of
    steps of any callers. *)

From S2P Require Import Prelude JsValue JsJson IndexedHeap JsMap HeapAdmission VaultBinding VaultDpop VaultTickets VaultStore.

(** * Steps *)

Inductive vault_op :=
  | OpCreateTransaction (input : OneTimeRecord)
  | OpGetTransaction (state : jsstr)
  | OpConsumeTransaction (state : jsstr)
  | OpConsumeTransactionIf (state : jsstr) (m : jsval)
  | OpCreateCode (input : OneTimeRecord)
  | OpGetCode (code : jsstr)
  | OpConsumeCode (code : jsstr)
  | OpConsumeCodeIf (code : jsstr) (m expectedSessionId : jsval)
  | OpCreateSession (input : Session)
  | OpGetSession (sessionId : jsstr)
  | OpRevocationContext (sessionId : jsstr)
  | OpRotateSession (sessionId : jsstr) (nextSession : Session)
  | OpDeleteSession (sessionId : jsstr)
  | OpResumeDelete (sessionId : jsstr)
  | OpDeleteByLogical (logicalSessionId : jsstr)
  | OpDeleteBySubject (input : jsstr + ScopedDeleteInput)
  | OpDeleteByProvider (input : jsstr + ScopedDeleteInput)
  | OpConsumeJti (jti : jsstr) (expiresAt : num)
  | OpReserveDpop (replayKey expiresAt : jsval)
  | OpCreateTicket (input : jsval)
  | OpConsumeTicket (input : jsval).

Inductive outcome :=
  | Done
  | Threw (e : vault_error)
  | GaveRecord (r : option OneTimeRecord)
  | GaveSession (s : option Session)
  | GaveContext (c : option RevocationContext)
  | GaveCount (n : Z)
  | GaveBool (b : bool)
  | GaveTicket (t : option jsval)
  | Pending.                              (** suspended at its [await] *)

Definition settle {A} (f : A → outcome) (r : vres A) : outcome :=
  match r with Ok a => f a | Err e => Threw e end.

Section exec.
Variable parse_url : jsstr → option URL.

(** [now] and [now2] are the readings of the store clock the step takes. *)
Definition vault_exec (op : vault_op) (now now2 : num) (v : Vault) : option (outcome * Vault) :=
match op with
| OpCreateTransaction r =>
    let '(o, v) := createAuthorizationTransaction r now v in Some (settle (λ _, Done) o, v)
| OpGetTransaction id => let '(o, v) := getAuthorizationTransaction id now v in Some (GaveRecord o, v)
| OpConsumeTransaction id =>
    let '(o, v) := consumeAuthorizationTransaction id now v in Some (GaveRecord o, v)
| OpConsumeTransactionIf id m =>
    let '(o, v) := consumeAuthorizationTransactionIfMatches id m now v in Some (GaveRecord o, v)
| OpCreateCode r => let '(o, v) := createExchangeCode r now v in Some (settle (λ _, Done) o, v)
| OpGetCode c => let '(o, v) := getExchangeCode c now v in Some (GaveRecord o, v)
| OpConsumeCode c => let '(o, v) := consumeExchangeCode c now v in Some (GaveRecord o, v)
| OpConsumeCodeIf c m e =>
    let '(o, v) := consumeExchangeCodeIfMatches c m e now v in Some (GaveRecord o, v)
| OpCreateSession s =>
    let '(o, v) := createSession s now v in Some (settle (GaveSession ∘ Some) o, v)
| OpGetSession id => let '(o, v) := getSession id now v in Some (GaveSession o, v)
| OpRevocationContext id => Some (settle GaveContext (getSessionRevocationContext id now v), v)
| OpRotateSession id next =>
    let '(o, v) := rotateSession id next now v in Some (settle (GaveSession ∘ Some) o, v)
| OpDeleteSession id =>
    let '(pending, v) := deleteSession id now now2 v in Some (if pending then Pending else Done, v)
| OpResumeDelete id => Some (Done, deleteSession_resume id v)
| OpDeleteByLogical l =>
    let '(n, v) := deleteSessionsByLogicalSessionId l now v in Some (GaveCount n, v)
| OpDeleteBySubject i => let '(n, v) := deleteSessionsBySubject i now v in Some (GaveCount n, v)
| OpDeleteByProvider i =>
    let '(n, v) := deleteSessionsByProviderSessionId i now v in Some (GaveCount n, v)
| OpConsumeJti jti e =>
    let '(b, v) := consumeBackchannelLogoutTokenJti jti e now v in Some (GaveBool b, v)
| OpReserveDpop k e =>
    '(o, h) ← dpop_reserve (dpopMaxEntries v) k e now (dpopProofs v);
    Some (settle GaveBool o, with_dpop v h)
| OpCreateTicket i =>
    '(o, h) ← createLogoutNavigationTicket parse_url (ticketMaxEntries v) i now (logoutTickets v);
    Some (settle (λ _, Done) o, with_tickets v h)
| OpConsumeTicket i =>
    '(o, h) ← consumeLogoutNavigationTicket parse_url i now (logoutTickets v);
    Some (settle GaveTicket o, with_tickets v h)
end.

Fixpoint vault_run (ops : list (vault_op * (num * num))) (v : Vault) : option (list outcome * Vault) :=
match ops with
| [] => Some ([], v)
| (op, (n1, n2)) :: ops =>
    '(o, v1) ← vault_exec op n1 n2 v;
    '(os, v2) ← vault_run ops v1;
    Some (o :: os, v2)
end.
End exec.

(** * Invariant *)

(** Every record is stored under its own identifier. *)
Definition keyed {A} (id_of : A → jsstr) (s : SweptMap A) : Prop := ∀ k a, sw_get s k = Some a → id_of a = k.

Record vault_inv (v : Vault) : Prop := {
  inv_transactions : sw_ok (authorizationTransactions v);
  inv_codes : sw_ok (exchangeCodes v);
  inv_sessions : sw_ok (sessions v);
  inv_aliases : sw_ok (rotatedSessionAliases v);
  inv_jtis : sw_ok (backchannelLogoutTokenJtis v);
  inv_transaction_keys : keyed ot_id (authorizationTransactions v);
  inv_code_keys : keyed ot_id (exchangeCodes v);
  inv_session_keys : keyed s_sessionId (sessions v);
  inv_disjoint : ∀ k a, sw_get (rotatedSessionAliases v) k = Some a → sw_get (sessions v) k = None;
  inv_dpop : dpop_inv (dpopMaxEntries v) (dpopProofs v);
  inv_tickets : tickets_inv (ticketMaxEntries v) (logoutTickets v)
}.

Lemma keyed_shrinks {A} (id_of : A → jsstr) gone s s' :
  keyed id_of s → sw_shrinks gone s s' → keyed id_of s'.
Proof. intros Hk Hs k a Ha. apply Hk. by eapply sw_shrinks_get. Qed.

Lemma keyed_set {A} (id_of : A → jsstr) s a : keyed id_of s → keyed id_of (sw_set s (id_of a) a).
Proof.
  intros Hk k a'. rewrite sw_get_set. destruct (jsstr_eqb k (id_of a)) eqn:E; [|apply Hk].
  apply jsstr_eqb_true in E as ->. by intros [= ->].
Qed.

(** A map that is still one, and lost the entries [gone] at most. *)
Definition loses {A} (gone : jsstr → A → Prop) (s s' : SweptMap A) : Prop :=
  sw_ok s' ∧ sw_shrinks gone s s'.

Lemma loses_refl {A} (gone : jsstr → A → Prop) s : sw_ok s → loses gone s s.
Proof. by split. Qed.
Lemma loses_trans {A} (gone : jsstr → A → Prop) s1 s2 s3 :
  loses gone s1 s2 → loses gone s2 s3 → loses gone s1 s3.
Proof. intros [? ?] [? ?]. split; [done|]. by eapply sw_shrinks_trans. Qed.
Lemma loses_impl {A} (g g' : jsstr → A → Prop) s s' : (∀ k a, g k a → g' k a) → loses g s s' → loses g' s s'.
Proof. intros Hi [? ?]. split; [done|]. by eapply sw_shrinks_impl. Qed.
Lemma loses_delete {A} (gone : jsstr → A → Prop) s k :
  sw_ok s → (∀ a, sw_get s k = Some a → gone k a) → loses gone s (sw_delete s k).
Proof. split; [auto|]. by apply sw_shrinks_delete. Qed.
#[export] Hint Resolve loses_refl : core.

(** * One-time records *)

Definition ot_gone (now : num) (_ : jsstr) (r : OneTimeRecord) : Prop :=
  finite_number (ot_createdAt r) = false ∨ finite_number (ot_expiresAt r) = false
  ∨ ot_expired r now = true ∨ hasValidRecordBinding (ot_deviceBinding r) (ot_browserBindingHash r) = false.

Lemma prune_records s now : sw_ok s → loses (ot_gone now) s (pruneMapBatch ot_expiresAt now s).
Proof.
  intros Hok. destruct (prune_spec ot_expiresAt now s Hok) as [H1 H2]. split; [done|].
  eapply sw_shrinks_impl; [|exact H2]. intros k r Hr. right; right; by left.
Qed.

Lemma read_spec s id now : sw_ok s →
  let '(o, s') := readOneTimeRecord s id now in
  loses (ot_gone now) s s' ∧
  match o with
  | Some r => s' = s ∧ sw_get s id = Some r ∧ ot_expired r now = false
      ∧ hasValidRecordBinding (ot_deviceBinding r) (ot_browserBindingHash r) = true
  | None => ∀ r, sw_get s id = Some r → ot_gone now id r
  end.
Proof.
  intros Hok. unfold readOneTimeRecord. destruct (sw_get s id) as [r|] eqn:E; [|by auto].
  destruct (negb _ || _ || _ || _) eqn:Eb.
  - assert (ot_gone now id r) as Hg.
    { unfold ot_gone. rewrite !orb_true_iff, !negb_true_iff in Eb. tauto. }
    split; [apply loses_delete; [done|]|]; intros a Ha; congruence.
  - rewrite !orb_false_iff, !negb_false_iff in Eb. destruct Eb as [[[? ?] ?] ?]. auto.
Qed.

(** What a consume with the check [test] does to the records: it hands out the live
    stored record that passes and removes it; otherwise it only drops dead ones. *)
Definition consumed (test : OneTimeRecord → bool) (id : jsstr) (now : num) (s s' : SweptMap OneTimeRecord)
    (o : option OneTimeRecord) : Prop :=
  loses (λ k r, ot_gone now k r ∨ k = id ∧ o = Some r) s s' ∧
  match o with
  | Some r => sw_get s id = Some r ∧ ¬ ot_gone now id r ∧ test r = true ∧ sw_get s' id = None
  | None => ∀ r, sw_get s id = Some r → ¬ ot_gone now id r → test r = false
  end.

Lemma not_gone now id r :
  finite_number (ot_createdAt r) = true → finite_number (ot_expiresAt r) = true →
  ot_expired r now = false → hasValidRecordBinding (ot_deviceBinding r) (ot_browserBindingHash r) = true →
  ¬ ot_gone now id r.
Proof. unfold ot_gone. intros -> -> -> -> [?|[?|[?|?]]]; done. Qed.

Lemma read_live s id now r : fst (readOneTimeRecord s id now) = Some r → ¬ ot_gone now id r.
Proof.
  unfold readOneTimeRecord. destruct (sw_get s id) as [r'|]; [|done].
  destruct (negb _ || _ || _ || _) eqn:Eb; [done|]. intros [= <-].
  rewrite !orb_false_iff, !negb_false_iff in Eb. destruct Eb as [[[? ?] ?] ?]. by apply not_gone.
Qed.

Lemma consume_read (test : OneTimeRecord → bool) id now s :
  sw_ok s →
  let '(record, s1) := readOneTimeRecord s id now in
  match record with
  | Some r => if test r then consumed test id now s (sw_delete s1 id) (Some r) else consumed test id now s s1 None
  | None => consumed test id now s s1 None
  end.
Proof.
  intros Hok. pose proof (read_spec s id now Hok) as H. pose proof (read_live s id now) as Hlive.
  destruct (readOneTimeRecord s id now) as [[r|] s1]; cbn [fst] in Hlive.
  - destruct H as (_ & -> & Hr & _). specialize (Hlive r eq_refl). destruct (test r) eqn:Et.
    + split; [|split_and!; [done..|rewrite sw_get_delete, jsstr_eqb_refl by done; done]].
      apply loses_delete; [done|]. intros a Ha. right. split; congruence.
    + split; [by apply loses_refl|]. intros r' Hr' _. congruence.
  - destruct H as [Hl Hn]. split; [eapply loses_impl; [|exact Hl]; by left|].
    intros r Hr Hg. by destruct (Hg (Hn r Hr)).
Qed.

Lemma consumed_prune test id now s0 s s' o :
  loses (ot_gone now) s0 s → consumed test id now s s' o → consumed test id now s0 s' o.
Proof.
  intros Hp (Hl & Ho). split.
  - eapply loses_trans; [|exact Hl]. eapply loses_impl; [|exact Hp]. by left.
  - destruct o as [r|].
    + destruct Ho as (H1 & H2 & H3 & H4). split_and!; [|done..]. destruct Hp as [_ Hp]. by eapply sw_shrinks_get.
    + intros r Hr Hg. apply Ho; [|done]. destruct Hp as [_ Hp]. by eapply sw_shrinks_keep.
Qed.

Definition transaction_test (id : jsstr) (m : jsval) (r : OneTimeRecord) : bool :=
  usable_transaction r id && matchesRecordBinding r m.

Definition code_test (code : jsstr) (m : jsval) (expected : option jsstr) (r : OneTimeRecord) : bool :=
  usable_code r code
  && match expected with
     | Some e => js_strict_eq (ot_field r (js "sessionId")) (JStr e)
     | None => true
     end
  && matchesRecordBinding r m.

Lemma consume_transaction_spec id m now v : sw_ok (authorizationTransactions v) →
  let '(o, v') := consumeAuthorizationTransactionIfMatches id m now v in
  if isBindingMatch m
  then ∃ s, v' = with_transactions v s
         ∧ consumed (transaction_test id m) id now (authorizationTransactions v) s o
  else o = None ∧ v' = v.
Proof.
  intros Hok. unfold consumeAuthorizationTransactionIfMatches. destruct (isBindingMatch m); cbn [negb]; [|done].
  pose proof (prune_records _ now Hok) as Hp. pose proof Hp as [Hok' _].
  pose proof (consume_read (transaction_test id m) id now _ Hok') as H.
  destruct (readOneTimeRecord _ id now) as [[r|] s1].
  - change (usable_transaction r id && matchesRecordBinding r m) with (transaction_test id m r).
    destruct (transaction_test id m r); eexists; split; try done; by eapply consumed_prune.
  - eexists; split; [done|]. by eapply consumed_prune.
Qed.

Lemma consume_record_spec code m now expected v0 v : 
  v = prune_codes now v0 → sw_ok (exchangeCodes v0) →
  let '(o, v') := consumeExchangeRecord code m now expected v in
  ∃ s, v' = with_codes v0 s ∧ consumed (code_test code m expected) code now (exchangeCodes v0) s o.
Proof.
  intros -> Hok. unfold consumeExchangeRecord. cbn [prune_codes exchangeCodes with_codes].
  pose proof (prune_records _ now Hok) as Hp. pose proof Hp as [Hok' _].
  pose proof (consume_read (code_test code m expected) code now _ Hok') as H.
  destruct (readOneTimeRecord _ code now) as [[r|] s1].
  - change (usable_code r code && _ && matchesRecordBinding r m) with (code_test code m expected r).
    destruct (code_test code m expected r); eexists; split; try done; by eapply consumed_prune.
  - eexists; split; [done|]. by eapply consumed_prune.
Qed.

Lemma consume_code_if_spec code m e now v : sw_ok (exchangeCodes v) →
  let '(o, v') := consumeExchangeCodeIfMatches code m e now v in
  match as_string e with
  | Some e' =>
      if isBindingMatch m
      then ∃ s, v' = with_codes v s ∧ consumed (code_test code m (Some e')) code now (exchangeCodes v) s o
      else o = None ∧ v' = v
  | None => o = None ∧ v' = v
  end.
Proof.
  intros Hok. unfold consumeExchangeCodeIfMatches. destruct e; cbn [as_string]; try done.
  destruct (isBindingMatch m); [|done]. by apply consume_record_spec.
Qed.

Lemma consume_code_spec code now v : sw_ok (exchangeCodes v) →
  let '(o, v') := consumeExchangeCode code now v in
  ∃ s, v' = with_codes v s ∧ consumed (code_test code unbound_match None) code now (exchangeCodes v) s o.
Proof. intros. by apply consume_record_spec. Qed.

(** * Sessions *)

(** Only sessions [gs] and aliases [ga] are lost; nothing else changes. *)
Definition changes (gs : jsstr → Session → Prop) (ga : jsstr → RotatedSessionAlias → Prop) (v v' : Vault) : Prop :=
  ∃ s m, v' = with_aliases (with_sessions v s) m ∧ loses gs (sessions v) s
    ∧ loses ga (rotatedSessionAliases v) m.

Definition sessions_ok (v : Vault) : Prop := sw_ok (sessions v) ∧ sw_ok (rotatedSessionAliases v).

Lemma with_self v : with_aliases (with_sessions v (sessions v)) (rotatedSessionAliases v) = v.
Proof. by destruct v. Qed.

Lemma with_sessions_self v : with_sessions v (sessions v) = v.
Proof. by destruct v. Qed.

Lemma changes_refl gs ga v : sessions_ok v → changes gs ga v v.
Proof. intros [? ?]. exists (sessions v), (rotatedSessionAliases v). rewrite with_self. auto. Qed.

Lemma changes_ok gs ga v v' : changes gs ga v v' → sessions_ok v'.
Proof. by intros (s & m & -> & [? _] & [? _]). Qed.

Lemma changes_trans (gs : jsstr → Session → Prop) (ga : jsstr → RotatedSessionAlias → Prop) v1 v2 v3 :
  changes gs ga v1 v2 → changes gs ga v2 v3 → changes gs ga v1 v3.
Proof.
  intros (s & m & -> & H1 & H2) (s' & m' & -> & H3 & H4). exists s', m'. split; [done|].
  split; by eapply loses_trans.
Qed.

Lemma changes_impl (gs gs' : jsstr → Session → Prop) (ga ga' : jsstr → RotatedSessionAlias → Prop) v v' :
  (∀ k s, gs k s → gs' k s) → (∀ k a, ga k a → ga' k a) → changes gs ga v v' → changes gs' ga' v v'.
Proof.
  intros Hs Ha (s & m & -> & H1 & H2). exists s, m. split; [done|].
  split; by eapply loses_impl.
Qed.

Lemma dropped_changes gs (gone : jsstr → Prop) v v' :
  sw_ok (sessions v) → aliases_dropped gone v v' → changes gs (λ _ a, gone (al_logicalSessionId a)) v v'.
Proof.
  intros Hok (m & -> & Hm & Hsh). exists (sessions v), m. split; [by destruct v|]. split; [auto|by split].
Qed.

(** A lineage that had a live session and lost only expired ones still has one. *)
Lemma has_live_loses v v' l now (gs : jsstr → Session → Prop) :
  loses gs (sessions v) (sessions v') → (∀ k s, gs k s → s_expired s now = true) →
  has_live v l now → has_live v' l now.
Proof.
  intros [_ Hsh] Hg (k & s & Hk & Hl & He). exists k, s. split_and!; [|done..].
  eapply sw_shrinks_keep; [done..|]. intros H%Hg. congruence.
Qed.

Lemma has_live_back v v' l now (gs : jsstr → Session → Prop) :
  sw_shrinks gs (sessions v) (sessions v') → has_live v' l now → has_live v l now.
Proof. intros Hsh (k & s & Hk & Hl & He). exists k, s. split_and!; [|done..]. by eapply sw_shrinks_get. Qed.

Definition expired_session (now : num) (_ : jsstr) (s : Session) : Prop := s_expired s now = true.
Definition inactive (v : Vault) (now : num) (_ : jsstr) (a : RotatedSessionAlias) : Prop :=
  ¬ has_live v (al_logicalSessionId a) now.

(** Dropping sessions [s'] and then the aliases of inactive lineages. *)
Lemma drop_sessions gs v s' ids now :
  sessions_ok v → loses gs (sessions v) s' →
  let v' := removeAliasesForInactiveLogicalSessions ids now (with_sessions v s') in
  changes gs (inactive v' now) v v' ∧ sessions v' = s'.
Proof.
  intros [Hs Ha] Hl. pose proof Hl as [Hs' _]. cbn zeta.
  destruct (remove_inactive_all_dropped ids now (with_sessions v s') Hs' Ha) as (m & E & Hm & Hsh).
  rewrite E. split; [|done]. exists s', m. split; [done|]. split; [done|]. split; [done|].
  eapply sw_shrinks_impl; [|exact Hsh]. intros k a [_ Hn]. exact Hn.
Qed.

Lemma prune_sessions_spec now v : sessions_ok v →
  changes (expired_session now) (inactive v now) v (pruneSessionsBatch now v).
Proof.
  intros Hv. pose proof Hv as [Hs Ha]. unfold pruneSessionsBatch.
  pose proof (sweep_batch_spec s_expiresAt now (sessions v) Hs) as H.
  destruct (sweep_batch s_expiresAt now (sessions v)) as [s gone]. cbn [fst snd] in H.
  destruct H as (Hok & Hsh & _).
  assert (loses (expired_session now) (sessions v) s) as Hl.
  { split; [done|]. eapply sw_shrinks_impl; [|exact Hsh]. by intros k x [? _]. }
  destruct (drop_sessions _ v s (foldl (λ ids x, set_add ids (lineage x)) [] gone) now Hv Hl) as [Hch E].
  eapply changes_impl; [done| |exact Hch]. intros k a Hna Hlive. apply Hna.
  eapply has_live_loses; [| |exact Hlive]; [rewrite E; exact Hl|]. done.
Qed.

Lemma prune_aliases_spec gs now v : sessions_ok v →
  changes gs (λ _ a, al_expired a now = true) v (prune_aliases now v).
Proof.
  intros [Hs Ha]. destruct (prune_spec al_expiresAt now _ Ha) as [H1 H2].
  exists (sessions v), (pruneMapBatch al_expiresAt now (rotatedSessionAliases v)).
  split; [by destruct v|]. split; [auto|]. by split.
Qed.

(** [pruneSessionsBatch] then the alias sweep, as [createSession] and
    [deleteSession] begin. *)
Definition prune_both (now : num) (v : Vault) : Vault := prune_aliases now (pruneSessionsBatch now v).
Definition stale_alias (v : Vault) (now : num) (k : jsstr) (a : RotatedSessionAlias) : Prop :=
  inactive v now k a ∨ al_expired a now = true.

Lemma prune_both_spec now v : sessions_ok v →
  changes (expired_session now) (stale_alias v now) v (prune_both now v).
Proof.
  intros Hv. pose proof (prune_sessions_spec now v Hv) as H1.
  eapply changes_trans.
  - eapply changes_impl; [done| |exact H1]. by left.
  - eapply changes_impl; [| |apply prune_aliases_spec]; [done| |by eapply changes_ok]. by right.
Qed.

(** Removing one session and, when its lineage is now inactive, its aliases. *)
Lemma retire_spec k s now v : sessions_ok v → sw_get (sessions v) k = Some s →
  let v' := removeAliasesForInactiveLogicalSession (lineage s) now
              (with_sessions v (sw_delete (sessions v) k)) in
  changes (λ k' s', k' = k ∧ s' = s) (inactive v' now) v v' ∧ sessions v' = sw_delete (sessions v) k.
Proof.
  intros Hv Hk. pose proof Hv as [Hs Ha]. apply (drop_sessions _ v _ [lineage s] now Hv).
  apply loses_delete; [done|]. intros a Hk'. split; [done|congruence].
Qed.

(** [s'] is [s] with the entries [put] set and some entries [gone] lost. *)
Definition updates {A} (gone : jsstr → A → Prop) (put : jsmap A) (s s' : SweptMap A) : Prop :=
  sw_ok s' ∧ ∀ k, match map_get put k with
                  | Some a => sw_get s' k = Some a
                  | None => sw_get s' k = sw_get s k
                      ∨ sw_get s' k = None ∧ ∃ a, sw_get s k = Some a ∧ gone k a
                  end.

Section updates.
Context {A : Type} (gone : jsstr → A → Prop).
Implicit Types (put : jsmap A) (s : SweptMap A).

Lemma updates_loses s s' : loses gone s s' → updates gone [] s s'.
Proof. intros [Hok Hsh]. split; [done|]. exact Hsh. Qed.

Lemma updates_set put s s' k a : updates gone put s s' → updates gone ((k, a) :: put) s (sw_set s' k a).
Proof.
  intros [Hok H]. split; [auto|]. intros k'. cbn [map_get]. rewrite sw_get_set.
  destruct (jsstr_eqb k' k); [done|]. apply H.
Qed.

Lemma updates_delete put s s' k : updates gone put s s' → map_get put k = None →
  (∀ a, sw_get s k = Some a → gone k a) → updates gone put s (sw_delete s' k).
Proof.
  intros [Hok H] Hp Hg. split; [auto|]. intros k'. specialize (H k'). rewrite sw_get_delete by done.
  destruct (jsstr_eqb k' k) eqn:E; [|done]. apply jsstr_eqb_true in E as ->. rewrite Hp.
  destruct (sw_get s k) as [a|]; [|by left]. right. eauto.
Qed.

Lemma updates_then (g : jsstr → A → Prop) put s s1 s2 : updates gone put s s1 → loses g s1 s2 →
  (∀ k a, g k a → map_get put k = None ∧ gone k a) → updates gone put s s2.
Proof.
  intros [Hok H] [Hok2 Hsh] Hg. split; [done|]. intros k. specialize (H k). unfold sw_get in *.
  destruct (Hsh k) as [->|(E & a & Ha & Hga)]; [done|]. destruct (Hg k a Hga) as [Hp Hgone].
  rewrite Hp in *. right. split; [done|]. destruct H as [H|[H _]]; [|congruence]. exists a.
  split; [congruence|done].
Qed.

Lemma updates_impl (g : jsstr → A → Prop) put s s' :
  (∀ k a, gone k a → g k a) → updates gone put s s' → updates g put s s'.
Proof.
  intros Hi [Hok H]. split; [done|]. intros k. specialize (H k). destruct (map_get put k); [done|].
  destruct H as [?|(? & a & ? & ?)]; [by left|right; eauto].
Qed.

Lemma updates_keep put s s' k a : updates gone put s s' → map_get put k = None →
  sw_get s k = Some a → ¬ gone k a → sw_get s' k = Some a.
Proof.
  intros [_ H] Hp Hk Hg. specialize (H k). rewrite Hp in H.
  destruct H as [->|(_ & a' & E & Hg')]; [done|]. destruct Hg. congruence.
Qed.

Lemma updates_from put s s' k a : updates gone put s s' → sw_get s' k = Some a →
  map_get put k = Some a ∨ map_get put k = None ∧ sw_get s k = Some a.
Proof.
  intros [_ H] Hk. specialize (H k). destruct (map_get put k); [left; congruence|right].
  destruct H as [?|[? _]]; [|congruence]. split; congruence.
Qed.

Lemma keyed_updates (id_of : A → jsstr) put s s' :
  keyed id_of s → (∀ k a, map_get put k = Some a → id_of a = k) → updates gone put s s' → keyed id_of s'.
Proof. intros Hk Hp Hu k a Ha. destruct (updates_from put s s' k a Hu Ha) as [?|[_ ?]]; auto. Qed.
End updates.

(** The effect of an operation on the sessions and the aliases. *)
Definition effect (gs : jsstr → Session → Prop) (ps : jsmap Session)
    (ga : jsstr → RotatedSessionAlias → Prop) (pa : jsmap RotatedSessionAlias) (v v' : Vault) : Prop :=
  ∃ s m, v' = with_aliases (with_sessions v s) m ∧ updates gs ps (sessions v) s
    ∧ updates ga pa (rotatedSessionAliases v) m.

Lemma changes_effect gs ga v v' : changes gs ga v v' → effect gs [] ga [] v v'.
Proof. intros (s & m & -> & H1 & H2). exists s, m. split; [done|]. split; by apply updates_loses. Qed.

Lemma effect_impl (gs gs' : jsstr → Session → Prop) ps (ga ga' : jsstr → RotatedSessionAlias → Prop) pa v v' :
  (∀ k s, gs k s → gs' k s) → (∀ k a, ga k a → ga' k a) → effect gs ps ga pa v v' → effect gs' ps ga' pa v v'.
Proof.
  intros Hs Ha (s & m & -> & H1 & H2). exists s, m. split; [done|]. split; by eapply updates_impl.
Qed.

(** Dropping the aliases of one lineage, if inactive, at the end of an operation. *)
Lemma effect_retire l now v1 (gs : jsstr → Session → Prop) ps (ga : jsstr → RotatedSessionAlias → Prop) pa v :
  effect gs ps ga pa v v1 → (∀ k a, map_get pa k = Some a → al_logicalSessionId a ≠ l) →
  let v' := removeAliasesForInactiveLogicalSession l now v1 in
  effect gs ps (λ k a, ga k a ∨ inactive v' now k a) pa v v' ∧ sessions v' = sessions v1.
Proof.
  intros (s & m & -> & Hs & Hm) Hpa. cbn zeta.
  destruct (remove_inactive_dropped l now (with_aliases (with_sessions v s) m)) as (m' & E & Hok' & Hsh);
    [apply Hs|apply Hm|].
  rewrite E. cbn [sessions with_aliases with_sessions rotatedSessionAliases] in *. split; [|done].
  exists s, m'. split; [done|]. split; [done|]. split; [done|]. intros k. destruct Hm as [_ Hm].
  specialize (Hm k). specialize (Hsh k). unfold sw_get in *. destruct (map_get pa k) as [a|] eqn:Ep.
  - destruct Hsh as [->|(_ & a' & Ea & [Hl _])]; [done|]. exfalso. apply (Hpa k a); [done|]. congruence.
  - destruct Hsh as [->|(En & a & Ea & [Hl Hn])].
    + destruct Hm as [?|(? & a & ? & ?)]; [by left|right; eauto].
    + right. split; [done|]. destruct Hm as [Hm|[Hm _]]; [|congruence]. exists a. split; [congruence|].
      right. unfold inactive. by rewrite Hl.
Qed.

(** ** createSession and rotateSession *)

Definition handle_gone (v v' : Vault) (now : num) (id : jsstr) (k : jsstr) (a : RotatedSessionAlias) : Prop :=
  k = id ∨ al_expired a now = true ∨ inactive v now k a ∨ inactive v' now k a.

Lemma create_session_spec input now v : sessions_ok v →
  let '(o, v') := createSession input now v in
  match o with
  | Ok s => s = with_defaults input (lineage input) now ∧ assertSessionBinding input = Ok tt
      ∧ effect (expired_session now) [(s_sessionId input, s)] (handle_gone v v' now (s_sessionId input)) [] v v'
      ∧ sw_get (rotatedSessionAliases v') (s_sessionId input) = None
  | Err _ => v' = v
  end.
Proof.
  intros Hv. unfold createSession. destruct (assertSessionBinding input) as [[]|e] eqn:Eb; [|done].
  change (prune_aliases now (pruneSessionsBatch now v)) with (prune_both now v).
  pose proof (prune_both_spec now v Hv) as (s1 & m1 & -> & Hs1 & Hm1). cbn zeta.
  set (session := with_defaults input (lineage input) now).
  change (s_sessionId session) with (s_sessionId input). set (id := s_sessionId input).
  cbn [sessions rotatedSessionAliases with_aliases with_sessions].
  set (v2 := with_aliases (with_sessions _ (sw_set s1 id session)) (sw_delete m1 id)).
  assert (effect (expired_session now) [(id, session)]
    (λ k a, k = id ∨ stale_alias v now k a) [] v v2) as He.
  { exists (sw_set s1 id session), (sw_delete m1 id). split; [done|]. split.
    - apply updates_set, updates_loses, Hs1.
    - apply updates_delete; [|done|by left].
      eapply updates_impl; [|apply updates_loses, Hm1]. by right. }
  assert (sw_get (rotatedSessionAliases v2) id = None) as Hnone.
  { unfold v2. cbn [rotatedSessionAliases with_aliases]. rewrite sw_get_delete by apply Hm1.
    by rewrite jsstr_eqb_refl. }
  assert (∀ v', effect (expired_session now) [(id, session)]
      (λ k a, (k = id ∨ stale_alias v now k a) ∨ inactive v' now k a) [] v v' →
    effect (expired_session now) [(id, session)] (handle_gone v v' now id) [] v v') as Hweak.
  { intros v'. apply effect_impl; [done|]. unfold handle_gone, stale_alias. tauto. }
  assert (sw_ok (sessions v2) ∧ sw_ok (rotatedSessionAliases v2)) as [Hs2 Ha2].
  { split; [apply sw_set_ok, Hs1|apply sw_delete_ok, Hm1]. }
  destruct (sw_get s1 id) as [p|]; [destruct (jsstr_eqb (lineage p) (lineage session))|].
  1, 3: (split_and!; [done|done| |done]; apply Hweak; eapply effect_impl; [| |exact He]; [done|]; by left).
  destruct (effect_retire (lineage p) now v2 _ _ _ [] v He) as [He' _]; [done|].
  split_and!; [done|done|by apply Hweak|].
  destruct (remove_inactive_dropped (lineage p) now v2 Hs2 Ha2) as (m & -> & _ & Hsh).
  cbn [rotatedSessionAliases with_aliases]. by eapply sw_shrinks_none.
Qed.

(** What a successful rotation from [id] to [next] does. *)
Definition rotated (id : jsstr) (next session : Session) (now : num) (v v' : Vault) : Prop :=
  ∃ source next',
    live_session v id now = Some source ∧ hasValidSessionRecord source id = true
    ∧ s_sessionId next ≠ id ∧ live_session v (s_sessionId next) now = None
    ∧ inheritSessionBinding source next = Ok next'
    ∧ session = with_defaults next' (default (lineage source) (s_logicalSessionId next')) now
    ∧ effect (λ k s, k = id ∨ k = s_sessionId next) [(s_sessionId next, session)]
        (handle_gone v v' now (s_sessionId next)) [(id, mkAlias (lineage session) (s_expiresAt session))] v v'
    ∧ sw_get (sessions v') id = None ∧ sw_get (rotatedSessionAliases v') (s_sessionId next) = None.

(** The end of [rotateSession], once nothing can fail any more. *)
Definition rotate_commit (id : jsstr) (source session : Session) (target : option Session) (now : num)
    (v : Vault) : Vault :=
  let v := match target with
           | Some t => removeAliasesForInactiveLogicalSession (lineage t) now
                         (with_sessions v (sw_delete (sessions v) (s_sessionId session)))
           | None => v
           end in
  let v := with_sessions v (sw_delete (sessions v) id) in
  let v := with_sessions v (sw_set (sessions v) (s_sessionId session) session) in
  let v := with_aliases v (sw_delete (rotatedSessionAliases v) (s_sessionId session)) in
  let v := with_aliases v (sw_set (rotatedSessionAliases v) id
                             (mkAlias (lineage session) (s_expiresAt session))) in
  if jsstr_eqb (lineage source) (lineage session) then v
  else removeAliasesForInactiveLogicalSession (lineage source) now v.

(** Retiring the expired holder of the target identifier. *)
Lemma retire_target nid target now v : sessions_ok v →
  target = sw_get (sessions v) nid → (∀ t, target = Some t → s_expired t now = true) →
  changes (λ k _, k = nid) (inactive v now) v
    (match target with
     | Some t => removeAliasesForInactiveLogicalSession (lineage t) now
                   (with_sessions v (sw_delete (sessions v) nid))
     | None => v
     end).
Proof.
  intros Hv -> Ht. destruct (sw_get (sessions v) nid) as [t|] eqn:E; [|by apply changes_refl].
  destruct (retire_spec nid t now v Hv E) as [Hch Es]. eapply changes_impl; [| |exact Hch].
  - by intros k s [-> _].
  - intros k a Hn Hl. apply Hn. eapply has_live_loses; [| |exact Hl].
    + rewrite Es. apply (loses_delete (λ _ s, s = t)); [apply Hv|]. congruence.
    + cbn. intros _ s ->. by apply Ht.
Qed.

Lemma rotate_commit_spec id source session now v : sessions_ok v →
  s_sessionId session ≠ id → live_session v (s_sessionId session) now = None →
  let nid := s_sessionId session in
  let v' := rotate_commit id source session (sw_get (sessions v) nid) now v in
  effect (λ k s, k = id ∨ k = nid) [(nid, session)] (handle_gone v v' now nid)
    [(id, mkAlias (lineage session) (s_expiresAt session))] v v'
  ∧ sw_get (sessions v') id = None ∧ sw_get (rotatedSessionAliases v') nid = None.
Proof.
  intros Hv Hne Hdead. cbn zeta. set (nid := s_sessionId session) in *.
  pose proof (retire_target nid _ now v Hv eq_refl) as Hrt. unfold rotate_commit.
  destruct Hrt as (s1 & m1 & E1 & Hs1 & Hm1).
  { intros t Et. unfold live_session in Hdead. rewrite Et in Hdead. cbn in Hdead.
    by destruct (s_expired t now). }
  fold nid. rewrite E1. cbn zeta. clear E1. cbn [sessions rotatedSessionAliases with_aliases with_sessions].
  set (alias := mkAlias _ _).
  set (v2 := with_aliases _ (sw_set (sw_delete m1 nid) id alias)).
  assert (jsstr_eqb nid id = false) as Hni by by apply jsstr_eqb_false.
  assert (jsstr_eqb id nid = false) as Hin by (apply jsstr_eqb_false; congruence).
  assert (effect (λ k s, k = id ∨ k = nid) [(nid, session)] (λ k a, k = nid ∨ inactive v now k a)
    [(id, alias)] v v2) as He.
  { exists (sw_set (sw_delete s1 id) nid session), (sw_set (sw_delete m1 nid) id alias). split; [done|]. split.
    - apply updates_set. apply updates_delete; [|done|by left].
      eapply updates_impl; [|apply updates_loses, Hs1]. by right.
    - apply updates_set. apply updates_delete; [|done|by left].
      eapply updates_impl; [|apply updates_loses, Hm1]. by right. }
  assert (sw_get (sessions v2) id = None ∧ sw_get (rotatedSessionAliases v2) nid = None) as [Hn1 Hn2].
  { unfold v2. cbn [sessions rotatedSessionAliases with_aliases with_sessions].
    rewrite !sw_get_set, Hin, Hni, !sw_get_delete, !jsstr_eqb_refl by (apply Hs1 || apply Hm1). done. }
  assert (∀ v', effect (λ k s, k = id ∨ k = nid) [(nid, session)]
      (λ k a, (k = nid ∨ inactive v now k a) ∨ inactive v' now k a) [(id, alias)] v v' →
    effect (λ k s, k = id ∨ k = nid) [(nid, session)] (handle_gone v v' now nid) [(id, alias)] v v') as Hweak.
  { intros v'. apply effect_impl; [done|]. unfold handle_gone. tauto. }
  destruct (jsstr_eqb (lineage source) (lineage session)) eqn:El.
  { split; [|done]. apply Hweak. eapply effect_impl; [| |exact He]; [done|]. by left. }
  apply jsstr_eqb_false in El. destruct (effect_retire (lineage source) now v2 _ _ _ _ v He) as [He' Es].
  { intros k a. cbn [map_get]. destruct (jsstr_eqb k id); [|done]. intros [= <-]. cbn. congruence. }
  split; [by apply Hweak|]. split; [by rewrite Es|].
  destruct (remove_inactive_dropped (lineage source) now v2) as (m & -> & _ & Hsh).
  { apply sw_set_ok, sw_delete_ok, Hs1. } { apply sw_set_ok, sw_delete_ok, Hm1. }
  cbn [rotatedSessionAliases with_aliases]. by eapply sw_shrinks_none.
Qed.

Lemma inherit_ids source next next' : inheritSessionBinding source next = Ok next' →
  s_sessionId next' = s_sessionId next.
Proof. intros H%inherit_constraint. tauto. Qed.

Lemma rotate_session_spec id next now v : sessions_ok v →
  let '(o, v') := rotateSession id next now v in
  match o with
  | Ok session => rotated id next session now v v'
  | Err _ => changes (expired_session now) (inactive v now) v v'
  end.
Proof.
  intros Hv. unfold rotateSession. destruct (sw_get (sessions v) id) as [s|] eqn:Es.
  2: { rewrite Es. by apply changes_refl. }
  destruct (s_expired s now) eqn:Ex.
  { destruct (retire_spec id s now v Hv Es) as [Hch E]. rewrite E, sw_get_delete, jsstr_eqb_refl by apply Hv.
    eapply changes_impl; [| |exact Hch].
    - by intros k s' [_ ->].
    - intros k a Hn Hl. apply Hn. eapply has_live_loses; [| |exact Hl].
      + rewrite E. apply (loses_delete (λ _ s', s' = s)); [apply Hv|]. congruence.
      + by intros _ s' ->. }
  rewrite Es. destruct (hasValidSessionRecord s id) eqn:Hvalid; cbn [negb]; [|by apply changes_refl].
  destruct (jsstr_eqb (s_sessionId next) id) eqn:Hne; [by apply changes_refl|].
  destruct (match sw_get (sessions v) (s_sessionId next) with Some t => negb (s_expired t now) | None => false end)
    eqn:Ht; [by apply changes_refl|].
  destruct (inheritSessionBinding s next) as [next'|e] eqn:Ei; [|by apply changes_refl].
  pose proof (inherit_ids _ _ _ Ei) as Hid. set (session := with_defaults next' _ now).
  assert (s_sessionId session = s_sessionId next) as Hid' by done.
  assert (live_session v (s_sessionId next) now = None) as Hdead.
  { unfold live_session. destruct (sw_get (sessions v) (s_sessionId next)) as [t|]; [|done]. cbn.
    by destruct (s_expired t now). }
  exists s, next'. apply jsstr_eqb_false in Hne.
  pose proof (rotate_commit_spec id s session now v Hv) as Hc. cbn zeta in Hc. rewrite Hid' in Hc.
  split_and!; [|done|done|done|done|done|by apply Hc..].
  unfold live_session. rewrite Es. cbn. by rewrite Ex.
Qed.

(** ** Reads and deletions *)

Lemma get_session_spec id now v : sessions_ok v →
  let '(o, v') := getSession id now v in
  changes (expired_session now) (inactive v' now) v v'
  ∧ ∀ s, o = Some s ↔ live_session v id now = Some s ∧ hasValidSessionRecord s id = true.
Proof.
  intros Hv. unfold getSession, live_session. destruct (sw_get (sessions v) id) as [s|] eqn:Es; cbn.
  2: { split; [by apply changes_refl|]. naive_solver. }
  destruct (s_expired s now) eqn:Ex.
  - destruct (retire_spec id s now v Hv Es) as [Hch _]. split; [|naive_solver].
    eapply changes_impl; [|by intros|exact Hch]. by intros k s' [_ ->].
  - split; [by apply changes_refl|]. intros s'. destruct (hasValidSessionRecord s id) eqn:E.
    + split; [by intros [= <-]|by intros [[= <-] _]].
    + split; [done|]. intros [[= <-] ?]. congruence.
Qed.

Lemma delete_scoped_spec matches now v : sessions_ok v →
  let '(n, v') := delete_scoped matches now v in
  changes (λ _ s, scan_hit now matches s = true) (inactive v' now) v v'
  ∧ (∀ k s, sw_get (sessions v') k = Some s → scan_hit now matches s = false)
  ∧ n = Z.of_nat (length (List.filter (λ kv, scan_counts now matches kv.2) (sw_map (sessions v)))).
Proof.
  intros Hv. unfold delete_scoped. destruct (delete_scan_spec now matches v) as (H1 & H2 & H3 & H4); [apply Hv|].
  destruct (drop_sessions _ v _ (scan_expired (delete_scan now matches v)) now Hv (conj H1 H2)) as [Hc1 E1].
  set (v1 := removeAliasesForInactiveLogicalSessions _ _ _) in *.
  pose proof (changes_ok _ _ _ _ Hc1) as Hv1.
  destruct (drop_sessions (λ _ _, False) v1 (sessions v1) (scan_matched (delete_scan now matches v)) now Hv1)
    as [Hc2 E2]; [apply loses_refl, Hv1|].
  rewrite with_sessions_self in Hc2, E2.
  set (v2 := removeAliasesForInactiveLogicalSessions _ now v1) in *. split_and!; [| |done].
  - eapply changes_trans.
    + eapply changes_impl; [| |exact Hc1]; [done|]. unfold inactive, has_live. by rewrite E2.
    + eapply changes_impl; [| |exact Hc2]; done.
  - rewrite E2, E1. exact H3.
Qed.

Definition in_lineage (l : jsstr) (s : Session) : bool := jsstr_eqb (lineage s) l.

Lemma delete_logical_spec l now v : sessions_ok v →
  let '(n, v') := deleteSessionsByLogicalSessionId l now v in
  changes (λ _ s, scan_hit now (in_lineage l) s = true)
    (λ k a, inactive v' now k a ∨ al_logicalSessionId a = l) v v'
  ∧ (∀ k s, sw_get (sessions v') k = Some s → scan_hit now (in_lineage l) s = false)
  ∧ (∀ k a, sw_get (rotatedSessionAliases v') k = Some a → al_logicalSessionId a ≠ l)
  ∧ n = Z.of_nat (length (List.filter (λ kv, scan_counts now (in_lineage l) kv.2) (sw_map (sessions v)))).
Proof.
  intros Hv. unfold deleteSessionsByLogicalSessionId. fold (in_lineage l).
  destruct (delete_scan_spec now (in_lineage l) v) as (H1 & H2 & H3 & H4); [apply Hv|].
  change (λ s, jsstr_eqb (lineage s) l) with (in_lineage l).
  destruct (drop_sessions _ v _ (scan_expired (delete_scan now (in_lineage l) v)) now Hv (conj H1 H2)) as [Hc1 E1].
  set (v1 := removeAliasesForInactiveLogicalSessions _ _ _) in *.
  pose proof (changes_ok _ _ _ _ Hc1) as Hv1.
  destruct (remove_lineage_dropped l v1) as [Hd Hgone]; [apply Hv1|].
  assert (sessions (removeAliasesForLogicalSession l v1) = sessions v1) as E2 by done.
  set (v2 := removeAliasesForLogicalSession l v1) in *. split_and!; [| |exact Hgone|done].
  - eapply changes_trans.
    + eapply changes_impl; [| |exact Hc1]; [done|]. unfold inactive, has_live. rewrite E2. by left.
    + eapply changes_impl; [| |apply (dropped_changes (λ _ _, False)); [apply Hv1|exact Hd]]; [done|].
      cbn. intros k a <-. by right.
  - rewrite E2, E1. exact H3.
Qed.

(** What [deleteSession id] deletes besides dead records: the session [id], or the
    lineage the rotated handle [id] stands for. *)
Definition handle_of (v : Vault) (id : jsstr) (now : num) : option jsstr :=
  a ← sw_get (rotatedSessionAliases v) id; if al_expired a now then None else Some (al_logicalSessionId a).

Definition delete_hit (v : Vault) (id : jsstr) (now now2 : num) (k : jsstr) (s : Session) : Prop :=
  k = id ∨ s_expired s now = true ∨ s_expired s now2 = true ∨ handle_of v id now = Some (lineage s).

Definition delete_alias_hit (v v' : Vault) (id : jsstr) (now now2 : num) (k : jsstr) (a : RotatedSessionAlias) : Prop :=
  k = id ∨ stale_alias v now k a ∨ inactive v' now k a ∨ inactive v' now2 k a
  ∨ handle_of v id now = Some (al_logicalSessionId a).

Lemma delete_session_spec id now now2 v : sessions_ok v →
  let '(p, v') := deleteSession id now now2 v in
  changes (delete_hit v id now now2) (delete_alias_hit v v' id now now2) v v'
  ∧ sw_get (sessions v') id = None
  ∧ (p = true → ∃ l, handle_of v id now = Some l ∧ ¬ has_live v' l now2
       ∧ ∀ k a, sw_get (rotatedSessionAliases v') k = Some a → al_logicalSessionId a ≠ l)
  ∧ (p = false → sw_get (rotatedSessionAliases v') id = None).
Proof.
  intros Hv. unfold deleteSession. change (prune_aliases now (pruneSessionsBatch now v)) with (prune_both now v).
  pose proof (prune_both_spec now v Hv) as Hp. pose proof (changes_ok _ _ _ _ Hp) as Hv1.
  set (v1 := prune_both now v) in *.
  assert (∀ v', changes (expired_session now) (stale_alias v now) v v1 →
    changes (delete_hit v id now now2) (delete_alias_hit v v' id now now2) v v1) as Hw.
  { intros v'. apply changes_impl; unfold delete_hit, delete_alias_hit, expired_session; intros; tauto. }
  cbn zeta. destruct (sw_get (sessions v1) id) as [s|] eqn:Es.
  - cbn [sessions rotatedSessionAliases with_sessions with_aliases].
    set (m := sw_delete (rotatedSessionAliases v1) id). set (s1 := sw_delete (sessions v1) id).
    destruct (remove_inactive_dropped (lineage s) now (with_aliases (with_sessions v1 s1) m)) as (m' & -> & Hm' & Hsh);
      [apply sw_delete_ok, Hv1|apply sw_delete_ok, Hv1|]. cbn [sessions rotatedSessionAliases with_sessions with_aliases] in *.
    split_and!; [|by unfold s1; rewrite sw_get_delete, jsstr_eqb_refl by apply Hv1|done|].
    + eapply changes_trans; [by apply Hw|]. exists s1, m'. split; [done|]. split.
      * apply loses_delete; [apply Hv1|]. by left.
      * eapply loses_trans; [apply loses_delete; [apply Hv1|by left]|]. split; [done|].
        eapply sw_shrinks_impl; [|exact Hsh]. cbn. intros k a [Hl Hn].
        right; right; left. unfold inactive. by rewrite Hl.
    + intros _. eapply sw_shrinks_none; [exact Hsh|]. unfold m. by rewrite sw_get_delete, jsstr_eqb_refl by apply Hv1.
  - destruct (sw_get (rotatedSessionAliases v1) id) as [a|] eqn:Ea; [|split_and!; [by apply Hw|done..]].
    destruct (al_expired a now) eqn:Hx.
    { split_and!; [|done|done|].
      - eapply changes_trans; [by apply Hw|]. exists (sessions v1), (sw_delete (rotatedSessionAliases v1) id).
        split; [by destruct v1|]. split; [apply loses_refl, Hv1|]. apply loses_delete; [apply Hv1|]. by left.
      - intros _. cbn [rotatedSessionAliases with_aliases]. by rewrite sw_get_delete, jsstr_eqb_refl by apply Hv1. }
    pose proof (delete_logical_spec (al_logicalSessionId a) now2 v1 Hv1) as Hd.
    destruct (deleteSessionsByLogicalSessionId _ now2 v1) as [n v2]. cbn [snd].
    destruct Hd as (Hc & Hnone & Hal & _).
    assert (handle_of v id now = Some (al_logicalSessionId a)) as Hh.
    { unfold handle_of. destruct Hp as (s1 & m1 & E & _ & [_ Hsh]). rewrite E in Ea.
      eapply sw_shrinks_get in Hsh; [|exact Ea]. rewrite Hsh. cbn. by rewrite Hx. }
    split_and!; [| | |done].
    + eapply changes_trans; [by apply Hw|]. eapply changes_impl; [| |exact Hc]; cbn.
      * unfold scan_hit, in_lineage, delete_hit. intros k s [Hs|Hs%jsstr_eqb_true]%orb_true_iff; [tauto|].
        rewrite Hs. tauto.
      * unfold delete_alias_hit. intros k a' [?| ->]; tauto.
    + destruct Hc as (s2 & m2 & -> & [_ Hsh] & _). cbn. by eapply sw_shrinks_none.
    + intros _. exists (al_logicalSessionId a). split_and!; [done| |exact Hal].
      intros (k & s & Hk & Hl & Hlive). specialize (Hnone k s Hk). unfold scan_hit, in_lineage in Hnone.
      rewrite Hl, jsstr_eqb_refl, orb_true_r in Hnone. done.
Qed.

(** ** Logout-token identifiers *)

Lemma consume_jti_spec jti e now v : sw_ok (backchannelLogoutTokenJtis v) →
  let '(b, v') := consumeBackchannelLogoutTokenJti jti e now v in
  ∃ s, v' = with_jtis v s
    ∧ updates (λ _ r, isExpiredRecord r now = true) (if b then [(jti, JNum e)] else []) (backchannelLogoutTokenJtis v) s
    ∧ (b = true ↔ is_finite e = true ∧ num_le e now = false
         ∧ ∀ r, sw_get (backchannelLogoutTokenJtis v) jti = Some r → isExpiredRecord r now = true).
Proof.
  intros Hok. unfold consumeBackchannelLogoutTokenJti.
  pose proof (prune_spec id now _ Hok) as Hp. set (m := pruneMapBatch id now _) in *.
  assert (updates (λ _ r, isExpiredRecord r now = true) [] (backchannelLogoutTokenJtis v) m) as Hu
    by by apply updates_loses.
  cbn [backchannelLogoutTokenJtis with_jtis].
  destruct (is_finite e) eqn:Ef; cbn [negb orb].
  2: { exists m. split_and!; [done|done|]. naive_solver. }
  destruct (num_le e now) eqn:El.
  { exists m. split_and!; [done|done|]. naive_solver. }
  assert (∀ r, sw_get m jti = Some r → sw_get (backchannelLogoutTokenJtis v) jti = Some r) as Hback.
  { intros r. destruct Hp as [_ Hp]. by apply (sw_shrinks_get _ _ _ _ _ Hp). }
  assert (∀ r, sw_get (backchannelLogoutTokenJtis v) jti = Some r → isExpiredRecord r now = false →
    sw_get m jti = Some r) as Hfwd.
  { intros r Hr Hx. destruct Hp as [_ Hp]. eapply sw_shrinks_keep; [exact Hp|exact Hr|].
    unfold expired_entry, id. by rewrite Hx. }
  destruct (sw_get m jti) as [r|] eqn:Er; [destruct (isExpiredRecord r now) eqn:Ex|].
  - eexists. split_and!; [done|by apply updates_set|]. split; [|done]. intros _. split_and!; [done..|].
    intros r' Hr'. specialize (Hback r eq_refl). congruence.
  - exists m. split_and!; [done|done|]. split; [done|]. intros (_ & _ & H). specialize (H r (Hback r eq_refl)).
    congruence.
  - eexists. split_and!; [done|by apply updates_set|]. split; [|done]. intros _. split_and!; [done..|].
    intros r' Hr'. destruct (isExpiredRecord r' now) eqn:Ex; [done|]. specialize (Hfwd r' Hr' Ex). congruence.
Qed.

(** * Every step preserves the invariant *)

Lemma effect_inv gs ps ga pa v v' : vault_inv v → effect gs ps ga pa v v' →
  (∀ k s, map_get ps k = Some s → s_sessionId s = k ∧ sw_get (rotatedSessionAliases v') k = None) →
  (∀ k a, map_get pa k = Some a → sw_get (sessions v') k = None) → vault_inv v'.
Proof.
  intros [] (s & m & -> & Hs & Hm) Hps Hpa. cbn [sessions rotatedSessionAliases with_sessions with_aliases] in *.
  split; cbn; try done; [apply Hs|apply Hm| |].
  - eapply keyed_updates; [done| |exact Hs]. intros k a Ha. by apply Hps.
  - intros k a Ha. destruct (sw_get s k) as [x|] eqn:Ex; [|done].
    destruct (updates_from _ _ _ _ _ _ Hs Ex) as [Hx|[Hx Hk]].
    + destruct (Hps k x Hx) as [_ ?]. congruence.
    + destruct (updates_from _ _ _ _ _ _ Hm Ha) as [Hy|[Hy Hk']].
      * specialize (Hpa k a Hy). congruence.
      * specialize (inv_disjoint0 k a Hk'). congruence.
Qed.

Lemma changes_inv gs ga v v' : vault_inv v → changes gs ga v v' → vault_inv v'.
Proof. intros Hv Hc%changes_effect. by eapply effect_inv. Qed.

Lemma inv_sessions_ok v : vault_inv v → sessions_ok v.
Proof. intros []. by split. Qed.
#[export] Hint Resolve inv_sessions_ok : core.

Lemma transactions_inv v s : vault_inv v → sw_ok s → keyed ot_id s → vault_inv (with_transactions v s).
Proof. intros [] ? ?. by split. Qed.
Lemma codes_inv v s : vault_inv v → sw_ok s → keyed ot_id s → vault_inv (with_codes v s).
Proof. intros [] ? ?. by split. Qed.

Lemma loses_transactions gone v s : vault_inv v → loses gone (authorizationTransactions v) s →
  vault_inv (with_transactions v s).
Proof. intros Hv [? ?]. apply transactions_inv; [done..|]. eapply keyed_shrinks; [by apply inv_transaction_keys|done]. Qed.
Lemma loses_codes gone v s : vault_inv v → loses gone (exchangeCodes v) s → vault_inv (with_codes v s).
Proof. intros Hv [? ?]. apply codes_inv; [done..|]. eapply keyed_shrinks; [by apply inv_code_keys|done]. Qed.

Lemma create_record_keyed (s : SweptMap OneTimeRecord) r now : sw_ok s → keyed ot_id s →
  let s' := sw_set (pruneMapBatch ot_expiresAt now s) (ot_id r) r in sw_ok s' ∧ keyed ot_id s'.
Proof.
  intros Hok Hk. destruct (prune_records s now Hok) as [Hok' Hsh]. split; [by apply sw_set_ok|].
  apply keyed_set. by eapply keyed_shrinks.
Qed.

Section steps.
Variable parse_url : jsstr → option URL.

(** Operations on the one-time records. *)
Lemma record_ops_inv op now now2 v o v' : vault_inv v → vault_exec parse_url op now now2 v = Some (o, v') →
  match op with
  | OpCreateTransaction _ | OpGetTransaction _ | OpConsumeTransaction _ | OpConsumeTransactionIf _ _
  | OpCreateCode _ | OpGetCode _ | OpConsumeCode _ | OpConsumeCodeIf _ _ _ => True
  | _ => False
  end → vault_inv v'.
Proof.
  intros Hv He Hop. destruct op; try done; cbn [vault_exec] in He.
  - unfold createAuthorizationTransaction in He. destruct (assertRecordBinding input); injection He as _ <-; [|done].
    destruct (create_record_keyed (authorizationTransactions v) input now) as [? ?]; [by destruct Hv..|].
    by apply transactions_inv.
  - unfold getAuthorizationTransaction in He. pose proof (read_spec (authorizationTransactions v) state now) as H.
    destruct (readOneTimeRecord _ state now) as [r s]. injection He as _ <-.
    eapply loses_transactions; [done|]. apply H. by destruct Hv.
  - unfold consumeAuthorizationTransaction in He.
    pose proof (consume_transaction_spec state unbound_match now v (inv_transactions v Hv)) as H.
    destruct (consumeAuthorizationTransactionIfMatches state unbound_match now v) as [r v1]. injection He as _ <-.
    destruct (isBindingMatch unbound_match); [|by destruct H as [_ ->]].
    destruct H as (s & -> & Hl & _). by eapply loses_transactions.
  - pose proof (consume_transaction_spec state m now v (inv_transactions v Hv)) as H.
    destruct (consumeAuthorizationTransactionIfMatches state m now v) as [r v1]. injection He as _ <-.
    destruct (isBindingMatch m); [|by destruct H as [_ ->]].
    destruct H as (s & -> & Hl & _). by eapply loses_transactions.
  - unfold createExchangeCode in He. destruct (assertRecordBinding input); injection He as _ <-; [|done].
    destruct (create_record_keyed (exchangeCodes v) input now) as [? ?]; [by destruct Hv..|].
    by apply codes_inv.
  - unfold getExchangeCode in He. pose proof (read_spec (exchangeCodes v) code now) as H.
    destruct (readOneTimeRecord _ code now) as [r s]. injection He as _ <-.
    eapply loses_codes; [done|]. apply H. by destruct Hv.
  - pose proof (consume_code_spec code now v (inv_codes v Hv)) as H.
    destruct (consumeExchangeCode code now v) as [r v1]. injection He as _ <-.
    destruct H as (s & -> & Hl & _). by eapply loses_codes.
  - pose proof (consume_code_if_spec code m expectedSessionId now v (inv_codes v Hv)) as H.
    destruct (consumeExchangeCodeIfMatches code m expectedSessionId now v) as [r v1]. injection He as _ <-.
    destruct (as_string expectedSessionId); [|by destruct H as [_ ->]].
    destruct (isBindingMatch m); [|by destruct H as [_ ->]].
    destruct H as (s & -> & Hl & _). by eapply loses_codes.
Qed.

(** The effect of every operation on sessions and aliases, in one place. *)
Definition gone_sessions (v : Vault) (op : vault_op) (now now2 : num) (k : jsstr) (s : Session) : Prop :=
s_expired s now = true ∨ s_expired s now2 = true ∨
match op with
| OpRotateSession id next => k = id ∨ live_session v (s_sessionId next) now = None ∧ k = s_sessionId next
| OpDeleteSession id => k = id ∨ handle_of v id now = Some (lineage s)
| OpDeleteByLogical l => lineage s = l
| OpDeleteBySubject i => js_strict_eq (s_subject s) (JStr (sd_id (toScopedDeleteInput i)))
                         && matchesProviderScope s (toScopedDeleteInput i) = true
| OpDeleteByProvider i => js_strict_eq (s_providerSessionId s) (JStr (sd_id (toScopedDeleteInput i)))
                          && matchesProviderScope s (toScopedDeleteInput i) = true
| _ => False
end.

Definition gone_aliases (v v' : Vault) (op : vault_op) (now now2 : num) (k : jsstr) (a : RotatedSessionAlias) : Prop :=
al_expired a now = true ∨ inactive v now k a ∨ inactive v' now k a ∨ inactive v' now2 k a ∨
match op with
| OpCreateSession s => k = s_sessionId s
| OpRotateSession _ next => k = s_sessionId next
| OpDeleteSession id => k = id ∨ handle_of v id now = Some (al_logicalSessionId a)
| OpResumeDelete id => k = id
| OpDeleteByLogical l => al_logicalSessionId a = l
| _ => False
end.

(** What an operation that handed out a session stored: sessions and handles. *)
Definition put_sessions (op : vault_op) (o : outcome) : jsmap Session :=
match op, o with
| OpCreateSession s, GaveSession (Some x) => [(s_sessionId s, x)]
| OpRotateSession _ next, GaveSession (Some x) => [(s_sessionId next, x)]
| _, _ => []
end.
Definition put_aliases (op : vault_op) (o : outcome) : jsmap RotatedSessionAlias :=
match op, o with
| OpRotateSession id _, GaveSession (Some x) => [(id, mkAlias (lineage x) (s_expiresAt x))]
| _, _ => []
end.

Definition session_op (op : vault_op) : Prop :=
match op with
| OpCreateSession _ | OpGetSession _ | OpRevocationContext _ | OpRotateSession _ _ | OpDeleteSession _
| OpResumeDelete _ | OpDeleteByLogical _ | OpDeleteBySubject _ | OpDeleteByProvider _ => True
| _ => False
end.

Lemma session_ops_effect op now now2 v o v' : vault_inv v → vault_exec parse_url op now now2 v = Some (o, v') →
  session_op op →
  effect (gone_sessions v op now now2) (put_sessions op o) (gone_aliases v v' op now now2) (put_aliases op o) v v'.
Proof.
  intros Hv He Hop. destruct op; try done; cbn [vault_exec] in He.
  - pose proof (create_session_spec input now v) as H. destruct (createSession input now v) as [[s|e] v1];
      injection He as <- <-; cbn [settle compose put_sessions put_aliases].
    + destruct H as (_ & _ & He & _); [auto|]. eapply effect_impl; [| |exact He].
      * by left.
      * unfold handle_gone, gone_aliases. tauto.
    + rewrite H by auto. apply changes_effect, changes_refl; auto.
  - pose proof (get_session_spec sessionId now v) as H. destruct (getSession sessionId now v) as [r v1].
    injection He as <- <-. apply changes_effect. eapply changes_impl; [| |apply H; auto].
    + by left. + unfold gone_aliases. tauto.
  - injection He as <- <-. apply changes_effect, changes_refl; auto.
  - pose proof (rotate_session_spec sessionId nextSession now v) as H.
    destruct (rotateSession sessionId nextSession now v) as [[s|e] v1];
      injection He as <- <-; cbn [settle compose put_sessions put_aliases].
    + destruct H as (source & next' & _ & _ & _ & Hdead & _ & _ & He & _); [auto|].
      eapply effect_impl; [| |exact He].
      * unfold gone_sessions. intros k x [->| ->]; tauto.
      * unfold handle_gone, gone_aliases. tauto.
    + apply changes_effect. eapply changes_impl; [| |apply H; auto].
      * by left. * unfold gone_aliases. tauto.
  - pose proof (delete_session_spec sessionId now now2 v) as H. destruct (deleteSession sessionId now now2 v) as [p v1].
    injection He as <- <-. apply changes_effect. eapply changes_impl; [| |apply H; auto].
    + unfold delete_hit, gone_sessions. tauto. + unfold delete_alias_hit, stale_alias, gone_aliases. tauto.
  - injection He as <- <-. apply changes_effect. pose proof (inv_aliases v Hv) as Ha.
    exists (sessions v), (sw_delete (rotatedSessionAliases v) sessionId). split; [by destruct v|].
    split; [apply loses_refl; by destruct Hv|]. apply loses_delete; [done|]. unfold gone_aliases. tauto.
  - pose proof (delete_logical_spec logicalSessionId now v) as H.
    destruct (deleteSessionsByLogicalSessionId logicalSessionId now v) as [n v1].
    injection He as <- <-. apply changes_effect. eapply changes_impl; [| |apply H; auto].
    + unfold scan_hit, in_lineage, gone_sessions. intros k s [?|?%jsstr_eqb_true]%orb_true_iff; tauto.
    + unfold gone_aliases. tauto.
  - unfold deleteSessionsBySubject in He.
    match type of He with context [delete_scoped ?f now v] =>
      pose proof (delete_scoped_spec f now v) as H; destruct (delete_scoped f now v) as [n v1] end.
    injection He as <- <-. apply changes_effect. eapply changes_impl; [| |apply H; auto].
    + unfold scan_hit, gone_sessions. intros k s [?|?]%orb_true_iff; tauto. + unfold gone_aliases. tauto.
  - unfold deleteSessionsByProviderSessionId in He.
    match type of He with context [delete_scoped ?f now v] =>
      pose proof (delete_scoped_spec f now v) as H; destruct (delete_scoped f now v) as [n v1] end.
    injection He as <- <-. apply changes_effect. eapply changes_impl; [| |apply H; auto].
    + unfold scan_hit, gone_sessions. intros k s [?|?]%orb_true_iff; tauto. + unfold gone_aliases. tauto.
Qed.

Lemma put_keys op now now2 v o v' : vault_inv v → vault_exec parse_url op now now2 v = Some (o, v') →
  session_op op →
  (∀ k s, map_get (put_sessions op o) k = Some s → s_sessionId s = k ∧ sw_get (rotatedSessionAliases v') k = None)
  ∧ (∀ k a, map_get (put_aliases op o) k = Some a → sw_get (sessions v') k = None).
Proof.
  intros Hv He Hop. destruct op; try done; cbn [vault_exec] in He.
  - pose proof (create_session_spec input now v) as H. destruct (createSession input now v) as [[s|e] v1];
      injection He as <- <-; cbn [settle compose put_sessions put_aliases map_get]; [|done].
    destruct H as (-> & _ & _ & Hn); [auto|]. split; [|done]. intros k s.
    destruct (jsstr_eqb k (s_sessionId input)) eqn:E; [|done]. apply jsstr_eqb_true in E as ->. by intros [= <-].
  - pose proof (rotate_session_spec sessionId nextSession now v) as H.
    destruct (rotateSession sessionId nextSession now v) as [[s|e] v1];
      injection He as <- <-; cbn [settle compose put_sessions put_aliases map_get]; [|done].
    destruct H as (source & next' & _ & _ & _ & _ & Hi%inherit_ids & -> & _ & Hn1 & Hn2); [auto|]. split.
    + intros k s. destruct (jsstr_eqb k (s_sessionId nextSession)) eqn:E; [|done].
      apply jsstr_eqb_true in E as ->. intros [= <-]. split; [exact Hi|exact Hn2].
    + intros k a. destruct (jsstr_eqb k sessionId) eqn:E; [|done]. by apply jsstr_eqb_true in E as ->.
Qed.

Lemma exec_plain op now now2 v :
  match op with OpReserveDpop _ _ | OpCreateTicket _ | OpConsumeTicket _ => True
  | _ => ∃ o v', vault_exec parse_url op now now2 v = Some (o, v') end.
Proof. destruct op; try done; cbn [vault_exec]; try (by eexists _, _); by case_match; eexists _, _. Qed.

(** Every step returns and preserves the invariant and the limits. *)
Lemma exec_total op now now2 v : vault_inv v →
  ∃ o v', vault_exec parse_url op now now2 v = Some (o, v') ∧ vault_inv v'.
Proof.
  intros Hv. pose proof (exec_plain op now now2 v) as Hp.
  assert (∀ o v', vault_exec parse_url op now now2 v = Some (o, v') → session_op op → vault_inv v') as Hs.
  { intros o v' He Hop. destruct (put_keys op now now2 v o v' Hv He Hop) as [H1 H2].
    eapply effect_inv; [exact Hv|by eapply session_ops_effect|exact H1|exact H2]. }
  destruct op;
    try (destruct Hp as (o & v' & He); exists o, v'; split; [exact He|];
         first [by eapply Hs | by eapply record_ops_inv]);
    clear Hs; cbn [vault_exec] in *.
  { clear Hp. pose proof (consume_jti_spec jti expiresAt now v (inv_jtis v Hv)) as H.
    destruct (consumeBackchannelLogoutTokenJti jti expiresAt now v) as [b v1].
    destruct H as (s & -> & [Hok _] & _). eexists _, _. split; [done|]. destruct Hv. by split. }
  { destruct (dpop_reserve_total (dpopMaxEntries v) replayKey expiresAt now (dpopProofs v))
      as (r & st & -> & Hi & _); [by destruct Hv|].
    eexists _, _. split; [done|]. destruct Hv. by split. }
  { unfold createLogoutNavigationTicket.
    destruct (create_total parse_url (ticketMaxEntries v) (captureTicket input) now (logoutTickets v))
      as (r & st & -> & Hi & _); [by destruct Hv|]. eexists _, _. split; [done|]. destruct Hv. by split. }
  { unfold consumeLogoutNavigationTicket. destruct (validTicketIdentity _).
    - destruct (consume_total parse_url (ticketMaxEntries v) (captureTicketIdentity input) now (logoutTickets v))
        as (r & st & -> & Hi & _); [by destruct Hv|]. eexists _, _. split; [done|]. destruct Hv. by split.
    - eexists _, _. split; [done|]. destruct Hv. by split. }
Qed.

Lemma run_total ops v : vault_inv v →
  ∃ os v', vault_run parse_url ops v = Some (os, v') ∧ vault_inv v' ∧ length os = length ops.
Proof.
  revert v. induction ops as [|o ops IH]; intros v Hv; [by exists [], v|].
  destruct o as [op tn]. destruct tn as [n1 n2]. cbn [vault_run].
  destruct (exec_total op n1 n2 v Hv) as (o & v1 & -> & Hv1). cbn [mbind option_bind].
  destruct (IH v1 Hv1) as (os & v2 & -> & Hv2 & Hlen). cbn [mbind option_bind].
  exists (o :: os), v2. split_and!; [done..|]. cbn. by rewrite Hlen.
Qed.
End steps.
