(* ===== verification/VaultGuarantees.v ===== *)
(** express-oidc-vault-memory-store: the guarantees of the vault store, for any
    sequence of operations of any callers. *)

From S2P Require Import Prelude JsValue JsJson IndexedHeap JsMap HeapAdmission VaultBinding VaultDpop VaultTickets VaultStore VaultSafety.

(** * What a record is bound to *)

(** The caller's match names the record's sender constraint and browser, where
    [null] stands for a record without one. *)
Definition bound_to (r : OneTimeRecord) (m : jsval) : Prop :=
  (get_field m (js "deviceBinding") = JNull ∧ ot_deviceBinding r = JUndef
   ∨ ∃ j, jkt_of (get_field m (js "deviceBinding")) = JStr j ∧ jkt_of (ot_deviceBinding r) = JStr j)
  ∧ (get_field m (js "browserBindingHash") = JNull ∧ ot_browserBindingHash r = JUndef
     ∨ ∃ h, get_field m (js "browserBindingHash") = JStr h ∧ ot_browserBindingHash r = JStr h).

Lemma is_undef_true v : is_undef v = true ↔ v = JUndef.
Proof. by destruct v. Qed.

Lemma binding_type b : isBinding b = true → get_field b (js "type") = JStr (js "dpop").
Proof.
  unfold isBinding. intros H. apply andb_true_iff in H as [H _]. apply andb_true_iff in H as [_ H].
  by apply strict_eq_string in H.
Qed.

Lemma device_match (r d : jsval) : hasValidBinding r = true → isBinding d = true →
  js_strict_eq (get_field r (js "type")) (get_field d (js "type")) && js_strict_eq (jkt_of r) (jkt_of d) = true
  ↔ ∃ j, jkt_of d = JStr j ∧ jkt_of r = JStr j.
Proof.
  intros Hr Hd. destruct (binding_jkt d Hd) as (j & Hj & _). rewrite (binding_type d Hd), Hj, andb_true_iff.
  rewrite !strict_eq_string. split; [intros [_ ?]; eauto|]. intros (j' & [= <-] & Hrj). split; [|done].
  unfold hasValidBinding in Hr. apply orb_true_iff in Hr as [Hu|Hb]; [|by apply binding_type].
  apply is_undef_true in Hu as ->. done.
Qed.

Lemma matches_bound r m : isBindingMatch m = true →
  hasValidRecordBinding (ot_deviceBinding r) (ot_browserBindingHash r) = true →
  matchesRecordBinding r m = true ↔ bound_to r m.
Proof.
  intros Hm Hr. unfold isBindingMatch in Hm. apply andb_true_iff in Hm as [Hm Hh].
  apply andb_true_iff in Hm as [_ Hd]. unfold hasValidRecordBinding in Hr.
  apply andb_true_iff in Hr as [Hr _]. apply andb_true_iff in Hr as [Hrd Hrh].
  unfold matchesRecordBinding, bound_to. rewrite andb_true_iff.
  set (d := get_field m (js "deviceBinding")) in *. set (h := get_field m (js "browserBindingHash")) in *.
  clearbody d h.
  assert (∀ x : jsval, x = JNull ∨ x ≠ JNull) as Hnull by (intros []; auto).
  apply Morphisms_Prop.and_iff_morphism.
  - destruct (Hnull d) as [->|Hne].
    + rewrite is_undef_true. split; [by left|]. intros [[_ ?]|(j & Hj & _)]; [done|]. by vm_compute in Hj.
    + assert (isBinding d = true) as Hb by by destruct d. pose proof (device_match _ d Hrd Hb) as H.
      destruct d; try done; rewrite H; split; try (by right); intros [[? _]|?]; done.
  - destruct (Hnull h) as [->|Hne].
    + rewrite is_undef_true. split; [by left|]. intros [[_ ?]|(j & Hj & _)]; done.
    + assert (isHash h = true) as Hb by by destruct h. destruct (isHash_string h Hb) as (x & -> & _).
      rewrite strict_eq_string. split; [right; eauto|]. intros [[? _]|(? & [= <-] & ?)]; done.
Qed.

(** * Absent records stay absent *)

#[export] Instance session_op_dec (op : vault_op) : Decision (session_op op).
Proof. destruct op; cbn; apply _. Defined.

Section guarantees.
Variable parse_url : jsstr → option URL.
Notation exec := (vault_exec parse_url).
Notation run := (vault_run parse_url).

(** The part of the state an operation works on. *)
Inductive part := Transactions | Codes | SessionMaps | Jtis | Dpop | Tickets.
Definition part_of (op : vault_op) : part :=
match op with
| OpCreateTransaction _ | OpGetTransaction _ | OpConsumeTransaction _ | OpConsumeTransactionIf _ _ => Transactions
| OpCreateCode _ | OpGetCode _ | OpConsumeCode _ | OpConsumeCodeIf _ _ _ => Codes
| OpConsumeJti _ _ => Jtis
| OpReserveDpop _ _ => Dpop
| OpCreateTicket _ | OpConsumeTicket _ => Tickets
| _ => SessionMaps
end.

Definition same_outside (p : part) (v v' : Vault) : Prop :=
dpopMaxEntries v' = dpopMaxEntries v ∧ ticketMaxEntries v' = ticketMaxEntries v
∧ (p ≠ Transactions → authorizationTransactions v' = authorizationTransactions v)
∧ (p ≠ Codes → exchangeCodes v' = exchangeCodes v)
∧ (p ≠ SessionMaps → sessions v' = sessions v ∧ rotatedSessionAliases v' = rotatedSessionAliases v)
∧ (p ≠ Jtis → backchannelLogoutTokenJtis v' = backchannelLogoutTokenJtis v)
∧ (p ≠ Dpop → dpopProofs v' = dpopProofs v)
∧ (p ≠ Tickets → logoutTickets v' = logoutTickets v).

(** A consume, as a step. *)
Lemma code_consumed op now now2 v o v' c : vault_inv v → exec op now now2 v = Some (o, v') →
  (op = OpConsumeCode c ∨ ∃ m e, op = OpConsumeCodeIf c m e) →
  ∃ r s, o = GaveRecord r ∧ v' = with_codes v s
  ∧ (s = exchangeCodes v ∧ r = None ∨ ∃ test, consumed test c now (exchangeCodes v) s r).
Proof.
  intros Hv He [->|(m & e & ->)]; cbn [vault_exec] in He.
  - pose proof (consume_code_spec c now v (inv_codes v Hv)) as H.
    destruct (consumeExchangeCode c now v) as [r v1]. injection He as <- <-.
    destruct H as (s & -> & Hc). eauto 10.
  - pose proof (consume_code_if_spec c m e now v (inv_codes v Hv)) as H.
    destruct (consumeExchangeCodeIfMatches c m e now v) as [r v1]. injection He as <- <-.
    assert (v = with_codes v (exchangeCodes v)) as Hself by by destruct v.
    destruct (as_string e); [|destruct H as [-> ->]; eauto 10].
    destruct (isBindingMatch m); [|destruct H as [-> ->]; eauto 10].
    destruct H as (s & -> & Hc). eauto 10.
Qed.

Lemma transaction_consumed op now now2 v o v' c : vault_inv v → exec op now now2 v = Some (o, v') →
  (op = OpConsumeTransaction c ∨ ∃ m, op = OpConsumeTransactionIf c m) →
  ∃ r s, o = GaveRecord r ∧ v' = with_transactions v s
  ∧ (s = authorizationTransactions v ∧ r = None
     ∨ ∃ test, consumed test c now (authorizationTransactions v) s r).
Proof.
  intros Hv He Hop.
  assert (∃ m, (let '(o, v1) := consumeAuthorizationTransactionIfMatches c m now v in Some (GaveRecord o, v1))
    = Some (o, v')) as (m & He').
  { destruct Hop as [->|(m & ->)]; [by exists unbound_match|by exists m]. }
  pose proof (consume_transaction_spec c m now v (inv_transactions v Hv)) as H.
  destruct (consumeAuthorizationTransactionIfMatches c m now v) as [r v1]. injection He' as <- <-.
  assert (v = with_transactions v (authorizationTransactions v)) as Hself by by destruct v.
  destruct (isBindingMatch m); [|destruct H as [-> ->]; eauto 10].
  destruct H as (s & -> & Hc). eauto 10.
Qed.

Lemma exec_same op now now2 v o v' : vault_inv v → exec op now now2 v = Some (o, v') →
  same_outside (part_of op) v v'.
Proof.
  intros Hv He. destruct (session_op_dec op) as [Hop|Hop].
  { destruct (session_ops_effect parse_url op now now2 v o v' Hv He Hop) as (s & m & -> & _). by destruct op. }
  assert (∀ id, op = OpConsumeTransaction id ∨ (∃ m, op = OpConsumeTransactionIf id m) →
    same_outside (part_of op) v v') as Ht.
  { intros id Hid. destruct (transaction_consumed op now now2 v o v' id Hv He Hid) as (r & s & _ & -> & _).
    by destruct Hid as [->|(? & ->)]. }
  assert (∀ id, op = OpConsumeCode id ∨ (∃ m e, op = OpConsumeCodeIf id m e) →
    same_outside (part_of op) v v') as Hc.
  { intros id Hid. destruct (code_consumed op now now2 v o v' id Hv He Hid) as (r & s & _ & -> & _).
    by destruct Hid as [->|(? & ? & ->)]. }
  destruct op; try (by destruct Hop); try (by eapply Ht; eauto); try (by eapply Hc; eauto); clear Ht Hc;
    cbn [vault_exec] in He.
  - unfold createAuthorizationTransaction in He. by repeat case_match; simplify_eq.
  - unfold getAuthorizationTransaction in He. by repeat case_match; simplify_eq.
  - unfold createExchangeCode in He. by repeat case_match; simplify_eq.
  - unfold getExchangeCode in He. by repeat case_match; simplify_eq.
  - unfold consumeBackchannelLogoutTokenJti in He. by repeat case_match; simplify_eq.
  - destruct (dpop_reserve _ _ _ _ _) as [[? ?]|]; [|done]. by injection He as _ <-.
  - destruct (createLogoutNavigationTicket _ _ _ _ _) as [[? ?]|]; [|done]. by injection He as _ <-.
  - destruct (consumeLogoutNavigationTicket _ _ _ _) as [[? ?]|]; [|done]. by injection He as _ <-.
Qed.

Lemma consumed_absent test c now s s' r k : consumed test c now s s' r → sw_get s k = None → sw_get s' k = None.
Proof. intros [[_ Hsh] _]. by apply (sw_shrinks_none _ _ _ _ Hsh). Qed.

Definition creates_code (c : jsstr) (op : vault_op) : Prop :=
match op with OpCreateCode r => ot_id r = c | _ => False end.
Definition creates_transaction (c : jsstr) (op : vault_op) : Prop :=
match op with OpCreateTransaction r => ot_id r = c | _ => False end.

Lemma create_absent (s : SweptMap OneTimeRecord) r now c : sw_ok s → ot_id r ≠ c → sw_get s c = None →
  sw_get (sw_set (pruneMapBatch ot_expiresAt now s) (ot_id r) r) c = None.
Proof.
  intros Hok Hne Hn. rewrite sw_get_set, (proj2 (jsstr_eqb_false _ _)) by congruence.
  destruct (prune_records s now Hok) as [_ Hsh]. by eapply sw_shrinks_none.
Qed.

Lemma code_absent op now now2 v o v' c : vault_inv v → exec op now now2 v = Some (o, v') →
  ¬ creates_code c op → sw_get (exchangeCodes v) c = None → sw_get (exchangeCodes v') c = None.
Proof.
  intros Hv He Hop Hn. pose proof (inv_codes v Hv) as Hok.
  destruct (exec_same op now now2 v o v' Hv He) as (_ & _ & _ & Hsame & _).
  assert (∀ id, op = OpConsumeCode id ∨ (∃ m e, op = OpConsumeCodeIf id m e) →
    sw_get (exchangeCodes v') c = None) as Hc.
  { intros id Hid. destruct (code_consumed op now now2 v o v' id Hv He Hid) as (r & s & _ & -> & H).
    destruct H as [[-> _]|(test & H)]; [done|]. by eapply consumed_absent. }
  destruct op; try (by rewrite Hsame); try (by eapply Hc; eauto); cbn [vault_exec] in He.
  - unfold createExchangeCode in He. destruct (assertRecordBinding input); injection He as _ <-; [|done].
    by apply create_absent.
  - unfold getExchangeCode in He. pose proof (read_spec (exchangeCodes v) code now Hok) as H.
    destruct (readOneTimeRecord _ code now) as [r s]. injection He as _ <-. destruct H as [[_ Hsh] _].
    by eapply sw_shrinks_none.
Qed.

Lemma transaction_absent op now now2 v o v' c : vault_inv v → exec op now now2 v = Some (o, v') →
  ¬ creates_transaction c op → sw_get (authorizationTransactions v) c = None →
  sw_get (authorizationTransactions v') c = None.
Proof.
  intros Hv He Hop Hn. pose proof (inv_transactions v Hv) as Hok.
  destruct (exec_same op now now2 v o v' Hv He) as (_ & _ & Hsame & _).
  assert (∀ id, op = OpConsumeTransaction id ∨ (∃ m, op = OpConsumeTransactionIf id m) →
    sw_get (authorizationTransactions v') c = None) as Hc.
  { intros id Hid. destruct (transaction_consumed op now now2 v o v' id Hv He Hid) as (r & s & _ & -> & H).
    destruct H as [[-> _]|(test & H)]; [done|]. by eapply consumed_absent. }
  destruct op; try (by rewrite Hsame); try (by eapply Hc; eauto); cbn [vault_exec] in He.
  - unfold createAuthorizationTransaction in He. destruct (assertRecordBinding input); injection He as _ <-; [|done].
    by apply create_absent.
  - unfold getAuthorizationTransaction in He.
    pose proof (read_spec (authorizationTransactions v) state now Hok) as H.
    destruct (readOneTimeRecord _ state now) as [r s]. injection He as _ <-. destruct H as [[_ Hsh] _].
    by eapply sw_shrinks_none.
Qed.

(** A property kept by every step of a run is kept by the run. *)
Lemma run_keeps (P : Vault → Prop) (allowed : vault_op * (num * num) → Prop) :
  (∀ op now now2 v o v', vault_inv v → P v → allowed (op, (now, now2)) → exec op now now2 v = Some (o, v') → P v') →
  ∀ ops v os v', vault_inv v → P v → Forall allowed ops → run ops v = Some (os, v') → vault_inv v' ∧ P v'.
Proof.
  intros Hstep ops. induction ops as [|o ops IH]; intros v os v' Hv HP Hall Hrun; [by injection Hrun as <- <-|].
  destruct o as [op tn]. destruct tn as [n1 n2]. apply Forall_cons in Hall as [Ha Hall]. cbn [vault_run] in Hrun.
  destruct (exec_total parse_url op n1 n2 v Hv) as (o & v1 & E & Hv1). rewrite E in Hrun. cbn [mbind option_bind] in Hrun.
  destruct (run ops v1) as [[os1 v2]|] eqn:Er; [|done]. injection Hrun as <- <-.
  eapply IH; [exact Hv1| |exact Hall|exact Er]. exact (Hstep op n1 n2 v o v1 Hv HP Ha E).
Qed.

(** * One-time records *)

Definition consumes_code (c : jsstr) (op : vault_op) : Prop :=
match op with OpConsumeCode c' | OpConsumeCodeIf c' _ _ => c' = c | _ => False end.
Definition consumes_transaction (c : jsstr) (op : vault_op) : Prop :=
match op with OpConsumeTransaction c' | OpConsumeTransactionIf c' _ => c' = c | _ => False end.

(** An exchange code is consumed at most once: once a consume (guarded or not)
  returned it, no later consume of the code returns a record, whatever operations
  of any callers run in between, unless the code is created again. *)
Theorem exchange_code_single_use (c : jsstr) (op1 op2 : vault_op) (n1 n2 n3 n4 : num) (r : OneTimeRecord)
  (ops : list (vault_op * (num * num))) (os : list outcome) (v v1 v2 v3 : Vault) (o : outcome) :
  vault_inv v → consumes_code c op1 → exec op1 n1 n2 v = Some (GaveRecord (Some r), v1) →
  Forall (λ x, ¬ creates_code c x.1) ops → run ops v1 = Some (os, v2) →
  consumes_code c op2 → exec op2 n3 n4 v2 = Some (o, v3) →
  o = GaveRecord None.
Proof.
  intros Hv H1 E1 Hops Hrun H2 E2.
  assert (∀ op, consumes_code c op → op = OpConsumeCode c ∨ ∃ m e, op = OpConsumeCodeIf c m e) as Hform.
  { intros op Hop. destruct op; try done; cbn in Hop; subst; eauto. }
  destruct (exec_total parse_url op1 n1 n2 v Hv) as (o1 & v1' & E1' & Hv1). rewrite E1 in E1'.
  injection E1' as _ <-.
  destruct (code_consumed op1 n1 n2 v _ v1 c Hv E1 (Hform _ H1)) as (r' & s & [= <-] & Es & [[_ ?]|(test & _ & Ht)]);
    [done|].
  destruct (run_keeps (λ v, sw_get (exchangeCodes v) c = None) (λ x, ¬ creates_code c x.1)) with ops v1 os v2
    as [Hv2 Hn]; [|done| |done|done|].
  { intros. by eapply code_absent. } { rewrite Es. by apply Ht. }
  destruct (code_consumed op2 n3 n4 v2 o v3 c Hv2 E2 (Hform _ H2)) as (r2 & s2 & -> & _ & [[_ ->]|(test2 & _ & Ht2)]);
    [done|]. destruct r2 as [r2|]; [|done]. destruct Ht2 as [Ht2 _]. congruence.
Qed.

(** An authorization transaction is consumed at most once, in the same sense. *)
Theorem transaction_single_use (c : jsstr) (op1 op2 : vault_op) (n1 n2 n3 n4 : num) (r : OneTimeRecord)
  (ops : list (vault_op * (num * num))) (os : list outcome) (v v1 v2 v3 : Vault) (o : outcome) :
  vault_inv v → consumes_transaction c op1 → exec op1 n1 n2 v = Some (GaveRecord (Some r), v1) →
  Forall (λ x, ¬ creates_transaction c x.1) ops → run ops v1 = Some (os, v2) →
  consumes_transaction c op2 → exec op2 n3 n4 v2 = Some (o, v3) →
  o = GaveRecord None.
Proof.
  intros Hv H1 E1 Hops Hrun H2 E2.
  assert (∀ op, consumes_transaction c op → op = OpConsumeTransaction c ∨ ∃ m, op = OpConsumeTransactionIf c m)
    as Hform.
  { intros op Hop. destruct op; try done; cbn in Hop; subst; eauto. }
  destruct (exec_total parse_url op1 n1 n2 v Hv) as (o1 & v1' & E1' & Hv1). rewrite E1 in E1'.
  injection E1' as _ <-.
  destruct (transaction_consumed op1 n1 n2 v _ v1 c Hv E1 (Hform _ H1))
    as (r' & s & [= <-] & Es & [[_ ?]|(test & _ & Ht)]); [done|].
  destruct (run_keeps (λ v, sw_get (authorizationTransactions v) c = None) (λ x, ¬ creates_transaction c x.1))
    with ops v1 os v2 as [Hv2 Hn]; [|done| |done|done|].
  { intros. by eapply transaction_absent. } { rewrite Es. by apply Ht. }
  destruct (transaction_consumed op2 n3 n4 v2 o v3 c Hv2 E2 (Hform _ H2))
    as (r2 & s2 & -> & _ & [[_ ->]|(test2 & _ & Ht2)]);
    [done|]. destruct r2 as [r2|]; [|done]. destruct Ht2 as [Ht2 _]. congruence.
Qed.

(** A guarded consume hands out a live exchange code exactly when the caller names
  its session, its sender constraint and its browser; the code is then gone.  A
  caller that names anything else gets nothing and does not burn the code. *)
Theorem guarded_consume_bound (c sid : jsstr) (m : jsval) (r : OneTimeRecord) (now n2 : num) (v : Vault) :
  vault_inv v → sw_get (exchangeCodes v) c = Some r → ¬ ot_gone now c r → isBindingMatch m = true →
  ∃ o v', exec (OpConsumeCodeIf c m (JStr sid)) now n2 v = Some (GaveRecord o, v')
  ∧ (o = Some r ∧ bound_to r m ∧ ot_field r (js "sessionId") = JStr sid ∧ sw_get (exchangeCodes v') c = None
     ∨ o = None ∧ ¬ (bound_to r m ∧ ot_field r (js "sessionId") = JStr sid)
       ∧ sw_get (exchangeCodes v') c = Some r).
Proof.
  intros Hv Hr Hlive Hm. cbn [vault_exec].
  pose proof (consume_code_if_spec c m (JStr sid) now v (inv_codes v Hv)) as H. cbn [as_string] in H. rewrite Hm in H.
  destruct (consumeExchangeCodeIfMatches c m (JStr sid) now v) as [o v']. destruct H as (s & -> & Hl & Ho).
  exists o, (with_codes v s). split; [done|]. cbn [exchangeCodes with_codes].
  assert (hasValidRecordBinding (ot_deviceBinding r) (ot_browserBindingHash r) = true) as Hb.
  { destruct (hasValidRecordBinding _ _) eqn:E; [done|]. exfalso. apply Hlive. unfold ot_gone. tauto. }
  pose proof (inv_code_keys v Hv c r Hr) as Hid.
  assert (code_test c m (Some sid) r = true ↔ bound_to r m ∧ ot_field r (js "sessionId") = JStr sid) as Htest.
  { unfold code_test, usable_code. rewrite Hid, jsstr_eqb_refl, !andb_true_iff, strict_eq_string, matches_bound by done.
    split; [tauto|]. intros [? E]. rewrite E. done. }
  destruct o as [r'|].
  - left. destruct Ho as (H1 & _ & H3 & H4). assert (r' = r) as -> by congruence. apply Htest in H3. tauto.
  - right. specialize (Ho r Hr Hlive). rewrite <- Htest, Ho. split_and!; [done|done|].
    destruct Hl as [_ Hsh]. eapply sw_shrinks_keep; [exact Hsh|exact Hr|]. intros [?|[_ ?]]; done.
Qed.

(** * Sessions *)

(** The operations that name a live session [s] stored under [k]: creating or
  rotating it away under the same identifier, or revoking it. *)
Definition names_session (v : Vault) (now : num) (k : jsstr) (s : Session) (op : vault_op) : Prop :=
match op with
| OpCreateSession i => s_sessionId i = k
| OpRotateSession id _ => id = k
| OpDeleteSession id => id = k ∨ handle_of v id now = Some (lineage s)
| OpDeleteByLogical l => lineage s = l
| OpDeleteBySubject i => js_strict_eq (s_subject s) (JStr (sd_id (toScopedDeleteInput i)))
                         && matchesProviderScope s (toScopedDeleteInput i) = true
| OpDeleteByProvider i => js_strict_eq (s_providerSessionId s) (JStr (sd_id (toScopedDeleteInput i)))
                          && matchesProviderScope s (toScopedDeleteInput i) = true
| _ => False
end.

(** No operation loses or alters a live session that it does not name: sweeps,
  other lineages' revocations, rotations onto other identifiers and refused
  operations leave it as it is. *)
Theorem live_session_kept (op : vault_op) (now now2 : num) (v v' : Vault) (o : outcome) (k : jsstr) (s : Session) :
  vault_inv v → exec op now now2 v = Some (o, v') → sw_get (sessions v) k = Some s →
  s_expired s now = false → s_expired s now2 = false → ¬ names_session v now k s op →
  sw_get (sessions v') k = Some s.
Proof.
  intros Hv He Hk Hx Hx2 Hn. destruct (session_op_dec op) as [Hop|Hop].
  2: { destruct (exec_same op now now2 v o v' Hv He) as (_ & _ & _ & _ & Hsame & _).
    destruct Hsame as [-> _]; [by destruct op|done]. }
  destruct (session_ops_effect parse_url op now now2 v o v' Hv He Hop) as (s' & m & -> & Hs & _).
  cbn [sessions with_sessions with_aliases].
  assert (live_session v k now = Some s) as Hlive by (unfold live_session; rewrite Hk; cbn; by rewrite Hx).
  eapply updates_keep; [exact Hs| |exact Hk|].
  - destruct op; try done; cbn [vault_exec] in He; destruct o; try done; destruct s0; try done;
      cbn [put_sessions map_get]; cbn in Hn; destruct (jsstr_eqb k _) eqn:E; try done;
      apply jsstr_eqb_true in E as ->; [done|].
    pose proof (rotate_session_spec sessionId nextSession now v) as H.
    destruct (rotateSession sessionId nextSession now v) as [[x|e] v1]; [|done].
    destruct H as (? & ? & _ & _ & _ & Hdead & _); [auto|]. congruence.
  - unfold gone_sessions. rewrite Hx, Hx2. intros [?|[?|H]]; [done..|].
    destruct op; try done; cbn in H, Hn; try tauto.
    + destruct H as [?|[? ->]]; [done|congruence].
    + destruct H as [?|?]; apply Hn; [left; congruence|by right].
Qed.

(** A successful rotation moves the session to its new identifier: the source was
  live, the new session keeps the sender constraint (and, unless the caller
  names another, the lineage) of the source, the old identifier holds no session
  any more and becomes a handle of the new session's lineage.  A refused rotation
  loses no live session. *)
Theorem rotation_keeps_constraint (id : jsstr) (next : Session) (now n2 : num) (v v' : Vault) (o : outcome) :
  vault_inv v → exec (OpRotateSession id next) now n2 v = Some (o, v') →
  (∃ source session, o = GaveSession (Some session)
   ∧ live_session v id now = Some source ∧ s_sessionId next ≠ id ∧ live_session v (s_sessionId next) now = None
   ∧ constraint_of session = constraint_of source
   ∧ (s_logicalSessionId next = None → lineage session = lineage source)
   ∧ sw_get (sessions v') (s_sessionId next) = Some session ∧ sw_get (sessions v') id = None
   ∧ sw_get (rotatedSessionAliases v') id = Some (mkAlias (lineage session) (s_expiresAt session)))
  ∨ (∃ e, o = Threw e ∧ ∀ k s, live_session v k now = Some s → sw_get (sessions v') k = Some s).
Proof.
  intros Hv He. cbn [vault_exec] in He. pose proof (rotate_session_spec id next now v) as H.
  destruct (rotateSession id next now v) as [[session|e] v1]; injection He as <- <-; cbn [settle compose].
  - left. destruct H as (source & next' & Hsrc & _ & Hne & Hdead & Hinh & Hsess & (s & m & -> & [_ Hs] & [_ Hm]) & Hn1 & _); [auto|].
    apply inherit_constraint in Hinh as (Hc & _ & _ & Hl).
    exists source, session. split_and!; [done..| | | | |].
    + by rewrite Hsess.
    + intros Hnl. rewrite Hsess. unfold lineage at 1. cbn [s_logicalSessionId with_defaults].
      rewrite Hl, Hnl. done.
    + specialize (Hs (s_sessionId next)). cbn [map_get] in Hs. by rewrite jsstr_eqb_refl in Hs.
    + exact Hn1.
    + specialize (Hm id). cbn [map_get] in Hm. by rewrite jsstr_eqb_refl in Hm.
  - right. exists e. split; [done|]. intros k s. unfold live_session.
    destruct (sw_get (sessions v) k) as [s'|] eqn:Ek; [|done]. cbn.
    destruct (s_expired s' now) eqn:Ex; [done|]. intros [= <-].
    destruct H as (s1 & m1 & -> & [_ Hsh] & _); [auto|]. eapply sw_shrinks_keep; [exact Hsh|exact Ek|].
    unfold expired_session. congruence.
Qed.

(** Revoking a lineage is complete and says what it did: afterwards no session of
  the lineage is stored and no rotated handle leads to it, and the count is the
  number of its sessions that were live; live sessions of other lineages stay. *)
Theorem revoke_lineage (l : jsstr) (now n2 : num) (v v' : Vault) (o : outcome) :
  vault_inv v → exec (OpDeleteByLogical l) now n2 v = Some (o, v') →
  (∀ k s, sw_get (sessions v') k = Some s → lineage s ≠ l)
  ∧ (∀ k a, sw_get (rotatedSessionAliases v') k = Some a → al_logicalSessionId a ≠ l)
  ∧ (∀ k s, live_session v k now = Some s → lineage s ≠ l → sw_get (sessions v') k = Some s)
  ∧ o = GaveCount (Z.of_nat (length (List.filter
        (λ kv, jsstr_eqb (lineage kv.2) l && negb (s_expired kv.2 now)) (sw_map (sessions v))))).
Proof.
  intros Hv He. cbn [vault_exec] in He. pose proof (delete_logical_spec l now v) as H.
  destruct (deleteSessionsByLogicalSessionId l now v) as [n v1]. injection He as <- <-.
  destruct H as ((s1 & m1 & E & [_ Hsh] & _) & Hnone & Hal & ->); [auto|]. split_and!; [|exact Hal| |].
  - intros k s Hk Hl. specialize (Hnone k s Hk). unfold scan_hit, in_lineage in Hnone.
    rewrite Hl, jsstr_eqb_refl, orb_true_r in Hnone. done.
  - intros k s. unfold live_session. destruct (sw_get (sessions v) k) as [s'|] eqn:Ek; [|done]. cbn.
    destruct (s_expired s' now) eqn:Ex; [done|]. intros [= <-] Hl. rewrite E.
    eapply sw_shrinks_keep; [exact Hsh|exact Ek|]. unfold scan_hit, in_lineage. rewrite Ex.
    by rewrite (proj2 (jsstr_eqb_false _ _)).
  - do 3 f_equal. apply List.filter_ext. intros [k s]. unfold scan_counts, in_lineage. apply andb_comm.
Qed.

Lemma handle_absent v id now l : vault_inv v → handle_of v id now = Some l → sw_get (sessions v) id = None.
Proof.
  intros Hv. unfold handle_of. destruct (sw_get (rotatedSessionAliases v) id) as [a|] eqn:E; [|done].
  intros _. by eapply inv_disjoint.
Qed.

(** A rotated session handle still revokes: deleting by an identifier that was
  rotated away, while its handle is live and its lineage has a live session,
  leaves the lineage without live sessions and handles. *)
Theorem rotated_handle_revokes (id l : jsstr) (now n2 : num) (v v' : Vault) (o : outcome) :
  vault_inv v → handle_of v id now = Some l → has_live v l now →
  exec (OpDeleteSession id) now n2 v = Some (o, v') →
  o = Pending ∧ ¬ has_live v' l n2
  ∧ ∀ k a, sw_get (rotatedSessionAliases v') k = Some a → al_logicalSessionId a ≠ l.
Proof.
  intros Hv Hh Hlive He. cbn [vault_exec] in He. pose proof (delete_session_spec id now n2 v) as H.
  destruct (deleteSession id now n2 v) as [p v1] eqn:Ed. injection He as <- <-.
  destruct H as (_ & _ & Hp & _); [auto|]. enough (p = true) as ->.
  { destruct (Hp eq_refl) as (l' & El & ? & ?). assert (l' = l) as -> by congruence. done. }
  clear Hp. unfold deleteSession in Ed.
  change (prune_aliases now (pruneSessionsBatch now v)) with (prune_both now v) in Ed.
  destruct (prune_both_spec now v (inv_sessions_ok v Hv)) as (s & m & E & [_ Hs] & [_ Hm]). rewrite E in Ed.
  cbn [sessions rotatedSessionAliases with_sessions with_aliases] in Ed.
  rewrite (sw_shrinks_none _ _ _ _ Hs (handle_absent v id now l Hv Hh)) in Ed.
  unfold handle_of in Hh. destruct (sw_get (rotatedSessionAliases v) id) as [a|] eqn:Ea; [|done]. cbn in Hh.
  destruct (al_expired a now) eqn:Ex; [done|]. injection Hh as Hh.
  assert (sw_get m id = Some a) as Ham.
  { eapply sw_shrinks_keep; [exact Hm|exact Ea|]. unfold stale_alias, inactive. rewrite Hh, Ex.
    intros [?|?]; done. }
  rewrite Ham, Ex in Ed. by injection Ed as <- _.
Qed.

(** * The revocation context *)

Lemma revocation_context_fields s c : sessionRevocationContext s = Ok c →
  hasValidBinding (s_deviceBinding s) = true ∧ is_string (s_subject s) = true
  ∧ rc_logicalSessionId c = lineage s ∧ rc_deviceBinding c = s_deviceBinding s
  ∧ (rc_provider c ≫= fst) = as_string (get_field (s_provider s) (js "issuer"))
  ∧ (rc_provider c ≫= snd) = as_string (get_field (s_provider s) (js "clientId")).
Proof.
  unfold sessionRevocationContext, assertSessionBinding. intros H.
  apply res_bind_Ok in H as (? & H1%guard_Ok & H). apply res_bind_Ok in H as (? & H2%guard_Ok & H).
  apply res_bind_Ok in H as (? & H3%guard_Ok & H). injection H as <-. cbn [rc_logicalSessionId rc_deviceBinding rc_provider].
  split_and!; try done; destruct (is_undef (s_provider s)) eqn:E; try done;
    apply is_undef_true in E; by rewrite E.
Qed.

(** Two members of a lineage with the same authority. *)
Definition same_authority (x y : Session) : Prop :=
constraint_of x = constraint_of y ∧ s_subject x = s_subject y
∧ as_string (get_field (s_provider x) (js "issuer")) = as_string (get_field (s_provider y) (js "issuer"))
∧ as_string (get_field (s_provider x) (js "clientId")) = as_string (get_field (s_provider y) (js "clientId")).

Lemma same_optional_eq v o : same_optional v o = true → as_string v = o.
Proof. unfold same_optional. destruct o; [by intros ->%strict_eq_string|]. by destruct v. Qed.

Lemma same_constraint (x y : Session) : hasValidBinding (s_deviceBinding x) = true →
  hasValidBinding (s_deviceBinding y) = true →
  js_strict_eq (jkt_of (s_deviceBinding x)) (jkt_of (s_deviceBinding y)) = true → constraint_of x = constraint_of y.
Proof.
  unfold constraint_of, hasValidBinding. destruct (is_undef (s_deviceBinding x)) eqn:Ex, (is_undef (s_deviceBinding y)) eqn:Ey;
    cbn [orb]; intros Hx Hy.
  - done.
  - apply is_undef_true in Ex as ->. by destruct (binding_jkt _ Hy) as (j & -> & _).
  - apply is_undef_true in Ey as ->. by destruct (binding_jkt _ Hx) as (j & -> & _).
  - destruct (binding_jkt _ Hy) as (j & -> & _). by intros ->%strict_eq_string.
Qed.

Lemma same_lineage_authority x y c : sessionRevocationContext x = Ok c → assertSameLineageAuthority x y = Ok tt →
  same_authority x y.
Proof.
  intros Hx%revocation_context_fields H. unfold assertSameLineageAuthority in H.
  apply res_bind_Ok in H as (? & _ & H). apply res_bind_Ok in H as (cy & Hy%revocation_context_fields & H%guard_Ok).
  destruct Hx as (Hxb & Hxs & _). destruct Hy as (Hyb & Hys & _ & Ed & Ei & Ec). rewrite Ed, Ei, Ec in H.
  apply andb_true_iff in H as [H H4%same_optional_eq]. apply andb_true_iff in H as [H H3%same_optional_eq].
  apply andb_true_iff in H as [H1 H2]. split_and!; [by apply same_constraint| |done..].
  destruct (s_subject y); try done. by apply strict_eq_string.
Qed.

Lemma lineage_loop_spec members l now source out :
  lineage_loop members l now source = Ok out →
  (∀ s, source = Some s → ∃ c, sessionRevocationContext s = Ok c) →
  (∀ s, source = Some s → out = Some s)
  ∧ (source = None → ∀ x, out = Some x → x ∈ members ∧ lineage x = l ∧ s_expired x now = false)
  ∧ ∀ y, y ∈ members → lineage y = l → s_expired y now = false → ∃ x, out = Some x ∧ same_authority x y.
Proof.
  revert source. induction members as [|m members IH]; intros source H Hsrc.
  { injection H as <-. split_and!; [done|intros ->; done|]. intros y Hy. inversion Hy. }
  cbn [lineage_loop] in H. setoid_rewrite elem_of_cons.
  destruct (negb (jsstr_eqb (lineage m) l) || s_expired m now) eqn:Eskip.
  { destruct (IH source H Hsrc) as (H1 & H2 & H3). split_and!; [done| |].
    - intros Hn x Hx. destruct (H2 Hn x Hx) as (? & ? & ?). auto.
    - intros y [->|Hy] Hl Hx; [|by apply H3]. by rewrite Hl, jsstr_eqb_refl, Hx in Eskip. }
  apply orb_false_iff in Eskip as [El%negb_false_iff%jsstr_eqb_true Ex].
  apply res_bind_Ok in H as (? & _ & H). apply res_bind_Ok in H as (c & Hc & H). destruct source as [s|].
  - apply res_bind_Ok in H as ([] & Hsame & H). destruct (IH (Some s) H Hsrc) as (H1 & _ & H3).
    destruct (Hsrc s eq_refl) as (cs & Hcs). split_and!; [done|done|].
    intros y [->|Hy] Hl Hy'; [|by apply H3]. exists s. split; [by apply H1|]. by eapply same_lineage_authority.
  - destruct (IH (Some m) H) as (H1 & _ & H3); [intros s [= <-]; eauto|]. specialize (H1 m eq_refl) as ->.
    split_and!; [done| |].
    + intros _ x' [= <-]. auto.
    + intros y [->|Hy] Hl Hy'; [exists m; done|by apply H3].
Qed.

(** The revocation context of a handle, live or rotated, is the authority of the
  whole lineage: every live session of the lineage has its sender constraint,
  subject, issuer and client; and no context means no live session there. *)
Theorem revocation_context_uniform (id : jsstr) (now : num) (v : Vault) (out : option RevocationContext) :
  vault_inv v → getSessionRevocationContext id now v = Ok out →
  match out with
  | Some c => ∃ k x, live_session v k now = Some x ∧ sessionRevocationContext x = Ok c
    ∧ (rc_logicalSessionId c = lineage x)
    ∧ (live_session v id now = None → handle_of v id now = Some (lineage x))
    ∧ (∀ s, live_session v id now = Some s → lineage s = lineage x)
    ∧ ∀ k' y, live_session v k' now = Some y → lineage y = lineage x → same_authority x y
  | None => live_session v id now = None ∧ ∀ l, handle_of v id now = Some l → ¬ has_live v l now
  end.
Proof.
  intros Hv H. unfold getSessionRevocationContext in H. apply res_bind_Ok in H as ([] & _ & H).
  change (sw_get (rotatedSessionAliases v) id ≫= λ a, if al_expired a now then None else Some (al_logicalSessionId a))
    with (handle_of v id now) in H.
  assert (∀ k x, live_session v k now = Some x ↔ sw_get (sessions v) k = Some x ∧ s_expired x now = false) as Hlive.
  { intros k x. unfold live_session. destruct (sw_get (sessions v) k) as [s|]; cbn; [|split; [done|by intros [? _]]].
    destruct (s_expired s now) eqn:E.
    - split; [done|]. intros [[= <-] ?]. congruence.
    - split; [by intros [= <-]|by intros [[= <-] _]]. }
  assert (∀ x, x ∈ map snd (sw_map (sessions v)) ↔ ∃ k, sw_get (sessions v) k = Some x) as Hin.
  { intros x. rewrite list_elem_of_In, in_map_iff. split.
    - intros ([k y] & <- & Hy). exists k. apply in_get; [by destruct Hv|by apply list_elem_of_In].
    - intros (k & Hk). exists (k, x). split; [done|]. by apply list_elem_of_In, get_Some_in. }
  set (sel := match live_session v id now with Some s => Some (lineage s) | None => handle_of v id now end) in H.
  destruct sel as [l|] eqn:Esel.
  2: { injection H as <-. unfold sel in Esel. destruct (live_session v id now); [done|]. split; [done|].
    intros l Hl. congruence. }
  apply res_bind_Ok in H as (source & Hloop & H). apply lineage_loop_spec in Hloop as (_ & Hsrc & Hall); [|done].
  destruct source as [x|].
  - apply res_bind_Ok in H as (c & Hc & [= <-]). destruct (Hsrc eq_refl x eq_refl) as ((k & Hk)%Hin & <- & Hx).
    exists k, x. split_and!; [by apply Hlive|done|by apply revocation_context_fields| | |].
    + intros E. unfold sel in Esel. by rewrite E in Esel.
    + intros s E. unfold sel in Esel. rewrite E in Esel. congruence.
    + intros k' y [Hy Hyx]%Hlive Hl. destruct (Hall y) as (x' & [= <-] & ?); [apply Hin; eauto|done..].
  - injection H as <-.
    assert (∀ k y, live_session v k now = Some y → lineage y = l → False) as Hno.
    { intros k y [Hy Hyx]%Hlive Hl. destruct (Hall y) as (? & ? & _); [apply Hin; eauto|done..]. }
    unfold sel in Esel. destruct (live_session v id now) as [s|] eqn:E; [exfalso; eapply Hno; [exact E|congruence]|].
    split; [done|]. intros l' Hl' (k & y & Hk & Hy & Hyx). apply (Hno k y); [by apply Hlive|congruence].
Qed.

(** * Logout-token identifiers *)

Lemma jti_kept op now now2 v o v' jti e : vault_inv v → exec op now now2 v = Some (o, v') →
  sw_get (backchannelLogoutTokenJtis v) jti = Some (JNum e) → num_le e now = false →
  sw_get (backchannelLogoutTokenJtis v') jti = Some (JNum e).
Proof.
  intros Hv He Hk Hx.
  destruct (exec_same op now now2 v o v' Hv He) as (_ & _ & _ & _ & _ & Hsame & _).
  destruct op; try (by rewrite Hsame). cbn [vault_exec] in He.
  pose proof (consume_jti_spec jti0 expiresAt now v (inv_jtis v Hv)) as H.
  destruct (consumeBackchannelLogoutTokenJti jti0 expiresAt now v) as [b v1]. injection He as _ <-.
  destruct H as (s & -> & Hu & Hb). cbn [backchannelLogoutTokenJtis with_jtis].
  eapply updates_keep; [exact Hu| |exact Hk|cbn; congruence].
  destruct b; [|done]. cbn [map_get]. destruct (jsstr_eqb jti jti0) eqn:E; [|done].
  apply jsstr_eqb_true in E as ->. destruct (proj1 Hb eq_refl) as (_ & _ & H). specialize (H _ Hk). cbn in H.
  congruence.
Qed.

(** A back-channel logout token identifier is accepted at most once until it
  expires: after a [true], every later consume of it answers [false], whatever
  operations run in between, as long as no clock reading has reached its expiry. *)
Theorem logout_token_once (jti : jsstr) (e e2 n1 n2 n3 n4 : num) (ops : list (vault_op * (num * num)))
  (os : list outcome) (v v1 v2 v3 : Vault) (o : outcome) :
  vault_inv v → exec (OpConsumeJti jti e) n1 n2 v = Some (GaveBool true, v1) →
  Forall (λ x, num_le e x.2.1 = false) ops → run ops v1 = Some (os, v2) →
  num_le e n3 = false → exec (OpConsumeJti jti e2) n3 n4 v2 = Some (o, v3) →
  o = GaveBool false.
Proof.
  intros Hv E1 Hops Hrun Hx E2.
  destruct (exec_total parse_url (OpConsumeJti jti e) n1 n2 v Hv) as (o1 & v1' & E1' & Hv1). rewrite E1 in E1'.
  injection E1' as _ <-. cbn [vault_exec] in E1, E2.
  pose proof (consume_jti_spec jti e n1 v (inv_jtis v Hv)) as H.
  destruct (consumeBackchannelLogoutTokenJti jti e n1 v) as [b v1']. injection E1 as -> ->.
  destruct H as (s & Es & [_ Hu] & _). specialize (Hu jti). cbn [map_get] in Hu. rewrite jsstr_eqb_refl in Hu.
  destruct (run_keeps (λ v, sw_get (backchannelLogoutTokenJtis v) jti = Some (JNum e))
    (λ x, num_le e x.2.1 = false)) with ops v1 os v2 as [Hv2 Hk]; [|done| |done|done|].
  { intros op t1 t2 w o' w' Hw Hk Ht Hex. by eapply jti_kept. }
  { by rewrite Es. }
  pose proof (consume_jti_spec jti e2 n3 v2 (inv_jtis v2 Hv2)) as H.
  destruct (consumeBackchannelLogoutTokenJti jti e2 n3 v2) as [b v3']. injection E2 as <- _.
  destruct H as (_ & _ & _ & Hb). destruct b; [|done]. destruct (proj1 Hb eq_refl) as (_ & _ & H).
  specialize (H _ Hk). cbn in H. congruence.
Qed.

Lemma created_inv d t v : createMemoryOidcVaultStore d t = Ok v → vault_inv v.
Proof.
  unfold createMemoryOidcVaultStore. intros H. apply res_bind_Ok in H as (md & Hd & H).
  apply res_bind_Ok in H as (mt & Ht & H). injection H as <-.
  assert (0 <= md) as Hmd.
  { destruct d; try done; [by injection Hd as <-|]. destruct (safe_integer n) as [z|]; [|done].
    apply res_bind_Ok in Hd as (? & Hz%guard_Ok%Z.ltb_lt & [= <-]). lia. }
  assert (0 <= mt) as Hmt.
  { unfold ticketLimit in Ht. destruct t; try done; [by injection Ht as <-|]. destruct (safe_integer n) as [z|]; [|done].
    apply res_bind_Ok in Ht as (? & Hz%guard_Ok%Z.ltb_lt & [= <-]). lia. }
  assert (∀ A, @sw_ok A empty_swept) as Hok by (intros; constructor).
  split; cbn; try apply Hok; try done.
  all: first [by apply empty_tickets_inv | split; [apply empty_wf|done]].
Qed.

(** C21: From construction on, the store never gets stuck and stays well formed: every
  operation of any sequence, with any arguments and clock readings, returns;
  afterwards each record is stored under its own identifier, no identifier is
  both a session and a rotated handle, the two heaps are indexed heaps and hold
  no more than their configured limits. *)
Theorem vault_run_safe (d t : jsval) (v0 : Vault) (ops : list (vault_op * (num * num))) :
  createMemoryOidcVaultStore d t = Ok v0 →
  ∃ os v, run ops v0 = Some (os, v) ∧ length os = length ops ∧ vault_inv v
  ∧ (size (view (dpopProofs v)) <= Z.to_nat (dpopMaxEntries v0))%nat
  ∧ (size (view (logoutTickets v)) <= Z.to_nat (ticketMaxEntries v0))%nat.
Proof.
  intros H0. destruct (run_total parse_url ops v0 (created_inv d t v0 H0)) as (os & v & H1 & H2 & H3).
  destruct (run_keeps (λ v, dpopMaxEntries v = dpopMaxEntries v0 ∧ ticketMaxEntries v = ticketMaxEntries v0)
    (λ _, True)) with ops v0 os v as [_ [<- <-]]; [|by eapply created_inv|done|by apply Forall_true|done|].
  { intros op n1 n2 w o w' Hw [<- <-] _ He. by destruct (exec_same op n1 n2 w o w' Hw He) as (-> & -> & _). }
  exists os, v. split_and!; [done..| |].
  - destruct (inv_dpop v H2) as [_ ?]. lia.
  - destruct (inv_tickets v H2) as (_ & ? & _). lia.
Qed.
End guarantees.

(** * Concrete instances *)

Lemma run_inv parse_url d t v0 ops os v : createMemoryOidcVaultStore d t = Ok v0 →
  vault_run parse_url ops v0 = Some (os, v) → vault_inv v.
Proof.
  intros H0 Hrun. destruct (run_total parse_url ops v0 (created_inv d t v0 H0)) as (os' & v' & H & Hv & _).
  congruence.
Qed.

Definition at_time (z : Z) : num * num := (num_of_Z z, num_of_Z z).
Definition example_binding : jsval := dpop_binding (JStr example_hash).
Definition example_record : OneTimeRecord :=
  mkOneTime (js "id-1") example_binding (JStr example_hash) (JNum (num_of_Z 0)) (JNum (num_of_Z 500))
    [(js "nonce", JStr (js "n")); (js "pkceVerifier", JStr (js "p")); (js "codeChallenge", JStr (js "c"));
     (js "sessionId", JStr (js "s2"))].
Definition example_match : jsval :=
  JObj true [(js "deviceBinding", example_binding); (js "browserBindingHash", JStr example_hash)].
Definition example_session (id : string) (binding : jsval) : Session :=
  mkSession (js id) None (JStr (js "alice")) JUndef JUndef binding (JStr (js "r")) (JStr (js "i"))
    (JNum (num_of_Z 900)) JUndef JUndef [].

Definition example_ops : list (vault_op * (num * num)) :=
  [(OpCreateTransaction example_record, at_time 10); (OpCreateCode example_record, at_time 10);
   (OpCreateSession (example_session "s1" example_binding), at_time 10);
   (OpRotateSession (js "s1") (example_session "s2" JUndef), at_time 20)].

Definition store_of (r : vres Vault) : Vault :=
  match r with
  | Ok v => v
  | Err _ => mkVault 0 0 empty_swept empty_swept empty_swept empty_swept empty_swept empty_heap empty_heap
  end.
Definition after (ops : list (vault_op * (num * num))) : Vault :=
  let v := store_of (createMemoryOidcVaultStore JUndef (JNum (num_of_Z 3))) in
  match vault_run example_upstream_parser ops v with Some (_, v') => v' | None => v end.
Definition example_vault : Vault := after example_ops.

Lemma after_inv ops :
  is_Some (vault_run example_upstream_parser ops (store_of (createMemoryOidcVaultStore JUndef (JNum (num_of_Z 3))))) →
  vault_inv (after ops).
Proof.
  intros [[os v] E]. eapply (run_inv example_upstream_parser JUndef (JNum (num_of_Z 3)) _ ops os); [reflexivity|].
  unfold after. rewrite E. cbn. rewrite <- E. reflexivity.
Qed.

Lemma example_vault_inv : vault_inv example_vault.
Proof. apply after_inv. vm_compute. eauto. Qed.

Definition after_op (op : vault_op) (t : Z) (v : Vault) : Vault :=
  match vault_exec example_upstream_parser op (num_of_Z t) (num_of_Z t) v with Some (_, v') => v' | None => v end.

(** The outcome of [op] at [t]. *)
Definition answer (op : vault_op) (t : Z) (v : Vault) : outcome :=
  match vault_exec example_upstream_parser op (num_of_Z t) (num_of_Z t) v with Some (o, _) => o | None => Pending end.

Definition code_spent : Vault :=
  after_op (OpConsumeCodeIf (js "id-1") example_match (JStr (js "s2"))) 30 example_vault.
Definition transaction_spent : Vault :=
  after_op (OpConsumeTransactionIf (js "id-1") example_match) 30 example_vault.
Definition token_spent : Vault := after_op (OpConsumeJti (js "jti") (num_of_Z 100)) 30 example_vault.

Lemma exchange_code_single_use_witness :
  answer (OpConsumeCodeIf (js "id-1") example_match (JStr (js "s2"))) 40 code_spent = GaveRecord None.
Proof.
  apply (exchange_code_single_use example_upstream_parser (js "id-1")
    (OpConsumeCodeIf (js "id-1") example_match (JStr (js "s2")))
    (OpConsumeCodeIf (js "id-1") example_match (JStr (js "s2"))) (num_of_Z 30) (num_of_Z 30) (num_of_Z 40) (num_of_Z 40) example_record [] []
    example_vault code_spent code_spent
    (after_op (OpConsumeCodeIf (js "id-1") example_match (JStr (js "s2"))) 40 code_spent)).
  - apply example_vault_inv.
  - reflexivity.
  - vm_compute. reflexivity.
  - constructor.
  - reflexivity.
  - reflexivity.
  - vm_compute. reflexivity.
Defined.

Lemma transaction_single_use_witness :
  answer (OpConsumeTransactionIf (js "id-1") example_match) 40 transaction_spent = GaveRecord None.
Proof.
  apply (transaction_single_use example_upstream_parser (js "id-1")
    (OpConsumeTransactionIf (js "id-1") example_match)
    (OpConsumeTransactionIf (js "id-1") example_match) (num_of_Z 30) (num_of_Z 30) (num_of_Z 40) (num_of_Z 40) example_record [] []
    example_vault transaction_spent transaction_spent
    (after_op (OpConsumeTransactionIf (js "id-1") example_match) 40 transaction_spent)).
  - apply example_vault_inv.
  - reflexivity.
  - vm_compute. reflexivity.
  - constructor.
  - reflexivity.
  - reflexivity.
  - vm_compute. reflexivity.
Defined.

Lemma guarded_consume_bound_witness :
  ∃ o v', vault_exec example_upstream_parser (OpConsumeCodeIf (js "id-1") example_match (JStr (js "other")))
      (num_of_Z 30) (num_of_Z 30) example_vault = Some (GaveRecord o, v')
    ∧ (o = Some example_record ∧ bound_to example_record example_match
         ∧ ot_field example_record (js "sessionId") = JStr (js "other") ∧ sw_get (exchangeCodes v') (js "id-1") = None
       ∨ o = None ∧ ¬ (bound_to example_record example_match
                       ∧ ot_field example_record (js "sessionId") = JStr (js "other"))
         ∧ sw_get (exchangeCodes v') (js "id-1") = Some example_record).
Proof.
  apply (guarded_consume_bound example_upstream_parser).
  - apply example_vault_inv.
  - vm_compute. reflexivity.
  - apply not_gone; vm_compute; reflexivity.
  - vm_compute. reflexivity.
Defined.

Definition example_s2 : Session :=
  mkSession (js "s2") (Some (js "s1")) (JStr (js "alice")) JUndef JUndef example_binding (JStr (js "r")) (JStr (js "i"))
    (JNum (num_of_Z 900)) (JNum (num_of_Z 20)) (JNum (num_of_Z 20)) [].

Lemma live_session_kept_witness :
  sw_get (sessions (after_op (OpDeleteBySubject (inl (js "bob"))) 30 example_vault)) (js "s2") = Some example_s2.
Proof.
  apply (live_session_kept example_upstream_parser (OpDeleteBySubject (inl (js "bob"))) (num_of_Z 30) (num_of_Z 30)
    example_vault _ (GaveCount 0)).
  - apply example_vault_inv.
  - vm_compute. reflexivity.
  - vm_compute. reflexivity.
  - reflexivity.
  - reflexivity.
  - vm_compute. discriminate.
Defined.

Lemma rotation_keeps_constraint_witness :
  let v' := after_op (OpRotateSession (js "s2") (example_session "s3" JUndef)) 30 example_vault in
  let s3 := with_defaults (example_session "s3" example_binding) (js "s1") (num_of_Z 30) in
  (∃ source session, GaveSession (Some s3) = GaveSession (Some session)
     ∧ live_session example_vault (js "s2") (num_of_Z 30) = Some source ∧ js "s3" ≠ js "s2"
     ∧ live_session example_vault (js "s3") (num_of_Z 30) = None
     ∧ constraint_of session = constraint_of source
     ∧ (s_logicalSessionId (example_session "s3" JUndef) = None → lineage session = lineage source)
     ∧ sw_get (sessions v') (js "s3") = Some session ∧ sw_get (sessions v') (js "s2") = None
     ∧ sw_get (rotatedSessionAliases v') (js "s2") = Some (mkAlias (lineage session) (s_expiresAt session)))
  ∨ (∃ e, GaveSession (Some s3) = Threw e
       ∧ ∀ k s, live_session example_vault k (num_of_Z 30) = Some s → sw_get (sessions v') k = Some s).
Proof.
  apply (rotation_keeps_constraint example_upstream_parser (js "s2") (example_session "s3" JUndef)
    (num_of_Z 30) (num_of_Z 30) example_vault).
  - apply example_vault_inv.
  - vm_compute. reflexivity.
Defined.

Lemma revoke_lineage_witness :
  let v' := after_op (OpDeleteByLogical (js "s1")) 30 example_vault in
  (∀ k s, sw_get (sessions v') k = Some s → lineage s ≠ js "s1")
  ∧ (∀ k a, sw_get (rotatedSessionAliases v') k = Some a → al_logicalSessionId a ≠ js "s1")
  ∧ (∀ k s, live_session example_vault k (num_of_Z 30) = Some s → lineage s ≠ js "s1" →
       sw_get (sessions v') k = Some s)
  ∧ GaveCount 1 = GaveCount (Z.of_nat (length (List.filter
      (λ kv, jsstr_eqb (lineage kv.2) (js "s1") && negb (s_expired kv.2 (num_of_Z 30)))
      (sw_map (sessions example_vault))))).
Proof.
  apply (revoke_lineage example_upstream_parser (js "s1") (num_of_Z 30) (num_of_Z 30) example_vault).
  - apply example_vault_inv.
  - vm_compute. reflexivity.
Defined.

Lemma rotated_handle_revokes_witness :
  let v' := after_op (OpDeleteSession (js "s1")) 30 example_vault in
  Pending = Pending ∧ ¬ has_live v' (js "s1") (num_of_Z 30)
  ∧ ∀ k a, sw_get (rotatedSessionAliases v') k = Some a → al_logicalSessionId a ≠ js "s1".
Proof.
  apply (rotated_handle_revokes example_upstream_parser (js "s1") (js "s1") (num_of_Z 30) (num_of_Z 30) example_vault).
  - apply example_vault_inv.
  - vm_compute. reflexivity.
  - exists (js "s2"), example_s2. split_and!; vm_compute; reflexivity.
  - vm_compute. reflexivity.
Defined.

Definition example_context : RevocationContext := mkRevocation (js "s1") None example_binding.

Lemma revocation_context_uniform_witness :
  ∃ k x, live_session example_vault k (num_of_Z 30) = Some x ∧ sessionRevocationContext x = Ok example_context
    ∧ (rc_logicalSessionId example_context = lineage x)
    ∧ (live_session example_vault (js "s1") (num_of_Z 30) = None →
         handle_of example_vault (js "s1") (num_of_Z 30) = Some (lineage x))
    ∧ (∀ s, live_session example_vault (js "s1") (num_of_Z 30) = Some s → lineage s = lineage x)
    ∧ ∀ k' y, live_session example_vault k' (num_of_Z 30) = Some y → lineage y = lineage x → same_authority x y.
Proof.
  apply (revocation_context_uniform (js "s1") (num_of_Z 30) example_vault (Some example_context)).
  - apply example_vault_inv.
  - vm_compute. reflexivity.
Defined.

Lemma logout_token_once_witness :
  answer (OpConsumeJti (js "jti") (num_of_Z 900)) 60 token_spent = GaveBool false.
Proof.
  apply (logout_token_once example_upstream_parser (js "jti") (num_of_Z 100) (num_of_Z 900)
    (num_of_Z 30) (num_of_Z 30) (num_of_Z 60) (num_of_Z 60) [] [] example_vault
    token_spent token_spent
    (after_op (OpConsumeJti (js "jti") (num_of_Z 900)) 60 token_spent)).
  - apply example_vault_inv.
  - vm_compute. reflexivity.
  - constructor.
  - reflexivity.
  - reflexivity.
  - vm_compute. reflexivity.
Defined.

Lemma vault_run_safe_witness :
  let v0 := store_of (createMemoryOidcVaultStore JUndef (JNum (num_of_Z 3))) in
  ∃ os v, vault_run example_upstream_parser example_ops v0 = Some (os, v) ∧ length os = length example_ops ∧ vault_inv v
    ∧ (size (view (dpopProofs v)) <= Z.to_nat (dpopMaxEntries v0))%nat
    ∧ (size (view (logoutTickets v)) <= Z.to_nat (ticketMaxEntries v0))%nat.
Proof.
  apply (vault_run_safe example_upstream_parser JUndef (JNum (num_of_Z 3))). reflexivity.
Defined.
