(* ===== verification/AccessRules.v ===== *)
(** access-router, [permission.ts], [createValidator] of [helpers/index.ts] and
    [acl/field-authorization.ts]: permission sets, the access-rule grammar and the
    authorization of output fields at request time and per document.

    The model is the one of a call outside an output-work ledger
    ([currentOutputWorkLedger()] is [undefined]); inside one, the same code may also
    throw the ledger's budget error. *)

From S2P Require Import Prelude JsValue JsJson JsMap.

(** [Boolean(v)] *)
Definition truthy (v : jsval) : bool :=
  match v with
  | JUndef | JNull => false
  | JBool b => b
  | JNum n => match n with NaN => false | Infty _ => true | Fin q => negb (Qeq_bool q 0) end
  | JStr s => negb (jsstr_eqb s [])
  | _ => true
  end.

(** * Permission *)

(** The private null-prototype record of a [Permission]. *)
Abbreviation Permission := (list (jsstr * bool)).

Definition new_Permission (permissions : jsval) : Permission :=
  map (λ k, (k, js_strict_eq (get_field permissions k) (JBool true))) (object_keys permissions).

Definition permission_keys (p : Permission) : list jsstr := map fst p.
Definition hasKey (p : Permission) (permission : jsstr) : bool :=
  match field_lookup p permission with Some _ => true | None => false end.
Definition has (p : Permission) (permission : jsstr) : bool := default false (field_lookup p permission).

(** A single permission with more arguments, or one array of permissions. *)
Definition normalizePermissionArgs (permissionOrPermissions : jsstr + list jsstr) (permissions : list jsstr)
    : list jsstr :=
  match permissionOrPermissions with inr l => l | inl p => p :: permissions end.
Definition hasAny (p : Permission) (first : jsstr + list jsstr) (rest : list jsstr) : bool :=
  existsb (has p) (normalizePermissionArgs first rest).
Definition hasAll (p : Permission) (first : jsstr + list jsstr) (rest : list jsstr) : bool :=
  forallb (has p) (normalizePermissionArgs first rest).

(** * The rule grammar *)

(** A string rule is a conjunction, an array a (nested) disjunction. *)
Definition rule_words (key : jsstr) : list jsstr := split_on 32 (trim key).
Definition stringHandler (fn : jsstr → bool) (key : jsstr) : bool := forallb fn (rule_words key).

Fixpoint itemHandler (fn : jsstr → bool) (item : jsval) : bool :=
  match item with
  | JStr s => stringHandler fn s
  | JArr items => existsb (itemHandler fn) items
  | _ => false
  end.
Definition arrayHandler (fn : jsstr → bool) (items : list jsval) : bool := existsb (itemHandler fn) items.

(** * Output rules *)

Definition own_field (v : jsval) (k : jsstr) : option jsval :=
  match v with JObj _ fs => field_lookup fs k | _ => None end.

Definition extractScopedOutputRule (schema : jsval) (field access : jsstr) : jsval :=
  match own_field schema field with
  | Some raw =>
      match raw with
      | JObj _ _ => default raw (own_field raw access)
      | _ => raw
      end
  | None => JUndef
  end.

(** [extractOutputFieldRuleEntries] on [path.split('.')]. *)
Fixpoint extractOutputFieldRuleEntries (schema : jsval) (path : list jsstr) (access prefix : jsstr)
    : list (jsstr * jsval) :=
  match path with
  | [] => []
  | head :: rest =>
      let whole := join_with 46 path in
      if negb (truthy schema) then [(prefix ++ whole, JUndef)]
      else
        match own_field schema whole with
        | Some _ => [(prefix ++ whole, extractScopedOutputRule schema whole access)]
        | None =>
            let entry := (prefix ++ head, extractScopedOutputRule schema head access) in
            let sub := get_field (get_field schema head) (js "sub") in
            match rest with
            | [] => [entry]
            | _ => if truthy sub
                   then entry :: extractOutputFieldRuleEntries sub rest access (prefix ++ head ++ [46])
                   else [entry]
            end
        end
  end.

Definition extractOutputFieldRules (schema : jsval) (path access : jsstr) : list jsval :=
  map snd (extractOutputFieldRuleEntries schema (split_on 46 path) access []).

Definition stripModelPermissionPrefix (key prefix : jsstr) : jsstr :=
  if negb (jsstr_eqb prefix []) && starts_with prefix key then drop (length prefix) key else key.

Inductive FieldAuthorization := ModeRequest | ModeGrant (paths : list jsstr) | ModeUnrestricted.

Definition hasExplicitFieldGrant (policy : option FieldAuthorization) (path : jsstr) : bool :=
  match policy with
  | Some ModeUnrestricted => true
  | Some (ModeGrant paths) =>
      existsb (λ grant, jsstr_eqb path grant || starts_with (grant ++ [46]) path) paths
  | _ => false
  end.

Definition hasDescendantFieldGrant (policy : option FieldAuthorization) (path : jsstr) : bool :=
  match policy with
  | Some (ModeGrant paths) => existsb (starts_with (path ++ [46])) paths
  | _ => false
  end.

(** * At request time *)

Inductive FieldAuthorizationState := granted | deferred | denied.

(** [typeof rule === 'string' ? stringHandler(rule) : arrayHandler(rule)] *)
Definition rule_holds (fn : jsstr → bool) (rule : jsval) : bool :=
  match rule with
  | JStr s => stringHandler fn s
  | JArr items => arrayHandler fn items
  | _ => false
  end.

(** What a document grant could still provide. *)
Definition possible_key (permissions : jsstr → bool) (prefix key : jsstr) : bool :=
  permissions key || jsstr_eqb prefix [] || starts_with prefix key.

Definition classifyRequestFieldRule (rule : jsval) (permissions : jsstr → bool) (modelPermissionPrefix : jsstr)
    : FieldAuthorizationState :=
  match rule with
  | JBool b => if b then granted else denied
  | JFun _ => deferred
  | JStr _ | JArr _ =>
      if rule_holds permissions rule then granted
      else if rule_holds (possible_key permissions modelPermissionPrefix) rule then deferred else denied
  | _ => denied
  end.

Definition prepareRequestFieldRule (rule : jsval) (permissions : jsstr → bool) (modelPermissionPrefix : jsstr)
    : FieldAuthorizationState * option bool :=
  let state := classifyRequestFieldRule rule permissions modelPermissionPrefix in
  let invariant :=
    match state with
    | denied => if jsstr_eqb modelPermissionPrefix [] then state
                else classifyRequestFieldRule rule permissions []
    | _ => state
    end in
  (state, match invariant with deferred => None | granted => Some true | denied => Some false end).

Definition state_eqb (a b : FieldAuthorizationState) : bool :=
  match a, b with granted, granted | deferred, deferred | denied, denied => true | _, _ => false end.

Definition combineFieldAuthorizationStates (states : list FieldAuthorizationState) : FieldAuthorizationState :=
  if existsb (state_eqb denied) states then denied
  else if existsb (state_eqb deferred) states then deferred else granted.

Definition classifyEffectiveFieldAuthorization (path : jsstr) (rules : list jsval)
    (outputFields : option FieldAuthorization) (globalPermissions : jsstr → bool) (modelPermissionPrefix : jsstr)
    : FieldAuthorizationState :=
  if hasExplicitFieldGrant outputFields path then granted
  else combineFieldAuthorizationStates
         (map (λ rule, classifyRequestFieldRule rule globalPermissions modelPermissionPrefix) rules).

(** * Per document *)

(** The boolean facts of a document, a null-prototype record. *)
Abbreviation DocumentGrants := (list (jsstr * bool)).

(** What [({})[key]] finds on [Object.prototype]: all of it is truthy. *)
Definition object_prototype_names : list jsstr :=
  map js ["constructor"; "__defineGetter__"; "__defineSetter__"; "hasOwnProperty"; "__lookupGetter__";
          "__lookupSetter__"; "isPrototypeOf"; "propertyIsEnumerable"; "toString"; "valueOf"; "__proto__";
          "toLocaleString"]%string.

(** [Boolean((docPermissions ?? {})[key])] *)
Definition document_grant (docPermissions : option DocumentGrants) (key : jsstr) : bool :=
  match docPermissions with
  | Some grants => default false (field_lookup grants key)
  | None => existsb (jsstr_eqb key) object_prototype_names
  end.

Definition document_key (globalPermissions : option (jsstr → bool)) (docPermissions : option DocumentGrants)
    (modelPermissionPrefix key : jsstr) : bool :=
  match globalPermissions with Some h => h key | None => false end
  || document_grant docPermissions (stripModelPermissionPrefix key modelPermissionPrefix).

Definition evaluateNonFunctionAccessRule (rule : jsval) (globalPermissions : option (jsstr → bool))
    (docPermissions : option DocumentGrants) (modelPermissionPrefix : jsstr) : bool :=
  match rule with
  | JBool b => b
  | _ => rule_holds (document_key globalPermissions docPermissions modelPermissionPrefix) rule
  end.

Section evaluate.
(** The application's rule functions: the settled result of a call with the
  document grants, or an exception. *)
Variable call_rule : nat → DocumentGrants → result unit jsval.

Definition evaluateScopedAccessRule (rule : jsval) (globalPermissions : option (jsstr → bool))
  (docPermissions : option DocumentGrants) (modelPermissionPrefix : jsstr) : bool :=
match rule with
| JFun f => match call_rule f (default [] docPermissions) with Ok v => truthy v | Err _ => false end
| _ => evaluateNonFunctionAccessRule rule globalPermissions docPermissions modelPermissionPrefix
end.

Definition evaluateEffectiveFieldAuthorization (path : jsstr) (rules : list jsval)
  (outputFields : option FieldAuthorization) (globalPermissions : jsstr → bool)
  (docPermissions : DocumentGrants) (modelPermissionPrefix : jsstr) : bool :=
if hasExplicitFieldGrant outputFields path then true
else forallb (λ rule, evaluateScopedAccessRule rule (Some globalPermissions) (Some docPermissions)
                        modelPermissionPrefix) rules.
End evaluate.

(** * Rules are monotone in what is granted *)

(** The permission names a rule mentions. *)
Fixpoint item_keys (item : jsval) : list jsstr :=
  match item with
  | JStr s => rule_words s
  | JArr items => flat_map item_keys items
  | _ => []
  end.

Lemma stringHandler_mono (f g : jsstr → bool) s :
  (∀ k, k ∈ rule_words s → f k = true → g k = true) → stringHandler f s = true → stringHandler g s = true.
Proof.
  unfold stringHandler. rewrite !forallb_forall. intros Hfg Hf k Hk. apply Hfg; [by apply list_elem_of_In|auto].
Qed.

Lemma itemHandler_mono (f g : jsstr → bool) item :
  (∀ k, k ∈ item_keys item → f k = true → g k = true) → itemHandler f item = true → itemHandler g item = true.
Proof.
  induction item as [| | | | |items IH| | |] using jsval_ind'; try done; [apply stringHandler_mono|].
  cbn [itemHandler item_keys]. rewrite !existsb_exists. intros Hfg (x & Hx & Hh). exists x. split; [done|].
  rewrite Forall_forall in IH. apply IH; [by apply list_elem_of_In| |done].
  intros k Hk. apply Hfg. apply list_elem_of_In, in_flat_map. exists x. split; [done|]. by apply list_elem_of_In.
Qed.

Lemma rule_holds_item fn rule : rule_holds fn rule = itemHandler fn rule.
Proof. by destruct rule. Qed.

Lemma rule_holds_ext (f g : jsstr → bool) rule : (∀ k, f k = g k) → rule_holds f rule = rule_holds g rule.
Proof.
  intros Hfg. rewrite !rule_holds_item. apply eq_true_iff_eq.
  split; apply itemHandler_mono; intros k _; by rewrite Hfg.
Qed.

Lemma field_lookup_constant (keys : list jsstr) (g : jsstr → jsstr) k :
  k ∈ keys → field_lookup (map (λ k, (g k, true)) keys) (g k) = Some true.
Proof.
  induction keys as [|k' keys IH]; intros Hk; [inversion Hk|]. cbn.
  destruct (jsstr_eqb (g k) (g k')) eqn:E; [done|]. apply elem_of_cons in Hk as [->|Hk]; [|auto].
  by rewrite jsstr_eqb_refl in E.
Qed.

Section decisions.
Context (has : jsstr → bool) (prefix : jsstr).
Implicit Types (rule : jsval) (docs : DocumentGrants).

Notation holds_for rule docs := (rule_holds (document_key (Some has) (Some docs) prefix) rule).

Lemma granted_holds rule docs : rule_holds has rule = true → holds_for rule docs = true.
Proof.
  rewrite !rule_holds_item. apply itemHandler_mono. unfold document_key. intros k _ ->. done.
Qed.

Lemma impossible_fails rule docs : rule_holds (possible_key has []) rule = false → holds_for rule docs = false.
Proof.
  intros Hp. apply not_true_is_false. intros Hh. rewrite rule_holds_item in *.
  enough (itemHandler (possible_key has []) rule = true) by congruence.
  eapply itemHandler_mono; [|exact Hh]. intros k _ _. unfold possible_key.
  by rewrite jsstr_eqb_refl, orb_true_r.
Qed.

(** Granting every name of the rule, and granting nothing. *)
Definition all_grants rule : DocumentGrants :=
map (λ k, (stripModelPermissionPrefix k prefix, true)) (item_keys rule).

Lemma all_grants_hold rule p : rule_holds (possible_key has p) rule = true → holds_for rule (all_grants rule) = true.
Proof.
  rewrite !rule_holds_item. apply itemHandler_mono. intros k Hk _. unfold document_key, document_grant, all_grants.
  rewrite (field_lookup_constant _ (λ k, stripModelPermissionPrefix k prefix)) by done. apply orb_true_r.
Qed.

Lemma no_grants rule : holds_for rule [] = rule_holds has rule.
Proof. apply rule_holds_ext. intros k. unfold document_key. apply orb_false_r. Qed.

Lemma evaluate_plain call rule docs : (∀ f, rule ≠ JFun f) → (∀ b, rule ≠ JBool b) →
  evaluateScopedAccessRule call rule (Some has) (Some docs) prefix = holds_for rule docs.
Proof. destruct rule; try done; intros H1 H2; [by destruct (H2 b)|by destruct (H1 id)]. Qed.

(** A request-time decision is final and an undecided rule is really open: a
  decision [b] is what the rule evaluates to for every document, and without a
  decision some document's grants satisfy the rule and some do not.  The
  request-time state is [granted] exactly when the decision is to grant. *)
Theorem prepared_decision_exact (call : nat → DocumentGrants → result unit jsval) (rule : jsval) :
  (∀ f, rule ≠ JFun f) →
  match snd (prepareRequestFieldRule rule has prefix) with
  | Some b => ∀ docs, evaluateScopedAccessRule call rule (Some has) (Some docs) prefix = b
  | None => ∃ d1 d2, evaluateScopedAccessRule call rule (Some has) (Some d1) prefix = true
                 ∧ evaluateScopedAccessRule call rule (Some has) (Some d2) prefix = false
  end
  ∧ (fst (prepareRequestFieldRule rule has prefix) = granted
   ↔ snd (prepareRequestFieldRule rule has prefix) = Some true).
Proof.
  intros Hf. destruct (match rule with JBool b => Some b | _ => None end) as [b|] eqn:Eb.
  { destruct rule; try done. injection Eb as <-. unfold prepareRequestFieldRule. cbn [classifyRequestFieldRule].
    destruct b0, (jsstr_eqb prefix []); done. }
  assert (∀ b, rule ≠ JBool b) as Hb by (intros b ->; done). clear Eb.
  assert (∀ docs, evaluateScopedAccessRule call rule (Some has) (Some docs) prefix = holds_for rule docs) as He
    by (intros; by apply evaluate_plain).
  assert (∀ p, rule_holds has rule = false → rule_holds (possible_key has p) rule = true →
    ∃ d1 d2, evaluateScopedAccessRule call rule (Some has) (Some d1) prefix = true
      ∧ evaluateScopedAccessRule call rule (Some has) (Some d2) prefix = false) as Hopen.
  { intros p Hn Hp. exists (all_grants rule), []. rewrite !He. split; [by eapply all_grants_hold|]. by rewrite no_grants. }
  assert (∀ p, classifyRequestFieldRule rule has p
    = if rule_holds has rule then granted else if rule_holds (possible_key has p) rule then deferred else denied) as Hc.
  { intros p. destruct rule; try done; [by destruct (Hb b)|by destruct (Hf id)]. }
  unfold prepareRequestFieldRule. rewrite !Hc. destruct (rule_holds has rule) eqn:Eh; cbn [fst snd].
  { split; [|done]. intros docs. rewrite He. by apply granted_holds. }
  destruct (rule_holds (possible_key has prefix) rule) eqn:Ep; cbn [fst snd]; [split; [eauto|done]|].
  destruct (jsstr_eqb prefix []) eqn:Epre.
  { apply jsstr_eqb_true in Epre. rewrite Epre in Ep. cbn. split; [|done]. intros docs.
    rewrite He. by apply impossible_fails. }
  destruct (rule_holds (possible_key has []) rule) eqn:Ep'; cbn; [split; [eauto|done]|].
  split; [|done]. intros docs. rewrite He. by apply impossible_fails.
Qed.

Lemma combine_granted states : combineFieldAuthorizationStates states = granted → Forall (eq granted) states.
Proof.
  unfold combineFieldAuthorizationStates. induction states as [|s states IH]; [by constructor|]. cbn.
  destruct s; cbn; try (destruct (existsb (state_eqb denied) states); discriminate).
  intros H. constructor; [done|auto].
Qed.

Lemma combine_denied states : combineFieldAuthorizationStates states = denied → denied ∈ states.
Proof.
  unfold combineFieldAuthorizationStates. destruct (existsb (state_eqb denied) states) eqn:E.
  - intros _. apply existsb_exists in E as (s & Hs & Heq). destruct s; try done. by apply list_elem_of_In.
  - destruct (existsb (state_eqb deferred) states); discriminate.
Qed.

Lemma classify_granted call rule docs : classifyRequestFieldRule rule has prefix = granted →
  evaluateScopedAccessRule call rule (Some has) (Some docs) prefix = true.
Proof.
  destruct rule; cbn [classifyRequestFieldRule]; try done.
  - by destruct b.
  - destruct (rule_holds has (JStr s)) eqn:E; [|by destruct (rule_holds (possible_key has prefix) _)]. intros _. by apply granted_holds.
  - destruct (rule_holds has (JArr l)) eqn:E; [|by destruct (rule_holds (possible_key has prefix) _)]. intros _. by apply granted_holds.
Qed.

Lemma classify_denied call rule docs : prefix = [] → classifyRequestFieldRule rule has prefix = denied →
  evaluateScopedAccessRule call rule (Some has) (Some docs) prefix = false.
Proof.
  intros Hp. destruct rule; cbn [classifyRequestFieldRule]; try done.
  - by destruct b.
  - destruct (rule_holds has (JStr s)) eqn:E; [done|]. destruct (rule_holds (possible_key has prefix) _) eqn:E'; [done|].
    intros _. apply impossible_fails. by rewrite Hp in E'.
  - destruct (rule_holds has (JArr l)) eqn:E; [done|]. destruct (rule_holds (possible_key has prefix) _) eqn:E'; [done|].
    intros _. apply impossible_fails. by rewrite Hp in E'.
Qed.

(** The planner's verdict on a field, from its explicit grants and all its rules,
  agrees with the final evaluation: a field planned as granted is authorized for
  every document, and, without a model prefix, one planned as denied for none. *)
Theorem planned_field_sound (call : nat → DocumentGrants → result unit jsval) (path : jsstr)
  (rules : list jsval) (outputFields : option FieldAuthorization) (docs : DocumentGrants) :
  (classifyEffectiveFieldAuthorization path rules outputFields has prefix = granted →
   evaluateEffectiveFieldAuthorization call path rules outputFields has docs prefix = true)
  ∧ (prefix = [] → classifyEffectiveFieldAuthorization path rules outputFields has prefix = denied →
   evaluateEffectiveFieldAuthorization call path rules outputFields has docs prefix = false).
Proof.
  unfold classifyEffectiveFieldAuthorization, evaluateEffectiveFieldAuthorization.
  destruct (hasExplicitFieldGrant outputFields path); [done|]. split.
  - intros H%combine_granted. apply forallb_forall. intros rule Hrule. rewrite Forall_map, Forall_forall in H.
    apply classify_granted. symmetry. apply H. by apply list_elem_of_In.
  - intros Hp H%combine_denied. apply not_true_is_false. rewrite forallb_forall. intros Hall.
    apply list_elem_of_In, in_map_iff in H as (rule & Hd & Hrule). specialize (Hall rule Hrule).
    rewrite classify_denied in Hall; done.
Qed.
End decisions.

(** * Concrete instances *)

Definition example_has (k : jsstr) : bool := jsstr_eqb k (js "admin").
Definition example_rule : jsval := JArr [JStr (js "admin root"); JStr (js "user:owner")].
Definition example_call (f : nat) (docs : DocumentGrants) : result unit jsval := Err tt.

Lemma prepared_decision_exact_witness :
  (∃ d1 d2, evaluateScopedAccessRule example_call example_rule (Some example_has) (Some d1) (js "user:") = true
          ∧ evaluateScopedAccessRule example_call example_rule (Some example_has) (Some d2) (js "user:") = false)
  ∧ (deferred = granted ↔ None = Some true).
Proof. apply (prepared_decision_exact example_has (js "user:") example_call example_rule). discriminate. Defined.

Lemma planned_field_sound_witness :
  evaluateEffectiveFieldAuthorization example_call (js "email") [JStr (js "admin"); JBool true] None example_has [] []
  = true.
Proof. apply (planned_field_sound example_has []). vm_compute. reflexivity. Defined.
