(* ===== verification/AccessComplexity.v ===== *)
(** access-router, [request-complexity.ts]: the budgets a request body or filter is
    admitted under. *)

From S2P Require Import Prelude JsValue JsJson.

Record Limits := mkLimits {
  maxDepth : Z;
  maxNodes : Z;
  maxLogicalClauses : Z;
  maxInValues : Z;
  maxBulkItems : Z;
  maxIncludeCount : Z;
  maxSubQueryCount : Z;
  maxBulkConcurrency : Z;
  maxHookConcurrency : Z;
  maxCorrelatedQueries : Z;
  maxCorrelatedDepth : Z
}.

Definition defaultRequestComplexity : Limits := mkLimits 8 500 50 100 100 10 10 10 10 100 5.

Definition normalizePositiveInteger (value : jsval) (fallback : Z) : Z :=
  match value with
  | JNum n => match safe_integer n with Some z => if 0 <? z then z else fallback | None => fallback end
  | _ => fallback
  end.

Definition resolveRequestComplexity (options : jsval) : Limits :=
  let get k d := normalizePositiveInteger (get_field options (js k)) (d defaultRequestComplexity) in
  mkLimits (get "maxDepth"%string maxDepth) (get "maxNodes"%string maxNodes)
    (get "maxLogicalClauses"%string maxLogicalClauses) (get "maxInValues"%string maxInValues)
    (get "maxBulkItems"%string maxBulkItems) (get "maxIncludeCount"%string maxIncludeCount)
    (get "maxSubQueryCount"%string maxSubQueryCount) (get "maxBulkConcurrency"%string maxBulkConcurrency)
    (get "maxHookConcurrency"%string maxHookConcurrency) (get "maxCorrelatedQueries"%string maxCorrelatedQueries)
    (get "maxCorrelatedDepth"%string maxCorrelatedDepth).

Inductive ComplexityScope := ScopeRequest | ScopeFilter.

Record ValidationError := mkValidationError { ve_detail : jsstr; ve_pointer : jsstr }.

(** The variables of [validateRequestComplexity]; [errors] holds at most one. *)
Record Visit := mkVisit {
  errors : option ValidationError;
  nodes : Z;
  logicalClauses : Z;
  includeCount : Z;
  subQueryCount : Z
}.

Definition pointer (path : list jsstr) : jsstr :=
  match path with [] => js "#" | _ => js "#/" ++ join_with 47 path end.

Definition pushError (detail : jsstr) (path : list jsstr) (st : Visit) : Visit :=
  match errors st with
  | Some _ => st
  | None => mkVisit (Some (mkValidationError detail (pointer path))) (nodes st) (logicalClauses st)
              (includeCount st) (subQueryCount st)
  end.

Definition with_nodes (st : Visit) n := mkVisit (errors st) n (logicalClauses st) (includeCount st) (subQueryCount st).
Definition with_logical (st : Visit) n := mkVisit (errors st) (nodes st) n (includeCount st) (subQueryCount st).
Definition with_include (st : Visit) n := mkVisit (errors st) (nodes st) (logicalClauses st) n (subQueryCount st).
Definition with_sub (st : Visit) n := mkVisit (errors st) (nodes st) (logicalClauses st) (includeCount st) n.

Definition has_errors (st : Visit) : bool := match errors st with Some _ => true | None => false end.

(** A loop that returns as soon as there is an error. *)
Section until_error.
Context {A : Type} (f : nat → A → Visit → Visit).
Fixpoint until_error (i : nat) (l : list A) (st : Visit) : Visit :=
match l with
| [] => st
| x :: l => let st := f i x st in if has_errors st then st else until_error (S i) l st
end.
End until_error.

Definition key_is (parentKey : option jsstr) (k : string) : bool :=
  match parentKey with Some p => jsstr_eqb p (js k) | None => false end.
Definition logical_key (parentKey : option jsstr) : bool :=
  key_is parentKey "$and" || key_is parentKey "$or" || key_is parentKey "$nor".
Definition dangerous_key (k : jsstr) : bool :=
  jsstr_eqb k (js "__proto__") || jsstr_eqb k (js "prototype") || jsstr_eqb k (js "constructor").

Definition exceeds (what : string) (limit : Z) : jsstr := js what ++ dec_of_Z limit.

Section visit.
Variable (limits : Limits) (scope : ComplexityScope).

Definition is_include (key : jsstr) : bool :=
match scope with ScopeRequest => jsstr_eqb key (js "include") | ScopeFilter => false end.

Fixpoint visit (current : jsval) (path : list jsstr) (depth : Z) (parentKey : option jsstr) (st : Visit) : Visit :=
if has_errors st then st
else
  let st := with_nodes st (nodes st + 1) in
  if maxNodes limits <? nodes st
  then pushError (exceeds "Request exceeds maximum node budget of " (maxNodes limits)) path st
  else if maxDepth limits <? depth
  then pushError (exceeds "Request exceeds maximum depth of " (maxDepth limits)) path st
  else
    match current with
    | JArr items =>
        let len := Z.of_nat (length items) in
        let st := if logical_key parentKey then with_logical st (logicalClauses st + len) else st in
        if logical_key parentKey && (maxLogicalClauses limits <? logicalClauses st)
        then pushError (exceeds "Filter exceeds maximum logical clause budget of " (maxLogicalClauses limits)) path st
        else if key_is parentKey "$in" && (maxInValues limits <? len)
        then pushError (exceeds "Filter exceeds maximum $in values of " (maxInValues limits)) path st
        else until_error (λ index item, visit item (path ++ [dec_of_Z (Z.of_nat index)]) (depth + 1) parentKey)
               0 items st
    | JObj true fields =>
        until_error (λ _ entry st,
          let '(key, child) := entry in
          if dangerous_key key then pushError (js "Unsupported key: " ++ key) (path ++ [key]) st
          else
            let st := if is_include key
                      then with_include st (includeCount st +
                             match child with JArr l => Z.of_nat (length l) | _ => 1 end)
                      else st in
            if is_include key && (maxIncludeCount limits <? includeCount st)
            then pushError (exceeds "Request exceeds maximum include count of " (maxIncludeCount limits))
                   (path ++ [key]) st
            else
              let st := if jsstr_eqb key (js "$$sq") then with_sub st (subQueryCount st + 1) else st in
              if jsstr_eqb key (js "$$sq") && (maxSubQueryCount limits <? subQueryCount st)
              then pushError (exceeds "Request exceeds maximum subquery count of " (maxSubQueryCount limits))
                     (path ++ [key]) st
              else visit child (path ++ [key]) (depth + 1) (Some key) st) 0%nat fields st
    | _ => st
    end.
End visit.

Definition validateRequestComplexity (value : jsval) (options : jsval) (scope : ComplexityScope)
    : list ValidationError :=
  let st := visit (resolveRequestComplexity options) scope value [] 0 None (mkVisit None 0 0 0 0) in
  match errors st with Some e => [e] | None => [] end.

(** * What a value costs *)

(** The totals the budgets bound, computed on the value alone. *)
Record Cost := mkCost { c_nodes : Z; c_logical : Z; c_include : Z; c_sub : Z }.
Definition cost_add (a b : Cost) : Cost :=
  mkCost (c_nodes a + c_nodes b) (c_logical a + c_logical b) (c_include a + c_include b) (c_sub a + c_sub b).
Definition cost_zero : Cost := mkCost 0 0 0 0.
Definition cost_sum (l : list Cost) : Cost := foldr cost_add cost_zero l.

Section cost.
Variable (scope : ComplexityScope).

Definition entry_cost (key : jsstr) (child : jsval) : Cost :=
mkCost 0 0 (if is_include scope key then match child with JArr l => Z.of_nat (length l) | _ => 1 end else 0)
  (if jsstr_eqb key (js "$$sq") then 1 else 0).

Fixpoint cost (parentKey : option jsstr) (v : jsval) : Cost :=
cost_add (mkCost 1 0 0 0)
  match v with
  | JArr items =>
      cost_add (mkCost 0 (if logical_key parentKey then Z.of_nat (length items) else 0) 0 0)
        (cost_sum (map (cost parentKey) items))
  | JObj true fields =>
      cost_sum (map (λ kv, cost_add (entry_cost kv.1 kv.2) (cost (Some kv.1) kv.2)) fields)
  | _ => cost_zero
  end.
End cost.

(** No node lies below [depth], every array under [$in] is short enough, and no
    prototype key occurs. *)
Fixpoint shape_ok (limits : Limits) (depth : Z) (parentKey : option jsstr) (v : jsval) : Prop :=
  depth <= maxDepth limits ∧
  match v with
  | JArr items =>
      (key_is parentKey "$in" = true → Z.of_nat (length items) <= maxInValues limits)
      ∧ (fix all l := match l with [] => True | x :: l => shape_ok limits (depth + 1) parentKey x ∧ all l end) items
  | JObj true fields =>
      (fix all l := match l with
                    | [] => True
                    | (k, x) :: l => (dangerous_key k = false ∧ shape_ok limits (depth + 1) (Some k) x) ∧ all l
                    end) fields
  | _ => True
  end.

Definition within (limits : Limits) (c : Cost) : Prop :=
  c_nodes c <= maxNodes limits ∧ c_logical c <= maxLogicalClauses limits
  ∧ c_include c <= maxIncludeCount limits ∧ c_sub c <= maxSubQueryCount limits.

(** * The traversal computes the totals *)

Definition total (st : Visit) : Cost := mkCost (nodes st) (logicalClauses st) (includeCount st) (subQueryCount st).

Definition cost_nonneg (c : Cost) : Prop := 0 <= c_nodes c ∧ 0 <= c_logical c ∧ 0 <= c_include c ∧ 0 <= c_sub c.

Lemma cost_add_assoc a b c : cost_add a (cost_add b c) = cost_add (cost_add a b) c.
Proof. unfold cost_add. f_equal; cbn; lia. Qed.
Lemma cost_add_zero a : cost_add a cost_zero = a.
Proof. destruct a. unfold cost_add. cbn. f_equal; lia. Qed.
Lemma cost_add_nonneg a b : cost_nonneg a → cost_nonneg b → cost_nonneg (cost_add a b).
Proof. unfold cost_nonneg. cbn. lia. Qed.
Lemma cost_sum_nonneg l : Forall cost_nonneg l → cost_nonneg (cost_sum l).
Proof. induction 1; [done|]. by apply cost_add_nonneg. Qed.
Lemma within_add limits a b : cost_nonneg b → within limits (cost_add a b) → within limits a.
Proof. unfold cost_nonneg, within. cbn. lia. Qed.

Lemma cost_is_nonneg scope pk v : cost_nonneg (cost scope pk v).
Proof.
  revert pk. induction v as [| | | | |items IH|p fs IH| |] using jsval_ind'; intros pk; try done; cbn [cost].
  - apply cost_add_nonneg; [done|]. apply cost_add_nonneg.
    + unfold cost_nonneg. cbn. case_match; lia.
    + apply cost_sum_nonneg, Forall_map. eapply Forall_impl; [exact IH|]. cbn. auto.
  - apply cost_add_nonneg; [done|]. destruct p; [|done].
    apply cost_sum_nonneg, Forall_map. eapply Forall_impl; [exact IH|]. intros [k x] Hx. cbn [fst snd].
    apply cost_add_nonneg; [|apply Hx]. unfold entry_cost, cost_nonneg. cbn. repeat case_match; lia.
Qed.

(** [step] costs [c] and succeeds exactly when [ok] holds and the budget allows it. *)
Definition accounts (limits : Limits) (step : Visit → Visit) (ok : Prop) (c : Cost) : Prop :=
  ∀ st, errors st = None → within limits (total st) →
    (errors (step st) = None ↔ ok ∧ within limits (cost_add (total st) c))
    ∧ (errors (step st) = None → total (step st) = cost_add (total st) c).

#[export] Instance accounts_proper limits step : Proper (iff ==> eq ==> iff) (accounts limits step).
Proof. intros P Q HPQ c ? <-. unfold accounts. by setoid_rewrite HPQ. Qed.

Lemma until_error_accounts {A} limits (f : nat → A → Visit → Visit) (ok : A → Prop) (c : A → Cost) l :
  (∀ i x, x ∈ l → accounts limits (f i x) (ok x) (c x)) → (∀ x, cost_nonneg (c x)) →
  ∀ i, accounts limits (until_error f i l) (Forall ok l) (cost_sum (map c l)).
Proof.
  intros Hf Hc. induction l as [|x l IH]; intros i st Hst Hw; cbn [until_error map cost_sum foldr].
  { change (foldr _ _ _) with cost_zero. rewrite cost_add_zero. rewrite Forall_nil. tauto. }
  destruct (Hf i x ltac:(apply elem_of_cons; by left) st Hst Hw) as [H1 H2].
  assert (cost_nonneg (cost_sum (map c l))) as Hrest by (apply cost_sum_nonneg, Forall_map, Forall_true; done).
  change (foldr cost_add cost_zero (map c l)) with (cost_sum (map c l)). rewrite Forall_cons.
  cbn zeta. unfold has_errors. destruct (errors (f i x st)) as [e|] eqn:E; rewrite ?E.
  - split; [|done]. split; [done|]. intros [[Hok _] Hwi]. exfalso. enough (Some e = None) by done.
    apply H1. split; [done|]. rewrite cost_add_assoc in Hwi. by eapply within_add.
  - destruct (proj1 H1 eq_refl) as [Hok Hwx]. specialize (H2 eq_refl).
    destruct (IH ltac:(intros; apply Hf, elem_of_cons; by right) (S i) (f i x st) E) as [H3 H4]; [by rewrite H2|].
    rewrite H2, <- cost_add_assoc in *. split; [|exact H4]. rewrite H3. tauto.
Qed.

Lemma push_error_fails detail path st : errors st = None → errors (pushError detail path st) ≠ None.
Proof. unfold pushError. by intros ->. Qed.

Lemma shape_items limits d pk items : 
  (fix all l := match l with [] => True | x :: l => shape_ok limits d pk x ∧ all l end) items
  ↔ Forall (shape_ok limits d pk) items.
Proof. induction items; [by rewrite Forall_nil|]. by rewrite Forall_cons, <- IHitems. Qed.

Lemma shape_fields limits d fs :
  (fix all l := match l with
                | [] => True
                | (k, x) :: l => (dangerous_key k = false ∧ shape_ok limits d (Some k) x) ∧ all l
                end) fs
  ↔ Forall (λ kv, dangerous_key kv.1 = false ∧ shape_ok limits d (Some kv.1) kv.2) fs.
Proof. induction fs as [|[k x] fs IH]; [by rewrite Forall_nil|]. by rewrite Forall_cons, <- IH. Qed.

Section visit_lemmas.
Variable (limits : Limits) (scope : ComplexityScope).
Notation walk := (visit limits scope).
Notation accounts := (accounts limits).

(** A branch that pushes an error: what is left is that it had to. *)
Ltac push_error :=
match goal with |- context [pushError ?d ?p ?s] =>
  let H := fresh in
  assert (errors (pushError d p s) ≠ None) as H by (apply push_error_fails; assumption);
  split; [|intros ?; by destruct H]; split; [intros ?; by destruct H|]; clear H
end.

Lemma entry_accounts path d key child :
  (∀ path d pk, accounts (walk child path d pk) (shape_ok limits d pk child) (cost scope pk child)) →
  accounts (λ st,
    if dangerous_key key then pushError (js "Unsupported key: " ++ key) (path ++ [key]) st
    else
      let st := if is_include scope key
                then with_include st (includeCount st +
                       match child with JArr l => Z.of_nat (length l) | _ => 1 end)
                else st in
      if is_include scope key && (maxIncludeCount limits <? includeCount st)
      then pushError (exceeds "Request exceeds maximum include count of " (maxIncludeCount limits))
             (path ++ [key]) st
      else
        let st := if jsstr_eqb key (js "$$sq") then with_sub st (subQueryCount st + 1) else st in
        if jsstr_eqb key (js "$$sq") && (maxSubQueryCount limits <? subQueryCount st)
        then pushError (exceeds "Request exceeds maximum subquery count of " (maxSubQueryCount limits))
               (path ++ [key]) st
        else walk child (path ++ [key]) (d + 1) (Some key) st)
  (dangerous_key key = false ∧ shape_ok limits (d + 1) (Some key) child)
  (cost_add (entry_cost scope key child) (cost scope (Some key) child)).
Proof.
  intros IH st Hst Hw. pose proof (cost_is_nonneg scope (Some key) child) as Hn.
  destruct (dangerous_key key).
  { push_error. by intros [[? _] _]. }
  cbn zeta. set (ni := if is_include scope key then match child with JArr l => Z.of_nat (length l) | _ => 1 end else 0).
  set (st1 := if is_include scope key then with_include st _ else st).
  assert (errors st1 = None ∧ total st1 = cost_add (total st) (mkCost 0 0 ni 0)) as [Hst1 Ht1].
  { unfold st1, ni, cost_add, total. destruct (is_include scope key); cbn; split; try done; f_equal; lia. }
  set (ns := if jsstr_eqb key (js "$$sq") then 1 else 0).
  assert (entry_cost scope key child = cost_add (mkCost 0 0 ni 0) (mkCost 0 0 0 ns)) as ->.
  { unfold entry_cost, cost_add. cbn. f_equal; lia. }
  assert (0 <= ns) as Hns by (unfold ns; case_match; lia).
  destruct (is_include scope key && (maxIncludeCount limits <? includeCount st1)) eqn:Ei.
  { apply andb_true_iff in Ei as [_ Ei%Z.ltb_lt]. push_error. intros [_ Hwi]. exfalso.
    assert (includeCount st1 = includeCount st + ni) as E by (change (c_include (total st1) = includeCount st + ni); by rewrite Ht1).
    unfold within, cost_nonneg in *. cbn in *. lia. }
  assert (within limits (total st1)) as Hw1.
  { rewrite Ht1. unfold within in *. cbn in *. split_and!; try lia. apply andb_false_iff in Ei as [Ei|Ei%Z.ltb_ge].
    - unfold ni. rewrite Ei. lia.
    - change (includeCount st1) with (c_include (total st1)) in Ei. rewrite Ht1 in Ei. cbn in Ei. lia. }
  set (st2 := if jsstr_eqb key (js "$$sq") then with_sub st1 _ else st1).
  assert (errors st2 = None ∧ total st2 = cost_add (total st1) (mkCost 0 0 0 ns)) as [Hst2 Ht2].
  { unfold st2, ns, cost_add, total. destruct (jsstr_eqb key (js "$$sq")); cbn; split; try done; f_equal; lia. }
  destruct (jsstr_eqb key (js "$$sq") && (maxSubQueryCount limits <? subQueryCount st2)) eqn:Es.
  { apply andb_true_iff in Es as [_ Es%Z.ltb_lt]. push_error. intros [_ Hwi]. exfalso.
    change (subQueryCount st2) with (c_sub (total st2)) in Es. rewrite Ht2, Ht1 in Es.
    unfold within, cost_nonneg in *. cbn in *. lia. }
  assert (within limits (total st2)) as Hw2.
  { rewrite Ht2. unfold within in *. cbn in *. split_and!; try lia. apply andb_false_iff in Es as [Es|Es%Z.ltb_ge].
    - unfold ns. rewrite Es. lia.
    - change (subQueryCount st2) with (c_sub (total st2)) in Es. rewrite Ht2 in Es. cbn in Es. lia. }
  destruct (IH (path ++ [key]) (d + 1) (Some key) st2 Hst2 Hw2) as [H1 H2].
  rewrite Ht2, Ht1, <- !cost_add_assoc in H1. rewrite Ht2, Ht1, <- !cost_add_assoc in H2.
  rewrite <- !cost_add_assoc. split; [|exact H2]. rewrite H1. tauto.
Qed.

(** Entering a node: the node budget and the depth. *)
Lemma enter_accounts (k : Visit → Visit) ok c path d : accounts k ok c → cost_nonneg c →
  accounts (λ st,
    if has_errors st then st
    else
      let st := with_nodes st (nodes st + 1) in
      if maxNodes limits <? nodes st
      then pushError (exceeds "Request exceeds maximum node budget of " (maxNodes limits)) path st
      else if maxDepth limits <? d
      then pushError (exceeds "Request exceeds maximum depth of " (maxDepth limits)) path st
      else k st)
  (d <= maxDepth limits ∧ ok) (cost_add (mkCost 1 0 0 0) c).
Proof.
  intros Hk Hc st Hst Hw. unfold has_errors. rewrite Hst. cbn zeta. set (st1 := with_nodes st (nodes st + 1)).
  assert (errors st1 = None) as Hst1 by exact Hst.
  assert (total st1 = cost_add (total st) (mkCost 1 0 0 0)) as Ht1.
  { unfold st1, cost_add, total. cbn. f_equal; lia. }
  assert (nodes st1 = nodes st + 1) as Hn by done.
  destruct (Z.ltb_spec (maxNodes limits) (nodes st1)) as [Hover|Hnode].
  { push_error. intros [_ Hwi]. unfold within, cost_nonneg in *. cbn in *. lia. }
  destruct (Z.ltb_spec (maxDepth limits) d) as [Hdeep|Hdepth].
  { push_error. intros [[? _] _]. lia. }
  destruct (Hk st1 Hst1) as [H1 H2].
  { rewrite Ht1. unfold within in *. cbn in *. lia. }
  rewrite Ht1, <- cost_add_assoc in H1. rewrite Ht1, <- cost_add_assoc in H2.
  split; [|exact H2]. rewrite H1. tauto.
Qed.

(** Entering an array: the clause and value budgets. *)
Lemma array_accounts (k : Visit → Visit) ok c path pk (items : list jsval) : accounts k ok c → cost_nonneg c →
  accounts (λ st,
    let len := Z.of_nat (length items) in
    let st := if logical_key pk then with_logical st (logicalClauses st + len) else st in
    if logical_key pk && (maxLogicalClauses limits <? logicalClauses st)
    then pushError (exceeds "Filter exceeds maximum logical clause budget of " (maxLogicalClauses limits)) path st
    else if key_is pk "$in" && (maxInValues limits <? len)
    then pushError (exceeds "Filter exceeds maximum $in values of " (maxInValues limits)) path st
    else k st)
  ((key_is pk "$in" = true → Z.of_nat (length items) <= maxInValues limits) ∧ ok)
  (cost_add (mkCost 0 (if logical_key pk then Z.of_nat (length items) else 0) 0 0) c).
Proof.
  intros Hk Hc st Hst Hw. cbn zeta. set (nl := if logical_key pk then Z.of_nat (length items) else 0).
  set (st1 := if logical_key pk then with_logical st _ else st).
  assert (errors st1 = None ∧ total st1 = cost_add (total st) (mkCost 0 nl 0 0)) as [Hst1 Ht1].
  { unfold st1, nl, cost_add, total. destruct (logical_key pk); cbn; split; try done; f_equal; lia. }
  assert (logicalClauses st1 = logicalClauses st + nl) as Hn.
  { change (c_logical (total st1) = logicalClauses st + nl). by rewrite Ht1. }
  destruct (logical_key pk && (maxLogicalClauses limits <? logicalClauses st1)) eqn:El.
  { apply andb_true_iff in El as [_ El%Z.ltb_lt]. push_error. intros [_ Hwi].
    unfold within, cost_nonneg in *. cbn in *. lia. }
  destruct (key_is pk "$in" && (maxInValues limits <? Z.of_nat (length items))) eqn:Ei.
  { apply andb_true_iff in Ei as [Ek Ei%Z.ltb_lt]. push_error. intros [[Hin _] _]. specialize (Hin Ek). lia. }
  destruct (Hk st1 Hst1) as [H1 H2].
  { rewrite Ht1. unfold within in *. cbn in *. split_and!; try lia. apply andb_false_iff in El as [El|El%Z.ltb_ge].
    - unfold nl. rewrite El. lia.
    - lia. }
  rewrite Ht1, <- cost_add_assoc in H1. rewrite Ht1, <- cost_add_assoc in H2.
  split; [|exact H2]. rewrite H1. apply andb_false_iff in Ei. rewrite Z.ltb_ge in Ei.
  split; [|tauto]. intros [? ?]. split; [|done]. split; [|done]. destruct Ei as [->|?]; [done|tauto].
Qed.

Lemma leaf_accounts : accounts (λ st, st) True cost_zero.
Proof. intros st Hst Hw. rewrite cost_add_zero. tauto. Qed.

Lemma visit_accounts v : ∀ path d pk, accounts (walk v path d pk) (shape_ok limits d pk v) (cost scope pk v).
Proof.
  induction v as [| | | | |items IH|p fs IH| |] using jsval_ind'; intros path d pk;
    try (apply (enter_accounts (λ st, st) True cost_zero path d); [apply leaf_accounts|done]).
  - set (walk_items := until_error (λ index item, walk item (path ++ [dec_of_Z (Z.of_nat index)]) (d + 1) pk) 0 items).
    assert (accounts walk_items (Forall (shape_ok limits (d + 1) pk) items)
      (cost_sum (map (cost scope pk) items))) as Hitems.
    { apply until_error_accounts; [|apply cost_is_nonneg]. intros i x Hx. rewrite Forall_forall in IH. by apply IH. }
    assert (cost_nonneg (cost_sum (map (cost scope pk) items))) as Hn.
    { apply cost_sum_nonneg, Forall_map, Forall_true, cost_is_nonneg. }
    pose proof (array_accounts walk_items _ _ path pk items Hitems Hn) as Ha. rewrite <- shape_items in Ha.
    refine (enter_accounts _ _ _ path d Ha _). apply cost_add_nonneg; [|done].
    unfold cost_nonneg. cbn. case_match; lia.
  - destruct p; [|apply (enter_accounts (λ st, st) True cost_zero path d); [apply leaf_accounts|done]].
    refine (enter_accounts _ _ _ path d _ _).
    + rewrite shape_fields.
      eapply (until_error_accounts limits _ (λ kv, dangerous_key kv.1 = false ∧ shape_ok limits (d + 1) (Some kv.1) kv.2)
        (λ kv, cost_add (entry_cost scope kv.1 kv.2) (cost scope (Some kv.1) kv.2)) fs).
      * intros i [key child] Hx. rewrite Forall_forall in IH. cbn [fst snd].
        apply entry_accounts. apply (IH (key, child)). done.
      * intros [key child]. cbn [fst snd]. apply cost_add_nonneg; [|apply cost_is_nonneg].
        unfold entry_cost, cost_nonneg. cbn. repeat case_match; lia.
    + apply cost_sum_nonneg, Forall_map, Forall_true. intros [key child]. cbn [fst snd].
      apply cost_add_nonneg; [|apply cost_is_nonneg]. unfold entry_cost, cost_nonneg. cbn. repeat case_match; lia.
Qed.
End visit_lemmas.

(** * Properties *)

Lemma normalize_positive value fallback : 0 < fallback → 0 < normalizePositiveInteger value fallback.
Proof.
  intros Hf. unfold normalizePositiveInteger. destruct value; try done. destruct (safe_integer n); [|done].
  by destruct (Z.ltb_spec 0 z).
Qed.

(** Whatever the configuration, the limits in force are positive. *)
Lemma limits_positive options :
  let l := resolveRequestComplexity options in
  0 < maxDepth l ∧ 0 < maxNodes l ∧ 0 < maxLogicalClauses l ∧ 0 < maxInValues l ∧ 0 < maxIncludeCount l
  ∧ 0 < maxSubQueryCount l.
Proof. cbn. split_and!; by apply normalize_positive. Qed.

(** C40: The validation is exact: a value passes iff no node is too deep, no prototype
    key occurs, every [$in] array is short enough, and the node, logical-clause,
    include and subquery totals of the whole value, subquery payloads included, are
    within the limits in force; otherwise exactly one error is reported. *)
Theorem complexity_exact (value options : jsval) (scope : ComplexityScope) :
  let limits := resolveRequestComplexity options in
  (validateRequestComplexity value options scope = []
   ↔ shape_ok limits 0 None value ∧ within limits (cost scope None value))
  ∧ (length (validateRequestComplexity value options scope) <= 1)%nat.
Proof.
  cbn zeta. unfold validateRequestComplexity. set (limits := resolveRequestComplexity options).
  pose proof (limits_positive options) as Hpos. cbn zeta in Hpos. fold limits in Hpos. clearbody limits.
  destruct (visit_accounts limits scope value [] 0 None (mkVisit None 0 0 0 0) eq_refl) as [H _].
  { unfold within. cbn. split_and!; lia. }
  assert (cost_add (total (mkVisit None 0 0 0 0)) (cost scope None value) = cost scope None value) as Hz.
  { unfold cost_add. cbn. by destruct (cost scope None value). }
  rewrite Hz in H. rewrite <- H. destruct (errors _) as [e|]; (split; [by split|cbn; lia]).
Qed.
