(* ===== verification/AccessSort.v ===== *)
(** access-router, [helpers/sort-policy.ts]: client sort input against the fields a
    caller may sort by. *)

From S2P Require Import Prelude JsValue JsJson JsMap AccessRules.

(** [Sort | Map<string, SortOrder>]: any JSON value, or a [Map]. *)
Inductive SortInput := SortValue (v : jsval) | SortMap (m : jsmap jsval).

Inductive SortDirection := asc | desc.
Record NormalizedSortField := mkSortField { sf_field : jsstr; sf_direction : SortDirection }.

Definition validSortOrders : list jsval :=
  [JNum (num_of_Z 1); JNum (num_of_Z (-1)); JStr (js "asc"); JStr (js "ascending"); JStr (js "desc");
   JStr (js "descending")].

(** [[A-Za-z_][A-Za-z0-9_$]*], [.]-separated *)
Definition field_segment (w : jsstr) : bool :=
  match w with
  | [] => false
  | c :: w => (is_alpha c || (c =? 95)) && all_units (λ c, is_alnum c || (c =? 95) || (c =? 36)) w
  end.
Definition fieldPathPattern (s : jsstr) : bool := forallb field_segment (split_on 46 s).

Definition sortDirection (order : jsval) : SortDirection :=
  if js_strict_eq order (JNum (num_of_Z (-1))) || js_strict_eq order (JStr (js "desc"))
     || js_strict_eq order (JStr (js "descending"))
  then desc else asc.

(** [sortError(detail)]: the pointer is always [#/sort]. *)
Record SortValidationError := mkSortError { se_detail : jsstr }.
Definition se_pointer (_ : SortValidationError) : jsstr := js "#/sort".
Definition sortError (detail : jsstr) : SortValidationError := mkSortError detail.

Definition isValidFieldPath (field : jsval) : bool :=
  match field with JStr s => fieldPathPattern s | _ => false end.

Definition isFieldAllowed (field : jsstr) (allowedFields : list jsstr) : bool :=
  existsb (jsstr_eqb field) (allowedFields ++ [js "id"; js "_id"]).

(** [isVirtualPath] may throw, which keeps the field. *)
Definition excludeVirtualsFromAllowedSortFields (allowedFields : list jsstr) (isVirtualPath : jsstr → result unit bool)
    : list jsstr :=
  List.filter (λ f, match isVirtualPath f with Ok b => negb b | Err _ => true end) allowedFields.

(** [s.split(/\s+/)] *)
Fixpoint split_spaces (s : jsstr) : list jsstr :=
  match s with
  | [] => [[]]
  | d :: s' =>
      if is_space d then
        match s' with
        | e :: _ => if is_space e then split_spaces s' else [] :: split_spaces s'
        | [] => [[]; []]
        end
      else match split_spaces s' with
           | w :: ws => (d :: w) :: ws
           | [] => [[d]]
           end
  end.

(** One whitespace-separated word: its field and direction. *)
Definition word_field (raw : jsstr) : NormalizedSortField :=
  match raw with
  | 45 :: field => mkSortField field desc
  | _ => mkSortField raw asc
  end.

Definition valid_field (f : NormalizedSortField) : bool := fieldPathPattern (sf_field f).

Definition normalize_string (s : jsstr) : list NormalizedSortField * list SortValidationError :=
  let raws := List.filter (λ w, negb (jsstr_eqb w [])) (split_spaces (trim s)) in
  let errors := map (λ raw, sortError (js "Invalid sort field: " ++ raw))
                  (List.filter (λ raw, negb (valid_field (word_field raw))) raws) in
  (match errors with [] => map word_field raws | _ => [] end, errors).

(** The entries of a sort that is not a string (a [Sort] is never a [Uint8Array]). *)
Definition sort_entries (sort : SortInput) : list jsval :=
  match sort with
  | SortMap m => map (λ kv, JArr [JStr kv.1; kv.2]) m
  | SortValue (JArr l) => l
  | SortValue (JObj _ fs) => map (λ kv, JArr [JStr kv.1; kv.2]) fs
  | SortValue _ => []
  end.

(** One turn of the loop over the entries; a [TypeError] of [String(field)] ends it. *)
Definition normalize_entry (entry : jsval) : option (NormalizedSortField + SortValidationError) :=
  match entry with
  | JArr [field; order] =>
      match field with
      | JStr f =>
          if negb (fieldPathPattern f) then Some (inr (sortError (js "Invalid sort field: " ++ f)))
          else if negb (existsb (js_strict_eq order) validSortOrders)
          then Some (inr (sortError (js "Invalid sort order for field: " ++ f)))
          else Some (inl (mkSortField f (sortDirection order)))
      | _ => s ← js_String field; Some (inr (sortError (js "Invalid sort field: " ++ s)))
      end
  | _ => Some (inr (sortError (js "Invalid sort entry: expected [field, order]")))
  end.

Fixpoint normalize_entries (entries : list jsval)
    : option (list NormalizedSortField * list SortValidationError) :=
  match entries with
  | [] => Some ([], [])
  | e :: entries =>
      r ← normalize_entry e;
      '(fields, errors) ← normalize_entries entries;
      Some match r with inl f => (f :: fields, errors) | inr e => (fields, e :: errors) end
  end.

(** [normalizeSort]; [None] is a [TypeError]. *)
Definition normalizeSort (sort : SortInput) : option (list NormalizedSortField * list SortValidationError) :=
  match sort with
  | SortValue JUndef | SortValue JNull | SortValue (JStr []) => Some ([], [])
  | SortValue (JStr s) => Some (normalize_string s)
  | _ =>
      '(fields, errors) ← normalize_entries (sort_entries sort);
      Some (match errors with [] => fields | _ => [] end, errors)
  end.

Definition validateSortFields (sort : SortInput) (allowedFields : list jsstr) : option (list SortValidationError) :=
  '(fields, errors) ← normalizeSort sort;
  Some match errors with
       | [] => map (λ f, sortError (js "Sort field is not allowed: " ++ sf_field f))
                 (List.filter (λ f, negb (isFieldAllowed (sf_field f) allowedFields)) fields)
       | _ => errors
       end.

Definition normalizeSortForOrderBy (sort : SortInput) : option (list jsstr * list SortDirection) :=
  '(fields, _) ← normalizeSort sort;
  Some (map sf_field fields, map sf_direction fields).

Record SanitizedSort := mkSanitized {
  sz_sort : SortInput;
  sz_stripped : list jsstr;
  sz_errors : list SortValidationError
}.

Definition direction_value (d : SortDirection) : jsval := JStr (match d with asc => js "asc" | desc => js "desc" end).
Definition field_word (f : NormalizedSortField) : jsstr :=
  match sf_direction f with desc => 45 :: sf_field f | asc => sf_field f end.

Definition sanitizeSortFields (sort : SortInput) (allowedFields : list jsstr) : option SanitizedSort :=
  '(fields, errors) ← normalizeSort sort;
  Some match errors with
       | _ :: _ => mkSanitized (SortValue JUndef) [] errors
       | [] =>
           let kept := List.filter (λ f, isFieldAllowed (sf_field f) allowedFields) fields in
           let stripped := map sf_field (List.filter (λ f, negb (isFieldAllowed (sf_field f) allowedFields)) fields) in
           match stripped, kept with
           | [], _ => mkSanitized sort stripped []
           | _, [] => mkSanitized (SortValue JUndef) stripped []
           | _, _ =>
               mkSanitized
                 match sort with
                 | SortValue (JStr _) => SortValue (JStr (join_with 32 (map field_word kept)))
                 | SortMap _ => SortMap (foldl (λ m f, map_set m (sf_field f) (direction_value (sf_direction f))) [] kept)
                 | SortValue (JArr _) =>
                     SortValue (JArr (map (λ f, JArr [JStr (sf_field f); direction_value (sf_direction f)]) kept))
                 | _ => SortValue (JObj true
                          (foldl (λ fs f, set_field fs (sf_field f) (direction_value (sf_direction f))) [] kept))
                 end stripped []
           end
       end.

(** * Sanitizing and normalizing agree *)

Lemma split_no_space w : all_units (λ c, negb (is_space c)) w = true → split_spaces w = [w].
Proof.
  unfold all_units. induction w as [|c w IH]; [done|]. cbn. intros [Hc%negb_true_iff Hw]%andb_true_iff.
  by rewrite Hc, IH.
Qed.

Lemma split_space_join w s : all_units (λ c, negb (is_space c)) w = true →
  (∃ c s', s = c :: s' ∧ is_space c = false) → split_spaces (w ++ 32 :: s) = w :: split_spaces s.
Proof.
  intros Hw (c & s' & -> & Hc). induction w as [|d w IH].
  - cbn [app]. change (split_spaces (32 :: c :: s')) with (if is_space c then split_spaces (c :: s') else [] :: split_spaces (c :: s')).
    by rewrite Hc.
  - unfold all_units in Hw. cbn in Hw. apply andb_true_iff in Hw as [Hd%negb_true_iff Hw].
    change ((d :: w) ++ 32 :: c :: s') with (d :: (w ++ 32 :: c :: s')).
    change (split_spaces (d :: ?x)) with (if is_space d then match x with
      | e :: _ => if is_space e then split_spaces x else [] :: split_spaces x | [] => [[]; []] end
      else match split_spaces x with w :: ws => (d :: w) :: ws | [] => [[d]] end).
    rewrite Hd, IH by done. done.
Qed.

(** A word: not empty and without white space. *)
Definition word_ok (w : jsstr) : Prop := w ≠ [] ∧ all_units (λ c, negb (is_space c)) w = true.

Lemma word_head w : word_ok w → ∃ c s, w = c :: s ∧ is_space c = false.
Proof.
  intros [Hne Hw]. destruct w as [|c w]; [done|]. exists c, w. split; [done|].
  unfold all_units in Hw. cbn in Hw. apply andb_true_iff in Hw as [Hc _]. by apply negb_true_iff.
Qed.

Lemma join_head ws : ws ≠ [] → Forall word_ok ws → ∃ c s, join_with 32 ws = c :: s ∧ is_space c = false.
Proof.
  intros Hne Hall. destruct Hall as [|w ws Hw Hall]; [done|]. destruct (word_head w Hw) as (c & s & -> & Hc).
  destruct ws; cbn; eauto.
Qed.

Lemma split_join ws : ws ≠ [] → Forall word_ok ws → split_spaces (join_with 32 ws) = ws.
Proof.
  intros Hne Hall. induction Hall as [|w ws Hw Hall IH]; [done|]. destruct ws as [|w' ws].
  - cbn. by apply split_no_space, Hw.
  - change (join_with 32 (w :: w' :: ws)) with (w ++ 32 :: join_with 32 (w' :: ws)).
    rewrite split_space_join; [by rewrite IH|apply Hw|]. by apply join_head.
Qed.

Lemma join_last ws : ws ≠ [] → Forall word_ok ws → ∃ s c, join_with 32 ws = s ++ [c] ∧ is_space c = false.
Proof.
  intros Hne Hall. induction Hall as [|w ws Hw Hall IH]; [done|]. destruct ws as [|w' ws].
  - cbn. destruct Hw as [Hw0 Hw]. destruct w as [|c s _] using rev_ind; [done|]. exists s, c. split; [done|].
    unfold all_units in Hw. rewrite forallb_app in Hw. apply andb_true_iff in Hw as [_ Hw]. cbn in Hw.
    rewrite andb_true_r in Hw. by apply negb_true_iff.
  - destruct IH as (s & c & E & Hc); [done|]. exists (w ++ 32 :: s), c. split; [|done].
    change (join_with 32 (w :: w' :: ws)) with (w ++ 32 :: join_with 32 (w' :: ws)). rewrite E.
    by rewrite <- app_assoc.
Qed.

Lemma trim_join ws : ws ≠ [] → Forall word_ok ws → trim (join_with 32 ws) = join_with 32 ws.
Proof.
  intros Hne Hall. destruct (join_head ws Hne Hall) as (c & s & E & Hc).
  destruct (join_last ws Hne Hall) as (s' & c' & E' & Hc'). unfold trim, trim_by.
  assert (drop_while is_space (join_with 32 ws) = join_with 32 ws) as -> by (rewrite E; cbn; by rewrite Hc).
  rewrite E', reverse_app. cbn. rewrite Hc'. change (reverse (reverse [c'] ++ reverse s') = s' ++ [c']).
  by rewrite <- reverse_app, reverse_involutive.
Qed.

Lemma segment_unit_not_space c : is_alnum c || (c =? 95) || (c =? 36) = true → is_space c = false.
Proof.
  intros H. destruct (is_space c) eqn:E; [|done]. exfalso. unfold is_space in E. unit_class. lia.
Qed.

Lemma split_units (p : Z → bool) w :
  p 46 = true → forallb (forallb p) (split_on 46 w) = true → all_units p w = true.
Proof.
  intros Hp. unfold all_units. induction w as [|c w IH]; [done|]. cbn [split_on forallb].
  destruct (Z.eqb_spec 46 c) as [<-|Hc]; cbn [forallb].
  - intros H. rewrite Hp. by apply IH.
  - destruct (split_on 46 w) as [|x ws]; cbn [forallb] in *;
      [rewrite !andb_true_iff; intros [[? _] _]; split; [done|by apply IH]|].
    rewrite !andb_true_iff in *. intros [[? ?] ?]. split; [done|]. by apply IH.
Qed.

Lemma segment_units w : field_segment w = true → forallb (λ c, negb (is_space c)) w = true.
Proof.
  unfold field_segment. destruct w as [|c w]; [done|]. intros [Hc Hw]%andb_true_iff. cbn [forallb].
  apply andb_true_iff. split.
  - rewrite segment_unit_not_space; [done|]. unfold is_alnum. rewrite !orb_true_iff in *. tauto.
  - eapply all_units_impl; [|exact Hw]. intros x Hx. by rewrite segment_unit_not_space.
Qed.

Lemma field_word_ok w : fieldPathPattern w = true → word_ok w ∧ head w ≠ Some 45.
Proof.
  unfold fieldPathPattern. intros H. split; [split|].
  - intros ->. done.
  - apply split_units; [done|]. rewrite forallb_forall in *. intros x Hx. by apply segment_units, H.
  - destruct w as [|c w]; [done|]. intros [= ->]. cbn [split_on] in H. change (46 =? 45) with false in H. cbv iota in H.
    destruct (split_on 46 w); done.
Qed.

Lemma printed_word_ok f : valid_field f = true → word_ok (field_word f) ∧ word_field (field_word f) = f.
Proof.
  unfold valid_field. destruct f as [w d]. cbn [sf_field]. intros [[Hne Hw] Hh]%field_word_ok.
  unfold field_word. cbn [sf_direction sf_field]. destruct d.
  - split; [done|]. destruct w as [|c w]; [done|]. unfold word_field. destruct (decide (c = 45)) as [->|Hc]; [done|].
    repeat case_match; try done; congruence.
  - split; [|done]. split; [done|]. unfold all_units in *. cbn [forallb]. by rewrite Hw.
Qed.

Lemma filter_all {A} (p : A → bool) l : Forall (λ x, p x = true) l → List.filter p l = l.
Proof. induction 1 as [|x l Hx _ IH]; [done|]. cbn. by rewrite Hx, IH. Qed.
Lemma filter_none {A} (p : A → bool) l : Forall (λ x, p x = false) l → List.filter p l = [].
Proof. induction 1 as [|x l Hx _ IH]; [done|]. cbn. by rewrite Hx, IH. Qed.

Lemma normalize_printed fs : fs ≠ [] → Forall (λ f, valid_field f = true) fs →
  normalize_string (join_with 32 (map field_word fs)) = (fs, []).
Proof.
  intros Hne Hall. assert (Forall word_ok (map field_word fs)) as Hok.
  { apply Forall_map. eapply Forall_impl; [exact Hall|]. intros f Hf. by apply printed_word_ok. }
  assert (map field_word fs ≠ []) as Hne' by by destruct fs.
  unfold normalize_string. rewrite trim_join, split_join by done.
  rewrite (filter_all (λ w, negb (jsstr_eqb w [])) (map field_word fs)).
  2: { eapply Forall_impl; [exact Hok|]. intros w [Hw _]. by rewrite (proj2 (jsstr_eqb_false _ _)). }
  assert (map word_field (map field_word fs) = fs) as Hm.
  { rewrite map_map. clear Hne Hok Hne'. induction Hall as [|f fs Hf _ IH]; [done|]. cbn.
    by rewrite IH, (proj2 (printed_word_ok f Hf)). }
  rewrite filter_none; [by rewrite Hm|]. apply Forall_map. eapply Forall_impl; [exact Hall|]. intros f Hf.
  rewrite (proj2 (printed_word_ok f Hf)), Hf. done.
Qed.

Lemma direction_roundtrip d : existsb (js_strict_eq (direction_value d)) validSortOrders = true
  ∧ sortDirection (direction_value d) = d.
Proof. by destruct d. Qed.

Lemma normalize_pairs fs : Forall (λ f, valid_field f = true) fs →
  normalize_entries (map (λ f, JArr [JStr (sf_field f); direction_value (sf_direction f)]) fs) = Some (fs, []).
Proof.
  induction 1 as [|f fs Hf _ IH]; [done|]. cbn [map normalize_entries normalize_entry].
  unfold valid_field in Hf. rewrite Hf. cbn [negb]. destruct (direction_roundtrip (sf_direction f)) as [-> ->].
  cbn [negb mbind option_bind]. rewrite IH. cbn. by destruct f.
Qed.

Lemma map_set_fresh {A} (m : jsmap A) k v : k ∉ map fst m → map_set m k v = m ++ [(k, v)].
Proof.
  induction m as [|[k' v'] m IH]; [done|]. cbn. rewrite not_elem_of_cons. intros [Hne Hm].
  rewrite (proj2 (jsstr_eqb_false _ _)) by done. by rewrite IH.
Qed.

Lemma field_not_index w : fieldPathPattern w = true → array_index w = None.
Proof.
  intros H. destruct w as [|c w]; [done|]. unfold fieldPathPattern in H. cbn [split_on] in H.
  destruct (46 =? c); [done|]. assert (is_digit c = false) as Hc.
  { destruct (is_digit c) eqn:E; [|done]. exfalso.
    assert (is_alpha c || (c =? 95) = true) as Ha.
    { destruct (split_on 46 w); cbn in H; by bool_prop. }
    unfold is_alpha in Ha. unit_class. lia. }
  unfold array_index. destruct (decide (c = 48)) as [->|]; [done|].
  assert (all_units is_digit (c :: w) = false) as Hd by (unfold all_units; cbn; by rewrite Hc).
  repeat case_match; try done; simplify_eq; rewrite Hd in *; by bool_prop.
Qed.

Lemma insert_field_last {A} (fs : list (jsstr * A)) k v :
  array_index k = None → insert_field fs k v = fs ++ [(k, v)].
Proof. intros Hk. induction fs as [|[k' v'] fs IH]; [done|]. cbn [insert_field]. rewrite Hk, IH. done. Qed.

Lemma set_field_fresh {A} (fs : list (jsstr * A)) k v : array_index k = None → k ∉ map fst fs →
  set_field fs k v = fs ++ [(k, v)].
Proof.
  intros Hi Hk. unfold set_field. assert (field_lookup fs k = None) as ->; [|by apply insert_field_last].
  clear Hi. induction fs as [|[k' v'] fs IH]; [done|]. cbn in *. apply not_elem_of_cons in Hk as [Hne Hk].
  rewrite (proj2 (jsstr_eqb_false _ _)) by done. auto.
Qed.

(** Adding pairs with new keys one by one appends them. *)
Lemma foldl_fresh {A B} (add : list (jsstr * A) → B → list (jsstr * A)) (g : B → jsstr * A) (l : list B) acc :
  (∀ m f, f ∈ l → (g f).1 ∉ map fst m → add m f = m ++ [g f]) →
  NoDup (map fst acc ++ map (λ f, (g f).1) l) → foldl add acc l = acc ++ map g l.
Proof.
  intros Hadd. revert acc. induction l as [|f l IH]; intros acc Hnd; [cbn; by rewrite app_nil_r|].
  cbn [map foldl] in *. apply NoDup_app in Hnd as (H1 & H2 & [H3 H4]%NoDup_cons).
  rewrite Hadd; [|apply elem_of_cons; by left|intros Hin; apply (H2 _ Hin), elem_of_cons; by left].
  rewrite IH; [by rewrite <- app_assoc| |].
  - intros m f' Hf'. apply Hadd, elem_of_cons. by right.
  - rewrite map_app. cbn. rewrite <- app_assoc. apply NoDup_app. split_and!; [done| |].
    + intros x Hx Hin. apply (H2 x Hx). exact Hin.
    + apply NoDup_cons. split; [exact H3|exact H4].
Qed.

Definition pair_of (f : NormalizedSortField) : jsstr * jsval := (sf_field f, direction_value (sf_direction f)).

Lemma rebuild_map fs : NoDup (map sf_field fs) →
  foldl (λ m f, map_set m (sf_field f) (direction_value (sf_direction f))) [] fs = map pair_of fs.
Proof.
  intros Hnd. apply (foldl_fresh _ pair_of fs []); [|exact Hnd]. intros m f _ Hm. by apply map_set_fresh.
Qed.

Lemma rebuild_object fs : Forall (λ f, valid_field f = true) fs → NoDup (map sf_field fs) →
  foldl (λ l f, set_field l (sf_field f) (direction_value (sf_direction f))) [] fs = map pair_of fs.
Proof.
  intros Hall Hnd. apply (foldl_fresh _ pair_of fs []); [|exact Hnd]. intros m f Hf Hm.
  apply set_field_fresh; [|exact Hm]. rewrite Forall_forall in Hall. apply field_not_index. by apply Hall.
Qed.

Lemma normalize_pair_entries fs : Forall (λ f, valid_field f = true) fs →
  normalize_entries (map (λ kv, JArr [JStr kv.1; kv.2]) (map pair_of fs)) = Some (fs, []).
Proof. intros H. rewrite map_map. by apply normalize_pairs. Qed.

Lemma normalize_entries_valid entries fields : normalize_entries entries = Some (fields, []) →
  Forall (λ f, valid_field f = true) fields
  ∧ ∀ m : jsmap jsval, entries = map (λ kv, JArr [JStr kv.1; kv.2]) m → map sf_field fields = map fst m.
Proof.
  revert fields. induction entries as [|e entries IH]; intros fields H.
  { injection H as <-. split; [constructor|]. by intros [|??]. }
  cbn [normalize_entries] in H. destruct (normalize_entry e) as [r|] eqn:Er; [|done]. cbn [mbind option_bind] in H.
  destruct (normalize_entries entries) as [[fields' errors']|]; [|done]. cbn [mbind option_bind] in H.
  destruct r as [f|err]; [|done]. injection H as <- ->. destruct (IH fields' eq_refl) as [H1 H2].
  assert (valid_field f = true ∧ ∀ k v, e = JArr [JStr k; v] → sf_field f = k) as [Hf Hk].
  { clear -Er. unfold normalize_entry in Er. destruct e as [| | | | |[|field [|order [|? ?]]]| | |]; try discriminate Er.
    destruct field as [| | | |s| | | |]; try (by destruct (js_String _)).
    destruct (fieldPathPattern s) eqn:Es; [|done]. cbn [negb] in Er.
    destruct (existsb _ validSortOrders); [|done]. injection Er as <-. split; [done|]. by intros k v [= -> _]. }
  split; [by constructor|]. intros [|[k v] m] Hm; [done|]. injection Hm as He Hm. cbn. by rewrite (Hk k v He), (H2 m Hm).
Qed.

(** The keys of a [Map] or an object are unique. *)
Definition unique_keys (sort : SortInput) : Prop :=
  match sort with
  | SortMap m => NoDup (map fst m)
  | SortValue (JObj _ fs) => NoDup (map fst fs)
  | _ => True
  end.

Lemma normalize_valid sort fields : normalizeSort sort = Some (fields, []) → Forall (λ f, valid_field f = true) fields.
Proof.
  assert (∀ entries, ('(fields, errors) ← normalize_entries entries;
    Some (match errors with [] => fields | _ => [] end, errors)) = Some (fields, []) →
    Forall (λ f, valid_field f = true) fields) as Hentries.
  { intros entries H. destruct (normalize_entries entries) as [[fs es]|] eqn:E; [|done]. cbn in H.
    injection H as <- ->. by apply normalize_entries_valid in E as [? _]. }
  unfold normalizeSort. destruct sort as [v|m]; [|apply Hentries]. destruct v; try apply Hentries.
  1, 2: intros [= <-]; constructor.
  destruct s as [|c s]; [intros [= <-]; constructor|]. set (w := c :: s). unfold normalize_string.
  set (raws := List.filter _ (split_spaces (trim w))). set (bad := List.filter _ raws).
  destruct bad as [|b bad'] eqn:Eb; [|done]. intros [= <-]. apply Forall_map, Forall_forall. intros raw Hraw.
  destruct (valid_field (word_field raw)) eqn:E; [done|]. exfalso.
  assert (raw ∈ bad) as Hin; [|rewrite Eb in Hin; inversion Hin].
  apply list_elem_of_In, filter_In. split; [by apply list_elem_of_In|by rewrite E].
Qed.

Lemma kept_nodup (p : NormalizedSortField → bool) fs : NoDup (map sf_field fs) → NoDup (map sf_field (List.filter p fs)).
Proof.
  induction fs as [|f fs IH]; [done|]. cbn. rewrite NoDup_cons. intros [Hf Hnd]. destruct (p f); [|by apply IH].
  cbn. apply NoDup_cons. split; [|by apply IH]. intros Hin. apply Hf. apply list_elem_of_In, in_map_iff in Hin as (g & Hg & Hin).
  apply list_elem_of_In, in_map_iff. exists g. split; [done|]. by apply filter_In in Hin as [? _].
Qed.

Lemma kept_valid (p : NormalizedSortField → bool) fs : Forall (λ f, valid_field f = true) fs →
  Forall (λ f, valid_field f = true) (List.filter p fs).
Proof.
  rewrite !Forall_forall. intros H f Hf%list_elem_of_In. apply filter_In in Hf as [Hf _].
  by apply H, list_elem_of_In.
Qed.

(** The rebuilt sort, in each of the four input shapes, means the kept fields. *)
Definition rebuilt (sort : SortInput) (kept : list NormalizedSortField) : SortInput :=
  match sort with
  | SortValue (JStr _) => SortValue (JStr (join_with 32 (map field_word kept)))
  | SortMap _ => SortMap (foldl (λ m f, map_set m (sf_field f) (direction_value (sf_direction f))) [] kept)
  | SortValue (JArr _) =>
      SortValue (JArr (map (λ f, JArr [JStr (sf_field f); direction_value (sf_direction f)]) kept))
  | _ => SortValue (JObj true
           (foldl (λ fs f, set_field fs (sf_field f) (direction_value (sf_direction f))) [] kept))
  end.

Lemma normalize_rebuilt sort fields (p : NormalizedSortField → bool) :
  unique_keys sort → normalizeSort sort = Some (fields, []) → List.filter p fields ≠ [] →
  normalizeSort (rebuilt sort (List.filter p fields)) = Some (List.filter p fields, []).
Proof.
  intros Huniq Hn Hne. pose proof (kept_valid p _ (normalize_valid _ _ Hn)) as Hvalid.
  set (kept := List.filter p fields) in *.
  assert (NoDup (map sf_field fields) → NoDup (map sf_field kept)) as Hnd by apply kept_nodup.
  assert (∀ m : jsmap jsval, NoDup (map fst m) → ('(fs, es) ← normalize_entries (map (λ kv, JArr [JStr kv.1; kv.2]) m);
    Some (match es with [] => fs | _ => [] end, es)) = Some (fields, []) → NoDup (map sf_field kept)) as Hkeys.
  { intros m Hm H. destruct (normalize_entries _) as [[fs es]|] eqn:E; [|done]. cbn in H. injection H as <- ->.
    apply Hnd. destruct (normalize_entries_valid _ _ E) as [_ Hk]. by rewrite (Hk m eq_refl). }
  destruct sort as [v|m]; [destruct v as [| |b|n|s|l|pl fs|bs|f]|]; cbn [unique_keys rebuilt] in *.
  1, 2: (injection Hn as <-; by destruct Hne).
  1, 2, 6, 7: (cbn in Hn; injection Hn as <-; by destruct Hne).
  - assert (join_with 32 (map field_word kept) ≠ []) as Hj.
    { intros E. pose proof (normalize_printed kept Hne Hvalid) as H. rewrite E in H. injection H as <-. by destruct Hne. }
    unfold normalizeSort. rewrite <- (normalize_printed kept Hne Hvalid). by destruct (join_with 32 _).
  - cbn [normalizeSort sort_entries]. by rewrite normalize_pairs.
  - cbn [normalizeSort sort_entries]. rewrite rebuild_object by (auto; by apply (Hkeys fs)).
    by rewrite normalize_pair_entries.
  - cbn [normalizeSort sort_entries]. rewrite rebuild_map by by apply (Hkeys m). by rewrite normalize_pair_entries.
Qed.

(** Sanitizing is filtering, whatever shape the sort has (string, object, pairs or
    [Map]): the sanitized sort normalizes without error to exactly the allowed fields
    of the original, in order and with their directions, the stripped names are the
    others, and the sanitized sort passes validation. *)
Theorem sort_sanitized (sort : SortInput) (allowed : list jsstr) (fields : list NormalizedSortField) (z : SanitizedSort) :
  unique_keys sort → normalizeSort sort = Some (fields, []) → sanitizeSortFields sort allowed = Some z →
  normalizeSort (sz_sort z) = Some (List.filter (λ f, isFieldAllowed (sf_field f) allowed) fields, [])
  ∧ sz_stripped z = map sf_field (List.filter (λ f, negb (isFieldAllowed (sf_field f) allowed)) fields)
  ∧ sz_errors z = [] ∧ validateSortFields (sz_sort z) allowed = Some [].
Proof.
  intros Huniq Hn Hz. unfold sanitizeSortFields in Hz. rewrite Hn in Hz. cbn [mbind option_bind] in Hz.
  set (p := λ f, isFieldAllowed (sf_field f) allowed) in *. set (kept := List.filter p fields) in *.
  set (q := λ f : NormalizedSortField, negb (isFieldAllowed (sf_field f) allowed)) in *.
  assert (∀ s, normalizeSort s = Some (kept, []) → validateSortFields s allowed = Some []) as Hval.
  { intros s Hs. unfold validateSortFields. rewrite Hs. cbn [mbind option_bind]. fold q. rewrite filter_none; [done|].
    apply Forall_forall. intros f Hf%list_elem_of_In. apply filter_In in Hf as [_ Hf]. unfold p in Hf. unfold q. by rewrite Hf. }
  enough (normalizeSort (sz_sort z) = Some (kept, []) ∧ sz_stripped z = map sf_field (List.filter q fields) ∧ sz_errors z = [])
    as (H1 & H2 & H3) by (split_and!; auto).
  destruct (map sf_field (List.filter q fields)) as [|s0 stripped] eqn:Es.
  - injection Hz as <-. cbn [sz_sort sz_stripped sz_errors]. split_and!; [|done..].
    assert (kept = fields) as ->; [|done]. apply filter_all, Forall_forall. intros f Hf. unfold p.
    destruct (isFieldAllowed (sf_field f) allowed) eqn:E; [done|]. exfalso. apply map_eq_nil in Es.
    assert (f ∈ List.filter q fields) as Hin; [|rewrite Es in Hin; inversion Hin].
    apply list_elem_of_In, filter_In. split; [by apply list_elem_of_In|]. unfold q. by rewrite E.
  - assert (kept ≠ [] → normalizeSort (rebuilt sort kept) = Some (kept, [])) as Hr.
    { intros. by apply normalize_rebuilt. }
    destruct kept as [|k0 kept'] eqn:Ek; injection Hz as <-; cbn [sz_sort sz_stripped sz_errors]; [done|].
    split_and!; [|done..]. by apply Hr.
Qed.

(** * Concrete instance *)

Definition example_sort : SortInput := SortValue (JStr (js "-createdAt secret  name")).
Definition example_sanitized : SanitizedSort :=
  mkSanitized (SortValue (JStr (js "-createdAt name"))) [js "secret"] [].

Lemma sort_sanitized_witness :
  normalizeSort (sz_sort example_sanitized)
    = Some (List.filter (λ f, isFieldAllowed (sf_field f) [js "name"; js "createdAt"])
        [mkSortField (js "createdAt") desc; mkSortField (js "secret") asc; mkSortField (js "name") asc], [])
  ∧ sz_stripped example_sanitized = map sf_field (List.filter (λ f, negb (isFieldAllowed (sf_field f) [js "name"; js "createdAt"]))
        [mkSortField (js "createdAt") desc; mkSortField (js "secret") asc; mkSortField (js "name") asc])
  ∧ sz_errors example_sanitized = []
  ∧ validateSortFields (sz_sort example_sanitized) [js "name"; js "createdAt"] = Some [].
Proof.
  apply (sort_sanitized example_sort [js "name"; js "createdAt"]); [done|vm_compute; reflexivity..].
Defined.
