(* ===== verification/AccessGuard.v ===== *)
(** access-router, [operation-access.ts]: which configured guard protects a route
    operation, and the rejection of removed configuration names. *)

From S2P Require Import Prelude JsValue JsJson AccessRules.

Definition names (l : list string) : list jsstr := map js l.
Definition mem (l : list jsstr) (k : jsstr) : bool := existsb (jsstr_eqb k) l.
(** [set.has(keys[i])], where a missing key is in no set. *)
Definition mem_at (l : list jsstr) (keys : list jsstr) (i : nat) : bool :=
  match keys !! i with Some k => mem l k | None => false end.

Definition operations : list jsstr :=
  names ["new"; "list"; "read"; "create"; "update"; "upsert"; "delete"; "count"; "distinct"]%string.
Definition subOperations : list jsstr := names ["list"; "read"; "create"; "update"; "delete"]%string.
Definition members : list jsstr := names ["default"; "basic"; "advanced"; "root"]%string.

Definition removedAccesses : list jsstr :=
  flat_map (λ operation, [js "basic" ++ operation; js "advanced" ++ operation])
    (names ["List"; "Read"; "Create"; "Update"; "Upsert"; "Count"; "Distinct"]%string).

Definition isRemovedOperationAccess (access : jsstr) : bool := mem removedAccesses access.

Definition isOperationAccessMemberPath (access : jsstr) : bool :=
  let keys := split_on 46 access in
  (mem_at operations keys 0 && mem_at members keys 1)
  || (match keys !! 0%nat with Some k => jsstr_eqb k (js "subs") | None => false end
      && match keys !! 1%nat with Some k => negb (jsstr_eqb k []) | None => true end
      && mem_at subOperations keys 2 && mem_at members keys 3).

Definition isRecord (v : jsval) : bool := match v with JObj true _ => true | _ => false end.

(** [Object.getOwnPropertyDescriptor(value, k)?.value] *)
Definition own_value (v : jsval) (k : jsstr) : option jsval :=
  match v with
  | JObj _ fs => field_lookup fs k
  | JArr l => if jsstr_eqb k (js "length") then Some (JNum (num_of_Z (Z.of_nat (length l))))
              else i ← array_index k; l !! Z.to_nat i
  | JBytes bs => i ← array_index k; b ← bs !! Z.to_nat i; Some (JNum (num_of_Z b))
  | _ => None
  end.

(** [readOwnOption(root, key)] on [key.split('.')]. *)
Fixpoint readOwnOption (value : jsval) (path : list jsstr) : jsval :=
  match path with
  | [] => value
  | part :: path => match own_value value part with Some v => readOwnOption v path | None => JUndef end
  end.

(** [OperationAccessReaders] *)
Record OperationAccessReaders := mkReaders {
  readOption : jsstr → jsval;
  readDefaultOption : option (jsstr → jsval)
}.

Definition createOperationAccessReaders (options defaults : jsval) : OperationAccessReaders :=
  mkReaders (λ key, readOwnOption options (split_on 46 key))
    (if is_undef defaults then None else Some (λ key, readOwnOption defaults (split_on 46 key))).

Definition is_string_value (v : jsval) : bool := match v with JStr _ => true | _ => false end.

(** A [Validation], or [undefined] ([None]); anything malformed denies. *)
Definition scalarGuard (value : jsval) : option jsval :=
  match value with
  | JUndef => None
  | JBool _ | JStr _ | JFun _ => Some value
  | JArr l => if forallb is_string_value l then Some value else Some (JBool false)
  | _ => Some (JBool false)
  end.

Definition operationDefault (value : jsval) : option jsval :=
  match value with
  | JObj true fs =>
      if existsb (λ kv, negb (mem members kv.1)) fs then Some (JBool false)
      else scalarGuard (readOwnOption value [js "default"])
  | _ => scalarGuard value
  end.

(** Only a known operation has an object form with a nested default. *)
Definition operation_guard (supported : bool) (value : jsval) : option jsval :=
  if supported then operationDefault value else scalarGuard value.

(** [if (value !== undefined) return scalarGuard(value)], else [rest] *)
Definition if_defined (value : jsval) (rest : option jsval) : option jsval :=
  if is_undef value then rest else scalarGuard value.

Definition deny : option jsval := Some (JBool false).

Section select.
Variable (r : OperationAccessReaders) (context : option jsstr).

(** [readDefaultOption?.(key)] *)
Definition read_default (key : jsstr) : jsval :=
match readDefaultOption r with Some f => f key | None => JUndef end.
Definition exact (key : jsstr) : jsval :=
match readOption r key with JUndef => read_default key | v => v end.

Definition contextGuard (key : jsstr) (supported : bool) : option jsval :=
match context with
| Some c => if supported then scalarGuard (exact (key ++ 46 :: c)) else None
| None => None
end.

(** The part that looks up the top-level operation [access]. *)
Definition select_operation (access : jsstr) : option jsval :=
let operationKey := js "operationAccess." ++ access in
let supported := mem operations access in
match contextGuard operationKey supported with
| Some selected => Some selected
| None =>
    match operation_guard supported (readOption r operationKey) with
    | Some guard => Some guard
    | None =>
        if_defined (readOption r (js "operationAccess.default"))
          (if_defined (readOption r (js "operationAccess"))
             (operation_guard supported (read_default operationKey)))
    end
end.

Definition selectOperationAccessGuard (baseAccess : jsstr) (subdocuments : bool) : option jsval :=
let keys := split_on 46 baseAccess in
let subs := match keys !! 0%nat with Some k => jsstr_eqb k (js "subs") | None => false end in
if isRemovedOperationAccess baseAccess || isOperationAccessMemberPath baseAccess
   || (subs && mem_at removedAccesses keys 2)
then deny
else if match context with
        | Some c => negb (mem (names ["basic"; "advanced"; "root"]%string) c)
        | None => false
        end
then deny
else if subdocuments && subs then
  match keys with
  | _ :: field :: operation :: rest =>
      if jsstr_eqb field [] then deny
      else
        let fieldKey := js "operationAccess.subs." ++ field in
        let operationKey := js "operationAccess." ++ baseAccess in
        let supported := match rest with [] => mem subOperations operation | _ => false end in
        match contextGuard operationKey supported with
        | Some selected => Some selected
        | None =>
            match operation_guard supported (exact operationKey) with
            | Some guard => Some guard
            | None =>
                if_defined (exact fieldKey) (select_operation operation)
            end
        end
  | _ => deny
  end
else select_operation baseAccess.
End select.

(** [resolveRouteOperationAccess]: no guard denies without evaluating anything. *)
Definition resolveRouteOperationAccess (canActivate : jsval → bool) (r : OperationAccessReaders)
    (context : option jsstr) (baseAccess : jsstr) (subdocuments : bool) : bool :=
  match selectOperationAccessGuard r context baseAccess subdocuments with
  | Some guard => canActivate guard
  | None => false
  end.

(** * Removed names in option updates *)

Definition quoted (s : jsstr) : jsstr := 34 :: s ++ [34].

(** The [TypeError] of [rejectRemovedKey]. *)
Definition rejectRemovedKey (key prefix : jsstr) : result jsstr unit :=
  let context := if starts_with (js "basic") key then js "basic" else js "advanced" in
  let operation := drop (length context) key in
  let replacement := map lower_unit (take 1 operation) ++ drop 1 operation ++ 46 :: context in
  Err (js "Removed operation-access key " ++ quoted (prefix ++ key) ++ js "; use "
       ++ quoted (prefix ++ replacement) ++ js " instead. Move the operation's former scalar guard to its "
       ++ quoted (js "default") ++ js " member when using an object.").

(** A truthy object that is not an array. *)
Definition plain_node (v : jsval) : bool := match v with JObj _ _ | JBytes _ => true | _ => false end.

Definition head_name (key : jsstr) : jsstr := default [] (head (split_on 46 key)).

Definition assertOperationNode (node : jsval) (prefix : jsstr) : result jsstr unit :=
  if negb (plain_node node) then Ok tt
  else
    res_iter (λ key, if mem (object_keys node) key then rejectRemovedKey key prefix else Ok tt) removedAccesses ;;;
    res_iter (λ key, if isRemovedOperationAccess (head_name key) then rejectRemovedKey (head_name key) prefix else Ok tt)
      (object_keys node).

(** [assertOperationAccessUpdate]; it calls itself at most twice below the first call. *)
Fixpoint assertOperationAccessUpdate (fuel : nat) (key : jsstr) (value : jsval) : result jsstr unit :=
  let path := split_on 46 key in
  let at_ i := path !! i in
  if negb (mem_at [js "operationAccess"] path 0) then Ok tt
  else
    match at_ 1%nat with
    | Some p => if isRemovedOperationAccess p then rejectRemovedKey p (js "operationAccess.") else Ok tt
    | None => Ok tt
    end ;;;
    let subs := mem_at [js "subs"] path 1 in
    match at_ 3%nat with
    | Some p => if subs && isRemovedOperationAccess p
                then rejectRemovedKey p (js "operationAccess.subs." ++ default [] (at_ 2%nat) ++ [46]) else Ok tt
    | None => Ok tt
    end ;;;
    match fuel with
    | O => Ok tt
    | S fuel =>
        match length path with
        | 1%nat =>
            assertOperationNode value (js "operationAccess.") ;;;
            (if plain_node value
             then res_iter (λ property,
                    if jsstr_eqb property (js "subs") || starts_with (js "subs.") property
                    then assertOperationAccessUpdate fuel (js "operationAccess." ++ property) (get_field value property)
                    else Ok tt) (object_keys value)
             else Ok tt)
        | 2%nat =>
            if subs && plain_node value
            then res_iter (λ field,
                   assertOperationAccessUpdate fuel (js "operationAccess.subs." ++ field) (get_field value field))
                   (object_keys value)
            else Ok tt
        | 3%nat => if subs then assertOperationNode value (key ++ [46]) else Ok tt
        | _ => Ok tt
        end
    end.

Definition assertOperationAccessOptions (options : jsval) : result jsstr unit :=
  if negb (plain_node options || is_array options) then Ok tt
  else res_iter (λ key,
         if jsstr_eqb key (js "operationAccess") || starts_with (js "operationAccess.") key
         then assertOperationAccessUpdate 3 key (default JUndef (own_value options key)) else Ok tt)
         (object_keys options).

(** * The guard is configured, or denies *)

(** [g] is the value stored at an [operationAccess] path, or its own [default]
    member, in the options or the defaults, and has the shape of a guard. *)
Definition configured (r : OperationAccessReaders) (g : jsval) : Prop :=
  scalarGuard g = Some g ∧
  ∃ key v, starts_with (js "operationAccess") key = true ∧ (v = readOption r key ∨ v = read_default r key)
    ∧ (g = v ∨ g = readOwnOption v [js "default"]).

Definition sound_guard (r : OperationAccessReaders) (o : option jsval) : Prop :=
  ∀ g, o = Some g → g = JBool false ∨ configured r g.

Lemma scalar_guard_value v g : scalarGuard v = Some g → g = JBool false ∨ g = v ∧ scalarGuard g = Some g.
Proof.
  intros H. destruct v; cbn in H; try discriminate H;
    try (injection H as <-; first [by left | right; split; reflexivity]).
  destruct (forallb is_string_value l) eqn:E; injection H as <-; [right|by left]. cbn. by rewrite E.
Qed.

Lemma scalar_sound r key v : starts_with (js "operationAccess") key = true →
  v = readOption r key ∨ v = read_default r key → sound_guard r (scalarGuard v).
Proof.
  intros Hk Hv g [?|[-> Hg]]%scalar_guard_value; [by left|]. right. split; [done|]. exists key, v. auto.
Qed.

Lemma default_sound r key v : starts_with (js "operationAccess") key = true →
  v = readOption r key ∨ v = read_default r key → sound_guard r (operationDefault v).
Proof.
  intros Hk Hv. assert (sound_guard r (scalarGuard v)) as Hs by by eapply scalar_sound.
  destruct v as [| | | | | |[] fs| |]; try exact Hs. cbn [operationDefault].
  destruct (existsb _ fs); [intros g [= <-]; by left|].
  intros g [?|[-> Hg]]%scalar_guard_value; [by left|]. right. split; [done|]. eexists key, _. eauto.
Qed.

Lemma operation_sound r supported key v : starts_with (js "operationAccess") key = true →
  v = readOption r key ∨ v = read_default r key → sound_guard r (operation_guard supported v).
Proof. destruct supported; [apply default_sound|apply scalar_sound]. Qed.

Lemma exact_read r key : exact r key = readOption r key ∨ exact r key = read_default r key.
Proof. unfold exact. destruct (readOption r key); auto. Qed.

Lemma starts_operation k : starts_with (js "operationAccess") (js "operationAccess." ++ k) = true.
Proof. done. Qed.

Lemma context_sound r context key supported : starts_with (js "operationAccess") key = true →
  sound_guard r (contextGuard r context key supported).
Proof.
  intros Hk. unfold contextGuard. destruct context as [c|]; [|by intros g]. destruct supported; [|by intros g].
  eapply (scalar_sound r (key ++ 46 :: c)); [|apply exact_read].
  apply starts_with_spec in Hk as (rest & ->). apply starts_with_spec. exists (rest ++ 46 :: c).
  by rewrite <- app_assoc.
Qed.

(** The first defined guard of two. *)
Lemma sound_or r (a b : option jsval) : sound_guard r a → sound_guard r b →
  sound_guard r (match a with Some g => Some g | None => b end).
Proof. intros Ha Hb. by destruct a. Qed.

Lemma sound_value r key v b : starts_with (js "operationAccess") key = true → v = readOption r key ∨ v = read_default r key →
  sound_guard r b → sound_guard r (if_defined v b).
Proof. intros Hk Hv Hb. unfold if_defined. destruct (is_undef v); [done|]. by eapply scalar_sound. Qed.

Lemma select_operation_sound r context access : sound_guard r (select_operation r context access).
Proof.
  unfold select_operation.
  apply sound_or; [apply context_sound, starts_operation|].
  apply sound_or; [eapply operation_sound; [apply starts_operation|by left]|].
  refine (sound_value r (js "operationAccess.default") (readOption r _) _ _ _ _); [done|by left|].
  refine (sound_value r (js "operationAccess") (readOption r _) _ _ _ _); [done|by left|].
  eapply operation_sound; [apply starts_operation|by right].
Qed.

Lemma select_sound r context access subdocuments : sound_guard r (selectOperationAccessGuard r context access subdocuments).
Proof.
  assert (sound_guard r deny) as Hdeny by (intros g [= <-]; by left).
  unfold selectOperationAccessGuard. destruct (_ || _ || _); [done|]. destruct (match context with Some _ => _ | None => _ end); [done|].
  destruct (subdocuments && _); [|apply select_operation_sound].
  destruct (split_on 46 access) as [|k0 [|field [|operation rest]]]; try done. destruct (jsstr_eqb field []); [done|].
  set (supported := match rest with [] => _ | _ => _ end).
  apply sound_or; [apply context_sound, starts_operation|].
  apply sound_or; [eapply operation_sound; [apply starts_operation|apply exact_read]|].
  refine (sound_value r (js "operationAccess.subs." ++ field) (exact r _) _ _ _ _); [done|apply exact_read|apply select_operation_sound].
Qed.

(** A route is only ever opened by configuration: a selected guard is [false] or a
    well-formed guard found under [operationAccess] (or its [default] member); a
    removed name, a configuration-member path and an unknown entry context are
    denied whatever is configured; and the route opens only if [canActivate] accepts
    a selected guard. *)
Theorem route_guard_sound (canActivate : jsval → bool) (r : OperationAccessReaders) (context : option jsstr)
    (access : jsstr) (subdocuments : bool) :
  (∀ g, selectOperationAccessGuard r context access subdocuments = Some g → g = JBool false ∨ configured r g)
  ∧ (isRemovedOperationAccess access = true ∨ isOperationAccessMemberPath access = true
     ∨ (∃ c, context = Some c ∧ mem (names ["basic"; "advanced"; "root"]%string) c = false) →
     selectOperationAccessGuard r context access subdocuments = Some (JBool false))
  ∧ (resolveRouteOperationAccess canActivate r context access subdocuments = true →
     ∃ g, selectOperationAccessGuard r context access subdocuments = Some g ∧ canActivate g = true).
Proof.
  split_and!; [apply select_sound| |].
  - unfold selectOperationAccessGuard. intros [->|[H|(c & -> & ->)]]; [done| |].
    + by rewrite H, orb_true_r.
    + by destruct (_ || _ || _).
  - unfold resolveRouteOperationAccess. destruct (selectOperationAccessGuard _ _ _ _); [eauto|done].
Qed.
