(* ===== verification/AccessConcurrency.v ===== *)
(** access-router, [helpers/concurrency.ts]: bounded concurrent maps and FIFO
    admission.

    JavaScript runs one continuation at a time: between two suspensions a worker
    or a caller is a state-changing function, and a schedule, the order in which
    suspended promises settle, drives them.  What a callback answers is fixed per
    item and when it answers is up to the schedule, so quantifying over both
    covers every execution. *)

From S2P Require Import Prelude.

(** * mapWithConcurrencyLimit *)

(** A worker suspended at [await iteratee(items[i], i)], or its settled promise. *)
Inductive Worker (E : Type) := Awaiting (i : nat) | Returned | Rejected (e : E).
Arguments Awaiting {E} i.
Arguments Returned {E}.
Arguments Rejected {E} e.

Record MapState (E B : Type) := mkMap {
  cursor : nat;
  failure : option E;         (** [failed] and [failure] *)
  reported : list E;          (** the calls of [onError] *)
  results : gmap nat B;       (** the committed slots of the array *)
  workers : list (Worker E)
}.
Arguments mkMap {E B}.
Arguments cursor {E B}.
Arguments failure {E B}.
Arguments reported {E B}.
Arguments results {E B}.
Arguments workers {E B}.

Definition workerCount (limit : Z) (n : nat) : nat :=
  Z.to_nat (Z.min (Z.max limit 1) (if (n =? 0)%nat then 1 else Z.of_nat n)).

Section bounded_map.
Context {E B : Type}.
(** What the call for item [i] answers, and whether a failing call throws
  before it returns a promise. *)
Variables (outcome : nat → result E B) (throws : nat → bool).
Variable n : nat.
Implicit Types st : MapState E B.

Definition with_workers st ws : MapState E B :=
mkMap (cursor st) (failure st) (reported st) (results st) ws.

(** The [catch] of a worker. *)
Definition record_failure (e : E) st : MapState E B :=
match failure st with
| None => mkMap (cursor st) (Some e) (reported st ++ [e]) (results st) (workers st)
| Some _ => st
end.

(** [Object.defineProperty(results, i, { value: v })] *)
Definition commit (i : nat) (v : B) st : MapState E B :=
mkMap (cursor st) (failure st) (reported st) (<[i := v]> (results st)) (workers st).

(** A worker at the head of its loop, up to its next suspension. *)
Definition loop_head st : Worker E * MapState E B :=
if match failure st with None => (cursor st <? n)%nat | Some _ => false end
then
  let current := cursor st in
  let st := mkMap (S current) (failure st) (reported st) (results st) (workers st) in
  match outcome current with
  | Err e => if throws current then (Rejected e, record_failure e st) else (Awaiting current, st)
  | Ok _ => (Awaiting current, st)
  end
else (Returned, st).

(** [Array.from({ length: workerCount }, async () => ...)] *)
Fixpoint spawn (k : nat) st : MapState E B :=
match k with
| O => st
| S k => let '(w, st) := loop_head st in spawn k (with_workers st (workers st ++ [w]))
end.

Definition started (limit : Z) : MapState E B :=
spawn (workerCount limit n) (mkMap 0 None [] ∅ []).

(** The awaited call of worker [w] settles. *)
Definition resume (w : nat) st : MapState E B :=
match workers st !! w with
| Some (Awaiting i) =>
    let '(x, st) :=
      match outcome i with
      | Ok v => loop_head (commit i v st)
      | Err e => (Rejected e, record_failure e st)
      end in
    with_workers st (<[w := x]> (workers st))
| _ => st
end.

Definition map_run (limit : Z) (schedule : list nat) : MapState E B :=
foldl (λ st w, resume w st) (started limit) schedule.

Definition is_awaiting (w : Worker E) : bool := match w with Awaiting _ => true | _ => false end.
Definition awaiting st : nat := length (List.filter is_awaiting (workers st)).
Definition finished st : bool := forallb (λ w, negb (is_awaiting w)) (workers st).

(** What the returned promise settles to, with [None] for a hole of the array. *)
Definition settled st : option (result E (list (option B))) :=
if finished st
then Some match failure st with
          | Some e => Err e
          | None => Ok (map (λ i, results st !! i) (seq 0 n))
          end
else None.

(** Every step of the schedule resumes a suspended worker. *)
Fixpoint genuine (schedule : list nat) st : bool :=
match schedule with
| [] => true
| w :: schedule =>
    match workers st !! w with
    | Some (Awaiting _) => genuine schedule (resume w st)
    | _ => false
    end
end.

(** ** Invariant *)

Definition awaited_item (w : Worker E) : option nat := match w with Awaiting i => Some i | _ => None end.
Definition awaited (ws : list (Worker E)) : list nat := omap awaited_item ws.

(** The items below the cursor have been called; each of them is awaited by one
  worker ([aw] lists them), committed, or failed. *)
Record calls_ok (aw : list nat) st : Prop := {
ok_cursor : (cursor st <= n)%nat;
ok_distinct : NoDup aw;
ok_awaited : ∀ i, i ∈ aw → (i < cursor st)%nat ∧ results st !! i = None;
ok_results : ∀ i v, results st !! i = Some v → outcome i = Ok v ∧ (i < cursor st)%nat;
ok_called : ∀ i, (i < cursor st)%nat → results st !! i = None → i ∈ aw ∨ failure st ≠ None;
ok_failure : ∀ e, failure st = Some e → reported st = [e] ∧ ∃ i, (i < cursor st)%nat ∧ outcome i = Err e;
ok_quiet : failure st = None → reported st = []
}.

(** Why a worker has stopped. *)
Definition stopped st (w : Worker E) : Prop :=
match w with
| Awaiting _ => True
| Returned => failure st ≠ None ∨ cursor st = n
| Rejected _ => failure st ≠ None
end.

Definition map_inv st : Prop := calls_ok (awaited (workers st)) st ∧ Forall (stopped st) (workers st).

(** [st'] is [st] some calls later. *)
Definition later st st' : Prop :=
(cursor st <= cursor st')%nat ∧ (failure st ≠ None → failure st' ≠ None ∧ cursor st' = cursor st).

Lemma stopped_later st st' w : (cursor st' <= n)%nat → later st st' → stopped st w → stopped st' w.
Proof. intros Hn [Hc Hf]. destruct w as [i| |e]; cbn; [done| |naive_solver]. intros [H|H]; [left; naive_solver|right; lia]. Qed.

Lemma calls_perm aw aw' st : aw ≡ₚ aw' → calls_ok aw st → calls_ok aw' st.
Proof.
  intros Hp [H1 H2 H3 H4 H5 H6 H7]. split; [done|by rewrite <- Hp| |done| |done..].
  - intros i. rewrite <- Hp. apply H3.
  - intros i. rewrite <- Hp. apply H5.
Qed.

Lemma record_failure_ok aw e i st :
  calls_ok aw st → (i < cursor st)%nat → outcome i = Err e →
  calls_ok aw (record_failure e st) ∧ failure (record_failure e st) ≠ None ∧ later st (record_failure e st).
Proof.
  intros Hok Hi He. unfold record_failure, later. destruct (failure st) eqn:Ef.
  - rewrite Ef. split; [done|]. split; [done|]. split; [done|]. by intros _.
  - destruct Hok as [H1 H2 H3 H4 H5 H6 H7]. cbn. split; [|by split_and!]. split; cbn; try done.
    + intros j Hj Hr. by right.
    + intros e' [= <-]. split; [by rewrite H7|]. by exists i.
Qed.

Lemma record_failure_frame e st : workers (record_failure e st) = workers st ∧ cursor (record_failure e st) = cursor st.
Proof. unfold record_failure. by destruct (failure st). Qed.

(** The head of the loop calls at most one item, the one at the cursor. *)
Lemma loop_head_ok aw st x st' :
  calls_ok aw st → loop_head st = (x, st') →
  calls_ok (omap awaited_item [x] ++ aw) st' ∧ stopped st' x ∧ later st st' ∧ workers st' = workers st.
Proof.
  intros Hok E0. unfold loop_head in E0. destruct (failure st) eqn:Ef.
  { injection E0 as <- <-. split; [done|]. split; [left; by rewrite Ef|]. by split. }
  destruct (Nat.ltb_spec (cursor st) n) as [Hlt|Hge].
  2: { injection E0 as <- <-. split; [done|]. split; [|by split].
       right. pose proof (ok_cursor _ _ Hok). lia. }
  set (st1 := mkMap (S (cursor st)) None (reported st) (results st) (workers st)) in *.
  assert (results st !! cursor st = None) as Hnone.
  { destruct (results st !! cursor st) eqn:E1; [|done]. apply (ok_results _ _ Hok) in E1. lia. }
  assert (cursor st ∉ aw) as Hnew by (intros H; apply (ok_awaited _ _ Hok) in H; lia).
  assert (later st st1) as Hlater by (split; cbn; [lia|by rewrite Ef]).
  assert (calls_ok (cursor st :: aw) st1) as Hok1.
  { destruct Hok as [H1 H2 H3 H4 H5 H6 H7]. split; cbn.
    - lia.
    - by constructor.
    - intros i [->|Hi]%elem_of_cons; [split; [lia|done]|]. apply H3 in Hi. split; [lia|tauto].
    - intros i v Hv. apply H4 in Hv. split; [tauto|lia].
    - intros i Hi Hr. destruct (decide (i = cursor st)) as [->|Hne]; [left; by left|].
      destruct (H5 i) as [Hin|Hf]; [lia|done|left; by right|by rewrite Ef in Hf].
    - done.
    - intros _. by apply H7. }
  destruct (outcome (cursor st)) as [v|e] eqn:Eo.
  { injection E0 as <- <-. done. }
  destruct (throws (cursor st)); injection E0 as <- <-; [|done].
  assert (calls_ok aw (record_failure e st1) ∧ failure (record_failure e st1) ≠ None ∧ later st1 (record_failure e st1))
    as (Hr & Hf & Hl).
  { unfold record_failure. cbn. split_and!; try done. destruct Hok1 as [H1 H2 H3 H4 H5 H6 H7].
    apply NoDup_cons in H2 as [_ H2]. split; cbn in *; try done.
    - intros i Hi. apply H3. by right.
    - intros i Hi Hr. by right.
    - intros e' [= <-]. split; [by rewrite (H7 eq_refl)|]. exists (cursor st). split; [lia|done]. }
  cbn. split_and!; try done.
  split; cbn; [lia|by rewrite Ef].
Qed.

Lemma spawn_ok k st :
  map_inv st → map_inv (spawn k st) ∧ length (workers (spawn k st)) = (length (workers st) + k)%nat.
Proof.
  revert st. induction k as [|k IH]; intros st [Hok Hst]; cbn [spawn]; [split; [done|lia]|].
  destruct (loop_head st) as [x st1] eqn:Eh.
  destruct (loop_head_ok _ _ _ _ Hok Eh) as (Hok1 & Hx & Hl & Hw).
  destruct (IH (with_workers st1 (workers st1 ++ [x]))) as [Hi Hlen].
  { split; cbn [workers with_workers].
    - unfold awaited. rewrite omap_app. eapply calls_perm; [|destruct Hok1; split; done].
      rewrite Hw. apply Permutation_app_comm.
    - rewrite Hw. apply Forall_app. split; [|by constructor]. eapply Forall_impl; [exact Hst|].
      intros w. apply (stopped_later st st1); [apply Hok1|done]. }
  split; [done|]. rewrite Hlen. cbn. rewrite Hw, length_app. cbn. lia.
Qed.

Lemma awaited_at ws w x :
  ws !! w = Some x → awaited ws ≡ₚ omap awaited_item [x] ++ awaited (delete w ws).
Proof.
  intros Hw. unfold awaited. rewrite <- (take_drop_middle ws w x Hw) at 1. rewrite delete_take_drop, !omap_app.
  change (omap awaited_item (x :: drop (S w) ws)) with (omap awaited_item ([x] ++ drop (S w) ws)).
  rewrite omap_app. rewrite !app_assoc. by rewrite (Permutation_app_comm (omap _ [x])).
Qed.

Lemma delete_insert_same (ws : list (Worker E)) w x : delete w (<[w := x]> ws) = delete w ws.
Proof. revert w. induction ws as [|y ws IH]; intros [|w]; cbn; [done..|]. by f_equal. Qed.

Lemma awaited_insert ws w i x :
  ws !! w = Some (Awaiting i) → awaited (<[w := x]> ws) ≡ₚ omap awaited_item [x] ++ awaited (delete w ws)
  ∧ awaited ws ≡ₚ i :: awaited (delete w ws).
Proof.
  intros Hw. split; [|by apply (awaited_at ws w (Awaiting i))].
  rewrite (awaited_at (<[w := x]> ws) w x), delete_insert_same; [done|].
  apply list_lookup_insert_eq. by eapply lookup_lt_Some.
Qed.

Lemma resume_ok w st i :
  map_inv st → workers st !! w = Some (Awaiting i) →
  map_inv (resume w st) ∧ length (workers (resume w st)) = length (workers st) ∧ later st (resume w st).
Proof.
  intros [Hok Hst] Hw. unfold resume. rewrite Hw.
  destruct (awaited_insert (workers st) w i Returned Hw) as [_ Hp].
  apply (calls_perm _ _ _ Hp) in Hok. destruct (ok_awaited _ _ Hok i) as [Hi Hnone]; [by left|].
  assert (∀ x st1, calls_ok (omap awaited_item [x] ++ awaited (delete w (workers st))) st1 → stopped st1 x →
    later st st1 → workers st1 = workers st →
    map_inv (with_workers st1 (<[w := x]> (workers st1)))
    ∧ length (workers (with_workers st1 (<[w := x]> (workers st1)))) = length (workers st)
    ∧ later st (with_workers st1 (<[w := x]> (workers st1)))) as Hdone.
  { intros x st1 H1 Hx Hl Hws. split; [|split; [cbn; by rewrite length_insert, Hws|done]]. split; cbn [workers with_workers].
    - eapply calls_perm; [symmetry; apply (proj1 (awaited_insert (workers st1) w i x ltac:(by rewrite Hws)))|].
      rewrite Hws. destruct H1; split; done.
    - rewrite Hws. apply Forall_insert; [|exact Hx]. eapply Forall_impl; [exact Hst|].
      intros w'. apply (stopped_later st st1); [apply H1|done]. }
  destruct (outcome i) as [v|e] eqn:Eo.
  - destruct (loop_head (commit i v st)) as [x st1] eqn:Eh.
    assert (calls_ok (awaited (delete w (workers st))) (commit i v st)) as Hc.
    { destruct Hok as [H1 H2 H3 H4 H5 H6 H7]. apply NoDup_cons in H2 as [Hnew H2]. split; cbn; try done.
      - intros j Hj. destruct (H3 j) as [? Hr]; [by right|]. split; [done|].
        rewrite lookup_insert_ne; [done|]. by intros ->.
      - intros j u [[<- <-]|[? Hu]]%lookup_insert_Some; [done|]. by apply H4.
      - intros j Hj [Hr Hne]%lookup_insert_None. destruct (H5 j Hj Hr) as [[->|Hin]%elem_of_cons|]; [done|by left|by right]. }
    destruct (loop_head_ok _ _ _ _ Hc Eh) as (Hok1 & Hx & Hl & Hws). by apply Hdone.
  - assert (calls_ok (awaited (delete w (workers st))) (record_failure e st)
      ∧ failure (record_failure e st) ≠ None ∧ later st (record_failure e st)) as (H1 & H2 & H3).
    { destruct (record_failure_ok _ e i st Hok Hi Eo) as (Hr & Hf & Hl). split_and!; [|done..].
      destruct Hr as [R1 R2 R3 R4 R5 R6 R7]. apply NoDup_cons in R2 as [_ R2]. split; try done.
      - intros j Hj. apply R3. by right.
      - intros j Hj Hn. by right. }
    apply Hdone; [done..|]. apply record_failure_frame.
Qed.

Lemma started_ok limit : map_inv (started limit) ∧ length (workers (started limit)) = workerCount limit n.
Proof.
  destruct (spawn_ok (workerCount limit n) (mkMap 0 None [] ∅ [])) as [H1 H2]; [|done].
  split; [|constructor]. split; cbn; try done; try lia.
  - constructor.
  - intros i Hi. by apply elem_of_nil in Hi.
Qed.

Lemma resume_idle w st : (∀ i, workers st !! w ≠ Some (Awaiting i)) → resume w st = st.
Proof. intros H. unfold resume. destruct (workers st !! w) as [[]|] eqn:Ew; naive_solver. Qed.

Lemma run_ok schedule st : map_inv st →
  map_inv (foldl (λ st w, resume w st) st schedule)
  ∧ length (workers (foldl (λ st w, resume w st) st schedule)) = length (workers st).
Proof.
  revert st. induction schedule as [|w schedule IH]; intros st Hi; [done|]. cbn.
  assert (map_inv (resume w st) ∧ length (workers (resume w st)) = length (workers st)) as [H1 H2].
  { destruct (workers st !! w) as [[i| |]|] eqn:Ew; [|rewrite resume_idle by (rewrite Ew; done); done..].
    destruct (resume_ok w st i Hi Ew) as (? & ? & _). done. }
  destruct (IH _ H1) as [H3 H4]. split; [done|]. by rewrite H4.
Qed.

Lemma map_run_inv limit schedule :
  map_inv (map_run limit schedule) ∧ length (workers (map_run limit schedule)) = workerCount limit n.
Proof.
  destruct (started_ok limit) as [H1 H2]. destruct (run_ok schedule _ H1) as [H3 H4].
  unfold map_run. split; [done|]. by rewrite H4.
Qed.

Lemma run_later schedule st : map_inv st → later st (foldl (λ st w, resume w st) st schedule).
Proof.
  revert st. induction schedule as [|w schedule IH]; intros st Hi; [by split|]. cbn.
  destruct (workers st !! w) as [[i| |]|] eqn:Ew;
    [|rewrite (resume_idle w st) by (rewrite Ew; done); by apply IH..].
  destruct (resume_ok w st i Hi Ew) as (H1 & _ & [Hc1 Hf1]). destruct (IH _ H1) as [Hc2 Hf2].
  split; [lia|]. intros H. destruct (Hf1 H) as [Hf Hc]. destruct (Hf2 Hf) as [? ->]. done.
Qed.

Lemma awaiting_length st : awaiting st = length (awaited (workers st)).
Proof.
  unfold awaiting, awaited. induction (workers st) as [|[i| |e] ws IH]; [done|cbn; by rewrite IH|done..].
Qed.

Lemma finished_awaiting st : finished st = true ↔ awaited (workers st) = [].
Proof.
  unfold finished, awaited. induction (workers st) as [|[i| |e] ws IH]; [done|cbn; naive_solver|done..].
Qed.

(** When every worker has stopped without a failure, every call was made and succeeded. *)
Lemma finished_committed st :
  map_inv st → workers st ≠ [] → finished st = true → failure st = None →
  ∀ i, (i < n)%nat → ∃ v, outcome i = Ok v ∧ results st !! i = Some v.
Proof.
  intros [Hok Hst] Hne Hfin%finished_awaiting Hf i Hi. rewrite Hfin in Hok.
  assert (cursor st = n) as Hc.
  { destruct (workers st) as [|w ws]; [done|]. apply Forall_cons in Hst as [Hw _].
    destruct w as [j| |e]; cbn in *; [done|naive_solver|done]. }
  destruct (results st !! i) as [v|] eqn:Er.
  - exists v. split; [|done]. by apply (ok_results _ _ Hok) in Er as [? _].
  - destruct (ok_called _ _ Hok i) as [H|H]; [lia|done|by apply elem_of_nil in H|done].
Qed.

Lemma workers_nonempty limit schedule : workers (map_run limit schedule) ≠ [].
Proof.
  destruct (map_run_inv limit schedule) as [_ Hlen]. intros H. rewrite H in Hlen. cbn in Hlen.
  unfold workerCount in Hlen. destruct (Nat.eqb_spec n 0); lia.
Qed.

(** Whatever the order in which calls settle, a bounded map has at most [limit]
  (and at least one) calls in flight; it settles only when none is left, to the
  results in the order of the items when every call succeeds, and otherwise to
  a failure of one of the calls, which [onError] saw exactly once; and after a
  failure no further item is called. *)
Theorem bounded_map_ordered (limit : Z) (schedule more : list nat) :
  let st := map_run limit schedule in
  Z.of_nat (awaiting st) <= Z.max limit 1
  ∧ match settled st with
  | Some (Ok vs) => Forall2 (λ i v, ∃ x, outcome i = Ok x ∧ v = Some x) (seq 0 n) vs ∧ reported st = []
  | Some (Err e) => reported st = [e] ∧ ∃ i, (i < n)%nat ∧ outcome i = Err e
  | None => awaiting st ≠ 0%nat
  end
  ∧ (failure st ≠ None → cursor (map_run limit (schedule ++ more)) = cursor st).
Proof.
  intros st. destruct (map_run_inv limit schedule) as [Hi Hlen]. fold st in Hi, Hlen. split_and!.
  - assert (awaiting st <= workerCount limit n)%nat as H.
    { rewrite <- Hlen. unfold awaiting. apply List.filter_length_le. }
    unfold workerCount in H. destruct (n =? 0)%nat; lia.
  - unfold settled. destruct (finished st) eqn:Ef.
    2: { rewrite awaiting_length. intros H%nil_length_inv%finished_awaiting. congruence. }
    destruct Hi as [Hok Hst]. destruct (failure st) as [e|] eqn:Efail.
    + destruct (ok_failure _ _ Hok e Efail) as (Hr & i & Hi & Ho). split; [done|]. exists i. split; [|done].
      pose proof (ok_cursor _ _ Hok). lia.
    + split; [|by apply (ok_quiet _ _ Hok)]. apply Forall2_fmap_r, Forall_Forall2_diag, Forall_seq.
      intros i [_ Hn]. cbn in Hn.
      destruct (finished_committed st (conj Hok Hst) (workers_nonempty _ _) Ef Efail i Hn) as (v & Ho & Hv).
      by exists v.
  - intros Hf. unfold map_run. rewrite foldl_app.
    exact (proj2 (proj2 (run_later more st Hi) Hf)).
Qed.

(** Every settling call uses up some of it. *)
Definition budget st : nat := (n - cursor st + awaiting st)%nat.

Lemma loop_head_budget st x st' :
  (cursor st <= n)%nat → loop_head st = (x, st') →
  (n - cursor st' + length (omap awaited_item [x]) <= n - cursor st)%nat.
Proof.
  intros Hc. unfold loop_head. destruct (failure st) eqn:Ef; [intros [= <- <-]; cbn; lia|].
  destruct (Nat.ltb_spec (cursor st) n); [|intros [= <- <-]; cbn; lia].
  destruct (outcome (cursor st)); [intros [= <- <-]; cbn; lia|].
  destruct (throws (cursor st)); intros [= <- <-]; cbn; lia.
Qed.

Lemma resume_budget w st i :
  map_inv st → workers st !! w = Some (Awaiting i) → (budget (resume w st) < budget st)%nat.
Proof.
  intros [Hok Hst] Hw. unfold budget. rewrite !awaiting_length. unfold resume. rewrite Hw.
  assert (∀ x, length (awaited (<[w := x]> (workers st)))
    = (length (omap awaited_item [x]) + length (awaited (delete w (workers st))))%nat) as Hnew.
  { intros x. rewrite (Permutation_length (proj1 (awaited_insert (workers st) w i x Hw))). by rewrite length_app. }
  rewrite (Permutation_length (proj2 (awaited_insert (workers st) w i Returned Hw))). cbn [length].
  destruct (outcome i) as [v|e].
  - destruct (loop_head (commit i v st)) as [x st1] eqn:Eh.
    pose proof (loop_head_budget _ _ _ (ok_cursor _ _ Hok : (cursor (commit i v st) <= n)%nat) Eh) as Hb.
    assert (workers st1 = workers st) as Hws.
    { unfold loop_head in Eh. clear -Eh. repeat (case_match; simplify_eq; try done). }
    cbn [workers with_workers cursor]. rewrite Hws, Hnew. cbn [cursor commit] in Hb. lia.
  - destruct (record_failure_frame e st) as [Hws Hc].
    cbn [workers with_workers cursor]. rewrite Hws, Hnew, Hc. cbn. lia.
Qed.

Lemma started_budget limit : (budget (started limit) <= n)%nat.
Proof.
  assert (∀ k st, map_inv st → (budget (spawn k st) <= budget st)%nat) as Hspawn.
  { induction k as [|k IH]; intros st Hi; [done|]. cbn [spawn].
    destruct (loop_head st) as [x st1] eqn:Eh. destruct (spawn_ok 1 st Hi) as [H1 _].
    cbn [spawn] in H1. rewrite Eh in H1. etrans; [by apply IH|]. destruct Hi as [Hok _].
    pose proof (loop_head_budget _ _ _ (ok_cursor _ _ Hok) Eh) as Hb.
    destruct (loop_head_ok _ _ _ _ Hok Eh) as (_ & _ & _ & Hws).
    unfold budget. rewrite !awaiting_length. cbn [workers with_workers cursor]. rewrite Hws.
    unfold awaited. rewrite omap_app, length_app. lia. }
  etrans; [apply Hspawn|unfold budget; cbn; lia].
  split; [|constructor]. split; cbn; try done; try lia.
  - constructor.
  - intros i Hi. by apply elem_of_nil in Hi.
Qed.

(** Termination: a bounded map settles after at most [n] settling calls, whatever
  their order, and as long as it has not settled some call is in flight. *)
Theorem bounded_map_settles (limit : Z) (schedule : list nat) :
  genuine schedule (started limit) = true →
  (length schedule <= n)%nat
  ∧ (settled (map_run limit schedule) = None → ∃ w, genuine (schedule ++ [w]) (started limit) = true).
Proof.
  assert (∀ st, map_inv st → genuine schedule st = true →
    (length schedule + budget (foldl (λ st w, resume w st) st schedule) <= budget st)%nat
    ∧ (finished (foldl (λ st w, resume w st) st schedule) = false → ∃ w, genuine (schedule ++ [w]) st = true)) as Hmain.
  { induction schedule as [|w schedule IH]; intros st Hi Hg.
    - split; [cbn; lia|]. cbn. intros Hf. clear -Hf. unfold finished in Hf.
      assert (∃ w i, workers st !! w = Some (Awaiting i)) as (w & i & Hw).
      { induction (workers st) as [|x ws IHw]; [done|]. cbn in Hf. destruct x as [i| |e]; [by exists 0%nat, i|..];
          (destruct IHw as (w & i & Hw); [done|]; by exists (S w), i). }
      exists w. by rewrite Hw.
    - cbn in Hg. destruct (workers st !! w) as [[i| |]|] eqn:Ew; try done.
      destruct (resume_ok w st i Hi Ew) as (H1 & _). destruct (IH _ H1 Hg) as [IH1 IH2].
      pose proof (resume_budget w st i Hi Ew). split; [cbn; lia|].
      intros Hf. destruct (IH2 Hf) as [w' Hw']. exists w'. cbn. by rewrite Ew. }
  intros Hg. destruct (Hmain _ (proj1 (started_ok limit)) Hg) as [H1 H2].
  pose proof (started_budget limit). split; [lia|].
  unfold settled, map_run. destruct (finished _) eqn:Ef; [done|]. by intros _; apply H2.
Qed.
End bounded_map.

(** * FifoAdmission *)

(** A waiter is the call that pushed its [resolve]. *)
Record Fifo := mkFifo { activeWork : Z; waiters : list nat }.
Definition new_fifo : Fifo := mkFifo 0 [].

(** [run] up to its first suspension: [true] when the permit is taken at once. *)
Definition fifo_enter (limit : Z) (t : nat) (f : Fifo) : bool * Fifo :=
  if limit <=? activeWork f
  then (false, mkFifo (activeWork f) (waiters f ++ [t]))
  else (true, mkFifo (activeWork f + 1) (waiters f)).

(** The [finally] of [run]: the permit passes to the oldest waiter, if any. *)
Definition fifo_leave (f : Fifo) : option nat * Fifo :=
  match waiters f with
  | next :: rest => (Some next, mkFifo (activeWork f) rest)
  | [] => (None, mkFifo (activeWork f - 1) [])
  end.

(** [held] are the calls that hold a permit, [queued] those that wait. *)
Record fifo_ok (limit : Z) (f : Fifo) (held queued : gset nat) : Prop := {
  fifo_count : activeWork f = Z.of_nat (size held);
  fifo_bound : activeWork f <= limit;
  fifo_busy : waiters f ≠ [] → activeWork f = limit;
  fifo_nodup : NoDup (waiters f);
  fifo_queue : ∀ t, t ∈ waiters f ↔ t ∈ queued;
  fifo_disjoint : held ## queued
}.

Lemma new_fifo_ok limit : 0 <= limit → fifo_ok limit new_fifo ∅ ∅.
Proof. intros H. split; cbn; [by rewrite size_empty|done|done|constructor|set_solver|set_solver]. Qed.

Lemma fifo_enter_ok limit t f held queued b f' :
  fifo_ok limit f held queued → t ∉ held → t ∉ queued → fifo_enter limit t f = (b, f') →
  if b then fifo_ok limit f' ({[t]} ∪ held) queued else fifo_ok limit f' held ({[t]} ∪ queued).
Proof.
  intros [H1 H2 H3 H4 H5 H6] Hh Hq. unfold fifo_enter. destruct (Z.leb_spec limit (activeWork f)); intros [= <- <-].
  - split; cbn; [done|done|intros _; lia| | |set_solver].
    + apply NoDup_app. split_and!; [done| |apply NoDup_singleton]. intros x Hx ->%list_elem_of_singleton.
      by apply Hq, H5.
    + intros x. rewrite elem_of_app, H5. set_solver.
  - split; cbn; [|lia| |done|done|set_solver].
    + rewrite size_union, size_singleton by set_solver. lia.
    + intros Hw. specialize (H3 Hw). lia.
Qed.

Lemma fifo_leave_ok limit t f held queued o f' :
  fifo_ok limit f held queued → t ∈ held → fifo_leave f = (o, f') →
  match o with
  | Some u => u ∈ queued ∧ waiters f = u :: waiters f' ∧ fifo_ok limit f' ({[u]} ∪ held ∖ {[t]}) (queued ∖ {[u]})
  | None => waiters f = [] ∧ fifo_ok limit f' (held ∖ {[t]}) queued
  end.
Proof.
  intros [H1 H2 H3 H4 H5 H6] Ht. unfold fifo_leave.
  assert (size held = S (size (held ∖ {[t]}))) as Hsize.
  { rewrite (union_difference_L {[t]} held) at 1 by set_solver. rewrite size_union, size_singleton by set_solver. done. }
  destruct (waiters f) as [|u ws] eqn:Ew; intros [= <- <-].
  - split; [done|]. split; cbn; [lia|lia|done|constructor| |set_solver]. done.
  - assert (u ∈ queued) as Hu by (apply H5; left). apply NoDup_cons in H4 as [Hnew H4].
    split; [done|]. split; [done|]. split; cbn; [|done|intros _; by apply H3|done| |set_solver].
    + rewrite size_union, size_singleton by set_solver. lia.
    + intros x. rewrite elem_of_difference, <- H5, elem_of_cons, not_elem_of_singleton. split; [|tauto].
      intros Hx. split; [by right|]. by intros ->.
Qed.

(** ** RequestConcurrencyScheduler.work *)

(** A pool and the history of its calls: [arrived] in the order of the calls,
    [granted] in the order in which they got a permit. *)
Record Pool := mkPool { pool_fifo : Fifo; pool_held : gset nat; arrived : list nat; granted : list nat }.
Definition new_pool : Pool := mkPool new_fifo ∅ [] [].

Inductive pool_event := Arrive (t : nat) | Settle (t : nat).

(** [None]: not an event of the pool (a call that settles without a permit). *)
Definition pool_step (limit : Z) (e : pool_event) (p : Pool) : option Pool :=
  match e with
  | Arrive t =>
      if bool_decide (t ∈ arrived p) then None
      else
        let '(b, f) := fifo_enter limit t (pool_fifo p) in
        Some (if b then mkPool f ({[t]} ∪ pool_held p) (arrived p ++ [t]) (granted p ++ [t])
              else mkPool f (pool_held p) (arrived p ++ [t]) (granted p))
  | Settle t =>
      if bool_decide (t ∈ pool_held p)
      then
        let '(o, f) := fifo_leave (pool_fifo p) in
        Some (match o with
              | Some u => mkPool f ({[u]} ∪ pool_held p ∖ {[t]}) (arrived p) (granted p ++ [u])
              | None => mkPool f (pool_held p ∖ {[t]}) (arrived p) (granted p)
              end)
      else None
  end.

Fixpoint pool_run (limit : Z) (es : list pool_event) (p : Pool) : option Pool :=
  match es with
  | [] => Some p
  | e :: es => p' ← pool_step limit e p; pool_run limit es p'
  end.

(** [new RequestConcurrencyScheduler(limit)] and calls of [work] on it. *)
Definition scheduler_limit (limit : Z) : Z := Z.max 1 limit.
Definition scheduler_run (limit : Z) (es : list pool_event) : option Pool :=
  pool_run (scheduler_limit limit) es new_pool.

Definition pool_inv (limit : Z) (p : Pool) : Prop :=
  fifo_ok limit (pool_fifo p) (pool_held p) (list_to_set (waiters (pool_fifo p)))
  ∧ NoDup (arrived p) ∧ granted p ++ waiters (pool_fifo p) = arrived p
  ∧ (∀ t, t ∈ pool_held p → t ∈ granted p).

Lemma queue_listed limit f held queued :
  fifo_ok limit f held queued → fifo_ok limit f held (list_to_set (waiters f)).
Proof.
  intros [H1 H2 H3 H4 H5 H6]. split; try done.
  - intros t. by rewrite elem_of_list_to_set.
  - intros t Hh Hq%elem_of_list_to_set%H5. by apply (H6 t).
Qed.

Lemma pool_step_inv limit e p p' : pool_inv limit p → pool_step limit e p = Some p' → pool_inv limit p'.
Proof.
  intros (Hok & Hnd & Hg & Hh). destruct e as [t|t]; cbn; case_bool_decide as Ht; try done.
  - assert (t ∉ pool_held p ∧ t ∉ (list_to_set (waiters (pool_fifo p)) : gset nat)) as [Hn1 Hn2].
    { split; [intros H%Hh|intros H%elem_of_list_to_set]; apply Ht; rewrite <- Hg; apply elem_of_app; auto. }
    assert (NoDup (arrived p ++ [t])) as Hnd'.
    { apply NoDup_app. split_and!; [done| |apply NoDup_singleton]. by intros x Hx ->%list_elem_of_singleton. }
    destruct (fifo_enter limit t (pool_fifo p)) as [b f] eqn:Ef.
    pose proof (fifo_enter_ok _ _ _ _ _ _ _ Hok Hn1 Hn2 Ef) as Hf. intros [= <-].
    unfold fifo_enter in Ef. destruct (limit <=? activeWork (pool_fifo p)) eqn:El; injection Ef as <- <-;
      cbn in *; (split_and!; cbn; [|done| |]).
    + by apply (queue_listed _ _ _ _ Hf).
    + by rewrite <- Hg, app_assoc.
    + done.
    + done.
    + rewrite <- Hg. assert (waiters (pool_fifo p) = []) as ->.
      { destruct (waiters (pool_fifo p)) eqn:Ew; [done|]. apply Z.leb_gt in El.
        pose proof (fifo_busy _ _ _ _ Hok). rewrite Ew in *. assert (activeWork (pool_fifo p) = limit) by auto. lia. }
      by rewrite !app_nil_r.
    + intros x [->%elem_of_singleton|Hx]%elem_of_union; apply elem_of_app; [right; by left|left; by apply Hh].
  - destruct (fifo_leave (pool_fifo p)) as [o f] eqn:Ef.
    pose proof (fifo_leave_ok _ _ _ _ _ _ _ Hok Ht Ef) as Hf. intros [= <-]. destruct o as [u|].
    + destruct Hf as (Hu & Hw & Hf). rewrite Hw in *. split_and!; cbn; [|done| |].
      * by apply (queue_listed _ _ _ _ Hf).
      * by rewrite <- Hg, <- app_assoc.
      * intros x Hx. apply elem_of_app. apply elem_of_union in Hx as [->%elem_of_singleton|Hx]; [right; by left|].
        left. apply Hh. set_solver.
    + destruct Hf as (Hw & Hf). split_and!; cbn; [|done| |].
      * by apply (queue_listed _ _ _ _ Hf).
      * rewrite <- Hg, Hw. f_equal. unfold fifo_leave in Ef. rewrite Hw in Ef. by injection Ef as <-.
      * intros x Hx. apply Hh. set_solver.
Qed.

(** Persistence admission: in every history, at most [max(1, limit)] operations
    hold a permit, calls are granted in the order in which they were made, no
    permit is lost (the counter is the number of holders) and none is idle while
    a call waits. *)
Theorem scheduler_fifo (limit : Z) (es : list pool_event) (p : Pool) :
  scheduler_run limit es = Some p →
  activeWork (pool_fifo p) = Z.of_nat (size (pool_held p))
  ∧ Z.of_nat (size (pool_held p)) <= Z.max 1 limit
  ∧ granted p ++ waiters (pool_fifo p) = arrived p
  ∧ (waiters (pool_fifo p) ≠ [] → Z.of_nat (size (pool_held p)) = Z.max 1 limit).
Proof.
  intros Hrun. assert (pool_inv (scheduler_limit limit) p) as (Hok & _ & Hg & _).
  { unfold scheduler_run in Hrun. assert (pool_inv (scheduler_limit limit) new_pool) as H0.
    { split_and!; cbn; [apply new_fifo_ok; unfold scheduler_limit; lia|constructor|done|set_solver]. }
    revert H0 Hrun. generalize new_pool. induction es as [|e es IH]; intros q Hq; [by intros [= <-]|]. cbn.
    intros (q' & Hs & Hrun)%bind_Some. eapply IH; [|done]. by eapply pool_step_inv. }
  pose proof (fifo_count _ _ _ _ Hok). pose proof (fifo_bound _ _ _ _ Hok). pose proof (fifo_busy _ _ _ _ Hok).
  unfold scheduler_limit in *. split_and!; [done|lia|done|]. intros Hw. specialize (H1 Hw). lia.
Qed.

(** * Concrete instances *)

(** Three items, two workers: the second call settles first. *)
Example bounded_map_example :
  settled 3 (map_run (λ i, (Ok (Z.of_nat i * 10) : result nat Z)) (λ _, false) 3 2 [1; 0; 1]%nat)
  = Some (Ok [Some 0; Some 10; Some 20]).
Proof. reflexivity. Qed.

(** A failing call stops the map: the fourth item is never called. *)
Definition failing_call (i : nat) : result nat Z := if (i =? 1)%nat then Err 7%nat else Ok (Z.of_nat i).

Example bounded_map_failure :
  let st := map_run failing_call (λ _, false) 4 2 [1; 0]%nat in
  settled 4 st = Some (Err 7%nat) ∧ cursor st = 2%nat.
Proof. split; reflexivity. Qed.

Lemma bounded_map_settles_witness :
  (length [1; 0] <= 4)%nat
  ∧ (settled 4 (map_run failing_call (λ _, false) 4 2 [1; 0]%nat) = None →
     ∃ w, genuine failing_call (λ _, false) 4 ([1; 0] ++ [w])%nat (started failing_call (λ _, false) 4 2) = true).
Proof. apply (bounded_map_settles failing_call (λ _, false) 4 2 [1; 0]%nat). reflexivity. Defined.

Definition example_pool : Pool :=
  default new_pool (scheduler_run 2 [Arrive 1; Arrive 2; Arrive 3; Arrive 4; Settle 2]).

Lemma scheduler_fifo_witness :
  activeWork (pool_fifo example_pool) = Z.of_nat (size (pool_held example_pool))
  ∧ Z.of_nat (size (pool_held example_pool)) <= Z.max 1 2
  ∧ granted example_pool ++ waiters (pool_fifo example_pool) = arrived example_pool
  ∧ (waiters (pool_fifo example_pool) ≠ [] → Z.of_nat (size (pool_held example_pool)) = Z.max 1 2).
Proof.
  apply (scheduler_fifo 2 [Arrive 1; Arrive 2; Arrive 3; Arrive 4; Settle 2]). vm_compute. reflexivity.
Defined.
