(* ===== verification/AccessHookGate.v ===== *)
(** access-router, [helpers/concurrency.ts]: [SharedHookGate], the reentrant
    admission of hook chains.

    Calls of [gate.run] are numbered in the order in which they are made; the
    frame that a call's [invoke] creates has the number of the call.  A step is
    what runs between two suspensions; the hook itself is the environment, which
    may call any gate from any context it holds (also from a detached continuation
    of a settled frame) and settles when it wants. *)

From Stdlib Require Import Qround.
From S2P Require Import Prelude JsValue AccessConcurrency.

Definition MAX_HOOK_DEPTH : nat := 64.

(** [normalizeHookConcurrencyLimit]; only numbers have a floor. *)
Definition floor_number (limit : num) : option Z :=
  match limit with Fin q => Some (Qfloor q) | _ => None end.
Definition usable_limit (z : Z) : bool := (1 <=? z) && (z <=? MAX_SAFE_INTEGER).
Definition normalizeHookConcurrencyLimit (limit : option num) (fallback : num) : Z :=
  match (n ← limit; floor_number n) with
  | Some z => if usable_limit z then z
              else match safe_integer fallback with Some f => if 1 <=? f then f else 10 | None => 10 end
  | None => match safe_integer fallback with Some f => if 1 <=? f then f else 10 | None => 10 end
  end.

(** * State *)

(** The admission queue of a call: the roots of a gate, or the children of a frame. *)
Inductive Slot := Root (gate : nat) | Child (frame : nat).
#[export] Instance Slot_eq_dec : EqDecision Slot.
Proof. solve_decision. Defined.
#[export] Instance Slot_countable : Countable Slot.
Proof.
  refine (inj_countable' (λ s, match s with Root g => inl g | Child f => inr f end)
    (λ x, match x with inl g => Root g | inr f => Child f end) _).
  by intros [].
Defined.

Inductive Phase :=
  | Queued      (** waits for the permit of its slot *)
  | Granted     (** holds the permit, [invoke] has not run yet *)
  | Running     (** the hook runs or is awaited, its frame is open *)
  | Draining    (** the hook has settled; waits for the frame's children *)
  | Leaving     (** about to give the permit back *)
  | Released    (** gave it back; a child still counts in its frame's [pending] *)
  | Done
  | Refused.    (** the [RangeError] *)
#[export] Instance Phase_eq_dec : EqDecision Phase.
Proof. solve_decision. Defined.

Record Task := mkTask {
  t_gate : nat;
  t_ctx : option nat;  (** [hookFrames.getStore()] at the call *)
  t_slot : Slot;
  t_phase : Phase
}.

Record HookFrame := mkFrame {
  fr_gate : nat;
  fr_parent : option nat;
  fr_depth : nat;
  fr_open : bool;
  fr_pending : nat;
  fr_drained : bool    (** [frame.drained] is set *)
}.

(** The [FifoAdmission] objects are kept by the slot they admit_hook to. *)
Record Gates := mkGates {
  tasks : gmap nat Task;
  frames : gmap nat HookFrame;
  queues : gmap Slot Fifo;
  next_task : nat
}.

Definition no_gates : Gates := mkGates ∅ ∅ ∅ 0.

Definition with_task (t : nat) (x : Task) (s : Gates) : Gates :=
  mkGates (<[t := x]> (tasks s)) (frames s) (queues s) (next_task s).
Definition with_frame (f : nat) (x : HookFrame) (s : Gates) : Gates :=
  mkGates (tasks s) (<[f := x]> (frames s)) (queues s) (next_task s).
Definition with_queue (k : Slot) (x : Fifo) (s : Gates) : Gates :=
  mkGates (tasks s) (frames s) (<[k := x]> (queues s)) (next_task s).
Definition set_phase (p : Phase) (x : Task) : Task := mkTask (t_gate x) (t_ctx x) (t_slot x) p.
Definition queue_of (s : Gates) (k : Slot) : Fifo := default new_fifo (queues s !! k).

Section gate.
(** The normalized limit of each gate. *)
Variable limit_of : nat → Z.

Definition slot_limit (k : Slot) : Z := match k with Root g => limit_of g | Child _ => 1 end.

(** [while (parent && parent.gate !== this) parent = parent.parent]; a parent has a
  smaller number than its frame. *)
Fixpoint owner (fuel : nat) (fs : gmap nat HookFrame) (gate : nat) (ctx : option nat) : option (nat * HookFrame) :=
match fuel with
| O => None
| S fuel =>
    f ← ctx;
    fr ← fs !! f;
    if (fr_gate fr =? gate)%nat then Some (f, fr) else owner fuel fs gate (fr_parent fr)
end.

Definition set_pending (n : nat) (fr : HookFrame) : HookFrame :=
mkFrame (fr_gate fr) (fr_parent fr) (fr_depth fr) (fr_open fr) n (fr_drained fr).

(** [FifoAdmission.run] of a new call, up to its first suspension. *)
Definition admit_hook (gate : nat) (ctx : option nat) (k : Slot) (s : Gates) : Gates :=
let t := next_task s in
let '(b, f) := fifo_enter (slot_limit k) t (queue_of s k) in
let s := with_queue k f s in
let s := with_task t (mkTask gate ctx k (if b then Granted else Queued)) s in
mkGates (tasks s) (frames s) (queues s) (S t).

(** A call of [run] on [gate] in the context [ctx]. *)
Definition gate_call (gate : nat) (ctx : option nat) (s : Gates) : Gates :=
match owner (S (default 0%nat ctx)) (frames s) gate ctx with
| Some (p, fr) =>
    if negb (fr_open fr) then admit_hook gate ctx (Root gate) s
    else if (MAX_HOOK_DEPTH <=? fr_depth fr)%nat
    then
      mkGates (<[next_task s := mkTask gate ctx (Child p) Refused]> (tasks s)) (frames s) (queues s) (S (next_task s))
    else admit_hook gate ctx (Child p) (with_frame p (set_pending (S (fr_pending fr)) fr) s)
| None => admit_hook gate ctx (Root gate) s
end.

Definition slot_depth (s : Gates) (k : Slot) : nat :=
match k with
| Root _ => 1
| Child p => match frames s !! p with Some fr => S (fr_depth fr) | None => 0 end
end.

(** The start of [invoke]: a fresh open frame with its own queue. *)
Definition gate_begin (t : nat) (x : Task) (s : Gates) : Gates :=
let s' := with_frame t (mkFrame (t_gate x) (t_ctx x) (slot_depth s (t_slot x)) true 0 false) s in
with_task t (set_phase Running x) (with_queue (Child t) new_fifo s').

(** The [finally] of [invoke]. *)
Definition gate_settle (t : nat) (x : Task) (fr : HookFrame) (s : Gates) : Gates :=
let waits := negb (fr_pending fr =? 0)%nat in
let s := with_frame t (mkFrame (fr_gate fr) (fr_parent fr) (fr_depth fr) false (fr_pending fr) waits) s in
with_task t (set_phase (if waits then Draining else Leaving) x) s.

(** The promise of the waiter that gets the permit resolves. *)
Definition grant (o : option nat) (s : Gates) : Gates :=
match o with
| Some u => match tasks s !! u with Some y => with_task u (set_phase Granted y) s | None => s end
| None => s
end.

(** The [finally] of [FifoAdmission.run]: the next waiter of the slot holds the permit. *)
Definition gate_leave (t : nat) (x : Task) (s : Gates) : Gates :=
let '(o, f) := fifo_leave (queue_of s (t_slot x)) in
let s := grant o (with_queue (t_slot x) f s) in
with_task t (set_phase (match t_slot x with Root _ => Done | Child _ => Released end) x) s.

(** [if (--parent.pending === 0) parent.drained?.()] *)
Definition gate_unpend (t : nat) (x : Task) (p : nat) (fr : HookFrame) (s : Gates) : Gates :=
let n := pred (fr_pending fr) in
let s := with_frame p (set_pending n fr) s in
let s := if (n =? 0)%nat && fr_drained fr
         then match tasks s !! p with Some y => with_task p (set_phase Leaving y) s | None => s end
         else s in
with_task t (set_phase Done x) s.

Inductive gate_event :=
| Call (gate : nat) (ctx : option nat)
| Advance (t : nat).   (** the continuation of call [t] runs *)

(** One step; a settling hook is the [Advance] of a [Running] call. *)
Definition gate_step (e : gate_event) (s : Gates) : option Gates :=
match e with
| Call gate ctx =>
    match ctx with
    | Some f => match frames s !! f with Some _ => Some (gate_call gate ctx s) | None => None end
    | None => Some (gate_call gate ctx s)
    end
| Advance t =>
    x ← tasks s !! t;
    match t_phase x with
    | Granted => Some (gate_begin t x s)
    | Running => fr ← frames s !! t; Some (gate_settle t x fr s)
    | Leaving => Some (gate_leave t x s)
    | Released =>
        match t_slot x with
        | Child p => fr ← frames s !! p; Some (gate_unpend t x p fr s)
        | Root _ => None
        end
    | _ => None
    end
end.

Fixpoint gate_run (es : list gate_event) (s : Gates) : option Gates :=
match es with
| [] => Some s
| e :: es => s' ← gate_step e s; gate_run es s'
end.

(** * Selections of calls *)

(** The calls of [m] that satisfy [P]. *)
Definition sel (P : Task → bool) (m : gmap nat Task) : gset nat := dom (filter (λ kv, P kv.2 = true) m).

Lemma elem_sel P m t : t ∈ sel P m ↔ ∃ x, m !! t = Some x ∧ P x = true.
Proof.
  unfold sel. rewrite elem_of_dom. unfold is_Some. setoid_rewrite map_lookup_filter_Some. naive_solver.
Qed.

Lemma sel_insert P m t y :
  sel P (<[t := y]> m) = if P y then {[t]} ∪ sel P m else sel P m ∖ {[t]}.
Proof.
  apply set_eq. intros u. rewrite elem_sel. destruct (decide (u = t)) as [->|Hne].
  - rewrite lookup_insert_eq. destruct (P y) eqn:Ey.
    + split; [intros _; set_solver|]. intros _. by exists y.
    + split; [|set_solver]. intros (x & [= <-] & Hp). congruence.
  - rewrite lookup_insert_ne by done. rewrite <- elem_sel. destruct (P y); set_solver.
Qed.

(** A call that [P] does not select, before or after, changes nothing. *)
Lemma sel_insert_out P m t y : P y = false → (∀ x, m !! t = Some x → P x = false) → sel P (<[t := y]> m) = sel P m.
Proof.
  intros Hy Hx. rewrite sel_insert, Hy. apply set_eq. intros u.
  rewrite elem_of_difference, not_elem_of_singleton, elem_sel. split; [tauto|]. intros (x & Hu & Hp).
  split; [eauto|]. intros ->. by rewrite (Hx _ Hu) in Hp.
Qed.
Lemma sel_insert_in P m t y x : P y = true → m !! t = Some x → P x = true → sel P (<[t := y]> m) = sel P m.
Proof. intros Hy Hx Hp. rewrite sel_insert, Hy. assert (t ∈ sel P m) by (apply elem_sel; eauto). set_solver. Qed.

Definition slot_is (k : Slot) (x : Task) : bool := bool_decide (t_slot x = k).
Definition holds (p : Phase) : bool :=
match p with Granted | Running | Draining | Leaving => true | _ => false end.
Definition is_queued (p : Phase) : bool := match p with Queued => true | _ => false end.
(** Counted in the [pending] of its frame. *)
Definition pends (p : Phase) : bool := match p with Done | Refused => false | _ => true end.

Definition holders (s : Gates) (k : Slot) : gset nat := sel (λ x, slot_is k x && holds (t_phase x)) (tasks s).
Definition queued (s : Gates) (k : Slot) : gset nat := sel (λ x, slot_is k x && is_queued (t_phase x)) (tasks s).
Definition children (s : Gates) (f : nat) : gset nat := sel (λ x, slot_is (Child f) x && pends (t_phase x)) (tasks s).

(** * Invariant *)

(** What the phase of a call says of its frame. *)
Definition frame_phase (p : Phase) (fr : HookFrame) : Prop :=
match p with
| Running => fr_open fr = true ∧ fr_drained fr = false
| Draining => fr_open fr = false ∧ fr_drained fr = true ∧ fr_pending fr ≠ 0%nat
| Leaving | Released | Done => fr_open fr = false ∧ fr_pending fr = 0%nat
| _ => False
end.
Definition has_frame (p : Phase) : bool := match p with Queued | Granted | Refused => false | _ => true end.

Definition task_ok (s : Gates) (t : nat) (x : Task) : Prop :=
(t < next_task s)%nat
∧ (∀ c, t_ctx x = Some c → (c < t)%nat ∧ is_Some (frames s !! c))
∧ match t_slot x with
  | Root g => g = t_gate x ∧ t_phase x ≠ Released
  | Child p => (p < t)%nat ∧ ∃ fr, frames s !! p = Some fr ∧ fr_gate fr = t_gate x
      ∧ (t_phase x ≠ Refused → (fr_depth fr < MAX_HOOK_DEPTH)%nat)
  end
∧ (if has_frame (t_phase x)
   then ∃ fr, frames s !! t = Some fr ∧ frame_phase (t_phase x) fr ∧ fr_gate fr = t_gate x
          ∧ fr_parent fr = t_ctx x ∧ fr_depth fr = slot_depth s (t_slot x)
   else frames s !! t = None).

Record gate_inv (s : Gates) : Prop := {
gi_tasks : ∀ t x, tasks s !! t = Some x → task_ok s t x;
gi_frames : ∀ f fr, frames s !! f = Some fr → is_Some (tasks s !! f)
  ∧ fr_pending fr = size (children s f) ∧ (1 <= fr_depth fr <= MAX_HOOK_DEPTH)%nat;
gi_queues : ∀ k, fifo_ok (slot_limit k) (queue_of s k) (holders s k) (queued s k)
}.

(** * Steps keep the invariant *)

(** Frames are never dropped and keep their gate, parent and depth. *)
Definition frames_ext (s s' : Gates) : Prop :=
∀ f fr, frames s !! f = Some fr → ∃ fr', frames s' !! f = Some fr'
  ∧ fr_gate fr' = fr_gate fr ∧ fr_parent fr' = fr_parent fr ∧ fr_depth fr' = fr_depth fr.

Lemma frames_ext_refl s s' : frames s' = frames s → frames_ext s s'.
Proof. intros E f fr Hf. exists fr. by rewrite E. Qed.

Lemma frames_ext_update s s' f fr fr' :
  frames s !! f = Some fr → frames s' = <[f := fr']> (frames s) →
  fr_gate fr' = fr_gate fr → fr_parent fr' = fr_parent fr → fr_depth fr' = fr_depth fr → frames_ext s s'.
Proof.
  intros Hf E H1 H2 H3 g gr Hg. rewrite E. destruct (decide (g = f)) as [->|Hne].
  - exists fr'. rewrite lookup_insert_eq. split; [done|]. rewrite Hf in Hg. by injection Hg as <-.
  - exists gr. by rewrite lookup_insert_ne.
Qed.

Lemma slot_depth_ext s s' k : frames_ext s s' →
  match k with Child p => is_Some (frames s !! p) | Root _ => True end → slot_depth s' k = slot_depth s k.
Proof.
  intros He Hk. destruct k as [g|p]; [done|]. cbn. destruct Hk as [fr Hp]. rewrite Hp.
  destruct (He p fr Hp) as (fr' & -> & _ & _ & ->). done.
Qed.

(** [task_ok] of a call in its new phase [p], which is [t_phase x] if nothing changed. *)
Lemma task_ok_phase s s' t x p :
  task_ok s t x → (next_task s <= next_task s')%nat → frames_ext s s' →
  (t_phase x = Refused → p = Refused) → (∀ g, t_slot x = Root g → p ≠ Released) →
  (if has_frame p
 then ∃ fr, frames s' !! t = Some fr ∧ frame_phase p fr ∧ fr_gate fr = t_gate x
        ∧ fr_parent fr = t_ctx x ∧ fr_depth fr = slot_depth s (t_slot x)
 else frames s' !! t = None) →
  task_ok s' t (set_phase p x).
Proof.
  intros (H1 & H2 & H3 & _) Hn He Hr Hrel H4.
  assert (slot_depth s' (t_slot x) = slot_depth s (t_slot x)) as Hd.
  { apply slot_depth_ext; [done|]. destruct (t_slot x); [done|]. destruct H3 as (_ & fr & Hfr & _). by exists fr. }
  split_and!; cbn.
  - lia.
  - intros c Hc. destruct (H2 c Hc) as [? [fr Hfr]]. split; [done|]. destruct (He c fr Hfr) as (fr' & Hfr' & _).
    by exists fr'.
  - destruct (t_slot x) as [g|p0] eqn:Es; [split; [tauto|by eapply Hrel]|].
    destruct H3 as (Hlt & fr & Hfr & Hg & Hdep). split; [done|]. destruct (He p0 fr Hfr) as (fr' & Hfr' & Eg & _ & Ed).
    exists fr'. split_and!; [done|by rewrite Eg|]. rewrite Ed. intros Hp. apply Hdep. tauto.
  - by rewrite Hd.
Qed.

Lemma task_ok_ext s s' t x :
  task_ok s t x → (next_task s <= next_task s')%nat → frames_ext s s' →
  (frames s !! t = None → frames s' !! t = None) →
  (∀ fr fr', frames s !! t = Some fr → frames s' !! t = Some fr' → frame_phase (t_phase x) fr →
   frame_phase (t_phase x) fr') →
  task_ok s' t x.
Proof.
  intros Hok Hn He Hnone Hph. enough (task_ok s' t (set_phase (t_phase x) x)) by by destruct x.
  apply (task_ok_phase s); [done..| |].
  - intros g Hg. destruct Hok as (_ & _ & H3 & _). rewrite Hg in H3. tauto.
  - destruct Hok as (_ & _ & _ & H4). destruct (has_frame (t_phase x)); [|by apply Hnone].
    destruct H4 as (fr & Hfr & H5 & H6 & H7 & H8). destruct (He t fr Hfr) as (fr' & Hfr' & E1 & E2 & E3).
    exists fr'. split_and!; [done|by eapply Hph|congruence..].
Qed.

(** A change of phase that keeps the permit, the queue and the count of a call. *)
Lemma sets_same s s' t x p :
  tasks s !! t = Some x → tasks s' = <[t := set_phase p x]> (tasks s) →
  holds p = holds (t_phase x) → is_queued p = is_queued (t_phase x) →
  (∀ k, holders s' k = holders s k) ∧ (∀ k, queued s' k = queued s k)
  ∧ (pends p = pends (t_phase x) → ∀ f, children s' f = children s f).
Proof.
  intros Ht E Hh Hq. unfold holders, queued, children. rewrite E.
  assert (∀ (Q : Task → bool), Q (set_phase p x) = Q x → sel Q (<[t := set_phase p x]> (tasks s)) = sel Q (tasks s)) as Hsame.
  { intros Q HQ. destruct (Q x) eqn:Ex; [by eapply sel_insert_in|]. apply sel_insert_out; [done|].
    intros x' Hx'. congruence. }
  split_and!; intros; apply Hsame; unfold slot_is; cbn; congruence.
Qed.

Lemma queue_of_insert s k f k' : queue_of (with_queue k f s) k' = if decide (k' = k) then f else queue_of s k'.
Proof.
  unfold queue_of. cbn. destruct (decide (k' = k)) as [->|Hne]; [by rewrite lookup_insert_eq|].
  by rewrite lookup_insert_ne.
Qed.

Lemma children_frame s f t x : gate_inv s → tasks s !! t = Some x → t_slot x = Child f → is_Some (frames s !! f).
Proof. intros Hi Ht Hs. destruct (gi_tasks s Hi t x Ht) as (_ & _ & H & _). rewrite Hs in H. naive_solver. Qed.

(** No call was admitted by a frame that does not exist. *)
Lemma no_frame_empty s f : gate_inv s → frames s !! f = None →
  holders s (Child f) = ∅ ∧ queued s (Child f) = ∅ ∧ children s f = ∅.
Proof.
  intros Hi Hf. assert (∀ Q, (∀ x, Q x = true → t_slot x = Child f) → sel Q (tasks s) = ∅) as He.
  { intros Q HQ. apply set_eq. intros u. rewrite elem_sel. split; [|set_solver]. intros (x & Hu & Hx).
    destruct (children_frame s f u x Hi Hu (HQ x Hx)) as [fr E]. congruence. }
  split_and!; apply He; intros x [Hx _]%andb_true_iff; by apply bool_decide_eq_true in Hx.
Qed.

Lemma begin_inv t x s : gate_inv s → tasks s !! t = Some x → t_phase x = Granted → gate_inv (gate_begin t x s).
Proof.
  intros Hi Ht Hp. pose proof (gi_tasks s Hi t x Ht) as Hok. set (s' := gate_begin t x s).
  assert (frames s !! t = None) as Hnone by (destruct Hok as (_ & _ & _ & H); by rewrite Hp in H).
  assert (frames_ext s s') as He.
  { intros f fr Hf. exists fr. cbn. rewrite lookup_insert_ne by congruence. done. }
  destruct (sets_same s s' t x Running Ht) as (Hh & Hq & Hc); [done|by rewrite Hp..|].
  destruct (no_frame_empty s t Hi Hnone) as (Eh & Eq & Ec). split.
  - intros u y Hu. cbn in Hu. apply lookup_insert_Some in Hu as [[<- <-]|[Hne Hu]].
    + apply (task_ok_phase s); [done|done|done|by rewrite Hp|done|]. cbn. rewrite lookup_insert_eq.
      eexists. split; [done|]. by split_and!.
    + apply (task_ok_ext s); [by apply (gi_tasks s)|done|done|..]; cbn; rewrite lookup_insert_ne by done;
        [done|congruence].
  - intros f fr Hf. rewrite Hc by by rewrite Hp. cbn in Hf. apply lookup_insert_Some in Hf as [[<- <-]|[Hne Hf]]; cbn.
    + split_and!; [rewrite lookup_insert_eq; eauto|by rewrite Ec, size_empty|..].
      all: destruct Hok as (_ & _ & H3 & _); destruct (t_slot x) as [g|p0]; cbn; [unfold MAX_HOOK_DEPTH; lia|].
      all: destruct H3 as (_ & fr & -> & _ & Hd); rewrite Hp in Hd; assert (fr_depth fr < MAX_HOOK_DEPTH)%nat by (by apply Hd); lia.
    + rewrite lookup_insert_ne by done. by apply (gi_frames s).
  - intros k. rewrite Hh, Hq. cbn. change (queue_of s' k) with (queue_of (with_queue (Child t) new_fifo s) k).
    rewrite queue_of_insert. destruct (decide (k = Child t)) as [->|Hne]; [|by apply (gi_queues s)].
    rewrite Eh, Eq. by apply new_fifo_ok.
Qed.

Lemma settle_inv t x fr s :
  gate_inv s → tasks s !! t = Some x → t_phase x = Running → frames s !! t = Some fr →
  gate_inv (gate_settle t x fr s).
Proof.
  intros Hi Ht Hp Hfr. pose proof (gi_tasks s Hi t x Ht) as Hok. set (s' := gate_settle t x fr s).
  set (fr' := mkFrame (fr_gate fr) (fr_parent fr) (fr_depth fr) false (fr_pending fr) (negb (fr_pending fr =? 0)%nat)).
  set (q := if negb (fr_pending fr =? 0)%nat then Draining else Leaving).
  assert (frames_ext s s') as He by by apply (frames_ext_update s s' t fr fr').
  assert (holds q = true ∧ is_queued q = false ∧ pends q = true ∧ has_frame q = true) as (Q1 & Q2 & Q3 & Q4)
    by (unfold q; by destruct (negb _)).
  destruct (sets_same s s' t x q Ht) as (Hh & Hq & Hc); [done|by rewrite Hp..|].
  assert (frame_phase q fr') as Hph.
  { unfold q. destruct (Nat.eqb_spec (fr_pending fr) 0) as [E|E]; cbn; [done|].
    split_and!; [done| |done]. by destruct (Nat.eqb_spec (fr_pending fr) 0). }
  split.
  - intros u y Hu. cbn in Hu. apply lookup_insert_Some in Hu as [[<- <-]|[Hne Hu]].
    + pose proof Hok as (K1 & K2 & K3 & K4). rewrite Hp in K4. cbn in K4. destruct K4 as (fr0 & Hf0 & _ & K5 & K6 & K7).
      assert (fr0 = fr) as -> by congruence.
      apply (task_ok_phase s); [by apply (gi_tasks s)|done|done|by rewrite Hp| |].
      * intros g _. unfold q. by destruct (negb _).
      * fold q. rewrite Q4. exists fr'. cbn. rewrite lookup_insert_eq. by split_and!.
    + apply (task_ok_ext s); [by apply (gi_tasks s)|done|done|..]; cbn; rewrite lookup_insert_ne by done;
        [done|congruence].
  - intros f gr Hf. rewrite Hc by by rewrite Hp. cbn in Hf. cbn.
    destruct (gi_frames s Hi t fr Hfr) as (G1 & G2 & G3).
    apply lookup_insert_Some in Hf as [[<- <-]|[Hne Hf]]; [rewrite lookup_insert_eq; split; [eauto|done]|].
    rewrite lookup_insert_ne by done. by apply (gi_frames s).
  - intros k. rewrite Hh, Hq. by apply (gi_queues s).
Qed.

(** The slot of a leaving call after its permit has passed on. *)
Lemma grant_spec t x o f s :
  gate_inv s → tasks s !! t = Some x → t_phase x = Leaving → fifo_leave (queue_of s (t_slot x)) = (o, f) →
  let s1 := grant o (with_queue (t_slot x) f s) in
  frames s1 = frames s ∧ next_task s1 = next_task s ∧ queues s1 = <[t_slot x := f]> (queues s)
  ∧ tasks s1 !! t = Some x ∧ (∀ u y, tasks s1 !! u = Some y → task_ok s u y) ∧ (∀ g, children s1 g = children s g)
  ∧ (∀ g, is_Some (tasks s !! g) → is_Some (tasks s1 !! g))
  ∧ (∀ k, k ≠ t_slot x → holders s1 k = holders s k ∧ queued s1 k = queued s k)
  ∧ fifo_ok (slot_limit (t_slot x)) f (holders s1 (t_slot x) ∖ {[t]}) (queued s1 (t_slot x)).
Proof.
  intros Hi Ht Hp Ef. assert (t ∈ holders s (t_slot x)) as Hheld.
  { apply elem_sel. exists x. unfold slot_is. by rewrite bool_decide_true, Hp. }
  pose proof (fifo_leave_ok _ _ _ _ _ _ _ (gi_queues s Hi (t_slot x)) Hheld Ef) as Hf.
  destruct o as [u|]; cbn [grant].
  2: { split_and!; try done; [by apply (gi_tasks s)|tauto]. }
  destruct Hf as (Hu & _ & Hf). apply elem_sel in Hu as (y & Hy & [Hys Hyq]%andb_true_iff).
  apply bool_decide_eq_true in Hys. destruct (t_phase y) eqn:Hyp; try done. clear Hyq.
  cbn [tasks with_queue]. rewrite Hy. assert (u ≠ t) as Hut by (intros ->; congruence).
  assert (∀ y', tasks s !! u = Some y' → y' = y) as Huniq by (intros; congruence).
  split_and!; try done; cbn.
  - by rewrite lookup_insert_ne.
  - intros v z [[<- <-]|[_ Hv]]%lookup_insert_Some; [|by apply (gi_tasks s)].
    pose proof (gi_tasks s Hi u y Hy) as Hok. apply (task_ok_phase s); [done|done|by apply frames_ext_refl|by rewrite Hyp|done|].
    destruct Hok as (_ & _ & _ & H). by rewrite Hyp in H.
  - intros g. unfold children. cbn. destruct (slot_is (Child g) y) eqn:Eg.
    + eapply sel_insert_in; [|exact Hy|]; cbn; [by rewrite andb_true_r|by rewrite Eg, Hyp].
    + apply sel_insert_out; cbn; [by rewrite andb_true_r|]. intros y' ->%Huniq. by rewrite Eg.
  - intros g Hg. destruct (decide (g = u)) as [->|]; [rewrite lookup_insert_eq; eauto|by rewrite lookup_insert_ne].
  - intros k Hk. assert (slot_is k y = false) as Eg by (apply bool_decide_eq_false; congruence).
    unfold holders, queued. cbn.
    split; (apply sel_insert_out; [unfold slot_is in *; cbn; by rewrite Eg|]; intros y' ->%Huniq; by rewrite Eg).
  - assert (slot_is (t_slot x) y = true) as Eg by by apply bool_decide_eq_true.
    unfold holders, queued. cbn. rewrite !sel_insert. unfold slot_is in Eg |- *. cbn. rewrite Eg. cbn.
    fold (slot_is (t_slot x)). fold (holders s (t_slot x)). fold (queued s (t_slot x)).
    assert (({[u]} ∪ holders s (t_slot x)) ∖ {[t]} = {[u]} ∪ holders s (t_slot x) ∖ {[t]}) as E by set_solver.
    unfold holders, slot_is in E. rewrite E. done.
Qed.

Lemma leave_inv t x s : gate_inv s → tasks s !! t = Some x → t_phase x = Leaving → gate_inv (gate_leave t x s).
Proof.
  intros Hi Ht Hp. pose proof (gi_tasks s Hi t x Ht) as Hok. unfold gate_leave.
  destruct (fifo_leave (queue_of s (t_slot x))) as [o f] eqn:Ef.
  destruct (grant_spec t x o f s Hi Ht Hp Ef) as (F1 & F2 & F3 & F4 & F5 & F6 & F7 & F8 & F9).
  set (s1 := grant o (with_queue (t_slot x) f s)) in *. clearbody s1.
  set (q := match t_slot x with Root _ => Done | Child _ => Released end).
  assert (holds q = false ∧ is_queued q = false ∧ has_frame q = true) as (Q1 & Q2 & Q3)
    by (unfold q; by destruct (t_slot x)).
  set (s' := with_task t (set_phase q x) s1).
  assert (frames_ext s s') as He by by apply frames_ext_refl.
  assert (∀ x', tasks s1 !! t = Some x' → x' = x) as Huniq by (intros; congruence). split.
  - intros u y Hu. cbn in Hu. apply lookup_insert_Some in Hu as [[<- <-]|[Hne Hu]].
    + apply (task_ok_phase s); [done|by cbn; rewrite F2|done|by rewrite Hp| |].
      * intros g Hg. unfold q. by rewrite Hg.
      * rewrite Q3. destruct Hok as (_ & _ & _ & H4). rewrite Hp in H4. cbn in H4. cbn. rewrite F1.
        destruct H4 as (fr & K1 & K2 & K3). exists fr. split; [done|]. split; [|done].
        unfold q. by destruct (t_slot x).
    + apply (task_ok_ext s); [by apply F5|by cbn; rewrite F2|done|..]; cbn; rewrite F1; [done|congruence].
  - intros g fr Hg. cbn in Hg. rewrite F1 in Hg. destruct (gi_frames s Hi g fr Hg) as (G1 & G2 & G3).
    split; [|split; [|done]].
    + cbn. destruct (decide (g = t)) as [->|]; [rewrite lookup_insert_eq; eauto|rewrite lookup_insert_ne by done; by apply F7].
    + rewrite G2, <- F6. unfold children. cbn. f_equal. symmetry. destruct (slot_is (Child g) x) eqn:Eg.
      * apply bool_decide_eq_true in Eg as Es. eapply sel_insert_in; [|exact F4|]; cbn; [|by rewrite Eg, Hp].
        unfold slot_is, q in *. cbn. by rewrite Eg, Es.
      * apply sel_insert_out; [unfold slot_is in *; cbn; by rewrite Eg|]. intros x' ->%Huniq. by rewrite Eg.
  - intros k. change (queue_of s' k) with (default new_fifo (queues s1 !! k)). rewrite F3.
    assert (holders s' k = holders s1 k ∖ {[t]} ∧ queued s' k = queued s1 k ∖ {[t]}) as [-> ->].
    { unfold holders, queued. cbn. by rewrite !sel_insert; cbn; rewrite Q1, Q2, !andb_false_r. }
    assert (t ∉ queued s1 k) as Hnq.
    { intros (x' & ->%Huniq & [_ Hxq]%andb_true_iff)%elem_sel. by rewrite Hp in Hxq. }
    assert (queued s1 k ∖ {[t]} = queued s1 k) as -> by set_solver.
    destruct (decide (k = t_slot x)) as [->|Hne]; [by rewrite lookup_insert_eq|].
    rewrite lookup_insert_ne by done. destruct (F8 k Hne) as [E1 ->].
    assert (t ∉ holders s1 k) as Hnh.
    { intros (x' & ->%Huniq & [Hxs _]%andb_true_iff)%elem_sel. apply bool_decide_eq_true in Hxs. congruence. }
    assert (holders s1 k ∖ {[t]} = holders s1 k) as -> by set_solver. rewrite E1. by apply (gi_queues s).
Qed.

(** A call in [pending] has a frame to return to, which is still live. *)
Lemma pending_owner s t x p :
  gate_inv s → tasks s !! t = Some x → t_slot x = Child p → pends (t_phase x) = true →
  ∃ fr y, frames s !! p = Some fr ∧ tasks s !! p = Some y ∧ p ≠ t ∧ t ∈ children s p ∧ fr_pending fr ≠ 0%nat
  ∧ (t_phase y = Running ∨ t_phase y = Draining).
Proof.
  intros Hi Ht Hs Hp. destruct (children_frame s p t x Hi Ht Hs) as [fr Hfr].
  destruct (gi_frames s Hi p fr Hfr) as ([y Hy] & Hn & _).
  assert (t ∈ children s p) as Hc.
  { apply elem_sel. exists x. unfold slot_is. by rewrite bool_decide_true, Hp. }
  assert (fr_pending fr ≠ 0%nat) as Hpos.
  { rewrite Hn. intros E%size_empty_inv. set_solver. }
  exists fr, y. split_and!; try done.
  - destruct (gi_tasks s Hi t x Ht) as (_ & _ & H & _). rewrite Hs in H. lia.
  - destruct (gi_tasks s Hi p y Hy) as (_ & _ & _ & H). destruct (t_phase y); cbn in H; try congruence; auto;
      destruct H as (fr' & Hf' & [_ H] & _); congruence.
Qed.

Lemma unpend_inv t x p fr s :
  gate_inv s → tasks s !! t = Some x → t_phase x = Released → t_slot x = Child p → frames s !! p = Some fr →
  gate_inv (gate_unpend t x p fr s).
Proof.
  intros Hi Ht Hp Hs Hfr. pose proof (gi_tasks s Hi t x Ht) as Hok.
  destruct (pending_owner s t x p Hi Ht Hs) as (fr0 & y & Hf0 & Hy & Hpt & Hchild & Hpos & Hph); [by rewrite Hp|].
  assert (fr0 = fr) as -> by congruence. clear Hf0. unfold gate_unpend.
  set (n := pred (fr_pending fr)). set (s1 := with_frame p (set_pending n fr) s).
  assert (∃ q, (if (n =? 0)%nat && fr_drained fr
                then match tasks s1 !! p with Some y => with_task p (set_phase Leaving y) s1 | None => s1 end
                else s1) = with_task p (set_phase q y) s1
    ∧ frame_phase q (set_pending n fr) ∧ holds q = holds (t_phase y) ∧ is_queued q = is_queued (t_phase y)
    ∧ pends q = pends (t_phase y) ∧ has_frame q = true ∧ q ≠ Released ∧ t_phase y ≠ Refused)
    as (q & -> & Q1 & Q2 & Q3 & Q4 & Q5 & Q6 & Q7).
  { destruct (gi_tasks s Hi p y Hy) as (_ & _ & _ & Hpy).
    assert (frame_phase (t_phase y) fr) as Hphase.
    { destruct Hph as [E|E]; rewrite E in Hpy |- *; destruct Hpy as (fr' & ? & ? & _); by assert (fr' = fr) as <- by congruence. }
    assert (with_task p (set_phase (t_phase y) y) s1 = s1) as Hsame.
    { unfold with_task, s1. cbn. rewrite insert_id by (rewrite Hy; by destruct y). done. }
    change (tasks s1 !! p) with (tasks s !! p). rewrite Hy. destruct Hph as [E|E]; rewrite E in *; cbn in Hphase.
    - destruct Hphase as [Ho Hd]. rewrite Hd, andb_false_r. exists Running. split_and!; try done; by symmetry.
    - destruct Hphase as (Ho & Hd & _). rewrite Hd, andb_true_r. destruct (Nat.eqb_spec n 0) as [En|En].
      + exists Leaving. by split_and!.
      + exists Draining. split_and!; try done; by symmetry. }
  set (s2 := with_task p (set_phase q y) s1).
  destruct (sets_same s s2 p y q Hy) as (Hh2 & Hq2 & Hc2); [done..|].
  assert (tasks s2 !! t = Some x) as Ht2 by (cbn; by rewrite lookup_insert_ne).
  set (s' := with_task t (set_phase Done x) s2).
  destruct (sets_same s2 s' t x Done Ht2) as (Hh' & Hq' & _); [done|by rewrite Hp..|].
  assert (frames_ext s s') as He by by apply (frames_ext_update s s' p fr (set_pending n fr)). split.
  - intros u z Hu. cbn in Hu. apply lookup_insert_Some in Hu as [[<- <-]|[Hne Hu]].
    + apply (task_ok_phase s); [done|done|done|by rewrite Hp|done|]. cbn. rewrite lookup_insert_ne by done.
      destruct Hok as (_ & _ & _ & H4). by rewrite Hp in H4.
    + apply lookup_insert_Some in Hu as [[<- <-]|[Hne' Hu]].
      * pose proof (gi_tasks s Hi p y Hy) as Hoky. apply (task_ok_phase s); [done|done|done|done|done|].
        rewrite Q5. exists (set_pending n fr). cbn. rewrite lookup_insert_eq. split; [done|]. split; [done|].
        destruct Hoky as (_ & _ & _ & H4). destruct (has_frame (t_phase y)) eqn:Eh; [|congruence].
        destruct H4 as (fr' & H5 & _ & H6). by assert (fr' = fr) as -> by congruence.
      * apply (task_ok_ext s); [by apply (gi_tasks s)|done|done|..]; cbn; rewrite lookup_insert_ne by done;
          [done|congruence].
  - intros f gr Hf. assert (is_Some (tasks s' !! f) ↔ is_Some (tasks s !! f)) as ->.
    { cbn. rewrite !lookup_insert_is_Some'. split; [intros [<-|[<-|H]]; [by exists x|by exists y|done]|tauto]. }
    assert (children s' f = if decide (f = p) then children s p ∖ {[t]} else children s f) as ->.
    { rewrite <- !(Hc2 Q4). destruct (decide (f = p)) as [->|Hne].
      - unfold children. cbn. rewrite sel_insert. cbn. by rewrite andb_false_r.
      - unfold children. cbn. apply sel_insert_out; cbn; [by rewrite andb_false_r|]. intros x' Hx'.
        assert (x' = x) as -> by (cbn in Ht2; congruence). unfold slot_is. rewrite bool_decide_false; [done|]. congruence. }
    cbn in Hf. apply lookup_insert_Some in Hf as [[<- <-]|[Hne Hf]].
    + destruct (gi_frames s Hi p fr Hfr) as (G1 & G2 & G3). rewrite decide_True by done. split; [done|]. split; [|done].
      rewrite size_difference by set_solver. rewrite size_singleton. cbn. lia.
    + rewrite decide_False by done. by apply (gi_frames s).
  - intros k. rewrite Hh', Hq', Hh2, Hq2. by apply (gi_queues s).
Qed.

(** ** Calls *)

(** A new call of slot [k] in phase [ph]; it counts in the [pending] of its frame. *)
Lemma new_call_inv s s' y :
  gate_inv s → tasks s' = <[next_task s := y]> (tasks s) → next_task s' = S (next_task s) →
  has_frame (t_phase y) = false →
  (∀ c, t_ctx y = Some c → is_Some (frames s !! c)) →
  match t_slot y with
  | Root g => g = t_gate y
  | Child p => ∃ fr, frames s !! p = Some fr ∧ fr_gate fr = t_gate y
    ∧ (t_phase y ≠ Refused → fr_open fr = true ∧ (fr_depth fr < MAX_HOOK_DEPTH)%nat)
  end →
  (∀ f fr', frames s' !! f = Some fr' → ∃ fr, frames s !! f = Some fr
   ∧ fr' = set_pending (fr_pending fr + (if slot_is (Child f) y && pends (t_phase y) then 1 else 0)) fr) →
  (∀ f, is_Some (frames s !! f) → is_Some (frames s' !! f)) →
  (∀ k, fifo_ok (slot_limit k) (queue_of s' k)
   (if slot_is k y && holds (t_phase y) then {[next_task s]} ∪ holders s k else holders s k)
   (if slot_is k y && is_queued (t_phase y) then {[next_task s]} ∪ queued s k else queued s k)) →
  gate_inv s'.
Proof.
  intros Hi Et En Hf0 Hctx Hslot Hfr Hfr' Hqueues.
  assert (tasks s !! next_task s = None) as Hfresh.
  { apply eq_None_not_Some. intros [x Hx]. destruct (gi_tasks s Hi _ x Hx) as (? & _). lia. }
  assert (∀ Q, sel Q (tasks s') = if Q y then {[next_task s]} ∪ sel Q (tasks s) else sel Q (tasks s)) as Hsel.
  { intros Q. rewrite Et. destruct (Q y) eqn:EQ; [by rewrite sel_insert, EQ|]. apply sel_insert_out; [done|]. congruence. }
  assert (∀ f fr, frames s !! f = Some fr → (f < next_task s)%nat) as Hlt.
  { intros f fr Hf. destruct (gi_frames s Hi f fr Hf) as ([x Hx] & _). by destruct (gi_tasks s Hi f x Hx) as (? & _). }
  assert (frames_ext s s') as He.
  { intros f fr Hf. destruct (Hfr' f) as [fr' Hf']; [eauto|]. exists fr'. split; [done|].
    destruct (Hfr f fr' Hf') as (fr0 & Hf0' & ->). by assert (fr0 = fr) as -> by congruence. }
  split.
  - intros t x Hx. rewrite Et in Hx. apply lookup_insert_Some in Hx as [[<- <-]|[Hne Hx]].
    + split_and!; [lia| | |].
      * intros c Hc. destruct (Hctx c Hc) as [fr Hc']. split; [by eapply Hlt|]. by apply Hfr'; eauto.
      * destruct (t_slot y) as [g|p]; [split; [done|]; by destruct (t_phase y)|].
        destruct Hslot as (fr & Hf & Hg & Hd). split; [by eapply Hlt|]. destruct (He p fr Hf) as (fr' & ? & E1 & _ & E2).
        exists fr'. split_and!; [done|congruence|]. rewrite E2. by apply Hd.
      * rewrite Hf0. apply eq_None_not_Some. intros [fr' Hf']. destruct (Hfr _ _ Hf') as (fr & Hf & _).
        apply Hlt in Hf. lia.
    + apply (task_ok_ext s); [by apply (gi_tasks s)|lia|done|..].
      * intros Hnone. apply eq_None_not_Some. intros [fr' Hf']. destruct (Hfr _ _ Hf') as (fr & Hf & _). congruence.
      * intros fr fr' H1 H2 Hph. destruct (Hfr _ _ H2) as (fr0 & H3 & ->). assert (fr0 = fr) as -> by congruence.
        destruct (slot_is (Child t) y && pends (t_phase y)) eqn:Eb; [|rewrite Nat.add_0_r; by destruct fr].
        apply andb_true_iff in Eb as [Es%bool_decide_eq_true Ep]. rewrite Es in Hslot.
        destruct Hslot as (fr1 & Hf1 & _ & Hopen). assert (fr1 = fr) as -> by congruence.
        destruct Hopen as [Ho _]; [by intros E; rewrite E in Ep|].
        destruct (t_phase x); cbn in Hph |- *; try done; destruct Hph as [Hclosed _]; congruence.
  - intros f fr' Hf'. destruct (Hfr f fr' Hf') as (fr & Hf & ->). destruct (gi_frames s Hi f fr Hf) as (G1 & G2 & G3).
    split; [rewrite Et, lookup_insert_is_Some'; by right|split; [|done]].
    unfold children. rewrite Hsel. cbn. destruct (slot_is (Child f) y && pends (t_phase y)).
    + rewrite size_union, size_singleton; [unfold children in G2; lia|].
      apply disjoint_singleton_l. intros (x & Hx & _)%elem_sel. congruence.
    + unfold children in G2. lia.
  - intros k. unfold holders, queued. rewrite !Hsel. apply Hqueues.
Qed.

(** [parent.pending++], for a call that a frame admits. *)
Definition bump (k : Slot) (s : Gates) : Gates :=
match k with
| Root _ => s
| Child p => match frames s !! p with
             | Some fr => with_frame p (set_pending (S (fr_pending fr)) fr) s
             | None => s
             end
end.

Lemma bump_frames k s : tasks (bump k s) = tasks s ∧ queues (bump k s) = queues s ∧ next_task (bump k s) = next_task s.
Proof. unfold bump. destruct k as [|p]; [done|]. by destruct (frames s !! p). Qed.

Lemma bump_lookup k s f fr' : frames (bump k s) !! f = Some fr' → ∃ fr, frames s !! f = Some fr
  ∧ fr' = set_pending (fr_pending fr + (if bool_decide (k = Child f) then 1 else 0)) fr.
Proof.
  assert (∀ fr, set_pending (fr_pending fr + 0) fr = fr) as Hz by (intros []; unfold set_pending; cbn; by rewrite Nat.add_0_r).
  unfold bump. destruct k as [g|p]; intros Hf.
  - exists fr'. rewrite bool_decide_false by done. by rewrite Hz.
  - destruct (frames s !! p) as [fr|] eqn:Hp.
    + cbn in Hf. apply lookup_insert_Some in Hf as [[<- <-]|[Hne Hf]].
      * exists fr. rewrite bool_decide_true by done. by rewrite Nat.add_1_r.
      * exists fr'. rewrite bool_decide_false by congruence. by rewrite Hz.
    + exists fr'. rewrite bool_decide_false by congruence. by rewrite Hz.
Qed.

Lemma bump_is_Some k s f : is_Some (frames s !! f) → is_Some (frames (bump k s) !! f).
Proof.
  unfold bump. destruct k as [g|p]; [done|]. destruct (frames s !! p) as [fr|] eqn:Hp; [|done]. cbn.
  intros Hf. apply lookup_insert_is_Some'. by right.
Qed.

(** The number of a new call is in no selection. *)
Lemma fresh_out s Q : gate_inv s → next_task s ∉ sel Q (tasks s).
Proof. intros Hi (x & Hx & _)%elem_sel. destruct (gi_tasks s Hi _ x Hx) as (? & _). lia. Qed.

Lemma admit_inv gate ctx k s :
  gate_inv s → (∀ c, ctx = Some c → is_Some (frames s !! c)) →
  match k with
  | Root g => g = gate
  | Child p => ∃ fr, frames s !! p = Some fr ∧ fr_gate fr = gate ∧ fr_open fr = true ∧ (fr_depth fr < MAX_HOOK_DEPTH)%nat
  end →
  gate_inv (admit_hook gate ctx k (bump k s)).
Proof.
  intros Hi Hctx Hk. destruct (bump_frames k s) as (Bt & Bq & Bn). unfold admit_hook. rewrite Bn.
  destruct (fifo_enter (slot_limit k) (next_task s) (queue_of (bump k s) k)) as [b f] eqn:Ef.
  unfold queue_of in Ef. rewrite Bq in Ef. fold (queue_of s k) in Ef.
  set (y := mkTask gate ctx k (if b then Granted else Queued)).
  assert (pends (t_phase y) = true ∧ has_frame (t_phase y) = false ∧ t_phase y ≠ Refused ∧ holds (t_phase y) = b
    ∧ is_queued (t_phase y) = negb b) as (P1 & P2 & P3 & P4 & P5) by by destruct b.
  apply (new_call_inv s _ y); cbn.
  - done.
  - by rewrite Bt.
  - done.
  - done.
  - done.
  - destruct k as [g|p]; [done|]. destruct Hk as (fr & ? & ? & ? & ?). by exists fr.
  - intros g fr' (fr & Hg & ->)%bump_lookup. exists fr. split; [done|].
    unfold slot_is. cbn in P1 |- *. by rewrite P1, andb_true_r.
  - intros g. apply bump_is_Some.
  - intros k'. unfold slot_is. cbn [t_slot y]. cbn [t_phase y] in P4, P5. rewrite P4, P5.
    unfold queue_of. cbn. rewrite Bq.
    destruct (decide (k' = k)) as [->|Hne].
    + rewrite lookup_insert_eq, bool_decide_true by done. cbn.
      pose proof (fifo_enter_ok _ _ _ _ _ b f (gi_queues s Hi k) (fresh_out s _ Hi) (fresh_out s _ Hi) Ef) as Hf.
      by destruct b.
    + rewrite lookup_insert_ne, bool_decide_false by congruence. cbn. by apply (gi_queues s).
Qed.

Lemma owner_spec fuel fs gate ctx p fr :
  owner fuel fs gate ctx = Some (p, fr) → fs !! p = Some fr ∧ fr_gate fr = gate.
Proof.
  revert ctx. induction fuel as [|fuel IH]; intros ctx; [done|]. cbn.
  intros H.
  destruct ctx as [f|]; cbn in H; [|done]. destruct (fs !! f) as [fr'|] eqn:Hf; cbn in H; [|done].
  destruct (Nat.eqb_spec (fr_gate fr') gate); [|by eapply IH]. by injection H as <- <-.
Qed.

Lemma call_inv gate ctx s :
  gate_inv s → (∀ c, ctx = Some c → is_Some (frames s !! c)) → gate_inv (gate_call gate ctx s).
Proof.
  intros Hi Hctx. unfold gate_call.
  destruct (owner _ _ _ _) as [[p fr]|] eqn:Eo; [|by apply (admit_inv gate ctx (Root gate))].
  apply owner_spec in Eo as [Hp Hg]. destruct (fr_open fr) eqn:Ho; cbn [negb]; [|by apply (admit_inv gate ctx (Root gate))].
  destruct (Nat.leb_spec MAX_HOOK_DEPTH (fr_depth fr)) as [Hd|Hd].
  - assert (∀ fr, set_pending (fr_pending fr + 0) fr = fr) as Hz
      by (intros []; unfold set_pending; cbn; by rewrite Nat.add_0_r).
    apply (new_call_inv s _ (mkTask gate ctx (Child p) Refused)); cbn; try done.
    + exists fr. split_and!; [done..|]. done.
    + intros f fr' Hf. exists fr'. rewrite andb_false_r. by rewrite Hz.
    + intros k. rewrite !andb_false_r. by apply (gi_queues s).
  - pose proof (admit_inv gate ctx (Child p) s Hi Hctx) as Ha. unfold bump in Ha. rewrite Hp in Ha. apply Ha.
    by exists fr.
Qed.

Lemma gate_step_inv e s s' : gate_inv s → gate_step e s = Some s' → gate_inv s'.
Proof.
  intros Hi. destruct e as [gate ctx|t]; cbn.
  - destruct ctx as [f|].
    + destruct (frames s !! f) eqn:Hf; [|done]. intros [= <-]. apply call_inv; [done|]. intros c [= <-]. eauto.
    + intros [= <-]. by apply call_inv.
  - destruct (tasks s !! t) as [x|] eqn:Ht; cbn; [|done]. destruct (t_phase x) eqn:Hp; try done.
    + intros [= <-]. by apply begin_inv.
    + destruct (frames s !! t) as [fr|] eqn:Hf; cbn; [|done]. intros [= <-]. by apply settle_inv.
    + intros [= <-]. by apply leave_inv.
    + destruct (t_slot x) as [g|p] eqn:Hs; [done|]. destruct (frames s !! p) as [fr|] eqn:Hf; cbn; [|done].
      intros [= <-]. by apply unpend_inv.
Qed.

(** ** The frame of a call's own context

    A call on the gate of the hook that makes it, while that hook's frame is open, is admitted by that frame. *)

Definition own_slots (s : Gates) : Prop := ∀ t x c fr,
  tasks s !! t = Some x → t_ctx x = Some c → frames s !! c = Some fr → fr_gate fr = t_gate x → fr_open fr = true →
  t_slot x = Child c.

(** Steps after the call keep where it came from, and open no frame again. *)
Definition steady_tasks (m m' : gmap nat Task) : Prop := ∀ t x', m' !! t = Some x' →
  ∃ x, m !! t = Some x ∧ t_gate x = t_gate x' ∧ t_ctx x = t_ctx x' ∧ t_slot x = t_slot x'.
Definition steady_frames (m m' : gmap nat HookFrame) : Prop := ∀ f fr', m' !! f = Some fr' →
  m !! f = None ∨ ∃ fr, m !! f = Some fr ∧ fr_gate fr = fr_gate fr' ∧ (fr_open fr' = true → fr_open fr = true).

Lemma steady_own s s' : gate_inv s → own_slots s →
  steady_tasks (tasks s) (tasks s') → steady_frames (frames s) (frames s') → own_slots s'.
Proof.
  intros Hi Ho Ht Hf t x' c fr' Hx Hc Hfr Hg Hopen. destruct (Ht t x' Hx) as (x & Hx0 & Eg & Ec & Es). rewrite <- Es.
  rewrite <- Ec in Hc. rewrite <- Eg in Hg. destruct (Hf c fr' Hfr) as [Hnone|(fr & Hfr0 & E & Himp)].
  - destruct (gi_tasks s Hi t x Hx0) as (_ & H & _). destruct (H c Hc) as [_ [? ?]]. congruence.
  - apply (Ho t x c fr); try done; [congruence|auto].
Qed.

Lemma steady_tasks_refl m : steady_tasks m m.
Proof. intros t x Hx. by exists x. Qed.
Lemma steady_phase m m' t x p : steady_tasks m m' → m !! t = Some x → steady_tasks m (<[t := set_phase p x]> m').
Proof. intros Hm Ht u y [[<- <-]|[_ Hu]]%lookup_insert_Some; [by exists x|by apply Hm]. Qed.
Lemma steady_frames_refl m : steady_frames m m.
Proof. intros f fr Hf. right. by exists fr. Qed.
Lemma steady_frame m f fr fr' : m !! f = Some fr → fr_gate fr = fr_gate fr' → (fr_open fr' = true → fr_open fr = true) →
  steady_frames m (<[f := fr']> m).
Proof.
  intros Hf Hg Ho g gr [[<- <-]|[_ Hu]]%lookup_insert_Some; [right; by exists fr|by apply steady_frames_refl].
Qed.
#[local] Hint Resolve steady_tasks_refl steady_phase steady_frames_refl : core.

Lemma steady_grant o f k s : steady_tasks (tasks s) (tasks (grant o (with_queue k f s))) ∧ frames (grant o (with_queue k f s)) = frames s.
Proof.
  unfold grant. destruct o as [u|]; [|by split; cbn]. destruct (tasks _ !! u) as [y|] eqn:E; cbn in *; split; try done; eauto.
Qed.

Lemma call_own gate ctx s : gate_inv s → own_slots s → own_slots (gate_call gate ctx s).
Proof.
  intros Hi Ho. set (s' := gate_call gate ctx s).
  assert (∃ ph k, tasks s' = <[next_task s := mkTask gate ctx k ph]> (tasks s) ∧ steady_frames (frames s) (frames s')
    ∧ ∀ c fr, ctx = Some c → frames s !! c = Some fr → fr_gate fr = gate → fr_open fr = true → k = Child c) as (ph & k & Et & Hf & Hk).
  { unfold s', gate_call. destruct (owner _ _ _ _) as [[p fr]|] eqn:Eo.
    2: { unfold admit_hook. destruct (fifo_enter _ _ _) as [b q]. eexists _, _. split; [done|]. split; [cbn; eauto|].
         intros c fr -> Hc Hg _. cbn [owner default from_option mbind option_bind] in Eo. rewrite Hc in Eo. cbn in Eo.
         rewrite Hg, Nat.eqb_refl in Eo. done. }
    assert (∀ c fr', ctx = Some c → frames s !! c = Some fr' → fr_gate fr' = gate → p = c ∧ fr' = fr) as Hown.
    { intros c fr' -> Hc Hg. cbn [owner default from_option mbind option_bind] in Eo. rewrite Hc in Eo. cbn in Eo.
      rewrite Hg, Nat.eqb_refl in Eo. by injection Eo as <- <-. }
    apply owner_spec in Eo as [Hp Hg]. destruct (fr_open fr) eqn:Eopen; cbn [negb].
    2: { unfold admit_hook. destruct (fifo_enter _ _ _) as [b q]. eexists _, _. split; [done|]. split; [cbn; eauto|].
         intros c fr' Ec Hc Hg' Hopen. destruct (Hown c fr' Ec Hc Hg') as [_ ->]. congruence. }
    assert (∀ c fr', ctx = Some c → frames s !! c = Some fr' → fr_gate fr' = gate → fr_open fr' = true → Child p = Child c) as Hchild.
    { intros c fr' Ec Hc Hg' _. by destruct (Hown c fr' Ec Hc Hg') as [-> _]. }
    destruct (MAX_HOOK_DEPTH <=? fr_depth fr)%nat; [eexists _, _; split; [done|]; split; [cbn; eauto|exact Hchild]|].
    unfold admit_hook. destruct (fifo_enter _ _ _) as [b q]. eexists _, _. split; [done|]. split; [|exact Hchild].
    cbn. by eapply steady_frame. }
  intros t x c fr Hx Hc Hfr Hg Hopen. rewrite Et in Hx.
  assert (∃ fr0, frames s !! c = Some fr0 ∧ fr_gate fr0 = fr_gate fr ∧ fr_open fr0 = true ∨ frames s !! c = None) as [fr0 Hfr0].
  { destruct (Hf c fr Hfr) as [Hn|(fr0 & H1 & H2 & H3)]; [exists fr; by right|exists fr0; left; auto]. }
  apply lookup_insert_Some in Hx as [[<- <-]|[_ Hx]]; cbn in *.
  - destruct Hfr0 as [(H1 & H2 & H3)|Hn]; [by apply (Hk c fr0); [..|congruence|]|].
    exfalso. assert (frames s' !! c = None) as E; [|congruence]. unfold s', gate_call. subst ctx. cbn [owner default from_option mbind option_bind].
    rewrite Hn. cbn. unfold admit_hook. destruct (fifo_enter _ _ _). exact Hn.
  - destruct Hfr0 as [(H1 & H2 & H3)|Hn]; [by apply (Ho t x c fr0); [..|congruence|]|].
    destruct (gi_tasks s Hi t x Hx) as (_ & H & _). destruct (H c Hc) as [_ [? ?]]. congruence.
Qed.

Lemma step_own e s s' : gate_inv s → own_slots s → gate_step e s = Some s' → own_slots s'.
Proof.
  intros Hi Ho. destruct e as [gate ctx|t]; cbn.
  - destruct ctx as [f|]; [destruct (frames s !! f); [|done]|]; intros [= <-]; by apply call_own.
  - destruct (tasks s !! t) as [x|] eqn:Ht; cbn; [|done]. destruct (t_phase x) eqn:Hp; try done.
    + intros [= <-]. apply (steady_own s); [done|done|cbn; eauto|]. cbn. intros f fr [[<- <-]|[_ Hf]]%lookup_insert_Some;
        [left|by apply steady_frames_refl]. destruct (gi_tasks s Hi t x Ht) as (_ & _ & _ & H). by rewrite Hp in H.
    + destruct (frames s !! t) as [fr|] eqn:Hf; cbn; [|done]. intros [= <-]. apply (steady_own s); [done|done|cbn; eauto|].
      cbn. by eapply steady_frame.
    + intros [= <-]. unfold gate_leave. destruct (fifo_leave _) as [o q]. destruct (steady_grant o q (t_slot x) s) as [Hg Ef].
      apply (steady_own s); [done|done|cbn; eauto|]. cbn. rewrite Ef. eauto.
    + destruct (t_slot x) as [g|p] eqn:Hs; [done|]. destruct (frames s !! p) as [fr|] eqn:Hf; cbn; [|done]. intros [= <-].
      unfold gate_unpend. apply (steady_own s); [done|done| |].
      * cbn [tasks with_task]. apply steady_phase; [|done]. destruct (_ && _); [|cbn; eauto]. cbn [tasks with_frame].
        destruct (tasks s !! p) as [y|] eqn:Hy; cbn; eauto.
      * cbn [frames with_task]. assert (∀ (b : bool) s0, frames (if b then match tasks s0 !! p with
          | Some y => with_task p (set_phase Leaving y) s0 | None => s0 end else s0) = frames s0) as ->.
        { intros [] s0; [by destruct (tasks s0 !! p)|done]. }
        cbn. by eapply steady_frame.
Qed.

Hypothesis limits : ∀ g, 1 <= limit_of g.

Lemma no_gates_inv : gate_inv no_gates.
Proof.
  split; cbn.
  - done.
  - done.
  - intros k. unfold queue_of, holders, queued. cbn. assert (∀ Q, sel Q (∅ : gmap nat Task) = ∅) as He.
    { intros Q. apply set_eq. intros u. rewrite elem_sel. split; [by intros (? & ? & _)|set_solver]. }
    rewrite !He. apply new_fifo_ok. destruct k; cbn; [|lia]. specialize (limits gate). lia.
Qed.

Lemma gate_run_inv es s s' : gate_inv s → gate_run es s = Some s' → gate_inv s'.
Proof.
  revert s. induction es as [|e es IH]; intros s Hi; cbn; [by intros [= <-]|].
  intros (s1 & Hs & Hr)%bind_Some. eapply IH; [|done]. by eapply gate_step_inv.
Qed.

(** The search for the owner never runs out of fuel: parents have smaller numbers. *)
Lemma owner_fuel s gate c fuel :
  gate_inv s → (S c <= fuel)%nat → owner fuel (frames s) gate (Some c) = owner (S c) (frames s) gate (Some c).
Proof.
  intros Hi. revert fuel. induction (lt_wf c) as [c _ IH]. intros [|fuel] Hf; [lia|]. cbn.
  destruct (frames s !! c) as [fr|] eqn:Hc; cbn; [|done].
  destruct (fr_gate fr =? gate)%nat; [done|].
  destruct (gi_frames s Hi c fr Hc) as ([x Hx] & _). destruct (gi_tasks s Hi c x Hx) as (_ & Hctx & _ & H4).
  destruct (has_frame (t_phase x)); [|congruence]. destruct H4 as (fr' & Hf' & _ & _ & Hp & _).
  assert (fr' = fr) as -> by congruence. rewrite Hp. destruct (t_ctx x) as [d|] eqn:Ed; [|by destruct fuel, c].
  destruct (Hctx d eq_refl) as [Hd _]. rewrite (IH d Hd fuel), (IH d Hd c) by lia. done.
Qed.

(** * Guarantees *)

Definition gate_reachable (s : Gates) : Prop := ∃ es, gate_run es no_gates = Some s.

Lemma reachable_inv s : gate_reachable s → gate_inv s.
Proof. intros [es Hr]. by eapply gate_run_inv; [apply no_gates_inv|]. Qed.

Lemma reachable_own s : gate_reachable s → own_slots s.
Proof.
  intros [es Hr]. assert (∀ es s0, gate_inv s0 → own_slots s0 → gate_run es s0 = Some s → own_slots s) as H.
  { clear. intros es. induction es as [|e es IH]; intros s0 Hi Ho; cbn; [by intros [= <-]|].
    intros (s1 & Hs & Hr)%bind_Some. eapply (IH s1); [by eapply gate_step_inv|by eapply step_own|done]. }
  apply (H es no_gates no_gates_inv); [by intros t x c fr ?|done].
Qed.

(** Call [t] holds a permit [n] levels below the root call [r] of its chain. *)
Inductive branch (s : Gates) (r : nat) : nat → nat → Prop :=
| branch_root x g : tasks s !! r = Some x → t_slot x = Root g → holds (t_phase x) = true → branch s r 0 r
| branch_child n t p x : tasks s !! t = Some x → t_slot x = Child p → holds (t_phase x) = true →
    branch s r n p → branch s r (S n) t.

Lemma one_child s p t1 t2 : gate_inv s → t1 ∈ holders s (Child p) → t2 ∈ holders s (Child p) → t1 = t2.
Proof.
  intros Hi H1 H2. pose proof (gi_queues s Hi (Child p)) as Hq.
  pose proof (fifo_count _ _ _ _ Hq) as Hc. pose proof (fifo_bound _ _ _ _ Hq) as Hb. cbn in Hb.
  destruct (decide (t1 = t2)) as [|Hne]; [done|]. exfalso.
  assert (size ({[t1]} ∪ {[t2]} : gset nat) <= size (holders s (Child p)))%nat as Hs
    by (apply subseteq_size; set_solver).
  rewrite size_union, !size_singleton in Hs by set_solver. lia.
Qed.

Lemma branch_held s r n t p x :
  tasks s !! t = Some x → t_slot x = Child p → holds (t_phase x) = true → branch s r n p → t ∈ holders s (Child p).
Proof. intros Ht Hs Hh _. apply elem_sel. exists x. unfold slot_is. by rewrite bool_decide_true. Qed.

Lemma branch_unique s r n t1 t2 : gate_inv s → branch s r n t1 → branch s r n t2 → t1 = t2.
Proof.
  intros Hi. revert t1 t2. induction n as [|n IH]; intros t1 t2 H1 H2; inversion H1; subst; inversion H2; subst; [done|].
  match goal with Ha : branch s r n ?p, Hb : branch s r n ?q |- _ =>
    assert (p = q) by (by apply IH); subst end.
  eapply one_child; [done|by eapply branch_held|by eapply branch_held].
Qed.

Lemma branch_below s r m n t t' :
  gate_inv s → branch s r m t → branch s r n t' → (m < n)%nat → holders s (Child t) ≠ ∅.
Proof.
  intros Hi Ht Ht' Hlt. assert (∃ p u, branch s r m p ∧ u ∈ holders s (Child p)) as (p & u & Hp & Hu).
  { revert t' Ht'. induction n as [|n IH]; intros t' Ht'; [lia|]. inversion Ht'; subst.
    destruct (decide (m = n)) as [->|Hne]; [by eexists _, t'; split; [|by eapply branch_held]|].
    eapply IH; [lia|done]. }
  rewrite (branch_unique s r m t p) by done. set_solver.
Qed.

Lemma holding_branch s t x :
  gate_inv s → tasks s !! t = Some x → holds (t_phase x) = true →
  ∃ r n, r ∈ holders s (Root (t_gate x)) ∧ branch s r n t.
Proof.
  intros Hi. revert x. induction (lt_wf t) as [t _ IH]. intros x Ht Hh.
  destruct (gi_tasks s Hi t x Ht) as (_ & _ & Hslot & _). destruct (t_slot x) as [g|p] eqn:Hs.
  - destruct Hslot as [-> _]. exists t, 0%nat. split; [|by eapply branch_root]. apply elem_sel. exists x.
    unfold slot_is. by rewrite bool_decide_true.
  - destruct Hslot as (Hlt & fr & Hfr & Hg & _).
    destruct (pending_owner s t x p Hi Ht Hs) as (fr' & y & Hfr' & Hy & _ & _ & _ & Hph); [by destruct (t_phase x)|].
    destruct (IH p Hlt y Hy) as (r & n & Hr & Hb); [by destruct Hph as [-> | ->]|].
    exists r, (S n). split; [|by eapply branch_child].
    destruct (gi_tasks s Hi p y Hy) as (_ & _ & _ & H4). assert (has_frame (t_phase y) = true) as Hf
      by by destruct Hph as [-> | ->]. rewrite Hf in H4. destruct H4 as (fr2 & H5 & _ & H6 & _).
    by assert (t_gate x = t_gate y) as -> by congruence.
Qed.

(** The calls of [gate] that hold a permit and wait for no admitted child. *)
Definition leaves (s : Gates) (gate : nat) : gset nat :=
filter (λ t, holders s (Child t) = ∅)
  (sel (λ x, bool_decide (t_gate x = gate) && holds (t_phase x)) (tasks s)).

(** The promise of the gate: however calls are nested and interleaved, at most
  [limit] leaf branches of a gate are admitted at once, each frame admits one
  child branch at a time, and a chain is at most 64 frames deep. *)
Theorem gate_branches_bounded (s : Gates) (gate : nat) :
  gate_reachable s →
  Z.of_nat (size (leaves s gate)) <= limit_of gate
  ∧ (∀ f, (size (holders s (Child f)) <= 1)%nat)
  ∧ ∀ f fr, frames s !! f = Some fr → (fr_depth fr <= 64)%nat.
Proof.
  intros Hi%reachable_inv. split_and!.
  - pose proof (gi_queues s Hi (Root gate)) as Hq. pose proof (fifo_count _ _ _ _ Hq). pose proof (fifo_bound _ _ _ _ Hq).
    cbn in *. enough (size (leaves s gate) <= size (holders s (Root gate)))%nat by lia.
    apply (injective_size (λ t r, ∃ n, branch s r n t)).
    + intros t [Hl (x & Ht & [Hg%bool_decide_eq_true Hh]%andb_true_iff)%elem_sel]%elem_of_filter.
      destruct (holding_branch s t x Hi Ht Hh) as (r & n & Hr & Hb). exists r. rewrite <- Hg. eauto.
    + intros t t' r [Hl _]%elem_of_filter [Hl' _]%elem_of_filter [n Hn] [n' Hn'].
      destruct (lt_eq_lt_dec n n') as [[Hlt|<-]|Hlt].
      * by destruct (branch_below s r n n' t t' Hi Hn Hn' Hlt).
      * by eapply branch_unique.
      * by destruct (branch_below s r n' n t' t Hi Hn' Hn Hlt).
  - intros f. pose proof (gi_queues s Hi (Child f)) as Hq. pose proof (fifo_count _ _ _ _ Hq).
    pose proof (fifo_bound _ _ _ _ Hq). cbn in *. lia.
  - intros f fr Hf. destruct (gi_frames s Hi f fr Hf) as (_ & _ & H). unfold MAX_HOOK_DEPTH in H. lia.
Qed.

(** Structured settlement: a call that some frame admitted or queued is finished
  before the frame's branch gives its permit back; until then the frame's call
  holds its permit. *)
Theorem gate_children_first (s : Gates) (t p : nat) (x : Task) :
  gate_reachable s → tasks s !! t = Some x → t_slot x = Child p → pends (t_phase x) = true →
  ∃ y, tasks s !! p = Some y ∧ (t_phase y = Running ∨ t_phase y = Draining) ∧ p ∈ holders s (t_slot y).
Proof.
  intros Hi%reachable_inv Ht Hs Hp. destruct (pending_owner s t x p Hi Ht Hs Hp) as (fr & y & _ & Hy & _ & _ & _ & Hph).
  exists y. split_and!; [done..|]. apply elem_sel. exists y. unfold slot_is.
  rewrite bool_decide_true by done. by destruct Hph as [-> | ->].
Qed.

Lemma queued_holder s t x :
  gate_inv s → tasks s !! t = Some x → t_phase x = Queued →
  ∃ u y, tasks s !! u = Some y ∧ t_slot y = t_slot x ∧ holds (t_phase y) = true.
Proof.
  intros Hi Ht Hp. pose proof (gi_queues s Hi (t_slot x)) as Hq.
  assert (t ∈ queued s (t_slot x)) as Hin.
  { apply elem_sel. exists x. unfold slot_is. by rewrite bool_decide_true, Hp. }
  apply (fifo_queue _ _ _ _ Hq) in Hin. assert (waiters (queue_of s (t_slot x)) ≠ []) as Hne by (intros E; rewrite E in Hin; by apply elem_of_nil in Hin).
  apply (fifo_busy _ _ _ _ Hq) in Hne. rewrite (fifo_count _ _ _ _ Hq) in Hne.
  assert (1 <= slot_limit (t_slot x)) as Hl by (destruct (t_slot x); cbn; [apply limits|lia]).
  destruct (size_pos_elem_of (holders s (t_slot x))) as [u Hu]; [lia|].
  apply elem_sel in Hu as (y & Hy & [Hs%bool_decide_eq_true Hh]%andb_true_iff). by exists u, y.
Qed.

(** Nothing that was admitted to [u]'s frame, and no call that the hook [u] made itself, on whatever gate, is unfinished. *)
Definition waits_for_none (s : Gates) (u : nat) : Prop :=
  children s u = ∅ ∧ ∀ v z, tasks s !! v = Some z → t_ctx z = Some u → pends (t_phase z) = false.

(** A call whose continuation can run now, or a hook that runs and waits for no call. *)
Definition can_move (s : Gates) (u : nat) (y : Task) : Prop :=
tasks s !! u = Some y ∧ match t_phase y with
                        | Granted | Leaving | Released => True
                        | Running => waits_for_none s u
                        | _ => False
                        end.

(** Where hooks call other gates than their own, they do so upward in some order of the gates. *)
Definition upward (rank : nat → nat) (s : Gates) : Prop := ∀ t x c y,
  tasks s !! t = Some x → t_ctx x = Some c → tasks s !! c = Some y →
  t_gate x = t_gate y ∨ (rank (t_gate y) < rank (t_gate x))%nat.

Lemma rank_bound (rank : nat → nat) (m : gmap nat Task) : ∃ b, ∀ t x, m !! t = Some x → (rank (t_gate x) <= b)%nat.
Proof.
  induction m as [|t x m _ [b IH]] using map_ind; [by exists 0%nat|]. exists (rank (t_gate x) + b)%nat.
  intros u y [[_ <-]|[_ Hu]]%lookup_insert_Some; [lia|]. specialize (IH u y Hu). lia.
Qed.

(** Who holds the permit that a queued call waits for is of its gate, and made no earlier than its frame. *)
Lemma queued_gate s t x : gate_inv s → tasks s !! t = Some x → t_phase x = Queued →
  ∃ u y, tasks s !! u = Some y ∧ holds (t_phase y) = true ∧ t_gate y = t_gate x
    ∧ ∀ p, t_slot x = Child p → (p < u)%nat.
Proof.
  intros Hi Ht Hq. destruct (queued_holder s t x Hi Ht Hq) as (u & y & Hu & Hs & Hh). exists u, y. split; [done|]. split; [done|].
  destruct (gi_tasks s Hi t x Ht) as (_ & _ & Hx & _), (gi_tasks s Hi u y Hu) as (_ & _ & Hy & _). rewrite Hs in Hy.
  destruct (t_slot x) as [g|p]; [split; [destruct Hx as [<- _], Hy as [<- _]; done|done]|].
  destruct Hx as (_ & fr & Hfr & Hg & _), Hy as (Hlt & fr' & Hfr' & Hg' & _). split; [congruence|]. by intros p' [= <-].
Qed.

Lemma active_moves rank s t x :
  gate_inv s → own_slots s → upward rank s → tasks s !! t = Some x → pends (t_phase x) = true → t_phase x ≠ Queued →
  ∃ u y, can_move s u y.
Proof.
  intros Hi Hown Hup. destruct (rank_bound rank (tasks s)) as [b Hb].
  assert (∀ m n t x, (b - rank (t_gate x) <= m)%nat → (next_task s - t <= n)%nat → tasks s !! t = Some x →
    pends (t_phase x) = true → t_phase x ≠ Queued → ∃ u y, can_move s u y) as Hmain.
  2: { by apply (Hmain (b - rank (t_gate x))%nat (next_task s - t)%nat). }
  clear t x. intros m. induction m as [m IHm] using lt_wf_ind. intros n. induction n as [|n IHn]; intros t x Hm Hn Ht Hp Hq.
  { destruct (gi_tasks s Hi t x Ht) as (? & _). lia. }
  (* a later call of the same gate, or any call of a higher one, leads on *)
  assert (∀ c z, tasks s !! c = Some z → pends (t_phase z) = true →
    (t_gate z = t_gate x ∧ (t < c)%nat ∧ t_slot z = Child t) ∨ (rank (t_gate x) < rank (t_gate z))%nat → ∃ u y, can_move s u y) as Hnext.
  { intros c z Hz Hpz Hor. pose proof (Hb c z Hz) as Hbz.
    destruct (decide (t_phase z = Queued)) as [Eq|Eq].
    - destruct (queued_gate s c z Hi Hz Eq) as (u & y & Hu & Hh & Hg & Hlt).
      assert (pends (t_phase y) = true ∧ t_phase y ≠ Queued) as [Hpy Hqy] by (by destruct (t_phase y)).
      destruct Hor as [(E & _ & Hs)|Hr].
      + apply (IHn u y); [by rewrite Hg, E|specialize (Hlt t Hs); lia|done..].
      + apply (IHm (b - rank (t_gate z))%nat ltac:(lia) (next_task s - u)%nat u y); [by rewrite Hg|lia|done..].
    - destruct Hor as [(E & Hlt & _)|Hr]; [apply (IHn c z); [by rewrite E|lia|done..]|].
      by apply (IHm (b - rank (t_gate z))%nat ltac:(lia) (next_task s - c)%nat c z). }
  destruct (set_choose_or_empty (children s t)) as [[c Hc]|Hnone%leibniz_equiv].
  { apply elem_sel in Hc as (z & Hz & [Hs%bool_decide_eq_true Hpz]%andb_true_iff). apply (Hnext c z Hz Hpz). left.
    destruct (pending_owner s c z t Hi Hz Hs Hpz) as (_ & y & _ & Hy & _). assert (y = x) as -> by congruence.
    destruct (gi_tasks s Hi c z Hz) as (_ & _ & Hslot & _). rewrite Hs in Hslot. destruct Hslot as (Hlt & fr & Hfr & Hg & _).
    split; [|done]. destruct (gi_tasks s Hi t x Ht) as (_ & _ & _ & H4). destruct (has_frame (t_phase x)); [|congruence].
    destruct H4 as (fr' & Hfr' & _ & Hg' & _). congruence. }
  destruct (t_phase x) eqn:E; try done; try (exists t, x; split; [done|by rewrite E]).
  - (* a running hook: it waits for no call, or for one that leads on *)
    destruct (decide (map_Forall (λ _ z, t_ctx z = Some t → pends (t_phase z) = false) (tasks s))) as [Hall|Hsome].
    { exists t, x. split; [done|]. rewrite E. split; [done|]. intros v z Hv. by apply (Hall v z). }
    apply map_not_Forall in Hsome as (v & z & Hv & Hz); [|tauto || apply _].
    destruct (decide (t_ctx z = Some t)) as [Hc|Hc]; [|by destruct Hz]. destruct (pends (t_phase z)) eqn:Epz; [|by destruct Hz].
    apply (Hnext v z Hv Epz). destruct (Hup v z t x Hv Hc Ht) as [Eg|Hr]; [left|by right]. split; [done|].
    destruct (gi_tasks s Hi v z Hv) as (_ & Hlt & _). destruct (Hlt t Hc) as [? _]. split; [done|].
    destruct (gi_tasks s Hi t x Ht) as (_ & _ & _ & H4). rewrite E in H4. destruct H4 as (fr & Hfr & [Ho _] & Hg & _).
    by apply (Hown v z t fr); [..|congruence|].
  - destruct (gi_tasks s Hi t x Ht) as (_ & _ & _ & H4). rewrite E in H4. cbn in H4.
    destruct H4 as (fr & Hfr & (_ & _ & Hpos) & _). destruct (gi_frames s Hi t fr Hfr) as (_ & Hsz & _).
    by rewrite Hnone, size_empty in Hsz.
Qed.

(** C39: No deadlock: as long as a call is unfinished, the continuation of some call can run, or a hook runs that waits
    for no call: nothing its frame admitted, and none of the calls it made itself, on any gate, is unfinished.
    This is so in every reachable state, however calls are nested, detached and interleaved, in which
    hooks that call other gates than their own do so upward in some order of the gates; with a single gate,
    as a request has, always. *)
Theorem gate_never_stuck (rank : nat → nat) (s : Gates) (t : nat) (x : Task) :
  gate_reachable s → upward rank s → tasks s !! t = Some x → pends (t_phase x) = true →
  ∃ u y s', can_move s u y ∧ gate_step (Advance u) s = Some s'.
Proof.
  intros Hr Hup Ht Hp. pose proof (reachable_inv s Hr) as Hi. pose proof (reachable_own s Hr) as Hown.
  assert (∃ u y, can_move s u y) as (u & y & Hu & Hm).
  { destruct (decide (t_phase x = Queued)) as [E|E]; [|by eapply active_moves].
    destruct (queued_holder s t x Hi Ht E) as (u & y & Hu & _ & Hh).
    apply (active_moves rank s u y Hi Hown Hup Hu); [by destruct (t_phase y)|by intros E'; rewrite E' in Hh]. }
  exists u, y. destruct (gi_tasks s Hi u y Hu) as (_ & _ & H3 & H4). cbn. rewrite Hu. cbn.
  destruct (t_phase y) eqn:Ey; try done; try by eexists; split; [split; [done|by rewrite Ey]|].
  - cbn in H4. destruct H4 as (fr & -> & _). eexists. split; [split; [done|by rewrite Ey]|done].
  - destruct (t_slot y) as [g|p]; [by destruct H3|]. destruct H3 as (_ & fr & -> & _).
    eexists. split; [split; [done|by rewrite Ey]|done].
Qed.
End gate.

Lemma safe_integer_range n z : safe_integer n = Some z → Z.abs z <= MAX_SAFE_INTEGER.
Proof.
  unfold safe_integer. destruct n as [| |q]; try done. destruct (Q_to_Z q) as [z'|]; cbn; [|done].
  destruct (Z.leb_spec (Z.abs z') MAX_SAFE_INTEGER); [by intros [= <-]|done].
Qed.

(** Every normalized limit admits work. *)
Lemma normalized_limit limit fallback : 1 <= normalizeHookConcurrencyLimit limit fallback <= MAX_SAFE_INTEGER.
Proof.
  unfold normalizeHookConcurrencyLimit. assert (1 <= match safe_integer fallback with
    | Some f => if 1 <=? f then f else 10 | None => 10 end <= MAX_SAFE_INTEGER) as Hf.
  { destruct (safe_integer fallback) as [f|] eqn:E; [|unfold MAX_SAFE_INTEGER; lia].
    apply safe_integer_range in E. destruct (Z.leb_spec 1 f); unfold MAX_SAFE_INTEGER in *; lia. }
  destruct (n ← limit; floor_number n) as [z|]; [|done]. unfold usable_limit.
  destruct (Z.leb_spec 1 z), (Z.leb_spec z MAX_SAFE_INTEGER); cbn; done.
Qed.

(** * Concrete instance *)

(** Gate 0 admits one chain, gate 1 two. *)
Definition example_limits (g : nat) : Z :=
  normalizeHookConcurrencyLimit (Some (num_of_Z (Z.of_nat g + 1))) (num_of_Z 10).

(** A root hook calls its gate twice, another gate once, while a second root waits. *)
Definition example_events : list gate_event :=
  [Call 0 None; Advance 0; Call 0 (Some 0); Call 0 (Some 0); Call 0 None; Advance 1; Call 1 (Some 1);
   Advance 4; Call 0 (Some 4); Advance 0]%nat.

Definition example_gates : Gates := default no_gates (gate_run example_limits example_events no_gates).
Definition example_task (t : nat) : Task := default (mkTask 0 None (Root 0) Done) (tasks example_gates !! t).

Lemma example_limits_ok g : 1 <= example_limits g.
Proof. apply normalized_limit. Qed.

Lemma gate_branches_bounded_witness :
  Z.of_nat (size (leaves example_gates 0)) <= example_limits 0
  ∧ (∀ f, (size (holders example_gates (Child f)) <= 1)%nat)
  ∧ ∀ f fr, frames example_gates !! f = Some fr → (fr_depth fr <= 64)%nat.
Proof.
  apply (gate_branches_bounded example_limits example_limits_ok example_gates 0).
  exists example_events. vm_compute. reflexivity.
Defined.

Lemma gate_children_first_witness :
  ∃ y, tasks example_gates !! 1%nat = Some y ∧ (t_phase y = Running ∨ t_phase y = Draining)
    ∧ 1%nat ∈ holders example_gates (t_slot y).
Proof.
  apply (gate_children_first example_limits example_limits_ok example_gates 5 1 (example_task 5)).
  - exists example_events. vm_compute. reflexivity.
  - vm_compute. reflexivity.
  - vm_compute. reflexivity.
  - vm_compute. reflexivity.
Defined.

(** The same without the call on gate 0 from the hook of gate 1. *)
Definition upward_events : list gate_event := firstn 8 example_events.
Definition upward_gates : Gates := default no_gates (gate_run example_limits upward_events no_gates).

Lemma gate_never_stuck_witness :
  ∃ u y s', can_move upward_gates u y ∧ gate_step example_limits (Advance u) upward_gates = Some s'.
Proof.
  apply (gate_never_stuck example_limits example_limits_ok id upward_gates 2
    (default (mkTask 0 None (Root 0) Done) (tasks upward_gates !! 2%nat))).
  - exists upward_events. vm_compute. reflexivity.
  - assert (map_Forall (λ _ x, match t_ctx x with
                               | Some c => match tasks upward_gates !! c with
                                           | Some y => t_gate x = t_gate y ∨ (t_gate y < t_gate x)%nat
                                           | None => True
                                           end
                               | None => True
                               end) (tasks upward_gates)) as H.
    { apply map_Forall_to_list. vm_compute. repeat first [exact I | by left | by (right; lia) | constructor]. }
    intros t x c y Hx Hc Hy. specialize (H t x Hx). cbv beta in H. rewrite Hc, Hy in H. exact H.
  - vm_compute. reflexivity.
  - vm_compute. reflexivity.
Defined.

(** The order is needed: the hooks of two gates of limit one that call each other's gate wait for each other. *)
Definition crossed_events : list gate_event :=
  [Call 0 None; Call 1 None; Advance 0; Advance 1; Call 1 (Some 0); Call 0 (Some 1)]%nat.
Definition crossed_gates : Gates := default no_gates (gate_run (λ _, 1) crossed_events no_gates).

Example crossed_gates_stuck :
  gate_run (λ _, 1) crossed_events no_gates = Some crossed_gates ∧ ∀ u y, ¬ can_move crossed_gates u y.
Proof.
  split; [vm_compute; reflexivity|]. intros u y [Hu Hm].
  assert (tasks crossed_gates = <[0%nat := mkTask 0 None (Root 0) Running]> (<[1%nat := mkTask 1 None (Root 1) Running]>
    (<[2%nat := mkTask 1 (Some 0%nat) (Root 1) Queued]> {[3%nat := mkTask 0 (Some 1%nat) (Root 0) Queued]}))) as E by (by vm_compute).
  rewrite E in Hu. unfold waits_for_none in Hm. rewrite E in Hm. clear E.
  repeat (apply lookup_insert_Some in Hu as [[<- <-]|[_ Hu]]).
  - destruct Hm as [_ Hm]. by specialize (Hm 2%nat _ eq_refl eq_refl).
  - destruct Hm as [_ Hm]. by specialize (Hm 3%nat _ eq_refl eq_refl).
  - done.
  - by apply lookup_singleton_Some in Hu as [<- <-].
Qed.
