(* ===== verification/DpopNonce.v ===== *)
(** express-oidc-vault, [dpop-nonce.ts]: the stateless signer of DPoP nonces.

    [hmac_sha256] and [sha256] are Node's; [random] is what [randomBytes(16)]
    returned. The clock readings are arbitrary numbers. *)

From S2P Require Import Prelude JsValue JsJson AttestTypes AttestCanonical AttestVerify JsBuffer VaultBinding.

Definition NONCE_VERSION : jsstr := js "v1".
Definition HMAC_DOMAIN : jsstr := js "@web-ts-toolkit/express-oidc-vault/dpop-nonce/v1" ++ [0].
Definition DPOP_NONCE_MAX_BYTES : Z := 512.

Inductive nonce_error := NonceTypeError (message : jsstr).
Notation nres := (result nonce_error).

(** [decodeBase64url(value, byteLength)] *)
Definition decodeBase64url (value : jsstr) (byteLength : option nat) : option (list Z) :=
  if negb (negb (length value =? 0)%nat && all_units name_unit value) then None
  else
    let bytes := buffer_of_base64url value in
    if negb (jsstr_eqb (base64urlEncode bytes) value)
       || match byteLength with Some n => negb (length bytes =? n)%nat | None => false end
    then None else Some bytes.

(** [isCanonicalDpopJkt] of [device-binding-policy.ts]. *)
Definition isCanonicalDpopJkt (v : jsval) : bool :=
  match v with JStr s => (length s =? 43)%nat && hash_pattern s | _ => false end.

(** The options, as the caller passes them. *)
Record NonceOptions := mkNonceOptions {
  no_secret : jsval;
  no_lifetimeSeconds : jsval;
  no_namespace : jsval
}.

(** What [createDpopNoncePolicy] keeps. *)
Record NoncePolicy := mkNoncePolicy {
  np_secret : list Z;
  np_lifetimeMs : Z;
  np_namespaceDigest : jsstr
}.

Section nonce.
Variable sha256 : list Z → list Z.
Variable hmac_sha256 : list Z → list Z → list Z.

Definition createDpopNoncePolicy (options : NonceOptions) : nres NoncePolicy :=
  let* configuredSecret :=
    match no_secret options with
    | JBytes bs => if (length bs <? 32)%nat
                   then Err (NonceTypeError (js "DPoP nonce secret must be a Uint8Array of at least 32 bytes."))
                   else Ok bs
    | _ => Err (NonceTypeError (js "DPoP nonce secret must be a Uint8Array of at least 32 bytes."))
    end in
  let lifetimeError :=
    NonceTypeError (js "DPoP nonce lifetime must be an integer from 1 through 300 seconds.") in
  let* lifetimeSeconds :=
    match (match no_lifetimeSeconds options with JUndef => JNum (num_of_Z 60) | v => v end) with
    | JNum n => match integer_of n with
                | Some z => if (z <? 1) || (300 <? z) then Err lifetimeError else Ok z
                | None => Err lifetimeError
                end
    | _ => Err lifetimeError
    end in
  let* namespace :=
    match no_namespace options with
    | JStr s => if (length s =? 0)%nat
                then Err (NonceTypeError (js "DPoP nonce requires a resolved protection-space namespace."))
                else Ok s
    | _ => Err (NonceTypeError (js "DPoP nonce requires a resolved protection-space namespace."))
    end in
  Ok (mkNoncePolicy configuredSecret (lifetimeSeconds * 1000)
        (base64urlEncode (sha256 (utf8_encode namespace)))).

Definition nonce_sign (p : NoncePolicy) (encodedPayload : jsstr) : list Z :=
  hmac_sha256 (np_secret p)
    (utf8_encode HMAC_DOMAIN ++ buffer_of_ascii (NONCE_VERSION ++ [46] ++ encodedPayload)).

Definition nonce_issue (p : NoncePolicy) (random : list Z) (jkt : jsstr) (now : num) : nres jsstr :=
  let expiresAt := num_add now (num_of_Z (np_lifetimeMs p)) in
  guard (isCanonicalDpopJkt (JStr jkt) && bool_decide (is_Some (epoch_ms (JNum now)))
         && bool_decide (is_Some (epoch_ms (JNum expiresAt))) && num_lt now expiresAt)
    (NonceTypeError
       (js "DPoP nonce issuance requires a canonical key thumbprint and a safe live epoch window.")) ;;;
  let payload := json_text (JArr [JStr (base64urlEncode random); JNum now; JNum expiresAt;
                                  JStr (np_namespaceDigest p); JStr jkt]) in
  let encodedPayload := base64urlEncode (utf8_encode payload) in
  let nonce := NONCE_VERSION ++ [46] ++ encodedPayload ++ [46]
               ++ base64urlEncode (nonce_sign p encodedPayload) in
  guard (byteLength nonce <=? DPOP_NONCE_MAX_BYTES)
    (NonceTypeError (js "DPoP nonce issuance exceeded its fixed wire bound.")) ;;;
  Ok nonce.

(** The payload checks of [verify]; the epochs are safe integers, so their
    difference is exact. *)
Definition nonce_payload_ok (p : NoncePolicy) (payload : list jsval) (jkt : jsstr) (now : Z) : bool :=
  match payload with
  | [JStr random; issuedAt; expiresAt; context; key] =>
      match decodeBase64url random (Some 16%nat), epoch_ms issuedAt, epoch_ms expiresAt with
      | Some _, Some issuedAt, Some expiresAt =>
          if negb (js_strict_eq context (JStr (np_namespaceDigest p)))
             || negb (js_strict_eq key (JStr jkt))
          then false
          else
            let declaredLifetime := expiresAt - issuedAt in
            (1000 <=? declaredLifetime) && (declaredLifetime <=? np_lifetimeMs p)
            && (Z.rem declaredLifetime 1000 =? 0) && (issuedAt <=? now) && (now <? expiresAt)
      | _, _, _ => false
      end
  | _ => false
  end.

Definition nonce_verify (p : NoncePolicy) (nonce : jsval) (jkt : jsstr) (now : num) : bool :=
  match epoch_ms (JNum now), nonce with
  | Some now, JStr nonce =>
      if negb (isCanonicalDpopJkt (JStr jkt))
         || (DPOP_NONCE_MAX_BYTES <? Z.of_nat (length nonce))
         || (DPOP_NONCE_MAX_BYTES <? byteLength nonce)
      then false
      else
        match split_on 46 nonce with
        | [version; encodedPayload; encodedMac] =>
            if negb (jsstr_eqb version NONCE_VERSION) || (length encodedPayload =? 0)%nat
               || (length encodedMac =? 0)%nat
            then false
            else
              match decodeBase64url encodedMac (Some 32%nat), decodeBase64url encodedPayload None with
              | Some mac, Some bytes =>
                  if negb (bool_decide (mac = nonce_sign p encodedPayload)) then false
                  else
                    match json_parse (buffer_to_utf8 bytes) with
                    | Some (JArr payload) =>
                        if negb (length payload =? 5)%nat
                           || negb (bool_decide (bytes = utf8_encode (json_text (JArr payload))))
                        then false
                        else nonce_payload_ok p payload jkt now
                    | _ => false
                    end
              | _, _ => false
              end
        | _ => false
        end
  | _, _ => false
  end.
End nonce.

(** * The wire format *)

Lemma decode_spec value n bs :
  decodeBase64url value n = Some bs ↔
  bs ≠ [] ∧ bytes_ok bs ∧ value = base64urlEncode bs ∧ (∀ k, n = Some k → length bs = k).
Proof.
  unfold decodeBase64url. split.
  - case_match eqn:H1; [done|]. cbv zeta. case_match eqn:H2; [done|]. intros [= <-].
    apply negb_false_iff, andb_true_iff in H1 as [Hne Hu]. apply orb_false_iff in H2 as [He Hl].
    apply negb_false_iff, jsstr_eqb_true in He.
    split_and!; [|apply buffer_base64url_bytes|done|].
    + intros E. rewrite E in He. cbn in He. by subst value.
    + intros k ->. by apply negb_false_iff, Nat.eqb_eq in Hl.
  - intros (Hne & Hok & -> & Hk). rewrite encode_units, buffer_of_encode, jsstr_eqb_refl by done.
    pose proof (encode_nonempty bs Hne) as Hne'. destruct (base64urlEncode bs) eqn:E; [done|]. cbn.
    destruct n as [k|]; [|done]. by rewrite (Hk k), Nat.eqb_refl.
Qed.

Lemma canonical_jkt jkt :
  isCanonicalDpopJkt (JStr jkt) = true → length jkt = 43%nat ∧ all_units name_unit jkt = true.
Proof.
  cbn. unfold hash_pattern. intros [Hl%Nat.eqb_eq H]%andb_true_iff. split; [done|].
  apply andb_true_iff in H as [H Hlast]. apply andb_true_iff in H as [_ Hfirst].
  rewrite <- (take_drop 42 jkt). unfold all_units in *. rewrite forallb_app, Hfirst. cbn [andb].
  eapply (all_units_impl _ name_unit); [|exact Hlast]. intros c. cbn beta. unfold includes_char.
  rewrite existsb_exists. intros (d & Hd & ->%Z.eqb_eq).
  assert (forallb name_unit (js "AEIMQUYcgkosw048") = true) as Hall by done.
  rewrite forallb_forall in Hall. by apply Hall.
Qed.

(** The text of a nonce. *)
Definition nonce_payload (digest random : jsstr) (issuedAt expiresAt : Z) (jkt : jsstr) : list jsval :=
  [JStr random; JNum (num_of_Z issuedAt); JNum (num_of_Z expiresAt); JStr digest; JStr jkt].

Section spelling.
Variable hmac_sha256 : list Z → list Z → list Z.

Definition nonce_text (p : NoncePolicy) (random : list Z) (issuedAt expiresAt : Z) (jkt : jsstr) : jsstr :=
  let encodedPayload := base64urlEncode (utf8_encode (json_text (JArr
    (nonce_payload (np_namespaceDigest p) (base64urlEncode random) issuedAt expiresAt jkt)))) in
  NONCE_VERSION ++ [46] ++ encodedPayload ++ [46]
    ++ base64urlEncode (nonce_sign hmac_sha256 p encodedPayload).

(** A policy that [createDpopNoncePolicy] can return. *)
Definition nonce_policy_ok (p : NoncePolicy) : Prop :=
  (∃ d, length d = 32%nat ∧ bytes_ok d ∧ np_namespaceDigest p = base64urlEncode d)
  ∧ ∃ l, 1 <= l <= 300 ∧ np_lifetimeMs p = l * 1000.

Lemma payload_frame p r i e jkt :
  nonce_policy_ok p → bytes_ok r → is_safe i = true → is_safe e = true →
  isCanonicalDpopJkt (JStr jkt) = true →
  Forall frame_value (nonce_payload (np_namespaceDigest p) (base64urlEncode r) i e jkt).
Proof.
  intros [(d & _ & Hd & ->) _] Hr Hi He [_ Hj]%canonical_jkt.
  assert (∀ s, all_units name_unit s = true → frame_value (JStr s)) as Hs
    by (intros s Hs; by apply ascii_units_ok, units_ascii).
  repeat (apply Forall_cons; split); try apply Forall_nil; try done; try (by eexists); try apply Hs;
    try by apply encode_units. done.
Qed.

Lemma payload_text p r i e jkt :
  nonce_policy_ok p → bytes_ok r → length r = 16%nat → 0 <= i <= MAX_SAFE_INTEGER →
  0 <= e <= MAX_SAFE_INTEGER → isCanonicalDpopJkt (JStr jkt) = true →
  let text := json_text (JArr (nonce_payload (np_namespaceDigest p) (base64urlEncode r) i e jkt)) in
  (length text <= 152)%nat ∧ forallb is_ascii text = true.
Proof.
  intros [(d & Hdl & Hd & Ed) _] Hr Hrl Hi He [Hjl Hj]%canonical_jkt. cbv zeta.
  assert (∀ z, 0 <= z <= MAX_SAFE_INTEGER → json_text (JNum (num_of_Z z)) = dec_of_Z z) as Hnum.
  { intros z Hz. unfold json_text. rewrite stringify_int; [done|]. apply Z.leb_le. lia. }
  assert (∀ z, 0 <= z <= MAX_SAFE_INTEGER → (length (dec_of_Z z) <= 16)%nat) as Hlen.
  { intros z Hz. unfold dec_of_Z. rewrite (proj2 (Z.ltb_ge _ _)) by lia. apply (dec_digits_length _ _ 15).
    unfold MAX_SAFE_INTEGER in Hz. lia. }
  change (json_text (JArr ?l)) with ([91] ++ join_with 44 (map json_text l) ++ [93]).
  unfold nonce_payload. cbn [map]. rewrite !Hnum by done. change (json_text (JStr ?s)) with (json_quote s).
  rewrite Ed. split.
  - rewrite !quote_name by (done || by apply encode_units). cbn [join_with].
    repeat (rewrite ?length_app; cbn [length]). rewrite !encode_length, Hdl, Hrl, Hjl.
    change ((32 * 4 + 2) / 3)%nat with 43%nat. change ((16 * 4 + 2) / 3)%nat with 22%nat.
    pose proof (Hlen i Hi). pose proof (Hlen e He). lia.
  - rewrite !forallb_app, ascii_join; [done|].
    repeat (apply Forall_cons; split); try apply Forall_nil; try done;
      try apply dec_of_Z_ascii; apply quote_name_ascii; try done; by apply encode_units.
Qed.

Hypothesis hmac_length : ∀ k m, length (hmac_sha256 k m) = 32%nat.
Hypothesis hmac_bytes : ∀ k m, bytes_ok (hmac_sha256 k m).

Lemma nonce_text_bound p r i e jkt :
  nonce_policy_ok p → bytes_ok r → length r = 16%nat → 0 <= i <= MAX_SAFE_INTEGER →
  0 <= e <= MAX_SAFE_INTEGER → isCanonicalDpopJkt (JStr jkt) = true →
  (length (nonce_text p r i e jkt) <= 250)%nat ∧ forallb is_ascii (nonce_text p r i e jkt) = true.
Proof.
  intros Hp Hr Hrl Hi He Hj. pose proof (payload_text p r i e jkt Hp Hr Hrl Hi He Hj) as [Hl Ha].
  unfold nonce_text. rewrite ascii_utf8 by done. set (text := json_text _) in *.
  assert (bytes_ok text) as Hb.
  { apply Forall_forall. intros c Hc%list_elem_of_In. rewrite forallb_forall in Ha. apply Ha in Hc.
    unfold is_ascii in Hc. apply in_range_spec in Hc. unfold byte_ok. lia. }
  split.
  - repeat (rewrite ?length_app; cbn [length NONCE_VERSION js]). rewrite !encode_length.
    unfold nonce_sign. rewrite hmac_length. change ((32 * 4 + 2) / 3)%nat with 43%nat.
    assert ((length text * 4 + 2) / 3 <= (152 * 4 + 2) / 3)%nat as Hd by (apply Nat.Div0.div_le_mono; lia).
    change ((152 * 4 + 2) / 3)%nat with 203%nat in Hd. change (length NONCE_VERSION) with 2%nat. lia.
  - rewrite !forallb_app. rewrite !(units_ascii (base64urlEncode _)); [done|..]; apply encode_units; [|done].
    unfold nonce_sign. apply hmac_bytes.
Qed.

(** What [verify] checks of the epochs. *)
Definition nonce_live (p : NoncePolicy) (issuedAt expiresAt now : Z) : Prop :=
  1000 <= expiresAt - issuedAt <= np_lifetimeMs p ∧ (expiresAt - issuedAt) mod 1000 = 0
  ∧ issuedAt <= now < expiresAt.

Lemma payload_checks p payload jkt now :
  nonce_payload_ok p payload jkt now = true ↔
  ∃ r mi me i e, payload = [JStr (base64urlEncode r); mi; me; JStr (np_namespaceDigest p); JStr jkt]
    ∧ bytes_ok r ∧ length r = 16%nat ∧ epoch_ms mi = Some i ∧ epoch_ms me = Some e
    ∧ nonce_live p i e now.
Proof.
  unfold nonce_payload_ok, nonce_live. split.
  - intros H. repeat case_match; try discriminate. bool_prop.
    repeat match goal with H : js_strict_eq _ _ = true |- _ => apply strict_eq_string in H end. subst.
    match goal with H : decodeBase64url _ _ = Some _ |- _ => apply decode_spec in H as (_ & Hr & -> & Hl) end.
    do 5 eexists. split_and!; try done; try lia. by apply Hl.
  - intros (r & mi & me & i & e & -> & Hr & Hl & -> & -> & Hlife & Hmod & Hnow).
    rewrite (proj2 (decode_spec _ _ r)) by (split_and!; try done; try congruence; by intros ->).
    cbn [js_strict_eq]. rewrite !jsstr_eqb_refl. cbn [negb orb]. rewrite Z.rem_mod_nonneg by lia.
    rewrite Hmod. rewrite !andb_true_iff, !Z.leb_le, Z.ltb_lt, Z.eqb_eq. lia.
Qed.

Lemma nonce_parts p ep em jkt now :
  isCanonicalDpopJkt (JStr jkt) = true → all_units name_unit ep = true → all_units name_unit em = true →
  ep ≠ [] → em ≠ [] → Z.of_nat (length (NONCE_VERSION ++ [46] ++ ep ++ [46] ++ em)) <= 512 →
  nonce_verify hmac_sha256 p (JStr (NONCE_VERSION ++ [46] ++ ep ++ [46] ++ em)) jkt now =
    match epoch_ms (JNum now), decodeBase64url em (Some 32%nat), decodeBase64url ep None with
    | Some now, Some mac, Some bytes =>
        bool_decide (mac = nonce_sign hmac_sha256 p ep)
        && match json_parse (buffer_to_utf8 bytes) with
           | Some (JArr payload) =>
               (length payload =? 5)%nat && bool_decide (bytes = utf8_encode (json_text (JArr payload)))
               && nonce_payload_ok p payload jkt now
           | _ => false
           end
    | _, _, _ => false
    end.
Proof.
  intros Hj Hep Hem Hne1 Hne2 Hlen. unfold nonce_verify. set (s := NONCE_VERSION ++ _) in *.
  destruct (epoch_ms (JNum now)) as [t|]; [|done]. rewrite Hj.
  assert (forallb is_ascii s = true) as Ha.
  { unfold s. rewrite !forallb_app. by rewrite !(units_ascii _ Hep), (units_ascii _ Hem). }
  unfold byteLength. rewrite ascii_utf8 by done. unfold DPOP_NONCE_MAX_BYTES.
  rewrite (proj2 (Z.ltb_ge 512 _)) by lia. cbn [negb orb].
  assert (split_on 46 s = [NONCE_VERSION; ep; em]) as ->.
  { unfold s. change (NONCE_VERSION ++ _) with (NONCE_VERSION ++ 46 :: ep ++ 46 :: em).
    by rewrite !split_on_app, split_on_none by by apply units_no_dot. }
  rewrite jsstr_eqb_refl. destruct ep as [|x ep]; [done|]. destruct em as [|y em]; [done|].
  cbn [length Nat.eqb negb orb].
  destruct (decodeBase64url (y :: em) (Some 32%nat)) as [mac|], (decodeBase64url (x :: ep) None) as [bytes|]; try done.
  destruct (bool_decide (mac = _)); [|done]. cbn [negb andb].
  destruct (json_parse _) as [[| | | | |payload| | |]|]; try done.
  destruct (length payload =? 5)%nat; [|done]. cbn [negb andb orb]. by destruct (bool_decide _).
Qed.

(** A string that [verify] takes apart. *)
Lemma nonce_verify_parts p s jkt now :
  nonce_verify hmac_sha256 p (JStr s) jkt now = true →
  isCanonicalDpopJkt (JStr jkt) = true ∧ ∃ t ep em mac bytes payload,
    s = NONCE_VERSION ++ [46] ++ ep ++ [46] ++ em ∧ epoch_ms (JNum now) = Some t
    ∧ decodeBase64url em (Some 32%nat) = Some mac ∧ decodeBase64url ep None = Some bytes
    ∧ mac = nonce_sign hmac_sha256 p ep ∧ bytes = utf8_encode (json_text (JArr payload))
    ∧ nonce_payload_ok p payload jkt t = true.
Proof.
  unfold nonce_verify. intros H. destruct (epoch_ms (JNum now)) as [t|]; [|done].
  case_match eqn:Hj; [done|]. apply orb_false_iff in Hj as [Hj _]. apply orb_false_iff in Hj as [Hj%negb_false_iff _].
  split; [done|]. pose proof (join_split 46 s) as Hs.
  destruct (split_on 46 s) as [|v [|ep [|em [|]]]]; try done. case_match eqn:Hv; [done|].
  apply orb_false_iff in Hv as [Hv _]. apply orb_false_iff in Hv as [Hv%negb_false_iff%jsstr_eqb_true _].
  destruct (decodeBase64url em (Some 32%nat)) as [mac|] eqn:Em, (decodeBase64url ep None) as [bytes|] eqn:Ep; try done.
  destruct (bool_decide (mac = _)) eqn:Hm; [|done]. cbn [negb] in H.
  destruct (json_parse _) as [[| | | | |payload| | |]|]; try done. case_match eqn:Hp; [done|].
  apply orb_false_iff in Hp as [_ Hp%negb_false_iff%bool_decide_eq_true].
  apply bool_decide_eq_true in Hm. exists t, ep, em, mac, bytes, payload. split_and!; try done.
  by rewrite <- Hs, Hv.
Qed.

(** On a nonce of the right spelling only the payload is left to check. *)
Lemma nonce_text_verify p r i e jkt now t :
  nonce_policy_ok p → isCanonicalDpopJkt (JStr jkt) = true → epoch_ms (JNum now) = Some t →
  bytes_ok r → length r = 16%nat → 0 <= i <= MAX_SAFE_INTEGER → 0 <= e <= MAX_SAFE_INTEGER →
  nonce_verify hmac_sha256 p (JStr (nonce_text p r i e jkt)) jkt now = bool_decide (nonce_live p i e t).
Proof.
  intros Hp Hj Ht Hr Hrl Hi He.
  pose proof (nonce_text_bound p r i e jkt Hp Hr Hrl Hi He Hj) as [Hlen _].
  pose proof (payload_text p r i e jkt Hp Hr Hrl Hi He Hj) as [_ Ha]. unfold nonce_text in *.
  assert (Forall frame_value (nonce_payload (np_namespaceDigest p) (base64urlEncode r) i e jkt)) as Hf
    by (apply payload_frame; try done; apply Z.leb_le; lia).
  set (payload := nonce_payload _ _ _ _ _) in *.
  assert (bytes_ok (utf8_encode (json_text (JArr payload)))) as Hb.
  { apply utf8_encode_bytes, json_text_well_formed, frame_value_array. done. }
  assert (utf8_encode (json_text (JArr payload)) ≠ []) as Hne by (rewrite ascii_utf8 by done; done).
  set (ep := base64urlEncode (utf8_encode (json_text (JArr payload)))) in *.
  assert (bytes_ok (nonce_sign hmac_sha256 p ep) ∧ length (nonce_sign hmac_sha256 p ep) = 32%nat) as [Hm Hml]
    by (split; [apply hmac_bytes|apply hmac_length]).
  assert (nonce_sign hmac_sha256 p ep ≠ []) as Hmne by (intros E; by rewrite E in Hml).
  rewrite nonce_parts by (done || (by apply encode_units) || (by apply encode_nonempty) || lia).
  rewrite Ht, (proj2 (decode_spec _ (Some 32%nat) (nonce_sign hmac_sha256 p ep))) by (split_and!; congruence).
  rewrite (proj2 (decode_spec _ None (utf8_encode (json_text (JArr payload))))) by done.
  rewrite bool_decide_true by done. cbn [andb].
  rewrite buffer_utf8_encode by by apply json_text_well_formed, frame_value_array.
  rewrite (json_roundtrip (JArr payload)) by (by apply frame_value_array || by apply json_text_defined, frame_value_array).
  change (length payload =? 5)%nat with true. rewrite bool_decide_true by done. cbn [andb].
  assert (∀ z, 0 <= z <= MAX_SAFE_INTEGER → epoch_ms (JNum (num_of_Z z)) = Some z) as Hep.
  { intros z Hz. apply epoch_ms_is. eexists. split; [done|]. split; [apply num_is_of_Z|lia]. }
  apply eq_true_iff_eq. rewrite payload_checks, bool_decide_eq_true. split.
  - intros (r' & mi & me & i' & e' & [= _ <- <-] & _ & _ & Hi' & He' & Hl).
    rewrite (Hep i) in Hi' by done. rewrite (Hep e) in He' by done. congruence.
  - intros Hl. exists r, (JNum (num_of_Z i)), (JNum (num_of_Z e)), i, e. split_and!; auto.
Qed.

(** Numbers that are safe epochs are written as those integers. *)
Lemma payload_numbers digest r n m i e jkt :
  epoch_ms (JNum n) = Some i → epoch_ms (JNum m) = Some e →
  json_text (JArr [JStr r; JNum n; JNum m; JStr digest; JStr jkt])
  = json_text (JArr (nonce_payload digest r i e jkt)).
Proof.
  intros (? & [= <-] & Hn & Hi)%epoch_ms_is (? & [= <-] & Hm & He)%epoch_ms_is.
  apply (f_equal (default (js "null"))), stringify_array_cong. cbn [map nonce_payload].
  rewrite (json_text_safe n i), (json_text_safe m e); [done|apply safe_integer_is..];
    (split; [done|]; apply Z.leb_le; lia).
Qed.

(** A nonce is accepted exactly when it is, to the byte, what the holder of the
    secret writes for this key thumbprint and this protection space, with a lifetime of
    whole seconds the policy allows, and the clock is inside it. *)
Theorem nonce_exact (p : NoncePolicy) (s jkt : jsstr) (now : num) :
  nonce_policy_ok p →
  nonce_verify hmac_sha256 p (JStr s) jkt now = true ↔
  isCanonicalDpopJkt (JStr jkt) = true ∧
  ∃ t r i e, epoch_ms (JNum now) = Some t ∧ bytes_ok r ∧ length r = 16%nat
    ∧ 0 <= i <= MAX_SAFE_INTEGER ∧ 0 <= e <= MAX_SAFE_INTEGER ∧ nonce_live p i e t
    ∧ s = nonce_text p r i e jkt.
Proof.
  intros Hp. split.
  - intros (Hj & t & ep & em & mac & bytes & payload & -> & Ht & Hem & Hep & -> & -> & Hpay)%nonce_verify_parts.
    split; [done|]. apply payload_checks in Hpay as (r & mi & me & i & e & -> & Hr & Hrl & Hi & He & Hlive).
    apply decode_spec in Hem as (_ & _ & -> & _), Hep as (_ & _ & -> & _).
    pose proof Hi as (ni & -> & _ & Hib)%epoch_ms_is. pose proof He as (ne & -> & _ & Heb)%epoch_ms_is.
    exists t, r, i, e. split_and!; try done; try lia. unfold nonce_text.
    by rewrite (payload_numbers _ _ _ _ _ _ _ Hi He).
  - intros (Hj & t & r & i & e & Ht & Hr & Hrl & Hi & He & Hlive & ->).
    rewrite (nonce_text_verify p r i e jkt now t) by done. by apply bool_decide_eq_true.
Qed.

(** An issued nonce is the text of an exact window. *)
Lemma issued_text p random jkt now nonce :
  nonce_issue hmac_sha256 p random jkt now = Ok nonce →
  isCanonicalDpopJkt (JStr jkt) = true ∧ ∃ i, epoch_ms (JNum now) = Some i
    ∧ i + np_lifetimeMs p <= MAX_SAFE_INTEGER ∧ 0 <= i + np_lifetimeMs p
    ∧ nonce = nonce_text p random i (i + np_lifetimeMs p) jkt.
Proof.
  intros H. unfold nonce_issue in H. cbv zeta in H.
  apply res_bind_Ok in H as (_ & Hg%guard_Ok & H).
  bool_prop. repeat match goal with H : is_Some _ |- _ => destruct H as [? ?] end.
  match goal with H : epoch_ms (JNum now) = Some ?j |- _ => rename j into i; rename H into Hi end.
  match goal with H : epoch_ms (JNum (num_add _ _)) = Some ?j |- _ => rename j into e; rename H into He end.
  rewrite (payload_numbers _ _ _ _ _ _ _ Hi He) in H. apply res_bind_Ok in H as (_ & _ & [= <-]).
  pose proof Hi as (? & [= <-] & Hni & _)%epoch_ms_is. pose proof He as (? & [= <-] & Hne & Hb)%epoch_ms_is.
  assert (safe_integer (num_add now (num_of_Z (np_lifetimeMs p))) = Some e) as Hs
    by (apply safe_integer_is; split; [done|]; apply Z.leb_le; lia).
  apply (num_add_safe _ _ _ _ Hni (num_is_of_Z _)) in Hs as [-> _].
  split; [done|]. exists i. split_and!; done || lia.
Qed.

(** Issuing never fails for a canonical thumbprint while the epochs stay safe integers: the fixed
    wire bound is never reached, and the nonce is accepted from the moment it is issued until
    just before it expires, by every instance with the same secret, protection space and
    a lifetime at least as long. *)
Theorem nonce_issue_verify (p q : NoncePolicy) (random : list Z) (jkt : jsstr) (now later : num) (i t : Z) :
  nonce_policy_ok p → nonce_policy_ok q → np_secret q = np_secret p →
  np_namespaceDigest q = np_namespaceDigest p → np_lifetimeMs p <= np_lifetimeMs q →
  bytes_ok random → length random = 16%nat → isCanonicalDpopJkt (JStr jkt) = true →
  epoch_ms (JNum now) = Some i → i + np_lifetimeMs p <= MAX_SAFE_INTEGER →
  epoch_ms (JNum later) = Some t →
  ∃ nonce, nonce_issue hmac_sha256 p random jkt now = Ok nonce
    ∧ nonce_verify hmac_sha256 q (JStr nonce) jkt later = bool_decide (i <= t < i + np_lifetimeMs p).
Proof.
  intros Hp Hq Hsec Hdig Hle Hr Hrl Hj Hi Hmax Ht. pose proof Hp as (_ & l & Hl & El).
  apply epoch_ms_is in Hi as (n & [= <-] & Hn & Hi).
  assert (num_add now (num_of_Z (np_lifetimeMs p)) = num_of_Z (i + np_lifetimeMs p)) as Hadd.
  { apply num_add_exact; [done|apply num_is_of_Z|]. apply Z.leb_le. lia. }
  assert (epoch_ms (JNum now) = Some i) as Hi' by (apply epoch_ms_is; eauto).
  assert (epoch_ms (JNum (num_of_Z (i + np_lifetimeMs p))) = Some (i + np_lifetimeMs p)) as He'.
  { apply epoch_ms_is. eexists. split; [done|]. split; [apply num_is_of_Z|lia]. }
  exists (nonce_text p random i (i + np_lifetimeMs p) jkt). split.
  - unfold nonce_issue. rewrite Hadd, Hj, Hi', He'.
    rewrite (num_lt_is now _ i (i + np_lifetimeMs p)) by (done || apply num_is_of_Z).
    rewrite (proj2 (Z.ltb_lt _ _)) by lia. cbn [andb guard res_bind bool_decide].
    pose proof (nonce_text_bound p random i (i + np_lifetimeMs p) jkt Hp Hr Hrl) as Hb.
    destruct Hb as [Hlen Ha]; [lia..|done|]. unfold nonce_text in *.
    rewrite (payload_numbers _ _ _ _ _ _ _ Hi' He').
    unfold byteLength. rewrite ascii_utf8 by done.
    rewrite (proj2 (Z.leb_le _ _)) by (unfold DPOP_NONCE_MAX_BYTES; lia). done.
  - assert (nonce_text p random i (i + np_lifetimeMs p) jkt = nonce_text q random i (i + np_lifetimeMs p) jkt) as ->.
    { unfold nonce_text, nonce_sign. by rewrite Hsec, Hdig. }
    rewrite (nonce_text_verify q random i (i + np_lifetimeMs p) jkt later t) by (done || lia).
    apply bool_decide_ext. unfold nonce_live.
    replace (i + np_lifetimeMs p - i) with (l * 1000) by lia. rewrite Z.mod_mul by done. lia.
Qed.
End spelling.

(** [createDpopNoncePolicy] returns such policies, keeps the secret, and refuses short
    secrets and other lifetimes. *)
Lemma create_policy_ok sha256 o p :
  (∀ m, length (sha256 m) = 32%nat) → (∀ m, bytes_ok (sha256 m)) →
  createDpopNoncePolicy sha256 o = Ok p →
  nonce_policy_ok p ∧ no_secret o = JBytes (np_secret p) ∧ (32 <= length (np_secret p))%nat
  ∧ ∃ ns, no_namespace o = JStr ns ∧ np_namespaceDigest p = base64urlEncode (sha256 (utf8_encode ns)).
Proof.
  intros Hlen Hbytes. unfold createDpopNoncePolicy. cbv zeta. intros H.
  apply res_bind_Ok in H as (sec & H1 & H). apply res_bind_Ok in H as (l & H2 & H).
  apply res_bind_Ok in H as (ns & H3 & H). injection H as <-.
  assert (no_secret o = JBytes sec ∧ (32 <= length sec)%nat) as [Hsec H32].
  { destruct (no_secret o) as [| | | | | | |bs|]; try discriminate.
    destruct (Nat.ltb_spec (length bs) 32); [discriminate|]. by injection H1 as ->. }
  assert (1 <= l <= 300) as Hl.
  { destruct (match no_lifetimeSeconds o with JUndef => _ | v => v end) as [| | |n| | | | |]; try discriminate.
    destruct (integer_of n) as [z|]; [|discriminate]. destruct (Z.ltb_spec z 1), (Z.ltb_spec 300 z); try discriminate.
    injection H2 as ->. lia. }
  assert (no_namespace o = JStr ns) as Hns.
  { destruct (no_namespace o) as [| | | |s| | | |]; try discriminate.
    destruct (length s =? 0)%nat; [discriminate|]. by injection H3 as ->. }
  split_and!; [|done..|by exists ns].
  split; [|by exists l]. exists (sha256 (utf8_encode ns)). split_and!; auto.
Qed.

(** * Concrete instance *)

Definition example_nonce_options : NonceOptions :=
  mkNonceOptions (JBytes (repeat 7 32)) JUndef (JStr (js "[api]")).
Definition example_nonce_policy : NoncePolicy :=
  match createDpopNoncePolicy toy_hash example_nonce_options with
  | Ok p => p
  | Err _ => mkNoncePolicy [] 0 []
  end.
Definition example_jkt : jsstr := js "0123456789abcdefghijklmnopqrstuvwxyzABCDEFA".

Lemma toy_hash_length m : length (toy_hash m) = 32%nat.
Proof. apply repeat_length. Qed.

Lemma example_nonce_policy_ok : nonce_policy_ok example_nonce_policy.
Proof. by apply (create_policy_ok toy_hash example_nonce_options); [apply toy_hash_length|apply toy_hash_bytes|]. Qed.

Lemma nonce_exact_witness :
  nonce_verify toy_hmac example_nonce_policy
    (JStr (nonce_text toy_hmac example_nonce_policy (repeat 9 16) 1000 61000 example_jkt)) example_jkt (num_of_Z 60999) = true.
Proof.
  apply (nonce_exact toy_hmac).
  - intros. apply toy_hash_length.
  - intros. apply toy_hash_bytes.
  - apply example_nonce_policy_ok.
  - split; [done|]. exists 60999, (repeat 9 16), 1000, 61000.
    split_and!; try done. repeat constructor; done.
Defined.

Lemma nonce_issue_verify_witness :
  ∃ nonce, nonce_issue toy_hmac example_nonce_policy (repeat 9 16) example_jkt (num_of_Z 1000) = Ok nonce
    ∧ nonce_verify toy_hmac example_nonce_policy (JStr nonce) example_jkt (num_of_Z 61000) = false.
Proof.
  destruct (nonce_issue_verify toy_hmac (λ _ _, toy_hash_length _) (λ _ _, toy_hash_bytes _)
    example_nonce_policy example_nonce_policy (repeat 9 16) example_jkt (num_of_Z 1000) (num_of_Z 61000) 1000 61000
    example_nonce_policy_ok example_nonce_policy_ok eq_refl eq_refl) as (n & Hn & Hv).
  - apply Z.le_refl.
  - repeat constructor; done.
  - reflexivity.
  - vm_compute. reflexivity.
  - reflexivity.
  - vm_compute. discriminate.
  - reflexivity.
  - exists n. split; [exact Hn|]. rewrite Hv. vm_compute. reflexivity.
Defined.
