(* ===== verification/DpopPolicy.v ===== *)
(** express-oidc-vault: the errors ([errors.ts]), the lifetimes ([lifetime-policy.ts]), the
    failure overrides ([dpop-failure-policy.ts]) and the device-binding policy
    ([device-binding-policy.ts]) the DPoP verifier and its replay layer are built on. *)

From S2P Require Import Prelude JsValue JsJson JsBuffer VaultBinding DpopNonce.

(** * errors.ts *)

(** What the package throws; [Foreign] is whatever a callback or a store threw. The
    non-enumerable [cause] some errors carry is left out. *)
Inductive oidc_error :=
  | OidcVaultHttpError (status : Z) (code message clientMessage : jsstr)
  | PlainError (message : jsstr)
  | TypeError (message : jsstr)
  | Foreign (thrown : jsval).

Notation ores := (result oidc_error).

Record ErrorPayload := mkPayload { ep_status : Z; ep_code : jsstr; ep_message : jsstr }.

Definition toErrorPayload (error : oidc_error) : ErrorPayload :=
  match error with
  | OidcVaultHttpError status code _ clientMessage => mkPayload status code clientMessage
  | _ => mkPayload 500 (js "OIDC_VAULT_INTERNAL_ERROR") (js "Unexpected OIDC vault error.")
  end.

(** The fields of a body parser's error that are read. *)
Record BodyParserError := mkBodyParserError {
  bp_type : option jsstr;
  bp_status : option num;
  bp_statusCode : option num
}.

Definition toBodyParserErrorPayload (error : BodyParserError) : num * jsstr * jsstr :=
  let type_is s := bool_decide (bp_type error = Some (js s)) in
  if type_is "entity.too.large"%string
  then (num_of_Z 413, js "OIDC_VAULT_REQUEST_BODY_TOO_LARGE",
        js "OIDC vault request body exceeds the configured size limit.")
  else if type_is "parameters.too.many"%string
  then (num_of_Z 413, js "OIDC_VAULT_REQUEST_BODY_PARAMETER_LIMIT_EXCEEDED",
        js "OIDC vault form request contains too many parameters.")
  else if type_is "encoding.unsupported"%string || type_is "charset.unsupported"%string
  then (num_of_Z 415, js "OIDC_VAULT_UNSUPPORTED_REQUEST_BODY_ENCODING",
        js "OIDC vault request body encoding is not supported.")
  else if type_is "entity.parse.failed"%string
  then (num_of_Z 400, js "OIDC_VAULT_MALFORMED_REQUEST_BODY", js "OIDC vault request body is malformed.")
  else
    let status := default (default (num_of_Z 400) (bp_statusCode error)) (bp_status error) in
    (if num_le (num_of_Z 400) status && num_lt status (num_of_Z 500) then status else num_of_Z 400,
     js "OIDC_VAULT_INVALID_REQUEST_BODY", js "OIDC vault request body could not be parsed.").

Definition getRequiredString (value : jsval) (message code : jsstr) (status : Z) : ores jsstr :=
  match value with
  | JStr s => if (length s =? 0)%nat then Err (OidcVaultHttpError status code message message) else Ok s
  | _ => Err (OidcVaultHttpError status code message message)
  end.

Definition getRequiredFiniteNonNegativeInteger (value : jsval) (message code : jsstr) (status : Z) : ores Z :=
  match value with
  | JNum n =>
      match integer_of n with
      | Some z => if z <? 0 then Err (OidcVaultHttpError status code message message) else Ok z
      | None => Err (OidcVaultHttpError status code message message)
      end
  | _ => Err (OidcVaultHttpError status code message message)
  end.

(** * lifetime-policy.ts *)

Definition MAX_EPOCH_MS : Z := 8640000000000000.

(** [isUsableEpochMs(value)], with the integer when it holds. *)
Definition usable_epoch (n : num) : option Z :=
  z ← safe_integer n; if Z.abs z <=? MAX_EPOCH_MS then Some z else None.

Definition computeExpiresAt (now ttlMs : num) (name : jsstr) : ores num :=
  guard (match safe_integer ttlMs with Some z => 0 <? z | None => false end)
    (PlainError (name ++ js " must be a positive safe integer in milliseconds.")) ;;;
  let expiresAt := num_add now ttlMs in
  guard (bool_decide (is_Some (usable_epoch now)) && bool_decide (is_Some (usable_epoch expiresAt))
         && negb (num_le expiresAt now))
    (PlainError (name ++ js " must produce a usable epoch-millisecond expiry after now.")) ;;;
  Ok expiresAt.

(** The lifetime options of [OidcVaultOptions]; [None] for [undefined]. *)
Record LifetimeOptions := mkLifetimes {
  authorizationTransactionTtlMs : option num;
  exchangeCodeTtlMs : option num;
  sessionTtlMs : option num
}.

Definition DEFAULT_AUTHORIZATION_TRANSACTION_TTL_MS : num := num_of_Z 600000.
Definition DEFAULT_EXCHANGE_CODE_TTL_MS : num := num_of_Z 30000.

Definition validateLifetimeOptions (options : LifetimeOptions) (now : num) : ores unit :=
  computeExpiresAt now
    (default DEFAULT_AUTHORIZATION_TRANSACTION_TTL_MS (authorizationTransactionTtlMs options))
    (js "authorizationTransactionTtlMs") ;;;
  computeExpiresAt now (default DEFAULT_EXCHANGE_CODE_TTL_MS (exchangeCodeTtlMs options))
    (js "exchangeCodeTtlMs") ;;;
  match sessionTtlMs options with
  | Some ttl => computeExpiresAt now ttl (js "sessionTtlMs") ;;; Ok tt
  | None => Ok tt
  end.

(** * dpop-failure-policy.ts *)

Inductive DpopFailureCheck := CheckTarget | CheckFreshness | CheckReplay.

Definition check_option (check : DpopFailureCheck) : jsstr :=
  match check with
  | CheckTarget => js "ignoreTargetFailure"
  | CheckFreshness => js "ignoreFreshnessFailure"
  | CheckReplay => js "ignoreReplayFailure"
  end.

Definition check_env (check : DpopFailureCheck) : jsstr :=
  match check with
  | CheckTarget => js "OIDC_VAULT_DPOP_IGNORE_TARGET_FAILURE"
  | CheckFreshness => js "OIDC_VAULT_DPOP_IGNORE_FRESHNESS_FAILURE"
  | CheckReplay => js "OIDC_VAULT_DPOP_IGNORE_REPLAY_FAILURE"
  end.

(** [env] is [process.env]. *)
Definition resolveDpopFailureOption (env : jsstr → option jsstr) (value : jsval) (check : DpopFailureCheck)
    : ores bool :=
  match value with
  | JUndef => Ok (bool_decide (env (check_env check) = Some (js "true")))
  | JBool b => Ok b
  | _ => Err (TypeError (js "deviceBinding." ++ check_option check ++ js " must be a boolean."))
  end.

(** [handleDpopCheckFailure(ignore, check, error)], less its warning. *)
Definition handleDpopCheckFailure (ignore : bool) (error : oidc_error) : ores unit := guard ignore error.

(** * device-binding-policy.ts *)

Inductive DpopAlgorithm := ES256 | PS256 | RS256.
#[export] Instance DpopAlgorithm_eq_dec : EqDecision DpopAlgorithm.
Proof. solve_decision. Defined.

Definition algorithm_name (a : DpopAlgorithm) : jsstr :=
  match a with ES256 => js "ES256" | PS256 => js "PS256" | RS256 => js "RS256" end.

(** [isDpopAlgorithm(value)], with the algorithm when it holds. *)
Definition dpop_algorithm (value : jsval) : option DpopAlgorithm :=
  if js_strict_eq value (JStr (js "ES256")) then Some ES256
  else if js_strict_eq value (JStr (js "PS256")) then Some PS256
  else if js_strict_eq value (JStr (js "RS256")) then Some RS256
  else None.

Inductive DeviceBindingMode := Optional | Required.
#[export] Instance DeviceBindingMode_eq_dec : EqDecision DeviceBindingMode.
Proof. solve_decision. Defined.

Record ResolvedDeviceBindingOptions := mkDeviceBinding {
  db_mode : DeviceBindingMode;
  db_algorithms : list DpopAlgorithm;
  db_proofMaxAgeSeconds : Z;
  db_clockSkewSeconds : Z;
  db_nonce : option (list Z * Z);        (** [false], or the secret and the lifetime *)
  db_ignoreTargetFailure : bool;
  db_ignoreFreshnessFailure : bool;
  db_ignoreReplayFailure : bool
}.

Definition resolveInteger (value : jsval) (fallback min max : Z) (name : jsstr) : ores Z :=
  let error := PlainError (name ++ js " must be an integer from " ++ dec_of_Z min ++ js " through "
                                ++ dec_of_Z max ++ js ".") in
  match (match value with JUndef => JNum (num_of_Z fallback) | v => v end) with
  | JNum n =>
      match integer_of n with
      | Some z => if (z <? min) || (max <? z) then Err error else Ok z
      | None => Err error
      end
  | _ => Err error
  end.

(** [[...new Set(l)]] *)
Fixpoint dedup (seen l : list DpopAlgorithm) : list DpopAlgorithm :=
  match l with
  | [] => []
  | a :: l => if bool_decide (a ∈ seen) then dedup seen l else a :: dedup (a :: seen) l
  end.

Definition resolve_mode (mode : jsval) : ores DeviceBindingMode :=
  if is_undef mode then Ok Optional
  else if js_strict_eq mode (JStr (js "optional")) then Ok Optional
  else if js_strict_eq mode (JStr (js "required")) then Ok Required
  else Err (PlainError (js "deviceBinding.mode must be optional or required.")).

Definition resolve_algorithms (algorithms : jsval) : ores (list DpopAlgorithm) :=
  let error := PlainError (js "deviceBinding.algorithms must be a nonempty allowlist of ES256, PS256, or RS256.") in
  match (match algorithms with JUndef => JArr [JStr (js "ES256")] | v => v end) with
  | JArr (v :: vs) =>
      match mapM dpop_algorithm (v :: vs) with
      | Some allowlist => Ok (dedup [] allowlist)
      | None => Err error
      end
  | _ => Err error
  end.

Definition resolve_nonce (nonce : jsval) : ores (option (list Z * Z)) :=
  match nonce with
  | JUndef | JBool false => Ok None
  | _ =>
      guard (isRecord nonce)
        (PlainError (js "deviceBinding.nonce must be false or a plain nonce options object.")) ;;;
      match get_field nonce (js "secret") with
      | JBytes secret =>
          guard (negb (length secret <? 32)%nat)
            (PlainError (js "deviceBinding.nonce.secret must be a Uint8Array of at least 32 bytes.")) ;;;
          let* lifetime := resolveInteger (get_field nonce (js "lifetimeSeconds")) 60 1 300
                             (js "deviceBinding.nonce.lifetimeSeconds") in
          Ok (Some (secret, lifetime))
      | _ => Err (PlainError (js "deviceBinding.nonce.secret must be a Uint8Array of at least 32 bytes."))
      end
  end.

Definition resolveDeviceBindingOptions (env : jsstr → option jsstr) (value : jsval)
    : ores (option ResolvedDeviceBindingOptions) :=
  if is_undef value then Ok None
  else
    guard (isRecord value) (PlainError (js "deviceBinding must be a plain options object.")) ;;;
    let* mode := resolve_mode (get_field value (js "mode")) in
    let* allowlist := resolve_algorithms (get_field value (js "algorithms")) in
    let* resolvedNonce := resolve_nonce (get_field value (js "nonce")) in
    let* age := resolveInteger (get_field value (js "proofMaxAgeSeconds")) 60 1 300
                  (js "deviceBinding.proofMaxAgeSeconds") in
    let* skew := resolveInteger (get_field value (js "clockSkewSeconds")) 5 0 30
                   (js "deviceBinding.clockSkewSeconds") in
    let* target := resolveDpopFailureOption env (get_field value (js "ignoreTargetFailure")) CheckTarget in
    let* freshness := resolveDpopFailureOption env (get_field value (js "ignoreFreshnessFailure")) CheckFreshness in
    let* replay := resolveDpopFailureOption env (get_field value (js "ignoreReplayFailure")) CheckReplay in
    Ok (Some (mkDeviceBinding mode allowlist age skew resolvedNonce target freshness replay)).

(** A stored or proven key binding; a proven one carries its algorithm. *)
Record VerifiedBinding := mkVerified { vb_jkt : jsstr; vb_alg : DpopAlgorithm }.

Definition invalidBinding (diagnostic : jsstr) : oidc_error :=
  OidcVaultHttpError 401 (js "OIDC_VAULT_INVALID_DPOP_PROOF") diagnostic (js "DPoP proof validation failed.").
Definition dpopRequired : oidc_error :=
  OidcVaultHttpError 401 (js "OIDC_VAULT_DPOP_REQUIRED") (js "DPoP authentication is required.")
    (js "DPoP authentication is required.").
Definition deviceBindingRequired : oidc_error :=
  OidcVaultHttpError 401 (js "OIDC_VAULT_DEVICE_BINDING_REQUIRED") (js "A device-bound login is required.")
    (js "A device-bound login is required.").

(** The thumbprint of the detached binding. *)
Definition snapshotDpopBinding (value : jsval) : ores (option jsstr) :=
  if is_undef value then Ok None
  else
    guard (isRecord value)
      (invalidBinding (js "Stored device binding must be a plain dpop binding object.")) ;;;
    match get_field value (js "jkt") with
    | JStr jkt =>
        guard (js_strict_eq (get_field value (js "type")) (JStr (js "dpop")) && isCanonicalDpopJkt (JStr jkt))
          (invalidBinding
             (js "Stored device binding must contain type dpop and a canonical SHA-256 JWK thumbprint.")) ;;;
        Ok (Some jkt)
    | _ => Err (invalidBinding
             (js "Stored device binding must contain type dpop and a canonical SHA-256 JWK thumbprint."))
    end.

Definition assertDeviceBindingPolicy (policy : option ResolvedDeviceBindingOptions) (binding : jsval)
    : ores unit :=
  let* stored := snapshotDpopBinding binding in
  match stored, policy with
  | Some _, None => Err dpopRequired
  | None, Some p => guard (negb (bool_decide (db_mode p = Required))) deviceBindingRequired
  | _, _ => Ok tt
  end.

Definition resolveVerifiedDeviceBinding (policy : option ResolvedDeviceBindingOptions)
    (binding verified : jsval) : ores (option VerifiedBinding) :=
  let* stored := snapshotDpopBinding binding in
  assertDeviceBindingPolicy policy
    (match stored with Some jkt => dpop_binding (JStr jkt) | None => JUndef end) ;;;
  if is_undef verified then
    match stored with
    | Some _ => Err dpopRequired
    | None => Ok None
    end
  else
    let* proofBinding := snapshotDpopBinding verified in
    match proofBinding, dpop_algorithm (get_field verified (js "alg")), policy with
    | Some jkt, Some alg, Some p =>
        guard (bool_decide (alg ∈ db_algorithms p))
          (invalidBinding
             (js "Verified DPoP context must use a currently allowed asymmetric proof algorithm.")) ;;;
        match stored with
        | None => Ok None
        | Some original =>
            guard (jsstr_eqb original jkt)
              (invalidBinding (js "Verified DPoP key does not match the original binding.")) ;;;
            Ok (Some (mkVerified original alg))
        end
    | _, _, _ =>
        Err (invalidBinding
               (js "Verified DPoP context must use a currently allowed asymmetric proof algorithm."))
    end.

(** [withSessionDeviceBinding(session, binding)] on the enumerable string-keyed fields. *)
Definition withSessionDeviceBinding (session : list (jsstr * jsval)) (binding : jsval)
    : ores (list (jsstr * jsval)) :=
  let restored := List.filter (λ f, negb (jsstr_eqb f.1 (js "deviceBinding"))) session in
  let* stored := snapshotDpopBinding binding in
  Ok (match stored with
      | Some jkt => set_field restored (js "deviceBinding") (dpop_binding (JStr jkt))
      | None => restored
      end).

(** [/^https?:\/\/[^/\\?#]+\/?$/i] *)
Definition origin_pattern (raw : jsstr) : bool :=
  let low := to_lower (take 8 raw) in
  let rest := if starts_with (js "https://") low then Some (drop 8 raw)
              else if starts_with (js "http://") low then Some (drop 7 raw) else None in
  match rest with
  | Some rest =>
      let authority := match last rest with Some 47 => removelast rest | _ => rest end in
      negb (length authority =? 0)%nat
      && all_units (λ c, negb ((c =? 47) || (c =? 92) || (c =? 63) || (c =? 35))) authority
  | None => false
  end.

(** [isIP(s) === 4]: four decimal numbers up to 255, without leading zeros. *)
Definition ipv4_octet (s : jsstr) : bool :=
  match s with
  | [] => false
  | c :: t => all_units is_digit s && (length s <=? 3)%nat && (digits_value s <=? 255)
              && (negb (c =? 48) || (length t =? 0)%nat)
  end.
Definition is_ipv4 (s : jsstr) : bool :=
  let parts := split_on 46 s in (length parts =? 4)%nat && forallb ipv4_octet parts.

(** [url.origin] of an HTTP(S) URL; a URL of another scheme is refused either way. *)
Definition url_origin (u : URL) : jsstr :=
  if jsstr_eqb (url_protocol u) (js "https:") || jsstr_eqb (url_protocol u) (js "http:")
  then url_protocol u ++ js "//" ++ url_host u else js "null".

(** [parse_url s] is [new URL(s)], [None] when the constructor throws. *)
Definition resolveDeviceBindingOrigin (parse_url : jsstr → option URL) (value : jsval) (name : jsstr)
    : ores jsstr :=
  match value with
  | JStr value =>
      let raw := trim value in
      match parse_url raw with
      | Some url =>
          guard (origin_pattern raw && negb (existsb is_space raw) && negb (includes_char 64 raw)
                 && jsstr_eqb (url_username url) [] && jsstr_eqb (url_password url) []
                 && jsstr_eqb (url_pathname url) (js "/") && negb (jsstr_eqb (url_origin url) (js "null")))
            (PlainError (name ++ js " must be a static HTTP(S) origin without userinfo, path, query, or fragment for deviceBinding.")) ;;;
          let loopback :=
            jsstr_eqb (url_hostname url) (js "localhost") || jsstr_eqb (url_hostname url) (js "[::1]")
            || (is_ipv4 (url_hostname url) && starts_with (js "127.") (url_hostname url)) in
          guard (jsstr_eqb (url_protocol url) (js "https:")
                 || (jsstr_eqb (url_protocol url) (js "http:") && loopback))
            (PlainError (name ++ js " must use HTTPS except for loopback HTTP development when deviceBinding is enabled.")) ;;;
          Ok (url_origin url)
      | None => Err (PlainError (name ++ js " must be a static HTTP(S) origin for deviceBinding."))
      end
  | _ => Err (PlainError (name ++ js " must be a static HTTP(S) origin for deviceBinding."))
  end.

(** * Lifetimes *)

Lemma usable_epoch_is n z : usable_epoch n = Some z ↔ num_is n z ∧ Z.abs z <= MAX_EPOCH_MS.
Proof.
  unfold usable_epoch. split.
  - destruct (safe_integer n) as [z'|] eqn:E; [|done]. cbn. apply safe_integer_is in E as [Hn _].
    destruct (Z.leb_spec (Z.abs z') MAX_EPOCH_MS); [|done]. by intros [= <-].
  - intros [Hn Hz]. rewrite (proj2 (safe_integer_is n z)).
    + cbn. by rewrite (proj2 (Z.leb_le _ _)).
    + split; [done|]. apply Z.leb_le. unfold MAX_EPOCH_MS, MAX_SAFE_INTEGER in *. lia.
Qed.

(** An expiry is computed exactly when the lifetime is a positive safe integer and both ends
    are usable epochs; it is then the exact sum, without rounding. *)
Theorem expires_at_exact (now ttlMs e : num) (name : jsstr) :
  computeExpiresAt now ttlMs name = Ok e ↔
  ∃ t l, num_is now t ∧ num_is ttlMs l ∧ 0 < l <= MAX_SAFE_INTEGER ∧ Z.abs t <= MAX_EPOCH_MS
    ∧ Z.abs (t + l) <= MAX_EPOCH_MS ∧ e = num_of_Z (t + l).
Proof.
  unfold computeExpiresAt. cbv zeta. split.
  - intros H. apply res_bind_Ok in H as (? & Hl%guard_Ok & H). apply res_bind_Ok in H as (? & Hu%guard_Ok & H).
    injection H as <-. destruct (safe_integer ttlMs) as [l|] eqn:El; [|done].
    apply safe_integer_is in El as [El Hs%Z.leb_le]. apply andb_true_iff in Hu as [Hu _].
    apply andb_true_iff in Hu as [[t Ht]%bool_decide_eq_true [e He]%bool_decide_eq_true].
    apply usable_epoch_is in Ht as [Ht Hta], He as [He Hea].
    assert (safe_integer (num_add now ttlMs) = Some e) as Hsafe.
    { apply safe_integer_is. split; [done|]. apply Z.leb_le. unfold MAX_EPOCH_MS, MAX_SAFE_INTEGER in *. lia. }
    pose proof (num_add_safe _ _ t l Ht El e Hsafe) as [-> Hsum]. apply Z.ltb_lt in Hl.
    exists t, l. split_and!; try done; [lia|]. by apply num_add_exact.
  - intros (t & l & Ht & Hl & Hlb & Hta & Hea & ->).
    rewrite (proj2 (safe_integer_is ttlMs l)) by (split; [done|]; apply Z.leb_le; lia).
    rewrite (num_add_exact now ttlMs t l Ht Hl) by (apply Z.leb_le; unfold MAX_EPOCH_MS, MAX_SAFE_INTEGER in *; lia).
    rewrite (proj2 (Z.ltb_lt 0 l)) by lia. cbn [guard res_bind].
    rewrite (proj2 (usable_epoch_is now t)), (proj2 (usable_epoch_is (num_of_Z (t + l)) (t + l)))
      by (split; [done || apply num_is_of_Z|done]).
    rewrite (num_le_is _ _ (t + l) t) by (done || apply num_is_of_Z).
    by rewrite (proj2 (Z.leb_gt _ _)) by lia.
Qed.

(** * Bindings *)

Lemma snapshot_spec v r :
  snapshotDpopBinding v = Ok r ↔
  match r with
  | None => v = JUndef
  | Some jkt => isRecord v = true ∧ get_field v (js "type") = JStr (js "dpop")
                ∧ get_field v (js "jkt") = JStr jkt ∧ isCanonicalDpopJkt (JStr jkt) = true
  end.
Proof.
  unfold snapshotDpopBinding. destruct (is_undef v) eqn:Hu.
  { destruct v; try done. destruct r; split; [done|by intros (? & _)|done|done]. }
  assert (v ≠ JUndef) as Hv by (by intros ->). destruct (isRecord v) eqn:Hr; cbn [guard res_bind].
  2: { split; [done|]. destruct r; [by intros (? & _)|done]. }
  destruct (get_field v (js "jkt")) as [| | | |jkt| | | |] eqn:Ej;
    try (split; [done|]; destruct r; [by intros (_ & _ & ? & _)|done]).
  split.
  - intros H. apply res_bind_Ok in H as (? & [Ht%strict_eq_string Hc]%guard_Ok%andb_true_iff & [= <-]). done.
  - destruct r as [jkt'|]; [|done]. intros (_ & Ht & [= ->] & Hc).
    by rewrite Ht, (proj2 (strict_eq_string _ _) eq_refl), Hc.
Qed.

Lemma snapshot_snapshot jkt :
  isCanonicalDpopJkt (JStr jkt) = true → snapshotDpopBinding (dpop_binding (JStr jkt)) = Ok (Some jkt).
Proof. intros H. by apply snapshot_spec. Qed.

Lemma assert_policy_spec policy binding :
  assertDeviceBindingPolicy policy binding = Ok tt ↔
  (∃ jkt p, snapshotDpopBinding binding = Ok (Some jkt) ∧ policy = Some p)
  ∨ (binding = JUndef ∧ ∀ p, policy = Some p → db_mode p = Optional).
Proof.
  unfold assertDeviceBindingPolicy. split.
  - intros H. apply res_bind_Ok in H as (r & Hr & H). destruct r as [jkt|], policy as [p|]; try done.
    + left. eauto.
    + right. apply snapshot_spec in Hr. split; [done|]. intros p' [= <-].
      apply guard_Ok, negb_true_iff, bool_decide_eq_false in H. by destruct (db_mode p).
    + right. apply snapshot_spec in Hr. by split.
  - intros [(jkt & p & -> & ->)|[-> Hm]]; [done|]. cbn. destruct policy as [p|]; [|done].
    by rewrite (Hm p eq_refl).
Qed.

(** A stored binding is honoured only by a proof under its own original key, with an
    algorithm that is allowed now; a context without a binding stays without one, and is
    refused when the policy requires binding. *)
Theorem binding_resolved (policy : option ResolvedDeviceBindingOptions) (binding verified : jsval)
    (r : option VerifiedBinding) :
  resolveVerifiedDeviceBinding policy binding verified = Ok r ↔
  match r with
  | Some b => ∃ p, policy = Some p ∧ snapshotDpopBinding binding = Ok (Some (vb_jkt b))
      ∧ snapshotDpopBinding verified = Ok (Some (vb_jkt b))
      ∧ dpop_algorithm (get_field verified (js "alg")) = Some (vb_alg b) ∧ vb_alg b ∈ db_algorithms p
  | None => binding = JUndef ∧ (∀ p, policy = Some p → db_mode p = Optional)
      ∧ (verified = JUndef
         ∨ ∃ p jkt alg, policy = Some p ∧ snapshotDpopBinding verified = Ok (Some jkt)
             ∧ dpop_algorithm (get_field verified (js "alg")) = Some alg ∧ alg ∈ db_algorithms p)
  end.
Proof.
  unfold resolveVerifiedDeviceBinding. split.
  - intros H. apply res_bind_Ok in H as (stored & Hs & H). apply res_bind_Ok in H as ([] & Ha%assert_policy_spec & H).
    destruct (is_undef verified) eqn:Hv.
    { destruct stored; [done|]. injection H as <-. apply snapshot_spec in Hs. destruct verified; try done.
      destruct Ha as [(? & ? & ? & _)|[_ Hm]]; [done|]. auto. }
    apply res_bind_Ok in H as (proof & Hp & H).
    destruct proof as [jkt|], (dpop_algorithm _) as [alg|] eqn:Halg, policy as [p|]; try done.
    apply res_bind_Ok in H as (? & Hin%guard_Ok%bool_decide_eq_true & H). destruct stored as [original|].
    + apply res_bind_Ok in H as (? & Heq%guard_Ok%jsstr_eqb_true & H). injection H as <-. subst jkt.
      cbn [vb_jkt vb_alg]. eauto 10.
    + injection H as <-. apply snapshot_spec in Hs. destruct Ha as [(? & ? & ? & _)|[_ Hm]]; [done|].
      split_and!; [done..|]. right. eauto 10.
  - destruct r as [b|].
    + intros (p & -> & Hs & Hv & Ha & Hin). rewrite Hs. cbn [res_bind].
      pose proof Hs as Hs'. apply snapshot_spec in Hs' as (_ & _ & _ & Hc).
      rewrite (proj2 (assert_policy_spec _ _)) by (left; eauto using snapshot_snapshot). cbn [res_bind].
      assert (is_undef verified = false) as -> by (by destruct verified). rewrite Hv, Ha. cbn [res_bind].
      rewrite bool_decide_true by done. cbn [guard res_bind]. rewrite jsstr_eqb_refl. by destruct b.
    + intros (-> & Hm & Hv). cbn [snapshotDpopBinding is_undef res_bind].
      rewrite (proj2 (assert_policy_spec _ _)) by (right; done). cbn [res_bind].
      destruct Hv as [->|(p & jkt & alg & -> & Hv & Ha & Hin)]; [done|].
      assert (is_undef verified = false) as -> by (by destruct verified). rewrite Hv, Ha. cbn [res_bind].
      by rewrite bool_decide_true.
Qed.

(** * Resolved options *)

(** The resolved options as the object they are. *)
Definition options_value (o : ResolvedDeviceBindingOptions) : jsval :=
  JObj true
    [(js "mode", JStr (match db_mode o with Optional => js "optional" | Required => js "required" end));
     (js "algorithms", JArr (map (λ a, JStr (algorithm_name a)) (db_algorithms o)));
     (js "proofMaxAgeSeconds", JNum (num_of_Z (db_proofMaxAgeSeconds o)));
     (js "clockSkewSeconds", JNum (num_of_Z (db_clockSkewSeconds o)));
     (js "nonce", match db_nonce o with
                  | None => JBool false
                  | Some (secret, lifetime) =>
                      JObj true [(js "secret", JBytes secret);
                                 (js "lifetimeSeconds", JNum (num_of_Z lifetime))]
                  end);
     (js "ignoreTargetFailure", JBool (db_ignoreTargetFailure o));
     (js "ignoreFreshnessFailure", JBool (db_ignoreFreshnessFailure o));
     (js "ignoreReplayFailure", JBool (db_ignoreReplayFailure o))].

Record options_ok (o : ResolvedDeviceBindingOptions) : Prop := {
  opt_age : 1 <= db_proofMaxAgeSeconds o <= 300;
  opt_skew : 0 <= db_clockSkewSeconds o <= 30;
  opt_algorithms : db_algorithms o ≠ [];
  opt_nodup : NoDup (db_algorithms o);
  opt_nonce : ∀ s l, db_nonce o = Some (s, l) → (32 <= length s)%nat ∧ 1 <= l <= 300
}.

Lemma resolve_integer_ok v fallback lo hi name z :
  lo <= fallback <= hi → resolveInteger v fallback lo hi name = Ok z → lo <= z <= hi.
Proof.
  unfold resolveInteger. cbv zeta. intros Hf H.
  destruct (match v with JUndef => _ | w => w end) as [| | |n| | | | |]; try discriminate.
  destruct (integer_of n) as [z'|]; [|discriminate].
  destruct (Z.ltb_spec z' lo), (Z.ltb_spec hi z'); try discriminate. injection H as <-. lia.
Qed.

Lemma resolve_integer_id z fallback lo hi name :
  lo <= z <= hi → resolveInteger (JNum (num_of_Z z)) fallback lo hi name = Ok z.
Proof.
  intros Hz. unfold resolveInteger. cbv zeta. unfold integer_of, num_of_Z. rewrite Q_to_Z_inject.
  destruct (Z.ltb_spec z lo), (Z.ltb_spec hi z); try lia. done.
Qed.

Lemma dedup_spec seen l :
  (∀ a, a ∈ dedup seen l ↔ a ∈ l ∧ a ∉ seen) ∧ NoDup (dedup seen l).
Proof.
  revert seen. induction l as [|b l IH]; intros seen; cbn.
  { split; [|constructor]. intros a. split; [by intros ?%not_elem_of_nil|by intros [?%not_elem_of_nil _]]. }
  destruct (bool_decide (b ∈ seen)) eqn:Hb; [apply bool_decide_eq_true in Hb|apply bool_decide_eq_false in Hb].
  - destruct (IH seen) as [Hin Hnd]. split; [|done]. intros a. rewrite Hin, elem_of_cons. naive_solver.
  - destruct (IH (b :: seen)) as [Hin Hnd]. split.
    + intros a. rewrite !elem_of_cons, Hin, not_elem_of_cons. destruct (decide (a = b)); naive_solver.
    + constructor; [|done]. rewrite Hin, not_elem_of_cons. naive_solver.
Qed.

Lemma dedup_id seen l : NoDup l → (∀ a, a ∈ l → a ∉ seen) → dedup seen l = l.
Proof.
  revert seen. induction l as [|b l IH]; intros seen Hnd Hs; [done|]. apply NoDup_cons in Hnd as [Hb Hnd].
  cbn. rewrite bool_decide_false by (apply Hs; left). f_equal. apply IH; [done|].
  intros a Ha. apply not_elem_of_cons. split; [by intros ->|]. apply Hs. by right.
Qed.

Lemma algorithm_name_resolved a : dpop_algorithm (JStr (algorithm_name a)) = Some a.
Proof. by destruct a. Qed.

Lemma resolve_algorithms_ok v l : resolve_algorithms v = Ok l → l ≠ [] ∧ NoDup l.
Proof.
  unfold resolve_algorithms. cbv zeta. intros H.
  destruct (match v with JUndef => _ | w => w end) as [| | | | |[|w ws]| | |]; try discriminate.
  destruct (mapM dpop_algorithm (w :: ws)) as [[|a l']|] eqn:E; [|injection H as <-|discriminate].
  { apply mapM_Some_1, Forall2_length in E. done. }
  split; [done|]. apply (dedup_spec [] (a :: l')).
Qed.

Lemma resolve_algorithms_id l :
  l ≠ [] → NoDup l → resolve_algorithms (JArr (map (λ a, JStr (algorithm_name a)) l)) = Ok l.
Proof.
  intros Hne Hnd. unfold resolve_algorithms.
  assert (mapM dpop_algorithm (map (λ a, JStr (algorithm_name a)) l) = Some l) as Hm.
  { apply mapM_Some_2. clear. induction l; constructor; [apply algorithm_name_resolved|done]. }
  destruct l as [|a l]; [done|]. cbn [map] in *. rewrite Hm. f_equal. apply dedup_id; [done|].
  intros ? _. apply not_elem_of_nil.
Qed.

Lemma resolve_nonce_ok v r s l : resolve_nonce v = Ok r → r = Some (s, l) → (32 <= length s)%nat ∧ 1 <= l <= 300.
Proof.
  unfold resolve_nonce. intros H ->.
  assert (∀ w, w = get_field v (js "secret") →
    match w with
    | JBytes secret =>
        guard (negb (length secret <? 32)%nat)
          (PlainError (js "deviceBinding.nonce.secret must be a Uint8Array of at least 32 bytes.")) ;;;
        let* lifetime := resolveInteger (get_field v (js "lifetimeSeconds")) 60 1 300
                           (js "deviceBinding.nonce.lifetimeSeconds") in
        Ok (Some (secret, lifetime))
    | _ => Err (PlainError (js "deviceBinding.nonce.secret must be a Uint8Array of at least 32 bytes."))
    end = Ok (Some (s, l)) → (32 <= length s)%nat ∧ 1 <= l <= 300) as Hk.
  { intros w _ Hw. destruct w as [| | | | | | |bs|]; try discriminate.
    apply res_bind_Ok in Hw as (? & Hs%guard_Ok%negb_true_iff%Nat.ltb_ge & Hw).
    apply res_bind_Ok in Hw as (l' & Hl & [= -> ->]). apply resolve_integer_ok in Hl; [done|lia]. }
  destruct v as [| |[]| | | | | |]; try discriminate; apply res_bind_Ok in H as (? & _ & H); eapply Hk; done.
Qed.

Lemma resolved_ok env v o : resolveDeviceBindingOptions env v = Ok (Some o) → options_ok o.
Proof.
  unfold resolveDeviceBindingOptions. destruct (is_undef v); [done|]. intros H.
  res_step H as ? _. res_step H as m Hm. res_step H as al Hal. res_step H as n Hn. res_step H as age Hage.
  res_step H as skew Hskew. res_step H as t Ht. res_step H as f Hf. res_step H as r Hr. injection H as <-.
  apply resolve_algorithms_ok in Hal as [Hne Hnd].
  apply resolve_integer_ok in Hage; [|lia]. apply resolve_integer_ok in Hskew; [|lia].
  split; cbn; try done. intros s l. by apply resolve_nonce_ok with (v := get_field v (js "nonce")).
Qed.

Lemma resolve_again o env : options_ok o → resolveDeviceBindingOptions env (options_value o) = Ok (Some o).
Proof.
  intros [Hage Hskew Hne Hnd Hn].
  destruct o as [mode al age skew nonce t f r]. cbn in Hage, Hskew, Hne, Hnd, Hn.
  unfold resolveDeviceBindingOptions. cbn [options_value is_undef isRecord guard res_bind].
  set (obj := options_value _).
  assert (resolve_mode (get_field obj (js "mode")) = Ok mode) as -> by (by destruct mode).
  change (get_field obj (js "algorithms")) with (JArr (map (λ a, JStr (algorithm_name a)) al)).
  rewrite resolve_algorithms_id by done. cbn [res_bind].
  assert (resolve_nonce (get_field obj (js "nonce")) = Ok nonce) as ->.
  { destruct nonce as [[s l]|]; [|done]. destruct (Hn s l eq_refl) as [Hs Hl].
    change (get_field obj (js "nonce"))
      with (JObj true [(js "secret", JBytes s); (js "lifetimeSeconds", JNum (num_of_Z l))]).
    unfold resolve_nonce. cbn [isRecord guard res_bind].
    change (get_field (JObj true _) (js "secret")) with (JBytes s). cbn iota.
    change (get_field (JObj true _) (js "lifetimeSeconds")) with (JNum (num_of_Z l)).
    rewrite resolve_integer_id by done. by rewrite (proj2 (Nat.ltb_ge _ _)). }
  cbn [res_bind]. change (get_field obj (js "proofMaxAgeSeconds")) with (JNum (num_of_Z age)).
  change (get_field obj (js "clockSkewSeconds")) with (JNum (num_of_Z skew)).
  by rewrite !resolve_integer_id by done.
Qed.

(** Resolved options are in range, and resolving them again, as the replay policy does with
    the options it is given, changes nothing, whatever the environment then says. *)
Theorem options_resolved (env : jsstr → option jsstr) (v : jsval) (o : ResolvedDeviceBindingOptions) :
  resolveDeviceBindingOptions env v = Ok (Some o) →
  options_ok o ∧ ∀ env', resolveDeviceBindingOptions env' (options_value o) = Ok (Some o).
Proof. intros H%resolved_ok. split; [done|]. intros env'. by apply resolve_again. Qed.

(** * Concrete instances *)

Definition example_env : jsstr → option jsstr := λ _, None.
Definition example_options_input : jsval :=
  JObj true [(js "mode", JStr (js "required")); (js "algorithms", JArr [JStr (js "ES256"); JStr (js "RS256"); JStr (js "ES256")])].
Definition example_options : ResolvedDeviceBindingOptions :=
  mkDeviceBinding Required [ES256; RS256] 60 5 None false false false.

Lemma options_resolved_witness :
  options_ok example_options ∧ resolveDeviceBindingOptions example_env (options_value example_options) = Ok (Some example_options).
Proof.
  destruct (options_resolved example_env example_options_input example_options) as [Hok Hid].
  - vm_compute. reflexivity.
  - split; [exact Hok|apply Hid].
Defined.

Example expires_at_limit :
  computeExpiresAt (num_of_Z 1000) (num_of_Z 600000) (js "x") = Ok (num_of_Z 601000)
  ∧ is_ok (computeExpiresAt (num_of_Z 8640000000000000) (num_of_Z 1) (js "x")) = false.
Proof. split; vm_compute; reflexivity. Qed.
