(* ===== verification/DpopTarget.v ===== *)
(** express-oidc-vault, [dpop-target.ts]: the normal form of a request's public target and
    of the [htu] claim of a proof. [new URL] is a parameter. *)

From S2P Require Import Prelude JsValue JsJson JsBuffer VaultBinding DpopNonce DpopPolicy.

Definition invalidTarget : oidc_error :=
  OidcVaultHttpError 401 (js "OIDC_VAULT_INVALID_DPOP_PROOF")
    (js "DPoP target must be a valid pinned HTTP(S) URL/path.") (js "DPoP proof validation failed.").

(** [hasControl(value)] *)
Definition is_control (c : Z) : bool := (c <? 32) || (c =? 127).
Definition hasControl (value : jsstr) : bool := existsb is_control value.

(** [/[\s\\]/] *)
Definition space_or_backslash (c : Z) : bool := is_space c || (c =? 92).

(** [/%(?![0-9a-f]{2})/i] *)
Fixpoint bad_escape (s : jsstr) : bool :=
  match s with
  | [] => false
  | c :: s' =>
      (c =? 37) && negb (match s' with a :: b :: _ => is_hex a && is_hex b | _ => false end)
      || bad_escape s'
  end.

(** [/^[A-Za-z0-9._~-]$/] *)
Definition unreserved (c : Z) : bool := is_alnum c || (c =? 46) || (c =? 95) || (c =? 126) || (c =? 45).

(** [path.replace(/%([0-9a-f]{2})/gi, ...)]: escapes of unreserved characters are
    decoded, the others written in upper case. *)
Fixpoint normalize_escapes (s : jsstr) : jsstr :=
  match s with
  | [] => []
  | c :: s' =>
      match s' with
      | a :: b :: r =>
          if (c =? 37) && (is_hex a && is_hex b) then
            let character := default 0 (hex_value a) * 16 + default 0 (hex_value b) in
            (if unreserved character then [character] else [37; upper_unit a; upper_unit b])
              ++ normalize_escapes r
          else c :: normalize_escapes s'
      | _ => c :: normalize_escapes s'
      end
  end.

(** [s.split(/[?#]/, 1)[0]] *)
Fixpoint before_query (s : jsstr) : jsstr :=
  match s with
  | [] => []
  | c :: s => if (c =? 63) || (c =? 35) then [] else c :: before_query s
  end.

(** [s.replace(/\/+$/g, '')] *)
Definition strip_trailing_slashes (s : jsstr) : jsstr :=
  rev (drop_while (λ c, c =? 47) (rev s)).

(** The length of [https://] or [http://] at the start, case-insensitively. *)
Definition scheme_length (s : jsstr) : option nat :=
  let low := to_lower (take 8 s) in
  if starts_with (js "https://") low then Some 8%nat
  else if starts_with (js "http://") low then Some 7%nat else None.

Definition authority_unit (c : Z) : bool := negb ((c =? 47) || (c =? 92) || (c =? 63) || (c =? 35)).

(** [s.split('/', 1)[0]] and what follows it. *)
Fixpoint span_slash (s : jsstr) : jsstr * jsstr :=
  match s with
  | [] => ([], [])
  | c :: s' => if c =? 47 then ([], s) else let '(a, r) := span_slash s' in (c :: a, r)
  end.

Section target.
Variable parse_url : jsstr → option URL.

Definition normalizePath (origin path : jsstr) : ores jsstr :=
  guard (starts_with (js "/") path && negb (existsb space_or_backslash path) && negb (hasControl path)
         && negb (bad_escape path)) invalidTarget ;;;
  match parse_url (origin ++ normalize_escapes path) with
  | Some url => Ok (url_pathname url)
  | None => Err (TypeError (js "Invalid URL"))
  end.

(** What [createDpopRequestTargetResolver] captures. *)
Record TargetResolver := mkResolver { tr_origin : jsstr; tr_prefix : jsstr }.

Definition createDpopRequestTargetResolver (publicOrigin publicPathPrefix : jsval) : ores TargetResolver :=
  let* origin := resolveDeviceBindingOrigin parse_url publicOrigin (js "publicOrigin") in
  match publicPathPrefix with
  | JUndef | JStr [] => Ok (mkResolver origin [])
  | JStr prefix =>
      guard (negb (existsb (λ c, (c =? 63) || (c =? 35)) prefix))
        (TypeError (js "deviceBinding.publicPathPrefix must be an absolute path prefix without query or fragment.")) ;;;
      res_catch
        (let* path := normalizePath origin prefix in Ok (mkResolver origin (strip_trailing_slashes path)))
        (λ _, Err (TypeError (js "deviceBinding.publicPathPrefix must be a valid absolute path prefix.")))
  | _ => Err (TypeError (js "deviceBinding.publicPathPrefix must be an absolute path prefix without query or fragment."))
  end.

Definition resolveTarget (r : TargetResolver) (originalUrl : jsval) : ores jsstr :=
  match originalUrl with
  | JStr url =>
      let path := before_query url in
      guard (starts_with (js "/") path) invalidTarget ;;;
      let* target := normalizePath (tr_origin r) (tr_prefix r ++ path) in
      Ok (tr_origin r ++ target)
  | _ => Err invalidTarget
  end.

Definition normalizeDpopProofTarget (value : jsval) : ores jsstr :=
  match value with
  | JStr value =>
      match scheme_length value with
      | Some start =>
          guard (negb (existsb space_or_backslash value) && negb (hasControl value)
                 && match drop start value with c :: _ => authority_unit c | [] => false end)
            invalidTarget ;;;
          match parse_url value with
          | Some url =>
              let queryFree := before_query value in
              let '(authority, rest) := span_slash (drop start queryFree) in
              guard (negb (negb (jsstr_eqb (url_username url) []) || negb (jsstr_eqb (url_password url) [])
                           || jsstr_eqb (url_origin url) (js "null") || includes_char 64 authority))
                invalidTarget ;;;
              let path := match rest with [] => js "/" | _ => rest end in
              let* target := normalizePath (url_origin url) path in
              Ok (url_origin url ++ target)
          | None => Err invalidTarget
          end
      | None => Err invalidTarget
      end
  | _ => Err invalidTarget
  end.
End target.

(** * Escapes *)

Lemma hex_value_some c : is_hex c = true → ∃ v, hex_value c = Some v ∧ 0 <= v < 16.
Proof.
  unfold is_hex, is_hex_lower, hex_value, is_digit. rewrite !orb_true_iff, !in_range_spec. intros H.
  destruct (in_range 48 57 c) eqn:E1; [apply in_range_spec in E1; eexists; split; [done|lia]|].
  destruct (in_range 97 102 c) eqn:E2; [apply in_range_spec in E2; eexists; split; [done|lia]|].
  apply in_range_false in E1, E2. destruct (in_range 65 70 c) eqn:E3; [apply in_range_spec in E3; eexists; split; [done|lia]|].
  apply in_range_false in E3. lia.
Qed.

Lemma upper_hex c : is_hex c = true →
  is_hex (upper_unit c) = true ∧ hex_value (upper_unit c) = hex_value c ∧ upper_unit (upper_unit c) = upper_unit c.
Proof.
  intros H. unfold is_hex, is_hex_lower, is_digit in H. rewrite !orb_true_iff, !in_range_spec in H.
  assert (c ∈ seqZ 48 10 ++ seqZ 65 6 ++ seqZ 97 6) as Hin by (rewrite !elem_of_app, !elem_of_seqZ; lia).
  assert (forallb (λ c, is_hex (upper_unit c) && bool_decide (hex_value (upper_unit c) = hex_value c)
            && (upper_unit (upper_unit c) =? upper_unit c)) (seqZ 48 10 ++ seqZ 65 6 ++ seqZ 97 6) = true)
    as Hall by (vm_compute; done).
  rewrite forallb_forall in Hall. specialize (Hall c (proj1 (list_elem_of_In _ _) Hin)). bool_prop. done.
Qed.

(** Induction over a path, escape by escape. *)
Lemma escapes_ind (Pe : jsstr → Prop) :
  Pe [] →
  (∀ a b r, is_hex a = true → is_hex b = true → Pe r → Pe (37 :: a :: b :: r)) →
  (∀ c s, c ≠ 37 → Pe s → Pe (c :: s)) →
  ∀ s, bad_escape s = false → Pe s.
Proof.
  intros Hnil Hesc Hcons. assert (∀ n s, (length s <= n)%nat → bad_escape s = false → Pe s) as H.
  { induction n as [|n IH]; intros [|c s] Hn Hb; [done|cbn in Hn; lia|done|]. cbn [length bad_escape] in *.
    apply orb_false_iff in Hb as [Hc Hs]. destruct (Z.eqb_spec c 37) as [->|Hne]; [|apply Hcons; [done|apply IH; [lia|done]]].
    destruct s as [|a [|b r]]; try done. cbn [andb] in Hc. apply negb_false_iff, andb_true_iff in Hc as [Ha Hb].
    apply Hesc; [done..|]. apply IH; [cbn in Hn; lia|]. cbn [bad_escape] in Hs.
    apply orb_false_iff in Hs as [_ Hs]. by apply orb_false_iff in Hs as [_ Hs]. }
  intros s. by apply (H (length s)).
Qed.

Lemma normalize_escape a b r : is_hex a = true → is_hex b = true →
  normalize_escapes (37 :: a :: b :: r) =
    (let character := default 0 (hex_value a) * 16 + default 0 (hex_value b) in
     if unreserved character then [character] else [37; upper_unit a; upper_unit b]) ++ normalize_escapes r.
Proof. intros Ha Hb. cbn [normalize_escapes Z.eqb Pos.eqb]. by rewrite Ha, Hb. Qed.

Lemma normalize_plain c s : c ≠ 37 → normalize_escapes (c :: s) = c :: normalize_escapes s.
Proof. intros Hc. cbn [normalize_escapes]. rewrite (proj2 (Z.eqb_neq c 37)) by done. by destruct s as [|a [|b r]]. Qed.

Lemma bad_plain c s : c ≠ 37 → bad_escape (c :: s) = bad_escape s.
Proof. intros Hc. cbn. by rewrite (proj2 (Z.eqb_neq c 37)). Qed.

Lemma unreserved_plain c : unreserved c = true → c ≠ 37.
Proof. by intros H ->. Qed.

Lemma hex_plain c : is_hex c = true → c ≠ 37.
Proof. by intros H ->. Qed.

(** The normal form of a path with well-formed escapes has well-formed escapes and is a
    normal form. *)
Lemma normalize_escapes_normal s :
  bad_escape s = false →
  bad_escape (normalize_escapes s) = false ∧ normalize_escapes (normalize_escapes s) = normalize_escapes s.
Proof.
  revert s. apply (escapes_ind (λ s, bad_escape (normalize_escapes s) = false
    ∧ normalize_escapes (normalize_escapes s) = normalize_escapes s)); [done|..].
  - intros a b r Ha Hb [IH1 IH2]. rewrite normalize_escape by done. cbv zeta. destruct (unreserved _) eqn:Hu; cbn [app].
    + apply unreserved_plain in Hu. rewrite bad_plain, normalize_plain by done. by rewrite IH2.
    + destruct (upper_hex a Ha) as (Ha1 & Ha2 & Ha3), (upper_hex b Hb) as (Hb1 & Hb2 & Hb3). split.
      * cbn [bad_escape]. rewrite Ha1, Hb1, IH1.
        by rewrite (proj2 (Z.eqb_neq (upper_unit a) 37)), (proj2 (Z.eqb_neq (upper_unit b) 37)) by by apply hex_plain.
      * rewrite normalize_escape by done. cbv zeta. rewrite Ha2, Hb2, Hu, Ha3, Hb3, IH2. done.
  - intros c s Hc [IH1 IH2]. rewrite !normalize_plain, bad_plain, IH2 by done. done.
Qed.

(** * The target of a request and the [htu] of its proof *)

Definition no_query (s : jsstr) : Prop := Forall (λ c, c ≠ 63 ∧ c ≠ 35) s.

Lemma before_query_app s q :
  no_query s → (q = [] ∨ ∃ c t, q = c :: t ∧ (c = 63 ∨ c = 35)) → before_query (s ++ q) = s.
Proof.
  intros Hs Hq. induction Hs as [|c s [H1 H2] Hs IH]; cbn.
  - destruct Hq as [->|(c & t & -> & [->| ->])]; done.
  - by rewrite !(proj2 (Z.eqb_neq _ _)), IH by done.
Qed.

Lemma span_slash_app a r :
  forallb authority_unit a = true → starts_with (js "/") r = true → span_slash (a ++ r) = (a, r).
Proof.
  intros Ha Hr. induction a as [|c a IH]; cbn.
  - by apply starts_with_spec in Hr as [t ->].
  - cbn in Ha. apply andb_true_iff in Ha as [Hc Ha]. unfold authority_unit in Hc.
    apply negb_true_iff, orb_false_iff in Hc as [Hc _]. apply orb_false_iff in Hc as [Hc _].
    apply orb_false_iff in Hc as [Hc _]. by rewrite Hc, IH.
Qed.

(** A pinned origin and a path prefix, as [createDpopRequestTargetResolver] leaves them. *)
Record resolver_ok (r : TargetResolver) (scheme host : jsstr) : Prop := {
  rk_origin : tr_origin r = scheme ++ host;
  rk_scheme : scheme = js "https://" ∨ scheme = js "http://";
  rk_host : host ≠ [];
  rk_units : forallb (λ c, authority_unit c && negb (space_or_backslash c) && negb (is_control c)
                           && negb (c =? 64)) host = true;
  rk_prefix : tr_prefix r = [] ∨ starts_with (js "/") (tr_prefix r) = true;
  rk_query : no_query (tr_prefix r)
}.

Lemma scheme_length_app scheme host rest :
  scheme = js "https://" ∨ scheme = js "http://" → scheme_length (scheme ++ host ++ rest) = Some (length scheme).
Proof. intros [->| ->]; [done|]. destruct (host ++ rest); done. Qed.

Lemma forallb_and {A} (p q : A → bool) l : forallb (λ x, p x && q x) l = true ↔ forallb p l = true ∧ forallb q l = true.
Proof. rewrite !forallb_forall. setoid_rewrite andb_true_iff. naive_solver. Qed.

Lemma forallb_negb {A} (p : A → bool) l : forallb (λ x, negb (p x)) l = true ↔ existsb p l = false.
Proof. induction l as [|x l IH]; [done|]. cbn. rewrite andb_true_iff, orb_false_iff, negb_true_iff, IH. done. Qed.

(** The [htu] claim of a proof is matched exactly when it names, on the pinned public origin
    and prefix, the path of the request: spelled any way, with any query or fragment on
    either side; and every path the request side refuses is refused. *)
Theorem target_agrees (parse_url : jsstr → option URL) (r : TargetResolver) (scheme host path q q' : jsstr) (u : URL) :
  resolver_ok r scheme host →
  starts_with (js "/") path = true → no_query path →
  (q = [] ∨ ∃ c t, q = c :: t ∧ (c = 63 ∨ c = 35)) →
  (q' = [] ∨ ∃ c t, q' = c :: t ∧ (c = 63 ∨ c = 35)) →
  existsb space_or_backslash q' = false → hasControl q' = false →
  parse_url (tr_origin r ++ tr_prefix r ++ path ++ q') = Some u →
  url_username u = [] → url_password u = [] → url_origin u = tr_origin r →
  normalizeDpopProofTarget parse_url (JStr (tr_origin r ++ tr_prefix r ++ path ++ q'))
  = resolveTarget parse_url r (JStr (path ++ q)).
Proof.
  intros [Ho Hscheme Hne Hunits Hpre Hpq] Hpath Hnq Hq Hq' Hsp Hct Hparse Hun Hpw Hor.
  apply forallb_and in Hunits as [Hunits Hat]. apply forallb_and in Hunits as [Hunits Hctl].
  apply forallb_and in Hunits as [Hauth Hspc]. apply forallb_negb in Hat, Hctl, Hspc.
  unfold resolveTarget. rewrite before_query_app, Hpath by done. cbn [guard res_bind].
  set (full := tr_prefix r ++ path). assert (tr_prefix r ++ path ++ q' = full ++ q') as Efull by (unfold full; by rewrite app_assoc).
  assert (starts_with (js "/") full = true) as Hfull.
  { unfold full. destruct Hpre as [->|[t ->]%starts_with_spec]; [done|]. by apply starts_with_spec; exists (t ++ path). }
  assert (no_query full) as Hfq by by apply Forall_app.
  rewrite Efull in *. rewrite Ho in *. rewrite <- app_assoc in *. unfold normalizeDpopProofTarget.
  rewrite scheme_length_app by done. rewrite drop_app_length.
  assert (before_query (scheme ++ host ++ full ++ q') = scheme ++ host ++ full) as Hbq.
  { rewrite !app_assoc. rewrite <- (app_assoc (scheme ++ host)). rewrite app_assoc. apply before_query_app; [|done]. rewrite <- app_assoc.
    apply Forall_app. split; [destruct Hscheme as [->| ->]; repeat (constructor; [done|]); constructor|].
    apply Forall_app. split; [|done]. apply Forall_forall. intros c Hc%list_elem_of_In.
    rewrite forallb_forall in Hauth. apply Hauth in Hc. unfold authority_unit in Hc.
    apply negb_true_iff in Hc. rewrite !orb_false_iff, !Z.eqb_neq in Hc. tauto. }
  rewrite Hparse, Hbq, drop_app_length, span_slash_app by done. rewrite Hun, Hpw, Hor.
  assert (existsb space_or_backslash scheme = false ∧ hasControl scheme = false) as [Hs1 Hs2]
    by (destruct Hscheme as [->| ->]; done).
  assert (jsstr_eqb (scheme ++ host) (js "null") = false) as Hnull
    by (apply jsstr_eqb_false; by destruct Hscheme as [->| ->]).
  unfold hasControl in *. rewrite !existsb_app, Hs1, Hs2, Hspc, Hctl, Hsp, Hct, Hnull. cbn [orb].
  rewrite !orb_false_r. change (includes_char 64 host) with (existsb (Z.eqb 64) host).
  assert (existsb (Z.eqb 64) host = false) as ->.
  { rewrite <- Hat. clear. induction host as [|c l IH]; [done|]. cbn. by rewrite IH, Z.eqb_sym. }
  apply starts_with_spec in Hfull as [t Ht]. destruct host as [|h host]; [done|].
  cbn [forallb] in Hauth. apply andb_true_iff in Hauth as [Hh _].
  cbn [app]. rewrite Hh, andb_true_r. change (js "/" ++ t) with (47 :: t) in Ht.
  assert (match full with [] => js "/" | _ => full end = full) as -> by (by rewrite Ht).
  unfold normalizePath, hasControl.
  destruct (existsb space_or_backslash full); [by cbn [negb]; rewrite !andb_false_r|].
  destruct (existsb is_control full); [by cbn [negb]; rewrite !andb_false_r|]. done.
Qed.

(** * Concrete instance *)

Definition example_target_url (pathname : jsstr) : URL :=
  mkURL (js "https://api.example.com" ++ pathname) (js "https:") [] [] (js "api.example.com")
    (js "api.example.com") pathname [] [].
Definition example_target_parser (s : jsstr) : option URL :=
  if starts_with (js "https://api.example.com/") s
  then Some (example_target_url (before_query (drop 23 s)))
  else if jsstr_eqb s (js "https://api.example.com") then Some (example_target_url (js "/")) else None.
Definition example_resolver : TargetResolver := mkResolver (js "https://api.example.com") (js "/v1").

Example example_resolver_created :
  createDpopRequestTargetResolver example_target_parser (JStr (js " https://api.example.com ")) (JStr (js "/v1/"))
  = Ok example_resolver.
Proof. vm_compute. reflexivity. Qed.

Lemma target_agrees_witness :
  normalizeDpopProofTarget example_target_parser (JStr (js "https://api.example.com/v1/a%2db%2f?y#f"))
  = resolveTarget example_target_parser example_resolver (JStr (js "/a%2db%2f?x=1"))
  ∧ resolveTarget example_target_parser example_resolver (JStr (js "/a%2db%2f?x=1"))
    = Ok (js "https://api.example.com/v1/a-b%2F").
Proof.
  split; [|vm_compute; reflexivity].
  apply (target_agrees example_target_parser example_resolver (js "https://") (js "api.example.com")
    (js "/a%2db%2f") (js "?x=1") (js "?y#f") (example_target_url (js "/v1/a%2db%2f"))).
  - constructor; try reflexivity; [by left|discriminate|by right|]. repeat constructor; discriminate.
  - reflexivity.
  - repeat constructor; discriminate.
  - right. do 2 eexists. split; [reflexivity|by left].
  - right. do 2 eexists. split; [reflexivity|by left].
  - reflexivity.
  - reflexivity.
  - reflexivity.
  - reflexivity.
  - reflexivity.
  - reflexivity.
Defined.
