(* ===== verification/DpopReplay.v ===== *)
(** express-oidc-vault, [dpop-replay.ts]: the protection space, the replay key, the proof
    window and the admission of a verified proof. The store is anything that satisfies
    the interface [ReplayStore]; the memory store is an instance.

    The diagnostics observer and the warnings of the failure overrides are left out. *)

From S2P Require Import Prelude JsValue JsJson AttestTypes AttestCanonical AttestVerify JsBuffer IndexedHeap VaultBinding VaultDpop DpopNonce DpopPolicy DpopTarget.

(** * The interface of a replay store *)

(** [reserveDpopProof({ replayKey, expiresAt })] at a reading of the store's clock: what the
    promise settles to, and the store afterwards. *)
Class ReplayStore (St : Type) := {
  rs_reserve : jsstr → num → num → St → result jsval jsval * St;
  rs_ok : St → Prop;
  rs_holds : St → jsstr → Z → Prop      (** a reservation until an epoch *)
}.

(** A reservation that has not expired at the store's clock. *)
Definition live_at (now : num) (e : Z) : bool := num_lt now (num_of_Z e).

(** The contract of [OidcVaultDpopReplayStore]: reserve once through expiry; duplicates
    and expired input are refused; a live reservation is never evicted. *)
Class ReplayStoreLaws (St : Type) `{ReplayStore St} := {
  rs_reserve_ok key e now st : rs_ok st → rs_ok (rs_reserve key e now st).2;
  rs_admit key e now st st' :
    rs_ok st → rs_reserve key e now st = (Ok (JBool true), st') →
    ∃ x, safe_integer e = Some x ∧ live_at now x = true ∧ rs_holds st' key x;
  rs_keeps key e now st key' x :
    rs_ok st → rs_holds st key' x → live_at now x = true → rs_holds (rs_reserve key e now st).2 key' x;
  rs_refuses key e now st x :
    rs_ok st → rs_holds st key x → live_at now x = true → (rs_reserve key e now st).1 ≠ Ok (JBool true)
}.

(** * The protection space *)

(** [isPrintableIdentifier(value)] *)
Definition isPrintableIdentifier (value : jsval) : bool :=
  match value with
  | JStr s => all_units (in_range 32 126) s && (1 <=? length s)%nat && (length s <=? 128)%nat
  | _ => false
  end.

Definition DEFAULT_OIDC_VAULT_BASE_PATH : jsstr := js "/auth/oidc".

Record ProofCandidate := mkCandidate {
  pc_jkt : jsstr;
  pc_alg : DpopAlgorithm;
  pc_iat : num;
  pc_jti : jsstr;
  pc_nonce : jsval
}.

(** What one call of [verifyAndReserve] reads: the outcome of the verifier, the policy clock
    ([None] when it throws), [Date.now()], the random bytes of a challenge, and the store's clock. *)
Record ReplayEnv := mkEnv {
  en_verified : ores jsval;
  en_clock : option num;
  en_fallback : num;
  en_random : list Z;
  en_store_clock : num
}.

Record ReplayPolicy := mkReplayPolicy {
  rp_namespace : list jsstr;
  rp_options : ResolvedDeviceBindingOptions;
  rp_nonce : option NoncePolicy
}.

Inductive ReplayResult :=
  | Accepted (binding : VerifiedBinding) (expiresAt : num)
  | NonceChallenge (nonce : jsstr).

Definition invalidProof (diagnostic : jsstr) : oidc_error :=
  OidcVaultHttpError 401 (js "OIDC_VAULT_INVALID_DPOP_PROOF") diagnostic (js "DPoP proof validation failed.").
Definition replayUnavailable : oidc_error :=
  OidcVaultHttpError 503 (js "OIDC_VAULT_DPOP_REPLAY_UNAVAILABLE") (js "DPoP replay admission failed.")
    (js "DPoP replay protection is unavailable.").

Definition strip_slashes (s : jsstr) : jsstr := strip_trailing_slashes (drop_while (λ c, c =? 47) s).

Section replay.
Variable parse_url : jsstr → option URL.
Variable sha256 : list Z → list Z.
Variable hmac_sha256 : list Z → list Z → list Z.

Definition normalizeNamespaceBasePath (origin : jsstr) (value : jsval) : ores jsstr :=
  let mount s :=
    let mounted := match s with
                   | [] => DEFAULT_OIDC_VAULT_BASE_PATH
                   | _ => if jsstr_eqb s (js "/") then DEFAULT_OIDC_VAULT_BASE_PATH
                          else js "/" ++ strip_slashes s
                   end in
    guard (negb (existsb (λ c, space_or_backslash c || (c =? 63) || (c =? 35)) mounted)
           && negb (bad_escape mounted))
      (TypeError (js "DPoP vault basePath must be a static path without query, fragment or malformed escapes.")) ;;;
    match parse_url (origin ++ normalize_escapes mounted) with
    | Some url => Ok (match strip_trailing_slashes (url_pathname url) with [] => js "/" | p => p end)
    | None => Err (TypeError (js "Invalid URL"))
    end in
  match value with
  | JUndef => mount []
  | JStr s => mount s
  | _ => Err (TypeError (js "DPoP vault basePath must be a static path."))
  end.

Definition nonempty_string (v : jsval) : option jsstr :=
  match v with JStr (c :: s) => Some (c :: s) | _ => None end.

Definition resolveDpopEffectiveNamespace (space : jsval) : ores (list jsstr) :=
  if js_strict_eq (get_field space (js "type")) (JStr (js "vault")) then
    let* origin := resolveDeviceBindingOrigin parse_url (get_field space (js "backendOrigin")) (js "backendOrigin") in
    match nonempty_string (get_field space (js "issuer")), nonempty_string (get_field space (js "clientId")) with
    | Some issuer, Some clientId =>
        let* basePath := normalizeNamespaceBasePath origin (get_field space (js "basePath")) in
        Ok [js "vault"; origin; basePath; issuer; clientId]
    | _, _ => Err (TypeError (js "DPoP vault namespace requires resolved issuer and clientId."))
    end
  else if js_strict_eq (get_field space (js "type")) (JStr (js "api")) then
    match get_field space (js "replayNamespace") with
    | JStr replayNamespace =>
        guard (isPrintableIdentifier (JStr replayNamespace))
          (TypeError (js "DPoP replayNamespace must contain 1 through 128 printable ASCII bytes.")) ;;;
        let* origin := resolveDeviceBindingOrigin parse_url (get_field space (js "publicOrigin")) (js "publicOrigin") in
        Ok [js "api"; origin; replayNamespace]
    | _ => Err (TypeError (js "DPoP replayNamespace must contain 1 through 128 printable ASCII bytes."))
    end
  else Err (TypeError (js "DPoP replay policy requires a vault or API protection space.")).

(** [JSON.stringify(effectiveNamespace)] and the preimage of a replay key. *)
Definition namespace_value (ns : list jsstr) : jsval := JArr (map JStr ns).

Definition createDpopReplayKey (ns : list jsstr) (jkt jti : jsstr) : ores jsstr :=
  guard (isCanonicalDpopJkt (JStr jkt) && isPrintableIdentifier (JStr jti))
    (TypeError (js "DPoP replay key requires a canonical thumbprint and a bounded printable JTI.")) ;;;
  Ok (js "dpop:v1:"
      ++ base64urlEncode (sha256 (utf8_encode (json_text (JArr [namespace_value ns; JStr jkt; JStr jti]))))).

Definition getDpopReplayExpiresAt (iat : jsval) (now age skew : num) : option num :=
  match iat, epoch_ms iat, epoch_ms (JNum now), integer_of age, integer_of skew with
  | JNum iat, Some _, Some _, Some a, Some k =>
      if (a <? 1) || (300 <? a) || (k <? 0) || (30 <? k) then None
      else
        let issuedAt := num_mul iat (num_of_Z 1000) in
        let expiresAt := num_mul (num_add (num_add iat age) skew) (num_of_Z 1000) in
        if negb (bool_decide (is_Some (safe_integer issuedAt)))
           || negb (bool_decide (is_Some (safe_integer expiresAt)))
           || num_lt (num_mul skew (num_of_Z 1000)) (num_sub issuedAt now)
           || num_le expiresAt now
           || num_lt (num_of_Z 360000) (num_sub expiresAt now)
        then None else Some expiresAt
  | _, _, _, _, _ => None
  end.

Definition nonce_error_value (e : nonce_error) : oidc_error :=
  match e with NonceTypeError m => TypeError m end.
Definition lift_nonce {A} (r : nres A) : ores A := res_catch r (λ e, Err (nonce_error_value e)).

Definition createDpopReplayPolicy (env : jsstr → option jsstr) (protectionSpace proofOptions : jsval)
    : ores ReplayPolicy :=
  let* policy := resolveDeviceBindingOptions env proofOptions in
  match policy with
  | None => Err (TypeError (js "DPoP replay policy requires enabled proof options."))
  | Some o =>
      let* ns := resolveDpopEffectiveNamespace protectionSpace in
      let* noncePolicy :=
        match db_nonce o with
        | None => Ok None
        | Some (secret, lifetime) =>
            let* p := lift_nonce (createDpopNoncePolicy sha256
                        (mkNonceOptions (JBytes secret) (JNum (num_of_Z lifetime))
                           (JStr (json_text (namespace_value ns))))) in
            Ok (Some p)
        end in
      Ok (mkReplayPolicy ns o noncePolicy)
  end.

(** The shape checks on what the verifier returned. *)
Definition check_candidate (o : ResolvedDeviceBindingOptions) (verified : jsval) : ores ProofCandidate :=
  guard (is_non_array_object verified)
    (invalidProof (js "DPoP verifier did not return a proof verification result.")) ;;;
  let binding := get_field verified (js "binding") in
  guard (is_non_array_object binding)
    (invalidProof (js "DPoP verifier did not return a verified key binding.")) ;;;
  let error := invalidProof (js "DPoP verified key/algorithm or signed iat/JTI shape is invalid.") in
  match get_field binding (js "jkt"), dpop_algorithm (get_field binding (js "alg")),
        get_field verified (js "iat"), get_field verified (js "jti") with
  | JStr jkt, Some alg, JNum iat, JStr jti =>
      guard (js_strict_eq (get_field binding (js "type")) (JStr (js "dpop"))
             && isCanonicalDpopJkt (JStr jkt) && bool_decide (alg ∈ db_algorithms o)
             && isPrintableIdentifier (JStr jti) && bool_decide (is_Some (epoch_ms (JNum iat)))) error ;;;
      Ok (mkCandidate jkt alg iat jti (get_field verified (js "nonce")))
  | _, _, _, _ => Err error
  end.

(** The clock reading, with the fallback of an ignored freshness failure. *)
Definition check_clock (o : ResolvedDeviceBindingOptions) (env : ReplayEnv) : ores num :=
  let valid n := bool_decide (is_Some (epoch_ms (JNum n))) in
  match (n ← en_clock env; if valid n then Some n else None) with
  | Some n => Ok n
  | None =>
      handleDpopCheckFailure (db_ignoreFreshnessFailure o) replayUnavailable ;;;
      guard (valid (en_fallback env)) replayUnavailable ;;;
      Ok (en_fallback env)
  end.

Definition check_freshness (o : ResolvedDeviceBindingOptions) (iat checkedNow : num) : ores num :=
  let age := num_of_Z (db_proofMaxAgeSeconds o) in
  let skew := num_of_Z (db_clockSkewSeconds o) in
  match getDpopReplayExpiresAt (JNum iat) checkedNow age skew with
  | Some expiresAt => Ok expiresAt
  | None =>
      handleDpopCheckFailure (db_ignoreFreshnessFailure o)
        (invalidProof (js "DPoP signed iat is outside the bounded replay window.")) ;;;
      Ok (num_add checkedNow (num_mul (num_add age skew) (num_of_Z 1000)))
  end.

(** [Some nonce] is a challenge. *)
Definition check_nonce (p : ReplayPolicy) (nonce : jsval) (jkt : jsstr) (checkedNow : num) (random : list Z)
    : ores (option jsstr) :=
  match rp_nonce p with
  | Some np =>
      if nonce_verify hmac_sha256 np nonce jkt checkedNow then Ok None
      else let* challengeNonce := lift_nonce (nonce_issue hmac_sha256 np random jkt checkedNow) in
           Ok (Some challengeNonce)
  | None =>
      guard (match nonce with
             | JUndef => true
             | JStr s => (Z.of_nat (length s) <=? DPOP_NONCE_MAX_BYTES) && (byteLength s <=? DPOP_NONCE_MAX_BYTES)
             | _ => false
             end)
        (invalidProof (js "DPoP signed nonce claim exceeds its string/byte bound.")) ;;;
      Ok None
  end.

Section store.
Context {St : Type} `{ReplayStore St}.

(** The reservation: [None] when the proof is admitted. *)
Definition reserve_candidate (p : ReplayPolicy) (c : ProofCandidate) (expiresAt clock : num) (st : St)
    : option oidc_error * St :=
  match createDpopReplayKey (rp_namespace p) (pc_jkt c) (pc_jti c) with
  | Err _ => (Some replayUnavailable, st)
  | Ok key =>
      let '(reserved, st) := rs_reserve key expiresAt clock st in
      (match reserved with
       | Ok (JBool true) => None
       | Ok (JBool false) => Some (invalidProof (js "DPoP replay reservation was duplicate or no longer live."))
       | Ok _ | Err _ => Some replayUnavailable
       end, st)
  end.

Definition verifyAndReserve (p : ReplayPolicy) (env : ReplayEnv) (st : St) : ores ReplayResult * St :=
  let o := rp_options p in
  let checked :=
    let* verified := en_verified env in
    let* c := check_candidate o verified in
    let* checkedNow := check_clock o env in
    let* expiresAt := check_freshness o (pc_iat c) checkedNow in
    let* challenge := check_nonce p (pc_nonce c) (pc_jkt c) checkedNow (en_random env) in
    Ok (c, expiresAt, challenge) in
  match checked with
  | Err e => (Err e, st)
  | Ok (_, _, Some nonce) => (Ok (NonceChallenge nonce), st)
  | Ok (c, expiresAt, None) =>
      let '(reservationError, st) := reserve_candidate p c expiresAt (en_store_clock env) st in
      (match reservationError with
       | Some e => handleDpopCheckFailure (db_ignoreReplayFailure o) e ;;;
                   Ok (Accepted (mkVerified (pc_jkt c) (pc_alg c)) expiresAt)
       | None => Ok (Accepted (mkVerified (pc_jkt c) (pc_alg c)) expiresAt)
       end, st)
  end.

(** Reservations other callers make: key, expiry, store clock. *)
Fixpoint reserve_run (calls : list (jsstr * num * num)) (st : St) : St :=
  match calls with
  | [] => st
  | (key, e, now) :: calls => reserve_run calls (rs_reserve key e now st).2
  end.
End store.
End replay.

(** * The memory store satisfies the interface *)

#[export] Instance memory_replay_store (max : Z) : ReplayStore (HeapState Z) := {
  rs_reserve key e now st :=
    match dpop_reserve max (JStr key) (JNum e) now st with
    | Some (Ok b, st') => (Ok (JBool b), st')
    | Some (Err _, st') => (Err JUndef, st')
    | None => (Err JUndef, st)
    end;
  rs_ok := dpop_inv max;
  rs_holds st key x := view st !! key = Some x
  }.

Lemma live_finite now x : live_at now x = true → is_finite now = true ∨ now = Infty true.
Proof. unfold live_at, num_lt. destruct now as [| []|]; cbn; auto. Qed.

Lemma live_dpop now x : is_finite now = true → live_at now x = negb (dpop_expired now x).
Proof. intros Hf. rewrite <- live_not_expired by done. done. Qed.

(** A reservation is only granted at a finite clock, for an expiry ahead of it. *)
Lemma dpop_reserve_true max key e now st st' :
  dpop_reserve max (JStr key) (JNum e) now st = Some (Ok true, st') →
  is_finite now = true ∧ ∃ x, safe_integer e = Some x ∧ dpop_expired now x = false.
Proof.
  unfold dpop_reserve. intros H. destruct (is_finite now); [|done]. split; [done|]. cbn [negb] in H.
  destruct (safe_integer e) as [x|]; [|done]. exists x. split; [done|].
  destruct (dpop_expired now x); [done|]. done.
Qed.

Lemma dpop_reserve_infinite max key e st :
  dpop_reserve max (JStr key) (JNum e) (Infty true) st
  = Some (Err (VaultStoreError (js "OIDC vault DPoP replay store clock is invalid.")), st).
Proof. done. Qed.

#[export] Instance memory_replay_laws (max : Z) : @ReplayStoreLaws (HeapState Z) (memory_replay_store max).
Proof.
  split; cbn [rs_reserve rs_ok rs_holds memory_replay_store].
  - intros key e now st Hok. destruct (dpop_reserve_total max (JStr key) (JNum e) now st Hok) as (r & st' & -> & Hok' & _).
    by destruct r.
  - intros key e now st st' Hok H.
    destruct (dpop_reserve_total max (JStr key) (JNum e) now st Hok) as (r & st1 & E & _ & _ & Htrue & _).
    rewrite E in H. destruct r as [[]|]; try done. injection H as ->.
    destruct (dpop_reserve_true _ _ _ _ _ _ E) as (Hf & x & Hx & Hexp).
    destruct (Htrue eq_refl) as (key' & n & x' & [= <-] & [= <-] & Hx' & Hv & _).
    exists x. rewrite live_dpop, Hexp by done. split_and!; [done..|]. congruence.
  - intros key e now st key' x Hok Hh Hl. destruct (live_finite _ _ Hl) as [Hf| ->]; [|done].
    rewrite live_dpop in Hl by done. apply negb_true_iff in Hl.
    destruct (dpop_reserve_total max (JStr key) (JNum e) now st Hok) as (r & st' & -> & _ & Hk & _).
    destruct r; cbn; by apply Hk.
  - intros key e now st x Hok Hh Hl. destruct (live_finite _ _ Hl) as [Hf| ->]; [|done].
    rewrite live_dpop in Hl by done. apply negb_true_iff in Hl.
    destruct (dpop_reserve_total max (JStr key) (JNum e) now st Hok) as (r & st' & -> & _ & _ & Htrue & _).
    destruct r as [[]|]; cbn; try done. destruct (Htrue eq_refl) as (key' & ? & ? & [= <-] & _ & _ & _ & Hd).
    specialize (Hd x Hh). congruence.
Qed.

(** * The proof window *)

Lemma safe_epoch z : 0 <= z <= MAX_SAFE_INTEGER → is_safe z = true.
Proof. intros. apply Z.leb_le. lia. Qed.

(** The expiry is computed exactly on the documented window: the proof was not issued more
    than the skew in the future and [iat + age + skew] is still ahead. It never lies more
    than 360 s ahead, so that last test refuses nothing, and no rounding occurs. *)
Theorem replay_window_exact (iat : jsval) (now age skew e : num) :
  getDpopReplayExpiresAt iat now age skew = Some e ↔
  ∃ n i t a k, iat = JNum n ∧ num_is n i ∧ 0 <= i ∧ num_is now t ∧ 0 <= t <= MAX_SAFE_INTEGER
    ∧ num_is age a ∧ 1 <= a <= 300 ∧ num_is skew k ∧ 0 <= k <= 30
    ∧ (i + a + k) * 1000 <= MAX_SAFE_INTEGER ∧ i * 1000 <= t + k * 1000
    ∧ t < (i + a + k) * 1000 ∧ e = num_of_Z ((i + a + k) * 1000).
Proof.
  assert (MAX_SAFE_INTEGER = 9007199254740991) as HM by done. split.
  - unfold getDpopReplayExpiresAt. destruct iat as [| | |n| | | | |]; try discriminate.
    destruct (epoch_ms (JNum n)) as [i|] eqn:Hi, (epoch_ms (JNum now)) as [t|] eqn:Ht, (integer_of age) as [a|] eqn:Ha,
      (integer_of skew) as [k|] eqn:Hk; try discriminate.
    apply epoch_ms_is in Hi as (? & [= <-] & Hn & Hi), Ht as (? & [= <-] & Hnow & Ht).
    apply integer_of_is in Ha, Hk. destruct (_ || _ || _ || _) eqn:Hb; [discriminate|]. bool_prop. cbv zeta.
    destruct (_ || _ || _ || _ || _) eqn:Hc; [discriminate|]. intros [= <-]. bool_prop.
    repeat match goal with H : is_Some _ |- _ => destruct H as [? ?] end.
    match goal with H : safe_integer (num_mul n _) = Some _ |- _ =>
      pose proof (num_mul_safe n _ i 1000 Hn (num_is_of_Z 1000) _ H) as [_ Hs%Z.leb_le] end.
    assert (num_add (num_add n age) skew = num_of_Z (i + a + k)) as E.
    { rewrite (num_add_exact n age i a) by (done || apply safe_epoch; lia).
      apply num_add_exact; [apply num_is_of_Z|done|]. apply safe_epoch. lia. }
    rewrite E in *.
    match goal with H : safe_integer (num_mul (num_of_Z _) _) = Some _ |- _ =>
      pose proof (num_mul_safe _ _ _ 1000 (num_is_of_Z (i + a + k)) (num_is_of_Z 1000) _ H) as [_ Hs2] end.
    rewrite (num_mul_exact _ _ (i + a + k) 1000) in * by (apply num_is_of_Z || done).
    rewrite (num_mul_exact n _ i 1000) in * by (done || apply num_is_of_Z || apply safe_epoch; lia).
    rewrite (num_mul_exact skew _ k 1000) in * by (done || apply num_is_of_Z || apply safe_epoch; lia).
    apply Z.leb_le in Hs2.
    rewrite (num_sub_exact _ now (i * 1000) t) in * by (done || apply num_is_of_Z || (apply Z.leb_le; lia)).
    repeat match goal with
    | H : num_lt (num_of_Z ?x) (num_of_Z ?y) = false |- _ => rewrite (num_lt_is _ _ x y) in H by apply num_is_of_Z
    | H : num_le (num_of_Z ?x) now = false |- _ => rewrite (num_le_is _ _ x t) in H by (done || apply num_is_of_Z)
    end. bool_prop. exists n, i, t, a, k. split_and!; try done; lia.
  - intros (n & i & t & a & k & -> & Hn & Hi & Hnow & Ht & Hage & Ha & Hskew & Hk & Hmax & H1 & H2 & ->).
    unfold getDpopReplayExpiresAt.
    rewrite (proj2 (epoch_ms_is (JNum n) i)), (proj2 (epoch_ms_is (JNum now) t)) by (eexists; split_and!; [done|done|lia..]).
    rewrite (proj2 (integer_of_is age a) Hage), (proj2 (integer_of_is skew k) Hskew).
    rewrite (num_add_exact n age i a), (num_add_exact _ skew (i + a) k)
      by (done || apply num_is_of_Z || apply safe_epoch; lia).
    rewrite (num_mul_exact n _ i 1000), (num_mul_exact _ _ (i + a + k) 1000), (num_mul_exact skew _ k 1000)
      by (done || apply num_is_of_Z || apply safe_epoch; lia).
    rewrite !safe_integer_of_Z by (apply safe_epoch; lia). cbn [bool_decide negb orb].
    rewrite (num_sub_exact _ now (i * 1000) t), (num_sub_exact _ now ((i + a + k) * 1000) t)
      by (done || apply num_is_of_Z || (apply Z.leb_le; lia)).
    rewrite (num_lt_is _ _ (k * 1000) (i * 1000 - t)), (num_le_is _ now ((i + a + k) * 1000) t),
      (num_lt_is _ _ 360000 ((i + a + k) * 1000 - t)) by (done || apply num_is_of_Z).
    assert ((a <? 1) || (300 <? a) || (k <? 0) || (30 <? k) = false) as -> by lia. cbv zeta.
    rewrite (proj2 (Z.ltb_ge (k * 1000) _)), (proj2 (Z.leb_gt _ t)), (proj2 (Z.ltb_ge 360000 _)) by lia. done.
Qed.

(** * Replay keys *)

Section keys.
Variable sha256 : list Z → list Z.
Hypothesis sha256_bytes : ∀ m, bytes_ok (sha256 m).

Lemma printable_units s : isPrintableIdentifier (JStr s) = true → units_ok s.
Proof.
  cbn. intros H. apply andb_true_iff in H as [H _]. apply andb_true_iff in H as [H _].
  apply ascii_units_ok. eapply all_units_impl; [|exact H]. intros c. unfold is_ascii. rewrite !in_range_spec. lia.
Qed.

Lemma preimage_frame ns jkt jti :
  Forall units_ok ns → isCanonicalDpopJkt (JStr jkt) = true → isPrintableIdentifier (JStr jti) = true →
  frame_value (JArr [namespace_value ns; JStr jkt; JStr jti]).
Proof.
  intros Hns [_ Hj]%canonical_jkt Hp. apply frame_value_array.
  repeat (apply Forall_cons; split); try apply Forall_nil; try done.
  - apply frame_value_array. by apply Forall_map.
  - by apply ascii_units_ok, units_ascii.
  - by apply printable_units.
Qed.

(** Two proofs share a replay key only when they have the same protection space, the same
    key thumbprint and the same identifier, or SHA-256 collides. *)
Theorem dpop_key_separates (ns1 ns2 : list jsstr) (jkt1 jkt2 jti1 jti2 key : jsstr) :
  Forall units_ok ns1 → Forall units_ok ns2 →
  createDpopReplayKey sha256 ns1 jkt1 jti1 = Ok key → createDpopReplayKey sha256 ns2 jkt2 jti2 = Ok key →
  (ns1 = ns2 ∧ jkt1 = jkt2 ∧ jti1 = jti2) ∨ ∃ m1 m2, m1 ≠ m2 ∧ sha256 m1 = sha256 m2.
Proof.
  intros Hn1 Hn2 H1 H2. unfold createDpopReplayKey in H1, H2.
  apply res_bind_Ok in H1 as (? & [Hj1 Hi1]%guard_Ok%andb_true_iff & [= <-]).
  apply res_bind_Ok in H2 as (? & [Hj2 Hi2]%guard_Ok%andb_true_iff & [= He]).
  apply (f_equal buffer_of_base64url) in He. rewrite !buffer_of_encode in He by done.
  set (v1 := JArr [namespace_value ns1; JStr jkt1; JStr jti1]) in *.
  set (v2 := JArr [namespace_value ns2; JStr jkt2; JStr jti2]) in *.
  destruct (decide (utf8_encode (json_text v1) = utf8_encode (json_text v2))) as [Heq|Hne]; [left|right; eauto].
  apply json_bytes_inj in Heq; [|by apply preimage_frame..]. injection Heq as Hns -> ->.
  split_and!; try done. apply (f_equal (map (λ v, match v with JStr s => s | _ => [] end))) in Hns.
  by rewrite !map_map, !map_id in Hns.
Qed.
End keys.

(** * Admission *)

Section admission.
Variable sha256 : list Z → list Z.
Variable hmac_sha256 : list Z → list Z → list Z.
Context {St : Type} `{ReplayStoreLaws St}.
Notation verify := (verifyAndReserve sha256 hmac_sha256).

(** What an accepted proof passed. *)
Record admitted (p : ReplayPolicy) (env : ReplayEnv) (st st' : St) (b : VerifiedBinding) (e : num) : Prop := {
  ad_candidate : ∃ v c now key,
    en_verified env = Ok v ∧ check_candidate (rp_options p) v = Ok c
    ∧ b = mkVerified (pc_jkt c) (pc_alg c)
    ∧ check_clock (rp_options p) env = Ok now
    ∧ check_freshness (rp_options p) (pc_iat c) now = Ok e
    ∧ check_nonce hmac_sha256 p (pc_nonce c) (pc_jkt c) now (en_random env) = Ok None
    ∧ createDpopReplayKey sha256 (rp_namespace p) (pc_jkt c) (pc_jti c) = Ok key
    ∧ rs_reserve key e (en_store_clock env) st = (Ok (JBool true), st')
}.

Lemma candidate_checked o v c :
  check_candidate o v = Ok c →
  isCanonicalDpopJkt (JStr (pc_jkt c)) = true ∧ isPrintableIdentifier (JStr (pc_jti c)) = true
  ∧ pc_alg c ∈ db_algorithms o ∧ is_Some (epoch_ms (JNum (pc_iat c)))
  ∧ get_field (get_field v (js "binding")) (js "jkt") = JStr (pc_jkt c)
  ∧ get_field v (js "iat") = JNum (pc_iat c) ∧ get_field v (js "jti") = JStr (pc_jti c).
Proof.
  unfold check_candidate. cbv zeta. intros Hc. apply res_bind_Ok in Hc as (_ & _ & Hc).
  apply res_bind_Ok in Hc as (_ & _ & Hc).
  destruct (get_field (get_field v (js "binding")) (js "jkt")) as [| | | |jkt| | | |],
    (dpop_algorithm (get_field (get_field v (js "binding")) (js "alg"))) as [alg|],
    (get_field v (js "iat")) as [| | |iat| | | | |], (get_field v (js "jti")) as [| | | |jti| | | |]; try discriminate.
  apply res_bind_Ok in Hc as (_ & Hg%guard_Ok & [= <-]). bool_prop. done.
Qed.

(** Whatever is overridden, the key of an acceptance is that of a verified proof. *)
Lemma accepted_candidate p env st b e st' :
  verify p env st = (Ok (Accepted b e), st') →
  ∃ v c, en_verified env = Ok v ∧ check_candidate (rp_options p) v = Ok c ∧ b = mkVerified (pc_jkt c) (pc_alg c).
Proof.
  unfold verifyAndReserve. destruct (res_bind _ _) as [[[c x] ch]|] eqn:Hc; [|done]. destruct ch; [done|].
  res_step Hc as v Hv. res_step Hc as c' Hcand. res_step Hc as now Hnow. res_step Hc as x' Hx. res_step Hc as ch Hch.
  injection Hc as -> -> ->. destruct (reserve_candidate _ _ _ _ _ _) as [[err|] st1].
  - destruct (handleDpopCheckFailure _ _); [|done]. intros [= <- <- <-]. by exists v, c.
  - intros [= <- <- <-]. by exists v, c.
Qed.

Lemma accepted_admitted p env st b e st' :
  db_ignoreReplayFailure (rp_options p) = false →
  verify p env st = (Ok (Accepted b e), st') → admitted p env st st' b e.
Proof.
  intros Hr Hv. unfold verifyAndReserve in Hv. rewrite Hr in Hv.
  destruct (res_bind _ _) as [[[c x] ch]|] eqn:Hc; [|done]. destruct ch; [done|].
  apply res_bind_Ok in Hc as (v & Hverified & Hc). apply res_bind_Ok in Hc as (c' & Hcand & Hc).
  apply res_bind_Ok in Hc as (now & Hnow & Hc). apply res_bind_Ok in Hc as (x' & Hx & Hc).
  apply res_bind_Ok in Hc as (ch & Hch & Hc). injection Hc as -> -> ->.
  unfold reserve_candidate in Hv. destruct (createDpopReplayKey _ _ _ _) as [key|] eqn:Hk; [|done].
  destruct (rs_reserve key x (en_store_clock env) st) as [r st1] eqn:Hres.
  destruct r as [[| |[]| | | | | |]|]; try done. injection Hv as <- <- <-.
  split. exists v, c, now, key. split_and!; done.
Qed.

(** The expiry of an accepted proof is fixed by the proof and the windows, not by the clock. *)
Lemma freshness_fixed o1 o2 iat now1 now2 e1 e2 :
  db_ignoreFreshnessFailure o1 = false → db_ignoreFreshnessFailure o2 = false →
  db_proofMaxAgeSeconds o1 = db_proofMaxAgeSeconds o2 → db_clockSkewSeconds o1 = db_clockSkewSeconds o2 →
  check_freshness o1 iat now1 = Ok e1 → check_freshness o2 iat now2 = Ok e2 → e1 = e2.
Proof.
  unfold check_freshness. cbv zeta. intros -> -> <- <-.
  destruct (getDpopReplayExpiresAt _ now1 _ _) as [x1|] eqn:E1; [|done].
  destruct (getDpopReplayExpiresAt _ now2 _ _) as [x2|] eqn:E2; [|done]. intros [= <-] [= <-].
  apply replay_window_exact in E1 as (n1 & i1 & t1 & a1 & k1 & [= <-] & Hi1 & _ & _ & _ & Ha1 & _ & Hk1 & _ & _ & _ & _ & ->).
  apply replay_window_exact in E2 as (n2 & i2 & t2 & a2 & k2 & [= <-] & Hi2 & _ & _ & _ & Ha2 & _ & Hk2 & _ & _ & _ & _ & ->).
  assert (∀ n x y, num_is n x → num_is n y → x = y) as Hu.
  { intros n x y (q & -> & Hx) (q' & [= <-] & Hy). rewrite Hx in Hy. unfold Qeq in Hy. cbn in Hy. lia. }
  by rewrite (Hu _ _ _ Hi1 Hi2), (Hu _ _ _ Ha1 Ha2), (Hu _ _ _ Hk1 Hk2).
Qed.

Lemma num_lt_le_trans a b c : num_le a b = true → num_lt b c = true → num_lt a c = true.
Proof.
  intros Hab Hbc. unfold num_lt in *. apply andb_true_iff in Hbc as [Hbc Hn%negb_true_iff].
  rewrite (num_le_trans a b c) by done. cbn. apply negb_true_iff. apply not_true_iff_false in Hn.
  apply not_true_iff_false. intros Hca. apply Hn. by apply (num_le_trans c a b).
Qed.

Lemma reserve_run_keeps calls st key x :
  rs_ok st → rs_holds st key x → Forall (λ c, live_at c.2 x = true) calls →
  rs_ok (reserve_run calls st) ∧ rs_holds (reserve_run calls st) key x.
Proof.
  revert st. induction calls as [|[[k e] now] calls IH]; intros st Hok Hh Hc; [done|].
  apply Forall_cons in Hc as [Hl Hc]. cbn [reserve_run]. apply IH; [by apply rs_reserve_ok| |done].
  by apply rs_keeps.
Qed.

(** What the verifier returned for a proof is accepted at most once by the instances that share
    the store, the protection space and the windows. *)
Lemma accepted_once (p1 p2 : ReplayPolicy) (env1 env2 : ReplayEnv) (v : jsval)
    (mid : list (jsstr * num * num)) (st st1 : St) (b : VerifiedBinding) (e : num) :
  rs_ok st →
  rp_namespace p1 = rp_namespace p2 →
  db_proofMaxAgeSeconds (rp_options p1) = db_proofMaxAgeSeconds (rp_options p2) →
  db_clockSkewSeconds (rp_options p1) = db_clockSkewSeconds (rp_options p2) →
  db_ignoreReplayFailure (rp_options p1) = false → db_ignoreReplayFailure (rp_options p2) = false →
  db_ignoreFreshnessFailure (rp_options p1) = false → db_ignoreFreshnessFailure (rp_options p2) = false →
  en_verified env1 = Ok v → en_verified env2 = Ok v →
  verify p1 env1 st = (Ok (Accepted b e), st1) →
  Forall (λ c, num_le c.2 (en_store_clock env2) = true) mid →
  ∀ b' e', (verify p2 env2 (reserve_run mid st1)).1 ≠ Ok (Accepted b' e').
Proof.
  intros Hok Hns Hage Hskew Hr1 Hr2 Hf1 Hf2 Hv1 Hv2 Hacc Hmid b' e' Hacc2.
  destruct (verify p2 env2 (reserve_run mid st1)) as [r st3] eqn:E2. cbn in Hacc2. subst r.
  apply accepted_admitted in Hacc as [(v1 & c1 & now1 & key1 & Ev1 & Hc1 & _ & _ & Hx1 & _ & Hk1 & Hres1)]; [|done].
  apply accepted_admitted in E2 as [(v2 & c2 & now2 & key2 & Ev2 & Hc2 & _ & _ & Hx2 & _ & Hk2 & Hres2)]; [|done].
  assert (v1 = v ∧ v2 = v) as [-> ->] by (split; congruence).
  assert (pc_jkt c1 = pc_jkt c2 ∧ pc_jti c1 = pc_jti c2 ∧ pc_iat c1 = pc_iat c2) as (Ej & Ei & Et).
  { apply candidate_checked in Hc1 as (_ & _ & _ & _ & ? & ? & ?), Hc2 as (_ & _ & _ & _ & ? & ? & ?).
    split_and!; congruence. }
  rewrite Et in Hx1. pose proof (freshness_fixed _ _ _ _ _ _ _ Hf1 Hf2 Hage Hskew Hx1 Hx2) as <-.
  rewrite Hns, Ej, Ei, Hk2 in Hk1. injection Hk1 as <-.
  pose proof (rs_admit _ _ _ _ _ Hok Hres1) as (x & Hx & Hl1 & Hh).
  assert (rs_ok st1) as Hok1.
  { pose proof (rs_reserve_ok key2 e (en_store_clock env1) st Hok) as Hk. by rewrite Hres1 in Hk. }
  destruct (live_at (en_store_clock env2) x) eqn:Hl2.
  - destruct (reserve_run_keeps mid st1 key2 x Hok1 Hh) as [Hok2 Hh2].
    { eapply Forall_impl; [exact Hmid|]. intros c Hc. exact (num_lt_le_trans _ _ _ Hc Hl2). }
    apply (rs_refuses key2 e (en_store_clock env2) _ x Hok2 Hh2 Hl2). by rewrite Hres2.
  - assert (rs_ok (reserve_run mid st1)) as Hok2.
    { clear - Hok1 H0. revert st1 Hok1. induction mid as [|[[k e0] n] mid IH]; intros st1 Hok1; [done|].
      cbn [reserve_run]. apply IH. by apply rs_reserve_ok. }
    pose proof (rs_admit _ _ _ _ _ Hok2 Hres2) as (x' & Hx' & Hl' & _). congruence.
Qed.

(** With no override, a proof is accepted only inside its window at the policy's own clock,
    under an allowed algorithm, with a live nonce when nonces are on, and once the
    store holds a reservation that outlives every other acceptance of the proof. *)
Theorem admission_sound (p : ReplayPolicy) (env : ReplayEnv) (st st' : St) (b : VerifiedBinding) (e : num) :
  rs_ok st →
  db_ignoreReplayFailure (rp_options p) = false → db_ignoreFreshnessFailure (rp_options p) = false →
  verify p env st = (Ok (Accepted b e), st') →
  ∃ v c now i t x key,
    en_verified env = Ok v ∧ check_candidate (rp_options p) v = Ok c
    ∧ b = mkVerified (pc_jkt c) (pc_alg c) ∧ vb_alg b ∈ db_algorithms (rp_options p)
    ∧ en_clock env = Some now ∧ num_is now t ∧ num_is (pc_iat c) i
    ∧ x = (i + db_proofMaxAgeSeconds (rp_options p) + db_clockSkewSeconds (rp_options p)) * 1000
    ∧ i * 1000 <= t + db_clockSkewSeconds (rp_options p) * 1000 ∧ t < x ∧ e = num_of_Z x
    ∧ (∀ np, rp_nonce p = Some np → nonce_verify hmac_sha256 np (pc_nonce c) (pc_jkt c) now = true)
    ∧ createDpopReplayKey sha256 (rp_namespace p) (pc_jkt c) (pc_jti c) = Ok key
    ∧ live_at (en_store_clock env) x = true ∧ rs_holds st' key x.
Proof.
  intros Hok Hr Hf Hacc. apply accepted_admitted in Hacc as [(v & c & now & key & Hv & Hc & -> & Hn & He & Hch & Hk & Hres)]; [|done].
  pose proof (candidate_checked _ _ _ Hc) as (_ & _ & Halg & _).
  assert (en_clock env = Some now) as Hclock.
  { unfold check_clock in Hn. rewrite Hf in Hn. destruct (en_clock env) as [n|]; [|done]. cbn in Hn.
    by destruct (bool_decide _); [injection Hn as ->|]. }
  unfold check_freshness in He. cbv zeta in He. rewrite Hf in He.
  destruct (getDpopReplayExpiresAt _ _ _ _) as [x'|] eqn:Hw; [injection He as ->|done].
  apply replay_window_exact in Hw as (n & i & t & a & k & [= <-] & Hi & _ & Ht & _ & Ha & _ & Hk' & _ & Hmax & H1 & H2 & ->).
  assert (∀ z y, num_is (num_of_Z z) y → y = z) as Hu.
  { intros z y (q & [= <-] & Hy). unfold Qeq in Hy. cbn in Hy. lia. }
  apply Hu in Ha, Hk'. subst a k. pose proof (rs_admit _ _ _ _ _ Hok Hres) as (x & Hx & Hl & Hh).
  apply safe_integer_is in Hx as [Hx _]. apply Hu in Hx. subst x.
  eexists v, c, now, i, t, _, key. split_and!; try done.
  intros np Hnp. unfold check_nonce in Hch. rewrite Hnp in Hch.
  destruct (nonce_verify _ _ _ _ _); [done|]. by destruct (lift_nonce _).
Qed.

Hypothesis hmac_length : ∀ k m, length (hmac_sha256 k m) = 32%nat.
Hypothesis hmac_bytes : ∀ k m, bytes_ok (hmac_sha256 k m).

(** A nonce challenge reserves nothing, and the nonce it carries is accepted in a proof under
    the same key until the lifetime has passed. *)
Theorem challenge_accepted (p : ReplayPolicy) (np : NoncePolicy) (env : ReplayEnv) (st st' : St) (nonce : jsstr) :
  rp_nonce p = Some np → nonce_policy_ok np → bytes_ok (en_random env) → length (en_random env) = 16%nat →
  verify p env st = (Ok (NonceChallenge nonce), st') →
  st' = st ∧ ∃ v c now i, en_verified env = Ok v ∧ check_candidate (rp_options p) v = Ok c
    ∧ check_clock (rp_options p) env = Ok now ∧ epoch_ms (JNum now) = Some i
    ∧ ∀ later t random, epoch_ms (JNum later) = Some t → i <= t < i + np_lifetimeMs np →
        check_nonce hmac_sha256 p (JStr nonce) (pc_jkt c) later random = Ok None.
Proof.
  intros Hp Hnp Hr Hrl Hv. unfold verifyAndReserve in Hv.
  destruct (res_bind _ _) as [[[c x] ch]|] eqn:Hc; [|done]. destruct ch as [n|].
  2: { destruct (reserve_candidate _ _ _ _ _ _) as [[err|] st1]; [|done].
       by destruct (handleDpopCheckFailure _ _). }
  injection Hv as -> <-. split; [done|].
  apply res_bind_Ok in Hc as (v & Hverified & Hc). apply res_bind_Ok in Hc as (c' & Hcand & Hc).
  apply res_bind_Ok in Hc as (now & Hnow & Hc). apply res_bind_Ok in Hc as (x' & Hx & Hc).
  apply res_bind_Ok in Hc as (ch & Hch & Hc). injection Hc as -> -> ->.
  unfold check_nonce in Hch. rewrite Hp in Hch. destruct (nonce_verify _ _ _ _ now); [done|].
  destruct (nonce_issue hmac_sha256 np (en_random env) (pc_jkt c) now) as [n|] eqn:Hissue; [|done].
  injection Hch as ->. pose proof (issued_text hmac_sha256 _ _ _ _ _ Hissue) as (Hj & i & Hi & Hmax & _ & _).
  exists v, c, now, i. split_and!; try done. intros later t random Ht Hlive.
  destruct (nonce_issue_verify hmac_sha256 hmac_length hmac_bytes np np (en_random env) (pc_jkt c) now later i t)
    as (n' & Hn' & Hver); try done.
  unfold check_nonce. rewrite Hp. rewrite Hn' in Hissue. injection Hissue as ->.
  rewrite Hver, bool_decide_true by done. done.
Qed.
End admission.

(** * Concrete instances *)

Definition example_space : jsval :=
  JObj true [(js "type", JStr (js "api")); (js "publicOrigin", JStr (js "https://api.example.com"));
             (js "replayNamespace", JStr (js "orders"))].
Definition example_replay_policy : ReplayPolicy :=
  mkReplayPolicy [js "api"; js "https://api.example.com"; js "orders"] example_options None.

Example example_replay_created :
  createDpopReplayPolicy example_target_parser toy_hash example_env example_space (options_value example_options)
  = Ok example_replay_policy.
Proof. vm_compute. reflexivity. Qed.

Definition example_verified (nonce : jsval) : jsval :=
  JObj true [(js "binding", JObj true [(js "type", JStr (js "dpop")); (js "jkt", JStr example_jkt);
                                       (js "alg", JStr (js "ES256"))]);
             (js "iat", JNum (num_of_Z 1000)); (js "jti", JStr (js "proof-1")); (js "nonce", nonce)].
Definition example_replay_env (nonce : jsval) (now clock : Z) : ReplayEnv :=
  mkEnv (Ok (example_verified nonce)) (Some (num_of_Z now)) (num_of_Z 0) (repeat 3 16) (num_of_Z clock).

Definition example_accept : ores ReplayResult * HeapState Z :=
  verifyAndReserve (St := HeapState Z) (H := memory_replay_store 10) toy_hash toy_hmac example_replay_policy
    (example_replay_env JUndef 1004000 1004001) empty_heap.
Definition example_accepted : ReplayResult := Accepted (mkVerified example_jkt ES256) (num_of_Z 1065000).

Lemma memory_empty_ok : dpop_inv 10 empty_heap.
Proof. split; [apply empty_wf|]. vm_compute. discriminate. Qed.

Lemma example_accept_eq : example_accept = (Ok example_accepted, example_accept.2).
Proof. vm_compute. reflexivity. Qed.

Lemma admission_sound_witness :
  ∃ v c now i t x key, (1004000 = t ∧ x = 1065000) ∧ num_is now t ∧ num_is (pc_iat c) i
    ∧ en_verified (example_replay_env JUndef 1004000 1004001) = Ok v
    ∧ live_at (num_of_Z 1004001) x = true ∧ view example_accept.2 !! key = Some x.
Proof.
  destruct (admission_sound (H0 := memory_replay_laws 10) toy_hash toy_hmac example_replay_policy
    (example_replay_env JUndef 1004000 1004001) empty_heap example_accept.2 (mkVerified example_jkt ES256)
    (num_of_Z 1065000) memory_empty_ok eq_refl eq_refl example_accept_eq)
    as (v & c & now & i & t & x & key & Hv & Hc & _ & _ & Hn & Ht & Hi & _ & _ & _ & He & _ & _ & Hl & Hh).
  exists v, c, now, i, t, x, key. split_and!; try assumption.
  - injection Hn as <-. destruct Ht as (q & [= <-] & Hq). unfold Qeq in Hq. cbn in Hq. lia.
  - injection He as He. lia.
Defined.

Definition example_nonce_replay_policy : ReplayPolicy :=
  mkReplayPolicy [js "api"; js "https://api.example.com"; js "orders"] example_options (Some example_nonce_policy).
Definition example_challenge : ores ReplayResult * HeapState Z :=
  verifyAndReserve (St := HeapState Z) (H := memory_replay_store 10) toy_hash toy_hmac example_nonce_replay_policy
    (example_replay_env JUndef 1004000 1004001) empty_heap.
Definition example_challenge_nonce : jsstr :=
  match example_challenge with (Ok (NonceChallenge n), _) => n | _ => [] end.

Lemma challenge_accepted_witness :
  check_nonce toy_hmac example_nonce_replay_policy (JStr example_challenge_nonce) example_jkt (num_of_Z 1063999) []
  = Ok None.
Proof.
  destruct (challenge_accepted (St := HeapState Z) (H := memory_replay_store 10) toy_hash toy_hmac
    (λ _ _, toy_hash_length _) (λ _ _, toy_hash_bytes _) example_nonce_replay_policy example_nonce_policy
    (example_replay_env JUndef 1004000 1004001) empty_heap empty_heap example_challenge_nonce)
    as (_ & v & c & now & i & Hv & Hc & Hn & Hi & Hlater).
  - reflexivity.
  - apply example_nonce_policy_ok.
  - repeat constructor; done.
  - reflexivity.
  - vm_compute. reflexivity.
  - injection Hv as <-. vm_compute in Hc. injection Hc as <-. vm_compute in Hn. injection Hn as <-.
    vm_compute in Hi. injection Hi as <-. apply (Hlater (num_of_Z 1063999) 1063999 []); [reflexivity|].
    split; [vm_compute; discriminate|reflexivity].
Defined.

Lemma dpop_key_separates_witness :
  ∃ m1 m2, m1 ≠ m2 ∧ toy_hash m1 = toy_hash m2.
Proof.
  destruct (dpop_key_separates toy_hash toy_hash_bytes [js "ab"] [js "ba"] example_jkt example_jkt (js "j") (js "j")
    (js "dpop:v1:" ++ base64urlEncode (toy_hash (utf8_encode (json_text
      (JArr [namespace_value [js "ab"]; JStr example_jkt; JStr (js "j")]))))))
    as [(H & _)|H].
  - repeat constructor; done.
  - repeat constructor; done.
  - vm_compute. reflexivity.
  - vm_compute. reflexivity.
  - discriminate H.
  - exact H.
Defined.
