(* ===== verification/DpopChallenge.v ===== *)
(** The nonce challenge on both ends of the wire: the responses of express-oidc-vault
    ([dpop-replay.ts]) and what oidc-vault-dpop-client reads from them
    ([auth-challenge.ts], [nonce-cache.ts]). *)

From S2P Require Import Prelude JsValue JsJson JsMap AttestTypes AttestCanonical AttestVerify JsBuffer VaultBinding DpopNonce DpopPolicy DpopReplay.

(** * The vault's responses *)

Record DpopPolicyResponse := mkResponse {
  pr_status : Z;
  pr_code : jsstr;
  pr_message : jsstr;
  pr_headers : list (jsstr * jsstr)
}.

Definition quoted (s : jsstr) : jsstr := [34] ++ s ++ [34].

Inductive ChallengeError := InvalidDpopProof | UseDpopNonce.
Definition challenge_error_name (e : ChallengeError) : jsstr :=
  match e with InvalidDpopProof => js "invalid_dpop_proof" | UseDpopNonce => js "use_dpop_nonce" end.

Definition challenge (error : ChallengeError) (algorithms : list DpopAlgorithm) : ores jsstr :=
  guard (negb (length algorithms =? 0)%nat)
    (TypeError (js "DPoP challenge requires a resolved algorithm allowlist.")) ;;;
  Ok (js "DPoP error=" ++ quoted (challenge_error_name error) ++ js ", algs="
      ++ quoted (join_with 32 (map algorithm_name (dedup [] algorithms)))).

Definition toDpopReplayErrorResponse (error : oidc_error) (algorithms : list DpopAlgorithm)
    : ores DpopPolicyResponse :=
  let payload := toErrorPayload error in
  let* authenticate :=
    if (ep_status payload =? 401)
       && (jsstr_eqb (ep_code payload) (js "OIDC_VAULT_INVALID_DPOP_PROOF")
           || jsstr_eqb (ep_code payload) (js "OIDC_VAULT_DPOP_REQUIRED"))
    then let* c := challenge InvalidDpopProof algorithms in Ok [(js "WWW-Authenticate", c)]
    else Ok [] in
  Ok (mkResponse (ep_status payload) (ep_code payload) (ep_message payload)
        ((js "Cache-Control", js "no-store") :: authenticate)).

(** [/^v1\.[A-Za-z0-9_-]+\.[A-Za-z0-9_-]{43}$/] *)
Definition nonce_pattern (nonce : jsstr) : bool :=
  match split_on 46 nonce with
  | [v; payload; mac] =>
      jsstr_eqb v (js "v1") && negb (length payload =? 0)%nat && all_units name_unit payload
      && (length mac =? 43)%nat && all_units name_unit mac
  | _ => false
  end.

Inductive Endpoint := VaultPost | Api.

Definition toDpopNonceChallengeResponse (nonce : jsstr) (endpoint : Endpoint) (algorithms : list DpopAlgorithm)
    : ores DpopPolicyResponse :=
  guard ((Z.of_nat (length nonce) <=? DPOP_NONCE_MAX_BYTES) && nonce_pattern nonce)
    (TypeError (js "DPoP nonce response requires a bounded server-issued challenge.")) ;;;
  let* authenticate :=
    match endpoint with
    | Api => let* c := challenge UseDpopNonce algorithms in Ok [(js "WWW-Authenticate", c)]
    | VaultPost => Ok []
    end in
  Ok (mkResponse (match endpoint with Api => 401 | VaultPost => 400 end)
        (js "OIDC_VAULT_USE_DPOP_NONCE") (js "A fresh DPoP nonce is required.")
        ([(js "Cache-Control", js "no-store"); (js "DPoP-Nonce", nonce)] ++ authenticate)).

(** * oidc-vault-dpop-client: [auth-challenge.ts] *)

(** [[!#$%&'*+.^_`|~0-9A-Za-z-]] *)
Definition token_unit (c : Z) : bool := is_alnum c || includes_char c (js "!#$%&'*+.^_`|~-").
(** [[A-Za-z0-9._~+/-]] *)
Definition token68_unit (c : Z) : bool := is_alnum c || includes_char c (js "._~+/-").
Definition is_blank (c : Z) : bool := (c =? 32) || (c =? 9).

Definition TOKEN (s : jsstr) : bool := negb (length s =? 0)%nat && all_units token_unit s.

(** The longest prefix of units of a class, and the rest. *)
Fixpoint span (p : Z → bool) (s : jsstr) : jsstr * jsstr :=
  match s with
  | [] => ([], [])
  | c :: s' => if p c then let '(a, r) := span p s' in (c :: a, r) else ([], s)
  end.

Definition TOKEN68 (s : jsstr) : bool :=
  let '(a, r) := span token68_unit s in
  negb (length a =? 0)%nat && all_units (Z.eqb 61) r.

(** What [.] does not match. *)
Definition line_terminator (c : Z) : bool := (c =? 10) || (c =? 13) || (c =? 8232) || (c =? 8233).

(** [PARAMETER.exec(part)]: the name and the raw value. *)
Definition PARAMETER (part : jsstr) : option (jsstr * jsstr) :=
  let '(name, r) := span token_unit part in
  if (length name =? 0)%nat then None
  else match drop_while is_blank r with
       | 61 :: r =>
           let raw := drop_while is_blank r in
           if existsb line_terminator raw then None else Some (name, raw)
       | _ => None
       end.

(** [CHALLENGE.exec(part)]: the scheme and the credentials, if any. *)
Definition CHALLENGE (part : jsstr) : option (jsstr * option jsstr) :=
  let '(scheme, r) := span token_unit part in
  if (length scheme =? 0)%nat then None
  else
    let '(blanks, credentials) := span (Z.eqb 32) r in
    if existsb line_terminator credentials then None
    else match blanks, credentials with
         | [], [] => Some (scheme, None)
         | [], _ => None
         | _, _ :: _ => Some (scheme, Some credentials)
         | [_], [] => None
         | _, [] => Some (scheme, Some [32])
         end.

(** [addPart]: blanks are cut at both ends. *)
Definition cut_blanks (s : jsstr) : jsstr := trim_by is_blank s.

(** [partsOf(header)], with the part being read and the flags of the scan. *)
Fixpoint parts_loop (header part : jsstr) (quoted escaped : bool) : option (list jsstr) :=
  match header with
  | [] => if quoted || escaped then None else Some [cut_blanks part]
  | character :: header =>
      if escaped then parts_loop header (part ++ [character]) quoted false
      else if quoted && (character =? 92) then parts_loop header (part ++ [character]) quoted true
      else if character =? 34 then parts_loop header (part ++ [character]) (negb quoted) false
      else if negb quoted && (character =? 44) then
        parts ← parts_loop header [] false false; Some (cut_blanks part :: parts)
      else parts_loop header (part ++ [character]) quoted false
  end.
Definition partsOf (header : jsstr) : option (list jsstr) := parts_loop header [] false false.

(** The quoted-string loop of [parameterOf], after the opening quote. *)
Fixpoint unquote (raw value : jsstr) : option jsstr :=
  match raw with
  | [] => None
  | character :: raw' =>
      if character =? 34 then match raw' with [] => Some value | _ => None end
      else if character =? 92 then
        match raw' with
        | [] => None
        | c :: raw'' => unquote raw'' (value ++ [c])
        end
      else unquote raw' (value ++ [character])
  end.

Definition parameterOf (part : jsstr) : option (jsstr * jsstr) :=
  match PARAMETER part with
  | None => None
  | Some (name, raw) =>
      let name := to_lower name in
      if TOKEN raw then Some (name, raw)
      else match raw with
           | 34 :: raw => value ← unquote raw []; Some (name, value)
           | _ => None
           end
  end.

(** The loop over the parts. [selected] holds the parameters of the selected challenge. While
    that challenge is the current one, its [Map] is the current [Map]. *)
Record ReadState := mkRead {
  rd_parameters : option (jsmap jsstr);
  rd_selected : option (jsmap jsstr);
  rd_current : bool;             (** [selectedParameters] is [parameters], the same object *)
  rd_seen : bool
}.

Definition read_part (scheme : jsstr) (st : ReadState) (part : jsstr) : option ReadState :=
  match parameterOf part with
  | Some (name, value) =>
      match rd_parameters st with
      | Some ps =>
          match map_get ps name with
          | Some _ => None
          | None =>
              let ps := map_set ps name value in
              Some (mkRead (Some ps) (if rd_current st then Some ps else rd_selected st)
                      (rd_current st) (rd_seen st))
          end
      | None => None
      end
  | None =>
      match CHALLENGE part with
      | None => None
      | Some (name, credentials) =>
          let isSelected := jsstr_eqb (to_lower name) scheme in
          if isSelected && rd_seen st then None
          else
            parameters ←
              match credentials with
              | None => Some None
              | Some credentials =>
                  match parameterOf credentials with
                  | Some (k, v) => Some (Some (map_set [] k v))
                  | None => if TOKEN68 credentials then Some None else None
                  end
              end;
            Some (mkRead parameters (if isSelected then parameters else rd_selected st)
                    isSelected (rd_seen st || isSelected))
      end
  end.

Fixpoint read_parts (scheme : jsstr) (parts : list jsstr) (st : ReadState) : option ReadState :=
  match parts with
  | [] => Some st
  | part :: parts => st ← read_part scheme st part; read_parts scheme parts st
  end.

(** [/^[\t\x20-\x7e\x80-\xff]*$/] *)
Definition header_unit (c : Z) : bool := (c =? 9) || in_range 32 126 c || in_range 128 255 c.

Definition readChallengeError (header : option jsstr) (scheme : jsstr) : option jsstr :=
  header ← header;
  if (8192 <? Z.of_nat (length header)) || negb (all_units header_unit header) then None
  else
    parts ← partsOf header;
    st ← read_parts scheme parts (mkRead None None false false);
    selected ← rd_selected st;
    map_get selected (js "error").

Inductive DpopChallengeError := ClientUseNonce | ClientInvalidToken.

Definition readDpopChallengeError (header : option jsstr) : option DpopChallengeError :=
  error ← readChallengeError header (js "dpop");
  if jsstr_eqb error (js "use_dpop_nonce") then Some ClientUseNonce
  else if jsstr_eqb error (js "invalid_token") then Some ClientInvalidToken else None.

Definition readBearerChallengeError (header : option jsstr) : bool :=
  match readChallengeError header (js "bearer") with
  | Some error => jsstr_eqb error (js "invalid_token")
  | None => false
  end.

(** * oidc-vault-dpop-client: [nonce-cache.ts] *)

Definition MAX_ENTRIES : nat := 64.

Definition cache_id (space jkt : jsstr) : jsstr := json_text (JArr [JStr space; JStr jkt]).
Definition cache_get (nonces : jsmap jsstr) (space jkt : jsstr) : option jsstr :=
  map_get nonces (cache_id space jkt).

(** [/^[\x21\x23-\x2b\x2d-\x5b\x5d-\x7e]+$/] *)
Definition nonce_unit (c : Z) : bool :=
  (c =? 33) || in_range 35 43 c || in_range 45 91 c || in_range 93 126 c.
Definition cache_accepts (nonce : option jsstr) : option jsstr :=
  nonce ← nonce;
  if (Z.of_nat (length nonce) <=? 512) && negb (length nonce =? 0)%nat && all_units nonce_unit nonce
  then Some nonce else None.

Definition cache_put (nonces : jsmap jsstr) (id nonce : jsstr) : jsmap jsstr :=
  let nonces := map_delete nonces id in
  let nonces := if (map_size nonces =? MAX_ENTRIES)%nat
                then match nonces with (k, _) :: _ => map_delete nonces k | [] => nonces end
                else nonces in
  map_set nonces id nonce.

Definition cache_remember (nonces : jsmap jsstr) (space jkt : jsstr) (nonce : option jsstr)
    : bool * jsmap jsstr :=
  match cache_accepts nonce with
  | Some nonce => (true, cache_put nonces (cache_id space jkt) nonce)
  | None => (false, nonces)
  end.

(** * A challenge is understood by the client *)

Lemma dedup_length algorithms : (length (dedup [] algorithms) <= 3)%nat.
Proof.
  destruct (dedup_spec [] algorithms) as [_ Hnd].
  change 3%nat with (length [ES256; PS256; RS256]). apply List.NoDup_incl_length.
  - by apply NoDup_ListNoDup.
  - intros [] _; cbn; auto.
Qed.

Lemma dedup_nonempty algorithms : algorithms ≠ [] → dedup [] algorithms ≠ [].
Proof. by destruct algorithms. Qed.

(** The header of each nonempty list without duplicates. *)
Definition challenge_text (error : ChallengeError) (names : list jsstr) : jsstr :=
  js "DPoP error=" ++ quoted (challenge_error_name error) ++ js ", algs=" ++ quoted (join_with 32 names).

Lemma challenge_read error algorithms :
  algorithms ≠ [] →
  challenge error algorithms = Ok (challenge_text error (map algorithm_name (dedup [] algorithms)))
  ∧ readDpopChallengeError (Some (challenge_text error (map algorithm_name (dedup [] algorithms))))
    = match error with UseDpopNonce => Some ClientUseNonce | InvalidDpopProof => None end
  ∧ readBearerChallengeError (Some (challenge_text error (map algorithm_name (dedup [] algorithms)))) = false.
Proof.
  intros Hne. split; [by destruct algorithms|].
  pose proof (dedup_length algorithms) as Hl. pose proof (dedup_nonempty algorithms Hne) as Hd.
  destruct (dedup [] algorithms) as [|a [|b [|c [|d l]]]]; [done|..|cbn in Hl; lia];
    destruct error, a; try destruct b; try destruct c; split; vm_compute; reflexivity.
Qed.

Lemma nonce_unit_name c : name_unit c = true → nonce_unit c = true.
Proof.
  unfold name_unit, nonce_unit, is_alnum, is_alpha, is_digit, is_upper, is_lower.
  rewrite !orb_true_iff, !in_range_spec, !Z.eqb_eq. lia.
Qed.

Section delivery.
Variable hmac_sha256 : list Z → list Z → list Z.
Hypothesis hmac_length : ∀ k m, length (hmac_sha256 k m) = 32%nat.
Hypothesis hmac_bytes : ∀ k m, bytes_ok (hmac_sha256 k m).

(** Issued nonces have the shape both ends check. *)
Lemma issued_shape p random jkt now nonce :
  nonce_policy_ok p → bytes_ok random → length random = 16%nat →
  nonce_issue hmac_sha256 p random jkt now = Ok nonce →
  (Z.of_nat (length nonce) <=? DPOP_NONCE_MAX_BYTES) && nonce_pattern nonce = true
  ∧ cache_accepts (Some nonce) = Some nonce.
Proof.
  intros Hp Hr Hrl (Hj & i & Hi & Hmax & Hpos & ->)%issued_text.
  apply epoch_ms_is in Hi as (_ & _ & _ & Hi).
  pose proof (nonce_text_bound hmac_sha256 hmac_length hmac_bytes p random i (i + np_lifetimeMs p) jkt
    Hp Hr Hrl Hi ltac:(lia) Hj) as [Hlen _].
  pose proof (payload_text hmac_sha256 p random i (i + np_lifetimeMs p) jkt Hp Hr Hrl Hi ltac:(lia) Hj) as [_ Ha].
  unfold nonce_text in *. cbv zeta in *. rewrite ascii_utf8 in * by done. set (text := json_text _) in *.
  assert (bytes_ok text) as Hb.
  { apply Forall_forall. intros c Hc%list_elem_of_In. rewrite forallb_forall in Ha. apply Ha in Hc.
    unfold is_ascii in Hc. apply in_range_spec in Hc. unfold byte_ok. lia. }
  assert (text ≠ []) as Hne by done.
  pose proof (encode_units text Hb) as Hu. pose proof (encode_nonempty text Hne) as Hen.
  set (ep := base64urlEncode text) in *.
  set (mac := base64urlEncode (nonce_sign hmac_sha256 p ep)) in *.
  assert (all_units name_unit mac = true ∧ length mac = 43%nat) as [Hmu Hml].
  { unfold mac, nonce_sign. split; [apply encode_units, hmac_bytes|]. by rewrite encode_length, hmac_length. }
  set (s := NONCE_VERSION ++ _) in *. clearbody ep mac text. split.
  - apply andb_true_iff. split; [apply Z.leb_le; unfold DPOP_NONCE_MAX_BYTES; lia|].
    unfold nonce_pattern. change s with (NONCE_VERSION ++ 46 :: ep ++ 46 :: mac).
    rewrite !split_on_app, split_on_none by by apply units_no_dot. rewrite Hu, Hmu, Hml.
    by destruct ep.
  - unfold cache_accepts. cbn [mbind option_bind]. rewrite (proj2 (Z.leb_le _ 512)) by lia.
    assert (all_units nonce_unit s = true) as ->; [|done].
    pose proof (all_units_impl _ _ ep nonce_unit_name Hu) as H1.
    pose proof (all_units_impl _ _ mac nonce_unit_name Hmu) as H2.
    unfold s, all_units in *. by rewrite !forallb_app, H1, H2.
Qed.

Lemma cache_put_get nonces id nonce : map_get (cache_put nonces id nonce) id = Some nonce.
Proof. unfold cache_put. apply get_set_eq. Qed.

(** The API's nonce challenge reaches the client: for every issued nonce and every resolved
    allowlist the response is built, the client reads its authentication challenge as a
    request for a nonce, and the nonce header is remembered as it is for the key and space. *)
Theorem challenge_delivered (p : NoncePolicy) (random : list Z) (space jkt nonce : jsstr) (now : num)
    (algorithms : list DpopAlgorithm) (nonces : jsmap jsstr) :
  nonce_policy_ok p → bytes_ok random → length random = 16%nat → algorithms ≠ [] →
  nonce_issue hmac_sha256 p random jkt now = Ok nonce →
  ∃ r header nonces',
    toDpopNonceChallengeResponse nonce Api algorithms = Ok r ∧ pr_status r = 401
    ∧ field_lookup (pr_headers r) (js "WWW-Authenticate") = Some header
    ∧ readDpopChallengeError (Some header) = Some ClientUseNonce
    ∧ readBearerChallengeError (Some header) = false
    ∧ field_lookup (pr_headers r) (js "DPoP-Nonce") = Some nonce
    ∧ cache_remember nonces space jkt (Some nonce) = (true, nonces')
    ∧ cache_get nonces' space jkt = Some nonce.
Proof.
  intros Hp Hr Hrl Hne Hi. destruct (issued_shape p random jkt now nonce Hp Hr Hrl Hi) as [Hs Ha].
  destruct (challenge_read UseDpopNonce algorithms Hne) as (Hc & Hd & Hb).
  unfold toDpopNonceChallengeResponse. rewrite Hs, Hc. cbn [guard res_bind].
  do 3 eexists. split; [done|]. split; [done|]. split; [reflexivity|]. split; [exact Hd|]. split; [exact Hb|].
  split; [reflexivity|]. unfold cache_remember. rewrite Ha. split; [done|]. apply cache_put_get.
Qed.
End delivery.

(** * The cache keeps the last writes *)

(** The writes with their identifiers, each identifier at its last write. *)
Definition last_writes (writes : list (jsstr * jsstr)) : jsmap jsstr :=
  foldl (λ m w, List.filter (λ e, negb (jsstr_eqb e.1 w.1)) m ++ [w]) [] writes.

(** The last [n] entries. *)
Definition lastn {A} (n : nat) (l : list A) : list A := drop (length l - n) l.

Definition without (k : jsstr) (m : jsmap jsstr) : jsmap jsstr :=
  List.filter (λ e, negb (jsstr_eqb e.1 k)) m.

Lemma without_cons k k0 v0 m :
  without k ((k0, v0) :: m) = if jsstr_eqb k0 k then without k m else (k0, v0) :: without k m.
Proof. unfold without. cbn. by destruct (jsstr_eqb k0 k). Qed.

Lemma without_absent k m : k ∉ map_keys m → without k m = m.
Proof.
  induction m as [|[k0 v0] m IH]; [done|]. rewrite without_cons. cbn [map_keys map fst]. rewrite not_elem_of_cons. intros [Hk Hm].
  rewrite (proj2 (jsstr_eqb_false k0 k)) by congruence. by rewrite IH.
Qed.

Lemma delete_without k m : map_ok m → map_delete m k = without k m.
Proof.
  induction m as [|[k0 v0] m IH]; intros Hok; [done|]. apply NoDup_cons in Hok as [Hnew Hok]. rewrite without_cons. cbn [map_delete].
  destruct (jsstr_eqb k k0) eqn:E.
  - apply jsstr_eqb_true in E as ->. rewrite jsstr_eqb_refl. by rewrite without_absent.
  - apply jsstr_eqb_false in E. rewrite (proj2 (jsstr_eqb_false k0 k)) by congruence. by rewrite IH.
Qed.

Lemma without_keys k m x : x ∈ map_keys (without k m) ↔ x ∈ map_keys m ∧ x ≠ k.
Proof.
  induction m as [|[k0 v0] m IH]; [cbn; rewrite elem_of_nil; naive_solver|].
  rewrite without_cons. destruct (jsstr_eqb k0 k) eqn:E; cbn [map_keys map fst]; rewrite ?elem_of_cons, IH.
  - apply jsstr_eqb_true in E as ->. naive_solver.
  - apply jsstr_eqb_false in E. naive_solver.
Qed.

Lemma without_ok k m : map_ok m → map_ok (without k m).
Proof.
  unfold map_ok. induction m as [|[k0 v0] m IH]; intros Hok; [done|]. pose proof Hok as [Hnew Hok']%NoDup_cons.
  rewrite without_cons. destruct (jsstr_eqb k0 k); [by apply IH|]. apply NoDup_cons. split; [|by apply IH].
  by intros [? _]%without_keys.
Qed.

Lemma without_length k m : map_ok m → k ∈ map_keys m → S (length (without k m)) = length m.
Proof.
  induction m as [|[k0 v0] m IH]; intros Hok Hk; [by apply elem_of_nil in Hk|].
  apply NoDup_cons in Hok as [Hnew Hok]. rewrite without_cons. cbn [map_keys map fst] in Hk, Hnew.
  destruct (jsstr_eqb k0 k) eqn:E; cbn [length].
  - apply jsstr_eqb_true in E as ->. by rewrite without_absent.
  - apply jsstr_eqb_false in E. apply elem_of_cons in Hk as [->|Hk]; [done|]. by rewrite IH.
Qed.

Lemma last_writes_snoc ws k v : last_writes (ws ++ [(k, v)]) = without k (last_writes ws) ++ [(k, v)].
Proof. unfold last_writes. by rewrite foldl_app. Qed.

Lemma last_writes_ok ws : map_ok (last_writes ws).
Proof.
  induction ws as [|[k v] ws IH] using rev_ind; [constructor|]. rewrite last_writes_snoc.
  unfold map_ok, map_keys. rewrite map_app. apply NoDup_app. split_and!; [by apply without_ok| |apply NoDup_singleton].
  intros x [_ Hx]%without_keys ->%list_elem_of_singleton. done.
Qed.

Lemma set_absent k v (m : jsmap jsstr) : k ∉ map_keys m → map_set m k v = m ++ [(k, v)].
Proof.
  induction m as [|[k0 v0] m IH]; [done|]. cbn. rewrite not_elem_of_cons. intros [Hk Hm].
  rewrite (proj2 (jsstr_eqb_false k k0)) by done. by rewrite IH.
Qed.

Lemma lastn_app {A} n (l1 l2 : list A) : (length l2 <= n)%nat → lastn n (l1 ++ l2) = lastn (n - length l2) l1 ++ l2.
Proof.
  intros Hn. unfold lastn. rewrite length_app, drop_app.
  replace (length l1 + length l2 - n - length l1)%nat with 0%nat by lia. rewrite drop_0.
  f_equal. f_equal. lia.
Qed.

Lemma lastn_short {A} n (l : list A) : (length l <= n)%nat → lastn n l = l.
Proof. intros. unfold lastn. by replace (length l - n)%nat with 0%nat by lia. Qed.

Lemma lastn_suffix {A} n (l1 l2 : list A) : length l2 = n → lastn n (l1 ++ l2) = l2.
Proof.
  intros <-. rewrite lastn_app, Nat.sub_diag by done. unfold lastn. by rewrite Nat.sub_0_r, drop_all.
Qed.

Lemma lastn_split {A} n (l : list A) :
  ∃ old, l = old ++ lastn n l ∧ (length (lastn n l) <= n)%nat ∧ (old = [] ∨ length (lastn n l) = n).
Proof.
  exists (take (length l - n) l). unfold lastn. split; [by rewrite take_drop|].
  rewrite length_drop. split; [lia|]. destruct (decide (length l <= n)%nat); [left|right; lia].
  by replace (length l - n)%nat with 0%nat by lia.
Qed.

(** One write on the last [64] entries. *)
Lemma cache_put_lastn m k v :
  map_ok m → cache_put (lastn MAX_ENTRIES m) k v = lastn MAX_ENTRIES (without k m ++ [(k, v)]).
Proof.
  intros Hok. destruct (lastn_split MAX_ENTRIES m) as (old & Hm & Hlen & Hold). set (new := lastn MAX_ENTRIES m) in *.
  clearbody new. subst m. unfold map_ok, map_keys in Hok. rewrite map_app in Hok.
  apply NoDup_app in Hok as (_ & _ & Hok). fold (map_keys new) in Hok.
  assert (without k (old ++ new) = without k old ++ without k new) as -> by apply List.filter_app.
  rewrite lastn_app by (cbn; unfold MAX_ENTRIES; lia). change (length [(k, v)]) with 1%nat.
  unfold cache_put. rewrite delete_without by done. unfold map_size.
  assert (k ∉ map_keys (without k new)) as Hno by (rewrite without_keys; naive_solver).
  destruct (decide (k ∈ map_keys new)) as [Hin|Hnin].
  - pose proof (without_length k new Hok Hin) as Hl.
    rewrite (proj2 (Nat.eqb_neq _ _)) by lia. rewrite set_absent by done. f_equal.
    destruct Hold as [->|Hn].
    { rewrite lastn_short; [done|]. change (without k [] ++ without k new) with (without k new). lia. }
     by rewrite lastn_suffix by lia.
  - rewrite (without_absent k new) in * by done.
    destruct (Nat.eqb_spec (length new) MAX_ENTRIES) as [Hn|Hn].
    + destruct new as [|[h w] tail]; [done|]. cbn [map_delete]. rewrite jsstr_eqb_refl.
      rewrite set_absent by (cbn in Hno; rewrite not_elem_of_cons in Hno; tauto). f_equal.
      change ((h, w) :: tail) with ([(h, w)] ++ tail). rewrite app_assoc, lastn_suffix; [done|]. cbn in Hn. lia.
    + rewrite set_absent by done. f_equal. destruct Hold as [->|Hn']; [|done].
      rewrite lastn_short; [done|]. change (without k [] ++ new) with new. lia.
Qed.

Definition cache_run (writes : list (jsstr * jsstr)) : jsmap jsstr :=
  foldl (λ m w, cache_put m w.1 w.2) [] writes.

(** After any sequence of accepted writes the cache holds exactly the 64 tuples written
    last, each with its last nonce, in the order of those writes. *)
Theorem cache_keeps_latest (writes : list (jsstr * jsstr)) :
  cache_run writes = lastn MAX_ENTRIES (last_writes writes).
Proof.
  induction writes as [|[k v] ws IH] using rev_ind; [done|].
  unfold cache_run in *. rewrite foldl_app, IH, last_writes_snoc. cbn [foldl].
  apply cache_put_lastn, last_writes_ok.
Qed.

(** * Concrete instances *)

Definition example_issued : jsstr :=
  match nonce_issue toy_hmac example_nonce_policy (repeat 9 16) example_jkt (num_of_Z 1000) with
  | Ok n => n | Err _ => [] end.

Lemma challenge_delivered_witness :
  ∃ r header nonces',
    toDpopNonceChallengeResponse example_issued Api [ES256; RS256; ES256] = Ok r ∧ pr_status r = 401
    ∧ field_lookup (pr_headers r) (js "WWW-Authenticate") = Some header
    ∧ readDpopChallengeError (Some header) = Some ClientUseNonce
    ∧ readBearerChallengeError (Some header) = false
    ∧ field_lookup (pr_headers r) (js "DPoP-Nonce") = Some example_issued
    ∧ cache_remember [] (js "api") example_jkt (Some example_issued) = (true, nonces')
    ∧ cache_get nonces' (js "api") example_jkt = Some example_issued.
Proof.
  apply (challenge_delivered toy_hmac (λ _ _, toy_hash_length _) (λ _ _, toy_hash_bytes _)
    example_nonce_policy (repeat 9 16) (js "api") example_jkt example_issued (num_of_Z 1000)).
  - apply example_nonce_policy_ok.
  - repeat constructor; done.
  - reflexivity.
  - discriminate.
  - vm_compute. reflexivity.
Defined.

(** Quoted text, duplicates and malformed suffixes cannot pass for a challenge. *)
Example quoted_challenge_ignored :
  readDpopChallengeError (Some (js "Bearer realm=" ++ quoted (js "x, DPoP error=use_dpop_nonce"))) = None
  ∧ readDpopChallengeError (Some (js "DPoP error=use_dpop_nonce, DPoP error=invalid_token")) = None
  ∧ readDpopChallengeError (Some (js "DPoP error=use_dpop_nonce,")) = None
  ∧ readDpopChallengeError (Some (js "Basic YQ==, DPoP  error = use_dpop_nonce, a=b")) = Some ClientUseNonce.
Proof. split_and!; vm_compute; reflexivity. Qed.
