(* ===== verification/DpopJson.v ===== *)
(** express-oidc-vault, [dpop-proof.ts]: [parseObject], the JSON reader of a proof's header and
    payload, whose iterative scan refuses duplicate member names at every level.

    The scan is compared with the grammar of JSON texts: [json_tree s t r] says that [s] starts
    with a text of the tree [t] and that [r] is left. *)

From S2P Require Import Prelude JsValue JsJson JsBuffer VaultBinding DpopNonce DpopPolicy DpopReplay.

(** An entry of [stack]; [keys] is [null] for an array. *)
Record Container := mkContainer { keys : option (list jsstr); expectsKey : bool }.

(** The characters of a string literal after its opening quote, and what follows. *)
Fixpoint string_end (s : jsstr) : jsstr * jsstr :=
  match s with
  | [] => ([], [])
  | c :: s' =>
      if c =? 92 then
        match s' with
        | [] => ([c], [])
        | d :: s'' => let '(l, r) := string_end s'' in (c :: d :: l, r)
        end
      else if c =? 34 then ([c], s')
      else let '(l, r) := string_end s' in (c :: l, r)
  end.

Definition expect_key (stack : list Container) : list Container :=
  match stack with
  | {| keys := Some ks |} :: stack => mkContainer (Some ks) true :: stack
  | _ => stack
  end.

(** A string literal was read; [None] is the thrown error. *)
Definition add_key (literal : jsstr) (stack : list Container) : option (list Container) :=
  match stack with
  | {| keys := Some ks; expectsKey := true |} :: rest =>
      match json_parse literal with
      | Some (JStr key) =>
          if bool_decide (key ∈ ks) then None else Some (mkContainer (Some (key :: ks)) false :: rest)
      | _ => None
      end
  | _ => Some stack
  end.

(** The loop over the text; [false] when it throws. *)
Fixpoint scan (fuel : nat) (json : jsstr) (stack : list Container) : bool :=
  match json, fuel with
  | [], _ => true
  | _, O => false
  | character :: json, S fuel =>
      if character =? 123 then scan fuel json (mkContainer (Some []) true :: stack)
      else if character =? 91 then scan fuel json (mkContainer None false :: stack)
      else if (character =? 125) || (character =? 93) then scan fuel json (tail stack)
      else if character =? 44 then scan fuel json (expect_key stack)
      else if character =? 34 then
        let '(literal, rest) := string_end json in
        match add_key (34 :: literal) stack with
        | Some stack => scan fuel rest stack
        | None => false
        end
      else scan fuel json stack
  end.

Definition jsonInvalid : oidc_error := invalidProof (js "DPoP JSON encoding or object shape is invalid.").

Definition parseObject (bytes : list Z) : ores (list (jsstr * jsval)) :=
  match utf8_decode bytes with
  | Some json =>
      match json_parse json with
      | Some (JObj true fields) => if scan (length json) json [] then Ok fields else Err jsonInvalid
      | _ => Err jsonInvalid
      end
  | None => Err jsonInvalid
  end.

(** * The grammar *)

(** A JSON text: a scalar other than a string, a string, an array or an object with all
    its members, in order and with repetitions. *)
Inductive tree :=
  | TLeaf (v : jsval)
  | TStr (s : jsstr)
  | TArr (l : list tree)
  | TObj (ms : list (jsstr * tree)).

(** What [JSON.parse] makes of it: a repeated name keeps its place and takes the last value. *)
Fixpoint tree_value (t : tree) : jsval :=
  match t with
  | TLeaf v => v
  | TStr s => JStr s
  | TArr l => JArr (map tree_value l)
  | TObj ms => JObj true (foldl (λ fs m, set_field fs m.1 m.2) [] (map (λ m, (m.1, tree_value m.2)) ms))
  end.

(** No object in the tree has two members of one name. *)
Fixpoint distinct_names (t : tree) : bool :=
  match t with
  | TLeaf _ | TStr _ => true
  | TArr l => forallb distinct_names l
  | TObj ms => bool_decide (NoDup (map fst ms)) && forallb (λ m, distinct_names m.2) ms
  end.

(** Characters the scan passes over. *)
Definition plain (c : Z) : bool :=
  negb ((c =? 123) || (c =? 91) || (c =? 125) || (c =? 93) || (c =? 44) || (c =? 34)).

Definition spaces (ws : jsstr) : Prop := forallb is_json_space ws = true.

(** A string literal after its opening quote, and a number, [true], [false] or [null]. *)
Definition literal (lit t : jsstr) : Prop :=
  (∀ r, string_end (lit ++ r) = (lit, r)) ∧ json_parse (34 :: lit) = Some (JStr t).
Definition leaf (tok : jsstr) (v : jsval) : Prop :=
  forallb plain tok = true ∧ json_parse tok = Some v.

Inductive json_tree : jsstr → tree → jsstr → Prop :=
  | jt_space c s t r : is_json_space c = true → json_tree s t r → json_tree (c :: s) t r
  | jt_leaf tok v r : leaf tok v → json_tree (tok ++ r) (TLeaf v) r
  | jt_string lit t r : literal lit t → json_tree (34 :: lit ++ r) (TStr t) r
  | jt_array_nil ws r : spaces ws → json_tree (91 :: ws ++ 93 :: r) (TArr []) r
  | jt_array s l r : json_elements s l r → json_tree (91 :: s) (TArr l) r
  | jt_object_nil ws r : spaces ws → json_tree (123 :: ws ++ 125 :: r) (TObj []) r
  | jt_object s ms r : json_members s ms r → json_tree (123 :: s) (TObj ms) r
with json_elements : jsstr → list tree → jsstr → Prop :=
  | je_last s t ws r : json_tree s t (ws ++ 93 :: r) → spaces ws → json_elements s [t] r
  | je_more s t ws s' l r :
      json_tree s t (ws ++ 44 :: s') → spaces ws → json_elements s' l r →
      json_elements s (t :: l) r
with json_members : jsstr → list (jsstr * tree) → jsstr → Prop :=
  | jm_last ws1 lit k ws2 s t ws3 r :
      spaces ws1 → literal lit k → spaces ws2 → json_tree s t (ws3 ++ 125 :: r) → spaces ws3 →
      json_members (ws1 ++ 34 :: lit ++ ws2 ++ 58 :: s) [(k, t)] r
  | jm_more ws1 lit k ws2 s t ws3 s' ms r :
      spaces ws1 → literal lit k → spaces ws2 → json_tree s t (ws3 ++ 44 :: s') → spaces ws3 →
      json_members s' ms r →
      json_members (ws1 ++ 34 :: lit ++ ws2 ++ 58 :: s) ((k, t) :: ms) r.

Scheme json_tree_mut := Induction for json_tree Sort Prop
  with json_elements_mut := Induction for json_elements Sort Prop
  with json_members_mut := Induction for json_members Sort Prop.
Combined Scheme json_mutind from json_tree_mut, json_elements_mut, json_members_mut.

(** A whole text. *)
Definition json_document (text : jsstr) (t : tree) : Prop := ∃ ws, spaces ws ∧ json_tree text t ws.

(** * Every parsed text has a tree *)

Lemma skip_ws_split s : ∃ ws, spaces ws ∧ s = ws ++ skip_ws s.
Proof.
  induction s as [|c s (ws & Hws & E)]; [by exists []|]. unfold skip_ws, spaces in *. cbn [drop_while].
  destruct (is_json_space c) eqn:Hc; [|by exists []]. exists (c :: ws). cbn. by rewrite Hc, <- E.
Qed.

Lemma skip_ws_idem s : skip_ws (skip_ws s) = skip_ws s.
Proof.
  unfold skip_ws. induction s as [|c s IH]; [done|]. cbn [drop_while].
  destruct (is_json_space c) eqn:Hc; [done|]. cbn [drop_while]. by rewrite Hc.
Qed.

Lemma json_tree_spaces ws s t r : spaces ws → json_tree s t r → json_tree (ws ++ s) t r.
Proof.
  unfold spaces. induction ws as [|c ws IH]; [done|]. cbn. intros [Hc Hws]%andb_true_iff H.
  constructor; auto.
Qed.

Lemma spaces_plain ws : spaces ws → forallb plain ws = true.
Proof.
  apply all_units_impl. intros c. unfold is_json_space, plain. rewrite !orb_true_iff, !Z.eqb_eq.
  intros [[[->| ->]| ->]| ->]; done.
Qed.

Lemma parse_string_u fuel s :
  parse_string (S fuel) (92 :: 117 :: s) =
    match s with
    | a :: b :: d :: e :: s =>
        va ← hex_value a; vb ← hex_value b; vd ← hex_value d; ve ← hex_value e;
        '(t, r) ← parse_string fuel s;
        Some (va * 4096 + vb * 256 + vd * 16 + ve :: t, r)
    | _ => None
    end.
Proof. by destruct s as [|a [|b [|d [|e s]]]]. Qed.

Lemma parse_string_escape fuel x s : x ≠ 117 →
  parse_string (S fuel) (92 :: x :: s) = (u ← unescape x; '(t, r) ← parse_string fuel s; Some (u :: t, r)).
Proof.
  intros Hx. cbn [parse_string Z.eqb Pos.eqb].
  destruct x as [|p|p]; try done. do 7 (destruct p as [p|p|]; try done).
Qed.

Lemma string_end_plain c s : c ≠ 92 ∧ c ≠ 34 → string_end (c :: s) = (c :: (string_end s).1, (string_end s).2).
Proof. intros [H1 H2]. cbn. rewrite !(proj2 (Z.eqb_neq _ _)) by done. by destruct (string_end s). Qed.

Lemma string_end_escape d s : string_end (92 :: d :: s) = (92 :: d :: (string_end s).1, (string_end s).2).
Proof. cbn. by destruct (string_end s). Qed.

Lemma hex_value_plain c v : hex_value c = Some v → c ≠ 92 ∧ c ≠ 34.
Proof. intros H. split; intros ->; done. Qed.

(** The text of a string literal that [parse_string] reads. *)
Lemma parse_string_literal fuel s t r :
  parse_string fuel s = Some (t, r) →
  ∃ lit, s = lit ++ r ∧ (∀ r', string_end (lit ++ r') = (lit, r'))
    ∧ ∀ fuel' r', (length lit <= fuel')%nat → parse_string fuel' (lit ++ r') = Some (t, r').
Proof.
  revert s t r. induction fuel as [|fuel IH]; intros s t r H; [done|]. cbn [parse_string] in H.
  destruct s as [|c s]; [done|]. destruct (Z.eqb_spec c 34) as [->|Hq].
  { injection H as <- <-. exists [34]. split_and!; [done..|]. intros [|f'] r' Hf; [cbn in Hf; lia|done]. }
  assert (∀ u s1 t1 (pre : jsstr), pre ≠ [] →
    (∀ x y, string_end x = y → string_end (pre ++ x) = (pre ++ y.1, y.2)) →
    (∀ f x y z, parse_string f x = Some (y, z) → parse_string (S f) (pre ++ x) = Some (u :: y, z)) →
    parse_string fuel s1 = Some (t1, r) → c :: s = pre ++ s1 → t = u :: t1 →
    ∃ lit, c :: s = lit ++ r ∧ (∀ r', string_end (lit ++ r') = (lit, r'))
      ∧ ∀ fuel' r', (length lit <= fuel')%nat → parse_string fuel' (lit ++ r') = Some (t, r')) as Hstep.
  { intros u s1 t1 pre Hpre Hse Hps H1 -> ->. apply IH in H1 as (lit & -> & Hl & Hp).
    exists (pre ++ lit). split_and!; [by rewrite app_assoc|..].
    - intros r'. rewrite <- app_assoc. by rewrite (Hse _ _ (Hl r')).
    - intros [|f'] r' Hf; rewrite length_app in Hf; destruct pre as [|p0 pre]; try done; cbn [length] in Hf; [lia|].
      rewrite <- app_assoc. apply Hps, Hp. lia. }
  destruct (Z.eqb_spec c 92) as [->|Hb].
  2: { destruct (c <? 32) eqn:H32; [done|]. destruct (parse_string fuel s) as [[t1 r1]|] eqn:E; [|done].
       cbn in H. injection H as <- <-. apply (Hstep c s t1 [c]); try done.
       - intros x y <-. cbn. rewrite (proj2 (Z.eqb_neq c 92)), (proj2 (Z.eqb_neq c 34)) by done. by destruct (string_end x).
       - intros f x y z Hx. cbn. rewrite (proj2 (Z.eqb_neq c 92)), (proj2 (Z.eqb_neq c 34)), H32 by done. by rewrite Hx. }
  destruct s as [|x s]; [done|]. destruct (Z.eq_dec x 117) as [->|Hx].
  - change (parse_string (S fuel) (92 :: 117 :: s) = Some (t, r)) in H. rewrite parse_string_u in H.
    destruct s as [|a [|b [|d [|e s]]]]; try done.
    destruct (hex_value a) as [va|] eqn:Ha, (hex_value b) as [vb|] eqn:Hb, (hex_value d) as [vd|] eqn:Hd,
      (hex_value e) as [ve|] eqn:He; try done. cbn [mbind option_bind] in H.
    destruct (parse_string fuel s) as [[t1 r1]|] eqn:E; [|done]. cbn in H. injection H as <- <-.
    apply (Hstep (va * 4096 + vb * 256 + vd * 16 + ve) s t1 [92; 117; a; b; d; e]); try done.
    + intros y z <-. cbn [app]. rewrite string_end_escape.
      rewrite !string_end_plain by (by eapply hex_value_plain). by destruct (string_end y).
    + intros f y z w Hy. cbn [app]. rewrite parse_string_u, Ha, Hb, Hd, He. cbn [mbind option_bind]. by rewrite Hy.
  - change (parse_string (S fuel) (92 :: x :: s) = Some (t, r)) in H. rewrite parse_string_escape in H by done.
    destruct (unescape x) as [u|] eqn:Hu; [|done]. cbn [mbind option_bind] in H.
    destruct (parse_string fuel s) as [[t1 r1]|] eqn:E; [|done]. cbn in H. injection H as <- <-.
    apply (Hstep u s t1 [92; x]); try done.
    + intros y z <-. cbn [app]. rewrite string_end_escape. by destruct (string_end y).
    + intros f y z w Hy. cbn [app]. rewrite parse_string_escape, Hu by done. cbn [mbind option_bind]. by rewrite Hy.
Qed.

Lemma json_parse_string lit t :
  (∀ fuel r, (length lit <= fuel)%nat → parse_string fuel (lit ++ r) = Some (t, r)) →
  json_parse (34 :: lit) = Some (JStr t).
Proof.
  intros H. specialize (H (length (34 :: lit)) []). rewrite app_nil_r in H.
  unfold json_parse. cbn [parse_value]. change (skip_ws (34 :: lit)) with (34 :: lit).
  cbn [Z.eqb Pos.eqb]. rewrite H by (cbn; lia). done.
Qed.

Lemma literal_of_parse fuel s t r :
  parse_string fuel s = Some (t, r) → ∃ lit, s = lit ++ r ∧ literal lit t.
Proof.
  intros (lit & -> & Hend & Hp)%parse_string_literal. exists lit. split; [done|]. split; [done|].
  by apply json_parse_string.
Qed.

(** * Numbers *)

Lemma take_digits_split s ds r :
  take_digits s = (ds, r) →
  s = ds ++ r ∧ forallb is_digit ds = true ∧ (∀ c s', r = c :: s' → is_digit c = false).
Proof.
  revert ds r. induction s as [|c s IH]; intros ds r; cbn; [by intros [= <- <-]|].
  destruct (is_digit c) eqn:Hc.
  - destruct (take_digits s) as [ds' r'] eqn:E. intros [= <- <-]. destruct (IH _ _ eq_refl) as (-> & Hd & Hr).
    cbn. by rewrite Hc, Hd.
  - intros [= <- <-]. split_and!; [done..|]. by intros c' s' [= <- <-].
Qed.

Lemma digit_plain c : is_digit c = true → plain c = true.
Proof.
  unfold is_digit, plain. rewrite in_range_spec. intros Hc.
  rewrite negb_true_iff, !orb_false_iff, !Z.eqb_neq. lia.
Qed.

Lemma digits_plain ds : forallb is_digit ds = true → forallb plain ds = true.
Proof. apply all_units_impl, digit_plain. Qed.

Lemma parse_fraction_other c r : c ≠ 46 → parse_fraction (c :: r) = Some ([], c :: r).
Proof. intros Hc. destruct c as [|p|p]; try done. do 6 (destruct p as [p|p|]; try done). Qed.

Lemma parse_fraction_split r fp r1 :
  parse_fraction r = Some (fp, r1) →
  ∃ tk, r = tk ++ r1 ∧ forallb plain tk = true
    ∧ ∀ r' r'', r1 = r' ++ r'' → parse_fraction (tk ++ r') = Some (fp, r').
Proof.
  destruct r as [|c r]; [intros [= <- <-]; exists []; split_and!; [done..|]; by intros [|] ? |].
  destruct (Z.eq_dec c 46) as [->|Hc].
  - cbn. destruct (take_digits r) as [ds r2] eqn:E. apply take_digits_split in E as (-> & Hd & Hr).
    destruct ds as [|d ds]; [done|]. intros [= <- <-]. exists (46 :: d :: ds).
    split_and!; [done|by apply (digits_plain (d :: ds))|]. intros r' r'' ->.
    change (parse_fraction ((46 :: d :: ds) ++ r')) with
      (let '(fp, r'') := take_digits ((d :: ds) ++ r') in match fp with [] => None | _ => Some (fp, r'') end).
    rewrite (take_digits_app (d :: ds)); [done..|]. intros c s' ->. by apply (Hr c (s' ++ r'')).
  - rewrite parse_fraction_other by done. intros [= <- <-]. exists []. split_and!; [done..|].
    intros [|c' r'] r'' E; [done|]. injection E as <- _. by apply parse_fraction_other.
Qed.

Lemma parse_exponent_other c r : c ≠ 101 → c ≠ 69 → parse_exponent (c :: r) = Some (0, c :: r).
Proof. intros H1 H2. destruct c as [|p|p]; try done. do 7 (destruct p as [p|p|]; try done). Qed.

(** The sign of an exponent. *)
Definition exponent_sign (r : jsstr) : bool * jsstr :=
  match r with 45 :: r1 => (true, r1) | 43 :: r1 => (false, r1) | _ => (false, r) end.

Lemma exponent_sign_other c r : c ≠ 45 → c ≠ 43 → exponent_sign (c :: r) = (false, c :: r).
Proof. intros H1 H2. destruct c as [|p|p]; try done. do 6 (destruct p as [p|p|]; try done). Qed.

Lemma exponent_sign_split r neg r1 :
  exponent_sign r = (neg, r1) → ∃ sg, r = sg ++ r1 ∧ forallb plain sg = true
    ∧ ∀ d ds, is_digit d = true → exponent_sign (sg ++ d :: ds) = (neg, d :: ds).
Proof.
  assert (∀ d ds, is_digit d = true → exponent_sign (d :: ds) = (false, d :: ds)) as Hd.
  { intros d ds Hd. apply exponent_sign_other; intros ->; done. }
  destruct r as [|c r]; [intros [= <- <-]; exists []; by split_and!|].
  destruct (Z.eq_dec c 45) as [->|H1]; [intros [= <- <-]; exists [45]; by split_and!|].
  destruct (Z.eq_dec c 43) as [->|H2]; [intros [= <- <-]; exists [43]; by split_and!|].
  rewrite exponent_sign_other by done. intros [= <- <-]. exists []. by split_and!.
Qed.

Lemma parse_exponent_e e r :
  e = 101 ∨ e = 69 →
  parse_exponent (e :: r) =
    (let '(eneg, r1) := exponent_sign r in
     let '(ed, r2) := take_digits r1 in
     match ed with [] => None | _ => Some ((if eneg then - digits_value ed else digits_value ed), r2) end).
Proof. by intros [->| ->]. Qed.

Lemma parse_exponent_split r ex r1 :
  parse_exponent r = Some (ex, r1) →
  ∃ tk, r = tk ++ r1 ∧ forallb plain tk = true ∧ parse_exponent tk = Some (ex, []).
Proof.
  destruct r as [|c r]; [intros [= <- <-]; by exists []|].
  destruct (decide (c = 101 ∨ c = 69)) as [Hc|Hc].
  - rewrite parse_exponent_e by done. destruct (exponent_sign r) as [neg s] eqn:Es.
    destruct (take_digits s) as [ds r2] eqn:E. apply take_digits_split in E as (-> & Hd & Hr).
    apply exponent_sign_split in Es as (sg & -> & Hsg & Hsign).
    destruct ds as [|d ds]; [done|]. intros [= <- <-]. exists (c :: sg ++ d :: ds). split_and!.
    + cbn. by rewrite <- app_assoc.
    + cbn [forallb]. rewrite forallb_app, Hsg, (digits_plain (d :: ds)) by done. by destruct Hc as [->| ->].
    + rewrite parse_exponent_e by done. pose proof Hd as Hd1. cbn [forallb] in Hd1. apply andb_true_iff in Hd1 as [Hd1 _].
      rewrite Hsign by done. rewrite <- (app_nil_r (d :: ds)) at 1. by rewrite take_digits_app.
  - rewrite parse_exponent_other by tauto. intros [= <- <-]. by exists [].
Qed.

Lemma parse_number_split neg s n r :
  parse_number neg s = Some (n, r) →
  ∃ tok, s = tok ++ r ∧ forallb plain tok = true ∧ parse_number neg tok = Some (n, [])
    ∧ ∃ d ds, tok = d :: ds ∧ is_digit d = true.
Proof.
  unfold parse_number at 1. destruct (take_digits s) as [ip r0] eqn:E.
  apply take_digits_split in E as (-> & Hd & Hr). destruct (valid_int_part ip) eqn:Hip; [|done].
  destruct (parse_fraction r0) as [[fp r1]|] eqn:Ef; [|done]. cbn [mbind option_bind].
  destruct (parse_exponent r1) as [[ex r2]|] eqn:Ee; [|done]. cbn [mbind option_bind]. intros [= <- <-].
  apply parse_fraction_split in Ef as (tk1 & -> & Hp1 & Hf). apply parse_exponent_split in Ee as (tk2 & -> & Hp2 & He).
  exists (ip ++ tk1 ++ tk2). split_and!.
  - by rewrite <- !app_assoc.
  - by rewrite !forallb_app, (digits_plain ip), Hp1, Hp2.
  - unfold parse_number. rewrite take_digits_app; [|done|].
    2: { intros c s' Ec. destruct tk1 as [|c1 tk1]; cbn in Ec; [|injection Ec as -> _; by eapply Hr].
         destruct tk2; [done|]. injection Ec as -> _. by eapply Hr. }
    rewrite Hip, (Hf tk2 r2) by done. cbn [mbind option_bind]. by rewrite He.
  - destruct ip as [|d ip]; [done|]. exists d, (ip ++ tk1 ++ tk2). split; [done|].
    cbn in Hd. by apply andb_true_iff in Hd as [? _].
Qed.

(** * Every parsed text has a tree *)

Lemma parse_value_array fuel s v r :
  match skip_ws s with
  | 93 :: r => Some (JArr [], r)
  | _ => '(l, r) ← parse_elements fuel s; Some (JArr l, r)
  end = Some (v, r) →
  (skip_ws s = 93 :: r ∧ v = JArr []) ∨ ∃ l, parse_elements fuel s = Some (l, r) ∧ v = JArr l.
Proof.
  intros H. assert (skip_ws s = 93 :: r ∧ v = JArr [] ∨ ('(l, r) ← parse_elements fuel s; Some (JArr l, r)) = Some (v, r)) as [|H1];
    [repeat case_match; simplify_eq; auto|by left|].
  right. destruct (parse_elements fuel s) as [[l r0]|]; [|done]. injection H1 as <- <-. eauto.
Qed.

Lemma parse_value_object fuel s v r :
  match skip_ws s with
  | 125 :: r => Some (JObj true [], r)
  | _ => '(fs, r) ← parse_members fuel s []; Some (JObj true fs, r)
  end = Some (v, r) →
  (skip_ws s = 125 :: r ∧ v = JObj true []) ∨ ∃ fs, parse_members fuel s [] = Some (fs, r) ∧ v = JObj true fs.
Proof.
  intros H. assert (skip_ws s = 125 :: r ∧ v = JObj true []
    ∨ ('(fs, r) ← parse_members fuel s []; Some (JObj true fs, r)) = Some (v, r)) as [|H1];
    [repeat case_match; simplify_eq; auto|by left|].
  right. destruct (parse_members fuel s []) as [[l r0]|]; [|done]. injection H1 as <- <-. eauto.
Qed.

Lemma parse_elements_inv fuel s l r :
  parse_elements (S fuel) s = Some (l, r) →
  ∃ v r1, parse_value fuel s = Some (v, r1)
    ∧ ((∃ s1 l1, skip_ws r1 = 44 :: s1 ∧ parse_elements fuel s1 = Some (l1, r) ∧ l = v :: l1)
       ∨ (skip_ws r1 = 93 :: r ∧ l = [v])).
Proof.
  cbn [parse_elements]. intros H. destruct (parse_value fuel s) as [[v r1]|]; [|done]. cbn [mbind option_bind] in H.
  exists v, r1. split; [done|]. destruct (skip_ws r1) as [|c s1]; [done|].
  destruct (Z.eq_dec c 44) as [->|H1].
  { left. destruct (parse_elements fuel s1) as [[l1 r2]|] eqn:E; [|done]. injection H as <- <-.
    exists s1, l1. by rewrite E. }
  right. destruct (Z.eq_dec c 93) as [->|H2]; [by injection H as <- <-|]. exfalso.
  destruct c as [|p|p]; try done. do 7 (destruct p as [p|p|]; try done).
Qed.

Lemma parse_members_inv fuel s acc fs r :
  parse_members (S fuel) s acc = Some (fs, r) →
  ∃ s1 k r1 s2 v r2, skip_ws s = 34 :: s1 ∧ parse_string (length s) s1 = Some (k, r1)
    ∧ skip_ws r1 = 58 :: s2 ∧ parse_value fuel s2 = Some (v, r2)
    ∧ ((∃ s3, skip_ws r2 = 44 :: s3 ∧ parse_members fuel s3 (set_field acc k v) = Some (fs, r))
       ∨ (skip_ws r2 = 125 :: r ∧ fs = set_field acc k v)).
Proof.
  cbn [parse_members]. intros H. destruct (skip_ws s) as [|c s1]; [done|].
  destruct (Z.eq_dec c 34) as [->|Hc].
  2: { exfalso. destruct c as [|p|p]; try done. do 7 (destruct p as [p|p|]; try done). }
  destruct (parse_string (length s) s1) as [[k r1]|] eqn:Ek; [|done]. cbn [mbind option_bind] in H.
  destruct (skip_ws r1) as [|c s2] eqn:E1; [done|]. destruct (Z.eq_dec c 58) as [->|Hc].
  2: { exfalso. destruct c as [|p|p]; try done. do 7 (destruct p as [p|p|]; try done). }
  destruct (parse_value fuel s2) as [[v r2]|] eqn:Ev; [|done]. cbn [mbind option_bind] in H.
  exists s1, k, r1, s2, v, r2. split_and!; try done. destruct (skip_ws r2) as [|c s3]; [done|].
  destruct (Z.eq_dec c 44) as [->|H1]; [left; eauto|]. right.
  destruct (Z.eq_dec c 125) as [->|H2]; [by injection H as <- <-|]. exfalso.
  destruct c as [|p|p]; try done. do 7 (destruct p as [p|p|]; try done).
Qed.

Definition add_member (fs : list (jsstr * jsval)) (m : jsstr * jsval) : list (jsstr * jsval) :=
  set_field fs m.1 m.2.
Definition member_value (m : jsstr * tree) : jsstr * jsval := (m.1, tree_value m.2).

(** A scalar token alone is parsed as that scalar. *)
Lemma leaf_number neg tok n :
  forallb plain tok = true → parse_number neg tok = Some (n, []) → (∃ d ds, tok = d :: ds ∧ is_digit d = true) →
  leaf (if neg then 45 :: tok else tok) (JNum n).
Proof.
  intros Hp Hn (d & ds & -> & Hd). split; [by destruct neg|].
  assert (is_json_space d = false ∧ d <> 34 ∧ d <> 91 ∧ d <> 123 ∧ d <> 45) as (Hs & H1 & H2 & H3 & H4).
  { unfold is_digit in Hd. apply in_range_spec in Hd. unfold is_json_space.
    rewrite !orb_false_iff, !Z.eqb_neq. lia. }
  unfold json_parse. destruct neg.
  - cbn [parse_value]. change (skip_ws (45 :: d :: ds)) with (45 :: d :: ds). cbn [Z.eqb Pos.eqb].
    by rewrite Hn.
  - assert (skip_ws (d :: ds) = d :: ds) as E by (unfold skip_ws; cbn [drop_while]; by rewrite Hs).
    cbn [parse_value]. rewrite E, !(proj2 (Z.eqb_neq d _)), Hd by done. by rewrite Hn.
Qed.

Lemma parse_trees fuel :
  (∀ s v r, parse_value fuel s = Some (v, r) → ∃ t, json_tree s t r ∧ tree_value t = v)
  ∧ (∀ s l r, parse_elements fuel s = Some (l, r) → ∃ ts, json_elements s ts r ∧ map tree_value ts = l)
  ∧ (∀ s acc fs r, parse_members fuel s acc = Some (fs, r) →
      ∃ ms, json_members s ms r ∧ foldl add_member acc (map member_value ms) = fs).
Proof.
  induction fuel as [|fuel (IHv & IHe & IHm)]; [done|]. split_and!.
  - intros s v r H. destruct (skip_ws_split s) as (ws & Hws & Es). cbn [parse_value] in H.
    assert (∃ t, json_tree (skip_ws s) t r ∧ tree_value t = v) as (t & Ht & Hv).
    2: { exists t. split; [|done]. rewrite Es. by apply json_tree_spaces. }
    destruct (skip_ws s) as [|c s']; [done|].
    destruct (Z.eqb_spec c 34) as [->|H34].
    { destruct (parse_string (length s) s') as [[t r0]|] eqn:E; [|done]. cbn in H. injection H as <- <-.
      apply literal_of_parse in E as (lit & -> & Hl). exists (TStr t). split; [by constructor|done]. }
    destruct (Z.eqb_spec c 91) as [->|H91].
    { apply parse_value_array in H as [[E ->]|(l & (ts & Hts & <-)%IHe & ->)].
      - destruct (skip_ws_split s') as (ws' & Hws' & Es'). rewrite E in Es'. subst s'.
        exists (TArr []). split; [by constructor|done].
      - exists (TArr ts). split; [by constructor|done]. }
    destruct (Z.eqb_spec c 123) as [->|H123].
    { apply parse_value_object in H as [[E ->]|(fs & (ms & Hms & <-)%IHm & ->)].
      - destruct (skip_ws_split s') as (ws' & Hws' & Es'). rewrite E in Es'. subst s'.
        exists (TObj []). split; [by constructor|done].
      - exists (TObj ms). split; [by constructor|done]. }
    assert (∀ tok (w : jsval), c :: s' = tok ++ r → leaf tok w → v = w → ∃ t, json_tree (c :: s') t r ∧ tree_value t = v) as Hleaf.
    { intros tok w -> Hl ->. exists (TLeaf w). split; [by constructor|done]. }
    destruct (Z.eqb_spec c 45) as [->|H45].
    { destruct (parse_number true s') as [[n r0]|] eqn:E; [|done]. cbn in H. injection H as <- <-.
      apply parse_number_split in E as (tok & -> & Hp & Hn & Hd).
      apply (Hleaf (45 :: tok) (JNum n)); [done| |done]. by apply (leaf_number true). }
    destruct (is_digit c) eqn:Hdig.
    { destruct (parse_number false (c :: s')) as [[n r0]|] eqn:E; [|done]. cbn in H. injection H as <- <-.
      apply parse_number_split in E as (tok & Etok & Hp & Hn & Hd).
      apply (Hleaf tok (JNum n)); [done| |done]. by apply (leaf_number false). }
    destruct (starts_with (js "true") (c :: s')) eqn:E.
    { apply starts_with_spec in E as [r0 E]. rewrite E in H. injection H as <- <-.
      apply (Hleaf (js "true") (JBool true)); [done| |done]. by split. }
    destruct (starts_with (js "false") (c :: s')) eqn:E1.
    { apply starts_with_spec in E1 as [r0 E1]. rewrite E1 in H. injection H as <- <-.
      apply (Hleaf (js "false") (JBool false)); [done| |done]. by split. }
    destruct (starts_with (js "null") (c :: s')) eqn:E2; [|done].
    apply starts_with_spec in E2 as [r0 E2]. rewrite E2 in H. injection H as <- <-.
    apply (Hleaf (js "null") JNull); [done| |done]. by split.
  - intros s l r (v & r1 & (t & Ht & <-)%IHv & H)%parse_elements_inv.
    destruct (skip_ws_split r1) as (ws & Hws & E).
    destruct H as [(s1 & l1 & E1 & (ts & Hts & <-)%IHe & ->)|[E1 ->]]; rewrite E1 in E; rewrite E in Ht.
    + exists (t :: ts). split; [by eapply je_more|done].
    + exists [t]. split; [by eapply je_last|done].
  - intros s acc fs r (s1 & k & r1 & s2 & v & r2 & E1 & Hk & E2 & (t & Ht & <-)%IHv & H)%parse_members_inv.
    apply literal_of_parse in Hk as (lit & -> & Hl).
    destruct (skip_ws_split s) as (ws1 & Hws1 & Es). rewrite E1 in Es.
    destruct (skip_ws_split r1) as (ws2 & Hws2 & Er1). rewrite E2 in Er1. subst r1.
    destruct (skip_ws_split r2) as (ws3 & Hws3 & Er2).
    destruct H as [(s3 & E3 & (ms & Hms & <-)%IHm)|[E3 ->]]; rewrite E3 in Er2; rewrite Er2 in Ht; rewrite Es.
    + exists ((k, t) :: ms). split; [by eapply jm_more|done].
    + exists [(k, t)]. split; [by eapply jm_last|done].
Qed.

(** * The scan on a text of the grammar *)

Lemma string_end_app s l r : string_end s = (l, r) → s = l ++ r.
Proof.
  assert (∀ n s l r, (length s <= n)%nat → string_end s = (l, r) → s = l ++ r) as H; [|by apply (H (length s))].
  clear. induction n as [|n IH]; intros [|c s] l r Hn; cbn [string_end]; try (by intros [= <- <-]); [cbn in Hn; lia|].
  cbn in Hn. destruct (c =? 92).
  - destruct s as [|d s]; [by intros [= <- <-]|]. destruct (string_end s) as [l' r'] eqn:E. intros [= <- <-].
    cbn. do 2 f_equal. apply IH; [cbn in Hn; lia|done].
  - destruct (c =? 34); [by intros [= <- <-]|]. destruct (string_end s) as [l' r'] eqn:E. intros [= <- <-].
    cbn. f_equal. apply IH; [lia|done].
Qed.

Lemma scan_fuel f1 f2 s stack :
  (length s <= f1)%nat → (length s <= f2)%nat → scan f1 s stack = scan f2 s stack.
Proof.
  revert f2 s stack. induction f1 as [|f1 IH]; intros [|f2] [|c s] stack H1 H2; cbn in H1, H2; try lia; try done.
  cbn [scan]. repeat (case_match; [apply IH; lia|]). case_match; [|apply IH; lia].
  destruct (string_end s) as [l r] eqn:E. apply string_end_app in E. subst s. rewrite length_app in H1, H2.
  destruct (add_key _ _); [|done]. apply IH; lia.
Qed.

(** The scan with the fuel [parseObject] gives it. *)
Definition scan_all (s : jsstr) (stack : list Container) : bool := scan (length s) s stack.

Lemma scan_plain ws s stack : forallb plain ws = true → scan_all (ws ++ s) stack = scan_all s stack.
Proof.
  induction ws as [|c ws IH]; [done|]. cbn [forallb]. intros [Hc Hws]%andb_true_iff.
  rewrite <- IH by done. unfold scan_all. cbn [app length scan]. unfold plain in Hc.
  rewrite negb_true_iff, !orb_false_iff in Hc. destruct Hc as [[[[[-> ->] ->] ->] ->] ->]. done.
Qed.

Lemma scan_char c s stack : c = 123 ∨ c = 91 ∨ c = 125 ∨ c = 93 ∨ c = 44 →
  scan_all (c :: s) stack = scan_all s
    (if c =? 123 then mkContainer (Some []) true :: stack
     else if c =? 91 then mkContainer None false :: stack
     else if (c =? 125) || (c =? 93) then tail stack else expect_key stack).
Proof. intros [->|[->|[->|[->| ->]]]]; done. Qed.

Lemma scan_string lit t s stack : literal lit t →
  scan_all (34 :: lit ++ s) stack
  = match add_key (34 :: lit) stack with Some stack => scan_all s stack | None => false end.
Proof.
  intros [Hl _]. unfold scan_all. cbn [length scan Z.eqb Pos.eqb orb]. rewrite Hl.
  destruct (add_key _ _); [|done]. apply scan_fuel; rewrite ?length_app; lia.
Qed.

Definition expecting (stack : list Container) : bool :=
  match stack with {| keys := Some _; expectsKey := true |} :: _ => true | _ => false end.

(** The names are new, one after the other. *)
Fixpoint names_fresh (ks names : list jsstr) : bool :=
  match names with
  | [] => true
  | k :: names => negb (bool_decide (k ∈ ks)) && names_fresh (k :: ks) names
  end.

Lemma names_fresh_spec ks names :
  names_fresh ks names = true ↔ NoDup names ∧ ∀ k, k ∈ names → k ∉ ks.
Proof.
  revert ks. induction names as [|k names IH]; intros ks; cbn.
  { split; [|done]. intros _. split; [constructor|]. by intros ? ?%not_elem_of_nil. }
  rewrite andb_true_iff, negb_true_iff, bool_decide_eq_false, IH, NoDup_cons. split.
  - intros (Hk & Hnd & Hin). split_and!; [|done|].
    + intros Hkn. apply (Hin k Hkn). left.
    + intros k' [->|Hk']%elem_of_cons; [done|]. intros Hks. apply (Hin k' Hk'). by right.
  - intros ([Hkn Hnd] & Hin). split_and!; [apply Hin; left|done|].
    intros k' Hk' [->|Hks]%elem_of_cons; [done|]. apply (Hin k'); [by right|done].
Qed.

Lemma names_fresh_nodup names : names_fresh [] names = bool_decide (NoDup names).
Proof.
  apply eq_true_iff_eq. rewrite names_fresh_spec, bool_decide_eq_true. split; [by intros [? _]|].
  intros Hnd. split; [done|]. intros ? _. apply not_elem_of_nil.
Qed.

Lemma add_key_idle lit stack : expecting stack = false → add_key lit stack = Some stack.
Proof. destruct stack as [|[[ks|] []] stack]; done. Qed.

Lemma add_key_name lit k ks stack : literal lit k →
  add_key (34 :: lit) (mkContainer (Some ks) true :: stack)
  = if bool_decide (k ∈ ks) then None else Some (mkContainer (Some (k :: ks)) false :: stack).
Proof. intros [_ Hp]. unfold add_key. by rewrite Hp. Qed.

(** The head of a member: a new name, then its value. *)
Lemma scan_member ws1 lit k ws2 s ks stack :
  spaces ws1 → literal lit k → spaces ws2 →
  scan_all (ws1 ++ 34 :: lit ++ ws2 ++ 58 :: s) (mkContainer (Some ks) true :: stack)
  = negb (bool_decide (k ∈ ks)) && scan_all s (mkContainer (Some (k :: ks)) false :: stack).
Proof.
  intros H1 Hl H2. rewrite scan_plain by by apply spaces_plain. rewrite (scan_string lit k) by done.
  rewrite (add_key_name lit k) by done. destruct (bool_decide (k ∈ ks)); [done|].
  rewrite scan_plain by by apply spaces_plain. by apply (scan_plain [58]).
Qed.

Lemma scan_trees :
  (∀ s t r, json_tree s t r → ∀ stack, expecting stack = false →
     scan_all s stack = distinct_names t && scan_all r stack)
  ∧ (∀ s l r, json_elements s l r → ∀ stack,
     scan_all s (mkContainer None false :: stack) = forallb distinct_names l && scan_all r stack)
  ∧ (∀ s ms r, json_members s ms r → ∀ ks stack,
     scan_all s (mkContainer (Some ks) true :: stack)
     = names_fresh ks (map fst ms) && forallb (λ m, distinct_names m.2) ms && scan_all r stack).
Proof.
  apply json_mutind.
  - intros c s t r Hc _ IH stack Hst. rewrite <- IH by done. apply (scan_plain [c]).
    apply (spaces_plain [c]). unfold spaces. cbn. by rewrite Hc.
  - intros tok v r [Hp _] stack Hst. by apply scan_plain.
  - intros lit t r Hl stack Hst. by rewrite (scan_string lit t), add_key_idle.
  - intros ws r Hws stack Hst. rewrite scan_char by auto. rewrite scan_plain by by apply spaces_plain.
    by rewrite scan_char by auto 6.
  - intros s l r _ IH stack Hst. rewrite scan_char by auto. apply IH.
  - intros ws r Hws stack Hst. rewrite scan_char by auto. rewrite scan_plain by by apply spaces_plain.
    by rewrite scan_char by auto 6.
  - intros s ms r _ IH stack Hst. rewrite scan_char by auto. cbn [Z.eqb Pos.eqb]. rewrite IH.
    cbn [distinct_names]. by rewrite names_fresh_nodup.
  - intros s t ws r _ IH Hws stack. rewrite IH by done. rewrite scan_plain by by apply spaces_plain.
    rewrite scan_char by auto 6. cbn. by rewrite andb_true_r.
  - intros s t ws s' l r _ IH Hws _ IHl stack. rewrite IH by done. rewrite scan_plain by by apply spaces_plain.
    rewrite scan_char by auto 8. cbn [Z.eqb Pos.eqb orb expect_key]. rewrite IHl. cbn [forallb]. by rewrite andb_assoc.
  - intros ws1 lit k ws2 s t ws3 r H1 Hl H2 _ IH H3 ks stack. rewrite (scan_member _ lit k), IH by done.
    rewrite scan_plain by by apply spaces_plain. rewrite scan_char by auto 6. cbn.
    by rewrite !andb_true_r, andb_assoc.
  - intros ws1 lit k ws2 s t ws3 s' ms r H1 Hl H2 _ IH H3 _ IHm ks stack. rewrite (scan_member _ lit k), IH by done.
    rewrite scan_plain by by apply spaces_plain. rewrite scan_char by auto 8. cbn [Z.eqb Pos.eqb orb expect_key].
    rewrite IHm. cbn [map forallb names_fresh fst snd].
    destruct (bool_decide (k ∈ ks)), (distinct_names t), (names_fresh (k :: ks) (map fst ms)); done.
Qed.

(** C23: [parseObject] accepts a text exactly when it is UTF-8, [JSON.parse] makes an object of it,
    and no object in it, at any depth, has two members of one name: so the value it returns
    has lost no member to a later one of the same name. *)
Theorem parse_object_exact (bytes : list Z) (fields : list (jsstr * jsval)) :
  parseObject bytes = Ok fields ↔
  ∃ text t, utf8_decode bytes = Some text ∧ json_parse text = Some (JObj true fields)
    ∧ json_document text t ∧ tree_value t = JObj true fields ∧ distinct_names t = true.
Proof.
  assert (∀ text t, json_document text t → scan (length text) text [] = distinct_names t) as Hscan.
  { intros text t (ws & Hws & Ht). change (scan (length text) text []) with (scan_all text []).
    rewrite (proj1 scan_trees text t ws Ht []) by done. rewrite <- (app_nil_r ws).
    rewrite scan_plain by by apply spaces_plain. by rewrite andb_true_r. }
  unfold parseObject. split.
  - intros H. destruct (utf8_decode bytes) as [text|]; [|done].
    destruct (json_parse text) as [[| | | | | |[] fs| |]|] eqn:Hp; try done.
    destruct (scan (length text) text []) eqn:Hs; [|done]. injection H as ->.
    pose proof Hp as Hp'. unfold json_parse in Hp'.
    destruct (parse_value _ text) as [[v r]|] eqn:Ev; [|done]. cbn [mbind option_bind] in Hp'.
    destruct (skip_ws r) eqn:Er; [|done]. injection Hp' as ->.
    apply (proj1 (parse_trees _)) in Ev as (t & Ht & Hv).
    destruct (skip_ws_split r) as (ws & Hws & E). rewrite Er, app_nil_r in E. subst r.
    assert (json_document text t) as Hd by by exists ws.
    exists text, t. split_and!; try done. by rewrite <- (Hscan text t).
  - intros (text & t & -> & -> & Hd & _ & Hdist). by rewrite (Hscan text t), Hdist.
Qed.

Example duplicates_refused :
  is_ok (parseObject (utf8_encode (js "{" ++ [34; 97; 34] ++ js ":1," ++ [34; 98; 34] ++ js ":[]}"))) = true
  ∧ is_ok (parseObject (utf8_encode (js "{" ++ [34; 97; 34] ++ js ":[{" ++ [34; 98; 34] ++ js ":1," ++ [34; 92]
      ++ js "u0062" ++ [34] ++ js ":2}]}"))) = false.
Proof. split; vm_compute; reflexivity. Qed.
