(* ===== verification/DpopProof.v ===== *)
(** express-oidc-vault, [dpop-proof.ts]: the presentation of a proof, its public key and the
    verification of its signature and claims.

    The functions of [jose] are parameters: [jws_verify jwk alg proof] is [importJWK] followed by
    [compactVerify], with the payload, [None] when either throws; [thumbprint jwk] is
    [calculateJwkThumbprint]. [new URL] enters through the [htu] normal form. *)

From S2P Require Import Prelude JsValue JsJson AttestTypes AttestCanonical AttestVerify JsBuffer IndexedHeap VaultBinding DpopNonce DpopPolicy DpopTarget DpopReplay DpopJson.

Definition DPOP_PROOF_MAX_BYTES : Z := 8192.
Definition DPOP_PROTECTED_HEADER_MAX_BYTES : Z := 2048.

(** * The header *)

Record DpopRawHeader := mkRawHeader { rh_count : nat; rh_value : option jsstr }.

(** [readDpopRawHeader(req, name)]: names at even places, values at odd ones; the scan stops at
    the second occurrence. A trailing name has no value. *)
Fixpoint read_raw (name : jsstr) (rawHeaders : list jsstr) (count : nat) (value : option jsstr) : DpopRawHeader :=
  match rawHeaders with
  | [] => mkRawHeader count value
  | [n] =>
      if jsstr_eqb (to_lower n) name
      then mkRawHeader (S count) (if (count =? 0)%nat then None else value)
      else mkRawHeader count value
  | n :: v :: rest =>
      if negb (jsstr_eqb (to_lower n) name) then read_raw name rest count value
      else
        let value := if (count =? 0)%nat then Some v else value in
        if (S count =? 2)%nat then mkRawHeader 2 value else read_raw name rest (S count) value
  end.
Definition readDpopRawHeader (rawHeaders : list jsstr) (name : jsstr) : DpopRawHeader :=
  read_raw (to_lower name) rawHeaders 0 None.

(** [/^[A-Za-z0-9_-]+\.[A-Za-z0-9_-]+\.[A-Za-z0-9_-]+$/] *)
Definition compact_pattern (value : jsstr) : bool :=
  match split_on 46 value with
  | [a; b; c] => forallb (λ s, negb (length s =? 0)%nat && all_units name_unit s) [a; b; c]
  | _ => false
  end.

Definition extractDpopProof (header : DpopRawHeader) : ores (option jsstr) :=
  if (rh_count header =? 0)%nat then Ok None
  else
    match rh_count header, rh_value header with
    | 1%nat, Some value =>
        guard (negb (length value =? 0)%nat && (Z.of_nat (length value) <=? DPOP_PROOF_MAX_BYTES)
               && compact_pattern value)
          (invalidProof (js "DPoP header must contain one bounded compact signed proof.")) ;;;
        Ok (Some value)
    | _, _ => Err (invalidProof (js "DPoP header must contain one bounded compact signed proof."))
    end.

(** [decodeBase64url(value, maxBytes)]; [Math.ceil] of four thirds is exact here. *)
Definition decodeBounded (value : jsstr) (maxBytes : Z) : ores (list Z) :=
  guard (negb (length value =? 0)%nat && (Z.of_nat (length value) <=? (maxBytes * 4 + 2) / 3)
         && all_units name_unit value)
    (invalidProof (js "DPoP base64url input exceeds its bound or has invalid encoding.")) ;;;
  let bytes := buffer_of_base64url value in
  guard ((Z.of_nat (length bytes) <=? maxBytes) && jsstr_eqb (base64urlEncode bytes) value)
    (invalidProof (js "DPoP base64url input is not canonical.")) ;;;
  Ok bytes.

(** * The key *)

Definition str_is (v : jsval) (s : string) : bool := js_strict_eq v (JStr (js s)).
Definition undef_or (v : jsval) (p : jsval → bool) : bool := is_undef v || p v.

Definition jwk_members (alg : DpopAlgorithm) : list jsstr :=
  map js (match alg with
          | ES256 => ["kty"; "crv"; "x"; "y"; "alg"; "use"; "key_ops"; "kid"]
          | _ => ["kty"; "n"; "e"; "alg"; "use"; "key_ops"; "kid"]
          end)%string.

(** [Buffer.compare(a, b) >= 0] for buffers of one length. *)
Fixpoint bytes_ge (a b : list Z) : bool :=
  match a, b with
  | x :: a, y :: b => if x =? y then bytes_ge a b else y <? x
  | _, _ => true
  end.

(** [32 - Math.clz32(b)] for a byte. *)
Definition byte_bits (b : Z) : Z := if b =? 0 then 0 else Z.log2 b + 1.

Definition rsa_ok (modulus exponent : list Z) : bool :=
  let m0 := hd 0 modulus in
  let bits := (Z.of_nat (length modulus) - 1) * 8 + byte_bits m0 in
  negb ((m0 =? 0) || (bits <? 2048) || (4096 <? bits) || (hd 0 exponent =? 0)
        || (Z.land (List.last exponent 0) 1 =? 0)
        || ((length exponent =? 1)%nat && (hd 0 exponent <? 3))
        || (length modulus <? length exponent)%nat
        || ((length exponent =? length modulus)%nat && bytes_ge exponent modulus)).

Definition publicJwk (value : jsval) (alg : DpopAlgorithm) : ores (list (jsstr * jsval)) :=
  match value with
  | JObj true fields =>
      let field k := get_field value (js k) in
      guard (byteLength (json_text value) <=? DPOP_PROTECTED_HEADER_MAX_BYTES)
        (invalidProof (js "DPoP JWK must be a bounded public object.")) ;;;
      guard (forallb (λ k, bool_decide (k ∈ jwk_members alg)) (map fst fields)
             && undef_or (field "alg"%string) (λ v, js_strict_eq v (JStr (algorithm_name alg)))
             && undef_or (field "use"%string) (λ v, str_is v "sig")
             && undef_or (field "kid"%string) is_string
             && undef_or (field "key_ops"%string)
                  (λ v, match v with JArr [op] => str_is op "verify" | _ => false end))
        (invalidProof (js "DPoP JWK contains private, remote, unsupported or incompatible key parameters.")) ;;;
      match alg with
      | ES256 =>
          let error := invalidProof (js "DPoP ES256 requires a public P-256 key with canonical coordinates.") in
          guard (str_is (field "kty"%string) "EC" && str_is (field "crv"%string) "P-256") error ;;;
          match field "x"%string, field "y"%string with
          | JStr x, JStr y =>
              let* bx := decodeBounded x 32 in
              guard (length bx =? 32)%nat error ;;;
              let* bt := decodeBounded y 32 in
              guard (length bt =? 32)%nat error ;;;
              Ok fields
          | _, _ => Err error
          end
      | _ =>
          match str_is (field "kty"%string) "RSA", field "n"%string, field "e"%string with
          | true, JStr n, JStr e =>
              let* modulus := decodeBounded n 512 in
              let* exponent := decodeBounded e 512 in
              guard (rsa_ok modulus exponent)
                (invalidProof (js "DPoP RSA public parameters must use a 2048" ++ [8211]
                   ++ js "4096-bit modulus and a valid bounded odd exponent.")) ;;;
              Ok fields
          | _, _, _ => Err (invalidProof (js "DPoP RSA requires public modulus and exponent."))
          end
      end
  | _ => Err (invalidProof (js "DPoP JWK must be a bounded public object."))
  end.

(** * Verification *)

Record ProofInput := mkProofInput {
  pi_proof : jsstr;
  pi_method : jsstr;
  pi_target : ores jsstr;             (** the target, or what resolving it throws *)
  pi_options : ResolvedDeviceBindingOptions;
  pi_expectedJkt : option jsstr;
  pi_accessToken : option jsstr
}.

Record ProofResult := mkProofResult {
  po_jkt : jsstr;
  po_alg : DpopAlgorithm;
  po_iat : num;
  po_jti : jsstr;
  po_nonce : jsval
}.

Definition FORBIDDEN_HEADERS : list jsstr :=
  map js ["crit"; "b64"; "jku"; "x5u"; "x5c"; "x5t"; "x5t#S256"]%string.

Section verify.
Variable parse_url : jsstr → option URL.
Variable sha256 : list Z → list Z.
Variable jws_verify : list (jsstr * jsval) → DpopAlgorithm → jsstr → option (list Z).
Variable thumbprint : list (jsstr * jsval) → jsstr.

(** The protected header: its algorithm and its public key. *)
Definition check_header (algorithms : list DpopAlgorithm) (header : list (jsstr * jsval))
    : ores (DpopAlgorithm * list (jsstr * jsval)) :=
  let value := JObj true header in
  let error := invalidProof (js "DPoP protected header has an unsupported type, algorithm or key/critical extension.") in
  match dpop_algorithm (get_field value (js "alg")) with
  | Some alg =>
      guard (str_is (get_field value (js "typ")) "dpop+jwt" && bool_decide (alg ∈ algorithms)
             && negb (existsb (λ k, bool_decide (k ∈ map fst header)) FORBIDDEN_HEADERS)) error ;;;
      let* jwk := publicJwk (get_field value (js "jwk")) alg in
      Ok (alg, jwk)
  | None => Err error
  end.

(** The length of a signature of the key's profile. *)
Definition signature_bytes (alg : DpopAlgorithm) (jwk : list (jsstr * jsval)) : ores nat :=
  match alg with
  | ES256 => Ok 64%nat
  | _ => match get_field (JObj true jwk) (js "n") with
         | JStr n => let* modulus := decodeBounded n 512 in Ok (length modulus)
         | _ => Err (TypeError (js "Cannot read properties of undefined"))
         end
  end.

(** [iat] and [jti]. *)
Definition check_claims (claims : jsval) : ores (num * jsstr) :=
  let error := invalidProof (js "DPoP signed iat/JTI must be nonnegative integer time and bounded printable ASCII.") in
  match get_field claims (js "iat"), get_field claims (js "jti") with
  | JNum iat, JStr jti =>
      guard (bool_decide (is_Some (epoch_ms (JNum iat))) && isPrintableIdentifier (JStr jti)) error ;;;
      Ok (iat, jti)
  | _, _ => Err error
  end.

Definition check_target (input : ProofInput) (claims : jsval) : ores unit :=
  res_catch
    (let* expectedTarget := pi_target input in
     let error := invalidProof (js "DPoP signed method or normalized public target does not match this request.") in
     guard (js_strict_eq (get_field claims (js "htm")) (JStr (pi_method input))
            && negb (length (pi_method input) =? 0)%nat) error ;;;
     let* target := normalizeDpopProofTarget parse_url (get_field claims (js "htu")) in
     guard (jsstr_eqb target expectedTarget) error)
    (handleDpopCheckFailure (db_ignoreTargetFailure (pi_options input))).

Definition check_claimed_nonce (claims : jsval) : ores unit :=
  match get_field claims (js "nonce") with
  | JStr nonce =>
      guard ((Z.of_nat (length nonce) <=? DPOP_NONCE_MAX_BYTES) && (byteLength nonce <=? DPOP_NONCE_MAX_BYTES))
        (invalidProof (js "DPoP signed nonce exceeds its byte bound."))
  | _ => Ok tt
  end.

(** [/^[\x21-\x7e]+$/] *)
Definition token_pattern (token : jsstr) : bool :=
  negb (length token =? 0)%nat && all_units (in_range 33 126) token.

Definition check_token_hash (input : ProofInput) (claims : jsval) : ores unit :=
  match pi_accessToken input with
  | None => Ok tt
  | Some token =>
      let ath := get_field claims (js "ath") in
      guard (token_pattern token && isCanonicalDpopJkt ath
             && js_strict_eq ath (JStr (base64urlEncode (sha256 (buffer_of_ascii token)))))
        (invalidProof (js "DPoP signed access-token hash does not match the presented API token."))
  end.

Definition verifyDpopProof (input : ProofInput) : ores ProofResult :=
  extractDpopProof (mkRawHeader 1 (Some (pi_proof input))) ;;;
  match split_on 46 (pi_proof input) with
  | encodedHeader :: encodedPayload :: encodedSignature :: _ =>
      let* headerBytes := decodeBounded encodedHeader DPOP_PROTECTED_HEADER_MAX_BYTES in
      let* header := parseObject headerBytes in
      decodeBounded encodedPayload DPOP_PROOF_MAX_BYTES ;;;
      let* signature := decodeBounded encodedSignature 512 in
      let* checked := check_header (db_algorithms (pi_options input)) header in
      let '(alg, jwk) := checked in
      let* expected := signature_bytes alg jwk in
      guard (length signature =? expected)%nat
        (invalidProof (js "DPoP signature length does not match the allowed key profile.")) ;;;
      let* payload :=
        match jws_verify jwk alg (pi_proof input) with
        | Some payload => Ok payload
        | None => Err (invalidProof (js "DPoP public-key import or signature verification failed."))
        end in
      let* fields := parseObject payload in
      let claims := JObj true fields in
      let* stamped := check_claims claims in
      check_target input claims ;;;
      check_claimed_nonce claims ;;;
      check_token_hash input claims ;;;
      let jkt := thumbprint jwk in
      guard (match pi_expectedJkt input with
             | Some expectedJkt => isCanonicalDpopJkt (JStr expectedJkt) && jsstr_eqb jkt expectedJkt
             | None => true
             end)
        (invalidProof (js "DPoP verified public key does not match the original credential confirmation.")) ;;;
      Ok (mkProofResult jkt alg (fst stamped) (snd stamped) (get_field claims (js "nonce")))
  | _ => Err (invalidProof (js "DPoP header must contain one bounded compact signed proof."))
  end.
End verify.

(** * Presentation *)

(** The values under the name, in order; a trailing name counts without a value. *)
Fixpoint occurrences (name : jsstr) (rawHeaders : list jsstr) : list (option jsstr) :=
  match rawHeaders with
  | [] => []
  | [n] => if jsstr_eqb (to_lower n) name then [None] else []
  | n :: v :: rest => (if jsstr_eqb (to_lower n) name then [Some v] else []) ++ occurrences name rest
  end.

Lemma pairs_ind (Pl : list jsstr → Prop) :
  Pl [] → (∀ n, Pl [n]) → (∀ n v rest, Pl rest → Pl (n :: v :: rest)) → ∀ l, Pl l.
Proof.
  intros H0 H1 H2 l. assert (Pl l ∧ ∀ n, Pl (n :: l)) as [? _]; [|done].
  induction l as [|v l [IH1 IH2]]; split; auto.
Qed.

Lemma read_raw_one name raw v :
  read_raw name raw 1 v =
    mkRawHeader (match occurrences name raw with [] => 1 | _ => 2 end) v.
Proof.
  induction raw as [|n|n w rest IH] using pairs_ind; cbn; [done|by case_match|].
  destruct (jsstr_eqb (to_lower n) name); cbn; [done|apply IH].
Qed.

Lemma read_raw_zero name raw :
  read_raw name raw 0 None =
    match occurrences name raw with
    | [] => mkRawHeader 0 None
    | [v] => mkRawHeader 1 v
    | v :: _ => mkRawHeader 2 v
    end.
Proof.
  induction raw as [|n|n w rest IH] using pairs_ind; cbn; [done|by case_match|].
  destruct (jsstr_eqb (to_lower n) name); cbn; [|apply IH]. rewrite read_raw_one.
  by destruct (occurrences name rest).
Qed.

Lemma compact_parts value : compact_pattern value = true ↔
  ∃ a b c, value = a ++ [46] ++ b ++ [46] ++ c ∧ a ≠ [] ∧ b ≠ [] ∧ c ≠ []
    ∧ all_units name_unit a = true ∧ all_units name_unit b = true ∧ all_units name_unit c = true.
Proof.
  unfold compact_pattern. split.
  - pose proof (join_split 46 value) as Hs. destruct (split_on 46 value) as [|a [|b [|c [|]]]]; try done.
    cbn [forallb]. rewrite andb_true_r. intros H. bool_prop.
    repeat match goal with H : (_ =? 0)%nat = false |- _ => apply Nat.eqb_neq in H end.
    exists a, b, c. split_and!; try done; by intros ->.
  - intros (a & b & c & -> & Ha & Hb & Hc & Hua & Hub & Huc).
    change (a ++ [46] ++ b ++ [46] ++ c) with (a ++ 46 :: b ++ 46 :: c).
    rewrite !split_on_app, split_on_none by by apply units_no_dot. cbn [forallb].
    rewrite Hua, Hub, Huc. by destruct a, b, c.
Qed.

(** A proof is taken from the raw headers exactly when the header occurs once, whatever its
    letter case, with three nonempty base64url segments within the byte bound; it is
    absent exactly when the header does not occur; anything else is refused. *)
Theorem single_presentation (rawHeaders : list jsstr) (name : jsstr) (o : option jsstr) :
  extractDpopProof (readDpopRawHeader rawHeaders name) = Ok o ↔
  match o with
  | None => occurrences (to_lower name) rawHeaders = []
  | Some value =>
      occurrences (to_lower name) rawHeaders = [Some value]
      ∧ Z.of_nat (length value) <= DPOP_PROOF_MAX_BYTES ∧ compact_pattern value = true
  end.
Proof.
  unfold readDpopRawHeader. rewrite read_raw_zero.
  destruct (occurrences (to_lower name) rawHeaders) as [|v [|w l]]; unfold extractDpopProof; cbn [rh_count rh_value Nat.eqb].
  - destruct o; split; try done. by intros [? _].
  - destruct v as [value|]; [|split; [done|]; by destruct o as [|]; [intros [? _]|]]. split.
    + intros H. apply res_bind_Ok in H as (_ & Hg%guard_Ok & [= <-]). bool_prop. done.
    + destruct o as [value'|]; [|done]. intros ([= <-] & Hl & Hp).
      rewrite Hp, (proj2 (Z.leb_le _ _)) by done. by destruct value.
  - split; [done|]. by destruct o; [intros [? _]|].
Qed.

(** * RSA parameters as integers *)

(** The unsigned big-endian integer. *)
Definition be_value (bs : list Z) : Z := fold_left (λ a b, a * 256 + b) bs 0.

Lemma be_app_one bs b : be_value (bs ++ [b]) = be_value bs * 256 + b.
Proof. unfold be_value. by rewrite fold_left_app. Qed.

Lemma be_cons b bs : be_value (b :: bs) = b * 256 ^ Z.of_nat (length bs) + be_value bs.
Proof.
  induction bs as [|c bs IH] using rev_ind; [cbn; lia|].
  change (b :: bs ++ [c]) with ((b :: bs) ++ [c]). rewrite !be_app_one, IH, length_app. cbn [length].
  rewrite Nat.add_1_r, Nat2Z.inj_succ, Z.pow_succ_r by lia. ring.
Qed.

Lemma be_range bs : bytes_ok bs → 0 <= be_value bs < 256 ^ Z.of_nat (length bs).
Proof.
  induction bs as [|b bs IH]; [done|]. intros [Hb Hbs]%Forall_cons. specialize (IH Hbs).
  rewrite be_cons. cbn [length]. rewrite Nat2Z.inj_succ, Z.pow_succ_r by lia. unfold byte_ok in Hb. nia.
Qed.

Lemma be_bits bs : bytes_ok bs → hd 0 bs ≠ 0 →
  0 < be_value bs ∧ (Z.of_nat (length bs) - 1) * 8 + byte_bits (hd 0 bs) = Z.log2 (be_value bs) + 1.
Proof.
  destruct bs as [|b bs]; [done|]. intros [Hb Hbs]%Forall_cons Hne. cbn [hd] in *. unfold byte_ok in Hb.
  pose proof (be_range bs Hbs) as Hr. rewrite be_cons. cbn [length]. set (n := Z.of_nat (length bs)) in *.
  assert (0 <= n) as Hn by lia. assert (256 ^ n = 2 ^ (8 * n)) as E by (rewrite Z.pow_mul_r by lia; done).
  rewrite E in *. assert (0 < 2 ^ (8 * n)) by (apply Z.pow_pos_nonneg; lia). split; [nia|].
  unfold byte_bits. rewrite (proj2 (Z.eqb_neq b 0)) by done.
  assert (Z.log2 (b * 2 ^ (8 * n) + be_value bs) = 8 * n + Z.log2 b) as ->; [|lia].
  pose proof (Z.log2_spec b ltac:(lia)) as [Hl1 Hl2]. pose proof (Z.log2_nonneg b).
  apply Z.log2_unique; [lia|]. split.
  - rewrite Z.pow_add_r by lia. nia.
  - replace (Z.succ (8 * n + Z.log2 b)) with (8 * n + Z.succ (Z.log2 b)) by lia. rewrite Z.pow_add_r by lia. nia.
Qed.

Lemma be_odd bs : Z.land (List.last bs 0) 1 = 0 ↔ Z.odd (be_value bs) = false.
Proof.
  assert (∀ x, Z.land x 1 = 0 ↔ Z.odd x = false) as Hl.
  { intros x. change 1 with (Z.ones 1). rewrite Z.land_ones by lia. change (2 ^ 1) with 2.
    rewrite Zmod_odd. by destruct (Z.odd x). }
  destruct bs as [|b bs _] using rev_ind; [done|]. rewrite last_last, be_app_one, Hl.
  by rewrite Z.odd_add, Z.odd_mul, andb_false_r.
Qed.

Lemma bytes_ge_spec a b : length a = length b → bytes_ok a → bytes_ok b →
  bytes_ge a b = (be_value b <=? be_value a).
Proof.
  revert b. induction a as [|x a IH]; intros [|y b] Hl Ha Hb; try done. cbn [length] in Hl.
  apply Forall_cons in Ha as [Hx Ha], Hb as [Hy Hb]. injection Hl as Hl. cbn [bytes_ge].
  rewrite !be_cons, Hl, IH by done. pose proof (be_range a Ha) as Hra. pose proof (be_range b Hb) as Hrb.
  rewrite Hl in Hra. set (p := 256 ^ Z.of_nat (length b)) in *. destruct (Z.eqb_spec x y) as [->|Hne].
  - apply eq_true_iff_eq. rewrite !Z.leb_le. lia.
  - apply eq_true_iff_eq. rewrite Z.ltb_lt, Z.leb_le. unfold byte_ok in *. nia.
Qed.

(** The checks on an RSA key are checks on its integers: no leading zero byte, a modulus of
    2048 to 4096 bits, and an odd exponent from 3 to below the modulus. *)
Theorem rsa_exact (modulus exponent : list Z) :
  bytes_ok modulus → bytes_ok exponent → modulus ≠ [] → exponent ≠ [] →
  rsa_ok modulus exponent = true ↔
  hd 0 modulus ≠ 0 ∧ hd 0 exponent ≠ 0
  ∧ 2 ^ 2047 <= be_value modulus < 2 ^ 4096
  ∧ Z.odd (be_value exponent) = true ∧ 3 <= be_value exponent < be_value modulus.
Proof.
  intros Hm He Hmne Hene. unfold rsa_ok. cbv zeta. rewrite negb_true_iff, !orb_false_iff, !Z.eqb_neq.
  assert (∀ P Q R S T : Prop, (P → Q → (R ↔ S)) → (P ∧ Q ∧ R ↔ P ∧ Q ∧ S)) as Hc by tauto.
  transitivity (hd 0 modulus ≠ 0 ∧ hd 0 exponent ≠ 0 ∧
    ((Z.of_nat (length modulus) - 1) * 8 + byte_bits (hd 0 modulus) <? 2048) = false
    ∧ (4096 <? (Z.of_nat (length modulus) - 1) * 8 + byte_bits (hd 0 modulus)) = false
    ∧ Z.land (List.last exponent 0) 1 ≠ 0 ∧ ((length exponent =? 1)%nat && (hd 0 exponent <? 3)) = false
    ∧ (length modulus <? length exponent)%nat = false
    ∧ ((length exponent =? length modulus)%nat && bytes_ge exponent modulus) = false); [tauto|].
  apply Hc; [exact True|]. intros H1 H2. destruct (be_bits modulus Hm H1) as [Hmp ->].
  destruct (be_bits exponent He H2) as [Hep _]. rewrite Z.ltb_ge, Z.ltb_ge, be_odd, not_false_iff_true.
  pose proof (Z.log2_spec _ Hmp) as [HL1 HL2]. set (L := Z.log2 (be_value modulus)) in *.
  assert (2048 <= L + 1 ↔ 2 ^ 2047 <= be_value modulus) as ->.
  { split; intros H; [etrans; [|exact HL1]; apply Z.pow_le_mono_r; lia|].
    assert (2047 < Z.succ L); [|lia]. apply (Z.pow_lt_mono_r_iff 2); [lia|unfold L; pose proof (Z.log2_nonneg (be_value modulus)); lia|lia]. }
  assert (L + 1 <= 4096 ↔ be_value modulus < 2 ^ 4096) as ->.
  { split; intros H; [eapply Z.lt_le_trans; [exact HL2|]; apply Z.pow_le_mono_r; lia|].
    assert (L < 4096); [|lia]. apply (Z.pow_lt_mono_r_iff 2); lia. }
  assert ((length exponent =? 1)%nat && (hd 0 exponent <? 3) = false ↔ 3 <= be_value exponent) as ->.
  { destruct exponent as [|x [|y exponent]]; [done|..].
    - cbn. rewrite Z.ltb_ge. done.
    - split; [intros _|done]. cbn [hd] in H2. rewrite be_cons. apply Forall_cons in He as [Hx He].
      pose proof (be_range _ He) as Hr. cbn [length] in *.
      assert (256 ^ 1 <= 256 ^ Z.of_nat (S (length exponent))) by (apply Z.pow_le_mono_r; lia). unfold byte_ok in Hx. nia. }
  assert ((length modulus <? length exponent)%nat = false
    ∧ (length exponent =? length modulus)%nat && bytes_ge exponent modulus = false
    ↔ be_value exponent < be_value modulus) as Hlt; [|tauto].
  pose proof (be_range modulus Hm) as Hrm. pose proof (be_range exponent He) as Hre.
  destruct (lt_eq_lt_dec (length exponent) (length modulus)) as [[Hl|Hl]|Hl].
  - rewrite (proj2 (Nat.ltb_ge _ _)), (proj2 (Nat.eqb_neq _ _)) by lia. split; [intros _|done].
    destruct modulus as [|x modulus]; [done|]. rewrite be_cons. cbn [hd length] in *. apply Forall_cons in Hm as [Hx Hm].
    pose proof (be_range _ Hm). assert (256 ^ Z.of_nat (length exponent) <= 256 ^ Z.of_nat (length modulus))
      by (apply Z.pow_le_mono_r; lia). unfold byte_ok in Hx. nia.
  - rewrite (proj2 (Nat.ltb_ge _ _)), Hl, Nat.eqb_refl by lia. rewrite bytes_ge_spec by done. cbn [andb].
    rewrite Z.leb_gt. tauto.
  - rewrite (proj2 (Nat.ltb_lt _ _)) by lia. split; [by intros [? _]|]. intros Hlt. exfalso.
    destruct exponent as [|x exponent]; [done|]. rewrite be_cons in Hlt. cbn [hd length] in *. apply Forall_cons in He as [Hx He].
    pose proof (be_range _ He). assert (256 ^ Z.of_nat (length modulus) <= 256 ^ Z.of_nat (length exponent))
      by (apply Z.pow_le_mono_r; lia). unfold byte_ok in Hx. nia.
Qed.

(** * Verified proofs *)

Section verified.
Variable parse_url : jsstr → option URL.
Variable sha256 : list Z → list Z.
Variable jws_verify : list (jsstr * jsval) → DpopAlgorithm → jsstr → option (list Z).
Variable thumbprint : list (jsstr * jsval) → jsstr.
Notation verifyProof := (verifyDpopProof parse_url sha256 jws_verify thumbprint).

Lemma decode_bounded value m bytes :
  decodeBounded value m = Ok bytes → value = base64urlEncode bytes ∧ bytes_ok bytes ∧ Z.of_nat (length bytes) <= m.
Proof.
  unfold decodeBounded. cbv zeta. intros H. res_inv. bool_prop. split_and!; [|apply buffer_base64url_bytes|done].
  symmetry. by apply jsstr_eqb_true.
Qed.

(** What a verified proof has established. *)
Record proof_verified (input : ProofInput) (r : ProofResult) (header claims jwk : list (jsstr * jsval)) : Prop := {
  pv_header : ∃ h p s, split_on 46 (pi_proof input) = [h; p; s]
    ∧ (∃ bytes, bytes_ok bytes ∧ h = base64urlEncode bytes ∧ parseObject bytes = Ok header)
    ∧ ∃ payload, jws_verify jwk (po_alg r) (pi_proof input) = Some payload ∧ parseObject payload = Ok claims;
  pv_algorithm : dpop_algorithm (get_field (JObj true header) (js "alg")) = Some (po_alg r)
    ∧ po_alg r ∈ db_algorithms (pi_options input);
  pv_extensions : ∀ k, k ∈ FORBIDDEN_HEADERS → k ∉ map fst header;
  pv_key : publicJwk (get_field (JObj true header) (js "jwk")) (po_alg r) = Ok jwk;
  pv_thumbprint : po_jkt r = thumbprint jwk;
  pv_expected : ∀ jkt, pi_expectedJkt input = Some jkt → po_jkt r = jkt;
  pv_claims : get_field (JObj true claims) (js "iat") = JNum (po_iat r)
    ∧ is_Some (epoch_ms (JNum (po_iat r)))
    ∧ get_field (JObj true claims) (js "jti") = JStr (po_jti r) ∧ isPrintableIdentifier (JStr (po_jti r)) = true
    ∧ get_field (JObj true claims) (js "nonce") = po_nonce r;
  pv_target : db_ignoreTargetFailure (pi_options input) = false →
    get_field (JObj true claims) (js "htm") = JStr (pi_method input)
    ∧ ∃ t, pi_target input = Ok t ∧ normalizeDpopProofTarget parse_url (get_field (JObj true claims) (js "htu")) = Ok t;
  pv_token : ∀ token, pi_accessToken input = Some token →
    get_field (JObj true claims) (js "ath") = JStr (base64urlEncode (sha256 (buffer_of_ascii token)))
}.

Lemma check_target_ok input claims :
  check_target parse_url input claims = Ok tt → db_ignoreTargetFailure (pi_options input) = false →
  get_field claims (js "htm") = JStr (pi_method input)
  ∧ ∃ t, pi_target input = Ok t ∧ normalizeDpopProofTarget parse_url (get_field claims (js "htu")) = Ok t.
Proof.
  unfold check_target. intros H Hig. rewrite Hig in H. cbv zeta in H.
  destruct (res_bind (pi_target input) _) as [u|] eqn:E; [|done].
  apply res_bind_Ok in E as (t & Ht & E). apply res_bind_Ok in E as (_ & Hm%guard_Ok & E).
  apply res_bind_Ok in E as (t' & Hn & E). apply guard_Ok, jsstr_eqb_true in E. subst t'.
  apply andb_true_iff in Hm as [Hm%strict_eq_string _]. eauto.
Qed.

Lemma check_claims_ok claims iat jti :
  check_claims claims = Ok (iat, jti) →
  get_field claims (js "iat") = JNum iat ∧ is_Some (epoch_ms (JNum iat))
  ∧ get_field claims (js "jti") = JStr jti ∧ isPrintableIdentifier (JStr jti) = true.
Proof.
  unfold check_claims. cbv zeta. destruct (get_field claims (js "iat")) as [| | |n| | | | |]; try discriminate.
  destruct (get_field claims (js "jti")) as [| | | |j| | | |]; try discriminate.
  intros H. apply res_bind_Ok in H as (_ & Hg%guard_Ok & [= <- <-]). apply andb_true_iff in Hg as [Hs%bool_decide_eq_true Hp].
  done.
Qed.

Lemma check_header_ok algorithms header alg jwk :
  check_header algorithms header = Ok (alg, jwk) →
  dpop_algorithm (get_field (JObj true header) (js "alg")) = Some alg ∧ alg ∈ algorithms
  ∧ (∀ k, k ∈ FORBIDDEN_HEADERS → k ∉ map fst header)
  ∧ publicJwk (get_field (JObj true header) (js "jwk")) alg = Ok jwk.
Proof.
  unfold check_header. cbv zeta. destruct (dpop_algorithm _) as [a|]; [|done].
  intros H. apply res_bind_Ok in H as (_ & Hg%guard_Ok & H). apply res_bind_Ok in H as (k & Hk & [= <- <-]).
  apply andb_true_iff in Hg as [Hg Hf]. apply andb_true_iff in Hg as [_ Ha%bool_decide_eq_true].
  split_and!; try done. apply negb_true_iff in Hf. intros x Hx Hin. apply not_true_iff_false in Hf. apply Hf.
  apply existsb_exists. exists x. split; [by apply list_elem_of_In|by apply bool_decide_eq_true].
Qed.

Lemma verified_inv input r :
  verifyProof input = Ok r → ∃ header claims jwk, proof_verified input r header claims jwk.
Proof.
  unfold verifyDpopProof. intros H.
  apply res_bind_Ok in H as (presented & Hx & H). 
  assert (compact_pattern (pi_proof input) = true) as Hc.
  { unfold extractDpopProof in Hx. cbn [rh_count rh_value Nat.eqb] in Hx.
    apply res_bind_Ok in Hx as (_ & Hg%guard_Ok & _). by apply andb_true_iff in Hg as [_ ?]. }
  unfold compact_pattern in Hc. destruct (split_on 46 (pi_proof input)) as [|h [|p [|s [|]]]] eqn:Hs; try done. clear Hc Hx.
  apply res_bind_Ok in H as (hb & (Hh & Hhb & _)%decode_bounded & H). apply res_bind_Ok in H as (header & Hheader & H).
  apply res_bind_Ok in H as (_ & _ & H). apply res_bind_Ok in H as (sg & _ & H).
  apply res_bind_Ok in H as ([alg jwk] & Hhead%check_header_ok & H). apply res_bind_Ok in H as (n & _ & H).
  apply res_bind_Ok in H as (_ & _ & H). apply res_bind_Ok in H as (payload & Hpay & H).
  apply res_bind_Ok in H as (claims & Hclaims & H). apply res_bind_Ok in H as ([iat jti] & Hst%check_claims_ok & H).
  apply res_bind_Ok in H as ([] & Ht & H). apply res_bind_Ok in H as (_ & _ & H).
  apply res_bind_Ok in H as ([] & Hath & H). apply res_bind_Ok in H as (_ & Hexp%guard_Ok & [= <-]).
  destruct (jws_verify jwk alg (pi_proof input)) as [pl|] eqn:Hjws; [injection Hpay as ->|done].
  destruct Hhead as (Ha & Hin & Hf & Hk). destruct Hst as (Hi & Hi' & Hj & Hj').
  exists header, claims, jwk. split; cbn [po_jkt po_alg po_iat po_jti po_nonce fst snd]; try done.
  - exists h, p, s. split; [done|]. split; [by exists hb|]. by exists payload.
  - intros jkt Hjkt. rewrite Hjkt in Hexp. apply andb_true_iff in Hexp as [_ He]. by apply jsstr_eqb_true.
  - by apply check_target_ok.
  - intros token Htok. unfold check_token_hash in Hath. rewrite Htok in Hath. apply guard_Ok in Hath.
    apply andb_true_iff in Hath as [_ He]. by apply strict_eq_string.
Qed.


Lemma verified_same i1 i2 r1 r2 h1 h2 c1 c2 k1 k2 :
  pi_proof i1 = pi_proof i2 → proof_verified i1 r1 h1 c1 k1 → proof_verified i2 r2 h2 c2 k2 → r1 = r2.
Proof.
  intros Hp [(x1 & p1 & s1 & Hs1 & (b1 & Hb1 & -> & Hh1) & pl1 & Hj1 & Hc1) [Ha1 _] _ Hk1 Ht1 _ (Hi1 & _ & Hjt1 & _ & Hn1) _ _]
    [(x2 & p2 & s2 & Hs2 & (b2 & Hb2 & -> & Hh2) & pl2 & Hj2 & Hc2) [Ha2 _] _ Hk2 Ht2 _ (Hi2 & _ & Hjt2 & _ & Hn2) _ _].
  rewrite Hp, Hs2 in Hs1. injection Hs1 as He _ _. apply (f_equal buffer_of_base64url) in He.
  rewrite !buffer_of_encode in He by done. subst b2. rewrite Hh1 in Hh2. injection Hh2 as <-.
  rewrite Ha1 in Ha2. injection Ha2 as Halg. rewrite <- Halg in *. rewrite Hk1 in Hk2. injection Hk2 as <-.
  rewrite Hp, Hj2 in Hj1. injection Hj1 as <-. rewrite Hc2 in Hc1. injection Hc1 as <-.
  rewrite Hi1 in Hi2. rewrite Hjt1 in Hjt2. rewrite Hn1 in Hn2. injection Hi2 as Hi. injection Hjt2 as Hj.
  destruct r1, r2; cbn in *. congruence.
Qed.

(** The result, as the object the verifier callback returns. *)
Definition result_value (r : ProofResult) : jsval :=
  JObj true ([(js "binding", JObj true [(js "type", JStr (js "dpop")); (js "jkt", JStr (po_jkt r));
                                        (js "alg", JStr (algorithm_name (po_alg r)))]);
              (js "iat", JNum (po_iat r)); (js "jti", JStr (po_jti r))]
             ++ match po_nonce r with JUndef => [] | n => [(js "nonce", n)] end).

Lemma result_candidate o r c : check_candidate o (result_value r) = Ok c → pc_jkt c = po_jkt r.
Proof.
  intros Hc. apply candidate_checked in Hc as (_ & _ & _ & _ & Hj & _). cbn in Hj. by injection Hj.
Qed.

(** C3: Where neither [ignoreReplayFailure] nor [ignoreFreshnessFailure] is set, as by default, a signed proof is
    accepted at most once, ever: not for another request, method, target or
    token, by no instance that shares the store, the protection space and the windows,
    whatever the policy clocks read and whatever else is reserved in between, as long as the
    store's own clock does not go back. (With [ignoreReplayFailure] a duplicate is let through by design, with
    [ignoreFreshnessFailure] a proof whose reservation has expired.) *)
Theorem proof_accepted_once (hmac_sha256 : list Z → list Z → list Z) {St : Type} `{ReplayStoreLaws St}
    (p1 p2 : ReplayPolicy) (i1 i2 : ProofInput) (r1 r2 : ProofResult) (env1 env2 : ReplayEnv)
    (mid : list (jsstr * num * num)) (st st1 : St) (b : VerifiedBinding) (e : num) :
  rs_ok st →
  rp_namespace p1 = rp_namespace p2 →
  db_proofMaxAgeSeconds (rp_options p1) = db_proofMaxAgeSeconds (rp_options p2) →
  db_clockSkewSeconds (rp_options p1) = db_clockSkewSeconds (rp_options p2) →
  db_ignoreReplayFailure (rp_options p1) = false → db_ignoreReplayFailure (rp_options p2) = false →
  db_ignoreFreshnessFailure (rp_options p1) = false → db_ignoreFreshnessFailure (rp_options p2) = false →
  pi_proof i1 = pi_proof i2 → verifyProof i1 = Ok r1 → verifyProof i2 = Ok r2 →
  en_verified env1 = Ok (result_value r1) → en_verified env2 = Ok (result_value r2) →
  verifyAndReserve sha256 hmac_sha256 p1 env1 st = (Ok (Accepted b e), st1) →
  Forall (λ c, num_le c.2 (en_store_clock env2) = true) mid →
  ∀ b' e', (verifyAndReserve sha256 hmac_sha256 p2 env2 (reserve_run mid st1)).1 ≠ Ok (Accepted b' e').
Proof.
  intros Hok Hns Ha Hk Hr1 Hr2 Hf1 Hf2 Hp H1 H2 He1 He2 Hacc Hmid.
  apply verified_inv in H1 as (h1 & c1 & k1 & H1), H2 as (h2 & c2 & k2 & H2).
  assert (r1 = r2) as -> by by eapply verified_same.
  by apply (accepted_once sha256 hmac_sha256 p1 p2 env1 env2 (result_value r2) mid st st1 b e).
Qed.
End verified.

(** * Concrete instances *)

Definition example_jws (jwk : list (jsstr * jsval)) (alg : DpopAlgorithm) (proof : jsstr) : option (list Z) :=
  match split_on 46 proof with [_; p; _] => Some (buffer_of_base64url p) | _ => None end.
Definition example_thumbprint (jwk : list (jsstr * jsval)) : jsstr := example_jkt.
Definition example_coordinate : jsval := JStr (base64urlEncode (repeat 5 32)).
Definition example_header_value : jsval :=
  JObj true [(js "typ", JStr (js "dpop+jwt")); (js "alg", JStr (js "ES256"));
             (js "jwk", JObj true [(js "kty", JStr (js "EC")); (js "crv", JStr (js "P-256"));
                                   (js "x", example_coordinate); (js "y", example_coordinate)])].
Definition example_claims (token : jsstr) : jsval :=
  JObj true [(js "htm", JStr (js "GET")); (js "htu", JStr (js "https://api.example.com/v1/a?q"));
             (js "iat", JNum (num_of_Z 1000)); (js "jti", JStr (js "proof-1"));
             (js "ath", JStr (base64urlEncode (toy_hash (buffer_of_ascii token))))].
Definition segment (v : jsval) : jsstr := base64urlEncode (utf8_encode (json_text v)).
Definition example_proof : jsstr :=
  segment example_header_value ++ [46] ++ segment (example_claims (js "token")) ++ [46]
  ++ base64urlEncode (repeat 1 64).
Definition example_input : ProofInput :=
  mkProofInput example_proof (js "GET") (Ok (js "https://api.example.com/v1/a")) example_options
    (Some example_jkt) (Some (js "token")).
Definition example_result : ProofResult := mkProofResult example_jkt ES256 (num_of_Z 1000) (js "proof-1") JUndef.

Definition example_verify : ores ProofResult :=
  verifyDpopProof example_target_parser toy_hash example_jws example_thumbprint example_input.

Example example_verifies : example_verify = Ok example_result.
Proof. vm_compute. reflexivity. Qed.


Definition example_request_env (now clock : Z) : ReplayEnv :=
  mkEnv (Ok (result_value example_result)) (Some (num_of_Z now)) (num_of_Z 0) (repeat 3 16) (num_of_Z clock).
Definition example_admission : ores ReplayResult * HeapState Z :=
  verifyAndReserve (St := HeapState Z) (H := memory_replay_store 10) toy_hash toy_hmac example_replay_policy
    (example_request_env 1004000 1004001) empty_heap.

Lemma proof_accepted_once_witness :
  (verifyAndReserve (St := HeapState Z) (H := memory_replay_store 10) toy_hash toy_hmac example_replay_policy
     (example_request_env 1006000 1006000) example_admission.2).1 ≠ Ok example_accepted.
Proof.
  apply (proof_accepted_once (H0 := memory_replay_laws 10) example_target_parser toy_hash example_jws
    example_thumbprint toy_hmac example_replay_policy example_replay_policy example_input example_input
    example_result example_result (example_request_env 1004000 1004001) (example_request_env 1006000 1006000)
    [] empty_heap example_admission.2 (mkVerified example_jkt ES256) (num_of_Z 1065000));
    try match goal with |- _ = _ => vm_compute; reflexivity end.
  - apply memory_empty_ok.
  - constructor.
Defined.

Lemma rsa_exact_witness :
  rsa_ok (repeat 255 256) [1; 0; 1] = true.
Proof.
  apply rsa_exact; [repeat constructor; done|repeat constructor; done|discriminate|discriminate|].
  split_and!; vm_compute; done.
Defined.
