(* ===== verification/ApiAccessToken.v ===== *)
(** express-oidc-vault: the credentials an API presents and reports
    ([access-token-confirmation.ts], the parsers and the error responses of
    [access-token-middleware.ts]) and the local JWT validator of [token-validation.ts].

    [jwtVerify] of jose is a parameter; what it throws carries whether it is one of the
    errors the validator marks as a rejected credential. *)

From S2P Require Import Prelude JsValue JsJson AttestTypes AttestCanonical JsBuffer VaultBinding DpopNonce DpopPolicy DpopReplay DpopChallenge DpopProof.

(** * access-token-confirmation.ts *)

Definition invalidAccessToken (diagnostic : jsstr) : oidc_error :=
  OidcVaultHttpError 401 (js "OIDC_VAULT_INVALID_ACCESS_TOKEN") diagnostic (js "Access token validation failed.").

(** The thumbprint of the frozen snapshot. *)
Definition snapshotJkt (value : jsval) (invalid : jsstr → oidc_error) : ores jsstr :=
  guard (is_non_array_object value) (invalid (js "Access token confirmation must be a plain jkt object.")) ;;;
  match value with
  | JObj true [(name, jkt)] =>
      guard (jsstr_eqb name (js "jkt")) (invalid (js "Access token confirmation contains unsupported fields.")) ;;;
      match jkt with
      | JStr s =>
          guard (isCanonicalDpopJkt (JStr s))
            (invalid (js "Access token confirmation is not a canonical SHA-256 thumbprint.")) ;;;
          Ok s
      | _ => Err (invalid (js "Access token confirmation is not a canonical SHA-256 thumbprint."))
      end
  | _ => Err (invalid (js "Access token confirmation contains unsupported fields."))
  end.

Definition isCompactSignedJwt (token : jsstr) : bool :=
  let parts := split_on 46 token in
  (length parts =? 3)%nat
  && forallb (λ part, negb (length part =? 0)%nat && all_units name_unit part
                      && jsstr_eqb (base64urlEncode (buffer_of_base64url part)) part) parts.

Definition readJwtExpirationMs (exp : jsval) : option num :=
  match exp with
  | JNum n =>
      if bool_decide (is_Some (epoch_ms exp)) then
        let milliseconds := num_mul n (num_of_Z 1000) in
        if bool_decide (is_Some (safe_integer milliseconds)) then Some milliseconds else None
      else None
  | _ => None
  end.

(** [None] is [null]. *)
Definition snapshotVerifiedJwtConfirmation (claims : list (jsstr * jsval)) : ores (option jsstr) :=
  match field_lookup claims (js "cnf") with
  | Some cnf => let* jkt := snapshotJkt cnf invalidAccessToken in Ok (Some jkt)
  | None => Ok None
  end.

Definition snapshotAccessTokenConfirmation (value : jsval) : ores (option jsstr) :=
  match value with
  | JNull => Ok None
  | _ => let* jkt := snapshotJkt value invalidAccessToken in Ok (Some jkt)
  end.

(** * Authorization headers *)

(** [s.split(/\s+/)] *)
Fixpoint split_space (in_space : bool) (piece : jsstr) (s : jsstr) : list jsstr :=
  match s with
  | [] => [piece]
  | c :: s =>
      if is_space c
      then if in_space then split_space true piece s else piece :: split_space true [] s
      else split_space false (piece ++ [c]) s
  end.
Definition words (s : jsstr) : list jsstr := split_space false [] s.

Inductive Scheme := Bearer | DPoP.
#[export] Instance Scheme_eq_dec : EqDecision Scheme.
Proof. solve_decision. Defined.

Definition missingBearer : oidc_error :=
  OidcVaultHttpError 401 (js "OIDC_VAULT_MISSING_BEARER_TOKEN") (js "Missing bearer token.") (js "Missing bearer token.").
Definition invalidAuthorization (message : jsstr) : oidc_error :=
  OidcVaultHttpError 401 (js "OIDC_VAULT_INVALID_AUTHORIZATION_HEADER") message message.

(** [/^[\x21-\x7e]+$/] without a comma *)
Definition credential_ok (token : jsstr) : bool := token_pattern token && negb (includes_char 44 token).

Definition extractBearerToken (authorizationHeader : option jsstr) : ores jsstr :=
  match authorizationHeader with
  | None | Some [] => Err missingBearer
  | Some header =>
      let error := invalidAuthorization (js "Authorization header must use the Bearer scheme.") in
      match words (trim header) with
      | scheme :: token :: rest =>
          guard (jsstr_eqb (to_lower scheme) (js "bearer") && match rest with [] | [] :: _ => true | _ => false end
                 && credential_ok token) error ;;;
          Ok token
      | _ => Err error
      end
  end.

Definition schemeOf (value : option jsstr) : option Scheme :=
  match words (trim (default [] value)) with
  | scheme :: _ =>
      if jsstr_eqb (to_lower scheme) (js "bearer") then Some Bearer
      else if jsstr_eqb (to_lower scheme) (js "dpop") then Some DPoP else None
  | [] => None
  end.

(** The credential of a policy-bound API: exactly one header, of one scheme and one token. *)
Definition read_credential (authorization : DpopRawHeader) : ores (Scheme * jsstr) :=
  let error := invalidAuthorization (js "Authorization header must use one Bearer or DPoP credential.") in
  guard (negb (rh_count authorization =? 0)%nat)
    (OidcVaultHttpError 401 (js "OIDC_VAULT_MISSING_ACCESS_TOKEN") (js "Missing access token.") (js "Missing access token.")) ;;;
  guard (rh_count authorization =? 1)%nat error ;;;
  match schemeOf (rh_value authorization), words (trim (default [] (rh_value authorization))) with
  | Some scheme, [_; token] => guard (credential_ok token) error ;;; Ok (scheme, token)
  | _, _ => Err error
  end.

(** * Error responses *)

Definition dpopChallenge (algorithms : list DpopAlgorithm) (error : option jsstr) : jsstr :=
  js "DPoP" ++ match error with Some e => js " error=" ++ quoted e ++ js "," | None => [] end
  ++ js " algs=" ++ quoted (join_with 32 (map algorithm_name algorithms)).

Definition code_of (error : oidc_error) : option jsstr :=
  match error with OidcVaultHttpError _ code _ _ => Some code | _ => None end.

(** The challenge of a 401 that has none yet. *)
Definition deny_challenge (policy : option ResolvedDeviceBindingOptions) (code : jsstr) (scheme : option Scheme) : jsstr :=
  let code_is s := jsstr_eqb code (js s) in
  let algorithms := match policy with Some o => db_algorithms o | None => [ES256] end in
  if code_is "OIDC_VAULT_DPOP_REQUIRED"%string || code_is "OIDC_VAULT_INVALID_DPOP_PROOF"%string
  then dpopChallenge algorithms (Some (js "invalid_dpop_proof"))
  else
    match policy with
    | None => js "Bearer"
    | Some o =>
        let required := bool_decide (db_mode o = Required) in
        if code_is "OIDC_VAULT_MISSING_ACCESS_TOKEN"%string || code_is "OIDC_VAULT_AUTHENTICATION_REQUIRED"%string
        then if required then dpopChallenge algorithms None else js "Bearer, " ++ dpopChallenge algorithms None
        else if bool_decide (scheme = Some DPoP) || (bool_decide (scheme = None) && required)
        then dpopChallenge algorithms (Some (js "invalid_token"))
        else js "Bearer error=" ++ quoted (js "invalid_token")
    end.

Definition prepareError (policy : option ResolvedDeviceBindingOptions) (error : oidc_error)
    (scheme : option Scheme) (nonceResponse : option DpopPolicyResponse) (hookFailure : bool) : ores DpopPolicyResponse :=
  let algorithms := match policy with Some o => db_algorithms o | None => [ES256] end in
  let* response :=
    match nonceResponse, error with
    | Some r, _ => Ok r
    | None, OidcVaultHttpError _ _ _ _ => toDpopReplayErrorResponse error algorithms
    | None, _ =>
        let no_store := [(js "Cache-Control", js "no-store")] in
        Ok (if hookFailure
            then mkResponse 500 (js "OIDC_VAULT_AUTH_CONTEXT_FAILED") (js "Auth context hook failed.") no_store
            else mkResponse 401 (js "OIDC_VAULT_INVALID_ACCESS_TOKEN") (js "Access token validation failed.") no_store)
    end in
  Ok (mkResponse (pr_status response) (pr_code response) (pr_message response)
        (if (pr_status response =? 401) && negb (bool_decide (is_Some (field_lookup (pr_headers response) (js "WWW-Authenticate"))))
         then pr_headers response ++ [(js "WWW-Authenticate", deny_challenge policy (pr_code response) scheme)]
         else pr_headers response)).

(** * The local JWT validator *)

Record JwtFailure := mkJwtFailure {
  jf_error : oidc_error;
  jf_credential : bool    (** one of the jose errors that mean a rejected token *)
}.

(** A claims mapper's or a custom validator's result: whether it is a non-array object, and its fields. *)
Record ValidationResult := mkValidation {
  vr_object : bool;
  vr_subject : jsval;
  vr_sessionId : jsval;
  vr_scope : jsval;
  vr_claims : jsval;
  vr_confirmation : jsval
}.

(** What a validator throws, and what [isAccessTokenRejected] answers for it. *)
Record Rejection := mkRejection { rj_error : oidc_error; rj_rejected : bool }.

Definition defaultJwtClaimsMapper (claims : list (jsstr * jsval)) : ores ValidationResult :=
  let value := JObj true claims in
  let string_or_undefined v := match v with JStr _ => v | _ => JUndef end in
  let* subject := getRequiredString (get_field value (js "sub")) (js "JWT access token is missing sub.")
                    (js "OIDC_VAULT_INVALID_ACCESS_TOKEN") 401 in
  Ok (mkValidation true (JStr subject) (string_or_undefined (get_field value (js "sid")))
        (string_or_undefined (get_field value (js "scope"))) value JUndef).

Definition confirmation_value (c : option jsstr) : jsval :=
  match c with Some jkt => JObj true [(js "jkt", JStr jkt)] | None => JNull end.

Definition with_confirmation (r : ValidationResult) (c : option jsstr) : ValidationResult :=
  mkValidation true (vr_subject r) (vr_sessionId r) (vr_scope r) (vr_claims r) (confirmation_value c).

Section jwt.
Variable jwt_verify : jsstr → result JwtFailure (list (jsstr * jsval)).

(** The confirmation of a verified token, with the profile of a bound one. *)
Definition checked_confirmation (token : jsstr) (claims : list (jsstr * jsval)) : ores (option jsstr) :=
  let* confirmation := snapshotVerifiedJwtConfirmation claims in
  match confirmation with
  | None => Ok None
  | Some jkt =>
      guard (isCompactSignedJwt token)
        (invalidAccessToken (js "Bound JWT must use canonical compact signed encoding.")) ;;;
      guard (bool_decide (is_Some (readJwtExpirationMs (get_field (JObj true claims) (js "exp")))))
        (invalidAccessToken (js "Bound JWT exp must be a nonnegative safe integer with safe milliseconds.")) ;;;
      Ok (Some jkt)
  end.

(** [validateJwt(token)]; [mapClaims] is the configured mapper with what it throws. *)
Definition validateJwt (mapClaims : option (list (jsstr * jsval) → ores ValidationResult)) (token : jsstr)
    : result Rejection ValidationResult :=
  match jwt_verify token with
  | Err e => Err (mkRejection (jf_error e) (jf_credential e))
  | Ok claims =>
      let rejected {A} (r : ores A) : result Rejection A := res_catch r (λ e, Err (mkRejection e true)) in
      let* confirmation := rejected (checked_confirmation token claims) in
      match mapClaims with
      | None => let* mapped := rejected (defaultJwtClaimsMapper claims) in Ok (with_confirmation mapped confirmation)
      | Some map => let* mapped := res_catch (map claims) (λ e, Err (mkRejection e false)) in
                    Ok (with_confirmation mapped confirmation)
      end
  end.
End jwt.

(** * Properties *)

(** A policy as [resolveDeviceBindingOptions] leaves it: an allowlist without duplicates. *)
Definition policy_ok (policy : option ResolvedDeviceBindingOptions) : Prop :=
  ∀ o, policy = Some o → db_algorithms o ≠ [] ∧ NoDup (db_algorithms o).

Lemma allowlists algorithms :
  algorithms ≠ [] → NoDup algorithms →
  algorithms ∈ [[ES256]; [PS256]; [RS256]; [ES256; PS256]; [ES256; RS256]; [PS256; ES256]; [PS256; RS256];
                [RS256; ES256]; [RS256; PS256]; [ES256; PS256; RS256]; [ES256; RS256; PS256];
                [PS256; ES256; RS256]; [PS256; RS256; ES256]; [RS256; ES256; PS256]; [RS256; PS256; ES256]].
Proof.
  intros Hne Hnd. assert (length algorithms <= 3)%nat as Hl.
  { change 3%nat with (length [ES256; PS256; RS256]). apply List.NoDup_incl_length.
    - by apply NoDup_ListNoDup.
    - intros [] _; cbn; auto. }
  destruct algorithms as [|a [|b [|c [|d l]]]]; [done|..|cbn in Hl; lia];
    destruct a; try destruct b; try destruct c;
    (apply (bool_decide_unpack _); vm_compute; exact I) ||
    (exfalso; apply (bool_decide_pack _) in Hnd; vm_compute in Hnd; exact Hnd).
Qed.

(** What the client reads: a DPoP error, and whether Bearer's [invalid_token]. *)
Definition client_reading (header : jsstr) : option DpopChallengeError * bool :=
  (readDpopChallengeError (Some header), readBearerChallengeError (Some header)).

Lemma dpop_challenge_read algorithms :
  algorithms ≠ [] → NoDup algorithms →
  client_reading (dpopChallenge algorithms None) = (None, false)
  ∧ client_reading (js "Bearer, " ++ dpopChallenge algorithms None) = (None, false)
  ∧ client_reading (dpopChallenge algorithms (Some (js "invalid_dpop_proof"))) = (None, false)
  ∧ client_reading (dpopChallenge algorithms (Some (js "invalid_token"))) = (Some ClientInvalidToken, false).
Proof.
  intros Hne Hnd. pose proof (allowlists _ Hne Hnd) as Hin. clear Hne Hnd.
  repeat (apply elem_of_cons in Hin as [->|Hin]; [repeat split; vm_compute; reflexivity|]).
  by apply not_elem_of_nil in Hin.
Qed.

(** The codes that say nothing about the token itself. *)
Definition NOT_REFRESHED : list jsstr :=
  map js ["OIDC_VAULT_DPOP_REQUIRED"; "OIDC_VAULT_INVALID_DPOP_PROOF";
          "OIDC_VAULT_MISSING_ACCESS_TOKEN"; "OIDC_VAULT_AUTHENTICATION_REQUIRED"]%string.

(** What a denial tells the client to do, by the error's code and the presented scheme. *)
Definition denial_reading (policy : option ResolvedDeviceBindingOptions) (code : jsstr) (scheme : option Scheme)
    : option DpopChallengeError * bool :=
  match policy with
  | None => (None, false)
  | Some o =>
      if bool_decide (code ∈ NOT_REFRESHED)
      then (None, false)
      else match scheme with
           | Some DPoP => (Some ClientInvalidToken, false)
           | Some Bearer => (None, true)
           | None => if bool_decide (db_mode o = Required) then (Some ClientInvalidToken, false) else (None, true)
           end
  end.

Lemma policy_algorithms policy :
  policy_ok policy →
  let algorithms := match policy with Some o => db_algorithms o | None => [ES256] end in
  algorithms ≠ [] ∧ NoDup algorithms.
Proof.
  destruct policy as [o|]; intros Hp; [by apply Hp|]. split; [done|]. apply NoDup_singleton.
Qed.

Lemma deny_challenge_read policy code scheme :
  policy_ok policy → client_reading (deny_challenge policy code scheme) = denial_reading policy code scheme.
Proof.
  intros Hp. destruct (policy_algorithms policy Hp) as [Hne Hnd].
  destruct (dpop_challenge_read _ Hne Hnd) as (H1 & H2 & H3 & H4).
  unfold deny_challenge, denial_reading. cbv zeta.
  set (is1 := jsstr_eqb code (js "OIDC_VAULT_DPOP_REQUIRED")).
  set (is2 := jsstr_eqb code (js "OIDC_VAULT_INVALID_DPOP_PROOF")).
  set (is3 := jsstr_eqb code (js "OIDC_VAULT_MISSING_ACCESS_TOKEN")).
  set (is4 := jsstr_eqb code (js "OIDC_VAULT_AUTHENTICATION_REQUIRED")).
  assert (bool_decide (code ∈ NOT_REFRESHED) = is1 || is2 || (is3 || is4)) as ->.
  { apply eq_true_iff_eq. rewrite bool_decide_eq_true. unfold NOT_REFRESHED, is1, is2, is3, is4. cbn [map].
    rewrite !elem_of_cons, elem_of_nil, !orb_true_iff, !jsstr_eqb_true. tauto. }
  destruct (is1 || is2); [by destruct policy; rewrite H3|].
  destruct policy as [o|]; [|by vm_compute]. rewrite orb_false_l.
  destruct (is3 || is4); [by destruct (bool_decide (db_mode o = Required)); rewrite ?H1, ?H2|].
  destruct scheme as [[]|]; cbn [andb orb].
  - vm_compute. reflexivity.
  - exact H4.
  - change (bool_decide (@None Scheme = Some DPoP)) with false. change (bool_decide (@None Scheme = None)) with true.
    cbn [andb orb]. destruct (bool_decide (db_mode o = Required)); [exact H4|]. vm_compute. reflexivity.
Qed.

(** Every denial an API prepares can be sent, and a 401 always carries one challenge, which
    the client reads as the code means it: a token is refreshed only when the token itself
    was refused under the scheme it was presented with, never for a failed proof, a missing
    credential or a missing sender constraint, and no denial passes for a request for a nonce. *)
Theorem denial_read (policy : option ResolvedDeviceBindingOptions) (error : oidc_error)
    (scheme : option Scheme) (hook : bool) :
  policy_ok policy →
  ∃ r, prepareError policy error scheme None hook = Ok r
    ∧ field_lookup (pr_headers r) (js "Cache-Control") = Some (js "no-store")
    ∧ (pr_status r = 401 → ∃ header,
        field_lookup (pr_headers r) (js "WWW-Authenticate") = Some header
        ∧ client_reading header = denial_reading policy (pr_code r) scheme
        ∧ (client_reading header).1 ≠ Some ClientUseNonce)
    ∧ (pr_status r ≠ 401 → field_lookup (pr_headers r) (js "WWW-Authenticate") = None).
Proof.
  intros Hp. destruct (policy_algorithms policy Hp) as [Hne Hnd].
  destruct (challenge_read InvalidDpopProof _ Hne) as (Hc & Hd & Hb).
  pose proof (λ code, deny_challenge_read policy code scheme Hp) as Hread.
  assert (∀ code, (denial_reading policy code scheme).1 ≠ Some ClientUseNonce) as Hno.
  { intros code. unfold denial_reading. destruct policy; [|done]. destruct (bool_decide _); [done|].
    destruct scheme as [[]|]; [done..|]. by destruct (bool_decide _). }
  unfold prepareError. destruct error as [status code m cm|m|m|v]; cycle 1.
  1-3: destruct hook; eexists; (split; [reflexivity|]); (split; [done|]); cbn [pr_status pr_headers pr_code];
    (split; [|done]); intros ?; try done; eexists; (split; [reflexivity|]); rewrite Hread; auto.
  unfold toDpopReplayErrorResponse. cbv zeta. cbn [toErrorPayload ep_status ep_code ep_message].
  destruct (Z.eqb_spec status 401) as [->|Hs].
  - destruct (_ || _) eqn:Hcode; rewrite ?Hc; cbn [andb res_bind pr_status pr_headers pr_code pr_message];
      eexists; (split; [reflexivity|]); (split; [done|]); cbn [pr_status pr_headers pr_code Z.eqb Pos.eqb andb];
      (split; [|done]); intros _.
    + rewrite bool_decide_true by (eexists; reflexivity). cbn [negb].
      eexists. split; [reflexivity|]. unfold client_reading. rewrite Hd, Hb. split; [|done].
      unfold denial_reading. destruct policy; [|done]. rewrite bool_decide_true; [done|]. unfold NOT_REFRESHED. cbn [map].
      rewrite !elem_of_cons. apply orb_true_iff in Hcode as [?%jsstr_eqb_true|?%jsstr_eqb_true]; auto.
    + eexists. split; [reflexivity|]. rewrite Hread. auto.
  - cbn [andb res_bind pr_status pr_headers pr_code pr_message]. eexists. split; [reflexivity|].
    cbn [pr_status pr_headers pr_code]. destruct (Z.eqb_spec status 401); [done|]. by split_and!.
Qed.

Lemma snapshot_jkt value invalid jkt :
  snapshotJkt value invalid = Ok jkt ↔
  value = JObj true [(js "jkt", JStr jkt)] ∧ isCanonicalDpopJkt (JStr jkt) = true.
Proof.
  unfold snapshotJkt. split.
  - intros H. res_step H as ? _. destruct value as [| | | | | |[] [|[name v] []]| |]; try done.
    res_step H as ? Hn. apply guard_Ok, jsstr_eqb_true in Hn as ->. destruct v; try done.
    res_step H as ? Hc. apply guard_Ok in Hc. by injection H as <-.
  - intros [-> Hc]. cbn [is_non_array_object guard res_bind]. rewrite (proj2 (jsstr_eqb_true _ _)) by done.
    by rewrite Hc.
Qed.

Section validator.
Variable jwt_verify : jsstr → result JwtFailure (list (jsstr * jsval)).
Implicit Types mapClaims : option (list (jsstr * jsval) → ores ValidationResult).

Lemma checked_confirmation_ok token claims c :
  checked_confirmation token claims = Ok c ↔
  match c with
  | None => field_lookup claims (js "cnf") = None
  | Some jkt =>
      field_lookup claims (js "cnf") = Some (JObj true [(js "jkt", JStr jkt)])
      ∧ isCanonicalDpopJkt (JStr jkt) = true ∧ isCompactSignedJwt token = true
      ∧ is_Some (readJwtExpirationMs (get_field (JObj true claims) (js "exp")))
  end.
Proof.
  unfold checked_confirmation, snapshotVerifiedJwtConfirmation.
  destruct (field_lookup claims (js "cnf")) as [cnf|]; cbn [res_bind].
  2: { destruct c; [|done]. split; [done|]. by intros (? & _). }
  split.
  - intros H. res_step H as o Ho. res_step Ho as jkt Hj. injection Ho as <-.
    apply snapshot_jkt in Hj as [-> Hj]. res_step H as ? Hw. res_step H as ? He. injection H as <-.
    apply guard_Ok in Hw. apply guard_Ok, bool_decide_eq_true in He. done.
  - destruct c as [jkt|]; [|done]. intros ([= ->] & Hj & Hw & He).
    rewrite (proj2 (snapshot_jkt _ invalidAccessToken jkt)) by done. cbn [res_bind].
    rewrite Hw, bool_decide_true by done. done.
Qed.

(** The sender constraint of a locally validated token is the one that was signed: whatever
    the application's mapper returns, the reported confirmation is the verified payload's, present
    exactly when the payload has one, and a bound token is in its one compact spelling with a
    usable expiry. An error is taken for a rejected credential only when the signature check,
    the confirmation or the built-in mapper refused the token, never for an error of the application's mapper. *)
Theorem jwt_confirmation_signed mapClaims (token : jsstr) :
  match validateJwt jwt_verify mapClaims token with
  | Ok r =>
      ∃ claims, jwt_verify token = Ok claims
      ∧ ((vr_confirmation r = JNull ∧ field_lookup claims (js "cnf") = None)
         ∨ ∃ jkt, vr_confirmation r = confirmation_value (Some jkt)
             ∧ field_lookup claims (js "cnf") = Some (confirmation_value (Some jkt))
             ∧ isCanonicalDpopJkt (JStr jkt) = true ∧ isCompactSignedJwt token = true
             ∧ is_Some (readJwtExpirationMs (get_field (JObj true claims) (js "exp"))))
  | Err j =>
      rj_rejected j = true →
      (∃ f, jwt_verify token = Err f ∧ jf_credential f = true ∧ jf_error f = rj_error j)
      ∨ ∃ claims, jwt_verify token = Ok claims
          ∧ (checked_confirmation token claims = Err (rj_error j)
             ∨ mapClaims = None ∧ defaultJwtClaimsMapper claims = Err (rj_error j))
  end.
Proof.
  unfold validateJwt. destruct (jwt_verify token) as [claims|f]; [|intros Hj; left; by exists f]. cbv zeta.
  destruct (checked_confirmation token claims) as [c|e] eqn:Hc; cbn [res_catch res_bind];
    [|intros _; right; exists claims; auto].
  assert (∀ m, ∃ claims', Ok claims = (Ok claims' : result JwtFailure _)
    ∧ ((vr_confirmation (with_confirmation m c) = JNull ∧ field_lookup claims' (js "cnf") = None)
       ∨ ∃ jkt, vr_confirmation (with_confirmation m c) = confirmation_value (Some jkt)
           ∧ field_lookup claims' (js "cnf") = Some (confirmation_value (Some jkt))
           ∧ isCanonicalDpopJkt (JStr jkt) = true ∧ isCompactSignedJwt token = true
           ∧ is_Some (readJwtExpirationMs (get_field (JObj true claims') (js "exp"))))) as Hok.
  { intros m. exists claims. split; [done|]. apply checked_confirmation_ok in Hc.
    destruct c as [jkt|]; [right; exists jkt; tauto|by left]. }
  destruct mapClaims as [map|].
  - destruct (map claims); [apply Hok|done].
  - destruct (defaultJwtClaimsMapper claims) eqn:Hm; cbn [res_catch res_bind]; [apply Hok|intros _; right; exists claims; auto].
Qed.
End validator.

(** * Concrete instances *)

Definition example_claims_of (cnf : jsval) : list (jsstr * jsval) :=
  [(js "sub", JStr (js "user")); (js "exp", JNum (num_of_Z 2000)); (js "cnf", cnf)].
Definition example_token : jsstr := js "YQ.Yg.Yw".
Definition example_jwt (token : jsstr) : result JwtFailure (list (jsstr * jsval)) :=
  Ok (example_claims_of (confirmation_value (Some example_jkt))).
Definition example_mapper (claims : list (jsstr * jsval)) : ores ValidationResult :=
  Ok (mkValidation true (JStr (js "mapped")) JUndef JUndef JUndef JNull).
Definition example_validation : ValidationResult :=
  mkValidation true (JStr (js "mapped")) JUndef JUndef JUndef (confirmation_value (Some example_jkt)).

(** A mapper cannot replace the confirmation; a bound token in another spelling is refused. *)
Example mapper_keeps_confirmation :
  validateJwt example_jwt (Some example_mapper) example_token = Ok example_validation
  ∧ is_ok (validateJwt example_jwt (Some example_mapper) (js "YQ.Yg.Yx")) = false.
Proof. by split; vm_compute. Qed.

Lemma denial_read_witness :
  ∃ r, prepareError (Some example_options) (invalidAccessToken []) (Some DPoP) None false = Ok r
    ∧ field_lookup (pr_headers r) (js "Cache-Control") = Some (js "no-store")
    ∧ (pr_status r = 401 → ∃ header,
        field_lookup (pr_headers r) (js "WWW-Authenticate") = Some header
        ∧ client_reading header = denial_reading (Some example_options) (pr_code r) (Some DPoP)
        ∧ (client_reading header).1 ≠ Some ClientUseNonce)
    ∧ (pr_status r ≠ 401 → field_lookup (pr_headers r) (js "WWW-Authenticate") = None).
Proof.
  apply denial_read. intros o [= <-]. split; [done|]. apply (bool_decide_unpack _). vm_compute. exact I.
Defined.
