(* ===== verification/ApiAuthenticator.v ===== *)
(** express-oidc-vault, [access-token-middleware.ts]: authentication of one API request, the
    guards behind it, and what reentrant calls and hooks can do in between.

    A handler runs without interruption up to its next [await]; what it needs afterwards is a
    [Cont]. A [Move] is a call of a handler, the settlement of an awaited promise, or
    something the hooks, observers and other handlers do meanwhile: replacing [req.auth] by a data property,
    writing to authentication contexts, sending headers, reserving other proofs. Any number of
    authenticators and response objects may share the request. *)

From S2P Require Import Prelude JsValue JsJson AttestTypes AttestCanonical AttestVerify JsBuffer IndexedHeap VaultBinding VaultDpop DpopNonce DpopPolicy DpopTarget DpopReplay DpopChallenge DpopJson DpopProof ApiAccessToken.

(** * Data *)

Record ApiPolicy := mkApi {
  api_options : ResolvedDeviceBindingOptions;
  api_target : TargetResolver;
  api_replay : ReplayPolicy
}.

(** What [createOidcVaultAuthenticator] captures. *)
Record Authenticator := mkAuthenticator {
  au_optional : bool;
  au_anonymous : bool;
  au_policy : option ApiPolicy
}.

Definition auth_options (a : Authenticator) : option ResolvedDeviceBindingOptions := api_options <$> au_policy a.

Inductive AuthField := FSubject | FSessionId | FScope | FClaims | FToken | FConfirmation | FDeviceBinding.
#[export] Instance AuthField_eq_dec : EqDecision AuthField.
Proof. solve_decision. Defined.
#[export] Instance AuthField_countable : Countable AuthField.
Proof.
  refine (inj_countable' (λ f, match f with FSubject => 0 | FSessionId => 1 | FScope => 2 | FClaims => 3
                               | FToken => 4 | FConfirmation => 5 | FDeviceBinding => 6 end)%nat
            (λ n, match n with 0 => FSubject | 1 => FSessionId | 2 => FScope | 3 => FClaims | 4 => FToken
                  | 5 => FConfirmation | _ => FDeviceBinding end)%nat _).
  by intros [].
Defined.
Definition authFields : list AuthField :=
  [FSubject; FSessionId; FScope; FClaims; FToken; FConfirmation; FDeviceBinding].

(** A field's value: a primitive, an object known by its identity, or one of the frozen
    objects the middleware makes, by identity and contents. *)
Inductive AuthValue :=
  | VPrim (v : jsval)
  | VRef (object : nat)
  | VConfirmation (object : nat) (jkt : jsstr)
  | VBinding (object : nat) (b : VerifiedBinding).

(** [===]; the contents of a frozen object go with its identity. *)
Definition value_eqb (a b : AuthValue) : bool :=
  match a, b with
  | VPrim x, VPrim y => js_strict_eq x y
  | VRef x, VRef y => (x =? y)%nat
  | VConfirmation x j, VConfirmation y k => (x =? y)%nat && jsstr_eqb j k
  | VBinding x b, VBinding y c =>
      (x =? y)%nat && jsstr_eqb (vb_jkt b) (vb_jkt c) && bool_decide (vb_alg b = vb_alg c)
  | _, _ => false
  end.

(** A property of a context: data, or an accessor with what its getter does. *)
Inductive AuthProp :=
  | PData (v : AuthValue)
  | PAccessor (answer : ores AuthValue).

Notation AuthContext := (gmap AuthField AuthProp).
Notation AuthSnapshot := (gmap AuthField AuthValue).

Inductive AuthStatus := Pending | Missing | Invalid | Authenticated | Challenged | Failed.
#[export] Instance AuthStatus_eq_dec : EqDecision AuthStatus.
Proof. solve_decision. Defined.

(** The entry of [evidence] for the request; [rq_auth] is the context's location. *)
Record RequestAuthentication := mkRequestAuth {
  rq_owner : nat;
  rq_res : nat;
  rq_status : AuthStatus;
  rq_auth : option nat;
  rq_snapshot : option AuthSnapshot
}.

Definition with_status (e : RequestAuthentication) (s : AuthStatus) : RequestAuthentication :=
  mkRequestAuth (rq_owner e) (rq_res e) s (rq_auth e) (rq_snapshot e).

(** A handler call: whose handler, on which response. *)
Record Call := mkCall { ca_owner : nat; ca_res : nat }.

(** What a handler reads of the request: [req.rawHeaders], [req.get('authorization')],
    [req.method] and [req.originalUrl]. *)
Record RequestFacts := mkFacts {
  rf_rawHeaders : list jsstr;
  rf_authorization : option jsstr;
  rf_method : jsstr;
  rf_originalUrl : jsval
}.

(** The confirmation: not reported, [null], or a thumbprint. *)
Inductive Confirmation := NotReported | Unbound | Bound (jkt : jsstr).

(** The credential of a request, captured before the first suspension. *)
Record Credential := mkCredential {
  cr_token : jsstr;
  cr_scheme : Scheme;
  cr_proofHeader : DpopRawHeader;
  cr_facts : RequestFacts
}.

(** The mapped fields of a validator's result. *)
Record Mapped := mkMapped {
  mf_subject : AuthValue;
  mf_sessionId : AuthValue;
  mf_scope : AuthValue;
  mf_claims : AuthValue
}.

(** A validator's result: the shape [ValidationResult] has, with its objects by identity. *)
Record ValidatorAnswer := mkAnswer {
  va_object : bool;
  va_fields : Mapped;
  va_confirmation : jsval
}.

Inductive Cont :=
  | KValidator (c : Call) (cr : Credential)
  | KReplay (c : Call) (cr : Credential) (m : Mapped) (conf : Confirmation) (proof : jsstr)
  | KHook (c : Call) (cr : Credential) (m : Mapped) (conf : Confirmation) (confirmation binding : option AuthValue)
      (auth : nat)
  | KObserver (c : Call) (error : oidc_error) (anonymous : bool) (response : DpopPolicyResponse).

(** What downstream and the client get to see, and what the services answered. *)
Inductive NextBy := ByAuthenticate | ByGuard (bound : bool).
Inductive Event :=
  | Next (by_ : NextBy) (c : Call) (auth : option (option nat))
  | NextError (c : Call) (error : oidc_error)
  | Sent (c : Call) (response : DpopPolicyResponse)
  | Crashed (c : Call) (error : oidc_error)
  | Validated (c : Call) (cr : Credential) (a : ValidatorAnswer)
  | ProofAdmitted (c : Call) (cr : Credential) (jkt : option jsstr) (b : VerifiedBinding).

(** [w_auth]: no [req.auth], [Some (Some l)] the context at [l], [Some None] any other value. *)
Record World (St : Type) := mkWorld {
  w_store : St;
  w_evidence : option RequestAuthentication;
  w_auth : option (option nat);
  w_contexts : list AuthContext;
  w_objects : nat;                       (** frozen objects made so far *)
  w_sent : list nat;                     (** responses whose headers are sent *)
  w_pending : list Cont;
  w_log : list Event
}.
Arguments mkWorld {St}.
Arguments w_store {St}.
Arguments w_evidence {St}.
Arguments w_auth {St}.
Arguments w_contexts {St}.
Arguments w_objects {St}.
Arguments w_sent {St}.
Arguments w_pending {St}.
Arguments w_log {St}.

(** * Steps *)

Section steps.
Context {St : Type} `{ReplayStore St}.
Implicit Types w : World St.

Definition set_evidence (e : option RequestAuthentication) w : World St :=
  mkWorld (w_store w) e (w_auth w) (w_contexts w) (w_objects w) (w_sent w) (w_pending w) (w_log w).
Definition set_auth (a : option (option nat)) w : World St :=
  mkWorld (w_store w) (w_evidence w) a (w_contexts w) (w_objects w) (w_sent w) (w_pending w) (w_log w).
Definition set_store (st : St) w : World St :=
  mkWorld st (w_evidence w) (w_auth w) (w_contexts w) (w_objects w) (w_sent w) (w_pending w) (w_log w).
Definition set_contexts (cs : list AuthContext) w : World St :=
  mkWorld (w_store w) (w_evidence w) (w_auth w) cs (w_objects w) (w_sent w) (w_pending w) (w_log w).
Definition set_objects (n : nat) w : World St :=
  mkWorld (w_store w) (w_evidence w) (w_auth w) (w_contexts w) n (w_sent w) (w_pending w) (w_log w).
Definition set_sent (rs : list nat) w : World St :=
  mkWorld (w_store w) (w_evidence w) (w_auth w) (w_contexts w) (w_objects w) rs (w_pending w) (w_log w).
Definition set_pending (ks : list Cont) w : World St :=
  mkWorld (w_store w) (w_evidence w) (w_auth w) (w_contexts w) (w_objects w) (w_sent w) ks (w_log w).
Definition log (e : Event) w : World St :=
  mkWorld (w_store w) (w_evidence w) (w_auth w) (w_contexts w) (w_objects w) (w_sent w) (w_pending w) (w_log w ++ [e]).
Definition await (k : Cont) w : World St := set_pending (w_pending w ++ [k]) w.

(** [state.status = s] *)
Definition set_status (s : AuthStatus) w : World St :=
  set_evidence ((λ e, with_status e s) <$> w_evidence w) w.

Definition status_is (s : AuthStatus) w : bool :=
  match w_evidence w with Some e => bool_decide (rq_status e = s) | None => false end.
Definition headersSent (c : Call) w : bool := bool_decide (ca_res c ∈ w_sent w).

(** A property read: an absent one is [undefined]. *)
Definition read_prop (ctx : AuthContext) (f : AuthField) : ores AuthValue :=
  match ctx !! f with
  | None => Ok (VPrim JUndef)
  | Some (PData v) => Ok v
  | Some (PAccessor answer) => answer
  end.

Definition set_optional (f : AuthField) (v : option AuthValue) (fields : AuthSnapshot) : AuthSnapshot :=
  match v with Some v => <[f := v]> fields | None => fields end.

(** The literal of a context: mapped fields, token, and the constraint when there is one. *)
Definition context_of (m : Mapped) (token : jsstr) (confirmation binding : option AuthValue) : AuthSnapshot :=
  set_optional FDeviceBinding binding (set_optional FConfirmation confirmation
    (<[FToken := VPrim (JStr token)]> (<[FClaims := mf_claims m]> (<[FScope := mf_scope m]>
      (<[FSessionId := mf_sessionId m]> (<[FSubject := mf_subject m]> ∅)))))).

(** A new context; its location is the number of contexts so far. *)
Definition new_context (fields : AuthSnapshot) w : World St :=
  set_auth (Some (Some (length (w_contexts w)))) (set_contexts (w_contexts w ++ [PData <$> fields]) w).

Variable parse_url : jsstr → option URL.
Variable sha256 : list Z → list Z.
Variable hmac_sha256 : list Z → list Z → list Z.
Variable jws_verify : list (jsstr * jsval) → DpopAlgorithm → jsstr → option (list Z).
Variable thumbprint : list (jsstr * jsval) → jsstr.
Variable authenticators : nat → Authenticator.

Definition policy_of (c : Call) : option ApiPolicy := au_policy (authenticators (ca_owner c)).
Definition prepare (c : Call) (error : oidc_error) (scheme : option Scheme) (nonceResponse : option DpopPolicyResponse)
    (hookFailure : bool) : ores DpopPolicyResponse :=
  prepareError (auth_options (authenticators (ca_owner c))) error scheme nonceResponse hookFailure.

Definition reentryError : oidc_error :=
  OidcVaultHttpError 500 (js "OIDC_VAULT_AUTHENTICATION_REENTRY") (js "Authentication is already running or completed.")
    (js "Authentication is already running or completed.").
Definition authenticationRequired : oidc_error :=
  OidcVaultHttpError 401 (js "OIDC_VAULT_AUTHENTICATION_REQUIRED") (js "Authentication is required.")
    (js "Authentication is required.").
Definition nonceRequired : oidc_error :=
  OidcVaultHttpError 401 (js "OIDC_VAULT_USE_DPOP_NONCE") (js "A fresh DPoP nonce is required.")
    (js "A fresh DPoP nonce is required.").

Definition credentialRejectionCodes : list jsstr :=
  map js ["OIDC_VAULT_MISSING_BEARER_TOKEN"; "OIDC_VAULT_MISSING_ACCESS_TOKEN";
          "OIDC_VAULT_INVALID_AUTHORIZATION_HEADER"; "OIDC_VAULT_INVALID_ACCESS_TOKEN";
          "OIDC_VAULT_DPOP_REQUIRED"; "OIDC_VAULT_DEVICE_BINDING_REQUIRED";
          "OIDC_VAULT_INVALID_DPOP_PROOF"]%string.

(** Poisons the request: [failed], no [req.auth], and the denial waits for the observer. *)
Definition deny (c : Call) (error : oidc_error) (scheme : option Scheme) (hookFailure : bool) w : World St :=
  let w := set_auth None (set_status Failed w) in
  match prepare c error scheme None hookFailure with
  | Ok response => await (KObserver c error false response) w
  | Err e => log (Crashed c e) w
  end.

Inductive Stage := AtCredential | AtValidator (rejected : bool) | AtResult | AtProof.

(** The [catch] of [authenticate]. *)
Definition catch_error (c : Call) (error : oidc_error) (scheme : option Scheme)
    (nonceResponse : option DpopPolicyResponse) (stage : Stage) w : World St :=
  if status_is Pending w then
    match prepare c error scheme nonceResponse false with
    | Err e => log (Crashed c e) w
    | Ok response =>
        let a := authenticators (ca_owner c) in
        let rejected :=
          match stage with
          | AtValidator rejected => rejected
          | AtResult => false
          | AtCredential | AtProof =>
              match code_of error with Some code => bool_decide (code ∈ credentialRejectionCodes) | None => false end
          end in
        let challenged := bool_decide (is_Some nonceResponse) in
        let anonymous := au_optional a && au_anonymous a && rejected && negb challenged in
        await (KObserver c error anonymous response)
          (set_auth None (set_status (if anonymous then Invalid else if challenged then Challenged else Failed) w))
    end
  else set_auth None w.

(** [mappedFields(result)] *)
Definition mappedFields (a : ValidatorAnswer) : ores Mapped :=
  guard (va_object a) (invalidAccessToken (js "Access token validator result is invalid.")) ;;;
  match mf_subject (va_fields a) with
  | VPrim (JStr (_ :: _)) => Ok (va_fields a)
  | _ => Err (invalidAccessToken (js "Access token validator result is missing subject."))
  end.

(** The reported confirmation and the mapped fields. Without a policy it may be left out. *)
Definition read_answer (policy : option ApiPolicy) (a : ValidatorAnswer) : ores (Confirmation * Mapped) :=
  let* confirmation :=
    match policy, va_confirmation a with
    | None, JUndef => Ok NotReported
    | _, reported =>
        let* jkt := snapshotAccessTokenConfirmation reported in
        Ok (match jkt with Some jkt => Bound jkt | None => Unbound end)
    end in
  let* mapped := mappedFields a in
  Ok (confirmation, mapped).

Definition bound_jkt (confirmation : Confirmation) : option jsstr :=
  match confirmation with Bound jkt => Some jkt | _ => None end.

(** The constraint against the presentation, up to the proof to verify, if there is one. *)
Definition check_presentation (p : ApiPolicy) (cr : Credential) (confirmation : Confirmation) : ores (option jsstr) :=
  let bound := bool_decide (is_Some (bound_jkt confirmation)) in
  guard (negb (bound && negb (bool_decide (cr_scheme cr = DPoP)))) dpopRequired ;;;
  guard (negb (negb bound && bool_decide (cr_scheme cr = DPoP)))
    (invalidAccessToken (js "DPoP presentation of a verified unbound token is invalid.")) ;;;
  guard (negb (negb bound && bool_decide (db_mode (api_options p) = Required))) deviceBindingRequired ;;;
  let* proof := extractDpopProof (cr_proofHeader cr) in
  guard (negb (bool_decide (proof = None) && bound)) dpopRequired ;;;
  Ok proof.

(** The [confirmation] field, with the frozen object of a bound one. *)
Definition confirmation_field (object : nat) (conf : Confirmation) : option AuthValue :=
  match conf with
  | NotReported => None
  | Unbound => Some (VPrim JNull)
  | Bound jkt => Some (VConfirmation object jkt)
  end.

(** Attaches the context and awaits [onAuthContext]. *)
Definition attach (c : Call) (cr : Credential) (m : Mapped) (conf : Confirmation) (b : option VerifiedBinding) w : World St :=
  let confirmation := confirmation_field (w_objects w) conf in
  let binding := VBinding (S (w_objects w)) <$> b in
  await (KHook c cr m conf confirmation binding (length (w_contexts w)))
    (set_objects (S (S (w_objects w))) (new_context (context_of m (cr_token cr) confirmation binding) w)).

(** [authenticate(req, res, next)], up to the validator. *)
Definition authenticate (c : Call) (rf : RequestFacts) w : World St :=
  match w_evidence w with
  | Some _ => deny c reentryError None false w
  | None =>
      let a := authenticators (ca_owner c) in
      let w := set_auth None (set_evidence (Some (mkRequestAuth (ca_owner c) (ca_res c) Pending None None)) w) in
      let authorization := readDpopRawHeader (rf_rawHeaders rf) (js "authorization") in
      let proofHeader := readDpopRawHeader (rf_rawHeaders rf) (js "dpop") in
      if au_optional a && (rh_count authorization =? 0)%nat && (rh_count proofHeader =? 0)%nat then
        let w := set_status Missing w in
        if headersSent c w then set_auth None w else log (Next ByAuthenticate c (w_auth w)) w
      else
        match policy_of c with
        | None =>
            let token :=
              guard (negb ((1 <? rh_count authorization)%nat
                           || ((rh_count authorization =? 1)%nat
                               && (length (trim (default [] (rh_value authorization))) =? 0)%nat)))
                (invalidAuthorization (js "Authorization header must use the Bearer scheme.")) ;;;
              extractBearerToken (rf_authorization rf) in
            match token with
            | Err e => catch_error c e None None AtCredential w
            | Ok token => await (KValidator c (mkCredential token Bearer proofHeader rf)) w
            end
        | Some p =>
            match read_credential authorization with
            | Err e => catch_error c e (schemeOf (rh_value authorization)) None AtCredential w
            | Ok (scheme, token) => await (KValidator c (mkCredential token scheme proofHeader rf)) w
            end
        end
  end.

Definition validator_settled (c : Call) (cr : Credential) (answer : result Rejection ValidatorAnswer) w : World St :=
  let scheme := Some (cr_scheme cr) in
  match answer with
  | Err r => catch_error c (rj_error r) scheme None (AtValidator (rj_rejected r)) w
  | Ok a =>
      if negb (status_is Pending w) then set_auth None w
      else
        let w := log (Validated c cr a) (set_auth None w) in
        match read_answer (policy_of c) a with
        | Err e => catch_error c e scheme None AtResult w
        | Ok (conf, m) =>
            match policy_of c with
            | None =>
                match conf with
                | Bound _ => catch_error c dpopRequired scheme None AtProof w
                | _ => attach c cr m conf None w
                end
            | Some p =>
                match check_presentation p cr conf with
                | Err e => catch_error c e scheme None AtProof w
                | Ok None => attach c cr m conf None w
                | Ok (Some proof) => await (KReplay c cr m conf proof) w
                end
            end
        end
  end.

Definition proof_input (p : ApiPolicy) (cr : Credential) (jkt : option jsstr) (proof : jsstr) : ProofInput :=
  mkProofInput proof (rf_method (cr_facts cr)) (resolveTarget parse_url (api_target p) (rf_originalUrl (cr_facts cr)))
    (api_options p) jkt (Some (cr_token cr)).

(** [verifyAndReserve] with [verifyDpopProof] as its callback, at its atomic reservation: the
    readings are those of [env]. *)
Definition admission (p : ApiPolicy) (cr : Credential) (jkt : option jsstr) (proof : jsstr) (env : ReplayEnv) (st : St)
    : ores ReplayResult * St :=
  verifyAndReserve sha256 hmac_sha256 (api_replay p)
    (mkEnv (let* r := verifyDpopProof parse_url sha256 jws_verify thumbprint (proof_input p cr jkt proof) in
            Ok (result_value r))
       (en_clock env) (en_fallback env) (en_random env) (en_store_clock env)) st.

Definition replay_settled (c : Call) (cr : Credential) (m : Mapped) (conf : Confirmation) (proof : jsstr)
    (env : ReplayEnv) w : World St :=
  let scheme := Some (cr_scheme cr) in
  match policy_of c with
  | None => w
  | Some p =>
      let '(outcome, st) := admission p cr (bound_jkt conf) proof env (w_store w) in
      let w := set_store st w in
      match outcome with
      | Err e => catch_error c e scheme None AtProof w
      | Ok r =>
          if negb (status_is Pending w) then set_auth None w
          else
            match r with
            | NonceChallenge nonce =>
                match toDpopNonceChallengeResponse nonce Api (db_algorithms (api_options p)) with
                | Err e => catch_error c e scheme None AtProof w
                | Ok response => catch_error c nonceRequired scheme (Some response) AtProof w
                end
            | Accepted b _ =>
                attach c cr m conf (match conf with Bound _ => Some b | _ => None end)
                  (log (ProofAdmitted c cr (bound_jkt conf) b) w)
            end
      end
  end.

(** [restoreAuth()]: the hook's mapped fields, the captured credential and constraint. *)
Definition restoreAuth (ctx : AuthContext) (token : jsstr) (confirmation binding : option AuthValue) : ores AuthSnapshot :=
  let* subject := read_prop ctx FSubject in
  let* sessionId := read_prop ctx FSessionId in
  let* scope := read_prop ctx FScope in
  let* claims := read_prop ctx FClaims in
  Ok (context_of (mkMapped subject sessionId scope claims) token confirmation binding).

Definition hook_failed (c : Call) (cr : Credential) (error : oidc_error) w : World St :=
  if negb (status_is Pending w) then set_auth None w else deny c error (Some (cr_scheme cr)) true w.

Definition hook_settled (c : Call) (cr : Credential) (confirmation binding : option AuthValue) (auth : nat)
    (outcome : option oidc_error) w : World St :=
  match outcome with
  | Some e => hook_failed c cr e w
  | None =>
      if negb (status_is Pending w) then set_auth None w
      else
        match restoreAuth (default ∅ (w_contexts w !! auth)) (cr_token cr) confirmation binding with
        | Err e => hook_failed c cr e w
        | Ok fields =>
            let l := length (w_contexts w) in
            let w := new_context fields w in
            let w := set_evidence ((λ e, mkRequestAuth (rq_owner e) (rq_res e) Authenticated (Some l) (Some fields))
                                     <$> w_evidence w) w in
            log (Next ByAuthenticate c (w_auth w)) w
        end
  end.

(** After [onError]. *)
Definition observer_settled (c : Call) (error : oidc_error) (anonymous : bool) (response : DpopPolicyResponse) w : World St :=
  let w := set_auth None w in
  if headersSent c w then log (NextError c error) w
  else if anonymous && status_is Invalid w then log (Next ByAuthenticate c (w_auth w)) w
  else log (Sent c response) (set_sent (ca_res c :: w_sent w) w).

(** * Guards *)

Definition field_intact (ctx : AuthContext) (snapshot : AuthSnapshot) (f : AuthField) : bool :=
  match snapshot !! f, ctx !! f with
  | Some v, Some (PData v') => value_eqb v' v
  | Some _, _ => false
  | None, p => bool_decide (p = None)
  end.

Definition intact w : bool :=
  match w_evidence w, w_auth w with
  | Some e, Some (Some current) =>
      match rq_auth e, rq_snapshot e with
      | Some auth, Some snapshot =>
          (current =? auth)%nat && forallb (field_intact (default ∅ (w_contexts w !! current)) snapshot) authFields
      | _, _ => false
      end
  | _, _ => false
  end.

Definition rejectGuard (c : Call) w : World St :=
  match w_evidence w with
  | Some _ => deny c (if status_is Pending w then reentryError else authenticationRequired) None false w
  | None =>
      deny c authenticationRequired None false
        (set_evidence (Some (mkRequestAuth (ca_owner c) (ca_res c) Failed None None)) w)
  end.

Definition same_call (c : Call) w : bool :=
  match w_evidence w with
  | Some e => (rq_owner e =? ca_owner c)%nat && (rq_res e =? ca_res c)%nat
  | None => false
  end.

Definition has_binding w : bool :=
  match w_evidence w with
  | Some e => match rq_snapshot e with Some s => bool_decide (is_Some (s !! FDeviceBinding)) | None => false end
  | None => false
  end.

(** [requireAuth] and [requireDeviceBinding] *)
Definition run_guard (bound : bool) (c : Call) w : World St :=
  if negb (status_is Authenticated w && same_call c w && intact w) then rejectGuard c w
  else if bound && negb (has_binding w) then deny c deviceBindingRequired None false w
  else log (Next (ByGuard bound) c (w_auth w)) w.

(** * Moves *)

Inductive Settlement :=
  | SValidator (answer : result Rejection ValidatorAnswer)
  | SReplay (env : ReplayEnv)
  | SHook (outcome : option oidc_error)
  | SObserver.

Inductive Move :=
  | MAuthenticate (c : Call) (rf : RequestFacts)
  | MGuard (bound : bool) (c : Call)
  | MSettle (i : nat) (s : Settlement)
  | MSetAuth (a : option (option nat))
  | MSetProp (l : nat) (f : AuthField) (p : option AuthProp)
  | MNewContext (ctx : AuthContext)
  | MSendHeaders (res : nat)
  | MReserve (key : jsstr) (e now : num).

Definition settle (k : Cont) (s : Settlement) w : World St :=
  match k, s with
  | KValidator c cr, SValidator answer => validator_settled c cr answer w
  | KReplay c cr m conf proof, SReplay env => replay_settled c cr m conf proof env w
  | KHook c cr _ _ confirmation binding auth, SHook outcome => hook_settled c cr confirmation binding auth outcome w
  | KObserver c error anonymous response, SObserver => observer_settled c error anonymous response w
  | _, _ => await k w
  end.

Definition exec (m : Move) w : World St :=
  match m with
  | MAuthenticate c rf => authenticate c rf w
  | MGuard bound c => run_guard bound c w
  | MSettle i s =>
      match w_pending w !! i with
      | Some k => settle k s (set_pending (delete i (w_pending w)) w)
      | None => w
      end
  | MSetAuth a => set_auth a w
  | MSetProp l f p => set_contexts (alter (partial_alter (λ _, p) f) l (w_contexts w)) w
  | MNewContext ctx => set_contexts (w_contexts w ++ [ctx]) w
  | MSendHeaders res => set_sent (res :: w_sent w) w
  | MReserve key e now => set_store (rs_reserve key e now (w_store w)).2 w
  end.

Definition run (moves : list Move) w : World St := fold_left (λ w m, exec m w) moves w.
Definition start (st : St) : World St := mkWorld st None None [] 0 [] [] [].
End steps.

(** * Construction *)

Section construction.
Variable parse_url : jsstr → option URL.
Variable sha256 : list Z → list Z.

(** [createOidcVaultAuthenticator(options)]: [requestAware] says that the validator has
    [validateWithRequest]. *)
Definition createOidcVaultAuthenticator (env : jsstr → option jsstr)
    (authentication invalidCredentials configuredBinding : jsval) (requestAware : bool) : ores Authenticator :=
  let value v d := if is_undef v then JStr (js d) else v in
  let is_ v d := str_is v d in
  let authentication := value authentication "required"%string in
  let invalidCredentials := value invalidCredentials "reject"%string in
  guard (is_ authentication "required"%string || is_ authentication "optional"%string)
    (TypeError (js "authentication must be required or optional.")) ;;;
  guard (is_ invalidCredentials "reject"%string || is_ invalidCredentials "anonymous"%string)
    (TypeError (js "invalidCredentials must be reject or anonymous.")) ;;;
  guard (negb (is_ invalidCredentials "anonymous"%string && negb (is_ authentication "optional"%string)))
    (TypeError (js "Anonymous invalid credentials require optional authentication.")) ;;;
  let* policy := resolveDeviceBindingOptions env configuredBinding in
  let optional := is_ authentication "optional"%string in
  let anonymous := is_ invalidCredentials "anonymous"%string in
  match policy with
  | None => Ok (mkAuthenticator optional anonymous None)
  | Some o =>
      guard requestAware (TypeError (js "deviceBinding requires validator.validateWithRequest.")) ;;;
      let* publicOrigin :=
        resolveDeviceBindingOrigin parse_url (get_field configuredBinding (js "publicOrigin")) (js "publicOrigin") in
      let* target := createDpopRequestTargetResolver parse_url (JStr publicOrigin)
                       (get_field configuredBinding (js "publicPathPrefix")) in
      let* replay := createDpopReplayPolicy parse_url sha256 env
                       (JObj true [(js "type", JStr (js "api")); (js "publicOrigin", JStr publicOrigin);
                                   (js "replayNamespace", get_field configuredBinding (js "replayNamespace"))])
                       (options_value o) in
      Ok (mkAuthenticator optional anonymous (Some (mkApi o target replay)))
  end.
End construction.

(** * What a history guarantees *)

Section histories.
Variable parse_url : jsstr → option URL.
Variable sha256 : list Z → list Z.
Variable hmac_sha256 : list Z → list Z → list Z.
Variable jws_verify : list (jsstr * jsval) → DpopAlgorithm → jsstr → option (list Z).
Variable thumbprint : list (jsstr * jsval) → jsstr.
Variable authenticators : nat → Authenticator.
Context {St : Type} `{ReplayStore St}.
Variable st0 : St.

Notation policy_of := (policy_of authenticators).
Notation runs moves := (run parse_url sha256 hmac_sha256 jws_verify thumbprint authenticators moves (start st0)).
Notation exec := (exec parse_url sha256 hmac_sha256 jws_verify thumbprint authenticators).
Notation admission := (admission parse_url sha256 hmac_sha256 jws_verify thumbprint).
Notation proof_input := (proof_input parse_url).
Notation verifyProof := (verifyDpopProof parse_url sha256 jws_verify thumbprint).

(** Who vouches for the security fields of a context: the validator's confirmation, and, for a
    bound token, a proof of this very request that the replay store admitted at some point of
    the history. *)
Inductive constrained (moves : list Move) (c : Call) (cr : Credential) (a : ValidatorAnswer)
    (confirmation binding : option AuthValue) : Prop :=
  | constrained_unbound :
      (va_confirmation a = JNull ∨ policy_of c = None ∧ va_confirmation a = JUndef) →
      (∀ p, policy_of c = Some p → cr_scheme cr = Bearer ∧ db_mode (api_options p) = Optional) →
      confirmation = None ∨ confirmation = Some (VPrim JNull) →
      binding = None →
      constrained moves c cr a confirmation binding
  | constrained_bound p jkt o1 o2 b before env proof r e :
      policy_of c = Some p →
      va_confirmation a = confirmation_value (Some jkt) →
      cr_scheme cr = DPoP →
      confirmation = Some (VConfirmation o1 jkt) →
      binding = Some (VBinding o2 b) → vb_jkt b = jkt →
      extractDpopProof (cr_proofHeader cr) = Ok (Some proof) →
      verifyProof (proof_input p cr (Some jkt) proof) = Ok r → po_jkt r = jkt →
      before `prefix_of` moves →
      (admission p cr (Some jkt) proof env (w_store (runs before))).1 = Ok (Accepted b e) →
      constrained moves c cr a confirmation binding.

Definition owned (w : World St) (c : Call) : Prop :=
  ∃ e, w_evidence w = Some e ∧ rq_owner e = ca_owner c ∧ rq_res e = ca_res c.

Definition cont_ok (moves : list Move) (w : World St) (k : Cont) : Prop :=
  match k with
  | KValidator c cr => owned w c
  | KReplay c cr m conf proof =>
      owned w c ∧ ∃ a p m', Validated c cr a ∈ w_log w ∧ policy_of c = Some p
        ∧ read_answer (Some p) a = Ok (conf, m') ∧ check_presentation p cr conf = Ok (Some proof)
  | KHook c cr m conf confirmation binding l =>
      owned w c ∧ ∃ a, Validated c cr a ∈ w_log w ∧ constrained moves c cr a confirmation binding
  | KObserver c e anonymous r => anonymous = true → owned w c ∧ au_optional (authenticators (ca_owner c)) = true
  end.

(** Continuations of [authenticate] that can still reach downstream. *)
Definition is_main (k : Cont) : bool := match k with KObserver _ _ anonymous _ => anonymous | _ => true end.
Definition is_next (e : Event) : bool := match e with Next ByAuthenticate _ _ => true | _ => false end.

Definition budget (w : World St) : nat :=
  (length (filter (λ k, is_main k = true) (w_pending w)) + length (filter (λ e, is_next e = true) (w_log w)))%nat.

Definition authentic (moves : list Move) (w : World St) (c : Call) (fields : AuthSnapshot) : Prop :=
  ∃ cr a, Validated c cr a ∈ w_log w ∧ fields !! FToken = Some (VPrim (JStr (cr_token cr)))
    ∧ constrained moves c cr a (fields !! FConfirmation) (fields !! FDeviceBinding).

Definition next_ok (moves : list Move) (w : World St) (e : Event) : Prop :=
  match e with
  | Next ByAuthenticate c None => au_optional (authenticators (ca_owner c)) = true
  | Next ByAuthenticate c (Some None) => False
  | Next ByAuthenticate c (Some (Some l)) => ∃ fields, authentic moves w c fields
  | _ => True
  end.

Record inv (moves : list Move) (w : World St) : Prop := {
  inv_pending : ∀ k, k ∈ w_pending w → cont_ok moves w k;
  inv_authenticated : ∀ e, w_evidence w = Some e → rq_status e = Authenticated →
    ∃ l fields, rq_auth e = Some l ∧ rq_snapshot e = Some fields
      ∧ authentic moves w (mkCall (rq_owner e) (rq_res e)) fields;
  inv_next : ∀ e, e ∈ w_log w → next_ok moves w e;
  inv_budget : (budget w <= 1)%nat;
  inv_fresh : w_evidence w = None → budget w = 0%nat
}.

(** ** Stability *)

Definition grows (w w' : World St) : Prop :=
  (∀ c, owned w c → owned w' c) ∧ ∀ e, e ∈ w_log w → e ∈ w_log w'.

Lemma constrained_mono m1 m2 c cr a x y : m1 `prefix_of` m2 → constrained m1 c cr a x y → constrained m2 c cr a x y.
Proof.
  intros Hp [|p jkt o1 o2 b before env proof r e]; [by eapply constrained_unbound|].
  apply (constrained_bound m2 c cr a x y p jkt o1 o2 b before env proof r e); try done. by etrans.
Qed.

Lemma authentic_mono m1 m2 w w' c fields :
  m1 `prefix_of` m2 → grows w w' → authentic m1 w c fields → authentic m2 w' c fields.
Proof.
  intros Hp [_ Hl] (cr & a & Hv & Ht & Hc). exists cr, a. split_and!; [by apply Hl|done|by eapply constrained_mono].
Qed.

Lemma cont_ok_mono m1 m2 w w' k : m1 `prefix_of` m2 → grows w w' → cont_ok m1 w k → cont_ok m2 w' k.
Proof.
  intros Hp [Ho Hl]. destruct k as [c cr|c cr m conf proof|c cr m conf x y l|c e anon r]; cbn.
  - apply Ho.
  - intros [? (a & p & m' & ? & ?)]. split; [by apply Ho|]. exists a, p, m'. split; [by apply Hl|done].
  - intros [? (a & ? & ?)]. split; [by apply Ho|]. exists a. split; [by apply Hl|by eapply constrained_mono].
  - intros Hk Ha. destruct (Hk Ha). split; [by apply Ho|done].
Qed.

Lemma next_ok_mono m1 m2 w w' e : m1 `prefix_of` m2 → grows w w' → next_ok m1 w e → next_ok m2 w' e.
Proof.
  intros Hp Hg. destruct e as [[] c [[l|]|]| | | | |]; cbn; try done. intros [fields Hf]. exists fields. by eapply authentic_mono.
Qed.

(** Changes that no part of the invariant looks at. *)
Lemma inv_change moves moves' w w' :
  moves `prefix_of` moves' → inv moves w →
  w_evidence w' = w_evidence w → w_pending w' = w_pending w → w_log w' = w_log w → inv moves' w'.
Proof.
  intros Hp [H1 H2 H3 H4 H5] He Hk Hl.
  assert (grows w w') as Hg by (split; [intros c; unfold owned; by rewrite He|by rewrite Hl]).
  assert (budget w' = budget w) as Hb by (unfold budget; by rewrite Hk, Hl).
  split; rewrite ?Hk, ?Hl, ?He, ?Hb; try done.
  - intros k Hin. eapply cont_ok_mono; eauto.
  - intros e Hev Hst. destruct (H2 e Hev Hst) as (l & f & ? & ? & ?). exists l, f. split_and!; try done. by eapply authentic_mono.
  - intros e Hin. eapply next_ok_mono; eauto.
Qed.

Lemma grows_refl w : grows w w.
Proof. by split. Qed.

Lemma authentic_log moves w w' c fields :
  (∀ e, e ∈ w_log w → e ∈ w_log w') → authentic moves w c fields → authentic moves w' c fields.
Proof. intros Hl (cr & a & Hv & ?). exists cr, a. split; [by apply Hl|done]. Qed.

Lemma inv_set_evidence moves w f :
  (∀ e, rq_owner (f e) = rq_owner e ∧ rq_res (f e) = rq_res e) →
  (∀ e, w_evidence w = Some e → rq_status (f e) = Authenticated →
    ∃ l fields, rq_auth (f e) = Some l ∧ rq_snapshot (f e) = Some fields
      ∧ authentic moves w (mkCall (rq_owner e) (rq_res e)) fields) →
  inv moves w → inv moves (set_evidence (f <$> w_evidence w) w).
Proof.
  intros Hf Ha [H1 H2 H3 H4 H5].
  assert (∀ c, owned w c → owned (set_evidence (f <$> w_evidence w) w) c) as Ho.
  { intros c (e & He & ? & ?). exists (f e). cbn. rewrite He. destruct (Hf e) as [-> ->]. done. }
  split; cbn [set_evidence w_pending w_log w_evidence].
  - intros k Hk. eapply (cont_ok_mono moves moves w); [done|by split|by apply H1].
  - intros e' (e & He & ->)%fmap_Some Hst. destruct (Hf e) as [-> ->]. by apply Ha.
  - intros e He. eapply (next_ok_mono moves moves w); [done|by split|by apply H3].
  - done.
  - intros Hn%fmap_None. by apply H5.
Qed.

Lemma inv_set_status moves w s : s ≠ Authenticated → inv moves w → inv moves (set_status s w).
Proof. intros Hs. apply inv_set_evidence; [done|]. intros e _ Hst. by cbn in Hst. Qed.

Lemma inv_set_auth moves w a : inv moves w → inv moves (set_auth a w).
Proof. intros. by eapply inv_change. Qed.

Lemma inv_await moves w k :
  inv moves w → cont_ok moves w k → (is_main k = true → budget w = 0%nat ∧ w_evidence w ≠ None) →
  inv moves (await k w).
Proof.
  intros [H1 H2 H3 H4 H5] Hk Hm.
  assert (budget (await k w) = budget w + if is_main k then 1 else 0)%nat as Hb.
  { unfold budget, await, set_pending. cbn [w_pending w_log]. rewrite filter_app, length_app, filter_cons.
    destruct (decide (is_main k = true)) as [->|Hn]; cbn; [lia|]. apply not_true_is_false in Hn as ->. cbn. lia. }
  split; try done.
  - intros k' [Hk'|Hk']%elem_of_app; [by apply H1|]. by apply list_elem_of_singleton in Hk' as ->.
  - rewrite Hb. destruct (is_main k); [destruct Hm; [done|lia]|lia].
  - intros Hn. rewrite Hb, H5 by done. destruct (is_main k); [by destruct Hm|done].
Qed.

Lemma inv_log moves w e :
  inv moves w → next_ok moves w e → (is_next e = true → budget w = 0%nat ∧ w_evidence w ≠ None) →
  inv moves (log e w).
Proof.
  intros [H1 H2 H3 H4 H5] He Hm.
  assert (grows w (log e w)) as Hg by (split; [done|]; intros e' ?; cbn; apply elem_of_app; by left).
  assert (budget (log e w) = budget w + if is_next e then 1 else 0)%nat as Hb.
  { unfold budget, log. cbn [w_pending w_log]. rewrite filter_app, length_app, filter_cons.
    destruct (decide (is_next e = true)) as [->|Hn]; cbn; [lia|]. apply not_true_is_false in Hn as ->. cbn. lia. }
  split.
  - intros k Hk. by eapply cont_ok_mono, H1.
  - intros ev Hev Hst. destruct (H2 ev Hev Hst) as (l & f & ? & ? & ?). exists l, f. split_and!; try done. by eapply authentic_mono.
  - intros e' [He'|He']%elem_of_app; [by eapply next_ok_mono, H3|].
    apply list_elem_of_singleton in He' as ->. by eapply next_ok_mono.
  - rewrite Hb. destruct (is_next e); [destruct Hm; [done|lia]|lia].
  - intros Hn. rewrite Hb, H5 by done. destruct (is_next e); [by destruct Hm|done].
Qed.

Lemma inv_deny moves c e scheme hook w : inv moves w → inv moves (deny authenticators c e scheme hook w).
Proof.
  intros Hi. unfold deny. cbv zeta.
  assert (inv moves (set_auth None (set_status Failed w))) by by apply inv_set_auth, inv_set_status.
  destruct (prepare _ _ _ _ _ _); [by apply inv_await|by apply inv_log].
Qed.

(** A main continuation of [c] was taken up. *)
Record idle (moves : list Move) (w : World St) (c : Call) : Prop := {
  idle_inv : inv moves w;
  idle_budget : budget w = 0%nat;
  idle_owned : owned w c
}.

Lemma owned_evidence w c : owned w c → w_evidence w ≠ None.
Proof. by intros (e & -> & _). Qed.

Lemma idle_set_auth moves w c a : idle moves w c → idle moves (set_auth a w) c.
Proof. intros [? ? ?]. split; [by apply inv_set_auth|done|done]. Qed.

Lemma idle_log moves w c e : is_next e = false → idle moves w c → next_ok moves w e → idle moves (log e w) c.
Proof.
  intros Hn [? Hb ?] ?. split; [apply inv_log; try done; by rewrite Hn| |done].
  unfold budget in *. cbn [log w_pending w_log]. rewrite filter_app, length_app, filter_cons.
  rewrite decide_False by by rewrite Hn. cbn. lia.
Qed.

Lemma idle_change moves w w' c :
  idle moves w c → w_evidence w' = w_evidence w → w_pending w' = w_pending w → w_log w' = w_log w → idle moves w' c.
Proof.
  intros [Hi Hb Ho] He Hp Hl. split; [by eapply inv_change| |].
  - unfold budget. by rewrite Hp, Hl.
  - destruct Ho as (e & ? & ?). exists e. by rewrite He.
Qed.

Lemma inv_catch moves c e scheme nonce stage w :
  idle moves w c → inv moves (catch_error authenticators c e scheme nonce stage w).
Proof.
  intros [Hi Hb Ho]. unfold catch_error. destruct (status_is Pending w); [|by apply inv_set_auth].
  destruct (prepare _ _ _ _ _ _) as [response|]; [|by apply inv_log]. cbv zeta.
  set (anonymous := _ && _). set (s := if anonymous then Invalid else _).
  assert (s ≠ Authenticated) as Hs by (unfold s; destruct anonymous; [done|by destruct (bool_decide _)]).
  apply inv_await; [by apply inv_set_auth, inv_set_status| |].
  - cbn. intros Ha. split; [|unfold anonymous in Ha; by destruct (au_optional _)].
    destruct Ho as (ev & Hev & ? & ?). exists (with_status ev s). cbn. by rewrite Hev.
  - intros _. split; [exact Hb|]. cbn. destruct Ho as (ev & -> & _). done.
Qed.

(** ** The steps *)

Lemma context_security m token x y :
  context_of m token x y !! FToken = Some (VPrim (JStr token))
  ∧ context_of m token x y !! FConfirmation = x ∧ context_of m token x y !! FDeviceBinding = y.
Proof. unfold context_of, set_optional. destruct x, y; split_and!; by simplify_map_eq. Qed.

Lemma reported_confirmation v c :
  snapshotAccessTokenConfirmation v = Ok c → v = confirmation_value c.
Proof.
  unfold snapshotAccessTokenConfirmation. destruct v; try (by intros [= <-]); intros Hs;
    res_step Hs as jkt Hj; injection Hs as <-; by apply snapshot_jkt in Hj as [-> _].
Qed.

Lemma inv_attach moves c cr m conf b w a :
  idle moves w c → Validated c cr a ∈ w_log w →
  (∀ o1 o2, constrained moves c cr a (confirmation_field o1 conf) (VBinding o2 <$> b)) →
  inv moves (attach c cr m conf b w).
Proof.
  intros Hi Hv Hc. unfold attach. cbv zeta.
  set (w' := set_objects _ _). assert (idle moves w' c) as [? Hb Ho] by by eapply idle_change.
  apply inv_await; [done| |intros _; split; [done|by eapply owned_evidence]].
  split; [done|]. by exists a.
Qed.

(** The first handler of a request. *)
Lemma inv_first_evidence moves w e :
  inv moves w → w_evidence w = None → rq_status e ≠ Authenticated → inv moves (set_evidence (Some e) w).
Proof.
  intros Hi He Hs. pose proof (inv_fresh _ _ Hi He) as Hb. destruct Hi as [H1 H2 H3 H4 H5]. split; try done.
  - intros k Hk. assert (is_main k = false) as Hm.
    { apply not_true_is_false. intros Hm. unfold budget in Hb.
      assert (k ∈ filter (λ k, is_main k = true) (w_pending w)) as Hin by by apply list_elem_of_filter.
      destruct (filter _ (w_pending w)); [by apply not_elem_of_nil in Hin|]. cbn in Hb. lia. }
    destruct k as [| | |? ? anon ?]; try done. cbn in *. by rewrite Hm.
  - by intros e' [= <-] Hst.
Qed.

Lemma inv_authenticate moves c rf w : inv moves w → inv moves (authenticate authenticators c rf w).
Proof.
  intros Hi. unfold authenticate. destruct (w_evidence w) as [e|] eqn:He; [by apply inv_deny|]. cbv zeta.
  pose proof (inv_fresh _ _ Hi He) as Hb. set (w1 := set_auth None _).
  assert (idle moves w1 c) as Hidle.
  { split; [by apply inv_set_auth, inv_first_evidence|exact Hb|by eexists]. }
  destruct (au_optional (authenticators (ca_owner c)) && _ && _) eqn:Hopt.
  - apply andb_true_iff in Hopt as [[Hopt _]%andb_true_iff _].
    assert (inv moves (set_status Missing w1)) as Hi2 by by apply inv_set_status, Hidle.
    destruct (headersSent _ _); [by apply inv_set_auth|]. by apply inv_log.
  - destruct (policy_of c) as [p|].
    + destruct (read_credential _) as [[scheme token]|e]; [|by apply inv_catch].
      destruct Hidle as [? ? Ho]. apply inv_await; [done|exact Ho|]. intros _. split; [done|]. by eapply owned_evidence.
    + destruct (res_bind _ _) as [token|e]; [|by apply inv_catch].
      destruct Hidle as [? ? Ho]. apply inv_await; [done|exact Ho|]. intros _. split; [done|]. by eapply owned_evidence.
Qed.

Lemma inv_validator moves c cr answer w :
  idle moves w c → inv moves (validator_settled authenticators c cr answer w).
Proof.
  intros Hi. unfold validator_settled. cbv zeta. destruct answer as [a|r]; [|by apply inv_catch].
  destruct (negb _); [apply inv_set_auth, Hi|]. set (w1 := log _ _).
  assert (idle moves w1 c) as Hi1 by by apply idle_log; [|apply idle_set_auth|].
  assert (Validated c cr a ∈ w_log w1) as Hv by (cbn; apply elem_of_app; right; by apply list_elem_of_singleton).
  destruct (read_answer (policy_of c) a) as [[conf m]|e] eqn:Ha; [|by apply inv_catch].
  pose proof Ha as Hread. unfold read_answer in Ha. res_step Ha as conf' Hconf. res_step Ha as m' Hm.
  injection Ha as -> ->. destruct (policy_of c) as [p|] eqn:Hp.
  - assert (∃ o, va_confirmation a = confirmation_value o
      ∧ conf = match o with Some jkt => Bound jkt | None => Unbound end) as (o & Hva & Hconf').
    { res_step Hconf as o Ho. injection Hconf as <-. exists o. by apply reported_confirmation in Ho. }
    destruct (check_presentation p cr conf) as [[proof|]|e] eqn:Hpres; [|..|by apply inv_catch].
    + destruct Hi1 as [? ? Ho]. apply inv_await; [done| |intros _; split; [done|by eapply owned_evidence]].
      split; [done|]. by exists a, p, m.
    + eapply inv_attach; [done|exact Hv|]. intros o1 o2. unfold check_presentation in Hpres. cbv zeta in Hpres.
      res_step Hpres as u1 H1. res_step Hpres as u2 H2. res_step Hpres as u3 H3. res_step Hpres as pr Hpr.
      res_step Hpres as u4 H4. injection Hpres as ->. apply guard_Ok in H2, H3, H4. subst conf.
      destruct o as [jkt|]; [by cbn in H4|]. cbn in H2, H3.
      apply constrained_unbound; [by left| |by right|done].
      intros p'. rewrite Hp. intros [= <-]. apply negb_true_iff, bool_decide_eq_false in H2, H3.
      split; [by destruct (cr_scheme cr)|by destruct (db_mode _)].
  - assert ((conf = NotReported ∧ va_confirmation a = JUndef) ∨ ∃ o, va_confirmation a = confirmation_value o
      ∧ conf = match o with Some jkt => Bound jkt | None => Unbound end) as Hcases.
    { destruct (va_confirmation a) eqn:Hva; try (injection Hconf as <-; by left);
        right; res_step Hconf as o Ho; injection Hconf as <-; exists o; by apply reported_confirmation in Ho. }
    destruct Hcases as [[-> Hva]|(o & Hva & ->)].
    + eapply inv_attach; [done|exact Hv|]. intros. apply constrained_unbound; [by right|by rewrite Hp|by left|done].
    + destruct o as [jkt|]; [by apply inv_catch|].
      eapply inv_attach; [done|exact Hv|]. intros. apply constrained_unbound; [by left|by rewrite Hp|by right|done].
Qed.

Lemma admission_key p cr jkt proof env st b e :
  (admission p cr jkt proof env st).1 = Ok (Accepted b e) →
  ∃ r, verifyProof (proof_input p cr jkt proof) = Ok r ∧ vb_jkt b = po_jkt r
    ∧ ∀ k, jkt = Some k → po_jkt r = k.
Proof.
  unfold ApiAuthenticator.admission. destruct (verifyAndReserve _ _ _ _ _) as [o st'] eqn:Hv. cbn. intros ->.
  apply accepted_candidate in Hv as (v & cand & Hr & Hc & ->). cbn [en_verified] in Hr.
  res_step Hr as r Hver. injection Hr as <-. exists r. split; [done|]. split; [by eapply result_candidate|].
  intros k ->. apply verified_inv in Hver as (h & cl & jwk & Hpv). by apply (pv_expected _ _ _ _ _ _ _ _ _ Hpv).
Qed.

Lemma inv_replay moves c cr m conf proof env w :
  idle moves w c → cont_ok moves w (KReplay c cr m conf proof) → w_store w = w_store (runs moves) →
  inv moves (replay_settled parse_url sha256 hmac_sha256 jws_verify thumbprint authenticators c cr m conf proof env w).
Proof.
  intros Hi [_ (a & p & m' & Hv & Hp & Hread & Hpres)] Hst. unfold replay_settled. rewrite Hp. cbv zeta.
  destruct (ApiAuthenticator.admission _ _ _ _ _ _ _ _ _ _ _) as [o st] eqn:Hadm. rewrite Hst in Hadm.
  set (w1 := set_store st w). assert (idle moves w1 c) as Hi1 by by eapply idle_change.
  destruct o as [[b e|nonce]|e]; [| |by apply inv_catch]; (destruct (negb _); [apply inv_set_auth, Hi1|]).
  2: { destruct (toDpopNonceChallengeResponse _ _ _); by apply inv_catch. }
  assert (idle moves (log (ProofAdmitted c cr (bound_jkt conf) b) w1) c) as Hi2 by by apply idle_log.
  eapply inv_attach; [done|cbn; apply elem_of_app; left; exact Hv|]. intros o1 o2.
  unfold read_answer in Hread. res_step Hread as conf' Hconf. res_step Hread as m1 Hm. injection Hread as -> ->.
  res_step Hconf as o Ho. injection Hconf as <-. apply reported_confirmation in Ho.
  unfold check_presentation in Hpres. cbv zeta in Hpres.
  res_step Hpres as u1 H1. res_step Hpres as u2 H2. res_step Hpres as u3 H3. res_step Hpres as pr Hpr.
  res_step Hpres as u4 H4. injection Hpres as ->. apply guard_Ok, negb_true_iff in H1, H2, H3.
  destruct o as [jkt|]; cbn in *.
  - destruct (admission_key p cr (Some jkt) proof env (w_store (runs moves)) b e) as (r & Hr & Hb & Hk).
    { by rewrite Hadm. }
    apply negb_false_iff, bool_decide_eq_true in H1.
    eapply (constrained_bound moves c cr a _ _ p jkt o1 o2 b moves env proof r e); try done.
    + rewrite Hb. by apply Hk.
    + by apply Hk.
    + by rewrite Hadm.
  - apply bool_decide_eq_false in H2, H3. apply constrained_unbound; [by left| |by right|done].
    intros p'. rewrite Hp. intros [= <-]. split; [by destruct (cr_scheme cr)|by destruct (db_mode _)].
Qed.

Lemma inv_hook moves c cr m conf x y l outcome w :
  idle moves w c → cont_ok moves w (KHook c cr m conf x y l) →
  inv moves (hook_settled authenticators c cr x y l outcome w).
Proof.
  intros Hi [_ (a & Hv & Hc)]. unfold hook_settled.
  assert (∀ e, inv moves (hook_failed authenticators c cr e w)) as Hfail.
  { intros e. unfold hook_failed. destruct (negb _); [apply inv_set_auth, Hi|apply inv_deny, Hi]. }
  destruct outcome as [e|]; [done|]. destruct (negb _); [apply inv_set_auth, Hi|].
  destruct (restoreAuth _ _ _ _) as [fields|e] eqn:Hr; [|done]. cbv zeta.
  set (w1 := new_context fields w). assert (idle moves w1 c) as [Hi1 Hb Ho] by by eapply idle_change.
  assert (authentic moves w1 c fields) as Hf.
  { unfold restoreAuth in Hr. res_step Hr as v1 E1. res_step Hr as v2 E2. res_step Hr as v3 E3. res_step Hr as v4 E4.
    injection Hr as <-. destruct (context_security (mkMapped v1 v2 v3 v4) (cr_token cr) x y) as (? & Hx & Hy).
    exists cr, a. rewrite Hx, Hy. done. }
  set (w2 := set_evidence _ w1).
  assert (inv moves w2) as Hi2.
  { apply inv_set_evidence; [done| |done]. intros e He _. cbn. eexists _, fields. split_and!; try done.
    destruct Ho as (e' & He' & Hown & Hres).
    assert (e' = e) as -> by (cbn in *; congruence). rewrite Hown, Hres. by destruct c. }
  apply inv_log; [done|exists fields; exact Hf|]. intros _. split; [exact Hb|].
  destruct Ho as (e' & He' & _). cbn in *. by rewrite He'.
Qed.

Lemma inv_observer moves c e anonymous r w :
  inv moves w → (anonymous = true → idle moves w c ∧ au_optional (authenticators (ca_owner c)) = true) →
  inv moves (observer_settled c e anonymous r w).
Proof.
  intros Hi Ha. unfold observer_settled. cbv zeta. pose proof (inv_set_auth _ _ None Hi) as Hi1.
  destruct (headersSent _ _); [by apply inv_log|].
  destruct (anonymous && _) eqn:Hb.
  - apply andb_true_iff in Hb as [-> _]. destruct (Ha eq_refl) as [[_ Hb Ho] Hopt].
    apply inv_log; [done|exact Hopt|]. intros _. split; [exact Hb|]. by eapply owned_evidence.
  - apply inv_log; [|done..]. by eapply inv_change.
Qed.

Lemma inv_guard moves bound c w : inv moves w → inv moves (run_guard authenticators bound c w).
Proof.
  intros Hi. unfold run_guard. destruct (negb _).
  - unfold rejectGuard. destruct (w_evidence w) as [ev|] eqn:He; [by apply inv_deny|].
    by apply inv_deny, inv_first_evidence.
  - destruct (bound && _); [by apply inv_deny|]. by apply inv_log.
Qed.

Lemma take_pending moves w i k :
  inv moves w → w_pending w !! i = Some k →
  let w' := set_pending (delete i (w_pending w)) w in
  inv moves w' ∧ cont_ok moves w k ∧ (is_main k = true → budget w' = 0%nat).
Proof.
  intros [H1 H2 H3 H4 H5] Hk w'. pose proof (list_elem_of_lookup_2 _ _ _ Hk) as Hin.
  pose proof (delete_Permutation _ _ _ Hk) as Hp.
  assert (budget w' + (if is_main k then 1 else 0) = budget w)%nat as Hb.
  { unfold budget, w'. cbn [set_pending w_pending w_log].
    pose proof (Permutation_length (filter_Permutation (λ k, is_main k = true) _ _ Hp)) as Hl.
    rewrite filter_cons in Hl. destruct (is_main k) eqn:Hm.
    - rewrite decide_True in Hl by done. cbn in Hl. cbn. lia.
    - rewrite decide_False in Hl by (by rewrite Hm || done). lia. }
  split_and!.
  - split; try done.
    + intros k' Hk'. apply H1. rewrite Hp. by right.
    + lia.
    + intros Hn. specialize (H5 Hn). lia.
  - by apply H1.
  - intros Hm. rewrite Hm in Hb. lia.
Qed.

Lemma inv_settle moves w i k s :
  inv moves w → w_pending w !! i = Some k → w_store w = w_store (runs moves) →
  inv moves (settle parse_url sha256 hmac_sha256 jws_verify thumbprint authenticators k s
               (set_pending (delete i (w_pending w)) w)).
Proof.
  intros Hi Hk Hst. destruct (take_pending _ _ _ _ Hi Hk) as (Hi' & Hc & Hb).
  set (w' := set_pending _ w) in *.
  assert (cont_ok moves w' k) as Hc' by by (eapply cont_ok_mono; [| |exact Hc]).
  assert (inv moves (await k w')) as Hback.
  { apply inv_await; [done|done|]. intros Hm. split; [by apply Hb|].
    destruct k; apply (owned_evidence w' c); by apply Hc'. }
  destruct k as [c cr|c cr m conf proof|c cr m conf x y l|c e anon r], s; try exact Hback; cbn [settle].
  - apply inv_validator. split; [done|by apply Hb|exact Hc'].
  - apply inv_replay; [|done|done]. split; [done|by apply Hb|apply Hc'].
  - eapply inv_hook; [|exact Hc']. split; [done|by apply Hb|apply Hc'].
  - apply inv_observer; [done|]. intros Ha. destruct (Hc' Ha) as [Ho Hopt]. split; [|done].
    split; [done|by apply Hb|done].
Qed.

Lemma inv_exec moves m w :
  inv moves w → w_store w = w_store (runs moves) → inv moves (exec m w).
Proof.
  intros Hi Hst. destruct m as [c rf|b c|i s|a|l f p|ctx|res|key e now]; cbn [ApiAuthenticator.exec].
  - by apply inv_authenticate.
  - by apply inv_guard.
  - destruct (w_pending w !! i) as [k|] eqn:Hk; [by apply inv_settle|done].
  - by apply inv_set_auth.
  - by eapply inv_change.
  - by eapply inv_change.
  - by eapply inv_change.
  - by eapply inv_change.
Qed.

Lemma run_snoc moves m : runs (moves ++ [m]) = exec m (runs moves).
Proof. unfold run. by rewrite fold_left_app. Qed.

Lemma auth_run_inv moves : inv moves (runs moves).
Proof.
  induction moves as [|m moves IH] using rev_ind.
  - split; cbn; try done; [intros k Hk; by apply not_elem_of_nil in Hk|intros e He; by apply not_elem_of_nil in He|].
    unfold budget. cbn. lia.
  - rewrite run_snoc. eapply inv_change; [by apply prefix_app_r|by apply inv_exec|done..].
Qed.

(** ** Theorems *)

Lemma guard_passes bound c (w : World St) :
  w_log (run_guard authenticators bound c w) = w_log w ++ [Next (ByGuard bound) c (w_auth w)] →
  status_is Authenticated w = true ∧ same_call c w = true ∧ intact w = true ∧ (bound = true → has_binding w = true).
Proof.
  assert (∀ c' e h (v : World St), w_log (deny authenticators c' e None h v) = w_log v ++ [Next (ByGuard bound) c (w_auth w)] → False) as Hd.
  { intros c' e h v. unfold deny. cbv zeta. destruct (prepare _ _ _ _ _ _); cbn.
    - intros Hl%(f_equal length). rewrite length_app in Hl. cbn in Hl. lia.
    - intros Hl%app_inj_tail. destruct Hl. done. }
  intros Hl. unfold run_guard in Hl. destruct (status_is Authenticated w && same_call c w && intact w) eqn:Hg; cbn in Hl.
  - rewrite !andb_true_iff in Hg. destruct Hg as [[? ?] ?]. split_and!; try done. intros ->.
    destruct (has_binding w); [done|]. exfalso. eapply Hd. exact Hl.
  - exfalso. unfold rejectGuard in Hl. destruct (w_evidence w); eapply Hd; exact Hl.
Qed.

Lemma value_eqb_prim v s : value_eqb v (VPrim (JStr s)) = true → v = VPrim (JStr s).
Proof. destruct v as [[]| | |]; cbn; try done. intros ->%jsstr_eqb_true. done. Qed.

Lemma value_eqb_security v v' :
  v' = VPrim JNull ∨ (∃ o jkt, v' = VConfirmation o jkt) ∨ (∃ o b, v' = VBinding o b) →
  value_eqb v v' = true → v = v'.
Proof.
  intros [->|[(o & jkt & ->)|(o & [j a] & ->)]]; destruct v as [x| |o' j'|o' [j' a']]; cbn; try done.
  - by destruct x.
  - intros [->%Nat.eqb_eq ->%jsstr_eqb_true]%andb_true_iff. done.
  - intros [[->%Nat.eqb_eq ->%jsstr_eqb_true]%andb_true_iff ->%bool_decide_eq_true]%andb_true_iff. done.
Qed.

Lemma intact_field ctx snapshot f v :
  field_intact ctx snapshot f = true → snapshot !! f = Some v →
  ∃ v', ctx !! f = Some (PData v') ∧ value_eqb v' v = true.
Proof. unfold field_intact. intros Hf Hs. rewrite Hs in Hf. destruct (ctx !! f) as [[v'|]|]; try done. eauto. Qed.

Lemma intact_security ctx snapshot f :
  field_intact ctx snapshot f = true →
  (∀ v, snapshot !! f = Some v → v = VPrim JNull ∨ (∃ o jkt, v = VConfirmation o jkt) ∨ (∃ o b, v = VBinding o b)) →
  ctx !! f = PData <$> snapshot !! f.
Proof.
  intros Hf Hs. destruct (snapshot !! f) as [v|] eqn:E.
  - destruct (intact_field _ _ _ _ Hf E) as (v' & -> & Hv). by rewrite (value_eqb_security v' v) by eauto.
  - unfold field_intact in Hf. rewrite E in Hf. by apply bool_decide_eq_true in Hf.
Qed.

Lemma constrained_values moves c cr a x y :
  constrained moves c cr a x y →
  (∀ v, x = Some v → v = VPrim JNull ∨ (∃ o jkt, v = VConfirmation o jkt) ∨ (∃ o b, v = VBinding o b))
  ∧ (∀ v, y = Some v → v = VPrim JNull ∨ (∃ o jkt, v = VConfirmation o jkt) ∨ (∃ o b, v = VBinding o b)).
Proof.
  intros [_ _ [-> | ->] ->|p jkt o1 o2 b before env proof r e _ _ _ -> -> _ _ _ _ _ _]; split; intros v; try done;
    intros [= <-]; eauto.
Qed.


(** ** What goes downstream *)

(** No new [Next] of [authenticate] in the log. *)
Definition silent (w w' : World St) : Prop :=
  ∀ c auth, Next ByAuthenticate c auth ∈ w_log w' → Next ByAuthenticate c auth ∈ w_log w.

Lemma silent_same (w w' : World St) : w_log w' = w_log w → silent w w'.
Proof. intros E c auth. by rewrite E. Qed.
Lemma silent_event e (w w' : World St) : is_next e = false → silent w w' → silent w (log e w').
Proof. intros He Hs c auth [Hin|Hin]%elem_of_app; [by apply Hs|]. apply list_elem_of_singleton in Hin. by subst. Qed.
#[local] Hint Resolve silent_same silent_event : core.

Lemma silent_deny c e scheme hook (w w' : World St) : silent w w' → silent w (deny authenticators c e scheme hook w').
Proof. intros Hs. unfold deny. cbv zeta. destruct (prepare _ _ _ _ _ _); [exact Hs|by apply silent_event]. Qed.
Lemma silent_catch c e scheme nonce stage (w w' : World St) : silent w w' → silent w (catch_error authenticators c e scheme nonce stage w').
Proof.
  intros Hs. unfold catch_error. destruct (status_is Pending w'); [|exact Hs]. destruct (prepare _ _ _ _ _ _); [exact Hs|by apply silent_event].
Qed.
#[local] Hint Resolve silent_deny silent_catch : core.

Lemma silent_guard bound c (w : World St) : silent w (run_guard authenticators bound c w).
Proof.
  unfold run_guard, rejectGuard. destruct (negb _); [destruct (w_evidence w); auto|]. destruct (bound && _); auto.
Qed.
Lemma silent_validator c cr answer (w w' : World St) : silent w w' → silent w (validator_settled authenticators c cr answer w').
Proof.
  intros Hs. unfold validator_settled. cbv zeta. destruct answer as [a|r]; [|by auto]. destruct (negb _); [exact Hs|].
  set (w1 := log (Validated c cr a) (set_auth None w')). assert (silent w w1) as H1 by (by apply silent_event). clearbody w1.
  destruct (read_answer _ _) as [[conf m]|e]; [|by auto]. destruct (policy_of c) as [p|].
  - destruct (check_presentation _ _ _) as [[proof|]|e]; [exact H1|exact H1|by auto].
  - destruct conf; [exact H1|exact H1|by auto].
Qed.
Lemma silent_replay c cr m conf proof env (w w' : World St) : silent w w' →
  silent w (replay_settled parse_url sha256 hmac_sha256 jws_verify thumbprint authenticators c cr m conf proof env w').
Proof.
  intros Hs. unfold replay_settled. cbv zeta. destruct (policy_of c) as [p|]; [|exact Hs].
  destruct (ApiAuthenticator.admission _ _ _ _ _ _ _ _ _ _ _) as [outcome st].
  assert (silent w (set_store st w')) as H1 by exact Hs. set (w1 := set_store st w') in *. clearbody w1.
  destruct outcome as [r|e]; [|by auto]. destruct (negb _); [exact H1|]. destruct r as [b e|nonce].
  - exact (silent_event (ProofAdmitted c cr (bound_jkt conf) b) w w1 eq_refl H1).
  - destruct (toDpopNonceChallengeResponse _ _ _); by auto.
Qed.

(** The request as it goes downstream, in the world that leaves it there: [req.auth] is [auth], and when there is
    one, that object's token is the one the validator vouched for, and its constraint the one established. *)
Definition passed (moves : list Move) (w : World St) (c : Call) (auth : option (option nat)) : Prop :=
  last (w_log w) = Some (Next ByAuthenticate c auth) ∧ w_auth w = auth
  ∧ match auth with
    | None => au_optional (authenticators (ca_owner c)) = true
    | Some None => False
    | Some (Some l) =>
        ∃ ctx cr a confirmation binding, w_contexts w !! l = Some ctx ∧ Validated c cr a ∈ w_log w
          ∧ ctx !! FToken = Some (PData (VPrim (JStr (cr_token cr))))
          ∧ ctx !! FConfirmation = PData <$> confirmation ∧ ctx !! FDeviceBinding = PData <$> binding
          ∧ constrained moves c cr a confirmation binding
    end.

Lemma settle_passed moves i k s (w : World St) c auth :
  inv moves w → w_pending w !! i = Some k →
  Next ByAuthenticate c auth ∈ w_log (exec (MSettle i s) w) →
  Next ByAuthenticate c auth ∈ w_log w ∨ passed moves (exec (MSettle i s) w) c auth.
Proof.
  intros Hi Hk. cbn [ApiAuthenticator.exec]. rewrite Hk. set (w' := set_pending _ w).
  pose proof (inv_pending _ _ Hi k (list_elem_of_lookup_2 _ _ _ Hk)) as Hc.
  assert (silent w w') as Hs by by apply silent_same.
  assert (∀ w2, silent w w2 → Next ByAuthenticate c auth ∈ w_log w2 → Next ByAuthenticate c auth ∈ w_log w ∨ passed moves w2 c auth) as Hq
    by (intros w2 H2 Hin; left; by apply H2).
  destruct k as [c0 cr|c0 cr m conf proof|c0 cr m conf x y l|c0 e anon r], s as [ans|env|o|]; try (by apply Hq); cbn [settle].
  - by apply Hq, silent_validator.
  - by apply Hq, silent_replay.
  - unfold hook_settled, hook_failed. destruct o as [e|]; [apply Hq; destruct (negb _); [exact Hs|by apply silent_deny]|].
    destruct (negb _); [by apply Hq|]. destruct (restoreAuth _ _ _ _) as [fields|e] eqn:Er; [|apply Hq; by apply silent_deny].
    cbv zeta. set (w2 := set_evidence _ _). intros [Hin|Hin]%elem_of_app; [left; exact Hin|].
    apply list_elem_of_singleton in Hin. injection Hin as -> ->. right.
    destruct Hc as [_ (a & Hv & Hcon)]. split; [by apply last_snoc|]. split; [done|]. cbn [w_auth w2 set_evidence new_context set_auth].
    unfold restoreAuth in Er. res_step Er as v1 _. res_step Er as v2 _. res_step Er as v3 _. res_step Er as v4 _. injection Er as <-.
    set (mapped := mkMapped v1 v2 v3 v4) in *. destruct (context_security mapped (cr_token cr) x y) as (E1 & E2 & E3).
    exists (PData <$> context_of mapped (cr_token cr) x y), cr, a, x, y.
    split; [change (w_contexts w ++ [PData <$> context_of mapped (cr_token cr) x y] !! length (w_contexts w)
                    = Some (PData <$> context_of mapped (cr_token cr) x y)) || cbn|].
    { rewrite lookup_app_r by done. by rewrite Nat.sub_diag. }
    split; [cbn; apply elem_of_app; by left|]. rewrite !lookup_fmap, E1, E2, E3. done.
  - unfold observer_settled. cbv zeta. destruct (headersSent _ _); [by apply Hq, silent_event|].
    destruct (anon && _) eqn:Ea; [|by apply Hq, silent_event]. intros [Hin|Hin]%elem_of_app; [left; exact Hin|].
    apply list_elem_of_singleton in Hin. injection Hin as -> ->. right. apply andb_true_iff in Ea as [-> _].
    split; [by apply last_snoc|]. split; [done|]. cbn. by destruct (Hc eq_refl).
Qed.

Lemma exec_passed moves m (w : World St) c auth :
  inv moves w → Next ByAuthenticate c auth ∈ w_log (exec m w) →
  Next ByAuthenticate c auth ∈ w_log w ∨ passed moves (exec m w) c auth.
Proof.
  intros Hi. destruct m as [c0 rf|b c0|i s|a|l f p|ctx|res|key e now]; try (by left).
  - cbn [ApiAuthenticator.exec]. unfold authenticate. destruct (w_evidence w) as [ev|]; [intros Hin; left; revert Hin; by apply silent_deny, silent_same|].
    cbv zeta. set (w1 := set_auth None _). assert (silent w w1) as H1 by by apply silent_same.
    destruct (au_optional (authenticators (ca_owner c0)) && _ && _) eqn:Eo.
    + destruct (headersSent _ _); [intros Hin; left; exact Hin|]. intros [Hin|Hin]%elem_of_app; [left; exact Hin|].
      apply list_elem_of_singleton in Hin. injection Hin as -> ->. right. apply andb_true_iff in Eo as [[Eo _]%andb_true_iff _].
      split; [by apply last_snoc|]. split; [done|]. exact Eo.
    + intros Hin. left. apply H1.
      assert (∀ e scheme, silent w1 (catch_error authenticators c0 e scheme None AtCredential w1)) as H2
        by (intros e scheme; by apply silent_catch, silent_same).
      destruct (policy_of c0) as [p|]; [destruct (read_credential _) as [[sch tok]|e]|destruct (res_bind _ _) as [tok|e]];
        first [exact Hin|exact (H2 _ _ _ _ Hin)].
  - intros Hin. left. revert Hin. by apply silent_guard.
  - destruct (w_pending w !! i) as [k|] eqn:Hk; [by eapply settle_passed|]. cbn [ApiAuthenticator.exec]. rewrite Hk. by left.
Qed.

Lemma passed_mono m1 m2 w c auth : m1 `prefix_of` m2 → passed m1 w c auth → passed m2 w c auth.
Proof.
  intros Hp (H1 & H2 & H3). split; [done|]. split; [done|]. destruct auth as [[l|]|]; [|done..].
  destruct H3 as (ctx & cr & a & x & y & ? & ? & ? & ? & ? & Hc). exists ctx, cr, a, x, y. split_and!; try done.
  by eapply constrained_mono.
Qed.

(** C38: However handlers, hooks and observers interleave, and however many authenticators share the request,
    [authenticate] passes it downstream at most once. When it does, the step that does leaves in [req.auth] what it
    passes on: nothing, only under optional authentication; or the context object, whose token is, whatever
    the hook did to the object it was given, the one that the validator vouched for, and whose confirmation and
    device binding are the ones that were established for this request: unbound, presented as Bearer where the
    policy permits it, or bound to the key of a proof of this very request that the replay store admitted. *)
Theorem downstream_once (moves : list Move) :
  (length (filter (λ e, is_next e = true) (w_log (runs moves))) <= 1)%nat
  ∧ ∀ c auth, Next ByAuthenticate c auth ∈ w_log (runs moves) →
      ∃ before m, (before ++ [m]) `prefix_of` moves ∧ passed (before ++ [m]) (runs (before ++ [m])) c auth.
Proof.
  split; [pose proof (inv_budget _ _ (auth_run_inv moves)) as Hb; unfold budget in Hb; lia|].
  intros c auth. induction moves as [|m moves IH] using rev_ind; [by intros Hin%not_elem_of_nil|].
  rewrite run_snoc. intros Hin. apply (exec_passed moves) in Hin as [Hin|Hp]; [| |apply auth_run_inv].
  - destruct (IH Hin) as (before & m0 & Hpre & Hp). exists before, m0. split; [|exact Hp]. etrans; [exact Hpre|by apply prefix_app_r].
  - exists moves, m. split; [done|]. rewrite run_snoc. eapply passed_mono; [|exact Hp]. by apply prefix_app_r.
Qed.

Definition is_downstream (e : Event) : bool := match e with Next _ _ _ => true | _ => false end.
Definition downstream (w : World St) : list Event := filter (λ e, is_downstream e = true) (w_log w).

(** [w] is poisoned and stays so; nothing went downstream meanwhile. *)
Definition stays_failed (w w' : World St) : Prop := status_is Failed w' = true ∧ downstream w' = downstream w.

Lemma status_other s s' (w : World St) : status_is s w = true → s ≠ s' → status_is s' w = false.
Proof.
  unfold status_is. destruct (w_evidence w); [|done]. intros ->%bool_decide_eq_true Hs. by apply bool_decide_eq_false.
Qed.

Lemma deny_failed c e scheme hook (w : World St) :
  w_evidence w ≠ None → stays_failed w (deny authenticators c e scheme hook w).
Proof.
  intros He. unfold stays_failed, deny, downstream. cbv zeta.
  assert (status_is Failed (set_status Failed w) = true) as Hs.
  { unfold status_is, set_status. cbn. destruct (w_evidence w); [|done]. cbn. by apply bool_decide_eq_true. }
  destruct (prepare _ _ _ _ _ _); cbn [await set_pending log w_log set_auth set_status set_evidence]; (split; [exact Hs|]).
  - done.
  - by rewrite filter_app, filter_cons_False, filter_nil, app_nil_r.
Qed.

Lemma catch_failed c e scheme nonce stage (w : World St) :
  status_is Failed w = true → stays_failed w (catch_error authenticators c e scheme nonce stage w).
Proof. intros Hs. unfold catch_error. by rewrite (status_other Failed Pending w). Qed.

Lemma exec_failed m (w : World St) : status_is Failed w = true → stays_failed w (exec m w).
Proof.
  intros Hs. pose proof (status_other Failed Pending w Hs ltac:(done)) as Hp.
  pose proof (status_other Failed Invalid w Hs ltac:(done)) as Hi.
  pose proof (status_other Failed Authenticated w Hs ltac:(done)) as Ha.
  assert (w_evidence w ≠ None) as He by (unfold status_is in Hs; by destruct (w_evidence w)).
  destruct m as [c rf|b c|i s|a|l f p|ctx|res|key e now]; cbn [ApiAuthenticator.exec]; try done.
  - unfold authenticate. destruct (w_evidence w) eqn:Ew; [|done]. apply deny_failed. by rewrite Ew.
  - unfold run_guard, rejectGuard. rewrite Ha. cbn [andb negb]. destruct (w_evidence w) eqn:Ew; [|done].
    apply deny_failed. by rewrite Ew.
  - destruct (w_pending w !! i) as [k|]; [|done]. set (w' := set_pending _ w).
    destruct k as [c cr|c cr m conf proof|c cr m conf x y l|c e anon r], s as [ans|env|o|]; try done; cbn [settle].
    + unfold validator_settled. destruct ans; [|exact (catch_failed _ _ _ _ _ w' Hs)]. change (status_is Pending w') with (status_is Pending w).
      by rewrite Hp.
    + unfold replay_settled. destruct (policy_of c); [|done].
      destruct (ApiAuthenticator.admission _ _ _ _ _ _ _ _ _ _ _) as [[r|e] st]; [|exact (catch_failed _ _ _ _ _ (set_store st w') Hs)].
      change (status_is Pending (set_store st w')) with (status_is Pending w). by rewrite Hp.
    + unfold hook_settled, hook_failed. change (status_is Pending w') with (status_is Pending w). rewrite Hp. by destruct o.
    + unfold observer_settled. destruct (headersSent _ _).
      * split; [done|]. unfold downstream. cbn [log w_log set_auth w' set_pending].
        by rewrite filter_app, filter_cons_False, filter_nil, app_nil_r.
      * change (status_is Invalid (set_auth None w')) with (status_is Invalid w). rewrite Hi, andb_false_r.
        split; [done|]. unfold downstream. cbn [log w_log set_auth w' set_pending set_sent].
        by rewrite filter_app, filter_cons_False, filter_nil, app_nil_r.
Qed.

Lemma run_failed moves (w : World St) :
  status_is Failed w = true →
  stays_failed w (run parse_url sha256 hmac_sha256 jws_verify thumbprint authenticators moves w).
Proof.
  revert w. induction moves as [|m moves IH]; intros w Hs; [done|].
  destruct (exec_failed m w Hs) as [Hs' Hd]. destruct (IH _ Hs') as [Hs2 Hd2]. split; [exact Hs2|exact (eq_trans Hd2 Hd)].
Qed.

(** C36: A second call of any authenticator on a request, at whatever point of the first one and of
    its hooks, poisons it for good: pending work neither attaches a context nor goes
    downstream, and no guard lets the request through afterwards. *)
Theorem reentry_poisons (moves later : list Move) (c : Call) (rf : RequestFacts) :
  w_evidence (runs moves) ≠ None →
  let w := runs (moves ++ MAuthenticate c rf :: later) in
  status_is Failed w = true ∧ downstream w = downstream (runs moves).
Proof.
  intros He. cbv zeta. unfold run. rewrite fold_left_app. cbn [fold_left ApiAuthenticator.exec].
  set (w := fold_left _ moves _) in *. unfold authenticate. destruct (w_evidence w) eqn:Ew; [|done].
  destruct (deny_failed c reentryError None false w) as [Hs Hd]; [by rewrite Ew|].
  destruct (run_failed later _ Hs) as [Hs2 Hd2]. split; [exact Hs2|exact (eq_trans Hd2 Hd)].
Qed.

Lemma credential_present authorization r :
  read_credential authorization = Ok r → rh_count authorization = 1%nat.
Proof.
  unfold read_credential. cbv zeta. intros Hr. res_step Hr as u H1. res_step Hr as u' H2.
  by apply guard_Ok, Nat.eqb_eq in H2.
Qed.

Lemma fields_self_intact fields f :
  (∀ v, fields !! f = Some v → value_eqb v v = true) → field_intact (PData <$> fields) fields f = true.
Proof.
  intros Hv. unfold field_intact. rewrite lookup_fmap. by destruct (fields !! f) as [v|]; cbn; [apply Hv|].
Qed.

(** The values that are equal to themselves: all but NaN. *)
Definition reflexive_fields (m : Mapped) : Prop :=
  Forall (λ v, value_eqb v v = true) [mf_subject m; mf_sessionId m; mf_scope m; mf_claims m].

Lemma context_reflexive m token o1 o2 jkt b f v :
  reflexive_fields m →
  context_of m token (Some (VConfirmation o1 jkt)) (Some (VBinding o2 b)) !! f = Some v → value_eqb v v = true.
Proof.
  unfold reflexive_fields. rewrite !Forall_cons. intros (H1 & H2 & H3 & H4 & _) Hf. unfold context_of, set_optional in Hf.
  destruct f; simplify_map_eq; try done; cbn.
  - by apply jsstr_eqb_true.
  - rewrite Nat.eqb_refl. by apply jsstr_eqb_true.
  - rewrite Nat.eqb_refl, (proj2 (jsstr_eqb_true _ _)), bool_decide_true by done. done.
Qed.

Lemma restore_context m token x y :
  restoreAuth (PData <$> context_of m token x y) token x y = Ok (context_of m token x y).
Proof.
  assert (∀ f v, context_of m token x y !! f = Some v → read_prop (PData <$> context_of m token x y) f = Ok v) as Hr.
  { intros f v Hf. unfold read_prop. rewrite lookup_fmap. by rewrite Hf. }
  unfold restoreAuth. rewrite (Hr _ (mf_subject m)), (Hr _ (mf_sessionId m)), (Hr _ (mf_scope m)), (Hr _ (mf_claims m));
    [by destruct m|..]; unfold context_of, set_optional; destruct x, y; by simplify_map_eq.
Qed.

(** A request with a bound token, the proof of its key and nothing in its way is served: it goes
    downstream with the sender constraint attached, and both guards let it through. *)
Theorem bound_request_served (c : Call) (rf : RequestFacts) (p : ApiPolicy) (token jkt proof : jsstr)
    (a : ValidatorAnswer) (m : Mapped) (env : ReplayEnv) (b : VerifiedBinding) (e : num) (st1 : St) :
  let header name := readDpopRawHeader (rf_rawHeaders rf) (js name) in
  let cr := mkCredential token DPoP (header "dpop"%string) rf in
  policy_of c = Some p →
  read_credential (header "authorization"%string) = Ok (DPoP, token) →
  extractDpopProof (header "dpop"%string) = Ok (Some proof) →
  read_answer (Some p) a = Ok (Bound jkt, m) →
  reflexive_fields m →
  admission p cr (Some jkt) proof env st0 = (Ok (Accepted b e), st1) →
  let w := runs [MAuthenticate c rf; MSettle 0 (SValidator (Ok a)); MSettle 0 (SReplay env); MSettle 0 (SHook None)] in
  ∃ l, w_auth w = Some (Some l) ∧ Next ByAuthenticate c (Some (Some l)) ∈ w_log w ∧ w_store w = st1
    ∧ ∀ bound, w_log (run_guard authenticators bound c w) = w_log w ++ [Next (ByGuard bound) c (w_auth w)].
Proof.
  intros header cr Hp Hcred Hproof Hread Hrefl Hadm. subst header. cbv beta zeta in *.
  set (x := Some (VConfirmation 0 jkt)). set (y := Some (VBinding 1 b)). set (fields := context_of m token x y).
  set (ev := mkRequestAuth (ca_owner c) (ca_res c) Pending None None).
  set (ctx := PData <$> fields : AuthContext).
  assert (exec (MAuthenticate c rf) (start st0) = mkWorld st0 (Some ev) None [] 0 [] [KValidator c cr] []) as E1.
  { cbn [ApiAuthenticator.exec]. unfold authenticate. cbn [w_evidence start].
    rewrite (credential_present _ _ Hcred), andb_false_r, Hp, Hcred. done. }
  assert (exec (MSettle 0 (SValidator (Ok a))) (mkWorld st0 (Some ev) None [] 0 [] [KValidator c cr] [])
    = mkWorld st0 (Some ev) None [] 0 [] [KReplay c cr m (Bound jkt) proof] [Validated c cr a]) as E2.
  { cbn [ApiAuthenticator.exec w_pending lookup list_lookup settle]. unfold validator_settled.
    change (status_is Pending _) with true. cbn [negb]. rewrite Hp, Hread. unfold check_presentation.
    cbn [bound_jkt cr_proofHeader cr]. rewrite Hproof. done. }
  assert (exec (MSettle 0 (SReplay env)) (mkWorld st0 (Some ev) None [] 0 [] [KReplay c cr m (Bound jkt) proof] [Validated c cr a])
    = mkWorld st1 (Some ev) (Some (Some 0%nat)) [ctx] 2 [] [KHook c cr m (Bound jkt) x y 0]
        [Validated c cr a; ProofAdmitted c cr (Some jkt) b]) as E3.
  { cbn [ApiAuthenticator.exec w_pending lookup list_lookup settle]. unfold replay_settled. rewrite Hp.
    cbn [bound_jkt w_store set_pending]. rewrite Hadm. done. }
  assert (restoreAuth ctx (cr_token cr) x y = Ok fields) as Hrestore by apply restore_context.
  set (ev' := mkRequestAuth (ca_owner c) (ca_res c) Authenticated (Some 1%nat) (Some fields)).
  assert (exec (MSettle 0 (SHook None)) (mkWorld st1 (Some ev) (Some (Some 0%nat)) [ctx] 2 [] [KHook c cr m (Bound jkt) x y 0]
        [Validated c cr a; ProofAdmitted c cr (Some jkt) b])
    = mkWorld st1 (Some ev') (Some (Some 1%nat)) [ctx; ctx] 2 [] []
        [Validated c cr a; ProofAdmitted c cr (Some jkt) b; Next ByAuthenticate c (Some (Some 1%nat))]) as E4.
  { cbn [ApiAuthenticator.exec w_pending lookup list_lookup settle]. unfold hook_settled.
    change (status_is Pending _) with true. cbn [negb]. change (default ∅ _) with ctx. by rewrite Hrestore. }
  unfold run. cbn [fold_left]. rewrite E1, E2, E3, E4. exists 1%nat. split_and!; [done| |done|].
  - cbn. rewrite !elem_of_cons. auto.
  - intros bound. unfold run_guard.
    assert (intact (mkWorld st1 (Some ev') (Some (Some 1%nat)) [ctx; ctx] 2 [] []
        [Validated c cr a; ProofAdmitted c cr (Some jkt) b; Next ByAuthenticate c (Some (Some 1%nat))]) = true) as ->.
    { unfold intact. cbn [w_evidence w_auth rq_auth rq_snapshot ev' w_contexts]. change (default ∅ _) with ctx.
      apply forallb_forall. intros f _. apply fields_self_intact. intros v. by apply context_reflexive. }
    assert (has_binding (mkWorld st1 (Some ev') (Some (Some 1%nat)) [ctx; ctx] 2 [] []
        [Validated c cr a; ProofAdmitted c cr (Some jkt) b; Next ByAuthenticate c (Some (Some 1%nat))]) = true) as ->.
    { unfold has_binding. cbn [w_evidence rq_snapshot ev']. apply bool_decide_eq_true.
      exists (VBinding 1 b). apply (context_security m token x y). }
    unfold same_call. cbn [w_evidence rq_owner rq_res ev' rq_status]. rewrite !Nat.eqb_refl.
    change (status_is Authenticated _) with true. cbn [andb negb]. by rewrite andb_false_r.
Qed.

(** ** Every denial is answered *)

(** Authenticators as they are constructed. *)
Definition constructed (a : Authenticator) : Prop :=
  ∃ env authentication invalidCredentials binding requestAware,
    createOidcVaultAuthenticator parse_url sha256 env authentication invalidCredentials binding requestAware = Ok a.

Lemma constructed_policy a : constructed a → policy_ok (auth_options a)
  ∧ ∀ p, au_policy a = Some p → options_ok (api_options p) ∧ rp_options (api_replay p) = api_options p.
Proof.
  intros (env & x & y & binding & aware & Hc). unfold createOidcVaultAuthenticator in Hc. cbv zeta in Hc.
  res_step Hc as u1 _. res_step Hc as u2 _. res_step Hc as u3 _. res_step Hc as o Ho. destruct o as [o|].
  - apply resolved_ok in Ho. res_step Hc as u4 _. res_step Hc as origin _. res_step Hc as target _.
    res_step Hc as replay Hr. injection Hc as <-. unfold auth_options. cbn. split.
    + intros o' [= <-]. by destruct Ho.
    + intros p [= <-]. cbn. split; [done|]. unfold createDpopReplayPolicy in Hr.
      rewrite resolve_again in Hr by done. cbn [res_bind] in Hr. res_step Hr as ns _. res_step Hr as np _.
      by injection Hr as <-.
  - injection Hc as <-. done.
Qed.

Lemma prepare_total c e scheme nonce hook :
  policy_ok (auth_options (authenticators (ca_owner c))) → ∃ r, prepare authenticators c e scheme nonce hook = Ok r.
Proof.
  intros Hp. unfold prepare. destruct nonce as [r|]; [by eexists|].
  destruct (policy_algorithms _ Hp) as [Hne _]. destruct (challenge_read InvalidDpopProof _ Hne) as (Hc & _).
  unfold prepareError. destruct e; try by eexists. unfold toDpopReplayErrorResponse. cbv zeta.
  destruct (_ && _); rewrite ?Hc; by eexists.
Qed.

Definition is_crash (e : Event) : bool := match e with Crashed _ _ => true | _ => false end.
Definition calm (w : World St) : Prop := Forall (λ e, is_crash e = false) (w_log w).

Section calm.
Hypothesis policies : ∀ n, policy_ok (auth_options (authenticators n)).

Lemma calm_log e (w : World St) : calm w → is_crash e = false → calm (log e w).
Proof. intros Hw He. apply Forall_app. split; [done|]. by apply Forall_singleton. Qed.

Lemma calm_deny c e scheme hook (w : World St) : calm w → calm (deny authenticators c e scheme hook w).
Proof.
  intros Hw. unfold deny. cbv zeta. by destruct (prepare_total c e scheme None hook (policies _)) as [r ->].
Qed.

Lemma calm_catch c e scheme nonce stage (w : World St) : calm w → calm (catch_error authenticators c e scheme nonce stage w).
Proof.
  intros Hw. unfold catch_error. destruct (status_is Pending w); [|done].
  by destruct (prepare_total c e scheme nonce false (policies _)) as [r ->].
Qed.

Lemma calm_exec m (w : World St) : calm w → calm (exec m w).
Proof.
  intros Hw. destruct m as [c rf|b c|i s|a|l f p|ctx|res|key e now]; cbn [ApiAuthenticator.exec]; try done.
  - unfold authenticate. destruct (w_evidence w); [by apply calm_deny|]. cbv zeta.
    destruct (_ && _ && _); [destruct (headersSent _ _); [done|by apply calm_log]|].
    destruct (policy_of c); [destruct (read_credential _) as [[]|]|destruct (res_bind _ _)]; try done; by apply calm_catch.
  - unfold run_guard, rejectGuard. destruct (negb _); [by destruct (w_evidence w); apply calm_deny|].
    destruct (b && _); [by apply calm_deny|by apply calm_log].
  - destruct (w_pending w !! i) as [k|]; [|done]. set (w' := set_pending _ w). assert (calm w') as Hw' by done.
    destruct k as [c cr|c cr m conf proof|c cr m conf x y l|c e anon r], s as [ans|env|o|]; try done; cbn [settle].
    + unfold validator_settled. destruct ans as [a|]; [|by apply calm_catch]. destruct (negb _); [done|]. cbv zeta.
      assert (calm (log (Validated c cr a) (set_auth None w'))) by by apply calm_log.
      destruct (read_answer _ _) as [[conf m]|]; [|by apply calm_catch].
      destruct (policy_of c); [destruct (check_presentation _ _ _) as [[]|]|destruct conf]; try done; by apply calm_catch.
    + unfold replay_settled. destruct (policy_of c) as [p|]; [|done].
      destruct (ApiAuthenticator.admission _ _ _ _ _ _ _ _ _ _ _) as [[[b e|nonce]|e] st]; [| |by apply calm_catch];
        (destruct (negb _); [done|]); [by apply calm_log|].
      destruct (toDpopNonceChallengeResponse _ _ _); by apply calm_catch.
    + unfold hook_settled, hook_failed. destruct (negb _); [by destruct o|].
      destruct o; [by apply calm_deny|]. destruct (restoreAuth _ _ _ _); [by apply calm_log|by apply calm_deny].
    + unfold observer_settled. cbv zeta. destruct (headersSent _ _); [by apply calm_log|].
      destruct (anon && _); by apply calm_log.
Qed.
End calm.

(** No handler of a constructed authenticator is ever left with an error it cannot report:
    whatever fails, at whatever point of whatever history, a response is prepared. *)
Theorem every_denial_prepared (moves : list Move) (c : Call) (e : oidc_error) :
  (∀ n, constructed (authenticators n)) → Crashed c e ∉ w_log (runs moves).
Proof.
  intros Hc Hin.
  assert (∀ n, policy_ok (auth_options (authenticators n))) as Hp by (intros n; apply constructed_policy, Hc).
  assert (calm (runs moves)) as Hcalm.
  { unfold run. generalize (start st0) as w, (Forall_nil_2 (λ e, is_crash e = false) : calm (start st0)).
    clear Hin. induction moves as [|m moves IH]; intros w Hw; [done|]. by apply IH, calm_exec. }
  unfold calm in Hcalm. rewrite Forall_forall in Hcalm. by apply Hcalm in Hin.
Qed.
End histories.

(** * Concrete instances *)

Definition example_api : ApiPolicy := mkApi example_options example_resolver example_replay_policy.
Definition example_authenticators (n : nat) : Authenticator := mkAuthenticator false false (Some example_api).
Definition example_call : Call := mkCall 0 0.
Definition example_facts : RequestFacts :=
  mkFacts [js "Authorization"; js "DPoP token"; js "DPoP"; example_proof] (Some (js "DPoP token")) (js "GET")
    (JStr (js "/a?page=2")).
Definition example_mapped : Mapped :=
  mkMapped (VPrim (JStr (js "user"))) (VPrim JUndef) (VPrim (JStr (js "read"))) (VRef 7).
Definition example_answer : ValidatorAnswer :=
  mkAnswer true example_mapped (confirmation_value (Some example_jkt)).
Definition example_readings : ReplayEnv :=
  mkEnv (Ok JUndef) (Some (num_of_Z 1004000)) (num_of_Z 0) (repeat 3 16) (num_of_Z 1004001).
Definition example_moves : list Move :=
  [MAuthenticate example_call example_facts; MSettle 0 (SValidator (Ok example_answer));
   MSettle 0 (SReplay example_readings); MSettle 0 (SHook None)].
Definition example_run (moves : list Move) : World (HeapState Z) :=
  run (H := memory_replay_store 10) example_target_parser toy_hash toy_hmac example_jws example_thumbprint
    example_authenticators moves (start empty_heap).

Lemma bound_request_served_witness :
  ∃ l, w_auth (example_run example_moves) = Some (Some l)
    ∧ Next ByAuthenticate example_call (Some (Some l)) ∈ w_log (example_run example_moves)
    ∧ w_store (example_run example_moves) = example_admission.2
    ∧ ∀ bound, w_log (run_guard example_authenticators bound example_call (example_run example_moves))
        = w_log (example_run example_moves)
          ++ [Next (ByGuard bound) example_call (w_auth (example_run example_moves))].
Proof.
  apply (bound_request_served (H := memory_replay_store 10) example_target_parser toy_hash toy_hmac example_jws
    example_thumbprint example_authenticators empty_heap example_call example_facts example_api (js "token")
    example_jkt example_proof example_answer example_mapped example_readings (mkVerified example_jkt ES256)
    (num_of_Z 1065000));
    try match goal with |- _ = _ => vm_compute; reflexivity end.
  repeat constructor.
Defined.


(** The hook replaces the token and the binding of the context it is given, and [req.auth] by another object. *)
Definition example_tampering : list Move :=
  take 3 example_moves
  ++ [MSetProp 0 FToken (Some (PData (VPrim (JStr (js "other"))))); MSetProp 0 FDeviceBinding None;
      MNewContext ∅; MSetAuth (Some (Some 1%nat)); MSettle 0 (SHook None)].

Lemma downstream_once_witness :
  ∃ before m, (before ++ [m]) `prefix_of` example_tampering
    ∧ passed (H := memory_replay_store 10) example_target_parser toy_hash toy_hmac example_jws example_thumbprint
        example_authenticators empty_heap (before ++ [m]) (example_run (before ++ [m])) example_call (Some (Some 2%nat)).
Proof.
  unfold example_run. apply (proj2 (downstream_once (H := memory_replay_store 10) example_target_parser toy_hash toy_hmac example_jws
    example_thumbprint example_authenticators empty_heap example_tampering)).
  apply last_Some_elem_of. vm_compute. reflexivity.
Defined.

Definition example_reentry : list Move :=
  [MSettle 0 (SValidator (Ok example_answer)); MSettle 0 SObserver; MSettle 0 (SReplay example_readings);
   MSettle 0 (SHook None); MGuard false example_call].
Definition example_poisoned : World (HeapState Z) :=
  example_run ([MAuthenticate example_call example_facts] ++ MAuthenticate (mkCall 1 0) example_facts :: example_reentry).

Lemma reentry_poisons_witness :
  status_is Failed example_poisoned = true
  ∧ downstream example_poisoned = downstream (example_run [MAuthenticate example_call example_facts]).
Proof.
  apply (reentry_poisons (H := memory_replay_store 10) example_target_parser toy_hash toy_hmac example_jws
    example_thumbprint example_authenticators empty_heap [MAuthenticate example_call example_facts] example_reentry
    (mkCall 1 0) example_facts).
  vm_compute. discriminate.
Defined.

(** A hook that replaces the token, the binding or the whole context is noticed by the guard. *)
Example tampering_noticed :
  (∀ m, m ∈ [MSetProp 1 FToken (Some (PData (VPrim (JStr (js "other")))));
             MSetProp 1 FDeviceBinding None; MSetProp 1 FScope (Some (PAccessor (Ok (VPrim (JStr (js "read"))))));
             MSetAuth (Some (Some 0%nat)); MSetAuth None; MSetAuth (Some None)] →
     downstream (example_run (example_moves ++ [m; MGuard false example_call]))
     = downstream (example_run example_moves)).
Proof.
  intros m Hm. repeat (apply elem_of_cons in Hm as [->|Hm]; [vm_compute; reflexivity|]). by apply not_elem_of_nil in Hm.
Qed.

Definition example_bearer (n : nat) : Authenticator := mkAuthenticator true true None.

Lemma every_denial_prepared_witness :
  Crashed example_call reentryError ∉ w_log (run (H := memory_replay_store 10) example_target_parser toy_hash toy_hmac
    example_jws example_thumbprint example_bearer [MAuthenticate example_call example_facts; MSettle 0 SObserver] (start empty_heap)).
Proof.
  apply (every_denial_prepared (H := memory_replay_store 10) example_target_parser toy_hash toy_hmac example_jws
    example_thumbprint example_bearer empty_heap).
  intros n. exists example_env, (JStr (js "optional")), (JStr (js "anonymous")), JUndef, false. vm_compute. reflexivity.
Defined.
