(* ===== verification/JsUri.v ===== *)
(** [encodeURIComponent] and [decodeURIComponent]: percent escapes of UTF-8 over strings of
    UTF-16 code units, with the round trip. *)

From S2P Require Import Prelude JsValue JsJson.

(** * Definitions *)

(** The characters [encodeURIComponent] keeps. *)
Definition uri_unreserved (c : Z) : bool := is_alnum c || includes_char c (js "-_.!~*'()").

Definition hex_upper (n : Z) : Z := if n <? 10 then 48 + n else 55 + n.
Definition pct_byte (b : Z) : jsstr := [37; hex_upper (b / 16); hex_upper (b mod 16)].

Definition encode_code_point (c : Z) : jsstr :=
  if uri_unreserved c then [c] else flat_map pct_byte (utf8_of_code_point c).

(** [None] is the [URIError] of a lone surrogate. *)
Definition encodeURIComponent (s : jsstr) : option jsstr :=
  if forallb (λ c, negb (is_surrogate c)) (code_points s)
  then Some (flat_map encode_code_point (code_points s)) else None.

(** One escape [%XX]. *)
Definition take_pct (s : jsstr) : option (Z * jsstr) :=
  match s with
  | 37 :: a :: b :: r => x ← hex_value a; y ← hex_value b; Some (x * 16 + y, r)
  | _ => None
  end.

Fixpoint take_pcts (n : nat) (s : jsstr) : option (list Z * jsstr) :=
  match n with
  | O => Some ([], s)
  | S n => '(b, r) ← take_pct s; '(bs, r) ← take_pcts n r; Some (b :: bs, r)
  end.

(** The bytes that follow a lead byte. *)
Definition continuation_bytes (b : Z) : option nat :=
  if in_range 192 223 b then Some 1%nat
  else if in_range 224 239 b then Some 2%nat
  else if in_range 240 247 b then Some 3%nat
  else None.

(** The escapes at the head of [s], one code point. *)
Definition take_escaped (s : jsstr) : option (Z * jsstr) :=
  '(b, r) ← take_pct s;
  if b <? 128 then Some (b, r)
  else
    n ← continuation_bytes b;
    '(bs, r) ← take_pcts n r;
    '(c, rest) ← utf8_next (b :: bs);
    match rest with [] => Some (c, r) | _ => None end.

(** [None] is the [URIError] of a malformed escape. Each step consumes a unit, so the length is fuel enough. *)
Fixpoint decode_uri (fuel : nat) (s : jsstr) : option jsstr :=
  match fuel with
  | O => None
  | S fuel =>
      match s with
      | [] => Some []
      | c :: s' =>
          if c =? 37 then
            '(c, r) ← take_escaped s;
            d ← decode_uri fuel r;
            Some (units_of_code_point c ++ d)
          else d ← decode_uri fuel s'; Some (c :: d)
      end
  end.
Definition decodeURIComponent (s : jsstr) : option jsstr := decode_uri (S (length s)) s.

(** * The round trip *)

Lemma hex_upper_value n : 0 <= n < 16 → hex_value (hex_upper n) = Some n.
Proof.
  intros Hn. assert (n ∈ seqZ 0 16) as Hin by (apply elem_of_seqZ; lia).
  revert Hin. clear Hn. intros Hin. cbn in Hin. repeat (apply elem_of_cons in Hin as [->|Hin]; [done|]).
  by apply not_elem_of_nil in Hin.
Qed.

Lemma take_pct_byte b r : 0 <= b < 256 → take_pct (pct_byte b ++ r) = Some (b, r).
Proof.
  intros Hb. unfold pct_byte. cbn [app take_pct]. rewrite !hex_upper_value by lia. cbn. do 2 f_equal. lia.
Qed.

Lemma take_pcts_bytes bs r : Forall (λ b, 0 <= b < 256) bs → take_pcts (length bs) (flat_map pct_byte bs ++ r) = Some (bs, r).
Proof.
  induction 1 as [|b bs Hb _ IH]; [done|]. cbn [flat_map length take_pcts].
  rewrite <- app_assoc, take_pct_byte by done. cbn. by rewrite IH.
Qed.

Lemma utf8_byte_range c : 0 <= c < 1114112 → Forall (λ b, 0 <= b < 256) (utf8_of_code_point c).
Proof.
  intros Hc. unfold utf8_of_code_point. repeat case_match; bool_prop; repeat constructor; try lia; unit_class; lia.
Qed.

Lemma take_escaped_code_point c r : scalar c →
  take_escaped (flat_map pct_byte (utf8_of_code_point c) ++ r) = Some (c, r).
Proof.
  intros [Hc Hs]. pose proof (utf8_byte_range c Hc) as Hb. pose proof (utf8_next_code_point c [] Hc Hs) as Hn.
  rewrite app_nil_r in Hn. destruct (utf8_of_code_point c) as [|b bs] eqn:E; [done|].
  inversion Hb as [|? ? Hb0 Hbs]; subst. cbn [flat_map]. rewrite <- app_assoc. unfold take_escaped.
  rewrite take_pct_byte by done. cbn [mbind option_bind].
  assert ((b <? 128) = true ∧ b = c ∧ bs = [] ∨ (b <? 128) = false ∧ continuation_bytes b = Some (length bs)) as [(-> & -> & ->)|[-> ->]].
  { revert E. unfold utf8_of_code_point, continuation_bytes. destruct (Z.ltb_spec c 128).
    { intros [= <- <-]. left. split; [by apply Z.ltb_lt|done]. }
    intros E. right. revert E. destruct (Z.ltb_spec c 2048); [|rewrite Hs; destruct (Z.ltb_spec c 65536)]; intros [= <- <-];
      (split; [apply Z.ltb_ge; lia|]); unfold in_range; repeat case_match; bool_prop; try done; lia. }
  - done.
  - cbn [mbind option_bind]. rewrite take_pcts_bytes by done. cbn [mbind option_bind]. by rewrite Hn.
Qed.

Lemma encoded_starts c r : scalar c → uri_unreserved c = false →
  ∃ t, flat_map pct_byte (utf8_of_code_point c) ++ r = 37 :: t.
Proof.
  intros _ _. pose proof (utf8_of_code_point_length c). destruct (utf8_of_code_point c) as [|b bs]; [cbn in *; lia|]. by eexists.
Qed.

Lemma pct_length bs : length (flat_map pct_byte bs) = (3 * length bs)%nat.
Proof. induction bs; cbn [flat_map]; [done|]. rewrite length_app. cbn. lia. Qed.

Lemma unreserved_units c : uri_unreserved c = true → c ≠ 37 ∧ c < 128.
Proof.
  unfold uri_unreserved. rewrite orb_true_iff. intros [H|H]; [unit_class; lia|].
  apply existsb_exists in H as (d & Hd & ->%Z.eqb_eq). cbn in Hd. intuition lia.
Qed.

Lemma decode_code_points cs fuel : Forall scalar cs → (length (flat_map encode_code_point cs) < fuel)%nat →
  decode_uri fuel (flat_map encode_code_point cs) = Some (flat_map units_of_code_point cs).
Proof.
  intros Hcs. revert fuel. induction Hcs as [|c cs Hc _ IH]; intros [|fuel] Hf; try (cbn in *; lia); [done|].
  cbn [flat_map] in *. rewrite length_app in Hf. unfold encode_code_point at 1. unfold encode_code_point at 1 in Hf.
  destruct (uri_unreserved c) eqn:Hu.
  - apply unreserved_units in Hu as [Hp Hl]. cbn [app decode_uri]. apply Z.eqb_neq in Hp as ->.
    rewrite IH by (cbn [length] in Hf; lia). cbn [mbind option_bind]. unfold units_of_code_point at 2.
    by rewrite (proj2 (Z.ltb_lt c 65536)) by lia.
  - destruct (encoded_starts c (flat_map encode_code_point cs) Hc Hu) as [t Ht]. rewrite Ht. cbn [decode_uri].
    change (37 =? 37) with true. cbv iota. rewrite <- Ht, take_escaped_code_point by done. cbn [mbind option_bind].
    pose proof (utf8_of_code_point_length c). rewrite pct_length in Hf. by rewrite IH by lia.
Qed.

Lemma encode_defined s : well_formed s ↔ units_ok s ∧ is_Some (encodeURIComponent s).
Proof.
  unfold well_formed, encodeURIComponent. split; intros [Hu H]; split; try done.
  - rewrite (proj2 (forallb_forall _ _)); [by eexists|]. intros c Hc. rewrite Forall_forall in H.
    by rewrite (H c) by by apply list_elem_of_In.
  - destruct (forallb _ _) eqn:E; [|by destruct H]. rewrite forallb_forall in E. apply Forall_forall.
    intros c Hc%list_elem_of_In. by apply negb_true_iff, E.
Qed.

Lemma uri_roundtrip s e : units_ok s → encodeURIComponent s = Some e → decodeURIComponent e = Some s.
Proof.
  intros Hu He. assert (well_formed s) as [_ Hs] by (apply encode_defined; split; [done|by eexists]).
  unfold encodeURIComponent in He. destruct (forallb _ _); [|done]. injection He as <-.
  unfold decodeURIComponent. rewrite decode_code_points; [by rewrite units_of_code_points| |lia].
  pose proof (code_points_range s Hu) as Hr. rewrite Forall_forall in Hr, Hs. apply Forall_forall. intros c Hc. split; auto.
Qed.

(** Encoded text is made of unreserved characters, [%] and hex digits. *)
Definition encoded_unit (c : Z) : bool := uri_unreserved c || (c =? 37).

Lemma encoded_units s e : encodeURIComponent s = Some e → units_ok s → all_units encoded_unit e = true.
Proof.
  intros He Hu. pose proof (code_points_range s Hu) as Hr. unfold encodeURIComponent in He. destruct (forallb _ _); [|done].
  injection He as <-. apply forallb_forall. intros c (p & Hp & Hc)%in_flat_map. unfold encoded_unit, encode_code_point in *.
  destruct (uri_unreserved p) eqn:E; [destruct Hc as [<-|[]]; by rewrite E|].
  apply in_flat_map in Hc as (b & Hb & Hc). rewrite Forall_forall in Hr.
  pose proof (utf8_byte_range p) as Hbyte. rewrite Forall_forall in Hbyte.
  specialize (Hbyte (Hr p (proj2 (list_elem_of_In _ _) Hp)) b (proj2 (list_elem_of_In _ _) Hb)).
  assert (∀ n, 0 <= n < 16 → is_alnum (hex_upper n) = true) as Hx.
  { intros n Hn. unfold hex_upper. destruct (Z.ltb_spec n 10); unit_class; lia. }
  destruct Hc as [<-|[<-|[<-|[]]]]; [done|..]; unfold uri_unreserved; by rewrite Hx by lia.
Qed.
