(* ===== verification/VaultCookies.v ===== *)
(** express-oidc-vault, [cookies.ts] and [transaction-cookie.ts]: the session cookie, and the
    cookie that ties a login to the browser it began in.

    An option the TypeScript types declare has that type, except where the code checks it at run
    time. [new URL], SHA-256 and the random bytes of a secret are parameters. *)

From Stdlib Require Import Qround.
From S2P Require Import Prelude JsValue JsJson AttestTypes AttestCanonical AttestVerify JsBuffer JsUri VaultBinding DpopNonce DpopPolicy DpopChallenge.

(** * Options *)

Inductive SessionTransport := TransportBody | TransportCookie.
Inductive DeploymentMode := SameOrigin | CrossSite.
Inductive SameSite := SameSiteLax | SameSiteStrict | SameSiteNone.
#[export] Instance SameSite_eq_dec : EqDecision SameSite.
Proof. solve_decision. Defined.

(** [options.cookie]; an absent one has no member. *)
Record CookieOptions := mkCookieOptions {
  ck_deploymentMode : option DeploymentMode;
  ck_sameSite : option SameSite;
  ck_secure : option bool;
  ck_name : option jsstr;
  ck_domain : option jsstr;
  ck_path : option jsstr;
  ck_httpOnly : option bool
}.

(** The members of [OidcVaultOptions] the cookies depend on. *)
Record VaultOptions := mkVaultOptions {
  vo_sessionTransport : option SessionTransport;
  vo_cookie : CookieOptions;
  vo_transactionCookie : jsval;
  vo_backendOrigin : jsval;
  vo_deviceBinding : bool;             (** [deviceBinding !== undefined] *)
  vo_fingerprintRecognition : bool     (** [fingerprintRecognition !== undefined] *)
}.

Record ResolvedCookieOptions := mkResolvedCookie {
  rc_name : jsstr;
  rc_sameSite : SameSite;
  rc_secure : bool;
  rc_domain : option jsstr;
  rc_path : jsstr;
  rc_httpOnly : bool
}.

Definition DEFAULT_SESSION_COOKIE_NAME : jsstr := js "oidc_vault_session".

Definition usesCookieTransport (options : VaultOptions) : bool :=
  match default TransportBody (vo_sessionTransport options) with TransportCookie => true | TransportBody => false end.

(** [hasUnsafeCookieValueCharacters] *)
Definition unsafe_cookie_unit (c : Z) : bool := (c <? 32) || (126 <? c) || (c =? 59).
Definition hasUnsafeCookieValueCharacters (value : jsstr) : bool := existsb unsafe_cookie_unit value.

(** [[!#$%&'*+.^_`|~0-9A-Za-z-]] is the token alphabet of [DpopChallenge]. *)
Definition isValidCookieName (value : jsval) : bool :=
  match value with JStr s => TOKEN s && negb (hasUnsafeCookieValueCharacters s) | _ => false end.

Definition domain_label (s : jsstr) : bool :=
  match s with
  | [] => false
  | c :: _ => is_alnum c && (length s <=? 63)%nat && all_units (λ c, is_alnum c || (c =? 45)) s && is_alnum (List.last s 0)
  end.

(** [COOKIE_DOMAIN_PATTERN] *)
Definition domain_pattern (s : jsstr) : bool :=
  forallb domain_label (split_on 46 (match s with 46 :: r => r | _ => s end)).

(** * Reading cookies *)

(** [s] before and after the first [c]. *)
Definition cut_at (c : Z) (s : jsstr) : jsstr * option jsstr :=
  match index_of c s with
  | Some i => (take i s, Some (drop (S i) s))
  | None => (s, None)
  end.

Definition malformedSessionCookie : oidc_error :=
  OidcVaultHttpError 400 (js "OIDC_VAULT_MALFORMED_SESSION_COOKIE") (js "OIDC vault session cookie is malformed.")
    (js "OIDC vault session cookie is malformed.").

(** [cookies[name] = value] on an ordinary object: assigning a string to [__proto__] does nothing. *)
Definition assign_cookie (cookies : list (jsstr * jsval)) (name value : jsstr) : list (jsstr * jsval) :=
  if jsstr_eqb name (js "__proto__") then cookies else set_field cookies name (JStr value).

Fixpoint reduce_cookies (parts : list jsstr) (cookies : list (jsstr * jsval)) : ores (list (jsstr * jsval)) :=
  match parts with
  | [] => Ok cookies
  | part :: parts =>
      match cut_at 61 part with
      | (name, Some value) =>
          match trim name with
          | [] => reduce_cookies parts cookies
          | name =>
              match decodeURIComponent (trim value) with
              | Some value => reduce_cookies parts (assign_cookie cookies name value)
              | None => Err malformedSessionCookie
              end
          end
      | (_, None) => reduce_cookies parts cookies
      end
  end.

Definition parseCookieHeader (headerValue : option jsstr) : ores (list (jsstr * jsval)) :=
  match headerValue with
  | None | Some [] => Ok []
  | Some header => reduce_cookies (split_on 59 header) []
  end.

Fixpoint select_cookie (segments : list jsstr) (selectedName : jsstr) : option jsstr :=
  match segments with
  | [] => None
  | segment :: segments =>
      match cut_at 61 segment with
      | (name, Some value) =>
          if (length (trim name) =? 0)%nat || negb (jsstr_eqb (trim name) selectedName)
          then select_cookie segments selectedName else Some (trim value)
      | (_, None) => select_cookie segments selectedName
      end
  end.

Definition parseSelectedCookieValue (headerValue : option jsstr) (selectedName : jsstr) : option jsstr :=
  match headerValue with
  | None | Some [] => None
  | Some header => select_cookie (split_on 59 header) selectedName
  end.

Section origin.
Variable parse_url : jsstr → option URL.

Definition isHttpsBackendOrigin (options : VaultOptions) : bool :=
  match vo_backendOrigin options with
  | JStr raw => match parse_url (trim raw) with
                | Some url => jsstr_eqb (url_protocol url) (js "https:")
                | None => false
                end
  | _ => false
  end.

Definition resolveCookieOptions (options : VaultOptions) : ResolvedCookieOptions :=
  let cookie := vo_cookie options in
  let crossSite := match default SameOrigin (ck_deploymentMode cookie) with CrossSite => true | SameOrigin => false end in
  let sameSite := default (if crossSite then SameSiteNone else SameSiteLax) (ck_sameSite cookie) in
  mkResolvedCookie (default DEFAULT_SESSION_COOKIE_NAME (ck_name cookie)) sameSite
    (default (bool_decide (sameSite = SameSiteNone) || crossSite || isHttpsBackendOrigin options) (ck_secure cookie))
    (ck_domain cookie) (default (js "/") (ck_path cookie)) (default true (ck_httpOnly cookie)).

Definition isEffectivelySecureCookie (c : ResolvedCookieOptions) : bool :=
  rc_secure c || bool_decide (rc_sameSite c = SameSiteNone).

Definition validateCookieOptions (options : VaultOptions) : ores unit :=
  if negb (usesCookieTransport options) then Ok tt
  else
    let c := resolveCookieOptions options in
    guard (isValidCookieName (JStr (rc_name c))) (PlainError (js "cookie.name must be a valid HTTP cookie name.")) ;;;
    guard (negb (hasUnsafeCookieValueCharacters (rc_path c) || negb (starts_with (js "/") (rc_path c))))
      (PlainError (js "cookie.path must start with / and cannot contain control characters or semicolons.")) ;;;
    guard (match rc_domain c with Some d => domain_pattern d | None => true end)
      (PlainError (js "cookie.domain must be a valid cookie domain.")) ;;;
    guard (rc_httpOnly c) (PlainError (js "cookie.httpOnly must be true for cookie session transport.")) ;;;
    if starts_with (js "__Host-") (rc_name c) then
      guard (isEffectivelySecureCookie c) (PlainError (js "cookie.name with the __Host- prefix must be Secure.")) ;;;
      guard (bool_decide (rc_domain c = None))
        (PlainError (js "cookie.name with the __Host- prefix must not set cookie.domain.")) ;;;
      guard (jsstr_eqb (rc_path c) (js "/"))
        (PlainError (js "cookie.name with the __Host- prefix must use cookie.path " ++ quoted (js "/") ++ js "."))
    else if starts_with (js "__Secure-") (rc_name c) then
      guard (isEffectivelySecureCookie c) (PlainError (js "cookie.name with the __Secure- prefix must be Secure."))
    else Ok tt.

Definition usesCrossSiteCookieTransport (options : VaultOptions) : bool :=
  usesCookieTransport options && bool_decide (rc_sameSite (resolveCookieOptions options) = SameSiteNone).

Definition getSessionIdFromCookie (cookieHeader : option jsstr) (options : VaultOptions) : ores (option jsstr) :=
  match parseSelectedCookieValue cookieHeader (rc_name (resolveCookieOptions options)) with
  | None => Ok None
  | Some raw => match decodeURIComponent raw with
                | Some value => Ok (Some value)
                | None => Err malformedSessionCookie
                end
  end.
End origin.

(** * Writing cookies *)

Definition pad (n : nat) (s : jsstr) : jsstr := repeat 48 (n - length s) ++ s.
Definition day_name (n : Z) : jsstr :=
  nth (Z.to_nat n) (map js ["Sun"; "Mon"; "Tue"; "Wed"; "Thu"; "Fri"; "Sat"]%string) [].
Definition month_name (n : Z) : jsstr :=
  nth (Z.to_nat (n - 1))
    (map js ["Jan"; "Feb"; "Mar"; "Apr"; "May"; "Jun"; "Jul"; "Aug"; "Sep"; "Oct"; "Nov"; "Dec"]%string) [].

(** Year, month and day of a day counted from 1970-01-01, through the eras of 400 years from March. *)
Definition civil_of_days (days : Z) : Z * Z * Z :=
  let z := days + 719468 in
  let era := z / 146097 in
  let doe := z mod 146097 in
  let yoe := (doe - doe / 1460 + doe / 36524 - doe / 146096) / 365 in
  let doy := doe - (365 * yoe + yoe / 4 - yoe / 100) in
  let mp := (5 * doy + 2) / 153 in
  let month := if mp <? 10 then mp + 3 else mp - 9 in
  (yoe + era * 400 + (if month <=? 2 then 1 else 0), month, doy - (153 * mp + 2) / 5 + 1).

(** [new Date(ms).toUTCString()] *)
Definition utc_string (ms : num) : jsstr :=
  match integer_of ms with
  | Some t =>
      if Z.abs t <=? MAX_EPOCH_MS then
        let days := t / 86400000 in
        let time := t mod 86400000 in
        let '(year, month, day) := civil_of_days days in
        let two n := pad 2 (dec_of_Z n) in
        day_name ((4 + days) mod 7) ++ js ", " ++ two day ++ js " " ++ month_name month ++ js " "
        ++ (if year <? 0 then js "-" else []) ++ pad 4 (dec_of_Z (Z.abs year)) ++ js " "
        ++ two (time / 3600000) ++ js ":" ++ two (time / 60000 mod 60) ++ js ":" ++ two (time / 1000 mod 60) ++ js " GMT"
      else js "Invalid Date"
  | None => js "Invalid Date"
  end.

Definition same_site_name (s : SameSite) : jsstr :=
  js match s with SameSiteLax => "Lax" | SameSiteStrict => "Strict" | SameSiteNone => "None" end.

(** [ws.join(sep)] *)
Fixpoint join_str (sep : jsstr) (ws : list jsstr) : jsstr :=
  match ws with
  | [] => []
  | [w] => w
  | w :: ws => w ++ sep ++ join_str sep ws
  end.

Definition when (b : bool) (part : jsstr) : list jsstr := if b then [part] else [].

(** [None] is the [URIError] of a value with a lone surrogate. [maxAge] and [expires] are the overrides. *)
Definition serializeCookie (name value : jsstr) (options : ResolvedCookieOptions) (overrides : option (num * num))
    : option jsstr :=
  encoded ← encodeURIComponent value;
  let domain := default [] (rc_domain options) in
  Some (join_str [59; 32]
    ([name ++ js "=" ++ encoded; js "Path=" ++ rc_path options; js "SameSite=" ++ same_site_name (rc_sameSite options)]
     ++ when (rc_httpOnly options) (js "HttpOnly")
     ++ when (rc_secure options || bool_decide (rc_sameSite options = SameSiteNone)) (js "Secure")
     ++ when (negb (length domain =? 0)%nat) (js "Domain=" ++ domain)
     ++ match overrides with
        | Some (maxAge, expires) => [js "Max-Age=" ++ num_to_string maxAge; js "Expires=" ++ utc_string expires]
        | None => []
        end)).

Example utc_epoch : utc_string (num_of_Z 0) = js "Thu, 01 Jan 1970 00:00:00 GMT".
Proof. vm_compute. reflexivity. Qed.
Example utc_leap : utc_string (num_of_Z 1709210096789) = js "Thu, 29 Feb 2024 12:34:56 GMT".
Proof. vm_compute. reflexivity. Qed.
Example utc_before : utc_string (num_of_Z (-62198755200001)) = js "Thu, 31 Dec -0002 23:59:59 GMT".
Proof. vm_compute. reflexivity. Qed.

Definition setSessionCookie (parse_url : jsstr → option URL) (options : VaultOptions) (sessionId : jsstr) : option jsstr :=
  let c := resolveCookieOptions parse_url options in serializeCookie (rc_name c) sessionId c None.

Definition clearSessionCookie (parse_url : jsstr → option URL) (options : VaultOptions) : option jsstr :=
  let c := resolveCookieOptions parse_url options in
  serializeCookie (rc_name c) [] c (Some (num_of_Z 0, num_of_Z 0)).

(** * The transaction cookie *)

Definition invalidBrowserBinding : oidc_error :=
  OidcVaultHttpError 400 (js "OIDC_VAULT_INVALID_BROWSER_BINDING") (js "Login browser binding validation failed.")
    (js "Login browser binding validation failed.").

(** [ResolvedOidcVaultTransactionCookieOptions]: [path] is [/] and [httpOnly] true. *)
Record TransactionCookie := mkTransactionCookie {
  tc_name : jsstr;
  tc_sameSite : SameSite;
  tc_secure : bool
}.

Definition transaction_cookie_options (c : TransactionCookie) : ResolvedCookieOptions :=
  mkResolvedCookie (tc_name c) (tc_sameSite c) (tc_secure c) None (js "/") true.

(** A thumbprint or [null], and a browser hash or [null]. *)
Record RecordBindingMatch := mkBindingMatch {
  bm_deviceBinding : option jsstr;
  bm_browserBindingHash : option jsstr
}.

Section transaction.
Variable parse_url : jsstr → option URL.
Variable sha256 : list Z → list Z.

Definition resolveTransactionCookieOptions (options : VaultOptions) (backendOrigin : jsstr) : ores TransactionCookie :=
  let value := vo_transactionCookie options in
  guard (is_undef value || isRecord value) (PlainError (js "transactionCookie must be a plain options object.")) ;;;
  guard (forallb (λ key, jsstr_eqb key (js "name") || jsstr_eqb key (js "sameSite")) (object_keys value))
    (PlainError (js "transactionCookie supports only name and sameSite; browser-binding cookie security cannot be overridden.")) ;;;
  let name := get_field value (js "name") in
  let sameSite := get_field value (js "sameSite") in
  let* secure :=
    match parse_url backendOrigin with
    | Some url => Ok (jsstr_eqb (url_protocol url) (js "https:"))
    | None => Err (TypeError (js "Invalid URL"))
    end in
  let resolvedName :=
    if is_undef name
    then JStr (if secure then js "__Host-oidc_vault_transaction" else js "oidc_vault_transaction") else name in
  let* resolvedName :=
    match resolvedName with
    | JStr n => if isValidCookieName resolvedName then Ok n
                else Err (PlainError (js "transactionCookie.name must be a valid HTTP cookie name."))
    | _ => Err (PlainError (js "transactionCookie.name must be a valid HTTP cookie name."))
    end in
  let is_value s := js_strict_eq sameSite (JStr (js s)) in
  guard (is_undef sameSite || is_value "lax"%string || is_value "none"%string)
    (PlainError (js "transactionCookie.sameSite must be lax or none.")) ;;;
  guard (secure || negb (is_value "none"%string)) (PlainError (js "transactionCookie.sameSite none requires HTTPS.")) ;;;
  guard (secure || negb (starts_with (js "__Host-") resolvedName || starts_with (js "__Secure-") resolvedName))
    (PlainError (js "transactionCookie.name with the __Host- or __Secure- prefix requires HTTPS.")) ;;;
  guard (negb ((vo_deviceBinding options || vo_fingerprintRecognition options || negb (is_undef value))
               && jsstr_eqb resolvedName (rc_name (resolveCookieOptions parse_url options))))
    (PlainError (js "transactionCookie.name must be distinct from cookie.name.")) ;;;
  Ok (mkTransactionCookie resolvedName (if is_value "none"%string then SameSiteNone else SameSiteLax) secure).

Definition hashSecret (secret : jsstr) : jsstr := base64urlEncode (sha256 (buffer_of_ascii secret)).

(** The secret and its hash, from what [randomBytes(32)] returned. *)
Definition createTransactionBrowserBinding (random : list Z) : jsstr * jsstr :=
  let secret := base64urlEncode random in (secret, hashSecret secret).

(** The loop of [parseTransactionCookie], on what is left of the header. Every turn consumes a unit. *)
Fixpoint scan_cookies (fuel : nat) (header selectedName : jsstr) (selected : option jsstr) : ores (option jsstr) :=
  match fuel, header with
  | _, [] => Ok selected
  | O, _ => Err invalidBrowserBinding
  | S fuel, _ =>
      let '(segment, rest) := cut_at 59 header in
      let '(name, value) := cut_at 61 segment in
      let continue selected := scan_cookies fuel (default [] rest) selectedName selected in
      if jsstr_eqb (trim_by is_blank name) selectedName then
        match selected, value with
        | None, Some value =>
            guard (length value =? 43)%nat invalidBrowserBinding ;;;
            guard (isCanonicalDpopJkt (JStr value)) invalidBrowserBinding ;;;
            continue (Some value)
        | _, _ => Err invalidBrowserBinding
        end
      else continue selected
  end.

Definition parseTransactionCookie (header : jsval) (selectedName : jsstr) : ores (option jsstr) :=
  match header with
  | JUndef => Ok None
  | JStr header => scan_cookies (length header) header selectedName None
  | _ => Err invalidBrowserBinding
  end.

Definition snapshotRecordBindingMatch (deviceBinding browserBindingHash : jsval) : ores RecordBindingMatch :=
  let* binding := snapshotDpopBinding deviceBinding in
  guard (bool_decide (binding = None) || (length (object_keys deviceBinding) =? 2)%nat)
    (invalidBinding (js "Stored device binding contains unsupported fields.")) ;;;
  guard (negb ((negb (is_undef browserBindingHash) && negb (isCanonicalDpopJkt browserBindingHash))
               || (bool_decide (is_Some binding) && is_undef browserBindingHash))) invalidBrowserBinding ;;;
  Ok (mkBindingMatch binding (as_string browserBindingHash)).

Definition recordBindingMatches (actual expected : RecordBindingMatch) : bool :=
  bool_decide (bm_deviceBinding actual = bm_deviceBinding expected)
  && bool_decide (bm_browserBindingHash actual = bm_browserBindingHash expected).

Definition authenticateTransactionCookie (header : jsval) (cookie : TransactionCookie) (m : RecordBindingMatch)
    : ores (option jsstr) :=
  match bm_browserBindingHash m with
  | None => Ok None
  | Some hash =>
      let* secret := parseTransactionCookie header (tc_name cookie) in
      match secret with
      | Some s => guard (jsstr_eqb (hashSecret s) hash) invalidBrowserBinding ;;; Ok (Some s)
      | None => Err invalidBrowserBinding
      end
  end.
End transaction.

(** [n / 1000] and [Math.floor(n)], on doubles. *)
Definition num_thousandth (n : num) : num :=
  match n with Fin q => double_of_Q (Qmult q (1 # 1000)) | _ => n end.
Definition num_floor (n : num) : num :=
  match n with Fin q => num_of_Z (Qround.Qfloor q) | _ => n end.

Definition setTransactionCookie (cookie : TransactionCookie) (secret : jsstr) (expiresAt now : num) : ores (option jsstr) :=
  guard (isCanonicalDpopJkt (JStr secret) && bool_decide (is_Some (usable_epoch expiresAt))
         && bool_decide (is_Some (usable_epoch now)))
    (TypeError (js "OIDC vault transaction cookie requires a canonical secret and usable deadline/clock.")) ;;;
  let seconds := num_floor (num_thousandth (num_sub expiresAt now)) in
  let maxAge := if num_le (num_of_Z 0) seconds then seconds else num_of_Z 0 in
  let expires := num_mul (num_floor (num_thousandth expiresAt)) (num_of_Z 1000) in
  Ok (serializeCookie (tc_name cookie) secret (transaction_cookie_options cookie) (Some (maxAge, expires))).

Definition clearTransactionCookie (cookie : TransactionCookie) : option jsstr :=
  serializeCookie (tc_name cookie) [] (transaction_cookie_options cookie) (Some (num_of_Z 0, num_of_Z 0)).

(** * String lemmas *)

Lemma cut_at_none c w : c ∉ w → cut_at c w = (w, None).
Proof.
  intros Hw. unfold cut_at. destruct (index_of c w) as [i|] eqn:E; [|done].
  apply index_of_Some in E as [E _]. destruct Hw. rewrite E. apply elem_of_app. right. left.
Qed.

Lemma cut_at_app c w r : c ∉ w → cut_at c (w ++ c :: r) = (w, Some r).
Proof.
  intros Hw. unfold cut_at. assert (index_of c (w ++ c :: r) = Some (length w)) as ->.
  { induction w as [|d w IH]; cbn; [by rewrite Z.eqb_refl|]. apply not_elem_of_cons in Hw as [Hd Hw].
    rewrite (proj2 (Z.eqb_neq _ _)) by done. by rewrite IH. }
  rewrite take_app_length, drop_app. rewrite drop_ge by lia. by replace (S (length w) - length w)%nat with 1%nat by lia.
Qed.

Lemma cut_at_inv c s w r : cut_at c s = (w, r) →
  c ∉ w ∧ s = w ++ match r with Some r => c :: r | None => [] end.
Proof.
  intros H. destruct (decide (c ∈ s)) as [Hin|Hno].
  - assert (∃ a b, s = a ++ c :: b ∧ c ∉ a) as (a & b & -> & Ha).
    { clear H. induction s as [|d s IH]; [by apply not_elem_of_nil in Hin|].
      destruct (decide (c = d)) as [->|Hne]; [exists [], s; split; [done|apply not_elem_of_nil]|].
      apply elem_of_cons in Hin as [->|Hin]; [done|]. destruct (IH Hin) as (a & b & -> & Ha).
      exists (d :: a), b. split; [done|]. apply not_elem_of_cons. by split. }
    rewrite cut_at_app in H by done. by injection H as <- <-.
  - rewrite cut_at_none in H by done. injection H as <- <-. by rewrite app_nil_r.
Qed.

Lemma split_cut c s :
  split_on c s = match cut_at c s with (w, Some r) => w :: split_on c r | (w, None) => [w] end.
Proof.
  destruct (cut_at c s) as [w [r|]] eqn:E; apply cut_at_inv in E as [Hw ->].
  - by apply split_on_app.
  - rewrite app_nil_r. by apply split_on_none.
Qed.

Lemma join_with_app c ws x rest : Forall (λ w, c ∉ w) ws → c ∉ x → Forall (λ w, c ∉ w) rest →
  split_on c (join_with c (ws ++ x :: rest)) = ws ++ x :: rest.
Proof.
  intros Hws Hx Hrest. assert (Forall (λ w, c ∉ w) (ws ++ x :: rest)) as H by (apply Forall_app; auto).
  assert (ws ++ x :: rest ≠ []) as Hne by by destruct ws. clear Hws Hx Hrest.
  revert H Hne. generalize (ws ++ x :: rest). intros l. induction 1 as [|w l Hw Hl IH]; [done|]. intros _.
  destruct l as [|v l]; [by apply split_on_none|]. change (join_with c (w :: v :: l)) with (w ++ c :: join_with c (v :: l)). rewrite split_on_app by done. by rewrite IH by done.
Qed.

Lemma encode_three_app pre bs : (length pre mod 3 = 0)%nat → base64urlEncode (pre ++ bs) = base64urlEncode pre ++ base64urlEncode bs.
Proof.
  induction pre as [|f|f s|f s t rest IH] using triples_ind; intros Hl; [done|done|done|].
  cbn [app base64urlEncode]. rewrite IH; [done|]. cbn [length] in Hl. lia.
Qed.

(** The text of any 32 bytes has the shape of a thumbprint. *)
Lemma digest_canonical bs : bytes_ok bs → length bs = 32%nat → isCanonicalDpopJkt (JStr (base64urlEncode bs)) = true.
Proof.
  intros Hok Hl. cbn [isCanonicalDpopJkt]. assert (length (base64urlEncode bs) = 43%nat) as Hlen by (rewrite encode_length, Hl; done).
  rewrite Hlen. cbn [Nat.eqb andb]. unfold hash_pattern. rewrite Hlen. pose proof (encode_units bs Hok) as Hu.
  rewrite <- (take_drop 30 bs) in Hok, Hu |- *. assert (length (drop 30 bs) = 2%nat) as Hd by (rewrite length_drop; lia).
  destruct (drop 30 bs) as [|f [|s [|]]]; try done. rewrite encode_three_app in * by (rewrite length_take, Hl; done).
  apply Forall_app in Hok as [_ Hok]. unfold bytes_ok in Hok. rewrite !Forall_cons in Hok. destruct Hok as (Hf & Hs & _). unfold byte_ok in *.
  assert (length (base64urlEncode (take 30 bs)) = 40%nat) as H40 by (rewrite encode_length, length_take, Hl; done).
  rewrite encode_two in * by done. unfold all_units in Hu. rewrite forallb_app in Hu. apply andb_true_iff in Hu as [H1 H2].
  rewrite take_app, drop_app, H40. cbn [Nat.sub]. rewrite take_ge, drop_ge by lia. cbn [app take drop forallb] in *.
  unfold all_units. rewrite forallb_app. cbn [forallb]. rewrite H1. apply andb_true_iff in H2 as [-> H2]. apply andb_true_iff in H2 as [-> _].
  cbn [Nat.eqb andb]. rewrite andb_true_r.
  assert (∀ n, n ∈ seqZ 0 16 → includes_char (b64_char (n * 4)) (js "AEIMQUYcgkosw048") = true) as Hall.
  { intros n Hn. cbn in Hn. repeat (apply elem_of_cons in Hn as [->|Hn]; [done|]). by apply not_elem_of_nil in Hn. }
  match goal with |- includes_char (b64_char ?e) _ = true => replace e with (s mod 16 * 4) by lia end.
  apply Hall, elem_of_seqZ. lia.
Qed.

Lemma trim_by_frame p a w b : forallb p a = true → forallb p b = true →
  match w with [] => True | c :: _ => p c = false end → p (List.last w 0) = false ∨ w = [] →
  trim_by p (a ++ w ++ b) = w.
Proof.
  intros Ha Hb Hh Hl. unfold trim_by.
  assert (∀ u v, forallb p u = true → drop_while p (u ++ v) = drop_while p v) as Hskip.
  { induction u as [|c u IH]; [done|]. intros v [Hc Hu]%andb_true_iff. cbn. rewrite Hc. by apply IH. }
  rewrite Hskip by done. destruct w as [|c w].
  { cbn [app]. rewrite <- (app_nil_r b), Hskip by done. done. }
  destruct Hl as [Hl|]; [|done]. cbn [app drop_while]. rewrite Hh. change (c :: w ++ b) with ((c :: w) ++ b).
  rewrite reverse_app, Hskip.
  - destruct (exists_last (l := c :: w)) as (u & d & E); [done|]. rewrite E in Hl |- *. rewrite last_last in Hl.
    rewrite reverse_snoc. cbn [drop_while]. by rewrite Hl, reverse_cons, reverse_involutive.
  - apply forallb_forall. intros x Hx%list_elem_of_In. rewrite elem_of_reverse in Hx. rewrite forallb_forall in Hb. by apply Hb, list_elem_of_In.
Qed.

(** * The browser's secret *)

(** The segments a cookie header has under a name, and the value when there is exactly one. *)
Definition segment_name (segment : jsstr) : jsstr := trim_by is_blank (cut_at 61 segment).1.
Definition named (name header : jsstr) : list jsstr := filter (λ segment, segment_name segment = name) (split_on 59 header).
Definition sole_value (segments : list jsstr) : ores (option jsstr) :=
  match segments with
  | [] => Ok None
  | [segment] =>
      match (cut_at 61 segment).2 with
      | Some value => if isCanonicalDpopJkt (JStr value) then Ok (Some value) else Err invalidBrowserBinding
      | None => Err invalidBrowserBinding
      end
  | _ => Err invalidBrowserBinding
  end.

Lemma named_nil name : name ≠ [] → filter (λ segment, segment_name segment = name) [[]] = [].
Proof. intros Hname. rewrite filter_cons_False; [done|]. intros <-. by apply Hname. Qed.

Lemma scan_selected fuel header name v : name ≠ [] → (length header <= fuel)%nat →
  scan_cookies fuel header name (Some v)
  = match named name header with [] => Ok (Some v) | _ => Err invalidBrowserBinding end.
Proof.
  intros Hname. revert header. induction fuel as [|fuel IH]; intros [|c header] Hf; try (cbn in Hf; lia);
    try (unfold named; cbn [split_on scan_cookies]; by rewrite named_nil).
  cbn [scan_cookies]. generalize dependent (c :: header). clear c header. intros header Hf. unfold named. rewrite split_cut.
  destruct (cut_at 59 header) as [segment rest] eqn:E59. destruct (cut_at 61 segment) as [n value] eqn:E61.
  assert (segment_name segment = trim_by is_blank n) as Hseg by (unfold segment_name; by rewrite E61).
  destruct (jsstr_eqb _ _) eqn:En.
  - apply jsstr_eqb_true in En. destruct rest as [r|]; rewrite filter_cons_True by congruence; by destruct value.
  - apply jsstr_eqb_false in En. apply cut_at_inv in E59 as [_ ->]. destruct rest as [r|]; rewrite filter_cons_False by congruence.
    + apply IH. rewrite length_app in Hf. cbn in *. lia.
    + by destruct fuel.
Qed.

Lemma scan_sole fuel header name : name ≠ [] → (length header <= fuel)%nat →
  scan_cookies fuel header name None = sole_value (named name header).
Proof.
  intros Hname. revert header. induction fuel as [|fuel IH]; intros [|c header] Hf; try (cbn in Hf; lia);
    try (unfold named; cbn [split_on scan_cookies]; by rewrite named_nil).
  cbn [scan_cookies]. generalize dependent (c :: header). clear c header. intros header Hf. unfold named. rewrite split_cut.
  destruct (cut_at 59 header) as [segment rest] eqn:E59. destruct (cut_at 61 segment) as [n value] eqn:E61.
  assert (segment_name segment = trim_by is_blank n) as Hseg by (unfold segment_name; by rewrite E61).
  apply cut_at_inv in E59 as [_ ->].
  destruct (jsstr_eqb _ _) eqn:En; [apply jsstr_eqb_true in En|apply jsstr_eqb_false in En].
  - assert (∀ r, (length (default [] r) <= fuel)%nat → match value with
        | Some value => guard (length value =? 43)%nat invalidBrowserBinding ;;;
            guard (isCanonicalDpopJkt (JStr value)) invalidBrowserBinding ;;;
            scan_cookies fuel (default [] r) name (Some value)
        | None => Err invalidBrowserBinding end
        = sole_value (segment :: filter (λ s, segment_name s = name) (match r with Some r => split_on 59 r | None => [] end))) as Hgo.
    { intros r Hr. unfold sole_value. rewrite E61. cbn [snd]. destruct value as [value|]; [|by destruct (filter _ _)].
      destruct (isCanonicalDpopJkt (JStr value)) eqn:Hc.
      - pose proof (canonical_jkt _ Hc) as [-> _]. cbn [Nat.eqb guard res_bind]. rewrite scan_selected by done. destruct r as [r|]; [done|].
        unfold named. cbn [default split_on]. by rewrite named_nil.
      - destruct (length value =? 43)%nat; by destruct (filter _ _). }
    rewrite length_app in Hf. destruct rest as [r|]; rewrite filter_cons_True by congruence.
    + rewrite <- (Hgo (Some r)); [by destruct value|]. cbn in *. lia.
    + rewrite <- (Hgo None); [by destruct value|cbn; lia].
  - destruct rest as [r|]; rewrite filter_cons_False by congruence.
    + apply IH. rewrite length_app in Hf. cbn in *. lia.
    + by destruct fuel.
Qed.

(** What a serialized cookie begins with, up to its first [;]. *)
Definition cookie_pair (text : jsstr) : jsstr := (cut_at 59 text).1.

Lemma token_units s : TOKEN s = true → s ≠ [] ∧ Forall (λ c, c ≠ 59 ∧ c ≠ 61 ∧ is_space c = false) s.
Proof.
  intros [Hne Hu]%andb_true_iff. split; [by intros ->|]. apply Forall_forall. intros c Hc.
  unfold all_units in Hu. rewrite forallb_forall in Hu. apply list_elem_of_In in Hc. specialize (Hu c Hc).
  unfold token_unit in Hu. apply orb_true_iff in Hu as [Hu|Hu].
  - unfold is_space. unit_class. repeat split; try lia.
    repeat (apply orb_false_iff; split); try apply Z.eqb_neq; try apply in_range_false; lia.
  - apply existsb_exists in Hu as (d & Hd & ->%Z.eqb_eq). cbn in Hd. intuition subst; done.
Qed.

Lemma valid_name s : isValidCookieName (JStr s) = true → s ≠ [] ∧ Forall (λ c, c ≠ 59 ∧ c ≠ 61 ∧ is_space c = false) s.
Proof. intros [H _]%andb_true_iff. by apply token_units. Qed.

Lemma encoded_unit_facts c : encoded_unit c = true → c ≠ 59 ∧ is_space c = false.
Proof.
  unfold encoded_unit, uri_unreserved. rewrite !orb_true_iff. intros [[H|H]|H].
  - unfold is_space. unit_class. split; [lia|].
    repeat (apply orb_false_iff; split); try apply Z.eqb_neq; try apply in_range_false; lia.
  - apply existsb_exists in H as (d & Hd & ->%Z.eqb_eq). cbn in Hd. intuition subst; done.
  - by apply Z.eqb_eq in H as ->.
Qed.

Lemma serialized_pair name value options overrides text :
  59 ∉ name → units_ok value → serializeCookie name value options overrides = Some text →
  ∃ encoded, encodeURIComponent value = Some encoded ∧ cookie_pair text = name ++ 61 :: encoded.
Proof.
  unfold serializeCookie. destruct (encodeURIComponent value) as [e|] eqn:He; [|done]. cbn [mbind option_bind].
  intros Hn Hu [= <-]. exists e. split; [done|]. unfold cookie_pair. cbn [app join_str js map].
  change (js "=" ++ e) with (61 :: e). rewrite cut_at_app; [done|]. apply not_elem_of_app. split; [done|].
  apply not_elem_of_cons. split; [done|]. intros Hin. apply encoded_units in He; [|done].
  unfold all_units in He. rewrite forallb_forall in He. apply list_elem_of_In, He, encoded_unit_facts in Hin. naive_solver.
Qed.

Lemma unreserved_kept s : all_units name_unit s = true → encodeURIComponent s = Some s.
Proof.
  intros H. assert (all_units is_ascii s = true) as Ha by (eapply all_units_impl; [apply name_unit_ascii|done]).
  unfold encodeURIComponent. rewrite ascii_code_points by done. unfold all_units in *. rewrite forallb_forall in *.
  rewrite (proj2 (forallb_forall _ _)).
  - f_equal. clear Ha. induction s as [|c s IH]; [done|]. cbn [flat_map]. rewrite IH by (intros x Hx; apply H; by right).
    unfold encode_code_point, uri_unreserved. specialize (H c (or_introl eq_refl)). unfold name_unit in H.
    rewrite !orb_true_iff in H. destruct H as [[->|Hc]|Hc]; [done|apply Z.eqb_eq in Hc as ->..]; done.
  - intros c Hc%Ha. apply negb_true_iff. unfold is_ascii in Hc. unit_class. apply in_range_false. lia.
Qed.

Lemma trim_by_solid p w : Forall (λ c, p c = false) w → trim_by p w = w.
Proof.
  intros Hw. pose proof (trim_by_frame p [] w []) as H. cbn [app] in H. rewrite app_nil_r in H. apply H; [done..| |].
  - by destruct Hw.
  - destruct (decide (w = [])) as [->|Hne]; [by right|left]. destruct (exists_last Hne) as (u & c & ->).
    rewrite last_last. apply Forall_app in Hw as [_ Hw]. by inversion Hw.
Qed.

(** A pair after blanks is read as its name and value. *)
Lemma pair_read p sp name e : (∀ c, p c = true → is_space c = true) →
  forallb p sp = true → name ≠ [] → Forall (λ c, c ≠ 59 ∧ c ≠ 61 ∧ is_space c = false) name →
  cut_at 61 (sp ++ name ++ 61 :: e) = (sp ++ name, Some e) ∧ trim_by p (sp ++ name) = name.
Proof.
  intros Hp Hsp Hne Hname. split.
  - rewrite app_assoc. apply cut_at_app. rewrite elem_of_app. intros [H|H].
    + rewrite forallb_forall in Hsp. apply list_elem_of_In, Hsp, Hp in H. done.
    + rewrite Forall_forall in Hname. apply Hname in H. naive_solver.
  - assert (Forall (λ c, p c = false) name) as Hn.
    { eapply Forall_impl; [exact Hname|]. intros c (_ & _ & Hc). destruct (p c) eqn:E; [|done]. apply Hp in E. congruence. }
    pose proof (trim_by_frame p sp name [] Hsp eq_refl) as H. rewrite app_nil_r in H. apply H.
    + by destruct Hn.
    + left. destruct (exists_last Hne) as (u & c & ->). rewrite last_last. apply Forall_app in Hn as [_ Hn]. by inversion Hn.
Qed.

Section properties.
Variable parse_url : jsstr → option URL.
Variable sha256 : list Z → list Z.

(** A login is continued only with the cookie of the browser that began it: exactly when the header
    has one segment under the cookie's name, with a well-formed secret that hashes to the
    record's hash. A second segment of that name, quoting or escapes are refused. *)
Theorem browser_cookie_exact (cookie : TransactionCookie) (header secret : jsstr) (m : RecordBindingMatch) :
  tc_name cookie ≠ [] →
  authenticateTransactionCookie sha256 (JStr header) cookie m = Ok (Some secret) ↔
  bm_browserBindingHash m = Some (hashSecret sha256 secret)
  ∧ ∃ segment, named (tc_name cookie) header = [segment] ∧ (cut_at 61 segment).2 = Some secret
      ∧ isCanonicalDpopJkt (JStr secret) = true.
Proof.
  intros Hn. unfold authenticateTransactionCookie. destruct (bm_browserBindingHash m) as [hash|].
  2: { split; [done|]. by intros [? _]. }
  unfold parseTransactionCookie. rewrite scan_sole by done. unfold sole_value. split.
  - intros H. res_step H as found Hf. destruct found as [s|]; [|done]. res_step H as u Hh. injection H as ->.
    apply guard_Ok, jsstr_eqb_true in Hh as <-. split; [done|].
    destruct (named _ _) as [|segment [|]]; try done. exists segment. destruct (cut_at 61 segment).2 as [v|]; [|done].
    destruct (isCanonicalDpopJkt (JStr v)) eqn:Hc; [|done]. by injection Hf as ->.
  - intros ([= ->] & segment & -> & -> & ->). cbn [res_bind]. by rewrite jsstr_eqb_refl.
Qed.

Lemma resolved_name options origin cookie :
  resolveTransactionCookieOptions parse_url options origin = Ok cookie → isValidCookieName (JStr (tc_name cookie)) = true.
Proof.
  unfold resolveTransactionCookieOptions. intros H. res_step H as u1 _. res_step H as u2 _. res_step H as secure _.
  res_step H as name Hname. res_step H as u3 _. res_step H as u4 _. res_step H as u5 _. res_step H as u6 _.
  injection H as <-. cbn [tc_name]. destruct (if is_undef _ then _ else _) as [| | | |n| | | |] eqn:E; try done.
  destruct (isValidCookieName (JStr n)) eqn:Hv; [|done]. by injection Hname as <-.
Qed.

(** What [setTransactionCookie] sends comes back: whatever other cookies of other names surround
    it, the request that carries it continues the login whose record has the hash, with any device binding. *)
Theorem browser_cookie_returned (options : VaultOptions) (origin : jsstr) (cookie : TransactionCookie) (random : list Z)
    (expiresAt now : num) (binding : option jsstr) (pre post : list jsstr) (sp : jsstr) :
  let '(secret, hash) := createTransactionBrowserBinding sha256 random in
  resolveTransactionCookieOptions parse_url options origin = Ok cookie →
  bytes_ok random → length random = 32%nat →
  is_Some (usable_epoch expiresAt) → is_Some (usable_epoch now) →
  Forall (λ segment, 59 ∉ segment ∧ segment_name segment ≠ tc_name cookie) (pre ++ post) → forallb is_blank sp = true →
  ∃ text, setTransactionCookie cookie secret expiresAt now = Ok (Some text)
    ∧ authenticateTransactionCookie sha256 (JStr (join_with 59 (pre ++ (sp ++ cookie_pair text) :: post))) cookie
        (mkBindingMatch binding (Some hash)) = Ok (Some secret).
Proof.
  cbn [createTransactionBrowserBinding]. intros Hres Hok Hl He Hn Hothers Hsp.
  apply resolved_name, valid_name in Hres as [Hne Hname]. pose proof (digest_canonical random Hok Hl) as Hc.
  unfold setTransactionCookie. rewrite Hc, !bool_decide_true by done. cbn [guard res_bind andb]. cbv zeta.
  set (secret := base64urlEncode random) in *.
  destruct (serializeCookie (tc_name cookie) secret (transaction_cookie_options cookie) _) as [text|] eqn:Et.
  2: { unfold serializeCookie in Et. by rewrite (unreserved_kept secret) in Et by by apply encode_units. }
  exists text. split; [done|].
  apply serialized_pair in Et as (e & Henc & ->).
  2: { intros Hin. rewrite Forall_forall in Hname. apply Hname in Hin. naive_solver. }
  2: { apply ascii_units_ok. by apply encode_ascii. }
  rewrite unreserved_kept in Henc by by apply encode_units. injection Henc as <-.
  destruct (pair_read is_blank sp (tc_name cookie) secret) as [Hcut Htrim]; try done.
  { intros c [->%Z.eqb_eq| ->%Z.eqb_eq]%orb_true_iff; done. }
  apply Forall_app in Hothers as [Hpre Hpost].
  unfold authenticateTransactionCookie, parseTransactionCookie. cbn [bm_browserBindingHash]. rewrite scan_sole by done.
  assert (named (tc_name cookie) (join_with 59 (pre ++ (sp ++ tc_name cookie ++ 61 :: secret) :: post))
          = [sp ++ tc_name cookie ++ 61 :: secret]) as ->.
  2: { cbn [sole_value]. rewrite Hcut. cbn [snd]. rewrite Hc. cbn [res_bind]. by rewrite jsstr_eqb_refl. }
  unfold named. rewrite join_with_app.
  - rewrite filter_app, filter_cons_True by (unfold segment_name; by rewrite Hcut).
    assert (∀ l, Forall (λ segment, 59 ∉ segment ∧ segment_name segment ≠ tc_name cookie) l →
              filter (λ segment, segment_name segment = tc_name cookie) l = []) as Hnone.
    { induction 1 as [|x l [_ Hx] _ IH]; [done|]. by rewrite filter_cons_False. }
    by rewrite (Hnone pre), (Hnone post).
  - eapply Forall_impl; [exact Hpre|naive_solver].
  - rewrite !elem_of_app, elem_of_cons. intros [H|[H|[H|H]]].
    + rewrite forallb_forall in Hsp. apply list_elem_of_In, Hsp in H. done.
    + rewrite Forall_forall in Hname. apply Hname in H. naive_solver.
    + done.
    + apply canonical_jkt in Hc as [_ Hc]. unfold all_units in Hc. rewrite forallb_forall in Hc.
      apply list_elem_of_In, Hc in H. done.
  - eapply Forall_impl; [exact Hpost|naive_solver].
Qed.
End properties.

Section session_cookie.
Variable parse_url : jsstr → option URL.

(** The session cookie comes back as the identifier it was set to: the first segment under its
    name decides, and no cookie of another name, however malformed, gets in the way. *)
Theorem session_cookie_returned (options : VaultOptions) (sessionId text : jsstr) (pre post : list jsstr) (sp : jsstr) :
  let name := rc_name (resolveCookieOptions parse_url options) in
  usesCookieTransport options = true → validateCookieOptions parse_url options = Ok tt →
  units_ok sessionId → setSessionCookie parse_url options sessionId = Some text →
  Forall (λ segment, 59 ∉ segment) (pre ++ post) → forallb is_space sp = true → 59 ∉ sp →
  Forall (λ segment, ∀ n v, cut_at 61 segment = (n, Some v) → trim n ≠ name) pre →
  getSessionIdFromCookie parse_url (Some (join_with 59 (pre ++ (sp ++ cookie_pair text) :: post))) options
  = Ok (Some sessionId).
Proof.
  intros name Ht Hv Hu Hset Hparts Hsp Hsemi Hpre. unfold validateCookieOptions in Hv. rewrite Ht in Hv. cbn [negb] in Hv. cbv zeta in Hv.
  res_step Hv as u Hn. apply guard_Ok, valid_name in Hn as [Hne Hname]. fold name in Hne, Hname.
  unfold setSessionCookie in Hset. cbv zeta in Hset. fold name in Hset.
  apply serialized_pair in Hset as (e & He & ->); [|intros Hin; rewrite Forall_forall in Hname; apply Hname in Hin; naive_solver|done].
  destruct (pair_read is_space sp name e) as [Hcut Htrim]; try done.
  pose proof (encoded_units _ _ He Hu) as Hunits. unfold all_units in Hunits. rewrite forallb_forall in Hunits.
  assert (trim e = e) as Htrim'.
  { apply trim_by_solid, Forall_forall. intros c Hc%list_elem_of_In%Hunits%encoded_unit_facts. naive_solver. }
  apply Forall_app in Hparts as [Hpre59 Hpost].
  assert (59 ∉ sp ++ name ++ 61 :: e) as Hmid.
  { rewrite !elem_of_app, elem_of_cons. intros [H|[H|[H|H]]]; [done| |done|].
    - rewrite Forall_forall in Hname. apply Hname in H. naive_solver.
    - apply list_elem_of_In, Hunits, encoded_unit_facts in H. naive_solver. }
  unfold getSessionIdFromCookie. fold name.
  assert (parseSelectedCookieValue (Some (join_with 59 (pre ++ (sp ++ name ++ 61 :: e) :: post))) name = Some e) as ->.
  { unfold parseSelectedCookieValue. pose proof (join_with_app 59 pre _ post Hpre59 Hmid Hpost) as Hsplit.
    destruct (join_with 59 _) as [|x header] eqn:Ej.
    { cbn in Hsplit. destruct pre as [|p [|]]; try done. injection Hsplit as E _. apply (f_equal length) in E. rewrite !length_app in E. cbn in E. lia. }
    rewrite Hsplit. clear Hsplit Ej x header Hpre59. induction Hpre as [|p pre Hp _ IH]; cbn [app select_cookie].
    - rewrite Hcut. unfold trim in *. rewrite Htrim, jsstr_eqb_refl, Htrim'.
      by rewrite (proj2 (Nat.eqb_neq _ _)) by (by destruct name).
    - destruct (cut_at 61 p) as [n [v|]]; [|exact IH]. specialize (Hp n v eq_refl).
      rewrite (proj2 (jsstr_eqb_false _ _)) by done. by rewrite orb_true_r. }
  by rewrite (uri_roundtrip sessionId e).
Qed.
End session_cookie.

(** * The deadlines of the transaction cookie *)

Lemma round_half_even_error n d : 0 < d → 0 <= n → Z.abs (2 * (round_half_even n d * d - n)) <= d.
Proof.
  intros Hd Hn. unfold round_half_even. pose proof (Z.div_mod n d ltac:(lia)) as E. pose proof (Z.mod_pos_bound n d Hd).
  destruct (Z.ltb_spec (2 * (n mod d)) d); [nia|]. destruct (Z.ltb_spec d (2 * (n mod d))); [nia|].
  destruct (Z.even _); nia.
Qed.

(** A thousandth below 2^43 is rounded too finely to reach the next integer. *)
Lemma thousandth_rounded n d z : 0 < d → 0 < z → z < 1000 * 2 ^ 43 → n * 1000 = z * d →
  ∃ k m, floor_log2 n d - 52 = - k ∧ 10 <= k <= 63 ∧ m = round_half_even (n * 2 ^ k) d
    ∧ z / 1000 * 2 ^ k <= m < (z / 1000 + 1) * 2 ^ k.
Proof.
  intros Hd Hz Hmax Hn. assert (0 < n) as Hn0 by nia.
  assert (floor_log2 n d <= 42) as Hl.
  { destruct (Z.le_gt_cases (floor_log2 n d) 42) as [|Hgt]; [done|].
    pose proof (floor_log2_lower n d Hn0 Hd ltac:(lia)) as Hlow.
    pose proof (Z.pow_le_mono_r 2 43 (floor_log2 n d) ltac:(lia) ltac:(lia)). nia. }
  assert (-11 <= floor_log2 n d) as Hl'.
  { assert (Z.log2 d <= Z.log2 n + 10).
    { rewrite Z.add_comm, <- Z.log2_mul_pow2 by lia. apply Z.log2_le_mono. change (2 ^ 10) with 1024. nia. }
    unfold floor_log2. repeat case_match; lia. }
  exists (52 - floor_log2 n d), (round_half_even (n * 2 ^ (52 - floor_log2 n d)) d).
  split; [lia|]. split; [lia|]. split; [done|]. set (k := 52 - floor_log2 n d).
  pose proof (Z.pow_le_mono_r 2 10 k ltac:(lia) ltac:(lia)) as Hk. change (2 ^ 10) with 1024 in Hk. set (P := 2 ^ k) in *.
  pose proof (round_half_even_error (n * P) d Hd ltac:(nia)) as He.
  pose proof (Z.div_mod z 1000 ltac:(lia)) as E. pose proof (Z.mod_pos_bound z 1000 ltac:(lia)) as Hm.
  set (F := z / 1000) in *. set (f := z mod 1000) in *. clearbody F f k. split.
  - apply round_half_even_ge; [done|nia|]. assert (F * d <= n) as HF by (assert (0 <= f * d) by (apply Z.mul_nonneg_nonneg; lia); lia).
    clear -HF Hk. assert (0 <= P * (n - F * d)) by (apply Z.mul_nonneg_nonneg; lia). lia.
  - set (m := round_half_even (n * P) d) in *. clearbody m. destruct (Z.lt_ge_cases m ((F + 1) * P)) as [|Hge]; [done|]. exfalso.
    assert (2000 * ((F + 1) * P) <= 2 * z * P + 1000) as Hlast.
    { apply (Zmult_le_reg_r _ _ d); [lia|]. assert ((F + 1) * P * d <= m * d) by (apply Z.mul_le_mono_nonneg_r; lia).
      assert (n * 1000 * P = z * d * P) by (by rewrite Hn). lia. }
    assert (z * P <= (1000 * F + 999) * P) by (apply Z.mul_le_mono_nonneg_r; lia). lia.
Qed.

Lemma thousandth_floor q z : q == inject_Z z → 0 <= z <= MAX_EPOCH_MS →
  num_floor (num_thousandth (Fin q)) = num_of_Z (z / 1000).
Proof.
  intros Hq [Hz Hmax]. unfold MAX_EPOCH_MS in Hmax. cbn [num_thousandth].
  assert (Qfloor (q * (1 # 1000)) = z / 1000) as Hfl.
  { rewrite (Qfloor_comp _ (inject_Z z * (1 # 1000))) by (by rewrite Hq). cbn. by rewrite Z.mul_1_r. }
  unfold double_of_Q. assert (num_floor (round_binary64 (q * (1 # 1000))) = num_of_Z (z / 1000)) as Hr.
  { unfold Qeq in Hq. cbn in Hq. rewrite Z.mul_1_r in Hq. unfold round_binary64. cbv zeta.
    set (n := Qnum (q * (1 # 1000))). set (d := Zpos (Qden (q * (1 # 1000)))).
    assert (n * 1000 = z * d) as Hn. { unfold n, d. cbn. rewrite Z.mul_1_r, Hq. lia. }
    assert (0 < d) as Hd by done. destruct (Z.eqb_spec (Z.abs n) 0) as [E|E].
    { assert (z = 0) as -> by nia. done. }
    rewrite Z.abs_eq in * by nia. rewrite (proj2 (Z.ltb_ge n 0)) by nia.
    destruct (thousandth_rounded n d z) as (k & m & Hk & H10 & Hm & Hlo & Hhi); [done|nia|lia|done|].
    rewrite Hk, Z.max_l by lia. rewrite (proj2 (Z.leb_gt 0 (- k))) by lia. rewrite Z.opp_involutive, <- Hm.
    assert (0 < 2 ^ k) as HP by (apply Z.pow_pos_nonneg; lia).
    destruct (Qle_bool _ _) eqn:Hbig.
    { exfalso. apply Qle_bool_iff in Hbig. unfold Qle in Hbig. cbn [Qnum Qden inject_Z] in Hbig.
      rewrite Z2Pos.id in Hbig by done. rewrite Z.mul_1_r in Hbig.
      assert (2 ^ 50 <= 2 ^ 1024) as H1024 by (by apply Z.pow_le_mono_r). set (B := 2 ^ 1024) in *. clearbody B.
      assert (z / 1000 + 1 <= 2 ^ 50) by (change (2 ^ 50) with 1125899906842624; lia). nia. }
    cbn [num_floor]. f_equal. cbn. rewrite Z2Pos.id by done. symmetry. apply (Z.div_unique _ _ _ (m - z / 1000 * 2 ^ k)); nia. }
  destruct (Q_to_Z _) as [c|] eqn:Ec; [|done]. destruct (is_safe c); [|done].
  apply Q_to_Z_eq in Ec. cbn. f_equal. rewrite Z.div_1_r, <- Hfl, (Qfloor_comp _ _ Ec). by rewrite Qfloor_Z.
Qed.

Lemma round_half_even_nonneg n d : 0 < d → 0 <= n → 0 <= round_half_even n d.
Proof. intros Hd Hn. apply round_half_even_ge; lia. Qed.

(** A deadline in the past gives no time. *)
Lemma thousandth_past q : Qnum q < 0 →
  let s := num_floor (num_thousandth (Fin q)) in
  (if num_le (num_of_Z 0) s then s else num_of_Z 0) = num_of_Z 0.
Proof.
  intros Hq. cbn [num_thousandth]. cbv zeta.
  assert (∀ v, Qnum v <= 0 → (if num_le (num_of_Z 0) (num_floor (Fin v)) then num_floor (Fin v) else num_of_Z 0) = num_of_Z 0) as Hneg.
  { intros [a b] Ha. cbn [Qnum] in Ha. cbn [num_floor Qfloor]. assert (a / Zpos b <= 0) as Hd by (apply Z.div_le_upper_bound; lia).
    destruct (num_le _ _) eqn:E; [|done]. cbn in E. apply Qle_bool_iff in E. unfold Qle in E. cbn in E. f_equal. lia. }
  unfold double_of_Q. set (r := (q * (1 # 1000))%Q). assert (Qnum r < 0) as Hr by (cbn; lia). clearbody r.
  assert ((if num_le (num_of_Z 0) (num_floor (round_binary64 r)) then num_floor (round_binary64 r) else num_of_Z 0) = num_of_Z 0) as H.
  { unfold round_binary64. cbv zeta. destruct (Z.eqb_spec (Z.abs (Qnum r)) 0); [lia|]. rewrite (proj2 (Z.ltb_lt _ _) Hr). destruct (Qle_bool _ _); [done|].
    apply Hneg. destruct (Z.leb_spec 0 (Z.max (floor_log2 (Z.abs (Qnum r)) (Zpos (Qden r)) - 52) (-1074))); cbn [Qopp Qnum inject_Z].
    - assert (0 <= round_half_even (Z.abs (Qnum r)) (Zpos (Qden r) * 2 ^ Z.max (floor_log2 (Z.abs (Qnum r)) (Zpos (Qden r)) - 52) (-1074))).
      { apply round_half_even_nonneg; [|lia]. apply Z.mul_pos_pos; [done|]. by apply Z.pow_pos_nonneg. }
      assert (0 < 2 ^ Z.max (floor_log2 (Z.abs (Qnum r)) (Zpos (Qden r)) - 52) (-1074)) by (apply Z.pow_pos_nonneg; lia). nia.
    - match goal with |- - round_half_even ?a ?b <= 0 => assert (0 <= round_half_even a b); [|lia] end.
      apply round_half_even_nonneg; [done|]. apply Z.mul_nonneg_nonneg; [lia|]. apply Z.pow_nonneg. lia. }
  destruct (Q_to_Z r) as [c|] eqn:Ec; [|exact H]. destruct (is_safe c); [|exact H].
  apply Hneg. cbn. apply Q_to_Z_eq in Ec. unfold Qeq in Ec. cbn in Ec. nia.
Qed.

(** Neither deadline on the wire goes past the record's, and less than a second is lost. *)
Theorem cookie_deadline (cookie : TransactionCookie) (secret text : jsstr) (expiresAt now : num) (e t : Z) :
  usable_epoch expiresAt = Some e → usable_epoch now = Some t → 0 <= e → 0 <= t →
  setTransactionCookie cookie secret expiresAt now = Ok (Some text) →
  ∃ maxAge expires : Z,
    serializeCookie (tc_name cookie) secret (transaction_cookie_options cookie)
      (Some (num_of_Z maxAge, num_of_Z (1000 * expires))) = Some text
    ∧ 0 <= maxAge ∧ t + 1000 * maxAge <= Z.max t e ∧ e < t + 1000 * (maxAge + 1)
    ∧ 1000 * expires <= e < 1000 * (expires + 1).
Proof.
  intros He Ht He0 Ht0. apply usable_epoch_is in He as [He Hmax], Ht as [Ht Hmax']. unfold MAX_EPOCH_MS in *.
  unfold setTransactionCookie. cbv zeta.
  assert (is_safe (e - t) = true) as Hs by (apply Z.leb_le; unfold MAX_SAFE_INTEGER; lia).
  rewrite (num_sub_exact _ _ _ _ He Ht Hs).
  assert (num_mul (num_floor (num_thousandth expiresAt)) (num_of_Z 1000) = num_of_Z (e / 1000 * 1000)) as ->.
  { destruct He as (q & -> & Hq). rewrite (thousandth_floor q e) by (done || unfold MAX_EPOCH_MS; lia).
    apply num_mul_exact; try apply num_is_of_Z. apply Z.leb_le. unfold MAX_SAFE_INTEGER. lia. }
  assert ((if num_le (num_of_Z 0) (num_floor (num_thousandth (num_of_Z (e - t))))
           then num_floor (num_thousandth (num_of_Z (e - t))) else num_of_Z 0) = num_of_Z (Z.max 0 ((e - t) / 1000))) as ->.
  { change (num_of_Z (e - t)) with (Fin (inject_Z (e - t))). destruct (Z.le_gt_cases 0 (e - t)) as [Hpos|Hneg].
    - rewrite thousandth_floor with (z := e - t) by (done || unfold MAX_EPOCH_MS; lia).
      rewrite (num_le_is _ _ 0 ((e - t) / 1000)) by apply num_is_of_Z. rewrite (proj2 (Z.leb_le _ _)) by lia. f_equal. lia.
    - rewrite thousandth_past by (cbn; lia). f_equal. lia. }
  destruct (guard _ _); [|done]. cbn [res_bind]. intros [= Htext]. exists (Z.max 0 ((e - t) / 1000)), (e / 1000). split; [|lia]. by rewrite <- Htext, (Z.mul_comm 1000).
Qed.

(** * Agreement with the store *)

(** The object [snapshotRecordBindingMatch] returns, as a store receives it. *)
Definition match_value (m : RecordBindingMatch) : jsval :=
  JObj true
    [(js "deviceBinding", match bm_deviceBinding m with Some jkt => dpop_binding (JStr jkt) | None => JNull end);
     (js "browserBindingHash", match bm_browserBindingHash m with Some h => JStr h | None => JNull end)].

Lemma field_own fs k v : field_lookup (A := jsval) fs k = Some v → k ∈ map fst fs.
Proof.
  induction fs as [|[k' v'] fs IH]; [done|]. cbn [field_lookup map fst]. rewrite elem_of_cons.
  destruct (jsstr_eqb k k') eqn:E; [apply jsstr_eqb_true in E; auto|auto].
Qed.

Lemma has_own_field v k : is_undef (get_field v k) = false → has_own v k = true.
Proof.
  intros H. apply bool_decide_eq_true. destruct v as [| | | | | |b fs| |]; try done. cbn in *.
  destruct (field_lookup fs k) as [w|] eqn:E; [|done]. by eapply field_own.
Qed.

(** The snapshot's binding, in the terms of the store. *)
Lemma snapshot_binding v o :
  snapshotDpopBinding v = Ok o → (o = None ∨ length (object_keys v) = 2%nat) →
  hasValidBinding v = true ∧ o = as_string (jkt_of v) ∧ (o = None ↔ v = JUndef)
  ∧ ∀ jkt, o = Some jkt → get_field v (js "type") = JStr (js "dpop") ∧ isHash (JStr jkt) = true.
Proof.
  intros H%snapshot_spec Hl. destruct o as [jkt|].
  - destruct H as (Hr & Ht & Hj & Hc). destruct Hl as [|Hl]; [done|].
    assert (isBinding v = true) as Hb.
    { unfold isBinding. rewrite Hr, Hl, !has_own_field by (by rewrite ?Ht, ?Hj). rewrite Ht, Hj.
      rewrite (proj2 (strict_eq_string _ _) eq_refl). exact Hc. }
    unfold hasValidBinding. rewrite Hb, orb_true_r. unfold jkt_of. rewrite Hj. split_and!; [done..| |].
    + split; [done|]. by intros ->.
    + intros j [= <-]. by split.
  - subst v. by split_and!.
Qed.

Lemma strict_undef v : is_undef v = true ↔ v = JUndef.
Proof. by destruct v. Qed.

Lemma match_value_ok m :
  (∀ jkt, bm_deviceBinding m = Some jkt → isHash (JStr jkt) = true) →
  (∀ h, bm_browserBindingHash m = Some h → isHash (JStr h) = true) → isBindingMatch (match_value m) = true.
Proof.
  intros Hj Hh. assert (isBindingMatch (match_value m)
    = match bm_deviceBinding m with Some j => isHash (JStr j) | None => true end
      && match bm_browserBindingHash m with Some h => isHash (JStr h) | None => true end) as ->.
  { by destruct m as [[j|] [h|]]. }
  destruct (bm_deviceBinding m); [rewrite Hj by done|]; (destruct (bm_browserBindingHash m); [by rewrite Hh|done]).
Qed.

Lemma match_fields m :
  get_field (match_value m) (js "deviceBinding") = match bm_deviceBinding m with Some j => dpop_binding (JStr j) | None => JNull end
  ∧ get_field (match_value m) (js "browserBindingHash") = match bm_browserBindingHash m with Some h => JStr h | None => JNull end.
Proof. done. Qed.

(** The vault and the memory store agree on bindings: the vault takes a snapshot of exactly the
    records the store's own check admits, and the store's guarded consume accepts a record under such a
    match exactly when the snapshots of the two records are the same. *)
Theorem guarded_match_agrees (r : OneTimeRecord) :
  is_ok (snapshotRecordBindingMatch (ot_deviceBinding r) (ot_browserBindingHash r))
  = hasValidRecordBinding (ot_deviceBinding r) (ot_browserBindingHash r)
  ∧ ∀ d h actual expected,
      snapshotRecordBindingMatch (ot_deviceBinding r) (ot_browserBindingHash r) = Ok actual →
      snapshotRecordBindingMatch d h = Ok expected →
      isBindingMatch (match_value expected) = true
      ∧ matchesRecordBinding r (match_value expected) = recordBindingMatches actual expected.
Proof.
  assert (∀ d h m, snapshotRecordBindingMatch d h = Ok m →
    snapshotDpopBinding d = Ok (bm_deviceBinding m) ∧ (bm_deviceBinding m = None ∨ length (object_keys d) = 2%nat)
    ∧ bm_browserBindingHash m = as_string h ∧ (is_undef h || isHash h) = true ∧ (is_undef d || negb (is_undef h)) = true) as Hinv.
  { intros d h m H. unfold snapshotRecordBindingMatch in H. res_step H as o Ho. res_step H as u Hl. res_step H as u' Hh.
    injection H as <-. cbn [bm_deviceBinding bm_browserBindingHash]. apply guard_Ok in Hl, Hh. split; [done|].
    assert (o = None ∨ length (object_keys d) = 2%nat) as Hl'.
    { apply orb_true_iff in Hl as [->%bool_decide_eq_true|?%Nat.eqb_eq]; auto. }
    split; [done|]. split; [done|]. pose proof (snapshot_binding _ _ Ho Hl') as (_ & _ & Hn & _).
    apply negb_true_iff, orb_false_iff in Hh as [H1 H2]. change isCanonicalDpopJkt with isHash in H1. split.
    - destruct (is_undef h); [done|]. cbn in *. by destruct (isHash h).
    - destruct o as [j|]; [|rewrite (proj1 Hn eq_refl); done]. rewrite bool_decide_true in H2 by (by eexists).
      cbn [andb] in H2. by rewrite H2, orb_true_r. }
  split.
  - generalize (ot_deviceBinding r) as d, (ot_browserBindingHash r) as h. intros d h.
    destruct (snapshotRecordBindingMatch d h) as [m|e] eqn:E; symmetry; unfold hasValidRecordBinding.
    + apply Hinv in E as (Hs & Hl & _ & -> & ->). by destruct (snapshot_binding _ _ Hs Hl) as (-> & _).
    + apply not_true_iff_false. intros [[Hd Hh]%andb_true_iff Hdh]%andb_true_iff. revert E. unfold snapshotRecordBindingMatch.
      assert (∃ o, snapshotDpopBinding d = Ok o ∧ (o = None ∨ length (object_keys d) = 2%nat) ∧ (o ≠ None → is_undef d = false)) as (o & -> & Hl & Ho).
      { apply orb_true_iff in Hd as [->%strict_undef|Hb]; [exists None; split_and!; [done|by left|done]|].
        destruct (binding_jkt d Hb) as (j & Hj & Hp). pose proof (binding_not_undef d Hb) as Hu. unfold isBinding in Hb.
        repeat (apply andb_true_iff in Hb as [Hb ?]). exists (Some j). split.
        - apply snapshot_spec. split_and!; [done|by apply strict_eq_string|done|]. unfold jkt_of in Hj. by rewrite <- Hj.
        - split; [right; by apply Nat.eqb_eq|done]. }
      cbn [res_bind]. destruct Hl as [->|Hl].
      * rewrite bool_decide_true by done. change (bool_decide (is_Some (@None jsstr))) with false.
        cbn [orb guard res_bind]. change isCanonicalDpopJkt with isHash. destruct (is_undef h); [done|]. cbn in Hh. by rewrite Hh.
      * rewrite Hl, orb_true_r. cbn [Nat.eqb guard res_bind]. change isCanonicalDpopJkt with isHash.
        destruct (is_undef h) eqn:Eh; [|cbn in Hh; rewrite Hh, !andb_false_r; done].
        destruct o as [j|]; [|by rewrite (bool_decide_false (is_Some None)) by (by intros [])].
        rewrite Ho in Hdh by done. by cbn in Hdh.
  - intros d h actual expected Ha He. apply Hinv in Ha as (Ha & Hal & Hah & Hv & _), He as (He & Hel & Heh & Hw & _).
    destruct (snapshot_binding _ _ Ha Hal) as (_ & Haj & Han & Hat), (snapshot_binding _ _ He Hel) as (_ & Hej & Hen & Het).
    split.
    + apply match_value_ok; [intros j Hj; by apply Het|]. intros s Hs. rewrite Heh in Hs. destruct h; try done. by injection Hs as ->.
    + unfold matchesRecordBinding, recordBindingMatches. rewrite Hah, Heh. f_equal.
      * rewrite (proj1 (match_fields expected)).
        destruct (bm_deviceBinding expected) as [j|]; cbn [dpop_binding].
        -- change (get_field (JObj true _) (js "type")) with (JStr (js "dpop")). change (jkt_of (JObj true _)) with (JStr j).
           destruct (bm_deviceBinding actual) as [j'|].
           ++ destruct (Hat j' eq_refl) as [-> _]. destruct (jkt_of (ot_deviceBinding r)); try done. injection Haj as ->.
              cbn [js_strict_eq]. rewrite jsstr_eqb_refl. unfold jsstr_eqb. apply bool_decide_ext. split; [by intros ->|congruence].
           ++ rewrite (proj1 Han eq_refl). by rewrite bool_decide_false.
        -- apply eq_true_iff_eq. rewrite strict_undef, bool_decide_eq_true. by rewrite Han.
      * rewrite (proj2 (match_fields expected)), Heh.
        destruct (as_string h) as [s|].
        -- apply eq_true_iff_eq. rewrite strict_eq_string, bool_decide_eq_true.
           split; [by intros ->|]. destruct (ot_browserBindingHash r); try done. by intros [= ->].
        -- by destruct (ot_browserBindingHash r).
Qed.

(** * Concrete instances *)

Definition example_origin_url : URL :=
  mkURL (js "https://vault.example/") (js "https:") [] [] (js "vault.example") (js "vault.example") (js "/") [] [].
Definition example_origin_parser (s : jsstr) : option URL :=
  if jsstr_eqb s (js "https://vault.example") then Some example_origin_url else None.
Definition example_vault_options : VaultOptions :=
  mkVaultOptions (Some TransportCookie) (mkCookieOptions None None None (Some (js "__Host-session")) None None None)
    JUndef (JStr (js " https://vault.example ")) true false.
Definition example_cookie : TransactionCookie := mkTransactionCookie (js "__Host-oidc_vault_transaction") SameSiteLax true.
Definition example_random : list Z := repeat 7 32.
Definition example_secret : jsstr := (createTransactionBrowserBinding toy_hash example_random).1.
Definition example_browser_match : RecordBindingMatch :=
  mkBindingMatch None (Some (createTransactionBrowserBinding toy_hash example_random).2).
Definition example_cookie_header : jsstr :=
  js "theme=dark; broken=%zz; __Host-oidc_vault_transaction=" ++ example_secret ++ js "; other".

Example example_cookie_resolved :
  resolveTransactionCookieOptions example_origin_parser example_vault_options (js "https://vault.example") = Ok example_cookie.
Proof. vm_compute. reflexivity. Qed.

Lemma browser_cookie_exact_witness :
  authenticateTransactionCookie toy_hash (JStr example_cookie_header) example_cookie example_browser_match
  = Ok (Some example_secret) ↔
  bm_browserBindingHash example_browser_match = Some (hashSecret toy_hash example_secret)
  ∧ ∃ segment, named (tc_name example_cookie) example_cookie_header = [segment]
      ∧ (cut_at 61 segment).2 = Some example_secret ∧ isCanonicalDpopJkt (JStr example_secret) = true.
Proof. apply (browser_cookie_exact toy_hash example_cookie example_cookie_header example_secret example_browser_match). done. Defined.

Example example_authenticated :
  authenticateTransactionCookie toy_hash (JStr example_cookie_header) example_cookie example_browser_match
  = Ok (Some example_secret)
  ∧ is_ok (authenticateTransactionCookie toy_hash (JStr (example_cookie_header ++ js ";__Host-oidc_vault_transaction=x"))
             example_cookie example_browser_match) = false.
Proof. by split; vm_compute. Qed.

Lemma browser_cookie_returned_witness :
  ∃ text, setTransactionCookie example_cookie example_secret (num_of_Z 601999) (num_of_Z 1000) = Ok (Some text)
    ∧ authenticateTransactionCookie toy_hash
        (JStr (join_with 59 ([js "theme=dark"; js " broken=%zz"] ++ (js " " ++ cookie_pair text) :: [js " other"])))
        example_cookie example_browser_match = Ok (Some example_secret).
Proof.
  apply (browser_cookie_returned example_origin_parser toy_hash example_vault_options (js "https://vault.example")
    example_cookie example_random (num_of_Z 601999) (num_of_Z 1000) None [js "theme=dark"; js " broken=%zz"] [js " other"] (js " "));
    try (vm_compute; reflexivity).
  - repeat constructor; vm_compute; discriminate.
  - by eexists.
  - by eexists.
  - repeat constructor; try (apply (bool_decide_unpack _); vm_compute; exact I).
Defined.

Definition example_session_text : jsstr := default [] (setSessionCookie example_origin_parser example_vault_options (js "s=1; " ++ [233; 55357; 56832])).

Lemma session_cookie_returned_witness :
  getSessionIdFromCookie example_origin_parser
    (Some (join_with 59 ([js "a"; js "b=%zz"] ++ (js " " ++ cookie_pair example_session_text) :: [js " __Host-session=later"])))
    example_vault_options = Ok (Some (js "s=1; " ++ [233; 55357; 56832])).
Proof.
  apply (session_cookie_returned example_origin_parser example_vault_options (js "s=1; " ++ [233; 55357; 56832])
    example_session_text [js "a"; js "b=%zz"] [js " __Host-session=later"] (js " "));
    try (vm_compute; reflexivity).
  - repeat constructor; vm_compute; (discriminate || reflexivity).
  - repeat constructor; apply (bool_decide_unpack _); vm_compute; exact I.
  - apply (bool_decide_unpack _); vm_compute; exact I.
  - repeat constructor; intros n v; vm_compute; [done|]. by intros [= <- <-].
Defined.

Lemma cookie_deadline_witness :
  ∃ maxAge expires : Z,
    serializeCookie (tc_name example_cookie) example_secret (transaction_cookie_options example_cookie)
      (Some (num_of_Z maxAge, num_of_Z (1000 * expires)))
    = Some (default [] (serializeCookie (tc_name example_cookie) example_secret (transaction_cookie_options example_cookie)
        (Some (num_of_Z 600, num_of_Z 601000))))
    ∧ 0 <= maxAge ∧ 1000 + 1000 * maxAge <= Z.max 1000 601999 ∧ 601999 < 1000 + 1000 * (maxAge + 1)
    ∧ 1000 * expires <= 601999 < 1000 * (expires + 1).
Proof.
  apply (cookie_deadline example_cookie example_secret _ (num_of_Z 601999) (num_of_Z 1000) 601999 1000);
    try (vm_compute; reflexivity); lia.
Defined.

Lemma guarded_match_agrees_witness :
  let r := mkOneTime (js "state") (dpop_binding (JStr example_secret)) (JStr example_secret) JUndef JUndef [] in
  let m := mkBindingMatch (Some example_secret) (Some example_secret) in
  isBindingMatch (match_value m) = true ∧ matchesRecordBinding r (match_value m) = recordBindingMatches m m.
Proof.
  apply (proj2 (guarded_match_agrees
    (mkOneTime (js "state") (dpop_binding (JStr example_secret)) (JStr example_secret) JUndef JUndef []))
    (dpop_binding (JStr example_secret)) (JStr example_secret)); vm_compute; reflexivity.
Defined.
