(* ===== verification/VaultRoute.v ===== *)
(** express-oidc-vault, [vault-route-proof.ts] and the store check of [device-binding-policy.ts]:
    the proof of a POST to the vault, verified and admitted before anything else happens.

    As in [ApiAuthenticator], a verification runs at its atomic reservation, with its readings
    in a [ReplayEnv]; everything before that only depends on the captured request. *)

From S2P Require Import Prelude JsValue JsJson AttestTypes AttestCanonical AttestVerify JsBuffer IndexedHeap VaultBinding VaultDpop DpopNonce DpopPolicy DpopTarget DpopReplay DpopChallenge DpopJson DpopProof.

(** * Definitions *)

(** What [captureVaultRouteProof] keeps of a request. *)
Record CapturedProof := mkCaptured {
  cp_header : DpopRawHeader;
  cp_method : jsstr;
  cp_originalUrl : jsval
}.

Definition captureVaultRouteProof (rawHeaders : list jsstr) (method : jsstr) (originalUrl : jsval) : CapturedProof :=
  mkCaptured (readDpopRawHeader rawHeaders (js "dpop")) method originalUrl.

(** A route's error: [VaultDpopNonceChallengeError] carries its response. *)
Inductive route_error :=
  | RouteError (e : oidc_error)
  | NonceChallengeError (response : DpopPolicyResponse).
Notation vroute := (result route_error).

Definition lift_route {A} (r : ores A) : vroute A := res_catch r (λ e, Err (RouteError e)).

Definition DEVICE_BINDING_STORE_CAPABILITIES : list jsstr :=
  map js ["getAuthorizationTransaction"; "consumeAuthorizationTransactionIfMatches"; "getExchangeCode";
          "consumeExchangeCodeIfMatches"; "getSessionRevocationContext"; "reserveDpopProof"]%string.

(** [callable name]: [typeof store?.[name] === 'function'] *)
Definition assertDeviceBindingStoreCapabilities (callable : jsstr → bool) (feature : jsstr) : ores unit :=
  res_iter (λ name, guard (callable name) (PlainError (feature ++ js " requires storeProvider." ++ name ++ js ".")))
    DEVICE_BINDING_STORE_CAPABILITIES.

Record RouteVerifier := mkRouteVerifier {
  rt_options : ResolvedDeviceBindingOptions;
  rt_target : TargetResolver;
  rt_replay : ReplayPolicy
}.

Section create.
Variable parse_url : jsstr → option URL.
Variable sha256 : list Z → list Z.

(** [createVaultRouteProofVerifier(options, config, backendOrigin, basePath)] *)
Definition createVaultRouteProofVerifier (env : jsstr → option jsstr) (policy : option ResolvedDeviceBindingOptions)
    (callable : jsstr → bool) (issuer clientId : jsval) (backendOrigin basePath : jsstr) : ores (option RouteVerifier) :=
  match policy with
  | None => Ok None
  | Some o =>
      assertDeviceBindingStoreCapabilities callable (js "deviceBinding") ;;;
      let* target := createDpopRequestTargetResolver parse_url (JStr backendOrigin) JUndef in
      let* replay := createDpopReplayPolicy parse_url sha256 env
                       (JObj true [(js "type", JStr (js "vault")); (js "backendOrigin", JStr backendOrigin);
                                   (js "basePath", JStr basePath); (js "issuer", issuer); (js "clientId", clientId)])
                       (options_value o) in
      Ok (Some (mkRouteVerifier o target replay))
  end.
End create.

(** The object form of a binding: stored, or just verified. *)
Definition binding_value (jkt : option jsstr) : jsval :=
  match jkt with Some jkt => dpop_binding (JStr jkt) | None => JUndef end.
Definition verified_value (b : option VerifiedBinding) : jsval :=
  match b with
  | Some b => JObj true [(js "type", JStr (js "dpop")); (js "jkt", JStr (vb_jkt b)); (js "alg", JStr (algorithm_name (vb_alg b)))]
  | None => JUndef
  end.

Section route.
Variable parse_url : jsstr → option URL.
Variable sha256 : list Z → list Z.
Variable hmac_sha256 : list Z → list Z → list Z.
Variable jws_verify : list (jsstr * jsval) → DpopAlgorithm → jsstr → option (list Z).
Variable thumbprint : list (jsstr * jsval) → jsstr.
Context {St : Type} `{ReplayStore St}.

Definition route_input (v : RouteVerifier) (rq : CapturedProof) (expectedJkt : option jsstr) (proof : jsstr) : ProofInput :=
  mkProofInput proof (cp_method rq) (resolveTarget parse_url (rt_target v) (cp_originalUrl rq)) (rt_options v) expectedJkt None.

(** [replay.verifyAndReserve] with [verifyDpopProof] as its callback. *)
Definition route_admission (v : RouteVerifier) (rq : CapturedProof) (expectedJkt : option jsstr) (proof : jsstr)
    (env : ReplayEnv) (st : St) : ores ReplayResult * St :=
  verifyAndReserve sha256 hmac_sha256 (rt_replay v)
    (mkEnv (let* r := verifyDpopProof parse_url sha256 jws_verify thumbprint (route_input v rq expectedJkt proof) in
            Ok (result_value r))
       (en_clock env) (en_fallback env) (en_random env) (en_store_clock env)) st.

Definition admit_proof (v : RouteVerifier) (rq : CapturedProof) (expectedJkt : option jsstr) (proof : jsstr)
    (env : ReplayEnv) (st : St) : vroute VerifiedBinding * St :=
  let '(outcome, st) := route_admission v rq expectedJkt proof env st in
  (let* result := lift_route outcome in
   match result with
   | NonceChallenge nonce =>
       let* response := lift_route (toDpopNonceChallengeResponse nonce VaultPost (db_algorithms (rt_options v))) in
       Err (NonceChallengeError response)
   | Accepted b _ => Ok b
   end, st).

Definition initiate (v : RouteVerifier) (rq : CapturedProof) (env : ReplayEnv) (st : St)
    : vroute (option VerifiedBinding) * St :=
  match extractDpopProof (cp_header rq) with
  | Err e => (Err (RouteError e), st)
  | Ok None => (let* _ := lift_route (assertDeviceBindingPolicy (Some (rt_options v)) JUndef) in Ok None, st)
  | Ok (Some proof) =>
      let '(r, st) := admit_proof v rq None proof env st in (res_map Some r, st)
  end.

(** [verify(request, originalBinding)] *)
Definition verify (v : RouteVerifier) (rq : CapturedProof) (originalBinding : jsval) (env : ReplayEnv) (st : St)
    : vroute (option VerifiedBinding) * St :=
  let checked :=
    let* binding := snapshotDpopBinding originalBinding in
    assertDeviceBindingPolicy (Some (rt_options v)) (binding_value binding) ;;;
    let* proof := extractDpopProof (cp_header rq) in
    Ok (binding, proof) in
  match checked with
  | Err e => (Err (RouteError e), st)
  | Ok (binding, proof) =>
      let '(verified, st) :=
        match proof with
        | None => (Ok None, st)
        | Some proof => let '(r, st) := admit_proof v rq binding proof env st in (res_map Some r, st)
        end in
      (let* verified := verified in
       lift_route (resolveVerifiedDeviceBinding (Some (rt_options v)) (binding_value binding) (verified_value verified)), st)
  end.

(** The proof-carrying calls of the vault's POST routes. *)
Inductive RouteCall :=
  | Initiate (rq : CapturedProof)
  | Verify (rq : CapturedProof) (originalBinding : jsval).
Definition call_request (c : RouteCall) : CapturedProof := match c with Initiate rq | Verify rq _ => rq end.
Definition route_call (v : RouteVerifier) (c : RouteCall) (env : ReplayEnv) (st : St)
    : vroute (option VerifiedBinding) * St :=
  match c with
  | Initiate rq => initiate v rq env st
  | Verify rq originalBinding => verify v rq originalBinding env st
  end.
End route.

Definition toVaultRouteErrorResponse (error : route_error) (policy : option ResolvedDeviceBindingOptions)
    : ores DpopPolicyResponse :=
  match error with
  | NonceChallengeError response => Ok response
  | RouteError e => toDpopReplayErrorResponse e (match policy with Some o => db_algorithms o | None => [ES256] end)
  end.

(** * Properties *)

Section properties.
Variable parse_url : jsstr → option URL.
Variable sha256 : list Z → list Z.
Variable hmac_sha256 : list Z → list Z → list Z.
Variable jws_verify : list (jsstr * jsval) → DpopAlgorithm → jsstr → option (list Z).
Variable thumbprint : list (jsstr * jsval) → jsstr.
Notation verifyProof := (verifyDpopProof parse_url sha256 jws_verify thumbprint).

(** A verifier as it is constructed. *)
Lemma created_verifier env policy callable issuer clientId origin basePath v :
  (∀ o, policy = Some o → options_ok o) →
  createVaultRouteProofVerifier parse_url sha256 env policy callable issuer clientId origin basePath = Ok (Some v) →
  policy = Some (rt_options v) ∧ rp_options (rt_replay v) = rt_options v.
Proof.
  intros Hok Hc. destruct policy as [o|]; [|done]. cbn in Hc. specialize (Hok o eq_refl).
  res_step Hc as u1 _. res_step Hc as target _. res_step Hc as replay Hr. injection Hc as <-. split; [done|].
  unfold createDpopReplayPolicy in Hr. rewrite resolve_again in Hr by done. cbn [res_bind rt_options rt_replay] in *.
  res_step Hr as ns _. res_step Hr as np _. by injection Hr as <-.
Qed.

Context {St : Type} `{ReplayStore St}.
Notation route_admission := (route_admission parse_url sha256 hmac_sha256 jws_verify thumbprint).
Notation admit_proof := (admit_proof parse_url sha256 hmac_sha256 jws_verify thumbprint).
Notation initiate := (initiate parse_url sha256 hmac_sha256 jws_verify thumbprint).
Notation verify := (verify parse_url sha256 hmac_sha256 jws_verify thumbprint).
Notation route_call := (route_call parse_url sha256 hmac_sha256 jws_verify thumbprint).
Notation route_input := (route_input parse_url).

(** [b] is the key of a proof that this request carries, that was signed for its method and
    target, and that the replay store admitted. *)
Definition proven (v : RouteVerifier) (rq : CapturedProof) (expectedJkt : option jsstr) (env : ReplayEnv) (st st' : St)
    (b : VerifiedBinding) : Prop :=
  ∃ proof r header claims jwk e,
    extractDpopProof (cp_header rq) = Ok (Some proof)
    ∧ proof_verified parse_url sha256 jws_verify thumbprint (route_input v rq expectedJkt proof) r header claims jwk
    ∧ vb_jkt b = po_jkt r
    ∧ route_admission v rq expectedJkt proof env st = (Ok (Accepted b e), st').

Lemma admit_ok v rq jkt proof env st b st' :
  admit_proof v rq jkt proof env st = (Ok b, st') → ∃ e, route_admission v rq jkt proof env st = (Ok (Accepted b e), st').
Proof.
  unfold VaultRoute.admit_proof. destruct (route_admission v rq jkt proof env st) as [[[b' e|nonce]|e] st1]; cbn; try done.
  - intros [= -> ->]. by eexists.
  - by destruct (toDpopNonceChallengeResponse _ _ _).
Qed.

Lemma admit_proven v rq jkt proof env st b st' :
  extractDpopProof (cp_header rq) = Ok (Some proof) → admit_proof v rq jkt proof env st = (Ok b, st') →
  proven v rq jkt env st st' b.
Proof.
  intros Hx (e & Ha)%admit_ok. pose proof Ha as Ha'. unfold VaultRoute.route_admission in Ha'.
  apply accepted_candidate in Ha' as (val & c & Hv & Hc & ->). cbn [en_verified] in Hv. res_step Hv as r Hr. injection Hv as <-.
  pose proof (verified_inv _ _ _ _ _ _ Hr) as (header & claims & jwk & Hver).
  exists proof, r, header, claims, jwk, e. split_and!; try done. by apply (result_candidate _ _ _ Hc).
Qed.

(** A call that succeeds with a proof has had it admitted. *)
Lemma call_admitted v c proof env st r st' :
  extractDpopProof (cp_header (call_request c)) = Ok (Some proof) → route_call v c env st = (Ok r, st') →
  ∃ jkt b e, route_admission v (call_request c) jkt proof env st = (Ok (Accepted b e), st').
Proof.
  intros Hx. destruct c as [rq|rq original]; cbn [VaultRoute.route_call call_request] in *.
  - unfold VaultRoute.initiate. rewrite Hx. destruct (admit_proof _ _ _ _ _ _) as [[b|] st1] eqn:Ha; cbn; [|done].
    intros [= <- <-]. apply admit_ok in Ha as [e Ha]. eauto.
  - unfold VaultRoute.verify. rewrite Hx. cbv zeta. destruct (res_bind _ _) as [[binding o]|] eqn:Hc; [|done].
    res_step Hc as stored _. res_step Hc as u _. cbn [res_bind] in Hc. injection Hc as <- <-.
    destruct (admit_proof _ _ _ _ _ _) as [[b|] st1] eqn:Ha; cbn [res_map res_bind]; [|done].
    destruct (lift_route _); [|done]. intros [= <- <-]. apply admit_ok in Ha as [e Ha]. eauto.
Qed.

(** What a login, and a request on an existing record, get out of the verifier: the key of a new
    login is that of an admitted proof; a bound record is only confirmed by a proof of its own key; an unbound
    one stays unbound, whatever proof comes with it, and only where the policy lets it. *)
Theorem route_binding_sound (v : RouteVerifier) (c : RouteCall) (env : ReplayEnv) (st st' : St) (r : option VerifiedBinding) :
  route_call v c env st = (Ok r, st') →
  match c, r with
  | Initiate rq, Some b => proven v rq None env st st' b
  | Initiate rq, None => rh_count (cp_header rq) = 0%nat ∧ db_mode (rt_options v) = Optional ∧ st' = st
  | Verify rq originalBinding, Some b =>
      ∃ jkt, snapshotDpopBinding originalBinding = Ok (Some jkt) ∧ vb_jkt b = jkt
        ∧ vb_alg b ∈ db_algorithms (rt_options v) ∧ proven v rq (Some jkt) env st st' b
  | Verify rq originalBinding, None =>
      originalBinding = JUndef ∧ db_mode (rt_options v) = Optional
      ∧ (rh_count (cp_header rq) = 0%nat ∧ st' = st ∨ ∃ b, proven v rq None env st st' b)
  end.
Proof.
  assert (∀ header, extractDpopProof header = Ok None → rh_count header = 0%nat) as Hnone.
  { intros header. unfold extractDpopProof. destruct (rh_count header) as [|[|n]]; [done| |done].
    destruct (rh_value header); [|done]. intros Hx. by res_step Hx as u Hg. }
  destruct c as [rq|rq original]; cbn [VaultRoute.route_call].
  - unfold VaultRoute.initiate. destruct (extractDpopProof (cp_header rq)) as [[proof|]|e] eqn:Hx; [| |done].
    + destruct (admit_proof v rq None proof env st) as [[b|e] st1] eqn:Ha; cbn; [|done]. intros [= <- <-].
      by eapply admit_proven.
    + destruct (assertDeviceBindingPolicy _ _) as [u|] eqn:Hp; [|done]. cbn. intros [= <- <-]. destruct u.
      apply assert_policy_spec in Hp as [(? & ? & Hs & _)|[_ Hm]]; [done|]. eauto.
  - unfold VaultRoute.verify. cbv zeta. destruct (res_bind _ _) as [[binding proof]|e] eqn:Hc; [|done].
    res_step Hc as stored Hs. res_step Hc as u Hp. destruct u. res_step Hc as o Hx. injection Hc as <- <-.
    destruct o as [proof|].
    + destruct (admit_proof v rq stored proof env st) as [[b|e] st1] eqn:Ha; cbn [res_map res_bind]; [|done].
      pose proof (admit_proven _ _ _ _ _ _ _ _ Hx Ha) as Hproven.
      destruct (resolveVerifiedDeviceBinding _ _ _) as [r'|] eqn:Hr; [|done]. cbn. intros [= <- <-].
      unfold resolveVerifiedDeviceBinding in Hr. res_step Hr as s Hs'. res_step Hr as u' Hp'.
      destruct stored as [jkt|].
      * cbn [binding_value] in *. rewrite snapshot_snapshot in Hs' by (apply snapshot_spec in Hs; naive_solver). injection Hs' as <-.
        cbn [is_undef verified_value] in Hr. res_step Hr as pb Hpb.
        apply snapshot_spec in Hpb. destruct pb as [j|]; [|done]. destruct Hpb as (_ & _ & [= <-] & _).
        change (get_field _ (js "alg")) with (JStr (algorithm_name (vb_alg b))) in Hr. rewrite algorithm_name_resolved in Hr.
        res_step Hr as u2 Halg. res_step Hr as u3 Hj. injection Hr as <-.
        apply guard_Ok, bool_decide_eq_true in Halg. apply guard_Ok, jsstr_eqb_true in Hj. exists jkt. split_and!; [done..|].
        by destruct b; cbn in *; subst.
      * injection Hs' as <-. cbn [is_undef verified_value] in Hr. res_step Hr as pb Hpb.
        destruct pb; [|done]. destruct (dpop_algorithm _); [|done]. res_step Hr as u2 _. injection Hr as <-.
        apply snapshot_spec in Hs as ->. apply assert_policy_spec in Hp as [(? & ? & Hs & _)|[_ Hm]]; [done|].
        split_and!; [done|by apply Hm|right]. by exists b.
    + cbn [res_bind]. destruct (resolveVerifiedDeviceBinding _ _ _) as [r'|] eqn:Hr; [|done]. cbn. intros [= <- <-].
      unfold resolveVerifiedDeviceBinding in Hr. res_step Hr as s Hs'. res_step Hr as u' _. cbn in Hr.
      destruct stored as [jkt|]; [cbn [binding_value] in Hs'; rewrite snapshot_snapshot in Hs' by (apply snapshot_spec in Hs; naive_solver)|]; injection Hs' as <-; [done|].
      injection Hr as <-. apply snapshot_spec in Hs as ->.
      apply assert_policy_spec in Hp as [(? & ? & Hs & _)|[_ Hm]]; [done|]. split_and!; [done|by apply Hm|left; auto].
Qed.
End properties.

Section once.
Variable parse_url : jsstr → option URL.
Variable sha256 : list Z → list Z.
Variable hmac_sha256 : list Z → list Z → list Z.
Variable jws_verify : list (jsstr * jsval) → DpopAlgorithm → jsstr → option (list Z).
Variable thumbprint : list (jsstr * jsval) → jsstr.
Context {St : Type} `{ReplayStoreLaws St}.
Notation route_call := (route_call parse_url sha256 hmac_sha256 jws_verify thumbprint).

(** All POST routes of a vault share one protection space: a proof that one of them took, to begin a
    login or on a record, is taken by none of them again, whatever the two requests are and whatever
    is reserved in between, while the store's clock does not go back. *)
Theorem route_proof_once (v : RouteVerifier) (c1 c2 : RouteCall) (proof : jsstr) (env1 env2 : ReplayEnv)
    (mid : list (jsstr * num * num)) (st st1 : St) (r : option VerifiedBinding) :
  rs_ok st →
  db_ignoreReplayFailure (rp_options (rt_replay v)) = false →
  db_ignoreFreshnessFailure (rp_options (rt_replay v)) = false →
  extractDpopProof (cp_header (call_request c1)) = Ok (Some proof) →
  extractDpopProof (cp_header (call_request c2)) = Ok (Some proof) →
  route_call v c1 env1 st = (Ok r, st1) →
  Forall (λ c, num_le c.2 (en_store_clock env2) = true) mid →
  ∃ e, (route_call v c2 env2 (reserve_run mid st1)).1 = Err e.
Proof.
  intros Hok Hr Hf Hx1 Hx2 H1 Hmid. apply call_admitted with (proof := proof) in H1 as (jkt1 & b1 & e1 & H1); [|done].
  destruct (route_call v c2 env2 _) as [[r2|e] st2] eqn:H2; [|by exists e].
  exfalso. apply call_admitted with (proof := proof) in H2 as (jkt2 & b2 & e2 & H2); [|done].
  unfold route_admission in H1, H2.
  pose proof H1 as H1'. apply accepted_candidate in H1' as (v1 & _ & Hv1 & _). cbn [en_verified] in Hv1. res_step Hv1 as r1 Hr1.
  pose proof H2 as H2'. apply accepted_candidate in H2' as (v2 & _ & Hv2 & _). cbn [en_verified] in Hv2. res_step Hv2 as r2' Hr2.
  pose proof Hr1 as Hi1. pose proof Hr2 as Hi2. apply verified_inv in Hi1 as (h1 & l1 & k1 & Hi1). apply verified_inv in Hi2 as (h2 & l2 & k2 & Hi2).
  assert (r1 = r2') as -> by (eapply verified_same; [|exact Hi1|exact Hi2]; done).
  match type of H1 with verifyAndReserve _ _ _ ?x _ = _ => set (x1 := x) in H1 end.
  match type of H2 with verifyAndReserve _ _ _ ?x _ = _ => set (x2 := x) in H2 end.
  refine (accepted_once sha256 hmac_sha256 (rt_replay v) (rt_replay v) x1 x2 (result_value r2') mid st st1 b1 e1
    Hok eq_refl eq_refl eq_refl Hr Hr Hf Hf _ _ H1 Hmid b2 e2 _); unfold x1, x2; cbn [en_verified];
    [by rewrite Hr1|by rewrite Hr2|]. fold x2. by rewrite H2.
Qed.
End once.

(** * Concrete instances *)

Definition example_vault_resolver : TargetResolver := mkResolver (js "https://api.example.com") [].
Definition example_route_verifier : RouteVerifier :=
  mkRouteVerifier example_options example_vault_resolver
    (mkReplayPolicy [js "vault"; js "https://api.example.com"; js "/auth/oidc"; js "https://issuer.example"; js "client"]
       example_options None).

Example example_route_created :
  createVaultRouteProofVerifier example_target_parser toy_hash example_env (Some example_options) (λ _, true)
    (JStr (js "https://issuer.example")) (JStr (js "client")) (js "https://api.example.com") (js "/auth/oidc")
  = Ok (Some example_route_verifier).
Proof. vm_compute. reflexivity. Qed.

Definition example_route_claims : jsval :=
  JObj true [(js "htm", JStr (js "POST")); (js "htu", JStr (js "https://api.example.com/auth/oidc/login"));
             (js "iat", JNum (num_of_Z 1000)); (js "jti", JStr (js "proof-2"))].
Definition example_route_proof : jsstr :=
  segment example_header_value ++ [46] ++ segment example_route_claims ++ [46] ++ base64urlEncode (repeat 1 64).
Definition example_captured : CapturedProof :=
  captureVaultRouteProof [js "DPoP"; example_route_proof] (js "POST") (JStr (js "/auth/oidc/login?x=1")).
Definition example_route_env (now clock : Z) : ReplayEnv :=
  mkEnv (Ok JUndef) (Some (num_of_Z now)) (num_of_Z 0) (repeat 3 16) (num_of_Z clock).
Definition example_login : vroute (option VerifiedBinding) * HeapState Z :=
  route_call (H := memory_replay_store 10) example_target_parser toy_hash toy_hmac example_jws example_thumbprint
    example_route_verifier (Initiate example_captured) (example_route_env 1004000 1004001) empty_heap.

Lemma route_binding_sound_witness :
  proven (H := memory_replay_store 10) example_target_parser toy_hash toy_hmac example_jws example_thumbprint
    example_route_verifier example_captured None (example_route_env 1004000 1004001) empty_heap example_login.2
    (mkVerified example_jkt ES256).
Proof.
  apply (route_binding_sound (H := memory_replay_store 10) example_target_parser toy_hash toy_hmac example_jws
    example_thumbprint example_route_verifier (Initiate example_captured) (example_route_env 1004000 1004001) empty_heap
    example_login.2 (Some (mkVerified example_jkt ES256))).
  vm_compute. reflexivity.
Defined.

Lemma route_proof_once_witness :
  ∃ e, (route_call (H := memory_replay_store 10) example_target_parser toy_hash toy_hmac example_jws example_thumbprint
          example_route_verifier (Verify example_captured (dpop_binding (JStr example_jkt))) (example_route_env 1006000 1006000)
          (reserve_run (H := memory_replay_store 10) [] example_login.2)).1 = Err e.
Proof.
  apply (route_proof_once (H0 := memory_replay_laws 10) example_target_parser toy_hash toy_hmac example_jws
    example_thumbprint example_route_verifier (Initiate example_captured)
    (Verify example_captured (dpop_binding (JStr example_jkt))) example_route_proof (example_route_env 1004000 1004001)
    (example_route_env 1006000 1006000) [] empty_heap example_login.2 (Some (mkVerified example_jkt ES256)));
    try match goal with |- _ = _ => vm_compute; reflexivity end.
  - apply memory_empty_ok.
  - constructor.
Defined.
