(* ===== verification/PortableCopy.v ===== *)
(** express-oidc-vault, [copyPortableData] of vault-session.ts: the detached copy of a session's
    profile and metadata, over a memory of objects, so that shared and cyclic containers are part of the
    model.

    A memory is the list of its objects and a reference is a position. Own enumerable properties
    are data properties; a copy does not call getters that change the memory. *)

From S2P Require Import Prelude JsValue.

(** * Objects in memory *)

(** A primitive value, or a reference. *)
Inductive gval :=
  | GPrim (v : jsval)
  | GRef (l : nat).

(** An array with its [length], an object with [Object.prototype] ([false]) or a null
    prototype ([true]), or anything else an application put there; the enumerable own properties in
    the order of [Object.keys]. *)
Inductive node :=
  | NArray (len : nat) (fields : list (jsstr * gval))
  | NPlain (null_prototype : bool) (fields : list (jsstr * gval))
  | NOpaque.

Notation memory := (list node).

#[export] Instance gval_inhabited : Inhabited gval := populate (GPrim JUndef).

(** [Array.isArray(item) || isPlainObject(item)] *)
Definition portable (n : node) : bool := match n with NOpaque => false | _ => true end.
Definition node_fields (n : node) : list (jsstr * gval) :=
  match n with NArray _ fs | NPlain _ fs => fs | NOpaque => [] end.

(** [new Array(item.length)] and [Object.create(Object.getPrototypeOf(item))] *)
Definition empty_like (n : node) : node :=
  match n with NArray len _ => NArray len [] | NPlain p _ => NPlain p [] | NOpaque => NOpaque end.

(** [Object.defineProperty(target, key, { value, … })] for a new key. *)
Definition define_property (n : node) (key : jsstr) (v : gval) : node :=
  match n with
  | NArray len fs => NArray len (fs ++ [(key, v)])
  | NPlain p fs => NPlain p (fs ++ [(key, v)])
  | NOpaque => NOpaque
  end.

(** * The copy *)

Record CopyState := mkCopy {
  cp_memory : memory;
  copies : gmap nat nat;
  pending : list (nat * nat)     (** what the loop has not visited yet *)
}.

(** The inner function [copy]. *)
Definition copy (item : gval) (st : CopyState) : gval * CopyState :=
  match item with
  | GPrim _ => (item, st)
  | GRef l =>
      match cp_memory st !! l with
      | Some n =>
          if portable n then
            match copies st !! l with
            | Some t => (GRef t, st)
            | None =>
                let target := length (cp_memory st) in
                (GRef target,
                 mkCopy (cp_memory st ++ [empty_like n]) (<[l := target]> (copies st)) (pending st ++ [(l, target)]))
            end
          else (item, st)
      | None => (item, st)
      end
  end.

Section copy_portable.
Variable omitted : jsstr → bool.      (** [omitRecognition && key === FINGERPRINT_RECOGNITION_METADATA_KEY] *)

(** The properties of one container. *)
Fixpoint copy_fields (fields : list (jsstr * gval)) (target : nat) (st : CopyState) : CopyState :=
  match fields with
  | [] => st
  | (key, v) :: fields =>
      if omitted key then copy_fields fields target st
      else
        let '(v', st) := copy v st in
        copy_fields fields target
          (mkCopy (alter (λ n, define_property n key v') target (cp_memory st)) (copies st) (pending st))
  end.

(** [for (let index = 0; index < pending.length; index++)], with a bound on its turns. *)
Fixpoint drain (fuel : nat) (st : CopyState) : option CopyState :=
  match pending st with
  | [] => Some st
  | (source, target) :: rest =>
      match fuel with
      | O => None
      | S fuel =>
          let st := mkCopy (cp_memory st) (copies st) rest in
          match cp_memory st !! source with
          | Some n => drain fuel (copy_fields (node_fields n) target st)
          | None => drain fuel st
          end
      end
  end.

(** Every container of the memory is visited at most once. *)
Definition copyPortableData (value : gval) (m : memory) : option (gval * memory) :=
  let '(result, st) := copy value (mkCopy m ∅ []) in
  st ← drain (length m) st; Some (result, cp_memory st).
End copy_portable.

(** * What is reachable *)

(** Containers reached from a value through containers and the properties that are kept. *)
Inductive reaches (keep : jsstr → bool) (m : memory) : gval → nat → Prop :=
  | reach_here l n : m !! l = Some n → portable n = true → reaches keep m (GRef l) l
  | reach_field l n key v t :
      m !! l = Some n → portable n = true → (key, v) ∈ node_fields n → keep key = true →
      reaches keep m v t → reaches keep m (GRef l) t.

(** The value as a tree, down to a depth: what any reader of that many steps sees of it. *)
Inductive gtree :=
  | TPrim (v : jsval)
  | TOpaque (l : nat)
  | TDeep
  | TArray (len : nat) (fields : list (jsstr * gtree))
  | TPlain (null_prototype : bool) (fields : list (jsstr * gtree)).

Section view.
Variable keep : jsstr → bool.
Fixpoint view (depth : nat) (m : memory) (v : gval) : gtree :=
  match v with
  | GPrim v => TPrim v
  | GRef l =>
      match m !! l with
      | Some n =>
          if portable n then
            match depth with
            | O => TDeep
            | S depth =>
                let fields := map (λ kv, (kv.1, view depth m kv.2)) (filter (λ kv, keep kv.1 = true) (node_fields n)) in
                match n with NArray len _ => TArray len fields | NPlain p _ => TPlain p fields | NOpaque => TOpaque l end
            end
          else TOpaque l
      | None => TOpaque l
      end
  end.
End view.

(** * The copy is an isomorphic, disjoint graph *)

Definition in_bounds (m : memory) (v : gval) : Prop := match v with GRef l => (l < length m)%nat | GPrim _ => True end.
Definition closed (m : memory) : Prop := Forall (λ n, Forall (λ kv, in_bounds m kv.2) (node_fields n)) m.

Section correct.
Variable omitted : jsstr → bool.
Variable m0 : memory.
Hypothesis m0_closed : closed m0.
Notation keep := (λ key, negb (omitted key)).
Notation kept := (λ kv : jsstr * gval, keep kv.1 = true).

(** [v'] is what a value becomes under the correspondence [c] of containers. *)
Definition imaged (c : gmap nat nat) (v v' : gval) : Prop :=
  match v with
  | GPrim _ => v' = v
  | GRef l => ∃ n, m0 !! l = Some n ∧ if portable n then ∃ t, c !! l = Some t ∧ v' = GRef t else v' = v
  end.
Definition imaged_fields (c : gmap nat nat) (fs fs' : list (jsstr * gval)) : Prop :=
  Forall2 (λ kv kv', kv'.1 = kv.1 ∧ imaged c kv.2 kv'.2) (filter kept fs) fs'.

(** A container as [copy] makes it, and the entries of the work list for containers found from the
    [k]-th on. *)
Definition blank (s : nat) : node := from_option empty_like NOpaque (m0 !! s).
Definition tags (k : nat) (l : list nat) : list (nat * nat) := zip l (seq (length m0 + k) (length l)).
Lemma tags_app k l l' : tags k (l ++ l') = tags k l ++ tags (k + length l) l'.
Proof.
  unfold tags. rewrite length_app, seq_app, zip_with_app by by rewrite length_seq.
  by rewrite Nat.add_assoc.
Qed.

(** The same kind of container with other properties. *)
Definition with_fields (n : node) (fs : list (jsstr * gval)) : node :=
  match n with NArray len _ => NArray len fs | NPlain p _ => NPlain p fs | NOpaque => NOpaque end.

Lemma imaged_mono c c' v v' : c ⊆ c' → imaged c v v' → imaged c' v v'.
Proof.
  intros Hc. destruct v as [|l]; [done|]. intros (n & Hn & H). exists n. split; [done|]. destruct (portable n); [|done].
  destruct H as (t & Ht & ->). exists t. split; [|done]. by eapply lookup_weaken.
Qed.
Lemma imaged_fields_mono c c' fs fs' : c ⊆ c' → imaged_fields c fs fs' → imaged_fields c' fs fs'.
Proof. intros Hc H. eapply Forall2_impl; [exact H|]. intros kv kv' [H1 H2]. split; [done|]. by eapply imaged_mono. Qed.

(** Containers found so far, in the order they were found; copies follow the original memory. *)
Record copying (root : gval) (found : list nat) (news : list node) (st : CopyState) : Prop := {
  cg_memory : cp_memory st = m0 ++ news;
  cg_length : length news = length found;
  cg_copies : ∀ s t, copies st !! s = Some t ↔ ∃ i, found !! i = Some s ∧ t = (length m0 + i)%nat;
  cg_nodup : NoDup found;
  cg_found : ∀ s, s ∈ found → reaches keep m0 root s
}.

Lemma reaches_portable p m v s : reaches p m v s → ∃ n, m !! s = Some n ∧ portable n = true.
Proof. induction 1; eauto. Qed.

Lemma reaches_trans_field p m root s n key v :
  reaches p m root s → m !! s = Some n → (key, v) ∈ node_fields n → p key = true → ∀ t, reaches p m v t → reaches p m root t.
Proof.
  intros H Hn Hk Hp t Ht. induction H.
  - eapply reach_field; try done; congruence.
  - eapply reach_field; eauto.
Qed.

Lemma found_bounded root found news st : copying root found news st → (length found <= length m0)%nat.
Proof.
  intros H. rewrite <- (length_seq (length m0) 0). apply submseteq_length, NoDup_submseteq; [apply (cg_nodup _ _ _ _ H)|].
  intros s Hs. apply (cg_found _ _ _ _ H), reaches_portable in Hs as (n & Hn & _).
  apply elem_of_seq. apply lookup_lt_Some in Hn. lia.
Qed.

(** One call of [copy]: the value's image, with at most one container more. *)
Lemma copy_spec root found news st v v' st' :
  copying root found news st → in_bounds m0 v → (∀ t, reaches keep m0 v t → reaches keep m0 root t) →
  copy v st = (v', st') →
  ∃ more,
    copying root (found ++ more) (news ++ map blank more) st'
    ∧ imaged (copies st') v v' ∧ copies st ⊆ copies st'
    ∧ pending st' = pending st ++ tags (length found) more.
Proof.
  intros Hst Hv Hroot Hc. destruct v as [w|l]; cbn in Hc.
  { injection Hc as <- <-. exists []. cbn. rewrite !app_nil_r. by split_and!. }
  cbn in Hv. destruct (lookup_lt_is_Some_2 m0 l Hv) as [n Hn].
  rewrite (cg_memory _ _ _ _ Hst), lookup_app_l, Hn in Hc by done.
  destruct (portable n) eqn:Hp; [|injection Hc as <- <-; exists []; cbn; rewrite !app_nil_r; split_and!; try done; exists n; by rewrite Hp].
  destruct (copies st !! l) as [t|] eqn:Ht.
  { injection Hc as <- <-. exists []. cbn. rewrite !app_nil_r. split_and!; try done. exists n. rewrite Hp. eauto. }
  injection Hc as <- <-. exists [l]. unfold tags, blank. cbn [map length seq zip zip_with]. rewrite Hn. cbn [from_option copies pending cp_memory].
  rewrite length_app, (cg_length _ _ _ _ Hst). split_and!; try done.
  - split; cbn [cp_memory copies].
    + by rewrite app_assoc.
    + rewrite !length_app, (cg_length _ _ _ _ Hst). done.
    + intros s t. destruct (decide (s = l)) as [->|Hne].
      * rewrite lookup_insert_eq. split.
        -- intros [= <-]. exists (length found). by rewrite lookup_app_r, Nat.sub_diag by done.
        -- intros (i & Hi & ->). f_equal. apply lookup_app_Some in Hi as [Hi|[Hle Hi]].
           ++ exfalso. assert (copies st !! l = Some (length m0 + i)%nat) by (apply (cg_copies _ _ _ _ Hst); eauto). congruence.
           ++ apply list_lookup_singleton_Some in Hi as [Hi _]. lia.
      * rewrite lookup_insert_ne by done. rewrite (cg_copies _ _ _ _ Hst). split.
        -- intros (i & Hi & ->). exists i. split; [|done]. by apply lookup_app_l_Some.
        -- intros (i & Hi & ->). exists i. split; [|done]. apply lookup_app_Some in Hi as [Hi|[_ Hi]]; [done|].
           apply list_lookup_singleton_Some in Hi as [_ ?]. congruence.
    + apply NoDup_app. split; [apply (cg_nodup _ _ _ _ Hst)|]. split; [|apply NoDup_singleton].
      intros s Hs ->%list_elem_of_singleton. apply list_elem_of_lookup in Hs as [i Hi].
      assert (copies st !! l = Some (length m0 + i)%nat) by (apply (cg_copies _ _ _ _ Hst); eauto). congruence.
    + intros s [Hs| ->%list_elem_of_singleton]%elem_of_app; [by apply (cg_found _ _ _ _ Hst)|].
      apply Hroot. by econstructor.
  - exists n. rewrite Hp. split; [done|]. eexists. rewrite lookup_insert_eq. split; [done|]. by rewrite ?length_app, ?(cg_length _ _ _ _ Hst).
  - by apply insert_subseteq.
Qed.

Lemma alter_known (f : node → node) (d : nat) (l : list node) x : l !! d = Some x → alter f d l = <[d := f x]> l.
Proof.
  intros Hx. apply list_eq. intros i. destruct (decide (i = d)) as [->|Hne].
  - rewrite list_lookup_alter_eq, Hx, list_lookup_insert_eq by (by eapply lookup_lt_Some). done.
  - by rewrite list_lookup_alter_ne, list_lookup_insert_ne by done.
Qed.
Lemma with_fields_define n fs key v : portable n = true →
  define_property (with_fields n fs) key v = with_fields n (fs ++ [(key, v)]).
Proof. by destruct n. Qed.
Lemma blank_fields s n : m0 !! s = Some n → blank s = with_fields n [].
Proof. unfold blank. intros ->. by destruct n. Qed.

Lemma field_in_bounds s n key v : m0 !! s = Some n → (key, v) ∈ node_fields n → in_bounds m0 v.
Proof.
  intros Hn Hv. pose proof m0_closed as H. unfold closed in H. rewrite Forall_lookup in H. specialize (H s n Hn).
  rewrite Forall_forall in H. by apply (H (key, v)).
Qed.

(** The properties of one container: its copy gets their images, whatever it had. *)
Lemma copy_fields_spec root s n d fields fs0 found news st :
  copying root found news st → reaches keep m0 root s → m0 !! s = Some n → portable n = true →
  (∀ kv, kv ∈ fields → kv ∈ node_fields n) → news !! d = Some (with_fields n fs0) →
  ∃ more fs,
    let st' := copy_fields omitted fields (length m0 + d) st in
    copying root (found ++ more) (<[d := with_fields n (fs0 ++ fs)]> (news ++ map blank more)) st'
    ∧ imaged_fields (copies st') fields fs ∧ copies st ⊆ copies st'
    ∧ pending st' = pending st ++ tags (length found) more.
Proof.
  intros Hst Hs Hn Hp. revert fs0 found news st Hst. induction fields as [|[key v] fields IH]; intros fs0 found news st Hst Hf Hd.
  { exists [], []. cbn. rewrite !app_nil_r, list_insert_id by done. split_and!; try done. constructor. }
  cbn [copy_fields]. destruct (omitted key) eqn:Hk.
  { destruct (IH fs0 found news st) as (more & fs & H); [done|set_solver|done|]. exists more, fs. cbv zeta in *.
    unfold imaged_fields in *. rewrite filter_cons_False by (cbn; by rewrite Hk). exact H. }
  assert ((key, v) ∈ node_fields n) as Hv by (apply Hf; left).
  destruct (copy v st) as [v' st1] eqn:Hc.
  destruct (copy_spec root found news st v v' st1 Hst) as (more1 & Hst1 & Hi1 & Hsub1 & Hpend1); [by eapply field_in_bounds| |done|].
  { eapply reaches_trans_field; try done. cbn. by rewrite Hk. }
  set (st2 := mkCopy _ _ _).
  destruct (IH (fs0 ++ [(key, v')]) (found ++ more1) (<[d := with_fields n (fs0 ++ [(key, v')])]> (news ++ map blank more1)) st2)
    as (more2 & fs & Hst2 & Hi2 & Hsub2 & Hpend2).
  - destruct Hst1 as [H1 H2 H3 H4 H5]. split; [|by rewrite length_insert|done..].
    change (cp_memory st2) with (alter (λ n, define_property n key v') (length m0 + d)%nat (cp_memory st1)).
    rewrite H1, alter_app_r. f_equal. rewrite <- (with_fields_define n fs0 key v' Hp).
    rewrite (alter_known _ d _ (with_fields n fs0)); [done|]. by apply lookup_app_l_Some.
  - set_solver.
  - apply list_lookup_insert_eq. rewrite length_app. apply lookup_lt_Some in Hd. lia.
  - exists (more1 ++ more2), ((key, v') :: fs). cbv zeta in *. split_and!.
    + rewrite map_app, !app_assoc, <- (app_assoc fs0 [_]) in *. cbn [app] in *.
      rewrite insert_app_l, list_insert_insert_eq, <- insert_app_l in Hst2; [done|..];
        rewrite ?length_insert, length_app; apply lookup_lt_Some in Hd; lia.
    + unfold imaged_fields. rewrite filter_cons_True by (cbn; by rewrite Hk). constructor; [|done]. split; [done|].
      by eapply imaged_mono.
    + by etrans.
    + rewrite Hpend2. cbn [st2 pending]. rewrite Hpend1, tags_app, <- app_assoc, length_app. done.
Qed.

(** The loop: containers before the [d]-th are finished, the others are as they were made. *)
Record progress (root : gval) (d : nat) (found : list nat) (news : list node) (st : CopyState) : Prop := {
  pg_copying : copying root found news st;
  pg_pending : pending st = tags d (drop d found);
  pg_done : ∀ i s, (i < d)%nat → found !! i = Some s →
    ∃ n fs, m0 !! s = Some n ∧ news !! i = Some (with_fields n fs) ∧ imaged_fields (copies st) (node_fields n) fs;
  pg_rest : ∀ i s, (d <= i)%nat → found !! i = Some s → news !! i = Some (blank s)
}.

Lemma drain_spec root fuel d found news st :
  progress root d found news st → (length m0 <= fuel + d)%nat →
  ∃ st' found' news',
    drain omitted fuel st = Some st' ∧ progress root (length found') found' news' st' ∧ copies st ⊆ copies st'.
Proof.
  revert d found news st. induction fuel as [|fuel IH]; intros d found news st Hpg Hfuel.
  all: pose proof (found_bounded _ _ _ _ (pg_copying _ _ _ _ _ Hpg)) as Hb.
  all: destruct (drop d found) as [|s rest] eqn:Hdrop;
    [assert (length found <= d)%nat by (apply (f_equal length) in Hdrop; rewrite length_drop in Hdrop; cbn in Hdrop; lia);
     exists st, found, news; split; [cbn; rewrite (pg_pending _ _ _ _ _ Hpg), Hdrop; done|];
     split; [|done]; destruct Hpg as [H1 H2 H3 H4]; split; [done|by rewrite H2, Hdrop, drop_ge by lia|
       intros i s Hi Hs; apply H3; [lia|done]|intros i s Hi Hs; apply lookup_lt_Some in Hs; lia]|].
  all: assert (found !! d = Some s) as Hs by (rewrite <- (Nat.add_0_r d), <- lookup_drop, Hdrop; done).
  all: apply lookup_lt_Some in Hs as Hlt.
  { lia. }
  cbn [drain]. rewrite (pg_pending _ _ _ _ _ Hpg), Hdrop. unfold tags at 1. cbn [length seq zip zip_with].
  destruct Hpg as [Hc Hpend Hdone Hrest].
  assert (s ∈ found) as Hin by (by eapply list_elem_of_lookup_2).
  pose proof (cg_found _ _ _ _ Hc s Hin) as Hreach.
  destruct (reaches_portable _ _ _ _ Hreach) as (n & Hn & Hp).
  change (cp_memory (mkCopy (cp_memory st) _ _)) with (cp_memory st).
  rewrite (cg_memory _ _ _ _ Hc), lookup_app_l, Hn by (by eapply lookup_lt_Some).
  set (st1 := mkCopy _ _ _).
  assert (copying root found news st1) as Hc1 by (destruct Hc; by split; [symmetry| | | |]).
  destruct (copy_fields_spec root s n d (node_fields n) [] found news st1 Hc1 Hreach Hn Hp)
    as (more & fs & Hc2 & Hi2 & Hsub2 & Hpend2); [done| |].
  { rewrite (Hrest d s) by done. f_equal. by apply blank_fields. }
  cbv zeta in *. cbn [app] in *. set (st2 := copy_fields _ _ _ _) in *.
  destruct (IH (S d) (found ++ more) (<[d:=with_fields n fs]> (news ++ map blank more)) st2) as (st' & found' & news' & H1 & H2 & H3).
  - assert (length news = length found) as Hl by apply (cg_length _ _ _ _ Hc).
    split; [done|..].
    + rewrite Hpend2. cbn [st1 pending]. rewrite drop_app_le by lia. rewrite tags_app, length_drop.
      replace (S d + (length found - S d))%nat with (length found) by lia. f_equal. unfold tags.
      assert (drop (S d) found = rest) as ->.
      { replace (S d) with (d + 1)%nat by lia. by rewrite <- drop_drop, Hdrop. }
      by rewrite Nat.add_succ_r.
    + intros i s' Hi Hs'. rewrite lookup_app_l in Hs' by lia. destruct (decide (i = d)) as [->|Hne].
      * assert (s' = s) as -> by congruence. exists n, fs. split; [done|]. split; [|done].
        apply list_lookup_insert_eq. rewrite length_app. lia.
      * destruct (Hdone i s') as (n' & fs' & Hn' & Hnews & Him); [lia|done|]. exists n', fs'. split; [done|]. split.
        -- rewrite list_lookup_insert_ne by done. by apply lookup_app_l_Some.
        -- by eapply imaged_fields_mono.
    + intros i s' Hi Hs'. rewrite list_lookup_insert_ne by lia. apply lookup_app_Some in Hs' as [Hs'|[Hge Hs']].
      * apply lookup_app_l_Some, Hrest; [lia|done].
      * rewrite lookup_app_r by lia. rewrite Hl, list_lookup_fmap, Hs'. done.
  - lia.
  - exists st', found', news'. split; [done|]. split; [done|]. by etrans.
Qed.

(** A finished copy: every container found has its image in the new memory. *)
Record finished (root root' : gval) (c : gmap nat nat) (news : list node) : Prop := {
  fn_root : imaged c root root';
  fn_reach : ∀ s t, c !! s = Some t → reaches keep m0 root s;
  fn_inj : ∀ s1 s2 t, c !! s1 = Some t → c !! s2 = Some t → s1 = s2;
  fn_image : ∀ s t n, c !! s = Some t → m0 !! s = Some n →
    ∃ fs, (length m0 <= t)%nat ∧ (m0 ++ news) !! t = Some (with_fields n fs) ∧ imaged_fields c (node_fields n) fs
}.

Lemma copy_finished v : in_bounds m0 v →
  ∃ r news c, copyPortableData omitted v m0 = Some (r, m0 ++ news) ∧ finished v r c news.
Proof.
  intros Hv. unfold copyPortableData. destruct (copy v _) as [r st] eqn:Hc.
  destruct (copy_spec v [] [] (mkCopy m0 ∅ []) v r st) as (found & Hcg & Hi & _ & Hpend); [|done|done|done|].
  { split; cbn; [by rewrite app_nil_r|done| |by constructor|by intros s ?%elem_of_nil].
    intros s t. rewrite lookup_empty. split; [done|]. by intros (i & Hi & _). }
  cbn [app] in *. destruct (drain_spec v (length m0) 0 found (map blank found) st) as (st' & found' & news & -> & Hpg & Hsub).
  { split; [done|by rewrite Hpend|intros; lia|]. intros i s _ Hs. by rewrite list_lookup_fmap, Hs. }
  { lia. }
  destruct Hpg as [Hcg' _ Hdone _]. exists r, news, (copies st'). cbn [mbind option_bind]. rewrite (cg_memory _ _ _ _ Hcg').
  split; [done|]. split.
  - by eapply imaged_mono.
  - intros s t (i & Hs & _)%(cg_copies _ _ _ _ Hcg'). apply (cg_found _ _ _ _ Hcg'). by eapply list_elem_of_lookup_2.
  - intros s1 s2 t (i & H1 & ->)%(cg_copies _ _ _ _ Hcg') (j & H2 & E)%(cg_copies _ _ _ _ Hcg').
    assert (i = j) as -> by lia. congruence.
  - intros s t n (i & Hs & ->)%(cg_copies _ _ _ _ Hcg') Hn.
    destruct (Hdone i s) as (n' & fs & Hn' & Hnews & Him); [by eapply lookup_lt_Some|done|].
    assert (n' = n) as -> by congruence. exists fs. split; [lia|]. split; [|done].
    rewrite lookup_app_r by lia. by replace (length m0 + i - length m0)%nat with i by lia.
Qed.

Lemma finished_complete root root' c news w w' s :
  finished root root' c news → imaged c w w' → reaches keep m0 w s → is_Some (c !! s).
Proof.
  intros Hf Hi Hr. revert w' Hi. induction Hr as [l n Hn Hp|l n key u s Hn Hp Hk Hkeep Hr IH]; intros w' (n' & Hn' & Hi).
  all: assert (n' = n) as -> by congruence; rewrite Hp in Hi; destruct Hi as (t & Ht & ->).
  - eauto.
  - destruct (fn_image _ _ _ _ Hf l t n Ht Hn) as (fs & _ & _ & Hfs).
    assert ((key, u) ∈ filter kept (node_fields n)) as Hin by (apply list_elem_of_filter; auto).
    apply list_elem_of_lookup in Hin as [i Hin]. destruct (Forall2_lookup_l _ _ _ _ _ Hfs Hin) as (kv' & _ & _ & Hu).
    by eapply IH.
Qed.

Lemma finished_view root root' c news w w' depth :
  finished root root' c news → imaged c w w' →
  view (λ _, true) depth (m0 ++ news) w' = view keep depth m0 w.
Proof.
  intros Hf. revert w w'. induction depth as [|depth IH]; intros w w' Hi; (destruct w as [v|l]; [cbn in Hi; by subst w'|]).
  all: destruct Hi as (n & Hn & Hi); cbn [view]; rewrite Hn; destruct (portable n) eqn:Hp.
  2,4: subst w'; cbn [view]; by rewrite lookup_app_l, Hn, Hp by (by eapply lookup_lt_Some).
  all: destruct Hi as (t & Ht & ->); destruct (fn_image _ _ _ _ Hf l t n Ht Hn) as (fs & _ & Hnew & Hfs); cbn [view]; rewrite Hnew.
  all: assert (portable (with_fields n fs) = true) as -> by (by destruct n).
  { done. }
  assert (map (λ kv, (kv.1, view (λ _, true) depth (m0 ++ news) kv.2)) (filter (λ _, true = true) fs)
          = map (λ kv, (kv.1, view keep depth m0 kv.2)) (filter kept (node_fields n))) as E.
  { clear -Hfs IH. unfold imaged_fields in Hfs.
    induction Hfs as [|[k x] [k' x'] gs fs [Hk Hx] _ IHl]; [done|]. cbn in Hk, Hx. subst k'.
    rewrite filter_cons_True by done. cbn [map fst snd]. rewrite IHl. by rewrite (IH _ _ Hx). }
  assert (node_fields (with_fields n fs) = fs) as -> by (by destruct n).
  rewrite E. by destruct n.
Qed.

Lemma finished_detached root root' c news w w' l :
  finished root root' c news → imaged c w w' → reaches (λ _, true) (m0 ++ news) w' l → (length m0 <= l)%nat.
Proof.
  intros Hf.
  assert (∀ w l n', imaged c w (GRef l) → (m0 ++ news) !! l = Some n' → portable n' = true →
    (length m0 <= l)%nat ∧ ∃ n, imaged_fields c n (node_fields n')) as Hcase.
  { clear w w' l. intros [v|l0] l n' Hi Hn' Hp'; [done|]. destruct Hi as (n & Hn & Hi). destruct (portable n) eqn:Hp.
    - destruct Hi as (t & Ht & [= ->]). destruct (fn_image _ _ _ _ Hf l0 t n Ht Hn) as (fs & Hle & Hnew & Hfs).
      split; [done|]. assert (n' = with_fields n fs) as -> by congruence. exists (node_fields n). by destruct n.
    - injection Hi as ->. rewrite lookup_app_l in Hn' by (by eapply lookup_lt_Some). congruence. }
  intros Hi Hr. revert w Hi. induction Hr as [l n' Hn' Hp'|l n' key u s Hn' Hp' Hk _ Hr IH]; intros w Hi.
  { by destruct (Hcase w l n' Hi Hn' Hp'). }
  destruct (Hcase w l n' Hi Hn' Hp') as [Hle (fs & Hfs)].
  apply list_elem_of_lookup in Hk as [i Hk]. destruct (Forall2_lookup_r _ _ _ _ _ Hfs Hk) as (kv & _ & _ & Hu).
  by eapply IH.
Qed.
End correct.

(** [copyPortableData] always ends, shared and cyclic containers or not, and leaves what it was given alone. No
    container of the copy is one of the original, a reader sees the same data in both down to any
    depth, without the omitted properties, and the containers of the copy stand one to one for the
    containers reached in the original: what is shared or cyclic there is so in the copy. *)
Theorem portable_copy_detached (omitted : jsstr → bool) (v : gval) (m : memory) :
  closed m → in_bounds m v →
  ∃ r news (image : gmap nat nat),
    copyPortableData omitted v m = Some (r, m ++ news)
    ∧ (∀ l, reaches (λ _, true) (m ++ news) r l → (length m <= l)%nat)
    ∧ (∀ depth, view (λ _, true) depth (m ++ news) r = view (λ key, negb (omitted key)) depth m v)
    ∧ imaged m image v r
    ∧ (∀ s, is_Some (image !! s) ↔ reaches (λ key, negb (omitted key)) m v s)
    ∧ (∀ s1 s2 t, image !! s1 = Some t → image !! s2 = Some t → s1 = s2)
    ∧ (∀ s t n, image !! s = Some t → m !! s = Some n →
        ∃ fs, (m ++ news) !! t = Some (with_fields n fs) ∧ imaged_fields omitted m image (node_fields n) fs).
Proof.
  intros Hm Hv. destruct (copy_finished omitted m Hm v Hv) as (r & news & c & E & Hf). exists r, news, c.
  split_and!; [done| | |by apply (fn_root _ _ _ _ _ _ Hf)| |apply (fn_inj _ _ _ _ _ _ Hf)|].
  - intros l. eapply finished_detached; [exact Hf|]. apply (fn_root _ _ _ _ _ _ Hf).
  - intros depth. eapply finished_view; [exact Hf|]. apply (fn_root _ _ _ _ _ _ Hf).
  - intros s. split; [intros [t Ht]; by eapply fn_reach|]. eapply finished_complete; [exact Hf|]. apply (fn_root _ _ _ _ _ _ Hf).
  - intros s t n Ht Hn. destruct (fn_image _ _ _ _ _ _ Hf s t n Ht Hn) as (fs & _ & H). by exists fs.
Qed.

(** * Concrete instances *)

(** A profile whose [a] and [self] share and close a cycle. *)
Definition example_memory : memory :=
  [NPlain false [(js "a", GRef 1); (js "b", GRef 1); (js "self", GRef 0); (js "secret", GRef 2); (js "date", GRef 3)];
   NArray 2 [(js "0", GPrim JNull); (js "1", GRef 0)]; NPlain true []; NOpaque].
Definition example_omits (key : jsstr) : bool := jsstr_eqb key (js "secret").

Example example_copy :
  copyPortableData example_omits (GRef 0) example_memory
  = Some (GRef 4, example_memory ++
      [NPlain false [(js "a", GRef 5); (js "b", GRef 5); (js "self", GRef 4); (js "date", GRef 3)];
       NArray 2 [(js "0", GPrim JNull); (js "1", GRef 4)]]).
Proof. vm_compute. reflexivity. Qed.

Lemma portable_copy_detached_witness :
  ∃ r news (image : gmap nat nat),
    copyPortableData example_omits (GRef 0) example_memory = Some (r, example_memory ++ news)
    ∧ (∀ l, reaches (λ _, true) (example_memory ++ news) r l → (4 <= l)%nat).
Proof.
  destruct (portable_copy_detached example_omits (GRef 0) example_memory) as (r & news & image & H1 & H2 & _).
  - repeat first [apply Forall_cons; split | apply Forall_nil]; cbn; try done; lia.
  - cbn. lia.
  - by exists r, news, image.
Defined.
