(* ===== verification/VaultRecords.v ===== *)
(** express-oidc-vault: what the routes keep of a record the store returned. The recognition of a
    browser ([fingerprint-recognition.ts]), sessions, exchange codes and revocation contexts
    ([vault-session.ts]) and authorization transactions ([authorization-transaction.ts]).

    A store may return anything in the fields of a record; a snapshot is typed. Numbers a snapshot
    has checked to be usable epochs are integers. *)

From S2P Require Import Prelude JsValue JsJson AttestTypes AttestCanonical AttestVerify JsBuffer VaultBinding DpopNonce DpopPolicy DpopChallenge DpopProof VaultCookies VaultRoute PortableCopy.

(** * fingerprint-recognition.ts *)

Definition FINGERPRINT_RECOGNITION_METADATA_KEY : jsstr := js "oidcVaultFingerprintRecognition".

Definition COLLIDING_HEADERS : list jsstr :=
  map js ["authorization"; "proxy-authorization"; "www-authenticate"; "proxy-authenticate"; "authentication-info";
          "proxy-authentication-info"; "dpop"; "dpop-nonce"; "cookie"; "set-cookie"; "origin"; "referer"; "host";
          "forwarded"; "accept"; "accept-charset"; "accept-encoding"; "accept-language"; "connection"; "keep-alive";
          "te"; "trailer"; "transfer-encoding"; "upgrade"]%string.
Definition COLLIDING_PREFIXES : list jsstr :=
  map js ["content-"; "x-forwarded-"; "access-control-"; "sec-fetch-"]%string.

(** The header name of the resolved options. *)
Definition resolveFingerprintRecognitionOptions (value : jsval) : ores (option jsstr) :=
  if is_undef value then Ok None
  else
    guard (isRecord value) (PlainError (js "fingerprintRecognition must be a plain options object.")) ;;;
    let headerName := get_field value (js "headerName") in
    let name := if is_undef headerName then JStr (js "X-Device-Fingerprint") else headerName in
    match name with
    | JStr n =>
        guard (isValidCookieName name)
          (PlainError (js "fingerprintRecognition.headerName must be a valid HTTP field name.")) ;;;
        let normalized := to_lower n in
        guard (negb (bool_decide (normalized ∈ COLLIDING_HEADERS)
                     || existsb (λ prefix, starts_with prefix normalized) COLLIDING_PREFIXES))
          (PlainError (js "fingerprintRecognition.headerName must not collide with authentication, cookie, origin, content, or transport headers.")) ;;;
        Ok (Some n)
    | _ => Err (PlainError (js "fingerprintRecognition.headerName must be a valid HTTP field name."))
    end.

Definition http_error (status : Z) (code message : string) : oidc_error :=
  OidcVaultHttpError status (js code) (js message) (js message).

Definition invalidFingerprint : oidc_error :=
  http_error 400 "OIDC_VAULT_INVALID_FINGERPRINT" "Fingerprint signal is invalid.".

(** A recognition is its hash; the [version] is always 1. *)
Definition captureFingerprintRecognition (sha256 : list Z → list Z) (rawHeaders : list jsstr) (policy : option jsstr)
    : ores (option jsstr) :=
  match policy with
  | None => Ok None
  | Some headerName =>
      let header := readDpopRawHeader rawHeaders headerName in
      match rh_count header, rh_value header with
      | O, _ => Ok None
      | 1%nat, Some value =>
          guard (negb (length value =? 0)%nat && (length value <=? 256)%nat) invalidFingerprint ;;;
          guard (all_units (in_range 32 126) value) invalidFingerprint ;;;
          Ok (Some (base64urlEncode (sha256 (buffer_of_ascii value))))
      | _, _ => Err invalidFingerprint
      end
  end.

Definition invalidRecognition : oidc_error := TypeError (js "Stored fingerprint recognition metadata is invalid.").
Definition null_object : oidc_error := TypeError (js "Cannot convert undefined or null to object").

Definition snapshotFingerprintRecognition (metadata : jsval) : ores (option jsstr) :=
  match metadata with
  | JUndef => Ok None
  | JNull => Err null_object
  | _ =>
      if negb (has_own metadata FINGERPRINT_RECOGNITION_METADATA_KEY) then Ok None
      else
        let value := get_field metadata FINGERPRINT_RECOGNITION_METADATA_KEY in
        if is_undef value then Ok None
        else
          guard (isRecord value) invalidRecognition ;;;
          guard ((length (object_keys value) =? 2)%nat && has_own value (js "version") && has_own value (js "hash")
                 && js_strict_eq (get_field value (js "version")) (JNum (num_of_Z 1))
                 && isCanonicalDpopJkt (get_field value (js "hash"))) invalidRecognition ;;;
          Ok (as_string (get_field value (js "hash")))
  end.

Definition fingerprintRecognitionMatches (actual original : option jsstr) : bool := bool_decide (actual = original).

Definition assertFingerprintRecognition (policy original supplied : option jsstr) : ores unit :=
  guard (negb (bool_decide (is_Some policy) && bool_decide (is_Some original)
               && negb (fingerprintRecognitionMatches supplied original)))
    (http_error 403 "OIDC_VAULT_FINGERPRINT_REAUTH_REQUIRED" "Browser recognition changed; sign in again.").

(** The own enumerable properties of an object, in the order of [Object.keys]. *)
Definition own_fields (v : jsval) : list (jsstr * jsval) :=
  match v with
  | JObj _ fs => fs
  | JArr l => imap (λ i x, (dec_of_Z (Z.of_nat i), x)) l
  | _ => []
  end.

Definition recognition_value (hash : jsstr) : jsval :=
  JObj true [(js "version", JNum (num_of_Z 1)); (js "hash", JStr hash)].

(** [metadata] is an object or [undefined]. *)
Definition withFingerprintRecognitionMetadata (metadata : jsval) (original : option jsstr) : jsval :=
  match original with
  | None =>
      if is_undef metadata then JUndef
      else if negb (has_own metadata FINGERPRINT_RECOGNITION_METADATA_KEY) then metadata
      else JObj true (List.filter (λ f, negb (jsstr_eqb f.1 FINGERPRINT_RECOGNITION_METADATA_KEY)) (own_fields metadata))
  | Some hash =>
      JObj true (set_field
        (List.filter (λ f, negb (jsstr_eqb f.1 FINGERPRINT_RECOGNITION_METADATA_KEY)) (own_fields metadata))
        FINGERPRINT_RECOGNITION_METADATA_KEY (recognition_value hash))
  end.

(** * vault-session.ts *)

Definition invalidVaultSession : oidc_error :=
  http_error 401 "OIDC_VAULT_INVALID_SESSION" "Session is missing or expired.".
Definition invalidExchangeCode : oidc_error :=
  http_error 400 "OIDC_VAULT_INVALID_EXCHANGE_CODE" "Exchange code is invalid or expired.".

(** [copyPortableData] on data without sharing, whose copy is a tree again ([copy_denotes] below). *)
Fixpoint portable_value (omitted : jsstr → bool) (v : jsval) : jsval :=
  match v with
  | JArr l => JArr (map (portable_value omitted) l)
  | JObj true fs =>
      JObj true ((fix go fs := match fs with
                  | [] => []
                  | (k, x) :: fs => if omitted k then go fs else (k, portable_value omitted x) :: go fs
                  end) fs)
  | _ => v
  end.
Definition omits_recognition (omitRecognition : bool) (key : jsstr) : bool :=
  omitRecognition && jsstr_eqb key FINGERPRINT_RECOGNITION_METADATA_KEY.
Definition copyVaultUserProfile (user : jsval) : jsval := portable_value (omits_recognition true) user.

(** Issuer and client identifier of a provider. *)
Notation provider_id := (option jsstr * option jsstr)%type.

Definition snapshotProvider (value : jsval) : ores (option provider_id) :=
  if is_undef value then Ok None
  else
    guard (isRecord value) invalidVaultSession ;;;
    let issuer := get_field value (js "issuer") in
    let clientId := get_field value (js "clientId") in
    guard (optional_string issuer && optional_string clientId) invalidVaultSession ;;;
    Ok (Some (as_string issuer, as_string clientId)).

(** Each identifier that is known is the configured one. *)
Definition identity_agrees (provider : option provider_id) (issuer clientId : option jsstr) : bool :=
  let agrees (known configured : option jsstr) :=
    match known with Some k => bool_decide (configured = Some k) | None => true end in
  agrees (provider ≫= fst) issuer && agrees (provider ≫= snd) clientId.

Definition assertVaultSessionIdentity (provider : option provider_id) (issuer clientId : option jsstr) : ores unit :=
  guard (identity_agrees provider issuer clientId) invalidVaultSession.

(** The frozen session [snapshotVaultSession] returns; a binding is its thumbprint. *)
Record SessionSnapshot := mkSessionSnapshot {
  ss_sessionId : jsstr;
  ss_logicalSessionId : option jsstr;
  ss_subject : jsstr;
  ss_providerSessionId : option jsstr;
  ss_provider : option provider_id;
  ss_deviceBinding : option jsstr;
  ss_refreshToken : jsstr;
  ss_idToken : jsstr;
  ss_accessToken : option jsstr;
  ss_scope : option jsstr;
  ss_expiresAt : option Z;
  ss_createdAt : Z;
  ss_updatedAt : Z;
  ss_user : jsval;
  ss_metadata : jsval
}.

(** [isUsableEpochMs(value)] *)
Definition usable (value : jsval) : option Z := match value with JNum n => usable_epoch n | _ => None end.

(** A field of [OidcVaultSession] the memory store does not look at. *)
Definition s_field (record : Session) (name : string) : jsval := get_field (JObj true (s_rest record)) (js name).

Definition or_invalid {A} (o : option A) (error : oidc_error) : ores A :=
  match o with Some a => Ok a | None => Err error end.

(** [binding !== undefined && Object.keys(rawBinding).length !== 2] *)
Definition exact_binding (rawBinding : jsval) : ores (option jsstr) :=
  let* binding := snapshotDpopBinding rawBinding in
  guard (bool_decide (binding = None) || (length (object_keys rawBinding) =? 2)%nat) invalidVaultSession ;;;
  Ok binding.

Definition snapshotVaultSession (record : Session) (expectedSessionId : jsstr) (now : num) : ores SessionSnapshot :=
  let bad := invalidVaultSession in
  guard (jsstr_eqb (s_sessionId record) expectedSessionId && negb (length (s_sessionId record) =? 0)%nat) bad ;;;
  let* subject := or_invalid (as_string (s_subject record)) bad in
  guard (negb (length subject =? 0)%nat) bad ;;;
  guard (match s_logicalSessionId record with Some l => negb (length l =? 0)%nat | None => true end) bad ;;;
  guard (optional_string (s_providerSessionId record)) bad ;;;
  let* refreshToken := or_invalid (as_string (s_refreshToken record)) bad in
  let* idToken := or_invalid (as_string (s_idToken record)) bad in
  guard (optional_string (s_field record "accessToken") && optional_string (s_field record "scope")) bad ;;;
  let* createdAt := or_invalid (usable (s_createdAt record)) bad in
  let* updatedAt := or_invalid (usable (s_updatedAt record)) bad in
  let* now := or_invalid (usable_epoch now) bad in
  let expiresAt := usable (s_expiresAt record) in
  guard (is_undef (s_expiresAt record) || match expiresAt with Some e => now <? e | None => false end) bad ;;;
  let* provider := snapshotProvider (s_provider record) in
  let* binding := exact_binding (s_deviceBinding record) in
  Ok (mkSessionSnapshot (s_sessionId record) (s_logicalSessionId record) subject (as_string (s_providerSessionId record))
        provider binding refreshToken idToken (as_string (s_field record "accessToken")) (as_string (s_field record "scope"))
        expiresAt createdAt updatedAt
        (portable_value (omits_recognition false) (s_field record "user"))
        (portable_value (omits_recognition false) (s_field record "metadata"))).

(** An object literal with optional string members; an [undefined] member is kept when [spread] is false. *)
Definition identity_fields (spread : bool) (p : provider_id) : list (jsstr * jsval) :=
  let member (name : string) (o : option jsstr) :=
    match o with
    | Some v => [(js name, JStr v)]
    | None => if spread then [] else [(js name, JUndef)]
    end in
  member "issuer"%string p.1 ++ member "clientId"%string p.2.

Definition string_value (o : option jsstr) : jsval := match o with Some v => JStr v | None => JUndef end.

(** [copyVaultSession(snapshot)], as a store receives it. *)
Definition session_of (s : SessionSnapshot) : Session :=
  mkSession (ss_sessionId s) (ss_logicalSessionId s) (JStr (ss_subject s)) (string_value (ss_providerSessionId s))
    (match ss_provider s with Some p => JObj true (identity_fields true p) | None => JUndef end)
    (binding_value (ss_deviceBinding s)) (JStr (ss_refreshToken s)) (JStr (ss_idToken s))
    (match ss_expiresAt s with Some e => JNum (num_of_Z e) | None => JUndef end)
    (JNum (num_of_Z (ss_createdAt s))) (JNum (num_of_Z (ss_updatedAt s)))
    ([(js "accessToken", string_value (ss_accessToken s)); (js "scope", string_value (ss_scope s))]
     ++ (if is_undef (ss_user s) then [] else [(js "user", ss_user s)])
     ++ (if is_undef (ss_metadata s) then [] else [(js "metadata", ss_metadata s)])).

Definition assertVaultSessionMatches (actual original : SessionSnapshot) : ores unit :=
  guard (jsstr_eqb (ss_sessionId actual) (ss_sessionId original)
         && bool_decide (ss_logicalSessionId actual = ss_logicalSessionId original)
         && jsstr_eqb (ss_subject actual) (ss_subject original)
         && bool_decide (ss_providerSessionId actual = ss_providerSessionId original)
         && bool_decide (ss_provider actual ≫= fst = ss_provider original ≫= fst)
         && bool_decide (ss_provider actual ≫= snd = ss_provider original ≫= snd)
         && bool_decide (ss_deviceBinding actual = ss_deviceBinding original)
         && bool_decide (ss_expiresAt actual = ss_expiresAt original)
         && (ss_createdAt actual =? ss_createdAt original)
         && (ss_updatedAt actual =? ss_updatedAt original)
         && jsstr_eqb (ss_refreshToken actual) (ss_refreshToken original)
         && jsstr_eqb (ss_idToken actual) (ss_idToken original)
         && bool_decide (ss_accessToken actual = ss_accessToken original)
         && bool_decide (ss_scope actual = ss_scope original)) invalidVaultSession.

Record CodeSnapshot := mkCodeSnapshot {
  cs_code : jsstr;
  cs_sessionId : jsstr;
  cs_returnTo : option jsstr;
  cs_createdAt : Z;
  cs_expiresAt : Z;
  cs_match : RecordBindingMatch
}.

(** A field of a one-time record the memory store does not look at. *)
Definition o_field (record : OneTimeRecord) (name : string) : jsval := get_field (JObj true (ot_rest record)) (js name).

(** The lifetime of a one-time record: created, expires after now. *)
Definition record_lifetime (record : OneTimeRecord) (now : num) (bad : oidc_error) : ores (Z * Z) :=
  let* createdAt := or_invalid (usable (ot_createdAt record)) bad in
  let* expiresAt := or_invalid (usable (ot_expiresAt record)) bad in
  let* now := or_invalid (usable_epoch now) bad in
  guard (now <? expiresAt) bad ;;;
  Ok (createdAt, expiresAt).

Definition snapshotVaultExchangeCode (record : OneTimeRecord) (expectedCode : jsstr) (now : num) : ores CodeSnapshot :=
  let bad := invalidExchangeCode in
  guard (jsstr_eqb (ot_id record) expectedCode) bad ;;;
  let* sessionId := or_invalid (as_string (o_field record "sessionId")) bad in
  guard (negb (length sessionId =? 0)%nat) bad ;;;
  guard (optional_string (o_field record "returnTo")) bad ;;;
  let* times := record_lifetime record now bad in
  let* m := snapshotRecordBindingMatch (ot_deviceBinding record) (ot_browserBindingHash record) in
  Ok (mkCodeSnapshot (ot_id record) sessionId (as_string (o_field record "returnTo")) times.1 times.2 m).

Definition assertVaultExchangeCodeMatches (actual original : CodeSnapshot) : ores unit :=
  guard (jsstr_eqb (cs_code actual) (cs_code original) && jsstr_eqb (cs_sessionId actual) (cs_sessionId original)
         && bool_decide (cs_returnTo actual = cs_returnTo original) && (cs_createdAt actual =? cs_createdAt original)
         && (cs_expiresAt actual =? cs_expiresAt original) && recordBindingMatches (cs_match actual) (cs_match original))
    invalidExchangeCode.

Definition assertVaultExchangeSessionBinding (code : CodeSnapshot) (session : SessionSnapshot) : ores unit :=
  guard (jsstr_eqb (cs_sessionId code) (ss_sessionId session)
         && bool_decide (bm_deviceBinding (cs_match code) = ss_deviceBinding session)) invalidVaultSession.

(** [OidcVaultSessionRevocationContext] as a store returns it, and its snapshot. *)
Record ContextInput := mkContextInput { ci_logicalSessionId : jsval; ci_provider : jsval; ci_deviceBinding : jsval }.
Record Authority := mkAuthority {
  au_logicalSessionId : jsstr;
  au_provider : option provider_id;
  au_deviceBinding : option jsstr
}.

Definition snapshotVaultRevocationContext (context : ContextInput) : ores Authority :=
  let* logicalSessionId := or_invalid (as_string (ci_logicalSessionId context)) invalidVaultSession in
  guard (negb (length logicalSessionId =? 0)%nat) invalidVaultSession ;;;
  let* provider := snapshotProvider (ci_provider context) in
  let* binding := exact_binding (ci_deviceBinding context) in
  Ok (mkAuthority logicalSessionId provider binding).

Definition assertVaultRevocationContextMatches (actual original : Authority) : ores unit :=
  guard (jsstr_eqb (au_logicalSessionId actual) (au_logicalSessionId original)
         && bool_decide (au_provider actual ≫= fst = au_provider original ≫= fst)
         && bool_decide (au_provider actual ≫= snd = au_provider original ≫= snd)
         && bool_decide (au_deviceBinding actual = au_deviceBinding original)) invalidVaultSession.

(** * authorization-transaction.ts *)

Definition PROVIDER_METADATA_KEY : jsstr := js "oidcVaultTransactionProvider".

Definition invalidAuthorizationState : oidc_error :=
  http_error 400 "OIDC_VAULT_INVALID_STATE" "OIDC state is invalid or expired.".

Definition createTransactionProviderMetadata (issuer clientId : option jsstr) : jsval :=
  JObj true [(PROVIDER_METADATA_KEY, JObj true (identity_fields false (issuer, clientId)))].

Record TransactionSnapshot := mkTransactionSnapshot {
  ts_state : jsstr;
  ts_nonce : jsstr;
  ts_pkceVerifier : jsstr;
  ts_codeChallenge : jsstr;
  ts_returnTo : option jsstr;
  ts_createdAt : Z;
  ts_expiresAt : Z;
  ts_metadata : jsval;
  ts_match : RecordBindingMatch;
  ts_provider : option provider_id;
  ts_fingerprintRecognition : option jsstr
}.

(** The provider a transaction remembers in its metadata. *)
Definition transaction_provider (metadata : jsval) : ores (option provider_id) :=
  let value := get_field metadata PROVIDER_METADATA_KEY in
  if is_undef value then Ok None
  else
    guard (is_non_array_object value) invalidAuthorizationState ;;;
    let issuer := get_field value (js "issuer") in
    let clientId := get_field value (js "clientId") in
    guard (optional_string issuer && optional_string clientId) invalidAuthorizationState ;;;
    Ok (Some (as_string issuer, as_string clientId)).

Definition snapshotAuthorizationTransaction (record : OneTimeRecord) (state : jsstr) (now : num) : ores TransactionSnapshot :=
  let bad := invalidAuthorizationState in
  guard (jsstr_eqb (ot_id record) state) bad ;;;
  let* nonce := or_invalid (as_string (o_field record "nonce")) bad in
  let* pkceVerifier := or_invalid (as_string (o_field record "pkceVerifier")) bad in
  let* codeChallenge := or_invalid (as_string (o_field record "codeChallenge")) bad in
  guard (optional_string (o_field record "returnTo")) bad ;;;
  let* times := record_lifetime record now bad in
  let* m := snapshotRecordBindingMatch (ot_deviceBinding record) (ot_browserBindingHash record) in
  let metadata := o_field record "metadata" in
  let* recognition := res_catch (snapshotFingerprintRecognition metadata) (λ _, Err bad) in
  guard (bool_decide (recognition = None) || bool_decide (is_Some (bm_browserBindingHash m))) bad ;;;
  let* provider := transaction_provider metadata in
  let kept := own_fields (withFingerprintRecognitionMetadata metadata recognition) in
  let kept := match provider with Some p => set_field kept PROVIDER_METADATA_KEY (JObj true (identity_fields true p)) | None => kept end in
  let kept := match recognition with
              | Some h => set_field kept FINGERPRINT_RECOGNITION_METADATA_KEY (recognition_value h)
              | None => kept
              end in
  Ok (mkTransactionSnapshot (ot_id record) nonce pkceVerifier codeChallenge (as_string (o_field record "returnTo"))
        times.1 times.2 (if is_undef metadata then JUndef else JObj true kept) m provider recognition).

Definition assertAuthorizationTransactionIdentity (transaction : TransactionSnapshot) (issuer clientId : option jsstr) : ores unit :=
  guard (identity_agrees (ts_provider transaction) issuer clientId) invalidAuthorizationState.

Definition assertAuthorizationTransactionMatches (actual original : TransactionSnapshot) : ores unit :=
  guard (jsstr_eqb (ts_state actual) (ts_state original) && jsstr_eqb (ts_nonce actual) (ts_nonce original)
         && jsstr_eqb (ts_pkceVerifier actual) (ts_pkceVerifier original)
         && jsstr_eqb (ts_codeChallenge actual) (ts_codeChallenge original)
         && bool_decide (ts_returnTo actual = ts_returnTo original)
         && (ts_createdAt actual =? ts_createdAt original) && (ts_expiresAt actual =? ts_expiresAt original)
         && bool_decide (ts_provider actual ≫= fst = ts_provider original ≫= fst)
         && bool_decide (ts_provider actual ≫= snd = ts_provider original ≫= snd)
         && fingerprintRecognitionMatches (ts_fingerprintRecognition actual) (ts_fingerprintRecognition original)
         && recordBindingMatches (ts_match actual) (ts_match original)) invalidAuthorizationState.

(** * Copies of trees *)

Definition primitive (v : jsval) : bool := match v with JUndef | JNull | JBool _ | JNum _ | JStr _ => true | _ => false end.
Definition opaque (v : jsval) : bool := match v with JObj false _ | JBytes _ | JFun _ => true | _ => false end.

(** A value in memory that unfolds to a tree. *)
Inductive denotes (m : memory) : gval → jsval → Prop :=
  | denote_primitive v : primitive v = true → denotes m (GPrim v) v
  | denote_opaque l v : m !! l = Some NOpaque → opaque v = true → denotes m (GRef l) v
  | denote_array l fs vs :
      m !! l = Some (NArray (length vs) fs) → fs.*1 = map (λ i, dec_of_Z (Z.of_nat i)) (seq 0 (length vs)) →
      Forall2 (denotes m) fs.*2 vs → denotes m (GRef l) (JArr vs)
  | denote_plain l p fs gs :
      m !! l = Some (NPlain p fs) → fs.*1 = gs.*1 → Forall2 (denotes m) fs.*2 gs.*2 → denotes m (GRef l) (JObj true gs).

Lemma portable_fields omitted fs :
  portable_value omitted (JObj true fs)
  = JObj true (map (λ kv, (kv.1, portable_value omitted kv.2)) (filter (λ kv, negb (omitted kv.1) = true) fs)).
Proof.
  cbn [portable_value]. f_equal. induction fs as [|[k x] fs IH]; [done|]. destruct (omitted k) eqn:E.
  - rewrite filter_cons_False by (cbn; by rewrite E). exact IH.
  - rewrite filter_cons_True by (cbn; by rewrite E). cbn [map fst snd]. by rewrite <- IH.
Qed.

Lemma denotes_image omitted m root root' c news w : closed m →
  (∀ i, omitted (dec_of_Z (Z.of_nat i)) = false) → finished omitted m root root' c news →
  ∀ v r, denotes m v w → imaged m c v r → denotes (m ++ news) r (portable_value omitted w).
Proof.
  intros Hm Hidx Hf.
  assert (∀ v w r, denotes m v w → (primitive w || opaque w) = true → imaged m c v r → r = v ∧ denotes (m ++ news) r w) as Hsame.
  { intros v u r Hd Hu Hi. destruct Hd as [u Hp|l u Hl Hp|l fs vs Hl|l p fs gs Hl]; try done.
    - cbn in Hi. subst r. split; [done|]. by constructor.
    - destruct Hi as (n & Hn & Hi). assert (n = NOpaque) as -> by congruence. cbn in Hi. subst r. split; [done|].
      constructor; [|done]. by apply lookup_app_l_Some. }
  induction w as [| | | | |ws IH|p fs IH| |] using jsval_ind'; intros v r Hd Hi; try (by destruct (Hsame _ _ _ Hd eq_refl Hi)).
  - inversion Hd as [| |l gs ? Hl Hk Hvs|]; [done..|]; subst; clear Hd. destruct Hi as (n & Hn & Hi).
    rewrite Hl in Hn. injection Hn as <-. destruct Hi as (t & Ht & ->).
    destruct (fn_image _ _ _ _ _ _ Hf _ _ _ Ht Hl) as (fs & _ & Hnew & Hfs). cbn [portable_value].
    assert (filter (λ kv, negb (omitted kv.1) = true) gs = gs) as Hall.
    { assert (Forall (λ k, omitted k = false) gs.*1) as Ho by (rewrite Hk; apply Forall_fmap, Forall_forall; intros i _; apply Hidx).
      clear -Ho. induction gs as [|g gs IHg]; [done|]. inversion Ho as [|? ? H1 H2]. subst.
      rewrite filter_cons_True by (by rewrite H1). by rewrite IHg. }
    unfold imaged_fields in Hfs. cbn [node_fields] in Hfs. rewrite Hall in Hfs.
    assert (fs.*1 = gs.*1 ∧ Forall2 (denotes (m ++ news)) fs.*2 (map (portable_value omitted) ws)) as [Hk' Hv'].
    { clear Hk Hl Hnew Hall Ht. revert gs fs Hvs Hfs. induction IH as [|x ws Hx _ IHl]; intros [|[k g] gs] fs Hvs Hfs; inversion Hvs; subst;
        inversion Hfs as [|? [k' g'] ? fs' [E Him] Hrest]; subst; [by split|]. cbn in E, Him. subst k'.
      destruct (IHl gs fs') as [Ek Hr]; [done..|]. split; [cbn; f_equal; exact Ek|]. cbn. constructor; [by eapply Hx|done]. }
    econstructor; [rewrite length_map; exact Hnew|by rewrite Hk', Hk, length_map|done].
  - destruct p; [|by destruct (Hsame _ _ _ Hd eq_refl Hi)].
    inversion Hd as [| | |l p gs ? Hl Hk Hvs]; [done..|]; subst; clear Hd. destruct Hi as (n & Hn & Hi).
    rewrite Hl in Hn. injection Hn as <-. destruct Hi as (t & Ht & ->).
    destruct (fn_image _ _ _ _ _ _ Hf _ _ _ Ht Hl) as (hs & _ & Hnew & Hfs). rewrite portable_fields.
    unfold imaged_fields in Hfs. cbn [node_fields] in Hfs.
    assert (hs.*1 = (map (λ kv, (kv.1, portable_value omitted kv.2)) (filter (λ kv, negb (omitted kv.1) = true) fs)).*1
      ∧ Forall2 (denotes (m ++ news)) hs.*2 (map (λ kv, (kv.1, portable_value omitted kv.2)) (filter (λ kv, negb (omitted kv.1) = true) fs)).*2)
      as [Hk' Hv'].
    { clear Hl Hnew Ht. revert gs hs Hk Hvs Hfs. induction IH as [|[k x] fs Hx _ IHl]; intros [|[k0 g] gs] hs Hk Hvs Hfs; try done.
      { by inversion Hfs. }
      cbn in Hk. injection Hk as -> Hk. inversion Hvs; subst. destruct (omitted k) eqn:E.
      - rewrite filter_cons_False in Hfs by (cbn; by rewrite E). rewrite filter_cons_False by (cbn; by rewrite E). by apply (IHl gs).
      - rewrite filter_cons_True in Hfs by (cbn; by rewrite E). rewrite filter_cons_True by (cbn; by rewrite E).
        inversion Hfs as [|? [k' g'] ? hs' [E' Him] Hrest]; subst. cbn in E', Him. subst k'.
        destruct (IHl gs hs') as [Ek Hr]; [done..|]. split; [cbn; f_equal; exact Ek|]. cbn. constructor; [by eapply Hx|done]. }
    by econstructor.
Qed.

(** On data that unfolds to a tree, the copy over the memory is the copy the snapshots below use. *)
Lemma copy_denotes omitted m v w : closed m → in_bounds m v →
  (∀ i, omitted (dec_of_Z (Z.of_nat i)) = false) → denotes m v w →
  ∃ r news, copyPortableData omitted v m = Some (r, m ++ news) ∧ denotes (m ++ news) r (portable_value omitted w).
Proof.
  intros Hm Hv Hidx Hd. destruct (copy_finished omitted m Hm v Hv) as (r & news & c & E & Hf). exists r, news.
  split; [done|]. eapply denotes_image; try done. apply (fn_root _ _ _ _ _ _ Hf).
Qed.

(** * Fields *)

Lemma lookup_filter_field {A} (p : jsstr → bool) (fs : list (jsstr * A)) k :
  field_lookup (List.filter (λ f, p f.1) fs) k = if p k then field_lookup fs k else None.
Proof.
  induction fs as [|[k' v] fs IH]; cbn; [by destruct (p k)|]. destruct (p k') eqn:E; cbn; rewrite IH;
    (destruct (jsstr_eqb k k') eqn:Ek; [apply jsstr_eqb_true in Ek as ->; by rewrite E|done]).
Qed.

Lemma lookup_set_field {A} (fs : list (jsstr * A)) k v k' :
  field_lookup (set_field fs k v) k' = if jsstr_eqb k' k then Some v else field_lookup fs k'.
Proof.
  unfold set_field. destruct (field_lookup fs k) as [w|] eqn:Ek.
  - induction fs as [|[j x] fs IH]; [done|]. cbn in Ek |- *. destruct (jsstr_eqb k j) eqn:E.
    + apply jsstr_eqb_true in E as ->. clear IH Ek. rewrite jsstr_eqb_refl. cbn.
      destruct (jsstr_eqb k' j) eqn:E'; [done|]. induction fs as [|[i y] fs IH]; [done|]. cbn.
      destruct (jsstr_eqb i j) eqn:Ei; cbn; [apply jsstr_eqb_true in Ei as ->; by rewrite E'|by rewrite IH].
    + replace (jsstr_eqb j k) with false by (symmetry; apply jsstr_eqb_false; apply jsstr_eqb_false in E; congruence).
      cbn. rewrite (IH Ek). destruct (jsstr_eqb k' j) eqn:E'; [|done]. apply jsstr_eqb_true in E' as ->.
      by replace (jsstr_eqb j k) with false by (symmetry; apply jsstr_eqb_false; apply jsstr_eqb_false in E; congruence).
  - induction fs as [|[j x] fs IH]; [done|]. cbn in Ek |- *. destruct (jsstr_eqb k j) eqn:E; [done|].
    assert (field_lookup ((j, x) :: insert_field fs k v) k'
            = if jsstr_eqb k' k then Some v else if jsstr_eqb k' j then Some x else field_lookup fs k') as H.
    { cbn. rewrite (IH Ek). destruct (jsstr_eqb k' j) eqn:E'; [|done]. apply jsstr_eqb_true in E' as ->.
      by replace (jsstr_eqb j k) with false by (symmetry; apply jsstr_eqb_false; apply jsstr_eqb_false in E; congruence). }
    destruct (array_index k) as [i|], (array_index j) as [i'|]; [destruct (i <? i'); [done|exact H]|done|exact H|exact H].
Qed.

Lemma own_lookup fs k : has_own (JObj true fs) k = bool_decide (is_Some (field_lookup (A := jsval) fs k)).
Proof.
  unfold has_own. apply bool_decide_ext. cbn [object_keys]. split.
  - induction fs as [|[j x] fs IH]; [by intros ?%elem_of_nil|]. cbn. intros [->|H]%elem_of_cons; [rewrite jsstr_eqb_refl; eauto|].
    destruct (jsstr_eqb k j); eauto.
  - intros [v H]. by eapply field_own.
Qed.

(** Whatever a hook or a store put into the metadata, the recognition they are restored with is the one
    that is read back, and the other metadata stay as they are. *)
Theorem recognition_restored (metadata : jsval) (original : option jsstr) :
  is_undef metadata || isRecord metadata = true →
  (∀ h, original = Some h → isCanonicalDpopJkt (JStr h) = true) →
  let restored := withFingerprintRecognitionMetadata metadata original in
  snapshotFingerprintRecognition restored = Ok original
  ∧ (restored = JUndef ↔ metadata = JUndef ∧ original = None)
  ∧ ∀ key, key ≠ FINGERPRINT_RECOGNITION_METADATA_KEY → get_field restored key = get_field metadata key.
Proof.
  intros Hm Ho restored. assert (∀ key, key ≠ FINGERPRINT_RECOGNITION_METADATA_KEY →
    negb (jsstr_eqb key FINGERPRINT_RECOGNITION_METADATA_KEY) = true) as Hne by (intros key Hk; by rewrite (proj2 (jsstr_eqb_false _ _))).
  assert (∃ fs, own_fields metadata = fs ∧ ∀ key, get_field metadata key = default JUndef (field_lookup fs key)) as (fs & Hfs & Hget).
  { destruct metadata as [| | | | | |[] fs| |]; try done; [by exists []|by exists fs]. }
  destruct original as [h|]; unfold restored; cbn [withFingerprintRecognitionMetadata]; rewrite ?Hfs.
  - cbn [snapshotFingerprintRecognition]. rewrite own_lookup. cbn [get_field]. rewrite !lookup_set_field, jsstr_eqb_refl. cbn [default negb bool_decide].
    rewrite bool_decide_true by eauto. split; [|split].
    + pose proof (Ho h eq_refl) as Hc. unfold recognition_value.
      change (is_undef (JObj _ _)) with false. cbn [negb isRecord guard res_bind].
      change (get_field _ (js "hash")) with (JStr h). rewrite Hc. vm_compute. reflexivity.
    + split; [done|]. by intros [_ ?].
    + intros key Hk. rewrite lookup_set_field, (proj2 (jsstr_eqb_false _ _)), (lookup_filter_field (λ k, negb (jsstr_eqb k FINGERPRINT_RECOGNITION_METADATA_KEY))), Hne, Hget by done. done.
  - destruct metadata as [| | | | | |[] gs| |]; try done. cbn [is_undef]. cbn in Hfs. subst fs. rewrite own_lookup.
    destruct (field_lookup gs FINGERPRINT_RECOGNITION_METADATA_KEY) as [w|] eqn:E; cbn [negb bool_decide].
    + rewrite bool_decide_true by eauto. cbn [negb snapshotFingerprintRecognition own_fields]. rewrite own_lookup.
      rewrite (lookup_filter_field (λ k, negb (jsstr_eqb k FINGERPRINT_RECOGNITION_METADATA_KEY))), jsstr_eqb_refl. cbn [negb].
      split; [done|]. split; [split; [done|by intros [? _]]|]. intros key Hk. cbn [get_field].
      by rewrite (lookup_filter_field (λ k, negb (jsstr_eqb k FINGERPRINT_RECOGNITION_METADATA_KEY))), Hne.
    + rewrite bool_decide_false by (by intros [? ?]). cbn [negb snapshotFingerprintRecognition]. rewrite own_lookup, E.
      split; [done|]. split; [split; [done|by intros [? _]]|done].
Qed.

(** * Snapshots of sessions *)

Lemma portable_id v : portable_value (λ _, false) v = v.
Proof.
  induction v as [| | | | |l IH|p fs IH| |] using jsval_ind'; try done.
  - cbn [portable_value]. f_equal. induction IH as [|x l Hx _ IHl]; [done|]. cbn. by rewrite Hx, IHl.
  - destruct p; [|done]. rewrite portable_fields. f_equal. induction IH as [|[k x] fs Hx _ IHl]; [done|].
    rewrite filter_cons_True by done. cbn [map fst snd] in *. rewrite Hx. f_equal. exact IHl.
Qed.

Lemma copies_session v : portable_value (omits_recognition false) v = v.
Proof. apply portable_id. Qed.

Lemma as_string_value o : as_string (string_value o) = o ∧ optional_string (string_value o) = true.
Proof. by destruct o. Qed.

Lemma usable_Z z : is_Some (usable_epoch (num_of_Z z)) → usable_epoch (num_of_Z z) = Some z.
Proof.
  unfold usable_epoch. destruct (safe_integer (num_of_Z z)) as [z'|] eqn:E; [|by intros []].
  cbn [mbind option_bind]. unfold safe_integer, num_of_Z in E. rewrite Q_to_Z_inject in E. cbn in E.
  destruct (Z.abs z <=? MAX_SAFE_INTEGER); [|done]. injection E as ->. destruct (Z.abs z' <=? MAX_EPOCH_MS); [done|by intros []].
Qed.

Lemma usable_epoch_Z n z : usable_epoch n = Some z → usable_epoch (num_of_Z z) = Some z.
Proof.
  intros H. apply usable_Z. unfold usable_epoch in *. destruct (safe_integer n) as [w|] eqn:E; [|done].
  cbn [mbind option_bind] in H. destruct (Z.abs w <=? MAX_EPOCH_MS) eqn:Ew; [|done]. injection H as ->.
  assert (Z.abs z <=? MAX_SAFE_INTEGER = true) as Hs.
  { apply Z.leb_le in Ew. apply Z.leb_le. unfold MAX_EPOCH_MS, MAX_SAFE_INTEGER in *. lia. }
  unfold safe_integer, num_of_Z. rewrite Q_to_Z_inject. cbn [mbind option_bind]. rewrite Hs. cbn [mbind option_bind]. rewrite Ew. eauto.
Qed.

Lemma usable_value v z : usable v = Some z → usable (JNum (num_of_Z z)) = Some z.
Proof. destruct v; try done. apply usable_epoch_Z. Qed.

Lemma exact_binding_spec v b : exact_binding v = Ok b →
  exact_binding (binding_value b) = Ok b ∧ hasValidBinding v = true ∧ (b = None ↔ v = JUndef)
  ∧ ∀ jkt, b = Some jkt → isCanonicalDpopJkt (JStr jkt) = true.
Proof.
  unfold exact_binding. intros H. res_step H as o Ho. res_step H as u Hl. injection H as <-. apply guard_Ok in Hl.
  destruct (snapshot_binding v o Ho) as (Hv & _ & Hn & Hc).
  { apply orb_true_iff in Hl as [->%bool_decide_eq_true|?%Nat.eqb_eq]; auto. }
  split_and!; [|done|done|intros jkt Hj; by destruct (Hc jkt Hj)].
  destruct o as [jkt|]; [|done]. cbn [binding_value]. rewrite snapshot_snapshot by (by destruct (Hc jkt eq_refl)).
  done.
Qed.

Lemma snapshotProvider_spec v p : snapshotProvider v = Ok p →
  snapshotProvider (match p with Some p => JObj true (identity_fields true p) | None => JUndef end) = Ok p
  ∧ (p = None ↔ v = JUndef).
Proof.
  unfold snapshotProvider at 1. destruct (is_undef v) eqn:Eu.
  { intros [= <-]. destruct v; try done. }
  intros H. res_step H as u1 _. res_step H as u2 _. injection H as <-. split; [by destruct (as_string _), (as_string _)|].
  split; [done|]. by intros ->.
Qed.

(** What the snapshot of a session says, as a fact about the record. *)
Record snapshot_of (record : Session) (id : jsstr) (now : Z) (s : SessionSnapshot) : Prop := {
  sp_id : s_sessionId record = id ∧ ss_sessionId s = id ∧ id ≠ [];
  sp_logical : ss_logicalSessionId s = s_logicalSessionId record ∧ s_logicalSessionId record ≠ Some [];
  sp_subject : s_subject record = JStr (ss_subject s) ∧ ss_subject s ≠ [];
  sp_tokens : s_refreshToken record = JStr (ss_refreshToken s) ∧ s_idToken record = JStr (ss_idToken s);
  sp_optional : optional_string (s_providerSessionId record) = true ∧ ss_providerSessionId s = as_string (s_providerSessionId record)
    ∧ optional_string (s_field record "accessToken") = true ∧ ss_accessToken s = as_string (s_field record "accessToken")
    ∧ optional_string (s_field record "scope") = true ∧ ss_scope s = as_string (s_field record "scope");
  sp_times : usable (s_createdAt record) = Some (ss_createdAt s) ∧ usable (s_updatedAt record) = Some (ss_updatedAt s);
  sp_expiry : match ss_expiresAt s with Some e => usable (s_expiresAt record) = Some e ∧ now < e | None => s_expiresAt record = JUndef end;
  sp_provider : snapshotProvider (s_provider record) = Ok (ss_provider s);
  sp_binding : exact_binding (s_deviceBinding record) = Ok (ss_deviceBinding s);
  sp_data : ss_user s = s_field record "user" ∧ ss_metadata s = s_field record "metadata"
}.

Lemma or_invalid_Ok {A} (o : option A) e a : or_invalid o e = Ok a ↔ o = Some a.
Proof. destruct o; cbn; split; congruence. Qed.
Lemma nonempty_true (s : jsstr) : negb (length s =? 0)%nat = true ↔ s ≠ [].
Proof. by destruct s. Qed.
Lemma as_string_Some v s : as_string v = Some s ↔ v = JStr s.
Proof. destruct v; cbn; split; congruence. Qed.

Lemma snapshot_session_spec record id now s :
  snapshotVaultSession record id now = Ok s ↔ ∃ t, usable_epoch now = Some t ∧ snapshot_of record id t s.
Proof.
  unfold snapshotVaultSession. split.
  - intros H. res_step H as u1 H1. res_step H as subject H2. res_step H as u2 H3. res_step H as u3 H4. res_step H as u4 H5.
    res_step H as rt H6. res_step H as it H7. res_step H as u5 H8. res_step H as c H9. res_step H as u H10. res_step H as t H11.
    res_step H as u6 H12. res_step H as p H13. res_step H as b H14. injection H as <-.
    rewrite ?guard_Ok, ?or_invalid_Ok, ?as_string_Some, ?andb_true_iff, ?nonempty_true in *.
    exists t. split; [done|]. destruct H1 as [<-%jsstr_eqb_true H1].
    split; cbn [ss_sessionId ss_logicalSessionId ss_subject ss_refreshToken ss_idToken ss_providerSessionId ss_accessToken ss_scope
      ss_createdAt ss_updatedAt ss_expiresAt ss_provider ss_deviceBinding ss_user ss_metadata]; try done.
    + split; [done|]. by destruct (s_logicalSessionId record) as [[|]|].
    + by destruct H8.
    + destruct (usable (s_expiresAt record)) as [e|] eqn:E.
      * destruct (s_expiresAt record); try done. cbn in H12. split; [done|lia].
      * apply orb_true_iff in H12 as [H12|]; [|done]. by destruct (s_expiresAt record).
    + rewrite !copies_session. done.
  - intros (t & Ht & [(<- & E1 & N1) (E2 & N2) (E3 & N3) (E4 & E5) (O1 & E6 & O2 & E7 & O3 & E8) (E9 & E10) E11 E12 E13 (E14 & E15)]).
    rewrite jsstr_eqb_refl, (proj2 (nonempty_true _)) by congruence. cbn [andb guard res_bind].
    rewrite E3. cbn [as_string or_invalid res_bind]. rewrite (proj2 (nonempty_true _)) by done. cbn [guard res_bind].
    assert (match s_logicalSessionId record with Some l => negb (length l =? 0)%nat | None => true end = true) as ->.
    { destruct (s_logicalSessionId record) as [[|]|]; done. }
    cbn [guard res_bind]. rewrite O1, E4, E5. cbn [guard res_bind as_string or_invalid]. rewrite O2, O3. cbn [andb guard res_bind].
    rewrite E9, E10, Ht. cbn [or_invalid res_bind].
    assert (is_undef (s_expiresAt record) || match usable (s_expiresAt record) with Some e => t <? e | None => false end = true
            ∧ usable (s_expiresAt record) = ss_expiresAt s) as [-> ->].
    { destruct (ss_expiresAt s) as [e|]; [destruct E11 as [-> Hlt]; split; [|done]; apply orb_true_iff; right; lia|by rewrite E11]. }
    cbn [guard res_bind]. rewrite E12, E13. cbn [res_bind]. rewrite !copies_session, <- E14, <- E15, <- E6, <- E7, <- E8, <- E2.
    rewrite <- E1. by destruct s.
Qed.

(** A session that was snapshotted can be handed to the store and snapshotted again, while it lives: the
    memory store accepts the copy, and nothing is lost or changed on the way. *)
Theorem session_snapshot_stable (record : Session) (id : jsstr) (now later : num) (s : SessionSnapshot) (t : Z) :
  snapshotVaultSession record id now = Ok s → usable_epoch later = Some t →
  match ss_expiresAt s with Some e => t < e | None => True end →
  snapshotVaultSession (session_of s) id later = Ok s
  ∧ hasValidSessionRecord (session_of s) id = true ∧ lineage (session_of s) = lineage record.
Proof.
  intros (t0 & _ & [(E0 & E1 & N1) (E2 & N2) (E3 & N3) (E4 & E5) (O1 & E6 & O2 & E7 & O3 & E8) (E9 & E10) E11 E12 E13 (E14 & E15)])%snapshot_session_spec Hl Ht.
  destruct (snapshotProvider_spec _ _ E12) as [P1 _]. destruct (exact_binding_spec _ _ E13) as (B1 & _ & _ & B2).
  pose proof (exact_binding_spec _ _ B1) as (_ & B3 & _ & _).
  split; [|split].
  - apply snapshot_session_spec. exists t. split; [done|].
    assert (s_field (session_of s) "accessToken" = string_value (ss_accessToken s)
      ∧ s_field (session_of s) "scope" = string_value (ss_scope s)
      ∧ s_field (session_of s) "user" = ss_user s ∧ s_field (session_of s) "metadata" = ss_metadata s) as (F1 & F2 & F3 & F4).
    { split_and!; try done.
      - unfold s_field, session_of. cbn [s_rest]. destruct (is_undef (ss_user s)) eqn:U; [|done].
        destruct (ss_user s); try done. by destruct (is_undef (ss_metadata s)).
      - unfold s_field, session_of. cbn [s_rest]. destruct (is_undef (ss_metadata s)) eqn:U; destruct (is_undef (ss_user s)); try done;
          by destruct (ss_metadata s). }
    split; rewrite ?F1, ?F2, ?F3, ?F4; cbn [session_of s_sessionId s_logicalSessionId s_subject s_providerSessionId s_provider s_deviceBinding s_refreshToken s_idToken s_createdAt s_updatedAt s_expiresAt]; try done.
    + by rewrite E2.
    + destruct (as_string_value (ss_providerSessionId s)) as [-> ->], (as_string_value (ss_accessToken s)) as [-> ->],
        (as_string_value (ss_scope s)) as [-> ->]. done.
    + split; by eapply usable_value.
    + destruct (ss_expiresAt s) as [e|]; [|done]. split; [|done]. destruct E11 as [E11 _]. by eapply usable_value.
  - unfold hasValidSessionRecord, session_of. cbn [s_sessionId s_subject s_refreshToken s_idToken s_expiresAt s_deviceBinding].
    rewrite B3, E1, jsstr_eqb_refl. by destruct (ss_expiresAt s).
  - unfold lineage, session_of. cbn. by rewrite E2, E1, E0.
Qed.

(** * Profiles *)

Lemma index_not_reserved b i : omits_recognition b (dec_of_Z (Z.of_nat i)) = false.
Proof.
  destruct b; [|done]. unfold omits_recognition. cbn [andb]. apply jsstr_eqb_false. intros E.
  destruct (dec_of_Z_head (Z.of_nat i)) as (c & t & Ec & Hc). rewrite Ec in E. injection E as -> _. by destruct Hc.
Qed.

(** No plain container of the value, at any depth, has the reserved name. *)
Fixpoint free_of_recognition (v : jsval) : bool :=
  match v with
  | JArr l => forallb free_of_recognition l
  | JObj true fs =>
      (fix go fs := match fs with
       | [] => true
       | (k, x) :: fs => negb (jsstr_eqb k FINGERPRINT_RECOGNITION_METADATA_KEY) && free_of_recognition x && go fs
       end) fs
  | _ => true
  end.

Lemma profile_free v : free_of_recognition (copyVaultUserProfile v) = true.
Proof.
  unfold copyVaultUserProfile. induction v as [| | | | |l IH|p fs IH| |] using jsval_ind'; try done.
  - cbn [portable_value free_of_recognition]. induction IH as [|x l Hx _ IHl]; [done|]. cbn. by rewrite Hx, IHl.
  - destruct p; [|done]. rewrite portable_fields. cbn [free_of_recognition]. induction IH as [|[k x] fs Hx _ IHl]; [done|].
    destruct (omits_recognition true k) eqn:E.
    + by rewrite filter_cons_False by (cbn [fst]; by rewrite E).
    + rewrite filter_cons_True by (cbn [fst]; by rewrite E). cbn [map fst snd]. unfold omits_recognition in E. cbn [andb] in E.
      cbn [snd] in Hx. by rewrite E, Hx, IHl.
Qed.

(** On profiles and metadata that unfold to trees, the copy over the memory of objects computes the tree the
    snapshots use: the same data, and in a profile the reserved evidence of recognition at no depth,
    whoever put it there. *)
Theorem profile_copy_refines (omitRecognition : bool) (m : memory) (v : gval) (w : jsval) :
  closed m → in_bounds m v → denotes m v w →
  ∃ r news,
    copyPortableData (omits_recognition omitRecognition) v m = Some (r, m ++ news)
    ∧ denotes (m ++ news) r (if omitRecognition then copyVaultUserProfile w else w)
    ∧ free_of_recognition (copyVaultUserProfile w) = true.
Proof.
  intros Hm Hv Hd.
  destruct (copy_denotes (omits_recognition omitRecognition) m v w Hm Hv (index_not_reserved _) Hd) as (r & news & E & H).
  exists r, news. split; [done|]. split; [|apply profile_free]. destruct omitRecognition; [done|]. by rewrite copies_session in H.
Qed.

(** * Concrete instances *)

Definition example_recognition : jsstr := (createTransactionBrowserBinding toy_hash example_random).2.
Definition example_hook_metadata : jsval :=
  JObj true [(js "theme", JStr (js "dark")); (FINGERPRINT_RECOGNITION_METADATA_KEY, JStr (js "forged"))].

Lemma recognition_restored_witness :
  snapshotFingerprintRecognition (withFingerprintRecognitionMetadata example_hook_metadata (Some example_recognition))
  = Ok (Some example_recognition).
Proof.
  apply (recognition_restored example_hook_metadata (Some example_recognition)); [done|].
  intros h [= <-]. vm_compute. reflexivity.
Defined.

Definition example_vault_session : Session :=
  mkSession (js "sess_1") (Some (js "sess_0")) (JStr (js "alice")) JUndef
    (JObj true [(js "issuer", JStr (js "https://issuer.example")); (js "clientId", JStr (js "client"))])
    (dpop_binding (JStr example_recognition)) (JStr (js "rt")) (JStr (js "it")) (JNum (num_of_Z 9000)) (JNum (num_of_Z 10))
    (JNum (num_of_Z 20)) [(js "scope", JStr (js "openid")); (js "user", JObj true [(js "sub", JStr (js "alice"))])].
Definition example_snapshot : SessionSnapshot :=
  mkSessionSnapshot (js "sess_1") (Some (js "sess_0")) (js "alice") None
    (Some (Some (js "https://issuer.example"), Some (js "client"))) (Some example_recognition) (js "rt") (js "it") None
    (Some (js "openid")) (Some 9000) 10 20 (JObj true [(js "sub", JStr (js "alice"))]) JUndef.

Lemma session_snapshot_stable_witness :
  snapshotVaultSession (session_of example_snapshot) (js "sess_1") (num_of_Z 100) = Ok example_snapshot.
Proof.
  apply (session_snapshot_stable example_vault_session (js "sess_1") (num_of_Z 50) (num_of_Z 100) example_snapshot 100);
    [vm_compute; reflexivity..|]. cbn. lia.
Defined.

Lemma profile_copy_refines_witness :
  ∃ r news,
    copyPortableData (omits_recognition true) (GRef 0) [NPlain false [(FINGERPRINT_RECOGNITION_METADATA_KEY, GPrim JNull); (js "a", GRef 1)]; NArray 0 []]
      = Some (r, [NPlain false [(FINGERPRINT_RECOGNITION_METADATA_KEY, GPrim JNull); (js "a", GRef 1)]; NArray 0 []] ++ news)
    ∧ denotes ([NPlain false [(FINGERPRINT_RECOGNITION_METADATA_KEY, GPrim JNull); (js "a", GRef 1)]; NArray 0 []] ++ news) r
        (JObj true [(js "a", JArr [])]).
Proof.
  destruct (profile_copy_refines true [NPlain false [(FINGERPRINT_RECOGNITION_METADATA_KEY, GPrim JNull); (js "a", GRef 1)]; NArray 0 []]
    (GRef 0) (JObj true [(FINGERPRINT_RECOGNITION_METADATA_KEY, JNull); (js "a", JArr [])])) as (r & news & H1 & H2 & _).
  - repeat first [apply Forall_cons; split | apply Forall_nil]; cbn; try done; lia.
  - cbn. lia.
  - eapply (denote_plain _ 0 false); [done..|]. constructor; [by constructor|]. constructor; [|constructor].
    apply (denote_array _ 1 [] []); [done..|constructor].
  - exists r, news. split; [exact H1|exact H2].
Defined.
