(* ===== verification/VaultOrigins.v ===== *)
(** express-oidc-vault: the configuration ([config.ts]), the origins a vault trusts and the check of a
    request's origin ([origins.ts], [utils.ts]).

    [new URL] is a parameter. What Express reads from a request's headers is part of [RequestHead]. *)

From S2P Require Import Prelude JsValue JsJson AttestTypes AttestVerify JsBuffer VaultBinding DpopNonce DpopPolicy DpopTarget DpopProof VaultCookies VaultRecords.

(** * utils.ts *)

(** [isString]: a non-empty string. *)
Definition isString (v : jsval) : option jsstr := match v with JStr s => if (length s =? 0)%nat then None else Some s | _ => None end.

(** [getBody]: the body when it is an object of any kind, else an empty one. *)
Definition getBody (body : jsval) : jsval :=
  match body with JObj _ _ | JArr _ | JBytes _ => body | _ => JObj true [] end.

(** * config.ts *)

Inductive ConfigMode := IssuerMode | ManualMode.

(** [OidcVaultConfig]; [None] for an absent member. *)
Record VaultConfig := mkConfig {
  cf_issuer : option jsstr;
  cf_authorizationEndpoint : option jsstr;
  cf_tokenEndpoint : option jsstr;
  cf_userInfoEndpoint : option jsstr;
  cf_jwksUri : option jsstr;
  cf_endSessionEndpoint : option jsstr;
  cf_clientId : option jsstr;
  cf_clientSecret : option jsstr;
  cf_scopes : option jsstr
}.

Record ResolvedConfig := mkResolvedConfig {
  rcf_mode : ConfigMode;
  rcf_scopes : jsstr;
  rcf_issuer : option jsstr;
  rcf_clientId : jsstr;
  rcf_clientSecret : option jsstr;
  rcf_authorizationEndpoint : option jsstr;
  rcf_tokenEndpoint : option jsstr;
  rcf_userInfoEndpoint : option jsstr;
  rcf_jwksUri : option jsstr;
  rcf_endSessionEndpoint : option jsstr
}.

Definition DEFAULT_OIDC_SCOPES : jsstr := js "openid email profile".

Definition normalizeOptionalString (value : option jsstr) : option jsstr :=
  v ← value; match trim v with [] => None | t => Some t end.

Definition http_protocol (u : URL) : bool :=
  jsstr_eqb (url_protocol u) (js "https:") || jsstr_eqb (url_protocol u) (js "http:").
Definition http_url (u : URL) : bool := http_protocol u && negb (jsstr_eqb (url_origin u) (js "null")).

Section config.
Variable parse_url : jsstr → option URL.

Definition normalizeHttpUrl (value : option jsstr) (optionName : string) : ores (option jsstr) :=
  match value with
  | None => Ok None
  | Some v =>
      match parse_url v with
      | None => Err (PlainError (js optionName ++ js " must be an absolute HTTP(S) URL."))
      | Some url =>
          guard (http_url url) (PlainError (js optionName ++ js " must use http or https.")) ;;;
          Ok (Some (url_href url))
      end
  end.

Definition normalizeIssuerIdentifier (value : option jsstr) (optionName : string) : ores (option jsstr) :=
  match value with
  | None => Ok None
  | Some v =>
      match parse_url v with
      | None => Err (PlainError (js optionName ++ js " must be an absolute HTTP(S) URL."))
      | Some url =>
          guard (http_url url) (PlainError (js optionName ++ js " must use http or https.")) ;;;
          guard (jsstr_eqb (url_username url) [] && jsstr_eqb (url_password url) [])
            (PlainError (js optionName ++ js " must not include userinfo.")) ;;;
          guard (jsstr_eqb (url_search url) [] && jsstr_eqb (url_hash url) [])
            (PlainError (js optionName ++ js " must not include query or fragment.")) ;;;
          Ok (Some v)
      end
  end.

(** [MANUAL_CONFIG_SELECTORS.some(…)] *)
Definition hasManualEndpoints (config : VaultConfig) : bool :=
  existsb (λ v, bool_decide (is_Some (normalizeOptionalString v)))
    [cf_authorizationEndpoint config; cf_tokenEndpoint config; cf_jwksUri config; cf_userInfoEndpoint config;
     cf_endSessionEndpoint config].

Definition resolveOidcVaultConfig (config : VaultConfig) : ores ResolvedConfig :=
  let* issuer := normalizeIssuerIdentifier (normalizeOptionalString (cf_issuer config)) "config.issuer" in
  let scopes := default DEFAULT_OIDC_SCOPES (normalizeOptionalString (cf_scopes config)) in
  let clientSecret := normalizeOptionalString (cf_clientSecret config) in
  match normalizeOptionalString (cf_clientId config) with
  | None => Err (PlainError (js "OIDC clientId is required."))
  | Some clientId =>
      if bool_decide (is_Some issuer) && negb (hasManualEndpoints config)
      then Ok (mkResolvedConfig IssuerMode scopes issuer clientId clientSecret None None None None None)
      else
        let* authorization := normalizeHttpUrl (normalizeOptionalString (cf_authorizationEndpoint config)) "config.authorizationEndpoint" in
        let* token := normalizeHttpUrl (normalizeOptionalString (cf_tokenEndpoint config)) "config.tokenEndpoint" in
        let* userInfo := normalizeHttpUrl (normalizeOptionalString (cf_userInfoEndpoint config)) "config.userInfoEndpoint" in
        let* jwks := normalizeHttpUrl (normalizeOptionalString (cf_jwksUri config)) "config.jwksUri" in
        let* endSession := normalizeHttpUrl (normalizeOptionalString (cf_endSessionEndpoint config)) "config.endSessionEndpoint" in
        let required := [("issuer"%string, issuer); ("authorizationEndpoint"%string, authorization);
                         ("tokenEndpoint"%string, token); ("jwksUri"%string, jwks)] in
        let absent (o : option jsstr) := match o with None | Some [] => true | _ => false end in
        match List.filter (λ kv, absent kv.2) required with
        | [] => Ok (mkResolvedConfig ManualMode scopes issuer clientId clientSecret authorization token userInfo jwks endSession)
        | missing => Err (PlainError (js "Missing required OIDC configuration for manual mode: "
                                        ++ join_str [44; 32] (map (λ kv, js kv.1) missing)))
        end
  end.

(** [env name]: a variable of the environment. *)
Definition resolveOidcVaultConfigFromEnv (env : string → option jsstr) : ores ResolvedConfig :=
  resolveOidcVaultConfig
    (mkConfig (env "OIDC_ISSUER"%string) (env "OIDC_AUTHORIZATION_ENDPOINT"%string) (env "OIDC_TOKEN_ENDPOINT"%string)
       (env "OIDC_USERINFO_ENDPOINT"%string) (env "OIDC_JWKS_URI"%string) (env "OIDC_END_SESSION_ENDPOINT"%string)
       (env "OIDC_CLIENT_ID"%string) (env "OIDC_CLIENT_SECRET"%string) (env "OIDC_SCOPES"%string)).

(** * origins.ts *)

(** [url.origin] of a URL of any scheme; [url_origin] on HTTP(S) URLs. *)
Variable origin_of : URL → jsstr.

Definition parseHttpUrl (value : jsstr) (optionName example : string) : ores URL :=
  match parse_url value with
  | None => Err (PlainError (js optionName ++ js " must be an absolute HTTP(S) URL, for example " ++ js example ++ js "."))
  | Some url =>
      guard (http_url url) (PlainError (js optionName ++ js " must use http or https, for example " ++ js example ++ js ".")) ;;;
      Ok url
  end.

(** [resolveTrustedOrigins]; a set is the list of its members in insertion order. *)
Fixpoint resolveTrustedOrigins (trustedOrigins : list jsval) (origins : list jsstr) : ores (list jsstr) :=
  match trustedOrigins with
  | [] => Ok origins
  | value :: rest =>
      match isString value with
      | None => Err (PlainError (js "trustedOrigins entries must be absolute HTTP(S) URLs, for example https://frontend.example.com."))
      | Some v =>
          let* url := parseHttpUrl v "trustedOrigins entries" "https://frontend.example.com" in
          resolveTrustedOrigins rest (if bool_decide (url_origin url ∈ origins) then origins else origins ++ [url_origin url])
      end
  end.

Definition resolveBackendOrigin (backendOrigin : jsval) : ores jsstr :=
  match isString backendOrigin with
  | None => Err (PlainError (js "backendOrigin is required and must be the public backend origin, for example https://api.example.com."))
  | Some v =>
      let* url := parseHttpUrl v "backendOrigin" "https://api.example.com" in
      Ok (url_origin url)
  end.

Definition resolveFrontendRedirectUri (frontendRedirectUri : jsval) : ores (option jsstr) :=
  if is_undef frontendRedirectUri then Ok None
  else
    match isString frontendRedirectUri with
    | None => Err (PlainError (js "frontendRedirectUri must be an absolute HTTP(S) URL, for example https://frontend.example.com/callback."))
    | Some v =>
        let* url := parseHttpUrl v "frontendRedirectUri" "https://frontend.example.com/callback" in
        Ok (Some (url_href url))
    end.

Definition validatePostLogoutRedirectUri (postLogoutRedirectUri : jsval) : ores unit :=
  if is_undef postLogoutRedirectUri then Ok tt
  else
    match isString postLogoutRedirectUri with
    | None => Err (PlainError (js "postLogoutRedirectUri must be an absolute HTTP(S) URL registered with the OIDC provider, for example https://frontend.example.com/logged-out."))
    | Some v =>
        let* _ := parseHttpUrl v "postLogoutRedirectUri" "https://frontend.example.com/logged-out" in Ok tt
    end.

(** What the origin checks read of a request: the raw headers, and Express's [req.get]. *)
Record RequestHead := mkHead {
  hd_rawHeaders : list jsstr;
  hd_origin : jsval;
  hd_referer : jsval
}.

Definition getRequestSourceOrigin (rq : RequestHead) : option jsstr :=
  match isString (hd_origin rq) with
  | Some origin => Some origin
  | None => referer ← isString (hd_referer rq); origin_of <$> parse_url referer
  end.

(** [/^https?:\/\//i] *)
Definition http_prefix (s : jsstr) : bool :=
  starts_with (js "https://") (to_lower (take 8 s)) || starts_with (js "http://") (to_lower (take 7 s)).

Definition getGuardedRequestSourceOrigin (rq : RequestHead) : option jsstr :=
  let origin := readDpopRawHeader (hd_rawHeaders rq) (js "origin") in
  let single (h : DpopRawHeader) :=
    match rh_count h, rh_value h with 1%nat, Some v => isString (JStr v) | _, _ => None end in
  if negb (rh_count origin =? 0)%nat then single origin
  else
    referer ← single (readDpopRawHeader (hd_rawHeaders rq) (js "referer"));
    if negb (http_prefix referer) || existsb (λ c, is_space c || (c =? 92)) referer then None
    else
      url ← parse_url referer;
      if http_protocol url && jsstr_eqb (url_username url) [] && jsstr_eqb (url_password url) []
      then Some (url_origin url) else None.

Inductive OriginAction := ActLogin | ActExchange | ActRefresh | ActLogout.
Definition action_label (a : OriginAction) : string :=
  match a with ActLogin => "Login" | ActExchange => "Exchange" | ActRefresh => "Refresh" | ActLogout => "Logout" end.

(** [captureTrustedOriginGuard(…)]: what it captures of the request, and the guard it returns. *)
Definition captureTrustedOriginGuard (rq : RequestHead) (options : VaultOptions) (trustedOrigins : list jsstr)
    (action : OriginAction) (strict : bool) : ores unit :=
  let guarded := strict || match action with ActLogin | ActExchange => true | _ => false end in
  if negb guarded && negb (usesCookieTransport options) then Ok tt
  else
    let origin := if guarded then getGuardedRequestSourceOrigin rq else getRequestSourceOrigin rq in
    guard (match origin with Some ((_ :: _) as o) => bool_decide (o ∈ trustedOrigins) | _ => false end)
      (OidcVaultHttpError 403 (js "OIDC_VAULT_UNTRUSTED_ORIGIN") (js (action_label action) ++ js " request origin is not trusted.")
         (js (action_label action) ++ js " request origin is not trusted.")).

Definition assertTrustedOrigin (rq : RequestHead) (options : VaultOptions) (trustedOrigins : list jsstr)
    (action : OriginAction) : ores unit :=
  captureTrustedOriginGuard rq options trustedOrigins action false.

(** The request names a trusted origin as its source: in its raw headers, unambiguously, or as Express reads them. *)
Definition trusted_source (raw : bool) (rq : RequestHead) (trustedOrigins : list jsstr) : Prop :=
  ∃ origin, (if raw then getGuardedRequestSourceOrigin rq else getRequestSourceOrigin rq) = Some origin
    ∧ origin ≠ [] ∧ origin ∈ trustedOrigins.

Lemma origin_guard_spec rq options trustedOrigins action strict :
  captureTrustedOriginGuard rq options trustedOrigins action strict = Ok tt →
  (strict || match action with ActLogin | ActExchange => true | _ => false end = true → trusted_source true rq trustedOrigins)
  ∧ (strict || match action with ActLogin | ActExchange => true | _ => false end = false → usesCookieTransport options = true →
     trusted_source false rq trustedOrigins).
Proof.
  set (guarded := strict || _). intros H.
  assert (∀ o, guard (match o with Some ((_ :: _) as o) => bool_decide (o ∈ trustedOrigins) | _ => false end)
      (OidcVaultHttpError 403 (js "OIDC_VAULT_UNTRUSTED_ORIGIN") (js (action_label action) ++ js " request origin is not trusted.")
         (js (action_label action) ++ js " request origin is not trusted.")) = Ok tt →
    ∃ origin, o = Some origin ∧ origin ≠ [] ∧ origin ∈ trustedOrigins) as Hguard.
  { intros [[|c o]|] Hg%guard_Ok; try done. apply bool_decide_eq_true in Hg. by eexists. }
  unfold captureTrustedOriginGuard in H. change (strict || _) with guarded in H. unfold trusted_source.
  destruct guarded, (usesCookieTransport options); cbn [negb andb] in H; (split; [intros ?|intros ? ?]); try done; by apply Hguard.
Qed.
End config.
