(* ===== verification/VaultProvider.v ===== *)
(** express-oidc-vault: what the vault makes of a provider's answers ([provider-client.ts]), of verified
    ID and logout tokens ([token-validation.ts]) and of its own token issuer's ([token-issuance.ts]).

    A response is its status and the text that was read of it; limits, deadlines and transport errors are in
    the error a read ends with. [jwtVerify], [decodeProtectedHeader] and [decodeJwt] of jose are
    parameters or arguments. *)

From S2P Require Import Prelude JsValue JsJson AttestTypes AttestCanonical AttestVerify JsBuffer JsUri VaultBinding DpopNonce DpopPolicy DpopChallenge DpopProof VaultCookies VaultRecords VaultOrigins ApiAccessToken.

(** * provider-client.ts *)

Record ProviderMetadata := mkMetadata {
  pm_issuer : option jsstr;
  pm_authorizationEndpoint : jsstr;
  pm_tokenEndpoint : jsstr;
  pm_jwksUri : jsstr;
  pm_userInfoEndpoint : option jsstr;
  pm_endSessionEndpoint : option jsstr;
  pm_clientId : jsstr;
  pm_clientSecret : option jsstr;
  pm_scopes : jsstr
}.

Definition discovery_error (message : jsstr) : oidc_error :=
  OidcVaultHttpError 502 (js "OIDC_VAULT_DISCOVERY_INVALID") message message.

Section discovery.
Variable parse_url : jsstr → option URL.

Definition assertDiscoveredIssuerMatchesConfig (configuredIssuer discoveredIssuer : jsstr) : ores unit :=
  match parse_url discoveredIssuer with
  | None => Err (discovery_error (js "OIDC discovery response issuer must be an absolute HTTP(S) URL."))
  | Some url =>
      guard (http_url url && jsstr_eqb (url_username url) [] && jsstr_eqb (url_password url) []
             && jsstr_eqb (url_search url) [] && jsstr_eqb (url_hash url) [])
        (discovery_error (js "OIDC discovery response issuer must be an http(s) URL without userinfo, query, or fragment.")) ;;;
      guard (jsstr_eqb configuredIssuer discoveredIssuer)
        (discovery_error (js "OIDC discovery response issuer does not match the configured issuer."))
  end.

Definition validateDiscoveredHttpUrl (value : jsstr) (fieldName : string) : ores jsstr :=
  match parse_url value with
  | None => Err (discovery_error (js "OIDC discovery response " ++ js fieldName ++ js " must be an absolute HTTP(S) URL."))
  | Some url =>
      guard (http_url url) (discovery_error (js "OIDC discovery response " ++ js fieldName ++ js " must use http or https.")) ;;;
      Ok (url_href url)
  end.

Definition validateOptionalDiscoveredHttpUrl (value : jsval) (fieldName : string) : ores (option jsstr) :=
  if is_undef value then Ok None
  else
    let* s := getRequiredString value (js "OIDC discovery response " ++ js fieldName ++ js " must be a non-empty string when present.")
                (js "OIDC_VAULT_DISCOVERY_INVALID") 502 in
    let* url := validateDiscoveredHttpUrl s fieldName in Ok (Some url).

(** [isProviderJsonObject] on what [JSON.parse] returned. *)
Definition isProviderJsonObject (v : jsval) : bool := is_non_array_object v.

Definition invalid_json (errorCode message : string) : oidc_error := http_error 502 errorCode message.

(** [readJsonResponse], from the text of the body on. *)
Definition readJsonResponse (text : jsstr) (errorCode invalidJsonMessage : string) : ores jsval :=
  if (length text =? 0)%nat then Ok (JObj true [])
  else
    match json_parse text with
    | Some parsed => guard (isProviderJsonObject parsed) (invalid_json errorCode invalidJsonMessage) ;;; Ok parsed
    | None => Err (invalid_json errorCode invalidJsonMessage)
    end.

(** A required URL of the discovery document. *)
Definition discovered_url (discovered : jsval) (fieldName : string) : ores jsstr :=
  let* s := getRequiredString (get_field discovered (js fieldName)) (js "OIDC discovery response is missing " ++ js fieldName ++ js ".")
              (js "OIDC_VAULT_DISCOVERY_INVALID") 502 in
  validateDiscoveredHttpUrl s fieldName.

(** [discoverIssuerMetadata] on a successful response: issuer, authorization, token and key-set endpoint,
    user info and end-session endpoint. *)
Definition discovered_metadata (issuer text : jsstr) : ores (jsstr * jsstr * jsstr * jsstr * option jsstr * option jsstr) :=
  let* discovered := readJsonResponse text "OIDC_VAULT_DISCOVERY_INVALID" "OIDC discovery response is malformed JSON." in
  let* authorization := discovered_url discovered "authorization_endpoint" in
  let* token := discovered_url discovered "token_endpoint" in
  let* jwks := discovered_url discovered "jwks_uri" in
  let* discoveredIssuer := getRequiredString (get_field discovered (js "issuer")) (js "OIDC discovery response is missing issuer.")
                             (js "OIDC_VAULT_DISCOVERY_INVALID") 502 in
  assertDiscoveredIssuerMatchesConfig issuer discoveredIssuer ;;;
  let* userInfo := validateOptionalDiscoveredHttpUrl (get_field discovered (js "userinfo_endpoint")) "userinfo_endpoint" in
  let* endSession := validateOptionalDiscoveredHttpUrl (get_field discovered (js "end_session_endpoint")) "end_session_endpoint" in
  Ok (discoveredIssuer, authorization, token, jwks, userInfo, endSession).

(** [discover issuer] is what the issuer's discovery request ends with: its status and text. *)
Definition resolveProviderMetadata (config : ResolvedConfig) (discover : jsstr → ores (Z * jsstr)) : ores ProviderMetadata :=
  match rcf_mode config, rcf_issuer config with
  | ManualMode, (None | Some []) =>
      Err (http_error 500 "OIDC_VAULT_INVALID_CONFIG" "Manual OIDC configuration requires issuer.")
  | ManualMode, Some issuer =>
      Ok (mkMetadata (Some issuer) (default [] (rcf_authorizationEndpoint config)) (default [] (rcf_tokenEndpoint config))
            (default [] (rcf_jwksUri config)) (rcf_userInfoEndpoint config) (rcf_endSessionEndpoint config)
            (rcf_clientId config) (rcf_clientSecret config) (rcf_scopes config))
  | IssuerMode, (None | Some []) =>
      Err (http_error 500 "OIDC_VAULT_INVALID_CONFIG" "Issuer discovery requires an issuer URL.")
  | IssuerMode, Some issuer =>
      let* response := discover issuer in
      let '(status, text) := response in
      if (200 <=? status) && (status <=? 299) then
        let* d := discovered_metadata issuer text in
        let '(found, authorization, token, jwks, userInfo, endSession) := d in
        Ok (mkMetadata (Some found) authorization token jwks userInfo endSession (rcf_clientId config)
              (rcf_clientSecret config) (rcf_scopes config))
      else
        Err (OidcVaultHttpError 502 (js "OIDC_VAULT_DISCOVERY_FAILED")
               (if (length text =? 0)%nat then js "OIDC discovery failed with status " ++ dec_of_Z status ++ js "." else text)
               (js "OIDC discovery failed."))
  end.
End discovery.

(** [new URLSearchParams([[value, '']]).toString().slice(0, -1)] *)
Definition form_byte (b : Z) : jsstr :=
  if is_alnum b || includes_char b (js "*-._") then [b] else if b =? 32 then [43] else pct_byte b.
Definition formEncodeClientCredential (value : jsstr) : jsstr := flat_map form_byte (utf8_encode value).

(** [Buffer.toString('base64')] *)
Definition base64_encode (bytes : list Z) : jsstr :=
  let s := map (λ c, if c =? 45 then 43 else if c =? 95 then 47 else c) (base64urlEncode bytes) in
  s ++ repeat 61 ((4 - length s mod 4) mod 4).

Definition toBasicAuthorization (clientId clientSecret : jsstr) : jsstr :=
  js "Basic " ++ base64_encode (utf8_encode (formEncodeClientCredential clientId ++ js ":" ++ formEncodeClientCredential clientSecret)).

(** What [requestToken] sends: the endpoint, the authorization header and the form. *)
Record TokenRequest := mkTokenRequest {
  tr_endpoint : jsstr;
  tr_authorization : option jsstr;
  tr_body : list (jsstr * jsstr)
}.

(** [body.set(key, value)] *)
Definition form_set (body : list (jsstr * jsstr)) (kv : jsstr * jsstr) : list (jsstr * jsstr) :=
  match field_lookup body kv.1 with
  | Some _ => map (λ f, if jsstr_eqb f.1 kv.1 then kv else f) body
  | None => body ++ [kv]
  end.

Definition prepare_token_request (metadata : ProviderMetadata) (params : list (jsstr * jsstr)) : ores TokenRequest :=
  guard (negb (length (pm_clientId metadata) =? 0)%nat) (http_error 500 "OIDC_VAULT_MISSING_CLIENT_ID" "OIDC clientId is required.") ;;;
  Ok (mkTokenRequest (pm_tokenEndpoint metadata)
        (match pm_clientSecret metadata with
         | None | Some [] => None
         | Some secret => Some (toBasicAuthorization (pm_clientId metadata) secret)
         end)
        (foldl form_set [(js "client_id", pm_clientId metadata)] params)).

Definition token_request_failed : oidc_error := http_error 502 "OIDC_VAULT_TOKEN_REQUEST_FAILED" "OIDC token request failed.".
Definition refresh_rejected : oidc_error :=
  http_error 401 "OIDC_VAULT_REFRESH_REJECTED" "OIDC refresh was rejected. Sign in again.".

Definition invalid_grant (text : jsstr) : bool :=
  match json_parse text with
  | Some value => isProviderJsonObject value && has_own value (js "error")
                  && js_strict_eq (get_field value (js "error")) (JStr (js "invalid_grant"))
  | None => false
  end.

(** The rest of [requestToken]: [text] is what reading the body ended with. *)
Definition read_token_response (grant_type : jsstr) (status : Z) (text : ores jsstr) : ores jsval :=
  if (200 <=? status) && (status <=? 299) then
    let* text := text in readJsonResponse text "OIDC_VAULT_TOKEN_REQUEST_FAILED" "OIDC provider returned invalid JSON."
  else
    let* text := text in
    if (status =? 400) && jsstr_eqb grant_type (js "refresh_token") && invalid_grant text
    then Err refresh_rejected else Err token_request_failed.

(** The rest of [fetchUserInfo]. *)
Definition read_user_info (status : Z) (text : ores jsstr) : ores jsval :=
  let* text := text in
  if (200 <=? status) && (status <=? 299)
  then readJsonResponse text "OIDC_VAULT_USERINFO_FAILED" "OIDC provider returned invalid JSON."
  else Err (http_error 502 "OIDC_VAULT_USERINFO_FAILED" "OIDC userinfo request failed.").

Definition invalid_token_response (message : jsstr) : oidc_error :=
  OidcVaultHttpError 502 (js "OIDC_VAULT_INVALID_TOKEN_RESPONSE") message message.

Definition assertPresentTokenStringField (tokenResponse : jsval) (field : string) : ores unit :=
  let value := get_field tokenResponse (js field) in
  guard (is_undef value || bool_decide (is_Some (isString value)))
    (invalid_token_response (js "OIDC token response " ++ js field ++ js " must be a non-empty string when present.")).

Definition validateTokenResponse (tokenResponse : jsval) : ores unit :=
  guard (match get_field tokenResponse (js "token_type") with JStr s => jsstr_eqb (to_lower s) (js "bearer") | _ => false end)
    (invalid_token_response (js "OIDC token response token_type must be Bearer.")) ;;;
  let expires_in := get_field tokenResponse (js "expires_in") in
  (if is_undef expires_in then Ok tt
   else
     let* _ := getRequiredFiniteNonNegativeInteger expires_in
       (js "OIDC token response expires_in must be a finite non-negative integer.") (js "OIDC_VAULT_INVALID_TOKEN_RESPONSE") 502 in
     Ok tt) ;;;
  assertPresentTokenStringField tokenResponse "access_token" ;;;
  assertPresentTokenStringField tokenResponse "id_token" ;;;
  assertPresentTokenStringField tokenResponse "refresh_token" ;;;
  guard (optional_string (get_field tokenResponse (js "scope")))
    (invalid_token_response (js "OIDC token response scope must be a string when present.")).

Definition validateCallbackTokenResponse (tokenResponse : jsval) : ores unit :=
  validateTokenResponse tokenResponse ;;;
  guard (bool_decide (is_Some (isString (get_field tokenResponse (js "id_token")))))
    (http_error 502 "OIDC_VAULT_MISSING_ID_TOKEN" "OIDC token response is missing id_token.") ;;;
  guard (bool_decide (is_Some (isString (get_field tokenResponse (js "refresh_token")))))
    (http_error 502 "OIDC_VAULT_MISSING_REFRESH_TOKEN" "OIDC token response is missing refresh_token.").

Definition validateRefreshTokenResponse (tokenResponse : jsval) : ores unit := validateTokenResponse tokenResponse.

(** * token-validation.ts *)

Definition BACKCHANNEL_LOGOUT_EVENT_CLAIM : jsstr := js "http://schemas.openid.net/event/backchannel-logout".

Definition logout_error (message : string) : oidc_error := http_error 400 "OIDC_VAULT_INVALID_LOGOUT_TOKEN" message.

Definition validateBackchannelLogoutTokenTyp (typ : jsval) : ores unit :=
  guard (is_undef typ || match typ with JStr s => jsstr_eqb (to_lower s) (js "logout+jwt") | _ => false end)
    (logout_error "Backchannel logout token protected header typ must be logout+jwt when present.").

Definition userinfo_error (message : string) : oidc_error := http_error 502 "OIDC_VAULT_INVALID_USERINFO" message.

Definition assertUserInfoSubject (userInfo : jsval) (subject : jsstr) : ores unit :=
  guard (is_non_array_object userInfo) (userinfo_error "OIDC userinfo response is invalid.") ;;;
  match isString (get_field userInfo (js "sub")) with
  | None => Err (userinfo_error "OIDC userinfo response is missing sub.")
  | Some sub => guard (jsstr_eqb sub subject) (userinfo_error "OIDC userinfo sub does not match id_token sub.")
  end.

(** [{ ...target, ...source }] *)
Definition spread (target source : list (jsstr * jsval)) : list (jsstr * jsval) :=
  foldl (λ acc kv, set_field acc kv.1 kv.2) target source.

Definition mergeUserProfile (sub : jsstr) (idTokenClaims userInfo : list (jsstr * jsval)) : jsval :=
  JObj true (set_field (spread (spread [] idTokenClaims) userInfo) (js "sub") (JStr sub)).

(** [currentUser] is [undefined] or an object. *)
Definition composeRefreshedUserProfile (sub : jsstr) (currentUser : jsval)
    (freshIdClaims : option (list (jsstr * jsval))) (freshUserInfo : list (jsstr * jsval)) : jsval :=
  match freshIdClaims with
  | None => mergeUserProfile sub (spread [] (if is_undef currentUser then [(js "sub", JStr sub)] else own_fields currentUser)) freshUserInfo
  | Some claims => mergeUserProfile sub (spread [] claims) freshUserInfo
  end.

(** What [verifyIdToken] and [verifyBackchannelLogoutToken] need of the metadata. *)
Definition check_key_source (metadata : ProviderMetadata) (token : string) : ores unit :=
  guard (negb (length (pm_jwksUri metadata) =? 0)%nat)
    (OidcVaultHttpError 500 (js "OIDC_VAULT_MISSING_JWKS_URI") (js "OIDC jwksUri is required to validate " ++ js token ++ js ".")
       (js "OIDC jwksUri is required to validate " ++ js token ++ js ".")) ;;;
  guard (negb (length (pm_clientId metadata) =? 0)%nat)
    (OidcVaultHttpError 500 (js "OIDC_VAULT_MISSING_CLIENT_ID") (js "OIDC clientId is required to validate " ++ js token ++ js ".")
       (js "OIDC clientId is required to validate " ++ js token ++ js ".")).

Definition id_token_error (message : string) : oidc_error := http_error 502 "OIDC_VAULT_INVALID_ID_TOKEN" message.
Definition is_number (v : jsval) : bool := match v with JNum _ => true | _ => false end.

(** [verifyIdToken] from the payload [jwtVerify] returned on. *)
Definition check_id_token (metadata : ProviderMetadata) (nonce : option jsstr) (payload : jsval) : ores unit :=
  let claim name := get_field payload (js name) in
  let azp_ok := js_strict_eq (claim "azp"%string) (JStr (pm_clientId metadata)) in
  guard (match nonce with None | Some [] => true | Some n => js_strict_eq (claim "nonce"%string) (JStr n) end)
    (id_token_error "OIDC id_token nonce validation failed.") ;;;
  guard (is_number (claim "exp"%string)) (id_token_error "OIDC id_token is missing exp.") ;;;
  guard (is_number (claim "iat"%string)) (id_token_error "OIDC id_token is missing iat.") ;;;
  guard (bool_decide (is_Some (isString (claim "sub"%string)))) (id_token_error "OIDC id_token is missing sub.") ;;;
  guard (is_undef (claim "azp"%string) || azp_ok) (id_token_error "OIDC id_token azp validation failed.") ;;;
  guard (negb (match claim "aud"%string with JArr l => (1 <? length l)%nat | _ => false end) || azp_ok)
    (id_token_error "OIDC id_token azp is required for multiple audiences.").

(** [isRecord] of utils.ts *)
Definition is_object (v : jsval) : bool := match v with JObj _ _ | JArr _ | JBytes _ => true | _ => false end.

(** [verifyBackchannelLogoutToken] from the verified payload and protected header on. *)
Definition check_logout_token (typ payload : jsval) : ores unit :=
  let claim name := get_field payload (js name) in
  validateBackchannelLogoutTokenTyp typ ;;;
  guard (is_undef (claim "nonce"%string)) (logout_error "Backchannel logout token must not contain nonce.") ;;;
  guard (is_object (claim "events"%string) && is_object (get_field (claim "events"%string) BACKCHANNEL_LOGOUT_EVENT_CLAIM))
    (logout_error "Backchannel logout token is missing the required event claim.") ;;;
  guard (bool_decide (is_Some (isString (claim "sid"%string))) || bool_decide (is_Some (isString (claim "sub"%string))))
    (logout_error "Backchannel logout token must include sid or sub.") ;;;
  guard (bool_decide (is_Some (isString (claim "jti"%string)))) (logout_error "Backchannel logout token must include jti.") ;;;
  let* _ := getRequiredFiniteNonNegativeInteger (claim "iat"%string) (js "Backchannel logout token must include iat.")
              (js "OIDC_VAULT_INVALID_LOGOUT_TOKEN") 400 in
  let* _ := getRequiredFiniteNonNegativeInteger (claim "exp"%string) (js "Backchannel logout token must include exp.")
              (js "OIDC_VAULT_INVALID_LOGOUT_TOKEN") 400 in
  Ok tt.

(** * token-issuance.ts *)

(** [Partial<OidcVaultTokenIssueResult>]: empty, or an issued token. *)
Record IssuedToken := mkIssued { it_accessToken : jsstr; it_expiresIn : Z; it_tokenType : option Scheme }.

Record ExchangeResult := mkExchangeResult {
  ex_sessionId : option jsstr;
  ex_user : jsval;
  ex_token : option IssuedToken
}.

Definition createExchangeResponse (options : VaultOptions) (session : SessionSnapshot) (issuedToken : option IssuedToken) : ExchangeResult :=
  mkExchangeResult (if usesCookieTransport options then None else Some (ss_sessionId session))
    (copyVaultUserProfile (ss_user session)) issuedToken.

Definition issuer_error (message : string) : oidc_error := TypeError (js "tokenIssuer.issue " ++ js message).

Section issuance.
(** [decodeProtectedHeader] and [decodeJwt]: an object, or a throw. *)
Variable decode_header : jsstr → option jsval.
Variable decode_claims : jsstr → option jsval.

Definition assertIssuedBoundJwt (accessToken jkt : jsstr) : ores unit :=
  let compact := issuer_error "accessToken must be a compact signed JWT for bound issuance." in
  guard (isCompactSignedJwt accessToken) compact ;;;
  match decode_header accessToken, decode_claims accessToken with
  | Some header, Some claims =>
      guard (match get_field header (js "alg") with
             | JStr alg => negb (length alg =? 0)%nat && negb (jsstr_eqb alg (js "none"))
             | _ => false
             end && negb (js_strict_eq (get_field header (js "b64")) (JBool false)))
        (issuer_error "accessToken must use a signed JWT algorithm for bound issuance.") ;;;
      let* confirmed := snapshotJkt (get_field claims (js "cnf"))
        (λ diagnostic, TypeError (js "tokenIssuer.issue accessToken cnf.jkt is invalid. " ++ diagnostic)) in
      guard (jsstr_eqb confirmed jkt) (issuer_error "accessToken cnf.jkt must match the verified device binding.") ;;;
      guard (bool_decide (is_Some (readJwtExpirationMs (get_field claims (js "exp")))))
        (issuer_error "accessToken exp must be a nonnegative safe integer with safe milliseconds.")
  | _, _ => Err compact
  end.

Definition token_scheme (v : jsval) : option Scheme :=
  if js_strict_eq v (JStr (js "Bearer")) then Some Bearer
  else if js_strict_eq v (JStr (js "DPoP")) then Some DPoP else None.

(** [withIssuedToken] on what the issuer returned. *)
Definition check_issued (binding : option VerifiedBinding) (result : jsval) : ores IssuedToken :=
  guard (is_non_array_object result) (issuer_error "must return a token result object.") ;;;
  let accessToken := get_field result (js "accessToken") in
  let expiresIn := get_field result (js "expiresIn") in
  let tokenType := get_field result (js "tokenType") in
  let* token := or_invalid (isString accessToken) (issuer_error "accessToken must be a nonempty string.") in
  let* seconds := or_invalid (epoch_ms expiresIn) (issuer_error "expiresIn must be a finite nonnegative safe integer.") in
  guard (is_undef tokenType || bool_decide (is_Some (token_scheme tokenType)))
    (issuer_error "tokenType must be the exact Bearer or DPoP literal when provided.") ;;;
  match binding with
  | None =>
      guard (is_undef tokenType || bool_decide (token_scheme tokenType = Some Bearer))
        (issuer_error "tokenType must be Bearer when provided for unbound issuance.")
  | Some b =>
      guard (bool_decide (token_scheme tokenType = Some DPoP)) (issuer_error "tokenType must be DPoP for bound issuance.") ;;;
      guard (match expiresIn with
             | JNum n => bool_decide (is_Some (safe_integer (num_mul n (num_of_Z 1000))))
             | _ => false
             end) (issuer_error "expiresIn must have safe milliseconds for bound issuance.") ;;;
      assertIssuedBoundJwt token (vb_jkt b)
  end ;;;
  Ok (mkIssued token seconds (token_scheme tokenType)).
End issuance.
