(* ===== verification/RouteTask.v ===== *)
(** Route handlers as interaction trees, and the requests of a vault running side by side over the memory store.

    A handler runs up to the next call it makes of its surroundings: its store, its proof verifier, the
    clock, the provider, the application's hooks. [task] is the tree of these calls, over every answer.
    [spec] says of a tree what holds at each of its calls and when it is done, whatever the answers; [world]
    runs any number of trees over one store in which other callers act between any two calls. *)

From S2P Require Import Prelude JsValue JsJson IndexedHeap JsMap HeapAdmission VaultBinding VaultDpop VaultTickets VaultStore VaultSafety VaultGuarantees DpopPolicy DpopProof VaultCookies VaultRecords VaultProvider VaultRoute.

(** * Calls *)

Inductive TokenOperation := ExchangeToken | RefreshToken.

Inductive Hook :=
  | OnLoginStart | OnAuthorizationUrl | OnCallbackTokens | OnUserInfo | OnBeforeSessionCreate | OnSessionCreated
  | OnSessionRefreshed | OnBeforeLogout | OnLogout | OnError.

Inductive call :=
  | Store (op : vault_op)                     (** a method of the store provider *)
  | Proof (c : RouteCall)                     (** [proofVerifier.initiate] or [verify] *)
  | Clock                                     (** [getNow(options)] *)
  | RandomBytes (count : Z)
  | Metadata                                  (** [resolveProviderMetadata] *)
  | Post (request : TokenRequest)             (** the request of [requestToken] *)
  | GetUserInfo (endpoint accessToken : jsstr)
  | JwtVerify (token : jsstr) (audience : jsstr) (issuer : option jsstr)
  | IssueToken (operation : TokenOperation) (session : Session) (binding : option VerifiedBinding)
  | RunHook (hook : Hook) (session : option Session)
  | SetCookie (header : jsstr).               (** [res.append('Set-Cookie', header)] *)

(** What a call is answered with. A call that rejects is answered with its error. A hook answers with the
    session it was given, as it left it. *)
Definition answer (c : call) : Type :=
  match c with
  | Store _ => outcome
  | Proof _ => result route_error (option VerifiedBinding)
  | Clock => num
  | RandomBytes _ => list Z
  | Metadata => ores ProviderMetadata
  | Post _ | GetUserInfo _ _ => ores (Z * ores jsstr)
  | JwtVerify _ _ _ => ores (jsval * jsval)   (** payload and the header's [typ] *)
  | IssueToken _ _ _ => ores jsval
  | RunHook _ _ => ores (option Session)
  | SetCookie _ => unit
  end.

Inductive event := Ev (c : call) (r : answer c).

(** * Tasks *)

Inductive task (A : Type) :=
  | Ret (a : A)
  | Ask (c : call) (k : answer c → task A).
Arguments Ret {A} a.
Arguments Ask {A} c k.

Fixpoint tbind {A B} (t : task A) (f : A → task B) : task B :=
  match t with
  | Ret a => f a
  | Ask c k => Ask c (λ r, tbind (k r) f)
  end.

Definition ask (c : call) : task (answer c) := Ask c Ret.

(** Tasks that may throw. *)
Notation rtask A := (task (result route_error A)).
Definition throw {A} (e : route_error) : rtask A := Ret (Err e).
Definition fail {A} (e : oidc_error) : rtask A := throw (RouteError e).
Definition rbind {A B} (t : rtask A) (f : A → rtask B) : rtask B :=
  tbind t (λ r, match r with Ok a => f a | Err e => throw e end).
(** [catch (error) { handler }] *)
Definition tcatch {A} (t : rtask A) (handler : route_error → rtask A) : rtask A :=
  tbind t (λ r, match r with Ok a => Ret (Ok a) | Err e => handler e end).
Definition pure_step {A} (r : ores A) : rtask A := Ret (lift_route r).
Definition answered {A} (t : task A) : rtask A := tbind t (λ a, Ret (Ok a)).
Definition fallible {A} (t : task (ores A)) : rtask A := tbind t (λ r, Ret (lift_route r)).

Declare Scope task_scope.
Delimit Scope task_scope with task.
Notation "'let!' x ':=' t 'in' k" := (rbind t (λ x, k))
  (at level 200, x pattern, t at level 100, k at level 200) : task_scope.
Notation "t ';!' k" := (rbind t (λ _, k)) (at level 100, k at level 200, right associativity) : task_scope.
Open Scope task_scope.

(** ** The calls, as the handlers make them *)

(** A store whose answer is not of the method's type has not answered it. *)
Definition store_rejection (o : outcome) : oidc_error :=
  match o with
  | Threw (VaultTypeError message) => TypeError message
  | Threw (VaultStoreError message) => PlainError message
  | Threw OidcVaultStoreConflictError => Foreign (JObj false [(js "name", JStr (js "OidcVaultStoreConflictError"))])
  | _ => Foreign JUndef
  end.

Definition store_record (op : vault_op) : rtask (option OneTimeRecord) :=
  tbind (ask (Store op)) (λ o : outcome, Ret (match o with GaveRecord r => Ok r | _ => Err (RouteError (store_rejection o)) end)).
Definition store_session (op : vault_op) : rtask (option Session) :=
  tbind (ask (Store op)) (λ o : outcome, Ret (match o with GaveSession s => Ok s | _ => Err (RouteError (store_rejection o)) end)).
Definition store_context (op : vault_op) : rtask (option RevocationContext) :=
  tbind (ask (Store op)) (λ o : outcome, Ret (match o with GaveContext c => Ok c | _ => Err (RouteError (store_rejection o)) end)).
Definition store_count (op : vault_op) : rtask Z :=
  tbind (ask (Store op)) (λ o : outcome, Ret (match o with GaveCount n => Ok n | _ => Err (RouteError (store_rejection o)) end)).
Definition store_bool (op : vault_op) : rtask bool :=
  tbind (ask (Store op)) (λ o : outcome, Ret (match o with GaveBool b => Ok b | _ => Err (RouteError (store_rejection o)) end)).
Definition store_done (op : vault_op) : rtask unit :=
  tbind (ask (Store op)) (λ o : outcome, Ret (match o with VaultSafety.Done => Ok tt | _ => Err (RouteError (store_rejection o)) end)).

Definition getNow : rtask num := answered (ask Clock).
Definition randomBytes (count : Z) : rtask (list Z) := answered (ask (RandomBytes count)).
Definition prove (c : RouteCall) : rtask (option VerifiedBinding) := ask (Proof c).
Definition resolve_metadata : rtask ProviderMetadata := fallible (ask Metadata).
Definition run_hook (present : bool) (h : Hook) (session : option Session) : rtask (option Session) :=
  if present then fallible (ask (RunHook h session)) else Ret (Ok session).
(** A cookie whose value cannot be encoded throws a [URIError]. *)
Definition set_cookie (header : option jsstr) : rtask unit :=
  match header with
  | Some h => answered (ask (SetCookie h))
  | None => fail (PlainError (js "URI malformed"))
  end.

(** * What holds along a task *)

Notation trace := (list event).

Section spec.
Context {A : Type}.
Variables (P : trace → call → Prop) (Q : trace → A → Prop).

(** Each call is made only after a trace [P] allows, and the task ends as [Q] says. *)
Fixpoint spec (tr : trace) (t : task A) : Prop :=
  match t with
  | Ret a => Q tr a
  | Ask c k => P tr c ∧ ∀ r, spec (tr ++ [Ev c r]) (k r)
  end.
End spec.

Lemma spec_bind {A B} P (Q : trace → B → Prop) (t : task A) (f : A → task B) tr :
  spec P (λ tr a, spec P Q tr (f a)) tr t → spec P Q tr (tbind t f).
Proof.
  revert tr. induction t as [a|c k IH]; intros tr; cbn; [done|]. intros [HP Hk]. split; [done|]. intros r. apply IH, Hk.
Qed.

Lemma spec_mono {A} (P P' : trace → call → Prop) (Q Q' : trace → A → Prop) (t : task A) tr :
  (∀ tr c, P tr c → P' tr c) → (∀ tr a, Q tr a → Q' tr a) → spec P Q tr t → spec P' Q' tr t.
Proof.
  intros HP HQ. revert tr. induction t as [a|c k IH]; intros tr; cbn; [by apply HQ|]. intros [H Hk]. split; [by apply HP|].
  intros r. apply IH, Hk.
Qed.

Lemma spec_and {A} P1 P2 Q1 Q2 (t : task A) tr :
  spec P1 Q1 tr t → spec P2 Q2 tr t → spec (λ tr c, P1 tr c ∧ P2 tr c) (λ tr a, Q1 tr a ∧ Q2 tr a) tr t.
Proof.
  revert tr. induction t as [a|c k IH]; intros tr; cbn; [done|]. intros [H1 K1] [H2 K2]. split; [done|]. intros r. by apply IH.
Qed.

(** The same, for a task that may throw: [Q] of its value, [E] of its error. *)
Definition ends {A} (Q : trace → A → Prop) (E : trace → route_error → Prop) (tr : trace) (r : result route_error A) : Prop :=
  match r with Ok a => Q tr a | Err e => E tr e end.

Lemma spec_rbind {A B} P (Q : trace → B → Prop) E (t : rtask A) (f : A → rtask B) tr :
  spec P (ends (λ tr a, spec P (ends Q E) tr (f a)) E) tr t → spec P (ends Q E) tr (rbind t f).
Proof.
  intros H. apply spec_bind. eapply spec_mono; [done| |exact H]. intros tr' [a|e]; done.
Qed.

Lemma spec_tcatch {A} P (Q : trace → A → Prop) E (t : rtask A) (h : route_error → rtask A) tr :
  spec P (ends Q (λ tr e, spec P (ends Q E) tr (h e))) tr t → spec P (ends Q E) tr (tcatch t h).
Proof.
  intros H. apply spec_bind. eapply spec_mono; [done| |exact H]. intros tr' [a|e]; done.
Qed.

(** ** One step of a handler

    The error's postcondition is [E]; a trace only grows, so what it contained it still contains. *)

Section rules.
Context {A B : Type}.
Variables (P : trace → call → Prop) (Q : trace → B → Prop) (E : trace → route_error → Prop).
Notation wp := (spec P (ends Q E)).

Lemma rule_ret tr (b : B) : Q tr b → wp tr (Ret (Ok b)).
Proof. done. Qed.
Lemma rule_throw tr e : E tr e → wp tr (throw e).
Proof. done. Qed.
Lemma rule_value tr (a : A) (k : A → rtask B) : wp tr (k a) → wp tr (rbind (Ret (Ok a)) k).
Proof. done. Qed.
Lemma rule_pure tr (r : ores A) (k : A → rtask B) :
  (∀ a, r = Ok a → wp tr (k a)) → (∀ e, r = Err e → E tr (RouteError e)) → wp tr (rbind (pure_step r) k).
Proof. intros Hk He. destruct r as [a|e]; cbn; auto. Qed.
Lemma rule_call tr c (k : answer c → rtask B) :
  P tr c → (∀ r, wp (tr ++ [Ev c r]) (k r)) → wp tr (rbind (answered (ask c)) k).
Proof. intros HP Hk. split; [done|]. intros r. apply Hk. Qed.
Lemma rule_now tr (k : num → rtask B) : P tr Clock → (∀ n, wp (tr ++ [Ev Clock n]) (k n)) → wp tr (rbind getNow k).
Proof. apply (rule_call tr Clock). Qed.
Lemma rule_random tr count (k : list Z → rtask B) :
  P tr (RandomBytes count) → (∀ bs, wp (tr ++ [Ev (RandomBytes count) bs]) (k bs)) → wp tr (rbind (randomBytes count) k).
Proof. apply (rule_call tr (RandomBytes count)). Qed.
Lemma rule_prove tr c (k : option VerifiedBinding → rtask B) :
  P tr (Proof c) → (∀ b, wp (tr ++ [Ev (Proof c) (Ok b)]) (k b)) →
  (∀ e, E (tr ++ [Ev (Proof c) (Err e)]) e) → wp tr (rbind (prove c) k).
Proof. intros HP Hk He. split; [done|]. intros [b|e]; cbn; auto. Qed.
Lemma rule_metadata tr (k : ProviderMetadata → rtask B) :
  P tr Metadata → (∀ m, wp (tr ++ [Ev Metadata (Ok m)]) (k m)) →
  (∀ e, E (tr ++ [Ev Metadata (Err e)]) (RouteError e)) → wp tr (rbind resolve_metadata k).
Proof. intros HP Hk He. split; [done|]. intros [m|e]; cbn; auto. Qed.
Lemma rule_post tr request (k : Z * ores jsstr → rtask B) :
  P tr (Post request) → (∀ r, wp (tr ++ [Ev (Post request) (Ok r)]) (k r)) →
  (∀ e, E (tr ++ [Ev (Post request) (Err e)]) (RouteError e)) → wp tr (rbind (fallible (ask (Post request))) k).
Proof. intros HP Hk He. split; [done|]. intros [m|e]; cbn; auto. Qed.
Lemma rule_user_info tr u a (k : Z * ores jsstr → rtask B) :
  P tr (GetUserInfo u a) → (∀ r, wp (tr ++ [Ev (GetUserInfo u a) (Ok r)]) (k r)) →
  (∀ e, E (tr ++ [Ev (GetUserInfo u a) (Err e)]) (RouteError e)) → wp tr (rbind (fallible (ask (GetUserInfo u a))) k).
Proof. intros HP Hk He. split; [done|]. intros [m|e]; cbn; auto. Qed.
Lemma rule_jwt tr t u a (k : jsval * jsval → rtask B) :
  P tr (JwtVerify t u a) → (∀ r, wp (tr ++ [Ev (JwtVerify t u a) (Ok r)]) (k r)) →
  (∀ e, E (tr ++ [Ev (JwtVerify t u a) (Err e)]) (RouteError e)) → wp tr (rbind (fallible (ask (JwtVerify t u a))) k).
Proof. intros HP Hk He. split; [done|]. intros [m|e]; cbn; auto. Qed.
Lemma rule_issue tr o s b (k : jsval → rtask B) :
  P tr (IssueToken o s b) → (∀ r, wp (tr ++ [Ev (IssueToken o s b) (Ok r)]) (k r)) →
  (∀ e, E (tr ++ [Ev (IssueToken o s b) (Err e)]) (RouteError e)) → wp tr (rbind (fallible (ask (IssueToken o s b))) k).
Proof. intros HP Hk He. split; [done|]. intros [m|e]; cbn; auto. Qed.
Lemma rule_hook tr h s (k : option Session → rtask B) :
  P tr (RunHook h s) → (∀ r, wp (tr ++ [Ev (RunHook h s) (Ok r)]) (k r)) →
  (∀ e, E (tr ++ [Ev (RunHook h s) (Err e)]) (RouteError e)) → wp tr (rbind (fallible (ask (RunHook h s))) k).
Proof. intros HP Hk He. split; [done|]. intros [m|e]; cbn; auto. Qed.
Lemma rule_cookie tr header (k : unit → rtask B) :
  (∀ h, header = Some h → P tr (SetCookie h)) → (∀ h, header = Some h → wp (tr ++ [Ev (SetCookie h) tt]) (k tt)) →
  (header = None → ∀ e, E tr e) → wp tr (rbind (set_cookie header) k).
Proof. intros HP Hk He. destruct header as [h|]; [|by apply He]. split; [by apply HP|]. intros []. by apply Hk. Qed.
Lemma rule_last tr (r : ores B) :
  (∀ b, r = Ok b → Q tr b) → (∀ e, r = Err e → E tr (RouteError e)) → wp tr (pure_step r).
Proof. intros Hk He. destruct r as [b|e]; cbn; auto. Qed.
Lemma rule_bind tr (t : rtask A) (k : A → rtask B) :
  spec P (ends (λ tr a, wp tr (k a)) E) tr t → wp tr (rbind t k).
Proof. apply spec_rbind. Qed.
End rules.

Section store_rules.
Context {B : Type}.
Variables (P : trace → call → Prop) (Q : trace → B → Prop) (E : trace → route_error → Prop).
Notation wp := (spec P (ends Q E)).
Variables (tr : trace) (op : vault_op).
Hypothesis HP : P tr (Store op).
Hypothesis HE : ∀ o e, E (tr ++ [Ev (Store op) o]) (RouteError e).

Lemma rule_record (k : option OneTimeRecord → rtask B) :
  (∀ r, wp (tr ++ [Ev (Store op) (GaveRecord r)]) (k r)) → wp tr (rbind (store_record op) k).
Proof. intros Hk. split; [done|]. intros []; cbn; auto. Qed.
Lemma rule_session (k : option Session → rtask B) :
  (∀ s, wp (tr ++ [Ev (Store op) (GaveSession s)]) (k s)) → wp tr (rbind (store_session op) k).
Proof. intros Hk. split; [done|]. intros []; cbn; auto. Qed.
Lemma rule_context (k : option RevocationContext → rtask B) :
  (∀ s, wp (tr ++ [Ev (Store op) (GaveContext s)]) (k s)) → wp tr (rbind (store_context op) k).
Proof. intros Hk. split; [done|]. intros []; cbn; auto. Qed.
Lemma rule_count (k : Z → rtask B) :
  (∀ n, wp (tr ++ [Ev (Store op) (GaveCount n)]) (k n)) → wp tr (rbind (store_count op) k).
Proof. intros Hk. split; [done|]. intros []; cbn; auto. Qed.
Lemma rule_bool (k : bool → rtask B) :
  (∀ b, wp (tr ++ [Ev (Store op) (GaveBool b)]) (k b)) → wp tr (rbind (store_bool op) k).
Proof. intros Hk. split; [done|]. intros []; cbn; auto. Qed.
Lemma rule_done (k : unit → rtask B) :
  wp (tr ++ [Ev (Store op) VaultSafety.Done]) (k tt) → wp tr (rbind (store_done op) k).
Proof. intros Hk. split; [done|]. intros []; cbn; auto. Qed.
End store_rules.

Lemma rule_done_last P (Q : trace → unit → Prop) E tr op :
  P tr (Store op) → (∀ o e, E (tr ++ [Ev (Store op) o]) (RouteError e)) → Q (tr ++ [Ev (Store op) VaultSafety.Done]) tt →
  spec P (ends Q E) tr (store_done op).
Proof. intros HP HE HQ. split; [done|]. intros []; cbn; auto. Qed.

(** Which calls a task may make at all. *)
Notation calls N := (spec (λ _ c, N c) (ends (λ _ _, True) (λ _ _, True))).

Lemma calls_rbind {A B} (N : call → Prop) tr (t : rtask A) (k : A → rtask B) :
  calls N tr t → (∀ tr a, calls N tr (k a)) → calls N tr (rbind t k).
Proof.
  intros Ht Hk. apply spec_bind. eapply spec_mono; [| |exact Ht]; [by intros|]. intros tr' [a|e] _; [apply Hk|done].
Qed.
Lemma calls_tcatch {A} (N : call → Prop) tr (t : rtask A) (h : route_error → rtask A) :
  calls N tr t → (∀ tr e, calls N tr (h e)) → calls N tr (tcatch t h).
Proof.
  intros Ht Hk. apply spec_bind. eapply spec_mono; [| |exact Ht]; [by intros|]. intros tr' [a|e] _; [done|apply Hk].
Qed.
(** The next call or check of a handler; what is left to prove is what may be called, and the rest. *)
Ltac hstep :=
  lazymatch goal with
  | |- spec _ _ _ (rbind (pure_step _) _) => apply rule_pure; [intros ? ?|try by intros]
  | |- spec _ _ _ (pure_step _) => apply rule_last; [intros ? ?|try by intros]
  | |- spec _ _ _ (rbind getNow _) => apply rule_now; [try exact I|intros ?]
  | |- spec _ _ _ (rbind (randomBytes _) _) => apply rule_random; [try exact I|intros ?]
  | |- spec _ _ _ (rbind (prove _) _) => apply rule_prove; [try exact I|intros ?|try by intros]
  | |- spec _ _ _ (rbind (store_record _) _) => apply rule_record; [try exact I|try by intros|intros ?]
  | |- spec _ _ _ (rbind (store_session _) _) => apply rule_session; [try exact I|try by intros|intros ?]
  | |- spec _ _ _ (rbind (store_context _) _) => apply rule_context; [try exact I|try by intros|intros ?]
  | |- spec _ _ _ (rbind (store_count _) _) => apply rule_count; [try exact I|try by intros|intros ?]
  | |- spec _ _ _ (rbind (store_bool _) _) => apply rule_bool; [try exact I|try by intros|intros ?]
  | |- spec _ _ _ (rbind (store_done _) _) => apply rule_done; [try exact I|try by intros|]
  | |- spec _ _ _ (rbind (Ret (Ok _)) _) => apply rule_value
  | |- spec _ _ _ (rbind resolve_metadata _) => apply rule_metadata; [try exact I|intros ?|try by intros]
  | |- spec _ _ _ (rbind (fallible (ask (Post _))) _) => apply rule_post; [try exact I|intros ?|try by intros]
  | |- spec _ _ _ (rbind (fallible (ask (GetUserInfo _ _))) _) => apply rule_user_info; [try exact I|intros ?|try by intros]
  | |- spec _ _ _ (rbind (fallible (ask (JwtVerify _ _ _))) _) => apply rule_jwt; [try exact I|intros ?|try by intros]
  | |- spec _ _ _ (rbind (fallible (ask (IssueToken _ _ _))) _) => apply rule_issue; [try exact I|intros ?|try by intros]
  | |- spec _ _ _ (rbind (fallible (ask (RunHook _ _))) _) => apply rule_hook; [try exact I|intros ?|try by intros]
  | |- spec _ _ _ (rbind (set_cookie _) _) => apply rule_cookie; [by intros|intros ? ?|try by intros]
  end.

(** The same for a check, naming what it returns and that it passed. *)
Tactic Notation "hcheck" simple_intropattern(a) simple_intropattern(H) :=
  apply rule_pure; [intros a H|try by intros].

Tactic Notation "hcheck_last" simple_intropattern(a) simple_intropattern(H) :=
  apply rule_last; [intros a H|try by intros].

(** An event of the trace so far. *)
Ltac traced := rewrite ?elem_of_app, ?list_elem_of_singleton, ?elem_of_cons; tauto.

(** Every task satisfies the specification that the trace only grows. *)
Lemma spec_grows {A} (t : task A) tr :
  spec (λ tr' _, ∃ more, tr' = tr ++ more) (λ tr' _, ∃ more, tr' = tr ++ more) tr t.
Proof.
  set (grown := λ tr', ∃ more, tr' = tr ++ more).
  assert (∀ tr0, grown tr0 → spec (λ tr' _, grown tr') (λ tr' _, grown tr') tr0 t) as H.
  { induction t as [a|c k IH]; intros tr0 Htr; cbn; [done|]. split; [done|]. intros r. apply IH.
    destruct Htr as [more ->]. exists (more ++ [Ev c r]). by rewrite app_assoc. }
  apply H. exists []. by rewrite app_nil_r.
Qed.

Lemma rule_calls {A B} (N : call → Prop) P (Q : trace → B → Prop) (E : trace → route_error → Prop) tr (t : rtask A) (k : A → rtask B) :
  (∀ tr c, N c → P tr c) → (∀ tr e, E tr e) → calls N tr t → (∀ more a, spec P (ends Q E) (tr ++ more) (k a)) →
  spec P (ends Q E) tr (rbind t k).
Proof.
  intros HN HE H Hk. apply rule_bind. eapply spec_mono; [| |exact (spec_and _ _ _ _ _ _ H (spec_grows t tr))]; cbn.
  - intros tr' c [Hc _]. by apply HN.
  - intros tr' [a|e] [_ [more ->]]; [apply Hk|apply HE].
Qed.

Lemma rule_any {A B} P (Q : trace → B → Prop) E tr (t : rtask A) (k : A → rtask B) :
  (∀ tr' c, P tr' c) → (∀ more e, E (tr ++ more) e) → (∀ more a, spec P (ends Q E) (tr ++ more) (k a)) →
  spec P (ends Q E) tr (rbind t k).
Proof.
  intros HP HE Hk. apply rule_bind. eapply spec_mono; [by intros ? ? _; apply HP| |exact (spec_grows t tr)].
  intros tr' r [more ->]. destruct r; cbn; auto.
Qed.

(** ** Readings of the clock *)

(** The store answered [op] with [o], and [now] is what the clock read next. *)
Definition read_at (tr : trace) (op : vault_op) (o : outcome) (now : num) : Prop :=
  ∃ before after, tr = before ++ Ev (Store op) o :: Ev Clock now :: after.

(** At that time [expiry], if there is one, is still to come. *)
Definition unexpired (now : num) (expiry : option Z) : Prop :=
  ∃ t, usable_epoch now = Some t ∧ ∀ e, expiry = Some e → t < e.

Lemma read_at_now tr op o now : read_at ((tr ++ [Ev (Store op) o]) ++ [Ev Clock now]) op o now.
Proof. exists tr, []. by rewrite <- app_assoc. Qed.
Lemma read_at_later tr more op o now : read_at tr op o now → read_at (tr ++ more) op o now.
Proof. intros (before & after & ->). exists before, (after ++ more). by rewrite <- app_assoc. Qed.
Lemma read_at_event tr op o now : read_at tr op o now → Ev (Store op) o ∈ tr.
Proof. intros (before & after & ->). rewrite elem_of_app, elem_of_cons. tauto. Qed.

(** An answer of the trace so far, with the reading of the clock that followed it. *)
Ltac clocked := repeat first [apply read_at_now | apply read_at_later].

(** The ways a task can go: the calls with the answers they got, and the end. *)
Inductive runs {A} : task A → trace → A → Prop :=
  | run_ret a : runs (Ret a) [] a
  | run_ask c k r tr a : runs (k r) tr a → runs (Ask c k) (Ev c r :: tr) a.

Lemma runs_inv {A} (t : task A) tr a : runs t tr a →
  match t with
  | Ret b => tr = [] ∧ a = b
  | Ask c k => ∃ r tr', tr = Ev c r :: tr' ∧ runs (k r) tr' a
  end.
Proof. destruct 1; eauto. Qed.

Lemma spec_runs {A} P (Q : trace → A → Prop) (t : task A) tr0 tr a :
  spec P Q tr0 t → runs t tr a →
  Q (tr0 ++ tr) a ∧ ∀ tr1 c r tr2, tr = tr1 ++ Ev c r :: tr2 → P (tr0 ++ tr1) c.
Proof.
  intros Hs Hr. revert tr0 Hs. induction Hr as [a|c k r tr a Hr IH]; intros tr0 Hs; cbn in Hs.
  - rewrite app_nil_r. split; [done|]. intros tr1 c r tr2 E. by destruct tr1.
  - destruct Hs as [HP Hk]. specialize (Hk r). destruct (IH _ Hk) as [HQ Hall]. rewrite <- app_assoc in HQ. split; [done|].
    intros [|e1 tr1] c' r' tr2 E.
    + injection E as E _. rewrite app_nil_r. by inversion E; subst.
    + injection E as <- E. specialize (Hall tr1 c' r' tr2 E). by rewrite <- app_assoc in Hall.
Qed.

(** A way it goes, when every call of the same kind is answered the same. *)
Fixpoint play {A} (h : ∀ c, answer c) (t : task A) : trace * A :=
  match t with
  | Ret a => ([], a)
  | Ask c k => let '(tr, a) := play h (k (h c)) in (Ev c (h c) :: tr, a)
  end.
Lemma play_runs {A} h (t : task A) : runs t (play h t).1 (play h t).2.
Proof. induction t as [a|c k IH]; cbn; [constructor|]. specialize (IH (h c)). destruct (play h (k (h c))). by constructor. Qed.

(** * Requests side by side *)

(** [t] goes on as [t'] after the calls of [tr]. *)
Inductive continues {A} : task A → trace → task A → Prop :=
  | continue_here t : continues t [] t
  | continue_call t c k r tr : continues t tr (Ask c k) → continues t (tr ++ [Ev c r]) (k r).

Lemma continues_app {A} (t t' : task A) tr a : continues t tr t' → ∀ tr', runs t' tr' a → runs t (tr ++ tr') a.
Proof.
  induction 1 as [t|t c k r tr _ IH]; intros tr' Hr; [done|]. rewrite <- app_assoc. apply IH. by constructor.
Qed.

Section world.
Variable parse_url : jsstr → option URL.
Context {A : Type}.
Notation exec := (vault_exec parse_url).

Record world := mkWorld {
  w_vault : Vault;
  w_tasks : list (task A);
  w_history : list (nat * event)      (** the calls made so far, with the request that made them *)
}.

(** The memory store answers a call of its methods; every other answer is possible. *)
Definition serves (v : Vault) (c : call) : answer c → Vault → Prop :=
  match c with
  | Store op => λ o v', ∃ n1 n2, exec op n1 n2 v = Some (o, v')
  | _ => λ _ v', v' = v
  end.

(** What others do with the store meanwhile (a proof's reservation included), and the next call of a
    request. Nobody performs a forbidden operation. *)
Definition performs (forbidden : vault_op → Prop) (c : call) : Prop := match c with Store op => ¬ forbidden op | _ => True end.
Inductive wstep (forbidden : vault_op → Prop) : world → world → Prop :=
  | step_others v ts h op n1 n2 o v' :
      ¬ forbidden op → exec op n1 n2 v = Some (o, v') → wstep forbidden (mkWorld v ts h) (mkWorld v' ts h)
  | step_request v ts h i c k r v' :
      ts !! i = Some (Ask c k) → performs forbidden c → serves v c r v' →
      wstep forbidden (mkWorld v ts h) (mkWorld v' (<[i := k r]> ts) (h ++ [(i, Ev c r)])).

Definition events_of (i : nat) (h : list (nat * event)) : trace := omap (λ ie, if decide (ie.1 = i) then Some ie.2 else None) h.

Lemma events_of_snoc j h i e : events_of j (h ++ [(i, e)]) = events_of j h ++ if decide (i = j) then [e] else [].
Proof. unfold events_of. rewrite omap_app. f_equal. simpl. by destruct (decide (i = j)). Qed.

Lemma serves_inv v c r v' : vault_inv v → serves v c r v' → vault_inv v'.
Proof.
  intros Hv H. destruct c as [op| | | | | | | | | |]; cbn in H; try (by subst). destruct H as (n1 & n2 & E).
  destruct (exec_total parse_url op n1 n2 v Hv) as (o & v1 & E1 & H1). congruence.
Qed.

(** Each request is where its own calls took it. *)
Lemma wsteps_tasks forbidden v ts w : rtc (wstep forbidden) (mkWorld v ts []) w →
  ∀ i t, w_tasks w !! i = Some t → ∃ t0, ts !! i = Some t0 ∧ continues t0 (events_of i (w_history w)) t.
Proof.
  intros H. remember (mkWorld v ts []) as w0 eqn:E0. revert H.
  assert (∀ w0 w, rtc (wstep forbidden) w0 w →
    (∀ i t, w_tasks w0 !! i = Some t → ∃ t0, ts !! i = Some t0 ∧ continues t0 (events_of i (w_history w0)) t) →
    ∀ i t, w_tasks w !! i = Some t → ∃ t0, ts !! i = Some t0 ∧ continues t0 (events_of i (w_history w)) t) as Hgen.
  { clear. intros w0 w H. induction H as [|w w1 w2 Hs _ IH]; [done|]. intros Hw. apply IH. clear IH.
    destruct Hs as [v0 ts0 h op n1 n2 o v' _ E|v0 ts0 h i c k r v' Hi _ E]; [exact Hw|]. cbn [w_tasks w_history] in *.
    intros j t Hj. rewrite events_of_snoc.
    destruct (decide (i = j)) as [<-|Hne].
    - rewrite list_lookup_insert_eq in Hj by (by eapply lookup_lt_Some). injection Hj as <-.
      destruct (Hw i _ Hi) as (t0 & Ht0 & Hc). exists t0. split; [done|]. by econstructor.
    - rewrite list_lookup_insert_ne in Hj by done. rewrite app_nil_r. by apply Hw. }
  intros H. apply (Hgen w0 w H). subst. intros i t Hi. exists t. split; [done|]. constructor.
Qed.

(** Request [i] alone, for at most [fuel] calls, at a given time of the store's clock. *)
Fixpoint drive (allowed : vault_op → bool) (h : ∀ c, answer c) (clock : num) (i fuel : nat) (w : world) : world :=
  match fuel with
  | O => w
  | S fuel =>
      match w_tasks w !! i with
      | Some (Ask c k) =>
          let next (r : answer c) (v : Vault) :=
            drive allowed h clock i fuel (mkWorld v (<[i := k r]> (w_tasks w)) (w_history w ++ [(i, Ev c r)])) in
          (match c return (answer c → Vault → world) → world with
           | Store op => λ next,
               if allowed op then match exec op clock clock (w_vault w) with Some (o, v) => next o v | None => w end else w
           | c => λ next, next (h c) (w_vault w)
           end) next
      | _ => w
      end
  end.

Lemma drive_steps forbidden allowed h clock i fuel w : (∀ op, allowed op = true → ¬ forbidden op) →
  rtc (wstep forbidden) w (drive allowed h clock i fuel w).
Proof.
  intros Ha. revert w. induction fuel as [|fuel IH]; intros w; cbn [drive]; [done|].
  destruct (w_tasks w !! i) as [[a|c k]|] eqn:E; [done| |done]. destruct w as [v ts hist]. cbn [w_tasks w_vault w_history] in *.
  destruct c as [op| | | | | | | | | |]; try (eapply rtc_l; [|apply IH]; econstructor; [exact E|done|done]).
  destruct (allowed op) eqn:Eo; [|done]. destruct (exec op clock clock v) as [[o v']|] eqn:Ee; [|done].
  eapply rtc_l; [|apply IH]. econstructor; [exact E|by apply Ha|by eexists _, _].
Qed.

(** ** What only one of them gets *)

(** A kind of answer the store gives once. *)
Record SingleUse := mkSingleUse {
  wins : vault_op → outcome → Prop;
  spent : Vault → Prop;
  renews : vault_op → Prop;
  su_wins op n1 n2 v o v' : vault_inv v → exec op n1 n2 v = Some (o, v') → wins op o → ¬ spent v ∧ spent v';
  su_keeps op n1 n2 v o v' : vault_inv v → exec op n1 n2 v = Some (o, v') → ¬ renews op → spent v → spent v'
}.

Definition is_win (s : SingleUse) (e : event) : Prop :=
  match e with Ev c r => match c return answer c → Prop with Store op => wins s op | _ => λ _, False end r end.

Lemma single_win (s : SingleUse) v ts w : vault_inv v → rtc (wstep (renews s)) (mkWorld v ts []) w →
  ∀ p q i j e1 e2, w_history w !! p = Some (i, e1) → w_history w !! q = Some (j, e2) → is_win s e1 → is_win s e2 → p = q.
Proof.
  intros Hv H.
  assert (∀ w0 w, rtc (wstep (renews s)) w0 w →
    vault_inv (w_vault w0) →
    (∀ p q i j e1 e2, w_history w0 !! p = Some (i, e1) → w_history w0 !! q = Some (j, e2) → is_win s e1 → is_win s e2 → p = q) →
    (∀ p i e, w_history w0 !! p = Some (i, e) → is_win s e → spent s (w_vault w0)) →
    ∀ p q i j e1 e2, w_history w !! p = Some (i, e1) → w_history w !! q = Some (j, e2) → is_win s e1 → is_win s e2 → p = q) as Hgen.
  { clear. intros w0 w H. induction H as [|w w1 w2 Hs _ IH]; [done|]. intros Hv Huniq Hspent.
    assert (vault_inv (w_vault w1)) as Hv1.
    { destruct Hs as [v ts h op n1 n2 o v' _ E|v ts h i c k r v' _ _ E]; cbn [w_vault] in *; [|by eapply serves_inv].
      destruct (exec_total parse_url op n1 n2 v Hv) as (o1 & v1 & E1 & H1). congruence. }
    destruct Hs as [v ts h op n1 n2 o v' Hf E|v ts h i c k r v' Hi Hf E]; cbn [w_vault w_tasks w_history] in *.
    - apply IH; [done|done|]. intros p i e Hp Hwin. eapply su_keeps; [exact Hv|exact E|done|]. by eapply Hspent.
    - assert (∀ p j e, (h ++ [(i, Ev c r)]) !! p = Some (j, e) → h !! p = Some (j, e) ∨ p = length h ∧ e = Ev c r) as Hsplit.
      { intros p j e Hp. apply lookup_app_Some in Hp as [Hp|[Hle Hp]]; [by left|]. right.
        apply list_lookup_singleton_Some in Hp as [Hp [= _ <-]]. split; [lia|done]. }
      assert (is_win s (Ev c r) → ¬ spent s v ∧ spent s v') as Hnew.
      { intros Hwin. destruct c as [op| | | | | | | | | |]; try done. destruct E as (n1 & n2 & E). by eapply (su_wins s op n1 n2 v r). }
      assert (spent s v → spent s v') as Hkeep.
      { intros Hsp. destruct c as [op| | | | | | | | | |]; cbn in E; try (by subst). destruct E as (n1 & n2 & E). by eapply (su_keeps s op n1 n2 v r). }
      apply IH; [done| |].
      + intros p q i1 j1 e1 e2 Hp Hq H1 H2. destruct (Hsplit _ _ _ Hp) as [Hp'|[-> ->]], (Hsplit _ _ _ Hq) as [Hq'|[-> ->]]; [by eapply Huniq| | |done].
        * destruct (Hnew H2) as [Hno _]. destruct Hno. by eapply Hspent.
        * destruct (Hnew H1) as [Hno _]. destruct Hno. by eapply Hspent.
      + intros p j e Hp Hwin. destruct (Hsplit _ _ _ Hp) as [Hp'|[-> ->]]; [apply Hkeep; by eapply Hspent|by apply Hnew]. }
  apply (Hgen _ _ H); [done| |]; cbn; by intros.
Qed.

Lemma events_of_in i h e : e ∈ events_of i h → ∃ p, h !! p = Some (i, e).
Proof.
  unfold events_of. intros ([j e'] & Hin & He)%list_elem_of_omap. cbn in He. destruct (decide (j = i)) as [->|]; [|done].
  injection He as ->. by apply list_elem_of_lookup.
Qed.

(** Of requests of a kind that each need the answer to succeed, no two succeed. *)
Lemma single_winner (s : SingleUse) (kind : task A → Prop) (good : A → Prop) v ts w i j ai aj : vault_inv v →
  Forall kind ts → rtc (wstep (renews s)) (mkWorld v ts []) w →
  (∀ t, kind t → spec (λ _ _, True) (λ tr a, good a → ∃ e, e ∈ tr ∧ is_win s e) [] t) →
  w_tasks w !! i = Some (Ret ai) → w_tasks w !! j = Some (Ret aj) → good ai → good aj → i = j.
Proof.
  intros Hv Hkind Hw Hspec Hai Haj Hgi Hgj.
  assert (∀ n a, w_tasks w !! n = Some (Ret a) → good a → ∃ p e, w_history w !! p = Some (n, e) ∧ is_win s e) as Hwon.
  { intros n a Ha Hg. destruct (wsteps_tasks _ _ _ _ Hw n _ Ha) as (t & Ht & Hc).
    pose proof (continues_app _ _ _ a Hc [] (run_ret a)) as Hr. rewrite app_nil_r in Hr.
    rewrite Forall_forall in Hkind. pose proof (Hspec t (Hkind t (list_elem_of_lookup_2 _ _ _ Ht))) as Hs.
    destruct (spec_runs _ _ _ _ _ _ Hs Hr) as [HQ _]. destruct (HQ Hg) as (e & He & Hwin).
    apply events_of_in in He as [p Hp]. eauto. }
  destruct (Hwon i ai) as (p & e1 & Hp & H1); [done..|]. destruct (Hwon j aj) as (q & e2 & Hq & H2); [done..|].
  assert (p = q) as -> by (by eapply single_win). congruence.
Qed.
End world.
