(* ===== verification/VaultHandler.v ===== *)
(** express-oidc-vault: what the handlers of [index.ts] share. The options and the request they read, the
    session identifier of a request, opaque identifiers, the provider's calls, and the issuance of a local
    token with its rollback ([token-issuance.ts]).

    A handler answers with a value; the [Cache-Control] header every answer carries, and the observers
    ([onTokenOutcome], [onDpopDiagnostic]) are left out. *)

From S2P Require Import Prelude JsValue JsJson AttestTypes AttestCanonical AttestVerify JsBuffer JsMap VaultBinding VaultStore VaultSafety DpopNonce DpopPolicy DpopChallenge DpopProof VaultCookies VaultRoute VaultRecords VaultOrigins VaultProvider ApiAccessToken RouteTask.

(** * Records that have not expired *)

Lemma session_lives raw id now s : snapshotVaultSession raw id now = Ok s → unexpired now (ss_expiresAt s).
Proof.
  intros (t & Ht & H)%snapshot_session_spec. exists t. split; [done|]. intros e He. apply sp_expiry in H. rewrite He in H. by destruct H.
Qed.

Lemma lifetime_lives record now bad times : record_lifetime record now bad = Ok times → unexpired now (Some times.2).
Proof.
  unfold record_lifetime. intros H. res_step H as c Hc. res_step H as e He. res_step H as t Ht. res_step H as u Hg. injection H as <-.
  apply or_invalid_Ok in Ht. apply guard_Ok in Hg. exists t. split; [done|]. intros e' [= <-]. lia.
Qed.

Lemma code_lives raw code now s : snapshotVaultExchangeCode raw code now = Ok s → unexpired now (Some (cs_expiresAt s)).
Proof.
  unfold snapshotVaultExchangeCode. intros H. res_step H as ? _. res_step H as ? _. res_step H as ? _. res_step H as ? _.
  res_step H as times Ht. res_step H as m _. injection H as <-. by eapply lifetime_lives.
Qed.

Lemma transaction_lives raw state now s : snapshotAuthorizationTransaction raw state now = Ok s → unexpired now (Some (ts_expiresAt s)).
Proof.
  unfold snapshotAuthorizationTransaction. intros H. do 5 (res_step H as ? _). res_step H as times Ht.
  do 4 (res_step H as ? _). injection H as <-. by eapply lifetime_lives.
Qed.

(** * The router *)

(** [ResolvedOidcVaultOptions], as far as the handlers read it. A proof verifier exists exactly when
    [ro_deviceBinding] does. *)
Record RouteOptions := mkRouteOptions {
  ro_vault : VaultOptions;
  ro_deviceBinding : option ResolvedDeviceBindingOptions;
  ro_fingerprint : option jsstr;                (** [fingerprintRecognition.headerName] *)
  ro_transactionCookie : TransactionCookie;
  ro_callable : jsstr → bool;                   (** [typeof storeProvider[name] === 'function'] *)
  ro_tokenIssuer : bool;
  ro_hooks : Hook → bool;
  ro_lifetimes : LifetimeOptions;
  ro_fetchUserInfo : bool;                      (** [fetchUserInfo !== false] *)
  ro_frontendRedirectUri : option jsstr;
  ro_postLogoutRedirectUri : option jsstr
}.

Record Request := mkRequest {
  rq_head : RequestHead;
  rq_cookie : jsval;                            (** [req.headers.cookie] *)
  rq_method : jsstr;
  rq_originalUrl : jsval;
  rq_isJson : bool;                             (** [req.is('application/json')] *)
  rq_query : jsval;
  rq_body : jsval
}.

Definition proving (options : RouteOptions) : bool := bool_decide (is_Some (ro_deviceBinding options)).
Definition recognizing (options : RouteOptions) : bool := bool_decide (is_Some (ro_fingerprint options)).
Definition can (options : RouteOptions) (capability : string) : bool := ro_callable options (js capability).

(** [captureVaultRouteProof(req)] *)
Definition captured_proof (rq : Request) : CapturedProof :=
  captureVaultRouteProof (hd_rawHeaders (rq_head rq)) (rq_method rq) (rq_originalUrl rq).
Definition body_field (rq : Request) (name : string) : jsval := get_field (getBody (rq_body rq)) (js name).

(** A snapshot read for a check only. *)
Definition recognition_of (options : RouteOptions) (metadata : jsval) : ores (option jsstr) :=
  if recognizing options then snapshotFingerprintRecognition metadata else Ok None.

(** [options.fingerprintRecognition !== undefined && !fingerprintRecognitionMatches(…)] *)
Definition assert_recognition (options : RouteOptions) (metadata : jsval) (recognition : option jsstr) (error : oidc_error)
    : ores unit :=
  if recognizing options then
    let* actual := snapshotFingerprintRecognition metadata in guard (fingerprintRecognitionMatches actual recognition) error
  else Ok tt.

Definition isStoreConflictError (error : oidc_error) : bool :=
  match error with
  | Foreign v => js_strict_eq (get_field v (js "name")) (JStr (js "OidcVaultStoreConflictError"))
  | _ => false
  end.

Definition createOpaqueId (prefix : string) : rtask jsstr :=
  let! random := randomBytes 16 in Ret (Ok (js prefix ++ js "_" ++ base64urlEncode random)).

(** [proofVerifier === undefined ? undefined : await proofVerifier.verify(capturedProof!, binding)] *)
Definition prove_session (options : RouteOptions) (rq : Request) (jkt : option jsstr) : rtask (option VerifiedBinding) :=
  if proving options then prove (Verify (captured_proof rq) (binding_value jkt)) else Ret (Ok None).

Lemma rule_prove_session {B} P (Q : trace → B → Prop) (E : trace → route_error → Prop) options rq jkt tr (k : option VerifiedBinding → rtask B) :
  (∀ tr c, P tr (Proof c)) → (∀ tr e, E tr e) →
  (∀ more verified,
     (is_Some (ro_deviceBinding options) → Ev (Proof (Verify (captured_proof rq) (binding_value jkt))) (Ok verified) ∈ tr ++ more) →
     spec P (ends Q E) (tr ++ more) (k verified)) →
  spec P (ends Q E) tr (rbind (prove_session options rq jkt) k).
Proof.
  intros HP HE Hk. unfold prove_session. destruct (proving options) eqn:Ep.
  - apply rule_prove; [done| |done]. intros b. apply Hk. intros _. traced.
  - apply rule_value. specialize (Hk [] None). rewrite app_nil_r in Hk. apply Hk. intros Hs.
    unfold proving in Ep. by apply bool_decide_eq_false in Ep.
Qed.

(** [copyVaultSession(session, omitRecognition)] of a snapshot. *)
Definition copyVaultSession (omitRecognition : bool) (s : SessionSnapshot) : Session :=
  let omitted := omits_recognition omitRecognition in
  session_of (mkSessionSnapshot (ss_sessionId s) (ss_logicalSessionId s) (ss_subject s) (ss_providerSessionId s)
    (ss_provider s) (ss_deviceBinding s) (ss_refreshToken s) (ss_idToken s) (ss_accessToken s) (ss_scope s)
    (ss_expiresAt s) (ss_createdAt s) (ss_updatedAt s) (portable_value omitted (ss_user s)) (portable_value omitted (ss_metadata s))).

(** [session.logicalSessionId ?? session.sessionId] *)
Definition lineage_of (s : SessionSnapshot) : jsstr := default (ss_sessionId s) (ss_logicalSessionId s).

(** * The provider *)

Definition requestToken (metadata : ProviderMetadata) (grant_type : string) (params : list (jsstr * jsstr)) : rtask jsval :=
  let! request := pure_step (prepare_token_request metadata ((js "grant_type", js grant_type) :: params)) in
  let! response := fallible (ask (Post request)) in
  pure_step (read_token_response (js grant_type) response.1 response.2).

Definition fetchUserInfo (metadata : ProviderMetadata) (accessToken : jsstr) : rtask jsval :=
  match pm_userInfoEndpoint metadata with
  | None | Some [] => Ret (Ok (JObj true []))
  | Some endpoint =>
      let! response := fallible (ask (GetUserInfo endpoint accessToken)) in
      pure_step (read_user_info response.1 response.2)
  end.

Definition verifyIdToken (metadata : ProviderMetadata) (idToken : jsstr) (nonce : option jsstr) : rtask jsval :=
  pure_step (check_key_source metadata "id_token") ;!
  let! verified := fallible (ask (JwtVerify idToken (pm_clientId metadata) (pm_issuer metadata))) in
  pure_step (check_id_token metadata nonce verified.1) ;!
  Ret (Ok verified.1).

Definition verifyBackchannelLogoutToken (metadata : ProviderMetadata) (logoutToken : jsstr) : rtask jsval :=
  pure_step (check_key_source metadata "logout_token") ;!
  let! verified := fallible (ask (JwtVerify logoutToken (pm_clientId metadata) (pm_issuer metadata))) in
  pure_step (check_logout_token verified.2 verified.1) ;!
  Ret (Ok verified.1).

Definition shouldFetchUserInfo (options : RouteOptions) (metadata : ProviderMetadata) : bool :=
  ro_fetchUserInfo options && match pm_userInfoEndpoint metadata with None | Some [] => false | _ => true end.

(** * Sessions and tokens *)

Section shared.
Variable parse_url : jsstr → option URL.
Variable decode_header : jsstr → option jsval.
Variable decode_claims : jsstr → option jsval.
Variable options : RouteOptions.

(** The action is [refresh] or [logout]; [label] is its capitalized name. *)
Definition getSessionIdFromRequest (rq : Request) (label : string) : ores jsstr :=
  if usesCookieTransport (ro_vault options) then
    let* id := getSessionIdFromCookie parse_url (as_string (rq_cookie rq)) (ro_vault options) in
    match id with
    | Some ((_ :: _) as id) => Ok id
    | _ => Err (OidcVaultHttpError 400 (js "OIDC_VAULT_MISSING_SESSION_ID") (js label ++ js " request is missing the session cookie.")
                  (js label ++ js " request is missing the session cookie."))
    end
  else getRequiredString (body_field rq "sessionId") (js label ++ js " request is missing sessionId.")
         (js "OIDC_VAULT_MISSING_SESSION_ID") 400.

Definition clear_session_cookie : rtask unit :=
  if usesCookieTransport (ro_vault options) then set_cookie (clearSessionCookie parse_url (ro_vault options)) else Ret (Ok tt).
Definition set_session_cookie (id : jsstr) : rtask unit :=
  if usesCookieTransport (ro_vault options) then set_cookie (setSessionCookie parse_url (ro_vault options) id) else Ret (Ok tt).
(** [if (cookieSecret !== undefined) clearTransactionCookie(res, …)] *)
Definition clear_transaction_cookie (cookieSecret : option jsstr) : rtask unit :=
  match cookieSecret with
  | Some _ => set_cookie (clearTransactionCookie (ro_transactionCookie options))
  | None => Ret (Ok tt)
  end.

Definition withIssuedToken (session : SessionSnapshot) (operation : TokenOperation) (verified : option VerifiedBinding)
    : rtask (option IssuedToken) :=
  let! binding := pure_step (resolveVerifiedDeviceBinding (ro_deviceBinding options) (binding_value (ss_deviceBinding session))
                               (verified_value verified)) in
  if negb (ro_tokenIssuer options) then Ret (Ok None)
  else
    tcatch
      (let! result := fallible (ask (IssueToken operation (copyVaultSession true session) binding)) in
       let! token := pure_step (check_issued decode_header decode_claims binding result) in
       Ret (Ok (Some token)))
      (λ e, store_count (OpDeleteByLogical (lineage_of session)) ;! clear_session_cookie ;! throw e).

(** A hook before the commit: its error is the handler's. After it: nobody's, [onError] apart. *)
Definition callHook (hook : Hook) (session : option Session) : rtask (option Session) :=
  run_hook (ro_hooks options hook) hook session.
Definition callPostCommitHook (hook : Hook) (session : option Session) : rtask unit :=
  tcatch (callHook hook session ;! Ret (Ok tt))
    (λ _, tcatch (callHook OnError session ;! Ret (Ok tt)) (λ _, Ret (Ok tt))).
End shared.

(** * What is issued *)

Section issued.
Variable parse_url : jsstr → option URL.
Variable decode_header : jsstr → option jsval.
Variable decode_claims : jsstr → option jsval.
Variable options : RouteOptions.

(** A token for a session: DPoP with the session's own key, confirmed in the token itself, or never DPoP. *)
Definition constrained (jkt : option jsstr) (t : IssuedToken) : Prop :=
  match jkt with
  | Some jkt => it_tokenType t = Some DPoP
      ∧ ∃ claims, decode_claims (it_accessToken t) = Some claims ∧ get_field claims (js "cnf") = JObj true [(js "jkt", JStr jkt)]
  | None => it_tokenType t = None ∨ it_tokenType t = Some Bearer
  end.

Lemma check_issued_constrained binding result t :
  check_issued decode_header decode_claims binding result = Ok t → constrained (vb_jkt <$> binding) t.
Proof.
  unfold check_issued. intros H. res_step H as ? _. res_step H as token _. res_step H as seconds _.
  res_step H as ? Ht. res_step H as ? Hb. injection H as <-. destruct binding as [b|]; cbn [fmap option_fmap option_map constrained].
  - res_step Hb as ? Hd. apply guard_Ok, bool_decide_eq_true in Hd. res_step Hb as ? _. split; [exact Hd|].
    cbn [it_accessToken]. unfold assertIssuedBoundJwt in Hb. res_step Hb as ? _. destruct (decode_header token); [|done].
    destruct (decode_claims token) as [claims|] eqn:Ec; [|done]. exists claims. split; [done|].
    res_step Hb as ? _. res_step Hb as c Hc. res_step Hb as ? He. apply guard_Ok, jsstr_eqb_true in He as ->.
    by apply snapshot_jkt in Hc as [-> _].
  - apply guard_Ok in Hb. cbn [it_tokenType]. apply orb_true_iff in Hb as [Hb|Hb%bool_decide_eq_true]; [left|by right].
    destruct (get_field result (js "tokenType")); try done.
Qed.

(** A session whose binding is known to be canonical, as a snapshot's is. *)
Lemma resolved_binding policy stored verified b :
  (∀ jkt, stored = Some jkt → isCanonicalDpopJkt (JStr jkt) = true) →
  resolveVerifiedDeviceBinding policy (binding_value stored) verified = Ok b → vb_jkt <$> b = stored.
Proof.
  intros Hc H. unfold resolveVerifiedDeviceBinding in H. res_step H as s Hs. res_step H as u _.
  assert (s = stored) as ->.
  { destruct stored as [jkt|]; cbn [binding_value] in Hs.
    - rewrite snapshot_snapshot in Hs by (by apply Hc). by injection Hs as <-.
    - by injection Hs as <-. }
  destruct (is_undef verified); [destruct stored; [done|]; by injection H as <-|].
  res_step H as pb _. destruct pb as [jkt|]; [|done].
  destruct (dpop_algorithm (get_field verified (js "alg"))); [|done]. destruct policy as [p|]; [|done]. res_step H as u' _.
  destruct stored as [original|]; [|by injection H as <-]. res_step H as u2 _. by injection H as <-.
Qed.

(** How a token is issued after the trace [tr]. *)
Definition issued_after (session : SessionSnapshot) (operation : TokenOperation) (tr tr' : trace) (o : option IssuedToken) : Prop :=
  match o with
  | None => ro_tokenIssuer options = false ∧ tr' = tr
  | Some t => ∃ binding result, tr' = tr ++ [Ev (IssueToken operation (copyVaultSession true session) binding) (Ok result)]
      ∧ vb_jkt <$> binding = ss_deviceBinding session ∧ constrained (ss_deviceBinding session) t
  end.
Definition mismatched (session : SessionSnapshot) (verified : option VerifiedBinding) : Prop :=
  ∃ e, resolveVerifiedDeviceBinding (ro_deviceBinding options) (binding_value (ss_deviceBinding session)) (verified_value verified) = Err e.
Definition revoked_after (session : SessionSnapshot) (operation : TokenOperation) (verified : option VerifiedBinding)
    (tr tr' : trace) : Prop :=
  (tr' = tr ∧ mismatched session verified) ∨ ∃ binding r o rest,
    tr' = tr ++ Ev (IssueToken operation (copyVaultSession true session) binding) r
                :: Ev (Store (OpDeleteByLogical (lineage_of session))) o :: rest.

Lemma issuance_spec (P : trace → call → Prop) session operation verified tr :
  (∀ jkt, ss_deviceBinding session = Some jkt → isCanonicalDpopJkt (JStr jkt) = true) →
  (∀ binding, P tr (IssueToken operation (copyVaultSession true session) binding)) →
  (∀ tr' h, P tr' (SetCookie h)) → (∀ tr' l, P tr' (Store (OpDeleteByLogical l))) →
  spec P (ends (issued_after session operation tr) (λ tr' _, revoked_after session operation verified tr tr')) tr
    (withIssuedToken parse_url decode_header decode_claims options session operation verified).
Proof.
  intros Hc Hi Hcookie Hdel. unfold withIssuedToken. hstep; [|intros e He; left; split; [done|by exists e]].
  match goal with Hb : _ = Ok ?b |- _ => rename b into binding; apply (resolved_binding _ _ _ _ Hc) in Hb as Hb' end.
  destruct (ro_tokenIssuer options) eqn:Eo; cbn [negb]; [|by apply rule_ret]. apply spec_tcatch.
  set (asked := λ r, tr ++ [Ev (IssueToken operation (copyVaultSession true session) binding) r]).
  set (E := λ (tr' : trace) (_ : route_error), revoked_after session operation verified tr tr').
  assert (∀ r e, spec P (ends (issued_after session operation tr) E) (asked r)
    (store_count (OpDeleteByLogical (lineage_of session)) ;! clear_session_cookie parse_url options ;! throw e)) as Hback.
  { intros r e. assert (∀ o more e', E ((asked r ++ [Ev (Store (OpDeleteByLogical (lineage_of session))) o]) ++ more) e') as Hrev.
    { intros. right. eexists _, _, _, more. unfold asked. rewrite <- !app_assoc. reflexivity. }
    apply rule_count; [apply Hdel|intros o e'; specialize (Hrev o [] (RouteError e')); by rewrite app_nil_r in Hrev|].
    intros n. unfold clear_session_cookie. destruct (usesCookieTransport _).
    - apply rule_cookie; [intros; apply Hcookie|intros; apply rule_throw; apply Hrev|]. intros _ e'.
      specialize (Hrev (GaveCount n) [] e'). by rewrite app_nil_r in Hrev.
    - apply rule_value, rule_throw. specialize (Hrev (GaveCount n) [] e). by rewrite app_nil_r in Hrev. }
  apply rule_issue; [apply Hi| |intros e; apply Hback]. intros r. hstep; [|intros e _; apply Hback]. apply rule_ret.
  eexists _, _. split; [done|]. split; [done|].
  match goal with Ht : check_issued _ _ _ _ = Ok _ |- _ => apply check_issued_constrained in Ht end. congruence.
Qed.

(** Issuing a token for a session either does nothing, because no issuer is configured or the proof of this
    request is not the session's, or asks the issuer exactly once. What it hands out then is constrained to the
    session's key; and on any refusal of the issuer, or of its answer, the very next thing is to revoke the
    whole lineage of the session, so that no half-issued session survives. *)
Theorem issuance_rolls_back (session : SessionSnapshot) (operation : TokenOperation) (verified : option VerifiedBinding)
    (tr : list event) (a : result route_error (option IssuedToken)) :
  (∀ jkt, ss_deviceBinding session = Some jkt → isCanonicalDpopJkt (JStr jkt) = true) →
  runs (withIssuedToken parse_url decode_header decode_claims options session operation verified) tr a →
  match a with
  | Ok None => ro_tokenIssuer options = false ∧ tr = []
  | Ok (Some t) =>
      ∃ binding result, tr = [Ev (IssueToken operation (copyVaultSession true session) binding) (Ok result)]
        ∧ vb_jkt <$> binding = ss_deviceBinding session ∧ constrained (ss_deviceBinding session) t
  | Err e =>
      tr = [] ∧ mismatched session verified ∨ ∃ binding r o rest,
        tr = Ev (IssueToken operation (copyVaultSession true session) binding) r
             :: Ev (Store (OpDeleteByLogical (lineage_of session))) o :: rest
  end.
Proof.
  intros Hc Hr. pose proof (issuance_spec (λ _ _, True) session operation verified [] Hc) as Hs.
  eapply spec_runs in Hr as [H _]; [|by apply Hs]. by destruct a as [[]|].
Qed.
End issued.
