(* ===== verification/VaultExchange.v ===== *)
(** express-oidc-vault: [createExchangeHandler] and [createRefreshHandler] of [index.ts], and what holds of
    every way they can go, over any store, provider, application and proof verifier. *)

From S2P Require Import Prelude JsValue JsJson AttestTypes AttestCanonical AttestVerify JsBuffer JsMap HeapAdmission VaultBinding VaultDpop VaultTickets VaultStore VaultSafety VaultGuarantees DpopNonce DpopPolicy DpopChallenge DpopProof VaultCookies VaultRoute VaultRecords VaultOrigins VaultProvider RouteTask VaultHandler.

Section handlers.
Variable parse_url : jsstr → option URL.
Variable origin_of : URL → jsstr.
Variable sha256 : list Z → list Z.
Variable decode_header : jsstr → option jsval.
Variable decode_claims : jsstr → option jsval.
Variable options : RouteOptions.
Variable config : ResolvedConfig.
Variable trustedOrigins : list jsstr.

Notation withIssuedToken := (withIssuedToken parse_url decode_header decode_claims options).
Notation assert_identity provider := (assertVaultSessionIdentity provider (rcf_issuer config) (Some (rcf_clientId config))).
Notation policy_allows jkt := (assertDeviceBindingPolicy (ro_deviceBinding options) (binding_value jkt)).

(** * Exchange *)

(** An exchange that checks everything before it spends the code. *)
Definition protectedExchange (record : CodeSnapshot) : bool :=
  proving options || recognizing options || bool_decide (is_Some (bm_browserBindingHash (cs_match record))).

(** The second read of the code and its session, when the first one did not consume. *)
Definition consume_exchange_code (code : jsstr) (record : CodeSnapshot) (session : SessionSnapshot) (recognition : option jsstr)
    : rtask unit :=
  let! consumed := store_record (if protectedExchange record
                                 then OpConsumeCodeIf code (match_value (cs_match record)) (JStr (cs_sessionId record))
                                 else OpConsumeCode code) in
  let! consumed := pure_step (or_invalid consumed invalidExchangeCode) in
  let! now := getNow in
  let! returned := pure_step (snapshotVaultExchangeCode consumed code now) in
  pure_step (assertVaultExchangeCodeMatches returned record) ;!
  let! returnedSession := store_session (OpGetSession (cs_sessionId record)) in
  let! returnedSession := pure_step (or_invalid returnedSession invalidVaultSession) in
  let! now := getNow in
  let! checkedSession := pure_step (snapshotVaultSession returnedSession (cs_sessionId record) now) in
  pure_step (assert_identity (ss_provider checkedSession)) ;!
  pure_step (assertVaultExchangeSessionBinding returned checkedSession) ;!
  pure_step (assertVaultSessionMatches checkedSession session) ;!
  pure_step (assert_recognition options (ss_metadata checkedSession) recognition invalidVaultSession).

(** From the commit on. *)
Definition finish_exchange (session : SessionSnapshot) (cookieSecret : option jsstr) (verified : option VerifiedBinding)
    : rtask ExchangeResult :=
  tcatch
    (let! issuedToken := withIssuedToken session ExchangeToken verified in
     set_session_cookie parse_url options (ss_sessionId session) ;!
     clear_transaction_cookie options cookieSecret ;!
     Ret (Ok (createExchangeResponse (ro_vault options) session issuedToken)))
    (λ e, clear_transaction_cookie options cookieSecret ;! throw e).

Definition createExchangeHandler (rq : Request) : rtask ExchangeResult :=
  let! capturedRecognition :=
    pure_step (captureFingerprintRecognition sha256 (hd_rawHeaders (rq_head rq)) (ro_fingerprint options)) in
  let! code := pure_step (getRequiredString (body_field rq "code") (js "Exchange request is missing code.")
                            (js "OIDC_VAULT_MISSING_EXCHANGE_CODE") 400) in
  let canPreflight := can options "getExchangeCode" in
  pure_step (guard (negb ((proving options || recognizing options)
                          && (negb canPreflight || negb (can options "consumeExchangeCodeIfMatches"))))
               (TypeError (js "Device-bound exchange requires guarded store reads and atomic consumption."))) ;!
  let! rawCode := store_record (if canPreflight then OpGetCode code else OpConsumeCode code) in
  let! rawCode := pure_step (or_invalid rawCode invalidExchangeCode) in
  let! now := getNow in
  let! record := pure_step (snapshotVaultExchangeCode rawCode code now) in
  pure_step (if bool_decide (is_Some (bm_browserBindingHash (cs_match record)))
             then captureTrustedOriginGuard parse_url origin_of (rq_head rq) (ro_vault options) trustedOrigins ActExchange false
             else Ok tt) ;!
  pure_step (policy_allows (bm_deviceBinding (cs_match record))) ;!
  let! rawSession := store_session (OpGetSession (cs_sessionId record)) in
  let! rawSession := pure_step (or_invalid rawSession invalidVaultSession) in
  let! now := getNow in
  let! session := pure_step (snapshotVaultSession rawSession (cs_sessionId record) now) in
  pure_step (policy_allows (ss_deviceBinding session)) ;!
  pure_step (assertVaultExchangeSessionBinding record session) ;!
  pure_step (guard (negb (protectedExchange record && negb (can options "consumeExchangeCodeIfMatches")))
               (TypeError (js "Guarded exchange requires storeProvider.consumeExchangeCodeIfMatches."))) ;!
  pure_step (if protectedExchange record then assert_identity (ss_provider session) else Ok tt) ;!
  let! cookieSecret := pure_step (authenticateTransactionCookie sha256 (rq_cookie rq) (ro_transactionCookie options) (cs_match record)) in
  let! recognition := pure_step (recognition_of options (ss_metadata session)) in
  pure_step (assertFingerprintRecognition (ro_fingerprint options) recognition capturedRecognition) ;!
  let! verified := prove_session options rq (ss_deviceBinding session) in
  (if canPreflight then consume_exchange_code code record session recognition else Ret (Ok tt)) ;!
  pure_step (assert_identity (ss_provider session)) ;!
  finish_exchange session cookieSecret verified.

(** * Refresh *)

Definition refresh_expired : oidc_error := http_error 401 "OIDC_VAULT_INVALID_SESSION" "Session is missing or expired.".

(** The session as it is read again before its refresh token is used. *)
Definition recheck_session (sessionId : jsstr) (current : SessionSnapshot) (recognition : option jsstr) : rtask unit :=
  if proving options || recognizing options then
    let! latest := store_session (OpGetSession sessionId) in
    let! latest := pure_step (or_invalid latest invalidVaultSession) in
    let! now := getNow in
    let! latestSession := pure_step (snapshotVaultSession latest sessionId now) in
    pure_step (assertVaultSessionMatches latestSession current) ;!
    pure_step (assert_recognition options (ss_metadata latestSession) recognition invalidVaultSession)
  else Ret (Ok tt).

(** [requestToken(…).catch(…)]: only the current session's own refusal is passed on. *)
Definition refused_refresh (sessionId : jsstr) (current : SessionSnapshot) (error : route_error) : rtask jsval :=
  match error with
  | RouteError (OidcVaultHttpError _ code _ _) =>
      if jsstr_eqb code (js "OIDC_VAULT_REFRESH_REJECTED") then
        let! latest := store_session (OpGetSession sessionId) in
        let! matches :=
          match latest with
          | None => Ret (Ok false)
          | Some latest =>
              tcatch (let! now := getNow in
                      let! latest := pure_step (snapshotVaultSession latest sessionId now) in
                      pure_step (assertVaultSessionMatches latest current) ;! Ret (Ok true))
                (λ _, Ret (Ok false))
          end in
        if matches then throw error else fail token_request_failed
      else throw error
  | _ => throw error
  end.
Definition refresh_tokens (sessionId : jsstr) (current : SessionSnapshot) (metadata : ProviderMetadata) : rtask jsval :=
  tcatch (requestToken metadata "refresh_token" [(js "refresh_token", ss_refreshToken current)]) (refused_refresh sessionId current).

(** The claims of a new ID token, and the subject. *)
Definition refreshed_identity (current : SessionSnapshot) (metadata : ProviderMetadata) (tokenResponse : jsval)
    : rtask (option jsval * jsstr) :=
  match isString (get_field tokenResponse (js "id_token")) with
  | None => Ret (Ok (None, ss_subject current))
  | Some newIdToken =>
      let! claims := verifyIdToken metadata newIdToken None in
      let! subject := pure_step (getRequiredString (get_field claims (js "sub")) (js "OIDC id_token is missing sub.")
                                   (js "OIDC_VAULT_INVALID_ID_TOKEN") 502) in
      pure_step (guard (jsstr_eqb subject (ss_subject current))
                   (http_error 502 "OIDC_VAULT_INVALID_ID_TOKEN" "OIDC refreshed id_token sub changed.")) ;!
      Ret (Ok (Some claims, subject))
  end.

Definition user_info (metadata : ProviderMetadata) (tokenResponse : jsval) (subject : jsstr) : rtask (option jsval) :=
  match isString (get_field tokenResponse (js "access_token")) with
  | Some accessToken =>
      if shouldFetchUserInfo options metadata then
        let! userInfo := fetchUserInfo metadata accessToken in
        pure_step (assertUserInfoSubject userInfo subject) ;! Ret (Ok (Some userInfo))
      else Ret (Ok None)
  | None => Ret (Ok None)
  end.

(** [typeof claims.sid === 'string' ? … : …] *)
Definition provider_session_id (claims : option jsval) (fallback : option jsstr) : option jsstr :=
  match claims ≫= (λ c, as_string (get_field c (js "sid"))) with Some sid => Some sid | None => fallback end.

(** The session the refresh composes, with a fresh identifier. *)
Definition next_session (current : SessionSnapshot) (tokenResponse : jsval) (claims : option jsval) (subject : jsstr)
    (userInfo : option jsval) (sessionId : jsstr) (now : num) : Session :=
  let answered name kept := match isString (get_field tokenResponse (js name)) with Some v => Some v | None => kept end in
  let s := copyVaultSession false current in
  mkSession sessionId (Some (lineage_of current)) (JStr subject) (string_value (provider_session_id claims (ss_providerSessionId current)))
    (s_provider s) (s_deviceBinding s)
    (JStr (default (ss_refreshToken current) (answered "refresh_token"%string None)))
    (JStr (default (ss_idToken current) (answered "id_token"%string None)))
    (s_expiresAt s) (s_createdAt s) (JNum now)
    ([(js "accessToken", string_value (answered "access_token"%string (ss_accessToken current)));
      (js "scope", string_value (match as_string (get_field tokenResponse (js "scope")) with
                                 | Some scope => Some scope
                                 | None => ss_scope current
                                 end));
      (js "user", copyVaultUserProfile (composeRefreshedUserProfile subject (ss_user current) (own_fields <$> claims)
                                          (own_fields (default JUndef userInfo))))]
     ++ (if is_undef (ss_metadata current) then [] else [(js "metadata", ss_metadata current)])).

(** [storeProvider.rotateSession(…)] *)
Definition rotation_outcome (o : outcome) : rtask Session :=
  match o with
  | GaveSession (Some rotated) => Ret (Ok rotated)
  | _ =>
      if isStoreConflictError (store_rejection o)
      then clear_session_cookie parse_url options ;! fail refresh_expired
      else fail (store_rejection o)
  end.
Definition rotate_session (sessionId : jsstr) (next : Session) : rtask Session :=
  tbind (ask (Store (OpRotateSession sessionId next))) rotation_outcome.

(** What the store rotated to is what it was given, or the lineage is revoked. *)
Definition check_rotated (rotated : Session) (expected : SessionSnapshot) (recognition : option jsstr) (logicalSessionId : jsstr)
    : rtask unit :=
  tcatch
    (let! now := getNow in
     let! returned := pure_step (snapshotVaultSession rotated (ss_sessionId expected) now) in
     pure_step (assert_identity (ss_provider returned)) ;!
     pure_step (assertVaultSessionMatches returned expected) ;!
     pure_step (assert_recognition options (ss_metadata returned) recognition invalidVaultSession))
    (λ e, store_count (OpDeleteByLogical logicalSessionId) ;! clear_session_cookie parse_url options ;! throw e).

(** From the rotation on. *)
Definition commit_refresh (current expected : SessionSnapshot) (recognition : option jsstr) (verified : option VerifiedBinding)
    : rtask ExchangeResult :=
  let! rotated := rotate_session (ss_sessionId current) (copyVaultSession false expected) in
  check_rotated rotated expected recognition (lineage_of current) ;!
  let! issuedToken := withIssuedToken expected RefreshToken verified in
  callPostCommitHook options OnSessionRefreshed (Some (copyVaultSession false expected)) ;!
  set_session_cookie parse_url options (ss_sessionId expected) ;!
  Ret (Ok (createExchangeResponse (ro_vault options) expected issuedToken)).

(** From the provider's answer on. *)
Definition finish_refresh (current : SessionSnapshot) (recognition : option jsstr) (verified : option VerifiedBinding)
    (metadata : ProviderMetadata) (tokenResponse : jsval) : rtask ExchangeResult :=
  pure_step (validateRefreshTokenResponse tokenResponse) ;!
  let! identity := refreshed_identity current metadata tokenResponse in
  let! userInfo := user_info metadata tokenResponse identity.2 in
  let! now := getNow in
  let! sessionId := createOpaqueId "sess" in
  let next := next_session current tokenResponse identity.1 identity.2 userInfo sessionId now in
  let! now := getNow in
  let! expected := pure_step (snapshotVaultSession next sessionId now) in
  commit_refresh current expected recognition verified.

Definition createRefreshHandler (rq : Request) : rtask ExchangeResult :=
  let! capturedRecognition :=
    pure_step (captureFingerprintRecognition sha256 (hd_rawHeaders (rq_head rq)) (ro_fingerprint options)) in
  pure_step (assertTrustedOrigin parse_url origin_of (rq_head rq) (ro_vault options) trustedOrigins ActRefresh) ;!
  let! sessionId := pure_step (getSessionIdFromRequest parse_url options rq "Refresh") in
  let! currentRecord := store_session (OpGetSession sessionId) in
  match currentRecord with
  | None => clear_session_cookie parse_url options ;! fail refresh_expired
  | Some currentRecord =>
      let! now := getNow in
      let! current := pure_step (snapshotVaultSession currentRecord sessionId now) in
      pure_step (assert_identity (ss_provider current)) ;!
      pure_step (policy_allows (ss_deviceBinding current)) ;!
      let! recognition := pure_step (recognition_of options (ss_metadata current)) in
      pure_step (assertFingerprintRecognition (ro_fingerprint options) recognition capturedRecognition) ;!
      let! verified := prove_session options rq (ss_deviceBinding current) in
      let! metadata := resolve_metadata in
      recheck_session sessionId current recognition ;!
      let! tokenResponse := refresh_tokens sessionId current metadata in
      finish_refresh current recognition verified metadata tokenResponse
  end.
End handlers.

(** * Properties *)

Lemma lift_pure_Ok {A} (r : ores A) a : lift_route r = Ok a ↔ r = Ok a.
Proof. destruct r; cbn; split; congruence. Qed.

Lemma required_string v m c n s : getRequiredString v m c n = Ok s → v = JStr s.
Proof. unfold getRequiredString. destruct v; try done. by destruct (_ =? _)%nat; intros [= ->]. Qed.

Lemma user_info_calls (N : call → Prop) options metadata tokenResponse subject tr :
  (∀ u a, N (GetUserInfo u a)) → calls N tr (user_info options metadata tokenResponse subject).
Proof.
  intros HN. unfold user_info. destruct (isString _); [|done]. destruct (shouldFetchUserInfo _ _); [|done].
  apply calls_rbind; [|intros tr' u; by hstep]. unfold fetchUserInfo. destruct (pm_userInfoEndpoint metadata) as [[|]|]; [done| |done].
  apply rule_user_info; [apply HN|intros; by hstep|done].
Qed.

Section properties.
Variable parse_url : jsstr → option URL.
Variable origin_of : URL → jsstr.
Variable sha256 : list Z → list Z.
Variable decode_header : jsstr → option jsval.
Variable decode_claims : jsstr → option jsval.
Variable options : RouteOptions.
Variable config : ResolvedConfig.
Variable trustedOrigins : list jsstr.

Notation exchange := (createExchangeHandler parse_url origin_of sha256 decode_header decode_claims options config trustedOrigins).
Notation refresh := (createRefreshHandler parse_url origin_of sha256 decode_header decode_claims options config trustedOrigins).
Notation withIssuedToken := (withIssuedToken parse_url decode_header decode_claims options).

(** A binding that the policy of this vault lets in. *)
Definition policy_ok (jkt : option jsstr) : Prop :=
  match jkt, ro_deviceBinding options with
  | Some _, None => False
  | None, Some p => db_mode p = Optional
  | _, _ => True
  end.

(** What a request has shown of the session of the store it is about: the record was live at the time the clock
    gave next after it was read, and is bound as the policy wants; a recognized browser is the one that signed in;
    and where proofs are configured, the verifier has accepted this request's for the session's own key. *)
Record session_seen (rq : Request) (tr : trace) (sessionId : jsstr) (session : SessionSnapshot)
    (verified : option VerifiedBinding) : Prop := {
  sh_read : ∃ raw now, read_at tr (OpGetSession sessionId) (GaveSession (Some raw)) now
    ∧ snapshotVaultSession raw sessionId now = Ok session ∧ unexpired now (ss_expiresAt session);
  sh_policy : policy_ok (ss_deviceBinding session);
  sh_recognized : ∀ name h, ro_fingerprint options = Some name →
    snapshotFingerprintRecognition (ss_metadata session) = Ok (Some h) →
    captureFingerprintRecognition sha256 (hd_rawHeaders (rq_head rq)) (Some name) = Ok (Some h);
  sh_proof : is_Some (ro_deviceBinding options) →
    Ev (Proof (Verify (captured_proof rq) (binding_value (ss_deviceBinding session)))) (Ok verified) ∈ tr
}.

(** The session is of the configured provider. *)
Definition of_provider (session : SessionSnapshot) : Prop :=
  identity_agrees (ss_provider session) (rcf_issuer config) (Some (rcf_clientId config)) = true.

Definition session_shown (rq : Request) (tr : trace) (sessionId : jsstr) (session : SessionSnapshot)
    (verified : option VerifiedBinding) : Prop :=
  session_seen rq tr sessionId session verified ∧ of_provider session.

(** The same for an exchange, and the code it presents: the code was live at the time the clock gave after it
    was read, and leads to this session; a code that was given to a browser is presented by that browser, from a
    trusted origin. *)
Record exchange_seen (rq : Request) (tr : trace) (code : jsstr) (record : CodeSnapshot) (session : SessionSnapshot)
    (verified : option VerifiedBinding) : Prop := {
  xs_presented : body_field rq "code" = JStr code;
  xs_code : ∃ raw now,
    read_at tr (if can options "getExchangeCode" then OpGetCode code else OpConsumeCode code) (GaveRecord (Some raw)) now
    ∧ snapshotVaultExchangeCode raw code now = Ok record ∧ unexpired now (Some (cs_expiresAt record));
  xs_session : session_seen rq tr (cs_sessionId record) session verified;
  xs_binding : bm_deviceBinding (cs_match record) = ss_deviceBinding session;
  xs_browser : ∀ h, bm_browserBindingHash (cs_match record) = Some h →
    trusted_source parse_url origin_of true (rq_head rq) trustedOrigins
    ∧ ∃ secret, parseTransactionCookie (rq_cookie rq) (tc_name (ro_transactionCookie options)) = Ok (Some secret)
        ∧ hashSecret sha256 secret = h
}.

Definition exchange_shown (rq : Request) (tr : trace) (code : jsstr) (record : CodeSnapshot) (session : SessionSnapshot)
    (verified : option VerifiedBinding) : Prop :=
  exchange_seen rq tr code record session verified ∧ of_provider session.

Lemma policy_bound jkt u : assertDeviceBindingPolicy (ro_deviceBinding options) (binding_value jkt) = Ok u → policy_ok jkt.
Proof.
  destruct u. intros [(j & p & Hs & Hp)|[Hu Hm]]%assert_policy_spec; unfold policy_ok.
  - rewrite Hp. by destruct jkt.
  - destruct jkt; [done|]. destruct (ro_deviceBinding options); auto.
Qed.

Lemma session_canonical raw id now s : snapshotVaultSession raw id now = Ok s →
  ∀ jkt, ss_deviceBinding s = Some jkt → isCanonicalDpopJkt (JStr jkt) = true.
Proof.
  intros (t & _ & H)%snapshot_session_spec. apply sp_binding, exact_binding_spec in H as (_ & _ & _ & H). exact H.
Qed.

Lemma recognition_shown rq capturedRecognition recognition metadata :
  captureFingerprintRecognition sha256 (hd_rawHeaders (rq_head rq)) (ro_fingerprint options) = Ok capturedRecognition →
  recognition_of options metadata = Ok recognition →
  assertFingerprintRecognition (ro_fingerprint options) recognition capturedRecognition = Ok tt →
  ∀ name h, ro_fingerprint options = Some name → snapshotFingerprintRecognition metadata = Ok (Some h) →
  captureFingerprintRecognition sha256 (hd_rawHeaders (rq_head rq)) (Some name) = Ok (Some h).
Proof.
  intros Hc Hr Ha name h Hn Hs. unfold recognition_of, recognizing in Hr. rewrite Hn in Hc, Hr, Ha.
  rewrite bool_decide_true, Hs in Hr by eauto. injection Hr as <-. rewrite Hc. f_equal.
  unfold assertFingerprintRecognition, fingerprintRecognitionMatches in Ha. apply guard_Ok in Ha.
  rewrite !bool_decide_true in Ha by eauto. cbn in Ha. apply negb_true_iff, negb_false_iff, bool_decide_eq_true in Ha. done.
Qed.

Lemma browser_shown rq (record : CodeSnapshot) cookieSecret :
  (if bool_decide (is_Some (bm_browserBindingHash (cs_match record)))
   then captureTrustedOriginGuard parse_url origin_of (rq_head rq) (ro_vault options) trustedOrigins ActExchange false
   else Ok tt) = Ok tt →
  authenticateTransactionCookie sha256 (rq_cookie rq) (ro_transactionCookie options) (cs_match record) = Ok cookieSecret →
  ∀ h, bm_browserBindingHash (cs_match record) = Some h →
  trusted_source parse_url origin_of true (rq_head rq) trustedOrigins
  ∧ ∃ secret, parseTransactionCookie (rq_cookie rq) (tc_name (ro_transactionCookie options)) = Ok (Some secret)
      ∧ hashSecret sha256 secret = h.
Proof.
  intros Ho Hc h Hh. rewrite Hh in Ho. rewrite bool_decide_true in Ho by eauto.
  apply origin_guard_spec in Ho as [Ho _]. split; [by apply Ho|]. unfold authenticateTransactionCookie in Hc. rewrite Hh in Hc. res_step Hc as secret Hs. destruct secret as [s|]; [|done].
  res_step Hc as u Hg. apply guard_Ok, jsstr_eqb_true in Hg. eauto.
Qed.

(** ** Exchange *)

(** The answer with which the store gave up the code, once: its own record again. *)
Definition code_given_up (tr : trace) (code : jsstr) (record : CodeSnapshot) : Prop :=
  ∃ op raw now, read_at tr op (GaveRecord (Some raw)) now ∧ snapshotVaultExchangeCode raw code now = Ok record
    ∧ unexpired now (Some (cs_expiresAt record))
    ∧ (op = OpConsumeCode code ∨ ∃ m sid, op = OpConsumeCodeIf code m sid)
    ∧ (can options "getExchangeCode" = true → protectedExchange options record = true →
       op = OpConsumeCodeIf code (match_value (cs_match record)) (JStr (cs_sessionId record))).

(** What has been shown when a call of the exchange is made. A store that can only consume gives a code up
    unseen; one that can read it first gives up without the atomic match only a code that was bound to nothing. *)
Definition exchange_call (rq : Request) (tr : trace) (c : call) : Prop :=
  match c with
  | Store (OpConsumeCode code) =>
      body_field rq "code" = JStr code ∧ proving options = false ∧ recognizing options = false
      ∧ (can options "getExchangeCode" = true →
         ∃ record session verified, exchange_seen rq tr code record session verified
           ∧ bm_browserBindingHash (cs_match record) = None)
  | Store (OpConsumeCodeIf code m sid) =>
      ∃ record session verified, exchange_shown rq tr code record session verified
        ∧ m = match_value (cs_match record) ∧ sid = JStr (cs_sessionId record)
  | IssueToken ExchangeToken s binding =>
      ∃ code record session verified, exchange_shown rq tr code record session verified ∧ code_given_up tr code record
        ∧ s = copyVaultSession true session
  | _ => True
  end.

Definition exchange_result (rq : Request) (tr : trace) (result : ExchangeResult) : Prop :=
  ∃ code record session verified issued, exchange_shown rq tr code record session verified ∧ code_given_up tr code record
    ∧ result = createExchangeResponse (ro_vault options) session issued
    ∧ ∀ t, issued = Some t → constrained decode_claims (ss_deviceBinding session) t.

Lemma code_matches a b u : assertVaultExchangeCodeMatches a b = Ok u → a = b.
Proof.
  unfold assertVaultExchangeCodeMatches, recordBindingMatches. intros H%guard_Ok. repeat (apply andb_true_iff in H as [H ?]).
  destruct a as [? ? ? ? ? []], b as [? ? ? ? ? []]. cbn in *.
  repeat match goal with
  | X : jsstr_eqb _ _ = true |- _ => apply jsstr_eqb_true in X
  | X : bool_decide _ = true |- _ => apply bool_decide_eq_true in X
  | X : (_ =? _) = true |- _ => apply Z.eqb_eq in X
  | X : _ && _ = true |- _ => apply andb_true_iff in X as [? ?]
  end. by subst.
Qed.

Lemma seen_later rq tr more id session verified :
  session_seen rq tr id session verified → session_seen rq (tr ++ more) id session verified.
Proof.
  intros [(raw & now & Hr & Hs) H3 H4 H5]. split; [|done..|].
  - exists raw, now. split; [by apply read_at_later|done].
  - intros Hp. apply elem_of_app. left. auto.
Qed.

Lemma exchange_seen_later rq tr more code record session verified :
  exchange_seen rq tr code record session verified → exchange_seen rq (tr ++ more) code record session verified.
Proof.
  intros [H0 (raw & now & Hr & Hc) H1 H6 H7]. split; [done| |by apply seen_later|done|done].
  exists raw, now. split; [by apply read_at_later|done].
Qed.

Lemma shown_later rq tr more code record session verified :
  exchange_shown rq tr code record session verified → exchange_shown rq (tr ++ more) code record session verified.
Proof. intros [H1 H2]. split; [by apply exchange_seen_later|done]. Qed.

Lemma spent_later tr more code record : code_given_up tr code record → code_given_up (tr ++ more) code record.
Proof. intros (op & raw & now & Hr & H). exists op, raw, now. split; [by apply read_at_later|done]. Qed.

Notation wp rq := (spec (exchange_call rq) (ends (exchange_result rq) (λ _ _, True))).

Lemma finish_exchange_spec rq tr code record session cookieSecret verified :
  exchange_shown rq tr code record session verified → code_given_up tr code record →
  wp rq tr (finish_exchange parse_url decode_header decode_claims options session cookieSecret verified).
Proof.
  intros Hx Hsp. pose proof (xs_session _ _ _ _ _ _ (proj1 Hx)) as Hsh. destruct (sh_read _ _ _ _ _ Hsh) as (raw & now & _ & Hraw & _).
  pose proof (session_canonical _ _ _ _ Hraw) as Hc. unfold finish_exchange. apply spec_tcatch.
  assert (∀ tr' e, wp rq tr' (clear_transaction_cookie options cookieSecret ;! throw e)) as Hcatch.
  { intros tr' e. unfold clear_transaction_cookie. destruct cookieSecret; [by hstep|done]. }
  apply rule_bind. eapply spec_mono; [done| |eapply (issuance_spec _ _ _ _ (exchange_call rq) session ExchangeToken verified tr Hc)].
  4: done. 3: done. 2: { intros binding. cbn. exists code, record, session, verified. done. }
  intros tr' [issued|e] Hi; [|apply Hcatch]. cbn in Hi |- *.
  assert (∃ more, tr' = tr ++ more) as [more ->].
  { destruct issued as [t|]; [destruct Hi as (? & ? & -> & _); eauto|destruct Hi as [_ ->]; exists []; by rewrite app_nil_r]. }
  assert (∀ t, issued = Some t → constrained decode_claims (ss_deviceBinding session) t) as Ht.
  { intros t ->. by destruct Hi as (? & ? & _ & _ & ?). }
  assert (∀ more', exchange_result rq ((tr ++ more) ++ more') (createExchangeResponse (ro_vault options) session issued)) as Hdone.
  { intros more'. exists code, record, session, verified, issued. split; [by apply shown_later, shown_later|].
    split; [by apply spent_later, spent_later|done]. }
  set (E := λ (tr : trace) e, wp rq tr (clear_transaction_cookie options cookieSecret ;! throw e)).
  change (spec (exchange_call rq) (ends (exchange_result rq) E) (tr ++ more)
    (set_session_cookie parse_url options (ss_sessionId session) ;! clear_transaction_cookie options cookieSecret ;!
     Ret (Ok (createExchangeResponse (ro_vault options) session issued)))).
  assert (∀ more', spec (exchange_call rq) (ends (exchange_result rq) E) ((tr ++ more) ++ more')
    (clear_transaction_cookie options cookieSecret ;! Ret (Ok (createExchangeResponse (ro_vault options) session issued)))) as Hlast.
  { intros more'. unfold clear_transaction_cookie. destruct cookieSecret.
    - apply rule_cookie; [done| |intros _ e; apply Hcatch]. intros h _. apply rule_ret. rewrite <- app_assoc. apply Hdone.
    - apply rule_value, rule_ret, Hdone. }
  unfold set_session_cookie. destruct (usesCookieTransport _).
  - apply rule_cookie; [done| |intros _ e; apply Hcatch]. intros h _. apply Hlast.
  - apply rule_value. specialize (Hlast []). by rewrite app_nil_r in Hlast.
Qed.

Lemma consume_spec rq tr code record session verified recognition B (k : unit → rtask B) (Q : trace → B → Prop) :
  exchange_seen rq tr code record session verified → (protectedExchange options record = true → of_provider session) →
  (∀ more, code_given_up (tr ++ more) code record → spec (exchange_call rq) (ends Q (λ _ _, True)) (tr ++ more) (k tt)) →
  spec (exchange_call rq) (ends Q (λ _ _, True)) tr
    (rbind (consume_exchange_code options config code record session recognition) k).
Proof.
  intros Hx Hid Hk. apply rule_bind. unfold consume_exchange_code.
  set (op := if protectedExchange options record then _ else _).
  assert (exchange_call rq tr (Store op)) as Hcall.
  { unfold op. destruct (protectedExchange options record) eqn:Ep.
    - exists record, session, verified. split; [split; [done|by apply Hid]|done].
    - unfold protectedExchange in Ep. apply orb_false_iff in Ep as [[Ep Er]%orb_false_iff Eb%bool_decide_eq_false].
      split; [by apply (xs_presented _ _ _ _ _ _ Hx)|]. split; [done|]. split; [done|]. intros _. exists record, session, verified.
      split; [done|]. by apply eq_None_not_Some. }
  apply rule_record; [exact Hcall|done|]. intros r. hcheck raw ->%or_invalid_Ok.
  hstep. hcheck returned Hs. hcheck [] ->%code_matches.
  do 8 hstep. repeat match goal with b : () |- _ => destruct b end. rewrite <- !app_assoc. apply Hk. exists op, raw, n. rewrite !app_assoc. split; [clocked|]. split; [exact Hs|]. split; [by eapply code_lives|].
  unfold op. destruct (protectedExchange options record); [|by split; [left|]]. split; [right; by eexists _, _|done].
Qed.

Lemma exchange_spec rq : wp rq [] (exchange rq).
Proof.
  unfold createExchangeHandler. hcheck captured Hcap. hcheck code Hcode%required_string. hcheck [] Hcaps%guard_Ok.
  set (read := if can options "getExchangeCode" then _ else _). apply rule_record; [|done|intros r].
  { unfold read. destruct (can options "getExchangeCode") eqn:Ecan; [done|]. split; [done|].
    rewrite Ecan. destruct (proving options), (recognizing options); done. }
  hcheck rawCode ->%or_invalid_Ok. apply rule_now; [done|]. intros now1. hcheck record Hrecord. hcheck [] Horigin. hcheck [] _. hstep.
  hcheck rawSession ->%or_invalid_Ok. apply rule_now; [done|]. intros now2. hcheck session Hsession. hcheck [] Hpolicy%policy_bound.
  hcheck [] Hb%guard_Ok. apply andb_true_iff in Hb as [_ Hb%bool_decide_eq_true]. hcheck [] Hmust%guard_Ok.
  hcheck [] Hidentity. hcheck cookieSecret Hcookie. hcheck recognition Hrecognition. hcheck [] Hrecognized.
  apply rule_prove_session; [done|done|]. intros more verified Hproof. match goal with |- spec _ _ (?tr ++ _) _ => set (tr0 := tr) in * end.
  assert (exchange_seen rq (tr0 ++ more) code record session verified) as Hseen.
  { split; [exact Hcode| |split|exact Hb|by eapply browser_shown].
    - exists rawCode, now1. split; [unfold tr0; clocked|]. split; [exact Hrecord|by eapply code_lives].
    - exists rawSession, now2. split; [unfold tr0; clocked|]. split; [exact Hsession|by eapply session_lives].
    - exact Hpolicy. - by eapply recognition_shown. - exact Hproof. }
  assert (∀ tr, code_given_up ((tr0 ++ more) ++ tr) code record →
    wp rq ((tr0 ++ more) ++ tr) (pure_step (assertVaultSessionIdentity (ss_provider session) (rcf_issuer config) (Some (rcf_clientId config))) ;!
      finish_exchange parse_url decode_header decode_claims options session cookieSecret verified)) as Hfinish.
  { intros tr Hspent. hcheck [] Hid%guard_Ok. eapply finish_exchange_spec; [split; [by apply exchange_seen_later|exact Hid]|exact Hspent]. }
  destruct (can options "getExchangeCode") eqn:Ecan.
  - apply (consume_spec rq _ code record session verified); [exact Hseen| |intros more' Hspent; by apply Hfinish].
    intros Hp. rewrite Hp in Hidentity. by apply guard_Ok in Hidentity.
  - apply rule_value. specialize (Hfinish []). rewrite app_nil_r in Hfinish. apply Hfinish.
    exists read, rawCode, now1. split; [unfold tr0; clocked|]. split; [exact Hrecord|]. split; [by eapply code_lives|].
    split; [by left|by rewrite Ecan].
Qed.

(** C4: Whoever asks the issuer for a token, or gets a session out of an exchange, has shown everything before: the
    code was live at the time the clock gave next after the store's answer, and leads to a session that was live,
    likewise, of the configured provider, with the device binding the policy asks for; a code that was given to a
    browser is presented by that browser, from a trusted origin, over either transport; a recognized browser is
    the one that signed in; where proofs are configured the proof of this very request was accepted for the
    session's key; and the store has given the code up, live and unchanged. A code that is bound to a browser, and
    any code of a vault with proofs or recognition, is spent only after all of this, by the atomic
    match. The exceptions: of a code bound to nothing, on a vault with neither, a store with [getExchangeCode]
    spends it before the provider is compared; and a store without [getExchangeCode] spends whatever code was
    presented before anything of it is shown. The token handed out is constrained to the session's key. This holds for
    every store, issuer, verifier and clock, whatever they answer. *)
Theorem exchange_guarded (rq : Request) (tr : list event) (a : result route_error ExchangeResult) :
  runs (exchange rq) tr a →
  (∀ tr1 c r tr2, tr = tr1 ++ Ev c r :: tr2 → exchange_call rq tr1 c)
  ∧ (∀ result, a = Ok result → exchange_result rq tr result).
Proof.
  intros H. destruct (spec_runs _ _ _ _ _ _ (exchange_spec rq) H) as [Ha Hcalls]. split; [exact Hcalls|].
  intros result ->. exact Ha.
Qed.
(** ** Refresh *)

(** The session a refresh rotates to goes on with the one it replaces: its lineage, subject, provider, device
    binding, creation and absolute expiry. *)
Record goes_on (current next : SessionSnapshot) : Prop := {
  go_lineage : lineage_of next = lineage_of current;
  go_subject : ss_subject next = ss_subject current;
  go_provider : ss_provider next = ss_provider current;
  go_binding : ss_deviceBinding next = ss_deviceBinding current;
  go_created : ss_createdAt next = ss_createdAt current;
  go_expires : ss_expiresAt next = ss_expiresAt current;
  go_metadata : ss_metadata next = ss_metadata current
}.

Lemma session_of_value (o : option Z) : usable (match o with Some e => JNum (num_of_Z e) | None => JUndef end)
  = match o with Some e => usable_epoch (num_of_Z e) | None => None end.
Proof. by destruct o. Qed.

Lemma next_goes_on raw id0 now0 current tokenResponse claims userInfo id now clock next :
  snapshotVaultSession raw id0 now0 = Ok current →
  snapshotVaultSession (next_session current tokenResponse claims (ss_subject current) userInfo id now) id clock = Ok next →
  goes_on current next.
Proof.
  intros (t0 & _ & [(_ & C1 & _) _ _ _ _ (C2 & _) C3 C4 C5 _])%snapshot_session_spec
    (t & _ & [(_ & E1 & _) (E2 & _) (E3 & _) _ _ (E4 & _) E5 E6 E7 (_ & E8)])%snapshot_session_spec.
  unfold next_session in *. cbn [s_sessionId s_logicalSessionId s_subject s_provider s_deviceBinding s_createdAt s_expiresAt] in *.
  split.
  - unfold lineage_of at 1. by rewrite E2.
  - by injection E3.
  - unfold copyVaultSession, session_of in E6. cbn [s_provider ss_provider] in E6. apply snapshotProvider_spec in C4 as [C4 _]. congruence.
  - unfold copyVaultSession, session_of in E7. cbn [s_deviceBinding ss_deviceBinding] in E7. apply exact_binding_spec in C5 as [C5 _]. congruence.
  - unfold copyVaultSession, session_of in E4. cbn [s_createdAt ss_createdAt] in E4. apply usable_value in C2. congruence.
  - unfold copyVaultSession, session_of in E5. cbn [s_expiresAt ss_expiresAt] in E5.
    destruct (ss_expiresAt current) as [e|], (ss_expiresAt next) as [e'|]; try done; [|by destruct E5].
    destruct C3 as [C3%usable_value _], E5 as [E5 _]. congruence.
  - rewrite E8. unfold s_field. cbn [s_rest]. destruct (is_undef (ss_metadata current)) eqn:U; [by destruct (ss_metadata current)|done].
Qed.

(** What has been shown of the session a refresh works on. *)
Record refresh_shown (rq : Request) (tr : trace) (sessionId : jsstr) (current : SessionSnapshot)
    (verified : option VerifiedBinding) : Prop := {
  rf_presented : getSessionIdFromRequest parse_url options rq "Refresh" = Ok sessionId;
  rf_origin : usesCookieTransport (ro_vault options) = true → trusted_source parse_url origin_of false (rq_head rq) trustedOrigins;
  rf_session : session_shown rq tr sessionId current verified
}.

(** The provider granted the refresh token of this session. *)
Definition granted (tr : trace) (current : SessionSnapshot) : Prop :=
  ∃ metadata request status text,
    prepare_token_request metadata [(js "grant_type", js "refresh_token"); (js "refresh_token", ss_refreshToken current)] = Ok request
    ∧ Ev (Post request) (Ok (status, text)) ∈ tr ∧ 200 <= status <= 299.

Definition refresh_rotated (rq : Request) (tr : trace) (current next : SessionSnapshot) (verified : option VerifiedBinding) : Prop :=
  ∃ sessionId rotated, refresh_shown rq tr sessionId current verified ∧ granted tr current ∧ goes_on current next
    ∧ Ev (Store (OpRotateSession sessionId (copyVaultSession false next))) (GaveSession (Some rotated)) ∈ tr.

(** What has been shown when a call of the refresh is made. *)
Definition refresh_call (rq : Request) (tr : trace) (c : call) : Prop :=
  match c with
  | Post request =>
      ∃ sessionId current verified metadata, refresh_shown rq tr sessionId current verified
        ∧ prepare_token_request metadata [(js "grant_type", js "refresh_token"); (js "refresh_token", ss_refreshToken current)] = Ok request
  | Store (OpRotateSession sessionId next) =>
      ∃ current verified s, refresh_shown rq tr sessionId current verified ∧ granted tr current ∧ goes_on current s
        ∧ next = copyVaultSession false s
  | IssueToken RefreshToken s binding =>
      ∃ current next verified, refresh_rotated rq tr current next verified ∧ s = copyVaultSession true next
  | _ => True
  end.

Definition refresh_result (rq : Request) (tr : trace) (result : ExchangeResult) : Prop :=
  ∃ current next verified issued, refresh_rotated rq tr current next verified
    ∧ result = createExchangeResponse (ro_vault options) next issued
    ∧ ∀ t, issued = Some t → constrained decode_claims (ss_deviceBinding next) t.

Lemma session_shown_later rq tr more id session verified :
  session_shown rq tr id session verified → session_shown rq (tr ++ more) id session verified.
Proof. intros [H1 H2]. split; [by apply seen_later|done]. Qed.
Lemma refresh_shown_later rq tr more id session verified :
  refresh_shown rq tr id session verified → refresh_shown rq (tr ++ more) id session verified.
Proof. intros [H1 H2 H3]. split; [done..|]. by apply session_shown_later. Qed.
Lemma granted_later tr more current : granted tr current → granted (tr ++ more) current.
Proof. intros (m & r & st & t & H1 & H2 & H3). exists m, r, st, t. split; [done|]. split; [|done]. apply elem_of_app. by left. Qed.
Lemma rotated_later rq tr more current next verified :
  refresh_rotated rq tr current next verified → refresh_rotated rq (tr ++ more) current next verified.
Proof.
  intros (id & r & H1 & H2 & H3 & H4). exists id, r. split; [by apply refresh_shown_later|]. split; [by apply granted_later|].
  split; [done|]. apply elem_of_app. by left.
Qed.

Notation wpr rq Q := (spec (refresh_call rq) (ends Q (λ _ _, True))).

(** The rest of a refresh makes no call that needs anything shown. *)
Definition quiet_call (c : call) : Prop :=
  match c with Post _ | Store (OpRotateSession _ _) | IssueToken RefreshToken _ _ => False | _ => True end.
Notation quiet := (calls quiet_call).

Lemma rule_quiet {A B} rq Q tr (t : rtask A) (k : A → rtask B) :
  quiet tr t → (∀ more a, wpr rq Q (tr ++ more) (k a)) → wpr rq Q tr (rbind t k).
Proof. apply rule_calls; [|done]. intros tr' c Hc. destruct c; try done; cbn in *; [by destruct op|by destruct operation]. Qed.

Lemma quiet_clear tr e : quiet tr (clear_session_cookie parse_url options ;! throw e : rtask unit).
Proof. unfold clear_session_cookie. destruct (usesCookieTransport _); [by hstep|done]. Qed.

Lemma quiet_rotated rotated expected recognition logicalSessionId tr :
  quiet tr (check_rotated parse_url options config rotated expected recognition logicalSessionId).
Proof.
  unfold check_rotated. apply spec_tcatch.
  assert (∀ tr e, quiet tr (store_count (OpDeleteByLogical logicalSessionId) ;! clear_session_cookie parse_url options ;! throw e : rtask unit)) as H.
  { intros tr' e. hstep. apply quiet_clear. }
  by do 5 hstep.
Qed.

Lemma quiet_hook hook session tr : quiet tr (callPostCommitHook options hook session).
Proof.
  unfold callPostCommitHook, callHook, run_hook. apply calls_tcatch; [|intros tr' e; apply calls_tcatch; [|done]].
  - destruct (ro_hooks options hook); [by hstep|done].
  - destruct (ro_hooks options OnError); [by hstep|done].
Qed.

Lemma quiet_cookie id tr : quiet tr (set_session_cookie parse_url options id).
Proof. unfold set_session_cookie. destruct (usesCookieTransport _); [|done]. unfold set_cookie. by destruct (setSessionCookie _ _ _). Qed.

Lemma commit_spec rq tr current next verified recognition :
  refresh_shown rq tr (ss_sessionId current) current verified → granted tr current → goes_on current next →
  (∀ jkt, ss_deviceBinding next = Some jkt → isCanonicalDpopJkt (JStr jkt) = true) →
  wpr rq (refresh_result rq) tr
    (commit_refresh parse_url decode_header decode_claims options config current next recognition verified).
Proof.
  intros Hs Hg Hgo Hc. unfold commit_refresh. split; [by exists current, verified, next|]. intros o.
  assert (∀ tr e, wpr rq (refresh_result rq) tr (throw e)) as Hthrow by done.
  destruct o as [| | |[rotated|]| | | | |]; try (cbn -[clear_session_cookie isStoreConflictError store_rejection]; destruct (isStoreConflictError _); [|done]; unfold clear_session_cookie;
    destruct (usesCookieTransport _); [|done]; unfold set_cookie; by destruct (clearSessionCookie _ _)).
  apply rule_quiet; [apply quiet_rotated|]. intros more _.
  set (tr' := (tr ++ _) ++ more). assert (refresh_rotated rq tr' current next verified) as Hrot.
  { apply rotated_later. exists (ss_sessionId current), rotated. split; [by apply refresh_shown_later|].
    split; [by apply granted_later|]. split; [done|traced]. }
  apply rule_bind. eapply spec_mono; [done| |eapply (issuance_spec _ _ _ _ (refresh_call rq) next RefreshToken verified tr' Hc)].
  4: done. 3: done. 2: { intros binding. by exists current, next, verified. }
  intros tr2 [issued|e] Hi; [|done]. cbn in Hi |- *.
  assert (refresh_rotated rq tr2 current next verified) as Hrot2.
  { destruct issued as [t|]; [destruct Hi as (? & ? & -> & _); by apply rotated_later|by destruct Hi as [_ ->]]. }
  apply rule_quiet; [apply quiet_hook|]. intros more2 _. apply rule_quiet; [apply quiet_cookie|]. intros more3 _.
  apply rule_ret. exists current, next, verified, issued. split; [by do 2 apply rotated_later|]. split; [done|].
  intros t ->. by destruct Hi as (? & ? & _ & _ & ?).
Qed.

Lemma read_token_ok grant status text v : read_token_response grant status text = Ok v → 200 <= status <= 299.
Proof.
  unfold read_token_response. destruct ((200 <=? status) && (status <=? 299)) eqn:E; [lia|].
  intros H. res_step H as t _. by destruct (_ && invalid_grant t).
Qed.

Lemma tokens_spec {B} rq Q tr id current verified metadata (k : jsval → rtask B) :
  refresh_shown rq tr id current verified →
  (∀ more response, granted (tr ++ more) current → wpr rq Q (tr ++ more) (k response)) →
  wpr rq Q tr (rbind (refresh_tokens id current metadata) k).
Proof.
  intros Hs Hk. apply rule_bind. unfold refresh_tokens. apply spec_tcatch.
  assert (∀ tr e, wpr rq (λ tr0 a, wpr rq Q tr0 (k a)) tr (refused_refresh id current e)) as Hcatch.
  { clear. intros tr e. unfold refused_refresh. destruct e as [[status code ? ?| | |]|]; try done. destruct (jsstr_eqb code _); [|done].
    hstep. match goal with s : option Session |- _ => rename s into latest end. apply rule_quiet; [|by intros ? []].
    destruct latest; [|done]. apply spec_tcatch. by do 3 hstep. }
  unfold requestToken. hcheck request Hreq.
  apply rule_post; [by exists id, current, verified, metadata| |intros; apply Hcatch]. intros [status text].
  hstep. cbn [fst snd] in *. rewrite <- (app_nil_r (tr ++ _)), <- app_assoc. apply Hk.
  match goal with H : read_token_response _ _ _ = Ok _ |- _ => apply read_token_ok in H end.
  exists metadata, request, status, text. split; [done|]. split; [traced|done].
Qed.

Lemma identity_spec {B} rq Q tr current metadata tokenResponse (k : option jsval * jsstr → rtask B) :
  (∀ more claims, wpr rq Q (tr ++ more) (k (claims, ss_subject current))) →
  wpr rq Q tr (rbind (refreshed_identity current metadata tokenResponse) k).
Proof.
  intros Hk. unfold refreshed_identity. destruct (isString _) as [token|].
  2: { apply rule_value. specialize (Hk [] None). by rewrite app_nil_r in Hk. }
  apply rule_bind. apply rule_quiet.
  { unfold verifyIdToken. by do 3 hstep. }
  intros more claims. hcheck subject _. hcheck [] ->%guard_Ok%jsstr_eqb_true. apply rule_ret, Hk.
Qed.

Lemma refresh_spec rq : wpr rq (refresh_result rq) [] (refresh rq).
Proof.
  unfold createRefreshHandler. hcheck captured Hcap. hcheck [] Horigin. hcheck id Hid. hstep.
  match goal with s : option Session |- _ => destruct s as [raw|] end.
  2: { unfold clear_session_cookie. destruct (usesCookieTransport _); [by hstep|done]. }
  apply rule_now; [done|]. intros n. hcheck current Hcurrent. hcheck [] Hident%guard_Ok. hcheck [] Hpolicy%policy_bound. hcheck recognition Hrecognition.
  hcheck [] Hrecognized. apply rule_prove_session; [done|done|]. intros more verified Hproof.
  match goal with |- spec _ _ ?t _ => set (tr := t) in * end.
  assert (refresh_shown rq tr id current verified) as Hshown.
  { split; [exact Hid|by apply origin_guard_spec in Horigin as [_ Horigin]; apply Horigin|]. split; [|exact Hident].
    split; [|exact Hpolicy|by eapply recognition_shown|exact Hproof].
    exists raw, n. split; [unfold tr; clocked|]. split; [exact Hcurrent|by eapply session_lives]. }
  hstep. apply rule_quiet.
  { unfold recheck_session. destruct (_ || _); [|done]. by do 6 hstep. }
  intros more1 _. eapply tokens_spec; [by do 2 apply refresh_shown_later|]. intros more2 response Hg.
  set (tr2 := _ ++ more2) in *. assert (refresh_shown rq tr2 id current verified) as Hs2 by (unfold tr2; by do 3 apply refresh_shown_later).
  unfold finish_refresh. hcheck [] _. apply identity_spec. intros more3 claims. apply rule_quiet; [by apply user_info_calls|]. intros more4 userInfo.
  hstep. unfold createOpaqueId. apply rule_bind. hstep. apply rule_ret. hstep. hcheck expected Hexpected.
  assert (id = ss_sessionId current) as ->.
  { apply snapshot_session_spec in Hcurrent as (t & _ & [(_ & E & _)]). done. }
  apply commit_spec; [by do 5 apply refresh_shown_later|by do 5 apply granted_later| |by eapply session_canonical].
  by eapply next_goes_on.
Qed.

(** C5: The refresh token of a session reaches the provider, the session is rotated, and a token is issued for it
    only after the request has shown the session's record, live at the time the clock gave next after the store's
    answer, its provider, device binding and recognition and, where configured, a proof for the session's own
    key; in cookie transport, also from a trusted origin (a request that presents the identifier in its body is not asked
    for one). It is rotated only to a session that goes on with it: same lineage, subject, provider, device binding,
    creation time and absolute expiry, whatever the provider answered. So no sequence of refreshes moves a
    session to another subject or key, or past its absolute expiry. *)
Theorem refresh_guarded (rq : Request) (tr : list event) (a : result route_error ExchangeResult) :
  runs (refresh rq) tr a →
  (∀ tr1 c r tr2, tr = tr1 ++ Ev c r :: tr2 → refresh_call rq tr1 c)
  ∧ (∀ result, a = Ok result → refresh_result rq tr result).
Proof.
  intros H. destruct (spec_runs _ _ _ _ _ _ (refresh_spec rq) H) as [Ha Hcalls]. split; [exact Hcalls|].
  intros result ->. exact Ha.
Qed.

(** *** What follows a rotation *)

(** A session's lineage was asked to be revoked. *)
Definition revokes (tr : trace) (logicalSessionId : jsstr) : Prop := ∃ o, Ev (Store (OpDeleteByLogical logicalSessionId)) o ∈ tr.

Lemma revokes_later tr more l : revokes tr l → revokes (tr ++ more) l.
Proof. intros [o H]. exists o. apply elem_of_app. by left. Qed.

Notation wpt Q E := (spec (λ _ _, True) (ends Q E)).

(** What the store answered agrees, or the lineage is revoked. *)
Lemma check_rotated_spec rotated expected recognition l tr :
  wpt (λ _ _, ∃ now returned, snapshotVaultSession rotated (ss_sessionId expected) now = Ok returned
         ∧ assertVaultSessionMatches returned expected = Ok tt)
      (λ tr' _, revokes tr' l) tr (check_rotated parse_url options config rotated expected recognition l).
Proof.
  unfold check_rotated. apply spec_tcatch. set (Q := λ (_ : trace) (_ : unit), _).
  assert (∀ tr e, wpt Q (λ tr' _, revokes tr' l) tr
    (store_count (OpDeleteByLogical l) ;! clear_session_cookie parse_url options ;! throw e : rtask unit)) as Hback.
  { clear tr. intros tr e. assert (∀ o more, revokes ((tr ++ [Ev (Store (OpDeleteByLogical l)) o]) ++ more) l) as Hrev.
    { intros o more. apply revokes_later. exists o. traced. }
    apply rule_count; [done|intros o e'; specialize (Hrev o []); by rewrite app_nil_r in Hrev|].
    intros n. apply rule_any; [done|by intros; apply Hrev|]. intros more u. apply rule_throw, Hrev. }
  hstep. hcheck returned Hr. hcheck [] _. hcheck [] Hm. hstep. eexists _, _. split; [exact Hr|exact Hm].
Qed.

Lemma hook_settles hook session tr : wpt (λ _ _, True) (λ _ _, False) tr (callPostCommitHook options hook session).
Proof.
  unfold callPostCommitHook, callHook, run_hook. apply spec_tcatch. destruct (ro_hooks options hook); [|done]. hstep; [done|].
  intros e. apply spec_tcatch. destruct (ro_hooks options OnError); [|done]. by hstep.
Qed.

Lemma session_cookie_settles id tr : all_units name_unit id = true →
  wpt (λ _ _, True) (λ _ _, False) tr (set_session_cookie parse_url options id).
Proof.
  intros H. unfold set_session_cookie, setSessionCookie, serializeCookie. rewrite unreserved_kept by done.
  by destruct (usesCookieTransport _).
Qed.

Lemma refused_rotation o : ¬ (∃ s, o = GaveSession (Some s)) → ∀ B (k : Session → rtask B),
  spec (λ _ c, match c with Store _ => False | _ => True end) (ends (λ _ _, False) (λ _ _, True)) []
    (rbind (rotation_outcome parse_url options o) k).
Proof.
  intros Hno B k. apply rule_bind. unfold rotation_outcome. set (refused := if isStoreConflictError _ then _ else _).
  assert (∀ Q, spec (λ _ c, match c with Store _ => False | _ => True end) (ends Q (λ _ _, True)) [] refused) as H.
  { intros Q. unfold refused. destruct (isStoreConflictError _); [|done]. unfold clear_session_cookie.
    destruct (usesCookieTransport _); [by hstep|done]. }
  destruct o as [| | |[s|]| | | | |]; try apply H. destruct Hno. by exists s.
Qed.

Lemma rotated_settles current expected recognition verified rotated :
  (∀ jkt, ss_deviceBinding expected = Some jkt → isCanonicalDpopJkt (JStr jkt) = true) →
  lineage_of expected = lineage_of current → all_units name_unit (ss_sessionId expected) = true →
  wpt (λ _ _, ∃ now returned, snapshotVaultSession rotated (ss_sessionId expected) now = Ok returned
         ∧ assertVaultSessionMatches returned expected = Ok tt)
      (λ tr _, revokes tr (lineage_of current) ∨ mismatched options expected verified) []
    (check_rotated parse_url options config rotated expected recognition (lineage_of current) ;!
     let! issuedToken := withIssuedToken expected RefreshToken verified in
     callPostCommitHook options OnSessionRefreshed (Some (copyVaultSession false expected)) ;!
     set_session_cookie parse_url options (ss_sessionId expected) ;!
     Ret (Ok (createExchangeResponse (ro_vault options) expected issuedToken))).
Proof.
  intros Hc Hl Hid. apply rule_bind. eapply spec_mono; [done| |apply check_rotated_spec].
  intros tr [[]|e] Hagree; [|by left]. cbn in Hagree |- *. apply rule_bind.
  eapply spec_mono; [done| |apply (issuance_spec _ _ _ _ (λ _ _, True) expected RefreshToken verified tr Hc); done].
  intros tr2 [issued|e] Hi; cbn in Hi |- *.
  - apply rule_bind. eapply spec_mono; [done| |apply hook_settles]. intros tr3 [[]|e] H; [|done]. cbn.
    apply rule_bind. eapply spec_mono; [done| |by apply session_cookie_settles]. by intros tr4 [[]|e] H'.
  - destruct Hi as [[_ Hm]|(binding & r & o & rest & ->)]; [by right|]. left. rewrite <- Hl. exists o. set_solver.
Qed.


End properties.

(** ** Exchanges side by side *)

Section once.
Variable parse_url : jsstr → option URL.

(** The memory store gives a code up once. *)
Program Definition code_use (c : jsstr) : SingleUse parse_url := {|
  wins op o := (op = OpConsumeCode c ∨ ∃ m e, op = OpConsumeCodeIf c m e) ∧ ∃ r, o = GaveRecord (Some r);
  spent v := sw_get (exchangeCodes v) c = None;
  renews := creates_code c
|}.
Next Obligation.
  intros c op n1 n2 v o v' Hv He [Hop [r ->]].
  destruct (code_consumed parse_url op n1 n2 v _ v' c Hv He Hop) as (r' & s & [= <-] & -> & [[_ ?]|(test & _ & Hs & _ & _ & Hs')]); [done|].
  split; [congruence|exact Hs'].
Qed.
Next Obligation. intros c op n1 n2 v o v' Hv He Hop Hs. by eapply code_absent. Qed.

(** A request that exchanges [code], at any vault. *)
Definition exchanges (code : jsstr) (t : rtask ExchangeResult) : Prop :=
  ∃ parse_url origin_of sha256 decode_header decode_claims options config trustedOrigins rq,
    t = createExchangeHandler parse_url origin_of sha256 decode_header decode_claims options config trustedOrigins rq
    ∧ body_field rq "code" = JStr code.

Lemma exchange_wins code t : exchanges code t →
  spec (λ _ _, True) (λ tr a, (∃ result, a = Ok result) → ∃ e, e ∈ tr ∧ is_win parse_url (code_use code) e) [] t.
Proof.
  intros (p & o & s & dh & dc & options & config & trusted & rq & -> & Hb). eapply spec_mono; [by intros|..|apply exchange_spec].
  intros tr a H [result ->]. destruct H as (code' & record & session & verified & issued & [Hx _] & (op & raw & now & He%read_at_event & _ & _ & Hop & _) & _).
  assert (code' = code) as -> by (pose proof (xs_presented _ _ _ _ _ _ _ _ _ _ _ Hx); congruence).
  exists (Ev (Store op) (GaveRecord (Some raw))). split; [done|]. cbn. eauto.
Qed.

(** C7: Whatever number of requests present the same code to vaults on one memory store, in whatever order
    their calls reach it, and whatever else is done to the store meanwhile (short of creating the code again):
    no two of them succeed. *)
Theorem exchange_once (code : jsstr) (v : Vault) (requests : list (rtask ExchangeResult)) (w : world)
    (i j : nat) (r1 r2 : ExchangeResult) :
  vault_inv v → Forall (exchanges code) requests →
  rtc (wstep parse_url (creates_code code)) (mkWorld v requests []) w →
  w_tasks w !! i = Some (Ret (Ok r1)) → w_tasks w !! j = Some (Ret (Ok r2)) → i = j.
Proof.
  intros Hv Hall Hw Hi Hj.
  eapply (single_winner parse_url (code_use code) (exchanges code) (λ a, ∃ result, a = Ok result)); eauto using exchange_wins.
Qed.
(** The memory store rotates a session identifier once. *)
Definition stores_session (id : jsstr) (op : vault_op) : Prop :=
  match op with OpCreateSession s => s_sessionId s = id | OpRotateSession _ next => s_sessionId next = id | _ => False end.

Lemma session_absent id op n1 n2 v o v' : vault_inv v → vault_exec parse_url op n1 n2 v = Some (o, v') →
  ¬ stores_session id op → sw_get (sessions v) id = None → sw_get (sessions v') id = None.
Proof.
  intros Hv He Hop Hn. destruct (session_op_dec op) as [Hs|Hs].
  - destruct (session_ops_effect parse_url op n1 n2 v o v' Hv He Hs) as (s & m & -> & [_ Hu] & _). cbn. specialize (Hu id).
    assert (map_get (put_sessions op o) id = None) as E.
    { destruct op; try done; cbn [put_sessions]; destruct o as [| | |[x|]| | | | |]; try done; cbn [map_get];
        (rewrite (proj2 (jsstr_eqb_false _ _)); [done|cbn in Hop; congruence]). }
    rewrite E in Hu. destruct Hu as [->|[-> _]]; done.
  - destruct (exec_same parse_url op n1 n2 v o v' Hv He) as (_ & _ & _ & _ & H & _).
    destruct H as [-> _]; [|done]. by destruct op.
Qed.

Program Definition session_use (id : jsstr) : SingleUse parse_url := {|
  wins op o := (∃ next, op = OpRotateSession id next) ∧ ∃ s, o = GaveSession (Some s);
  spent v := sw_get (sessions v) id = None;
  renews := stores_session id
|}.
Next Obligation.
  intros id op n1 n2 v o v' Hv He [[next ->] [s ->]].
  destruct (put_keys parse_url _ n1 n2 v _ v' Hv He I) as [_ H]. split.
  - cbn [vault_exec] in He. pose proof (rotate_session_spec id next n1 v (inv_sessions_ok v Hv)) as Hr.
    destruct (rotateSession id next n1 v) as [[x|e] v1]; [|by injection He].
    destruct Hr as (source & next' & Hl & _). unfold live_session in Hl. by destruct (sw_get (sessions v) id).
  - eapply H. cbn [put_aliases map_get]. by rewrite jsstr_eqb_refl.
Qed.
Next Obligation. intros id op n1 n2 v o v' Hv He Hop Hs. by eapply session_absent. Qed.

(** A request that refreshes the session [id], at any vault. *)
Definition refreshes (id : jsstr) (t : rtask ExchangeResult) : Prop :=
  ∃ parse_url origin_of sha256 decode_header decode_claims options config trustedOrigins rq,
    t = createRefreshHandler parse_url origin_of sha256 decode_header decode_claims options config trustedOrigins rq
    ∧ getSessionIdFromRequest parse_url options rq "Refresh" = Ok id.

Lemma refresh_wins id t : refreshes id t →
  spec (λ _ _, True) (λ tr a, (∃ result, a = Ok result) → ∃ e, e ∈ tr ∧ is_win parse_url (session_use id) e) [] t.
Proof.
  intros (p & o & s & dh & dc & options & config & trusted & rq & -> & Hb). eapply spec_mono; [by intros|..|apply refresh_spec].
  intros tr a H [result ->]. destruct H as (current & next & verified & issued & (id' & rotated & Hs & _ & _ & He) & _).
  assert (id' = id) as -> by (pose proof (rf_presented _ _ _ _ _ _ _ _ _ _ _ Hs); congruence).
  exists (Ev (Store (OpRotateSession id (copyVaultSession false next))) (GaveSession (Some rotated))). split; [done|]. cbn. eauto.
Qed.

(** C8: Refreshes of one session, however many and however interleaved, over one memory store: no two succeed,
    as long as no fresh identifier collides with it. A refresh token is never rotated into two sessions. *)
Theorem refresh_once (id : jsstr) (v : Vault) (requests : list (rtask ExchangeResult)) (w : world)
    (i j : nat) (r1 r2 : ExchangeResult) :
  vault_inv v → Forall (refreshes id) requests →
  rtc (wstep parse_url (stores_session id)) (mkWorld v requests []) w →
  w_tasks w !! i = Some (Ret (Ok r1)) → w_tasks w !! j = Some (Ret (Ok r2)) → i = j.
Proof.
  intros Hv Hall Hw Hi Hj.
  eapply (single_winner parse_url (session_use id) (refreshes id) (λ a, ∃ result, a = Ok result)); eauto using refresh_wins.
Qed.
End once.
