(* ===== verification/VaultLogin.v ===== *)
(** express-oidc-vault: the login of [index.ts] — [createLoginHandler], [createLoginInitiationHandler],
    [createCallbackHandler] — and what holds of every way it can go.

    [URL] objects are behind two functions besides the parser: [resolve_url raw base] is [new URL(raw, base)],
    and [with_query url params] is [url.toString()] after [url.searchParams.set] of each of [params]. *)

From S2P Require Import Prelude JsValue JsJson AttestTypes AttestCanonical AttestVerify JsBuffer JsMap HeapAdmission VaultBinding VaultDpop VaultTickets VaultStore VaultSafety VaultGuarantees DpopNonce DpopPolicy DpopChallenge DpopProof VaultCookies VaultRoute VaultRecords VaultOrigins VaultProvider RouteTask VaultHandler VaultExchange.

Section handlers.
Variable parse_url : jsstr → option URL.
Variable origin_of : URL → jsstr.
Variable resolve_url : jsstr → URL → option URL.
Variable with_query : jsstr → list (jsstr * jsstr) → option jsstr.
Variable sha256 : list Z → list Z.
Variable options : RouteOptions.
Variable config : ResolvedConfig.
Variable trustedOrigins : list jsstr.
Variables backendOrigin basePath : jsstr.

Notation policy_allows jkt := (assertDeviceBindingPolicy (ro_deviceBinding options) (binding_value jkt)).
Notation assert_identity t := (assertAuthorizationTransactionIdentity t (rcf_issuer config) (Some (rcf_clientId config))).

Definition getCallbackUri : jsstr := backendOrigin ++ basePath ++ js "/callback".
Definition createPkceChallenge (verifier : jsstr) : jsstr := base64urlEncode (sha256 (utf8_encode verifier)).

Definition invalid_url : oidc_error := TypeError (js "Invalid URL").
Definition query_url (url : jsstr) (params : list (jsstr * jsstr)) : ores jsstr := or_invalid (with_query url params) invalid_url.

(** [appendQueryParam]: an absent or empty value is not set. *)
Definition appendQueryParam (name : string) (value : option jsstr) : list (jsstr * jsstr) :=
  match value with Some ((_ :: _) as v) => [(js name, v)] | _ => [] end.

Definition buildAuthorizationUrl (metadata : ProviderMetadata) (state nonce codeChallenge : jsstr) : ores jsstr :=
  query_url (pm_authorizationEndpoint metadata)
    (appendQueryParam "response_type" (Some (js "code")) ++ appendQueryParam "client_id" (Some (pm_clientId metadata))
     ++ appendQueryParam "redirect_uri" (Some getCallbackUri) ++ appendQueryParam "scope" (Some (pm_scopes metadata))
     ++ appendQueryParam "state" (Some state) ++ appendQueryParam "nonce" (Some nonce)
     ++ appendQueryParam "code_challenge" (Some codeChallenge) ++ appendQueryParam "code_challenge_method" (Some (js "S256"))).

Definition return_error (message : string) : oidc_error := http_error 400 "OIDC_VAULT_INVALID_RETURN_TO" message.

Definition resolveLoginReturnTo (rawReturnTo : jsval) : ores (option jsstr) :=
  match isString rawReturnTo with
  | None => Ok None
  | Some raw =>
      match ro_frontendRedirectUri options with
      | None | Some [] => Err (return_error "Custom returnTo requires a configured frontendRedirectUri.")
      | Some configured =>
          let* configuredUrl := or_invalid (parse_url configured) invalid_url in
          let* resolvedUrl := or_invalid (if starts_with (js "/") raw then resolve_url raw configuredUrl else parse_url raw)
                                (return_error "returnTo must be a valid URL.") in
          guard (jsstr_eqb (origin_of resolvedUrl) (origin_of configuredUrl))
            (return_error "returnTo must stay on the configured frontend origin.") ;;;
          Ok (Some (url_href resolvedUrl))
      end
  end.

(** The transaction of a login, as it is handed to the store. *)
Definition transaction_record (state nonce pkceVerifier : jsstr) (returnTo binding browserBindingHash : option jsstr)
    (now expiresAt : num) (metadata : jsval) : OneTimeRecord :=
  mkOneTime state (binding_value binding) (string_value browserBindingHash) (JNum now) (JNum expiresAt)
    [(js "nonce", JStr nonce); (js "pkceVerifier", JStr pkceVerifier);
     (js "codeChallenge", JStr (createPkceChallenge pkceVerifier)); (js "returnTo", string_value returnTo);
     (js "metadata", metadata)].

Definition transaction_expiry (now : num) : ores num :=
  computeExpiresAt now (default DEFAULT_AUTHORIZATION_TRANSACTION_TTL_MS (authorizationTransactionTtlMs (ro_lifetimes options)))
    (js "authorizationTransactionTtlMs").

(** * GET login *)

Definition createLoginHandler (rq : Request) : rtask jsstr :=
  pure_step (policy_allows None) ;!
  let! metadata := resolve_metadata in
  callHook options OnLoginStart None ;!
  let! now := getNow in
  let! random := randomBytes 32 in
  let pkceVerifier := base64urlEncode random in
  let! state := createOpaqueId "state" in
  let! nonce := createOpaqueId "nonce" in
  let! returnTo := pure_step (resolveLoginReturnTo (get_field (rq_query rq) (js "returnTo"))) in
  let! expiresAt := pure_step (transaction_expiry now) in
  store_done (OpCreateTransaction (transaction_record state nonce pkceVerifier returnTo None None now expiresAt JUndef)) ;!
  let! authorizationUrl := pure_step (buildAuthorizationUrl metadata state nonce (createPkceChallenge pkceVerifier)) in
  callHook options OnAuthorizationUrl None ;!
  Ret (Ok authorizationUrl).

(** * POST login *)

Definition assertLoginInitiationRequest (rq : Request) : ores unit :=
  assertTrustedOrigin parse_url origin_of (rq_head rq) (ro_vault options) trustedOrigins ActLogin ;;;
  guard (rq_isJson rq) (http_error 415 "OIDC_VAULT_UNSUPPORTED_REQUEST_BODY_TYPE" "Login initiation requires a JSON request body.").

Definition is_array (v : jsval) : bool := match v with JArr _ => true | _ => false end.

(** The metadata of the transaction: the provider's identity and the recognition of the browser. *)
Definition transaction_metadata (recognition : option jsstr) : jsval :=
  match createTransactionProviderMetadata (rcf_issuer config) (Some (rcf_clientId config)), recognition with
  | JObj p fs, Some h => JObj p (set_field fs FINGERPRINT_RECOGNITION_METADATA_KEY (recognition_value h))
  | m, _ => m
  end.

(** The proof of a login: of any key, or none where the policy lets it. *)
Definition prove_login (rq : Request) : rtask (option VerifiedBinding) :=
  pure_step (guard (proving options || (rh_count (cp_header (captured_proof rq)) =? 0)%nat)
               (OidcVaultHttpError 401 (js "OIDC_VAULT_INVALID_DPOP_PROOF") (js "DPoP login initiation is not enabled.")
                  (js "DPoP proof validation failed."))) ;!
  if proving options then prove (Initiate (captured_proof rq)) else Ret (Ok None).

Definition createLoginInitiationHandler (rq : Request) : rtask jsstr :=
  let! recognition := pure_step (captureFingerprintRecognition sha256 (hd_rawHeaders (rq_head rq)) (ro_fingerprint options)) in
  pure_step (assertLoginInitiationRequest rq) ;!
  let returnToValue := body_field rq "returnTo" in
  pure_step (guard (negb (is_array (rq_body rq) || (negb (is_undef returnToValue) && bool_decide (isString returnToValue = None))))
               (http_error 400 "OIDC_VAULT_INVALID_REQUEST_BODY" "Login initiation request body is invalid.")) ;!
  let! returnTo := pure_step (resolveLoginReturnTo returnToValue) in
  let! verified := prove_login rq in
  let! binding := pure_step (snapshotDpopBinding (verified_value verified)) in
  let! metadata := resolve_metadata in
  callHook options OnLoginStart None ;!
  let! now := getNow in
  let! random := randomBytes 32 in
  let browserBinding := createTransactionBrowserBinding sha256 random in
  let! random := randomBytes 32 in
  let pkceVerifier := base64urlEncode random in
  let! state := createOpaqueId "state" in
  let! nonce := createOpaqueId "nonce" in
  let! expiresAt := pure_step (transaction_expiry now) in
  let! authorizationUrl := pure_step (buildAuthorizationUrl metadata state nonce (createPkceChallenge pkceVerifier)) in
  store_done (OpCreateTransaction (transaction_record state nonce pkceVerifier returnTo binding (Some browserBinding.2) now
                                     expiresAt (transaction_metadata recognition))) ;!
  callHook options OnAuthorizationUrl None ;!
  let! now := getNow in
  let! cookie := pure_step (setTransactionCookie (ro_transactionCookie options) browserBinding.1 expiresAt now) in
  set_cookie cookie ;!
  Ret (Ok authorizationUrl).

(** * The callback *)

(** A transaction's record, or the error of a state that is not one. *)
Definition live_transaction (record : option OneTimeRecord) (state : jsstr) : rtask TransactionSnapshot :=
  let! record := pure_step (or_invalid record invalidAuthorizationState) in
  let! now := getNow in
  let! transaction := pure_step (snapshotAuthorizationTransaction record state now) in
  pure_step (assert_identity transaction) ;!
  pure_step (policy_allows (bm_deviceBinding (ts_match transaction))) ;!
  Ret (Ok transaction).

Definition consume_transaction (state : jsstr) (transaction : TransactionSnapshot) : rtask unit :=
  let! op :=
    if can options "consumeAuthorizationTransactionIfMatches"
    then Ret (Ok (OpConsumeTransactionIf state (match_value (ts_match transaction))))
    else
      pure_step (guard (bool_decide (bm_browserBindingHash (ts_match transaction) = None))
                   (TypeError (js "Guarded callbacks require storeProvider.consumeAuthorizationTransactionIfMatches."))) ;!
      Ret (Ok (OpConsumeTransaction state)) in
  let! consumed := store_record op in
  let! returned := live_transaction consumed state in
  pure_step (assertAuthorizationTransactionMatches returned transaction).

Definition resolveCallbackDestination (transaction : TransactionSnapshot) : ores jsstr :=
  match (match ts_returnTo transaction with Some r => Some r | None => ro_frontendRedirectUri options end) with
  | Some ((_ :: _) as uri) => Ok uri
  | _ => Err (http_error 500 "OIDC_VAULT_MISSING_FRONTEND_REDIRECT_URI"
                "A frontendRedirectUri or login returnTo is required to complete the callback flow.")
  end.

(** The provider's identity of a new session: of the metadata, or of the token. *)
Definition session_provider (metadata : ProviderMetadata) (claims : jsval) : provider_id :=
  (match pm_issuer metadata with Some issuer => Some issuer | None => as_string (get_field claims (js "iss")) end,
   Some (pm_clientId metadata)).
Definition provider_value (p : provider_id) : jsval := JObj true (identity_fields false p).

(** The session of a callback, before the application sees it. *)
Definition new_session (sessionId subject : jsstr) (provider : provider_id) (claims tokenResponse : jsval) (metadata : ProviderMetadata)
    (transaction : TransactionSnapshot) (userInfo : option jsval) (now : num) (sessionExpiresAt : option num) : Session :=
  mkSession sessionId (Some sessionId) (JStr subject) (string_value (as_string (get_field claims (js "sid")))) (provider_value provider)
    (binding_value (bm_deviceBinding (ts_match transaction))) (get_field tokenResponse (js "refresh_token"))
    (get_field tokenResponse (js "id_token"))
    (match sessionExpiresAt with Some e => JNum e | None => JUndef end) (JNum now) (JNum now)
    [(js "accessToken", string_value (isString (get_field tokenResponse (js "access_token"))));
     (js "scope", JStr (default (pm_scopes metadata) (as_string (get_field tokenResponse (js "scope")))));
     (js "user", copyVaultUserProfile (mergeUserProfile subject (own_fields claims) (own_fields (default JUndef userInfo))));
     (js "metadata", withFingerprintRecognitionMetadata (JObj true [(js "tokenType", get_field tokenResponse (js "token_type"))])
                       (ts_fingerprintRecognition transaction))].

Definition with_expiry (s : Session) (e : jsval) : Session :=
  mkSession (s_sessionId s) (s_logicalSessionId s) (s_subject s) (s_providerSessionId s) (s_provider s) (s_deviceBinding s)
    (s_refreshToken s) (s_idToken s) e (s_createdAt s) (s_updatedAt s) (s_rest s).

(** [Math.min] *)
Definition num_min (a b : num) : num := match a, b with NaN, _ | _, NaN => NaN | _, _ => if num_lt b a then b else a end.

(** The absolute cap, whatever a hook made of the expiry. *)
Definition capped_expiry (expiresAt : jsval) (sessionExpiresAt : num) : jsval :=
  match expiresAt with
  | JNum e => JNum (if bool_decide (is_Some (usable_epoch e)) then num_min e sessionExpiresAt else sessionExpiresAt)
  | _ => JNum sessionExpiresAt
  end.

Definition rest_without (s : Session) (name : string) : list (jsstr * jsval) :=
  List.filter (λ f, negb (jsstr_eqb f.1 (js name))) (s_rest s).

(** [copySessionApplicationFields] with the original identity, for a guarded login. *)
Definition restored_identity (session : Session) (sessionId : jsstr) (provider : provider_id) : Session :=
  mkSession sessionId (Some sessionId) (s_subject session) (s_providerSessionId session) (provider_value provider) JUndef
    (s_refreshToken session) (s_idToken session) (s_expiresAt session) (s_createdAt session) (s_updatedAt session)
    (rest_without session "browserBindingHash").

(** What the store is asked to create after the hook: the original key and recognition. *)
Definition restored_session (session : Session) (sessionId : jsstr) (provider : provider_id) (transaction : TransactionSnapshot)
    : Session :=
  let guarded := bool_decide (is_Some (bm_browserBindingHash (ts_match transaction))) in
  let s := with_binding (if guarded then restored_identity session sessionId provider else session)
             (binding_value (bm_deviceBinding (ts_match transaction))) in
  mkSession (s_sessionId s) (s_logicalSessionId s) (s_subject s) (s_providerSessionId s) (s_provider s) (s_deviceBinding s)
    (s_refreshToken s) (s_idToken s) (s_expiresAt s) (s_createdAt s) (s_updatedAt s)
    (set_field (set_field (s_rest s) (js "user") (copyVaultUserProfile (s_field s "user")))
       (js "metadata") (withFingerprintRecognitionMetadata (s_field s "metadata") (ts_fingerprintRecognition transaction))).

(** The store's session is the one that was restored. *)
Definition check_created (created : Session) (sessionId : jsstr) (provider : provider_id) (transaction : TransactionSnapshot) : ores unit :=
  let bad := invalidAuthorizationState in
  let* returnedBinding := snapshotDpopBinding (s_deviceBinding created) in
  guard (bool_decide (returnedBinding = bm_deviceBinding (ts_match transaction))) bad ;;;
  let* recognition := snapshotFingerprintRecognition (s_field created "metadata") in
  guard (fingerprintRecognitionMatches recognition (ts_fingerprintRecognition transaction)) bad ;;;
  guard (negb (bool_decide (is_Some (bm_browserBindingHash (ts_match transaction)))
               && (negb (jsstr_eqb (s_sessionId created) sessionId)
                   || negb (bool_decide (s_logicalSessionId created = Some sessionId))
                   || negb (js_strict_eq (get_field (s_provider created) (js "issuer")) (string_value provider.1))
                   || negb (js_strict_eq (get_field (s_provider created) (js "clientId")) (string_value provider.2))))) bad.

(** The exchange code of a new session. *)
Definition code_record (code sessionId : jsstr) (transaction : TransactionSnapshot) (now expiresAt : num) : OneTimeRecord :=
  mkOneTime code (binding_value (bm_deviceBinding (ts_match transaction)))
    (string_value (bm_browserBindingHash (ts_match transaction))) (JNum now) (JNum expiresAt)
    [(js "sessionId", JStr sessionId); (js "returnTo", string_value (ts_returnTo transaction))].

(** [copyVaultSession] of a record of the store. *)
Definition copy_record (s : Session) : Session :=
  let copy := portable_value (omits_recognition false) in
  mkSession (s_sessionId s) (s_logicalSessionId s) (copy (s_subject s)) (copy (s_providerSessionId s)) (copy (s_provider s))
    (copy (s_deviceBinding s)) (copy (s_refreshToken s)) (copy (s_idToken s)) (copy (s_expiresAt s)) (copy (s_createdAt s))
    (copy (s_updatedAt s)) (map (λ f, (f.1, copy f.2)) (s_rest s)).

(** The session and its exchange code: both, or neither. *)
Definition commit_callback (session : Session) (sessionId : jsstr) (provider : provider_id) (transaction : TransactionSnapshot)
    (now exchangeExpiresAt : num) : rtask (jsstr * Session) :=
  let guarded := bool_decide (is_Some (bm_browserBindingHash (ts_match transaction))) in
  let! createdSession := store_session (OpCreateSession (restored_session session sessionId provider transaction)) in
  let! createdSession := pure_step (or_invalid createdSession (Foreign JUndef)) in
  let createdSessionId := if guarded then sessionId else s_sessionId createdSession in
  let logicalSessionId := if guarded then sessionId else lineage createdSession in
  let! exchangeCode := createOpaqueId "code" in
  tcatch
    (pure_step (check_created createdSession sessionId provider transaction) ;!
     store_done (OpCreateCode (code_record exchangeCode createdSessionId transaction now exchangeExpiresAt)))
    (λ e, store_count (OpDeleteByLogical logicalSessionId) ;! throw e) ;!
  Ret (Ok (exchangeCode, createdSession)).

(** The provider's part: the tokens, the verified claims and the user info. *)
Definition callback_identity (code : jsstr) (transaction : TransactionSnapshot)
    : rtask (ProviderMetadata * jsval * jsval * jsstr * option jsval) :=
  let! metadata := resolve_metadata in
  let! tokenResponse := requestToken metadata "authorization_code"
    [(js "code", code); (js "code_verifier", ts_pkceVerifier transaction); (js "redirect_uri", getCallbackUri)] in
  pure_step (validateCallbackTokenResponse tokenResponse) ;!
  callHook options OnCallbackTokens None ;!
  let! claims := verifyIdToken metadata (default [] (isString (get_field tokenResponse (js "id_token")))) (Some (ts_nonce transaction)) in
  let! subject := pure_step (getRequiredString (get_field claims (js "sub")) (js "OIDC id_token is missing sub.")
                               (js "OIDC_VAULT_INVALID_ID_TOKEN") 502) in
  let! userInfo := user_info options metadata tokenResponse subject in
  (match userInfo with Some _ => callHook options OnUserInfo None ;! Ret (Ok tt) | None => Ret (Ok tt) end) ;!
  Ret (Ok (metadata, tokenResponse, claims, subject, userInfo)).

(** From the consumed transaction on. *)
Definition finish_callback (providerError : option jsstr) (code : jsstr) (transaction : TransactionSnapshot)
    (cookieSecret frontendDestination : option jsstr) : rtask jsstr :=
  tcatch
    (match providerError with
     | Some message => fail (OidcVaultHttpError 400 (js "OIDC_VAULT_CALLBACK_ERROR") message (js "OIDC callback failed."))
     | None => Ret (Ok tt)
     end ;!
     let! identity := callback_identity code transaction in
     let '(metadata, tokenResponse, claims, subject, userInfo) := identity in
     let! now := getNow in
     let! sessionExpiresAt := pure_step (match sessionTtlMs (ro_lifetimes options) with
                                         | None => Ok None
                                         | Some ttl => let* e := computeExpiresAt now ttl (js "sessionTtlMs") in Ok (Some e)
                                         end) in
     let! exchangeExpiresAt := pure_step (computeExpiresAt now
       (default DEFAULT_EXCHANGE_CODE_TTL_MS (exchangeCodeTtlMs (ro_lifetimes options))) (js "exchangeCodeTtlMs")) in
     let! sessionId := createOpaqueId "sess" in
     let provider := session_provider metadata claims in
     let session := new_session sessionId subject provider claims tokenResponse metadata transaction userInfo now sessionExpiresAt in
     let! hooked := callHook options OnBeforeSessionCreate (Some session) in
     let session := default session hooked in
     let session := match sessionExpiresAt with Some e => with_expiry session (capped_expiry (s_expiresAt session) e) | None => session end in
     let! created := commit_callback session sessionId provider transaction now exchangeExpiresAt in
     callPostCommitHook options OnSessionCreated
       (Some (with_binding (copy_record created.2) (binding_value (bm_deviceBinding (ts_match transaction))))) ;!
     match cookieSecret with
     | Some secret =>
         let! now := getNow in
         let! cookie := pure_step (setTransactionCookie (ro_transactionCookie options) secret exchangeExpiresAt now) in
         set_cookie cookie
     | None => Ret (Ok tt)
     end ;!
     pure_step (query_url (default [] frontendDestination) [(js "code", created.1)]))
    (λ e, clear_transaction_cookie options cookieSecret ;! throw e).

Definition createCallbackHandler (rq : Request) : rtask jsstr :=
  let field name := get_field (rq_query rq) (js name) in
  let providerError := isString (field "error"%string) in
  let! code := pure_step (match providerError with
                          | Some _ => Ok []
                          | None => getRequiredString (field "code"%string) (js "OIDC callback is missing the authorization code.")
                                      (js "OIDC_VAULT_MISSING_CODE") 400
                          end) in
  let! state := pure_step (getRequiredString (field "state"%string) (js "OIDC callback is missing state.") (js "OIDC_VAULT_MISSING_STATE") 400) in
  let canPreflight := can options "getAuthorizationTransaction" in
  let! preflight := store_record (if canPreflight then OpGetTransaction state else OpConsumeTransaction state) in
  let! transaction := live_transaction preflight state in
  let! cookieSecret := pure_step (authenticateTransactionCookie sha256 (rq_cookie rq) (ro_transactionCookie options) (ts_match transaction)) in
  let! frontendDestination := pure_step (match providerError with
                                         | Some _ => Ok None
                                         | None => let* uri := resolveCallbackDestination transaction in Ok (Some uri)
                                         end) in
  (if canPreflight then consume_transaction state transaction else Ret (Ok tt)) ;!
  finish_callback providerError code transaction cookieSecret frontendDestination.
End handlers.

(** * Properties *)

Section properties.
Variable with_query : jsstr → list (jsstr * jsstr) → option jsstr.
Variable sha256 : list Z → list Z.
Variable options : RouteOptions.
Variable config : ResolvedConfig.
Variables backendOrigin basePath : jsstr.

Notation callback := (createCallbackHandler with_query sha256 options config backendOrigin basePath).

(** What a callback has shown of the transaction it continues: it was live at the time the clock gave next after it
    was read, belongs to the configured provider and is bound as the policy wants; and when the login was bound to a
    browser, this is that browser. *)
Record callback_shown (rq : Request) (tr : trace) (state : jsstr) (transaction : TransactionSnapshot) : Prop := {
  cb_presented : get_field (rq_query rq) (js "state") = JStr state;
  cb_read : ∃ raw now,
    read_at tr (if can options "getAuthorizationTransaction" then OpGetTransaction state else OpConsumeTransaction state)
      (GaveRecord (Some raw)) now
    ∧ snapshotAuthorizationTransaction raw state now = Ok transaction ∧ unexpired now (Some (ts_expiresAt transaction));
  cb_identity : identity_agrees (ts_provider transaction) (rcf_issuer config) (Some (rcf_clientId config)) = true;
  cb_policy : policy_ok options (bm_deviceBinding (ts_match transaction));
  cb_browser : ∀ h, bm_browserBindingHash (ts_match transaction) = Some h →
    ∃ secret, parseTransactionCookie (rq_cookie rq) (tc_name (ro_transactionCookie options)) = Ok (Some secret)
      ∧ hashSecret sha256 secret = h
}.

(** The answer with which the store gave the transaction up: its own record, still live. *)
Definition transaction_given_up (tr : trace) (state : jsstr) (transaction : TransactionSnapshot) : Prop :=
  ∃ op raw now returned, read_at tr op (GaveRecord (Some raw)) now
    ∧ snapshotAuthorizationTransaction raw state now = Ok returned ∧ unexpired now (Some (ts_expiresAt returned))
    ∧ ts_state returned = ts_state transaction ∧ ts_nonce returned = ts_nonce transaction
    ∧ ts_pkceVerifier returned = ts_pkceVerifier transaction ∧ ts_match returned = ts_match transaction
    ∧ (op = OpConsumeTransaction state ∨ ∃ m, op = OpConsumeTransactionIf state m)
    ∧ (can options "getAuthorizationTransaction" = true → is_Some (bm_browserBindingHash (ts_match transaction)) →
       op = OpConsumeTransactionIf state (match_value (ts_match transaction))).

(** An ID token of the provider was verified for this login. *)
Definition id_token_verified (tr : trace) (transaction : TransactionSnapshot) (claims : jsval) : Prop :=
  ∃ metadata token typ, Ev (JwtVerify token (pm_clientId metadata) (pm_issuer metadata)) (Ok (claims, typ)) ∈ tr
    ∧ check_id_token metadata (Some (ts_nonce transaction)) claims = Ok tt.

Definition continues_login (rq : Request) (tr : trace) (state : jsstr) (transaction : TransactionSnapshot) : Prop :=
  callback_shown rq tr state transaction ∧ transaction_given_up tr state transaction.

(** The absolute cap, where one is configured: so long after what the clock gave to the callback. *)
Definition under_cap (tr : trace) (s : Session) : Prop :=
  ∀ ttl, sessionTtlMs (ro_lifetimes options) = Some ttl →
  ∃ now t l n, Ev Clock now ∈ tr ∧ num_is now t ∧ num_is ttl l ∧ s_expiresAt s = JNum n ∧ num_le n (num_of_Z (t + l)) = true.

(** A session as the callback creates it: bound and recognized as the transaction, under the absolute cap, and, for
    a guarded login, with the identity the vault chose. *)
Definition created_from (tr : trace) (transaction : TransactionSnapshot) (provider : provider_id) (sessionId : jsstr) (s : Session) : Prop :=
  s_deviceBinding s = binding_value (bm_deviceBinding (ts_match transaction))
  ∧ (∃ metadata, s_field s "metadata" = withFingerprintRecognitionMetadata metadata (ts_fingerprintRecognition transaction))
  ∧ under_cap tr s
  ∧ (is_Some (bm_browserBindingHash (ts_match transaction)) →
     s_sessionId s = sessionId ∧ s_logicalSessionId s = Some sessionId ∧ s_provider s = provider_value provider).

(** What has been shown when a call of the callback is made. *)
Definition callback_call (rq : Request) (tr : trace) (c : call) : Prop :=
  match c with
  | Store (OpConsumeTransaction state) =>
      get_field (rq_query rq) (js "state") = JStr state
      ∧ (can options "getAuthorizationTransaction" = true →
         ∃ transaction, callback_shown rq tr state transaction ∧ bm_browserBindingHash (ts_match transaction) = None)
  | Store (OpConsumeTransactionIf state m) => ∃ transaction, callback_shown rq tr state transaction ∧ m = match_value (ts_match transaction)
  | Post request =>
      ∃ state transaction metadata code, continues_login rq tr state transaction
        ∧ prepare_token_request metadata
            [(js "grant_type", js "authorization_code"); (js "code", code); (js "code_verifier", ts_pkceVerifier transaction);
             (js "redirect_uri", getCallbackUri backendOrigin basePath)] = Ok request
  | Store (OpCreateSession s) =>
      ∃ state transaction claims metadata sessionId, continues_login rq tr state transaction
        ∧ id_token_verified tr transaction claims ∧ created_from tr transaction (session_provider metadata claims) sessionId s
  | Store (OpCreateCode record) =>
      ∃ state transaction s created sessionId code now expiresAt, continues_login rq tr state transaction
        ∧ Ev (Store (OpCreateSession s)) (GaveSession (Some created)) ∈ tr
        ∧ snapshotDpopBinding (s_deviceBinding created) = Ok (bm_deviceBinding (ts_match transaction))
        ∧ s_sessionId created = sessionId ∧ Ev Clock now ∈ tr
        ∧ record = code_record code sessionId transaction now expiresAt
  | _ => True
  end.

Definition callback_result (rq : Request) (tr : trace) (location : jsstr) : Prop :=
  ∃ state transaction destination code record, continues_login rq tr state transaction
    ∧ resolveCallbackDestination options transaction = Ok destination
    ∧ Ev (Store (OpCreateCode record)) VaultSafety.Done ∈ tr ∧ ot_id record = code
    ∧ with_query destination [(js "code", code)] = Some location.

Lemma transaction_matches a b u : assertAuthorizationTransactionMatches a b = Ok u →
  ts_state a = ts_state b ∧ ts_nonce a = ts_nonce b ∧ ts_pkceVerifier a = ts_pkceVerifier b ∧ ts_match a = ts_match b.
Proof.
  unfold assertAuthorizationTransactionMatches, recordBindingMatches. intros H%guard_Ok. repeat (apply andb_true_iff in H as [H ?]).
  destruct (ts_match a), (ts_match b). cbn in *.
  repeat match goal with
  | X : jsstr_eqb _ _ = true |- _ => apply jsstr_eqb_true in X
  | X : bool_decide _ = true |- _ => apply bool_decide_eq_true in X
  | X : _ && _ = true |- _ => apply andb_true_iff in X as [? ?]
  end. by subst.
Qed.

Lemma callback_shown_later rq tr more state t : callback_shown rq tr state t → callback_shown rq (tr ++ more) state t.
Proof.
  intros [H1 (raw & now & Hr & Hs) H3 H4 H5]. split; [done| |done..]. exists raw, now. split; [by apply read_at_later|done].
Qed.
Lemma given_up_later tr more state t : transaction_given_up tr state t → transaction_given_up (tr ++ more) state t.
Proof. intros (op & raw & now & returned & He & H). exists op, raw, now, returned. split; [by apply read_at_later|done]. Qed.
Lemma continues_login_later rq tr more state t : continues_login rq tr state t → continues_login rq (tr ++ more) state t.
Proof. intros [H1 H2]. split; [by apply callback_shown_later|by apply given_up_later]. Qed.
Lemma verified_later tr more t claims : id_token_verified tr t claims → id_token_verified (tr ++ more) t claims.
Proof. intros (m & token & typ & He & Hc). exists m, token, typ. split; [|done]. apply elem_of_app. by left. Qed.

Notation wp rq Q := (spec (callback_call rq) (ends Q (λ _ _, True))).

(** The calls that need nothing shown. *)
Definition quiet_call (c : call) : Prop :=
  match c with
  | Store (OpConsumeTransaction _) | Store (OpConsumeTransactionIf _ _) | Post _ | Store (OpCreateSession _) | Store (OpCreateCode _) => False
  | _ => True
  end.
Notation quiet := (calls quiet_call).

Lemma rule_quiet_callback {A B} rq Q tr (t : rtask A) (k : A → rtask B) :
  quiet tr t → (∀ more a, wp rq Q (tr ++ more) (k a)) → wp rq Q tr (rbind t k).
Proof. apply rule_calls; [|done]. intros tr' c Hc. destruct c as [op| | | | | | | | | |]; try done. by destruct op. Qed.

Lemma usable_fin n z : usable_epoch n = Some z → ∃ q, n = Fin q.
Proof. unfold usable_epoch, safe_integer. destruct n; try done. eauto. Qed.

Lemma computed_usable now ttl name e : computeExpiresAt now ttl name = Ok e → is_Some (usable_epoch e).
Proof.
  unfold computeExpiresAt. intros H. res_step H as ? _. res_step H as ? Hg. injection H as <-. apply guard_Ok in Hg.
  apply andb_true_iff in Hg as [[_ Hg]%andb_true_iff _]. by apply bool_decide_eq_true in Hg.
Qed.

Lemma capped v e : is_Some (usable_epoch e) → ∃ n, capped_expiry v e = JNum n ∧ num_le n e = true.
Proof.
  intros [z Hz]. destruct (usable_fin e z Hz) as [q ->].
  assert (num_le (Fin q) (Fin q) = true) as Hrefl by (cbn; apply Qle_bool_iff, QArith_base.Qle_refl).
  unfold capped_expiry. destruct v; try (eexists; by split). eexists. split; [done|].
  case_bool_decide as Hu; [|done]. destruct Hu as [z' Hz']. destruct (usable_fin n z' Hz') as [q' ->].
  unfold num_min. destruct (num_lt (Fin q) (Fin q')) eqn:E; [done|]. unfold num_lt in E. apply andb_false_iff in E as [E|E].
  - cbn in *. apply Qle_bool_iff. destruct (QArith_base.Qlt_le_dec q q') as [Hlt|]; [|done].
    apply QArith_base.Qlt_le_weak, Qle_bool_iff in Hlt. congruence.
  - by apply negb_false_iff in E.
Qed.

Lemma restored_created tr session sessionId provider transaction :
  under_cap tr session → created_from tr transaction provider sessionId (restored_session session sessionId provider transaction).
Proof.
  intros Hcap. split; [done|]. split; [|split].
  - eexists. unfold s_field at 1. cbn [s_rest restored_session get_field]. rewrite lookup_set_field, jsstr_eqb_refl. done.
  - intros ttl Ht. destruct (Hcap ttl Ht) as (now & t & l & n & H). exists now, t, l, n.
    unfold restored_session. cbn [s_expiresAt with_binding]. by case_bool_decide.
  - intros Hg. unfold restored_session. by rewrite bool_decide_true.
Qed.

Lemma quiet_callback_hook h session tr : quiet tr (callHook options h session).
Proof. unfold callHook, run_hook. destruct (ro_hooks options h); [|done]. split; [done|]. intros r. by destruct r. Qed.

Lemma quiet_id prefix tr : quiet tr (createOpaqueId prefix).
Proof. unfold createOpaqueId. by hstep. Qed.

Lemma quiet_post_hook h session tr : quiet tr (callPostCommitHook options h session).
Proof.
  unfold callPostCommitHook. apply calls_tcatch; [by apply calls_rbind; [apply quiet_callback_hook|]|]. intros tr' e.
  apply calls_tcatch; [by apply calls_rbind; [apply quiet_callback_hook|]|done].
Qed.

(** The transaction's record, read. *)
Lemma live_spec {B} rq Q tr record state (k : TransactionSnapshot → rtask B) :
  (∀ raw now t, record = Some raw → snapshotAuthorizationTransaction raw state now = Ok t →
     unexpired now (Some (ts_expiresAt t)) →
     identity_agrees (ts_provider t) (rcf_issuer config) (Some (rcf_clientId config)) = true →
     policy_ok options (bm_deviceBinding (ts_match t)) → wp rq Q (tr ++ [Ev Clock now]) (k t)) →
  wp rq Q tr (rbind (live_transaction options config record state) k).
Proof.
  intros Hk. apply rule_bind. unfold live_transaction. hcheck raw ->%or_invalid_Ok. hstep. hcheck t Ht. hcheck [] Hi%guard_Ok.
  hcheck [] Hp%policy_bound. apply rule_ret, (Hk raw n t); try done. by eapply transaction_lives.
Qed.

Lemma consume_step_spec {B} rq Q tr state t (k : unit → rtask B) :
  callback_shown rq tr state t →
  (∀ more, transaction_given_up (tr ++ more) state t → wp rq Q (tr ++ more) (k tt)) →
  wp rq Q tr (rbind (consume_transaction options config state t) k).
Proof.
  intros Hs Hk. apply rule_bind. unfold consume_transaction.
  assert (∀ op, callback_call rq tr (Store op) → (op = OpConsumeTransaction state ∨ ∃ m, op = OpConsumeTransactionIf state m) →
    (is_Some (bm_browserBindingHash (ts_match t)) → op = OpConsumeTransactionIf state (match_value (ts_match t))) →
    wp rq (λ tr' a, wp rq Q tr' (k a)) tr
      (let! consumed := store_record op in
       let! returned := live_transaction options config consumed state in
       pure_step (assertAuthorizationTransactionMatches returned t))) as Hconsume.
  { intros op Hop Hform Hguard. apply rule_record; [exact Hop|done|]. intros r. apply live_spec. intros raw now t' -> Ht' Hlive _ _.
    hcheck_last [] Hm%transaction_matches. rewrite <- app_assoc. apply Hk. rewrite app_assoc. exists op, raw, now, t'.
    split; [clocked|]. tauto. }
  destruct (can options "consumeAuthorizationTransactionIfMatches").
  - apply rule_value, Hconsume; [by exists t|right; by eexists|done].
  - apply rule_bind. hcheck [] Hg%guard_Ok%bool_decide_eq_true. apply rule_ret, Hconsume; [|by left|rewrite Hg; by intros []].
    split; [by apply (cb_presented _ _ _ _ Hs)|]. by exists t.
Qed.

(** The provider's part makes one request, with this transaction's verifier, and verifies the ID token with its nonce. *)
Lemma callback_identity_spec {B} rq Q tr code state t
    (k : ProviderMetadata * jsval * jsval * jsstr * option jsval → rtask B) :
  continues_login rq tr state t →
  (∀ more m tokens claims subject userInfo, id_token_verified (tr ++ more) t claims →
     wp rq Q (tr ++ more) (k (m, tokens, claims, subject, userInfo))) →
  wp rq Q tr (rbind (callback_identity options backendOrigin basePath code t) k).
Proof.
  intros Hl Hk. apply rule_bind. unfold callback_identity. hstep.
  match goal with m : ProviderMetadata |- _ => rename m into metadata end.
  apply rule_bind. unfold requestToken. hcheck request Hreq.
  apply rule_post; [exists state, t, metadata, code; split; [by apply continues_login_later|exact Hreq]| |done]. intros [status text].
  hstep. hcheck [] _. apply rule_quiet_callback; [apply quiet_callback_hook|]. intros more1 _.
  apply rule_bind. unfold verifyIdToken. hcheck [] _. hstep. hcheck [] Hc. apply rule_ret. hcheck subject _.
  match goal with r : jsval * jsval |- _ => destruct r as [claims typ] end. cbn [fst] in *.
  match goal with |- spec _ _ ?t _ => set (tr1 := t) in * end.
  assert (id_token_verified tr1 t claims) as Hv by (eexists metadata, _, typ; split; [unfold tr1; traced|exact Hc]).
  apply rule_quiet_callback; [by apply user_info_calls|].
  intros more2 userInfo.
  apply rule_quiet_callback; [destruct userInfo; [|done]; by apply calls_rbind; [apply quiet_callback_hook|]|]. intros more3 _. apply rule_ret.
  pose proof (verified_later _ more2 _ _ Hv) as Hv2. apply (verified_later _ more3) in Hv2. unfold tr1 in *. rewrite <- !app_assoc in *.
  by apply Hk.
Qed.

Lemma check_created_spec created sessionId provider t u : check_created created sessionId provider t = Ok u →
  snapshotDpopBinding (s_deviceBinding created) = Ok (bm_deviceBinding (ts_match t))
  ∧ snapshotFingerprintRecognition (s_field created "metadata") = Ok (ts_fingerprintRecognition t)
  ∧ (is_Some (bm_browserBindingHash (ts_match t)) → s_sessionId created = sessionId ∧ s_logicalSessionId created = Some sessionId).
Proof.
  unfold check_created. intros H. res_step H as b Hb. res_step H as ? Hg. apply guard_Ok, bool_decide_eq_true in Hg as ->.
  res_step H as r Hr. res_step H as ? Hm. apply guard_Ok, bool_decide_eq_true in Hm as ->. split; [done|]. split; [done|].
  intros Hs. apply guard_Ok in H. rewrite bool_decide_true in H by done. cbn [andb] in H.
  apply negb_true_iff, orb_false_iff in H as [[[H1 H2]%orb_false_iff _]%orb_false_iff _].
  apply negb_false_iff, jsstr_eqb_true in H1. by apply negb_false_iff, bool_decide_eq_true in H2.
Qed.

(** What the commit of a session leaves behind. *)
Definition committed (tr : trace) (code : jsstr) : Prop :=
  ∃ record, Ev (Store (OpCreateCode record)) VaultSafety.Done ∈ tr ∧ ot_id record = code.

Lemma commit_callback_spec {B} rq Q tr state t claims metadata session sessionId now expiresAt (k : jsstr * Session → rtask B) :
  continues_login rq tr state t → id_token_verified tr t claims →
  under_cap tr session → Ev Clock now ∈ tr →
  (∀ more code created, committed (tr ++ more) code → wp rq Q (tr ++ more) (k (code, created))) →
  wp rq Q tr (rbind (commit_callback session sessionId (session_provider metadata claims) t now expiresAt) k).
Proof.
  intros Hl Hv Hcap Hnow Hk. apply rule_bind. unfold commit_callback. set (restored := restored_session _ _ _ _).
  apply rule_session; [|done|].
  { exists state, t, claims, metadata, sessionId. split; [done|]. split; [done|]. by apply restored_created. }
  intros o. hcheck created ->%or_invalid_Ok. unfold createOpaqueId. apply rule_bind. hstep. apply rule_ret.
  set (code := js "code" ++ _). apply rule_bind. apply spec_tcatch. set (guarded := bool_decide _).
  match goal with |- spec _ _ ?t _ => set (tr1 := t) in * end.
  assert (∀ tr e, wp rq (λ tr' (_ : unit), wp rq (λ tr a, wp rq Q tr (k a)) tr' (Ret (Ok (code, created)))) tr
    (store_count (OpDeleteByLogical (if guarded then sessionId else lineage created)) ;! throw e)) as Hback by (by intros tr' e; hstep).
  hcheck [] Hc. apply rule_done_last; [|intros; apply Hback|].
  - apply check_created_spec in Hc as (Hb & _ & Hid). exists state, t, restored, created, (s_sessionId created), code, now, expiresAt.
    split; [by apply continues_login_later, continues_login_later|]. split; [unfold tr1; traced|]. split; [done|]. split; [done|].
    split; [unfold tr1; traced|]. unfold guarded. case_bool_decide as Hg; [|done]. by destruct (Hid Hg) as [-> _].
  - apply rule_ret. unfold tr1. rewrite <- !app_assoc. apply Hk. eexists. split; [traced|done].
Qed.

Lemma finish_spec rq tr providerError code state t cookieSecret destination :
  continues_login rq tr state t →
  (providerError = None → ∃ d, resolveCallbackDestination options t = Ok d ∧ destination = Some d) →
  wp rq (callback_result rq) tr
    (finish_callback with_query options backendOrigin basePath providerError code t cookieSecret destination).
Proof.
  intros Hl Hd. unfold finish_callback. apply spec_tcatch.
  assert (∀ tr e, wp rq (callback_result rq) tr (clear_transaction_cookie options cookieSecret ;! throw e)) as Hback.
  { intros tr' e. unfold clear_transaction_cookie. destruct cookieSecret; [by hstep|done]. }
  apply (spec_mono (callback_call rq) _ (ends (callback_result rq) (λ _ _, True))); [done| |].
  { intros tr' [a|e] H; [exact H|apply Hback]. }
  destruct providerError as [message|]; [done|]. destruct (Hd eq_refl) as (d & Hdest & ->). apply rule_value.
  apply (callback_identity_spec _ _ _ code state t); [done|]. intros more m tokens claims subject userInfo Hv.
  apply rule_now; [done|]. intros n. hcheck cap Hcap. hcheck exchangeExpiresAt _. apply rule_quiet_callback; [apply quiet_id|]. intros more1 sessionId.
  apply rule_quiet_callback; [apply quiet_callback_hook|]. intros more2 hooked.
  match goal with |- spec _ _ ?tr _ => set (tr2 := tr) end.
  eapply (commit_callback_spec _ _ _ state t claims).
  - by do 4 apply continues_login_later.
  - by do 3 apply verified_later.
  - intros ttl Ht. rewrite Ht in Hcap. res_step Hcap as e He. injection Hcap as <-.
    destruct (capped (s_expiresAt (default (new_session sessionId subject (session_provider m claims) claims tokens m t userInfo n (Some e)) hooked)) e)
      as (x & Hx & Hle); [by eapply computed_usable|]. apply expires_at_exact in He as (t0 & l & Ht0 & Hl0 & _ & _ & _ & ->).
    exists n, t0, l, x. split; [unfold tr2; traced|]. split; [done|]. split; [done|]. cbn [with_expiry s_expiresAt]. done.
  - unfold tr2. traced.
  - intros more3 code' created Hcommit. apply rule_quiet_callback; [apply quiet_post_hook|]. intros more4 _.
    apply rule_quiet_callback.
    { destruct cookieSecret; [|done]. hstep. hcheck cookie _. unfold set_cookie. by destruct cookie. }
    intros more5 _. hcheck_last location Hloc%or_invalid_Ok. destruct Hcommit as (record & Hr & Hcode).
    exists state, t, d, code', record. split; [unfold tr2; by do 7 apply continues_login_later|]. split; [done|].
    split; [do 2 (apply elem_of_app; left); exact Hr|]. done.
Qed.

Lemma callback_spec rq : wp rq (callback_result rq) [] (callback rq).
Proof.
  unfold createCallbackHandler. hcheck code _. hcheck state Hstate%required_string.
  set (read := if can options "getAuthorizationTransaction" then _ else _). apply rule_record; [|done|intros r].
  { unfold read. destruct (can options "getAuthorizationTransaction") eqn:Ecan; [done|]. cbn. by rewrite Ecan. }
  apply live_spec. intros raw now t -> Ht Hlive Hid Hp. hcheck cookieSecret Hcookie. hcheck destination Hdest.
  match goal with |- spec _ _ ?tr _ => set (tr0 := tr) end.
  assert (callback_shown rq tr0 state t) as Hshown.
  { split; [exact Hstate| |exact Hid|exact Hp|].
    - exists raw, now. split; [unfold tr0; clocked|done].
    - intros h Hh. unfold authenticateTransactionCookie in Hcookie. rewrite Hh in Hcookie. res_step Hcookie as secret Hs.
      destruct secret as [s|]; [|done]. res_step Hcookie as u Hg. apply guard_Ok, jsstr_eqb_true in Hg. eauto. }
  assert (isString (get_field (rq_query rq) (js "error")) = None → ∃ d, resolveCallbackDestination options t = Ok d ∧ destination = Some d) as Hd.
  { intros E. rewrite E in Hdest. res_step Hdest as d Hd. injection Hdest as <-. eauto. }
  destruct (can options "getAuthorizationTransaction") eqn:Ecan.
  - apply (consume_step_spec _ _ _ _ t); [exact Hshown|]. intros more Hgiven.
    apply (finish_spec _ _ _ _ state t); [|exact Hd]. split; [by apply callback_shown_later|exact Hgiven].
  - apply rule_value. apply (finish_spec _ _ _ _ state t); [|exact Hd]. split; [exact Hshown|].
    exists read, raw, now, t. split; [unfold tr0; clocked|]. split_and!; try done; [by left|by rewrite Ecan].
Qed.

End properties.

(** ** Callbacks side by side *)

Section once.
Variable parse_url : jsstr → option URL.

Program Definition transaction_use (c : jsstr) : SingleUse parse_url := {|
  wins op o := (op = OpConsumeTransaction c ∨ ∃ m, op = OpConsumeTransactionIf c m) ∧ ∃ r, o = GaveRecord (Some r);
  spent v := sw_get (authorizationTransactions v) c = None;
  renews := creates_transaction c
|}.
Next Obligation.
  intros c op n1 n2 v o v' Hv He [Hop [r ->]].
  destruct (transaction_consumed parse_url op n1 n2 v _ v' c Hv He Hop) as (r' & s & [= <-] & -> & [[_ ?]|(test & _ & Hs & _ & _ & Hs')]); [done|].
  split; [congruence|exact Hs'].
Qed.
Next Obligation. intros c op n1 n2 v o v' Hv He Hop Hs. by eapply transaction_absent. Qed.

(** A callback with this state, at any vault. *)
Definition calls_back (state : jsstr) (t : rtask jsstr) : Prop :=
  ∃ with_query sha256 options config backendOrigin basePath rq,
    t = createCallbackHandler with_query sha256 options config backendOrigin basePath rq
    ∧ get_field (rq_query rq) (js "state") = JStr state.

Lemma callback_wins state t : calls_back state t →
  spec (λ _ _, True) (λ tr a, (∃ location, a = Ok location) → ∃ e, e ∈ tr ∧ is_win parse_url (transaction_use state) e) [] t.
Proof.
  intros (wq & s & options & config & bo & bp & rq & -> & Hb). eapply spec_mono; [by intros|..|apply callback_spec].
  intros tr a H [location ->]. destruct H as (state' & t & d & code & record & [Hx (op & raw & now & t' & He%read_at_event & _ & _ & _ & _ & _ & _ & Hop & _)] & _).
  assert (state' = state) as -> by (pose proof (cb_presented _ _ _ _ _ _ _ Hx); congruence).
  exists (Ev (Store op) (GaveRecord (Some raw))). split; [done|].
  split; [exact Hop|by exists raw].
Qed.

(** C9: Callbacks with one state, however many and however interleaved with anything else on a memory store: at
    most one of them signs in, unless the state is created again. *)
Theorem callback_once (state : jsstr) (v : Vault) (requests : list (rtask jsstr)) (w : world (A := result route_error jsstr))
    (i j : nat) (l1 l2 : jsstr) :
  vault_inv v → Forall (calls_back state) requests →
  rtc (wstep parse_url (creates_transaction state)) (mkWorld v requests []) w →
  w_tasks w !! i = Some (Ret (Ok l1)) → w_tasks w !! j = Some (Ret (Ok l2)) → i = j.
Proof.
  intros Hv Hall Hw Hi Hj.
  eapply (single_winner parse_url (transaction_use state) (calls_back state) (λ a, ∃ location, a = Ok location)); eauto using callback_wins.
Qed.
End once.

(** ** Logins that are continued *)

Section login.
Variable parse_url : jsstr → option URL.
Variable origin_of : URL → jsstr.
Variable resolve_url : jsstr → URL → option URL.
Variable with_query : jsstr → list (jsstr * jsstr) → option jsstr.
Variable sha256 : list Z → list Z.
Hypothesis sha256_bytes : ∀ m, length (sha256 m) = 32%nat ∧ bytes_ok (sha256 m).
Variable options : RouteOptions.
Variable config : ResolvedConfig.
Variable trustedOrigins : list jsstr.
Variables backendOrigin basePath : jsstr.

Lemma captured_canonical raw policy h : captureFingerprintRecognition sha256 raw policy = Ok (Some h) → isCanonicalDpopJkt (JStr h) = true.
Proof.
  unfold captureFingerprintRecognition. destruct policy as [name|]; [|done]. destruct (rh_count _) as [|[|]]; try done.
  destruct (rh_value _); [|done]. intros H. res_step H as ? _. res_step H as ? _. injection H as <-.
  apply digest_canonical; apply sha256_bytes.
Qed.

Lemma metadata_read recognition : (∀ h, recognition = Some h → isCanonicalDpopJkt (JStr h) = true) →
  snapshotFingerprintRecognition (transaction_metadata config recognition) = Ok recognition
  ∧ transaction_provider (transaction_metadata config recognition) = Ok (Some (rcf_issuer config, Some (rcf_clientId config))).
Proof.
  intros Hc. unfold transaction_metadata, createTransactionProviderMetadata. destruct recognition as [h|].
  - split.
    + cbn [snapshotFingerprintRecognition]. rewrite own_lookup, lookup_set_field, jsstr_eqb_refl. cbn [negb bool_decide].
      cbn [get_field]. rewrite lookup_set_field, jsstr_eqb_refl. cbn [default]. unfold recognition_value.
      change (is_undef (JObj _ _)) with false. cbn [isRecord guard res_bind]. change (get_field _ (js "hash")) with (JStr h).
      rewrite (Hc h eq_refl). vm_compute. reflexivity.
    + unfold transaction_provider. cbn [get_field]. rewrite lookup_set_field. vm_compute (jsstr_eqb _ _). cbn iota.
      destruct (rcf_issuer config); reflexivity.
  - split; [vm_compute; reflexivity|]. unfold transaction_provider. destruct (rcf_issuer config); reflexivity.
Qed.
Lemma transaction_read state nonce verifier returnTo binding hash now expiresAt recognition later t e :
  (∀ j, binding = Some j → isCanonicalDpopJkt (JStr j) = true) → isCanonicalDpopJkt (JStr hash) = true →
  (∀ h, recognition = Some h → isCanonicalDpopJkt (JStr h) = true) →
  transaction_expiry options now = Ok expiresAt → usable_epoch later = Some t → usable_epoch expiresAt = Some e → t < e →
  ∃ s, snapshotAuthorizationTransaction
         (transaction_record sha256 state nonce verifier returnTo binding (Some hash) now expiresAt (transaction_metadata config recognition))
         state later = Ok s
    ∧ ts_match s = mkBindingMatch binding (Some hash) ∧ ts_fingerprintRecognition s = recognition
    ∧ ts_provider s = Some (rcf_issuer config, Some (rcf_clientId config))
    ∧ ts_nonce s = nonce ∧ ts_pkceVerifier s = verifier ∧ ts_returnTo s = returnTo.
Proof.
  intros Hb Hh Hr Hx Hl He Hlt. destruct (metadata_read recognition Hr) as [Hm Hp].
  assert (∃ c, usable_epoch now = Some c) as [c Hnow].
  { unfold transaction_expiry, computeExpiresAt in Hx. res_step Hx as ? _. res_step Hx as ? Hg. apply guard_Ok in Hg.
    apply andb_true_iff in Hg as [[Hg _]%andb_true_iff _]. apply bool_decide_eq_true in Hg as [c Hc]. eauto. }
  assert (snapshotRecordBindingMatch (binding_value binding) (JStr hash) = Ok (mkBindingMatch binding (Some hash))) as Hmatch.
  { unfold snapshotRecordBindingMatch. destruct binding as [j|]; cbn [binding_value].
    - rewrite snapshot_snapshot by (by apply Hb). cbn [res_bind]. rewrite Hh. reflexivity.
    - cbn [snapshotDpopBinding is_undef res_bind]. rewrite Hh. reflexivity. }
  assert (record_lifetime (transaction_record sha256 state nonce verifier returnTo binding (Some hash) now expiresAt
    (transaction_metadata config recognition)) later invalidAuthorizationState = Ok (c, e)) as Htimes.
  { unfold record_lifetime, transaction_record. cbn [ot_createdAt ot_expiresAt usable]. rewrite Hnow, He, Hl. cbn [or_invalid res_bind].
    by rewrite (proj2 (Z.ltb_lt t e)). }
  unfold snapshotAuthorizationTransaction. rewrite Htimes. cbn [ot_id transaction_record]. rewrite jsstr_eqb_refl.
  change (o_field (transaction_record _ _ _ _ _ _ _ _ _ _) "nonce") with (JStr nonce).
  change (o_field (transaction_record _ _ _ _ _ _ _ _ _ _) "pkceVerifier") with (JStr verifier).
  change (o_field (transaction_record _ _ _ _ _ _ _ _ _ _) "codeChallenge") with (JStr (createPkceChallenge sha256 verifier)).
  change (o_field (transaction_record _ _ _ _ _ _ _ _ _ _) "returnTo") with (string_value returnTo).
  change (o_field (transaction_record _ _ _ _ _ _ _ _ _ _) "metadata") with (transaction_metadata config recognition).
  destruct (as_string_value returnTo) as [Hs Ho]. cbn [guard res_bind as_string or_invalid]. rewrite Ho. cbn [guard res_bind].
  cbn [ot_deviceBinding ot_browserBindingHash transaction_record string_value]. rewrite Hmatch. cbn [res_bind]. rewrite Hm. cbn [res_catch res_bind bm_browserBindingHash].
  rewrite (bool_decide_true (is_Some (Some hash))) by eauto. rewrite orb_true_r. cbn [guard res_bind]. rewrite Hp. cbn [res_bind].
  eexists. split; [reflexivity|]. cbn. done.
Qed.
Notation login := (createLoginInitiationHandler parse_url origin_of resolve_url with_query sha256 options config trustedOrigins backendOrigin basePath).

(** The verifier lets in no login that the policy would turn away. *)
Definition prover_ok (rq : Request) (tr : trace) : Prop :=
  ∀ verified, Ev (Proof (Initiate (captured_proof rq))) (Ok verified) ∈ tr → policy_ok options (vb_jkt <$> verified).

(** What a login leaves behind: the transaction in the store, the cookie in the browser. *)
Definition login_started (rq : Request) (tr : trace) (record : OneTimeRecord) (secret : jsstr) (binding recognition : option jsstr)
    (expiresAt : num) : Prop :=
  Ev (Store (OpCreateTransaction record)) VaultSafety.Done ∈ tr
  ∧ (∃ now text, setTransactionCookie (ro_transactionCookie options) secret expiresAt now = Ok (Some text) ∧ Ev (SetCookie text) tt ∈ tr)
  ∧ captureFingerprintRecognition sha256 (hd_rawHeaders (rq_head rq)) (ro_fingerprint options) = Ok recognition
  ∧ (is_Some (ro_deviceBinding options) →
     ∃ verified, Ev (Proof (Initiate (captured_proof rq))) (Ok verified) ∈ tr ∧ binding = vb_jkt <$> verified)
  ∧ (ro_deviceBinding options = None → binding = None).

(** The transaction, as the callback in that browser finds it until it expires. *)
Definition login_continues_with (record : OneTimeRecord) (secret : jsstr) (binding recognition : option jsstr) (expiresAt : num) : Prop :=
  ∀ later t e, usable_epoch later = Some t → usable_epoch expiresAt = Some e → t < e →
  ∃ s, snapshotAuthorizationTransaction record (ot_id record) later = Ok s
    ∧ assertAuthorizationTransactionIdentity s (rcf_issuer config) (Some (rcf_clientId config)) = Ok tt
    ∧ assertDeviceBindingPolicy (ro_deviceBinding options) (binding_value (bm_deviceBinding (ts_match s))) = Ok tt
    ∧ ts_match s = mkBindingMatch binding (Some (hashSecret sha256 secret))
    ∧ ts_fingerprintRecognition s = recognition.

Definition login_result (rq : Request) (tr : trace) : Prop :=
  prover_ok rq tr →
  ∃ record secret binding recognition expiresAt, login_started rq tr record secret binding recognition expiresAt
    ∧ login_continues_with record secret binding recognition expiresAt.

Lemma verified_jkt verified b : snapshotDpopBinding (verified_value verified) = Ok b →
  b = vb_jkt <$> verified ∧ ∀ j, b = Some j → isCanonicalDpopJkt (JStr j) = true.
Proof.
  intros H%snapshot_spec. destruct verified as [v|]; cbn in *.
  - destruct b as [j|]; [|done]. destruct H as (_ & _ & Hj & Hc). change (get_field _ (js "jkt")) with (JStr (vb_jkt v)) in Hj.
    injection Hj as <-. split; [done|]. by intros j [= <-].
  - destruct b; [by destruct H|]. by split.
Qed.

Lemma identity_agrees_refl (issuer clientId : option jsstr) : identity_agrees (Some (issuer, clientId)) issuer clientId = true.
Proof. unfold identity_agrees. cbn. destruct issuer, clientId; by rewrite ?bool_decide_true. Qed.

Lemma policy_passes jkt : (∀ j, jkt = Some j → isCanonicalDpopJkt (JStr j) = true) → policy_ok options jkt →
  assertDeviceBindingPolicy (ro_deviceBinding options) (binding_value jkt) = Ok tt.
Proof.
  intros Hc Hp. apply assert_policy_spec. unfold policy_ok in Hp. destruct jkt as [j|]; cbn [binding_value].
  - left. destruct (ro_deviceBinding options) as [p|]; [|done]. exists j, p. split; [|done]. apply snapshot_snapshot. by apply Hc.
  - right. split; [done|]. by intros p Ep; rewrite Ep in Hp.
Qed.

Notation wp Q := (spec (λ _ _, True) (ends Q (λ _ _, True))).

Lemma any_rule {A B} (Q : trace → B → Prop) tr (t : rtask A) (k : A → rtask B) :
  (∀ more a, wp Q (tr ++ more) (k a)) → wp Q tr (rbind t k).
Proof. intros Hk. by apply rule_any. Qed.

Lemma prove_login_spec {B} rq (Q : trace → B → Prop) tr (k : option VerifiedBinding → rtask B) :
  (∀ more verified, (is_Some (ro_deviceBinding options) → Ev (Proof (Initiate (captured_proof rq))) (Ok verified) ∈ tr ++ more) →
     (ro_deviceBinding options = None → verified = None) → wp Q (tr ++ more) (k verified)) →
  wp Q tr (rbind (prove_login options rq) k).
Proof.
  intros Hk. apply rule_bind. unfold prove_login. hcheck [] _. unfold proving. case_bool_decide as Hp.
  - split; [done|]. intros [b|e]; [|done]. apply Hk; [intros _; traced|]. intros Hn. rewrite Hn in Hp. by destruct Hp.
  - apply rule_ret. specialize (Hk [] None). rewrite app_nil_r in Hk. apply Hk; [by intros|done].
Qed.
Lemma login_spec rq : wp (λ tr _, login_result rq tr) [] (login rq).
Proof.
  unfold createLoginInitiationHandler. hcheck recognition Hrec. hcheck [] _. hcheck [] _. hcheck returnTo _.
  apply prove_login_spec. intros more verified Hproof Hnone. hcheck binding Hb. apply verified_jkt in Hb as [-> Hcanon].
  hstep. apply any_rule. intros more1 _. hstep. hstep. 
  hstep. apply any_rule. intros more2 state. apply any_rule. intros more3 nonce. hcheck expiresAt Hexp. hcheck url _.
  apply rule_done; [done|by intros|]. apply any_rule. intros more4 _. hstep. hcheck cookie Hcookie. apply rule_cookie; [done| |done].
  intros text ->. apply rule_ret. intros Hprover.
  set (record := transaction_record _ _ _ _ _ _ _ _ _ _) in *. match type of Hcookie with setTransactionCookie _ ?s _ _ = _ => set (secret := s) in * end.
  match type of Hprover with prover_ok _ ?t => set (tr := t) in * end.
  exists record, secret, (vb_jkt <$> verified), recognition, expiresAt. split.
  - split; [unfold tr; set_solver|]. split; [eexists _, text; split; [exact Hcookie|unfold tr; set_solver]|]. split; [exact Hrec|]. split.
    + intros Hs. exists verified. split; [|done]. specialize (Hproof Hs). unfold tr. rewrite !elem_of_app in *. tauto.
    + intros Hn. by rewrite (Hnone Hn).
  - intros later t e Hl He Hlt.
    assert (isCanonicalDpopJkt (JStr (hashSecret sha256 secret)) = true) as Hh by (apply digest_canonical; apply sha256_bytes).
    match goal with r := transaction_record _ _ _ ?v _ _ _ ?n _ _ |- _ => rename n into now; set (verifier := v) in * end.
    destruct (transaction_read state nonce verifier returnTo (vb_jkt <$> verified) (hashSecret sha256 secret) now expiresAt recognition later t e)
      as (s & Hs & Hm & Hf & Hp & _); [exact Hcanon|exact Hh| |exact Hexp|exact Hl|exact He|exact Hlt|].
    { intros h ->. by eapply captured_canonical. }
    exists s. split; [exact Hs|]. unfold assertAuthorizationTransactionIdentity. rewrite Hp, identity_agrees_refl. split; [done|].
    rewrite Hm. split; [|done]. cbn [bm_deviceBinding]. apply policy_passes; [exact Hcanon|].
    destruct (ro_deviceBinding options) eqn:Ed.
    + apply Hprover. specialize (Hproof (ltac:(eauto))). unfold tr. rewrite !elem_of_app in *. tauto.
    + rewrite (Hnone eq_refl). unfold policy_ok. by rewrite Ed.
Qed.

(** C11: A login that is answered has left a transaction in the store and a cookie in the browser that go together:
    until the transaction expires, the callback that finds it there reads it back, accepts its provider and its device
    binding, and lets exactly that cookie's browser continue; the session it leads to is bound to the key of the
    proof that was accepted for this request and to the recognition of this request. *)
Theorem login_continues (rq : Request) (tr : list event) (location : jsstr) :
  runs (login rq) tr (Ok location) → prover_ok rq tr →
  ∃ record secret binding recognition expiresAt, login_started rq tr record secret binding recognition expiresAt
    ∧ login_continues_with record secret binding recognition expiresAt.
Proof. intros H. by destruct (spec_runs _ _ _ _ _ _ (login_spec rq) H) as [Ha _]. Qed.
End login.
