(* ===== verification/VaultNavigation.v ===== *)
(** express-oidc-vault, [logout-navigation.ts]: the opt-in policy that lets a browser continue a logout at the
    provider, and the single-use tickets it travels with.

    The fields of a record the store gave back, and the option's own, are read as any value; the URL parser is a
    parameter, as [url.origin] is where a URL may be of any scheme. *)

From S2P Require Import Prelude JsValue JsJson AttestTypes AttestCanonical AttestVerify JsBuffer JsMap IndexedHeap HeapAdmission VaultBinding VaultDpop VaultTickets VaultStore VaultSafety DpopNonce DpopPolicy DpopProof VaultCookies VaultRoute VaultRecords VaultOrigins VaultProvider RouteTask VaultHandler.

Section navigation.
Variable parse_url : jsstr → option URL.
Variable sha256 : list Z → list Z.

Definition navigation_error (message : jsstr) : oidc_error := TypeError message.

(** [/^https?:\/\//i], [/^https?:\/\/[^/?#]*@/i], [UNSAFE_URL] and ['#'] on the raw text. *)
Definition raw_destination (value : jsstr) : bool :=
  match http_rest value with
  | Some rest => negb (authority_has_at rest) && negb (existsb unsafe_unit value) && negb (includes_char 35 value)
  | None => false
  end.

Definition loopback (url : URL) : bool :=
  jsstr_eqb (url_hostname url) (js "localhost") || jsstr_eqb (url_hostname url) (js "[::1]")
  || (is_ipv4 (url_hostname url) && starts_with (js "127.") (url_hostname url)).

Definition destination (value : jsval) (name : string) (maxBytes : Z) (secure : bool) : ores URL :=
  let invalid := navigation_error (js name ++ js " must be a bounded absolute HTTP(S) URL without unsafe characters, userinfo or fragment.") in
  match value with
  | JStr s =>
      guard (raw_destination s && (byteLength s <=? maxBytes)) invalid ;;;
      let* url := or_invalid (parse_url s) invalid in
      guard (http_protocol url && negb (secure && jsstr_eqb (url_protocol url) (js "http:") && negb (loopback url))
             && jsstr_eqb (url_username url) [] && jsstr_eqb (url_password url) [] && jsstr_eqb (url_hash url) []
             && (byteLength (url_href url) <=? maxBytes)) invalid ;;;
      Ok url
  | _ => Err invalid
  end.

Record LogoutNavigation := mkNavigation {
  ln_fallbackRedirectUri : jsstr;
  ln_ticketTtlMs : num;
  ln_namespace : jsstr;
  ln_navigationUrl : jsstr;
  ln_postLogoutRedirectUri : option jsstr
}.

Definition NAVIGATION_PATH : jsstr := js "/logout/navigation".
Definition hash (value : jsstr) : jsstr := base64urlEncode (sha256 (utf8_encode value)).

(** [/^[\x21-\x7e]{1,128}$/] *)
Definition namespace_label (v : jsval) : option jsstr :=
  match v with
  | JStr s => if all_units (in_range 33 126) s && (1 <=? length s)%nat && (length s <=? 128)%nat then Some s else None
  | _ => None
  end.

(** [s.replace(/\/$/, '')] *)
Definition strip_slash (s : jsstr) : jsstr := match last s with Some 47 => removelast s | _ => s end.

Definition with_default (v default_value : jsval) : jsval := if is_undef v then default_value else v.

(** [resolveLogoutNavigationOptions(value, input)]; [callable name] is [typeof store[name] === 'function']. *)
Definition resolveLogoutNavigationOptions (value : jsval) (backendOrigin basePath : jsstr) (issuer clientId : option jsstr)
    (frontendRedirectUri postLogoutRedirectUri : option jsstr) (deviceBindingConfigured : bool) (callable : jsstr → bool) (now : num)
    : ores (option LogoutNavigation) :=
  if is_undef value then Ok None
  else
    guard (isRecord value) (navigation_error (js "logoutNavigation must be a plain options object.")) ;;;
    guard deviceBindingConfigured (navigation_error (js "logoutNavigation requires deviceBinding.")) ;;;
    res_iter (λ name, guard (callable name) (navigation_error (js "logoutNavigation requires storeProvider." ++ name ++ js ".")))
      (map js ["createLogoutNavigationTicket"; "consumeLogoutNavigationTicket"]%string) ;;;
    let setting name fallback := with_default (get_field value (js name)) fallback in
    let* ttl := or_invalid (match setting "ticketTtlMs"%string (JNum (num_of_Z 60000)) with
                            | JNum n => if match integer_of n with Some z => (1000 <=? z) && (z <=? 120000) | None => false end
                                        then Some n else None
                            | _ => None
                            end)
                  (navigation_error (js "logoutNavigation.ticketTtlMs must be an integer from 1000 through 120000.")) in
    computeExpiresAt now ttl (js "logoutNavigation.ticketTtlMs") ;;;
    let* namespace := or_invalid (namespace_label (setting "namespace"%string (JStr (js "default"))))
      (navigation_error (js "logoutNavigation.namespace must be a static printable ASCII label of 1 through 128 bytes.")) in
    let path := basePath ++ NAVIGATION_PATH in
    let* fallback := destination (get_field value (js "fallbackRedirectUri")) "logoutNavigation.fallbackRedirectUri" 2048 true in
    let* on_frontend :=
      if jsstr_eqb (url_origin fallback) backendOrigin then Ok true
      else match frontendRedirectUri with
           | None => Ok false
           | Some uri => let* url := or_invalid (parse_url uri) (TypeError (js "Invalid URL")) in
                         Ok (jsstr_eqb (url_origin fallback) (url_origin url))
           end in
    guard (on_frontend
           && negb (jsstr_eqb (url_origin fallback) backendOrigin
                    && jsstr_eqb (to_lower (strip_slash (url_pathname fallback))) (to_lower path)))
      (navigation_error (js "logoutNavigation.fallbackRedirectUri must stay on the backend/frontend origin and cannot loop to logout navigation.")) ;;;
    let* postLogout :=
      match postLogoutRedirectUri with
      | None => Ok None
      | Some uri => let* url := destination (JStr uri) "logoutNavigation.postLogoutRedirectUri" 2048 true in Ok (Some (url_href url))
      end in
    let member (o : option jsstr) := match o with Some s => JStr s | None => JNull end in
    Ok (Some (mkNavigation (url_href fallback) ttl
      (js "logout-navigation:v1:"
       ++ hash (json_text (JArr [JStr (js "oidc-vault-logout-navigation"); JNum (num_of_Z 1); JStr backendOrigin; JStr basePath;
                                 member issuer; member clientId; JStr namespace; JStr (url_href fallback); member postLogout])))
      (backendOrigin ++ path) postLogout)).

Definition validateUpstreamLogoutUrl (value : jsval) : ores jsstr :=
  let* url := destination value "Logout navigation upstream destination" 16384 false in Ok (url_href url).

(** The record of a ticket. *)
Definition ticket_record (policy : LogoutNavigation) (ticket upstreamLogoutUrl : jsstr) (now expiresAt : num) : jsval :=
  JObj true [(js "namespace", JStr (ln_namespace policy)); (js "ticketHash", JStr (hash ticket));
             (js "upstreamLogoutUrl", JStr upstreamLogoutUrl); (js "createdAt", JNum now); (js "expiresAt", JNum expiresAt)].
Definition ticket_of (random : list Z) : jsstr := js "lnt_" ++ base64urlEncode random.
Definition ticket_url (policy : LogoutNavigation) (ticket : jsstr) : jsstr := ln_navigationUrl policy ++ js "?ticket=" ++ ticket.

(** The loop of [persistLogoutNavigation]; [attempts] are left. *)
Fixpoint persist_attempts (attempts : nat) (policy : LogoutNavigation) (upstreamLogoutUrl : jsstr) (now expiresAt : num) : rtask jsstr :=
  match attempts with
  | O => fail (PlainError (js "Logout navigation ticket attempts exhausted."))
  | S attempts =>
      let! random := randomBytes 32 in
      tcatch
        (store_done (OpCreateTicket (ticket_record policy (ticket_of random) upstreamLogoutUrl now expiresAt)) ;!
         Ret (Ok (ticket_url policy (ticket_of random))))
        (λ e, match e with
              | RouteError error =>
                  if isStoreConflictError error && negb (attempts =? 0)%nat
                  then persist_attempts attempts policy upstreamLogoutUrl now expiresAt else throw e
              | _ => throw e
              end)
  end.

Definition persistLogoutNavigation (policy : LogoutNavigation) (upstreamLogoutUrl : jsstr) (now : num) : rtask jsstr :=
  let! expiresAt := pure_step (computeExpiresAt now (ln_ticketTtlMs policy) (js "logoutNavigation.ticketTtlMs")) in
  persist_attempts 3 policy upstreamLogoutUrl now expiresAt.

(** [/^lnt_[A-Za-z0-9_-]{42}[AEIMQUYcgkosw048]$/] *)
Definition TICKET (s : jsstr) : bool := starts_with (js "lnt_") s && hash_pattern (drop 4 s).

Definition navigationTicketHash (originalUrl : jsstr) : option jsstr :=
  match (cut_at 63 originalUrl).2 with
  | Some query =>
      if starts_with (js "ticket=") query then
        let ticket := drop 7 query in if TICKET ticket then Some (hash ticket) else None
      else None
  | None => None
  end.

Definition consumedLogoutDestination (value : jsval) (namespace ticketHash : jsstr) (now : num) : ores jsstr :=
  guard (isRecord value && (length (object_keys value) =? 5)%nat)
    (navigation_error (js "Logout navigation consume returned an invalid record.")) ;;;
  let field name := get_field value (js name) in
  guard (js_strict_eq (field "namespace"%string) (JStr namespace) && js_strict_eq (field "ticketHash"%string) (JStr ticketHash)
         && match usable_epoch now, usable (field "createdAt"%string), usable (field "expiresAt"%string) with
            | Some n, Some c, Some e =>
                negb (e - c <? 1000) && negb (120000 <? e - c) && negb (e <=? n) && negb (120000 <? e - n)
            | _, _, _ => false
            end) (navigation_error (js "Logout navigation consume returned invalid identity or lifetime.")) ;;;
  validateUpstreamLogoutUrl (field "upstreamLogoutUrl"%string).

(** [consumeLogoutNavigationTicket({ namespace, ticketHash })] *)
Definition consume_ticket (namespace ticketHash : jsstr) : rtask (option jsval) :=
  tbind (ask (Store (OpConsumeTicket (JObj true [(js "namespace", JStr namespace); (js "ticketHash", JStr ticketHash)]))))
    (λ o : outcome, Ret (match o with GaveTicket t => Ok t | _ => Err (RouteError (store_rejection o)) end)).

Variable options : RouteOptions.

Definition notifyLogoutError (session : option Session) : rtask unit :=
  tcatch (callHook options OnError session ;! Ret (Ok tt)) (λ _, Ret (Ok tt)).

(** The [GET] that follows a ticket; its answer is the location. *)
Definition createLogoutNavigationGetHandler (policy : LogoutNavigation) (originalUrl : jsstr) : rtask jsstr :=
  match navigationTicketHash originalUrl with
  | None => Ret (Ok (ln_fallbackRedirectUri policy))
  | Some ticketHash =>
      tcatch
        (let! record := consume_ticket (ln_namespace policy) ticketHash in
         match record with
         | None => Ret (Ok (ln_fallbackRedirectUri policy))
         | Some record =>
             let! now := getNow in
             pure_step (consumedLogoutDestination record (ln_namespace policy) ticketHash now)
         end)
        (λ _, notifyLogoutError None ;! Ret (Ok (ln_fallbackRedirectUri policy)))
  end.
End navigation.

(** * Properties *)

Section properties.
Variable parse_url : jsstr → option URL.
Variable sha256 : list Z → list Z.
Variable options : RouteOptions.

Notation wp := (spec (λ _ _, True)).

Lemma notify_settles {A} session (a : A) tr (Q : trace → result route_error A → Prop) :
  (∀ tr', Q tr' (Ok a)) → wp Q tr (notifyLogoutError options session ;! Ret (Ok a)).
Proof.
  intros HQ. unfold notifyLogoutError, callHook, run_hook. destruct (ro_hooks options OnError); [|apply HQ].
  split; [done|]. intros r. cbn. destruct r; apply HQ.
Qed.

(** A location that a consumed record allows, which had not expired at the time the clock gave next. *)
Definition continued (policy : LogoutNavigation) (originalUrl : jsstr) (tr : trace) (location : jsstr) : Prop :=
  ∃ ticketHash record now t c e,
    navigationTicketHash sha256 originalUrl = Some ticketHash
    ∧ read_at tr (OpConsumeTicket (JObj true [(js "namespace", JStr (ln_namespace policy)); (js "ticketHash", JStr ticketHash)]))
        (GaveTicket (Some record)) now
    ∧ get_field record (js "namespace") = JStr (ln_namespace policy) ∧ get_field record (js "ticketHash") = JStr ticketHash
    ∧ usable_epoch now = Some t ∧ usable (get_field record (js "createdAt")) = Some c ∧ usable (get_field record (js "expiresAt")) = Some e
    ∧ t < e ∧ 1000 <= e - c <= 120000 ∧ e - t <= 120000
    ∧ validateUpstreamLogoutUrl parse_url (get_field record (js "upstreamLogoutUrl")) = Ok location.

Lemma consumed_spec record namespace ticketHash now location :
  consumedLogoutDestination parse_url record namespace ticketHash now = Ok location →
  get_field record (js "namespace") = JStr namespace ∧ get_field record (js "ticketHash") = JStr ticketHash
  ∧ (∃ t c e, usable_epoch now = Some t ∧ usable (get_field record (js "createdAt")) = Some c
       ∧ usable (get_field record (js "expiresAt")) = Some e ∧ t < e ∧ 1000 <= e - c <= 120000 ∧ e - t <= 120000)
  ∧ validateUpstreamLogoutUrl parse_url (get_field record (js "upstreamLogoutUrl")) = Ok location.
Proof.
  unfold consumedLogoutDestination. intros H. res_step H as ? _. res_step H as ? Hg. apply guard_Ok in Hg.
  apply andb_true_iff in Hg as [[H1%strict_eq_string H2%strict_eq_string]%andb_true_iff H3].
  destruct (usable_epoch now) as [t|], (usable (get_field record (js "createdAt"))) as [c|], (usable (get_field record (js "expiresAt"))) as [e|];
    try done. split; [done|]. split; [done|]. split; [|done]. exists t, c, e. repeat (apply andb_true_iff in H3 as [H3 ?]).
  split_and!; try done; lia.
Qed.

(** C27: The answer to a continuation, whatever the store gives back: the fallback, or the validated destination of
    a record the store consumed for exactly this ticket and this namespace, when the time the clock gave next after
    the store's answer was before the record's expiry, which is at most two minutes away and at least a second
    and at most two minutes after its creation. *)
Theorem navigation_authorized (policy : LogoutNavigation) (originalUrl : jsstr) (tr : list event) (a : result route_error jsstr) :
  runs (createLogoutNavigationGetHandler parse_url sha256 options policy originalUrl) tr a →
  ∃ location, a = Ok location ∧ (location = ln_fallbackRedirectUri policy ∨ continued policy originalUrl tr location).
Proof.
  intros Hr. set (Q := λ (tr : trace) (a : result route_error jsstr),
    ∃ location, a = Ok location ∧ (location = ln_fallbackRedirectUri policy ∨ continued policy originalUrl tr location)).
  assert (wp Q [] (createLogoutNavigationGetHandler parse_url sha256 options policy originalUrl)) as Hs.
  2: { apply (spec_runs _ _ _ _ _ _ Hs Hr). }
  assert (∀ tr, Q tr (Ok (ln_fallbackRedirectUri policy))) as Hfallback by (intros tr'; eexists; split; [done|by left]).
  unfold createLogoutNavigationGetHandler. destruct (navigationTicketHash sha256 originalUrl) as [ticketHash|] eqn:Eh; [|apply Hfallback].
  split; [done|]. intros o.
  assert (∀ tr, wp Q tr (notifyLogoutError options None ;! Ret (Ok (ln_fallbackRedirectUri policy)))) as Herr
    by (intros tr'; apply notify_settles, Hfallback).
  destruct o as [| | | | | | |[record|]|]; try apply Herr; [|apply Hfallback].
  split; [done|]. intros now. cbn [tbind]. destruct (consumedLogoutDestination parse_url record (ln_namespace policy) ticketHash now) as [location|e] eqn:Ec.
  - eexists. split; [done|]. right. apply consumed_spec in Ec as (H1 & H2 & (t & c & e & H3) & H4).
    exists ticketHash, record, now, t, c, e. split; [done|]. split; [apply (read_at_now [])|]. tauto.
  - apply Herr.
Qed.
(** A ticket of 32 random bytes is one that the continuation reads. *)
Lemma ticket_read policy random : 63 ∉ ln_navigationUrl policy → length random = 32%nat → bytes_ok random →
  navigationTicketHash sha256 (ticket_url policy (ticket_of random)) = Some (hash sha256 (ticket_of random)).
Proof.
  intros Hu Hl Hb. unfold navigationTicketHash, ticket_url.
  change (js "?ticket=" ++ ticket_of random) with (63 :: (js "ticket=" ++ ticket_of random)). rewrite cut_at_app by done.
  cbn [snd]. assert (starts_with (js "ticket=") (js "ticket=" ++ ticket_of random) = true) as -> by done.
  change (drop 7 (js "ticket=" ++ ticket_of random)) with (ticket_of random).
  assert (TICKET (ticket_of random) = true) as ->; [|done]. unfold TICKET, ticket_of.
  assert (starts_with (js "lnt_") (js "lnt_" ++ base64urlEncode random) = true) as -> by done.
  change (drop 4 (js "lnt_" ++ base64urlEncode random)) with (base64urlEncode random).
  pose proof (digest_canonical random Hb Hl) as H. cbn [isCanonicalDpopJkt] in H. by apply andb_true_iff in H as [_ ->].
Qed.

(** What a persisted continuation has left behind: the ticket in the store, under the URL that was handed out. *)
Definition persisted (policy : LogoutNavigation) (upstreamLogoutUrl : jsstr) (now : num) (tr : trace) (url : jsstr) : Prop :=
  ∃ random expiresAt, Ev (RandomBytes 32) random ∈ tr ∧ url = ticket_url policy (ticket_of random)
    ∧ Ev (Store (OpCreateTicket (ticket_record sha256 policy (ticket_of random) upstreamLogoutUrl now expiresAt))) VaultSafety.Done ∈ tr
    ∧ computeExpiresAt now (ln_ticketTtlMs policy) (js "logoutNavigation.ticketTtlMs") = Ok expiresAt.

Lemma attempts_spec n policy upstream now expiresAt tr :
  computeExpiresAt now (ln_ticketTtlMs policy) (js "logoutNavigation.ticketTtlMs") = Ok expiresAt →
  spec (λ _ _, True) (ends (persisted policy upstream now) (λ _ _, True)) tr (persist_attempts sha256 n policy upstream now expiresAt).
Proof.
  intros He. revert tr. induction n as [|n IH]; intros tr; [done|]. cbn [persist_attempts]. hstep.
  match goal with |- spec _ _ (tr ++ [Ev (RandomBytes 32) ?bs]) _ => rename bs into random end.
  apply spec_tcatch. apply rule_done; [done| |].
  - intros o e. destruct (isStoreConflictError e && negb (n =? 0)%nat); [apply IH|done].
  - apply rule_ret. exists random, expiresAt. split; [set_solver|]. split; [done|]. split; [set_solver|done].
Qed.

(** C28: A continuation completes: the URL a logout hands out names the ticket it persisted, and when the store
    gives that record back, once, before it expires, the browser goes on to the provider's logout; a
    second redemption, or one of an expired ticket, ends at the fallback by [navigation_authorized]. The stored
    destination is read back as it was validated. *)
Theorem navigation_completes (policy : LogoutNavigation) (upstreamLogoutUrl url : jsstr) (now later : num) (tr : list event)
    (ttl t : Z) :
  63 ∉ ln_navigationUrl policy → integer_of (ln_ticketTtlMs policy) = Some ttl → 1000 <= ttl <= 120000 →
  (∀ n bs, Ev (RandomBytes n) bs ∈ tr → length bs = Z.to_nat n ∧ bytes_ok bs) →
  validateUpstreamLogoutUrl parse_url (JStr upstreamLogoutUrl) = Ok upstreamLogoutUrl →
  runs (persistLogoutNavigation sha256 policy upstreamLogoutUrl now) tr (Ok url) →
  ∃ ticketHash record, navigationTicketHash sha256 url = Some ticketHash
    ∧ Ev (Store (OpCreateTicket record)) VaultSafety.Done ∈ tr
    ∧ (usable_epoch later = Some t → num_le now later = true → num_lt later (num_add now (ln_ticketTtlMs policy)) = true →
       consumedLogoutDestination parse_url record (ln_namespace policy) ticketHash later = Ok upstreamLogoutUrl).
Proof.
  intros Hu Httl Hrange Hrandom Hup Hr.
  assert (persisted policy upstreamLogoutUrl now tr url) as (random & expiresAt & Hb & -> & Hev & He).
  { assert (spec (λ _ _, True) (ends (persisted policy upstreamLogoutUrl now) (λ _ _, True)) []
      (persistLogoutNavigation sha256 policy upstreamLogoutUrl now)) as Hs.
    { unfold persistLogoutNavigation. hcheck e He. by apply attempts_spec. }
    by destruct (spec_runs _ _ _ _ _ _ Hs Hr) as [H _]. }
  destruct (Hrandom 32 random Hb) as [Hl Hok]. eexists _, _. split; [by apply ticket_read|]. split; [exact Hev|].
  apply expires_at_exact in He as (c & l & Hc & Hlt & Hpos & Hca & Hea & ->).
  apply integer_of_is in Hlt. assert (l = ttl) as -> by congruence. apply integer_of_is in Hlt.
  intros Hlater Hle Hbefore. apply usable_epoch_is in Hlater as Hl'. destruct Hl' as [Ht _].
  rewrite (num_add_exact now (ln_ticketTtlMs policy) c ttl Hc Hlt) in Hbefore
    by (apply Z.leb_le; unfold MAX_EPOCH_MS, MAX_SAFE_INTEGER in *; lia).
  rewrite (num_le_is _ _ c t Hc Ht) in Hle. rewrite (num_lt_is _ _ t (c + ttl) Ht (num_is_of_Z _)) in Hbefore.
  assert (usable_epoch now = Some c) as Hnow by (by apply usable_epoch_is).
  assert (usable_epoch (num_of_Z (c + ttl)) = Some (c + ttl)) as Hend by (apply usable_epoch_is; split; [apply num_is_of_Z|done]).
  unfold consumedLogoutDestination, ticket_record. cbn [isRecord].
  change (get_field _ (js "namespace")) with (JStr (ln_namespace policy)).
  change (get_field _ (js "ticketHash")) with (JStr (hash sha256 (ticket_of random))).
  change (get_field _ (js "createdAt")) with (JNum now).
  change (get_field _ (js "expiresAt")) with (JNum (num_of_Z (c + ttl))).
  change (get_field _ (js "upstreamLogoutUrl")) with (JStr upstreamLogoutUrl).
  cbn [object_keys map fst length Nat.eqb andb guard res_bind js_strict_eq usable]. rewrite !jsstr_eqb_refl, Hlater, Hnow, Hend.
  cbn [andb]. assert (negb (c + ttl - c <? 1000) && negb (120000 <? c + ttl - c) && negb (c + ttl <=? t) && negb (120000 <? c + ttl - t) = true)
    as -> by lia. exact Hup.
Qed.
End properties.
