(* ===== verification/VaultLogout.v ===== *)
(** express-oidc-vault: the logouts of [index.ts] — [performLogout] behind [createLogoutHandler], and
    [createBackchannelLogoutHandler] — and what holds of every way they can go. *)

From S2P Require Import Prelude JsValue JsJson AttestTypes AttestCanonical AttestVerify JsBuffer JsMap VaultBinding VaultStore VaultSafety VaultGuarantees DpopNonce DpopPolicy DpopProof VaultCookies VaultRoute VaultRecords VaultOrigins VaultProvider RouteTask VaultHandler VaultExchange VaultLogin VaultNavigation.

(** [try { body } finally { last }] *)
Definition tfinally {A} (body : rtask A) (last : rtask unit) : rtask A :=
  tbind body (λ r, last ;! Ret r).

(** The context a store answers with, and the one a session stands for, as [snapshotVaultRevocationContext]
    reads them. *)
Definition context_provider (p : option provider_id) : jsval :=
  match p with Some p => JObj true (identity_fields true p) | None => JUndef end.
Definition store_context_input (c : RevocationContext) : ContextInput :=
  mkContextInput (JStr (rc_logicalSessionId c)) (context_provider (rc_provider c)) (rc_deviceBinding c).
Definition session_context_input (s : SessionSnapshot) : ContextInput :=
  mkContextInput (JStr (lineage_of s)) (context_provider (ss_provider s)) (binding_value (ss_deviceBinding s)).

Record LogoutResult := mkLogoutResult { lr_upstreamLogoutUrl : option jsstr; lr_navigationUrl : option jsstr }.
Definition no_result : LogoutResult := mkLogoutResult None None.

(** What [createLogoutHandler] answers. *)
Inductive LogoutAnswer := LoggedOut | LogoutRedirect (location : jsstr) | NavigationStarted (navigationUrl : jsstr).

Section handlers.
Variable parse_url : jsstr → option URL.
Variable origin_of : URL → jsstr.
Variable with_query : jsstr → list (jsstr * jsstr) → option jsstr.
Variable sha256 : list Z → list Z.
Variable options : RouteOptions.
Variable config : ResolvedConfig.
Variable trustedOrigins : list jsstr.

Notation assert_identity provider := (assertVaultSessionIdentity provider (rcf_issuer config) (Some (rcf_clientId config))).
Notation policy_allows jkt := (assertDeviceBindingPolicy (ro_deviceBinding options) (binding_value jkt)).

Definition buildLogoutUrl (endSessionEndpoint idTokenHint : jsstr) (postLogoutRedirectUri : option jsstr) : ores jsstr :=
  query_url with_query endSessionEndpoint
    (appendQueryParam "id_token_hint" (Some idTokenHint) ++ appendQueryParam "post_logout_redirect_uri" postLogoutRedirectUri).

(** * performLogout *)

Definition has_context : bool := can options "getSessionRevocationContext".

(** What a capable store says of the session's lineage. *)
Definition read_context (sessionId : jsstr) : rtask (option Authority) :=
  if has_context then
    let! raw := store_context (OpRevocationContext sessionId) in
    match raw with
    | None => Ret (Ok None)
    | Some raw => let! context := pure_step (snapshotVaultRevocationContext (store_context_input raw)) in Ret (Ok (Some context))
    end
  else Ret (Ok None).
Definition read_session (sessionId : jsstr) : rtask (option SessionSnapshot) :=
  let! raw := store_session (OpGetSession sessionId) in
  match raw with
  | None => Ret (Ok None)
  | Some raw =>
      let! now := getNow in
      let! session := pure_step (snapshotVaultSession raw sessionId now) in
      Ret (Ok (Some session))
  end.

(** The memory store awaits one of its own methods between two steps of a delete. *)
Definition delete_session (sessionId : jsstr) : rtask unit :=
  tbind (ask (Store (OpDeleteSession sessionId)))
    (λ o : outcome, match o with
                    | VaultSafety.Done => Ret (Ok tt)
                    | Pending => store_done (OpResumeDelete sessionId)
                    | _ => fail (store_rejection o)
                    end).

Definition finishLocalLogout : rtask LogoutResult := clear_session_cookie parse_url options ;! Ret (Ok no_result).

(** The way on to the provider, for the session that was signed in; its failures are observed only. *)
Definition provider_logout (redirect : bool) (navigation : option LogoutNavigation) (session : option SessionSnapshot)
    : rtask LogoutResult :=
  match session with
  | None => Ret (Ok no_result)
  | Some session =>
      if negb redirect && bool_decide (navigation = None) then Ret (Ok no_result)
      else if bool_decide (is_Some navigation) && bool_decide (isString (JStr (ss_idToken session)) = None) then Ret (Ok no_result)
      else
        tcatch
          (let! metadata := resolve_metadata in
           match pm_endSessionEndpoint metadata with
           | None | Some [] => Ret (Ok no_result)
           | Some endpoint =>
               match navigation with
               | None =>
                   let! builtUrl := pure_step (buildLogoutUrl endpoint (ss_idToken session) (ro_postLogoutRedirectUri options)) in
                   Ret (Ok (mkLogoutResult (Some builtUrl) None))
               | Some policy =>
                   let! endpoint := pure_step (validateUpstreamLogoutUrl parse_url (JStr endpoint)) in
                   let! builtUrl := pure_step (buildLogoutUrl endpoint (ss_idToken session) (ro_postLogoutRedirectUri options)) in
                   let! upstreamLogoutUrl := pure_step (validateUpstreamLogoutUrl parse_url (JStr builtUrl)) in
                   let! now := getNow in
                   let! navigationUrl := persistLogoutNavigation sha256 policy upstreamLogoutUrl now in
                   Ret (Ok (mkLogoutResult None (Some navigationUrl)))
               end
           end)
          (λ _, notifyLogoutError options (Some (copyVaultSession false session)) ;! Ret (Ok no_result))
  end.

(** From the store's commit on. *)
Definition committed_logout (redirect : bool) (navigation : option LogoutNavigation) (session : option SessionSnapshot)
    : rtask LogoutResult :=
  tfinally
    (clear_session_cookie parse_url options ;! provider_logout redirect navigation session)
    (match session with
     | Some session => callPostCommitHook options OnLogout (Some (copyVaultSession false session))
     | None => Ret (Ok tt)
     end).

(** With the authority known. *)
Definition authorized_logout (rq : Request) (sessionId : jsstr) (session : option SessionSnapshot) (authority : Authority)
    (redirect : bool) (navigation : option LogoutNavigation) : rtask LogoutResult :=
  pure_step (assert_identity (au_provider authority)) ;!
  pure_step (policy_allows (au_deviceBinding authority)) ;!
  pure_step (guard (negb (bool_decide (is_Some navigation) && bool_decide (au_deviceBinding authority = None)))
               (http_error 401 "OIDC_VAULT_DEVICE_BINDING_REQUIRED" "A device-bound login is required.")) ;!
  pure_step (match session with
             | Some session =>
                 let* actual := snapshotVaultRevocationContext (session_context_input session) in
                 assertVaultRevocationContextMatches actual authority
             | None => Ok tt
             end) ;!
  prove_session options rq (au_deviceBinding authority) ;!
  let! gone :=
    if has_context then
      let! latest := read_context sessionId in
      match latest with
      | None => Ret (Ok true)
      | Some latest => pure_step (assertVaultRevocationContextMatches latest authority) ;! Ret (Ok false)
      end
    else Ret (Ok false) in
  if gone then finishLocalLogout
  else
    match session with
    | Some session => callHook options OnBeforeLogout (Some (copyVaultSession false session))
    | None => Ret (Ok None)
    end ;!
    store_count (OpDeleteByLogical (au_logicalSessionId authority)) ;!
    committed_logout redirect navigation session.

Definition performLogout (rq : Request) (redirect : bool) (navigation : option LogoutNavigation) : rtask LogoutResult :=
  let! sessionId := pure_step (getSessionIdFromRequest parse_url options rq "Logout") in
  pure_step (guard (negb (proving options && negb has_context))
               (TypeError (js "Device-bound logout requires storeProvider.getSessionRevocationContext."))) ;!
  let! context := read_context sessionId in
  let! session := read_session sessionId in
  match context, session with
  | None, Some session =>
      if has_context then pure_step (policy_allows (ss_deviceBinding session)) ;! fail invalidVaultSession
      else
        let! authority := pure_step (snapshotVaultRevocationContext (session_context_input session)) in
        authorized_logout rq sessionId (Some session) authority redirect navigation
  | None, None =>
      if has_context then finishLocalLogout
      else delete_session sessionId ;! finishLocalLogout
  | Some context, session => authorized_logout rq sessionId session context redirect navigation
  end.

(** * POST logout, and POST logout/navigation *)

Definition assertLogoutNavigationRequest (rq : Request) : ores unit :=
  captureTrustedOriginGuard parse_url origin_of (rq_head rq) (ro_vault options) trustedOrigins ActLogout true ;;;
  guard (rq_isJson rq) (http_error 415 "OIDC_VAULT_UNSUPPORTED_REQUEST_BODY_TYPE" "Logout navigation requires a JSON request body.").

Definition navigation_body (body : jsval) : bool :=
  is_non_array_object body && forallb (λ key, jsstr_eqb key (js "sessionId")) (object_keys body)
  && negb (has_own body (js "sessionId") && bool_decide (as_string (get_field body (js "sessionId")) = None)).

Definition createLogoutHandler (navigation : option LogoutNavigation) (rq : Request) : rtask LogoutAnswer :=
  pure_step (match navigation with
             | None => assertTrustedOrigin parse_url origin_of (rq_head rq) (ro_vault options) trustedOrigins ActLogout
             | Some _ =>
                 assertLogoutNavigationRequest rq ;;;
                 guard (navigation_body (rq_body rq))
                   (http_error 400 "OIDC_VAULT_INVALID_REQUEST_BODY" "Logout navigation request body is invalid.")
             end) ;!
  let redirect := bool_decide (navigation = None) && js_strict_eq (body_field rq "redirect") (JBool true) in
  let! result := performLogout rq redirect navigation in
  Ret (Ok (match navigation, lr_upstreamLogoutUrl result with
           | Some policy, _ => NavigationStarted (default (ln_navigationUrl policy) (lr_navigationUrl result))
           | None, Some ((_ :: _) as url) => LogoutRedirect url
           | None, _ => LoggedOut
           end)).

(** * POST backchannel-logout *)

Definition replay_part (value : jsstr) : jsstr := base64urlEncode (utf8_encode value).
Definition buildBackchannelLogoutReplayKey (issuer clientId : option jsstr) (jti : jsstr) : jsstr :=
  js "v2:" ++ replay_part (default [] issuer) ++ js ":" ++ replay_part (default [] clientId) ++ js ":" ++ replay_part jti.

Definition getLogoutTokenFromRequest (rq : Request) : ores jsstr :=
  getRequiredString (body_field rq "logout_token") (js "Backchannel logout request is missing logout_token.")
    (js "OIDC_VAULT_MISSING_LOGOUT_TOKEN") 400.

(** The sessions a verified token names; [None] where [String] throws. *)
Definition matching_sessions (metadata : ProviderMetadata) (claims : jsval) : option vault_op :=
  let scoped id := inr (mkScoped id (pm_issuer metadata) (Some (pm_clientId metadata))) in
  match isString (get_field claims (js "sid")) with
  | Some sid => Some (OpDeleteByProvider (scoped sid))
  | None => sub ← js_String (get_field claims (js "sub")); Some (OpDeleteBySubject (scoped sub))
  end.
Definition revokeMatchingSessions (metadata : ProviderMetadata) (claims : jsval) : rtask Z :=
  match matching_sessions metadata claims with
  | Some op => store_count op
  | None => fail (TypeError (js "Cannot convert object to primitive value"))
  end.

(** The [jti] and the [exp] of a token that was verified. *)
Definition claimed_string (v : jsval) : jsstr := default [] (as_string v).
Definition claimed_number (v : jsval) : num := match v with JNum n => n | _ => NaN end.

(** It answers with the number of sessions it revoked. *)
Definition createBackchannelLogoutHandler (rq : Request) : rtask Z :=
  let! metadata := resolve_metadata in
  let! logoutToken := pure_step (getLogoutTokenFromRequest rq) in
  let! claims := verifyBackchannelLogoutToken metadata logoutToken in
  let replayKey := buildBackchannelLogoutReplayKey (pm_issuer metadata) (Some (pm_clientId metadata))
                     (claimed_string (get_field claims (js "jti"))) in
  let! firstUse := store_bool (OpConsumeJti replayKey (num_mul (claimed_number (get_field claims (js "exp"))) (num_of_Z 1000))) in
  let! revokedSessions := revokeMatchingSessions metadata claims in
  (if firstUse || (0 <? revokedSessions) then callPostCommitHook options OnLogout None else Ret (Ok tt)) ;!
  Ret (Ok revokedSessions).
End handlers.

(** * Properties *)

Section properties.
Variable parse_url : jsstr → option URL.
Variable origin_of : URL → jsstr.
Variable with_query : jsstr → list (jsstr * jsstr) → option jsstr.
Variable sha256 : list Z → list Z.
Variable options : RouteOptions.
Variable config : ResolvedConfig.
Variable trustedOrigins : list jsstr.

Notation capable := (has_context options).
Notation proof_event rq authority verified :=
  (Ev (Proof (Verify (captured_proof rq) (binding_value (au_deviceBinding authority)))) (Ok verified)).
Notation context_event sessionId raw := (Ev (Store (OpRevocationContext sessionId)) (GaveContext raw)).

(** Where the authority of a logout comes from: the store's word on the lineage, from a capable store, or the
    session itself, live at the time the clock gave next after it was read. *)
Definition authority_read (tr : trace) (sessionId : jsstr) (authority : Authority) : Prop :=
  if capable
  then ∃ raw, context_event sessionId (Some raw) ∈ tr ∧ snapshotVaultRevocationContext (store_context_input raw) = Ok authority
  else ∃ raw now s, read_at tr (OpGetSession sessionId) (GaveSession (Some raw)) now
         ∧ snapshotVaultSession raw sessionId now = Ok s ∧ unexpired now (ss_expiresAt s)
         ∧ snapshotVaultRevocationContext (session_context_input s) = Ok authority.

(** A capable store has confirmed it since the proof was accepted. *)
Definition confirmed (rq : Request) (tr : trace) (sessionId : jsstr) (authority : Authority) : Prop :=
  ∃ before raw after latest, tr = before ++ context_event sessionId (Some raw) :: after
    ∧ (is_Some (ro_deviceBinding options) → ∃ verified, proof_event rq authority verified ∈ before)
    ∧ snapshotVaultRevocationContext (store_context_input raw) = Ok latest
    ∧ assertVaultRevocationContextMatches latest authority = Ok tt.

(** What a logout has shown when it deletes. *)
Record logout_shown (rq : Request) (tr : trace) (sessionId : jsstr) (authority : Authority) : Prop := {
  lo_presented : getSessionIdFromRequest parse_url options rq "Logout" = Ok sessionId;
  lo_authority : authority_read tr sessionId authority;
  lo_identity : identity_agrees (au_provider authority) (rcf_issuer config) (Some (rcf_clientId config)) = true;
  lo_policy : policy_ok options (au_deviceBinding authority);
  lo_proof : is_Some (ro_deviceBinding options) → ∃ verified, proof_event rq authority verified ∈ tr;
  lo_confirmed : capable = true → confirmed rq tr sessionId authority
}.

(** What it has shown when it has a store without the lineage's context drop an identifier: the identifier is the
    request's own, and no session of the store has it, though it may still name a lineage by an old alias. *)
Definition absent_shown (rq : Request) (tr : trace) (sessionId : jsstr) : Prop :=
  getSessionIdFromRequest parse_url options rq "Logout" = Ok sessionId
  ∧ capable = false ∧ Ev (Store (OpGetSession sessionId)) (GaveSession None) ∈ tr.

Definition deleted (tr : trace) : Prop := ∃ l n, Ev (Store (OpDeleteByLogical l)) (GaveCount n) ∈ tr.
(** The session is gone: deleted, or not there to be deleted. *)
Definition logged_out (tr : trace) : Prop :=
  deleted tr ∨ (∃ id, context_event id None ∈ tr)
  ∨ (∃ id, Ev (Store (OpDeleteSession id)) VaultSafety.Done ∈ tr ∨ Ev (Store (OpResumeDelete id)) VaultSafety.Done ∈ tr).

(** What has been shown when a call of a logout is made. *)
Definition logout_call (rq : Request) (tr : trace) (c : call) : Prop :=
  match c with
  | Store (OpDeleteByLogical l) => ∃ sessionId authority, logout_shown rq tr sessionId authority ∧ l = au_logicalSessionId authority
  | Store (OpDeleteSession id) => absent_shown rq tr id
  | Store (OpResumeDelete id) => absent_shown rq tr id ∧ Ev (Store (OpDeleteSession id)) Pending ∈ tr
  | Store (OpRevocationContext _ | OpGetSession _) => True
  | SetCookie _ => logged_out tr
  | Store (OpCreateTicket _) | RunHook OnLogout _ => deleted tr
  | Store _ => False
  | _ => True
  end.

Lemma deleted_later tr more : deleted tr → deleted (tr ++ more).
Proof. intros (l & n & H). exists l, n. apply elem_of_app. by left. Qed.
Lemma logged_out_later tr more : logged_out tr → logged_out (tr ++ more).
Proof.
  intros [H|[[id H]|[id H]]]; [left; by apply deleted_later|right; left; exists id|right; right; exists id].
  - apply elem_of_app. by left.
  - destruct H as [H|H]; [left|right]; apply elem_of_app; by left.
Qed.

Notation wp rq := (spec (logout_call rq) (ends (λ tr _, logged_out tr) (λ _ _, True))).

Lemma local_spec rq tr : logged_out tr → wp rq tr (finishLocalLogout parse_url options).
Proof.
  intros H. unfold finishLocalLogout, clear_session_cookie. destruct (usesCookieTransport _); [|done].
  apply rule_cookie; [by intros| |done]. intros h _. apply rule_ret. by apply logged_out_later.
Qed.

(** *** From the commit on *)

Lemma rest_of {A} rq tr (t : rtask A) (N : call → Prop) : logged_out tr →
  (∀ more c, N c → logout_call rq (tr ++ more) c) → calls N tr t → wp rq tr t.
Proof.
  intros Hd HN H. eapply spec_mono; [| |exact (spec_and _ _ _ _ _ _ H (spec_grows t tr))]; cbn.
  - intros tr' c [Hc [more ->]]. by apply HN.
  - intros tr' [a|e] [_ [more ->]]; [by apply logged_out_later|done].
Qed.

(** What is called once the sessions are deleted. *)
Definition late_call (c : call) : Prop :=
  match c with Store (OpCreateTicket _) => True | Store _ => False | _ => True end.
Notation late := (calls late_call).

Lemma late_hook hook session tr : late tr (callPostCommitHook options hook session).
Proof.
  unfold callPostCommitHook, callHook, run_hook. apply calls_tcatch; [|intros tr' e; apply calls_tcatch; [|done]].
  - destruct (ro_hooks options hook); [by hstep|done].
  - destruct (ro_hooks options OnError); [by hstep|done].
Qed.

Lemma late_attempts n policy upstream now e tr : late tr (persist_attempts sha256 n policy upstream now e).
Proof.
  revert tr. induction n as [|n IH]; intros tr; [done|]. cbn [persist_attempts]. hstep. apply calls_tcatch; [by hstep|].
  intros tr' [o|]; [|done]. by destruct (_ && _).
Qed.

Lemma late_provider redirect navigation session tr :
  late tr (provider_logout parse_url with_query sha256 options redirect navigation session).
Proof.
  unfold provider_logout. destruct session as [session|]; [|done]. destruct (_ && _); [done|]. destruct (_ && _); [done|].
  apply calls_tcatch.
  - hstep. destruct (pm_endSessionEndpoint _) as [[|c endpoint]|]; [done| |done]. destruct navigation as [policy|]; [|by hstep].
    do 4 hstep. apply calls_rbind; [|done]. unfold persistLogoutNavigation. hstep. apply late_attempts.
  - intros tr' e. apply calls_rbind; [|done]. unfold notifyLogoutError, callHook, run_hook. apply calls_tcatch; [|done].
    destruct (ro_hooks options OnError); [by hstep|done].
Qed.

Lemma late_committed redirect navigation session tr :
  late tr (committed_logout parse_url with_query sha256 options redirect navigation session).
Proof.
  unfold committed_logout, tfinally. apply spec_bind. eapply spec_mono; [intros ? ? H; exact H| |].
  2: { apply calls_rbind; [|intros tr' u; apply late_provider].
       unfold clear_session_cookie, set_cookie. destruct (usesCookieTransport _); [|done]. by destruct (clearSessionCookie _ _). }
  intros tr' r _. apply calls_rbind; [|intros tr2 u; by destruct r]. destruct session; [apply late_hook|done].
Qed.

Lemma committed_spec rq tr redirect navigation session : deleted tr →
  wp rq tr (committed_logout parse_url with_query sha256 options redirect navigation session).
Proof.
  intros Hd. apply (rest_of rq tr _ late_call); [by left| |apply late_committed].
  intros more c Hc. apply (deleted_later _ more) in Hd. destruct c; try done; [by destruct op|by destruct hook|by left].
Qed.

(** *** Up to the commit *)

Lemma authority_later tr more id authority : authority_read tr id authority → authority_read (tr ++ more) id authority.
Proof.
  unfold authority_read. destruct capable.
  - intros (raw & H & Hs). exists raw. split; [|done]. apply elem_of_app. by left.
  - intros (raw & now & s & H & Hs). exists raw, now, s. split; [by apply read_at_later|done].
Qed.

Lemma read_context_spec {B} rq tr id (Q : trace → B → Prop) (k : option Authority → rtask B) :
  (capable = false → spec (logout_call rq) (ends Q (λ _ _, True)) tr (k None)) →
  (capable = true → spec (logout_call rq) (ends Q (λ _ _, True)) (tr ++ [context_event id None]) (k None)) →
  (∀ raw context, capable = true → snapshotVaultRevocationContext (store_context_input raw) = Ok context →
     spec (logout_call rq) (ends Q (λ _ _, True)) (tr ++ [context_event id (Some raw)]) (k (Some context))) →
  spec (logout_call rq) (ends Q (λ _ _, True)) tr (rbind (read_context options id) k).
Proof.
  intros H1 H2 H3. unfold read_context. apply rule_bind. destruct capable; [|by apply rule_ret, H1]. hstep.
  destruct s as [raw|]; [|by apply rule_ret, H2]. hcheck context Hc. apply rule_ret. by apply H3.
Qed.

Lemma read_session_spec {B} rq tr id (Q : trace → B → Prop) (k : option SessionSnapshot → rtask B) :
  spec (logout_call rq) (ends Q (λ _ _, True)) (tr ++ [Ev (Store (OpGetSession id)) (GaveSession None)]) (k None) →
  (∀ raw now s, snapshotVaultSession raw id now = Ok s →
     spec (logout_call rq) (ends Q (λ _ _, True)) ((tr ++ [Ev (Store (OpGetSession id)) (GaveSession (Some raw))]) ++ [Ev Clock now]) (k (Some s))) →
  spec (logout_call rq) (ends Q (λ _ _, True)) tr (rbind (read_session id) k).
Proof.
  intros H1 H2. unfold read_session. apply rule_bind. hstep. destruct s as [raw|]; [|by apply rule_ret]. hstep. hcheck s Hs.
  apply rule_ret. by eapply H2.
Qed.

Lemma authorized_spec rq tr id session authority redirect navigation :
  getSessionIdFromRequest parse_url options rq "Logout" = Ok id → authority_read tr id authority →
  wp rq tr (authorized_logout parse_url with_query sha256 options config rq id session authority redirect navigation).
Proof.
  intros Hid Hread. unfold authorized_logout. hcheck [] Hidentity%guard_Ok. hcheck [] Hpolicy%policy_bound. hcheck [] _. hcheck [] _.
  apply rule_prove_session; [done|done|]. intros more verified Hproof.
  assert (∀ more', (capable = true → confirmed rq ((tr ++ more) ++ more') id authority) →
    logout_shown rq ((tr ++ more) ++ more') id authority) as Hshown.
  { intros more' Hc. split; [done| |done|done| |done].
    - by apply authority_later, authority_later.
    - intros Hs. exists verified. apply elem_of_app. left. auto. }
  assert (∀ more', (capable = true → confirmed rq ((tr ++ more) ++ more') id authority) →
    wp rq ((tr ++ more) ++ more')
      (match session with
       | Some session => callHook options OnBeforeLogout (Some (copyVaultSession false session))
       | None => Ret (Ok None)
       end ;! store_count (OpDeleteByLogical (au_logicalSessionId authority)) ;!
       committed_logout parse_url with_query sha256 options redirect navigation session)) as Hcommit.
  { intros more' Hc. assert (∀ hooked, wp rq (((tr ++ more) ++ more') ++ hooked)
      (store_count (OpDeleteByLogical (au_logicalSessionId authority)) ;!
       committed_logout parse_url with_query sha256 options redirect navigation session)) as Hdelete.
    { intros hooked. apply rule_count; [|done|].
      - exists id, authority. split; [|done]. rewrite <- app_assoc. apply Hshown. intros Hcap. rewrite app_assoc.
        destruct (Hc Hcap) as (b & raw & a & l & E & Hp & Hl & Hm). exists b, raw, (a ++ hooked), l. by rewrite E, <- app_assoc.
      - intros n. apply committed_spec. eexists _, n. traced. }
    destruct session as [s|]; [|apply rule_value; specialize (Hdelete []); by rewrite app_nil_r in Hdelete].
    unfold callHook, run_hook. destruct (ro_hooks options OnBeforeLogout).
    - apply rule_hook; [done| |done]. intros r. apply Hdelete.
    - apply rule_value. specialize (Hdelete []). by rewrite app_nil_r in Hdelete. }
  apply rule_bind. destruct capable eqn:Ecap.
  - apply read_context_spec; [by rewrite Ecap| |].
    + intros _. apply rule_ret. apply local_spec. right. left. exists id. traced.
    + intros raw latest _ Hl. hcheck [] Hm. apply rule_ret. apply Hcommit. intros _.
      exists (tr ++ more), raw, [], latest. split; [done|]. split; [|done]. intros Hs. exists verified. auto.
  - apply rule_ret. specialize (Hcommit []). rewrite app_nil_r in Hcommit. by apply Hcommit.
Qed.

Lemma delete_session_calls rq tr id : absent_shown rq tr id →
  wp rq tr (delete_session id ;! finishLocalLogout parse_url options).
Proof.
  intros (Hid & Hc & Hr). apply rule_bind. split; [done|]. intros [| | | | | | | |]; cbn; try done.
  - apply local_spec. right. right. exists id. left. traced.
  - split; [split; [split; [done|split; [done|traced]]|traced]|]. intros []; cbn; try done. apply local_spec. right. right.
    exists id. right. traced.
Qed.

Lemma logout_spec rq redirect navigation : wp rq [] (performLogout parse_url with_query sha256 options config rq redirect navigation).
Proof.
  unfold performLogout. hcheck id Hid. hcheck [] _. apply read_context_spec; cbn [app].
  - intros Ecap. apply read_session_spec; cbn [app].
    + rewrite Ecap. apply delete_session_calls. split; [done|]. split; [done|traced].
    + intros raw now s Hs. rewrite Ecap. hcheck authority Ha. apply authorized_spec; [done|]. unfold authority_read. rewrite Ecap.
      exists raw, now, s. split; [apply (read_at_now [])|]. split; [done|]. split; [by eapply session_lives|done].
  - intros Ecap. apply read_session_spec; cbn [app].
    + rewrite Ecap. apply local_spec. right. left. exists id. traced.
    + intros raw now s Hs. rewrite Ecap. by hcheck [] _.
  - intros raw context Ecap Hc. apply read_session_spec; [|intros raw' now s Hs]; apply authorized_spec; try done;
      unfold authority_read; rewrite Ecap; exists raw; (split; [cbn; traced|done]).
Qed.

(** The origin of the request, as [POST logout] wants it, in cookie transport, and [POST logout/navigation], always. *)
Definition origin_trusted (navigation : option LogoutNavigation) (rq : Request) : Prop :=
  match navigation with
  | None => usesCookieTransport (ro_vault options) = true → trusted_source parse_url origin_of false (rq_head rq) trustedOrigins
  | Some _ => trusted_source parse_url origin_of true (rq_head rq) trustedOrigins
  end.


(** *** Once the sessions are deleted *)

Notation settles Q := (spec (λ _ _, True) (ends Q (λ _ _, False))).

Lemma clear_settles tr : settles (λ _ _, True) tr (clear_session_cookie parse_url options).
Proof.
  unfold clear_session_cookie, clearSessionCookie, serializeCookie. destruct (usesCookieTransport _); [|done]. by rewrite unreserved_kept.
Qed.

Lemma provider_settles redirect navigation session tr :
  settles (λ _ _, True) tr (provider_logout parse_url with_query sha256 options redirect navigation session).
Proof.
  unfold provider_logout. destruct session as [session|]; [|done]. destruct (_ && _); [done|]. destruct (_ && _); [done|].
  apply spec_tcatch. eapply spec_mono; [by intros| |eapply spec_grows]. intros tr' [r|e] _; [done|]. by apply notify_settles.
Qed.

End properties.

(** ** Back-channel *)

Section backchannel.
Variable options : RouteOptions.

(** A logout token of this request, verified for the configured provider. *)
Definition token_verified (rq : Request) (tr : trace) (metadata : ProviderMetadata) (claims : jsval) : Prop :=
  Ev Metadata (Ok metadata) ∈ tr ∧ ∃ token typ, body_field rq "logout_token" = JStr token
    ∧ Ev (JwtVerify token (pm_clientId metadata) (pm_issuer metadata)) (Ok (claims, typ)) ∈ tr
    ∧ check_logout_token typ claims = Ok tt.

Definition reservation (metadata : ProviderMetadata) (claims : jsval) : vault_op :=
  OpConsumeJti (buildBackchannelLogoutReplayKey (pm_issuer metadata) (Some (pm_clientId metadata))
                  (claimed_string (get_field claims (js "jti"))))
    (num_mul (claimed_number (get_field claims (js "exp"))) (num_of_Z 1000)).

(** The sessions that were revoked for it, after its reservation was answered. *)
Definition revoked (rq : Request) (tr : trace) (first : bool) (count : Z) : Prop :=
  ∃ metadata claims op, token_verified rq tr metadata claims ∧ matching_sessions metadata claims = Some op
    ∧ Ev (Store (reservation metadata claims)) (GaveBool first) ∈ tr ∧ Ev (Store op) (GaveCount count) ∈ tr.

Definition backchannel_call (rq : Request) (tr : trace) (c : call) : Prop :=
  match c with
  | Store (OpConsumeJti key expiresAt as op) => ∃ metadata claims, token_verified rq tr metadata claims ∧ op = reservation metadata claims
  | Store op => ∃ metadata claims first, token_verified rq tr metadata claims ∧ matching_sessions metadata claims = Some op
      ∧ Ev (Store (reservation metadata claims)) (GaveBool first) ∈ tr
  | RunHook OnLogout _ => ∃ first count, revoked rq tr first count ∧ (first = true ∨ 0 < count)
  | _ => True
  end.

Lemma token_later rq tr more metadata claims : token_verified rq tr metadata claims → token_verified rq (tr ++ more) metadata claims.
Proof.
  intros (Hm & token & typ & Hb & Hj & Hc). split; [apply elem_of_app; by left|]. exists token, typ. split; [done|]. split; [|done].
  apply elem_of_app. by left.
Qed.

Lemma backchannel_spec rq :
  spec (backchannel_call rq) (ends (λ tr n, ∃ first, revoked rq tr first n) (λ _ _, True)) [] (createBackchannelLogoutHandler options rq).
Proof.
  unfold createBackchannelLogoutHandler. hstep. rename m into metadata. hcheck token Htoken%required_string.
  apply rule_bind. unfold verifyBackchannelLogoutToken. hcheck [] _. hstep. destruct r as [claims typ]. hcheck [] Hcheck. apply rule_ret.
  cbn [fst snd] in *. match goal with |- spec _ _ ?t _ => set (tr := t) in * end.
  assert (token_verified rq tr metadata claims) as Hv.
  { split; [unfold tr; traced|]. exists token, typ. split; [done|]. split; [unfold tr; traced|done]. }
  apply rule_bool; [exists metadata, claims; done|done|]. intros first.
  unfold revokeMatchingSessions. destruct (matching_sessions metadata claims) as [op|] eqn:Em; [|done].
  assert (Ev (Store (reservation metadata claims)) (GaveBool first) ∈ tr ++ [Ev (Store (reservation metadata claims)) (GaveBool first)]) as Hres by traced.
  apply rule_count; [|done|].
  { assert (∀ key e, op ≠ OpConsumeJti key e) as Hne.
    { intros key e ->. unfold matching_sessions in Em. destruct (isString _); [done|]. by destruct (js_String _). }
    assert (∃ m c f, token_verified rq (tr ++ [Ev (Store (reservation metadata claims)) (GaveBool first)]) m c
      ∧ matching_sessions m c = Some op ∧ Ev (Store (reservation m c)) (GaveBool f) ∈ tr ++ [Ev (Store (reservation metadata claims)) (GaveBool first)])
      as Hall by (exists metadata, claims, first; split; [by apply token_later|done]).
    destruct op; try exact Hall. by destruct (Hne jti expiresAt). }
  intros n. match goal with |- spec _ _ ?t _ => set (tr1 := t) in * end.
  assert (∀ more, revoked rq (tr1 ++ more) first n) as Hr.
  { intros more. exists metadata, claims, op. split; [unfold tr1; by do 3 apply token_later|]. split; [done|].
    unfold tr1. split; traced. }
  pose proof (Hr []) as Hr0. rewrite app_nil_r in Hr0.
  destruct (first || (0 <? n)) eqn:E; [|exists first; exact Hr0].
  unfold callPostCommitHook, callHook, run_hook. destruct (ro_hooks options OnLogout); [|exists first; exact Hr0].
  apply rule_bind, spec_tcatch. split; [exists first, n; split; [done|]; destruct first; [by left|right; lia]|].
  intros [x|x]; [exists first; apply Hr|]. apply spec_tcatch. destruct (ro_hooks options OnError); [|exists first; apply Hr].
  split; [done|]. intros [y|y]; exists first; rewrite <- app_assoc; apply Hr.
Qed.

(** C12: A back-channel logout deletes sessions only for a logout token that was verified for the configured
    provider and client, of the subject or provider session that token names and of that issuer and client
    only, and only once its identifier was reserved under them; the hook is told by the request that reserved it, or
    by one that still found sessions to revoke. *)
Theorem backchannel_guarded (rq : Request) (tr : list event) (a : result route_error Z) :
  runs (createBackchannelLogoutHandler options rq) tr a →
  (∀ tr1 c r tr2, tr = tr1 ++ Ev c r :: tr2 → backchannel_call rq tr1 c)
  ∧ ∀ count, a = Ok count → ∃ first, revoked rq tr first count.
Proof.
  intros H. destruct (spec_runs _ _ _ _ _ _ (backchannel_spec rq) H) as [Ha Hcalls]. split; [exact Hcalls|].
  intros count ->. exact Ha.
Qed.
End backchannel.

(** ** The replay key *)

Lemma encode_inj a b : bytes_ok a → bytes_ok b → base64urlEncode a = base64urlEncode b → a = b.
Proof.
  intros Ha Hb H. assert (∀ x, base64urlEncode x = [] → x = []) as Hnil by (by intros [|f [|s [|t r]]]).
  destruct a as [|x a]; [symmetry; by apply Hnil|]. destruct b as [|y b]; [by apply Hnil|].
  pose proof (base64url_decode_encode _ Ha (ltac:(done))) as Da. pose proof (base64url_decode_encode _ Hb (ltac:(done))) as Db.
  rewrite H in Da. congruence.
Qed.

Lemma part_spec s : well_formed s → 58 ∉ replay_part s ∧ bytes_ok (utf8_encode s).
Proof.
  intros [Hs _]. pose proof (utf8_encode_bytes _ Hs) as Hb. split; [|done]. intros Hin. pose proof (encode_alphabet _ Hb) as Ha.
  rewrite Forall_forall in Ha. apply Ha in Hin. vm_compute in Hin. by destruct Hin.
Qed.

Lemma part_inj s t : well_formed s → well_formed t → replay_part s = replay_part t → s = t.
Proof.
  intros Hs Ht H. apply utf8_encode_inj; [done..|]. apply encode_inj in H; [done|by apply part_spec..].
Qed.

(** Two back-channel logouts share a replay reservation only when issuer, client and [jti] are the same: no
    provider or client on the same store suppresses another's revocation, whatever the strings contain. *)
Theorem replay_key_injective (issuer clientId issuer' clientId' : option jsstr) (jti jti' : jsstr) :
  Forall well_formed [default [] issuer; default [] clientId; jti; default [] issuer'; default [] clientId'; jti'] →
  buildBackchannelLogoutReplayKey issuer clientId jti = buildBackchannelLogoutReplayKey issuer' clientId' jti' →
  default [] issuer = default [] issuer' ∧ default [] clientId = default [] clientId' ∧ jti = jti'.
Proof.
  intros Hw H. repeat (apply Forall_cons in Hw as [? Hw]). unfold buildBackchannelLogoutReplayKey in H. apply app_inv_head in H.
  change (js ":" ++ ?x) with (58 :: x) in H.
  assert (∀ a b x y, 58 ∉ a → 58 ∉ b → a ++ 58 :: x = b ++ 58 :: y → a = b ∧ x = y) as Hcut.
  { intros a b x y Ha Hb E. pose proof (cut_at_app 58 a x Ha) as E1. rewrite E, (cut_at_app 58 b y Hb) in E1. by injection E1. }
  apply Hcut in H as [Hi H]; [|by apply part_spec..]. apply Hcut in H as [Hc Hj]; [|by apply part_spec..].
  split_and!; by apply part_inj.
Qed.
