(* ===== verification/VaultScenario.v ===== *)
(** express-oidc-vault, end to end on the memory store: one browser signs in, exchanges its code, refreshes, and
    logs out, twice, through a continuation at the provider. Every handler runs as it is written, over the vault
    the one before it left; the theorems of the handlers are applied to these runs. *)

From S2P Require Import Prelude JsValue JsJson AttestTypes AttestCanonical AttestVerify JsBuffer HeapAdmission VaultBinding VaultDpop VaultTickets VaultStore VaultSafety VaultGuarantees DpopNonce DpopPolicy DpopChallenge DpopProof ApiAccessToken VaultCookies VaultRoute VaultRecords VaultOrigins VaultProvider RouteTask VaultHandler VaultExchange VaultLogin VaultNavigation VaultLogout.

(** * Running a handler over the memory store *)

Section play.
Variable parse_url : jsstr → option URL.

(** One run of [t] alone: the store answers its methods at [clock], [h] everything else. *)
Fixpoint play_vault {A} (h : ∀ c, RouteTask.answer c) (clock : num) (t : task A) (v : Vault) : option (trace * A * Vault) :=
  match t with
  | Ret a => Some ([], a, v)
  | Ask c k =>
      let next (r : RouteTask.answer c) (v : Vault) :=
        '(tr, a, v) ← play_vault h clock (k r) v; Some (Ev c r :: tr, a, v) in
      match c return (RouteTask.answer c → Vault → option (trace * A * Vault)) → option (trace * A * Vault) with
      | Store op => λ next, '(o, v) ← vault_exec parse_url op clock clock v; next o v
      | c => λ next, next (h c) v
      end next
  end.

Lemma play_vault_runs {A} h clock (t : task A) v tr a v' : play_vault h clock t v = Some (tr, a, v') → runs t tr a.
Proof.
  revert v tr a v'. induction t as [b|c k IH]; intros v tr a v'; cbn [play_vault]; [by intros [= <- <- <-]; constructor|].
  assert (∀ r v0, ('(tr, a, v) ← play_vault h clock (k r) v0; Some (Ev c r :: tr, a, v)) = Some (tr, a, v') → runs (Ask c k) tr a) as Hnext.
  { intros r v0 E. destruct (play_vault h clock (k r) v0) as [[[tr0 a0] v1]|] eqn:E0; [|done]. cbn in E. injection E as <- <- <-.
    constructor. by eapply IH. }
  destruct c; try apply Hnext. destruct (vault_exec parse_url op clock clock v) as [[o v0]|]; [|done]. apply Hnext.
Qed.

(** What is not the store's answer is [h]'s. *)
Definition answered_by (h : ∀ c, RouteTask.answer c) (e : event) : Prop :=
  match e with Ev c r => match c return RouteTask.answer c → Prop with Store _ => λ _, True | c => λ r, r = h c end r end.

Lemma play_vault_answers {A} h clock (t : task A) v tr a v' :
  play_vault h clock t v = Some (tr, a, v') → Forall (answered_by h) tr.
Proof.
  revert v tr a v'. induction t as [b|c k IH]; intros v tr a v'; cbn [play_vault]; [by intros [= <- <- <-]; constructor|].
  assert (∀ r v0, answered_by h (Ev c r) →
    ('(tr, a, v) ← play_vault h clock (k r) v0; Some (Ev c r :: tr, a, v)) = Some (tr, a, v') → Forall (answered_by h) tr) as Hnext.
  { intros r v0 Hr E. destruct (play_vault h clock (k r) v0) as [[[tr0 a0] v1]|] eqn:E0; [|done]. cbn in E. injection E as <- <- <-.
    constructor; [done|]. by eapply IH. }
  destruct c; try by apply Hnext. destruct (vault_exec parse_url op clock clock v) as [[o v0]|]; [|done]. by apply Hnext.
Qed.
End play.

(** * The surroundings *)

Definition vault_origin : jsstr := js "https://vault.example".
Definition site (path : string) : URL :=
  mkURL (vault_origin ++ js path) (js "https:") [] [] (js "vault.example") (js "vault.example") (js path) [] [].
Definition provider_site (path : string) : URL :=
  mkURL (js "https://issuer.example" ++ js path) (js "https:") [] [] (js "issuer.example") (js "issuer.example") (js path) [] [].

(** The parser on the URLs of the scenario; what is asked of it besides comes with a query string. *)
Definition scenario_url (s : jsstr) : option URL :=
  let bare := (cut_at 63 s).1 in
  if jsstr_eqb bare vault_origin then Some (site "/")
  else if jsstr_eqb bare (vault_origin ++ js "/app") then Some (site "/app")
  else if jsstr_eqb bare (js "https://issuer.example/logout")
  then Some (mkURL s (js "https:") [] [] (js "issuer.example") (js "issuer.example") (js "/logout") (drop (length bare) s) [])
  else None.
Definition scenario_origin (u : URL) : jsstr := url_protocol u ++ js "//" ++ url_host u.
Definition scenario_resolve (s : jsstr) (base : URL) : option URL := Some (site "/app").
Definition scenario_query (url : jsstr) (params : list (jsstr * jsstr)) : option jsstr :=
  Some (url ++ js "?" ++ join_with 38 (map (λ p, p.1 ++ js "=" ++ p.2) params)).

Definition scenario_options : RouteOptions :=
  mkRouteOptions (mkVaultOptions (Some TransportCookie) (mkCookieOptions None None None (Some (js "__Host-session")) None None None)
                    JUndef (JStr vault_origin) true true)
    (Some example_options) (Some (js "x-browser-fingerprint")) example_cookie (λ _, true) true (λ _, true)
    (mkLifetimes None None (Some (num_of_Z 3600000))) true (Some (vault_origin ++ js "/app")) None.
Definition scenario_config : ResolvedConfig :=
  mkResolvedConfig ManualMode (js "openid") (Some (js "https://issuer.example")) (js "client") None None None None None None.
Definition scenario_metadata : ProviderMetadata :=
  mkMetadata (Some (js "https://issuer.example")) (js "https://issuer.example/authorize") (js "https://issuer.example/token")
    (js "https://issuer.example/jwks") None (Some (js "https://issuer.example/logout")) (js "client") None (js "openid").
Definition scenario_navigation : LogoutNavigation :=
  mkNavigation (vault_origin ++ js "/app") (num_of_Z 60000) (js "logout-navigation:v1:" ++ base64urlEncode (repeat 1 32))
    (vault_origin ++ js "/auth/logout/navigation") None.

Definition random_of (byte : Z) (prefix : string) : jsstr := js prefix ++ js "_" ++ base64urlEncode (repeat byte 16).
Definition scenario_id_claims (byte : Z) : jsval :=
  JObj true [(js "iss", JStr (js "https://issuer.example")); (js "sub", JStr (js "alice")); (js "sid", JStr (js "op-7"));
             (js "aud", JStr (js "client")); (js "exp", JNum (num_of_Z 5000)); (js "iat", JNum (num_of_Z 1));
             (js "nonce", JStr (random_of byte "nonce"))].
Definition scenario_tokens (refresh_token : string) : jsval :=
  JObj true [(js "token_type", JStr (js "Bearer")); (js "id_token", JStr (js "idt")); (js "refresh_token", JStr (js refresh_token))].
Definition scenario_issued : jsval :=
  JObj true [(js "accessToken", JStr (js "YQ.Yg.Yw")); (js "expiresIn", JNum (num_of_Z 300)); (js "tokenType", JStr (js "DPoP"))].
Definition scenario_header (token : jsstr) : option jsval := Some (JObj true [(js "alg", JStr (js "ES256"))]).
Definition scenario_claims (token : jsstr) : option jsval :=
  Some (JObj true [(js "exp", JNum (num_of_Z 300)); (js "cnf", confirmation_value (Some example_jkt))]).

(** The answers a handler gets besides the store's: at a time, with its random bytes, with the provider's tokens
    and claims. *)
Definition scenario (time byte : Z) (tokens claims : jsval) (c : call) : RouteTask.answer c :=
  match c with
  | Store _ => Pending
  | Proof _ => Ok (Some (mkVerified example_jkt ES256))
  | Clock => num_of_Z time
  | RandomBytes n => repeat byte (Z.to_nat n)
  | Metadata => Ok scenario_metadata
  | Post _ => Ok (200, Ok (json_text tokens))
  | GetUserInfo _ _ => Ok (200, Ok (js "{}"))
  | JwtVerify _ _ _ => Ok (claims, JUndef)
  | IssueToken _ _ _ => Ok scenario_issued
  | RunHook _ s => Ok s
  | SetCookie _ => tt
  end.

Definition scenario_request (cookie : jsstr) (query body : list (jsstr * jsval)) : Request :=
  mkRequest (mkHead [js "Origin"; vault_origin; js "X-Browser-Fingerprint"; js "firefox"] (JStr vault_origin) JUndef)
    (JStr cookie) (js "POST") (JStr (js "/auth/login")) true (JObj true query) (JObj true body).

Definition scenario_play {A} (time byte : Z) (tokens claims : jsval) (t : rtask A) (v : Vault) : option (trace * result route_error A * Vault) :=
  play_vault scenario_url (scenario time byte tokens claims) (num_of_Z time) t v.
Definition events {A} (p : option (trace * result route_error A * Vault)) : trace :=
  match p with Some (tr, _, _) => tr | None => [] end.
Definition vault_after {A} (p : option (trace * result route_error A * Vault)) : Vault :=
  match p with Some (_, _, v) => v | None => store_of (createMemoryOidcVaultStore JUndef (JNum (num_of_Z 3))) end.
Definition value_of {A} (p : option (trace * result route_error A * Vault)) : option A :=
  match p with Some (_, Ok a, _) => Some a | _ => None end.

(** * The scenario *)

Definition fresh_vault : Vault := store_of (createMemoryOidcVaultStore JUndef (JNum (num_of_Z 3))).

(** The login, with its answer: the provider's authorization URL. *)
Definition login_request : Request := scenario_request [] [] [].
Definition login_task : rtask jsstr :=
  createLoginInitiationHandler scenario_url scenario_origin scenario_resolve scenario_query toy_hash scenario_options scenario_config
    [vault_origin] vault_origin (js "/auth") login_request.
Definition login := scenario_play 1000 7 JUndef JUndef login_task fresh_vault.

(** The browser comes back with the cookie it was given. *)
Definition browser_secret : jsstr := (createTransactionBrowserBinding toy_hash (repeat 7 32)).1.
Definition transaction_cookie : jsstr := tc_name example_cookie ++ js "=" ++ browser_secret.
Definition callback_request : Request :=
  scenario_request transaction_cookie [(js "state", JStr (random_of 7 "state")); (js "code", JStr (js "c1"))] [].
Definition callback_task : rtask jsstr :=
  createCallbackHandler scenario_query toy_hash scenario_options scenario_config vault_origin (js "/auth") callback_request.
Definition callback := scenario_play 2000 8 (scenario_tokens "rt1") (scenario_id_claims 7) callback_task (vault_after login).

Definition exchange_request : Request := scenario_request transaction_cookie [] [(js "code", JStr (random_of 8 "code"))].
Definition exchange_task : rtask ExchangeResult :=
  createExchangeHandler scenario_url scenario_origin toy_hash scenario_header scenario_claims scenario_options scenario_config [vault_origin]
    exchange_request.
Definition exchange := scenario_play 3000 9 JUndef JUndef exchange_task (vault_after callback).

Definition session_cookie (id : jsstr) : jsstr := js "__Host-session=" ++ id.
Definition refresh_request : Request := scenario_request (session_cookie (random_of 8 "sess")) [] [].
Definition refresh_task : rtask ExchangeResult :=
  createRefreshHandler scenario_url scenario_origin toy_hash scenario_header scenario_claims scenario_options scenario_config [vault_origin]
    refresh_request.
Definition refresh := scenario_play 4000 10 (scenario_tokens "rt2") (scenario_id_claims 7) refresh_task (vault_after exchange).

(** The logout, with the identifier from before the refresh: an alias of the session the refresh rotated to. *)
Definition alias_task : rtask LogoutAnswer :=
  createLogoutHandler scenario_url scenario_origin scenario_query toy_hash scenario_options scenario_config [vault_origin] None refresh_request.
Definition alias_logout := scenario_play 5000 11 JUndef JUndef alias_task (vault_after refresh).

(** The same session, logged out with a continuation. *)
Definition logout_request : Request := scenario_request (session_cookie (random_of 10 "sess")) [] [].
Definition logout_task : rtask LogoutAnswer :=
  createLogoutHandler scenario_url scenario_origin scenario_query toy_hash scenario_options scenario_config [vault_origin]
    (Some scenario_navigation) logout_request.
Definition logout := scenario_play 5000 11 JUndef JUndef logout_task (vault_after refresh).

Definition scenario_ticket : jsstr := ticket_of (repeat 11 32).
Definition navigation_task : rtask jsstr :=
  createLogoutNavigationGetHandler scenario_url toy_hash scenario_options scenario_navigation
    (js "/auth/logout/navigation?ticket=" ++ scenario_ticket).
Definition navigation := scenario_play 6000 12 JUndef JUndef navigation_task (vault_after logout).

Definition logout_claims : jsval :=
  JObj true [(js "iss", JStr (js "https://issuer.example")); (js "aud", JStr (js "client")); (js "sid", JStr (js "op-7"));
             (js "jti", JStr (js "lt-1")); (js "iat", JNum (num_of_Z 4)); (js "exp", JNum (num_of_Z 600));
             (js "events", JObj true [(BACKCHANNEL_LOGOUT_EVENT_CLAIM, JObj true [])])].
Definition backchannel_request : Request := scenario_request [] [] [(js "logout_token", JStr (js "lt"))].
Definition backchannel_task : rtask Z := createBackchannelLogoutHandler scenario_options backchannel_request.
Definition backchannel := scenario_play 5000 11 JUndef logout_claims backchannel_task (vault_after refresh).

(** The kernel compares runs by their inputs. *)
#[local] Strategy 1000 [scenario_play].

(** * The theorems at work *)

Lemma played {A} time byte tokens claims (t : rtask A) v a :
  value_of (scenario_play time byte tokens claims t v) = Some a →
  runs t (events (scenario_play time byte tokens claims t v)) (Ok a).
Proof.
  unfold value_of, events, scenario_play. destruct (play_vault _ _ _ _ _) as [[[tr [b|e]] v']|] eqn:E; intros [= <-].
  by eapply play_vault_runs.
Qed.

Lemma played_answers {A} time byte tokens claims (t : rtask A) v e :
  e ∈ events (scenario_play time byte tokens claims t v) → answered_by (scenario time byte tokens claims) e.
Proof.
  unfold events, scenario_play. destruct (play_vault _ _ _ _ _) as [[[tr a] v']|] eqn:E; [|by intros ?%not_elem_of_nil].
  apply play_vault_answers in E. rewrite Forall_forall in E. apply E.
Qed.

Lemma play_vault_inv {A} h clock (t : task A) v tr a v' :
  vault_inv v → play_vault scenario_url h clock t v = Some (tr, a, v') → vault_inv v'.
Proof.
  revert v tr a v'. induction t as [b|c k IH]; intros v tr a v' Hv; cbn [play_vault]; [by intros [= _ _ <-]|].
  assert (∀ r v0, vault_inv v0 → ('(tr, a, v) ← play_vault scenario_url h clock (k r) v0; Some (Ev c r :: tr, a, v)) = Some (tr, a, v') → vault_inv v') as Hnext.
  { intros r v0 Hv0 E. destruct (play_vault _ h clock (k r) v0) as [[[tr0 a0] v1]|] eqn:E0; [|done]. cbn in E. injection E as _ _ <-. by eapply IH. }
  destruct c; try by apply Hnext. destruct (exec_total scenario_url op clock clock v Hv) as (o & v0 & -> & Hv0). by apply Hnext.
Qed.

Lemma played_inv {A} time byte tokens claims (t : rtask A) v :
  vault_inv v → vault_inv fresh_vault → vault_inv (vault_after (scenario_play time byte tokens claims t v)).
Proof.
  intros Hv Hf. unfold vault_after, scenario_play. destruct (play_vault _ _ _ _ _) as [[[tr a] v']|] eqn:E; [|exact Hf].
  exact (play_vault_inv _ _ _ _ _ _ _ Hv E).
Qed.

Lemma fresh_inv : vault_inv fresh_vault.
Proof. apply (after_inv []). by eexists. Qed.
#[local] Hint Resolve fresh_inv played_inv : core.
Lemma login_inv : vault_inv (vault_after login).
Proof. unfold login. auto. Qed.
Lemma callback_inv : vault_inv (vault_after callback).
Proof. unfold callback. auto using login_inv. Qed.
Lemma exchange_inv : vault_inv (vault_after exchange).
Proof. unfold exchange. auto using callback_inv. Qed.

Lemma login_continues_witness :
  ∃ record secret binding recognition expiresAt,
    login_started toy_hash scenario_options login_request (events login) record secret binding recognition expiresAt
    ∧ login_continues_with toy_hash scenario_options scenario_config record secret binding recognition expiresAt.
Proof.
  assert (is_Some (value_of login)) as [location E] by (vm_compute; eauto).
  apply (login_continues scenario_url scenario_origin scenario_resolve scenario_query toy_hash
    (λ m, conj (toy_hash_length m) (toy_hash_bytes m)) scenario_options scenario_config [vault_origin] vault_origin (js "/auth")
    login_request (events login) location); [by apply played|].
  intros verified Hp%played_answers. cbn in Hp. by injection Hp as ->.
Defined.

Lemma repeat_bytes n : bytes_ok (repeat 11 n).
Proof. induction n; constructor; [unfold byte_ok; lia|done]. Qed.

(** A closed statement about a run: it ended with a value, and what a theorem makes of it. *)
Ltac ran p :=
  let a := fresh "a" in let E := fresh "E" in
  assert (is_Some (value_of p)) as [a E] by (vm_compute; eauto); exists a; split; [exact E|].


Lemma exchange_guarded_witness :
  ∃ result, value_of exchange = Some result
    ∧ exchange_result scenario_url scenario_origin toy_hash scenario_claims scenario_options scenario_config [vault_origin]
        exchange_request (events exchange) result.
Proof.
  ran exchange. destruct (exchange_guarded scenario_url scenario_origin toy_hash scenario_header scenario_claims scenario_options scenario_config
    [vault_origin] exchange_request (events exchange) (Ok a)) as [_ H]; [exact (played _ _ _ _ _ _ _ E)|]. exact (H a eq_refl).
Defined.

Lemma refresh_guarded_witness :
  ∃ result, value_of refresh = Some result
    ∧ refresh_result scenario_url scenario_origin toy_hash scenario_claims scenario_options scenario_config [vault_origin]
        refresh_request (events refresh) result.
Proof.
  ran refresh. destruct (refresh_guarded scenario_url scenario_origin toy_hash scenario_header scenario_claims scenario_options scenario_config
    [vault_origin] refresh_request (events refresh) (Ok a)) as [_ H]; [exact (played _ _ _ _ _ _ _ E)|]. exact (H a eq_refl).
Defined.


Lemma backchannel_guarded_witness :
  ∃ count, value_of backchannel = Some count ∧ ∃ first, revoked backchannel_request (events backchannel) first count.
Proof.
  ran backchannel. destruct (backchannel_guarded scenario_options backchannel_request (events backchannel) (Ok a)) as [_ H]; [exact (played _ _ _ _ _ _ _ E)|]. exact (H a eq_refl).
Defined.

Lemma navigation_authorized_witness :
  ∃ location, value_of navigation = Some location ∧ location ≠ ln_fallbackRedirectUri scenario_navigation
    ∧ continued scenario_url toy_hash scenario_navigation (js "/auth/logout/navigation?ticket=" ++ scenario_ticket) (events navigation) location.
Proof.
  ran navigation.
  destruct (navigation_authorized scenario_url toy_hash scenario_options scenario_navigation (js "/auth/logout/navigation?ticket=" ++ scenario_ticket)
    (events navigation) (Ok a)) as (l & Hl & H); [exact (played _ _ _ _ _ _ _ E)|]. injection Hl as <-.
  assert (a ≠ ln_fallbackRedirectUri scenario_navigation) as Hne by (vm_compute in E; injection E as <-; by vm_compute).
  split; [exact Hne|]. destruct H as [H|H]; [destruct (Hne H)|exact H].
Defined.

(** A ticket, and what its record leads to a second later. *)
Definition persist_task : rtask jsstr :=
  persistLogoutNavigation toy_hash scenario_navigation (js "https://issuer.example/logout?id_token_hint=idt") (num_of_Z 5000).
Definition persisted_ticket := scenario_play 5000 11 JUndef JUndef persist_task fresh_vault.

Lemma navigation_completes_witness :
  ∃ url ticketHash record, value_of persisted_ticket = Some url
    ∧ Ev (Store (OpCreateTicket record)) VaultSafety.Done ∈ events persisted_ticket
    ∧ consumedLogoutDestination scenario_url record (ln_namespace scenario_navigation) ticketHash (num_of_Z 6000)
      = Ok (js "https://issuer.example/logout?id_token_hint=idt").
Proof.
  assert (is_Some (value_of persisted_ticket)) as [url E] by (vm_compute; eauto).
  destruct (navigation_completes scenario_url toy_hash scenario_navigation (js "https://issuer.example/logout?id_token_hint=idt")
    url (num_of_Z 5000) (num_of_Z 6000) (events persisted_ticket) 60000 6000) as (h & record & _ & Hev & Hc).
  - apply (bool_decide_unpack _). by vm_compute.
  - reflexivity.
  - lia.
  - intros n bs Hin%played_answers. cbn in Hin. subst. split; [apply repeat_length|apply repeat_bytes].
  - reflexivity.
  - exact (played _ _ _ _ _ _ _ E).
  - exists url, h, record. split; [exact E|]. split; [exact Hev|]. by apply Hc.
Defined.

(** A logout whose provider is out of reach: the sessions are gone, and the answer says so. *)
Definition unreachable (c : call) : RouteTask.answer c :=
  match c with
  | Metadata => Err (PlainError (js "fetch failed"))
  | Store _ => GaveCount 1
  | RunHook _ _ => Err (PlainError (js "hook failed"))
  | c => scenario 100 11 JUndef JUndef c
  end.
Definition unreachable_logout : trace * result route_error LogoutResult :=
  play unreachable (committed_logout scenario_url scenario_query toy_hash scenario_options true None (Some example_snapshot)).


(** A refresh whose issuer fails after the store has rotated. *)
Definition broken_issuer (c : call) : RouteTask.answer c :=
  match c with
  | Store (OpRotateSession _ next) => GaveSession (Some next)
  | Store _ => GaveCount 1
  | IssueToken _ _ _ => Err (PlainError (js "issuer failed"))
  | c => scenario 100 11 JUndef JUndef c
  end.
Definition broken_options : RouteOptions :=
  mkRouteOptions (ro_vault scenario_options) (Some example_options) None example_cookie (λ _, true) true (λ _, true)
    (mkLifetimes None None None) true None None.
Definition broken_refresh : trace * result route_error ExchangeResult :=
  play broken_issuer (commit_refresh scenario_url scenario_header scenario_claims broken_options scenario_config
    example_snapshot example_snapshot None (Some (mkVerified example_recognition ES256))).

Definition store_answer (e : event) : option outcome :=
  match e with Ev c r => match c return RouteTask.answer c → option outcome with Store _ => λ o, Some o | _ => λ _, None end r end.


Lemma replay_key_injective_witness :
  buildBackchannelLogoutReplayKey (Some (js "a:b")) (Some (js "c")) (js "1")
    ≠ buildBackchannelLogoutReplayKey (Some (js "a")) (Some (js "b:c")) (js "1").
Proof.
  intros H. destruct (replay_key_injective (Some (js "a:b")) (Some (js "c")) (Some (js "a")) (Some (js "b:c")) (js "1") (js "1")) as [E _];
    [|exact H|discriminate E]. repeat (constructor; [by apply ascii_well_formed|]). constructor.
Defined.

(** ** Side by side *)

(** Two requests: the second overtakes the first after [calls] of its calls. *)
Definition race {A} (allowed : vault_op → bool) (h : ∀ c, RouteTask.answer c) (clock : Z) (calls : nat) (t : task A) (v : Vault) : world :=
  let w := mkWorld v [t; t] [] in
  let w := drive scenario_url allowed h (num_of_Z clock) 0 calls w in
  let w := drive scenario_url allowed h (num_of_Z clock) 1 100 w in
  drive scenario_url allowed h (num_of_Z clock) 0 100 w.

Lemma race_steps {A} (forbidden : vault_op → Prop) allowed h clock calls (t : task A) v :
  (∀ op, allowed op = true → ¬ forbidden op) → rtc (wstep scenario_url forbidden) (mkWorld v [t; t] []) (race allowed h clock calls t v).
Proof.
  intros Ha. unfold race. etrans; [|by apply drive_steps]. etrans; by apply drive_steps.
Qed.

#[local] Strategy 1000 [race].

Definition ended {A} (w : world) (i : nat) : option A := match w_tasks w !! i with Some (Ret a) => Some a | _ => None end.
Lemma ended_Some {A} (w : world (A := A)) i a : ended w i = Some a → w_tasks w !! i = Some (Ret a).
Proof. unfold ended. destruct (w_tasks w !! i) as [[b|c k]|]; [by intros [= ->]|done|done]. Qed.

Definition new_code (op : vault_op) : bool := match op with OpCreateCode _ => false | _ => true end.
Definition new_transaction (op : vault_op) : bool := match op with OpCreateTransaction _ => false | _ => true end.
Definition new_session_id (id : jsstr) (op : vault_op) : bool :=
  match op with OpCreateSession s | OpRotateSession _ s => negb (jsstr_eqb (s_sessionId s) id) | _ => true end.

Lemma new_code_allowed c op : new_code op = true → ¬ creates_code c op.
Proof. destruct op; cbn; auto. Qed.
Lemma new_transaction_allowed c op : new_transaction op = true → ¬ creates_transaction c op.
Proof. destruct op; cbn; auto. Qed.
Lemma new_session_allowed id op : new_session_id id op = true → ¬ stores_session id op.
Proof. destruct op; cbn; auto; by intros H%negb_true_iff%jsstr_eqb_false. Qed.

(** The overtaken exchange is refused. *)
Definition exchange_race := race new_code (scenario 3000 9 JUndef JUndef) 3000 5 exchange_task (vault_after callback).
Lemma exchange_once_witness :
  ∃ e r, ended exchange_race 0 = Some (Err e) ∧ ended exchange_race 1 = Some (Ok r) ∧ 1%nat = 1%nat.
Proof.
  assert (∃ e, ended exchange_race 0 = Some (Err e)) as [e E0] by (vm_compute; eauto).
  assert (∃ r, ended exchange_race 1 = Some (Ok r)) as [r E1] by (vm_compute; eauto).
  exists e, r. split; [exact E0|]. split; [exact E1|]. apply ended_Some in E1.
  refine (exchange_once scenario_url (random_of 8 "code") (vault_after callback) [exchange_task; exchange_task] exchange_race 1 1 r r
    callback_inv _ _ E1 E1).
  - assert (exchanges (random_of 8 "code") exchange_task) as Hx; [|by repeat constructor].
    exists scenario_url, scenario_origin, toy_hash, scenario_header, scenario_claims, scenario_options, scenario_config, [vault_origin],
      exchange_request. by split.
  - exact (race_steps (creates_code _) _ _ _ _ _ _ (new_code_allowed _)).
Defined.

Definition refresh_race :=
  race (new_session_id (random_of 8 "sess")) (scenario 4000 10 (scenario_tokens "rt2") (scenario_id_claims 7)) 4000 6 refresh_task
    (vault_after exchange).
Lemma refresh_once_witness :
  ∃ e r, ended refresh_race 0 = Some (Err e) ∧ ended refresh_race 1 = Some (Ok r) ∧ 1%nat = 1%nat.
Proof.
  assert (∃ e, ended refresh_race 0 = Some (Err e)) as [e E0] by (vm_compute; eauto).
  assert (∃ r, ended refresh_race 1 = Some (Ok r)) as [r E1] by (vm_compute; eauto).
  exists e, r. split; [exact E0|]. split; [exact E1|]. apply ended_Some in E1.
  refine (refresh_once scenario_url (random_of 8 "sess") (vault_after exchange) [refresh_task; refresh_task] refresh_race 1 1 r r
    exchange_inv _ _ E1 E1).
  - assert (refreshes (random_of 8 "sess") refresh_task) as Hx; [|by repeat constructor].
    exists scenario_url, scenario_origin, toy_hash, scenario_header, scenario_claims, scenario_options, scenario_config, [vault_origin],
      refresh_request. by split; [|vm_compute].
  - exact (race_steps (stores_session _) _ _ _ _ _ _ (new_session_allowed _)).
Defined.

Definition callback_race := race new_transaction (scenario 2000 8 (scenario_tokens "rt1") (scenario_id_claims 7)) 2000 2 callback_task
  (vault_after login).
Lemma callback_once_witness :
  ∃ e l, ended callback_race 0 = Some (Err e) ∧ ended callback_race 1 = Some (Ok l) ∧ 1%nat = 1%nat.
Proof.
  assert (∃ e, ended callback_race 0 = Some (Err e)) as [e E0] by (vm_compute; eauto).
  assert (∃ l, ended callback_race 1 = Some (Ok l)) as [l E1] by (vm_compute; eauto).
  exists e, l. split; [exact E0|]. split; [exact E1|]. apply ended_Some in E1.
  refine (callback_once scenario_url (random_of 7 "state") (vault_after login) [callback_task; callback_task] callback_race 1 1 l l
    login_inv _ _ E1 E1).
  - assert (calls_back (random_of 7 "state") callback_task) as Hx; [|by repeat constructor].
    exists scenario_query, toy_hash, scenario_options, scenario_config, vault_origin, (js "/auth"), callback_request. by split.
  - exact (race_steps (creates_transaction _) _ _ _ _ _ _ (new_transaction_allowed _)).
Defined.
