(* ===== verification/FrameValue.v ===== *)
(** json-frame: the values it reads and returns, its errors and their diagnostics.

    A number is told apart from its negation at zero, since column packing
    depends on it.  [JsonValue] is the tree a package-owned value is; the
    [unknown] values of callers are [value]s over a [heap] of arrays and
    objects, so that shared, cyclic and sparse containers can be written down.
    Accessor properties, proxies and non-standard prototypes are not modelled.
    A thrown message is named by a constructor of [Message]. *)

From S2P Require Import Prelude JsValue JsJson.

(** * Numbers *)

Inductive number :=
  | NegZero
  | Num (n : num).

Definition number_of_Z (z : Z) : number := Num (num_of_Z z).

Definition num_value (x : number) : num :=
  match x with NegZero => num_of_Z 0 | Num n => n end.

(** [Number.isInteger(x)], with the integer when it holds. *)
Definition number_integer (x : number) : option Z :=
  match num_value x with Fin q => Q_to_Z q | _ => None end.
Definition isInteger (x : number) : bool :=
  match number_integer x with Some _ => true | None => false end.

(** The key equality of [Map] and [Set]: the zeros are equal, and so are NaNs. *)
Definition same_value_zero (x y : number) : bool :=
  match num_value x, num_value y with
  | NaN, NaN => true
  | a, b => num_eqb a b
  end.

(** [String(x)] *)
Definition number_string (x : number) : jsstr := num_to_string (num_value x).

(** One rational for every number. *)
Definition reduced (x : number) : Prop :=
  match x with Num (Fin q) => Qred q = q | _ => True end.

(** * JSON trees *)

Inductive JsonValue :=
  | VNull
  | VBool (b : bool)
  | VNumber (x : number)
  | VString (s : jsstr)
  | VArray (l : list JsonValue)
  | VObject (fields : list (jsstr * JsonValue)).

Section json_induction.
Variable Pv : JsonValue → Prop.
Hypothesis Hnull : Pv VNull.
Hypothesis Hbool : ∀ b, Pv (VBool b).
Hypothesis Hnumber : ∀ x, Pv (VNumber x).
Hypothesis Hstring : ∀ s, Pv (VString s).
Hypothesis Harray : ∀ l, Forall Pv l → Pv (VArray l).
Hypothesis Hobject : ∀ fs, Forall (λ kv, Pv kv.2) fs → Pv (VObject fs).

Fixpoint json_induction (v : JsonValue) : Pv v :=
match v with
| VNull => Hnull
| VBool b => Hbool b
| VNumber x => Hnumber x
| VString s => Hstring s
| VArray l => Harray l ((fix go l : Forall Pv l :=
    match l with [] => Forall_nil_2 _ | v :: l => Forall_cons_2 _ _ _ (json_induction v) (go l) end) l)
| VObject fs => Hobject fs ((fix go fs : Forall (λ kv, Pv kv.2) fs :=
    match fs with [] => Forall_nil_2 _ | kv :: fs => Forall_cons_2 _ _ _ (json_induction kv.2) (go fs) end) fs)
end.
End json_induction.

(** [JSON.stringify] sees the zeros alike. *)
Fixpoint to_jsval (v : JsonValue) : jsval :=
  match v with
  | VNull => JNull
  | VBool b => JBool b
  | VNumber x => JNum (num_value x)
  | VString s => JStr s
  | VArray l => JArr (map to_jsval l)
  | VObject fs => JObj true (map (λ kv, (kv.1, to_jsval kv.2)) fs)
  end.

Definition stringify (v : JsonValue) : jsstr := default [] (json_stringify (to_jsval v)).

(** * The values of callers *)

Inductive value :=
  | UUndefined
  | UNull
  | UBool (b : bool)
  | UNumber (x : number)
  | UString (s : jsstr)
  | USymbol
  | UBigInt
  | UFunction
  | URef (l : nat).

(** An array may have holes; an object has its own enumerable properties in
    enumeration order, and is plain when its prototype is [Object.prototype] or
    [null]. *)
Inductive object :=
  | OArray (items : list (option value))
  | OObject (plain : bool) (fields : list (jsstr * value)).

Abbreviation heap := (gmap nat object).

Definition look (H : heap) (l : nat) : object := default (OObject false []) (H !! l).

(** [Object.keys] and a property read. *)
Definition field_keys {A} (fs : list (jsstr * A)) : list jsstr := map fst fs.
Definition field_value (fs : list (jsstr * value)) (k : jsstr) : value :=
  default UUndefined (field_lookup fs k).

(** * Orients and labels *)

Inductive ResolvedOrient := Records | Index | Columns | Values | Split | Table.
Inductive Orient := Auto | Resolved (o : ResolvedOrient).

Inductive IndexLabel :=
  | LString (s : jsstr)
  | LNumber (x : number).

#[global] Instance ResolvedOrient_eq : EqDecision ResolvedOrient.
Proof. solve_decision. Defined.

Definition label_value (l : IndexLabel) : JsonValue :=
  match l with LString s => VString s | LNumber x => VNumber x end.

(** [String(label)] *)
Definition label_string (l : IndexLabel) : jsstr :=
  match l with LString s => s | LNumber x => number_string x end.

Definition label_same (a b : IndexLabel) : bool :=
  match a, b with
  | LString s, LString t => jsstr_eqb s t
  | LNumber x, LNumber y => same_value_zero x y
  | _, _ => false
  end.

(** * Diagnostics *)

Definition JSON_FRAME_DIAGNOSTIC_KEY_LIMIT : nat := 5.
Definition JSON_FRAME_DIAGNOSTIC_KEY_TEXT_BUDGET : nat := 200.

Inductive Diagnostic :=
  | DNull
  | DBool (b : bool)
  | DNumber (x : number)
  | DString (s : jsstr)
  | DArray (length : nat)
  | DObject (keyCount : nat) (keys : list jsstr) (truncated : bool)
  | DUndefined | DSymbol | DBigInt | DFunction.

(** The loop over the first keys: what is kept and whether text was cut. *)
Fixpoint preview (remaining : nat) (head : list jsstr) : list jsstr * bool :=
  match head with
  | [] => ([], false)
  | key :: head =>
      if (length key <=? remaining)%nat then
        let '(rest, cut) := preview (remaining - length key) head in (key :: rest, cut)
      else ((if (0 <? remaining)%nat then [take remaining key] else []), true)
  end.

Definition summarize_keys (keys : list jsstr) : Diagnostic :=
  let '(kept, cut) := preview JSON_FRAME_DIAGNOSTIC_KEY_TEXT_BUDGET (take JSON_FRAME_DIAGNOSTIC_KEY_LIMIT keys) in
  DObject (length keys) kept ((JSON_FRAME_DIAGNOSTIC_KEY_LIMIT <? length keys)%nat || cut).

Definition summarizeDiagnosticValue (H : heap) (v : value) : Diagnostic :=
  match v with
  | UNull => DNull
  | UBool b => DBool b
  | UNumber x => DNumber x
  | UString s => DString s
  | UUndefined => DUndefined
  | USymbol => DSymbol
  | UBigInt => DBigInt
  | UFunction => DFunction
  | URef l =>
      match look H l with
      | OArray items => DArray (length items)
      | OObject _ fs => summarize_keys (field_keys fs)
      end
  end.

(** The same function on a tree of the package. *)
Definition summarize_json (v : JsonValue) : Diagnostic :=
  match v with
  | VNull => DNull
  | VBool b => DBool b
  | VNumber x => DNumber x
  | VString s => DString s
  | VArray l => DArray (length l)
  | VObject fs => summarize_keys (field_keys fs)
  end.

(** A property that may be absent. *)
Definition summarize_opt (v : option JsonValue) : Diagnostic :=
  match v with Some v => summarize_json v | None => DUndefined end.

(** * Errors *)

Inductive Message :=
  | ExceedsMaxNodes (maxNodes : Z) | NumbersMustBeFinite | OnlyJsonCompatible | ExceedsDepth
  | CyclicArray | CyclicObject | NotPlainObject | SparseArray
  | LabelsMustBeStringsOrNumbers | PrimaryKeyNotUnique | ColumnNotString | ColumnNotUnique
  | ParsedColumnMissing | AutoNeedsRows | AutoNeedsContainer | AutoUnresolved
  | RecordsNotArray | RecordsRow | IndexNotObject | IndexRow | ColumnsNotObject | ColumnsEntry
  | ColumnsKeysDiffer | ValuesNotArray | ValuesRow | ValuesWidth
  | SplitNotObject | SplitColumns | SplitData | SplitIndex | SplitIndexLength | SplitRow | SplitWidth
  | ConstraintsNotObject | EnumNotArray | EnumNotScalar | FieldNotObject | FieldNameNotString
  | FieldTypeNotString | FieldOrderedNotBoolean | FieldKeyNotString (key : jsstr)
  | SchemaNotObject | FieldsNotArray | FieldNameNotUnique | PrimaryKeyNotArray | PrimaryKeyEntry
  | MultiIndex | PandasVersion | TableNotObject | TableData | PrimaryKeyUndeclared | TableRow
  | TableUnknownField | TableMissingKey
  | IncompatibleCells | StoredColumnMissing | RebuiltColumnMissing | RebuiltMetadataMissing
  | StoredMetadataMissing
  | IndexFieldCollides | DuplicatePrimaryKey
  | FilterNotFunction | SortNotFunction | SelectUnknown | SelectTwice
  | RenameNotObject | RenameNotString | RenameTwice
  | OptionsNotObject | IndexFieldNotString | MaxNodesInvalid | OrientInvalid | PackThresholdInvalid
  | OptionColumnsNotArray | OptionColumnsHole | OptionColumnsNotString | OptionColumnsTwice
  | ColumnTypesNotObject | ColumnTypeInvalid | ColumnTypeUnknownColumn | ValuesNeedColumns.

Record Context := mkContext {
  cx_orient : option ResolvedOrient;
  cx_path : option jsstr;
  cx_row : option nat;
  cx_column : option jsstr;
  cx_value : option Diagnostic
}.

Inductive JsonFrameError :=
  | ParseError
  | OptionError (message : Message) (option : jsstr) (value : Diagnostic)
  | ValidationError (message : Message) (context : Context)
  | AmbiguousOrientError (candidates : list ResolvedOrient)
  | UnsupportedFeatureError (message : Message) (feature : jsstr) (context : Context)
  | ExportKeyCollisionError (orient : ResolvedOrient) (key : jsstr) (labels : list IndexLabel)
  | RowRangeError (length : nat)
  | OutOfTurns.      (** the model's loop stopped early: never, by [clone_reference] *)

Abbreviation frame_result := (result JsonFrameError).

(** The answer of a loop that ends. *)
Definition answer {A} (r : option (frame_result A)) : frame_result A := default (Err OutOfTurns) r.

(** * Paths *)

Definition is_identifier_start (c : Z) : bool := is_alpha c || (c =? 95) || (c =? 36).
(** [IDENTIFIER_PATTERN.test(key)] *)
Definition is_identifier (key : jsstr) : bool :=
  match key with
  | [] => false
  | c :: rest => is_identifier_start c && all_units (λ c, is_identifier_start c || is_digit c) rest
  end.

Definition index_segment (i : nat) : jsstr := 91 :: dec_of_Z (Z.of_nat i) ++ [93].
Definition property_segment (key : jsstr) : jsstr :=
  if is_identifier key then 46 :: key else 91 :: json_quote key ++ [93].

Definition appendPropertyPath (path key : jsstr) : jsstr := path ++ property_segment key.
Definition appendIndexPath (path : jsstr) (i : nat) : jsstr := path ++ index_segment i.
(** [`${path}[${JSON.stringify(key)}]`] *)
Definition appendPath (path key : jsstr) : jsstr := path ++ 91 :: json_quote key ++ [93].
