(* ===== verification/FrameTraverse.v ===== *)
(** json-frame, json.ts: the bounded iterative traversal that copies the input and
    checks the output.

    The machine is the code's: an explicit stack of frames, the set of the
    containers on the current path, the node budget and the store of the
    containers under construction, which a parent refers to before they are
    filled.  [copy] is the recursive reference.  One turn of the loop is
    [clone_step]; [run] turns until the stack is empty, at most [turns H] times,
    which no input exceeds. *)

From S2P Require Import Prelude JsValue JsJson FrameValue.

Definition JSON_FRAME_MAX_DEPTH : nat := 1000.

(** * Paths *)

Inductive PathNode :=
  | PRoot (path : jsstr)
  | PProperty (parent : PathNode) (key : jsstr)
  | PIndex (parent : PathNode) (index : nat).

Fixpoint pathToString (p : PathNode) : jsstr :=
  match p with
  | PRoot path => path
  | PProperty parent key => pathToString parent ++ property_segment key
  | PIndex parent i => pathToString parent ++ index_segment i
  end.

(** * The traversal *)

(** A value of the copy: a scalar, or a container under construction. *)
Inductive target :=
  | TScalar (v : JsonValue)
  | TRef (t : nat).

Inductive container :=
  | CArray (items : list target)
  | CObject (fields : list (jsstr * target)).

Inductive Frame :=
  | ArrayFrame (source target : nat) (path : PathNode) (depth index : nat)
  | ObjectFrame (source target : nat) (keys : list jsstr) (path : PathNode) (depth index : nat).

Record Traversal := mkTraversal {
  tr_remaining : option Z;
  tr_ancestors : gset nat;
  tr_stack : list Frame;
  tr_targets : list container
}.

Inductive ValidateFrame :=
  | ArrayCheck (source : nat) (path : PathNode) (depth index : nat)
  | ObjectCheck (source : nat) (keys : list jsstr) (path : PathNode) (depth index : nat).

Record Validation := mkValidation {
  va_remaining : option Z;
  va_ancestors : gset nat;
  va_stack : list ValidateFrame
}.

Section traversal.
Variables (H : heap) (orient : option ResolvedOrient) (maxNodes : option Z).

Definition validation_error (message : Message) (path : PathNode) (v : value) : JsonFrameError :=
  ValidationError message
    (mkContext orient (Some (pathToString path)) None None (Some (summarizeDiagnosticValue H v))).

(** [createNodeBudget]: what is budget after charging one node. *)
Definition charge (v : value) (path : PathNode) (remaining : option Z) : frame_result (option Z) :=
  match remaining with
  | None => Ok None
  | Some n =>
      if n =? 0 then Err (validation_error (ExceedsMaxNodes (default 0 maxNodes)) path v)
      else Ok (Some (n - 1))
  end.

(** [Ok None] is the result [undefined]: the value is a container. *)
Definition cloneScalar (v : value) (path : PathNode) : frame_result (option JsonValue) :=
  match v with
  | UNull => Ok (Some VNull)
  | UString s => Ok (Some (VString s))
  | UBool b => Ok (Some (VBool b))
  | UNumber x =>
      if is_finite (num_value x) then Ok (Some (VNumber x))
      else Err (validation_error NumbersMustBeFinite path v)
  | UUndefined | UFunction | USymbol | UBigInt => Err (validation_error OnlyJsonCompatible path v)
  | URef _ => Ok None
  end.

(** The guards of a container, before it joins the path. *)
Definition enter (v : value) (path : PathNode) (depth : nat) (ancestors : gset nat) :
    frame_result (nat * object) :=
  guard (depth <=? JSON_FRAME_MAX_DEPTH)%nat (validation_error ExceedsDepth path v) ;;;
  match v with
  | URef l =>
      match look H l with
      | OArray items =>
          guard (bool_decide (l ∉ ancestors)) (validation_error CyclicArray path v) ;;;
          Ok (l, OArray items)
      | OObject true fs =>
          guard (bool_decide (l ∉ ancestors)) (validation_error CyclicObject path v) ;;;
          Ok (l, OObject true fs)
      | OObject false _ => Err (validation_error NotPlainObject path v)
      end
  | _ => Err (validation_error NotPlainObject path v)
  end.

Definition createFrame (source : value) (path : PathNode) (depth : nat) (st : Traversal) :
    frame_result (target * option Frame * Traversal) :=
  let* remaining := charge source path (tr_remaining st) in
  let* scalar := cloneScalar source path in
  match scalar with
  | Some v => Ok (TScalar v, None, mkTraversal remaining (tr_ancestors st) (tr_stack st) (tr_targets st))
  | None =>
      let* (l, o) := enter source path depth (tr_ancestors st) in
      let t := length (tr_targets st) in
      let joined c := mkTraversal remaining ({[l]} ∪ tr_ancestors st) (tr_stack st) (tr_targets st ++ [c]) in
      match o with
      | OArray _ => Ok (TRef t, Some (ArrayFrame l t path depth 0), joined (CArray []))
      | OObject _ fs =>
          Ok (TRef t, Some (ObjectFrame l t (field_keys fs) path depth 0), joined (CObject []))
      end
  end.

(** [frame.target.push(v)] and [frame.target[key] = v]. *)
Definition push_item (v : target) (c : container) : container :=
  match c with CArray items => CArray (items ++ [v]) | _ => c end.
Definition put_field (key : jsstr) (v : target) (c : container) : container :=
  match c with CObject fs => CObject (set_field fs key v) | _ => c end.

Definition push_frame (f : option Frame) (stack : list Frame) : list Frame :=
  match f with Some f => f :: stack | None => stack end.

(** The items and the fields of a frame's source. *)
Definition source_items (l : nat) : list (option value) :=
  match look H l with OArray items => items | _ => [] end.
Definition source_fields (l : nat) : list (jsstr * value) :=
  match look H l with OObject _ fs => fs | _ => [] end.

(** One turn of the loop of [cloneJsonCompatible]. *)
Definition clone_step (st : Traversal) : frame_result Traversal :=
  match tr_stack st with
  | [] => Ok st
  | ArrayFrame l t path depth i :: stack =>
      if (length (source_items l) <=? i)%nat
      then Ok (mkTraversal (tr_remaining st) (tr_ancestors st ∖ {[l]}) stack (tr_targets st))
      else
        let childPath := PIndex path i in
        match source_items l !! i with
        | Some (Some v) =>
            let* (child, f, st) := createFrame v childPath (S depth) st in
            Ok (mkTraversal (tr_remaining st) (tr_ancestors st)
                  (push_frame f (ArrayFrame l t path depth (S i) :: stack))
                  (alter (push_item child) t (tr_targets st)))
        | _ => Err (validation_error SparseArray childPath (URef l))
        end
  | ObjectFrame l t keys path depth i :: stack =>
      match keys !! i with
      | None => Ok (mkTraversal (tr_remaining st) (tr_ancestors st ∖ {[l]}) stack (tr_targets st))
      | Some key =>
          let* (child, f, st) :=
            createFrame (field_value (source_fields l) key) (PProperty path key) (S depth) st in
          Ok (mkTraversal (tr_remaining st) (tr_ancestors st)
                (push_frame f (ObjectFrame l t keys path depth (S i) :: stack))
                (alter (put_field key child) t (tr_targets st)))
      end
  end.

(** At most [n] turns; no more than the stack asks for. *)
Fixpoint run (n : positive) (st : Traversal) : frame_result Traversal :=
  match tr_stack st with
  | [] => Ok st
  | _ =>
      match n with
      | xH => clone_step st
      | xO n => let* st := run n st in run n st
      | xI n => let* st := clone_step st in let* st := run n st in run n st
      end
  end.

(** The most entries of a container, and the turns a value that many levels
    below the bound can take. *)
Definition entries (o : object) : nat :=
  match o with OArray items => length items | OObject _ fs => length fs end.
Definition width : N := map_fold (λ _ o n, N.max (N.of_nat (entries o)) n) 0%N H.
Fixpoint turns (levels : nat) : N :=
  match levels with
  | O => 0
  | S levels => 1 + width * (1 + turns levels)
  end.

(** What a reader of the copy sees. *)
Fixpoint read_target (fuel : nat) (targets : list container) (v : target) : option JsonValue :=
  match v with
  | TScalar v => Some v
  | TRef t =>
      match fuel, targets !! t with
      | S fuel, Some (CArray items) => VArray <$> mapM (read_target fuel targets) items
      | S fuel, Some (CObject fs) =>
          VObject <$> mapM (λ kv, (kv.1,.) <$> read_target fuel targets kv.2) fs
      | _, _ => None
      end
  end.

(** [None]: the turns ran out. *)
Definition cloneJsonCompatible (v : value) (path : jsstr) : option (frame_result JsonValue) :=
  match createFrame v (PRoot path) 0 (mkTraversal maxNodes ∅ [] []) with
  | Err e => Some (Err e)
  | Ok (root, f, st) =>
      match run (N.succ_pos (turns (S JSON_FRAME_MAX_DEPTH)))
              (mkTraversal (tr_remaining st) (tr_ancestors st) (push_frame f []) (tr_targets st)) with
      | Err e => Some (Err e)
      | Ok st =>
          match tr_stack st with
          | [] => Ok <$> read_target (S (length (tr_targets st))) (tr_targets st) root
          | _ => None
          end
      end
  end.

(** * The check without a copy *)

Definition createValidateFrame (source : value) (path : PathNode) (depth : nat) (st : Validation) :
    frame_result (option ValidateFrame * Validation) :=
  let* remaining := charge source path (va_remaining st) in
  let* scalar := cloneScalar source path in
  match scalar with
  | Some _ => Ok (None, mkValidation remaining (va_ancestors st) (va_stack st))
  | None =>
      let* (l, o) := enter source path depth (va_ancestors st) in
      let joined := mkValidation remaining ({[l]} ∪ va_ancestors st) (va_stack st) in
      match o with
      | OArray _ => Ok (Some (ArrayCheck l path depth 0), joined)
      | OObject _ fs => Ok (Some (ObjectCheck l (field_keys fs) path depth 0), joined)
      end
  end.

Definition push_check (f : option ValidateFrame) (stack : list ValidateFrame) : list ValidateFrame :=
  match f with Some f => f :: stack | None => stack end.

(** One turn of the loop of [assertJsonCompatible]. *)
Definition assert_step (st : Validation) : frame_result Validation :=
  match va_stack st with
  | [] => Ok st
  | ArrayCheck l path depth i :: stack =>
      if (length (source_items l) <=? i)%nat
      then Ok (mkValidation (va_remaining st) (va_ancestors st ∖ {[l]}) stack)
      else
        let childPath := PIndex path i in
        match source_items l !! i with
        | Some (Some v) =>
            let* (f, st) := createValidateFrame v childPath (S depth) st in
            Ok (mkValidation (va_remaining st) (va_ancestors st)
                  (push_check f (ArrayCheck l path depth (S i) :: stack)))
        | _ => Err (validation_error SparseArray childPath (URef l))
        end
  | ObjectCheck l keys path depth i :: stack =>
      match keys !! i with
      | None => Ok (mkValidation (va_remaining st) (va_ancestors st ∖ {[l]}) stack)
      | Some key =>
          let* (f, st) :=
            createValidateFrame (field_value (source_fields l) key) (PProperty path key) (S depth) st in
          Ok (mkValidation (va_remaining st) (va_ancestors st)
                (push_check f (ObjectCheck l keys path depth (S i) :: stack)))
      end
  end.

Fixpoint run_check (n : positive) (st : Validation) : frame_result Validation :=
  match va_stack st with
  | [] => Ok st
  | _ =>
      match n with
      | xH => assert_step st
      | xO n => let* st := run_check n st in run_check n st
      | xI n => let* st := assert_step st in let* st := run_check n st in run_check n st
      end
  end.

Definition assertJsonCompatible (v : value) (path : jsstr) : option (frame_result unit) :=
  match createValidateFrame v (PRoot path) 0 (mkValidation maxNodes ∅ []) with
  | Err e => Some (Err e)
  | Ok (f, st) =>
      match run_check (N.succ_pos (turns (S JSON_FRAME_MAX_DEPTH)))
              (mkValidation (va_remaining st) (va_ancestors st) (push_check f [])) with
      | Err e => Some (Err e)
      | Ok st => match va_stack st with [] => Some (Ok tt) | _ => None end
      end
  end.

(** * The reference: recursion on the value, [levels] containers deep *)

Section children.
Variable rec : PathNode → value → option Z → frame_result (JsonValue * option Z).

Fixpoint copy_items (l : nat) (path : PathNode) (i : nat) (items : list (option value)) (budget : option Z) :
    frame_result (list JsonValue * option Z) :=
  match items with
  | [] => Ok ([], budget)
  | None :: _ => Err (validation_error SparseArray (PIndex path i) (URef l))
  | Some v :: items =>
      let* (j, budget) := rec (PIndex path i) v budget in
      let* (js, budget) := copy_items l path (S i) items budget in
      Ok (j :: js, budget)
  end.

Fixpoint copy_fields (path : PathNode) (fs : list (jsstr * value)) (keys : list jsstr)
    (acc : list (jsstr * JsonValue)) (budget : option Z) : frame_result (list (jsstr * JsonValue) * option Z) :=
  match keys with
  | [] => Ok (acc, budget)
  | key :: keys =>
      let* (j, budget) := rec (PProperty path key) (field_value fs key) budget in
      copy_fields path fs keys (set_field acc key j) budget
  end.
End children.

Fixpoint copy (levels : nat) (ancestors : gset nat) (path : PathNode) (v : value) (budget : option Z) :
    frame_result (JsonValue * option Z) :=
  let* budget := charge v path budget in
  let* scalar := cloneScalar v path in
  match scalar with
  | Some j => Ok (j, budget)
  | None =>
      match levels with
      | O => Err (validation_error ExceedsDepth path v)
      | S levels =>
          let* (l, o) := enter v path 0 ancestors in
          let inside := copy levels ({[l]} ∪ ancestors) in
          match o with
          | OArray items =>
              let* (js, budget) := copy_items inside l path 0 items budget in
              Ok (VArray js, budget)
          | OObject _ fs =>
              let* (fs, budget) := copy_fields inside path fs (field_keys fs) [] budget in
              Ok (VObject fs, budget)
          end
      end
  end.
End traversal.

(** * Machine and reference *)

#[local] Arguments clone_step : simpl never.
#[local] Arguments assert_step : simpl never.

Section machine.
Context {H : heap} {orient : option ResolvedOrient} {maxNodes : option Z}.
Notation clone_step := (clone_step H orient maxNodes).
Notation createFrame := (createFrame H orient maxNodes).
Notation copy := (copy H orient maxNodes).

Fixpoint steps (k : nat) (st : Traversal) : frame_result Traversal :=
  match k with
  | O => Ok st
  | S k => let* st := clone_step st in steps k st
  end.

Lemma steps_add a b st : steps (a + b) st = let* st := steps a st in steps b st.
Proof. revert st. induction a as [|a IH]; intros st; cbn; [done|]. destruct (clone_step st); cbn; [apply IH|done]. Qed.

Lemma steps_done k st : tr_stack st = [] → steps k st = Ok st.
Proof.
  intros Hst. induction k as [|k IH]; cbn; [done|]. unfold FrameTraverse.clone_step. by rewrite Hst.
Qed.

Lemma run_steps n st : run H orient maxNodes n st = steps (Pos.to_nat n) st.
Proof.
  revert st. induction n as [n IH|n IH|]; intros st; cbn [run].
  - rewrite Pos2Nat.inj_xI. replace (S (2 * Pos.to_nat n)) with (1 + (Pos.to_nat n + Pos.to_nat n))%nat by lia.
    destruct (tr_stack st) eqn:E; [by rewrite steps_done|].
    rewrite steps_add. cbn [steps]. destruct (clone_step st) as [st'|]; cbn; [|done].
    rewrite steps_add, IH. destruct (steps _ st'); [apply IH|done].
  - rewrite Pos2Nat.inj_xO. replace (2 * Pos.to_nat n)%nat with (Pos.to_nat n + Pos.to_nat n)%nat by lia.
    destruct (tr_stack st) eqn:E; [by rewrite steps_done|].
    rewrite steps_add, IH. destruct (steps _ st); [apply IH|done].
  - change (Pos.to_nat 1) with 1%nat. cbn [steps].
    destruct (tr_stack st) eqn:E; [unfold FrameTraverse.clone_step; by rewrite E|].
    by destruct (clone_step st).
Qed.

(** A run that ended is not changed by more turns. *)
Definition ended (r : frame_result Traversal) : Prop :=
  match r with Ok st => tr_stack st = [] | Err _ => True end.

Lemma run_enough k n st :
  ended (steps k st) → (N.of_nat k <= n)%N → run H orient maxNodes (N.succ_pos n) st = steps k st.
Proof.
  intros Hend Hk. rewrite run_steps.
  replace (Pos.to_nat (N.succ_pos n)) with (k + (Pos.to_nat (N.succ_pos n) - k))%nat by lia.
  rewrite steps_add. destruct (steps k st) as [st'|]; [by apply steps_done|done].
Qed.

(** ** What the store of containers shows *)

Inductive shows (T : list container) : nat → target → JsonValue → Prop :=
  | shows_scalar base v : shows T base (TScalar v) v
  | shows_array base t items js :
      (base <= t)%nat → T !! t = Some (CArray items) → Forall2 (shows T (S t)) items js →
      shows T base (TRef t) (VArray js)
  | shows_object base t fs js :
      (base <= t)%nat → T !! t = Some (CObject fs) →
      Forall2 (λ a b, a.1 = b.1 ∧ shows T (S t) a.2 b.2) fs js →
      shows T base (TRef t) (VObject js).

Lemma Forall2_impl_in {A B} (P Q : A → B → Prop) l k :
  Forall2 P l k → Forall (λ b, ∀ a, P a b → Q a b) k → Forall2 Q l k.
Proof. induction 1; inversion 1; constructor; auto. Qed.

Lemma shows_mono T T' base base' v j :
  shows T base v j → (base' <= base)%nat →
  (∀ t, base <= t < length T → T' !! t = T !! t)%nat → shows T' base' v j.
Proof.
  intros Hj. revert base base' v Hj. induction j as [| | | |l IH|fs IH] using json_induction;
    intros base base' v Hj Hb Hag; inversion Hj; subst; try constructor.
  - econstructor; [lia|rewrite Hag; [done|split; [lia|by eapply lookup_lt_Some]]|].
    eapply Forall2_impl_in; [done|]. eapply Forall_impl; [exact IH|]. cbn. intros j IHj a Ha.
    eapply IHj; [exact Ha|lia|]. intros x Hx. apply Hag. lia.
  - econstructor; [lia|rewrite Hag; [done|split; [lia|by eapply lookup_lt_Some]]|].
    eapply Forall2_impl_in; [done|]. eapply Forall_impl; [exact IH|]. cbn. intros j IHj a [Hk Ha].
    split; [done|]. eapply IHj; [exact Ha|lia|]. intros x Hx. apply Hag. lia.
Qed.

Lemma read_shows T base v j fuel :
  shows T base v j → (length T - base < fuel)%nat → read_target fuel T v = Some j.
Proof.
  intros Hj. revert base v fuel Hj. induction j as [| | | |l IH|fs IH] using json_induction;
    intros base v fuel Hj Hf; inversion Hj; subst; try (by destruct fuel).
  - destruct fuel as [|fuel]; [lia|]. cbn. rewrite H2.
    assert (t < length T)%nat by (by eapply lookup_lt_Some).
    apply fmap_Some. eexists. split; [|done]. apply mapM_Some.
    eapply Forall2_impl_in; [done|]. eapply Forall_impl; [exact IH|]. cbn. intros j IHj a Ha.
    eapply IHj; [exact Ha|lia].
  - destruct fuel as [|fuel]; [lia|]. cbn. rewrite H2.
    assert (t < length T)%nat by (by eapply lookup_lt_Some).
    apply fmap_Some. eexists. split; [|done]. apply mapM_Some.
    eapply Forall2_impl_in; [done|]. eapply Forall_impl; [exact IH|]. cbn. intros [k j] IHj [k' a] [Hk Ha].
    cbn in *. subst. apply fmap_Some. eexists. split; [|done]. eapply IHj; [exact Ha|lia].
Qed.

(** ** One value: its frame, and what the machine makes of it *)

Definition frame_of (l t : nat) (o : object) (p : PathNode) (d : nat) : Frame :=
  match o with
  | OArray _ => ArrayFrame l t p d 0
  | OObject _ fs => ObjectFrame l t (field_keys fs) p d 0
  end.
Definition empty_of (o : object) : container :=
  match o with OArray _ => CArray [] | OObject _ _ => CObject [] end.

(** [createFrame] and [copy] share their first part. *)
Lemma createFrame_opens v p d b A S T :
  createFrame v p d (mkTraversal b A S T) =
    let* b := charge H orient maxNodes v p b in
    let* scalar := cloneScalar H orient v p in
    match scalar with
    | Some j => Ok (TScalar j, None, mkTraversal b A S T)
    | None =>
        let* (l, o) := enter H orient v p d A in
        Ok (TRef (length T), Some (frame_of l (length T) o p d),
            mkTraversal b ({[l]} ∪ A) S (T ++ [empty_of o]))
    end.
Proof.
  unfold FrameTraverse.createFrame. cbn. destruct (charge _ _ _ _ _) as [b'|]; [|done]. cbn.
  destruct (cloneScalar _ _ _ _) as [[j|]|]; [done| |done]. cbn.
  destruct (enter _ _ _ _ _) as [[l [items|pl fs]]|]; done.
Qed.

Lemma enter_depth v p d A :
  (d <= JSON_FRAME_MAX_DEPTH)%nat → enter H orient v p d A = enter H orient v p 0 A.
Proof.
  intros Hd. unfold enter. rewrite (proj2 (Nat.leb_le d _)) by done. reflexivity.
Qed.

Lemma enter_inv v p d A l o :
  enter H orient v p d A = Ok (l, o) → v = URef l ∧ look H l = o ∧ l ∉ A.
Proof.
  unfold enter. destruct (guard _ _); [|done]. cbn. destruct v as [| | | | | | | |l']; try done.
  destruct (look H l') as [items|[] fs] eqn:E; [| |done]; cbn;
    destruct (bool_decide_reflect (l' ∉ A)); cbn; [|done|..|done]; intros [= <- <-]; done.
Qed.

(** The targets below [length T] other than [t] are kept. *)
Definition kept (t : nat) (T T' : list container) : Prop :=
  (length T <= length T')%nat ∧ ∀ x, (x < length T)%nat → x ≠ t → T' !! x = T !! x.

(** The machine's run of a frame just opened. *)
Definition frame_runs (n : nat) (F : Frame) (A' A : gset nat) (b : option Z) (t : nat) (c : container)
    (r : frame_result (JsonValue * option Z)) : Prop :=
  ∀ S T, length T = Datatypes.S t → T !! t = Some c →
    match r with
    | Err e => ∃ k, (N.of_nat k <= turns H n)%N ∧ steps k (mkTraversal b A' (F :: S) T) = Err e
    | Ok (j, b') => ∃ k T', (N.of_nat k <= turns H n)%N ∧
        steps k (mkTraversal b A' (F :: S) T) = Ok (mkTraversal b' A S T') ∧
        kept t T T' ∧ shows T' t (TRef t) j
    end.

Definition value_runs (n : nat) : Prop :=
  ∀ v p d b A S T, (n + d = Datatypes.S JSON_FRAME_MAX_DEPTH)%nat →
    match createFrame v p d (mkTraversal b A S T) with
    | Err e => copy n A p v b = Err e
    | Ok (child, None, st) => ∃ j b', copy n A p v b = Ok (j, b') ∧
        child = TScalar j ∧ st = mkTraversal b' A S T
    | Ok (child, Some F, st) => ∃ b' A' c, child = TRef (length T) ∧
        st = mkTraversal b' A' S (T ++ [c]) ∧
        frame_runs n F A' A b' (length T) c (copy n A p v b)
    end.

(** One entry of a container: its creation, then the run of its own frame. *)
Lemma entry_runs n fr put v p d b A S T t i c :
  value_runs n → (n + d = Datatypes.S JSON_FRAME_MAX_DEPTH)%nat → T !! t = Some c →
  clone_step (mkTraversal b A (fr i :: S) T) =
    (let* (child, f, st) := createFrame v p d (mkTraversal b A (fr i :: S) T) in
     Ok (mkTraversal (tr_remaining st) (tr_ancestors st) (push_frame f (fr (Datatypes.S i) :: S))
           (alter (put child) t (tr_targets st)))) →
  match copy n A p v b with
  | Err e => ∃ k, (N.of_nat k <= 1 + turns H n)%N ∧ steps k (mkTraversal b A (fr i :: S) T) = Err e
  | Ok (j, b') => ∃ k T' child, (N.of_nat k <= 1 + turns H n)%N ∧
      steps k (mkTraversal b A (fr i :: S) T) = Ok (mkTraversal b' A (fr (Datatypes.S i) :: S) T') ∧
      T' !! t = Some (put child c) ∧ kept t T T' ∧ shows T' (length T) child j
  end.
Proof.
  intros Hrun Hn Ht Hstep. specialize (Hrun v p d b A (fr i :: S) T Hn).
  assert (t < length T)%nat as Hlt by (by eapply lookup_lt_Some).
  destruct (createFrame v p d _) as [[[child [F|]] st]|e]; cbn in Hstep.
  - destruct Hrun as (b1 & A' & c' & -> & -> & Hrun). cbn in Hstep.
    set (T1 := alter (put (TRef (length T))) t (T ++ [c'])) in *.
    assert (length T1 = Datatypes.S (length T)) as Hl1.
    { unfold T1. rewrite length_alter, length_app. cbn. lia. }
    assert (T1 !! length T = Some c') as Hc'.
    { unfold T1. rewrite list_lookup_alter_ne by lia. rewrite lookup_app_r by lia.
      by rewrite Nat.sub_diag. }
    specialize (Hrun (fr (Datatypes.S i) :: S) T1 Hl1 Hc').
    destruct (copy n A p v b) as [[j b']|e].
    + destruct Hrun as (k & T' & Hk & Hs & [Hlen Hkept] & Hshow).
      exists (Datatypes.S k), T', (TRef (length T)). split; [lia|]. cbn [steps]. rewrite Hstep. cbn. split; [exact Hs|].
      split; [|split; [split; [lia|]|done]].
      * rewrite Hkept by lia. unfold T1. rewrite list_lookup_alter_eq. by rewrite lookup_app_l, Ht by lia.
      * intros x Hx Hne. rewrite Hkept by lia. unfold T1.
        rewrite list_lookup_alter_ne by done. by rewrite lookup_app_l by lia.
    + destruct Hrun as (k & Hk & Hs). exists (Datatypes.S k). split; [lia|]. cbn [steps]. by rewrite Hstep.
  - destruct Hrun as (j & b' & -> & -> & ->). cbn in Hstep.
    exists 1%nat, (alter (put (TScalar j)) t T), (TScalar j). split; [lia|]. cbn [steps]. rewrite Hstep. cbn.
    split; [done|]. split; [by rewrite list_lookup_alter_eq, Ht|].
    split; [|constructor]. split; [by rewrite length_alter|].
    intros x _ Hne. by apply list_lookup_alter_ne.
  - rewrite Hrun. exists 1%nat. split; [lia|]. cbn [steps]. by rewrite Hstep.
Qed.

Lemma kept_trans t T1 T2 T3 : (t < length T1)%nat → kept t T1 T2 → kept t T2 T3 → kept t T1 T3.
Proof. intros Ht [L1 K1] [L2 K2]. split; [lia|]. intros x Hx Hne. rewrite K2 by lia. by apply K1. Qed.

Lemma shows_kept t T T' v j :
  shows T (Datatypes.S t) v j → kept t T T' → shows T' (Datatypes.S t) v j.
Proof. intros Hv [Hl Hk]. eapply shows_mono; [exact Hv|lia|]. intros x Hx. apply Hk; lia. Qed.

Lemma width_bound l o : look H l = o → (N.of_nat (entries o) <= width H)%N.
Proof.
  unfold look, width. revert l o. induction H as [|i x m Hi IH] using map_ind; intros l o.
  { rewrite lookup_empty. intros <-. cbn. lia. }
  rewrite map_fold_insert_L; [|intros; lia|done]. intros <-.
  destruct (decide (l = i)) as [->|Hne].
  - rewrite lookup_insert_eq. cbn. lia.
  - rewrite lookup_insert_ne by done. specialize (IH l _ eq_refl). lia.
Qed.

Definition field_shows (T : list container) (base : nat) (a : jsstr * target) (b : jsstr * JsonValue) : Prop :=
  a.1 = b.1 ∧ shows T base a.2 b.2.

Lemma set_field_shows T base fs js k v j :
  Forall2 (field_shows T base) fs js → shows T base v j →
  Forall2 (field_shows T base) (set_field fs k v) (set_field js k j).
Proof.
  intros Hf Hv.
  assert (is_Some (field_lookup fs k) ↔ is_Some (field_lookup js k)) as Hiff.
  { induction Hf as [|[k1 v1] [k2 j2] fs js [E _] _ IH]; cbn in *; [done|]. subst.
    by destruct (jsstr_eqb k k2). }
  assert (Forall2 (field_shows T base) (insert_field fs k v) (insert_field js k j)) as Hins.
  { clear Hiff. induction Hf as [|[k1 v1] [k2 j2] fs js [E H2] Hf IH]; cbn in *; [repeat constructor; done|].
    subst. destruct (array_index k) as [x|], (array_index k2) as [y|]; try (destruct (x <? y));
      repeat (constructor; [done|]); assumption. }
  assert (Forall2 (field_shows T base) (map (λ kv, if jsstr_eqb kv.1 k then (kv.1, v) else kv) fs)
            (map (λ kv, if jsstr_eqb kv.1 k then (kv.1, j) else kv) js)) as Hmap.
  { clear Hiff Hins. induction Hf as [|[k1 v1] [k2 j2] fs js [E H2] Hf IH]; cbn in *; [constructor|]. subst.
    constructor; [|done]. by destruct (jsstr_eqb k2 k). }
  unfold set_field. destruct (field_lookup fs k), (field_lookup js k); try done.
  - destruct (proj1 Hiff); [by eexists|done].
  - destruct (proj2 Hiff); [by eexists|done].
Qed.

(** The loop over the items of an array. *)
Lemma items_run n l t p d A S items :
  value_runs n → (n + Datatypes.S d = Datatypes.S JSON_FRAME_MAX_DEPTH)%nat →
  ∀ i b T fin finj,
  items = drop i (source_items H l) → T !! t = Some (CArray fin) →
  Forall2 (shows T (Datatypes.S t)) fin finj →
  let start := mkTraversal b A (ArrayFrame l t p d i :: S) T in
  let bound := (N.of_nat (length items) * (1 + turns H n))%N in
  match copy_items H orient (copy n A) l p i items b with
  | Err e => ∃ k, (N.of_nat k <= bound)%N ∧ steps k start = Err e
  | Ok (js, b') => ∃ k T' fin', (N.of_nat k <= bound)%N ∧
      steps k start = Ok (mkTraversal b' A (ArrayFrame l t p d (i + length items) :: S) T') ∧
      T' !! t = Some (CArray fin') ∧ kept t T T' ∧ Forall2 (shows T' (Datatypes.S t)) fin' (finj ++ js)
  end.
Proof.
  intros Hrun Hn. induction items as [|item items IH]; intros i b T fin finj Hitems Ht Hfin; cbn zeta.
  { cbn. exists 0%nat, T, fin. rewrite Nat.add_0_r, app_nil_r. split; [lia|]. by split_and!. }
  assert (source_items H l !! i = Some item) as Hi.
  { rewrite <- (Nat.add_0_r i), <- lookup_drop, <- Hitems. done. }
  assert (items = drop (Datatypes.S i) (source_items H l)) as Hrest.
  { by rewrite <- Nat.add_1_r, <- drop_drop, <- Hitems. }
  assert ((length (source_items H l) <=? i)%nat = false) as Hlt.
  { apply Nat.leb_gt. by eapply lookup_lt_Some. }
  destruct item as [v|]; cbn [copy_items length].
  2: { exists 1%nat. split; [lia|]. cbn [steps]. unfold FrameTraverse.clone_step. cbn [tr_stack].
       by rewrite Hlt, Hi. }
  pose proof (entry_runs n (ArrayFrame l t p d) push_item v (PIndex p i) (Datatypes.S d) b A S T t i (CArray fin)
    Hrun Hn Ht) as Hentry.
  specialize (Hentry ltac:(unfold FrameTraverse.clone_step; cbn [tr_stack]; by rewrite Hlt, Hi)).
  destruct (copy n A (PIndex p i) v b) as [[j b1]|e].
  2: { destruct Hentry as (k & Hk & Hs). exists k. cbn [res_bind]. split; [lia|done]. }
  cbn [res_bind]. destruct Hentry as (k & T1 & child & Hk & Hs & Ht1 & Hkept & Hshow). cbn in Ht1.
  assert (t < length T)%nat as Hlt' by (by eapply lookup_lt_Some).
  assert (Forall2 (shows T1 (Datatypes.S t)) (fin ++ [child]) (finj ++ [j])) as Hfin1.
  { apply Forall2_app; [eapply Forall2_impl; [exact Hfin|]; intros x y Hx; by eapply shows_kept|].
    constructor; [|constructor]. eapply shows_mono; [exact Hshow|lia|done]. }
  specialize (IH (Datatypes.S i) b1 T1 _ _ Hrest Ht1 Hfin1). cbn zeta in IH.
  destruct (copy_items H orient (copy n A) l p (Datatypes.S i) items b1) as [[js b2]|e].
  - destruct IH as (k2 & T2 & fin2 & Hk2 & Hs2 & Ht2 & Hkept2 & Hfin2). cbn [res_bind].
    exists (k + k2)%nat, T2, fin2. split; [lia|]. rewrite steps_add, Hs. cbn [res_bind].
    rewrite <- app_assoc in Hfin2. replace (i + Datatypes.S (length items))%nat with (Datatypes.S i + length items)%nat by lia.
    split_and!; [done..|by eapply kept_trans|done].
  - destruct IH as (k2 & Hk2 & Hs2). cbn [res_bind]. exists (k + k2)%nat. split; [lia|].
    by rewrite steps_add, Hs.
Qed.

(** The loop over the keys of an object. *)
Lemma fields_run n l t p d keys A S rest :
  value_runs n → (n + Datatypes.S d = Datatypes.S JSON_FRAME_MAX_DEPTH)%nat →
  ∀ i b T fin finj,
  rest = drop i keys → T !! t = Some (CObject fin) →
  Forall2 (field_shows T (Datatypes.S t)) fin finj →
  let start := mkTraversal b A (ObjectFrame l t keys p d i :: S) T in
  let bound := (N.of_nat (length rest) * (1 + turns H n))%N in
  match copy_fields (copy n A) p (source_fields H l) rest finj b with
  | Err e => ∃ k, (N.of_nat k <= bound)%N ∧ steps k start = Err e
  | Ok (js, b') => ∃ k T' fin', (N.of_nat k <= bound)%N ∧
      steps k start = Ok (mkTraversal b' A (ObjectFrame l t keys p d (i + length rest) :: S) T') ∧
      T' !! t = Some (CObject fin') ∧ kept t T T' ∧ Forall2 (field_shows T' (Datatypes.S t)) fin' js
  end.
Proof.
  intros Hrun Hn. induction rest as [|key rest IH]; intros i b T fin finj Hrest Ht Hfin; cbn zeta.
  { cbn. exists 0%nat, T, fin. rewrite Nat.add_0_r. split; [lia|]. by split_and!. }
  assert (keys !! i = Some key) as Hi.
  { rewrite <- (Nat.add_0_r i), <- lookup_drop, <- Hrest. done. }
  assert (rest = drop (Datatypes.S i) keys) as Hnext.
  { by rewrite <- Nat.add_1_r, <- drop_drop, <- Hrest. }
  cbn [copy_fields length].
  pose proof (entry_runs n (ObjectFrame l t keys p d) (put_field key)
    (field_value (source_fields H l) key) (PProperty p key) (Datatypes.S d) b A S T t i (CObject fin) Hrun Hn Ht) as Hentry.
  specialize (Hentry ltac:(unfold FrameTraverse.clone_step; cbn [tr_stack]; by rewrite Hi)).
  destruct (copy n A (PProperty p key) _ b) as [[j b1]|e].
  2: { destruct Hentry as (k & Hk & Hs). exists k. cbn [res_bind]. split; [lia|done]. }
  cbn [res_bind]. destruct Hentry as (k & T1 & child & Hk & Hs & Ht1 & Hkept & Hshow). cbn in Ht1.
  assert (t < length T)%nat as Hlt' by (by eapply lookup_lt_Some).
  assert (Forall2 (field_shows T1 (Datatypes.S t)) (set_field fin key child) (set_field finj key j)) as Hfin1.
  { apply set_field_shows; [|eapply shows_mono; [exact Hshow|lia|done]].
    eapply Forall2_impl; [exact Hfin|]. intros x y [Hx Hy]. split; [done|]. by eapply shows_kept. }
  specialize (IH (Datatypes.S i) b1 T1 _ _ Hnext Ht1 Hfin1). cbn zeta in IH.
  destruct (copy_fields (copy n A) p _ rest _ b1) as [[js b2]|e].
  - destruct IH as (k2 & T2 & fin2 & Hk2 & Hs2 & Ht2 & Hkept2 & Hfin2).
    exists (k + k2)%nat, T2, fin2. split; [lia|]. rewrite steps_add, Hs. cbn [res_bind].
    replace (i + Datatypes.S (length rest))%nat with (Datatypes.S i + length rest)%nat by lia.
    split_and!; [done..|by eapply kept_trans|done].
  - destruct IH as (k2 & Hk2 & Hs2). exists (k + k2)%nat. split; [lia|].
    by rewrite steps_add, Hs.
Qed.

(** A frame just opened runs as the reference says, and leaves the path as it was. *)
Lemma opened_runs n l o p d A t b :
  value_runs n → (n + Datatypes.S d = Datatypes.S JSON_FRAME_MAX_DEPTH)%nat →
  look H l = o → l ∉ A →
  frame_runs (Datatypes.S n) (frame_of l t o p d) ({[l]} ∪ A) A b t (empty_of o)
    match o with
    | OArray items =>
        let* (js, budget) := copy_items H orient (copy n ({[l]} ∪ A)) l p 0 items b in Ok (VArray js, budget)
    | OObject _ fs =>
        let* (fs, budget) := copy_fields (copy n ({[l]} ∪ A)) p fs (field_keys fs) [] b in Ok (VObject fs, budget)
    end.
Proof.
  intros Hrun Hn Ho Hl S T HT Ht. pose proof (width_bound l o Ho) as Hw.
  assert (({[l]} ∪ A) ∖ {[l]} = A) as Hback by set_solver.
  destruct o as [items|pl fs]; cbn [frame_of empty_of entries turns] in *.
  - pose proof (items_run n l t p d ({[l]} ∪ A) S items Hrun Hn 0 b T [] []) as Hloop.
    unfold source_items in Hloop. rewrite Ho in Hloop.
    specialize (Hloop eq_refl Ht (List.Forall2_nil _)). cbn zeta in Hloop.
    destruct (copy_items _ _ _ _ _ _ _ _) as [[js b']|e]; cbn [res_bind].
    + destruct Hloop as (k & T' & fin & Hk & Hs & Ht' & Hkept & Hfin).
      exists (k + 1)%nat, T'. split; [nia|]. rewrite steps_add, Hs. cbn [res_bind steps].
      unfold FrameTraverse.clone_step. cbn [tr_stack tr_ancestors tr_remaining tr_targets].
      unfold source_items. rewrite Ho, (proj2 (Nat.leb_le _ _)), Hback by (cbn; lia).
      split_and!; [done|done|]. econstructor; [lia|exact Ht'|exact Hfin].
    + destruct Hloop as (k & Hk & Hs). exists k. split; [nia|done].
  - pose proof (fields_run n l t p d (field_keys fs) ({[l]} ∪ A) S (field_keys fs) Hrun Hn 0 b T [] []) as Hloop.
    unfold source_fields in Hloop. rewrite Ho in Hloop.
    specialize (Hloop eq_refl Ht (List.Forall2_nil _)). cbn zeta in Hloop.
    assert (length (field_keys fs) = length fs) as Hlen by apply length_map.
    destruct (copy_fields _ _ _ _ _ _) as [[js b']|e]; cbn [res_bind].
    + destruct Hloop as (k & T' & fin & Hk & Hs & Ht' & Hkept & Hfin).
      exists (k + 1)%nat, T'. split; [nia|]. rewrite steps_add, Hs. cbn [res_bind steps].
      unfold FrameTraverse.clone_step. cbn [tr_stack tr_ancestors tr_remaining tr_targets].
      rewrite (proj2 (lookup_ge_None _ _)), Hback by (cbn; lia).
      split_and!; [done|done|]. econstructor; [lia|exact Ht'|exact Hfin].
    + destruct Hloop as (k & Hk & Hs). exists k. split; [nia|done].
Qed.

Lemma machine_runs n : value_runs n.
Proof.
  induction n as [|n IH]; intros v p d b A S T Hd; rewrite createFrame_opens.
  - cbn [FrameTraverse.copy]. destruct (charge _ _ _ _ _) as [b'|e]; cbn; [|done].
    destruct (cloneScalar _ _ _ _) as [[j|]|e]; cbn; [by eexists _, _| |done].
    unfold enter. rewrite (proj2 (Nat.leb_gt d _)) by lia. done.
  - cbn [FrameTraverse.copy]. destruct (charge _ _ _ _ _) as [b'|e]; cbn [res_bind]; [|done].
    destruct (cloneScalar _ _ _ _) as [[j|]|e]; cbn [res_bind]; [by eexists _, _| |done].
    rewrite enter_depth by lia.
    destruct (enter H orient v p 0 A) as [[l o]|e] eqn:He; cbn [res_bind]; [|done].
    apply enter_inv in He as (-> & Ho & Hl).
    exists b', ({[l]} ∪ A), (empty_of o). split; [done|]. split; [done|].
    apply opened_runs; [exact IH|lia|done|done].
Qed.

(** The loop ends on every input, cycles included, with the reference's answer. *)
Lemma clone_reference v path :
  cloneJsonCompatible H orient maxNodes v path =
    Some (res_map fst (copy (S JSON_FRAME_MAX_DEPTH) ∅ (PRoot path) v maxNodes)).
Proof.
  unfold cloneJsonCompatible.
  pose proof (machine_runs (S JSON_FRAME_MAX_DEPTH) v (PRoot path) 0%nat maxNodes ∅ [] [] (Nat.add_0_r _)) as Hrun.
  destruct (createFrame v (PRoot path) 0 _) as [[[child [F|]] st]|e].
  - destruct Hrun as (b' & A' & c & -> & -> & Hrun). specialize (Hrun [] [c] eq_refl eq_refl).
    cbn [app push_frame tr_remaining tr_ancestors tr_targets].
    destruct (copy _ _ _ _ _) as [[j b2]|e].
    + destruct Hrun as (k & T' & Hk & Hs & Hkept & Hshow).
      rewrite (run_enough k) by (rewrite ?Hs; done). rewrite Hs. cbn [tr_stack tr_targets].
      erewrite read_shows; [done|exact Hshow|lia].
    + destruct Hrun as (k & Hk & Hs). by rewrite (run_enough k), Hs by (rewrite ?Hs; done).
  - destruct Hrun as (j & b' & -> & -> & ->).
    rewrite (run_enough 0); [reflexivity|done|lia].
  - by rewrite Hrun.
Qed.

(** ** The check is the copy without its store *)

Definition forget_frame (f : Frame) : ValidateFrame :=
  match f with
  | ArrayFrame l _ p d i => ArrayCheck l p d i
  | ObjectFrame l _ keys p d i => ObjectCheck l keys p d i
  end.
Definition forget (st : Traversal) : Validation :=
  mkValidation (tr_remaining st) (tr_ancestors st) (map forget_frame (tr_stack st)).

Lemma createFrame_forget v p d st :
  createValidateFrame H orient maxNodes v p d (forget st) =
    res_map (λ r, (forget_frame <$> r.1.2, forget r.2)) (createFrame v p d st).
Proof.
  unfold createValidateFrame, FrameTraverse.createFrame, res_map. cbn.
  destruct (charge _ _ _ _ _) as [b|e]; [|done]. cbn.
  destruct (cloneScalar _ _ _ _) as [[j|]|e]; [done| |done]. cbn.
  destruct (enter _ _ _ _ _) as [[l [items|pl fs]]|e]; done.
Qed.

Lemma step_forget st :
  assert_step H orient maxNodes (forget st) = res_map forget (clone_step st).
Proof.
  unfold assert_step, FrameTraverse.clone_step. destruct st as [b A [|[l t p d i|l t keys p d i] S] T]; cbn [forget tr_stack tr_remaining tr_ancestors tr_targets map va_stack forget_frame]; [done|..].
  - destruct (_ <=? i)%nat; [done|]. destruct (source_items H l !! i) as [[v|]|]; [|done..].
    change (mkValidation b A (ArrayCheck l p d i :: map forget_frame S)) with (forget (mkTraversal b A (ArrayFrame l t p d i :: S) T)).
    rewrite createFrame_forget. by destruct (createFrame v _ _ _) as [[[c [f|]] st]|e].
  - destruct (keys !! i) as [key|]; [|done].
    change (mkValidation b A (ObjectCheck l keys p d i :: map forget_frame S)) with (forget (mkTraversal b A (ObjectFrame l t keys p d i :: S) T)).
    rewrite createFrame_forget. by destruct (createFrame _ _ _ _) as [[[c [f|]] st]|e].
Qed.

Lemma run_forget n st :
  run_check H orient maxNodes n (forget st) = res_map forget (run H orient maxNodes n st).
Proof.
  revert st. induction n as [n IH|n IH|]; intros st; cbn [run_check run];
    change (va_stack (forget st)) with (map forget_frame (tr_stack st));
    (destruct (tr_stack st) eqn:E; cbn [map]; [done|]).
  - rewrite step_forget. destruct (clone_step st) as [st'|]; [|done]. unfold res_map. cbn [res_bind].
    rewrite IH. destruct (run _ _ _ n st') as [st2|]; [|done]. apply IH.
  - rewrite IH. destruct (run _ _ _ n st) as [st2|]; [|done]. apply IH.
  - apply step_forget.
Qed.

Lemma assert_reference v path :
  assertJsonCompatible H orient maxNodes v path =
    Some (res_map (λ _, tt) (copy (S JSON_FRAME_MAX_DEPTH) ∅ (PRoot path) v maxNodes)).
Proof.
  pose proof (clone_reference v path) as Hc. unfold cloneJsonCompatible in Hc. unfold assertJsonCompatible.
  change (mkValidation maxNodes ∅ []) with (forget (mkTraversal maxNodes ∅ [] [])).
  rewrite createFrame_forget. destruct (createFrame v (PRoot path) 0 _) as [[[root f] st]|e]; cbn [res_map res_bind fst snd].
  - assert (mkValidation (va_remaining (forget st)) (va_ancestors (forget st)) (push_check (forget_frame <$> f) [])
      = forget (mkTraversal (tr_remaining st) (tr_ancestors st) (push_frame f []) (tr_targets st))) as ->
      by (by destruct f).
    rewrite run_forget. destruct (run _ _ _ _ _) as [st'|e]; cbn [res_map res_bind].
    + change (va_stack (forget st')) with (map forget_frame (tr_stack st')).
      destruct (tr_stack st'); cbn [map]; [|done]. destruct (read_target _ _ _); [|done].
      by destruct (copy _ _ _ _ _) as [[??]|].
    + destruct (copy _ _ _ _ _) as [[??]|]; cbn in *; congruence.
  - destruct (copy _ _ _ _ _) as [[??]|]; cbn in *; congruence.
Qed.
End machine.
