(* ===== verification/FrameAccept.v ===== *)
(** json-frame: what the traversal accepts.

    [unfolds H v j]: read as a tree, the caller's value [v] is the JSON value
    [j].  A shared container unfolds once per occurrence; a cyclic, sparse or
    exotic one does not unfold.  The copy is accepted exactly when the value
    unfolds within the depth and the node budget, and then it is the unfolding. *)

From S2P Require Import Prelude JsValue JsJson FrameValue FrameTraverse.

(** * Key order *)

(** Integer keys ascend, before all others; no two keys are equal. *)
Definition key_before (a b : jsstr) : Prop :=
  match array_index a, array_index b with
  | Some i, Some j => i <= j
  | None, Some _ => False
  | _, None => True
  end.

(** The keys of an object in enumeration order. *)
Inductive key_order : list jsstr → Prop :=
  | key_order_nil : key_order []
  | key_order_snoc ks k :
      key_order ks → k ∉ ks → Forall (λ a, key_before a k) ks → key_order (ks ++ [k]).

Definition heap_ok (H : heap) : Prop :=
  ∀ l pl fs, look H l = OObject pl fs → key_order (field_keys fs).

Lemma field_lookup_None {A} (fs : list (jsstr * A)) k : field_lookup fs k = None ↔ k ∉ field_keys fs.
Proof.
  unfold field_keys. induction fs as [|[k' v] fs IH]; cbn; [split; [intros _; apply not_elem_of_nil|done]|].
  rewrite not_elem_of_cons, <- IH. destruct (jsstr_eqb k k') eqn:E.
  - apply jsstr_eqb_true in E as ->. naive_solver.
  - apply jsstr_eqb_false in E. naive_solver.
Qed.

Lemma field_lookup_app {A} (fs gs : list (jsstr * A)) k v :
  k ∉ field_keys fs → field_lookup (fs ++ (k, v) :: gs) k = Some v.
Proof.
  unfold field_keys. induction fs as [|[k' w] fs IH]; cbn; [by rewrite jsstr_eqb_refl|].
  rewrite not_elem_of_cons. intros [Hne Hfs]. rewrite (proj2 (jsstr_eqb_false k k')) by done. auto.
Qed.

(** Setting the next key of the order appends it. *)
Lemma set_field_snoc {A} (fs : list (jsstr * A)) k v :
  k ∉ field_keys fs → Forall (λ a, key_before a k) (field_keys fs) → set_field fs k v = fs ++ [(k, v)].
Proof.
  intros Hk Hb. unfold set_field. rewrite (proj2 (field_lookup_None fs k) Hk). clear Hk.
  unfold field_keys in Hb. induction fs as [|[k' w] fs IH]; cbn in *; [done|].
  apply Forall_cons in Hb as [Hk' Hb]. unfold key_before in Hk'.
  destruct (array_index k) as [i|], (array_index k') as [j|]; rewrite ?IH by done; try done.
  by rewrite (proj2 (Z.ltb_ge i j)) by lia.
Qed.

Lemma key_order_split xs k ys :
  key_order (xs ++ k :: ys) → k ∉ xs ∧ Forall (λ a, key_before a k) xs.
Proof.
  intros Ho. remember (xs ++ k :: ys) as ks eqn:E. revert ys E.
  induction Ho as [|ks k' Ho IH Hk Hb]; intros ys E; [by destruct xs|].
  destruct ys as [|y ys _] using rev_ind.
  - by apply app_inj_tail in E as [-> ->].
  - rewrite app_comm_cons, app_assoc in E. apply app_inj_tail in E as [-> ->]. by eapply IH.
Qed.

(** * Depth and nodes of a tree *)

Fixpoint depth (j : JsonValue) : nat :=
  match j with
  | VArray l => S (foldr (λ x, Nat.max (depth x)) 0%nat l)
  | VObject fs => S (foldr (λ kv, Nat.max (depth kv.2)) 0%nat fs)
  | _ => 0
  end.

Fixpoint nodes (j : JsonValue) : nat :=
  match j with
  | VArray l => S (foldr (λ x n, nodes x + n)%nat 0%nat l)
  | VObject fs => S (foldr (λ kv n, nodes kv.2 + n)%nat 0%nat fs)
  | _ => 1
  end.

Definition list_depth (l : list JsonValue) : nat := foldr (λ x, Nat.max (depth x)) 0%nat l.
Definition list_nodes (l : list JsonValue) : nat := foldr (λ x n, nodes x + n)%nat 0%nat l.

Lemma depth_object fs : depth (VObject fs) = S (list_depth (map snd fs)).
Proof. cbn. f_equal. induction fs as [|[k j] fs IH]; cbn; [done|by rewrite IH]. Qed.
Lemma nodes_object fs : nodes (VObject fs) = S (list_nodes (map snd fs)).
Proof. cbn. f_equal. induction fs as [|[k j] fs IH]; cbn; [done|by rewrite IH]. Qed.

Lemma list_nodes_in j l : j ∈ l → (nodes j <= list_nodes l)%nat.
Proof. induction 1; cbn [list_nodes foldr]; fold (list_nodes l) in *; lia. Qed.

(** * Unfolding *)

Inductive unfolds (H : heap) : value → JsonValue → Prop :=
  | unfolds_null : unfolds H UNull VNull
  | unfolds_bool b : unfolds H (UBool b) (VBool b)
  | unfolds_number x : is_finite (num_value x) = true → unfolds H (UNumber x) (VNumber x)
  | unfolds_string s : unfolds H (UString s) (VString s)
  | unfolds_array l items js :
      look H l = OArray items → Forall2 (λ i j, ∃ v, i = Some v ∧ unfolds H v j) items js →
      unfolds H (URef l) (VArray js)
  | unfolds_object l fs js :
      look H l = OObject true fs → Forall2 (λ a b, a.1 = b.1 ∧ unfolds H a.2 b.2) fs js →
      unfolds H (URef l) (VObject js).

Lemma unfolds_array_inv H v js : unfolds H v (VArray js) →
  ∃ l items, v = URef l ∧ look H l = OArray items ∧ Forall2 (λ i j, ∃ v, i = Some v ∧ unfolds H v j) items js.
Proof. inversion 1; subst. by eexists _, _. Qed.
Lemma unfolds_object_inv H v js : unfolds H v (VObject js) →
  ∃ l fs, v = URef l ∧ look H l = OObject true fs ∧ Forall2 (λ a b, a.1 = b.1 ∧ unfolds H a.2 b.2) fs js.
Proof. inversion 1; subst. by eexists _, _. Qed.

Lemma unfolds_unique H v j j' : unfolds H v j → unfolds H v j' → j = j'.
Proof.
  revert v j'. induction j as [| | | |l IH|fs IH] using json_induction; intros v j' Hj Hj';
    try (inversion Hj; subst; inversion Hj'; by subst).
  - apply unfolds_array_inv in Hj as (a & items & -> & Ha & Hf).
    inversion Hj' as [| | | |? items' js' Ha' Hf'|? ? ? Ha']; subst; [|congruence]. f_equal.
    assert (items' = items) as -> by congruence. clear Hj' Ha Ha'. revert js' Hf'.
    induction Hf as [|i j items l (v & -> & Hv) _ IHl]; intros js' Hjs; inversion Hjs as [|? j' ? ? (v' & Heq & Hv')]; subst; [done|].
    injection Heq as <-.
    apply Forall_cons in IH as [IHj IH]. f_equal; [by eapply IHj|by apply IHl].
  - apply unfolds_object_inv in Hj as (a & gs & -> & Ha & Hf).
    inversion Hj' as [| | | |? ? ? Ha'|? gs' js' Ha' Hf']; subst; [congruence|]. f_equal.
    assert (gs' = gs) as -> by congruence. clear Hj' Ha Ha'. revert js' Hf'.
    induction Hf as [|[k v] [k' j] gs l [Hk Hv] _ IHl]; intros js' Hjs; inversion Hjs as [|? [k2 j2] ? ? [Hk' Hv']]; subst; [done|].
    apply Forall_cons in IH as [IHj IH]. cbn in *. subst. f_equal; [|by apply IHl]. f_equal. by eapply IHj.
Qed.

(** * The budget *)

Definition spend (m : nat) (b : option Z) : option Z := (λ n, n - Z.of_nat m) <$> b.
Definition affords (m : nat) (b : option Z) : Prop := ∀ n, b = Some n → Z.of_nat m <= n.

Lemma spend_add m1 m2 b : spend (m1 + m2) b = spend m2 (spend m1 b).
Proof. destruct b as [n|]; cbn; [f_equal; lia|done]. Qed.
Lemma affords_add m1 m2 b : affords (m1 + m2) b ↔ affords m1 b ∧ affords m2 (spend m1 b).
Proof.
  unfold affords. destruct b as [n|]; cbn; [|naive_solver]. split.
  - intros Hm. specialize (Hm n eq_refl). split; intros x [= <-]; lia.
  - intros [H1 H2] x [= <-]. specialize (H2 _ eq_refl). lia.
Qed.
Lemma affords_none m : affords m None.
Proof. by intros n [=]. Qed.

Section accept.
Context {H : heap} {orient : option ResolvedOrient} {maxNodes : option Z}.
Hypothesis Hok : heap_ok H.
Notation copy := (copy H orient maxNodes).
Notation charge := (charge H orient maxNodes).

Lemma charge_Ok v p b b' : affords 0 b → charge v p b = Ok b' ↔ b' = spend 1 b ∧ affords 1 b.
Proof.
  unfold FrameTraverse.charge, affords. destruct b as [n|]; cbn; [|naive_solver]. intros Hn.
  specialize (Hn n eq_refl). destruct (Z.eqb_spec n 0) as [->|Hne]; split.
  - done.
  - intros [_ Hx]. specialize (Hx 0 eq_refl). lia.
  - intros [= <-]. split; [done|]. intros x [= <-]. lia.
  - intros [-> _]. done.
Qed.

Lemma enter_plain v p d A l pl fs : enter H orient v p d A = Ok (l, OObject pl fs) → pl = true.
Proof.
  unfold enter. destruct (guard _ _); [|done]. cbn. destruct v as [| | | | | | | |l']; try done.
  destruct (look H l') as [items|[] gs] eqn:E; [| |done]; cbn; destruct (bool_decide _); cbn; naive_solver.
Qed.

Definition sound (rec : PathNode → value → option Z → frame_result (JsonValue * option Z)) (n : nat) : Prop :=
  ∀ p v b j b', affords 0 b → rec p v b = Ok (j, b') →
    unfolds H v j ∧ (depth j <= n)%nat ∧ b' = spend (nodes j) b ∧ affords (nodes j) b.

Lemma items_sound rec n l p i items b js b' :
  sound rec n → affords 0 b → copy_items H orient rec l p i items b = Ok (js, b') →
  Forall2 (λ i j, ∃ v, i = Some v ∧ unfolds H v j) items js ∧ (list_depth js <= n)%nat ∧
  b' = spend (list_nodes js) b ∧ affords (list_nodes js) b.
Proof.
  intros Hrec. revert i b js. induction items as [|[v|] items IH]; intros i b js Hb; cbn [copy_items]; [|intros Hc|done].
  - intros [= <- <-]. split_and!; [constructor|cbn; lia| |done]. destruct b; cbn; [f_equal; lia|done].
  - apply res_bind_Ok in Hc as ([j b1] & Hj & Hc). apply res_bind_Ok in Hc as ([js' b2] & Hjs & [= <- <-]).
    apply Hrec in Hj as (Hv & Hd & -> & Ha); [|done].
    assert (affords 0 (spend (nodes j) b)) as Hb' by (apply affords_add; by rewrite Nat.add_0_r).
    apply IH in Hjs as (Hf & Hds & -> & Has); [|done].
    split_and!; [constructor; [by eexists|done]|unfold list_depth in *; cbn; lia|cbn; by rewrite spend_add|cbn; by apply affords_add].
Qed.

Lemma fields_sound rec n p fs rest pre acc b out b' :
  sound rec n → affords 0 b → key_order (field_keys fs) →
  fs = pre ++ rest → field_keys acc = field_keys pre →
  copy_fields rec p fs (field_keys rest) acc b = Ok (out, b') →
  ∃ js, out = acc ++ js ∧ Forall2 (λ a b, a.1 = b.1 ∧ unfolds H a.2 b.2) rest js ∧
    (list_depth (map snd js) <= n)%nat ∧ b' = spend (list_nodes (map snd js)) b ∧ affords (list_nodes (map snd js)) b.
Proof.
  intros Hrec Hb Ho. revert pre acc b Hb. induction rest as [|[k v] rest IH]; intros pre acc b Hb Hfs Hacc; cbn [field_keys map fst copy_fields].
  - intros [= <- <-]. exists []. rewrite app_nil_r. split_and!; [done|constructor|cbn; lia| |done].
    destruct b; cbn; [f_equal; lia|done].
  - intros Hc. apply res_bind_Ok in Hc as ([j b1] & Hj & Hc).
    assert (field_keys fs = field_keys pre ++ k :: field_keys rest) as Ek
      by (rewrite Hfs; unfold field_keys; by rewrite map_app).
    pose proof Ho as Ho'. rewrite Ek in Ho'. destruct (key_order_split _ _ _ Ho') as [Hk Hbefore].
    unfold field_value in Hj. rewrite Hfs, field_lookup_app in Hj by done. cbn [default] in Hj.
    apply Hrec in Hj as (Hv & Hd & -> & Ha); [|done].
    assert (affords 0 (spend (nodes j) b)) as Hb' by (apply affords_add; by rewrite Nat.add_0_r).
    rewrite set_field_snoc in Hc by (by rewrite Hacc).
    apply (IH (pre ++ [(k, v)])) in Hc as (js & -> & Hf & Hds & -> & Has); [|done|by rewrite <- app_assoc|].
    2: { unfold field_keys in *. by rewrite !map_app, Hacc. }
    exists ((k, j) :: js). rewrite <- app_assoc.
    split_and!; [done|by constructor|unfold list_depth in *; cbn; lia|cbn; by rewrite spend_add|cbn; by apply affords_add].
Qed.

Lemma copy_sound n A : sound (copy n A) n.
Proof.
  revert A. induction n as [|n IH]; intros A p v b j b' Hb Hc; cbn [FrameTraverse.copy] in Hc;
    apply res_bind_Ok in Hc as (b1 & Hch & Hc); apply charge_Ok in Hch as [-> Ha]; try done;
    apply res_bind_Ok in Hc as (sc & Hsc & Hc).
  all: destruct sc as [sc|];
    [injection Hc as <- <-; destruct v; cbn in Hsc; try done; try (destruct (is_finite (num_value x)) eqn:Hfin; [|done]);
       injection Hsc as <-; (split_and!; [by constructor|cbn; lia|done|done])|].
  { done. }
  apply res_bind_Ok in Hc as ([l o] & He & Hc). pose proof He as Hplain.
  apply enter_inv in He as (-> & Ho & Hl).
  assert (affords 0 (spend 1 b)) as Hb1 by (apply affords_add; by rewrite Nat.add_0_r).
  destruct o as [items|pl fs]; cbn zeta in Hc; apply res_bind_Ok in Hc as ([js b2] & Hc & [= <- <-]).
  - eapply items_sound in Hc as (Hf & Hd & -> & Has); [|apply IH|done].
    change (nodes (VArray js)) with (1 + list_nodes js)%nat. change (depth (VArray js)) with (S (list_depth js)).
    split_and!; [by econstructor|lia|by rewrite spend_add|by apply affords_add].
  - assert (pl = true) as -> by (by eapply enter_plain).
    eapply (fields_sound _ n p fs fs [] []) in Hc as (js' & -> & Hf & Hd & -> & Has);
      [|apply IH|done|by eapply Hok|done|done].
    rewrite nodes_object, depth_object. change (S (list_nodes (map snd ([] ++ js')))) with (1 + list_nodes (map snd js'))%nat.
    split_and!; [by econstructor|cbn [app]; lia|by rewrite spend_add|by apply affords_add].
Qed.

(** ** The converse *)

(** Every container of the path unfolds to more than [m] nodes. *)
Definition path_above (A : gset nat) (m : nat) : Prop :=
  ∀ a, a ∈ A → ∃ j, unfolds H (URef a) j ∧ (m < nodes j)%nat.

Definition complete (rec : PathNode → value → option Z → frame_result (JsonValue * option Z)) (j : JsonValue) : Prop :=
  ∀ p v b, unfolds H v j → affords (nodes j) b → rec p v b = Ok (j, spend (nodes j) b).

Lemma items_complete rec l p i items js b :
  Forall (complete rec) js → Forall2 (λ i j, ∃ v, i = Some v ∧ unfolds H v j) items js →
  affords (list_nodes js) b →
  copy_items H orient rec l p i items b = Ok (js, spend (list_nodes js) b).
Proof.
  intros Hc Hf. revert i b Hc. induction Hf as [|i0 j items js (v & -> & Hv) _ IH]; intros i b Hc Hb; cbn.
  - destruct b as [n|]; cbn; [|done]. by rewrite Z.sub_0_r.
  - apply Forall_cons in Hc as [Hj Hc]. change (list_nodes (j :: js)) with (nodes j + list_nodes js)%nat in *.
    apply affords_add in Hb as [Hb1 Hb2]. rewrite (Hj _ _ b Hv Hb1). cbn [res_bind].
    rewrite (IH _ _ Hc Hb2). cbn [res_bind]. by rewrite spend_add.
Qed.

Lemma fields_complete rec p fs rest js pre acc b :
  Forall (λ kv, complete rec kv.2) js → Forall2 (λ a b, a.1 = b.1 ∧ unfolds H a.2 b.2) rest js →
  key_order (field_keys fs) → fs = pre ++ rest → field_keys acc = field_keys pre →
  affords (list_nodes (map snd js)) b →
  copy_fields rec p fs (field_keys rest) acc b = Ok (acc ++ js, spend (list_nodes (map snd js)) b).
Proof.
  intros Hc Hf Ho. revert pre acc b Hc.
  induction Hf as [|[k v] [k' j] rest js [Hk Hv] _ IH]; intros pre acc b Hc Hfs Hacc Hb.
  - cbn. rewrite app_nil_r. destruct b as [n|]; cbn; [|done]. by rewrite Z.sub_0_r.
  - apply Forall_cons in Hc as [Hj Hc]. cbn in Hk, Hv, Hj. subst k'.
    cbn [field_keys map fst copy_fields snd].
    change (list_nodes (map snd ((k, j) :: js))) with (nodes j + list_nodes (map snd js))%nat in *.
    apply affords_add in Hb as [Hb1 Hb2].
    assert (field_keys fs = field_keys pre ++ k :: field_keys rest) as Ek
      by (rewrite Hfs; unfold field_keys; by rewrite map_app).
    pose proof Ho as Ho'. rewrite Ek in Ho'. destruct (key_order_split _ _ _ Ho') as [Hkp Hbefore].
    unfold field_value. rewrite Hfs at 1. rewrite field_lookup_app by done. cbn [default].
    rewrite (Hj _ _ b Hv Hb1). cbn [res_bind]. rewrite set_field_snoc by (by rewrite Hacc).
    rewrite (IH (pre ++ [(k, v)])); [|done|by rewrite <- app_assoc| |done].
    + by rewrite <- spend_add, <- app_assoc.
    + unfold field_keys in *. by rewrite !map_app, Hacc.
Qed.

Lemma path_above_child A l j m :
  unfolds H (URef l) j → path_above A (nodes j) → (m < nodes j)%nat → path_above ({[l]} ∪ A) m.
Proof.
  intros Hl HA Hm a. rewrite elem_of_union, elem_of_singleton. intros [->|Ha]; [by exists j|].
  destruct (HA a Ha) as (j' & ? & ?). exists j'. split; [done|lia].
Qed.

Lemma path_above_fresh A l j : unfolds H (URef l) j → path_above A (nodes j) → l ∉ A.
Proof. intros Hl HA Ha. destruct (HA l Ha) as (j' & Hj' & Hlt). rewrite (unfolds_unique H _ _ _ Hl Hj') in Hlt. lia. Qed.

Lemma in_list_depth l j : j ∈ l → (depth j <= list_depth l)%nat.
Proof. unfold list_depth. induction 1; cbn; lia. Qed.

Lemma enter_opens v l A o :
  v = URef l → look H l = o → (∀ fs, o ≠ OObject false fs) → l ∉ A →
  ∀ p, enter H orient v p 0 A = Ok (l, o).
Proof.
  intros -> Ho Hp Hl p. unfold enter. cbn. rewrite Ho. rewrite bool_decide_eq_true_2 by done.
  destruct o as [|[]]; [done|done|by destruct (Hp fields)].
Qed.

Lemma charge_pays v p m b : affords (S m) b → charge v p b = Ok (spend 1 b) ∧ affords m (spend 1 b).
Proof.
  intros Hb. apply (affords_add 1 m) in Hb as [H1 H2]. split; [|done].
  apply charge_Ok; [|done]. intros n Hn. specialize (H1 n Hn). lia.
Qed.

Lemma copy_complete j : ∀ n A, (depth j <= n)%nat → path_above A (nodes j) → complete (copy n A) j.
Proof.
  induction j as [| | | |l IH|fs IH] using json_induction; intros n A Hd HA p v left Hv Hb.
  1-4: destruct (charge_pays v p 0%nat left Hb) as [Hch _]; inversion Hv; subst;
    destruct n; cbn [FrameTraverse.copy]; rewrite Hch; cbn; try done;
    by match goal with Hx : is_finite _ = true |- _ => rewrite Hx end.
  - pose proof Hv as Hun. apply unfolds_array_inv in Hv as (a & items & -> & Ha & Hf).
    destruct n as [|n]; [cbn in Hd; lia|]. change (depth (VArray l)) with (S (list_depth l)) in Hd.
    change (nodes (VArray l)) with (S (list_nodes l)) in Hb |- *.
    destruct (charge_pays (URef a) p _ left Hb) as [Hch Hb1].
    cbn [FrameTraverse.copy]. rewrite Hch. cbn [res_bind cloneScalar].
    rewrite (enter_opens _ a A (OArray items)); [|done|done|done|by eapply path_above_fresh]. cbn [res_bind].
    erewrite items_complete; [cbn [res_bind]; by rewrite <- spend_add| |exact Hf|done].
    apply Forall_forall. intros j Hj. rewrite Forall_forall in IH. apply (IH j Hj).
    + apply in_list_depth in Hj. lia.
    + eapply path_above_child; [exact Hun|done|]. apply list_nodes_in in Hj.
      change (nodes (VArray l)) with (S (list_nodes l)). lia.
  - pose proof Hv as Hun. apply unfolds_object_inv in Hv as (a & gs & -> & Ha & Hf).
    destruct n as [|n]; [cbn in Hd; lia|]. rewrite depth_object in Hd. rewrite nodes_object in Hb |- *.
    destruct (charge_pays (URef a) p _ left Hb) as [Hch Hb1].
    cbn [FrameTraverse.copy]. rewrite Hch. cbn [res_bind cloneScalar].
    rewrite (enter_opens _ a A (OObject true gs)); [|done|done|done|by eapply path_above_fresh]. cbn [res_bind].
    erewrite (fields_complete _ _ _ _ _ []); [cbn [res_bind]; by rewrite <- spend_add| |exact Hf|by eapply Hok|done|done|done].
    apply Forall_forall. intros [k j] Hj. rewrite Forall_forall in IH. apply (IH (k, j) Hj); cbn.
    + apply (list_elem_of_fmap_2 snd), in_list_depth in Hj. cbn in Hj. change (snd <$> fs) with (map snd fs) in Hj. lia.
    + eapply path_above_child; [exact Hun|done|].
      apply (list_elem_of_fmap_2 snd), list_nodes_in in Hj. cbn in Hj.
      rewrite nodes_object. change (snd <$> fs) with (map snd fs) in Hj. lia.
Qed.

Lemma copy_accepts n p v b j : affords 0 b →
  (res_map fst (copy n ∅ p v b) = Ok j ↔ unfolds H v j ∧ (depth j <= n)%nat ∧ affords (nodes j) b).
Proof.
  intros Hb. split.
  - destruct (copy n ∅ p v b) as [[j' b']|e] eqn:E; [|done]. intros [= <-].
    apply copy_sound in E as (Hu & Hd & _ & Ha); done.
  - intros (Hu & Hd & Ha). rewrite (copy_complete j); [done|done| |done|done]. intros a. set_solver.
Qed.
End accept.

(** The traversal accepts [v] and returns [j] exactly when [v], read as a tree, is
    [j], [j] nests at most [JSON_FRAME_MAX_DEPTH + 1] containers and has at most
    [maxNodes] nodes; it ends on every input. *)
Theorem clone_accepts (H : heap) orient maxNodes path v j :
  heap_ok H → affords 0 maxNodes →
  (cloneJsonCompatible H orient maxNodes v path = Some (Ok j) ↔
   unfolds H v j ∧ (depth j <= S JSON_FRAME_MAX_DEPTH)%nat ∧ affords (nodes j) maxNodes).
Proof.
  intros Hok Hb. rewrite clone_reference, <- (copy_accepts (orient:=orient) (maxNodes:=maxNodes) Hok _ (PRoot path)) by done.
  split; [apply (inj Some)|exact (λ E, f_equal Some E)].
Qed.
