(* ===== verification/FrameOptions.v ===== *)
(** json-frame, options.ts: the options of [fromOrient], [toTable] and
    [toJSONString], validated before anything is traversed.

    An option object is any value of the caller; a property is read as an own
    property. *)

From S2P Require Import Prelude JsValue JsJson FrameValue JsMap.

Inductive ColumnType :=
  | TInteger | TFloat | TString | TBoolean | TDatetime | TCategorical | TMixed | TUnknown.

#[global] Instance ColumnType_eq : EqDecision ColumnType.
Proof. solve_decision. Defined.

Definition DEFAULT_PACK_THRESHOLD : Z := 256.

Record NormalizedFromOrientOptions := mkOptions {
  op_orient : Orient;
  op_packThreshold : Z;
  op_columns : option (list jsstr);
  op_columnTypes : option (list (jsstr * ColumnType));
  op_maxNodes : option Z
}.

Record ToTableOptions := mkTableOptions { tt_indexField : option jsstr }.
Record ToJSONStringOptions := mkStringOptions { ts_indexField : option jsstr; ts_maxNodes : option Z }.

Definition RESOLVED_ORIENTS : list (jsstr * ResolvedOrient) :=
  [(js "records", Records); (js "index", Index); (js "columns", Columns); (js "values", Values);
   (js "split", Split); (js "table", Table)].
Definition ORIENTS : list (jsstr * Orient) :=
  (js "auto", Auto) :: map (λ o, (o.1, Resolved o.2)) RESOLVED_ORIENTS.
Definition COLUMN_TYPES : list (jsstr * ColumnType) :=
  [(js "integer", TInteger); (js "float", TFloat); (js "string", TString); (js "boolean", TBoolean);
   (js "datetime", TDatetime); (js "categorical", TCategorical); (js "mixed", TMixed); (js "unknown", TUnknown)].

(** [typeof value === 'string' && list.includes(value)], with the member meant. *)
Definition member {A} (names : list (jsstr * A)) (v : value) : option A :=
  match v with UString s => map_get names s | _ => None end.

Definition isResolvedOrient : value → option ResolvedOrient := member RESOLVED_ORIENTS.
Definition isOrient : value → option Orient := member ORIENTS.
Definition isColumnType : value → option ColumnType := member COLUMN_TYPES.

Section options.
Variable H : heap.

Definition option_error (message : Message) (name : jsstr) (v : value) : JsonFrameError :=
  OptionError message name (summarizeDiagnosticValue H v).

(** An object that is no array, with its own fields. *)
Definition object_fields (v : value) : option (list (jsstr * value)) :=
  match v with
  | URef l => match look H l with OObject _ fs => Some fs | OArray _ => None end
  | _ => None
  end.

Definition is_undefined (v : value) : bool := match v with UUndefined => true | _ => false end.
(** [v ?? d] *)
Definition nullish (v d : value) : value := match v with UUndefined | UNull => d | _ => v end.

Definition validateMaxNodes (v : value) : frame_result (option Z) :=
  match v with
  | UUndefined => Ok None
  | UNumber x =>
      match safe_integer (num_value x) with
      | Some n => if 0 <? n then Ok (Some n) else Err (option_error MaxNodesInvalid (js "maxNodes") v)
      | None => Err (option_error MaxNodesInvalid (js "maxNodes") v)
      end
  | _ => Err (option_error MaxNodesInvalid (js "maxNodes") v)
  end.

Definition normalizeToTableOptions (options : value) : frame_result ToTableOptions :=
  match options with
  | UUndefined => Ok (mkTableOptions None)
  | _ =>
      match object_fields options with
      | None => Err (option_error OptionsNotObject (js "options") options)
      | Some fs =>
          match field_value fs (js "indexField") with
          | UUndefined => Ok (mkTableOptions None)
          | UString s => Ok (mkTableOptions (Some s))
          | v => Err (option_error IndexFieldNotString (js "indexField") v)
          end
      end
  end.

Definition normalizeToJSONStringOptions (options : value) : frame_result ToJSONStringOptions :=
  let* table := normalizeToTableOptions options in
  let* maxNodes := validateMaxNodes
    (match object_fields options with Some fs => field_value fs (js "maxNodes") | None => UUndefined end) in
  Ok (mkStringOptions (tt_indexField table) maxNodes).

(** [Number.isFinite(v) && Number.isInteger(v) && v >= 0], with the integer. *)
Definition pack_threshold (v : value) : frame_result Z :=
  match v with
  | UNumber x =>
      match number_integer x with
      | Some n => if 0 <=? n then Ok n else Err (option_error PackThresholdInvalid (js "packThreshold") v)
      | None => Err (option_error PackThresholdInvalid (js "packThreshold") v)
      end
  | _ => Err (option_error PackThresholdInvalid (js "packThreshold") v)
  end.

(** The loop over [options.columns]; [seen] is what was validated. *)
Fixpoint validate_columns (source : value) (seen : list jsstr) (items : list (option value)) :
    frame_result (list jsstr) :=
  match items with
  | [] => Ok seen
  | None :: _ => Err (option_error OptionColumnsHole (js "columns") source)
  | Some (UString column) :: items =>
      if bool_decide (column ∈ seen) then Err (option_error OptionColumnsTwice (js "columns") (UString column))
      else validate_columns source (seen ++ [column]) items
  | Some v :: _ => Err (option_error OptionColumnsNotString (js "columns") v)
  end.

Definition normalize_columns (v : value) : frame_result (option (list jsstr)) :=
  match v with
  | UUndefined => Ok None
  | URef l =>
      match look H l with
      | OArray items => res_map Some (validate_columns v [] items)
      | _ => Err (option_error OptionColumnsNotArray (js "columns") v)
      end
  | _ => Err (option_error OptionColumnsNotArray (js "columns") v)
  end.

Fixpoint validate_types (acc : list (jsstr * ColumnType)) (fs : list (jsstr * value)) :
    frame_result (list (jsstr * ColumnType)) :=
  match fs with
  | [] => Ok acc
  | (column, v) :: fs =>
      match isColumnType v with
      | None => Err (option_error ColumnTypeInvalid (js "columnTypes." ++ column) v)
      | Some t => validate_types (set_field acc column t) fs
      end
  end.

Definition normalize_types (v : value) : frame_result (option (list (jsstr * ColumnType))) :=
  match v with
  | UUndefined => Ok None
  | _ =>
      match object_fields v with
      | None => Err (option_error ColumnTypesNotObject (js "columnTypes") v)
      | Some fs => res_map Some (validate_types [] fs)
      end
  end.

Definition normalizeFromOrientOptions (options : value) : frame_result NormalizedFromOrientOptions :=
  match options with
  | UUndefined | UNull => Ok (mkOptions Auto DEFAULT_PACK_THRESHOLD None None None)
  | _ =>
      match object_fields options with
      | None => Err (option_error OptionsNotObject (js "options") options)
      | Some fs =>
          let get k := field_value fs (js k) in
          let orient := nullish (get "orient") (UString (js "auto")) in
          match isOrient orient with
          | None => Err (option_error OrientInvalid (js "orient") orient)
          | Some o =>
              let* maxNodes := validateMaxNodes (get "maxNodes") in
              let* threshold := pack_threshold
                (nullish (get "packThreshold") (UNumber (number_of_Z DEFAULT_PACK_THRESHOLD))) in
              let* columns := normalize_columns (get "columns") in
              let* columnTypes := normalize_types (get "columnTypes") in
              Ok (mkOptions o threshold columns columnTypes maxNodes)
          end
      end
  end.

(** * What the validated options are *)

Definition options_ok (o : NormalizedFromOrientOptions) : Prop :=
  0 <= op_packThreshold o ∧
  (∀ cs, op_columns o = Some cs → NoDup cs) ∧
  (∀ n, op_maxNodes o = Some n → 0 < n <= MAX_SAFE_INTEGER).

Lemma validateMaxNodes_ok v b n : validateMaxNodes v = Ok b → b = Some n → 0 < n <= MAX_SAFE_INTEGER.
Proof.
  destruct v as [| | |x| | | | |]; cbn; try done; [by intros [= <-]|].
  unfold safe_integer. destruct (num_value x) as [|[]|q]; cbn; try done.
  destruct (Q_to_Z q) as [z|]; cbn; [|done]. destruct (Z.leb_spec (Z.abs z) MAX_SAFE_INTEGER); [|done].
  destruct (Z.ltb_spec 0 z); [|done]. intros [= <-] [= <-]. lia.
Qed.

Lemma validate_columns_ok source seen items cs :
  NoDup seen → validate_columns source seen items = Ok cs → NoDup cs.
Proof.
  revert seen. induction items as [|[v|] items IH]; intros seen Hs; cbn; [by intros [= <-]| |done].
  destruct v; try done. destruct (bool_decide_reflect (s ∈ seen)) as [|Hn]; [done|]. apply IH.
  apply NoDup_app. split_and!; [done| |apply NoDup_singleton]. intros x Hx ->%list_elem_of_singleton. done.
Qed.

Lemma normalizeFromOrientOptions_ok v o : normalizeFromOrientOptions v = Ok o → options_ok o.
Proof.
  unfold normalizeFromOrientOptions. destruct v as [| | | | | | | |l]; try (cbn; done);
    [intros [= <-]; repeat split; done..|].
  destruct (object_fields (URef l)) as [fs|]; [|done].
  destruct (isOrient _) as [or|]; [|done]. intros Hn. cbv zeta in Hn.
  apply res_bind_Ok in Hn as (m & Hm & Hn). apply res_bind_Ok in Hn as (t & Ht & Hn).
  apply res_bind_Ok in Hn as (c & Hc & Hn). apply res_bind_Ok in Hn as (ty & _ & [= <-]).
  split_and!; cbn.
  - revert Ht. generalize (nullish (field_value fs (js "packThreshold")) (UNumber (number_of_Z DEFAULT_PACK_THRESHOLD))).
    intros v. destruct v as [| | |x| | | | |]; cbn; try done. destruct (number_integer x); [|done].
    destruct (Z.leb_spec 0 z); [|done]. by intros [= <-].
  - intros cs ->. revert Hc. unfold normalize_columns.
    generalize (field_value fs (js "columns")). intros v. destruct v as [| | | | | | | |k]; try done. intros Hc.
    destruct (look H k) as [items|]; [|done]. unfold res_map in Hc. apply res_bind_Ok in Hc as (cs' & Hc & [= ->]).
    eapply validate_columns_ok; [|exact Hc]. constructor.
  - intros n ->. by eapply validateMaxNodes_ok.
Qed.
End options.
