(* ===== verification/FrameParse.v ===== *)
(** json-frame, parse/parse.ts: from one of the six layouts to a column-major frame.

    Input is a JSON text or a value of the caller; either is first copied by the
    traversal, so the layouts read a tree of the package.  A [Map] keeps its
    insertion order ([jsmap]).  Field objects and the schema object of a table
    are kept as their fields. *)

From S2P Require Import Prelude JsValue JsJson JsMap FrameValue FrameTraverse FrameOptions.

Inductive IndexKind := Source | Synthetic.

Abbreviation json_object := (list (jsstr * JsonValue)).
Abbreviation TableSchemaField := json_object.
Abbreviation TableSchema := json_object.

Record ParsedFrame := mkParsed {
  pf_orient : ResolvedOrient;
  pf_columns : list jsstr;
  pf_index : list IndexLabel;
  pf_indexKind : IndexKind;
  pf_data : jsmap (list JsonValue);
  pf_tableSchema : option TableSchema;
  pf_tableIndexField : option jsstr
}.

(** * JSON text *)

(** A number literal: the sign survives at zero. *)
Definition signed (neg : bool) (n : num) : number :=
  match n with
  | Fin q => if neg && (Qnum q =? 0) then NegZero else Num (Fin (Qred q))
  | _ => Num n
  end.

Fixpoint text_value (fuel : nat) (s : jsstr) {struct fuel} : option (JsonValue * jsstr) :=
  match fuel with
  | O => None
  | S fuel =>
      match skip_ws s with
      | [] => None
      | c :: s' =>
          if c =? 34 then '(t, r) ← parse_string (length s) s'; Some (VString t, r)
          else if c =? 91 then
            match skip_ws s' with
            | 93 :: r => Some (VArray [], r)
            | _ => '(l, r) ← text_elements fuel s'; Some (VArray l, r)
            end
          else if c =? 123 then
            match skip_ws s' with
            | 125 :: r => Some (VObject [], r)
            | _ => '(fs, r) ← text_members fuel s' []; Some (VObject fs, r)
            end
          else if c =? 45 then '(n, r) ← parse_number true s'; Some (VNumber (signed true n), r)
          else if is_digit c then '(n, r) ← parse_number false (c :: s'); Some (VNumber (signed false n), r)
          else if starts_with (js "true") (c :: s') then Some (VBool true, drop 4 (c :: s'))
          else if starts_with (js "false") (c :: s') then Some (VBool false, drop 5 (c :: s'))
          else if starts_with (js "null") (c :: s') then Some (VNull, drop 4 (c :: s'))
          else None
      end
  end
with text_elements (fuel : nat) (s : jsstr) {struct fuel} : option (list JsonValue * jsstr) :=
  match fuel with
  | O => None
  | S fuel =>
      '(v, r) ← text_value fuel s;
      match skip_ws r with
      | 44 :: r' => '(l, r'') ← text_elements fuel r'; Some (v :: l, r'')
      | 93 :: r' => Some ([v], r')
      | _ => None
      end
  end
with text_members (fuel : nat) (s : jsstr) (acc : json_object) {struct fuel} :
    option (json_object * jsstr) :=
  match fuel with
  | O => None
  | S fuel =>
      match skip_ws s with
      | 34 :: s' =>
          '(k, r) ← parse_string (length s) s';
          match skip_ws r with
          | 58 :: r' =>
              '(v, r'') ← text_value fuel r';
              let acc' := set_field acc k v in
              match skip_ws r'' with
              | 44 :: r3 => text_members fuel r3 acc'
              | 125 :: r3 => Some (acc', r3)
              | _ => None
              end
          | _ => None
          end
      | _ => None
      end
  end.

(** [JSON.parse(s)]; [None] is the thrown [SyntaxError]. *)
Definition parse_text (s : jsstr) : option JsonValue :=
  '(v, r) ← text_value (S (2 * length s)) s;
  match skip_ws r with [] => Some v | _ => None end.

(** One allocation after the other. *)
Section thread.
Context {A B : Type}.
Variable f : A → nat → heap → B * nat * heap.

Fixpoint thread (l : list A) (next : nat) (H : heap) : list B * nat * heap :=
  match l with
  | [] => ([], next, H)
  | a :: l =>
      let '(b, next, H) := f a next H in
      let '(bs, next, H) := thread l next H in
      (b :: bs, next, H)
  end.
End thread.

(** The fresh containers of a tree, from location [next] on. *)
Fixpoint alloc (j : JsonValue) (next : nat) (H : heap) : value * nat * heap :=
  match j with
  | VNull => (UNull, next, H)
  | VBool b => (UBool b, next, H)
  | VNumber x => (UNumber x, next, H)
  | VString s => (UString s, next, H)
  | VArray l =>
      let '(vs, next, H) := thread alloc l next H in
      (URef next, S next, <[next := OArray (map Some vs)]> H)
  | VObject fs =>
      let '(vs, next, H) := thread (λ kv, alloc kv.2) fs next H in
      (URef next, S next, <[next := OObject true (zip (field_keys fs) vs)]> H)
  end.

(** * Shared checks *)

Definition frame_error (orient : option ResolvedOrient) (m : Message) (path : jsstr) (row : option nat)
    (column : option jsstr) (v : option JsonValue) : JsonFrameError :=
  ValidationError m (mkContext orient (Some path) row column (Some (summarize_opt v))).

Definition root : jsstr := js "$".

Definition assertSupportedIndexLabel (v : JsonValue) (orient : ResolvedOrient) (path : jsstr) :
    frame_result IndexLabel :=
  match v with
  | VString s => Ok (LString s)
  | VNumber x =>
      if is_finite (num_value x) then Ok (LNumber x)
      else Err (frame_error (Some orient) LabelsMustBeStringsOrNumbers path None None (Some v))
  | _ => Err (frame_error (Some orient) LabelsMustBeStringsOrNumbers path None None (Some v))
  end.

(** The loop of [assertUniqueStringColumns] from position [i]. *)
Fixpoint unique_columns (orient : ResolvedOrient) (path : jsstr) (i : nat) (seen : list jsstr)
    (values : list JsonValue) : frame_result (list jsstr) :=
  match values with
  | [] => Ok seen
  | v :: values =>
      match v with
      | VString s =>
          if bool_decide (s ∈ seen)
          then Err (frame_error (Some orient) ColumnNotUnique (appendIndexPath path i) None (Some s) (Some v))
          else unique_columns orient path (S i) (seen ++ [s]) values
      | _ => Err (frame_error (Some orient) ColumnNotString (appendIndexPath path i) None None (Some v))
      end
  end.
Definition assertUniqueStringColumns (values : list JsonValue) (orient : ResolvedOrient) (path : jsstr) :
    frame_result (list jsstr) :=
  unique_columns orient path 0 [] values.

Definition initializeData (columns : list jsstr) : jsmap (list JsonValue) :=
  foldl (λ m c, map_set m c []) [] columns.

(** [data.get(c)!.push(v)]; the declared columns are present. *)
Definition map_push (m : jsmap (list JsonValue)) (c : jsstr) (v : JsonValue) : jsmap (list JsonValue) :=
  match map_get m c with Some vs => map_set m c (vs ++ [v]) | None => m end.

(** The copy of the declared columns. *)
Fixpoint finalize_data (orient : ResolvedOrient) (data acc : jsmap (list JsonValue)) (columns : list jsstr) :
    frame_result (jsmap (list JsonValue)) :=
  match columns with
  | [] => Ok acc
  | c :: columns =>
      match map_get data c with
      | None => Err (ValidationError ParsedColumnMissing (mkContext (Some orient) None None (Some c) None))
      | Some vs => finalize_data orient data (map_set acc c vs) columns
      end
  end.

Definition finalizeFrame (orient : ResolvedOrient) (columns : list jsstr) (index : list IndexLabel)
    (kind : IndexKind) (data : jsmap (list JsonValue)) (schema : option TableSchema)
    (indexField : option jsstr) : frame_result ParsedFrame :=
  let* finalized := finalize_data orient data [] columns in
  Ok (mkParsed orient columns index kind finalized schema indexField).

(** * Detection *)

Definition is_json_array (v : JsonValue) : bool := match v with VArray _ => true | _ => false end.
Definition isPlainObject (v : JsonValue) : bool := match v with VObject _ => true | _ => false end.
Definition field_is (p : JsonValue → bool) (fs : json_object) (k : jsstr) : bool :=
  match field_lookup fs k with Some v => p v | None => false end.

Definition detectOrient (v : JsonValue) : frame_result ResolvedOrient :=
  match v with
  | VArray [] => Err (AmbiguousOrientError [Records; Values])
  | VArray l =>
      if forallb is_json_array l then Ok Values
      else if forallb isPlainObject l then Ok Records
      else Err (frame_error None AutoNeedsRows root None None (Some v))
  | VObject fs =>
      if field_is isPlainObject fs (js "schema") && field_is is_json_array fs (js "data") then Ok Table
      else if field_is is_json_array fs (js "columns") && field_is is_json_array fs (js "data")
              && match field_lookup fs (js "index") with None => true | Some i => is_json_array i end
      then Ok Split
      else if forallb (λ kv, isPlainObject kv.2) fs then Err (AmbiguousOrientError [Index; Columns])
      else Err (frame_error None AutoUnresolved root None None (Some v))
  | _ => Err (frame_error None AutoNeedsContainer root None None (Some v))
  end.

(** * Records and index *)

(** The columns known so far, with their data. *)
Record Rows := mkRows { rw_columns : list jsstr; rw_data : jsmap (list JsonValue) }.

(** A column first seen in row [rowIndex] is [null] in the rows before it. *)
Definition add_column (rowIndex : nat) (st : Rows) (column : jsstr) : Rows :=
  if bool_decide (column ∈ rw_columns st) then st
  else mkRows (rw_columns st ++ [column]) (map_set (rw_data st) column (repeat VNull rowIndex)).

Definition add_row (rowIndex : nat) (row : json_object) (st : Rows) : Rows :=
  let st := foldl (add_column rowIndex) st (field_keys row) in
  mkRows (rw_columns st)
    (foldl (λ m c, map_push m c (default VNull (field_lookup row c))) (rw_data st) (rw_columns st)).

Fixpoint record_rows (rowIndex : nat) (rows : list JsonValue) (st : Rows) : frame_result Rows :=
  match rows with
  | [] => Ok st
  | VObject row :: rows => record_rows (S rowIndex) rows (add_row rowIndex row st)
  | v :: _ => Err (frame_error (Some Records) RecordsRow (appendIndexPath root rowIndex) (Some rowIndex) None (Some v))
  end.

(** [0 .. n-1] *)
Definition synthetic_index (n : nat) : list IndexLabel :=
  map (λ i, LNumber (number_of_Z (Z.of_nat i))) (seq 0 n).

Definition parseRecords (v : JsonValue) : frame_result ParsedFrame :=
  match v with
  | VArray rows =>
      let* st := record_rows 0 rows (mkRows [] []) in
      finalizeFrame Records (rw_columns st) (synthetic_index (length rows)) Synthetic (rw_data st) None None
  | _ => Err (frame_error (Some Records) RecordsNotArray root None None (Some v))
  end.

Fixpoint index_rows (rowIndex : nat) (fs : json_object) (st : Rows) : frame_result Rows :=
  match fs with
  | [] => Ok st
  | (_, VObject row) :: fs => index_rows (S rowIndex) fs (add_row rowIndex row st)
  | (label, v) :: _ =>
      Err (frame_error (Some Index) IndexRow (appendPropertyPath root label) (Some rowIndex) None (Some v))
  end.

Definition parseIndex (v : JsonValue) : frame_result ParsedFrame :=
  match v with
  | VObject fs =>
      let* st := index_rows 0 fs (mkRows [] []) in
      finalizeFrame Index (rw_columns st) (map LString (field_keys fs)) Source (rw_data st) None None
  | _ => Err (frame_error (Some Index) IndexNotObject root None None (Some v))
  end.

(** * Columns *)

Fixpoint column_entries (index : option (list jsstr)) (data : jsmap (list JsonValue)) (fs : json_object) :
    frame_result (option (list jsstr) * jsmap (list JsonValue)) :=
  match fs with
  | [] => Ok (index, data)
  | (column, v) :: fs =>
      let path := appendPropertyPath root column in
      match v with
      | VObject cells =>
          let keys := field_keys cells in
          let* index :=
            match index with
            | None => Ok keys
            | Some index =>
                if bool_decide (keys = index) then Ok index
                else Err (frame_error (Some Columns) ColumnsKeysDiffer path None (Some column) (Some v))
            end in
          column_entries (Some index) (map_set data column (map snd cells)) fs
      | _ => Err (frame_error (Some Columns) ColumnsEntry path None (Some column) (Some v))
      end
  end.

Definition parseColumns (v : JsonValue) : frame_result ParsedFrame :=
  match v with
  | VObject fs =>
      let* (index, data) := column_entries None [] fs in
      finalizeFrame Columns (field_keys fs) (map LString (default [] index)) Source data None None
  | _ => Err (frame_error (Some Columns) ColumnsNotObject root None None (Some v))
  end.

(** * Values and split *)

(** One row's cells pushed on their columns. *)
Definition push_cells (columns : list jsstr) (row : list JsonValue) (data : jsmap (list JsonValue)) :
    jsmap (list JsonValue) :=
  foldl (λ m cv, map_push m cv.1 cv.2) data (zip columns row).

(** The rows of [values] and of [split.data], whose errors differ. *)
Fixpoint array_rows (orient : ResolvedOrient) (notRow badWidth : Message) (path : jsstr) (columns : list jsstr)
    (rowIndex : nat) (rows : list JsonValue) (data : jsmap (list JsonValue)) :
    frame_result (jsmap (list JsonValue)) :=
  match rows with
  | [] => Ok data
  | v :: rows =>
      match v with
      | VArray row =>
          guard (length row =? length columns)%nat
            (frame_error (Some orient) badWidth (appendIndexPath path rowIndex) (Some rowIndex) None (Some v)) ;;;
          array_rows orient notRow badWidth path columns (S rowIndex) rows (push_cells columns row data)
      | _ => Err (frame_error (Some orient) notRow (appendIndexPath path rowIndex) (Some rowIndex) None (Some v))
      end
  end.

Definition parseValues (v : JsonValue) (options : NormalizedFromOrientOptions) : frame_result ParsedFrame :=
  match op_columns options with
  | None => Err (OptionError ValuesNeedColumns (js "columns") DUndefined)
  | Some columns =>
      match v with
      | VArray rows =>
          let* data := array_rows Values ValuesRow ValuesWidth root columns 0 rows (initializeData columns) in
          finalizeFrame Values columns (synthetic_index (length rows)) Synthetic data None None
      | _ => Err (frame_error (Some Values) ValuesNotArray root None None (Some v))
      end
  end.

Definition data_path : jsstr := js "$.data".
Definition index_path : jsstr := js "$.index".

Definition split_index (items : list JsonValue) : frame_result (list IndexLabel) :=
  res_mapM (λ iv, assertSupportedIndexLabel iv.2 Split (appendIndexPath index_path iv.1))
    (zip (seq 0 (length items)) items).

Definition parseSplit (v : JsonValue) : frame_result ParsedFrame :=
  match v with
  | VObject fs =>
      match field_lookup fs (js "columns") with
      | Some (VArray columnValues) =>
          match field_lookup fs (js "data") with
          | Some (VArray rows) =>
              let* columns := assertUniqueStringColumns columnValues Split (js "$.columns") in
              let* labels :=
                match field_lookup fs (js "index") with
                | None => Ok None
                | Some (VArray items) => res_map Some (split_index items)
                | Some i => Err (frame_error (Some Split) SplitIndex index_path None None (Some i))
                end in
              guard (match labels with Some index => (length index =? length rows)%nat | None => true end)
                (frame_error (Some Split) SplitIndexLength index_path None None (field_lookup fs (js "index"))) ;;;
              let* data := array_rows Split SplitRow SplitWidth data_path columns 0 rows (initializeData columns) in
              finalizeFrame Split columns (default (synthetic_index (length rows)) labels)
                (match labels with Some _ => Source | None => Synthetic end) data None None
          | d => Err (frame_error (Some Split) SplitData data_path None None d)
          end
      | c => Err (frame_error (Some Split) SplitColumns (js "$.columns") None None c)
      end
  | _ => Err (frame_error (Some Split) SplitNotObject root None None (Some v))
  end.
