(* ===== verification/FrameSchema.v ===== *)
(** json-frame, parse/parse.ts: the [table] layout with its Table Schema, and the
    dispatch of an input to its layout. *)

From S2P Require Import Prelude JsValue JsJson JsMap FrameValue FrameTraverse FrameOptions FrameParse.

(** * Table Schema *)

Definition schema_error (m : Message) (path : jsstr) (v : option JsonValue) : JsonFrameError :=
  frame_error (Some Table) m path None None v.

(** An object filled key by key. *)
Definition put_all (fs : json_object) : json_object := foldl (λ acc kv, set_field acc kv.1 kv.2) [] fs.

Definition clone_enum (path : jsstr) (items : list JsonValue) : frame_result (list JsonValue) :=
  res_mapM (λ iv,
      match iv.2 with
      | VNull | VString _ | VBool _ => Ok iv.2
      | VNumber x => guard (is_finite (num_value x)) (schema_error EnumNotScalar (appendIndexPath path iv.1) (Some iv.2)) ;;;
                     Ok iv.2
      | _ => Err (schema_error EnumNotScalar (appendIndexPath path iv.1) (Some iv.2))
      end)
    (zip (seq 0 (length items)) items).

Definition cloneConstraints (v : JsonValue) (path : jsstr) : frame_result JsonValue :=
  match v with
  | VObject fs =>
      let* entries := res_mapM (λ kv,
          if jsstr_eqb kv.1 (js "enum") then
            match kv.2 with
            | VArray items => let* cloned := clone_enum (appendPropertyPath path kv.1) items in
                              Ok (kv.1, VArray cloned)
            | e => Err (schema_error EnumNotArray (appendPropertyPath path kv.1) (Some e))
            end
          else Ok kv) fs in
      Ok (VObject (put_all entries))
  | _ => Err (schema_error ConstraintsNotObject path (Some v))
  end.

Definition is_string (v : JsonValue) : bool := match v with VString _ => true | _ => false end.
Definition is_boolean (v : JsonValue) : bool := match v with VBool _ => true | _ => false end.
(** [v === undefined || p(v)] *)
Definition absent_or (p : JsonValue → bool) (v : option JsonValue) : bool :=
  match v with None => true | Some v => p v end.

Definition string_keys : list jsstr := [js "format"; js "extDtype"; js "tz"; js "freq"].

Definition cloneTableField (v : JsonValue) (i : nat) : frame_result TableSchemaField :=
  let path := appendIndexPath (js "$.schema.fields") i in
  match v with
  | VObject fs =>
      let at_key k := appendPropertyPath path k in
      guard (field_is is_string fs (js "name"))
        (schema_error FieldNameNotString (at_key (js "name")) (field_lookup fs (js "name"))) ;;;
      guard (field_is is_string fs (js "type"))
        (schema_error FieldTypeNotString (at_key (js "type")) (field_lookup fs (js "type"))) ;;;
      guard (absent_or is_boolean (field_lookup fs (js "ordered")))
        (schema_error FieldOrderedNotBoolean (at_key (js "ordered")) (field_lookup fs (js "ordered"))) ;;;
      res_iter (λ key, guard (absent_or is_string (field_lookup fs key))
        (schema_error (FieldKeyNotString key) (at_key key) (field_lookup fs key))) string_keys ;;;
      let* entries := res_mapM (λ kv,
          if jsstr_eqb kv.1 (js "constraints")
          then let* c := cloneConstraints kv.2 (at_key kv.1) in Ok (kv.1, c)
          else Ok kv) fs in
      Ok (put_all entries)
  | _ => Err (schema_error FieldNotObject path (Some v))
  end.

Definition string_of (v : option JsonValue) : jsstr := match v with Some (VString s) => s | _ => [] end.
(** [field.name], a string in a cloned field. *)
Definition field_name (f : TableSchemaField) : jsstr := string_of (field_lookup f (js "name")).

Fixpoint unique_field_names (seen : list jsstr) (fields : list TableSchemaField) : frame_result unit :=
  match fields with
  | [] => Ok tt
  | f :: fields =>
      let name := field_name f in
      if bool_decide (name ∈ seen) then
        Err (frame_error (Some Table) FieldNameNotUnique (js "$.schema.fields") None (Some name) (Some (VString name)))
      else unique_field_names (name :: seen) fields
  end.

Definition primary_path : jsstr := js "$.schema.primaryKey".

Definition clone_primary_key (v : option JsonValue) : frame_result (option (list jsstr)) :=
  match v with
  | None => Ok None
  | Some (VArray items) =>
      res_map Some (res_mapM (λ iv,
          match iv.2 with
          | VString s => Ok s
          | _ => Err (schema_error PrimaryKeyEntry (appendIndexPath primary_path iv.1) (Some iv.2))
          end) (zip (seq 0 (length items)) items))
  | Some v => Err (schema_error PrimaryKeyNotArray primary_path (Some v))
  end.

Definition fields_value (fields : list TableSchemaField) : JsonValue := VArray (map VObject fields).
Definition names_value (names : list jsstr) : JsonValue := VArray (map VString names).

(** The schema, its fields and its primary key. *)
Definition cloneTableSchema (v : option JsonValue) :
    frame_result (TableSchema * list TableSchemaField * option (list jsstr)) :=
  match v with
  | Some (VObject fs) =>
      match field_lookup fs (js "fields") with
      | Some (VArray items) =>
          let* fields := res_mapM (λ iv, cloneTableField iv.2 iv.1) (zip (seq 0 (length items)) items) in
          unique_field_names [] fields ;;;
          let* primaryKey := clone_primary_key (field_lookup fs (js "primaryKey")) in
          guard (match primaryKey with Some pk => (length pk <=? 1)%nat | None => true end)
            (UnsupportedFeatureError MultiIndex (js "multi-index")
              (mkContext (Some Table) (Some primary_path) None None
                (Some (summarize_json (names_value (default [] primaryKey)))))) ;;;
          guard (absent_or is_string (field_lookup fs (js "pandas_version")))
            (schema_error PandasVersion (js "$.schema.pandas_version") (field_lookup fs (js "pandas_version"))) ;;;
          let entry kv :=
            if jsstr_eqb kv.1 (js "fields") then (kv.1, fields_value fields)
            else if jsstr_eqb kv.1 (js "primaryKey") then (kv.1, names_value (default [] primaryKey))
            else kv in
          Ok (put_all (map entry fs), fields, primaryKey)
      | v => Err (schema_error FieldsNotArray (js "$.schema.fields") v)
      end
  | v => Err (schema_error SchemaNotObject (js "$.schema") v)
  end.

(** * Rows *)

Section rows.
Variables (fieldNames columns : list jsstr) (primaryKey : option jsstr).

(** The label of a row; [seen] are the labels before it. *)
Definition row_label (rowIndex : nat) (path : jsstr) (row : json_object) (seen : list IndexLabel) :
    frame_result IndexLabel :=
  match primaryKey with
  | None => Ok (LNumber (number_of_Z (Z.of_nat rowIndex)))
  | Some pk =>
      match field_lookup row pk with
      | None => Err (frame_error (Some Table) TableMissingKey path (Some rowIndex) (Some pk) (Some (VObject row)))
      | Some v =>
          let keyPath := appendPropertyPath path pk in
          let* label := assertSupportedIndexLabel v Table keyPath in
          if existsb (label_same label) seen then
            Err (frame_error (Some Table) PrimaryKeyNotUnique keyPath (Some rowIndex) (Some pk)
              (Some (label_value label)))
          else Ok label
      end
  end.

Fixpoint table_rows (rowIndex : nat) (rows : list JsonValue) (index : list IndexLabel)
    (data : jsmap (list JsonValue)) : frame_result (list IndexLabel * jsmap (list JsonValue)) :=
  match rows with
  | [] => Ok (index, data)
  | v :: rows =>
      let path := appendIndexPath data_path rowIndex in
      match v with
      | VObject row =>
          res_iter (λ kv, guard (bool_decide (kv.1 ∈ fieldNames))
            (frame_error (Some Table) TableUnknownField (appendPropertyPath path kv.1) (Some rowIndex)
              (Some kv.1) (Some kv.2))) row ;;;
          let* label := row_label rowIndex path row index in
          table_rows (S rowIndex) rows (index ++ [label])
            (foldl (λ m c, map_push m c (default VNull (field_lookup row c))) data columns)
      | _ => Err (frame_error (Some Table) TableRow path (Some rowIndex) None (Some v))
      end
  end.
End rows.

Definition parseTable (v : JsonValue) : frame_result ParsedFrame :=
  match v with
  | VObject fs =>
      let* (schema, fields, primaryKeys) := cloneTableSchema (field_lookup fs (js "schema")) in
      match field_lookup fs (js "data") with
      | Some (VArray rows) =>
          let names := map field_name fields in
          let primaryKey := primaryKeys ≫= head in
          match primaryKey with
          | Some pk => guard (bool_decide (pk ∈ names))
              (frame_error (Some Table) PrimaryKeyUndeclared primary_path None (Some pk)
                (Some (names_value (default [] primaryKeys))))
          | None => Ok tt
          end ;;;
          let columns := filter (λ n, Some n ≠ primaryKey) names in
          let* (index, data) := table_rows names columns primaryKey 0 rows [] (initializeData columns) in
          finalizeFrame Table columns index
            (match primaryKey with None => Synthetic | Some _ => Source end) data (Some schema) primaryKey
      | d => Err (frame_error (Some Table) TableData data_path None None d)
      end
  | _ => Err (frame_error (Some Table) TableNotObject root None None (Some v))
  end.

(** * Dispatch *)

Definition parse_orient (orient : ResolvedOrient) (v : JsonValue) (options : NormalizedFromOrientOptions) :
    frame_result ParsedFrame :=
  match orient with
  | Records => parseRecords v
  | Index => parseIndex v
  | Columns => parseColumns v
  | Values => parseValues v options
  | Split => parseSplit v
  | Table => parseTable v
  end.

(** What is traversed: the parsed text of a string, or the caller's value. *)
Definition input_value (H : heap) (input : value) : frame_result (heap * value) :=
  match input with
  | UString s =>
      match parse_text s with
      | None => Err ParseError
      | Some j => let '(v, _, H) := alloc j 0 ∅ in Ok (H, v)
      end
  | _ => Ok (H, input)
  end.

Definition parseInput (H : heap) (input : value) (options : NormalizedFromOrientOptions) :
    frame_result ParsedFrame :=
  let* (H, v) := input_value H input in
  let orient := match op_orient options with Auto => None | Resolved o => Some o end in
  let* j := answer (cloneJsonCompatible H orient (op_maxNodes options) v root) in
  let* o := match orient with None => detectOrient j | Some o => Ok o end in
  parse_orient o j options.

Example parse_records_text :
  res_map (λ f, (pf_columns f, pf_data f))
    (parseInput ∅ (UString (js "[{'a':1},{'b':-0,'a':2.5}]" ≫= λ c, [if c =? 39 then 34 else c]))
      (mkOptions Auto 256 None None (Some 6))) =
  Ok ([js "a"; js "b"],
    [(js "a", [VNumber (number_of_Z 1); VNumber (Num (Fin (5 # 2)))]);
     (js "b", [VNull; VNumber NegZero])]).
Proof. vm_compute. reflexivity. Qed.
