(* ===== verification/FrameColumn.v ===== *)
(** json-frame, frame/column.ts: logical column types, packed storage, and the state
    of a frame.

    An integer column without nulls and without a negative zero is packed as 32-bit
    integers, a float column as doubles; reading a packed column gives the cells
    back ([stored_packed]).  The operation counters are not modelled. *)

From S2P Require Import Prelude JsValue JsJson JsMap FrameValue FrameTraverse FrameOptions FrameParse FrameSchema.

Definition INT32_MIN : Z := -2147483648.
Definition INT32_MAX : Z := 2147483647.

Record ColumnInfo := mkInfo { ci_type : ColumnType; ci_nullable : bool }.

Inductive StoredColumn :=
  | SPlain (cells : list JsonValue)
  | SInt32 (cells : list Z)
  | SFloat64 (cells : list number).

Record FrameState := mkState {
  fs_columns : list jsstr;
  fs_index : list IndexLabel;
  fs_indexKind : IndexKind;
  fs_data : jsmap StoredColumn;
  fs_columnInfo : jsmap ColumnInfo;
  fs_tableSchema : option TableSchema;
  fs_tableIndexField : option jsstr
}.

(** * Logical types *)

Definition hasCategoricalMetadata (field : TableSchemaField) : bool :=
  match field_lookup field (js "constraints") with
  | Some (VObject c) => match field_lookup c (js "enum") with Some _ => true | None => false end
  | _ => false
  end
  || match field_lookup field (js "ordered") with Some (VBool true) => true | _ => false end
  || match field_lookup field (js "extDtype") with Some (VString s) => jsstr_eqb s (js "category") | _ => false end.

Definition SCHEMA_TYPES : list (jsstr * ColumnType) :=
  [(js "boolean", TBoolean); (js "integer", TInteger); (js "year", TInteger); (js "number", TFloat);
   (js "date", TDatetime); (js "datetime", TDatetime); (js "string", TString); (js "any", TUnknown)].

Definition mapTableSchemaFieldType (field : TableSchemaField) : ColumnType :=
  if hasCategoricalMetadata field then TCategorical
  else default TUnknown (map_get SCHEMA_TYPES (string_of (field_lookup field (js "type")))).

(** What the scan of a column saw. *)
Record Seen := mkSeen {
  sn_nullable : bool; sn_boolean : bool; sn_string : bool;
  sn_integer : bool; sn_float : bool; sn_structured : bool
}.

Definition see (s : Seen) (v : JsonValue) : Seen :=
  let '(mkSeen n b st i f c) := s in
  match v with
  | VNull => mkSeen true b st i f c
  | VBool _ => mkSeen n true st i f c
  | VString _ => mkSeen n b true i f c
  | VNumber x => if isInteger x then mkSeen n b st true f c else mkSeen n b st i true c
  | VArray _ | VObject _ => mkSeen n b st i f true
  end.

Definition scan (values : list JsonValue) : Seen :=
  foldl see (mkSeen false false false false false false) values.

Definition inferColumnType (values : list JsonValue) : ColumnInfo :=
  let s := scan values in
  let kinds := length (filter (λ b, b = true)
    [sn_boolean s; sn_string s; sn_integer s || sn_float s; sn_structured s]) in
  let type :=
    if (kinds =? 0)%nat then TUnknown
    else if sn_structured s || (1 <? kinds)%nat
            || (sn_boolean s && (sn_string s || sn_integer s || sn_float s)) then TMixed
    else if sn_string s then TString
    else if sn_boolean s then TBoolean
    else if sn_float s then TFloat
    else TInteger in
  mkInfo type (sn_nullable s).

(** * Timezone-naive ISO datetimes *)

(** [n] digits, with their value, and the rest. *)
Definition fixed_digits (n : nat) (s : jsstr) : option (Z * jsstr) :=
  let ds := take n s in
  if (length ds =? n)%nat && all_units is_digit ds then Some (digits_value ds, drop n s) else None.
Definition expect (c : Z) (s : jsstr) : option jsstr :=
  match s with d :: s => if c =? d then Some s else None | [] => None end.

(** [(?:\.\d{1,9})?$] *)
Definition fraction_end (s : jsstr) : bool :=
  match s with
  | [] => true
  | c :: ds => (c =? 46) && (1 <=? length ds)%nat && (length ds <=? 9)%nat && all_units is_digit ds
  end.

(** [DATETIME_PATTERN.exec(s)]: year, month, day, hour, minute, second. *)
Definition match_datetime (s : jsstr) : option (Z * Z * Z * Z * Z * Z) :=
  '(year, s) ← fixed_digits 4 s; s ← expect 45 s;
  '(month, s) ← fixed_digits 2 s; s ← expect 45 s;
  '(day, s) ← fixed_digits 2 s;
  match s with
  | [] => Some (year, month, day, 0, 0, 0)
  | c :: s =>
      if (c =? 84) || (c =? 32) then
        '(hour, s) ← fixed_digits 2 s; s ← expect 58 s;
        '(minute, s) ← fixed_digits 2 s; s ← expect 58 s;
        '(second, s) ← fixed_digits 2 s;
        if fraction_end s then Some (year, month, day, hour, minute, second) else None
      else None
  end.

Definition DAYS_IN_MONTH : list Z := [31; 28; 31; 30; 31; 30; 31; 31; 30; 31; 30; 31].

Definition leap_year (year : Z) : bool :=
  (year mod 4 =? 0) && (negb (year mod 100 =? 0) || (year mod 400 =? 0)).

Definition isPandasNaiveIsoDatetime (s : jsstr) : bool :=
  match match_datetime s with
  | None => false
  | Some (year, month, day, hour, minute, second) =>
      if (month <? 1) || (12 <? month) || (23 <? hour) || (59 <? minute) || (59 <? second) then false
      else
        let daysInMonth := if (month =? 2) && leap_year year then 29
                           else default 0 (DAYS_IN_MONTH !! Z.to_nat (month - 1)) in
        (1 <=? day) && (day <=? daysInMonth)
  end.

(** * Compatibility of cells *)

Definition isColumnValueCompatible (type : ColumnType) (v : JsonValue) : bool :=
  match v with
  | VNull => true
  | _ =>
      match type, v with
      | TInteger, VNumber x => isInteger x
      | TFloat, VNumber _ => true
      | TString, VString _ => true
      | TBoolean, VBool _ => true
      | TDatetime, VString s => isPandasNaiveIsoDatetime s
      | TCategorical, (VString _ | VNumber _ | VBool _) => true
      | (TMixed | TUnknown), _ => true
      | _, _ => false
      end
  end.

Definition bracket (s : jsstr) : jsstr := 91 :: s ++ [93].

Definition getColumnCellPath (orient : option ResolvedOrient) (column : jsstr) (columnIndex rowIndex : nat)
    (rowLabel : option IndexLabel) : jsstr :=
  let label := bracket (json_quote (match rowLabel with Some l => label_string l | None => js "undefined" end)) in
  let quoted := bracket (json_quote column) in
  match orient with
  | Some Records => root ++ index_segment rowIndex ++ quoted
  | Some Values => root ++ index_segment rowIndex ++ index_segment columnIndex
  | Some Split => data_path ++ index_segment rowIndex ++ index_segment columnIndex
  | Some Index => root ++ label ++ quoted
  | Some Columns => root ++ quoted ++ label
  | Some Table | None => data_path ++ index_segment rowIndex ++ quoted
  end.

Definition incompatible_cell (orient : option ResolvedOrient) (column : jsstr) (columnIndex : nat)
    (index : list IndexLabel) (rowIndex : nat) (v : JsonValue) : JsonFrameError :=
  frame_error orient IncompatibleCells (getColumnCellPath orient column columnIndex rowIndex (index !! rowIndex))
    (Some rowIndex) (Some column) (Some v).

Definition validateColumnValuesForType (orient : option ResolvedOrient) (column : jsstr) (columnIndex : nat)
    (values : list JsonValue) (type : ColumnType) (index : list IndexLabel) : frame_result unit :=
  res_iter (λ iv, guard (isColumnValueCompatible type iv.2)
      (incompatible_cell orient column columnIndex index iv.1 iv.2))
    (zip (seq 0 (length values)) values).

(** * Storage *)

(** The [ToInt32] of an assignment to an [Int32Array]. *)
Definition to_int32 (x : number) : Z :=
  match num_value x with
  | Fin q => (Z.quot (Qnum q) (Zpos (Qden q)) + 2 ^ 31) mod 2 ^ 32 - 2 ^ 31
  | _ => 0
  end.

Definition int32_eligible (v : JsonValue) : bool :=
  match v with
  | VNumber x =>
      match number_integer x with
      | Some z => (INT32_MIN <=? z) && (z <=? INT32_MAX) && match x with NegZero => false | _ => true end
      | None => false
      end
  | _ => false
  end.

Definition the_number (v : JsonValue) : number := match v with VNumber x => x | _ => Num NaN end.
Definition is_number (v : JsonValue) : bool := match v with VNumber _ => true | _ => false end.

(** A cell that is no number, or no eligible integer, leaves the column unpacked. *)
Definition packColumn (values : list JsonValue) (info : ColumnInfo) (packThreshold : Z) : StoredColumn :=
  if (packThreshold =? 0) || (Z.of_nat (length values) <? packThreshold) || ci_nullable info then SPlain values
  else
    match ci_type info with
    | TInteger =>
        if forallb int32_eligible values then SInt32 (map (λ v, to_int32 (the_number v)) values) else SPlain values
    | TFloat =>
        if forallb is_number values then SFloat64 (map the_number values) else SPlain values
    | _ => SPlain values
    end.

(** [materializeColumn] *)
Definition stored_values (c : StoredColumn) : list JsonValue :=
  match c with
  | SPlain cells => cells
  | SInt32 cells => map (λ z, VNumber (number_of_Z z)) cells
  | SFloat64 cells => map VNumber cells
  end.

(** Positions are below the length of the column ([frame_ok]). *)
Definition getStoredColumnValue (c : StoredColumn) (position : nat) : JsonValue :=
  match c with
  | SPlain cells => default VNull (cells !! position)
  | SInt32 cells => default VNull ((λ z, VNumber (number_of_Z z)) <$> cells !! position)
  | SFloat64 cells => default VNull (VNumber <$> cells !! position)
  end.

Definition rebuildStoredColumn (c : StoredColumn) (positions : list nat) : list JsonValue :=
  map (getStoredColumnValue c) positions.

Definition hasNullValue (values : list JsonValue) : bool :=
  existsb (λ v, match v with VNull => true | _ => false end) values.

(** * Frame states *)

Definition validateExplicitColumnTypes (columns : list jsstr) (types : option (list (jsstr * ColumnType))) :
    frame_result unit :=
  match types with
  | None => Ok tt
  | Some types =>
      res_iter (λ kt, guard (bool_decide (kt.1 ∈ columns))
        (OptionError ColumnTypeUnknownColumn (js "columnTypes." ++ kt.1)
          (DString (from_option fst [] (find (λ nt, bool_decide (nt.2 = kt.2)) COLUMN_TYPES))))) types
  end.

(** The entries of [tableSchema.fields]. *)
Definition schema_fields (schema : TableSchema) : list TableSchemaField :=
  match field_lookup schema (js "fields") with
  | Some (VArray items) => omap (λ v, match v with VObject f => Some f | _ => None end) items
  | _ => []
  end.

Definition resolveSchemaTypeByColumn (columns : list jsstr) (schema : option TableSchema) : jsmap ColumnType :=
  match schema with
  | None => []
  | Some schema =>
      foldl (λ m f, if bool_decide (field_name f ∈ columns)
                    then map_set m (field_name f) (mapTableSchemaFieldType f) else m) [] (schema_fields schema)
  end.

(** One column: its declared, explicit or inferred type, checked and packed. *)
Definition build_column (orient : option ResolvedOrient) (index : list IndexLabel) (schemaTypes : jsmap ColumnType)
    (types : option (list (jsstr * ColumnType))) (packThreshold : Z) (column : jsstr) (columnIndex : nat)
    (values : list JsonValue) : frame_result (ColumnInfo * StoredColumn) :=
  let inferred := inferColumnType values in
  let explicit := types ≫= λ types, field_lookup types column in
  let resolved := match map_get schemaTypes column with
                  | Some t => t
                  | None => default (ci_type inferred) explicit
                  end in
  match map_get schemaTypes column, explicit with
  | None, Some _ => validateColumnValuesForType orient column columnIndex values resolved index
  | _, _ => Ok tt
  end ;;;
  let info := mkInfo resolved (ci_nullable inferred) in
  Ok (info, packColumn values info packThreshold).

Definition buildFrameState (frame : ParsedFrame) (packThreshold : Z)
    (types : option (list (jsstr * ColumnType))) : frame_result FrameState :=
  validateExplicitColumnTypes (pf_columns frame) types ;;;
  let schemaTypes := resolveSchemaTypeByColumn (pf_columns frame) (pf_tableSchema frame) in
  let* built := res_mapM (λ ic,
      match map_get (pf_data frame) ic.2 with
      | None => Err (ValidationError ParsedColumnMissing
                       (mkContext (Some (pf_orient frame)) None None (Some ic.2) None))
      | Some values =>
          let* b := build_column (Some (pf_orient frame)) (pf_index frame) schemaTypes types packThreshold
                      ic.2 ic.1 values in
          Ok (ic.2, b)
      end) (zip (seq 0 (length (pf_columns frame))) (pf_columns frame)) in
  Ok (mkState (pf_columns frame) (pf_index frame) (pf_indexKind frame)
        (foldl (λ m b, map_set m b.1 b.2.2) [] built) (foldl (λ m b, map_set m b.1 b.2.1) [] built)
        (pf_tableSchema frame) (pf_tableIndexField frame)).

Definition createFrameState (frame : ParsedFrame) (options : NormalizedFromOrientOptions) : frame_result FrameState :=
  buildFrameState frame (op_packThreshold options) (op_columnTypes options).

Definition stored_missing (m : Message) (column : jsstr) : JsonFrameError :=
  ValidationError m (mkContext None (Some root) None (Some column) None).

(** The columns of a frame derived from another: types are kept, and so is
    [nullable] where a null is left. *)
Definition createFrameStateFromRebuiltData (columns : list jsstr) (index : list IndexLabel) (kind : IndexKind)
    (data : jsmap (list JsonValue)) (columnInfo : jsmap ColumnInfo) (schema : option TableSchema)
    (indexField : option jsstr) (packThreshold : Z) : frame_result FrameState :=
  let* built := res_mapM (λ c,
      match map_get data c with
      | None => Err (stored_missing RebuiltColumnMissing c)
      | Some values =>
          match map_get columnInfo c with
          | None => Err (stored_missing RebuiltMetadataMissing c)
          | Some source =>
              let info := mkInfo (ci_type source) (ci_nullable source && hasNullValue values) in
              Ok (c, (info, packColumn values info packThreshold))
          end
      end) columns in
  Ok (mkState columns index kind
        (foldl (λ m b, map_set m b.1 b.2.2) [] built) (foldl (λ m b, map_set m b.1 b.2.1) [] built)
        schema indexField).
