(* ===== verification/FrameExport.v ===== *)
(** json-frame, export/payload.ts: from a frame to the six layouts. *)

From S2P Require Import Prelude JsValue JsJson JsMap FrameValue FrameTraverse FrameOptions FrameParse FrameSchema FrameColumn.

(** * Records of a frame *)

(** [createRecord] filled column by column. *)
Definition row_record (columns : list jsstr) (stored : list StoredColumn) (rowIndex : nat) : json_object :=
  put_all (zip columns (map (λ c, getStoredColumnValue c rowIndex) stored)).

Definition getStoredColumn (st : FrameState) (column : jsstr) : frame_result StoredColumn :=
  match map_get (fs_data st) column with
  | Some c => Ok c
  | None => Err (stored_missing StoredColumnMissing column)
  end.

Definition resolveStoredColumns (st : FrameState) : frame_result (list StoredColumn) :=
  res_mapM (getStoredColumn st) (fs_columns st).

Definition row_numbers (st : FrameState) : list nat := seq 0 (length (fs_index st)).

Definition exportRecords (st : FrameState) : frame_result JsonValue :=
  let* stored := resolveStoredColumns st in
  Ok (VArray (map (λ i, VObject (row_record (fs_columns st) stored i)) (row_numbers st))).

(** The loop of [resolveIndexKeys]; [seen] maps a key to its first label. *)
Fixpoint index_keys (orient : ResolvedOrient) (seen : jsmap IndexLabel) (labels : list IndexLabel) :
    frame_result (list jsstr) :=
  match labels with
  | [] => Ok []
  | label :: labels =>
      let key := label_string label in
      match map_get seen key with
      | Some prior => Err (ExportKeyCollisionError orient key [prior; label])
      | None => let* keys := index_keys orient (map_set seen key label) labels in Ok (key :: keys)
      end
  end.
Definition resolveIndexKeys (st : FrameState) (orient : ResolvedOrient) : frame_result (list jsstr) :=
  index_keys orient [] (fs_index st).

Definition exportIndex (st : FrameState) : frame_result JsonValue :=
  let* keys := resolveIndexKeys st Index in
  let* stored := resolveStoredColumns st in
  Ok (VObject (put_all (zip keys (map (λ i, VObject (row_record (fs_columns st) stored i)) (row_numbers st))))).

Definition exportColumns (st : FrameState) : frame_result JsonValue :=
  let* keys := resolveIndexKeys st Columns in
  let* columns := res_mapM (λ column,
      let* stored := getStoredColumn st column in
      Ok (column, VObject (put_all (zip keys (map (getStoredColumnValue stored) (row_numbers st))))))
    (fs_columns st) in
  Ok (VObject (put_all columns)).

Definition value_rows (st : FrameState) : frame_result (list JsonValue) :=
  let* stored := resolveStoredColumns st in
  Ok (map (λ i, VArray (map (λ c, getStoredColumnValue c i) stored)) (row_numbers st)).

Definition exportValues (st : FrameState) : frame_result JsonValue := res_map VArray (value_rows st).

Definition exportSplit (st : FrameState) : frame_result JsonValue :=
  let* rows := value_rows st in
  Ok (VObject [(js "columns", VArray (map VString (fs_columns st)));
               (js "index", VArray (map label_value (fs_index st)));
               (js "data", VArray rows)]).

(** * Table export *)

(** A detached copy of a value of the schema. *)
Definition clone_tree (path : jsstr) (j : JsonValue) : frame_result JsonValue :=
  let '(v, _, H) := alloc j 0 ∅ in answer (cloneJsonCompatible H (Some Table) None v path).

Definition cloneSchemaField (field : TableSchemaField) (name path : jsstr) : frame_result TableSchemaField :=
  res_map put_all
    (res_mapM (λ kv,
        if jsstr_eqb kv.1 (js "name") then Ok (kv.1, VString name)
        else let* j := clone_tree (appendPath path kv.1) kv.2 in Ok (kv.1, j)) field).

Definition field_path (i : nat) : jsstr := js "$.schema.fields" ++ index_segment i.

(** [cloneSchema] of the exporter. *)
Definition export_schema (schema : option TableSchema) (fields : list TableSchemaField)
    (primaryKey : option (list jsstr)) : frame_result JsonValue :=
  let* others := res_mapM (λ kv, let* j := clone_tree (appendPath (js "$.schema") kv.1) kv.2 in Ok (kv.1, j))
    (filter (λ kv, kv.1 ≠ js "fields" ∧ kv.1 ≠ js "primaryKey") (default [] schema)) in
  let* cloned := res_mapM (λ f, cloneSchemaField f.2 (field_name f.2) (field_path f.1))
    (zip (seq 0 (length fields)) fields) in
  let fs := set_field (put_all others) (js "fields") (fields_value cloned) in
  Ok (VObject (match primaryKey with
               | Some pk => set_field fs (js "primaryKey") (names_value pk)
               | None => fs
               end)).

Definition type_name (t : ColumnType) : jsstr :=
  match t with
  | TInteger => js "integer"
  | TFloat => js "number"
  | TString => js "string"
  | TBoolean => js "boolean"
  | TDatetime => js "datetime"
  | TCategorical | TMixed | TUnknown => js "any"
  end.

Definition mapColumnTypeToSchemaField (name : jsstr) (info : ColumnInfo) : TableSchemaField :=
  [(js "name", VString name); (js "type", VString (type_name (ci_type info)))]
  ++ match ci_type info with TCategorical => [(js "extDtype", VString (js "category"))] | _ => [] end.

Definition is_string_label (l : IndexLabel) : bool := match l with LString _ => true | _ => false end.
Definition is_integer_label (l : IndexLabel) : bool :=
  match l with LNumber x => isInteger x | _ => false end.
Definition is_float_label (l : IndexLabel) : bool :=
  match l with LNumber x => negb (isInteger x) | _ => false end.

Definition inferIndexFieldType (index : list IndexLabel) : jsstr :=
  let sawString := existsb is_string_label index in
  let sawInteger := existsb is_integer_label index in
  let sawFloat := existsb is_float_label index in
  if sawString && (sawInteger || sawFloat) then js "any"
  else if sawString then js "string"
  else if sawFloat then js "number"
  else if sawInteger then js "integer"
  else js "string".

Definition find_field (name : jsstr) (fields : list TableSchemaField) : option TableSchemaField :=
  find (λ f, jsstr_eqb (field_name f) name) fields.

(** [new Map(fields.map((f) => [f.name, f])).get(name)]: the last of a name wins. *)
Definition last_field (name : jsstr) (fields : list TableSchemaField) : option TableSchemaField :=
  find_field name (reverse fields).

Definition unique_names (fields : list TableSchemaField) : bool := bool_decide (NoDup (map field_name fields)).

(** The fields are [[index, ...columns]]: the canonical order. *)
Definition canonical_index (st : FrameState) (fields : list TableSchemaField) (indexField : jsstr) :
    option TableSchemaField :=
  match fields with
  | f :: _ => if (length fields =? S (length (fs_columns st)))%nat && jsstr_eqb (field_name f) indexField
              then Some f else None
  | [] => None
  end.

Definition getIndexFieldTemplate (st : FrameState) : option TableSchemaField :=
  match fs_tableSchema st, fs_tableIndexField st with
  | Some schema, Some indexField =>
      let fields := schema_fields schema in
      if unique_names fields then find_field indexField fields
      else match canonical_index st fields indexField with
           | Some f => Some f
           | None => find_field indexField fields
           end
  | _, _ => None
  end.

(** All but the first field of a name. *)
Fixpoint without_field (name : jsstr) (fields : list TableSchemaField) : list TableSchemaField :=
  match fields with
  | [] => []
  | f :: fields => if jsstr_eqb (field_name f) name then fields else f :: without_field name fields
  end.

(** The data fields among fields with duplicate names. *)
Definition data_slice (st : FrameState) (fields : list TableSchemaField) : list TableSchemaField :=
  match fs_tableIndexField st with
  | None => fields
  | Some indexField =>
      match canonical_index st fields indexField with
      | Some _ => tail fields
      | None => without_field indexField fields
      end
  end.

Definition by_column (columns : list jsstr) (fields : list TableSchemaField) : list TableSchemaField :=
  omap (λ c, last_field c fields) columns.

(** Column order by name where every column is named, else by position. *)
Definition aligned (columns : list jsstr) (slice : list TableSchemaField) : list TableSchemaField :=
  let ordered := by_column columns slice in
  if (length ordered =? length columns)%nat then ordered
  else if (length slice =? length columns)%nat then slice
  else ordered.

Definition getDataFieldTemplates (st : FrameState) : list TableSchemaField :=
  match fs_tableSchema st with
  | None => []
  | Some schema =>
      let fields := schema_fields schema in
      if unique_names fields then by_column (fs_columns st) fields
      else aligned (fs_columns st) (data_slice st fields)
  end.

Definition resolveIndexFieldName (st : FrameState) (indexField : option jsstr) : frame_result (option jsstr) :=
  match fs_indexKind st with
  | Synthetic => Ok None
  | Source =>
      let name := default (default (js "index") (fs_tableIndexField st)) indexField in
      if bool_decide (name ∈ fs_columns st) then
        Err (frame_error None IndexFieldCollides (js "$.schema.fields") None (Some name) (Some (VString name)))
      else Ok (Some name)
  end.

Fixpoint unique_index_labels (indexField : jsstr) (rowIndex : nat) (seen labels : list IndexLabel) :
    frame_result unit :=
  match labels with
  | [] => Ok tt
  | label :: labels =>
      if existsb (label_same label) seen then
        Err (frame_error (Some Table) DuplicatePrimaryKey
          (data_path ++ index_segment rowIndex ++ bracket (json_quote indexField)) (Some rowIndex)
          (Some indexField) (Some (label_value label)))
      else unique_index_labels indexField (S rowIndex) (label :: seen) labels
  end.
Definition assertUniqueTableIndexLabels (index : list IndexLabel) (indexField : jsstr) : frame_result unit :=
  unique_index_labels indexField 0 [] index.

(** The schema field of one column, from its template or its logical type. *)
Definition export_field (st : FrameState) (templates : list TableSchemaField) (offset : nat)
    (column : jsstr) (columnIndex : nat) (stored : StoredColumn) : frame_result TableSchemaField :=
  let info := default (mkInfo TUnknown false) (map_get (fs_columnInfo st) column) in
  match templates !! columnIndex with
  | Some template => cloneSchemaField template column (field_path (offset + columnIndex))
  | None =>
      validateColumnValuesForType (Some Table) column columnIndex (stored_values stored) (ci_type info) (fs_index st) ;;;
      Ok (mapColumnTypeToSchemaField column info)
  end.

Definition table_row (st : FrameState) (indexField : option jsstr) (stored : list StoredColumn) (i : nat) : JsonValue :=
  VObject (put_all
    (match indexField with
     | Some name => [(name, default VNull (label_value <$> fs_index st !! i))]
     | None => []
     end ++ zip (fs_columns st) (map (λ c, getStoredColumnValue c i) stored))).

Definition exportTable (st : FrameState) (indexFieldOption : option jsstr) : frame_result JsonValue :=
  let* indexField := resolveIndexFieldName st indexFieldOption in
  match indexField with Some name => assertUniqueTableIndexLabels (fs_index st) name | None => Ok tt end ;;;
  let templates := getDataFieldTemplates st in
  let* indexFields :=
    match indexField with
    | None => Ok []
    | Some name =>
        match getIndexFieldTemplate st with
        | None => Ok [[(js "name", VString name); (js "type", VString (inferIndexFieldType (fs_index st)))]]
        | Some template => res_map (λ f, [f]) (cloneSchemaField template name (field_path 0))
        end
    end in
  let* stored := resolveStoredColumns st in
  let* dataFields := res_mapM (λ x, export_field st templates (length indexFields) x.2.1 x.1 x.2.2)
    (zip (seq 0 (length (fs_columns st))) (zip (fs_columns st) stored)) in
  let* schema := export_schema (fs_tableSchema st) (indexFields ++ dataFields) (option_map (λ n, [n]) indexField) in
  Ok (VObject [(js "schema", schema); (js "data", VArray (map (table_row st indexField stored) (row_numbers st)))]).
