(* ===== verification/FrameTable.v ===== *)
(** json-frame, frame/DataFrame.ts and api.ts: the immutable frame, its rows and the
    frames derived from it.

    Callbacks are functions of the row, its label and its position; a callback
    that throws is not modelled.  [Array.prototype.sort] is stable; it is written
    as an insertion sort, which every stable sort equals on a consistent comparison. *)

From S2P Require Import Prelude JsValue JsJson JsMap FrameValue FrameTraverse FrameOptions FrameParse FrameSchema FrameColumn FrameExport.

Record DataFrame := mkFrame { df_state : FrameState; df_packThreshold : Z }.

(** The schema part of a derived frame. *)
Record TransformSchema := mkTransform { tf_tableSchema : option TableSchema; tf_tableIndexField : option jsstr }.

(** * Schemas of derived frames *)

(** [{ ...field, name }] *)
Definition cloneField (field : TableSchemaField) (name : jsstr) : TableSchemaField :=
  set_field field (js "name") (VString name).
Definition same_field (field : TableSchemaField) : TableSchemaField := cloneField field (field_name field).

Definition cloneSchema (schema : TableSchema) (fields : list TableSchemaField)
    (primaryKey : option JsonValue) : TableSchema :=
  let others := filter (λ kv, kv.1 ≠ js "fields" ∧ kv.1 ≠ js "primaryKey") schema in
  let fs := set_field (put_all others) (js "fields") (fields_value fields) in
  match primaryKey with Some pk => set_field fs (js "primaryKey") pk | None => fs end.

(** [schema.primaryKey] *)
Definition schema_primaryKey (schema : TableSchema) : option JsonValue := field_lookup schema (js "primaryKey").

Record Partition := mkPartition {
  pt_indexTemplate : option TableSchemaField;
  pt_dataInColumnOrder : list TableSchemaField
}.

(** [dataByColumn.get(column)]: the fields in column order, by position. *)
Definition field_of_column (st : FrameState) (p : Partition) (column : jsstr) : option TableSchemaField :=
  map_get (zip (fs_columns st) (pt_dataInColumnOrder p)) column.

Definition partitionSchemaFields (st : FrameState) : Partition :=
  match fs_tableSchema st with
  | None => mkPartition None []
  | Some schema =>
      let fields := schema_fields schema in
      match fs_tableIndexField st with
      | None => mkPartition None (by_column (fs_columns st) fields)
      | Some indexField =>
          if unique_names fields
          then mkPartition (last_field indexField fields) (by_column (fs_columns st) fields)
          else
            mkPartition
              (match canonical_index st fields indexField with
               | Some f => Some f
               | None => find_field indexField fields
               end)
              (aligned (fs_columns st) (data_slice st fields))
      end
  end.

Definition selectSchema (st : FrameState) (columns : list jsstr) : TransformSchema :=
  match fs_tableSchema st with
  | None => mkTransform None None
  | Some schema =>
      let p := partitionSchemaFields st in
      let index := match fs_tableIndexField st, pt_indexTemplate p with
                   | Some _, Some f => [same_field f] | _, _ => [] end in
      let data := omap (λ c, same_field <$> field_of_column st p c) columns in
      mkTransform (Some (cloneSchema schema (index ++ data) (schema_primaryKey schema))) (fs_tableIndexField st)
  end.

(** [hasOwn.call(mapping, name) ? mapping[name] : name] for a checked mapping. *)
Definition mapped_name (mapping : list (jsstr * value)) (name : jsstr) : jsstr :=
  match field_lookup mapping name with Some (UString s) => s | _ => name end.

Definition renameSchema (st : FrameState) (mapping : list (jsstr * value)) (nextColumns : list jsstr) :
    TransformSchema :=
  match fs_tableSchema st with
  | None => mkTransform None None
  | Some schema =>
      let collidesWithIndex :=
        match fs_tableIndexField st with Some f => bool_decide (f ∈ nextColumns) | None => false end in
      let fields :=
        if unique_names (schema_fields schema) && negb collidesWithIndex then
          map (λ f, if bool_decide (field_name f ∈ fs_columns st)
                    then cloneField f (mapped_name mapping (field_name f)) else same_field f)
            (schema_fields schema)
        else
          let p := partitionSchemaFields st in
          match fs_tableIndexField st, pt_indexTemplate p with
          | Some _, Some f => [same_field f] | _, _ => [] end
          ++ map (λ cf, cloneField cf.2 (mapped_name mapping cf.1))
               (zip (fs_columns st) (pt_dataInColumnOrder p)) in
      mkTransform (Some (cloneSchema schema fields (schema_primaryKey schema))) (fs_tableIndexField st)
  end.

Definition resetIndexSchema (st : FrameState) : TransformSchema :=
  match fs_tableSchema st with
  | None => mkTransform None None
  | Some schema =>
      let fields :=
        match fs_tableIndexField st with
        | None => map same_field (schema_fields schema)
        | Some indexField =>
            let data := pt_dataInColumnOrder (partitionSchemaFields st) in
            if (length data =? length (fs_columns st))%nat then map same_field data
            else map same_field (filter (λ f, field_name f ≠ indexField) (schema_fields schema))
        end in
      mkTransform (Some (cloneSchema schema fields None)) None
  end.

(** * Rows *)

Section frame.
Variable df : DataFrame.
Let st := df_state df.

Definition frame_length : nat := length (fs_index st).

Definition createRow (position : nat) : frame_result json_object :=
  let* stored := resolveStoredColumns st in Ok (row_record (fs_columns st) stored position).

(** [#assertRowPosition] *)
Definition assertRowPosition (position : num) : frame_result nat :=
  match number_integer (Num position) with
  | Some z => guard ((0 <=? z) && (z <? Z.of_nat frame_length)) (RowRangeError frame_length) ;;; Ok (Z.to_nat z)
  | None => Err (RowRangeError frame_length)
  end.

Definition row (position : num) : frame_result json_object :=
  let* i := assertRowPosition position in createRow i.

Definition rows : frame_result (list json_object) := res_mapM createRow (row_numbers st).

(** * Derived frames *)

Fixpoint column_overrides (acc : jsmap ColumnInfo) (cs : list (jsstr * jsstr)) : frame_result (jsmap ColumnInfo) :=
  match cs with
  | [] => Ok acc
  | (column, sourceColumn) :: cs =>
      match map_get (fs_columnInfo st) sourceColumn with
      | None => Err (stored_missing StoredMetadataMissing sourceColumn)
      | Some info => column_overrides (map_set acc column info) cs
      end
  end.

Fixpoint column_rebuilds (positions : list nat) (acc : jsmap (list JsonValue)) (cs : list (jsstr * jsstr)) :
    frame_result (jsmap (list JsonValue)) :=
  match cs with
  | [] => Ok acc
  | (column, sourceColumn) :: cs =>
      match map_get (fs_data st) sourceColumn with
      | None => Err (stored_missing StoredColumnMissing column)
      | Some stored => column_rebuilds positions (map_set acc column (rebuildStoredColumn stored positions)) cs
      end
  end.

Definition rebuild (columns sourceColumns : list jsstr) (positions : list nat) (index : list IndexLabel)
    (kind : IndexKind) (schema : TransformSchema) : frame_result DataFrame :=
  let* info := column_overrides [] (zip columns sourceColumns) in
  let* data := column_rebuilds positions [] (zip columns sourceColumns) in
  let* state := createFrameStateFromRebuiltData columns index kind data info
    (tf_tableSchema schema) (tf_tableIndexField schema) (df_packThreshold df) in
  Ok (mkFrame state (df_packThreshold df)).

(** The labels at some positions. *)
Definition labels_at (positions : list nat) : list IndexLabel := omap (λ i, fs_index st !! i) positions.

Definition own_schema : TransformSchema := mkTransform (fs_tableSchema st) (fs_tableIndexField st).

Definition frame_filter (predicate : json_object → IndexLabel → nat → bool) : frame_result DataFrame :=
  let* rs := rows in
  let kept := map fst (filter (λ x, predicate x.2.1 x.2.2 x.1 = true)
                         (zip (row_numbers st) (zip rs (fs_index st)))) in
  rebuild (fs_columns st) (fs_columns st) kept (labels_at kept) (fs_indexKind st) own_schema.

(** An entry of the array that [sort] orders. *)
Record Ordering := mkOrdering { or_label : IndexLabel; or_position : nat; or_row : json_object }.

(** [(Number.isNaN(result) ? 0 : result) || left.position - right.position] is negative. *)
Definition ordered_before (compare : Ordering → Ordering → num) (l r : Ordering) : bool :=
  match compare l r with
  | NaN => (or_position l <? or_position r)%nat
  | n => if num_eqb n (num_of_Z 0) then (or_position l <? or_position r)%nat else num_lt n (num_of_Z 0)
  end.

(** [x] goes after the entries it is not before. *)
Fixpoint insert_sorted (before : Ordering → Ordering → bool) (x : Ordering) (l : list Ordering) : list Ordering :=
  match l with
  | [] => [x]
  | y :: l => if before x y then x :: y :: l else y :: insert_sorted before x l
  end.
Definition stable_sort (before : Ordering → Ordering → bool) (l : list Ordering) : list Ordering :=
  foldl (λ acc x, insert_sorted before x acc) [] l.

Definition orderings (rs : list json_object) : list Ordering :=
  map (λ x, mkOrdering x.2.1 x.1 x.2.2) (zip (row_numbers st) (zip (fs_index st) rs)).

Definition frame_sort (compare : Ordering → Ordering → num) : frame_result DataFrame :=
  let* rs := rows in
  let sorted := stable_sort (ordered_before compare) (orderings rs) in
  rebuild (fs_columns st) (fs_columns st) (map or_position sorted) (map or_label sorted) (fs_indexKind st) own_schema.

Definition column_error (m : Message) (column : jsstr) : JsonFrameError :=
  frame_error None m (js "$.columns") None (Some column) (Some (VString column)).

Fixpoint check_selected (seen columns : list jsstr) : frame_result unit :=
  match columns with
  | [] => Ok tt
  | c :: columns =>
      match map_get (fs_data st) c with
      | None => Err (column_error SelectUnknown c)
      | Some _ =>
          if bool_decide (c ∈ seen) then Err (column_error SelectTwice c) else check_selected (c :: seen) columns
      end
  end.

Definition select (columns : list jsstr) : frame_result DataFrame :=
  check_selected [] columns ;;;
  rebuild columns columns (row_numbers st) (fs_index st) (fs_indexKind st) (selectSchema st columns).

Definition rename_error (H : heap) (m : Message) (path : jsstr) (column : option jsstr) (v : value) : JsonFrameError :=
  ValidationError m (mkContext None (Some path) None column (Some (summarizeDiagnosticValue H v))).

Definition renamed_column (H : heap) (mapping : list (jsstr * value)) (column : jsstr) : frame_result jsstr :=
  match field_lookup mapping column with
  | None => Ok column
  | Some (UString s) => Ok s
  | Some v => Err (rename_error H RenameNotString (js "$.mapping" ++ bracket (json_quote column)) (Some column) v)
  end.

Fixpoint check_renamed (seen columns : list jsstr) : frame_result unit :=
  match columns with
  | [] => Ok tt
  | c :: columns =>
      if bool_decide (c ∈ seen) then Err (column_error RenameTwice c) else check_renamed (c :: seen) columns
  end.

Definition rename (H : heap) (mapping : value) : frame_result DataFrame :=
  match object_fields H mapping with
  | None => Err (rename_error H RenameNotObject (js "$.mapping") None mapping)
  | Some fs =>
      let* nextColumns := res_mapM (renamed_column H fs) (fs_columns st) in
      check_renamed [] nextColumns ;;;
      rebuild nextColumns (fs_columns st) (row_numbers st) (fs_index st) (fs_indexKind st)
        (renameSchema st fs nextColumns)
  end.

Definition resetIndex : frame_result DataFrame :=
  rebuild (fs_columns st) (fs_columns st) (row_numbers st) (synthetic_index frame_length) Synthetic
    (resetIndexSchema st).

(** * Exports *)

Definition toTable (H : heap) (options : value) : frame_result JsonValue :=
  let* o := normalizeToTableOptions H options in exportTable st (tt_indexField o).

Definition export_orient (orient : ResolvedOrient) (indexField : option jsstr) : frame_result JsonValue :=
  match orient with
  | Records => exportRecords st
  | Index => exportIndex st
  | Columns => exportColumns st
  | Values => exportValues st
  | Split => exportSplit st
  | Table => exportTable st indexField
  end.

(** The complete payload is checked, then serialized. *)
Definition toJSONString (orient : ResolvedOrient) (H : heap) (options : value) : frame_result jsstr :=
  let* o := normalizeToJSONStringOptions H options in
  let* payload := export_orient orient (ts_indexField o) in
  let '(v, _, heap) := alloc payload 0 ∅ in
  answer (assertJsonCompatible heap (Some orient) (ts_maxNodes o) v root) ;;;
  Ok (stringify payload).
End frame.

(** * [fromOrient] *)

Definition fromOrient (H : heap) (input options : value) : frame_result DataFrame :=
  let* o := normalizeFromOrientOptions H options in
  let* parsed := parseInput H input o in
  let* state := createFrameState parsed o in
  Ok (mkFrame state (op_packThreshold o)).

Example from_split_text :
  let text := js "{'columns':['a','b'],'index':['x',7],'data':[[1,null],[-0,[true]]]}" ≫=
                λ c, [if c =? 39 then 34 else c] in
  (let* df := fromOrient ∅ (UString text) UUndefined in
   let* df := frame_filter df (λ row _ _, match field_lookup row (js "b") with Some VNull => false | _ => true end) in
   toJSONString df Records ∅ UUndefined) =
  Ok (js "[{'a':0,'b':[true]}]" ≫= λ c, [if c =? 39 then 34 else c]).
Proof. vm_compute. reflexivity. Qed.
