(* ===== verification/FrameLaws.v ===== *)
(** json-frame: the lemmas of its objects, maps and columns that the theorems about
    frames share. *)

From S2P Require Import Prelude JsValue JsJson JsMap FrameValue FrameTraverse FrameAccept FrameOptions FrameParse FrameSchema FrameColumn FrameExport FrameTable.

(** * Objects *)

Lemma field_lookup_map {A} (fs : list (jsstr * A)) k v k' :
  is_Some (field_lookup fs k) →
  field_lookup (map (λ kv, if jsstr_eqb kv.1 k then (kv.1, v) else kv) fs) k' =
    if jsstr_eqb k' k then Some v else field_lookup fs k'.
Proof.
  induction fs as [|[k0 v0] fs IH]; cbn; [by intros [? ?]|].
  destruct (jsstr_eqb k k0) eqn:E0.
  - apply jsstr_eqb_true in E0 as ->. intros _. rewrite jsstr_eqb_refl. cbn.
    destruct (jsstr_eqb k' k0) eqn:E1; [done|]. clear IH.
    induction fs as [|[k2 v2] fs IH]; cbn; [done|].
    destruct (jsstr_eqb k2 k0) eqn:E2; cbn; [|by rewrite IH].
    apply jsstr_eqb_true in E2 as ->. by rewrite E1.
  - intros Hk. rewrite (proj2 (jsstr_eqb_false k0 k)) by (apply jsstr_eqb_false in E0; congruence). cbn.
    rewrite (IH Hk). destruct (jsstr_eqb k' k0) eqn:E1; [|done].
    apply jsstr_eqb_true in E1 as ->. by rewrite (proj2 (jsstr_eqb_false k0 k)) by (apply jsstr_eqb_false in E0; congruence).
Qed.

Lemma field_lookup_insert {A} (fs : list (jsstr * A)) k v k' :
  field_lookup fs k = None →
  field_lookup (insert_field fs k v) k' = if jsstr_eqb k' k then Some v else field_lookup fs k'.
Proof.
  induction fs as [|[k0 v0] fs IH]; cbn; [done|].
  destruct (jsstr_eqb k k0) eqn:E0; [done|]. intros Hk.
  assert (field_lookup ((k0, v0) :: insert_field fs k v) k' =
    if jsstr_eqb k' k then Some v else field_lookup ((k0, v0) :: fs) k') as Hlate.
  { cbn. rewrite (IH Hk). destruct (jsstr_eqb k' k0) eqn:E1; [|done].
    apply jsstr_eqb_true in E1 as ->. by rewrite (proj2 (jsstr_eqb_false k0 k)) by (apply jsstr_eqb_false in E0; congruence). }
  destruct (array_index k) as [i|], (array_index k0) as [j|]; try exact Hlate; try done.
  by destruct (i <? j).
Qed.

Lemma field_lookup_set {A} (fs : list (jsstr * A)) k v k' :
  field_lookup (set_field fs k v) k' = if jsstr_eqb k' k then Some v else field_lookup fs k'.
Proof.
  unfold set_field. destruct (field_lookup fs k) eqn:E; [by apply field_lookup_map|by apply field_lookup_insert].
Qed.

Lemma field_lookup_puts (fs acc : json_object) k :
  NoDup (field_keys fs) →
  field_lookup (foldl (λ acc kv, set_field acc kv.1 kv.2) acc fs) k =
    match field_lookup fs k with Some v => Some v | None => field_lookup acc k end.
Proof.
  revert acc. induction fs as [|[k0 v0] fs IH]; intros acc; cbn; [done|].
  intros [Hn Hd]%NoDup_cons. rewrite (IH _ Hd), field_lookup_set.
  destruct (jsstr_eqb k k0) eqn:E; [|done]. apply jsstr_eqb_true in E as ->.
  apply field_lookup_None in Hn. by rewrite Hn.
Qed.

Lemma field_lookup_put_all (fs : json_object) k :
  NoDup (field_keys fs) → field_lookup (put_all fs) k = field_lookup fs k.
Proof. intros Hd. unfold put_all. rewrite field_lookup_puts by done. by destruct (field_lookup fs k). Qed.

Lemma key_order_NoDup l : key_order l → NoDup l.
Proof.
  induction 1 as [|xs k _ IH Hk _]; [constructor|]. apply NoDup_app.
  split_and!; [done| |apply NoDup_singleton]. intros x Hx ->%list_elem_of_singleton. done.
Qed.

Lemma put_all_ordered (fs : json_object) : key_order (field_keys fs) → put_all fs = fs.
Proof.
  unfold put_all. induction fs as [|[k v] fs IH] using rev_ind; [done|].
  unfold field_keys. rewrite map_app. intros Ho. rewrite foldl_app. cbn.
  assert (key_order (field_keys fs) ∧ k ∉ field_keys fs ∧ Forall (λ a, key_before a k) (field_keys fs)) as (H1 & H2 & H3).
  { destruct (key_order_split _ _ _ Ho) as [H2 H3]. split_and!; [|done|done].
    cbn [map fst] in Ho. remember (map fst fs ++ [k]) as ks eqn:E.
    destruct Ho as [|xs k2 Ho _ _]; [by destruct fs|].
    by apply app_inj_tail in E as [-> _]. }
  rewrite (IH H1). by apply set_field_snoc.
Qed.

(** * Maps given column by column *)

Lemma get_zip {A} (cols : list jsstr) (vs : list A) i c :
  NoDup cols → cols !! i = Some c → map_get (zip cols vs) c = vs !! i.
Proof.
  revert vs i. induction cols as [|c0 cols IH]; intros vs i Hd Hi; [by rewrite lookup_nil in Hi|].
  apply NoDup_cons in Hd as [Hn Hd]. destruct vs as [|v vs]; [by rewrite lookup_nil|].
  destruct i as [|i]; cbn in *; [injection Hi as ->; by rewrite jsstr_eqb_refl|].
  rewrite (proj2 (jsstr_eqb_false c c0)); [by apply IH|]. intros ->. by apply list_elem_of_lookup_2 in Hi.
Qed.

Lemma map_get_lookup {A} (m : jsmap A) k : map_get m k = field_lookup m k.
Proof. induction m as [|[k' v] m IH]; cbn; [done|by rewrite IH]. Qed.

Lemma map_get_app {A} (m1 m2 : jsmap A) k v :
  k ∉ map_keys m1 → map_get (m1 ++ (k, v) :: m2) k = Some v.
Proof. intros Hk. rewrite map_get_lookup. by apply field_lookup_app. Qed.

Lemma map_set_app {A} (m1 m2 : jsmap A) k v w :
  k ∉ map_keys m1 → map_set (m1 ++ (k, v) :: m2) k w = m1 ++ (k, w) :: m2.
Proof.
  induction m1 as [|[k0 v0] m1 IH]; cbn; [by rewrite jsstr_eqb_refl|].
  rewrite not_elem_of_cons. intros [Hne Hn]. rewrite (proj2 (jsstr_eqb_false k k0)) by done. by rewrite IH.
Qed.

Lemma map_set_new {A} (m : jsmap A) k v : k ∉ map_keys m → map_set m k v = m ++ [(k, v)].
Proof.
  induction m as [|[k0 v0] m IH]; cbn; [done|].
  rewrite not_elem_of_cons. intros [Hne Hn]. rewrite (proj2 (jsstr_eqb_false k k0)) by done. by rewrite IH.
Qed.

Lemma map_sets_new {A B} (g : B → A) (l : list (jsstr * B)) (m : jsmap A) :
  NoDup (map_keys m ++ map fst l) →
  foldl (λ m b, map_set m b.1 (g b.2)) m l = m ++ map (λ b, (b.1, g b.2)) l.
Proof.
  revert m. induction l as [|[k b] l IH]; intros m; cbn; [intros _; by rewrite app_nil_r|]. intros Hd.
  assert (k ∉ map_keys m) as Hk by (apply NoDup_app in Hd as (_ & Hd & _); intros Hk; apply (Hd k Hk); left).
  rewrite map_set_new by done. rewrite IH; [by rewrite <- app_assoc|].
  unfold map_keys in *. rewrite map_app, <- app_assoc. done.
Qed.

Lemma keys_zip {A} (cols : list jsstr) (vs : list A) : length vs = length cols → map_keys (zip cols vs) = cols.
Proof. intros Hl. unfold map_keys. apply fst_zip. lia. Qed.

(** Pushing one cell on every column. *)
Definition snoc_cells (vss : list (list JsonValue)) (row : list JsonValue) : list (list JsonValue) :=
  zip_with (λ vs v, vs ++ [v]) vss row.

Lemma push_zip pre vpre cols vss row :
  NoDup (pre ++ cols) → length vpre = length pre → length vss = length cols → length row = length cols →
  foldl (λ m cv, map_push m cv.1 cv.2) (zip (pre ++ cols) (vpre ++ vss)) (zip cols row) =
    zip (pre ++ cols) (vpre ++ snoc_cells vss row).
Proof.
  revert pre vpre vss row. induction cols as [|c cols IH]; intros pre vpre vss row Hd Hp Hv Hr.
  { destruct vss, row; done. }
  destruct vss as [|vs vss]; [done|]. destruct row as [|v row]; [done|]. cbn [zip zip_with foldl fst snd snoc_cells].
  assert (c ∉ map_keys (zip pre vpre)) as Hc.
  { rewrite keys_zip by done. apply NoDup_app in Hd as (_ & Hd & _). intros Hc. apply (Hd c Hc). left. }
  assert (∀ ws, zip (pre ++ c :: cols) (vpre ++ ws :: vss) = zip pre vpre ++ (c, ws) :: zip cols vss) as Hz.
  { intros ws. by rewrite zip_with_app by done. }
  rewrite Hz. unfold map_push at 2. rewrite map_get_app by done. rewrite map_set_app by done.
  rewrite <- Hz. specialize (IH (pre ++ [c]) (vpre ++ [vs ++ [v]]) vss row).
  rewrite <- !app_assoc in IH. cbn in IH. rewrite IH; [done|done|..].
  - rewrite !length_app. cbn. lia.
  - by injection Hv.
  - by injection Hr.
Qed.

Lemma push_columns cols vss row :
  NoDup cols → length vss = length cols → length row = length cols →
  foldl (λ m cv, map_push m cv.1 cv.2) (zip cols vss) (zip cols row) = zip cols (snoc_cells vss row).
Proof. intros. by apply (push_zip [] []). Qed.

Lemma foldl_push_named (g : jsstr → JsonValue) m cols :
  foldl (λ m c, map_push m c (g c)) m cols = foldl (λ m cv, map_push m cv.1 cv.2) m (zip cols (map g cols)).
Proof. revert m. induction cols as [|c cols IH]; intros m; cbn; [done|apply IH]. Qed.

Lemma snoc_cells_map {A} (f : A → list JsonValue) (g : A → JsonValue) l :
  snoc_cells (map f l) (map g l) = map (λ a, f a ++ [g a]) l.
Proof. unfold snoc_cells. induction l as [|a l IH]; cbn; [done|by rewrite IH]. Qed.

Lemma initialize_zip cols : NoDup cols → initializeData cols = zip cols (map (λ _, []) cols).
Proof.
  intros Hd. unfold initializeData.
  assert (∀ m : jsmap (list JsonValue), NoDup (map_keys m ++ cols) →
    foldl (λ m c, map_set m c []) m cols = m ++ zip cols (map (λ _, []) cols)) as Hg.
  { clear Hd. induction cols as [|c cols IH]; intros m Hd; cbn; [clear; by rewrite app_nil_r|].
    assert (c ∉ map_keys m) as Hc by (apply NoDup_app in Hd as (_ & Hd & _); intros Hk; apply (Hd c Hk); left).
    rewrite map_set_new by done. rewrite IH; [by rewrite <- app_assoc|].
    unfold map_keys in *. by rewrite map_app, <- app_assoc. }
  by rewrite Hg.
Qed.

Lemma finalize_zip orient cols vss :
  NoDup cols → length vss = length cols → finalize_data orient (zip cols vss) [] cols = Ok (zip cols vss).
Proof.
  intros Hd Hl.
  assert (∀ pre vpre post vpost acc, cols = pre ++ post → vss = vpre ++ vpost → length vpre = length pre →
    acc = zip pre vpre → finalize_data orient (zip cols vss) acc post = Ok (zip cols vss)) as Hg;
    [|by apply (Hg [] [] cols vss [])].
  intros pre vpre post. revert pre vpre.
  induction post as [|c post IH]; intros pre vpre vpost acc Hc Hv Hp ->.
  - rewrite app_nil_r in Hc. subst pre. destruct vpost as [|v vpost]; [by rewrite Hv, app_nil_r|].
    subst vss. rewrite length_app in Hl. cbn in Hl. lia.
  - cbn [finalize_data].
    assert (cols !! length pre = Some c) as Hi by (rewrite Hc, lookup_app_r, Nat.sub_diag by lia; done).
    rewrite (get_zip _ _ _ _ Hd Hi). destruct vpost as [|v vpost].
    { subst vss cols. rewrite !length_app in Hl. cbn in Hl. lia. }
    rewrite Hv at 1. rewrite lookup_app_r, <- Hp, Nat.sub_diag by lia. cbn.
    apply (IH (pre ++ [c]) (vpre ++ [v]) vpost).
    + by rewrite <- app_assoc.
    + by rewrite <- app_assoc.
    + rewrite !length_app. cbn. lia.
    + rewrite map_set_new.
      * by rewrite zip_with_app by done.
      * rewrite keys_zip by done. rewrite Hc in Hd. apply NoDup_app in Hd as (_ & Hd & _).
        intros Hk. apply (Hd c Hk). left.
Qed.

Lemma zip_fst_snd {A B} (l : list (A * B)) : zip (map fst l) (map snd l) = l.
Proof. induction l as [|[a b] l IH]; cbn; [done|by rewrite IH]. Qed.
