(* ===== verification/FrameState.v ===== *)
(** json-frame: what a parsed frame and a frame state are, and that every operation
    keeps it so.

    [frame_view st stored infos]: the data and the column information of [st] are
    those of its columns in order, every column has a cell per label, and a
    column is nullable exactly when it holds a null. *)

From S2P Require Import Prelude JsValue JsJson JsMap FrameValue FrameTraverse FrameAccept FrameOptions FrameParse FrameSchema FrameColumn FrameExport FrameTable FrameLaws.

(** * Packed columns *)

Definition cell_reduced (v : JsonValue) : Prop := match v with VNumber x => reduced x | _ => True end.

Lemma Qred_integer z : Qred (inject_Z z) = inject_Z z.
Proof. destruct z as [|[]|[]]; reflexivity. Qed.

Lemma Q_to_Z_reduced q z : Q_to_Z q = Some z → Qred q = q → q = inject_Z z.
Proof.
  intros Hz Hred. rewrite <- Hred, <- Qred_integer. apply Qred_complete.
  unfold Q_to_Z in Hz. destruct (Z.eqb_spec (Z.rem (Qnum q) (Zpos (Qden q))) 0) as [Hr|]; [|done].
  injection Hz as <-. unfold Qeq, inject_Z. cbn. pose proof (Z.quot_rem' (Qnum q) (Zpos (Qden q))). lia.
Qed.

Lemma to_int32_range x z :
  number_integer x = Some z → INT32_MIN <= z <= INT32_MAX → to_int32 x = z.
Proof.
  unfold number_integer, to_int32, INT32_MIN, INT32_MAX. destruct (num_value x) as [|b|q]; [done..|].
  unfold Q_to_Z. destruct (_ =? 0); [|done]. intros [= <-] Hz.
  rewrite Z.mod_small; lia.
Qed.

Lemma int32_reads_back v : cell_reduced v → int32_eligible v = true → VNumber (number_of_Z (to_int32 (the_number v))) = v.
Proof.
  destruct v as [| |x| | |]; cbn; try done. intros Hred. destruct (number_integer x) as [z|] eqn:Hz; [|done].
  intros He. bool_prop. rewrite (to_int32_range x z) by done.
  destruct x as [|[| |q]]; try done. unfold number_integer in Hz. cbn in Hz.
  by rewrite (Q_to_Z_reduced q z Hz Hred).
Qed.

Lemma map_id_on {A} (f : A → A) l : Forall (λ a, f a = a) l → map f l = l.
Proof. induction 1 as [|a l Ha _ IH]; cbn; [done|by rewrite Ha, IH]. Qed.

(** Packing is invisible: the cells of a packed column are the cells given,
    negative zeros included. *)
Lemma stored_packed values info threshold :
  Forall cell_reduced values → stored_values (packColumn values info threshold) = values.
Proof.
  intros Hred. unfold packColumn. destruct (_ || _); [done|]. destruct (ci_type info); try done.
  - destruct (forallb int32_eligible values) eqn:He; [|done]. cbn. rewrite map_map. apply map_id_on.
    rewrite forallb_forall in He. rewrite Forall_forall in Hred |- *. intros v Hv.
    apply int32_reads_back; [by apply Hred|]. apply He. by apply list_elem_of_In.
  - destruct (forallb is_number values) eqn:He; [|done]. cbn. rewrite map_map. apply map_id_on.
    rewrite forallb_forall in He. apply Forall_forall. intros v Hv.
    specialize (He v). rewrite <- list_elem_of_In in He. by destruct v; try specialize (He Hv).
Qed.

Lemma length_packed values info threshold : length (stored_values (packColumn values info threshold)) = length values.
Proof.
  unfold packColumn. destruct (_ || _); [done|]. destruct (ci_type info); try done;
    (destruct (forallb _ _); [|done]); cbn; by rewrite !length_map.
Qed.

Lemma null_packed values info threshold :
  ci_nullable info = hasNullValue values →
  hasNullValue (stored_values (packColumn values info threshold)) = hasNullValue values.
Proof.
  intros Hn. unfold packColumn. destruct (_ || ci_nullable info) eqn:E; [done|].
  apply orb_false_iff in E as [_ E]. rewrite <- Hn, E.
  assert (∀ l : list number, hasNullValue (map VNumber l) = false) as Hno by (induction l; done).
  destruct (ci_type info); try (cbn [stored_values]; congruence);
    (destruct (forallb _ _); [|cbn [stored_values]; congruence]); cbn [stored_values].
  - by rewrite <- (map_map number_of_Z VNumber).
  - done.
Qed.

Lemma stored_at c i : getStoredColumnValue c i = default VNull (stored_values c !! i).
Proof. destruct c; cbn; [done|..]; by rewrite <- list_lookup_fmap. Qed.

Lemma scan_nullable values : ci_nullable (inferColumnType values) = hasNullValue values.
Proof.
  unfold inferColumnType, scan. cbn [ci_nullable].
  assert (∀ s, sn_nullable (foldl see s values) = sn_nullable s || hasNullValue values) as Hs; [|by rewrite Hs].
  induction values as [|v values IH]; intros s; cbn; [by rewrite orb_false_r|]. rewrite IH.
  destruct s as [n b st i f c], v as [| |x| | |]; cbn; try done; [by rewrite orb_true_r|].
  by destruct (isInteger x).
Qed.

(** * Parsed frames *)

Record parsed_view (p : ParsedFrame) (vss : list (list JsonValue)) : Prop := {
  pv_columns : NoDup (pf_columns p);
  pv_data : pf_data p = zip (pf_columns p) vss;
  pv_length : length vss = length (pf_columns p);
  pv_cells : Forall (λ vs, length vs = length (pf_index p)) vss;
  pv_reduced : Forall (Forall cell_reduced) vss
}.

Record frame_view (st : FrameState) (stored : list StoredColumn) (infos : list ColumnInfo) : Prop := {
  fv_columns : NoDup (fs_columns st);
  fv_data : fs_data st = zip (fs_columns st) stored;
  fv_info : fs_columnInfo st = zip (fs_columns st) infos;
  fv_stored : length stored = length (fs_columns st);
  fv_infos : length infos = length (fs_columns st);
  fv_cells : Forall (λ c, length (stored_values c) = length (fs_index st)) stored;
  fv_nullable : Forall2 (λ c i, ci_nullable i = hasNullValue (stored_values c)) stored infos;
  fv_reduced : Forall (λ c, Forall cell_reduced (stored_values c)) stored
}.

Definition frame_ok (st : FrameState) : Prop := ∃ stored infos, frame_view st stored infos.

(** Building a column: its information and its cells. *)
Definition built_of (threshold : Z) (values : list JsonValue) (b : ColumnInfo * StoredColumn) : Prop :=
  ci_nullable b.1 = hasNullValue values ∧ b.2 = packColumn values b.1 threshold.

Lemma zip_map_snd {A B} (g : A → B) (cols : list jsstr) bs :
  map (λ b, (b.1, g b.2)) (zip cols bs) = zip cols (map g bs).
Proof. revert bs. induction cols as [|c cols IH]; intros [|b bs]; cbn; [done..|by rewrite IH]. Qed.

Lemma built_view columns index kind schema indexField threshold vss built :
  NoDup columns → length vss = length columns → Forall (λ vs, length vs = length index) vss →
  Forall (Forall cell_reduced) vss → Forall2 (built_of threshold) vss built →
  frame_view (mkState columns index kind
      (foldl (λ m b, map_set m b.1 b.2.2) [] (zip columns built))
      (foldl (λ m b, map_set m b.1 b.2.1) [] (zip columns built)) schema indexField)
    (map snd built) (map fst built).
Proof.
  intros Hd Hl Hc Hred Hb. pose proof (Forall2_length _ _ _ Hb) as Hlb.
  assert (NoDup (map_keys ([] : jsmap StoredColumn) ++ map fst (zip columns built))) as Hk
    by (rewrite fst_zip by lia; done).
  constructor; cbn.
  - done.
  - rewrite (map_sets_new snd) by exact Hk. by rewrite zip_map_snd.
  - rewrite (map_sets_new fst) by exact Hk. by rewrite zip_map_snd.
  - rewrite length_map. lia.
  - rewrite length_map. lia.
  - clear -Hc Hb. induction Hb as [|vs b vss built [_ E] _ IH]; [constructor|].
    apply Forall_cons in Hc as [Hv Hc]. constructor; [|by apply IH]. by rewrite E, length_packed.
  - clear -Hb. induction Hb as [|vs b vss built [En E] _ IH]; [constructor|]. constructor; [|done].
    rewrite E, null_packed by done. done.
  - clear -Hred Hb. induction Hb as [|vs b vss built [_ E] _ IH]; [constructor|].
    apply Forall_cons in Hred as [Hv Hred]. constructor; [|by apply IH]. by rewrite E, stored_packed.
Qed.

(** Mapping over the columns of a map given in order. *)
Lemma res_mapM_zip {A B} (P : A → B → Prop) (g : nat * jsstr → frame_result (jsstr * B))
    (n : nat) (columns : list jsstr) (vs : list A) built :
  length vs = length columns →
  (∀ i c v, columns !! i = Some c → vs !! i = Some v →
     ∀ x, g ((n + i)%nat, c) = Ok x → ∃ b, x = (c, b) ∧ P v b) →
  res_mapM g (zip (seq n (length columns)) columns) = Ok built →
  ∃ bs, built = zip columns bs ∧ Forall2 P vs bs.
Proof.
  revert n vs built. induction columns as [|c columns IH]; intros n vs built Hl Hg Hm; destruct vs as [|v vs]; try done.
  { cbn in Hm. injection Hm as <-. by exists []. }
  cbn [length seq zip zip_with res_mapM] in Hm. apply res_bind_Ok in Hm as (x & Hx & Hm).
  apply res_bind_Ok in Hm as (xs & Hxs & [= <-]).
  destruct (Hg 0%nat c v eq_refl eq_refl x) as (b & -> & Hb); [by rewrite Nat.add_0_r|].
  destruct (IH (S n) vs xs) as (bs & -> & Hbs); [by injection Hl| |done|].
  { intros i c' v' Hc Hv y Hy. apply (Hg (S i) c' v' Hc Hv). by rewrite Nat.add_succ_r. }
  exists (b :: bs). split; [done|by constructor].
Qed.

(** * Building a state *)

(** The state holds the cells it was built from. *)
Definition holds (vss : list (list JsonValue)) (stored : list StoredColumn) : Prop :=
  map stored_values stored = vss.

Lemma build_column_of orient index types explicit threshold c i vs b :
  build_column orient index types explicit threshold c i vs = Ok b → built_of threshold vs b.
Proof.
  unfold build_column. intros Hb. apply res_bind_Ok in Hb as (u & _ & [= <-]).
  split; [apply scan_nullable|done].
Qed.

Lemma built_holds threshold vss built :
  Forall (Forall cell_reduced) vss → Forall2 (built_of threshold) vss built → holds vss (map snd built).
Proof.
  intros Hred Hb. unfold holds. induction Hb as [|vs b vss built [_ E] _ IH]; [done|].
  apply Forall_cons in Hred as [Hv Hred]. cbn. by rewrite E, stored_packed, IH.
Qed.

Lemma build_view p vss threshold types st :
  parsed_view p vss → buildFrameState p threshold types = Ok st →
  ∃ stored infos, frame_view st stored infos ∧ holds vss stored ∧
    fs_columns st = pf_columns p ∧ fs_index st = pf_index p ∧ fs_indexKind st = pf_indexKind p ∧
    fs_tableSchema st = pf_tableSchema p ∧ fs_tableIndexField st = pf_tableIndexField p.
Proof.
  intros [Hd Hp Hl Hc Hred] Hb. unfold buildFrameState in Hb.
  apply res_bind_Ok in Hb as ([] & _ & Hb). apply res_bind_Ok in Hb as (built & Hb & [= <-]).
  eapply (res_mapM_zip (built_of threshold)) in Hb as (bs & -> & Hbs); [|exact Hl|].
  - exists (map snd bs), (map fst bs). split_and!; [by apply (built_view _ _ _ _ _ threshold vss)|by eapply built_holds|done..].
  - intros i c vs Hi Hv x Hx. cbn in Hx. rewrite Hp, (get_zip _ _ _ _ Hd Hi), Hv in Hx.
    apply res_bind_Ok in Hx as (b & Hx & [= <-]). exists b. split; [done|by eapply build_column_of].
Qed.

Lemma res_mapM_total {E A B} (f : A → result E B) l :
  (∀ x, x ∈ l → ∃ y, f x = Ok y) → ∃ ys, res_mapM f l = Ok ys.
Proof.
  induction l as [|x l IH]; intros Hf; cbn; [by eexists|].
  destruct (Hf x) as [y ->]; [left|]. cbn. destruct IH as [ys ->]; [by intros z Hz; apply Hf; right|]. by eexists.
Qed.

(** A derived frame's columns, from data and information given in order. *)
Lemma rebuilt_view columns index kind vss infos schema indexField threshold :
  NoDup columns → length vss = length columns → Forall (λ vs, length vs = length index) vss →
  Forall (Forall cell_reduced) vss →
  Forall2 (λ vs i, hasNullValue vs = true → ci_nullable i = true) vss infos →
  ∃ stored infos', let st := mkState columns index kind (zip columns stored) (zip columns infos') schema indexField in
    createFrameStateFromRebuiltData columns index kind (zip columns vss) (zip columns infos) schema indexField threshold
      = Ok st ∧ frame_view st stored infos' ∧ holds vss stored ∧
    Forall2 (λ i i', ci_type i' = ci_type i) infos infos'.
Proof.
  intros Hd Hl Hc Hred Hn. pose proof (Forall2_length _ _ _ Hn) as Hli.
  set (build vs i := let info := mkInfo (ci_type i) (ci_nullable i && hasNullValue vs) in (info, packColumn vs info threshold)).
  set (bs := zip_with build vss infos).
  assert (Forall2 (built_of threshold) vss bs) as Hbs.
  { unfold bs. clear -Hn. induction Hn as [|vs i vss infos Hv _ IH]; cbn; constructor; [|done].
    split; [|done]. cbn. destruct (hasNullValue vs) eqn:E; [by rewrite Hv|apply andb_false_r]. }
  assert (Forall2 (λ i i', ci_type i' = ci_type i) infos (map fst bs)) as Htypes.
  { unfold bs. clear -Hn. induction Hn as [|vs i vss infos Hv _ IH]; cbn; by constructor. }
  pose proof (built_view columns index kind schema indexField threshold vss bs Hd Hl Hc Hred Hbs) as Hview.
  exists (map snd bs), (map fst bs). cbn zeta.
  assert (createFrameStateFromRebuiltData columns index kind (zip columns vss) (zip columns infos) schema indexField threshold
    = Ok (mkState columns index kind (foldl (λ m b, map_set m b.1 b.2.2) [] (zip columns bs))
            (foldl (λ m b, map_set m b.1 b.2.1) [] (zip columns bs)) schema indexField)) as ->.
  { unfold createFrameStateFromRebuiltData.
    match goal with |- res_bind (res_mapM ?f columns) _ = _ => assert (res_mapM f columns = Ok (zip columns bs)) as -> end; [|done].
    apply res_mapM_Forall2. apply Forall2_same_length_lookup. split.
    { rewrite length_zip_with. unfold bs. rewrite length_zip_with. lia. }
    intros i c [c' b] Hi Hx. apply lookup_zip_Some in Hx as [Hx1 Hx2].
    assert (c' = c) as -> by congruence. unfold bs in Hx2. rewrite lookup_zip_with in Hx2.
    rewrite (get_zip _ _ _ _ Hd Hi). destruct (vss !! i) as [vs|]; cbn in Hx2; [|done].
    rewrite (get_zip _ _ _ _ Hd Hi). destruct (infos !! i) as [inf|]; cbn in Hx2; [|done].
    by injection Hx2 as <-. }
  pose proof (fv_data _ _ _ Hview) as Hdata. pose proof (fv_info _ _ _ Hview) as Hinfo. cbn in Hdata, Hinfo.
  rewrite Hdata, Hinfo in *. split_and!; [done|exact Hview|by eapply built_holds|done].
Qed.

(** * Cells of a frame *)

Definition cell (st : FrameState) (c : jsstr) (i : nat) : JsonValue :=
  match map_get (fs_data st) c with Some s => getStoredColumnValue s i | None => VNull end.
Definition info_of (st : FrameState) (c : jsstr) : ColumnInfo :=
  default (mkInfo TUnknown false) (map_get (fs_columnInfo st) c).

Section view.
Context {st : FrameState} {stored : list StoredColumn} {infos : list ColumnInfo}.
Hypothesis Hv : frame_view st stored infos.

Lemma view_column i c : fs_columns st !! i = Some c →
  ∃ s inf, stored !! i = Some s ∧ infos !! i = Some inf ∧ map_get (fs_data st) c = Some s ∧
    map_get (fs_columnInfo st) c = Some inf ∧ length (stored_values s) = length (fs_index st) ∧
    ci_nullable inf = hasNullValue (stored_values s).
Proof.
  intros Hi. pose proof (lookup_lt_Some _ _ _ Hi) as Hlt.
  destruct (lookup_lt_is_Some_2 stored i) as [s Hs]; [rewrite (fv_stored _ _ _ Hv); lia|].
  destruct (lookup_lt_is_Some_2 infos i) as [inf Hinf]; [rewrite (fv_infos _ _ _ Hv); lia|].
  exists s, inf. split_and!; [done..| | | |].
  - by rewrite (fv_data _ _ _ Hv), (get_zip _ _ _ _ (fv_columns _ _ _ Hv) Hi).
  - by rewrite (fv_info _ _ _ Hv), (get_zip _ _ _ _ (fv_columns _ _ _ Hv) Hi).
  - pose proof (fv_cells _ _ _ Hv) as Hc. rewrite Forall_forall in Hc. apply Hc. by eapply list_elem_of_lookup_2.
  - pose proof (fv_nullable _ _ _ Hv) as Hn. by destruct (Forall2_lookup_lr _ _ _ _ _ _ Hn Hs Hinf).
Qed.

Lemma view_named c : c ∈ fs_columns st → ∃ s inf, map_get (fs_data st) c = Some s ∧
    map_get (fs_columnInfo st) c = Some inf ∧ length (stored_values s) = length (fs_index st) ∧
    ci_nullable inf = hasNullValue (stored_values s).
Proof.
  intros [i Hi]%list_elem_of_lookup. destruct (view_column i c Hi) as (s & inf & _ & _ & ? & ? & ? & ?).
  by exists s, inf.
Qed.

Lemma stored_resolved : resolveStoredColumns st = Ok stored.
Proof.
  apply res_mapM_Forall2, Forall2_same_length_lookup. split; [by rewrite (fv_stored _ _ _ Hv)|].
  intros i c s Hi Hs. destruct (view_column i c Hi) as (s' & _ & Hs' & _ & Hd & _).
  unfold getStoredColumn. rewrite Hd. congruence.
Qed.

Lemma rows_resolved i : (i < length (fs_index st))%nat →
  map (λ c, getStoredColumnValue c i) stored = map (λ c, cell st c i) (fs_columns st).
Proof.
  intros Hi. apply list_eq. intros j. rewrite !list_lookup_fmap.
  destruct (fs_columns st !! j) as [c|] eqn:Hj.
  - destruct (view_column j c Hj) as (s & _ & Hs & _ & Hd & _). rewrite Hs. cbn. unfold cell. by rewrite Hd.
  - apply lookup_ge_None in Hj. rewrite lookup_ge_None_2; [done|]. rewrite (fv_stored _ _ _ Hv). lia.
Qed.

Lemma record_resolved i : (i < length (fs_index st))%nat →
  row_record (fs_columns st) stored i = put_all (zip (fs_columns st) (map (λ c, cell st c i) (fs_columns st))).
Proof. intros Hi. unfold row_record. by rewrite rows_resolved. Qed.

Lemma rows_Ok (df : DataFrame) : df_state df = st →
  rows df = Ok (map (λ i, put_all (zip (fs_columns st) (map (λ c, cell st c i) (fs_columns st)))) (row_numbers st)).
Proof.
  intros Hdf. unfold rows. rewrite Hdf. apply res_mapM_Forall2, Forall2_same_length_lookup.
  split; [by rewrite length_map|]. intros k i r Hi Hr. rewrite list_lookup_fmap, Hi in Hr. injection Hr as <-.
  unfold createRow. rewrite Hdf, stored_resolved. cbn. rewrite record_resolved; [done|].
  unfold row_numbers in Hi. apply lookup_seq in Hi. lia.
Qed.

(** ** A derived frame *)

Lemma overrides_Ok df columns sources : df_state df = st →
  length sources = length columns → NoDup columns → (∀ s, s ∈ sources → s ∈ fs_columns st) →
  column_overrides df [] (zip columns sources) = Ok (zip columns (map (info_of st) sources)).
Proof.
  intros Hdf Hl Hd Hin.
  assert (∀ acc, NoDup (map_keys acc ++ columns) →
    column_overrides df acc (zip columns sources) = Ok (acc ++ zip columns (map (info_of st) sources))) as Hg;
    [|by apply (Hg [])].
  clear Hd. revert sources Hl Hin. induction columns as [|c columns IH]; intros [|s sources] Hl Hin acc Hd; try done; cbn.
  { by rewrite app_nil_r. }
  rewrite Hdf. destruct (view_named s) as (_ & inf & _ & Hi & _); [apply Hin; left|].
  rewrite Hi. replace (info_of st s) with inf by (unfold info_of; by rewrite Hi).
  assert (c ∉ map_keys acc) as Hc by (apply NoDup_app in Hd as (_ & Hd & _); intros Hk; apply (Hd c Hk); left).
  rewrite map_set_new, IH; [by rewrite <- app_assoc|by injection Hl|intros x Hx; apply Hin; by right| |done].
  unfold map_keys in *. by rewrite map_app, <- app_assoc.
Qed.

Lemma rebuilds_Ok df columns sources positions : df_state df = st →
  length sources = length columns → NoDup columns → (∀ s, s ∈ sources → s ∈ fs_columns st) →
  column_rebuilds df positions [] (zip columns sources) =
    Ok (zip columns (map (λ s, map (cell st s) positions) sources)).
Proof.
  intros Hdf Hl Hd Hin.
  assert (∀ acc, NoDup (map_keys acc ++ columns) →
    column_rebuilds df positions acc (zip columns sources) =
      Ok (acc ++ zip columns (map (λ s, map (cell st s) positions) sources))) as Hg; [|by apply (Hg [])].
  clear Hd. revert sources Hl Hin. induction columns as [|c columns IH]; intros [|s sources] Hl Hin acc Hd; try done; cbn.
  { by rewrite app_nil_r. }
  rewrite Hdf. destruct (view_named s) as (sc & _ & Hi & _); [apply Hin; left|].
  rewrite Hi. assert (map (cell st s) positions = rebuildStoredColumn sc positions) as ->.
  { unfold rebuildStoredColumn, cell. by rewrite Hi. }
  assert (c ∉ map_keys acc) as Hc by (apply NoDup_app in Hd as (_ & Hd & _); intros Hk; apply (Hd c Hk); left).
  rewrite map_set_new, IH; [by rewrite <- app_assoc|by injection Hl|intros x Hx; apply Hin; by right| |done].
  unfold map_keys in *. by rewrite map_app, <- app_assoc.
Qed.

Lemma cell_is_reduced c i : cell_reduced (cell st c i).
Proof.
  unfold cell. destruct (map_get (fs_data st) c) as [s|] eqn:Hs; [|done].
  rewrite stored_at. destruct (stored_values s !! i) as [v|] eqn:Hi; [|done]. cbn.
  rewrite (fv_data _ _ _ Hv) in Hs. apply get_Some_in in Hs. apply list_elem_of_lookup in Hs as [k Hk].
  apply lookup_zip_Some in Hk as [_ Hk]. pose proof (fv_reduced _ _ _ Hv) as Hr.
  rewrite Forall_forall in Hr. specialize (Hr s (list_elem_of_lookup_2 _ _ _ Hk)).
  rewrite Forall_forall in Hr. apply Hr. by eapply list_elem_of_lookup_2.
Qed.

Lemma null_of_positions s positions :
  s ∈ fs_columns st → Forall (λ i, i < length (fs_index st))%nat positions →
  hasNullValue (map (cell st s) positions) = true → ci_nullable (info_of st s) = true.
Proof.
  intros Hs Hp Hn. destruct (view_named s Hs) as (sc & inf & Hd & Hi & Hlen & Hnull).
  unfold info_of. rewrite Hi. cbn. rewrite Hnull. unfold hasNullValue in *. apply existsb_exists in Hn as (v & Hin & Hv0).
  apply existsb_exists. exists v. split; [|done]. apply in_map_iff in Hin as (i & <- & Hin).
  rewrite Forall_forall in Hp. specialize (Hp i (proj2 (list_elem_of_In _ _) Hin)).
  unfold cell. rewrite Hd, stored_at. destruct (lookup_lt_is_Some_2 (stored_values sc) i) as [w Hw]; [lia|].
  rewrite Hw. apply list_elem_of_In. by eapply list_elem_of_lookup_2.
Qed.

Lemma rebuild_view df columns sources positions index kind schema : df_state df = st →
  NoDup columns → length sources = length columns → (∀ s, s ∈ sources → s ∈ fs_columns st) →
  Forall (λ i, i < length (fs_index st))%nat positions → length index = length positions →
  ∃ stored' infos', let st' := mkState columns index kind (zip columns stored') (zip columns infos')
                      (tf_tableSchema schema) (tf_tableIndexField schema) in
    rebuild df columns sources positions index kind schema = Ok (mkFrame st' (df_packThreshold df)) ∧
    frame_view st' stored' infos' ∧
    holds (map (λ s, map (cell st s) positions) sources) stored'.
Proof.
  intros Hdf Hd Hl Hin Hp Hi.
  destruct (rebuilt_view columns index kind (map (λ s, map (cell st s) positions) sources)
    (map (info_of st) sources) (tf_tableSchema schema) (tf_tableIndexField schema) (df_packThreshold df))
    as (stored' & infos' & Hb & Hview & Hholds & _).
  - done.
  - by rewrite length_map.
  - apply Forall_map, Forall_forall. intros s _. by rewrite length_map.
  - apply Forall_map, Forall_forall. intros s _. apply Forall_map, Forall_forall. intros i _. apply cell_is_reduced.
  - apply Forall2_fmap, Forall2_same_length_lookup. split; [done|]. intros k s s' Hs Hs'.
    assert (s' = s) as -> by congruence. apply null_of_positions; [|done]. apply Hin. by eapply list_elem_of_lookup_2.
  - exists stored', infos'. split; [|by split]. unfold rebuild.
    rewrite (overrides_Ok df) by done. cbn [res_bind]. rewrite (rebuilds_Ok df) by done. cbn [res_bind].
    by rewrite Hb.
Qed.
End view.

(** * Operations keep frames well formed *)

Lemma insert_sorted_perm before x l : insert_sorted before x l ≡ₚ x :: l.
Proof.
  induction l as [|y l IH]; cbn; [done|]. destruct (before x y); [done|]. rewrite IH. apply Permutation_swap.
Qed.
Lemma stable_sort_perm before l : stable_sort before l ≡ₚ l.
Proof.
  unfold stable_sort. assert (∀ acc, foldl (λ acc x, insert_sorted before x acc) acc l ≡ₚ l ++ acc) as Hg.
  { induction l as [|x l IH]; intros acc; cbn; [done|]. rewrite IH, insert_sorted_perm. symmetry. apply Permutation_middle. }
  rewrite Hg. by rewrite app_nil_r.
Qed.

Lemma row_numbers_in st i : i ∈ row_numbers st ↔ (i < length (fs_index st))%nat.
Proof. unfold row_numbers. rewrite elem_of_seq. lia. Qed.

Lemma labels_at_length (df : DataFrame) positions :
  Forall (λ i, i < length (fs_index (df_state df)))%nat positions → length (labels_at df positions) = length positions.
Proof.
  unfold labels_at. induction 1 as [|i positions Hi _ IH]; cbn; [done|].
  destruct (lookup_lt_is_Some_2 (fs_index (df_state df)) i Hi) as [l ->]. cbn. by rewrite IH.
Qed.

Lemma positions_zip {A} (ns : list nat) (l : list A) P `{∀ x, Decision (P x)} (Q : nat → Prop) :
  Forall Q ns → Forall Q (map fst (filter P (zip ns l))).
Proof.
  intros Hq. apply Forall_forall. intros i Hi. apply list_elem_of_In, in_map_iff in Hi as ([i' a] & <- & Hi).
  apply list_elem_of_In, list_elem_of_filter in Hi as [_ Hi].
  apply elem_of_zip_l in Hi. rewrite Forall_forall in Hq. by apply Hq.
Qed.

Lemma check_selected_ok df seen columns :
  check_selected df seen columns = Ok tt →
  NoDup columns ∧ (∀ c, c ∈ columns → c ∉ seen ∧ is_Some (map_get (fs_data (df_state df)) c)).
Proof.
  revert seen. induction columns as [|c columns IH]; intros seen; cbn [check_selected].
  { intros _. split; [constructor|]. intros c Hc. by apply not_elem_of_nil in Hc. }
  destruct (map_get _ c) eqn:Hget; [|done]. destruct (bool_decide_reflect (c ∈ seen)) as [|Hn]; [done|].
  intros [Hd Hin]%IH. split.
  - apply NoDup_cons. split; [|done]. intros Hc. destruct (Hin c Hc) as [Hno _]. apply Hno. left.
  - intros x [->|Hx]%elem_of_cons; [by rewrite Hget|]. destruct (Hin x Hx) as [Hno Hs]. split; [|done].
    intros Hx'. apply Hno. by right.
Qed.

Lemma check_renamed_ok seen columns : check_renamed seen columns = Ok tt → NoDup columns.
Proof.
  intros Hc. assert (NoDup columns ∧ ∀ c, c ∈ columns → c ∉ seen) as [? _]; [|done].
  revert seen Hc. induction columns as [|c columns IH]; intros seen; cbn [check_renamed].
  { intros _. split; [constructor|]. intros c Hc. by apply not_elem_of_nil in Hc. }
  destruct (bool_decide_reflect (c ∈ seen)) as [|Hn]; [done|]. intros [Hd Hin]%IH. split.
  - apply NoDup_cons. split; [|done]. intros Hc. apply (Hin c Hc). left.
  - intros x [->|Hx]%elem_of_cons; [done|]. intros Hx'. apply (Hin x Hx). by right.
Qed.

Section operations.
Context {df : DataFrame}.
Notation st := (df_state df).
Hypothesis Hok : frame_ok st.

Definition derives (r : frame_result DataFrame) : Prop :=
  ∃ df', r = Ok df' ∧ frame_ok (df_state df') ∧ df_packThreshold df' = df_packThreshold df.

Lemma rebuild_derives columns sources positions index kind schema :
  NoDup columns → length sources = length columns → (∀ s, s ∈ sources → s ∈ fs_columns st) →
  Forall (λ i, i < length (fs_index st))%nat positions → length index = length positions →
  derives (rebuild df columns sources positions index kind schema).
Proof.
  destruct Hok as (stored & infos & Hv). intros Hd Hl Hin Hp Hi.
  destruct (rebuild_view Hv df columns sources positions index kind schema) as (s' & i' & Hr & Hview & _); [done..|].
  eexists. split; [exact Hr|]. split; [by exists s', i'|done].
Qed.

Lemma all_rows : Forall (λ i, i < length (fs_index st))%nat (row_numbers st).
Proof. apply Forall_forall. intros i. by rewrite row_numbers_in. Qed.
Lemma length_row_numbers : length (row_numbers st) = length (fs_index st).
Proof. apply length_seq. Qed.

Lemma filter_derives predicate : derives (frame_filter df predicate).
Proof.
  pose proof Hok as (stored & infos & Hv). unfold frame_filter. rewrite (rows_Ok Hv df) by done. cbn [res_bind].
  apply rebuild_derives; [by apply (fv_columns _ _ _ Hv)|done|done| |].
  - apply positions_zip, all_rows.
  - apply labels_at_length, positions_zip, all_rows.
Qed.

Lemma sort_derives compare : derives (frame_sort df compare).
Proof.
  pose proof Hok as (stored & infos & Hv). unfold frame_sort. rewrite (rows_Ok Hv df) by done. cbn [res_bind].
  apply rebuild_derives; [by apply (fv_columns _ _ _ Hv)|done|done| |by rewrite !length_map].
  apply Forall_forall. intros i Hi. apply list_elem_of_In, in_map_iff in Hi as (o & <- & Ho).
  apply list_elem_of_In in Ho. rewrite stable_sort_perm in Ho. unfold orderings in Ho.
  apply list_elem_of_In, in_map_iff in Ho as ([p [l r]] & <- & Ho). cbn.
  apply list_elem_of_In, elem_of_zip_l in Ho. by apply row_numbers_in.
Qed.

Lemma reset_derives : derives (resetIndex df).
Proof.
  pose proof Hok as (stored & infos & Hv). unfold resetIndex.
  apply rebuild_derives; [by apply (fv_columns _ _ _ Hv)|done|done|apply all_rows|].
  unfold synthetic_index. rewrite length_map, length_row_numbers. apply length_seq.
Qed.

Lemma select_derives columns : check_selected df [] columns = Ok tt → derives (select df columns).
Proof.
  pose proof Hok as (stored & infos & Hv). intros Hc. unfold select. rewrite Hc. cbn [res_bind].
  apply check_selected_ok in Hc as [Hd Hin].
  apply rebuild_derives; [done|done| |apply all_rows|by rewrite length_row_numbers].
  intros c Hc. destruct (Hin c Hc) as [_ [s Hs]]. rewrite (fv_data _ _ _ Hv), map_get_lookup in Hs.
  destruct (decide (c ∈ fs_columns st)) as [|Hn]; [done|].
  rewrite (proj2 (field_lookup_None _ c)) in Hs; [done|].
  change (field_keys (zip (fs_columns st) stored)) with (map_keys (zip (fs_columns st) stored)).
  by rewrite keys_zip by apply (fv_stored _ _ _ Hv).
Qed.

Lemma rename_derives H mapping : is_ok (rename df H mapping) = true → derives (rename df H mapping).
Proof.
  pose proof Hok as (stored & infos & Hv). unfold rename. destruct (object_fields H mapping) as [fs|]; [|done].
  destruct (res_mapM _ _) as [next|] eqn:Hn; [|done]. cbn [res_bind].
  destruct (check_renamed [] next) as [[]|] eqn:Hc; [|done]. cbn [res_bind]. intros _.
  apply check_renamed_ok in Hc. apply res_mapM_Forall2, Forall2_length in Hn.
  apply rebuild_derives; [done|lia|done|apply all_rows|by rewrite length_row_numbers].
Qed.
End operations.
