(* ===== verification/FrameWf.v ===== *)
(** json-frame: well-formed values.  The keys of an object are in enumeration order
    and a number has one representation; [JSON.parse] and the traversal give such
    values, and a tree written to a heap unfolds to itself. *)

From Stdlib Require Import Sorting.Sorted.
From S2P Require Import Prelude JsValue JsJson JsMap FrameValue FrameTraverse FrameAccept FrameOptions FrameParse FrameSchema FrameColumn FrameExport FrameTable FrameLaws FrameState.

(** * Trees and heaps *)

Fixpoint json_ok (j : JsonValue) : Prop :=
  match j with
  | VNumber x => reduced x
  | VArray l => foldr (λ x P, json_ok x ∧ P) True l
  | VObject fs => key_order (field_keys fs) ∧ foldr (λ kv P, json_ok kv.2 ∧ P) True fs
  | _ => True
  end.

Fixpoint finite_json (j : JsonValue) : Prop :=
  match j with
  | VNumber x => is_finite (num_value x) = true
  | VArray l => foldr (λ x P, finite_json x ∧ P) True l
  | VObject fs => foldr (λ kv P, finite_json kv.2 ∧ P) True fs
  | _ => True
  end.

Lemma foldr_Forall {A} (P : A → Prop) l : foldr (λ x Q, P x ∧ Q) True l ↔ Forall P l.
Proof. induction l as [|x l IH]; cbn; [by split|]. by rewrite Forall_cons, IH. Qed.

Lemma json_ok_array l : json_ok (VArray l) ↔ Forall json_ok l.
Proof. apply foldr_Forall. Qed.
Lemma json_ok_object fs : json_ok (VObject fs) ↔ key_order (field_keys fs) ∧ Forall (λ kv, json_ok kv.2) fs.
Proof. cbn. by rewrite (foldr_Forall (λ kv : jsstr * JsonValue, json_ok kv.2)). Qed.
Lemma finite_array l : finite_json (VArray l) ↔ Forall finite_json l.
Proof. apply foldr_Forall. Qed.
Lemma finite_object fs : finite_json (VObject fs) ↔ Forall (λ kv, finite_json kv.2) fs.
Proof. cbn. by rewrite (foldr_Forall (λ kv : jsstr * JsonValue, finite_json kv.2)). Qed.

Definition value_ok (v : value) : Prop := match v with UNumber x => reduced x | _ => True end.
Definition object_ok (o : object) : Prop :=
  match o with
  | OArray items => Forall (λ i, from_option value_ok True i) items
  | OObject _ fs => key_order (field_keys fs) ∧ Forall (λ kv, value_ok kv.2) fs
  end.
Definition heap_wf (H : heap) : Prop := ∀ l, object_ok (look H l).

Lemma heap_wf_ok H : heap_wf H → heap_ok H.
Proof. intros Hw l pl fs Hl. specialize (Hw l). rewrite Hl in Hw. by destruct Hw. Qed.

Lemma heap_wf_empty : heap_wf ∅.
Proof. intros l. unfold look. rewrite lookup_empty. split; constructor. Qed.

Lemma heap_wf_insert H l o : heap_wf H → object_ok o → heap_wf (<[l := o]> H).
Proof.
  intros Hw Ho l'. unfold look. destruct (decide (l' = l)) as [->|Hne]; [by rewrite lookup_insert_eq|].
  rewrite lookup_insert_ne by done. apply Hw.
Qed.

(** What the traversal returns is well formed. *)
Lemma unfolds_ok H v j : heap_wf H → value_ok v → unfolds H v j → json_ok j ∧ finite_json j.
Proof.
  intros Hw. revert v. induction j as [| | | |l IH|fs IH] using json_induction; intros v Hv Hu; try (inversion Hu; subst; by split).
  - apply unfolds_array_inv in Hu as (a & items & -> & Ha & Hf). rewrite json_ok_array, finite_array.
    specialize (Hw a). rewrite Ha in Hw. cbn in Hw. clear Ha. rewrite <- Forall_and.
    induction Hf as [|i j items l (w & -> & Hu) _ IHl]; [constructor|].
    apply Forall_cons in IH as [IHj IH]. apply Forall_cons in Hw as [Hw1 Hw2]. constructor; [exact (IHj w Hw1 Hu)|by apply IHl].
  - apply unfolds_object_inv in Hu as (a & gs & -> & Ha & Hf). rewrite json_ok_object, finite_object.
    specialize (Hw a). rewrite Ha in Hw. cbn in Hw. destruct Hw as [Hko Hw].
    assert (field_keys fs = field_keys gs) as ->.
    { clear -Hf. unfold field_keys. induction Hf as [|x y gs fs [E _] _ IH]; cbn; [done|by rewrite E, IH]. }
    assert (Forall (λ kv, json_ok kv.2 ∧ finite_json kv.2) fs) as Hall.
    { clear Ha Hko. induction Hf as [|[k w] [k' j] gs fs [Hk Hu] _ IHl]; [constructor|].
      apply Forall_cons in IH as [IHj IH]. apply Forall_cons in Hw as [Hw1 Hw2]. constructor; [exact (IHj w Hw1 Hu)|by apply IHl]. }
    apply Forall_and in Hall as [H1 H2]. done.
Qed.

(** * Key order under updates *)

Lemma key_order_sorted ks : key_order ks ↔ NoDup ks ∧ StronglySorted key_before ks.
Proof.
  split.
  - induction 1 as [|xs k _ [IHd IHs] Hk Hb]; [split; constructor|]. split.
    + apply NoDup_app. split_and!; [done| |apply NoDup_singleton]. intros x Hx ->%list_elem_of_singleton. done.
    + clear IHd Hk. induction IHs as [|x xs Hs IH Hx]; cbn; [repeat constructor|].
      apply Forall_cons in Hb as [Hb1 Hb2]. constructor; [by apply IH|]. apply Forall_app. split; [done|by constructor].
  - intros [Hd Hs]. induction ks as [|k ks IH] using rev_ind; [constructor|].
    apply NoDup_app in Hd as (Hd & Hn & _).
    assert (StronglySorted key_before ks ∧ Forall (λ a, key_before a k) ks) as [Hs1 Hs2].
    { clear -Hs. induction ks as [|x ks IH]; [split; constructor|]. cbn in Hs. apply StronglySorted_inv in Hs as [Hs Hx].
      destruct (IH Hs). apply Forall_app in Hx as [Hx1 Hx2]. split; constructor; try done. by inversion Hx2. }
    constructor; [by apply IH| |done]. intros Hk. apply (Hn k Hk). left.
Qed.

Lemma insert_keys {A} (fs : list (jsstr * A)) k v : k ∉ field_keys fs →
  field_keys (insert_field fs k v) ≡ₚ k :: field_keys fs ∧
  (StronglySorted key_before (field_keys fs) → StronglySorted key_before (field_keys (insert_field fs k v))).
Proof.
  induction fs as [|[k' w] fs IH]; cbn [insert_field]; intros Hk; [split; [done|intros; repeat constructor]|].
  cbn [field_keys map fst] in Hk. apply not_elem_of_cons in Hk as [Hne Hk]. destruct (IH Hk) as [Hp Hs]. clear IH.
  assert (StronglySorted key_before (k' :: field_keys fs) → key_before k' k →
    StronglySorted key_before (k' :: field_keys (insert_field fs k v))) as Hlate.
  { intros Hss Hb. apply StronglySorted_inv in Hss as [Hss Hx]. constructor; [by apply Hs|].
    rewrite Hp. by constructor. }
  assert (k' :: field_keys (insert_field fs k v) ≡ₚ k :: k' :: field_keys fs) as Hlp
    by (rewrite Hp; apply Permutation_swap).
  destruct (array_index k) as [i|] eqn:Ek, (array_index k') as [j|] eqn:Ek'.
  - destruct (Z.ltb_spec i j) as [Hlt|Hge].
    + split; [done|]. cbn [field_keys map fst]. intros Hss. constructor; [done|]. constructor; [unfold key_before; rewrite Ek, Ek'; (lia || done)|].
      apply StronglySorted_inv in Hss as [_ Hx]. eapply Forall_impl; [exact Hx|]. cbn. intros x. unfold key_before.
      rewrite Ek, Ek'. destruct (array_index x); [lia|done].
    + split; [done|]. intros Hss. apply Hlate; [done|]. unfold key_before. rewrite Ek, Ek'.
      lia.
  - split; [done|]. cbn [field_keys map fst]. intros Hss. constructor; [done|]. constructor; [unfold key_before; rewrite Ek, Ek'; (lia || done)|].
    apply StronglySorted_inv in Hss as [_ Hx]. eapply Forall_impl; [exact Hx|]. cbn. intros x. unfold key_before.
    rewrite Ek, Ek'. by destruct (array_index x).
  - split; [done|]. intros Hss. apply Hlate; [done|]. unfold key_before. by rewrite Ek, Ek'.
  - split; [done|]. intros Hss. apply Hlate; [done|]. unfold key_before. by rewrite Ek, Ek'.
Qed.

Lemma set_field_ordered {A} (fs : list (jsstr * A)) k v :
  key_order (field_keys fs) → key_order (field_keys (set_field fs k v)).
Proof.
  intros Ho. unfold set_field. destruct (field_lookup fs k) eqn:E.
  - replace (field_keys (map _ fs)) with (field_keys fs); [done|]. clear. unfold field_keys. rewrite map_map.
    apply map_ext. intros [k' w]. cbn. by destruct (jsstr_eqb k' k).
  - apply field_lookup_None in E. destruct (insert_keys fs k v E) as [Hp Hs].
    apply key_order_sorted in Ho as [Hd Hso]. apply key_order_sorted. split; [|by apply Hs].
    rewrite Hp. by apply NoDup_cons.
Qed.

Lemma set_field_Forall {A} (P : A → Prop) (fs : list (jsstr * A)) k v :
  Forall (λ kv, P kv.2) fs → P v → Forall (λ kv, P kv.2) (set_field fs k v).
Proof.
  intros Hf Hv. unfold set_field. destruct (field_lookup fs k).
  - apply Forall_map. eapply Forall_impl; [exact Hf|]. intros [k' w] Hw. cbn. by destruct (jsstr_eqb k' k).
  - induction Hf as [|[k' w] fs Hw Hf IH]; cbn; [repeat constructor; done|].
    destruct (array_index k) as [i|], (array_index k') as [j|]; try (destruct (i <? j));
      repeat (constructor; [done|]); assumption.
Qed.

(** * Text *)

Lemma signed_reduced neg n : reduced (signed neg n).
Proof.
  destruct n as [| |q]; cbn; try done. destruct (neg && _); [done|]. cbn.
  apply Qred_complete, Qred_correct.
Qed.

Lemma text_ok fuel :
  (∀ s j r, text_value fuel s = Some (j, r) → json_ok j) ∧
  (∀ s l r, text_elements fuel s = Some (l, r) → Forall json_ok l) ∧
  (∀ s acc fs r, json_ok (VObject acc) → text_members fuel s acc = Some (fs, r) → json_ok (VObject fs)).
Proof.
  induction fuel as [|fuel (IHv & IHe & IHm)]; [done|]. split_and!.
  - intros s j r. cbn [text_value]. destruct (skip_ws s) as [|c s']; [done|].
    destruct (c =? 34). { destruct (parse_string _ _) as [[t r']|]; cbn; [|done]. by intros [= <- <-]. }
    destruct (c =? 91).
    { assert (∀ o : option (list JsonValue * jsstr), o = text_elements fuel s' →
        ('(l, r) ← o; Some (VArray l, r)) = Some (j, r) → json_ok j) as Hel.
      { intros [[l r']|] Ho; cbn [mbind option_bind]; [|done]. intros [= <- <-]. apply json_ok_array. by eapply IHe. }
      destruct (skip_ws s') as [|[|p|p] s2]; try (by apply Hel).
      repeat (destruct p as [p|p|]; try (by apply Hel)). by intros [= <- <-]. }
    destruct (c =? 123).
    { assert (∀ o : option (json_object * jsstr), o = text_members fuel s' [] →
        ('(fs, r) ← o; Some (VObject fs, r)) = Some (j, r) → json_ok j) as Hme.
      { intros [[fs r']|] Ho; cbn [mbind option_bind]; [|done]. intros [= <- <-]. eapply IHm; [|by symmetry].
        split; [constructor|done]. }
      destruct (skip_ws s') as [|[|p|p] s2]; try (by apply Hme).
      repeat (destruct p as [p|p|]; try (by apply Hme)). intros [= <- <-]. split; [constructor|done]. }
    destruct (c =? 45). { destruct (parse_number _ _) as [[n r']|]; cbn; [|done]. intros [= <- <-]. apply signed_reduced. }
    destruct (is_digit c). { destruct (parse_number _ _) as [[n r']|]; cbn; [|done]. intros [= <- <-]. apply signed_reduced. }
    repeat (destruct (starts_with _ _); [by intros [= <- <-]|]). done.
  - intros s l r. cbn [text_elements]. destruct (text_value fuel s) as [[v r']|] eqn:Ev; cbn [mbind option_bind]; [|done].
    apply IHv in Ev. destruct (skip_ws r') as [|[|p|p] s2]; try done.
    repeat (destruct p as [p|p|]; try done).
    + intros [= <- <-]. by repeat constructor.
    + destruct (text_elements fuel s2) as [[l' r'']|] eqn:El; cbn [mbind option_bind]; [|done].
      intros [= <- <-]. apply IHe in El. by constructor.
  - intros s acc fs r Hacc. cbn [text_members]. destruct (skip_ws s) as [|[|p|p] s1]; try done.
    repeat (destruct p as [p|p|]; try done).
    destruct (parse_string _ _) as [[k r1]|]; cbn [mbind option_bind]; [|done].
    destruct (skip_ws r1) as [|[|p|p] s2]; try done. repeat (destruct p as [p|p|]; try done).
    destruct (text_value fuel s2) as [[v r2]|] eqn:Ev; cbn [mbind option_bind]; [|done]. apply IHv in Ev.
    assert (json_ok (VObject (set_field acc k v))) as Hset.
    { apply json_ok_object in Hacc as [H1 H2]. apply json_ok_object.
      split; [by apply set_field_ordered|by apply (set_field_Forall json_ok)]. }
    destruct (skip_ws r2) as [|[|p|p] s3]; try done. repeat (destruct p as [p|p|]; try done).
    + by intros [= <- <-].
    + intros Hm. by eapply IHm.
Qed.

Lemma parse_text_ok s j : parse_text s = Some j → json_ok j.
Proof.
  unfold parse_text. destruct (text_value _ _) as [[v r]|] eqn:E; cbn [mbind option_bind]; [|done].
  apply text_ok in E. destruct (skip_ws r); [|done]. by intros [= <-].
Qed.

(** * A tree written to a heap *)

(** The allocations of [v] and of those after it are its own. *)
Definition allocated (j : JsonValue) (n n' : nat) (H H' : heap) (v : value) : Prop :=
  (n <= n')%nat ∧ (∀ l, (l < n)%nat → H' !! l = H !! l) ∧
  (heap_wf H → json_ok j → heap_wf H' ∧ value_ok v) ∧
  (finite_json j → ∀ H2 : heap, (∀ l, (n <= l < n')%nat → H2 !! l = H' !! l) → unfolds H2 v j).

Definition allocated_all (js : list JsonValue) (n n' : nat) (H H' : heap) (vs : list value) : Prop :=
  (n <= n')%nat ∧ length vs = length js ∧ (∀ l, (l < n)%nat → H' !! l = H !! l) ∧
  (heap_wf H → Forall json_ok js → heap_wf H' ∧ Forall value_ok vs) ∧
  (Forall finite_json js → ∀ H2 : heap, (∀ l, (n <= l < n')%nat → H2 !! l = H' !! l) → Forall2 (unfolds H2) vs js).

Lemma thread_allocated {A} (f : A → nat → heap → value * nat * heap) (g : A → JsonValue) l n H vs n' H' :
  Forall (λ a, ∀ n H v n' H', f a n H = (v, n', H') → allocated (g a) n n' H H' v) l →
  thread f l n H = (vs, n', H') → allocated_all (map g l) n n' H H' vs.
Proof.
  intros Hf. revert n H vs. induction Hf as [|a l Ha _ IH]; intros n H vs; cbn.
  { intros [= <- <- <-]. split_and!; [lia|done|done|by split|constructor]. }
  destruct (f a n H) as [[v n1] H1] eqn:E1. destruct (thread f l n1 H1) as [[vs1 n2] H2] eqn:E2.
  intros [= <- <- <-]. apply Ha in E1 as (Hn1 & Hk1 & Hw1 & Hu1). apply IH in E2 as (Hn2 & Hl2 & Hk2 & Hw2 & Hu2).
  split_and!; [lia|cbn; by rewrite Hl2|intros x Hx; rewrite Hk2, Hk1 by lia; done|..].
  - intros Hwf [Hj Hjs]%Forall_cons. destruct (Hw1 Hwf Hj) as [Hwf1 Hv]. destruct (Hw2 Hwf1 Hjs). split; [done|by constructor].
  - intros [Hj Hjs]%Forall_cons H3 H3k. constructor.
    + apply (Hu1 Hj). intros x Hx. rewrite H3k, Hk2 by lia. done.
    + apply (Hu2 Hjs). intros x Hx. apply H3k. lia.
Qed.

Lemma alloc_allocated j n H v n' H' : alloc j n H = (v, n', H') → allocated j n n' H H' v.
Proof.
  revert n H v n' H'. induction j as [| | | |l IH|fs IH] using json_induction; intros n H v n' H'; cbn [alloc].
  1-4: intros [= <- <- <-]; (split_and!; [lia|done|by split|intros Hf H2 _; by constructor]).
  - destruct (thread alloc l n H) as [[vs n1] H1] eqn:E. intros [= <- <- <-].
    apply (thread_allocated alloc id) in E as (Hn & Hl & Hk & Hw & Hu); [|exact IH]. rewrite map_id in *.
    split_and!; [lia|intros x Hx; rewrite lookup_insert_ne by lia; by apply Hk|..].
    + rewrite json_ok_array. intros Hwf Hj. destruct (Hw Hwf Hj) as [Hwf1 Hvs]. split; [|done].
      apply heap_wf_insert; [done|]. cbn. by apply Forall_map.
    + rewrite finite_array. intros Hf H2 H2k. econstructor.
      * unfold look. rewrite H2k, lookup_insert_eq by lia. done.
      * apply Forall2_fmap_l. eapply Forall2_impl; [apply (Hu Hf H2)|].
        -- intros x Hx. rewrite H2k by lia. by rewrite lookup_insert_ne by lia.
        -- intros w j Hwj. by exists w.
  - destruct (thread _ fs n H) as [[vs n1] H1] eqn:E. intros [= <- <- <-].
    apply (thread_allocated _ snd) in E as (Hn & Hl & Hk & Hw & Hu); [|exact IH]. rewrite length_map in Hl.
    assert (field_keys (zip (field_keys fs) vs) = field_keys fs) as Hkeys.
    { apply fst_zip. unfold field_keys. rewrite length_map. lia. }
    split_and!; [lia|intros x Hx; rewrite lookup_insert_ne by lia; by apply Hk|..].
    + rewrite json_ok_object, <- (Forall_map snd). intros Hwf [Ho Hj]. destruct (Hw Hwf Hj) as [Hwf1 Hvs]. split; [|done].
      apply heap_wf_insert; [done|]. cbn. rewrite Hkeys. split; [done|].
      apply (Forall_map snd). rewrite snd_zip; [done|]. unfold field_keys. rewrite length_map. lia.
    + rewrite finite_object, <- (Forall_map snd). intros Hf H2 H2k. econstructor.
      * unfold look. rewrite H2k, lookup_insert_eq by lia. done.
      * assert (Forall2 (unfolds H2) vs (map snd fs)) as Hu2.
        { apply (Hu Hf H2). intros x Hx. rewrite H2k by lia. by rewrite lookup_insert_ne by lia. }
        clear -Hu2. revert vs Hu2. induction fs as [|[k j] fs IH]; intros vs Hu; inversion Hu; subst; cbn; constructor; [done|].
        by apply IH.
Qed.

(** The heap of a tree of the package. *)
Lemma alloc_fresh j v n H : json_ok j → alloc j 0 ∅ = (v, n, H) →
  heap_wf H ∧ value_ok v ∧ (finite_json j → unfolds H v j).
Proof.
  intros Hj Ha. apply alloc_allocated in Ha as (_ & _ & Hw & Hu).
  destruct (Hw heap_wf_empty Hj). split_and!; [done|done|]. intros Hf. by apply Hu.
Qed.

(** Nothing else unfolds from it. *)
Definition only_reads (j : JsonValue) (n n' : nat) (H' : heap) (v : value) : Prop :=
  ∀ H2 : heap, (∀ l, (n <= l < n')%nat → H2 !! l = H' !! l) → ∀ j', unfolds H2 v j' → j' = j.

Lemma thread_only {A} (f : A → nat → heap → value * nat * heap) (g : A → JsonValue) l n H vs n' H' :
  Forall (λ a, ∀ n H v n' H', f a n H = (v, n', H') → allocated (g a) n n' H H' v ∧ only_reads (g a) n n' H' v) l →
  thread f l n H = (vs, n', H') →
  ∀ H2 : heap, (∀ x, (n <= x < n')%nat → H2 !! x = H' !! x) → ∀ js, Forall2 (unfolds H2) vs js → js = map g l.
Proof.
  intros Hf. revert n H vs. induction Hf as [|a l Ha Hl IH]; intros n H vs; cbn.
  { intros [= <- <- <-] H2 _ js Hjs. by inversion Hjs. }
  destruct (f a n H) as [[v n1] H1] eqn:E1. destruct (thread f l n1 H1) as [[vs1 n2] H2] eqn:E2.
  intros [= <- <- <-] H3 H3k js Hjs. inversion Hjs as [|? j ? js' Hj Hjs']; subst.
  pose proof E2 as E2'. apply (thread_allocated f g) in E2' as (Hn2 & _ & Hk2 & _).
  2: { eapply Forall_impl; [exact Hl|]. intros b Hb x Hx w x' Hx' Eb. by apply (Hb _ _ _ _ _ Eb). }
  apply Ha in E1 as [(Hn1 & _) Ho]. f_equal.
  - apply (Ho H3); [|done]. intros x Hx. rewrite H3k, Hk2 by lia. done.
  - eapply (IH _ _ _ E2 H3); [|done]. intros x Hx. apply H3k. lia.
Qed.

Lemma alloc_only j n H v n' H' : alloc j n H = (v, n', H') → allocated j n n' H H' v ∧ only_reads j n n' H' v.
Proof.
  revert n H v n' H'. induction j as [| | | |l IH|fs IH] using json_induction; intros n H v n' H' Ha;
    (split; [by apply alloc_allocated|]); intros H2 H2k j' Hu; cbn [alloc] in Ha.
  1-4: injection Ha as <- <- <-; by inversion Hu.
  - destruct (thread alloc l n H) as [[vs n1] H1] eqn:E. injection Ha as <- <- <-.
    pose proof E as E'. apply (thread_allocated alloc id) in E' as (Hn & _); [|apply Forall_forall; intros x _; by apply alloc_allocated].
    inversion Hu as [| | | |? items js Hi Hf|? ? ? Hi]; subst; unfold look in Hi; rewrite H2k, lookup_insert_eq in Hi by lia; [|done].
    cbn in Hi. injection Hi as <-. f_equal. rewrite <- (map_id l). eapply (thread_only alloc id); [exact IH|exact E| |].
    + intros x Hx. rewrite H2k by lia. by rewrite lookup_insert_ne by lia.
    + apply Forall2_fmap_l in Hf. eapply Forall2_impl; [exact Hf|]. by intros w j (w' & [= <-] & Hw).
  - destruct (thread _ fs n H) as [[vs n1] H1] eqn:E. injection Ha as <- <- <-.
    pose proof E as E'. apply (thread_allocated _ snd) in E' as (Hn & Hl & _); [|apply Forall_forall; intros x _; by apply alloc_allocated].
    inversion Hu as [| | | |? ? ? Hi|? gs js Hi Hf]; subst; unfold look in Hi; rewrite H2k, lookup_insert_eq in Hi by lia; [done|].
    cbn in Hi. injection Hi as <-. f_equal. rewrite length_map in Hl.
    assert (map snd js = map snd fs ∧ map fst js = field_keys fs) as [Hs Hk].
    { split.
      - eapply (thread_only (λ kv, alloc kv.2) snd); [exact IH|exact E| |].
        + intros x Hx. rewrite H2k by lia. by rewrite lookup_insert_ne by lia.
        + clear -Hf Hl. apply Forall2_fmap_r. revert vs Hl Hf. revert js. unfold field_keys.
          induction fs as [|[k j] fs IHfs]; intros js vs Hl Hf; destruct vs as [|w vs]; try done; cbn in Hf; [by inversion Hf|].
          inversion Hf as [|? [k2 j2] ? ? [_ Hw] Hf']; subst. constructor; [done|]. apply IHfs; [by injection Hl|done].
      - clear -Hf Hl. revert vs Hl Hf. revert js. unfold field_keys.
        induction fs as [|[k j] fs IHfs]; intros js vs Hl Hf; destruct vs as [|w vs]; try done; cbn in Hf; [by inversion Hf|].
        inversion Hf as [|? [k2 j2] ? ? [Hk _] Hf']; subst. cbn in *. f_equal; [done|].
        eapply IHfs; [by injection Hl|done]. }
    rewrite <- (zip_fst_snd js), Hs, Hk. apply zip_fst_snd.
Qed.

(** ** What the input of [fromOrient] reads as *)

Definition reads (H : heap) (input : value) (j : JsonValue) : Prop :=
  match input with
  | UString s => parse_text s = Some j
  | _ => unfolds H input j
  end.

Lemma answer_Ok {A} (r : option (frame_result A)) a : answer r = Ok a ↔ r = Some (Ok a).
Proof. destruct r as [[|]|]; cbn; naive_solver. Qed.

Lemma parseInput_reads H input o p :
  heap_wf H → value_ok input → options_ok o → parseInput H input o = Ok p →
  ∃ j orient, reads H input j ∧ json_ok j ∧ finite_json j ∧
    match op_orient o with Auto => detectOrient j = Ok orient | Resolved r => orient = r end ∧
    parse_orient orient j o = Ok p.
Proof.
  intros Hw Hv Ho Hp. unfold parseInput in Hp. apply res_bind_Ok in Hp as ([H0 v0] & Hin & Hp).
  apply res_bind_Ok in Hp as (j & Hc & Hp). apply answer_Ok in Hc. apply res_bind_Ok in Hp as (orient & Hor & Hp).
  assert (affords 0 (op_maxNodes o)) as Hb by (intros n Hn; pose proof (proj2 (proj2 Ho) n Hn); lia).
  assert (heap_wf H0 ∧ value_ok v0 ∧ (unfolds H0 v0 j → reads H input j)) as (Hw0 & Hv0 & Hr).
  { unfold input_value in Hin. destruct input; try (injection Hin as <- <-; by split_and!).
    destruct (parse_text s) as [j0|] eqn:Hs; [|done]. destruct (alloc j0 0 ∅) as [[w n] Hh] eqn:Ha.
    injection Hin as <- <-. destruct (alloc_fresh _ _ _ _ (parse_text_ok _ _ Hs) Ha) as (? & ? & _).
    split_and!; [done|done|]. intros Hu. apply alloc_only in Ha as [_ Ha]. change (parse_text s = Some j). rewrite Hs. f_equal. symmetry. by apply (Ha Hh). }
  apply clone_accepts in Hc as (Hu & _); [|by apply heap_wf_ok|done].
  exists j, orient. destruct (unfolds_ok _ _ _ Hw0 Hv0 Hu). split_and!; [by apply Hr|done|done| |done].
  destruct (op_orient o); [done|by injection Hor].
Qed.
