(* ===== verification/FrameRoundtrip.v ===== *)
(** json-frame: parsing a layout, and exporting it again. *)

From S2P Require Import Prelude JsValue JsJson JsMap FrameValue FrameTraverse FrameAccept FrameOptions FrameParse FrameSchema FrameColumn FrameExport FrameTable FrameLaws FrameState FrameWf.

#[export] Instance VObject_inj : Inj (=) (=) VObject.
Proof. by intros ? ? [= ->]. Qed.
#[export] Instance VArray_inj : Inj (=) (=) VArray.
Proof. by intros ? ? [= ->]. Qed.
#[export] Instance VString_inj : Inj (=) (=) VString.
Proof. by intros ? ? [= ->]. Qed.

(** * Rows of objects *)

(** The columns of rows: their keys, as first seen. *)
Definition extend (columns keys : list jsstr) : list jsstr :=
  foldl (λ cs k, if bool_decide (k ∈ cs) then cs else cs ++ [k]) columns keys.
Definition first_seen (rows : list json_object) : list jsstr := foldl extend [] (map field_keys rows).

(** The cells of a column; a row without it has [null]. *)
Definition cells (rows : list json_object) (c : jsstr) : list JsonValue :=
  map (λ r, default VNull (field_lookup r c)) rows.

Lemma elem_extend columns keys c : c ∈ extend columns keys ↔ c ∈ columns ∨ c ∈ keys.
Proof.
  unfold extend. revert columns. induction keys as [|k keys IH]; intros columns; cbn.
  { split; [by left|]. intros [?|H%not_elem_of_nil]; done. }
  rewrite IH, elem_of_cons. case_bool_decide; [naive_solver|]. rewrite elem_of_app, list_elem_of_singleton. naive_solver.
Qed.

Lemma NoDup_extend columns keys : NoDup columns → NoDup (extend columns keys).
Proof.
  unfold extend. revert columns. induction keys as [|k keys IH]; intros columns Hd; cbn; [done|]. apply IH.
  case_bool_decide; [done|]. apply NoDup_app. split_and!; [done| |apply NoDup_singleton].
  intros x Hx ->%list_elem_of_singleton. done.
Qed.

Lemma cells_absent rows c :
  (∀ r, r ∈ rows → c ∉ field_keys r) → cells rows c = repeat VNull (length rows).
Proof.
  induction rows as [|r rows IH]; intros Hc; cbn; [done|].
  rewrite (proj2 (field_lookup_None r c)) by (apply Hc; left). cbn. f_equal. apply IH. intros x Hx. apply Hc. by right.
Qed.

Lemma add_columns rows columns keys :
  NoDup columns → (∀ r k, r ∈ rows → k ∈ field_keys r → k ∈ columns) →
  foldl (add_column (length rows)) (mkRows columns (zip columns (map (cells rows) columns))) keys =
    mkRows (extend columns keys) (zip (extend columns keys) (map (cells rows) (extend columns keys))).
Proof.
  unfold extend. revert columns. induction keys as [|k keys IH]; intros columns Hd Hin; cbn [foldl]; [done|].
  unfold add_column at 2. cbn [rw_columns rw_data]. case_bool_decide as Hk; [by apply IH|].
  rewrite map_set_new by (by rewrite keys_zip by (by rewrite length_map)).
  rewrite <- (cells_absent rows k) by (intros r Hr Hkr; by apply Hk, (Hin r)).
  replace (zip columns (map (cells rows) columns) ++ [(k, cells rows k)])
    with (zip (columns ++ [k]) (map (cells rows) (columns ++ [k])))
    by (rewrite map_app, zip_with_app by (by rewrite length_map); done).
  apply IH.
  - apply NoDup_app. split_and!; [done| |apply NoDup_singleton]. intros x Hx ->%list_elem_of_singleton. done.
  - intros r x Hr Hx. apply elem_of_app. left. by eapply Hin.
Qed.

Lemma add_row_cells rows columns r :
  NoDup columns → (∀ r k, r ∈ rows → k ∈ field_keys r → k ∈ columns) →
  let columns' := extend columns (field_keys r) in
  add_row (length rows) r (mkRows columns (zip columns (map (cells rows) columns))) =
    mkRows columns' (zip columns' (map (cells (rows ++ [r])) columns')).
Proof.
  intros Hd Hin columns'. unfold add_row. rewrite add_columns by done. fold columns'. cbn [rw_columns rw_data].
  f_equal. rewrite foldl_push_named, push_columns; [|by apply NoDup_extend|by rewrite length_map|by rewrite length_map].
  f_equal. rewrite snoc_cells_map. apply map_ext. intros c. unfold cells. by rewrite map_app.
Qed.

Lemma record_rows_cells i before rows columns st' :
  NoDup columns → (∀ r k, r ∈ before → k ∈ field_keys r → k ∈ columns) → i = length before →
  record_rows i rows (mkRows columns (zip columns (map (cells before) columns))) = Ok st' →
  ∃ rs, rows = map VObject rs ∧
    let columns' := foldl extend columns (map field_keys rs) in
    NoDup columns' ∧ st' = mkRows columns' (zip columns' (map (cells (before ++ rs)) columns')).
Proof.
  revert i before columns. induction rows as [|v rows IH]; intros i dn columns Hd Hin Hi; cbn [record_rows].
  - intros [= <-]. exists []. rewrite app_nil_r. done.
  - destruct v as [| | | | |r]; try done. rewrite Hi, add_row_cells by done. intros Hr.
    apply IH in Hr as (rs & -> & Hnd & ->).
    + exists (r :: rs). by rewrite <- app_assoc in *.
    + by apply NoDup_extend.
    + intros x k Hx Hk. apply elem_extend. apply elem_of_app in Hx as [Hx|Hx]; [left; by eapply Hin|].
      apply list_elem_of_singleton in Hx as ->. by right.
    + rewrite length_app. cbn. lia.
Qed.

(** ... and rows that are objects are accepted. *)
Lemma record_rows_Ok i before rs columns :
  NoDup columns → (∀ r k, r ∈ before → k ∈ field_keys r → k ∈ columns) → i = length before →
  is_ok (record_rows i (map VObject rs) (mkRows columns (zip columns (map (cells before) columns)))) = true.
Proof.
  revert i before columns. induction rs as [|r rs IH]; intros i dn columns Hd Hin Hi; cbn [map record_rows]; [done|].
  rewrite Hi, add_row_cells by done. apply IH.
  - by apply NoDup_extend.
  - intros x k Hx Hk. apply elem_extend. apply elem_of_app in Hx as [Hx|Hx]; [left; by eapply Hin|].
    apply list_elem_of_singleton in Hx as ->. by right.
  - rewrite length_app. cbn. lia.
Qed.

Lemma record_rows_start rs :
  let columns := first_seen rs in NoDup columns ∧
  record_rows 0 (map VObject rs) (mkRows [] []) = Ok (mkRows columns (zip columns (map (cells rs) columns))).
Proof.
  cbn zeta. destruct (record_rows 0 (map VObject rs) (mkRows [] [])) as [st|e] eqn:E.
  - pose proof E as E'. apply (record_rows_cells 0 [] _ []) in E' as (rs' & Hrs & Hnd & ->); [|constructor|by intros ? ? ?%not_elem_of_nil|done].
    assert (rs' = rs) as -> by (symmetry; by apply (inj (fmap VObject))). by split.
  - pose proof (record_rows_Ok 0 [] rs [] (NoDup_nil_2) ltac:(by intros ? ? ?%not_elem_of_nil) eq_refl) as Hok.
    cbn in Hok. by rewrite E in Hok.
Qed.

Lemma index_rows_records i fs st st' :
  index_rows i fs st = Ok st' → record_rows i (map snd fs) st = Ok st'.
Proof.
  revert i st. induction fs as [|[l v] fs IH]; intros i st; cbn; [done|]. destruct v; try done. apply IH.
Qed.

Lemma cells_length rows cs : Forall (λ vs, length vs = length rows) (map (cells rows) cs).
Proof. apply Forall_map, Forall_forall. intros c _. apply length_map. Qed.

Lemma synthetic_length n : length (synthetic_index n) = n.
Proof. unfold synthetic_index. by rewrite length_map, length_seq. Qed.

(** The records layout, read exactly: a column per key as first seen, in every row
    its value or [null]. *)
Lemma records_view rs :
  parseRecords (VArray (map VObject rs)) =
    Ok (mkParsed Records (first_seen rs) (synthetic_index (length rs)) Synthetic
          (zip (first_seen rs) (map (cells rs) (first_seen rs))) None None).
Proof.
  unfold parseRecords. destruct (record_rows_start rs) as [Hd ->]. cbn [res_bind rw_columns rw_data].
  unfold finalizeFrame. rewrite finalize_zip by (done || by rewrite length_map). cbn. by rewrite length_map.
Qed.

(** * Rows of arrays *)

Lemma array_rows_cells orient m1 m2 path columns i rows vss data :
  NoDup columns → length vss = length columns →
  array_rows orient m1 m2 path columns i rows (zip columns vss) = Ok data →
  ∃ rs, rows = map VArray rs ∧ Forall (λ r, length r = length columns) rs ∧
    data = zip columns (foldl snoc_cells vss rs).
Proof.
  intros Hd. revert i vss. induction rows as [|v rows IH]; intros i vss Hl; cbn [array_rows].
  - intros [= <-]. by exists [].
  - destruct v as [| | | |r|]; try done. intros Hr. apply res_bind_Ok in Hr as ([] & Hw & Hr).
    apply guard_Ok, Nat.eqb_eq in Hw. unfold push_cells in Hr. rewrite push_columns in Hr by done.
    apply IH in Hr as (rs & -> & Hrs & ->).
    + exists (r :: rs). split_and!; [done|by constructor|done].
    + unfold snoc_cells. rewrite length_zip_with. lia.
Qed.

Lemma array_rows_Ok orient m1 m2 path columns i rs vss :
  NoDup columns → length vss = length columns → Forall (λ r, length r = length columns) rs →
  array_rows orient m1 m2 path columns i (map VArray rs) (zip columns vss) = Ok (zip columns (foldl snoc_cells vss rs)).
Proof.
  intros Hd Hl Hw. revert i vss Hl. induction Hw as [|r rs Hr _ IH]; intros i vss Hl; cbn [map array_rows foldl]; [done|].
  rewrite (proj2 (Nat.eqb_eq _ _) Hr). cbn [guard res_bind]. unfold push_cells. rewrite push_columns by done.
  apply IH. unfold snoc_cells. rewrite length_zip_with. lia.
Qed.

Definition no_cells (columns : list jsstr) : list (list JsonValue) := map (λ _, []) columns.

Lemma snoc_lengths rs w vss n :
  length vss = w → Forall (λ vs, length vs = n) vss → Forall (λ r, length r = w) rs →
  length (foldl snoc_cells vss rs) = w ∧ Forall (λ vs, length vs = n + length rs)%nat (foldl snoc_cells vss rs).
Proof.
  intros Hl Hn Hrs. revert n vss Hl Hn. induction Hrs as [|r rs Hr _ IH]; intros n vss Hl Hn; cbn [foldl length].
  { rewrite Nat.add_0_r. done. }
  replace (n + S (length rs))%nat with (S n + length rs)%nat by lia. apply IH.
  - unfold snoc_cells. rewrite length_zip_with. lia.
  - clear IH. unfold snoc_cells. rewrite <- Hl in Hr. clear Hl. revert r Hr.
    induction Hn as [|vs vss Hvs _ IHv]; intros [|v r] Hr; cbn; try done; constructor; [rewrite length_app; cbn; lia|].
    apply IHv. by injection Hr.
Qed.

(** Reading the columns row by row gives the rows back. *)
Lemma rows_of_columns rs w vss n :
  length vss = w → Forall (λ vs, length vs = n) vss → Forall (λ r, length r = w) rs →
  map (λ i, map (λ vs, default VNull (vs !! i)) (foldl snoc_cells vss rs)) (seq n (length rs)) = rs ∧
  ∀ i, (i < n)%nat → map (λ vs, default VNull (vs !! i)) (foldl snoc_cells vss rs) = map (λ vs, default VNull (vs !! i)) vss.
Proof.
  intros Hl Hn Hrs. revert n vss Hl Hn. induction Hrs as [|r rs Hr _ IH]; intros n vss Hl Hn; cbn [foldl length seq map].
  { done. }
  assert (Forall (λ vs, length vs = S n) (snoc_cells vss r) ∧ length (snoc_cells vss r) = w ∧
    map (λ vs, default VNull (vs !! n)) (snoc_cells vss r) = r ∧
    ∀ i, (i < n)%nat → map (λ vs, default VNull (vs !! i)) (snoc_cells vss r) = map (λ vs, default VNull (vs !! i)) vss)
    as (H1 & H2 & H3 & H4).
  { clear IH. unfold snoc_cells. rewrite length_zip_with. split_and!.
    - rewrite <- Hl in Hr. clear Hl. revert r Hr. induction Hn as [|vs vss Hvs _ IHv]; intros [|v r] Hr; cbn; try done.
      constructor; [rewrite length_app; cbn; lia|apply IHv; by injection Hr].
    - lia.
    - rewrite <- Hl in Hr. clear Hl. revert r Hr. induction Hn as [|vs vss Hvs _ IHv]; intros [|v r] Hr; cbn; try done.
      rewrite lookup_app_r, Hvs, Nat.sub_diag by lia. cbn. f_equal. apply IHv. by injection Hr.
    - intros i Hi. rewrite <- Hl in Hr. clear Hl. revert r Hr. induction Hn as [|vs vss Hvs _ IHv]; intros [|v r] Hr; cbn; try done.
      rewrite lookup_app_l by lia. f_equal. apply IHv. by injection Hr. }
  destruct (IH (S n) _ H2 H1) as [IHrows IHkeep]. split.
  - f_equal; [|exact IHrows]. rewrite IHkeep by lia. done.
  - intros i Hi. rewrite IHkeep by lia. by apply H4.
Qed.

(** * What each layout parses to *)

Lemma records_parsed j p : parseRecords j = Ok p →
  ∃ rs, j = VArray (map VObject rs) ∧
    p = mkParsed Records (first_seen rs) (synthetic_index (length rs)) Synthetic
          (zip (first_seen rs) (map (cells rs) (first_seen rs))) None None.
Proof.
  intros Hp. destruct j as [| | | |rows|]; try done. pose proof Hp as Hp'. unfold parseRecords in Hp'.
  apply res_bind_Ok in Hp' as (st' & Hr & _).
  apply (record_rows_cells 0 [] _ []) in Hr as (rs & -> & _); [|constructor|by intros ? ? ?%not_elem_of_nil|done].
  exists rs. split; [done|]. rewrite records_view in Hp. by injection Hp.
Qed.

Lemma index_parsed j p : parseIndex j = Ok p →
  ∃ fs rs, j = VObject fs ∧ map snd fs = map VObject rs ∧
    p = mkParsed Index (first_seen rs) (map LString (field_keys fs)) Source
          (zip (first_seen rs) (map (cells rs) (first_seen rs))) None None.
Proof.
  intros Hp. destruct j as [| | | | |fs]; try done. unfold parseIndex in Hp.
  apply res_bind_Ok in Hp as (st' & Hr & Hp). apply index_rows_records in Hr. pose proof Hr as Hr'.
  apply (record_rows_cells 0 [] _ []) in Hr' as (rs & Hrs & _); [|constructor|by intros ? ? ?%not_elem_of_nil|done].
  exists fs, rs. split; [done|]. split; [done|]. rewrite Hrs in Hr. destruct (record_rows_start rs) as [Hd Hs].
  rewrite Hs in Hr. injection Hr as <-. unfold finalizeFrame in Hp. cbn [rw_columns rw_data] in Hp.
  rewrite finalize_zip in Hp by (done || by rewrite length_map). by injection Hp.
Qed.

Lemma map_snd_zip_fields (fs : json_object) (vs : list JsonValue) :
  length vs = length fs → map snd (zip (field_keys fs) vs) = vs.
Proof. intros Hl. apply snd_zip. unfold field_keys. rewrite length_map. lia. Qed.

(** The columns of [columns]: objects with the same keys. *)
Lemma column_entries_cells index done_keys done_cells fs index' data :
  length done_cells = length done_keys → NoDup (done_keys ++ field_keys fs) →
  column_entries index (zip done_keys done_cells) fs = Ok (index', data) →
  ∃ cols, map snd fs = map VObject cols ∧
    Forall (λ c, index' = Some (field_keys c)) cols ∧
    (index' = index ∨ fs ≠ []) ∧ (∀ ks, index = Some ks → index' = Some ks) ∧
    data = zip (done_keys ++ field_keys fs) (done_cells ++ map (map snd) cols).
Proof.
  revert index done_keys done_cells. induction fs as [|[k v] fs IH]; intros index dk dc Hl Hd Hc.
  { cbn in Hc. injection Hc as <- <-. exists []. cbn. rewrite !app_nil_r. split_and!; [done|constructor|by left|done|done]. }
  cbn [column_entries] in Hc. destruct v as [| | | | |c]; try done.
  apply res_bind_Ok in Hc as (ks & Hks & Hc). cbn [field_keys map fst] in Hd.
  assert (ks = field_keys c ∧ ∀ x, index = Some x → x = ks) as [-> Hindex].
  { destruct index as [x|]; [|by injection Hks as <-]. case_bool_decide as Hx; [|done]. injection Hks as <-.
    split; [done|]. by intros y [= ->]. }
  assert (k ∉ dk) as Hk by (apply NoDup_app in Hd as (_ & Hd & _); intros Hk; apply (Hd k Hk); left).
  rewrite map_set_new in Hc by (by rewrite keys_zip).
  replace (zip dk dc ++ [(k, map snd c)]) with (zip (dk ++ [k]) (dc ++ [map snd c])) in Hc
    by (by rewrite zip_with_app by done).
  apply IH in Hc as (cols & Hs & Hkeys & _ & Hsome & ->).
  - exists (c :: cols). cbn. rewrite Hs. split_and!; [done| |by right| |].
    + constructor; [by apply Hsome|done].
    + intros x Hx. rewrite (Hindex x Hx). by apply Hsome.
    + by rewrite <- !app_assoc.
  - rewrite !length_app. cbn. lia.
  - by rewrite <- app_assoc.
Qed.

Lemma columns_parsed fs p : NoDup (field_keys fs) → parseColumns (VObject fs) = Ok p →
  ∃ cols keys, map snd fs = map VObject cols ∧ Forall (λ c, field_keys c = keys) cols ∧ (cols = [] → keys = []) ∧
    p = mkParsed Columns (field_keys fs) (map LString keys) Source
          (zip (field_keys fs) (map (map snd) cols)) None None.
Proof.
  intros Hd Hp. unfold parseColumns in Hp. apply res_bind_Ok in Hp as ([index data] & Hc & Hp).
  apply (column_entries_cells None [] []) in Hc as (cols & Hs & Hkeys & Hnone & _ & ->); [|done|done].
  exists cols, (default [] index). split; [done|]. split; [|split].
  - eapply Forall_impl; [exact Hkeys|]. by intros c ->.
  - intros ->. destruct Hnone as [->|Hne]; [done|]. by destruct fs.
  - unfold finalizeFrame in Hp. cbn [app] in Hp. rewrite finalize_zip in Hp; [by injection Hp|done|].
    apply (f_equal length) in Hs. rewrite !length_map in *. unfold field_keys. by rewrite length_map.
Qed.

Lemma no_cells_zip columns : NoDup columns → initializeData columns = zip columns (no_cells columns).
Proof. apply initialize_zip. Qed.
Lemma no_cells_length columns : length (no_cells columns) = length columns.
Proof. apply length_map. Qed.
Lemma no_cells_empty columns : Forall (λ vs, length vs = 0%nat) (no_cells columns).
Proof. apply Forall_map, Forall_forall. done. Qed.

Lemma values_parsed j o p : options_ok o → parseValues j o = Ok p →
  ∃ columns rs, op_columns o = Some columns ∧ NoDup columns ∧ j = VArray (map VArray rs) ∧
    Forall (λ r, length r = length columns) rs ∧
    p = mkParsed Values columns (synthetic_index (length rs)) Synthetic
          (zip columns (foldl snoc_cells (no_cells columns) rs)) None None.
Proof.
  intros (_ & Hd & _) Hp. unfold parseValues in Hp. destruct (op_columns o) as [columns|]; [|done].
  specialize (Hd columns eq_refl). destruct j as [| | | |rows|]; try done.
  apply res_bind_Ok in Hp as (data & Hr & Hp). rewrite no_cells_zip in Hr by done.
  apply array_rows_cells in Hr as (rs & -> & Hw & ->); [|done|apply no_cells_length].
  exists columns, rs. split_and!; [done..|]. unfold finalizeFrame in Hp.
  rewrite finalize_zip in Hp; [by rewrite length_map in Hp; injection Hp|done|].
  by apply (snoc_lengths _ _ _ 0); [apply no_cells_length|apply no_cells_empty|].
Qed.

Lemma unique_columns_values orient path i seen values cs :
  NoDup seen → unique_columns orient path i seen values = Ok cs →
  ∃ names, values = map VString names ∧ cs = seen ++ names ∧ NoDup cs.
Proof.
  revert i seen. induction values as [|v values IH]; intros i seen Hs; cbn [unique_columns].
  { intros [= <-]. exists []. by rewrite app_nil_r. }
  destruct v as [| | |s| |]; try done. case_bool_decide as Hin; [done|]. intros Hu.
  apply IH in Hu as (names & -> & -> & Hd).
  - exists (s :: names). by rewrite <- app_assoc in *.
  - apply NoDup_app. split_and!; [done| |apply NoDup_singleton]. intros x Hx ->%list_elem_of_singleton. done.
Qed.

Lemma split_index_labels items ls : split_index items = Ok ls → items = map label_value ls.
Proof.
  unfold split_index. intros Hm. apply res_mapM_Forall2 in Hm.
  assert (∀ n, Forall2 (λ iv y, assertSupportedIndexLabel iv.2 Split (appendIndexPath index_path iv.1) = Ok y)
    (zip (seq n (length items)) items) ls → items = map label_value ls) as Hg; [|by apply (Hg 0%nat)].
  clear Hm. revert ls. induction items as [|v items IH]; intros ls n Hf; cbn in Hf; inversion Hf as [|? l ? ls' Hl Hf']; subst; [done|].
  cbn. f_equal; [|by eapply IH]. cbn in Hl. destruct v as [| |x|s| |]; try done; cbn in Hl.
  - destruct (is_finite _); [|done]. by injection Hl as <-.
  - by injection Hl as <-.
Qed.

Lemma split_parsed fs p : parseSplit (VObject fs) = Ok p →
  ∃ columns rs index, field_lookup fs (js "columns") = Some (VArray (map VString columns)) ∧
    field_lookup fs (js "data") = Some (VArray (map VArray rs)) ∧
    (field_lookup fs (js "index") = Some (VArray (map label_value index)) ∨
     field_lookup fs (js "index") = None ∧ index = synthetic_index (length rs)) ∧
    NoDup columns ∧ length index = length rs ∧ Forall (λ r, length r = length columns) rs ∧
    ∃ kind, p = mkParsed Split columns index kind (zip columns (foldl snoc_cells (no_cells columns) rs)) None None.
Proof.
  unfold parseSplit. intros Hp.
  destruct (field_lookup fs (js "columns")) as [[| | | |cvs|]|]; try done.
  destruct (field_lookup fs (js "data")) as [[| | | |rows|]|]; try done.
  apply res_bind_Ok in Hp as (columns & Hc & Hp). apply res_bind_Ok in Hp as (labels & Hl & Hp).
  apply res_bind_Ok in Hp as ([] & Hlen & Hp). apply guard_Ok in Hlen. apply res_bind_Ok in Hp as (data & Hr & Hp).
  apply unique_columns_values in Hc as (names & -> & Hn & Hd); [|constructor]. cbn in Hn. subst names.
  rewrite no_cells_zip in Hr by done.
  apply array_rows_cells in Hr as (rs & -> & Hw & ->); [|done|apply no_cells_length].
  unfold finalizeFrame in Hp. rewrite finalize_zip in Hp; [|done|by apply (snoc_lengths _ _ _ 0); [apply no_cells_length|apply no_cells_empty|]].
  cbn [res_bind] in Hp. rewrite length_map in *.
  exists columns, rs, (default (synthetic_index (length rs)) labels).
  destruct (field_lookup fs (js "index")) as [[| | | |items|]|]; try done.
  - unfold res_map in Hl. apply res_bind_Ok in Hl as (ls & Hls & [= <-]). cbn in Hp |- *. apply Nat.eqb_eq in Hlen.
    split_and!; [done..| |done|done|done|injection Hp as <-; by eexists].
    left. by rewrite (split_index_labels _ _ Hls).
  - injection Hl as <-. cbn in Hp |- *. split_and!; [done..|by right|done|apply synthetic_length|done|injection Hp as <-; by eexists].
Qed.

Lemma unique_field_names_ok seen fields : unique_field_names seen fields = Ok tt → NoDup (map field_name fields).
Proof.
  intros Hu. assert (NoDup (map field_name fields) ∧ ∀ n, n ∈ map field_name fields → n ∉ seen) as [? _]; [|done].
  revert seen Hu. induction fields as [|f fields IH]; intros seen; cbn [unique_field_names map].
  { intros _. split; [constructor|]. by intros n Hn%not_elem_of_nil. }
  case_bool_decide as Hin; [done|]. intros [Hd Hn]%IH. split.
  - apply NoDup_cons. split; [|done]. intros Hf. apply (Hn _ Hf). left.
  - intros n [->|Hx]%elem_of_cons; [done|]. intros Hs. apply (Hn _ Hx). by right.
Qed.

Lemma table_rows_cells names columns pk i before rows index index' data :
  NoDup columns → table_rows names columns pk i rows index (zip columns (map (cells before) columns)) = Ok (index', data) →
  ∃ rs, rows = map VObject rs ∧ length index' = (length index + length rs)%nat ∧
    Forall (λ r, ∀ k, k ∈ field_keys r → k ∈ names) rs ∧
    data = zip columns (map (cells (before ++ rs)) columns).
Proof.
  intros Hd. revert i before index. induction rows as [|v rows IH]; intros i before index; cbn [table_rows].
  { intros [= <- <-]. exists []. rewrite app_nil_r, Nat.add_0_r. by split_and!. }
  destruct v as [| | | | |r]; try done. intros Hr. apply res_bind_Ok in Hr as ([] & Hk & Hr).
  apply res_bind_Ok in Hr as (l & _ & Hr).
  rewrite foldl_push_named, push_columns in Hr by (done || by rewrite length_map).
  rewrite snoc_cells_map in Hr.
  replace (map (λ a, cells before a ++ [default VNull (field_lookup r a)]) columns)
    with (map (cells (before ++ [r])) columns) in Hr by (apply map_ext; intros c; unfold cells; by rewrite map_app).
  apply IH in Hr as (rs & -> & Hl & Hns & ->). exists (r :: rs). rewrite <- app_assoc.
  split_and!; [done|rewrite Hl, length_app; cbn; lia| |done]. constructor; [|done].
  apply res_iter_Ok in Hk. rewrite Forall_forall in Hk. unfold field_keys. intros k Hin.
  apply list_elem_of_In, in_map_iff in Hin as (kv & <- & Hin). apply list_elem_of_In in Hin.
  specialize (Hk kv Hin). by apply guard_Ok, bool_decide_eq_true in Hk.
Qed.

Lemma table_parsed j p : parseTable j = Ok p →
  ∃ columns rs index kind schema pk, NoDup columns ∧ length index = length rs ∧
    p = mkParsed Table columns index kind (zip columns (map (cells rs) columns)) schema pk ∧
    ∃ fs, j = VObject fs ∧ field_lookup fs (js "data") = Some (VArray (map VObject rs)).
Proof.
  intros Hp. destruct j as [| | | | |fs]; try done. unfold parseTable in Hp.
  apply res_bind_Ok in Hp as ([[schema fields] pks] & Hs & Hp).
  assert (NoDup (map field_name fields)) as Hnames.
  { unfold cloneTableSchema in Hs. destruct (field_lookup fs (js "schema")) as [[| | | | |sf]|]; try done.
    destruct (field_lookup sf (js "fields")) as [[| | | |items|]|]; try done.
    apply res_bind_Ok in Hs as (fields' & _ & Hs). apply res_bind_Ok in Hs as ([] & Hu & Hs).
    apply res_bind_Ok in Hs as (pk & _ & Hs). apply res_bind_Ok in Hs as ([] & _ & Hs).
    apply res_bind_Ok in Hs as ([] & _ & Hs). injection Hs as _ <- _. by eapply unique_field_names_ok. }
  destruct (field_lookup fs (js "data")) as [[| | | |rows|]|] eqn:Hdata; try done.
  apply res_bind_Ok in Hp as ([] & _ & Hp). cbv zeta in Hp. apply res_bind_Ok in Hp as ([index data] & Hr & Hp).
  set (columns := filter _ (map field_name fields)) in *.
  assert (NoDup columns) as Hd by (by apply NoDup_filter).
  rewrite initialize_zip in Hr by done.
  apply (table_rows_cells _ _ _ _ []) in Hr as (rs & -> & Hl & _ & ->); [|done].
  unfold finalizeFrame in Hp. rewrite finalize_zip in Hp by (done || by rewrite length_map). injection Hp as <-.
  eexists columns, rs, index, _, _, _. split_and!; [done|exact Hl|done|by exists fs].
Qed.

(** * A parsed frame is well formed *)

Lemma json_ok_reduced j : json_ok j → cell_reduced j.
Proof. by destruct j. Qed.

Lemma field_ok (r : json_object) c : json_ok (VObject r) → json_ok (default VNull (field_lookup r c)).
Proof.
  intros [_ Hr]%json_ok_object. induction Hr as [|[k v] r Hv _ IH]; cbn; [done|]. by destruct (jsstr_eqb c k).
Qed.

Lemma cells_reduced rs columns : Forall json_ok (map VObject rs) → Forall (Forall cell_reduced) (map (cells rs) columns).
Proof.
  intros Hr. apply Forall_map, Forall_forall. intros c _. apply Forall_map. apply (Forall_map VObject) in Hr.
  eapply Forall_impl; [exact Hr|]. intros r Hok. apply json_ok_reduced. by apply field_ok.
Qed.

Lemma snoc_Forall (P : JsonValue → Prop) rs vss :
  Forall (Forall P) vss → Forall (Forall P) rs → Forall (Forall P) (foldl snoc_cells vss rs).
Proof.
  intros Hv Hr. revert vss Hv. induction Hr as [|r rs Hr _ IH]; intros vss Hv; cbn [foldl]; [done|]. apply IH.
  clear IH. unfold snoc_cells. revert r Hr. induction Hv as [|vs vss Hvs _ IHv]; intros [|v r] Hr; cbn; try constructor.
  - apply Forall_cons in Hr as [Hv Hr]. apply Forall_app. split; [done|by constructor].
  - apply Forall_cons in Hr as [Hv Hr]. by apply IHv.
Qed.

Lemma no_cells_Forall P columns : Forall (Forall P) (no_cells columns).
Proof. apply Forall_map, Forall_forall. constructor. Qed.

Lemma rows_ok rs : Forall json_ok (map VArray rs) → Forall (Forall json_ok) rs.
Proof. intros Hr%(Forall_map VArray). eapply Forall_impl; [exact Hr|]. intros r. apply json_ok_array. Qed.

Lemma rows_reduced rs columns : Forall json_ok (map VArray rs) →
  Forall (Forall cell_reduced) (foldl snoc_cells (no_cells columns) rs).
Proof.
  intros Hr%rows_ok. apply snoc_Forall; [apply no_cells_Forall|].
  eapply Forall_impl; [exact Hr|]. intros r Hj. eapply Forall_impl; [exact Hj|]. intros j. apply json_ok_reduced.
Qed.

Lemma view_of_cells orient columns index kind schema pk rs : NoDup columns → length index = length rs →
  Forall json_ok (map VObject rs) →
  parsed_view (mkParsed orient columns index kind (zip columns (map (cells rs) columns)) schema pk) (map (cells rs) columns).
Proof.
  intros Hd Hl Hr. constructor; cbn; [done|done|by rewrite length_map| |by apply cells_reduced]. rewrite Hl. apply cells_length.
Qed.

Lemma view_of_rows orient columns index kind schema pk rs : NoDup columns → length index = length rs →
  Forall (λ r, length r = length columns) rs → Forall json_ok (map VArray rs) →
  parsed_view (mkParsed orient columns index kind (zip columns (foldl snoc_cells (no_cells columns) rs)) schema pk)
    (foldl snoc_cells (no_cells columns) rs).
Proof.
  intros Hd Hl Hw Hr. destruct (snoc_lengths rs (length columns) (no_cells columns) 0 (no_cells_length _) (no_cells_empty _) Hw).
  constructor; cbn; [done..|by rewrite Hl|by apply rows_reduced].
Qed.

Lemma lookup_ok (fs : json_object) k v : json_ok (VObject fs) → field_lookup fs k = Some v → json_ok v.
Proof. intros Hok Hk. pose proof (field_ok fs k Hok) as H0. by rewrite Hk in H0. Qed.

Lemma first_seen_NoDup rs : NoDup (first_seen rs).
Proof. apply (record_rows_start rs). Qed.

Lemma parse_view orient j o p : options_ok o → json_ok j → parse_orient orient j o = Ok p →
  ∃ vss, parsed_view p vss.
Proof.
  intros Ho Hj Hp. destruct orient; cbn [parse_orient] in Hp.
  - apply records_parsed in Hp as (rs & -> & ->). eexists.
    apply json_ok_array in Hj. apply view_of_cells; [apply first_seen_NoDup|apply synthetic_length|done].
  - apply index_parsed in Hp as (fs & rs & -> & Hs & ->). eexists.
    apply json_ok_object in Hj as [_ Hj]. apply (Forall_map snd) in Hj. rewrite Hs in Hj.
    apply view_of_cells; [apply first_seen_NoDup| |done].
    apply (f_equal length) in Hs. rewrite !length_map in *. unfold field_keys. by rewrite length_map.
  - destruct j as [| | | | |fs]; try done. apply json_ok_object in Hj as [Hk Hj]. apply (Forall_map snd) in Hj.
    apply columns_parsed in Hp as (cols & keys & Hs & Hkeys & _ & ->); [|by apply key_order_NoDup].
    exists (map (map snd) cols). constructor; cbn.
    + by apply key_order_NoDup.
    + done.
    + apply (f_equal length) in Hs. rewrite !length_map in *. unfold field_keys. by rewrite length_map.
    + apply Forall_map. eapply Forall_impl; [exact Hkeys|]. cbn. intros c <-. unfold field_keys. by rewrite !length_map.
    + rewrite Hs in Hj. apply (Forall_map VObject) in Hj. apply (Forall_map (map snd)). eapply Forall_impl; [exact Hj|]. cbn beta.
      intros c [_ Hc]%json_ok_object. apply (Forall_map snd). eapply Forall_impl; [exact Hc|]. intros kv. apply json_ok_reduced.
  - apply values_parsed in Hp as (columns & rs & _ & Hd & -> & Hw & ->); [|done].
    apply json_ok_array in Hj. eexists. by apply view_of_rows; [|apply synthetic_length|..].
  - destruct j as [| | | | |fs]; try done.
    apply split_parsed in Hp as (columns & rs & index & _ & Hdata & _ & Hd & Hl & Hw & kind & ->).
    apply (lookup_ok _ _ _ Hj), json_ok_array in Hdata. eexists. by apply view_of_rows.
  - apply table_parsed in Hp as (columns & rs & index & kind & schema & pk & Hd & Hl & -> & fs & -> & Hdata).
    apply (lookup_ok _ _ _ Hj), json_ok_array in Hdata. eexists. by apply view_of_cells.
Qed.

(** What [fromOrient] did: the tree it read, the layout, the parsed frame. *)
Lemma fromOrient_inv H input options df :
  heap_wf H → value_ok input → fromOrient H input options = Ok df →
  ∃ o j orient p, normalizeFromOrientOptions H options = Ok o ∧ options_ok o ∧ reads H input j ∧ json_ok j ∧
    finite_json j ∧ match op_orient o with Auto => detectOrient j = Ok orient | Resolved r => orient = r end ∧
    parse_orient orient j o = Ok p ∧ buildFrameState p (op_packThreshold o) (op_columnTypes o) = Ok (df_state df) ∧
    df_packThreshold df = op_packThreshold o.
Proof.
  intros Hw Hv Hf. unfold fromOrient in Hf. apply res_bind_Ok in Hf as (o & Hn & Hf).
  apply res_bind_Ok in Hf as (p & Hp & Hf). apply res_bind_Ok in Hf as (st & Hst & [= <-]).
  pose proof (normalizeFromOrientOptions_ok _ _ _ Hn) as Ho.
  apply parseInput_reads in Hp as (j & orient & Hr & Hj & Hfin & Hor & Hp); [|done..].
  by exists o, j, orient, p.
Qed.
