(* ===== verification/FrameTheorems.v ===== *)
(** json-frame: the theorems about whole frames. *)

From Stdlib Require Import Sorting.Sorted.
From stdpp Require Import sorting.
From S2P Require Import Prelude JsValue JsJson JsMap FrameValue FrameTraverse FrameAccept FrameOptions FrameParse FrameSchema FrameColumn FrameExport FrameTable FrameLaws FrameState FrameWf FrameRoundtrip.

(** * The traversal *)

(** C32: The loop that copies the input ends on every heap, cyclic ones included.  It
    returns [j] exactly when the value, read as a tree in which shared containers
    are repeated, is [j], nests no deeper than the limit and has at most
    [maxNodes] nodes; the check of the output ends with the same verdict and the
    same error, without a copy. *)
Theorem traversal_exact (H : heap) orient maxNodes path v :
  heap_ok H → affords 0 maxNodes →
  ∃ r, cloneJsonCompatible H orient maxNodes v path = Some r ∧
    assertJsonCompatible H orient maxNodes v path = Some (res_map (λ _, tt) r) ∧
    ∀ j, r = Ok j ↔ unfolds H v j ∧ (depth j <= S JSON_FRAME_MAX_DEPTH)%nat ∧ affords (nodes j) maxNodes.
Proof.
  intros Hok Hb. eexists. split; [apply clone_reference|]. split.
  - rewrite assert_reference. generalize (copy H orient maxNodes (S JSON_FRAME_MAX_DEPTH) ∅ (PRoot path) v maxNodes).
    by intros [[j b]|e].
  - intros j. by apply copy_accepts.
Qed.

(** * Frames *)

(** The frames a program can hold. *)
Inductive reachable : DataFrame → Prop :=
  | reach_from H input options df :
      heap_wf H → value_ok input → fromOrient H input options = Ok df → reachable df
  | reach_filter df predicate df' : reachable df → frame_filter df predicate = Ok df' → reachable df'
  | reach_sort df compare df' : reachable df → frame_sort df compare = Ok df' → reachable df'
  | reach_select df columns df' : reachable df → select df columns = Ok df' → reachable df'
  | reach_rename df H mapping df' : reachable df → rename df H mapping = Ok df' → reachable df'
  | reach_reset df df' : reachable df → resetIndex df = Ok df' → reachable df'.

Lemma from_ok H input options df :
  heap_wf H → value_ok input → fromOrient H input options = Ok df → frame_ok (df_state df).
Proof.
  intros Hw Hv Hf. apply fromOrient_inv in Hf as (o & j & orient & p & _ & Ho & _ & Hj & _ & _ & Hp & Hb & _); [|done..].
  apply parse_view in Hp as [vss Hview]; [|done..].
  destruct (build_view _ _ _ _ _ Hview Hb) as (stored & infos & Hv' & _). by exists stored, infos.
Qed.

Lemma derives_ok df r df' : derives (df:=df) r → r = Ok df' → frame_ok (df_state df').
Proof. intros (df2 & -> & Hok & _) [= <-]. done. Qed.

Lemma reachable_frame_ok df : reachable df → frame_ok (df_state df).
Proof.
  induction 1 as [H i o df Hw Hv Hf|df p df' _ IH Hr|df c df' _ IH Hr|df cs df' _ IH Hr|df H m df' _ IH Hr|df df' _ IH Hr].
  - by eapply from_ok.
  - exact (derives_ok _ _ _ (filter_derives IH p) Hr).
  - exact (derives_ok _ _ _ (sort_derives IH c) Hr).
  - unfold select in Hr. apply res_bind_Ok in Hr as ([] & Hc & Hr).
    apply (derives_ok df (select df cs)); [by apply select_derives|]. unfold select. by rewrite Hc.
  - apply (derives_ok df (rename df H m)); [|done]. apply rename_derives; [done|]. by rewrite Hr.
  - exact (derives_ok _ _ _ (reset_derives IH) Hr).
Qed.

(** C29: Whatever the input and the operations applied, a frame has one stored cell for
    every column and label, its columns are distinct, and a column is nullable
    exactly when it holds a null; filtering, sorting and resetting the index
    never fail, and no reachable frame fails to give its rows. *)
Theorem frames_well_formed (df : DataFrame) :
  reachable df →
  frame_ok (df_state df) ∧
  (∀ predicate, is_ok (frame_filter df predicate) = true) ∧
  (∀ compare, is_ok (frame_sort df compare) = true) ∧
  is_ok (resetIndex df) = true ∧ is_ok (rows df) = true.
Proof.
  intros Hok%reachable_frame_ok. split; [done|]. split_and!.
  - intros p. destruct (filter_derives Hok p) as (df' & -> & _). done.
  - intros c. destruct (sort_derives Hok c) as (df' & -> & _). done.
  - destruct (reset_derives Hok) as (df' & -> & _). done.
  - destruct Hok as (stored & infos & Hv). by rewrite (rows_Ok Hv df).
Qed.

(** C33: Packing a column into a typed array is invisible: every cell reads back as it
    was, negative zeros and numbers out of the 32-bit range included. *)
Theorem packing_invisible (values : list JsonValue) info threshold i :
  Forall cell_reduced values →
  getStoredColumnValue (packColumn values info threshold) i = default VNull (values !! i).
Proof. intros Hr. by rewrite stored_at, stored_packed. Qed.

(** * Round trips *)

Lemma held_rows st stored infos vss i : frame_view st stored infos → holds vss stored →
  map (λ c, getStoredColumnValue c i) stored = map (λ vs, default VNull (vs !! i)) vss.
Proof. intros _ <-. rewrite map_map. apply map_ext. intros c. apply stored_at. Qed.

Lemma exported_rows st stored infos columns rs :
  frame_view st stored infos → holds (foldl snoc_cells (no_cells columns) rs) stored →
  length (fs_index st) = length rs → Forall (λ r, length r = length columns) rs →
  value_rows st = Ok (map VArray rs).
Proof.
  intros Hv Hh Hi Hw. unfold value_rows. rewrite (stored_resolved Hv). cbn [res_bind]. f_equal.
  unfold row_numbers. rewrite Hi.
  destruct (rows_of_columns rs (length columns) (no_cells columns) 0 (no_cells_length _) (no_cells_empty _) Hw) as [Hrows _].
  rewrite <- Hrows at 2. rewrite map_map. apply map_ext. intros i. f_equal. by eapply held_rows.
Qed.

Lemma index_keys_Ok orient seen labels :
  NoDup (map_keys seen ++ map label_string labels) → index_keys orient seen labels = Ok (map label_string labels).
Proof.
  revert seen. induction labels as [|l labels IH]; intros seen Hd; cbn [index_keys map]; [done|].
  assert (label_string l ∉ map_keys seen) as Hn.
  { apply NoDup_app in Hd as (_ & Hd & _). intros Hk. apply (Hd _ Hk). left. }
  rewrite (proj2 (get_None _ _) Hn). rewrite IH; [done|].
  rewrite map_set_new by done. unfold map_keys in *. by rewrite map_app, <- app_assoc.
Qed.

Lemma zip_field_keys (c : json_object) : zip (field_keys c) (map snd c) = c.
Proof. apply zip_fst_snd. Qed.

Lemma exported_columns st stored infos (cols : list json_object) (keys : list jsstr) :
  frame_view st stored infos → holds (map (map snd) cols) stored →
  fs_index st = map LString keys → NoDup keys →
  Forall (λ c, field_keys c = keys ∧ key_order (field_keys c)) cols →
  key_order (fs_columns st) →
  exportColumns st = Ok (VObject (zip (fs_columns st) (map VObject cols))).
Proof.
  intros Hv Hh Hi Hd Hc Ho. unfold exportColumns, resolveIndexKeys. rewrite Hi, index_keys_Ok.
  2: { cbn. rewrite map_map. cbn. by rewrite map_id. }
  rewrite map_map. cbn [res_bind label_string]. rewrite map_id.
  assert (length cols = length (fs_columns st)) as Hlen.
  { apply (f_equal length) in Hh. rewrite !length_map in Hh. rewrite <- Hh. apply (fv_stored _ _ _ Hv). }
  match goal with |- res_bind (res_mapM ?f _) _ = _ =>
    assert (res_mapM f (fs_columns st) = Ok (zip (fs_columns st) (map VObject cols))) as -> end.
  - apply res_mapM_Forall2, Forall2_same_length_lookup. split; [rewrite length_zip_with, length_map; lia|].
    intros i c [c' v] Hci Hx. apply lookup_zip_Some in Hx as [Hx1 Hx2]. assert (c' = c) as -> by congruence.
    destruct (view_column Hv i c Hci) as (s & _ & Hs & _ & Hds & _). unfold getStoredColumn. rewrite Hds. cbn [res_bind].
    rewrite list_lookup_fmap in Hx2. destruct (cols !! i) as [co|] eqn:Hco; [|done]. injection Hx2 as <-.
    rewrite Forall_forall in Hc. destruct (Hc co) as [Hk Hko]; [by eapply list_elem_of_lookup_2|].
    assert (stored_values s = map snd co) as Hsv.
    { apply (f_equal (lookup i)) in Hh. rewrite !list_lookup_fmap, Hs, Hco in Hh. by injection Hh. }
    assert (length (stored_values s) = length (fs_index st)) as Hl.
    { destruct (view_column Hv i c Hci) as (s' & _ & Hs' & _ & _ & _ & Hl & _). congruence. }
    assert (map (getStoredColumnValue s) (row_numbers st) = stored_values s) as ->.
    { unfold row_numbers. rewrite <- Hl. apply list_eq. intros n. rewrite list_lookup_fmap.
      destruct (stored_values s !! n) as [v|] eqn:Hn.
      - rewrite lookup_seq_lt by (by eapply lookup_lt_Some). cbn. by rewrite stored_at, Hn.
      - apply lookup_ge_None in Hn. by rewrite lookup_seq_ge. }
    rewrite Hsv, <- Hk, zip_field_keys, put_all_ordered by done. done.
  - cbn [res_bind]. rewrite put_all_ordered; [done|].
    change (key_order (map fst (zip (fs_columns st) (map VObject cols)))). rewrite fst_zip; [done|].
    rewrite length_map. lia.
Qed.

(** C30: Exporting a frame to the layout it was read from gives the input back: the
    whole value for [values] and [columns]; for [split] its columns, its labels
    ([0 .. n-1] where it has none) and its data.  Packed columns and explicit
    column types make no difference. *)
Theorem layout_roundtrip (H : heap) input options o df :
  heap_wf H → value_ok input →
  normalizeFromOrientOptions H options = Ok o → fromOrient H input options = Ok df →
  ∃ j, reads H input j ∧
    match op_orient o with
    | Resolved Values => exportValues (df_state df) = Ok j
    | Resolved Columns => exportColumns (df_state df) = Ok j
    | Resolved Split => ∃ fs columns index data, j = VObject fs ∧
        exportSplit (df_state df) =
          Ok (VObject [(js "columns", columns); (js "index", index); (js "data", data)]) ∧
        field_lookup fs (js "columns") = Some columns ∧ field_lookup fs (js "data") = Some data ∧
        match field_lookup fs (js "index") with
        | Some i => index = i
        | None => ∃ n, index = VArray (map label_value (synthetic_index n))
        end
    | _ => True
    end.
Proof.
  intros Hw Hv Hn Hf. apply fromOrient_inv in Hf as (o' & j & orient & p & Hn' & Ho & Hr & Hj & _ & Hor & Hp & Hb & _); [|done..].
  assert (o' = o) as -> by congruence. exists j. split; [done|].
  destruct (op_orient o) as [|r]; [done|]. subst orient.
  destruct (parse_view r j o p Ho Hj Hp) as [vss Hview].
  destruct (build_view _ _ _ _ _ Hview Hb) as (stored & infos & Hv' & Hh & Hcol & Hidx & _).
  assert (∀ vss', pf_data p = zip (pf_columns p) vss' → length vss' = length (pf_columns p) → vss = vss') as Hsame.
  { intros vss' Hd Hl. rewrite (pv_data _ _ Hview) in Hd. apply (f_equal (map snd)) in Hd.
    rewrite !snd_zip in Hd by (rewrite ?(pv_length _ _ Hview); lia). done. }
  destruct r; try done; cbn [parse_orient] in Hp.
  - destruct j as [| | | | |fs]; try done. apply json_ok_object in Hj as [Hk Hj]. apply (Forall_map snd) in Hj.
    apply columns_parsed in Hp as (cols & keys & Hs & Hkeys & Hnone & ->); [|by apply key_order_NoDup]. cbn in *.
    assert (vss = map (map snd) cols) as ->.
    { apply Hsame; [done|]. apply (f_equal length) in Hs. rewrite !length_map in *. unfold field_keys. by rewrite length_map. }
    rewrite Hs in Hj. apply (Forall_map VObject) in Hj.
    assert (Forall (λ c, field_keys c = keys ∧ key_order (field_keys c)) cols) as Hc.
    { apply Forall_and. split; [done|]. eapply Forall_impl; [exact Hj|]. by intros c [? _]%json_ok_object. }
    rewrite (exported_columns _ _ _ cols keys Hv'); [|done|done| |done|by rewrite Hcol].
    + rewrite Hcol, <- Hs. by rewrite zip_field_keys.
    + destruct cols as [|c cols]; [rewrite Hnone by done; constructor|].
      apply Forall_cons in Hc as [[<- Ho2] _]. by apply key_order_NoDup.
  - apply values_parsed in Hp as (columns & rs & _ & Hd & -> & Hwd & ->); [|done]. cbn in *.
    assert (vss = foldl snoc_cells (no_cells columns) rs) as ->.
    { apply Hsame; [done|]. by apply (snoc_lengths _ _ _ 0); [apply no_cells_length|apply no_cells_empty|]. }
    unfold exportValues. rewrite (exported_rows _ _ _ columns rs Hv') by (rewrite ?Hidx, ?synthetic_length; done). done.
  - destruct j as [| | | | |fs]; try done.
    apply split_parsed in Hp as (columns & rs & index & Hc & Hdata & Hindex & Hd & Hl & Hwd & kind & ->). cbn in *.
    assert (vss = foldl snoc_cells (no_cells columns) rs) as ->.
    { apply Hsame; [done|]. by apply (snoc_lengths _ _ _ 0); [apply no_cells_length|apply no_cells_empty|]. }
    eexists fs, _, _, _. split; [done|]. unfold exportSplit.
    rewrite (exported_rows _ _ _ columns rs Hv') by (rewrite ?Hidx; done). cbn [res_bind].
    rewrite Hcol, Hidx. split_and!; [done|done|done|].
    destruct Hindex as [->|[-> ->]]; [done|by eexists].
Qed.

(** * Records *)

Lemma lookup_zip_map {A} (cols : list jsstr) (f : jsstr → A) c :
  field_lookup (zip cols (map f cols)) c = if bool_decide (c ∈ cols) then Some (f c) else None.
Proof.
  induction cols as [|c0 cols IH]; cbn; [by rewrite bool_decide_eq_false_2 by apply not_elem_of_nil|].
  destruct (jsstr_eqb c c0) eqn:E.
  - apply jsstr_eqb_true in E as ->. rewrite bool_decide_eq_true_2; [done|left].
  - apply jsstr_eqb_false in E. rewrite IH. do 2 case_bool_decide; try done.
    + exfalso. apply H0. by right.
    + exfalso. apply elem_of_cons in H0 as [?|?]; done.
Qed.

(** C31: Records come back with every column of the frame: the keys of all the rows as
    first seen, each with the row's own value or [null] where the row has none. *)
Theorem records_exact (H : heap) input options o df :
  heap_wf H → value_ok input →
  normalizeFromOrientOptions H options = Ok o → op_orient o = Resolved Records →
  fromOrient H input options = Ok df →
  ∃ rs rows, reads H input (VArray (map VObject rs)) ∧
    fs_columns (df_state df) = first_seen rs ∧ fs_index (df_state df) = synthetic_index (length rs) ∧
    exportRecords (df_state df) = Ok (VArray (map VObject rows)) ∧
    Forall2 (λ r row, ∀ c, field_lookup row c =
      if bool_decide (c ∈ first_seen rs) then Some (default VNull (field_lookup r c)) else None) rs rows.
Proof.
  intros Hw Hv Hn Hor0 Hf. apply fromOrient_inv in Hf as (o' & j & orient & p & Hn' & Ho & Hr & Hj & _ & Hor & Hp & Hb & _); [|done..].
  assert (o' = o) as -> by congruence. rewrite Hor0 in Hor. subst orient. cbn [parse_orient] in Hp.
  destruct (parse_view Records j o p Ho Hj Hp) as [vss Hview].
  destruct (build_view _ _ _ _ _ Hview Hb) as (stored & infos & Hv' & Hh & Hcol & Hidx & _).
  apply records_parsed in Hp as (rs & -> & ->). cbn in *.
  assert (vss = map (cells rs) (first_seen rs)) as ->.
  { pose proof (pv_data _ _ Hview) as Hd. cbn in Hd. apply (f_equal (map snd)) in Hd.
    pose proof (pv_length _ _ Hview) as Hl. cbn in Hl. rewrite !snd_zip in Hd by (rewrite ?length_map; lia). done. }
  exists rs, (map (λ i, row_record (first_seen rs) stored i) (seq 0 (length rs))).
  split_and!; [done..| |].
  - unfold exportRecords, row_numbers. rewrite (stored_resolved Hv'). cbn [res_bind].
    rewrite Hcol, Hidx, synthetic_length. by rewrite map_map.
  - apply Forall2_same_length_lookup. split; [by rewrite length_map, length_seq|].
    intros i r row Hi Hrow c. rewrite list_lookup_fmap in Hrow.
    pose proof (lookup_lt_Some _ _ _ Hi) as Hlt. rewrite lookup_seq_lt in Hrow by done. injection Hrow as <-. cbn [Nat.add].
    unfold row_record. rewrite (held_rows _ _ _ _ _ Hv' Hh), map_map.
    rewrite field_lookup_put_all.
    + rewrite lookup_zip_map. case_bool_decide; [|done]. unfold cells. by rewrite list_lookup_fmap, Hi.
    + unfold field_keys. rewrite fst_zip; [apply first_seen_NoDup|by rewrite length_map].
Qed.

(** * Keys of exported objects *)

Lemma index_keys_exact orient pre labels :
  NoDup (map label_string pre) →
  match index_keys orient (map (λ l, (label_string l, l)) pre) labels with
  | Ok keys => keys = map label_string labels ∧ NoDup (map label_string (pre ++ labels))
  | Err e => ∃ i j l1 l2, (i < j)%nat ∧ (pre ++ labels) !! i = Some l1 ∧ (pre ++ labels) !! j = Some l2 ∧
      label_string l1 = label_string l2 ∧ e = ExportKeyCollisionError orient (label_string l2) [l1; l2] ∧
      NoDup (map label_string (take j (pre ++ labels)))
  end.
Proof.
  revert pre. induction labels as [|l labels IH]; intros pre Hd; cbn [index_keys].
  { by rewrite app_nil_r. }
  destruct (map_get _ (label_string l)) as [prior|] eqn:Hg.
  - apply get_Some_in in Hg. apply list_elem_of_In, in_map_iff in Hg as (l1 & [= Hl ->] & Hin).
    apply list_elem_of_In, list_elem_of_lookup in Hin as [i Hi]. pose proof (lookup_lt_Some _ _ _ Hi).
    exists i, (length pre), prior, l. split_and!; [done|by rewrite lookup_app_l| |done|done|].
    + by rewrite lookup_app_r, Nat.sub_diag.
    + by rewrite take_app_length.
  - apply get_None in Hg. unfold map_keys in Hg. rewrite map_map in Hg. cbn in Hg.
    assert (NoDup (map label_string (pre ++ [l]))) as Hd'.
    { rewrite map_app. apply NoDup_app. split_and!; [done| |apply NoDup_singleton].
      intros x Hx ->%list_elem_of_singleton. done. }
    specialize (IH (pre ++ [l]) Hd'). rewrite map_set_new by (unfold map_keys; by rewrite map_map).
    rewrite map_app in IH. cbn [map] in IH. destruct (index_keys _ _ labels) as [keys|e]; cbn [res_bind].
    + destruct IH as [-> Hnd]. split; [done|]. by rewrite <- app_assoc in Hnd.
    + by rewrite <- app_assoc in IH.
Qed.

(** The [index] and [columns] exports are refused exactly when two labels have the
    same string; the error names the first label that collides, the earlier label
    it collides with, and their key. *)
Theorem key_collision_exact (st : FrameState) orient :
  match resolveIndexKeys st orient with
  | Ok keys => keys = map label_string (fs_index st) ∧ NoDup keys
  | Err e => ∃ i j l1 l2, (i < j)%nat ∧ fs_index st !! i = Some l1 ∧ fs_index st !! j = Some l2 ∧
      label_string l1 = label_string l2 ∧ e = ExportKeyCollisionError orient (label_string l2) [l1; l2] ∧
      NoDup (map label_string (take j (fs_index st)))
  end.
Proof.
  pose proof (index_keys_exact orient [] (fs_index st) (NoDup_nil_2)) as Hk. unfold resolveIndexKeys.
  cbn [map app] in Hk. destruct (index_keys orient [] (fs_index st)); [|done]. destruct Hk as [-> ?]. done.
Qed.

(** * Serialization *)

(** C35: [toJSONString] gives the text of the exported payload exactly when the whole
    payload, its orient wrappers and metadata included, is within the depth limit
    and the node budget. *)
Theorem stringify_within_limits (df : DataFrame) orient (H : heap) options o payload s :
  normalizeToJSONStringOptions H options = Ok o →
  export_orient df orient (ts_indexField o) = Ok payload → json_ok payload → finite_json payload →
  (toJSONString df orient H options = Ok s ↔
   s = stringify payload ∧ (depth payload <= S JSON_FRAME_MAX_DEPTH)%nat ∧ affords (nodes payload) (ts_maxNodes o)).
Proof.
  intros Hn He Hj Hfin. unfold toJSONString. rewrite Hn. cbn [res_bind]. rewrite He. cbn [res_bind].
  destruct (alloc payload 0 ∅) as [[v n] h] eqn:Ha. apply alloc_fresh in Ha as (Hw & _ & Hu); [|done].
  assert (affords 0 (ts_maxNodes o)) as Hb.
  { intros m Hm. unfold normalizeToJSONStringOptions in Hn. apply res_bind_Ok in Hn as (t & _ & Hn).
    apply res_bind_Ok in Hn as (mx & Hmx & [= <-]). cbn in Hm. apply (validateMaxNodes_ok _ _ _ m) in Hmx; [lia|done]. }
  rewrite assert_reference. pose proof (copy_accepts (orient:=Some orient) (maxNodes:=ts_maxNodes o) (heap_wf_ok _ Hw)
    (S JSON_FRAME_MAX_DEPTH) (PRoot root) v (ts_maxNodes o)) as Hc. specialize (λ j, Hc j Hb).
  revert Hc. generalize (copy h (Some orient) (ts_maxNodes o) (S JSON_FRAME_MAX_DEPTH) ∅ (PRoot root) v (ts_maxNodes o)).
  intros [[j b]|e] Hc; cbn [answer res_map res_bind default].
  - destruct (proj1 (Hc j) eq_refl) as (Huj & Hd & Hbud). assert (j = payload) as -> by (eapply unfolds_unique; [exact Huj|by apply Hu]).
    split; [by intros [= <-]|by intros (-> & _)].
  - split; [done|]. intros (_ & Hd & Hbud). by pose proof (proj2 (Hc payload) (conj (Hu Hfin) (conj Hd Hbud))).
Qed.

(** * Derived frames show the cells of their source *)

Definition row_of (st : FrameState) (columns sources : list jsstr) (i : nat) : json_object :=
  put_all (zip columns (map (λ s, cell st s i) sources)).

Lemma rebuilt_rows df columns sources positions index kind schema df' :
  frame_ok (df_state df) → NoDup columns → length sources = length columns →
  (∀ s, s ∈ sources → s ∈ fs_columns (df_state df)) →
  Forall (λ i, i < length (fs_index (df_state df)))%nat positions → length index = length positions →
  rebuild df columns sources positions index kind schema = Ok df' →
  fs_columns (df_state df') = columns ∧ fs_index (df_state df') = index ∧
  rows df' = Ok (map (row_of (df_state df) columns sources) positions).
Proof.
  intros (stored & infos & Hv) Hd Hl Hin Hp Hi Hr.
  destruct (rebuild_view Hv df columns sources positions index kind schema) as (s' & i' & Hr' & Hv' & Hh); [done..|].
  assert (df' = mkFrame (mkState columns index kind (zip columns s') (zip columns i') (tf_tableSchema schema)
    (tf_tableIndexField schema)) (df_packThreshold df)) as -> by congruence. clear Hr Hr'.
  split; [done|]. split; [done|].
  unfold rows. cbn [df_state]. set (st' := mkState _ _ _ _ _ _ _) in *.
  assert (∀ k, createRow (mkFrame st' (df_packThreshold df)) k = Ok (row_record columns s' k)) as Hc.
  { intros k. unfold createRow. cbn [df_state]. by rewrite (stored_resolved Hv'). }
  apply res_mapM_Forall2, Forall2_same_length_lookup.
  split; [rewrite length_map; unfold row_numbers; rewrite length_seq; exact Hi|].
  intros k k' r Hk Hkr. unfold row_numbers in Hk. cbn in Hk. apply lookup_seq in Hk as [-> Hk]. cbn [Nat.add] in *.
  rewrite Hc. f_equal. rewrite list_lookup_fmap in Hkr. destruct (positions !! k) as [i|] eqn:Hpk; [|done].
  injection Hkr as <-. unfold row_record, row_of. do 2 f_equal.
  rewrite (held_rows _ _ _ _ _ Hv' Hh), map_map. apply map_ext. intros s. by rewrite list_lookup_fmap, Hpk.
Qed.

Lemma rows_row_of df : frame_ok (df_state df) →
  rows df = Ok (map (row_of (df_state df) (fs_columns (df_state df)) (fs_columns (df_state df))) (row_numbers (df_state df))).
Proof. intros (stored & infos & Hv). by apply (rows_Ok Hv df). Qed.

Lemma numbered_in {A B} n (rs : list A) (ls : list B) x :
  x ∈ zip (seq 0 n) (zip rs ls) → (x.1 < n)%nat ∧ rs !! x.1 = Some x.2.1 ∧ ls !! x.1 = Some x.2.2.
Proof.
  intros [k Hk]%list_elem_of_lookup. destruct x as [i [r l]]. apply lookup_zip_Some in Hk as [Hk Hrl].
  apply lookup_zip_Some in Hrl as [Hr Hl]. apply lookup_seq in Hk as [-> Hk]. done.
Qed.

Lemma NoDup_zip_fst {A B} (l : list A) (k : list B) : NoDup l → NoDup (map (λ x, x.1) (zip l k)).
Proof.
  intros Hd. revert k. induction Hd as [|a l Hn _ IH]; intros [|b k]; cbn; try constructor; [|apply IH].
  intros Hin. apply Hn. apply list_elem_of_In, in_map_iff in Hin as (x & <- & Hin).
  apply list_elem_of_In in Hin. destruct x as [a' b']. by apply elem_of_zip_l in Hin.
Qed.

Lemma omap_lookup_map {A B} (ls : list B) (l : list A) (f : A → nat) (g : A → B) :
  (∀ x, x ∈ l → ls !! f x = Some (g x)) → omap (λ i, ls !! i) (map f l) = map g l.
Proof.
  induction l as [|x l IH]; intros Hl; cbn; [done|]. rewrite (Hl x) by left. cbn. f_equal. apply IH.
  intros y Hy. apply Hl. by right.
Qed.

(** Filtering keeps the rows the predicate accepts, as they were, with their labels
    and in their order. *)
Theorem filter_keeps_rows (df : DataFrame) predicate :
  reachable df → ∃ rs df', rows df = Ok rs ∧ frame_filter df predicate = Ok df' ∧
    let kept := filter (λ x : nat * (json_object * IndexLabel), predicate x.2.1 x.2.2 x.1 = true)
                  (zip (row_numbers (df_state df)) (zip rs (fs_index (df_state df)))) in
    rows df' = Ok (map (λ x, x.2.1) kept) ∧ fs_index (df_state df') = map (λ x, x.2.2) kept ∧
    fs_columns (df_state df') = fs_columns (df_state df).
Proof.
  intros Hok%reachable_frame_ok. pose proof (rows_row_of df Hok) as Hrows.
  destruct (filter_derives Hok predicate) as (df' & Hf & _).
  eexists _, df'. split; [exact Hrows|]. split; [exact Hf|]. cbn zeta. unfold frame_filter in Hf. rewrite Hrows in Hf.
  cbn [res_bind] in Hf. set (kept := filter _ _) in *.
  assert (∀ x, x ∈ kept → (x.1 < length (fs_index (df_state df)))%nat ∧
    x.2.1 = row_of (df_state df) (fs_columns (df_state df)) (fs_columns (df_state df)) x.1 ∧
    fs_index (df_state df) !! x.1 = Some x.2.2) as Hkept.
  { intros x [_ Hx]%list_elem_of_filter. apply numbered_in in Hx as (Hx & Hr & Hl). split_and!; [done| |done].
    unfold row_numbers in Hr. rewrite list_lookup_fmap, lookup_seq_lt in Hr by done. by injection Hr. }
  assert (Forall (λ i, i < length (fs_index (df_state df)))%nat (map fst kept)) as Hpos.
  { apply Forall_map, Forall_forall. intros x Hx. by apply Hkept. }
  pose proof (fun s (h : s ∈ fs_columns (df_state df)) => h) as Hid.
  apply rebuilt_rows in Hf as (Hc & Hi & Hr); [|done|destruct Hok as (? & ? & Hv); apply (fv_columns _ _ _ Hv)|done|exact Hid|exact Hpos|by apply labels_at_length].
  rewrite Hr, Hi, Hc. split_and!; [|by apply (omap_lookup_map _ kept fst (λ x, x.2.2)), Hkept|done].
  f_equal. rewrite map_map. apply map_ext_in. intros x Hx. symmetry. apply Hkept. by apply list_elem_of_In.
Qed.

(** ** Sorting *)

(** What a comparison says of two entries, as a caller of [sort] means it: negative, the left one goes first;
    positive, the right one; zero, or no number at all, neither. *)
Definition verdict (n : num) : comparison :=
  if num_lt n (num_of_Z 0) then Lt else if num_lt (num_of_Z 0) n then Gt else Eq.

(** A comparison by which rows can be ordered: swapping the entries swaps the verdict, and it is transitive. *)
Record orders (compare : Ordering → Ordering → num) : Prop := {
  os_swap : ∀ a b, verdict (compare a b) = CompOpp (verdict (compare b a));
  os_trans : ∀ a b c, verdict (compare a b) ≠ Gt → verdict (compare b c) ≠ Gt → verdict (compare a c) ≠ Gt
}.

(** Entries in ascending order, those between which the comparison does not decide as they were in the frame. *)
Definition ascending (compare : Ordering → Ordering → num) (l : list Ordering) : Prop :=
  ∀ i j a b, l !! i = Some a → l !! j = Some b → (i < j)%nat →
    verdict (compare a b) = Lt ∨ verdict (compare a b) = Eq ∧ (or_position a < or_position b)%nat.

Lemma zero_verdict n : n ≠ NaN → num_eqb n (num_of_Z 0) = match verdict n with Eq => true | _ => false end.
Proof.
  unfold verdict, num_lt. destruct n as [|[]|q]; [done|done|done|]. intros _. cbn [num_le num_eqb num_of_Z].
  destruct (Qeq_bool q (inject_Z 0)) eqn:E.
  - apply Qeq_bool_iff in E. rewrite !(proj2 (Qle_bool_iff _ _)) by (rewrite E; apply QArith_base.Qle_refl). done.
  - destruct (Qle_bool q (inject_Z 0)) eqn:E1, (Qle_bool (inject_Z 0) q) eqn:E2; cbn; try done.
    + apply Qle_bool_iff in E1, E2. assert (QArith_base.Qeq q (inject_Z 0)) as Eq by by apply QArith_base.Qle_antisym.
      apply Qeq_bool_iff in Eq. congruence.
    + destruct (QArith_base.Qlt_le_dec q (inject_Z 0)) as [H%QArith_base.Qlt_le_weak|H]; apply Qle_bool_iff in H; congruence.
Qed.

(** The code's comparison agrees. *)
Lemma before_verdict compare a b : ordered_before compare a b = true ↔
  verdict (compare a b) = Lt ∨ verdict (compare a b) = Eq ∧ (or_position a < or_position b)%nat.
Proof.
  unfold ordered_before. destruct (compare a b) as [|neg|q] eqn:E.
  - change (verdict NaN) with Eq. rewrite Nat.ltb_lt. naive_solver.
  - destruct neg; cbn; naive_solver.
  - assert (∀ n, n ≠ NaN → (if num_eqb n (num_of_Z 0) then (or_position a <? or_position b)%nat else num_lt n (num_of_Z 0)) = true ↔
      verdict n = Lt ∨ verdict n = Eq ∧ (or_position a < or_position b)%nat) as H; [|by apply H].
    intros n Hn. rewrite (zero_verdict n Hn). unfold verdict. destruct (num_lt n _); [naive_solver|].
    destruct (num_lt _ n); [naive_solver|]. rewrite Nat.ltb_lt. naive_solver.
Qed.

(** A comparison whose ties the position decides. *)
Record consistent (compare : Ordering → Ordering → num) : Prop := {
  cs_total : ∀ a b, or_position a ≠ or_position b →
    ordered_before compare a b = negb (ordered_before compare b a);
  cs_trans : ∀ a b c, ordered_before compare a b = true → ordered_before compare b c = true →
    ordered_before compare a c = true
}.

Lemma orders_consistent compare : orders compare → consistent compare.
Proof.
  intros [Hs Ht]. split.
  - intros a b Hab. apply eq_true_iff_eq. rewrite negb_true_iff, <- not_true_iff_false, !before_verdict, (Hs a b).
    destruct (verdict (compare b a)); cbn; split; try naive_solver; try (intros; lia).
    + intros [?|[_ ?]]; [done|]. intros [?|[_ ?]]; [done|lia].
    + intros H. right. split; [done|]. assert (¬ (or_position b < or_position a)%nat) by naive_solver. lia.
  - intros a b c. rewrite !before_verdict. intros Hab Hbc.
    assert (verdict (compare a b) ≠ Gt) as H1 by (by destruct Hab as [E|[E _]]; rewrite E).
    assert (verdict (compare b c) ≠ Gt) as H2 by (by destruct Hbc as [E|[E _]]; rewrite E).
    pose proof (Ht a b c H1 H2) as H3. destruct (verdict (compare a c)) eqn:Eac; [|by left|done]. right. split; [done|].
    assert (verdict (compare c a) ≠ Gt) as H4 by (rewrite Hs, Eac; done).
    pose proof (Ht b c a H2 H4) as Hba. pose proof (Ht c a b H4 H1) as Hcb. rewrite Hs in Hba, Hcb.
    destruct Hab as [Hab|[_ Hab]]; [by rewrite Hab in Hba|]. destruct Hbc as [Hbc|[_ Hbc]]; [by rewrite Hbc in Hcb|]. lia.
Qed.

(** Of the arrangements of the same entries one is ascending, however it is found. *)
Lemma ascending_sorted compare l : ascending compare l ↔ StronglySorted (λ a b, ordered_before compare a b = true) l.
Proof.
  induction l as [|x l IH]; [split; [constructor|by intros _ i j a b]|]. split.
  - intros H. constructor; [apply IH; intros i j a b Hi Hj Hij; apply (H (S i) (S j)); [done..|lia]|].
    apply Forall_forall. intros y [i Hi]%list_elem_of_lookup. apply before_verdict. apply (H 0%nat (S i)); [done..|lia].
  - intros [H%IH Hx]%StronglySorted_inv [|i] [|j] a b Hi Hj Hij; try lia; [|apply (H i j); [done..|lia]].
    injection Hi as <-. apply before_verdict. rewrite Forall_forall in Hx. apply Hx. by eapply list_elem_of_lookup_2.
Qed.

Lemma ascending_unique compare l1 l2 : orders compare → ascending compare l1 → ascending compare l2 → l1 ≡ₚ l2 → l1 = l2.
Proof.
  intros [Hs _]. rewrite !ascending_sorted. assert (AntiSymm (=) (λ a b, ordered_before compare a b = true)).
  { intros a b. rewrite !before_verdict, (Hs a b). destruct (verdict (compare b a)); cbn; intros [?|[? ?]] [?|[? ?]]; try done; lia. }
  intros. by eapply StronglySorted_unique.
Qed.

Lemma insert_sorted_ordered compare x l :
  consistent compare → Forall (λ y, or_position y ≠ or_position x) l →
  StronglySorted (λ a b, ordered_before compare a b = true) l →
  StronglySorted (λ a b, ordered_before compare a b = true) (insert_sorted (ordered_before compare) x l).
Proof.
  intros Hc Hp Hs. induction Hs as [|y l Hs IH Hy]; cbn; [repeat constructor|].
  apply Forall_cons in Hp as [Hpy Hp]. destruct (ordered_before compare x y) eqn:E.
  - constructor; [by constructor|]. constructor; [done|]. eapply Forall_impl; [exact Hy|]. intros z Hz. by eapply (cs_trans _ Hc).
  - constructor; [by apply IH|]. rewrite insert_sorted_perm. constructor; [|done].
    rewrite (cs_total _ Hc y x) by done. by rewrite E.
Qed.

Lemma stable_sort_ordered compare l :
  consistent compare → NoDup (map or_position l) →
  StronglySorted (λ a b, ordered_before compare a b = true) (stable_sort (ordered_before compare) l).
Proof.
  intros Hc Hd. unfold stable_sort.
  assert (∀ acc, NoDup (map or_position (l ++ acc)) → StronglySorted (λ a b, ordered_before compare a b = true) acc →
    StronglySorted (λ a b, ordered_before compare a b = true)
      (foldl (λ acc x, insert_sorted (ordered_before compare) x acc) acc l)) as Hg;
    [|apply Hg; [by rewrite app_nil_r|constructor]].
  clear Hd. induction l as [|x l IH]; intros acc Hd Hs; cbn [foldl]; [done|]. apply IH.
  - rewrite insert_sorted_perm, <- Permutation_middle. exact Hd.
  - apply insert_sorted_ordered; [done| |done]. cbn in Hd. apply NoDup_cons in Hd as [Hn _].
    apply Forall_forall. intros y Hy E. apply Hn. rewrite <- E. apply list_elem_of_In, in_map, list_elem_of_In.
    apply elem_of_app. by right.
Qed.

(** C34: Sorting permutes the rows with their labels. Where swapping two entries swaps the sign of the caller's
    comparison, and the sign is transitive, the result is ascending: of two rows, the one further up is the one the
    comparison is negative for, and where it gives zero or [NaN], the one that was further up before. No
    other arrangement of the rows is, so this determines the result, whichever algorithm the engine sorts with. *)
Theorem sort_orders_rows (df : DataFrame) compare :
  reachable df → ∃ rs df' sorted, rows df = Ok rs ∧ frame_sort df compare = Ok df' ∧
    sorted ≡ₚ orderings df rs ∧
    rows df' = Ok (map or_row sorted) ∧ fs_index (df_state df') = map or_label sorted ∧
    fs_columns (df_state df') = fs_columns (df_state df) ∧
    (orders compare → ascending compare sorted
       ∧ ∀ other, other ≡ₚ orderings df rs → ascending compare other → other = sorted).
Proof.
  intros Hok%reachable_frame_ok. pose proof (rows_row_of df Hok) as Hrows.
  destruct (sort_derives Hok compare) as (df' & Hf & _).
  eexists _, df', _. split; [exact Hrows|]. split; [exact Hf|]. split; [apply stable_sort_perm|].
  unfold frame_sort in Hf. rewrite Hrows in Hf. cbn [res_bind] in Hf. set (rs := map _ _) in *.
  pose proof (stable_sort_perm (ordered_before compare) (orderings df rs)) as Hperm.
  set (sorted := stable_sort _ _) in *.
  assert (∀ x, x ∈ orderings df rs → (or_position x < length (fs_index (df_state df)))%nat ∧
    or_row x = row_of (df_state df) (fs_columns (df_state df)) (fs_columns (df_state df)) (or_position x)) as Hin.
  { intros x Hx. unfold orderings in Hx. apply list_elem_of_In, in_map_iff in Hx as (y & <- & Hy).
    apply list_elem_of_In, numbered_in in Hy as (Hy & _ & Hr). split; [done|]. cbn. unfold rs, row_numbers in Hr.
    rewrite list_lookup_fmap, lookup_seq_lt in Hr by done. by injection Hr. }
  assert (Forall (λ i, i < length (fs_index (df_state df)))%nat (map or_position sorted)) as Hpos.
  { apply Forall_map, Forall_forall. intros x Hx. rewrite Hperm in Hx. by apply Hin. }
  pose proof (fun s (h : s ∈ fs_columns (df_state df)) => h) as Hid.
  apply rebuilt_rows in Hf as (Hc & Hi & Hr); [|done|destruct Hok as (? & ? & Hv); apply (fv_columns _ _ _ Hv)|done|exact Hid|exact Hpos|by rewrite !length_map].
  rewrite Hr, Hi, Hc. split_and!; [|done|done|].
  - f_equal. rewrite map_map. apply map_ext_in. intros x Hx. symmetry. apply Hin. rewrite <- Hperm. by apply list_elem_of_In.
  - intros Horders. assert (ascending compare sorted) as Hsorted.
    { apply ascending_sorted, stable_sort_ordered; [by apply orders_consistent|]. unfold orderings. rewrite map_map. cbn.
      apply NoDup_zip_fst, NoDup_seq. }
    split; [exact Hsorted|]. intros other Hp Ho. apply (ascending_unique compare); [done..|]. etransitivity; [exact Hp|by symmetry].
Qed.
