(* ===== verification/FrameScenario.v ===== *)
(** json-frame on concrete inputs: a value that contains itself, a frame read from a text in the [split] layout and
    derived frames of it; the theorems about whole frames are applied to them. *)

From Stdlib Require Import Sorting.Sorted.
From S2P Require Import Prelude JsValue JsJson JsMap FrameValue FrameTraverse FrameAccept FrameOptions FrameParse FrameSchema FrameColumn FrameExport FrameTable FrameLaws FrameState FrameWf FrameRoundtrip FrameTheorems.

(** A text written with apostrophes. *)
Definition quoted (s : string) : jsstr := map (λ c, if c =? 39 then 34 else c) (js s).

Definition frame_of_text (s : string) : frame_result DataFrame := fromOrient ∅ (UString (quoted s)) UUndefined.

Definition the_frame (r : frame_result DataFrame) : DataFrame :=
  match r with Ok df => df | Err _ => mkFrame (mkState [] [] Synthetic [] [] None None) 0 end.

Lemma text_reachable s : is_ok (frame_of_text s) = true → reachable (the_frame (frame_of_text s)).
Proof.
  intros Hs. destruct (frame_of_text s) as [df|] eqn:E; [|done].
  exact (reach_from ∅ (UString (quoted s)) UUndefined df heap_wf_empty I E).
Qed.

(** * The traversal *)

(** An array that holds a number and itself. *)
Definition knot : heap := <[0%nat := OArray [Some (UNumber NegZero); Some (URef 0)]]> ∅.

Lemma knot_wf : heap_wf knot.
Proof. apply heap_wf_insert; [apply heap_wf_empty|]. by repeat constructor. Qed.

Example knot_refused :
  cloneJsonCompatible knot None None (URef 0) root =
  Some (Err (ValidationError CyclicArray (mkContext None (Some (js "$[1]")) None None (Some (DArray 2))))).
Proof. vm_compute. reflexivity. Qed.

Lemma traversal_exact_witness :
  ∃ r, cloneJsonCompatible knot None (Some 2) (URef 0) root = Some r ∧
    assertJsonCompatible knot None (Some 2) (URef 0) root = Some (res_map (λ _, tt) r) ∧
    ∀ j, r = Ok j ↔ unfolds knot (URef 0) j ∧ (depth j <= S JSON_FRAME_MAX_DEPTH)%nat ∧ affords (nodes j) (Some 2).
Proof.
  apply traversal_exact; [apply heap_wf_ok, knot_wf|]. intros n [= <-]. lia.
Defined.

(** * A frame *)

Definition sample_text : string := "{'columns':['a','b'],'index':['x',7],'data':[[1,null],[-0,[true]]]}".
Definition sample : DataFrame := the_frame (frame_of_text sample_text).

Lemma sample_reachable : reachable sample.
Proof. apply text_reachable. vm_compute. reflexivity. Qed.

Lemma frames_well_formed_witness :
  frame_ok (df_state sample) ∧ (∀ predicate, is_ok (frame_filter sample predicate) = true) ∧
  (∀ compare, is_ok (frame_sort sample compare) = true) ∧
  is_ok (resetIndex sample) = true ∧ is_ok (rows sample) = true.
Proof. apply frames_well_formed. exact sample_reachable. Defined.

Lemma packing_invisible_witness :
  getStoredColumnValue (packColumn [VNumber (number_of_Z 1); VNumber NegZero] (mkInfo TInteger false) 1) 1 =
  VNumber NegZero.
Proof.
  rewrite (packing_invisible [VNumber (number_of_Z 1); VNumber NegZero]); [reflexivity|]. by repeat constructor.
Defined.

Lemma filter_keeps_rows_witness : ∃ rs df', rows sample = Ok rs ∧ frame_filter sample (λ _ l _, is_string_label l) = Ok df' ∧
  fs_columns (df_state df') = fs_columns (df_state sample).
Proof.
  destruct (filter_keeps_rows sample (λ _ l _, is_string_label l) sample_reachable) as (rs & df' & Hr & Hf & Hk).
  exists rs, df'. split; [exact Hr|]. split; [exact Hf|]. exact (proj2 (proj2 Hk)).
Defined.

(** Four rows, compared by their only cell, which ties. *)
Definition tied : DataFrame := the_frame (frame_of_text "{'columns':['a'],'index':['p','q','r','s'],'data':[[2],[1],[2],[1]]}").

Lemma tied_reachable : reachable tied.
Proof. apply text_reachable. vm_compute. reflexivity. Qed.

Definition cell_of (x : Ordering) : Z :=
  match map_get (or_row x) (js "a") with Some (VNumber n) => default 0 (safe_integer (num_value n)) | _ => 0 end.
Definition by_cell (a b : Ordering) : num := num_of_Z (cell_of a - cell_of b).

Lemma verdict_of_Z z : verdict (num_of_Z z) = Z.compare z 0.
Proof.
  unfold verdict, num_lt. cbn. unfold Qle_bool. cbn. rewrite !Z.mul_1_r.
  destruct (Z.compare_spec z 0); [subst; done|..];
    destruct (Z.leb_spec z 0), (Z.leb_spec 0 z); try lia; done.
Qed.

Lemma by_cell_orders : orders by_cell.
Proof.
  split; intros *; unfold by_cell; rewrite !verdict_of_Z.
  - rewrite <- Z.compare_antisym. destruct (Z.compare_spec (cell_of a - cell_of b) 0), (Z.compare_spec 0 (cell_of b - cell_of a)); try done; lia.
  - rewrite !Z.compare_le_iff. lia.
Qed.

Lemma sort_orders_rows_witness : ∃ rs df' sorted, rows tied = Ok rs ∧ frame_sort tied by_cell = Ok df' ∧
  rows df' = Ok (map or_row sorted) ∧ fs_index (df_state df') = map or_label sorted ∧ ascending by_cell sorted.
Proof.
  destruct (sort_orders_rows tied by_cell tied_reachable) as (rs & df' & sorted & Hr & Hf & _ & Hr' & Hi & _ & Hs).
  exists rs, df', sorted. split; [exact Hr|]. split; [exact Hf|]. split; [exact Hr'|]. split; [exact Hi|].
  exact (proj1 (Hs by_cell_orders)).
Defined.

Example tied_sorted :
  res_map (λ df, fs_index (df_state df)) (frame_sort tied by_cell)
  = Ok [LString (js "q"); LString (js "s"); LString (js "p"); LString (js "r")].
Proof. vm_compute. reflexivity. Qed.

(** * Layouts *)

Definition options_of (r : frame_result NormalizedFromOrientOptions) : NormalizedFromOrientOptions :=
  match r with Ok o => o | Err _ => mkOptions Auto 256 None None None end.

(** [{ orient, columns: ['a', 'b'], packThreshold: 1 }] at location 0. *)
Definition options_heap (orient : string) : heap :=
  <[1%nat := OArray [Some (UString (js "a")); Some (UString (js "b"))]]>
  (<[0%nat := OObject true [(js "orient", UString (js orient)); (js "columns", URef 1);
     (js "packThreshold", UNumber (number_of_Z 1))]]> ∅).


Lemma options_heap_wf orient : heap_wf (options_heap orient).
Proof.
  apply heap_wf_insert; [apply heap_wf_insert; [apply heap_wf_empty|]|by repeat constructor].
  split; [|by repeat constructor]. change (key_order [js "orient"; js "columns"; js "packThreshold"]).
  refine (key_order_snoc [_; _] _ (key_order_snoc [_] _ (key_order_snoc [] _ key_order_nil _ _) _ _) _ _);
    repeat constructor; rewrite ?not_elem_of_cons; repeat split; (apply not_elem_of_nil || discriminate).
Qed.

Definition read_as (orient text : string) : frame_result DataFrame :=
  fromOrient (options_heap orient) (UString (quoted text)) (URef 0).
Definition values_text : string := "[[1,null],[-0,[true]]]".
Definition records_text : string := "[{'b':1},{'a':[],'b':-0}]".

Lemma layout_roundtrip_witness :
  ∃ j, reads (options_heap "values") (UString (quoted values_text)) j ∧
    exportValues (df_state (the_frame (read_as "values" values_text))) = Ok j.
Proof.
  refine (layout_roundtrip (options_heap "values") (UString (quoted values_text)) (URef 0)
    (options_of (normalizeFromOrientOptions (options_heap "values") (URef 0))) _ (options_heap_wf _) I _ _);
    vm_compute; reflexivity.
Defined.

Lemma records_exact_witness :
  ∃ rs rows, reads (options_heap "records") (UString (quoted records_text)) (VArray (map VObject rs)) ∧
    fs_columns (df_state (the_frame (read_as "records" records_text))) = first_seen rs ∧
    exportRecords (df_state (the_frame (read_as "records" records_text))) = Ok (VArray (map VObject rows)) ∧
    length rows = length rs.
Proof.
  destruct (records_exact (options_heap "records") (UString (quoted records_text)) (URef 0)
    (options_of (normalizeFromOrientOptions (options_heap "records") (URef 0)))
    (the_frame (read_as "records" records_text)) (options_heap_wf _) I) as (rs & rows & Hr & Hc & _ & He & Hf);
    [vm_compute; reflexivity..|].
  exists rs, rows. split; [exact Hr|]. split; [exact Hc|]. split; [exact He|]. symmetry. by eapply Forall2_length.
Defined.

(** * Serialization *)

Definition payload_of (r : frame_result JsonValue) : JsonValue := match r with Ok j => j | Err _ => VNull end.
Definition sample_split : JsonValue := payload_of (exportSplit (df_state sample)).

Lemma sample_split_ok : json_ok sample_split ∧ finite_json sample_split.
Proof.
  assert (parse_text (quoted sample_text) = Some sample_split) as Hp by (vm_compute; reflexivity).
  split; [exact (parse_text_ok _ _ Hp)|]. vm_compute. tauto.
Qed.

Lemma stringify_within_limits_witness :
  toJSONString sample Split ∅ UUndefined = Ok (stringify sample_split) ↔
  stringify sample_split = stringify sample_split ∧
  (depth sample_split <= S JSON_FRAME_MAX_DEPTH)%nat ∧ affords (nodes sample_split) None.
Proof.
  refine (stringify_within_limits sample Split ∅ UUndefined (mkStringOptions None None) sample_split _ eq_refl _
    (proj1 sample_split_ok) (proj2 sample_split_ok)); vm_compute; reflexivity.
Defined.
