(* ===== verification/ClientTask.v ===== *)
(** Asynchronous tasks over one shared state, and what each may assume of the others.

    A browser session is one object whose methods interleave at their [await]s. [task] is the tree of what a
    method does: it reads and writes the shared state, takes values from outside, and pauses. [step] lets any
    task that can continue run to its next pause, answers every pause with any answer, and lets callers start
    new tasks at any time. [wp] is the condition that a task keeps its [guarantee], segment by segment, when
    whatever runs between its segments keeps within its [rely]; [tasks_inv] turns it into an invariant of
    every interleaving. *)

From S2P Require Import Prelude.

Section tasks.
Context {St call source : Type} (answer : call → Type) (given : source → Type).

Inductive task (A : Type) :=
  | Ret (a : A)
  | Read (k : St → task A)
  | Write (s : St) (m : task A)
  | Pick (c : source) (k : given c → task A)      (** a value from outside, without a pause *)
  | Ask (c : call) (k : answer c → task A)        (** [await] of something outside *)
  | Wait (ready : St → bool) (m : task A).        (** [await] of something the session itself settles *)
Arguments Ret {A} a.
Arguments Read {A} k.
Arguments Write {A} s m.
Arguments Pick {A} c k.
Arguments Ask {A} c k.
Arguments Wait {A} ready m.

Fixpoint bind {A B} (m : task A) (f : A → task B) : task B :=
  match m with
  | Ret a => f a
  | Read k => Read (λ s, bind (k s) f)
  | Write s m => Write s (bind m f)
  | Pick c k => Pick c (λ g, bind (k g) f)
  | Ask c k => Ask c (λ r, bind (k r) f)
  | Wait ready m => Wait ready (bind m f)
  end.

Definition gets {A} (f : St → A) : task A := Read (λ s, Ret (f s)).
Definition modify (f : St → St) : task unit := Read (λ s, Write (f s) (Ret tt)).
Definition pick (c : source) : task (given c) := Pick c Ret.
Definition ask (c : call) : task (answer c) := Ask c Ret.
(** A turn of the event loop. *)
Definition pause : task unit := Wait (λ _, true) (Ret tt).

(** * Interleavings *)

(** One segment: up to the next pause or the end. *)
Inductive runs {A} : task A → St → task A → St → Prop :=
  | runs_ret a s : runs (Ret a) s (Ret a) s
  | runs_read k s m s' : runs (k s) s m s' → runs (Read k) s m s'
  | runs_write s0 m0 s m s' : runs m0 s0 m s' → runs (Write s0 m0) s m s'
  | runs_pick c k g s m s' : runs (k g) s m s' → runs (Pick c k) s m s'
  | runs_ask c k s : runs (Ask c k) s (Ask c k) s
  | runs_wait ready m s : runs (Wait ready m) s (Wait ready m) s.

(** What a paused task continues with. *)
Inductive resumes {A} : task A → St → task A → Prop :=
  | resumes_ask c k r s : resumes (Ask c k) s (k r)
  | resumes_wait ready m s : ready s = true → resumes (Wait ready m) s m.

Context {Out : Type}.
(** [entry p m]: a caller may start [m] as process [p]. *)
Variable entry : nat → task Out → Prop.

Record system := mkSystem { sys_state : St; sys_procs : list (task Out) }.

Inductive step : system → system → Prop :=
  | step_resume s ps p m m1 m2 s' :
      ps !! p = Some m → resumes m s m1 → runs m1 s m2 s' →
      step (mkSystem s ps) (mkSystem s' (<[p := m2]> ps))
  | step_start s ps m m' s' :
      entry (length ps) m → runs m s m' s' → step (mkSystem s ps) (mkSystem s' (ps ++ [m'])).

Definition steps : system → system → Prop := rtc step.

(** ** Playing a schedule *)

Section play.
Variable give : ∀ c, given c.

Fixpoint advance {A} (m : task A) (s : St) : task A * St :=
  match m with
  | Read k => advance (k s) s
  | Write s m => advance m s
  | Pick c k => advance (k (give c)) s
  | m => (m, s)
  end.

Lemma advance_runs {A} (m : task A) s : runs m s (advance m s).1 (advance m s).2.
Proof. revert s. induction m; intros s0; cbn; eauto using @runs. Qed.

(** Answers the pause of process [p]; nothing happens when it cannot continue. *)
Definition resume (p : nat) (ans : ∀ c, answer c) (sys : system) : system :=
  match sys_procs sys !! p with
  | Some (Ask c k) => let r := advance (k (ans c)) (sys_state sys) in mkSystem r.2 (<[p := r.1]> (sys_procs sys))
  | Some (Wait ready m) =>
      if ready (sys_state sys)
      then let r := advance m (sys_state sys) in mkSystem r.2 (<[p := r.1]> (sys_procs sys))
      else sys
  | _ => sys
  end.

Definition start (m : task Out) (sys : system) : system :=
  let r := advance m (sys_state sys) in mkSystem r.2 (sys_procs sys ++ [r.1]).

Lemma resume_steps p ans sys : steps sys (resume p ans sys).
Proof.
  unfold resume. destruct sys as [s ps]. cbn. destruct (ps !! p) as [[]|] eqn:Hp; try reflexivity.
  - apply rtc_once. eapply step_resume; [exact Hp|constructor|apply advance_runs].
  - destruct (ready s) eqn:Hr; [|reflexivity]. apply rtc_once. eapply step_resume; [exact Hp|by constructor|apply advance_runs].
Qed.

Lemma start_steps m sys : entry (length (sys_procs sys)) m → steps sys (start m sys).
Proof. intros He. destruct sys as [s ps]. apply rtc_once. eapply step_start; [exact He|apply advance_runs]. Qed.
End play.

(** * Rely and guarantee *)

(** [Inv] holds between segments: every guarantee keeps it, so every rely may promise it. *)
Variables (Inv : St → Prop) (G R : nat → St → St → Prop).
Hypothesis R_refl : ∀ p s, Inv s → R p s s.
Hypothesis R_trans : ∀ p s1 s2 s3, R p s1 s2 → R p s2 s3 → R p s1 s3.
Hypothesis G_inv : ∀ p s s', Inv s → G p s s' → Inv s'.
Hypothesis G_others : ∀ p q s s', Inv s → p ≠ q → G p s s' → R q s s'.
(** What holds of a process that has not started. *)
Variable Fresh : nat → St → Prop.
Hypothesis R_fresh : ∀ p s s', R p s s' → Fresh p s → Fresh p s'.

Section wp.
Context {A : Type}.
Variables (p : nat) (Q : A → St → St → Prop).

(** From [s], in a segment that began at [s0]. *)
Fixpoint wp (m : task A) (s0 s : St) : Prop :=
  match m with
  | Ret a => Q a s0 s
  | Read k => wp (k s) s0 s
  | Write s' m => wp m s0 s'
  | Pick c k => ∀ g, wp (k g) s0 s
  | Ask c k => G p s0 s ∧ ∀ r s', R p s s' → wp (k r) s' s'
  | Wait ready m => G p s0 s ∧ ∀ s', R p s s' → ready s' = true → wp m s' s'
  end.
End wp.

Lemma wp_mono {A} p (Q Q' : A → St → St → Prop) m s0 s :
  (∀ a s0 s, Q a s0 s → Q' a s0 s) → wp p Q m s0 s → wp p Q' m s0 s.
Proof.
  intros HQ. revert s0 s. induction m as [a|k IH|s1 m IH|c k IH|c k IH|ready m IH]; intros s0 s; cbn; auto.
  - intros [H1 H2]. split; [done|]. intros r s' HR. apply IH. auto.
  - intros [H1 H2]. split; [done|]. intros s' HR Hr. apply IH. auto.
Qed.

Lemma wp_bind {A B} p (Q : B → St → St → Prop) (m : task A) (f : A → task B) s0 s :
  wp p Q (bind m f) s0 s ↔ wp p (λ a, wp p Q (f a)) m s0 s.
Proof.
  revert s0 s. induction m as [a|k IH|s1 m IH|c k IH|c k IH|ready m IH]; intros s0 s; cbn.
  - done.
  - apply IH.
  - apply IH.
  - split; intros H g; by apply IH.
  - split; (intros [HG H]; split; [done|]; intros r s' HR; apply IH; auto).
  - split; (intros [HG H]; split; [done|]; intros s' HR Hr; apply IH; auto).
Qed.

(** A process that has paused at [s]. *)
Definition settled (p : nat) (m : task Out) (s : St) : Prop :=
  match m with
  | Ret _ => True
  | Ask c k => ∀ r s', R p s s' → wp p (λ _, G p) (k r) s' s'
  | Wait ready m => ∀ s', R p s s' → ready s' = true → wp p (λ _, G p) m s' s'
  | _ => False
  end.

Lemma settled_stable p m s s' : settled p m s → R p s s' → settled p m s'.
Proof. destruct m; cbn; try done; intros H HR; intros; eapply H; eauto. Qed.

Lemma wp_runs p (m m' : task Out) s0 s s' : wp p (λ _, G p) m s0 s → runs m s m' s' → G p s0 s' ∧ settled p m' s'.
Proof.
  intros Hw Hr. revert s0 Hw. induction Hr as [a s|k s m s' _ IH|s1 m0 s m s' _ IH|c k g s m s' _ IH|c k s|ready m s];
    intros s0 Hw; cbn in Hw; [done|by apply IH..|by apply (IH _ (Hw _))|done|done].
Qed.

Lemma settled_resumes p (m m1 : task Out) s s' : settled p m s → R p s s' → resumes m s' m1 → wp p (λ _, G p) m1 s' s'.
Proof. intros Hs HR Hm. destruct Hm; cbn in Hs; auto. Qed.

(** Every process of a system is between two segments. *)
Definition system_ok (sys : system) : Prop :=
  Inv (sys_state sys) ∧
  (∀ p m, sys_procs sys !! p = Some m → settled p m (sys_state sys)) ∧
  (∀ p, (length (sys_procs sys) <= p)%nat → Fresh p (sys_state sys)).

Hypothesis entry_ok : ∀ p m s, Inv s → Fresh p s → entry p m → wp p (λ _, G p) m s s.

Lemma step_ok sys sys' : system_ok sys → step sys sys' → system_ok sys'.
Proof.
  intros (Hi & Hok & Hf) Hs. destruct Hs as [s ps p m m1 m2 s' Hp Hres Hrun|s ps m m' s' He Hrun]; cbn in *.
  - pose proof (settled_resumes _ _ _ _ _ (Hok p m Hp) (R_refl _ _ Hi) Hres) as Hw.
    destruct (wp_runs _ _ _ _ _ _ Hw Hrun) as [HG Hm2]. split_and!; cbn; [by eapply G_inv| |].
    + intros q n Hq. destruct (decide (q = p)) as [->|Hne].
      * rewrite list_lookup_insert_eq in Hq by (by eapply lookup_lt_Some). by injection Hq as <-.
      * rewrite list_lookup_insert_ne in Hq by done. eapply settled_stable; [exact (Hok q n Hq)|]. by eapply G_others.
    + intros q Hq. rewrite length_insert in Hq. apply lookup_lt_Some in Hp.
      eapply R_fresh; [|exact (Hf q Hq)]. eapply G_others; [done| |exact HG]. lia.
  - destruct (wp_runs _ _ _ _ _ _ (entry_ok _ _ _ Hi (Hf _ (le_n _)) He) Hrun) as [HG Hm2].
    split_and!; cbn; [by eapply G_inv| |].
    + intros q n Hq. apply lookup_snoc_cases in Hq as [[-> ->]|[Hlt Hq]]; [done|].
      eapply settled_stable; [exact (Hok q n Hq)|]. eapply G_others; [done| |exact HG]. lia.
    + intros q Hq. rewrite length_app in Hq. cbn in Hq.
      eapply R_fresh; [|apply (Hf q); lia]. eapply G_others; [done| |exact HG]. lia.
Qed.

(** The invariant holds in every interleaving. *)
Lemma tasks_inv s sys : Inv s → (∀ p, Fresh p s) → steps (mkSystem s []) sys → Inv (sys_state sys).
Proof.
  intros Hi Hf Hs. assert (system_ok (mkSystem s [])) as Hok by (split_and!; cbn; auto; by intros p m Hp).
  induction Hs as [sys|sys1 sys2 sys3 Hs _ IH]; [apply Hok|]. apply IH. by eapply step_ok.
Qed.
End tasks.

Arguments Ret {St call source answer given A} a.
Arguments Read {St call source answer given A} k.
Arguments Write {St call source answer given A} s m.
Arguments Pick {St call source answer given A} c k.
Arguments Ask {St call source answer given A} c k.
Arguments Wait {St call source answer given A} ready m.
Arguments mkSystem {St call source answer given Out} _ _.
Arguments sys_state {St call source answer given Out} _.
Arguments sys_procs {St call source answer given Out} _.
