(* ===== verification/ClientTypes.v ===== *)
(** oidc-vault-dpop-client: failures (errors.ts), cookie-session versions (cookie-session.ts) and credentials
    (credentials.ts).

    A key is its thumbprint. Of jose, [base64url], [decodeProtectedHeader] and [decodeJwt] are parameters;
    [structuredClone] of a profile is the profile, and a random identifier is an argument. *)

From S2P Require Import Prelude JsValue JsJson.

Inductive Mode := ModeDpop | ModeBearer.
#[global] Instance Mode_eq : EqDecision Mode.
Proof. solve_decision. Defined.
Inductive Transport := Body | Cookie.
#[global] Instance Transport_eq : EqDecision Transport.
Proof. solve_decision. Defined.

(** * Failures *)

(** [OidcVaultDpopClientError], or anything else that is thrown. *)
Inductive failure :=
  | ClientError (code : jsstr) (requiresLogin : bool) (status : option num)
  | OtherError.

Definition client_error (code : string) (requiresLogin : bool) : failure := ClientError (js code) requiresLogin None.
Definition requires_login (e : failure) : bool := match e with ClientError _ b _ => b | OtherError => false end.
Definition error_code (e : failure) : option jsstr := match e with ClientError c _ _ => Some c | OtherError => None end.

Definition keyLost : failure := client_error "DPOP_KEY_LOST" true.
Definition loginRequired : failure := client_error "LOGIN_REQUIRED" true.
Definition dpopOperationUnsupported : failure := client_error "DPOP_OPERATION_UNSUPPORTED" false.
Definition superseded : failure := client_error "DPOP_OPERATION_SUPERSEDED" false.
Definition closed : failure := client_error "DPOP_SESSION_DISPOSED" false.
Definition storage_unavailable : failure := client_error "DPOP_SESSION_STORAGE_UNAVAILABLE" true.
Definition key_storage_unavailable : failure := client_error "DPOP_KEY_STORAGE_UNAVAILABLE" true.

Definition TERMINAL_SERVER_CODES : list jsstr := map js
  ["OIDC_VAULT_FINGERPRINT_REAUTH_REQUIRED"; "OIDC_VAULT_DEVICE_BINDING_REQUIRED"; "OIDC_VAULT_INVALID_BROWSER_BINDING";
   "OIDC_VAULT_INVALID_SESSION"; "OIDC_VAULT_REFRESH_REJECTED"; "OIDC_VAULT_MISSING_SESSION_ID";
   "OIDC_VAULT_MALFORMED_SESSION_COOKIE"; "OIDC_VAULT_INVALID_EXCHANGE_CODE"]%string.
Definition NON_TERMINAL_SERVER_CODES : list jsstr := map js
  ["OIDC_VAULT_INVALID_FINGERPRINT"; "OIDC_VAULT_USE_DPOP_NONCE"; "OIDC_VAULT_INVALID_DPOP_PROOF"; "OIDC_VAULT_DPOP_REQUIRED";
   "OIDC_VAULT_DPOP_REPLAY_UNAVAILABLE"; "OIDC_VAULT_UNTRUSTED_ORIGIN"; "OIDC_VAULT_INVALID_RETURN_TO";
   "OIDC_VAULT_MISSING_EXCHANGE_CODE"; "OIDC_VAULT_REQUEST_BODY_TOO_LARGE";
   "OIDC_VAULT_REQUEST_BODY_PARAMETER_LIMIT_EXCEEDED"; "OIDC_VAULT_UNSUPPORTED_REQUEST_BODY_ENCODING";
   "OIDC_VAULT_UNSUPPORTED_REQUEST_BODY_TYPE"; "OIDC_VAULT_MALFORMED_REQUEST_BODY"; "OIDC_VAULT_INVALID_REQUEST_BODY";
   "OIDC_VAULT_INTERNAL_ERROR"; "OIDC_VAULT_INVALID_CONFIG"; "OIDC_VAULT_MISSING_CLIENT_ID"; "OIDC_VAULT_MISSING_JWKS_URI";
   "OIDC_VAULT_DISCOVERY_FAILED"; "OIDC_VAULT_DISCOVERY_INVALID"; "OIDC_VAULT_JWKS_FAILED";
   "OIDC_VAULT_TOKEN_REQUEST_FAILED"; "OIDC_VAULT_INVALID_TOKEN_RESPONSE"; "OIDC_VAULT_INVALID_ID_TOKEN";
   "OIDC_VAULT_USERINFO_FAILED"; "OIDC_VAULT_INVALID_USERINFO"]%string.

Definition request_failed (status : num) : failure := ClientError (js "OIDC_REQUEST_FAILED") false (Some status).

(** [value] is parsed JSON. *)
Definition serverError (status : num) (value : jsval) : failure :=
  match get_field value (js "code") with
  | JStr code =>
      if bool_decide (code ∈ TERMINAL_SERVER_CODES) then ClientError code true (Some status)
      else if bool_decide (code ∈ NON_TERMINAL_SERVER_CODES) then ClientError code false (Some status)
      else request_failed status
  | _ => request_failed status
  end.

(** * Cookie-session versions *)

(** [vn_mode] is absent in records of earlier installations. *)
Record CookieSessionVersion := mkVersion {
  vn_mode : option Mode;
  vn_jkt : option jsstr;
  vn_generation : jsstr;
  vn_active : bool;
  vn_refreshedAt : option Z
}.

Definition has_field (v : jsval) (k : string) : bool :=
  match v with JObj _ fs => if field_lookup fs (js k) then true else false | _ => false end.
Definition prop (v : jsval) (k : string) : jsval := get_field v (js k).
Definition safe_nonnegative (v : jsval) : option Z :=
  match v with
  | JNum n => z ← safe_integer n; if 0 <=? z then Some z else None
  | _ => None
  end.

Definition parseCookieSessionVersion (v : jsval) : option CookieSessionVersion :=
  match v with
  | JObj _ _ =>
      match prop v "generation", prop v "active" with
      | JStr ((c :: rest) as generation), JBool active =>
          let clock := safe_nonnegative (prop v "refreshedAt") in
          match prop v "mode" with
          | JStr mode =>
              if jsstr_eqb mode (js "bearer") then
                if has_field v "jkt" then None else Some (mkVersion (Some ModeBearer) None generation active clock)
              else if jsstr_eqb mode (js "dpop") then
                match prop v "jkt" with
                | JStr jkt => Some (mkVersion (Some ModeDpop) (Some jkt) generation active clock)
                | _ => None
                end
              else None
          | JUndef =>
              match prop v "jkt" with
              | JStr jkt => Some (mkVersion None (Some jkt) generation active clock)
              | _ => None
              end
          | _ => None
          end
      | _, _ => None
      end
  | _ => None
  end.

Definition cookieMode (m : option Mode) : Mode := default ModeDpop m.

Definition sameCookieBinding (l r : option CookieSessionVersion) : bool :=
  match l, r with
  | Some l, Some r =>
      bool_decide (cookieMode (vn_mode l) = cookieMode (vn_mode r)) &&
      jsstr_eqb (vn_generation l) (vn_generation r) && bool_decide (vn_jkt l = vn_jkt r)
  | _, _ => false
  end.

(** * Credentials *)

Inductive TokenType := DPoP (jkt : jsstr) | Bearer.

Record AccessToken := mkToken {
  at_accessToken : jsstr;
  at_type : TokenType;
  at_expiresAt : Z;
  at_generation : jsstr;
  at_user : option jsval
}.

Definition token_jkt (t : AccessToken) : option jsstr := match at_type t with DPoP jkt => Some jkt | Bearer => None end.
Definition token_mode (t : AccessToken) : Mode := match at_type t with DPoP _ => ModeDpop | Bearer => ModeBearer end.

Definition invalidCredentials : failure := client_error "INVALID_BOUND_CREDENTIAL_RESPONSE" true.
Definition invalidBearerCredentials : failure := client_error "INVALID_BEARER_CREDENTIAL_RESPONSE" true.

Notation fres := (result failure).

Section credentials.
Variables (base64url_decode : jsstr → option (list Z)) (base64url_encode : list Z → jsstr)
  (decodeProtectedHeader decodeJwt : jsstr → option jsval).

Definition base64url_unit (c : Z) : bool := is_alnum c || (c =? 95) || (c =? 45).

(** One segment of a compact JWT, in its only spelling. *)
Definition canonical_segment (part : jsstr) : bool :=
  negb (length part =? 0)%nat && all_units base64url_unit part &&
  match base64url_decode part with Some bytes => jsstr_eqb (base64url_encode bytes) part | None => false end.

Definition decode_jwt (accessToken : jsstr) : option (jsval * jsval) :=
  header ← decodeProtectedHeader accessToken; claims ← decodeJwt accessToken; Some (header, claims).

Definition signed_header (header : jsval) : bool :=
  match prop header "alg" with
  | JStr alg => negb (length alg =? 0)%nat && negb (jsstr_eqb alg (js "none"))
  | _ => false
  end && negb (js_strict_eq (prop header "b64") (JBool false)).

(** [/^[A-Za-z0-9_-]{42}[AEIMQUYcgkosw048]$/], of 43 units. *)
Definition thumbprint_text (jkt : jsstr) : bool :=
  (length jkt =? 43)%nat && all_units base64url_unit jkt &&
  match last jkt with Some c => includes_char c (js "AEIMQUYcgkosw048") | None => false end.

(** Safe and not negative, times 1000, safe again. *)
Definition millis (v : jsval) : option Z :=
  z ← safe_nonnegative v; if is_safe (z * 1000) then Some (z * 1000) else None.

(** [None] is [throw invalidCredentials()]. *)
Definition decodeBoundJwtExpiration (accessToken jkt : jsstr) : option Z :=
  let parts := split_on 46 accessToken in
  if (length parts =? 3)%nat && forallb canonical_segment parts then
    '(header, claims) ← decode_jwt accessToken;
    if signed_header header && thumbprint_text jkt &&
       match prop claims "cnf" with
       | JObj _ [(k, JStr bound)] => jsstr_eqb k (js "jkt") && jsstr_eqb bound jkt
       | _ => false
       end
    then millis (prop claims "exp") else None
  else None.

(** The outer [None] throws, the inner one is a token without an expiration. *)
Definition decodeBearerJwtExpiration (accessToken : jsstr) : option (option Z) :=
  let parts := split_on 46 accessToken in
  if (length parts =? 3)%nat then
    if forallb canonical_segment parts then
      '(header, claims) ← decode_jwt accessToken;
      if signed_header header && negb (has_field claims "cnf") then
        if has_field claims "exp" then Some <$> millis (prop claims "exp") else Some None
      else None
    else None
  else Some None.

Definition valid_user (user : jsval) : bool :=
  match user with
  | JUndef => true
  | JObj _ _ => match prop user "sub" with JStr _ => true | _ => false end
  | _ => false
  end.
Definition user_of (user : jsval) : option jsval := if is_undef user then None else Some user.

Definition createToken (accessToken : jsstr) (expiresAt : Z) (type : TokenType) (generation : jsstr) (user : jsval) :
    option AccessToken :=
  if valid_user user then Some (mkToken accessToken type expiresAt generation (user_of user)) else None.

(** [now + expiresIn * 1000], every operand and intermediate safe. *)
Definition response_deadline (expiresIn : jsval) (now : num) : option Z :=
  n ← safe_nonnegative (JNum now);
  lifetime ← millis expiresIn;
  if is_safe (n + lifetime) then Some (n + lifetime) else None.

(** The session handle of a response: one in body transport, none in cookie transport. *)
Definition response_handle (v : jsval) (transport : Transport) : option (option jsstr) :=
  match transport with
  | Body => match prop v "sessionId" with JStr ((c :: rest) as sessionId) => Some (Some sessionId) | _ => None end
  | Cookie => if has_field v "sessionId" then None else Some None
  end.

Definition isHeaderSafeBearerToken (s : jsstr) : bool :=
  negb (length s =? 0)%nat && all_units (λ c, in_range 33 126 c && negb (c =? 44)) s.

Definition parseDpopCredentials (v : jsval) (transport : Transport) (jkt : jsstr) (now : num) (uuid : jsstr) :
    fres (AccessToken * option jsstr) :=
  match v with
  | JObj _ _ =>
      match
        match prop v "accessToken", prop v "tokenType" with
        | JStr accessToken, JStr tokenType =>
            if jsstr_eqb tokenType (js "DPoP") then
              handle ← response_handle v transport;
              deadline ← response_deadline (prop v "expiresIn") now;
              expiration ← decodeBoundJwtExpiration accessToken jkt;
              token ← createToken accessToken (Z.min deadline expiration) (DPoP jkt) uuid (prop v "user");
              Some (token, handle)
            else None
        | _, _ => None
        end
      with Some r => Ok r | None => Err invalidCredentials end
  | _ => Err invalidCredentials
  end.

Definition parseBearerCredentials (v : jsval) (transport : Transport) (now : num) (uuid : jsstr) :
    fres (AccessToken * option jsstr) :=
  match v with
  | JObj _ _ =>
      match
        match prop v "accessToken" with
        | JStr accessToken =>
            if isHeaderSafeBearerToken accessToken &&
               match prop v "tokenType" with JUndef => true | JStr t => jsstr_eqb t (js "Bearer") | _ => false end
            then
              handle ← response_handle v transport;
              deadline ← response_deadline (prop v "expiresIn") now;
              exp ← decodeBearerJwtExpiration accessToken;
              token ← createToken accessToken (Z.min deadline (default deadline exp)) Bearer uuid (prop v "user");
              Some (token, handle)
            else None
        | _ => None
        end
      with Some r => Ok r | None => Err invalidBearerCredentials end
  | _ => Err invalidBearerCredentials
  end.

(** A peer's credential of [generation], at [now]. *)
Definition readPeerToken (v : jsval) (jkt generation : jsstr) (now : num) : option AccessToken :=
  n ← safe_nonnegative (JNum now);
  match v, prop v "accessToken", prop v "jkt", prop v "generation", prop v "tokenType" with
  | JObj _ _, JStr accessToken, JStr peerJkt, JStr peerGeneration, JStr tokenType =>
      expiresAt ← safe_nonnegative (prop v "expiresAt");
      if negb (has_field v "sessionId") && jsstr_eqb peerJkt jkt && jsstr_eqb peerGeneration generation &&
         jsstr_eqb tokenType (js "DPoP") && (n <? expiresAt)
      then
        expiration ← decodeBoundJwtExpiration accessToken jkt;
        if n <? Z.min expiresAt expiration
        then createToken accessToken (Z.min expiresAt expiration) (DPoP jkt) generation (prop v "user")
        else None
      else None
  | _, _, _, _, _ => None
  end.

Definition readBearerPeerToken (v : jsval) (generation : jsstr) (now : num) : option AccessToken :=
  n ← safe_nonnegative (JNum now);
  match v, prop v "accessToken", prop v "generation", prop v "tokenType" with
  | JObj _ _, JStr accessToken, JStr peerGeneration, JStr tokenType =>
      expiresAt ← safe_nonnegative (prop v "expiresAt");
      if negb (length generation =? 0)%nat && negb (has_field v "jkt") && negb (has_field v "sessionId") &&
         isHeaderSafeBearerToken accessToken && jsstr_eqb tokenType (js "Bearer") &&
         jsstr_eqb peerGeneration generation && (n <? expiresAt)
      then
        exp ← decodeBearerJwtExpiration accessToken;
        if n <? Z.min expiresAt (default expiresAt exp)
        then createToken accessToken (Z.min expiresAt (default expiresAt exp)) Bearer generation (prop v "user")
        else None
      else None
  | _, _, _, _ => None
  end.
End credentials.

(** What a tab posts of its own credential: the frozen token object. *)
Definition token_value (t : AccessToken) : jsval :=
  JObj true
    ([(js "accessToken", JStr (at_accessToken t));
      (js "tokenType", JStr (match at_type t with DPoP _ => js "DPoP" | Bearer => js "Bearer" end));
      (js "expiresAt", JNum (num_of_Z (at_expiresAt t)))]
     ++ match at_type t with DPoP jkt => [(js "jkt", JStr jkt)] | Bearer => [] end
     ++ [(js "generation", JStr (at_generation t))]
     ++ match at_user t with Some user => [(js "user", user)] | None => [] end).
