(* ===== verification/ClientState.v ===== *)
(** oidc-vault-dpop-client: the state of one browser session (auth-session.ts) and its lifecycle
    (session-lifecycle.ts).

    [Client] holds the variables that the methods of a session close over, with the two items of its
    [sessionStorage]. An [AbortController] is the number of controllers before it, an authority carries the number
    it was captured under; a [WeakMap] keyed by authorities is a list keyed by their identities. [cl_log] records
    what the session did, for the theorems: no code reads it. The credential observer and the automatic refresh,
    both absent by default, are not part of it. *)

From S2P Require Import Prelude JsValue JsJson JsMap DpopChallenge ClientTypes ClientTask.

(** * Authorities *)

(** The [current] predicates given to [capture]. *)
Inductive Condition :=
  | SamePublication (n : nat)
  | SameLoginIntent (n : nat)
  | SameNavigation (n : nat)
  | OpenWaiter (w : nat)
  | SameEpoch (n : nat).      (** another authority's [isCurrent()] *)

Record Authority := mkAuthority { au_id : nat; au_epoch : nat; au_conditions : list Condition }.

Inductive Route := RouteLogin | RouteExchange | RouteRefresh | RouteLogout | RouteLogoutNavigation.
#[global] Instance Route_eq : EqDecision Route.
Proof. solve_decision. Defined.

(** * Messages between tabs *)

Inductive MessageType := MsgToken | MsgRequestToken | MsgClear | MsgResetKey.

Record ChannelMessage := mkMessage {
  msg_type : MessageType;
  msg_sender : jsstr;
  msg_generation : jsstr;
  msg_mode : option Mode;
  msg_jkt : option jsstr;
  msg_keyJkt : option jsstr;
  msg_recognition : option jsstr;
  msg_token : jsval
}.

(** [requestPeer]'s wait for a credential of another tab. *)
Record PeerWaiter := mkWaiter {
  pw_jkt : option jsstr;
  pw_generation : jsstr;
  pw_recognition : jsstr;
  pw_rejected : option jsstr;
  pw_authority : Authority;
  pw_adopting : bool;
  pw_result : option (option AccessToken)      (** [Some] once settled *)
}.

(** * What the session did *)

Inductive Event :=
  | Captured (a : Authority)
  | Invalidated                                 (** the controller was aborted and replaced *)
  | Disposed
  | Begun (p : nat) | Ended (p : nat)           (** the turn of a queued body *)
  | Bumped                                      (** [publication++] or [loginIntent++] *)
  | Claimed (a : Authority)
  | FailureCleared (a : Authority)              (** [onFailure] clears the session *)
  | Cleared (a : Authority)                     (** a body or a message taken up under [a] clears the session *)
  | Withdrawn                                   (** [navigationIntent++] *)
  | StoredHandle (h : option jsstr)             (** [store(storageKey, ..)]; [None] removes it *)
  | Sent (p : nat) (a : Authority) (route : Route) (handle : option jsstr) (jkt : option jsstr)
  | Committed (a : Authority) (t : AccessToken)
  | Adopted (a : Authority) (t : AccessToken)
  | Posted (m : ChannelMessage)
  | Forgotten                                   (** the credential in memory is dropped *)
  | Navigated (a : Authority) (route : Route) (url : jsstr).

(** * The state *)

Record Lifecycle := mkLifecycle {
  lc_epoch : nat;               (** the current controller *)
  lc_disposed : bool;
  lc_queue : list nat;          (** [tail]: the processes that enqueued a body, in order *)
  lc_turn : nat;                (** how many of them have settled *)
  lc_authorities : nat
}.

Record Credentials := mkCredentials {
  cr_token : option AccessToken;
  cr_recognition : option jsstr;
  cr_publication : nat;
  cr_loginIntent : nat;
  cr_acceptPeerTokens : bool
}.

Record Bindings := mkBindings {
  bd_cookieBindings : list (nat * CookieSessionVersion);
  bd_localCookieBinding : option CookieSessionVersion;
  bd_failureStates : list (nat * (nat * nat))
}.

(** The shared promises, as the processes that settle them. *)
Record Promises := mkPromises {
  pr_refresh : option nat;
  pr_reset : option nat;
  pr_navigation : option nat;
  pr_navigationIntent : nat
}.

Record Storage := mkStorage { sg_handle : option jsval; sg_pending : option jsval }.

Record Client := mkClient {
  cl_lifecycle : Lifecycle;
  cl_credentials : Credentials;
  cl_bindings : Bindings;
  cl_promises : Promises;
  cl_storage : Storage;
  cl_waiters : list PeerWaiter;
  cl_nonces : jsmap jsstr;
  cl_log : list Event
}.

Section setters.
Implicit Types s : Client.
Definition on_lifecycle (f : Lifecycle → Lifecycle) s : Client :=
  mkClient (f (cl_lifecycle s)) (cl_credentials s) (cl_bindings s) (cl_promises s) (cl_storage s) (cl_waiters s) (cl_nonces s) (cl_log s).
Definition on_credentials (f : Credentials → Credentials) s : Client :=
  mkClient (cl_lifecycle s) (f (cl_credentials s)) (cl_bindings s) (cl_promises s) (cl_storage s) (cl_waiters s) (cl_nonces s) (cl_log s).
Definition on_bindings (f : Bindings → Bindings) s : Client :=
  mkClient (cl_lifecycle s) (cl_credentials s) (f (cl_bindings s)) (cl_promises s) (cl_storage s) (cl_waiters s) (cl_nonces s) (cl_log s).
Definition on_promises (f : Promises → Promises) s : Client :=
  mkClient (cl_lifecycle s) (cl_credentials s) (cl_bindings s) (f (cl_promises s)) (cl_storage s) (cl_waiters s) (cl_nonces s) (cl_log s).
Definition on_storage (f : Storage → Storage) s : Client :=
  mkClient (cl_lifecycle s) (cl_credentials s) (cl_bindings s) (cl_promises s) (f (cl_storage s)) (cl_waiters s) (cl_nonces s) (cl_log s).
Definition on_waiters (f : list PeerWaiter → list PeerWaiter) s : Client :=
  mkClient (cl_lifecycle s) (cl_credentials s) (cl_bindings s) (cl_promises s) (cl_storage s) (f (cl_waiters s)) (cl_nonces s) (cl_log s).
Definition on_nonces (f : jsmap jsstr → jsmap jsstr) s : Client :=
  mkClient (cl_lifecycle s) (cl_credentials s) (cl_bindings s) (cl_promises s) (cl_storage s) (cl_waiters s) (f (cl_nonces s)) (cl_log s).
Definition logged (es : list Event) s : Client :=
  mkClient (cl_lifecycle s) (cl_credentials s) (cl_bindings s) (cl_promises s) (cl_storage s) (cl_waiters s) (cl_nonces s) (cl_log s ++ es).
End setters.

Definition fresh_client (handle pending : option jsval) : Client :=
  mkClient (mkLifecycle 0 false [] 0 0) (mkCredentials None None 0 0 true) (mkBindings [] None [])
    (mkPromises None None None 0) (mkStorage handle pending) [] [] [].

Definition token_of (s : Client) : option AccessToken := cr_token (cl_credentials s).
Definition publication (s : Client) : nat := cr_publication (cl_credentials s).
Definition loginIntent (s : Client) : nat := cr_loginIntent (cl_credentials s).
Definition navigationIntent (s : Client) : nat := pr_navigationIntent (cl_promises s).
Definition epoch (s : Client) : nat := lc_epoch (cl_lifecycle s).
Definition disposed (s : Client) : bool := lc_disposed (cl_lifecycle s).
Definition handle_of (s : Client) : option jsval := sg_handle (cl_storage s).
Definition cookieBinding (s : Client) (a : Authority) : option CookieSessionVersion :=
  map snd (filter (λ kv, kv.1 = au_id a) (bd_cookieBindings (cl_bindings s))) !! 0%nat.
Definition failureState (s : Client) (a : Authority) : option (nat * nat) :=
  map snd (filter (λ kv, kv.1 = au_id a) (bd_failureStates (cl_bindings s))) !! 0%nat.

(** * session-lifecycle.ts *)

Definition waiter_open (s : Client) (w : nat) : bool :=
  match cl_waiters s !! w with Some pw => if pw_result pw then false else true | None => false end.

Definition holds (s : Client) (c : Condition) : bool :=
  match c with
  | SamePublication n => (publication s =? n)%nat
  | SameLoginIntent n => (loginIntent s =? n)%nat
  | SameNavigation n => (navigationIntent s =? n)%nat
  | OpenWaiter w => waiter_open s w
  | SameEpoch n => negb (disposed s) && (epoch s =? n)%nat
  end.

(** [isCurrent()] *)
Definition isCurrent (s : Client) (a : Authority) : bool :=
  negb (disposed s) && (epoch s =? au_epoch a)%nat && forallb (holds s) (au_conditions a).

(** [assertCurrent()] *)
Definition check_current (s : Client) (a : Authority) : fres unit :=
  guard (negb (disposed s)) closed ;;;
  guard ((epoch s =? au_epoch a)%nat && forallb (holds s) (au_conditions a)) superseded.

Definition capture_state (conditions : list Condition) (s : Client) : Authority * Client :=
  let a := mkAuthority (lc_authorities (cl_lifecycle s)) (epoch s) conditions in
  (a, logged [Captured a] (on_lifecycle (λ l, mkLifecycle (lc_epoch l) (lc_disposed l) (lc_queue l) (lc_turn l)
    (S (lc_authorities l))) s)).

(** The old controller aborts and a new one takes its place. *)
Definition abort_controller (s : Client) : Client :=
  logged [Invalidated] (on_lifecycle (λ l, mkLifecycle (S (lc_epoch l)) (lc_disposed l) (lc_queue l) (lc_turn l)
    (lc_authorities l)) s).

Definition take_ticket (p : nat) (s : Client) : Client :=
  on_lifecycle (λ l, mkLifecycle (lc_epoch l) (lc_disposed l) (lc_queue l ++ [p]) (lc_turn l) (lc_authorities l)) s.
Definition end_turn (p : nat) (s : Client) : Client :=
  logged [Ended p] (on_lifecycle (λ l, mkLifecycle (lc_epoch l) (lc_disposed l) (lc_queue l) (S (lc_turn l))
    (lc_authorities l)) s).
Definition dispose_lifecycle (s : Client) : Client :=
  logged [Disposed] (on_lifecycle (λ l, mkLifecycle (lc_epoch l) true (lc_queue l) (lc_turn l) (lc_authorities l)) s).

(** * auth-session.ts: changes of the state *)

(** [claimFailure(authority)] *)
Definition claim_failure (a : Authority) (s : Client) : Client :=
  logged [Claimed a] (on_bindings (λ b, mkBindings (bd_cookieBindings b) (bd_localCookieBinding b)
    ((au_id a, (publication s, loginIntent s)) :: bd_failureStates b)) s).
(** [cookieBindings.set(authority, version)] *)
Definition bind_cookie (a : Authority) (v : CookieSessionVersion) (s : Client) : Client :=
  on_bindings (λ b, mkBindings ((au_id a, v) :: bd_cookieBindings b) (bd_localCookieBinding b) (bd_failureStates b)) s.
Definition set_local_binding (v : CookieSessionVersion) (s : Client) : Client :=
  on_bindings (λ b, mkBindings (bd_cookieBindings b) (Some v) (bd_failureStates b)) s.

Definition bump_publication (s : Client) : Client :=
  logged [Bumped] (on_credentials (λ c, mkCredentials (cr_token c) (cr_recognition c) (S (cr_publication c))
    (cr_loginIntent c) (cr_acceptPeerTokens c)) s).
Definition bump_login (s : Client) : Client :=
  logged [Bumped] (on_credentials (λ c, mkCredentials (cr_token c) (cr_recognition c) (cr_publication c)
    (S (cr_loginIntent c)) (cr_acceptPeerTokens c)) s).
Definition set_token (t : option AccessToken) (recognition : option jsstr) (accept : bool) (s : Client) : Client :=
  on_credentials (λ c, mkCredentials t recognition (cr_publication c) (cr_loginIntent c) accept) s.

Definition set_refresh (p : option nat) (s : Client) : Client :=
  on_promises (λ r, mkPromises p (pr_reset r) (pr_navigation r) (pr_navigationIntent r)) s.
Definition set_reset (p : option nat) (s : Client) : Client :=
  on_promises (λ r, mkPromises (pr_refresh r) p (pr_navigation r) (pr_navigationIntent r)) s.
Definition set_navigation (p : option nat) (s : Client) : Client :=
  on_promises (λ r, mkPromises (pr_refresh r) (pr_reset r) p (pr_navigationIntent r)) s.
Definition withdrawNavigation (s : Client) : Client :=
  logged [Withdrawn] (on_promises (λ r, mkPromises (pr_refresh r) (pr_reset r) None (S (pr_navigationIntent r))) s).

(** [waiter.finish()] of an unsettled waiter. *)
Definition finish_waiter (w : PeerWaiter) (value : option AccessToken) : PeerWaiter :=
  match pw_result w with
  | Some _ => w
  | None => mkWaiter (pw_jkt w) (pw_generation w) (pw_recognition w) (pw_rejected w) (pw_authority w) (pw_adopting w)
              (Some value)
  end.
Definition update_waiter (w : nat) (f : PeerWaiter → PeerWaiter) (s : Client) : Client := on_waiters (alter f w) s.

(** [clearLocal] up to the storage. *)
Definition forget_credentials (s : Client) : Client :=
  logged [Forgotten]
    (on_nonces (λ _, [])
      (on_waiters (map (λ w, finish_waiter w None))
        (bump_publication (set_token None None false s)))).

(** [store(storageKey)], [store(pendingKey)] and their values, when the storage works. *)
Definition store_handle (v : option jsval) (h : option jsstr) (s : Client) : Client :=
  logged [StoredHandle h] (on_storage (λ g, mkStorage v (sg_pending g)) s).
Definition store_pending (v : option jsval) (s : Client) : Client :=
  on_storage (λ g, mkStorage (sg_handle g) v) s.

(** [invalidateLocal] up to the storage, with the new authority. *)
Definition invalidate_state (s : Client) : Authority * Client :=
  let (a, s) := capture_state [] (abort_controller s) in
  (a, forget_credentials (set_reset None (set_refresh None (withdrawNavigation s)))).

(** [dispose()] *)
Definition dispose_state (s : Client) : Client :=
  let s := if disposed s then s else dispose_lifecycle s in
  logged [Forgotten]
    (on_nonces (λ _, [])
      (on_waiters (map (λ w, finish_waiter w None))
        (set_token None None (cr_acceptPeerTokens (cl_credentials s))
          (set_reset None (set_refresh None (bump_publication (withdrawNavigation s))))))).
