(* ===== verification/ClientSession.v ===== *)
(** oidc-vault-dpop-client: the methods of a browser session (auth-session.ts), as tasks over [Client].

    IndexedDB, Web Crypto, Web Locks, [fetch], the fingerprint provider and the clock answer as they like: they are
    the calls and sources of the tasks. A method that is called while its promise is shared answers [Shared]. What
    [clear] and [resetKey] start to read before they queue is read when they use it; the answer is any answer
    either way. *)

From S2P Require Import Prelude JsValue JsJson JsMap DpopChallenge ClientTypes ClientTask ClientState.

(** [keyPresent], [keyJkt], [cookiePresent] and [version] of [DpopScopeState]. *)
Record ScopeState := mkScope {
  ss_keyPresent : bool;
  ss_keyJkt : option jsstr;
  ss_cookiePresent : bool;
  ss_version : option CookieSessionVersion
}.

Inductive call :=
  | ReadRecord                                   (** the record under the scope in [cookieSessions] *)
  | WriteRecord (v : CookieSessionVersion)
  | ReadScopeState
  | ReadForRemoval                               (** the state inside the removing transaction *)
  | DeleteScope
  | GetKey (create : bool)
  | FingerprintHeaders
  | RecognitionDigest (headers : list (jsstr * jsstr))
  | CreateProof (jkt : jsstr) (url : jsstr) (nonce : option jsstr)
  | Http (url : jsstr) (route : Route) (body : jsval) (recognition : list (jsstr * jsstr)) (proof : option jsstr)
  | LockGranted.

Record HttpResponse := mkHttpResponse { hr_status : num; hr_nonce : option jsstr; hr_value : jsval }.

Definition answer (c : call) : Type :=
  fres match c with
  | ReadRecord => jsval
  | WriteRecord _ | DeleteScope | LockGranted => unit
  | ReadScopeState | ReadForRemoval => ScopeState
  | GetKey _ => jsstr
  | FingerprintHeaders => list (jsstr * jsstr)
  | RecognitionDigest _ | CreateProof _ _ _ => jsstr
  | Http _ _ _ _ _ => HttpResponse
  end.

Inductive source := Now | RandomUUID | StorageWorks | Navigate (url : jsstr).
Definition given (c : source) : Type :=
  match c with Now => num | RandomUUID => jsstr | StorageWorks => bool | Navigate _ => fres unit end.

Inductive Outcome := Done | GotToken (t : AccessToken) | GotKey (jkt : jsstr) | Shared (p : nat).

Abbreviation raw_task A := (@task Client call source answer given A).
Abbreviation ctask A := (raw_task (fres A)).

Definition ret {A} (a : A) : ctask A := Ret (Ok a).
Definition throw {A} (e : failure) : ctask A := Ret (Err e).
Definition rbind {A B} (m : ctask A) (f : A → ctask B) : ctask B :=
  bind answer given m (λ r, match r with Ok a => f a | Err e => throw e end).
(** [try { m } catch (e) { h(e) }] *)
Definition tcatch {A} (m : ctask A) (h : failure → ctask A) : ctask A :=
  bind answer given m (λ r, match r with Ok a => ret a | Err e => h e end).

Declare Scope client_scope.
Delimit Scope client_scope with client.
Notation "'let!' x ':=' m 'in' k" := (rbind m (λ x, k))
  (at level 200, x pattern, m at level 100, k at level 200) : client_scope.
Notation "m ';!' k" := (rbind m (λ _, k)) (at level 100, k at level 200, right associativity) : client_scope.
Open Scope client_scope.

Definition state {A} (f : Client → A) : ctask A := Read (λ s, ret (f s)).
Definition update (f : Client → Client) : ctask unit := Read (λ s, Write (f s) (ret tt)).
Definition await (c : call) : raw_task (answer c) := Ask c Ret.
Definition take (c : source) : ctask (given c) := Pick c ret.
Definition throw_unless (b : bool) (e : failure) : ctask unit := if b then ret tt else throw e.
Definition pause : ctask unit := Wait (λ _, true) (ret tt).

Definition assertCurrent (a : Authority) : ctask unit := Read (λ s, Ret (check_current s a)).
(** [lifecycle.capture(current)] *)
Definition capture (conditions : Client → list Condition) : ctask Authority :=
  Read (λ s, if disposed s then throw closed
             else let (a, s') := capture_state (conditions s) s in Write s' (ret a)).

(** [enqueue(authority, run)] of process [p]: a turn after every body queued before. *)
Definition enqueue {A} (p : nat) (a : Authority) (run : ctask A) : ctask A :=
  let! n := state (λ s, length (lc_queue (cl_lifecycle s))) in
  update (take_ticket p) ;!
  Wait (λ s, (lc_turn (cl_lifecycle s) =? n)%nat)
    (update (logged [Begun p]) ;!
     bind answer given (assertCurrent a ;! run) (λ r, update (end_turn p) ;! pause ;! Ret r)).

Section session.
Variables (useDpop : bool) (transport : Transport) (sender : jsstr) (scope_id vault_url : jsstr).
Variables (parse_url : jsstr → option URL).
Variables (base64url_decode : jsstr → option (list Z)) (base64url_encode : list Z → jsstr)
  (decodeProtectedHeader decodeJwt : jsstr → option jsval).

Definition mode : Mode := if useDpop then ModeDpop else ModeBearer.
(** Whether the session has a [channel]. *)
Definition cookie : bool := match transport with Cookie => true | Body => false end.

(** * Storage *)

Definition storage (f : Client → Client) : ctask unit :=
  let! works := take StorageWorks in
  if (works : bool) then update f else throw storage_unavailable.
Definition read_storage (item : Storage → option jsval) : ctask (option jsval) :=
  let! works := take StorageWorks in
  if (works : bool) then state (λ s, item (cl_storage s)) else throw storage_unavailable.

(** The fields of this mode: DPoP items name a key, Bearer items their mode. *)
Definition item_of_mode (v : jsval) : bool :=
  if useDpop then
    match prop v "mode" with
    | JUndef | JNull => true
    | m => js_strict_eq m (JStr (js "dpop"))
    end && match prop v "jkt" with JStr _ => true | _ => false end
  else js_strict_eq (prop v "mode") (JStr (js "bearer")) && negb (has_field v "jkt").
Definition item_jkt (v : jsval) : option jsstr := match prop v "jkt" with JStr jkt => Some jkt | _ => None end.

Record Handle := mkHandle { hd_sessionId : jsstr; hd_jkt : option jsstr }.
Definition handle_in (item : option jsval) : option Handle :=
  v ← item;
  match v, prop v "sessionId" with
  | JObj _ _, JStr ((c :: rest) as sessionId) => if item_of_mode v then Some (mkHandle sessionId (item_jkt v)) else None
  | _, _ => None
  end.
Definition readHandle : ctask (option Handle) := let! item := read_storage sg_handle in ret (handle_in item).

Record PendingLogin := mkPending { pd_jkt : option jsstr; pd_generation : jsval }.
Definition pending_in (item : option jsval) : option PendingLogin :=
  v ← item;
  match v with
  | JObj _ _ => if item_of_mode v then Some (mkPending (item_jkt v) (prop v "generation")) else None
  | _ => None
  end.
Definition readPending : ctask (option PendingLogin) := let! item := read_storage sg_pending in ret (pending_in item).

Definition binding_members (jkt : option jsstr) : list (jsstr * jsval) :=
  if useDpop then [(js "jkt", JStr (default [] jkt))] else [(js "mode", JStr (js "bearer"))].

(** * Local state *)

Definition clear_storage (clearPendingLogin : bool) : ctask unit :=
  storage (store_handle None None) ;!
  if clearPendingLogin then storage (store_pending None) else ret tt.

(** [clearLocal] in a body that works under [a]. *)
Definition clearLocal (a : Authority) (clearPendingLogin : bool) : ctask unit :=
  update (λ s, forget_credentials (logged [Cleared a] s)) ;! clear_storage clearPendingLogin.

Definition invalidateLocal (clearPendingLogin : bool) : ctask Authority :=
  let! a := Read (λ s, if disposed s then throw closed
                       else let (a, s') := invalidate_state s in Write s' (ret a)) in
  clear_storage clearPendingLogin ;!
  ret a.

Definition post_message (m : ChannelMessage) : ctask unit :=
  if cookie then update (logged [Posted m]) else ret tt.

Definition token_binding (t : AccessToken) : CookieSessionVersion :=
  mkVersion (Some (token_mode t)) (token_jkt t) (at_generation t) true None.
Definition current_binding (s : Client) : option CookieSessionVersion := token_binding <$> token_of s.

Definition stateAuthority (more : list Condition) : ctask Authority :=
  capture (λ s, SamePublication (publication s) :: more).
Definition peerAuthority (more : list Condition) : ctask Authority :=
  capture (λ s, SamePublication (publication s) :: SameLoginIntent (loginIntent s) :: more).

(** * Outside *)

Definition readVersion : ctask (option CookieSessionVersion) :=
  let! record := await ReadRecord in ret (parseCookieSessionVersion record).
Definition writeVersion (v : CookieSessionVersion) (a : Authority) : ctask unit :=
  assertCurrent a ;! await (WriteRecord v) ;! assertCurrent a.
Definition readScopeState (a : Authority) : ctask ScopeState :=
  assertCurrent a ;! let! s := await ReadScopeState in assertCurrent a ;! ret s.

(** The deletion happens only where [matches] holds inside the transaction. *)
Definition removeDpopScope (a : Authority) (matches : ScopeState → bool) : ctask (option ScopeState) :=
  assertCurrent a ;!
  tcatch
    (let! previous := await ReadForRemoval in
     assertCurrent a ;!
     if matches previous then assertCurrent a ;! await DeleteScope ;! assertCurrent a ;! ret (Some previous)
     else assertCurrent a ;! ret None)
    (λ e, assertCurrent a ;! throw (match e with ClientError _ _ _ => e | OtherError => key_storage_unavailable end)).

Definition existingKey (a : Authority) (expectedJkt : option jsstr) : ctask jsstr :=
  assertCurrent a ;!
  let! jkt := await (GetKey false) in
  assertCurrent a ;!
  throw_unless (match expectedJkt with Some e => jsstr_eqb e jkt | None => true end) keyLost ;!
  ret jkt.

Definition getOrCreateLoginDpopKey (a : Authority) : ctask jsstr :=
  assertCurrent a ;!
  tcatch (let! jkt := await (GetKey true) in assertCurrent a ;! ret jkt) (λ e, assertCurrent a ;! throw e).

Definition currentRecognition (a : Authority) : ctask jsstr :=
  assertCurrent a ;!
  let! headers := await FingerprintHeaders in
  assertCurrent a ;!
  let! marker := await (RecognitionDigest headers) in
  assertCurrent a ;!
  ret marker.

(** A string that is there and not empty. *)
Definition has_text (s : option jsstr) : bool := match s with Some (_ :: _) => true | _ => false end.

(** Whether the metadata names this mode. *)
Definition of_mode (v : CookieSessionVersion) : bool := bool_decide (cookieMode (vn_mode v) = mode).

Definition invalidateCookie (a : Authority) (expected : option CookieSessionVersion) (replace : bool)
    (loginJkt : option jsstr) : ctask unit :=
  assertCurrent a ;!
  if cookie then
    let! previous := readVersion in
    assertCurrent a ;!
    if negb replace && negb match expected with Some e => of_mode e && sameCookieBinding previous expected | None => false end
    then ret tt
    else
      let! mine :=
        if negb replace && useDpop then
          let! current := readScopeState a in
          assertCurrent a ;!
          ret (sameCookieBinding (ss_version current) expected &&
               match ss_keyJkt current with Some k => bool_decide (Some k = expected ≫= vn_jkt) | None => true end)
        else ret true in
      if mine : bool then
        let! generation := take RandomUUID in
        let next := mkVersion (Some mode)
          (if useDpop then
             Some (match loginJkt, expected ≫= vn_jkt, previous ≫= vn_jkt with
                   | Some j, _, _ | None, Some j, _ | None, None, Some j => j
                   | None, None, None => []
                   end)
           else None) generation false None in
        writeVersion next a ;!
        assertCurrent a ;!
        update (λ s, set_local_binding next (bind_cookie a next s)) ;!
        post_message (mkMessage MsgClear sender generation (vn_mode next) (vn_jkt next) None None JUndef)
      else ret tt
  else ret tt.

Definition authenticatedKey (a : Authority) (allowInactive : bool) : ctask jsstr :=
  assertCurrent a ;!
  let! version :=
    if cookie then
      let! version := readVersion in
      assertCurrent a ;!
      match version with
      | Some v => if of_mode v then update (bind_cookie a v) ;! ret version else throw loginRequired
      | None => ret None
      end
    else ret None in
  let! held := state (λ s, token_of s ≫= token_jkt) in
  let! expected :=
    match held with
    | Some jkt => ret (Some jkt)
    | None => if cookie then ret (version ≫= vn_jkt) else let! h := readHandle in ret (h ≫= hd_jkt)
    end in
  let! key := existingKey a expected in
  assertCurrent a ;!
  throw_unless (has_text expected &&
                (negb cookie || match version with Some v => vn_active v || allowInactive | None => false end))
    loginRequired ;!
  ret key.

Definition authenticatedSession (a : Authority) (allowInactive : bool) : ctask (option jsstr) :=
  if useDpop then let! key := authenticatedKey a allowInactive in ret (Some key)
  else
    assertCurrent a ;!
    if cookie then
      let! version := readVersion in
      assertCurrent a ;!
      match version with
      | Some v => if (vn_active v || allowInactive) && of_mode v then update (bind_cookie a v) ;! ret None
                  else throw loginRequired
      | None => throw loginRequired
      end
    else let! h := readHandle in match h with Some _ => ret None | None => throw loginRequired end.

(** * Requests to the vault *)

Definition route_path (r : Route) : jsstr :=
  js match r with
     | RouteLogin => "login" | RouteExchange => "exchange" | RouteRefresh => "refresh" | RouteLogout => "logout"
     | RouteLogoutNavigation => "logout/navigation"
     end.
Definition route_url (r : Route) : jsstr := vault_url ++ 47 :: route_path r.

Definition successful (status : num) : bool := num_le (num_of_Z 200) status && num_lt status (num_of_Z 300).

Definition is_superseded_refresh (s : Client) (publication0 loginIntent0 : nat) : bool :=
  negb (publication s =? publication0)%nat || negb (loginIntent s =? loginIntent0)%nat.

(** What a rejected refresh still has to show before its error ends the login. *)
Definition confirm_rejection (a : Authority) (publication0 loginIntent0 : nat) (binding0 : option CookieSessionVersion)
    (status : num) : ctask unit :=
  let assertRejectionCurrent : ctask unit :=
    assertCurrent a ;!
    let! moved := state (λ s, is_superseded_refresh s publication0 loginIntent0) in
    throw_unless (negb moved) superseded in
  assertRejectionCurrent ;!
  if cookie then
    let! current := tcatch readVersion (λ _, assertRejectionCurrent ;! throw (request_failed status)) in
    assertRejectionCurrent ;!
    throw_unless (match current with Some v => vn_active v | None => false end && sameCookieBinding current binding0) superseded
  else ret tt.

Section post.
Variables (p : nat) (a : Authority) (route : Route) (handle : option jsstr) (body : jsval) (key : option jsstr).
Variables (publication0 loginIntent0 : nat) (binding0 : option CookieSessionVersion).

(** One attempt; [None] retries with the nonce it learned. *)
Definition post_attempt (nonceRetried : bool) : ctask (option (jsval * jsstr)) :=
  assertCurrent a ;!
  let! recognition :=
    match route with
    | RouteLogout | RouteLogoutNavigation => ret []
    | _ => await FingerprintHeaders
    end in
  assertCurrent a ;!
  let! proof :=
    if useDpop then
      let! jkt := existingKey a key in
      let! nonce := state (λ s, key ≫= cache_get (cl_nonces s) scope_id) in
      let! proof := await (CreateProof jkt (route_url route) nonce) in
      ret (Some proof)
    else ret None in
  assertCurrent a ;!
  update (logged [Sent p a route handle key]) ;!
  let! response := await (Http (route_url route) route body recognition proof) in
  assertCurrent a ;!
  let! learned :=
    match useDpop, key with
    | true, Some jkt =>
        let! r := state (λ s, cache_remember (cl_nonces s) scope_id jkt (hr_nonce response)) in
        update (on_nonces (λ _, r.2)) ;! ret r.1
    | _, _ => ret false
    end in
  let status := hr_status response in
  if successful status then
    let! marker := await (RecognitionDigest recognition) in
    assertCurrent a ;!
    ret (Some (hr_value response, marker))
  else
    let error := serverError status (hr_value response) in
    let code := default [] (error_code error) in
    (if bool_decide (route = RouteRefresh) && jsstr_eqb code (js "OIDC_VAULT_REFRESH_REJECTED")
     then confirm_rejection a publication0 loginIntent0 binding0 status else ret tt) ;!
    if useDpop && jsstr_eqb code (js "OIDC_VAULT_USE_DPOP_NONCE") &&
       (num_eqb status (num_of_Z 400) || num_eqb status (num_of_Z 401))
    then
      if nonceRetried then throw (ClientError (js "DPOP_NONCE_RETRY_EXHAUSTED") false (Some status))
      else if learned : bool then ret None else throw error
    else throw error.
End post.

(** The loop of [post]: a second attempt never continues. Whoever awaits the result goes on in a later turn. *)
Definition post (p : nat) (a : Authority) (route : Route) (handle : option jsstr) (body : jsval) (key : option jsstr) :
    ctask (jsval * jsstr) :=
  let! start := state (λ s, (publication s, loginIntent s, cookieBinding s a)) in
  let '(publication0, loginIntent0, binding0) := start in
  let attempt := post_attempt p a route handle body key publication0 loginIntent0 binding0 in
  update (claim_failure a) ;!
  bind answer given
    (let! first := attempt false in
     match first with
     | Some r => ret r
     | None => let! second := attempt true in match second with Some r => ret r | None => throw OtherError end
     end)
    (λ r, pause ;! Ret r).

(** * Publication *)

Definition commit_token (t : AccessToken) (recognition : jsstr) (a : Authority) (s : Client) : Client :=
  logged [Committed a t] (claim_failure a (bump_publication (set_token (Some t) (Some recognition) true s))).

Definition token_message (t : AccessToken) (recognition : option jsstr) : ChannelMessage :=
  mkMessage MsgToken sender (at_generation t) (Some mode) (token_jkt t) None recognition (token_value t).

Definition handle_item (sessionId : jsstr) (t : AccessToken) : jsval :=
  JObj true ((js "sessionId", JStr sessionId) :: binding_members (token_jkt t)).

Definition publish (next : AccessToken) (recognition : jsstr) (a : Authority) (sessionId : option jsstr)
    (refreshedAt : option Z) : ctask AccessToken :=
  (match at_type next with DPoP jkt => existingKey a (Some jkt) ;! ret tt | Bearer => ret tt end) ;!
  assertCurrent a ;!
  (if cookie then
     let! expected := state (λ s, cookieBinding s a) in
     let! current := readVersion in
     assertCurrent a ;!
     throw_unless (match expected with
                   | Some _ => sameCookieBinding current expected
                   | None => match current with Some _ => false | None => true end
                   end) superseded ;!
     let version := mkVersion (Some (token_mode next)) (token_jkt next) (at_generation next) true refreshedAt in
     writeVersion version a ;!
     assertCurrent a ;!
     update (λ s, set_local_binding version (bind_cookie a version s))
   else ret tt) ;!
  assertCurrent a ;!
  (if cookie then ret tt
   else storage (store_handle (Some (handle_item (default [] sessionId) next)) sessionId)) ;!
  update (commit_token next recognition a) ;!
  post_message (token_message next (Some recognition)) ;!
  ret next.

Definition acceptResponse (response : jsval * jsstr) (key : option jsstr) (a : Authority) : ctask AccessToken :=
  assertCurrent a ;!
  let! now := take Now in
  let! uuid := take RandomUUID in
  match
    if useDpop
    then parseDpopCredentials base64url_decode base64url_encode decodeProtectedHeader decodeJwt response.1 transport
           (default [] key) now uuid
    else parseBearerCredentials base64url_decode base64url_encode decodeProtectedHeader decodeJwt response.1 transport now uuid
  with
  | Ok (t, sessionId) => publish t response.2 a sessionId (safe_nonnegative (JNum now))
  | Err e => throw e
  end.

(** * Failures *)

Definition onFailure {A} (e : failure) (a : Authority) : ctask A :=
  assertCurrent a ;!
  (if requires_login e then
     let! owned := state (λ s, match failureState s a with
                               | Some (n, m) => (publication s =? n)%nat && (loginIntent s =? m)%nat
                               | None => true
                               end) in
     throw_unless owned superseded ;!
     let! expected := state (λ s, match current_binding s with Some b => Some b | None => cookieBinding s a end) in
     update (logged [FailureCleared a]) ;!
     let! invalidation := invalidateLocal true in
     invalidateCookie invalidation expected false None ;!
     assertCurrent invalidation
   else ret tt) ;!
  throw e.

(** Held until [run] has settled; the promise settles after the lock is released. *)
Definition withCookieLock {A} (run : ctask A) : ctask A :=
  if cookie then await LockGranted ;! bind answer given run (λ r, pause ;! Ret r) else run.

Definition operation {A} (p : nat) (a : Authority) (run : ctask A) : ctask A :=
  enqueue p a (withCookieLock
    (assertCurrent a ;!
     update (claim_failure a) ;!
     tcatch (let! result := run in assertCurrent a ;! ret result) (λ e, onFailure e a))).

(** * Peers *)

(** [token.expiresAt <= now] and [token.expiresAt > now] *)
Definition expired_at (t : AccessToken) (now : num) : bool := num_le (num_of_Z (at_expiresAt t)) now.
Definition live_at (t : AccessToken) (now : num) : bool := num_lt now (num_of_Z (at_expiresAt t)).

Definition onPeerKeyFailure (e : failure) (a : Authority) (jkt : option jsstr) : ctask unit :=
  let! owner := state (λ s, isCurrent s a && bool_decide (is_Some jkt) &&
                            bool_decide ((token_of s ≫= token_jkt) = jkt)) in
  if owner && requires_login e then tcatch (update (logged [Cleared a]) ;! invalidateLocal false ;! ret tt) (λ _, ret tt) else ret tt.

Definition adopt (t : AccessToken) (latest : CookieSessionVersion) (recognition : jsstr) (a : Authority) (s : Client) : Client :=
  bump_publication (logged [Adopted a t] (set_local_binding latest (set_token (Some t) (Some recognition) true s))).

(** The credential [t] under this recognition is already in memory. *)
Definition same_credential (s : Client) (t : AccessToken) (recognition : jsstr) : bool :=
  match token_of s with
  | Some c => jsstr_eqb (at_generation c) (at_generation t) && jsstr_eqb (at_accessToken c) (at_accessToken t) &&
              (at_expiresAt c =? at_expiresAt t) && bool_decide (cr_recognition (cl_credentials s) = Some recognition)
  | None => false
  end.

Definition adoptPeer (m : ChannelMessage) (a : Authority) (expectedRecognition : option jsstr) : ctask (option AccessToken) :=
  assertCurrent a ;!
  let unsolicited := match expectedRecognition with None => true | Some _ => false end in
  let! accepting := state (λ s, cr_acceptPeerTokens (cl_credentials s)) in
  match msg_type m with
  | MsgToken =>
      if (negb accepting && unsolicited) || negb (bool_decide (cookieMode (msg_mode m) = mode)) then ret None
      else
        let! recognition := match expectedRecognition with Some r => ret r | None => currentRecognition a end in
        assertCurrent a ;!
        if negb (bool_decide (msg_recognition m = Some recognition)) then ret None
        else
          let! current := readVersion in
          assertCurrent a ;!
          match current with
          | None => ret None
          | Some v =>
              if negb (vn_active v && of_mode v && bool_decide (vn_jkt v = msg_jkt m) &&
                       jsstr_eqb (vn_generation v) (msg_generation m)) then ret None
              else
                let! now := take Now in
                let peer :=
                  match vn_mode v, vn_jkt v with
                  | Some ModeBearer, _ =>
                      readBearerPeerToken base64url_decode base64url_encode decodeProtectedHeader decodeJwt (msg_token m)
                        (vn_generation v) now
                  | _, jkt => readPeerToken base64url_decode base64url_encode decodeProtectedHeader decodeJwt (msg_token m)
                                (default [] jkt) (vn_generation v) now
                  end in
                match peer with
                | None => ret None
                | Some t =>
                    (if bool_decide (vn_mode v = Some ModeBearer) then ret tt
                     else tcatch (existingKey a (vn_jkt v) ;! ret tt)
                            (λ e, (if unsolicited then onPeerKeyFailure e a (vn_jkt v) else ret tt) ;! throw e)) ;!
                    assertCurrent a ;!
                    let! latest := readVersion in
                    assertCurrent a ;!
                    let! later := take Now in
                    match latest with
                    | None => ret None
                    | Some l =>
                        if negb (vn_active l && sameCookieBinding latest current) || expired_at t later then ret None
                        else
                          let! known := state (λ s, same_credential s t recognition) in
                          if known : bool then state token_of
                          else update (adopt t l recognition a) ;! ret (Some t)
                    end
                end
          end
  | _ => ret None
  end.

(** A waiter for a peer's credential; it settles with one, after 180 ms, or when its authority ends. *)
Definition requestPeer (a : Authority) (jkt : option jsstr) (generation recognition : jsstr) (rejected : option jsstr) :
    ctask (option AccessToken) :=
  assertCurrent a ;!
  let! w := state (λ s, length (cl_waiters s)) in
  update (on_waiters (λ ws, ws ++ [mkWaiter jkt generation recognition rejected a false None])) ;!
  post_message (mkMessage MsgRequestToken sender generation (Some mode) jkt None (Some recognition) JUndef) ;!
  Wait (λ s, negb (waiter_open s w))
    (state (λ s, match cl_waiters s !! w with
                 | Some pw => default None (pw_result pw)
                 | None => None
                 end)).

(** * Methods

    [p] is the process of the call. *)

Definition done {A} (m : ctask A) : ctask Outcome := m ;! ret Done.

(** What every explicit method withdraws when it is called. *)
Definition begin_operation (s : Client) : Client := set_reset None (set_refresh None (withdrawNavigation s)).

(** [{ sessionId }] in body transport, [{}] otherwise. *)
Definition handle_body (handle : option jsstr) : jsval :=
  JObj true match handle with Some h => [(js "sessionId", JStr h)] | None => [] end.

(** The handle a request presents: none in cookie transport. *)
Definition presented_handle (matches : Handle → bool) : ctask (option jsstr) :=
  if cookie then ret None
  else
    let! handle := readHandle in
    match handle with
    | Some h => if matches h then ret (Some (hd_sessionId h)) else throw loginRequired
    | None => throw loginRequired
    end.

(** ** login *)

Definition invalid_login : failure := client_error "INVALID_LOGIN_RESPONSE" true.
Definition login_url (value : jsval) : option jsstr :=
  match prop value "authorizationUrl" with
  | JStr text =>
      url ← parse_url text;
      if (jsstr_eqb (url_protocol url) (js "http:") || jsstr_eqb (url_protocol url) (js "https:")) &&
         jsstr_eqb (url_username url) [] && jsstr_eqb (url_password url) []
      then Some (url_href url) else None
  | _ => None
  end.

Definition navigate (a : Authority) (route : Route) (url : jsstr) : ctask unit :=
  update (logged [Navigated a route url]) ;! let! r := take (Navigate url) in Ret r.

Definition pending_item (key : option jsstr) (generation : option jsstr) : jsval :=
  JObj true (binding_members key ++ match generation with Some g => [(js "generation", JStr g)] | None => [] end).

Definition login (p : nat) (returnTo : option jsstr) : ctask Outcome :=
  let! a := capture (λ _, []) in
  update (λ s, set_reset None (set_refresh None (bump_login (withdrawNavigation s)))) ;!
  operation p a
    (clearLocal a true ;!
     update (claim_failure a) ;!
     let! key := (if useDpop then let! jkt := getOrCreateLoginDpopKey a in ret (Some jkt) else ret None) in
     assertCurrent a ;!
     invalidateCookie a None true key ;!
     assertCurrent a ;!
     let! generation := state (λ s, if cookie then vn_generation <$> cookieBinding s a else None) in
     storage (store_pending (Some (pending_item key generation))) ;!
     update bump_publication ;!
     let body := JObj true match returnTo with Some r => [(js "returnTo", JStr r)] | None => [] end in
     let! response := post p a RouteLogin None body key in
     assertCurrent a ;!
     match login_url response.1 with
     | Some url => assertCurrent a ;! navigate a RouteLogin url ;! ret Done
     | None => throw invalid_login
     end).

(** ** exchange *)

Definition exchange (p : nat) (code : jsval) : ctask Outcome :=
  let! a := capture (λ _, []) in
  update begin_operation ;!
  operation p a
    (let! pending := readPending in
     let! key := (if useDpop then let! jkt := existingKey a (pending ≫= pd_jkt) in ret (Some jkt) else ret None) in
     assertCurrent a ;!
     match pending, code with
     | Some pending, JStr (_ :: _) =>
         (if cookie then
            let! current := readVersion in
            assertCurrent a ;!
            throw_unless
              (match current with
               | Some v => of_mode v && (is_undef (pd_generation pending) || js_strict_eq (JStr (vn_generation v)) (pd_generation pending))
               | None => is_undef (pd_generation pending) && useDpop
               end) loginRequired ;!
            match current with Some v => update (bind_cookie a v) | None => ret tt end
          else ret tt) ;!
         let! response := post p a RouteExchange None (JObj true [(js "code", code)]) key in
         let! t := acceptResponse response key a in
         assertCurrent a ;!
         storage (store_pending None) ;!
         ret (GotToken t)
     | _, _ => throw loginRequired
     end).

(** ** refresh *)

(** The credential in memory that a refresh may answer with. *)
Definition reusable (s : Client) (key rejected : option jsstr) (now : num) (generation recognition : jsstr) : option AccessToken :=
  t ← token_of s;
  if bool_decide (token_jkt t = key) && negb (bool_decide (Some (at_accessToken t) = rejected)) && live_at t now &&
     jsstr_eqb (at_generation t) generation && bool_decide (cr_recognition (cl_credentials s) = Some recognition)
  then Some t else None.

(** What a refresh in cookie transport finds before it asks the vault. *)
Definition refresh_from_peers (a : Authority) (key rejected baseline : option jsstr) : ctask (option AccessToken) :=
  let! recognition := currentRecognition a in
  assertCurrent a ;!
  let! version := readVersion in
  assertCurrent a ;!
  match version with
  | None => throw loginRequired
  | Some v =>
      throw_unless (vn_active v && of_mode v && bool_decide (vn_jkt v = key)) loginRequired ;!
      update (bind_cookie a v) ;!
      let! now := take Now in
      let! current := state (λ s, reusable s key rejected now (vn_generation v) recognition) in
      let wanted (t : AccessToken) := has_text rejected || bool_decide (baseline ≠ Some (at_generation t)) in
      match current ≫= λ t, if wanted t then Some t else None with
      | Some t => ret (Some t)
      | None =>
          if bool_decide (baseline = Some (vn_generation v)) then ret None
          else
            let! peer := requestPeer a key (vn_generation v) recognition rejected in
            assertCurrent a ;!
            match peer with
            | Some t => ret (Some t)
            | None => let! now := take Now in state (λ s, reusable s key rejected now (vn_generation v) recognition)
            end
      end
  end.

(** The same for body transport: only a caller's rejected credential spares the request. *)
Definition refresh_from_memory (a : Authority) (rejected : option jsstr) : ctask (option AccessToken) :=
  let! now := take Now in
  let! candidate := state (λ s, match rejected, token_of s with
                                | Some ((_ :: _) as r), Some t => negb (jsstr_eqb (at_accessToken t) r) && live_at t now
                                | _, _ => false
                                end) in
  if candidate : bool then
    let! remembered := state (λ s, cr_recognition (cl_credentials s)) in
    let! recognition := currentRecognition a in
    if bool_decide (remembered = Some recognition) then assertCurrent a ;! state token_of else ret None
  else ret None.

Definition refresh_body (p : nat) (a : Authority) (rejected baseline : option jsstr) : ctask Outcome :=
  let! key := authenticatedSession a false in
  assertCurrent a ;!
  let! found := (if cookie then refresh_from_peers a key rejected baseline else refresh_from_memory a rejected) in
  match found with
  | Some t => ret (GotToken t)
  | None =>
      assertCurrent a ;!
      let! handle := presented_handle (λ h, bool_decide (hd_jkt h = key)) in
      let! response := post p a RouteRefresh handle (handle_body handle) key in
      let! t := acceptResponse response key a in
      ret (GotToken t)
  end.

(** A promise that leaves its place when it has settled. *)
Definition shared_until_settled {A} (place : Promises → option nat) (leave : Client → Client) (p : nat) (m : ctask A) : ctask A :=
  bind answer given m (λ r,
    pause ;!
    let! mine := state (λ s, bool_decide (place (cl_promises s) = Some p)) in
    (if mine : bool then update leave else ret tt) ;!
    Ret r).

Definition refresh (p : nat) (rejected : option jsstr) : ctask Outcome :=
  let! a := capture (λ _, []) in
  update (set_reset None) ;!
  let! running := state (λ s, pr_refresh (cl_promises s)) in
  match running with
  | Some q => ret (Shared q)
  | None =>
      let! baseline := state (λ s, at_generation <$> token_of s) in
      update (set_refresh (Some p)) ;!
      shared_until_settled pr_refresh (set_refresh None) p (operation p a (refresh_body p a rejected baseline))
  end.

(** ** logout *)

Definition invalid_logout : failure := client_error "INVALID_LOGOUT_RESPONSE" false.
Definition logged_out (value : jsval) : bool := js_strict_eq (prop value "loggedOut") (JBool true).

Definition logout (p : nat) : ctask Outcome :=
  let! a := capture (λ _, []) in
  update begin_operation ;!
  operation p a
    (let! key := authenticatedSession a true in
     assertCurrent a ;!
     let! handle := presented_handle (λ _, true) in
     let! response := post p a RouteLogout handle (handle_body handle) key in
     assertCurrent a ;!
     throw_unless (logged_out response.1) invalid_logout ;!
     let! expected := state (λ s, cookieBinding s a) in
     clearLocal a true ;!
     invalidateCookie a expected false None ;!
     ret Done).

Definition invalid_logout_navigation : failure := client_error "INVALID_LOGOUT_NAVIGATION_RESPONSE" false.

(** The two exact forms of a continuation's URL. *)
Definition navigation_target (value : jsval) : option jsstr :=
  let bare := route_url RouteLogoutNavigation in
  match prop value "navigationUrl" with
  | JStr url =>
      let query := bare ++ js "?ticket=" in
      let ticket := drop (length query) url in
      if jsstr_eqb url bare ||
         (length url =? length query + 47)%nat && starts_with query url && starts_with (js "lnt_") ticket &&
         thumbprint_text (drop 4 ticket)
      then Some url else None
  | _ => None
  end.

Definition logoutAndNavigate (p : nat) : ctask Outcome :=
  throw_unless useDpop dpopOperationUnsupported ;!
  let! a := capture (λ _, []) in
  let! running := state (λ s, pr_navigation (cl_promises s)) in
  match running with
  | Some q => ret (Shared q)
  | None =>
      let! navigation := capture (λ s, [SameNavigation (navigationIntent s)]) in
      update (λ s, set_navigation (Some p) (set_reset None (set_refresh None s))) ;!
      shared_until_settled pr_navigation (set_navigation None) p (operation p a
        (assertCurrent navigation ;!
         let! key := authenticatedKey a false in
         assertCurrent a ;!
         (if cookie then
            let! version := readVersion in
            assertCurrent a ;!
            match version with
            | Some v =>
                throw_unless (vn_active v && of_mode v && bool_decide (vn_jkt v = Some key)) loginRequired ;!
                update (bind_cookie a v)
            | None => throw loginRequired
            end
          else ret tt) ;!
         let! handle := presented_handle (λ h, bool_decide (hd_jkt h = Some key)) in
         let! response := post p a RouteLogoutNavigation handle (handle_body handle) (Some key) in
         assertCurrent a ;!
         throw_unless (logged_out response.1) invalid_logout_navigation ;!
         let! expected := state (λ s, cookieBinding s a) in
         clearLocal a true ;!
         invalidateCookie a expected false None ;!
         assertCurrent a ;!
         assertCurrent navigation ;!
         match navigation_target response.1 with
         | Some url => assertCurrent navigation ;! navigate navigation RouteLogoutNavigation url ;! ret Done
         | None => throw invalid_logout_navigation
         end))
  end.

(** ** Keys and local clearing *)

Definition getKey (p : nat) : ctask Outcome :=
  throw_unless useDpop dpopOperationUnsupported ;!
  let! a := stateAuthority [] in
  tcatch
    (let! pending := (let! t := state token_of in match t with Some _ => ret None | None => readPending end) in
     match pending with
     | Some pending => existingKey a (pd_jkt pending) ;! assertCurrent a ;! throw loginRequired
     | None => let! key := authenticatedKey a false in ret (GotKey key)
     end)
    (λ e, assertCurrent a ;!
          let! t := state token_of in
          if bool_decide (error_code e = Some (js "LOGIN_REQUIRED")) && bool_decide (t = None) then throw e
          else operation p a (throw e)).

(** [tokenBinding() ?? localCookieBinding] *)
Definition known_binding (s : Client) : option CookieSessionVersion :=
  match current_binding s with Some b => Some b | None => bd_localCookieBinding (cl_bindings s) end.

Definition clear (p : nat) : ctask Outcome :=
  let! expected := state known_binding in
  let! a := invalidateLocal true in
  if cookie then
    done (enqueue p a (withCookieLock
      (assertCurrent a ;!
       let! captured := match expected with Some e => ret (Some e) | None => readVersion end in
       invalidateCookie a captured false None)))
  else ret Done.

(** Whether the scope found at removal is still the one captured before. *)
Definition still_captured (binding : option CookieSessionVersion) (captured current : ScopeState) : bool :=
  negb (bool_decide ((ss_version current ≫= vn_mode) = Some ModeBearer)) &&
  negb (match binding, ss_version captured with
        | Some _, Some _ => negb (sameCookieBinding binding (ss_version captured))
        | _, _ => false
        end) &&
  negb (cookie && match binding, ss_version captured, ss_keyJkt captured with
                  | Some b, None, Some k => negb (bool_decide (Some k = vn_jkt b))
                  | _, _, _ => false
                  end) &&
  Bool.eqb (ss_keyPresent current) (ss_keyPresent captured) &&
  bool_decide (ss_keyJkt current = ss_keyJkt captured) &&
  Bool.eqb (ss_cookiePresent current) (ss_cookiePresent captured) &&
  match ss_version current, ss_version captured with
  | None, None => true
  | c, d => sameCookieBinding c d
  end.

Definition resetKey (p : nat) : ctask Outcome :=
  throw_unless useDpop dpopOperationUnsupported ;!
  let! running := state (λ s, pr_reset (cl_promises s)) in
  match running with
  | Some q => ret (Shared q)
  | None =>
      let! binding := state known_binding in
      let! a := invalidateLocal true in
      update (set_reset (Some p)) ;!
      shared_until_settled pr_reset (set_reset None) p (done (enqueue p a (withCookieLock
        (assertCurrent a ;!
         let! captured := readScopeState a in
         assertCurrent a ;!
         let! previous := removeDpopScope a (still_captured binding captured) in
         assertCurrent a ;!
         match previous with
         | Some st =>
             if ss_keyPresent st || ss_cookiePresent st then
               post_message (mkMessage MsgResetKey sender
                 (match ss_version st with Some v => vn_generation v | None => [] end) (Some ModeDpop)
                 (Some (match ss_version st ≫= vn_jkt, binding ≫= vn_jkt with
                        | Some j, _ | None, Some j => j
                        | None, None => []
                        end))
                 (ss_keyJkt st) None JUndef)
             else ret tt
         | None => ret tt
         end))))
  end.

Definition dispose : ctask Outcome :=
  update dispose_state ;! ret Done.

(** * Messages and timers *)

Definition read_message (v : jsval) : option ChannelMessage :=
  match prop v "type", prop v "sender", prop v "generation" with
  | JStr t, JStr from, JStr generation =>
      type ← (if jsstr_eqb t (js "token") then Some MsgToken
              else if jsstr_eqb t (js "request-token") then Some MsgRequestToken
              else if jsstr_eqb t (js "clear") then Some MsgClear
              else if jsstr_eqb t (js "reset-key") then Some MsgResetKey else None);
      '(m, jkt) ← match prop v "mode", prop v "jkt" with
                  | JStr mode, jkt =>
                      if jsstr_eqb mode (js "bearer") then
                        if has_field v "jkt" then None else Some (Some ModeBearer, None)
                      else if jsstr_eqb mode (js "dpop") then
                        match jkt with JStr jkt => Some (Some ModeDpop, Some jkt) | _ => None end
                      else None
                  | JUndef, JStr jkt => Some (None, Some jkt)
                  | _, _ => None
                  end;
      keyJkt ← match prop v "keyJkt" with JUndef => Some None | JStr k => Some (Some k) | _ => None end;
      if jsstr_eqb from sender then None
      else Some (mkMessage type from generation m jkt keyJkt
                   (match prop v "recognition" with JStr r => Some r | _ => None end) (prop v "token"))
  | _, _, _ => None
  end.

(** The first open waiter: at most one is open, since requests take turns. *)
Fixpoint open_waiter (w : nat) (ws : list PeerWaiter) : option (nat * PeerWaiter) :=
  match ws with
  | [] => None
  | pw :: ws => match pw_result pw with None => Some (w, pw) | Some _ => open_waiter (S w) ws end
  end.

Definition set_adopting (b : bool) (w : PeerWaiter) : PeerWaiter :=
  mkWaiter (pw_jkt w) (pw_generation w) (pw_recognition w) (pw_rejected w) (pw_authority w) b (pw_result w).

(** [waiter.receive(message)] *)
Definition waiter_receive (w : nat) (pw : PeerWaiter) (m : ChannelMessage) : ctask unit :=
  if pw_adopting pw || negb (bool_decide (cookieMode (msg_mode m) = mode)) || negb (bool_decide (msg_jkt m = pw_jkt pw)) ||
     negb (jsstr_eqb (msg_generation m) (pw_generation pw))
  then ret tt
  else
    update (update_waiter w (set_adopting true)) ;!
    let! a := peerAuthority (OpenWaiter w :: SameEpoch (au_epoch (pw_authority pw)) :: au_conditions (pw_authority pw)) in
    tcatch
      (let! peer := adoptPeer m a (Some (pw_recognition pw)) in
       pause ;!
       update (update_waiter w (set_adopting false)) ;!
       match peer with
       | Some t => if bool_decide (Some (at_accessToken t) = pw_rejected pw) then ret tt
                   else update (update_waiter w (λ pw, finish_waiter pw (Some t)))
       | None => ret tt
       end)
      (λ _, update (update_waiter w (λ pw, finish_waiter pw None))).

(** Advisory work of a message: its failures are dropped. *)
Definition advisory (p : nat) (run : Authority → ctask unit) : ctask unit :=
  let! a := peerAuthority [] in
  tcatch (enqueue p a (withCookieLock (assertCurrent a ;! run a))) (λ _, ret tt).

Definition on_other_mode (m : ChannelMessage) (a : Authority) : ctask unit :=
  let! current := readVersion in
  assertCurrent a ;!
  match current with
  | Some v => if negb (of_mode v) && jsstr_eqb (vn_generation v) (msg_generation m) && bool_decide (vn_jkt v = msg_jkt m)
              then update (logged [Cleared a]) ;! invalidateLocal false ;! ret tt else ret tt
  | None => ret tt
  end.

Definition on_clear (m : ChannelMessage) (a : Authority) : ctask unit :=
  let! version := readVersion in
  assertCurrent a ;!
  match version with
  | Some v => if of_mode v && negb (vn_active v) && jsstr_eqb (vn_generation v) (msg_generation m) &&
                 bool_decide (vn_jkt v = msg_jkt m)
              then update (logged [Cleared a]) ;! invalidateLocal false ;! ret tt else ret tt
  | None => ret tt
  end.

Definition on_reset_key (m : ChannelMessage) (a : Authority) : ctask unit :=
  if useDpop then
    let! current := readScopeState a in
    assertCurrent a ;!
    if ss_keyPresent current || ss_cookiePresent current then ret tt
    else
      let matchesKey jkt := bool_decide (Some jkt = msg_jkt m) || bool_decide (Some jkt = msg_keyJkt m) in
      let! pending := readPending in
      let kept := match pending ≫= pd_jkt with Some ((_ :: _) as jkt) => negb (matchesKey jkt) | _ => false end in
      let! newer := state (λ s, match token_of s with
                                | Some t => match at_type t with
                                            | DPoP jkt => negb (matchesKey jkt) && negb (jsstr_eqb (at_generation t) (msg_generation m))
                                            | Bearer => false
                                            end
                                | None => false
                                end) in
      if kept || newer then ret tt else update (logged [Cleared a]) ;! invalidateLocal true ;! ret tt
  else ret tt.

Definition on_request_token (m : ChannelMessage) : ctask unit :=
  let! now := take Now in
  let! reply := state (λ s,
      t ← token_of s;
      if bool_decide (token_jkt t = msg_jkt m) && jsstr_eqb (at_generation t) (msg_generation m) && live_at t now &&
         bool_decide (cr_recognition (cl_credentials s) = msg_recognition m)
      then Some (token_message t (cr_recognition (cl_credentials s))) else None) in
  match reply with Some m => post_message m | None => ret tt end.

(** [channel.onmessage] *)
Definition onmessage (p : nat) (data : jsval) : ctask Outcome :=
  let! live := state (λ s, negb (disposed s)) in
  match live, read_message data with
  | true, Some m =>
      done
        (if negb (bool_decide (cookieMode (msg_mode m) = mode)) then
           match msg_type m with
           | MsgRequestToken => ret tt
           | _ => advisory p (on_other_mode m)
           end
         else
           match msg_type m with
           | MsgRequestToken => on_request_token m
           | MsgClear => advisory p (on_clear m)
           | MsgResetKey => advisory p (on_reset_key m)
           | MsgToken =>
               let! waiter := state (λ s, open_waiter 0 (cl_waiters s)) in
               match waiter with
               | Some (w, pw) => waiter_receive w pw m
               | None => tcatch (let! a := peerAuthority [] in adoptPeer m a None ;! ret tt) (λ _, ret tt)
               end
           end)
  | _, _ => ret Done
  end.

(** The 180 ms of a waiter are over. *)
Definition waiter_timeout (w : nat) : ctask Outcome :=
  update (update_waiter w (λ pw, finish_waiter pw None)) ;! ret Done.

(** * The session as a system *)

(** What may start: a method, a message, or a timer. *)
Inductive entry (p : nat) : ctask Outcome → Prop :=
  | entry_login returnTo : entry p (login p returnTo)
  | entry_exchange code : entry p (exchange p code)
  | entry_refresh rejected : entry p (refresh p rejected)
  | entry_logout : entry p (logout p)
  | entry_logoutAndNavigate : entry p (logoutAndNavigate p)
  | entry_getKey : entry p (getKey p)
  | entry_clear : entry p (clear p)
  | entry_resetKey : entry p (resetKey p)
  | entry_dispose : entry p dispose
  | entry_message data : cookie = true → entry p (onmessage p data)
  | entry_timeout w : entry p (waiter_timeout w).
End session.
