(* ===== verification/ClientInvariant.v ===== *)
(** oidc-vault-dpop-client: the invariant of a session's state and log, and what its processes grant each other.

    [view] reads the log: how many controllers were aborted, who holds the turn, which handle was stored last, and so
    on. [allowed] says what each event may follow; [Inv] says that every event was allowed and that the state is what
    the log says. [guarantee] and [rely] relate two states of the session around a segment of one process. *)

From S2P Require Import Prelude JsValue JsJson JsMap DpopChallenge ClientTypes ClientTask ClientState ClientSession.

(** * Reading the log *)

Record View := mkView {
  v_epoch : nat;
  v_live : bool;
  v_bumps : nat;
  v_captures : list (nat * nat);         (** per authority: the bumps before it *)
  v_holder : option nat;
  v_claims : list (nat * nat);           (** the same for [claimFailure] *)
  v_handle : option jsstr;
  v_token : option (AccessToken * nat);  (** the credential in memory, with the controller it came under *)
  v_withdrawn : nat                      (** how often the navigation was withdrawn *)
}.

Definition see_event (v : View) (e : Event) : View :=
  let '(mkView ep live bumps captures holder claims handle token wd) := v in
  match e with
  | Captured a => mkView ep live bumps ((au_id a, bumps) :: captures) holder claims handle token wd
  | Invalidated => mkView (S ep) live bumps captures holder claims handle token wd
  | Disposed => mkView ep false bumps captures holder claims handle token wd
  | Begun p => mkView ep live bumps captures (Some p) claims handle token wd
  | Ended p => mkView ep live bumps captures None claims handle token wd
  | Bumped => mkView ep live (S bumps) captures holder claims handle token wd
  | Claimed a => mkView ep live bumps captures holder ((au_id a, bumps) :: claims) handle token wd
  | StoredHandle h => mkView ep live bumps captures holder claims h token wd
  | Committed _ t | Adopted _ t => mkView ep live bumps captures holder claims handle (Some (t, ep)) wd
  | Forgotten => mkView ep live bumps captures holder claims handle None wd
  | Withdrawn => mkView ep live bumps captures holder claims handle token (S wd)
  | FailureCleared _ | Cleared _ | Sent _ _ _ _ _ | Posted _ | Navigated _ _ _ => v
  end.

Definition first_of (l : list (nat * nat)) (id : nat) : option nat := map snd (filter (λ kv, kv.1 = id) l) !! 0%nat.

(** The authority's controller is the current one. *)
Definition under (v : View) (a : Authority) : Prop := au_epoch a = v_epoch v ∧ v_live v = true.

Definition allowed (v : View) (e : Event) : Prop :=
  match e with
  | Captured a => under v a ∧ au_id a = length (v_captures v) ∧ (∀ n, au_conditions a = [SameNavigation n] → v_withdrawn v = n)
  | Begun p => v_holder v = None
  | Ended p => v_holder v = Some p
  | FailureCleared a => under v a ∧ (first_of (v_claims v) (au_id a) = None ∨ first_of (v_claims v) (au_id a) = Some (v_bumps v))
  | Sent p a _ h _ => under v a ∧ v_holder v = Some p ∧ (∀ x, h = Some x → v_handle v = Some x)
  | Committed a t => under v a ∧ is_Some (v_holder v)
  | Adopted a t => under v a ∧ first_of (v_captures v) (au_id a) = Some (v_bumps v)
  | Cleared a => under v a
  | Navigated a route _ => under v a ∧ is_Some (v_holder v) ∧
      (route = RouteLogoutNavigation → au_conditions a = [SameNavigation (v_withdrawn v)])
  | _ => True
  end.

Section invariant.
Variable stored0 : option jsstr.      (** the handle found in storage *)

Definition view0 : View := mkView 0 true 0 [] None [] stored0 None 0.
Definition view (l : list Event) : View := foldl see_event view0 l.

Definition log_ok (l : list Event) : Prop := ∀ l1 e l2, l = l1 ++ e :: l2 → allowed (view l1) e.

(** The handle in an item of the storage. *)
Definition stored_id (item : option jsval) : option jsstr :=
  match item with Some v => match prop v "sessionId" with JStr s => Some s | _ => None end | None => None end.

(** The state is what the log says. *)
Record agrees (v : View) (s : Client) : Prop := {
  ag_epoch : v_epoch v = epoch s;
  ag_live : v_live v = negb (disposed s);
  ag_bumps : v_bumps v = (publication s + loginIntent s)%nat;
  ag_captures : length (v_captures v) = lc_authorities (cl_lifecycle s);
  ag_holder : ∀ p, v_holder v = Some p → lc_queue (cl_lifecycle s) !! lc_turn (cl_lifecycle s) = Some p;
  ag_claims : ∀ a, first_of (v_claims v) (au_id a) = (λ nm, (nm.1 + nm.2)%nat) <$> failureState s a;
  ag_handle : v_handle v = stored_id (handle_of s);
  ag_token : token_of s = fst <$> v_token v;
  ag_current : ∀ t e, v_token v = Some (t, e) → e = v_epoch v ∧ v_live v = true;
  ag_withdrawn : v_withdrawn v = navigationIntent s
}.

Definition Inv (s : Client) : Prop := log_ok (cl_log s) ∧ agrees (view (cl_log s)) s.

Lemma view_app l1 l2 : view (l1 ++ l2) = foldl see_event (view l1) l2.
Proof. apply foldl_app. Qed.

Lemma log_ok_nil : log_ok [].
Proof. intros l1 e l2 H. by destruct l1. Qed.

Lemma log_ok_snoc l e : log_ok l → allowed (view l) e → log_ok (l ++ [e]).
Proof.
  intros Hl He l1 e' l2 H. destruct l2 as [|x l2 _] using rev_ind.
  - apply app_inj_tail in H as [-> ->]. done.
  - rewrite app_comm_cons, app_assoc in H. apply app_inj_tail in H as [-> _]. by eapply Hl.
Qed.

(** ** Appending events *)

Fixpoint all_allowed (v : View) (es : list Event) : Prop :=
  match es with
  | [] => True
  | e :: es => allowed v e ∧ all_allowed (see_event v e) es
  end.

Lemma log_ok_app l es : log_ok l → all_allowed (view l) es → log_ok (l ++ es).
Proof.
  revert l. induction es as [|e es IH]; intros l Hl Hes; [by rewrite app_nil_r|]. destruct Hes as [He Hes].
  change (e :: es) with ([e] ++ es). rewrite (app_assoc l [e] es).
  apply IH; [by apply log_ok_snoc|]. by rewrite view_app.
Qed.

(** One change of the state: what it logs, in one step. *)
Lemma Inv_step s s' es :
  Inv s → cl_log s' = cl_log s ++ es → all_allowed (view (cl_log s)) es →
  agrees (foldl see_event (view (cl_log s)) es) s' → Inv s'.
Proof.
  intros [Hl _] He Ha Hg. split; rewrite He; [by apply log_ok_app|]. by rewrite view_app.
Qed.

(** * Rely and guarantee *)

Definition queue (s : Client) : list nat := lc_queue (cl_lifecycle s).
Definition turn (s : Client) : nat := lc_turn (cl_lifecycle s).
Definition holder (s : Client) : option nat := v_holder (view (cl_log s)).

Record guarantee (p : nat) (s s' : Client) : Prop := {
  g_inv : Inv s → Inv s';
  g_log : cl_log s `prefix_of` cl_log s';
  g_epoch : (epoch s <= epoch s')%nat;
  g_queue : ∃ k, queue s' = queue s ++ replicate k p;
  g_turn : turn s' = turn s ∨ ∀ q, q ≠ p → queue s !! turn s ≠ Some q;
  g_holder : ∀ q, q ≠ p → holder s' = Some q ↔ holder s = Some q;
  g_handle : handle_of s' = handle_of s ∨ epoch s' ≠ epoch s ∨ ∀ q, q ≠ p → holder s ≠ Some q
}.

Record rely (p : nat) (s s' : Client) : Prop := {
  r_inv : Inv s';
  r_log : cl_log s `prefix_of` cl_log s';
  r_epoch : (epoch s <= epoch s')%nat;
  r_queue : queue s `prefix_of` queue s';
  r_ticket : p ∈ queue s' → p ∈ queue s;
  r_turn : queue s !! turn s = Some p → turn s' = turn s;
  r_holder : holder s' = Some p ↔ holder s = Some p;
  r_handle : holder s = Some p → epoch s' = epoch s → handle_of s' = handle_of s
}.

Definition fresh (p : nat) (s : Client) : Prop := p ∉ queue s.

Lemma guarantee_refl p s : guarantee p s s.
Proof. split; auto. exists 0%nat. by rewrite app_nil_r. Qed.

Lemma guarantee_trans p s1 s2 s3 : guarantee p s1 s2 → guarantee p s2 s3 → guarantee p s1 s3.
Proof.
  intros [I1 L1 E1 [k1 Q1] T1 H1 S1] [I2 L2 E2 [k2 Q2] T2 H2 S2]. split.
  - auto.
  - by etrans.
  - lia.
  - exists (k1 + k2)%nat. by rewrite Q2, Q1, <- app_assoc, replicate_add.
  - destruct T1 as [T1|T1]; [|by right]. destruct T2 as [T2|T2]; [left; congruence|]. right. intros q Hq Hs.
    apply (T2 q Hq). rewrite Q1, T1. by apply lookup_app_l_Some.
  - intros q Hq. by rewrite H2, H1.
  - destruct S1 as [S1|[S1|S1]]; [|right; left; lia|by right; right].
    destruct S2 as [S2|[S2|S2]]; [left; congruence|right; left; lia|].
    right. right. intros q Hq Hs. apply (S2 q Hq). by apply H1.
Qed.

Lemma rely_refl p s : Inv s → rely p s s.
Proof. intros. by split. Qed.

Lemma rely_trans p s1 s2 s3 : rely p s1 s2 → rely p s2 s3 → rely p s1 s3.
Proof.
  intros [I1 L1 E1 Q1 K1 T1 H1 S1] [I2 L2 E2 Q2 K2 T2 H2 S2]. split; auto.
  - by etrans.
  - lia.
  - by etrans.
  - intros Hs. rewrite T2; [by apply T1|]. rewrite (T1 Hs). destruct Q1 as [k ->]. by apply lookup_app_l_Some.
  - by rewrite H2.
  - intros Hh He. rewrite S2, S1; [done|done|lia|by apply H1|lia].
Qed.

Lemma guarantee_others p q s s' : Inv s → p ≠ q → guarantee p s s' → rely q s s'.
Proof.
  intros Hi Hne [I L E [k Q] T H S]. split; auto.
  - rewrite Q. by eexists.
  - rewrite Q. intros [Hq|Hq]%elem_of_app; [done|]. apply elem_of_replicate in Hq as [-> _]. done.
  - intros Hs. destruct T as [T|T]; [done|]. by destruct (T q).
  - intros Hh He. destruct S as [S|[S|S]]; [done|done|]. by destruct (S q).
Qed.

Lemma fresh_rely p s s' : rely p s s' → fresh p s → fresh p s'.
Proof. intros R F Hp. by apply F, (r_ticket _ _ _ R). Qed.

Lemma Inv_start handle pending : stored0 = stored_id handle → Inv (fresh_client handle pending).
Proof. intros ->. split; [apply log_ok_nil|]. split; cbn; try done. Qed.

Lemma guarantee_inv p s s' : Inv s → guarantee p s s' → Inv s'.
Proof. intros Hi Hg. by apply (g_inv _ _ _ Hg). Qed.
End invariant.
