(* ===== verification/ClientChanges.v ===== *)
(** oidc-vault-dpop-client: what each change of a session's state logs, and that the log allows it.

    [mild] changes leave the queue and the turn alone, and the stored handle too unless they abort the controller: any
    process may make them at any time. Storing a handle and the steps of the queue are the others. *)

From S2P Require Import Prelude JsValue JsJson JsMap DpopChallenge ClientTypes ClientTask ClientState ClientSession ClientInvariant.

Section changes.
Variable stored0 : option jsstr.
Notation Inv := (Inv stored0).
Notation view := (view stored0).
Notation holder := (holder stored0).
Notation guarantee := (guarantee stored0).
Notation rely := (rely stored0).
Notation log_ok := (log_ok stored0).

Record mild (s s' : Client) : Prop := {
  ml_inv : Inv s → Inv s';
  ml_log : cl_log s `prefix_of` cl_log s';
  ml_epoch : (epoch s <= epoch s')%nat;
  ml_queue : queue s' = queue s;
  ml_turn : turn s' = turn s;
  ml_holder : holder s' = holder s;
  ml_handle : epoch s' = epoch s → handle_of s' = handle_of s
}.

Lemma mild_refl s : mild s s.
Proof. by split. Qed.

Lemma mild_trans s1 s2 s3 : mild s1 s2 → mild s2 s3 → mild s1 s3.
Proof. intros [I1 L1 E1 Q1 T1 H1 S1] [I2 L2 E2 Q2 T2 H2 S2]. split; [auto|by etrans|lia|congruence..|].
  intros He. rewrite S2, S1; [done|lia|lia].
Qed.

Lemma mild_guarantee p s s' : mild s s' → guarantee p s s'.
Proof.
  intros [I L E Q T H S]. split; auto; [by exists 0%nat; rewrite app_nil_r|intros q _; by rewrite H|].
  destruct (decide (epoch s' = epoch s)); auto.
Qed.

Lemma mild_rely p s s' : Inv s → mild s s' → rely p s s'.
Proof. intros Hi [I L E Q T H S]. split; auto; [by rewrite Q|by rewrite Q|by rewrite H]. Qed.

(** ** One change *)

Lemma holder_app s s' es : cl_log s' = cl_log s ++ es → holder s' = v_holder (foldl see_event (view (cl_log s)) es).
Proof. intros Hl. unfold ClientInvariant.holder. by rewrite Hl, view_app. Qed.

(** Events that move no turn. *)
Definition calm (e : Event) : bool := match e with Begun _ | Ended _ => false | _ => true end.

Lemma holder_calm v es : forallb calm es = true → v_holder (foldl see_event v es) = v_holder v.
Proof.
  revert v. induction es as [|e es IH]; intros v H; [done|]. cbn in *. apply andb_true_iff in H as [He Hes].
  rewrite IH by done. by destruct v, e.
Qed.

Lemma Inv_agrees s : Inv s → agrees (view (cl_log s)) s.
Proof. by intros []. Qed.

Lemma mild_intro s s' es :
  cl_log s' = cl_log s ++ es → forallb calm es = true → queue s' = queue s → turn s' = turn s →
  (epoch s' = epoch s → handle_of s' = handle_of s) → (epoch s <= epoch s')%nat →
  (agrees (view (cl_log s)) s → all_allowed (view (cl_log s)) es ∧ agrees (foldl see_event (view (cl_log s)) es) s') →
  mild s s'.
Proof.
  intros Hl Hc Hq Ht Hh He Ha. split; auto.
  - intros Hi. destruct (Ha (Inv_agrees _ Hi)) as [H1 H2]. exact (Inv_step _ _ _ _ Hi Hl H1 H2).
  - rewrite Hl. by eexists.
  - unfold ClientInvariant.holder. by rewrite Hl, view_app, holder_calm.
Qed.

(** The state but for what no event describes. *)
Lemma agrees_quiet v s s' :
  cl_lifecycle s' = cl_lifecycle s → token_of s' = token_of s → publication s' = publication s →
  loginIntent s' = loginIntent s → navigationIntent s' = navigationIntent s → bd_failureStates (cl_bindings s') = bd_failureStates (cl_bindings s) →
  handle_of s' = handle_of s → agrees v s → agrees v s'.
Proof.
  intros Hl Ht Hp Hi Hn Hf Hh [A1 A2 A3 A4 A5 A6 A7 A8 A9 A10].
  unfold epoch, disposed, queue, turn, failureState in *. split; unfold epoch, disposed, queue, turn, failureState; rewrite ?Hl, ?Ht, ?Hp, ?Hi, ?Hn, ?Hf, ?Hh; auto.
Qed.

Lemma mild_quiet s s' es :
  cl_log s' = cl_log s ++ es → forallb (λ e, match e with Posted _ => true | _ => false end) es = true →
  cl_lifecycle s' = cl_lifecycle s → token_of s' = token_of s → publication s' = publication s →
  loginIntent s' = loginIntent s → navigationIntent s' = navigationIntent s → bd_failureStates (cl_bindings s') = bd_failureStates (cl_bindings s) →
  handle_of s' = handle_of s → mild s s'.
Proof.
  intros Hl Hes Hc Ht Hp Hi Hn Hf Hh.
  assert (∀ v, forallb calm es = true ∧ all_allowed v es ∧ foldl see_event v es = v) as Hv.
  { clear -Hes. intros v. induction es as [|e es IH]; [done|]. cbn in Hes. apply andb_true_iff in Hes as [He Hes].
    destruct (IH Hes) as (H1 & H2 & H3). destruct e; try done. by destruct v. }
  apply (mild_intro s s' es); auto; unfold queue, turn, epoch; try by rewrite Hc.
  - apply Hv. exact (view []).
  - intros Ha. split; [apply Hv|]. destruct (Hv (view (cl_log s))) as (_ & _ & ->). by eapply agrees_quiet.
Qed.

(** ** The changes of the session *)

Definition cur (a : Authority) (s : Client) : Prop := isCurrent s a = true.

Lemma cur_split a s : cur a s ↔ disposed s = false ∧ epoch s = au_epoch a ∧ forallb (holds s) (au_conditions a) = true.
Proof.
  unfold cur, isCurrent. rewrite !andb_true_iff, negb_true_iff, Nat.eqb_eq. tauto.
Qed.

Lemma cur_under a s : Inv s → cur a s → under (view (cl_log s)) a.
Proof.
  intros Hi (Hd & He & _)%cur_split. destruct (Inv_agrees _ Hi) as [A1 A2 _ _ _ _ _ _ _ _].
  split; [congruence|]. by rewrite A2, Hd.
Qed.

Ltac look := intros [A1 A2 A3 A4 A5 A6 A7 A8 A9 A10];
  unfold under, failureState, publication, loginIntent, navigationIntent, epoch, disposed, queue, turn, handle_of, token_of in *;
  destruct (view _) as [ep live bumps captures holder claims handle token wd]; cbn in *.
Ltac agreeing := split; cbn; auto; try congruence; try lia.
Ltac agree := look; split; [repeat split; cbn; auto; try congruence|agreeing].

Lemma mild_bump_publication s : mild s (bump_publication s).
Proof. apply (mild_intro s _ [Bumped]); auto. agree. Qed.
Lemma mild_bump_login s : mild s (bump_login s).
Proof. apply (mild_intro s _ [Bumped]); auto. agree. Qed.

Lemma first_of_cons k n l id : first_of ((k, n) :: l) id = if decide (k = id) then Some n else first_of l id.
Proof. unfold first_of. rewrite filter_cons. cbn. by destruct (decide (k = id)). Qed.

Lemma failureState_claim a b s :
  failureState (claim_failure a s) b = if decide (au_id a = au_id b) then Some (publication s, loginIntent s) else failureState s b.
Proof.
  unfold failureState. change (bd_failureStates (cl_bindings (claim_failure a s))) with ((au_id a, (publication s, loginIntent s)) :: bd_failureStates (cl_bindings s)).
  rewrite filter_cons. cbn. by destruct (decide (au_id a = au_id b)).
Qed.

Lemma mild_claim a s : mild s (claim_failure a s).
Proof.
  apply (mild_intro s _ [Claimed a]); auto. agree. intros b. rewrite first_of_cons, failureState_claim.
  destruct (decide (au_id a = au_id b)); cbn; [by rewrite A3|apply A6].
Qed.

Lemma mild_capture conditions s :
  disposed s = false → (∀ n, conditions = [SameNavigation n] → n = navigationIntent s) → mild s (capture_state conditions s).2.
Proof.
  intros Hd Hn. apply (mild_intro s _ [Captured (capture_state conditions s).1]); auto. agree.
  - by rewrite Hd in A2.
  - intros n Hc. rewrite (Hn n Hc). exact A10.
Qed.

Lemma mild_withdraw s : mild s (withdrawNavigation s).
Proof. apply (mild_intro s _ [Withdrawn]); auto. agree. Qed.

Lemma mild_cleared a s : Inv s → cur a s → mild s (logged [Cleared a] s).
Proof.
  intros Hi Hc. apply (mild_intro s _ [Cleared a]); auto.
  pose proof (cur_under _ _ Hi Hc) as [Hu1 Hu2]. agree.
Qed.

Lemma mild_forget s : mild s (forget_credentials s).
Proof.
  apply (mild_intro s _ [Bumped; Forgotten]); auto; [cbn; by rewrite <- app_assoc|]. agree.
Qed.

Lemma mild_invalidate s : disposed s = false → mild s (invalidate_state s).2.
Proof.
  intros Hd.
  apply (mild_intro s _ [Invalidated; Captured (invalidate_state s).1; Withdrawn; Bumped; Forgotten]); auto; [cbn; by rewrite <- !app_assoc|unfold epoch; cbn; lia|].
  agree; by rewrite Hd in A2.
Qed.

Lemma mild_dispose s : mild s (dispose_state s).
Proof.
  unfold dispose_state. destruct (disposed s) eqn:Hd.
  - apply (mild_intro s _ [Withdrawn; Bumped; Forgotten]); auto; [cbn; by rewrite <- !app_assoc|]. agree.
  - apply (mild_intro s _ [Disposed; Withdrawn; Bumped; Forgotten]); auto; [cbn; by rewrite <- !app_assoc|]. agree.
Qed.

Lemma mild_sent p a route h k s :
  Inv s → cur a s → holder s = Some p → (∀ x, h = Some x → stored_id (handle_of s) = Some x) →
  mild s (logged [Sent p a route h k] s).
Proof.
  intros Hi Hc Hp Hh. apply (mild_intro s _ [Sent p a route h k]); auto.
  pose proof (cur_under _ _ Hi Hc) as [Hu1 Hu2]. unfold ClientInvariant.holder in Hp. agree.
  intros x Hx. rewrite A7. auto.
Qed.


Lemma mild_committed p t recognition a s : Inv s → cur a s → holder s = Some p → mild s (commit_token t recognition a s).
Proof.
  intros Hi Hc Hp. apply (mild_intro s _ [Bumped; Claimed a; Committed a t]); auto; [cbn; by rewrite <- !app_assoc|].
  pose proof (cur_under _ _ Hi Hc) as [Hu1 Hu2]. unfold ClientInvariant.holder in Hp. agree; [|naive_solver].
  intros b. rewrite first_of_cons. change (failureState (commit_token t recognition a s) b) with (failureState (claim_failure a (bump_publication s)) b).
  rewrite failureState_claim. destruct (decide (au_id a = au_id b)); cbn; [by rewrite A3|apply A6].
Qed.

(** The failure is about the state that the authority claimed last. *)
Definition owned (a : Authority) (s : Client) : Prop :=
  match failureState s a with Some (n, m) => (publication s =? n)%nat && (loginIntent s =? m)%nat | None => true end = true.

Lemma mild_failure_cleared a s : Inv s → cur a s → owned a s → mild s (logged [FailureCleared a] s).
Proof.
  intros Hi Hc Ho. apply (mild_intro s _ [FailureCleared a]); auto.
  pose proof (cur_under _ _ Hi Hc) as [Hu1 Hu2]. unfold owned in Ho. agree. rewrite A6.
  destruct (map snd _ !! 0%nat) as [[n m]|]; cbn; [|by left]. right.
  apply andb_true_iff in Ho as [Hn%Nat.eqb_eq Hm%Nat.eqb_eq]. cbn. congruence.
Qed.

(** The publication and the login intent that [a] was captured under, with the conditions that they are unchanged. *)
Definition captured_with (a : Authority) (s : Client) : Prop :=
  ∃ n m, SamePublication n ∈ au_conditions a ∧ SameLoginIntent m ∈ au_conditions a ∧
         first_of (v_captures (view (cl_log s))) (au_id a) = Some (n + m)%nat.

Lemma cur_holds a s c : cur a s → c ∈ au_conditions a → holds s c = true.
Proof. intros (_ & _ & H)%cur_split Hc. rewrite forallb_forall in H. apply H. by apply list_elem_of_In. Qed.

(** A navigation that may be withdrawn is one under a condition that it is not. *)
Lemma mild_navigated p a route url s :
  Inv s → cur a s → holder s = Some p → (route = RouteLogoutNavigation → ∃ n, au_conditions a = [SameNavigation n]) →
  mild s (logged [Navigated a route url] s).
Proof.
  intros Hi Hc Hp Hn. apply (mild_intro s _ [Navigated a route url]); auto.
  pose proof (cur_under _ _ Hi Hc) as [Hu1 Hu2]. unfold ClientInvariant.holder in Hp.
  assert (route = RouteLogoutNavigation → au_conditions a = [SameNavigation (navigationIntent s)]) as Hw.
  { intros Hr. destruct (Hn Hr) as [n Ha]. rewrite Ha. do 2 f_equal. symmetry. apply Nat.eqb_eq.
    apply (cur_holds a s (SameNavigation n) Hc). rewrite Ha. by left. }
  agree. intros Hr. rewrite (Hw Hr). by rewrite A10.
Qed.

Lemma mild_adopted t latest recognition a s :
  Inv s → cur a s → captured_with a s → mild s (adopt t latest recognition a s).
Proof.
  intros Hi Hc (n & m & Hn & Hm & Hf). apply (mild_intro s _ [Adopted a t; Bumped]); auto; [cbn; by rewrite <- !app_assoc|].
  pose proof (cur_under _ _ Hi Hc) as [Hu1 Hu2].
  pose proof (cur_holds _ _ _ Hc Hn) as Hn'%Nat.eqb_eq. pose proof (cur_holds _ _ _ Hc Hm) as Hm'%Nat.eqb_eq.
  agree; naive_solver congruence.
Qed.

(** What [invalidateLocal] leaves, with as much of the storage as worked. *)
Lemma mild_invalidate_handle s : disposed s = false → mild s (store_handle None None (invalidate_state s).2).
Proof.
  intros Hd.
  apply (mild_intro s _ [Invalidated; Captured (invalidate_state s).1; Withdrawn; Bumped; Forgotten; StoredHandle None]); auto;
    [cbn; by rewrite <- !app_assoc|unfold epoch; cbn; lia|unfold epoch; cbn; lia|].
  agree; by rewrite Hd in A2.
Qed.

Lemma mild_pending v s : mild s (store_pending v s).
Proof. apply (mild_quiet s _ []); try done. cbn. by rewrite app_nil_r. Qed.

(** ** The turn and the handle *)

Definition own (p : nat) (s : Client) : Prop := holder s = Some p.

Lemma store_handle_ok p v h s :
  own p s → h = stored_id v → guarantee p s (store_handle v h s) ∧ own p (store_handle v h s).
Proof.
  intros Ho ->. assert (holder (store_handle v (stored_id v) s) = holder s) as Hh.
  { by rewrite (holder_app s _ [StoredHandle (stored_id v)]), holder_calm. }
  split; [|unfold own; by rewrite Hh]. split; try done.
  - intros Hi. apply (Inv_step _ s _ [StoredHandle (stored_id v)]); [done|done|done|].
    generalize (Inv_agrees _ Hi). look. agreeing.
  - by eexists.
  - exists 0%nat. by rewrite app_nil_r.
  - by left.
  - intros q _. by rewrite Hh.
  - right. right. rewrite Ho. congruence.
Qed.

Lemma take_ticket_ok p s :
  guarantee p s (take_ticket p s) ∧ queue (take_ticket p s) !! length (queue s) = Some p ∧
  holder (take_ticket p s) = holder s.
Proof.
  split; [|split; [by apply list_lookup_middle|done]]. split; try done.
  - intros Hi. apply (Inv_step _ s _ []); [done|cbn; by rewrite app_nil_r|done|].
    generalize (Inv_agrees _ Hi). look. agreeing. intros q Hq. apply lookup_app_l_Some. auto.
  - by exists 1%nat.
  - by left.
  - by left.
Qed.

Lemma begun_ok p s :
  queue s !! turn s = Some p → holder s ≠ Some p → Inv s →
  guarantee p s (logged [Begun p] s) ∧ own p (logged [Begun p] s).
Proof.
  intros Hq Hp Hi. assert (holder s = None) as Hn.
  { destruct (holder s) as [q|] eqn:Hh; [|done]. pose proof (ag_holder _ _ (Inv_agrees _ Hi) q Hh) as Hq'.
    unfold queue, turn in Hq. congruence. }
  assert (holder (logged [Begun p] s) = Some p) as Ho.
  { rewrite (holder_app s _ [Begun p]) by done. by destruct (view (cl_log s)). }
  split; [|done]. split; try done.
  - intros _. apply (Inv_step _ s _ [Begun p]); [done|done|by split|].
    generalize (Inv_agrees _ Hi). look. agreeing.
  - by eexists.
  - exists 0%nat. by rewrite app_nil_r.
  - by left.
  - intros q Hne. rewrite Ho, Hn. split; congruence.
  - by left.
Qed.

Lemma end_turn_ok p s : own p s → Inv s → guarantee p s (end_turn p s).
Proof.
  intros Ho Hi. assert (holder (end_turn p s) = None) as Hn.
  { rewrite (holder_app s _ [Ended p]) by done. by destruct (view (cl_log s)). }
  split; try done.
  - intros _. apply (Inv_step _ s _ [Ended p]); [done|done|by split|].
    generalize (Inv_agrees _ Hi). look. agreeing.
  - by eexists.
  - exists 0%nat. by rewrite app_nil_r.
  - right. intros q Hne Hq. pose proof (ag_holder _ _ (Inv_agrees _ Hi) p Ho) as Hp. unfold queue, turn in Hq. congruence.
  - intros q Hne. rewrite Hn, Ho. split; congruence.
  - by left.
Qed.
End changes.
