(* ===== verification/ClientLogic.v ===== *)
(** oidc-vault-dpop-client: a program logic for the methods of a session.

    [hoare p P m Q E]: in process [p], from [P], the task [m] keeps the guarantee of [p] at every pause; it ends in
    [Q] or throws in [E]. An assertion that holds across a pause is [stable]. *)

From S2P Require Import Prelude JsValue JsJson JsMap DpopChallenge ClientTypes ClientTask ClientState ClientSession ClientInvariant ClientChanges.

Section logic.
Variable stored0 : option jsstr.
Variable p : nat.
Notation Inv := (Inv stored0).
Notation view := (view stored0).
Notation holder := (holder stored0).
Notation guarantee := (guarantee stored0 p).
Notation rely := (rely stored0 p).
Notation mild := (mild stored0).
Notation own := (own stored0 p).
Notation captured_with := (captured_with stored0).
Notation wp := (wp answer given (ClientInvariant.guarantee stored0) (ClientInvariant.rely stored0) p).

Definition post_of {A} (Q : A → Client → Prop) (E : Client → Prop) (r : fres A) (s : Client) : Prop :=
  match r with Ok a => Q a s | Err _ => E s end.

Definition hoare {A} (P : Client → Prop) (m : ctask A) (Q : A → Client → Prop) (E : Client → Prop) : Prop :=
  ∀ s0 s, guarantee s0 s → Inv s → P s → wp (λ r s1 s2, guarantee s1 s2 ∧ Inv s2 ∧ post_of Q E r s2) m s0 s.

(** ** Structure *)

Lemma h_conseq {A} (P P' : Client → Prop) (m : ctask A) (Q Q' : A → Client → Prop) (E E' : Client → Prop) :
  hoare P m Q E → (∀ s, P' s → P s) → (∀ a s, Q a s → Q' a s) → (∀ s, E s → E' s) → hoare P' m Q' E'.
Proof.
  intros Hm HP HQ HE s0 s Hg Hi Hs. eapply wp_mono; [|exact (Hm s0 s Hg Hi (HP s Hs))|..].
  intros [a|e] s1 s2 (H1 & H2 & H3); cbn in *; auto.
Qed.

Lemma h_pre {A} (P P' : Client → Prop) (m : ctask A) Q E : (∀ s, P' s → P s) → hoare P m Q E → hoare P' m Q E.
Proof. intros HP Hm. eapply h_conseq; eauto. Qed.

Lemma h_ret {A} (P : Client → Prop) (a : A) (Q : A → Client → Prop) E : (∀ s, P s → Q a s) → hoare P (ret a) Q E.
Proof. intros H s0 s Hg Hi Hs. cbn. auto. Qed.

Lemma h_throw {A} (P : Client → Prop) e (Q : A → Client → Prop) (E : Client → Prop) : (∀ s, P s → E s) → hoare P (throw e) Q E.
Proof. intros H s0 s Hg Hi Hs. cbn. auto. Qed.

Lemma h_settle {A B} P (m : ctask A) (f : fres A → ctask B) Q E R E' :
  hoare P m Q E → (∀ a, hoare (Q a) (f (Ok a)) R E') → (∀ e, hoare E (f (Err e)) R E') →
  hoare P (bind answer given m f) R E'.
Proof.
  intros Hm HQ HE s0 s Hg Hi Hs. apply wp_bind. eapply wp_mono; [|exact (Hm s0 s Hg Hi Hs)|..].
  intros [a|e] s1 s2 (H1 & H2 & H3); cbn in H3; [by apply HQ|by apply HE].
Qed.

Lemma h_bind {A B} P (m : ctask A) (f : A → ctask B) Q E R :
  hoare P m Q E → (∀ a, hoare (Q a) (f a) R E) → hoare P (rbind m f) R E.
Proof. intros Hm Hf. apply (h_settle _ _ _ Q E); [done|done|]. intros e. by apply h_throw. Qed.

Lemma h_catch {A} P (m : ctask A) (h : failure → ctask A) Q E E' :
  hoare P m Q E → (∀ e, hoare E (h e) Q E') → hoare P (tcatch m h) Q E'.
Proof. intros Hm Hh. apply (h_settle _ _ _ Q E); [done| |done]. intros a. by apply h_ret. Qed.

Lemma h_if {A} (b : bool) P (m n : ctask A) Q E :
  hoare (λ s, P s ∧ b = true) m Q E → hoare (λ s, P s ∧ b = false) n Q E → hoare P (if b then m else n) Q E.
Proof. intros Hm Hn. destruct b; [eapply h_pre; [|exact Hm]|eapply h_pre; [|exact Hn]]; cbn; auto. Qed.

Lemma h_pure {A} (K : Prop) P (m : ctask A) Q E : (K → hoare P m Q E) → hoare (λ s, P s ∧ K) m Q E.
Proof. intros H s0 s Hg Hi [HP HK]. by apply H. Qed.

(** ** Reading and writing *)

Lemma h_state {A} (P : Client → Prop) (f : Client → A) E : hoare P (state f) (λ x s, P s ∧ x = f s) E.
Proof. intros s0 s Hg Hi Hs. cbn. auto. Qed.

Lemma h_take (P : Client → Prop) c E : hoare P (take c) (λ _, P) E.
Proof. intros s0 s Hg Hi Hs. cbn. auto. Qed.

Lemma h_update (P Q : Client → Prop) (f : Client → Client) E :
  (∀ s, Inv s → P s → guarantee s (f s) ∧ Q (f s)) → hoare P (update f) (λ _, Q) E.
Proof.
  intros H s0 s Hg Hi Hs. cbn. destruct (H s Hi Hs) as [H1 H2].
  assert (guarantee s0 (f s)) by (by eapply guarantee_trans). split_and!; [done| |done]. by apply (g_inv _ _ _ _ H1).
Qed.

Lemma h_assert (P : Client → Prop) a (E : Client → Prop) :
  (∀ s, P s → E s) → hoare P (assertCurrent a) (λ _ s, P s ∧ cur a s) E.
Proof.
  intros HE s0 s Hg Hi Hs. cbn. split_and!; [done|done|]. unfold check_current, guard.
  destruct (disposed s) eqn:Hd; cbn; [auto|]. destruct (_ && _) eqn:Hc; cbn; [|auto].
  apply andb_true_iff in Hc as [He%Nat.eqb_eq Hh]. split; [done|]. by apply cur_split.
Qed.

Lemma h_unless (P : Client → Prop) b e (E : Client → Prop) :
  (∀ s, P s → E s) → hoare P (throw_unless b e) (λ _ s, P s ∧ b = true) E.
Proof. intros HE. unfold throw_unless. destruct b; [apply h_ret|apply h_throw]; auto. Qed.

(** ** Pauses *)

Definition stable (P : Client → Prop) : Prop := ∀ s s', P s → rely s s' → P s'.

Lemma h_await (P : Client → Prop) c (E : Client → Prop) :
  stable P → (∀ s, P s → E s) → hoare P (await c) (λ _, P) E.
Proof.
  intros Hst HE s0 s Hg Hi Hs. cbn. split; [done|]. intros r s' HR. split_and!; [apply guarantee_refl|apply HR|].
  assert (P s') by (by eapply Hst). destruct r; cbn; auto.
Qed.

Lemma h_wait {A} (P : Client → Prop) ready (m : ctask A) Q E :
  stable P → hoare (λ s, P s ∧ ready s = true) m Q E → hoare P (Wait ready m) Q E.
Proof.
  intros Hst Hm s0 s Hg Hi Hs. cbn. split; [done|]. intros s' HR Hr.
  apply Hm; [apply guarantee_refl|apply HR|]. split; [|done]. by eapply Hst.
Qed.

Lemma h_pause (P : Client → Prop) E : stable P → hoare P pause (λ _, P) E.
Proof. intros Hst. apply h_wait; [done|]. apply h_ret. by intros s [H _]. Qed.

Lemma h_mild (P : Client → Prop) (f : Client → Client) E :
  stable P → (∀ s, Inv s → P s → mild s (f s)) → hoare P (update f) (λ _, P) E.
Proof.
  intros Hst Hf. apply h_update. intros s Hi Hs. pose proof (Hf s Hi Hs) as Hm.
  split; [by apply mild_guarantee|]. eapply Hst; [done|]. by apply mild_rely.
Qed.

(** ** Stable assertions *)

Lemma stable_true : stable (λ _, True).
Proof. by intros s s'. Qed.
Lemma stable_and P Q : stable P → stable Q → stable (λ s, P s ∧ Q s).
Proof. intros HP HQ s s' [H1 H2] HR. split; [by eapply HP|by eapply HQ]. Qed.
Lemma stable_own : stable own.
Proof. intros s s' Ho HR. by apply (r_holder _ _ _ _ HR). Qed.
Lemma stable_not_own : stable (λ s, holder s ≠ Some p).
Proof. intros s s' Ho HR H. by apply Ho, (r_holder _ _ _ _ HR). Qed.
Lemma stable_ticket n : stable (λ s, queue s !! n = Some p).
Proof. intros s s' Hq HR. destruct (r_queue _ _ _ _ HR) as [k ->]. by apply lookup_app_l_Some. Qed.

(** While [a] is current, [h] is the stored handle. *)
Definition presents (a : Authority) (h : option jsstr) (s : Client) : Prop :=
  own s ∧ ∀ x, h = Some x → (au_epoch a <= epoch s)%nat ∧ (epoch s = au_epoch a → stored_id (handle_of s) = Some x).

Lemma stable_presents a h : stable (presents a h).
Proof.
  intros s s' [Ho Hp] HR. pose proof (r_epoch _ _ _ _ HR). split; [by eapply stable_own|].
  intros x Hx. destruct (Hp x Hx) as [Hle Hs]. split; [lia|]. intros He.
  rewrite (r_handle _ _ _ _ HR); [apply Hs; lia|done|lia].
Qed.

Lemma presents_own a h s : presents a h s → own s.
Proof. by intros []. Qed.
Lemma presents_none a s : own s → presents a None s.
Proof. by split. Qed.

Lemma log_ok_tail l1 l2 : log_ok stored0 (l1 ++ l2) → log_ok stored0 l1.
Proof. intros H k1 e k2 ->. apply (H k1 e (k2 ++ l2)). by rewrite <- app_assoc. Qed.

Lemma first_of_app l es id n :
  log_ok stored0 (l ++ es) → first_of (v_captures (view l)) id = Some n → (id < length (v_captures (view l)))%nat →
  first_of (v_captures (view (l ++ es))) id = Some n ∧ (id < length (v_captures (view (l ++ es))))%nat.
Proof.
  intros Hl Hf Hid. induction es as [|e es IH] using rev_ind; [by rewrite app_nil_r|].
  rewrite app_assoc in *. destruct (IH (log_ok_tail _ _ Hl)) as [H1 H2]. pose proof (Hl _ e [] eq_refl) as He.
  rewrite view_app. destruct (view (l ++ es)) as [ep live bumps captures hd claims handle token wd].
  destruct e; cbn in *; auto. destruct He as (_ & He & _). rewrite first_of_cons, decide_False by lia. split; [done|lia].
Qed.

Lemma stable_captured a :
  stable (λ s, captured_with a s ∧ (au_id a < length (v_captures (view (cl_log s))))%nat).
Proof.
  intros s s' [(n & m & Hn & Hm & Hf) Hid] HR. destruct (r_inv _ _ _ _ HR) as [Hl _].
  destruct (r_log _ _ _ _ HR) as [es He]. rewrite He in Hl.
  destruct (first_of_app _ _ _ _ Hl Hf Hid) as [H1 H2]. unfold ClientChanges.captured_with. rewrite He.
  split; [|done]. by exists n, m.
Qed.
End logic.
