(* ===== verification/ClientQuiet.v ===== *)
(** oidc-vault-dpop-client: the parts of the methods that keep every stable assertion.

    Reading storage and metadata, keys, the lock, nonces, the failure path and everything else that neither sends nor
    publishes is [quiet]: it may run at any point of any process. *)

From S2P Require Import Prelude JsValue JsJson JsMap DpopChallenge ClientTypes ClientTask ClientState ClientSession ClientInvariant ClientChanges ClientLogic.

Create HintDb quiet discriminated.
Create HintDb mild discriminated.

Section quiet.
Variable stored0 : option jsstr.
Variable p : nat.
Notation Inv := (Inv stored0).
Notation view := (view stored0).
Notation holder := (holder stored0).
Notation mild := (mild stored0).
Notation own := (own stored0 p).
Notation captured_with := (captured_with stored0).
Notation stable := (stable stored0 p).
Notation hoare := (hoare stored0 p).

Definition quiet {A} (m : ctask A) : Prop := ∀ P, stable P → hoare P m (λ _, P) P.

Lemma h_quiet {A} (m : ctask A) (P E : Client → Prop) : quiet m → stable P → (∀ s, P s → E s) → hoare P m (λ _, P) E.
Proof. intros Hm HP HE. eapply h_conseq; [exact (Hm P HP)|auto..]. Qed.

(** ** Structure *)

Lemma q_ret {A} (a : A) : quiet (ret a).
Proof. intros P HP. by apply h_ret. Qed.
Lemma q_throw {A} e : quiet (throw (A := A) e).
Proof. intros P HP. by apply h_throw. Qed.
Lemma q_bind {A B} (m : ctask A) (f : A → ctask B) : quiet m → (∀ a, quiet (f a)) → quiet (rbind m f).
Proof. intros Hm Hf P HP. eapply h_bind; [by apply Hm|]. intros a. by apply Hf. Qed.
Lemma q_catch {A} (m : ctask A) h : quiet m → (∀ e, quiet (h e)) → quiet (tcatch m h).
Proof. intros Hm Hh P HP. eapply h_catch; [by apply Hm|]. intros e. by apply Hh. Qed.
Lemma q_await c : quiet (await c).
Proof. intros P HP. by apply h_await. Qed.
Lemma q_take c : quiet (take c).
Proof. intros P HP. apply h_take. Qed.
Lemma q_state {A} (f : Client → A) : quiet (state f).
Proof. intros P HP. eapply h_conseq; [apply (h_state _ _ P f P)|auto| |auto]. cbn. by intros a s []. Qed.
Lemma q_assert a : quiet (assertCurrent a).
Proof. intros P HP. eapply h_conseq; [by apply (h_assert _ _ P a P)|auto| |auto]. cbn. by intros [] s []. Qed.
Lemma q_unless b e : quiet (throw_unless b e).
Proof. unfold throw_unless. destruct b; [apply q_ret|apply q_throw]. Qed.
Lemma q_pause : quiet pause.
Proof. intros P HP. by apply h_pause. Qed.
Lemma q_update f : (∀ s, mild s (f s)) → quiet (update f).
Proof. intros Hf P HP. apply h_mild; auto. Qed.
Lemma q_wait {A} ready (m : ctask A) : quiet m → quiet (Wait ready m).
Proof.
  intros Hm P HP. apply h_wait; [done|]. apply (h_pre _ _ P); [by intros s [H _]|by apply Hm].
Qed.
(** [bind m (λ r, k ;! Ret r)] *)
Lemma q_after {A} (m : ctask A) (k : ctask unit) : quiet m → quiet k → quiet (bind answer given m (λ r, k ;! Ret r)).
Proof.
  intros Hm Hk P HP. apply (h_settle _ _ _ _ _ (λ _, P) P); [by apply Hm|intros a|intros e]; cbn beta;
    (apply (h_bind _ _ _ _ _ (λ _, P)); [by apply Hk|intros u]); [by apply h_ret|by apply h_throw].
Qed.
End quiet.

#[export] Hint Extern 1 (quiet _ _ (await ?c)) => exact (q_await _ _ c) : quiet.
#[export] Hint Extern 1 (quiet _ _ (take ?c)) => exact (q_take _ _ c) : quiet.
#[export] Hint Resolve q_ret q_throw q_state q_assert q_unless q_pause : quiet.

Ltac mild_step :=
  match goal with
  | |- mild _ ?s ?s => apply mild_refl
  | |- mild _ _ _ => solve [eauto with mild nocore]
  | |- mild _ ?s (?h ?x) => apply (mild_trans _ s x); [|solve [eauto with mild nocore]]
  end.
Ltac quiet_step :=
  match goal with
  | |- ∀ _, _ => intros ?
  | |- quiet _ _ (let (_, _) := ?x in _) => destruct x
  | |- quiet _ _ (rbind _ _) => apply q_bind
  | |- quiet _ _ (tcatch _ _) => apply q_catch
  | |- quiet _ _ (Wait _ _) => apply q_wait
  | |- quiet _ _ (update _) => apply q_update; intros ?; repeat mild_step
  | |- quiet _ _ (match ?x with _ => _ end) => destruct x
  | |- quiet _ _ (bind _ _ _ (λ r, rbind _ (λ _, Ret r))) => apply q_after
  | |- quiet _ _ _ => solve [eauto with quiet nocore]
  | |- quiet _ _ _ => progress cbn beta zeta
  end.
Ltac quiet_task := repeat quiet_step.

(** ** Changes that no event describes *)

Section mild_changes.
Variable stored0 : option jsstr.
Notation mild := (mild stored0).
Implicit Types s : Client.

Ltac plain := apply (mild_quiet _ _ _ []); try done; cbn; by rewrite app_nil_r.
Lemma mild_set_refresh q s : mild s (set_refresh q s).
Proof. plain. Qed.
Lemma mild_set_reset q s : mild s (set_reset q s).
Proof. plain. Qed.
Lemma mild_set_navigation q s : mild s (set_navigation q s).
Proof. plain. Qed.
Lemma mild_nonces f s : mild s (on_nonces f s).
Proof. plain. Qed.
Lemma mild_waiters f s : mild s (on_waiters f s).
Proof. plain. Qed.
Lemma mild_waiter w f s : mild s (update_waiter w f s).
Proof. plain. Qed.
Lemma mild_bind_cookie a v s : mild s (bind_cookie a v s).
Proof. plain. Qed.
Lemma mild_local_binding v s : mild s (set_local_binding v s).
Proof. plain. Qed.
Lemma mild_posted m s : mild s (logged [Posted m] s).
Proof. by apply (mild_quiet _ _ _ [Posted m]). Qed.
Lemma mild_begin s : mild s (begin_operation s).
Proof.
  unfold begin_operation. eapply mild_trans; [apply mild_withdraw|]. eapply mild_trans; [apply mild_set_refresh|apply mild_set_reset].
Qed.
End mild_changes.

#[export] Hint Resolve mild_set_refresh mild_set_reset mild_set_navigation mild_withdraw mild_nonces mild_waiters mild_waiter
  mild_bind_cookie mild_local_binding mild_posted mild_begin mild_claim mild_pending mild_bump_login
  mild_bump_publication mild_forget mild_dispose : mild.

(** * The session *)

Section session.
Variable stored0 : option jsstr.
Variable p : nat.
Variables (useDpop : bool) (transport : Transport) (sender : jsstr).
Notation Inv := (Inv stored0).
Notation view := (view stored0).
Notation mild := (mild stored0).
Notation stable := (stable stored0 p).
Notation hoare := (hoare stored0 p).
Notation captured_with := (captured_with stored0).
Notation quiet := (quiet stored0 p).

(** ** Authorities *)

Notation at_navigation conditions := (∀ s n, conditions s = [SameNavigation n] → n = navigationIntent s).

Lemma h_capture conditions (P : Client → Prop) (E : Client → Prop) :
  at_navigation conditions → stable P → (∀ s, P s → E s) →
  hoare P (capture conditions) (λ a s, P s ∧ ∃ s1, a = (capture_state (conditions s1) s1).1 ∧ s = (capture_state (conditions s1) s1).2 ∧ Inv s1) E.
Proof.
  intros Hn HP HE s0 s Hg Hi Hs. unfold capture. cbn. destruct (disposed s) eqn:Hd; cbn; [auto|].
  pose proof (mild_capture stored0 (conditions s) s Hd (Hn s)) as Hm.
  split_and!; [|by apply (ml_inv _ _ _ Hm)| |by eauto].
  - eapply guarantee_trans; [done|]. by apply mild_guarantee.
  - eapply HP; [done|]. by apply mild_rely.
Qed.

Lemma q_capture conditions : at_navigation conditions → quiet (capture conditions).
Proof. intros Hn P HP. eapply h_conseq; [by apply (h_capture _ P P)|auto| |auto]. cbn. by intros a s [H _]. Qed.

Lemma q_stateAuthority more : quiet (stateAuthority more).
Proof. by apply q_capture. Qed.

(** A peer's authority knows the publication and the login intent it was captured under. *)
Definition knows (a : Authority) (s : Client) : Prop := captured_with a s ∧ (au_id a < length (v_captures (view (cl_log s))))%nat.

Lemma h_peerAuthority more (P : Client → Prop) :
  stable P → hoare P (peerAuthority more) (λ a s, P s ∧ knows a s) P.
Proof.
  intros HP. eapply h_conseq; [by apply (h_capture _ P P)|auto| |auto].
  cbn. intros a s (Hs & s1 & -> & -> & Hi). split; [done|]. pose proof (Inv_agrees _ _ Hi) as [_ _ A3 A4 _ _ _ _ _ _].
  unfold knows, ClientChanges.captured_with. cbn [capture_state fst snd cl_log logged on_lifecycle]. rewrite view_app.
  destruct (view (cl_log s1)) as [ep live bumps captures hd claims handle token wd]. cbn in *. split; [|lia].
  exists (publication s1), (loginIntent s1). split_and!; [constructor|by do 2 constructor|].
  rewrite first_of_cons, decide_True by done. by rewrite A3.
Qed.

Lemma stable_knows a : stable (knows a).
Proof. apply stable_captured. Qed.

(** ** Local state *)

Lemma q_storage_pending v : quiet (storage (store_pending v)).
Proof. unfold storage. quiet_task. Qed.
Lemma q_read_storage item : quiet (read_storage item).
Proof. unfold read_storage. quiet_task. Qed.

Lemma q_invalidateLocal b : quiet (invalidateLocal b).
Proof.
  intros P HP s0 s Hg Hi Hs. unfold invalidateLocal. cbn -[invalidate_state].
  destruct (disposed s) eqn:Hd; cbn -[invalidate_state]; [done|].
  pose proof (mild_invalidate stored0 s Hd) as H1. pose proof (mild_invalidate_handle stored0 s Hd) as H2.
  destruct (invalidate_state s) as [a s1]. cbn in *.
  assert (∀ s', mild s s' → guarantee stored0 p s0 s' ∧ ClientInvariant.Inv stored0 s' ∧ P s') as Hend.
  { intros s' Hm. split_and!; [|by apply (ml_inv _ _ _ Hm)|].
    - eapply guarantee_trans; [done|]. by apply mild_guarantee.
    - eapply HP; [done|]. by apply mild_rely. }
  intros []; cbn; [|by apply Hend]. destruct b; cbn; [|by apply Hend].
  intros []; cbn; apply Hend; [|done]. eapply mild_trans; [exact H2|]. apply mild_pending.
Qed.
End session.

#[export] Hint Extern 1 (quiet _ _ (capture _)) => apply q_capture; congruence : quiet.
#[export] Hint Resolve q_stateAuthority q_storage_pending q_read_storage q_invalidateLocal : quiet.

Section methods.
Variable stored0 : option jsstr.
Variable p : nat.
Variables (useDpop : bool) (transport : Transport) (sender : jsstr).
Notation quiet := (quiet stored0 p).

Lemma q_post_message m : quiet (post_message transport m).
Proof. unfold post_message. quiet_task. Qed.
Lemma q_readHandle : quiet (readHandle useDpop).
Proof. unfold readHandle. quiet_task. Qed.
Lemma q_readPending : quiet (readPending useDpop).
Proof. unfold readPending. quiet_task. Qed.
Lemma q_readVersion : quiet readVersion.
Proof. unfold readVersion. quiet_task. Qed.
Lemma q_writeVersion v a : quiet (writeVersion v a).
Proof. unfold writeVersion. quiet_task. Qed.
Lemma q_readScopeState a : quiet (readScopeState a).
Proof. unfold readScopeState. quiet_task. Qed.
Lemma q_removeDpopScope a matches : quiet (removeDpopScope a matches).
Proof. unfold removeDpopScope. quiet_task. Qed.
Lemma q_existingKey a expected : quiet (existingKey a expected).
Proof. unfold existingKey. quiet_task. Qed.
Lemma q_getOrCreateLoginDpopKey a : quiet (getOrCreateLoginDpopKey a).
Proof. unfold getOrCreateLoginDpopKey. quiet_task. Qed.
Lemma q_currentRecognition a : quiet (currentRecognition a).
Proof. unfold currentRecognition. quiet_task. Qed.
End methods.

#[export] Hint Resolve q_post_message q_readHandle q_readPending q_readVersion q_writeVersion q_readScopeState
  q_removeDpopScope q_existingKey q_getOrCreateLoginDpopKey q_currentRecognition : quiet.

Section coordination.
Variable stored0 : option jsstr.
Variable p : nat.
Variables (useDpop : bool) (transport : Transport) (sender : jsstr).
Notation quiet := (quiet stored0 p).
Notation hoare := (hoare stored0 p).

Lemma q_invalidateCookie a expected replace loginJkt : quiet (invalidateCookie useDpop transport sender a expected replace loginJkt).
Proof. unfold invalidateCookie. quiet_task. Qed.
Lemma q_authenticatedKey a allow : quiet (authenticatedKey useDpop transport a allow).
Proof. unfold authenticatedKey. quiet_task. Qed.
Lemma q_confirm_rejection a n m binding status : quiet (confirm_rejection transport a n m binding status).
Proof. unfold confirm_rejection. quiet_task. Qed.
(** What is done under an authority that is current. *)
Lemma h_clears {A} a (k : unit → ctask A) P : stable stored0 p P → quiet (k tt) →
  hoare (λ s, P s ∧ cur a s) (rbind (update (logged [Cleared a])) k) (λ _, P) P.
Proof.
  intros HP Hk. apply (h_bind _ _ _ _ _ (λ _, P)); [|intros []; by apply Hk]. apply h_update. intros s Hi [Hs Hc].
  pose proof (mild_cleared stored0 a s Hi Hc) as Hm. split; [by apply mild_guarantee|]. eapply HP; [done|]. by apply mild_rely.
Qed.
(** A clearing right after the check of its authority. *)
Lemma q_clears {A B} a (k : A → ctask B) (m : ctask A) :
  quiet m → (∀ P x, stable stored0 p P → hoare (λ s, P s ∧ cur a s) (k x) (λ _, P) P) →
  quiet (rbind m (λ x, assertCurrent a ;! k x)).
Proof.
  intros Hm Hk P HP. apply (h_bind _ _ _ _ _ (λ _, P)); [by apply Hm|intros x].
  apply (h_bind _ _ _ _ _ (λ _ s, P s ∧ cur a s)); [by apply h_assert|]. intros _. by apply Hk.
Qed.
Lemma h_current {A} a (m : ctask A) P : stable stored0 p P → quiet m → hoare (λ s, P s ∧ cur a s) m (λ _, P) P.
Proof. intros HP Hm. apply (h_pre _ _ P); [by intros s []|by apply Hm]. Qed.
Lemma q_onPeerKeyFailure e a jkt : quiet (onPeerKeyFailure e a jkt).
Proof.
  intros P HP. unfold onPeerKeyFailure.
  apply (h_bind _ _ _ _ _ (λ owner s, P s ∧ (owner = true → cur a s))).
  - eapply h_conseq; [apply (h_state _ _ P _ P)|done| |done]. cbn. intros owner s [Hs ->]. split; [done|].
    intros [[Hc _]%andb_true_iff _]%andb_true_iff. exact Hc.
  - intros owner. destruct (owner && requires_login e) eqn:Ho; [|apply h_ret; by intros s []].
    apply andb_true_iff in Ho as [-> _]. apply (h_catch _ _ _ _ _ _ P); [|intros e'; by apply h_ret].
    apply (h_pre _ _ (λ s, P s ∧ cur a s)); [naive_solver|]. apply h_clears; [done|]. quiet_task.
Qed.
Lemma q_withCookieLock {A} (run : ctask A) : quiet run → quiet (withCookieLock transport run).
Proof. intros Hr. unfold withCookieLock. quiet_task; done. Qed.
Lemma q_requestPeer a jkt generation recognition rejected :
  quiet (requestPeer useDpop transport sender a jkt generation recognition rejected).
Proof. unfold requestPeer. quiet_task. Qed.
Lemma q_presented_handle matches : quiet (presented_handle useDpop transport matches).
Proof. unfold presented_handle. quiet_task. Qed.
End coordination.

#[export] Hint Resolve q_invalidateCookie q_authenticatedKey q_confirm_rejection q_onPeerKeyFailure q_requestPeer
  q_presented_handle : quiet.
