(* ===== verification/ClientSafety.v ===== *)
(** oidc-vault-dpop-client: every method keeps the session's guarantee, so the invariant holds in every interleaving. *)

From S2P Require Import Prelude JsValue JsJson JsMap DpopChallenge ClientTypes ClientTask ClientState ClientSession ClientInvariant ClientChanges ClientLogic ClientQuiet.

Section safety.
Variable stored0 : option jsstr.
Variable p : nat.
Variables (useDpop : bool) (transport : Transport) (sender scope_id vault_url : jsstr).
Variables (parse_url : jsstr → option URL).
Variables (base64url_decode : jsstr → option (list Z)) (base64url_encode : list Z → jsstr)
  (decodeProtectedHeader decodeJwt : jsstr → option jsval).
Notation Inv := (Inv stored0).
Notation mild := (mild stored0).
Notation own := (own stored0 p).
Notation holder := (holder stored0).
Notation stable := (stable stored0 p).
Notation hoare := (hoare stored0 p).
Notation quiet := (quiet stored0 p).
Notation presents := (presents stored0 p).
Notation knows := (knows stored0).

Lemma q_authenticatedSession a allow : quiet (authenticatedSession useDpop transport a allow).
Proof. unfold authenticatedSession. quiet_task. Qed.

(** A read of the state that matters later in the same segment. *)
Lemma h_see (P : Client → Prop) {A B} (f : Client → A) (k : A → ctask B) Q E :
  (∀ x, hoare (λ s, P s ∧ x = f s) (k x) Q E) → hoare P (rbind (state f) k) Q E.
Proof. intros Hk. apply (h_bind _ _ _ _ _ (λ x s, P s ∧ x = f s)); [apply h_state|done]. Qed.

Lemma h_require (P : Client → Prop) {B} b e (k : unit → ctask B) Q E :
  (∀ s, P s → E s) → (b = true → hoare P (k tt) Q E) → hoare P (rbind (throw_unless b e) k) Q E.
Proof.
  intros HE Hk. apply (h_bind _ _ _ _ _ (λ _ s, P s ∧ b = true)); [by apply h_unless|]. intros []. by apply h_pure.
Qed.

Lemma h_change (P R : Client → Prop) {B} f (k : unit → ctask B) Q E :
  (∀ s, Inv s → P s → guarantee stored0 p s (f s) ∧ R (f s)) → hoare R (k tt) Q E → hoare P (rbind (update f) k) Q E.
Proof. intros Hf Hk. apply (h_bind _ _ _ _ _ (λ _, R)); [by apply h_update|by intros []]. Qed.

(** A mild change that needs what holds just before it. *)
Lemma h_mildly (P K : Client → Prop) {B} f (k : unit → ctask B) Q E :
  stable P → (∀ s, Inv s → P s → K s → mild s (f s)) → hoare P (k tt) Q E → hoare (λ s, P s ∧ K s) (rbind (update f) k) Q E.
Proof.
  intros HP Hf. apply h_change. intros s Hi [Hs HK]. pose proof (Hf s Hi Hs HK) as Hm.
  split; [by apply mild_guarantee|]. eapply HP; [done|]. by apply mild_rely.
Qed.

Lemma h_skip (P : Client → Prop) {A B} (m : ctask A) (f : A → ctask B) Q E :
  quiet m → stable P → (∀ s, P s → E s) → (∀ a, hoare P (f a) Q E) → hoare P (rbind m f) Q E.
Proof. intros Hm HP HE Hf. apply (h_bind _ _ _ _ _ (λ _, P)); [by apply h_quiet|done]. Qed.

Lemma h_check (P : Client → Prop) {B} a (f : unit → ctask B) Q E :
  (∀ s, P s → E s) → (∀ u, hoare (λ s, P s ∧ cur a s) (f u) Q E) → hoare P (rbind (assertCurrent a) f) Q E.
Proof. intros HE Hf. apply (h_bind _ _ _ _ _ (λ _ s, P s ∧ cur a s)); [by apply h_assert|done]. Qed.

(** ** Failures *)

Lemma q_onFailure {A} e a : quiet (onFailure (A := A) useDpop transport sender e a).
Proof.
  intros P HP. unfold onFailure. apply h_check; [done|intros _].
  apply (h_bind _ _ _ _ _ (λ _, P)); [|intros _; by apply h_throw].
  destruct (requires_login e); [|apply h_ret; by intros s []].
  apply h_see; intros b. apply h_require; [by intros s [[]]|intros ->]. apply h_see; intros expected.
  apply (h_pre _ _ (λ s, P s ∧ (cur a s ∧ owned a s))); [by intros s [[[Hs Hc] Ho] _]|].
  apply h_mildly; [done|intros s Hi _ [Hc Ho]; by apply mild_failure_cleared|].
  apply h_skip; [auto with quiet|done|done|intros i]. apply h_skip; [auto with quiet|done|done|intros _].
  by apply q_assert.
Qed.

(** ** Turns *)

Lemma h_enqueue {A} a (run : ctask A) :
  hoare own run (λ _, own) own → hoare (λ s, holder s ≠ Some p) (enqueue p a run) (λ _ _, True) (λ _, True).
Proof.
  intros Hr. unfold enqueue. apply h_see; intros n.
  apply (h_change _ (λ s, queue s !! n = Some p ∧ holder s ≠ Some p)).
  { intros s Hi [Hs ->]. destruct (take_ticket_ok stored0 p s) as (H1 & H2 & H3). split_and!; [done|done|by rewrite H3]. }
  apply h_wait; [apply stable_and; [apply stable_ticket|apply stable_not_own]|].
  apply (h_change _ own).
  { intros s Hi [[Hq Ho] Ht%Nat.eqb_eq]. apply begun_ok; auto. unfold turn. by rewrite Ht. }
  apply (h_settle _ _ _ _ _ (λ _, own) own).
  - apply h_skip; [auto with quiet|apply stable_own|done|done].
  - intros b. apply (h_change _ (λ _, True)); [intros s Hi Ho; split; [by apply end_turn_ok|done]|].
    apply h_skip; [auto with quiet|apply stable_true|done|intros _; by apply h_ret].
  - intros e. apply (h_change _ (λ _, True)); [intros s Hi Ho; split; [by apply end_turn_ok|done]|].
    apply h_skip; [auto with quiet|apply stable_true|done|intros _; by apply (h_throw _ _ (A := A))].
Qed.

Lemma h_withCookieLock {A} (run : ctask A) : hoare own run (λ _, own) own → hoare own (withCookieLock transport run) (λ _, own) own.
Proof.
  intros Hr. unfold withCookieLock. destruct (cookie transport); [|done].
  apply h_skip; [auto with quiet|apply stable_own|done|intros _].
  apply (h_settle _ _ _ _ _ (λ _, own) own); [done|intros b|intros e];
    (apply h_skip; [auto with quiet|apply stable_own|done|intros _]); [by apply h_ret|by apply (h_throw _ _ (A := A))].
Qed.

Lemma h_operation {A} a (run : ctask A) :
  hoare (λ s, own s ∧ cur a s) run (λ _, own) own →
  hoare (λ s, holder s ≠ Some p) (operation useDpop transport sender p a run) (λ _ _, True) (λ _, True).
Proof.
  intros Hr. apply h_enqueue, h_withCookieLock. pose proof (stable_own stored0 p) as Ho.
  apply h_check; [done|intros _]. apply (h_change _ (λ s, own s ∧ cur a s)).
  { intros s Hi [Hs Hc]. pose proof (mild_claim stored0 a s) as Hm. split; [by apply mild_guarantee|]. split; [|exact Hc].
    eapply Ho; [done|]. by apply mild_rely. }
  apply (h_catch _ _ _ _ _ _ own); [|intros e; by apply q_onFailure].
  apply (h_bind _ _ _ _ _ (λ _, own)); [done|intros x]. apply h_skip; [auto with quiet|done|done|intros _]. by apply h_ret.
Qed.

(** ** Requests *)

Lemma handle_in_stored item h : handle_in useDpop item = Some h → stored_id item = Some (hd_sessionId h).
Proof.
  unfold handle_in, stored_id. destruct item as [v|]; [|done]. unfold mbind, option_bind.
  destruct v; try done. destruct (prop _ "sessionId") as [| | | |s| | | |]; try done. destruct s; [done|].
  destruct (item_of_mode _ _); [|done]. intros [= <-]. done.
Qed.

Lemma h_presented a matches :
  hoare (λ s, own s ∧ cur a s) (presented_handle useDpop transport matches) (λ h, presents a h) own.
Proof.
  clear parse_url base64url_decode base64url_encode decodeProtectedHeader decodeJwt. unfold presented_handle. destruct (cookie transport).
  { apply h_ret. intros s [Ho _]. by apply presents_none. }
  unfold readHandle, read_storage.
  apply (h_bind _ _ _ _ _ (λ h s, presents a (hd_sessionId <$> h) s)).
  - apply (h_bind _ _ _ _ _ (λ item s, presents a (stored_id item) s)).
    + apply (h_bind _ _ _ _ _ (λ _ s, own s ∧ cur a s)); [apply h_take|intros [|]]; [|by apply (h_throw _ _ (A := option jsval)); intros s []].
      eapply h_conseq; [apply (h_state _ _ (λ s, own s ∧ cur a s) _ own)|done| |done]. cbn.
      intros item s [[Ho Hc] ->]. split; [done|]. intros x Hx. apply cur_split in Hc as (_ & He & _). split; [lia|done].
    + intros item. apply h_ret. intros s [Ho Hp]. split; [done|]. intros x Hx. apply Hp.
      destruct (handle_in useDpop item) as [h|] eqn:Hh; [|done]. injection Hx as <-. by apply handle_in_stored in Hh.
  - intros [h|]; [|apply (h_throw _ _ (A := option jsstr)); by intros s []].
    destruct (matches h); [by apply h_ret|apply (h_throw _ _ (A := option jsstr)); by intros s []].
Qed.

Section request.
Variables (a : Authority) (route : Route) (handle : option jsstr) (body : jsval) (key : option jsstr).
Notation P := (presents a handle).

Lemma h_post_attempt n m binding retried :
  hoare P (post_attempt useDpop transport scope_id vault_url p a route handle body key n m binding retried) (λ _, P) P.
Proof.
  pose proof (stable_presents stored0 p a handle) as HP. unfold post_attempt.
  apply h_skip; [auto with quiet|done|done|intros _]. apply h_skip; [quiet_task|done|done|intros recognition].
  apply h_skip; [auto with quiet|done|done|intros _]. apply h_skip; [quiet_task|done|done|intros proof].
  apply h_check; [done|intros _]. apply h_mildly; [done| |].
  - intros s Hi [Ho Hp] Hc. apply mild_sent; [done..|]. intros x Hx. apply cur_split in Hc as (_ & He & _). by apply Hp.
  - match goal with |- hoare _ ?m _ _ => assert (quiet m) as Hq end; [quiet_task|by apply Hq].
Qed.

Lemma h_post : hoare P (post useDpop transport scope_id vault_url p a route handle body key) (λ _, P) P.
Proof.
  pose proof (stable_presents stored0 p a handle) as HP. unfold post.
  apply h_skip; [auto with quiet|done|done|intros [[n m] binding]]. apply h_skip; [quiet_task|done|done|intros _].
  apply (h_settle _ _ _ _ _ (λ _, P) P).
  - apply (h_bind _ _ _ _ _ (λ _, P)); [apply h_post_attempt|intros [r|]]; [by apply h_ret|].
    apply (h_bind _ _ _ _ _ (λ _, P)); [apply h_post_attempt|intros [r|]]; [by apply h_ret|by apply (h_throw _ _ (A := jsval * jsstr))].
  - intros r. apply h_skip; [auto with quiet|done|done|intros _]. by apply h_ret.
  - intros e. apply h_skip; [auto with quiet|done|done|intros _]. by apply (h_throw _ _ (A := jsval * jsstr)).
Qed.
End request.

(** ** Publication *)

Lemma stored_handle_item sessionId t : stored_id (Some (handle_item useDpop sessionId t)) = Some sessionId.
Proof. done. Qed.

Lemma h_publish next recognition a sessionId refreshedAt :
  (cookie transport = false → is_Some sessionId) →
  hoare own (publish useDpop transport sender next recognition a sessionId refreshedAt) (λ _, own) own.
Proof.
  intros Hid. pose proof (stable_own stored0 p) as HP. unfold publish.
  apply h_skip; [quiet_task|done|done|intros _]. apply h_skip; [auto with quiet|done|done|intros _].
  apply h_skip; [quiet_task|done|done|intros _]. apply h_check; [done|intros _].
  apply (h_bind _ _ _ _ _ (λ _ s, own s ∧ cur a s)).
  - destruct (cookie transport) eqn:Hc; [by apply h_ret|]. destruct (Hid eq_refl) as [id ->]. unfold storage.
    apply (h_bind _ _ _ _ _ (λ _ s, own s ∧ cur a s)); [apply h_take|intros [|]]; [|by apply (h_throw _ _ (A := ())); intros s []].
    apply h_update. intros s Hi [Ho Hcur]. destruct (store_handle_ok stored0 p _ (Some id) s Ho (eq_sym (stored_handle_item id next))) as [H1 H2].
    split_and!; [done|done|exact Hcur].
  - intros _. apply h_mildly; [done|intros s Hi Ho Hcur; by apply (mild_committed _ p)|].
    apply h_skip; [auto with quiet|done|done|intros _]. by apply h_ret.
Qed.

Lemma response_handle_body v h : response_handle v transport = Some h → cookie transport = false → is_Some h.
Proof.
  unfold response_handle, cookie. destruct transport; [|done]. destruct (prop v "sessionId") as [| | | |s| | | |]; try done.
  destruct s; [done|]. intros [= <-] _. by eexists.
Qed.

Lemma parseDpop_handle v jkt now uuid t h :
  parseDpopCredentials base64url_decode base64url_encode decodeProtectedHeader decodeJwt v transport jkt now uuid = Ok (t, h) →
  response_handle v transport = Some h.
Proof.
  unfold parseDpopCredentials. destruct v; try done. generalize (JObj plain fields) as v. intros v.
  destruct (prop v "accessToken"), (prop v "tokenType"); try done. destruct (jsstr_eqb _ _); [|done].
  destruct (response_handle v transport) as [h'|]; [|done]. unfold mbind, option_bind.
  destruct (response_deadline _ _); [|done]. destruct (decodeBoundJwtExpiration _ _ _ _ _ _); [|done].
  destruct (createToken _ _ _ _ _); [|done]. by intros [= _ ->].
Qed.

Lemma parseBearer_handle v now uuid t h :
  parseBearerCredentials base64url_decode base64url_encode decodeProtectedHeader decodeJwt v transport now uuid = Ok (t, h) →
  response_handle v transport = Some h.
Proof.
  unfold parseBearerCredentials. destruct v; try done. generalize (JObj plain fields) as v. intros v.
  destruct (prop v "accessToken"); try done. destruct (_ && _); [|done].
  destruct (response_handle v transport) as [h'|]; [|done]. unfold mbind, option_bind.
  destruct (response_deadline _ _); [|done]. destruct (decodeBearerJwtExpiration _ _ _ _ _) as [e|]; [|done].
  destruct (createToken _ _ _ _ _); [|done]. by intros [= _ ->].
Qed.

Lemma h_acceptResponse response key a :
  hoare own (acceptResponse useDpop transport sender base64url_decode base64url_encode decodeProtectedHeader decodeJwt response key a)
    (λ _, own) own.
Proof.
  pose proof (stable_own stored0 p) as HP. unfold acceptResponse.
  apply h_skip; [auto with quiet|done|done|intros _]. apply h_skip; [auto with quiet|done|done|intros now].
  apply h_skip; [auto with quiet|done|done|intros uuid].
  match goal with |- hoare _ (match ?r with _ => _ end) _ _ => destruct r as [[t h]|e] eqn:Hr end; [|by apply (h_throw _ _ (A := AccessToken))].
  apply h_publish. intros Hc. destruct useDpop; [apply parseDpop_handle in Hr|apply parseBearer_handle in Hr]; by eapply response_handle_body.
Qed.

(** ** Peers *)

Lemma h_adoptPeer m a expected :
  hoare (knows a) (adoptPeer useDpop base64url_decode base64url_encode decodeProtectedHeader decodeJwt m a expected) (λ _, knows a) (knows a).
Proof.
  pose proof (stable_knows stored0 p a) as HP. unfold adoptPeer.
  assert (∀ r, hoare (knows a) (ret (A := option AccessToken) r) (λ _, knows a) (knows a)) as Hret by (intros r; by apply h_ret).
  apply h_skip; [auto with quiet|done|done|intros _]. apply h_skip; [auto with quiet|done|done|intros accepting].
  destruct (msg_type m); try done. destruct (_ || _); [done|].
  apply h_skip; [quiet_task|done|done|intros recognition]. apply h_skip; [auto with quiet|done|done|intros _].
  destruct (negb _); [done|]. apply h_skip; [auto with quiet|done|done|intros current].
  apply h_skip; [auto with quiet|done|done|intros _]. destruct current as [v|]; [|done]. destruct (negb _); [done|].
  apply h_skip; [auto with quiet|done|done|intros now]. cbn zeta.
  match goal with |- hoare _ (match ?r with _ => _ end) _ _ => destruct r as [t|] end; [|done].
  apply h_skip; [quiet_task|done|done|intros _]. apply h_skip; [auto with quiet|done|done|intros _].
  apply h_skip; [auto with quiet|done|done|intros latest].
  apply h_check; [done|intros _]. apply (h_bind _ _ _ _ _ (λ _ s, knows a s ∧ cur a s)); [apply h_take|intros later].
  assert (∀ r, hoare (λ s, knows a s ∧ cur a s) (ret (A := option AccessToken) r) (λ _, knows a) (knows a)) as Hret'.
  { intros r. apply h_ret. by intros s []. }
  destruct latest as [l|]; [|done]. destruct (_ || _); [done|]. apply h_see; intros known. destruct known.
  - apply (h_pre _ _ (knows a)); [by intros s [[]]|]. by apply q_state.
  - apply (h_pre _ _ (λ s, knows a s ∧ cur a s)); [by intros s [[]]|].
    apply h_mildly; [done|intros s Hi [Hk _] Hc; by apply mild_adopted|done].
Qed.
End safety.
#[export] Hint Resolve q_authenticatedSession q_onFailure : quiet.
