(* ===== verification/ClientRuns.v ===== *)
(** oidc-vault-dpop-client: the methods, messages and timers of a session keep the invariant in every interleaving. *)

From S2P Require Import Prelude JsValue JsJson JsMap DpopChallenge ClientTypes ClientTask ClientState ClientSession ClientInvariant ClientChanges ClientLogic ClientQuiet ClientSafety.

Section runs.
Variable stored0 : option jsstr.
Variable p : nat.
Variables (useDpop : bool) (transport : Transport) (sender scope_id vault_url : jsstr).
Variables (parse_url : jsstr → option URL).
Variables (base64url_decode : jsstr → option (list Z)) (base64url_encode : list Z → jsstr)
  (decodeProtectedHeader decodeJwt : jsstr → option jsval).
Notation Inv := (Inv stored0).
Notation own := (own stored0 p).
Notation holder := (holder stored0).
Notation hoare := (hoare stored0 p).
Notation quiet := (quiet stored0 p).
Notation presents := (presents stored0 p).
Notation knows := (knows stored0).
Notation idle := (λ s, holder s ≠ Some p).
Notation login := (login useDpop transport sender scope_id vault_url parse_url).
Notation exchange := (exchange useDpop transport sender scope_id vault_url base64url_decode base64url_encode decodeProtectedHeader decodeJwt).
Notation refresh := (refresh useDpop transport sender scope_id vault_url base64url_decode base64url_encode decodeProtectedHeader decodeJwt).
Notation logout := (logout useDpop transport sender scope_id vault_url).
Notation logoutAndNavigate := (logoutAndNavigate useDpop transport sender scope_id vault_url).
Notation onmessage := (onmessage useDpop transport sender base64url_decode base64url_encode decodeProtectedHeader decodeJwt).

(** A task of a process that does not hold the turn. *)
Definition runs_idle {A} (m : ctask A) : Prop := hoare idle m (λ _ _, True) (λ _, True).

Lemma idle_quiet {A} (m : ctask A) : quiet m → runs_idle m.
Proof. intros Hm. eapply h_conseq; [apply (Hm _ (stable_not_own stored0 p))|done|done|done]. Qed.
Lemma idle_skip {A B} (m : ctask A) (f : A → ctask B) : quiet m → (∀ a, runs_idle (f a)) → runs_idle (rbind m f).
Proof. intros Hm Hf. apply h_skip; [done|apply stable_not_own|done|done]. Qed.
Lemma idle_done {A} (m : ctask A) : runs_idle m → runs_idle (done m).
Proof. intros Hm. apply (h_bind _ _ _ _ _ (λ _ _, True)); [done|intros a]. by apply h_ret. Qed.
Lemma idle_shared {A} place leave (m : ctask A) :
  (∀ s, mild stored0 s (leave s)) → runs_idle m → runs_idle (shared_until_settled place leave p m).
Proof.
  intros Hl Hm. pose proof (stable_true stored0 p) as HT. assert (quiet (update leave)) as Hq by (by apply q_update).
  unfold shared_until_settled. apply (h_settle _ _ _ _ _ (λ _ _, True) (λ _, True)); [done| |];
    (intros x; apply h_skip; [auto with quiet|done|done|intros _]; apply h_skip; [auto with quiet|done|done|intros mine];
     apply h_skip; [destruct mine; auto with quiet|done|done|intros _]); [by apply h_ret|by apply (h_throw _ _ (A := A))].
Qed.

Lemma own_skip {A B} (m : ctask A) (f : A → ctask B) :
  quiet m → (∀ a, hoare own (f a) (λ _, own) own) → hoare own (rbind m f) (λ _, own) own.
Proof. intros Hm Hf. apply h_skip; [done|apply stable_own|done|done]. Qed.
Lemma own_quiet {A} (m : ctask A) : quiet m → hoare own m (λ _, own) own.
Proof. intros Hm. apply Hm, stable_own. Qed.

Lemma own_current {A} a (m : ctask A) : hoare own m (λ _, own) own → hoare (λ s, own s ∧ cur a s) m (λ _, own) own.
Proof. apply h_pre. by intros s []. Qed.

Lemma own_clearLocal a b : hoare (λ s, own s ∧ cur a s) (clearLocal a b) (λ _, own) own.
Proof.
  unfold clearLocal, clear_storage. apply h_mildly; [apply stable_own| |].
  { intros s Hi _ Hc. eapply mild_trans; [by apply mild_cleared|apply mild_forget]. }
  apply (h_bind _ _ _ _ _ (λ _, own)); [|intros _; apply own_quiet; destruct b; auto with quiet].
  unfold storage. apply own_skip; [auto with quiet|intros [|]]; [|by apply (h_throw _ _ (A := ()))].
  apply h_update. intros s Hi Ho. by apply store_handle_ok.
Qed.

Lemma own_post {B} a route handle body key (f : jsval * jsstr → ctask B) :
  (∀ r, hoare own (f r) (λ _, own) own) →
  hoare (presents a handle) (rbind (post useDpop transport scope_id vault_url p a route handle body key) f) (λ _, own) own.
Proof.
  intros Hf. apply (h_bind _ _ _ _ _ (λ _, own)); [|done].
  eapply h_conseq; [apply h_post|done|intros r s; apply presents_own|intros s; apply presents_own].
Qed.

(** A confirmed logout clears under its authority, checked just before. *)
Lemma own_confirmed {A B} a b e (f : Client → A) (k : A → ctask B) :
  (∀ x, hoare own (k x) (λ _, own) own) →
  hoare own (assertCurrent a ;! throw_unless b e ;! let! x := state f in clearLocal a true ;! k x) (λ _, own) own.
Proof.
  intros Hk. apply h_check; [done|intros _]. apply h_require; [by intros s []|intros _]. apply h_see; intros x.
  apply (h_bind _ _ _ _ _ (λ _, own)); [|by intros _].
  apply (h_pre _ _ (λ s, own s ∧ cur a s)); [by intros s []|apply own_clearLocal].
Qed.

Lemma own_navigate {B} a route url (f : () → ctask B) :
  (route = RouteLogoutNavigation → ∃ n, au_conditions a = [SameNavigation n]) →
  (∀ r, hoare own (f r) (λ _, own) own) →
  hoare own (rbind (assertCurrent a) (λ _, rbind (navigate a route url) f)) (λ _, own) own.
Proof.
  intros Hn Hf. apply h_check; [done|intros _]. apply (h_bind _ _ _ _ _ (λ _, own)); [|done]. unfold navigate.
  apply h_mildly; [apply stable_own|intros s Hi Ho Hc; by apply (mild_navigated _ p)|].
  apply own_skip; [auto with quiet|intros [u|e]]; [by apply (h_ret _ _ (A := ()))|by apply (h_throw _ _ (A := ()))].
Qed.

(** ** Methods *)

Lemma login_ok returnTo : runs_idle (login p returnTo).
Proof.
  unfold ClientSession.login. apply idle_skip; [auto with quiet|intros a]. apply idle_skip; [quiet_task|intros _].
  apply h_operation. apply (h_bind _ _ _ _ _ (λ _, own)); [apply own_clearLocal|intros _].
  apply own_skip; [quiet_task|intros _]. apply own_skip; [quiet_task|intros key].
  apply own_skip; [auto with quiet|intros _]. apply own_skip; [auto with quiet|intros _].
  apply own_skip; [auto with quiet|intros _]. apply own_skip; [auto with quiet|intros generation].
  apply own_skip; [auto with quiet|intros _]. apply own_skip; [quiet_task|intros _]. cbn zeta.
  apply (h_pre _ _ (presents a None)); [intros s; apply presents_none|]. apply own_post. intros response.
  apply own_skip; [auto with quiet|intros _]. destruct (login_url _ _); [|by apply (h_throw _ _ (A := Outcome))].
  apply own_navigate; [done|]. intros _. by apply h_ret.
Qed.

Lemma exchange_ok code : runs_idle (exchange p code).
Proof.
  unfold ClientSession.exchange. apply idle_skip; [auto with quiet|intros a]. apply idle_skip; [quiet_task|intros _].
  apply h_operation, own_current. apply own_skip; [auto with quiet|intros pending]. apply own_skip; [quiet_task|intros key].
  apply own_skip; [auto with quiet|intros _].
  assert (hoare own (throw (A := Outcome) loginRequired) (λ _, own) own) as Hthrow by (by apply h_throw).
  destruct pending as [pending|]; [|done]. destruct code as [| | | |code| | | |]; try done. destruct code as [|c code]; [done|].
  apply own_skip; [quiet_task|intros _]. apply (h_pre _ _ (presents a None)); [intros s; apply presents_none|]. apply own_post. intros response.
  apply (h_bind _ _ _ _ _ (λ _, own)); [apply h_acceptResponse|intros t]. apply own_skip; [auto with quiet|intros _].
  apply own_skip; [auto with quiet|intros _]. by apply h_ret.
Qed.

Lemma q_refresh_from_peers a key rejected baseline : quiet (refresh_from_peers useDpop transport sender a key rejected baseline).
Proof. unfold refresh_from_peers. quiet_task. Qed.
Lemma q_refresh_from_memory a rejected : quiet (refresh_from_memory a rejected).
Proof. unfold refresh_from_memory. quiet_task. Qed.

(** The request of a body in body transport presents the stored handle. *)
Lemma own_present {B} a matches (f : option jsstr → ctask B) :
  (∀ h, hoare (presents a h) (f h) (λ _, own) own) →
  hoare own (rbind (assertCurrent a) (λ _, rbind (presented_handle useDpop transport matches) f)) (λ _, own) own.
Proof.
  intros Hf. apply h_check; [done|intros _]. apply (h_bind _ _ _ _ _ (λ h, presents a h)); [apply h_presented|done].
Qed.

Lemma refresh_ok rejected : runs_idle (refresh p rejected).
Proof.
  unfold ClientSession.refresh. apply idle_skip; [auto with quiet|intros a]. apply idle_skip; [quiet_task|intros _].
  apply idle_skip; [auto with quiet|intros [q|]]; [by apply h_ret|].
  apply idle_skip; [auto with quiet|intros baseline]. apply idle_skip; [quiet_task|intros _].
  apply idle_shared; [intros s; apply mild_set_refresh|]. apply h_operation, own_current. unfold refresh_body.
  apply own_skip; [auto with quiet|intros key]. apply own_skip; [auto with quiet|intros _].
  apply own_skip; [destruct (cookie transport); [apply q_refresh_from_peers|apply q_refresh_from_memory]|intros found].
  destruct found as [t|]; [by apply h_ret|]. apply own_present. intros h. apply own_post. intros response.
  apply (h_bind _ _ _ _ _ (λ _, own)); [apply h_acceptResponse|intros t]. by apply h_ret.
Qed.

Lemma logout_ok : runs_idle (logout p).
Proof.
  unfold ClientSession.logout. apply idle_skip; [auto with quiet|intros a]. apply idle_skip; [quiet_task|intros _].
  apply h_operation, own_current. apply own_skip; [auto with quiet|intros key]. apply own_present. intros h. apply own_post. intros response.
  apply own_confirmed. intros expected. apply own_skip; [auto with quiet|intros _]. by apply h_ret.
Qed.

(** A navigation's authority carries the intent it was captured under. *)
Lemma navigation_captured {A} (f : Authority → ctask A) :
  (∀ a, (∃ n, au_conditions a = [SameNavigation n]) → runs_idle (f a)) →
  runs_idle (let! a := capture (λ s, [SameNavigation (navigationIntent s)]) in f a).
Proof.
  intros Hf. pose proof (stable_not_own stored0 p) as Hi.
  apply (h_bind _ _ _ _ _ (λ a s, idle s ∧ ∃ n, au_conditions a = [SameNavigation n])).
  - eapply h_conseq; [apply (h_capture _ _ _ idle (λ _, True)); [congruence|done..]|done| |done].
    cbn. intros a s (Hs & s1 & -> & _). split; [done|]. by eexists.
  - intros a. apply h_pure, Hf.
Qed.

Lemma logoutAndNavigate_ok : runs_idle (logoutAndNavigate p).
Proof.
  unfold ClientSession.logoutAndNavigate. apply idle_skip; [auto with quiet|intros _].
  apply idle_skip; [auto with quiet|intros a]. apply idle_skip; [auto with quiet|intros [q|]]; [by apply h_ret|].
  apply navigation_captured. intros navigation Hn. apply idle_skip; [quiet_task|intros _].
  apply idle_shared; [intros s; apply mild_set_navigation|]. apply h_operation, own_current.
  apply own_skip; [auto with quiet|intros _]. apply own_skip; [auto with quiet|intros key].
  assert (∀ (expected : option CookieSessionVersion) (value : jsval), hoare own
    (invalidateCookie useDpop transport sender a expected false None ;! assertCurrent a ;! assertCurrent navigation ;!
     match navigation_target vault_url value with
     | Some url => assertCurrent navigation ;! navigate navigation RouteLogoutNavigation url ;! ret Done
     | None => throw invalid_logout_navigation
     end) (λ _, own) own) as Hend.
  { intros expected value. apply own_skip; [auto with quiet|intros _]. apply own_skip; [auto with quiet|intros _].
    apply own_skip; [auto with quiet|intros _].
    destruct (navigation_target _ _); [|by apply (h_throw _ _ (A := Outcome))]. apply own_navigate; [done|]. intros _. by apply h_ret. }
  assert (∀ h, hoare (presents a h) (let! response := post useDpop transport scope_id vault_url p a RouteLogoutNavigation h
       (handle_body h) (Some key) in
     assertCurrent a ;! throw_unless (logged_out response.1) invalid_logout_navigation ;!
     let! expected := state (λ s, cookieBinding s a) in
     clearLocal a true ;! invalidateCookie useDpop transport sender a expected false None ;! assertCurrent a ;! assertCurrent navigation ;!
     match navigation_target vault_url response.1 with
     | Some url => assertCurrent navigation ;! navigate navigation RouteLogoutNavigation url ;! ret Done
     | None => throw invalid_logout_navigation
     end) (λ _, own) own) as Hreq.
  { intros h. apply own_post. intros response. apply own_confirmed. intros expected. apply Hend. }
  destruct (cookie transport) eqn:Hc.
  - apply own_skip; [auto with quiet|intros _]. apply own_skip; [quiet_task|intros _].
    unfold presented_handle. rewrite Hc. apply (h_bind _ _ _ _ _ (λ h, presents a h)); [|done].
    apply h_ret. intros s. apply presents_none.
  - apply h_check; [done|intros _]. apply (h_bind _ _ _ _ _ (λ _ s, own s ∧ cur a s)); [by apply h_ret|intros _].
    apply (h_bind _ _ _ _ _ (λ h, presents a h)); [apply h_presented|done].
Qed.

Lemma getKey_ok : runs_idle (getKey useDpop transport sender p).
Proof.
  unfold getKey. apply idle_skip; [auto with quiet|intros _]. apply idle_skip; [auto with quiet|intros a].
  apply (h_catch _ _ _ _ _ _ idle).
  - apply (h_conseq _ _ idle _ _ (λ _, idle) _ idle); [|done..]. apply h_quiet; [quiet_task|apply stable_not_own|done].
  - intros e. apply idle_skip; [auto with quiet|intros _]. apply idle_skip; [auto with quiet|intros t].
    destruct (_ && _); [by apply (h_throw _ _ (A := Outcome))|]. apply h_operation, own_current. by apply (h_throw _ _ (A := Outcome)).
Qed.

Lemma clear_ok : runs_idle (clear useDpop transport sender p).
Proof.
  unfold ClientSession.clear. apply idle_skip; [auto with quiet|intros expected]. apply idle_skip; [auto with quiet|intros a].
  destruct (cookie transport); [|by apply h_ret]. apply idle_done, h_enqueue, h_withCookieLock, own_quiet. quiet_task.
Qed.

Lemma resetKey_ok : runs_idle (resetKey useDpop transport sender p).
Proof.
  unfold resetKey. apply idle_skip; [auto with quiet|intros _]. apply idle_skip; [auto with quiet|intros [q|]]; [by apply h_ret|].
  apply idle_skip; [auto with quiet|intros binding]. apply idle_skip; [auto with quiet|intros a].
  apply idle_skip; [quiet_task|intros _]. apply idle_shared; [intros s; apply mild_set_reset|].
  apply idle_done, h_enqueue, h_withCookieLock, own_quiet. quiet_task.
Qed.

Lemma dispose_ok : runs_idle dispose.
Proof. apply idle_quiet. unfold dispose. quiet_task. Qed.

Lemma waiter_timeout_ok w : runs_idle (waiter_timeout w).
Proof. apply idle_quiet. unfold waiter_timeout. quiet_task. Qed.

(** ** Messages *)

Lemma advisory_ok run : (∀ a, quiet (run a)) → runs_idle (advisory transport p run).
Proof.
  intros Hr. unfold advisory. apply idle_skip; [by apply q_capture|intros a].
  apply (h_catch _ _ _ _ _ _ (λ _, True)); [|intros e; by apply h_ret].
  apply h_enqueue, h_withCookieLock, own_quiet. apply q_bind; [auto with quiet|intros _; apply Hr].
Qed.

Lemma q_on_other_mode m a : quiet (on_other_mode useDpop m a).
Proof.
  unfold on_other_mode. apply q_clears; [auto with quiet|]. intros P current HP.
  destruct current as [v|]; [|apply h_current; auto with quiet].
  destruct (_ && _); [|apply h_current; auto with quiet]. apply h_clears; [done|]. quiet_task.
Qed.
Lemma q_on_clear m a : quiet (on_clear useDpop m a).
Proof.
  unfold on_clear. apply q_clears; [auto with quiet|]. intros P version HP.
  destruct version as [v|]; [|apply h_current; auto with quiet].
  destruct (_ && _); [|apply h_current; auto with quiet]. apply h_clears; [done|]. quiet_task.
Qed.
Lemma q_on_reset_key m a : quiet (on_reset_key useDpop m a).
Proof.
  unfold on_reset_key. destruct useDpop; [|auto with quiet]. apply q_clears; [auto with quiet|]. intros P current HP.
  destruct (_ || _); [apply h_current; auto with quiet|]. cbn zeta. unfold readPending, read_storage, take.
  intros s0 s Hg Hi [Hs Hc]. cbn. intros [|]; cbn; [|auto].
  match goal with |- context [if ?b then _ else _] => destruct b end; [by apply (h_ret _ _ (A := ()) P tt)|].
  by apply (h_clears _ _ a (λ _, invalidateLocal true ;! ret tt)); [done|quiet_task|..].
Qed.
Lemma q_on_request_token m : quiet (on_request_token useDpop transport sender m).
Proof. unfold on_request_token. quiet_task. Qed.

Notation any := (λ _, True).

Lemma peer_ok {A} more (f : Authority → ctask A) :
  (∀ a, hoare (knows a) (f a) (λ _, any) any) → hoare any (rbind (peerAuthority more) f) (λ _, any) any.
Proof.
  intros Hf. apply (h_bind _ _ _ _ _ (λ a s, knows a s)); [|done].
  eapply h_conseq; [apply (h_peerAuthority stored0 p more _ (stable_true stored0 p))|done| |done]. by intros a s [].
Qed.

Lemma adopting_ok {A} (f : option AccessToken → ctask A) m a expected :
  (∀ peer, quiet (f peer)) →
  hoare (knows a) (let! peer := adoptPeer useDpop base64url_decode base64url_encode decodeProtectedHeader decodeJwt m a expected in f peer)
    (λ _, any) any.
Proof.
  intros Hf. apply (h_conseq _ _ (knows a) _ _ (λ _, knows a) _ (knows a)); [|done..].
  apply (h_bind _ _ _ _ _ (λ _, knows a)); [apply h_adoptPeer|intros peer]. apply Hf, stable_knows.
Qed.

Lemma waiter_receive_ok w pw m :
  hoare any (waiter_receive useDpop base64url_decode base64url_encode decodeProtectedHeader decodeJwt w pw m) (λ _, any) any.
Proof.
  pose proof (stable_true stored0 p) as HT. unfold waiter_receive. destruct (_ || _); [by apply h_ret|].
  apply h_skip; [quiet_task|done|done|intros _]. apply peer_ok. intros a.
  apply (h_catch _ _ _ _ _ _ any); [apply adopting_ok; quiet_task|]. intros e. apply h_quiet; [quiet_task|done|done].
Qed.

Lemma any_idle {A} (m : ctask A) : hoare any m (λ _, any) any → runs_idle m.
Proof. intros Hm. by eapply h_conseq; [exact Hm|..]. Qed.

Lemma onmessage_ok data : runs_idle (onmessage p data).
Proof.
  unfold ClientSession.onmessage. apply idle_skip; [auto with quiet|intros []]; [|by apply h_ret].
  destruct (read_message sender data) as [m|]; [|by apply h_ret]. apply idle_done. destruct (negb _).
  - assert (runs_idle (advisory transport p (on_other_mode useDpop m))) as Ha by (apply advisory_ok; intros a; apply q_on_other_mode).
    by destruct (msg_type m); [|apply (h_ret _ _ (A := ()))|..].
  - destruct (msg_type m).
    + apply idle_skip; [auto with quiet|intros [[w pw]|]]; apply any_idle; [apply waiter_receive_ok|].
      apply (h_catch _ _ _ _ _ _ any); [|intros e; by apply h_ret]. apply peer_ok. intros a. apply adopting_ok. quiet_task.
    + apply idle_quiet, q_on_request_token.
    + apply advisory_ok. intros a. apply q_on_clear.
    + apply advisory_ok. intros a. apply q_on_reset_key.
Qed.

(** ** Every interleaving *)

Notation entry := (entry useDpop transport sender scope_id vault_url parse_url base64url_decode base64url_encode decodeProtectedHeader decodeJwt).

Lemma entry_idle m : entry p m → runs_idle m.
Proof.
  intros []; auto using login_ok, exchange_ok, refresh_ok, logout_ok, logoutAndNavigate_ok, getKey_ok, clear_ok,
    resetKey_ok, dispose_ok, onmessage_ok, waiter_timeout_ok.
Qed.

Lemma fresh_idle s : Inv s → fresh p s → idle s.
Proof.
  intros Hi Hf Hh. pose proof (ag_holder _ _ (Inv_agrees _ _ Hi) p Hh) as Hq. apply Hf. by eapply list_elem_of_lookup_2.
Qed.

Lemma entry_ok m s :
  Inv s → fresh p s → entry p m →
  wp answer given (guarantee stored0) (rely stored0) p (λ _, guarantee stored0 p) m s s.
Proof.
  intros Hi Hf He. eapply wp_mono; [|apply (entry_idle m He s s); [apply guarantee_refl|done|by apply fresh_idle]].
  by intros r s0 s1 [H _].
Qed.
End runs.

Section reachable.
Variables (useDpop : bool) (transport : Transport) (sender scope_id vault_url : jsstr).
Variables (parse_url : jsstr → option URL).
Variables (base64url_decode : jsstr → option (list Z)) (base64url_encode : list Z → jsstr)
  (decodeProtectedHeader decodeJwt : jsstr → option jsval).

(** The session as it is created, over what the storage holds, and everything it may become. *)
Definition session_steps : Client → system answer given → Prop := λ s,
  steps answer given (Out := fres Outcome)
    (entry useDpop transport sender scope_id vault_url parse_url base64url_decode base64url_encode decodeProtectedHeader decodeJwt)
    (mkSystem s []).

Lemma session_inv handle pending sys :
  session_steps (fresh_client handle pending) sys → Inv (stored_id handle) (sys_state sys).
Proof.
  apply (tasks_inv answer given _ (Inv (stored_id handle)) (guarantee (stored_id handle)) (rely (stored_id handle))
           (rely_refl _) (rely_trans _) (λ p, guarantee_inv _ p) (guarantee_others _) fresh (fresh_rely _)).
  - intros p m s. apply entry_ok.
  - by apply Inv_start.
  - intros p Hp. by apply elem_of_nil in Hp.
Qed.
End reachable.
