(* ===== verification/ClientTheorems.v ===== *)
(** oidc-vault-dpop-client: what holds of the log and the memory of a session in every interleaving. *)

From S2P Require Import Prelude JsValue JsJson JsMap DpopChallenge ClientTypes ClientTask ClientState ClientSession ClientInvariant ClientChanges ClientLogic ClientQuiet ClientSafety ClientRuns.

(** ** Reading the log

    [acts e]: the authority under which the session did [e]. *)
Definition acts (e : Event) : option Authority :=
  match e with
  | FailureCleared a | Cleared a | Sent _ a _ _ _ | Committed a _ | Adopted a _ | Navigated a _ _ => Some a
  | _ => None
  end.

(** The handle stored last, [h0] before any was. *)
Definition last_stored (h0 : option jsstr) (l : list Event) : option jsstr :=
  foldl (λ h e, match e with StoredHandle h' => h' | _ => h end) h0 l.

Section log.
Variable stored0 : option jsstr.
Notation view := (view stored0).
Notation log_ok := (log_ok stored0).

Lemma see_epoch v l :
  (v_epoch v <= v_epoch (foldl see_event v l))%nat ∧ (v_epoch (foldl see_event v l) = v_epoch v → Invalidated ∉ l).
Proof.
  revert v. induction l as [|e l IH]; intros v; [split; [done|set_solver]|]. cbn [foldl].
  destruct (IH (see_event v e)) as [H1 H2].
  assert (v_epoch v <= v_epoch (see_event v e))%nat as Hle by (destruct v, e; cbn; lia). split; [lia|].
  intros He. apply not_elem_of_cons. split; [|apply H2; lia]. intros <-. destruct v; cbn in *. lia.
Qed.

Lemma see_dead v l : v_live v = false → v_live (foldl see_event v l) = false.
Proof. revert v. induction l as [|e l IH]; intros v Hv; [done|]. apply IH. by destruct v, e. Qed.

Lemma see_live v l : v_live (foldl see_event v l) = true → Disposed ∉ l.
Proof.
  revert v. induction l as [|e l IH]; intros v Hv; [set_solver|]. apply not_elem_of_cons. split; [|by eapply IH].
  intros <-. cbn [foldl] in Hv. rewrite see_dead in Hv; [done|by destruct v].
Qed.

Lemma see_bumps v l :
  (v_bumps v <= v_bumps (foldl see_event v l))%nat ∧ (v_bumps (foldl see_event v l) = v_bumps v → Bumped ∉ l).
Proof.
  revert v. induction l as [|e l IH]; intros v; [split; [done|set_solver]|]. cbn [foldl].
  destruct (IH (see_event v e)) as [H1 H2].
  assert (v_bumps v <= v_bumps (see_event v e))%nat as Hle by (destruct v, e; cbn; lia). split; [lia|].
  intros He. apply not_elem_of_cons. split; [|apply H2; lia]. intros <-. destruct v; cbn in *. lia.
Qed.

Lemma see_withdrawn v l :
  (v_withdrawn v <= v_withdrawn (foldl see_event v l))%nat ∧
  (v_withdrawn (foldl see_event v l) = v_withdrawn v → Withdrawn ∉ l).
Proof.
  revert v. induction l as [|e l IH]; intros v; [split; [done|set_solver]|]. cbn [foldl].
  destruct (IH (see_event v e)) as [H1 H2].
  assert (v_withdrawn v <= v_withdrawn (see_event v e))%nat as Hle by (destruct v, e; cbn; lia). split; [lia|].
  intros He. apply not_elem_of_cons. split; [|apply H2; lia]. intros <-. destruct v; cbn in *. lia.
Qed.

Lemma see_handle v l : v_handle (foldl see_event v l) = last_stored (v_handle v) l.
Proof. revert v. induction l as [|e l IH]; intros v; [done|]. cbn. rewrite IH. f_equal. by destruct v, e. Qed.

(** No [Claimed] of the same authority in between. *)
Lemma see_claims v l id n :
  first_of (v_claims v) id = n → (∀ b, Claimed b ∈ l → au_id b ≠ id) → first_of (v_claims (foldl see_event v l)) id = n.
Proof.
  revert v. induction l as [|e l IH]; intros v Hf Hl; [done|]. apply IH; [|set_solver].
  destruct v, e; try done. cbn in *. rewrite first_of_cons, decide_False; [done|]. apply Hl. set_solver.
Qed.

Lemma acts_under v e a : acts e = Some a → allowed v e → under v a.
Proof. destruct e; cbn; intros [= <-] He; naive_solver. Qed.

Lemma log_ok_at l1 e l2 : log_ok (l1 ++ e :: l2) → allowed (view l1) e.
Proof. intros H. by eapply H. Qed.

Lemma log_ok_at2 l1 e l2 e' l3 : log_ok (l1 ++ e :: l2 ++ e' :: l3) → allowed (view (l1 ++ e :: l2)) e'.
Proof. intros H. eapply (H (l1 ++ e :: l2) e' l3). by rewrite <- app_assoc. Qed.

Lemma view_cons l1 e l2 : view (l1 ++ e :: l2) = foldl see_event (see_event (view l1) e) l2.
Proof. by rewrite view_app. Qed.

(** ** Consequences of a log whose events were all allowed *)

Lemma silent_log l1 a l2 e l3 :
  log_ok (l1 ++ Captured a :: l2 ++ e :: l3) → acts e = Some a → Invalidated ∉ l2 ∧ Disposed ∉ l1 ++ Captured a :: l2.
Proof.
  intros Hl Ha. destruct (log_ok_at _ _ _ Hl) as [[He _] _]. pose proof (acts_under _ _ _ Ha (log_ok_at2 _ _ _ _ _ Hl)) as [He' Hv].
  split; [|by eapply see_live]. rewrite view_cons in He'.
  apply (see_epoch (see_event (view l1) (Captured a)) l2). rewrite <- He', He. by destruct (view l1).
Qed.

Lemma navigation_log l1 a l2 url l3 :
  log_ok (l1 ++ Captured a :: l2 ++ Navigated a RouteLogoutNavigation url :: l3) → Withdrawn ∉ l2.
Proof.
  intros Hl. destruct (log_ok_at _ _ _ Hl) as (_ & _ & Hc). destruct (log_ok_at2 _ _ _ _ _ Hl) as (_ & _ & Hn).
  apply Hc in Hn; [|done]. rewrite view_cons in Hn.
  apply (see_withdrawn (see_event (view l1) (Captured a)) l2). rewrite <- Hn. by destruct (view l1).
Qed.

Lemma holder_log l q p :
  log_ok l → v_holder (view l) = q → q = Some p → ∃ l0 l4, l = l0 ++ Begun p :: l4 ∧ ∀ r, Begun r ∉ l4 ∧ Ended r ∉ l4.
Proof.
  induction l as [|e l IH] using rev_ind; intros Hl Hq ->; [done|]. rewrite view_app in Hq. pose proof (log_ok_tail _ _ _ Hl) as Hl'.
  assert (v_holder (view l) = Some p → calm e = true → ∃ l0 l4, l ++ [e] = l0 ++ Begun p :: l4 ∧ ∀ r, Begun r ∉ l4 ∧ Ended r ∉ l4) as Hcalm.
  { intros Hp Hc. destruct (IH Hl' Hp eq_refl) as (l0 & l4 & -> & Hr). exists l0, (l4 ++ [e]).
    split; [by rewrite <- app_assoc|]. intros r. destruct (Hr r). destruct e; set_solver. }
  destruct (view l) as [ep live bumps captures hd claims handle token wd]. destruct e; cbn in *; auto; [|done].
  injection Hq as ->. exists l, []. set_solver.
Qed.

Lemma turn_log l1 p l2 :
  log_ok (l1 ++ Begun p :: l2) → Ended p ∉ l2 → v_holder (view (l1 ++ Begun p :: l2)) = Some p.
Proof.
  induction l2 as [|e l2 IH] using rev_ind; intros Hl He; [rewrite view_app; by destruct (view l1)|].
  rewrite app_comm_cons, app_assoc in *. pose proof (log_ok_at _ _ [] Hl) as Ha. apply log_ok_tail in Hl.
  assert (v_holder (view (l1 ++ Begun p :: l2)) = Some p) as Hp by (apply IH; [done|set_solver]).
  rewrite view_app. destruct (view (l1 ++ Begun p :: l2)) as [ep live bumps captures hd claims handle token wd].
  cbn in Hp. destruct e as [| | | |q| | | | | | | | | | | |]; cbn in *; try done; [congruence|].
  assert (q = p) as -> by congruence. set_solver.
Qed.

Lemma claim_log l1 a l2 l3 :
  log_ok (l1 ++ Claimed a :: l2 ++ FailureCleared a :: l3) → (∀ b, Claimed b ∈ l2 → au_id b ≠ au_id a) → Bumped ∉ l2.
Proof.
  intros Hl Hc. destruct (log_ok_at2 _ _ _ _ _ Hl) as [_ Hf]. rewrite view_cons in Hf.
  destruct (see_bumps (see_event (view l1) (Claimed a)) l2) as [_ Hb].
  assert (first_of (v_claims (see_event (view l1) (Claimed a))) (au_id a) = Some (v_bumps (view l1))) as H1.
  { destruct (view l1). cbn. by rewrite first_of_cons, decide_True. }
  rewrite (see_claims _ _ _ _ H1 Hc) in Hf. destruct Hf as [Hf|[= Hf]]; [done|]. apply Hb. rewrite <- Hf. by destruct (view l1).
Qed.

Lemma adopt_log l1 a t l2 l3 : log_ok (l1 ++ Captured a :: l2 ++ Adopted a t :: l3) → Bumped ∉ l2.
Proof.
  intros Hl. destruct (log_ok_at _ _ _ Hl) as (_ & Hid & _). destruct (log_ok_at2 _ _ _ _ _ Hl) as [_ Hf].
  assert (log_ok ((l1 ++ [Captured a]) ++ l2)) as Hl' by (apply (log_ok_tail _ _ (Adopted a t :: l3)); by rewrite <- !app_assoc).
  destruct (first_of_app stored0 (l1 ++ [Captured a]) l2 (au_id a) (v_bumps (view l1)) Hl') as [H1 _].
  { rewrite view_app. destruct (view l1). cbn. by rewrite first_of_cons, decide_True. }
  { rewrite view_app. destruct (view l1). cbn in *. lia. }
  rewrite <- app_assoc in H1. cbn in H1. rewrite H1 in Hf. injection Hf as Hf.
  destruct (see_bumps (see_event (view l1) (Captured a)) l2) as [_ Hb]. apply Hb. rewrite <- view_cons, <- Hf. by destruct (view l1).
Qed.

Lemma token_log l t ep :
  v_token (view l) = Some (t, ep) →
  ∃ l1 a e l2, l = l1 ++ e :: l2 ∧ (e = Committed a t ∨ e = Adopted a t) ∧ ep = v_epoch (view l1) ∧ Forgotten ∉ l2.
Proof.
  induction l as [|e l IH] using rev_ind; intros Ht; [done|]. rewrite view_app in Ht.
  assert (v_token (view l) = Some (t, ep) → e ≠ Forgotten →
    ∃ l1 a e' l2, l ++ [e] = l1 ++ e' :: l2 ∧ (e' = Committed a t ∨ e' = Adopted a t) ∧ ep = v_epoch (view l1) ∧ Forgotten ∉ l2) as Hkeep.
  { intros Ht' He. destruct (IH Ht') as (l1 & a & e' & l2 & -> & H1 & H2 & H3). exists l1, a, e', (l2 ++ [e]).
    split_and!; [by rewrite <- app_assoc|done|done|set_solver]. }
  assert (∀ a, (e = Committed a t ∨ e = Adopted a t) → ep = v_epoch (view l) →
    ∃ l1 a' e' l2, l ++ [e] = l1 ++ e' :: l2 ∧ (e' = Committed a' t ∨ e' = Adopted a' t) ∧ ep = v_epoch (view l1) ∧ Forgotten ∉ l2) as Hnew.
  { intros a He Hep. exists l, a, e, []. split_and!; [done|done|done|set_solver]. }
  destruct (view l) as [ep0 live bumps captures hd claims handle token wd]. destruct e; cbn in *; try (by apply Hkeep);
    injection Ht as -> ->; eapply Hnew; eauto.
Qed.
End log.

(** * Properties *)

Section properties.
Variables (useDpop : bool) (transport : Transport) (sender scope_id vault_url : jsstr).
Variables (parse_url : jsstr → option URL).
Variables (base64url_decode : jsstr → option (list Z)) (base64url_encode : list Z → jsstr)
  (decodeProtectedHeader decodeJwt : jsstr → option jsval).
Notation session_steps := (session_steps useDpop transport sender scope_id vault_url parse_url base64url_decode base64url_encode
  decodeProtectedHeader decodeJwt).

Lemma session_log handle pending sys :
  session_steps (fresh_client handle pending) sys → log_ok (stored_id handle) (cl_log (sys_state sys)).
Proof. intros Hs. by destruct (session_inv _ _ _ _ _ _ _ _ _ _ _ _ _ Hs) as [H _]. Qed.

(** C15: Work that was superseded does nothing any more: between the capture of an authority and whatever the session
    does under it (a request, a clearing of its credentials by a body, a message or a failure, a published or an adopted
    credential, a navigation) no [clear], [resetKey] or terminal failure has invalidated the session, and the session is
    not disposed. Before [logoutAndNavigate] navigates, no later method has withdrawn the navigation either. It holds in
    every interleaving of methods, messages and timers, whatever the network, storage, keys and clock answer. *)
Theorem superseded_work_silent handle pending sys l1 a l2 e l3 :
  session_steps (fresh_client handle pending) sys → cl_log (sys_state sys) = l1 ++ Captured a :: l2 ++ e :: l3 →
  acts e = Some a →
  Invalidated ∉ l2 ∧ Disposed ∉ l1 ++ Captured a :: l2 ∧
  (∀ url, e = Navigated a RouteLogoutNavigation url → Withdrawn ∉ l2).
Proof.
  intros Hs Hl Ha. apply session_log in Hs. rewrite Hl in Hs. destruct (silent_log _ _ _ _ _ _ Hs Ha) as [H1 H2].
  split_and!; [done|done|]. intros url ->. by eapply navigation_log.
Qed.

(** C16: The bodies of the methods take turns: a request is sent only by the process whose turn it is, and until that turn
    has ended no other body begins or sends. *)
Theorem bodies_take_turns handle pending sys :
  session_steps (fresh_client handle pending) sys →
  (∀ l1 p a route h k l2, cl_log (sys_state sys) = l1 ++ Sent p a route h k :: l2 →
     ∃ l0 l4, l1 = l0 ++ Begun p :: l4 ∧ ∀ r, Begun r ∉ l4 ∧ Ended r ∉ l4) ∧
  (∀ l1 p l2 e l3, cl_log (sys_state sys) = l1 ++ Begun p :: l2 ++ e :: l3 → Ended p ∉ l2 →
     match e with Begun _ => False | Ended q | Sent q _ _ _ _ => q = p | _ => True end).
Proof.
  intros Hs%session_log. split.
  - intros l1 p a route h k l2 Hl. rewrite Hl in Hs. destruct (log_ok_at _ _ _ _ Hs) as (_ & Hp & _).
    by eapply holder_log; [eapply log_ok_tail|..].
  - intros l1 p l2 e l3 Hl He. rewrite Hl in Hs. pose proof (log_ok_at2 _ _ _ _ _ _ Hs) as Ha.
    assert (log_ok (stored_id handle) (l1 ++ Begun p :: l2)) as Hs'.
    { apply (log_ok_tail _ _ (e :: l3)). by rewrite <- app_assoc. }
    pose proof (turn_log _ _ _ _ Hs' He) as Hp. destruct e; cbn in Ha; try done; [congruence|congruence|].
    destruct Ha as (_ & Hq & _). congruence.
Qed.

(** C17: In body transport a refresh or a logout presents the handle that was stored last: never one that an earlier
    rotation has replaced or a clearing has removed. *)
Theorem latest_handle_presented handle pending sys l1 p a route h k l2 :
  session_steps (fresh_client handle pending) sys → cl_log (sys_state sys) = l1 ++ Sent p a route (Some h) k :: l2 →
  last_stored (stored_id handle) l1 = Some h.
Proof.
  intros Hs%session_log Hl. rewrite Hl in Hs. destruct (log_ok_at _ _ _ _ Hs) as (_ & _ & Hh).
  rewrite <- (Hh h eq_refl). unfold view. by rewrite see_handle.
Qed.

(** C18: A failure clears the session only if nothing was published, cleared or begun as a login since the failing work last
    claimed the state: a stale failure never removes a newer login. *)
Theorem stale_failure_harmless handle pending sys l1 a l2 l3 :
  session_steps (fresh_client handle pending) sys →
  cl_log (sys_state sys) = l1 ++ Claimed a :: l2 ++ FailureCleared a :: l3 →
  (∀ b, Claimed b ∈ l2 → au_id b ≠ au_id a) → Bumped ∉ l2.
Proof. intros Hs%session_log Hl. rewrite Hl in Hs. by eapply claim_log. Qed.

(** A credential of another tab is adopted only if nothing was published, cleared or begun as a login since the message
    was taken up. *)
Theorem stale_peer_harmless handle pending sys l1 a t l2 l3 :
  session_steps (fresh_client handle pending) sys →
  cl_log (sys_state sys) = l1 ++ Captured a :: l2 ++ Adopted a t :: l3 → Bumped ∉ l2.
Proof. intros Hs%session_log Hl. rewrite Hl in Hs. by eapply adopt_log. Qed.

(** C19: The credential in memory was committed or adopted, and since then the session was neither cleared nor invalidated,
    and was never disposed. *)
Theorem memory_is_current handle pending sys t :
  session_steps (fresh_client handle pending) sys → token_of (sys_state sys) = Some t →
  ∃ l1 a e l2, cl_log (sys_state sys) = l1 ++ e :: l2 ∧ (e = Committed a t ∨ e = Adopted a t) ∧
    Forgotten ∉ l2 ∧ Invalidated ∉ l2 ∧ Disposed ∉ cl_log (sys_state sys).
Proof.
  intros Hs Ht. destruct (session_inv _ _ _ _ _ _ _ _ _ _ _ _ _ Hs) as [_ [_ _ _ _ _ _ _ A8 A9 _]].
  rewrite Ht in A8. destruct (v_token _) as [[t' ep]|] eqn:Hv; [|done]. injection A8 as <-.
  destruct (A9 _ _ eq_refl) as [Hep Hlive]. apply token_log in Hv as (l1 & a & e & l2 & Hl & He & Hep' & Hf).
  exists l1, a, e, l2. split_and!; [done|done|done| |by eapply see_live].
  rewrite Hl, view_cons in Hep. apply (see_epoch (see_event (view (stored_id handle) l1) e) l2). rewrite <- Hep, Hep'.
  destruct (view (stored_id handle) l1). by destruct He as [-> | ->].
Qed.
End properties.
