(* ===== verification/ClientCredentials.v ===== *)
(** oidc-vault-dpop-client: a tab reads the credential another tab posts exactly as that tab holds it (credentials.ts). *)

From S2P Require Import Prelude JsValue JsJson ClientTypes.

Section credentials.
Variables (base64url_decode : jsstr → option (list Z)) (base64url_encode : list Z → jsstr)
  (decodeProtectedHeader decodeJwt : jsstr → option jsval).
Notation decodeBoundJwtExpiration := (decodeBoundJwtExpiration base64url_decode base64url_encode decodeProtectedHeader decodeJwt).
Notation decodeBearerJwtExpiration := (decodeBearerJwtExpiration base64url_decode base64url_encode decodeProtectedHeader decodeJwt).
Notation parseDpopCredentials := (parseDpopCredentials base64url_decode base64url_encode decodeProtectedHeader decodeJwt).
Notation parseBearerCredentials := (parseBearerCredentials base64url_decode base64url_encode decodeProtectedHeader decodeJwt).
Notation readPeerToken := (readPeerToken base64url_decode base64url_encode decodeProtectedHeader decodeJwt).
Notation readBearerPeerToken := (readBearerPeerToken base64url_decode base64url_encode decodeProtectedHeader decodeJwt).

(** ** Deadlines *)

Definition deadline (z : Z) : Prop := is_safe z = true ∧ 0 <= z.

Lemma safe_integer_safe n z : safe_integer n = Some z → is_safe z = true.
Proof.
  unfold safe_integer, is_safe. destruct n as [q| |]; try done. destruct (Q_to_Z q) as [z'|]; [|done]. cbn.
  destruct (_ <=? _) eqn:H; [|done]. by intros [= <-].
Qed.

Lemma safe_nonnegative_deadline v z : safe_nonnegative v = Some z → deadline z.
Proof.
  unfold safe_nonnegative. destruct v; try done. destruct (safe_integer n) as [z'|] eqn:Hz; [|done]. cbn.
  destruct (0 <=? z') eqn:H0; [|done]. intros [= <-]. split; [by eapply safe_integer_safe|lia].
Qed.

Lemma deadline_safe_nonnegative z : deadline z → safe_nonnegative (JNum (num_of_Z z)) = Some z.
Proof. intros [Hs Hz]. unfold safe_nonnegative. rewrite safe_integer_of_Z by done. cbn. by rewrite (proj2 (Z.leb_le 0 z)). Qed.

Lemma millis_deadline v z : millis v = Some z → deadline z.
Proof.
  unfold millis. destruct (safe_nonnegative v) as [n|] eqn:Hn; [|done]. cbn. destruct (is_safe (n * 1000)) eqn:Hs; [|done].
  intros [= <-]. apply safe_nonnegative_deadline in Hn as [_ Hn]. split; [done|lia].
Qed.

Lemma bound_deadline accessToken jkt z : decodeBoundJwtExpiration accessToken jkt = Some z → deadline z.
Proof.
  unfold ClientTypes.decodeBoundJwtExpiration. destruct (_ && _); [|done]. destruct (decode_jwt _ _ _) as [[header claims]|]; [|done].
  cbn. destruct (_ && _); [|done]. apply millis_deadline.
Qed.

Lemma bearer_deadline accessToken z : decodeBearerJwtExpiration accessToken = Some (Some z) → deadline z.
Proof.
  unfold ClientTypes.decodeBearerJwtExpiration. destruct (_ =? _)%nat; [|done]. destruct (forallb _ _); [|done].
  destruct (decode_jwt _ _ _) as [[header claims]|]; [|done]. cbn. destruct (_ && _); [|done]. destruct (has_field _ _); [|done].
  destruct (millis _) as [m|] eqn:Hm; [|done]. intros [= <-]. by eapply millis_deadline.
Qed.

Lemma response_deadline_ok expiresIn now z : response_deadline expiresIn now = Some z → deadline z.
Proof.
  unfold response_deadline. destruct (safe_nonnegative _) as [n|] eqn:Hn; [|done]. cbn [mbind option_bind].
  destruct (millis expiresIn) as [m|] eqn:Hm; [|done]. cbn. destruct (is_safe _) eqn:Hs; [|done]. intros [= <-].
  apply safe_nonnegative_deadline in Hn as [_ Hn]. apply millis_deadline in Hm as [_ Hm]. split; [done|lia].
Qed.

Lemma deadline_min a b : deadline a → deadline b → deadline (Z.min a b).
Proof. intros Ha Hb. by destruct (Z.min_spec a b) as [[_ ->]|[_ ->]]. Qed.

(** ** What a parsed token is *)

Lemma createToken_spec accessToken expiresAt type generation user t :
  createToken accessToken expiresAt type generation user = Some t →
  t = mkToken accessToken type expiresAt generation (user_of user) ∧ valid_user (default JUndef (user_of user)) = true ∧
  user_of (default JUndef (user_of user)) = user_of user.
Proof.
  unfold createToken, user_of. destruct (valid_user user) eqn:Hv; [|done]. intros [= <-]. by destruct user.
Qed.

(** A token whose deadline the JWT does not shorten any more. *)
Definition settled_token (t : AccessToken) : Prop :=
  deadline (at_expiresAt t) ∧ valid_user (default JUndef (at_user t)) = true ∧
  user_of (default JUndef (at_user t)) = at_user t ∧
  match at_type t with
  | DPoP jkt => ∃ e, decodeBoundJwtExpiration (at_accessToken t) jkt = Some e ∧ at_expiresAt t <= e
  | Bearer => isHeaderSafeBearerToken (at_accessToken t) = true ∧
      ∃ o, decodeBearerJwtExpiration (at_accessToken t) = Some o ∧ (∀ e, o = Some e → at_expiresAt t <= e)
  end.

Lemma parseDpop_settled v transport jkt now uuid t h :
  parseDpopCredentials v transport jkt now uuid = Ok (t, h) →
  settled_token t ∧ at_generation t = uuid ∧ at_type t = DPoP jkt.
Proof.
  unfold ClientTypes.parseDpopCredentials. destruct v; try done. generalize (JObj plain fields) as v. intros v.
  destruct (prop v "accessToken") as [| | | |a| | | |], (prop v "tokenType") as [| | | |ty| | | |]; try done. destruct (jsstr_eqb _ _); [|done].
  unfold mbind, option_bind. destruct (response_handle v transport) as [h0|]; [|done].
  destruct (response_deadline _ _) as [d|] eqn:Hd; [|done]. destruct (decodeBoundJwtExpiration _ _) as [e|] eqn:He; [|done].
  destruct (createToken _ _ _ _ _) as [t'|] eqn:Ht; [|done]. intros [= -> _].
  apply createToken_spec in Ht as (-> & Hv & Hu). split; [|done]. split; [|split_and!; [done|done|]]; cbn.
  - apply deadline_min; [by eapply response_deadline_ok|by eapply bound_deadline].
  - exists e. split; [done|lia].
Qed.

Lemma parseBearer_settled v transport now uuid t h :
  parseBearerCredentials v transport now uuid = Ok (t, h) →
  settled_token t ∧ at_generation t = uuid ∧ at_type t = Bearer.
Proof.
  unfold ClientTypes.parseBearerCredentials. destruct v; try done. generalize (JObj plain fields) as v. intros v.
  destruct (prop v "accessToken") as [| | | |a| | | |]; try done. destruct (isHeaderSafeBearerToken a) eqn:Hs; [|done]. cbn [andb].
  destruct (match prop v "tokenType" with JUndef => _ | _ => _ end); [|done].
  unfold mbind, option_bind. destruct (response_handle v transport) as [h0|]; [|done].
  destruct (response_deadline _ _) as [d|] eqn:Hd; [|done]. destruct (decodeBearerJwtExpiration _) as [o|] eqn:He; [|done].
  destruct (createToken _ _ _ _ _) as [t'|] eqn:Ht; [|done]. intros [= -> _].
  apply createToken_spec in Ht as (-> & Hv & Hu). split; [|done]. split; [|split_and!; [done|done|]]; cbn.
  - apply deadline_min; [by eapply response_deadline_ok|]. destruct o; [by eapply bearer_deadline|by eapply response_deadline_ok].
  - split; [done|]. exists o. split; [done|]. intros e ->. cbn. lia.
Qed.

(** ** Reading what a tab posts *)

Lemma token_value_fields t :
  prop (token_value t) "accessToken" = JStr (at_accessToken t) ∧
  prop (token_value t) "expiresAt" = JNum (num_of_Z (at_expiresAt t)) ∧
  prop (token_value t) "generation" = JStr (at_generation t) ∧
  prop (token_value t) "user" = default JUndef (at_user t) ∧
  prop (token_value t) "tokenType" = JStr (match at_type t with DPoP _ => js "DPoP" | Bearer => js "Bearer" end) ∧
  prop (token_value t) "jkt" = match at_type t with DPoP jkt => JStr jkt | Bearer => JUndef end ∧
  has_field (token_value t) "sessionId" = false ∧
  has_field (token_value t) "jkt" = match at_type t with DPoP _ => true | Bearer => false end.
Proof. by destruct t as [a [jkt|] e g [u|]]. Qed.

Lemma read_settled t now n :
  settled_token t → at_generation t ≠ [] → safe_nonnegative (JNum now) = Some n → n < at_expiresAt t →
  match at_type t with
  | DPoP jkt => readPeerToken (token_value t) jkt (at_generation t) now
  | Bearer => readBearerPeerToken (token_value t) (at_generation t) now
  end = Some t.
Proof.
  intros (Hd & Hv & Hu & Hj) Hg Hn Hlt. destruct (token_value_fields t) as (F1 & F2 & F3 & F4 & F5 & F6 & F7 & F8).
  assert (∀ e, at_expiresAt t <= e → Z.min (at_expiresAt t) e = at_expiresAt t) as Hmin by lia.
  assert (n <? at_expiresAt t = true) as Hlt' by lia.
  unfold ClientTypes.readPeerToken, ClientTypes.readBearerPeerToken.
  assert (∃ fs, token_value t = JObj true fs) as [fs Hfs] by (by eexists). rewrite Hfs in *. cbn [mbind option_bind].
  rewrite Hn, F1, F2, F3, F4, F5, F6, F7, F8, !deadline_safe_nonnegative by done. clear - Hd Hv Hu Hj Hg Hn Hlt Hmin Hlt'.
  destruct t as [a [jkt|] e g u]; cbn [at_type at_accessToken at_expiresAt at_generation at_user] in *;
    unfold mbind, option_bind; rewrite !jsstr_eqb_refl, ?Hlt'; cbn [negb andb].
  - destruct Hj as (x & -> & Hx). rewrite Hmin, Hlt' by done. unfold createToken. by rewrite Hv, Hu.
  - destruct Hj as (Hsafe & o & -> & Ho). rewrite Hsafe. destruct g as [|c g]; [done|]. cbn [length Nat.eqb negb andb].
    assert (Z.min e (default e o) = e) as -> by (destruct o as [x|]; cbn; [by apply Hmin, Ho|lia]).
    rewrite Hlt'. unfold createToken. by rewrite Hv, Hu.
Qed.

(** C20: A credential parsed from any response of the vault reads back unchanged from what the tab posts of it, for as long as
    it has not expired on the reader's clock: no deadline, key, generation or profile is lost between tabs. *)
Theorem peer_reads_credential v transport jkt now now' n uuid :
  uuid ≠ [] → safe_nonnegative (JNum now') = Some n →
  (∀ t h, parseDpopCredentials v transport jkt now uuid = Ok (t, h) → n < at_expiresAt t →
     readPeerToken (token_value t) jkt uuid now' = Some t) ∧
  (∀ t h, parseBearerCredentials v transport now uuid = Ok (t, h) → n < at_expiresAt t →
     readBearerPeerToken (token_value t) uuid now' = Some t).
Proof.
  intros Hu Hn. split; intros t h Hp Hlt.
  - destruct (parseDpop_settled _ _ _ _ _ _ _ Hp) as (Hs & Hg & Ht).
    pose proof (read_settled t now' n Hs ltac:(by rewrite Hg) Hn Hlt) as H. by rewrite Ht, Hg in H.
  - destruct (parseBearer_settled _ _ _ _ _ _ Hp) as (Hs & Hg & Ht).
    pose proof (read_settled t now' n Hs ltac:(by rewrite Hg) Hn Hlt) as H. by rewrite Ht, Hg in H.
Qed.
End credentials.
