(* ===== verification/ClientScenario.v ===== *)
(** oidc-vault-dpop-client: two concrete sessions, and what their theorems say of them.

    A Bearer session in body transport refreshes twice; the second answer ends the login. A Bearer session in cookie
    transport adopts the credential that another tab posts. A DPoP session logs out and navigates; in a second run of it
    a later [logout] withdraws the navigation. *)

From S2P Require Import Prelude JsValue JsJson JsMap DpopChallenge ClientTypes ClientTask ClientState ClientSession ClientInvariant ClientRuns ClientTheorems ClientCredentials.

Definition obj (fields : list (string * jsval)) : jsval := JObj true (map (λ kv, (js kv.1, kv.2)) fields).
Definition str (s : string) : jsval := JStr (js s).
Definition number (z : Z) : jsval := JNum (num_of_Z z).

(** Nothing here is a JWT. *)
Definition no_decode (s : jsstr) : option jsval := None.
Definition decode_units (s : jsstr) : option (list Z) := Some s.
Definition no_url (s : jsstr) : option URL := None.

Definition answers (http : HttpResponse) (record : jsval) (c : call) : answer c :=
  match c with
  | ReadRecord => Ok record
  | WriteRecord _ => Ok tt
  | ReadScopeState | ReadForRemoval => Ok (mkScope false None false None)
  | DeleteScope => Ok tt
  | GetKey _ => Ok (js "k1")
  | FingerprintHeaders => Ok []
  | RecognitionDigest _ => Ok (js "none")
  | CreateProof _ _ _ => Ok []
  | Http _ _ _ _ _ => Ok http
  | LockGranted => Ok tt
  end.
Definition supplies (c : source) : given c :=
  match c with
  | Now => num_of_Z 1000
  | RandomUUID => js "u1"
  | StorageWorks => true
  | Navigate _ => Ok tt
  end.

Inductive move :=
  | Refreshes (rejected : option jsstr)
  | Hears (data : jsval)
  | LogsOut
  | LogsOutAndNavigates
  | Continues (p : nat) (http : HttpResponse).

Section play.
Variables (useDpop : bool) (transport : Transport) (record : jsval).
Notation entry := (entry useDpop transport (js "tab-1") (js "scope") (js "https://api/auth") no_url decode_units id no_decode no_decode).

Definition play_move (sys : system answer given) (m : move) : system answer given :=
  match m with
  | Refreshes rejected =>
      start answer given supplies (refresh useDpop transport (js "tab-1") (js "scope") (js "https://api/auth") decode_units id
        no_decode no_decode (length (sys_procs sys)) rejected) sys
  | Hears data =>
      if cookie transport
      then start answer given supplies (onmessage useDpop transport (js "tab-1") decode_units id no_decode no_decode
             (length (sys_procs sys)) data) sys
      else sys
  | LogsOut =>
      start answer given supplies (logout useDpop transport (js "tab-1") (js "scope") (js "https://api/auth")
        (length (sys_procs sys))) sys
  | LogsOutAndNavigates =>
      start answer given supplies (logoutAndNavigate useDpop transport (js "tab-1") (js "scope") (js "https://api/auth")
        (length (sys_procs sys))) sys
  | Continues p http => resume answer given supplies p (answers http record) sys
  end.
Definition play (moves : list move) (sys : system answer given) : system answer given := foldl play_move sys moves.

Lemma play_steps moves sys : steps answer given (Out := fres Outcome) entry sys (play moves sys).
Proof.
  revert sys. induction moves as [|m moves IH]; intros sys; [apply rtc_refl|]. etrans; [|apply IH].
  destruct m as [rejected|data| | |p http]; cbn [play_move].
  - apply start_steps, entry_refresh.
  - destruct (cookie transport) eqn:Hc; [|apply rtc_refl]. apply start_steps. by apply entry_message.
  - apply start_steps, entry_logout.
  - apply start_steps, entry_logoutAndNavigate.
  - apply resume_steps.
Qed.
End play.

(** ** Two refreshes *)

Definition stored : option jsval := Some (obj [("sessionId", str "s1"); ("mode", str "bearer")]).
Definition renewed : HttpResponse :=
  mkHttpResponse (num_of_Z 200) None (obj [("accessToken", str "opaque"); ("expiresIn", number 60); ("sessionId", str "s2")]).
Definition ended : HttpResponse := mkHttpResponse (num_of_Z 401) None (obj [("code", str "OIDC_VAULT_INVALID_SESSION")]).

Definition body_run : system answer given :=
  play false Body JUndef
    (Refreshes None :: replicate 9 (Continues 0 renewed) ++ Refreshes None :: replicate 9 (Continues 1 ended))
    (mkSystem (fresh_client stored None) []).
Definition body_log : list Event := Eval vm_compute in cl_log (sys_state body_run).

(** ** A peer's credential *)

Definition shared_record : jsval := obj [("mode", str "bearer"); ("generation", str "g1"); ("active", JBool true)].
Definition peer_token : AccessToken := mkToken (js "opaque") Bearer 90000 (js "g1") None.
Definition peer_message : jsval :=
  obj [("type", str "token"); ("sender", str "tab-2"); ("generation", str "g1"); ("mode", str "bearer");
       ("recognition", str "none"); ("token", token_value peer_token)].
Definition cookie_run : system answer given :=
  play false Cookie shared_record (Hears peer_message :: replicate 4 (Continues 0 renewed)) (mkSystem (fresh_client None None) []).
Definition cookie_log : list Event := Eval vm_compute in cl_log (sys_state cookie_run).

(** ** A logout that navigates *)

Definition bound : option jsval := Some (obj [("sessionId", str "s1"); ("jkt", str "k1")]).
Definition logged_out_at : HttpResponse :=
  mkHttpResponse (num_of_Z 200) None (obj [("loggedOut", JBool true); ("navigationUrl", str "https://api/auth/logout/navigation")]).
Definition navigate_run : system answer given :=
  play true Body JUndef (LogsOutAndNavigates :: replicate 9 (Continues 0 logged_out_at)) (mkSystem (fresh_client bound None) []).
Definition navigate_log : list Event := Eval vm_compute in cl_log (sys_state navigate_run).
(** A second logout begins while the first waits for its answer. *)
Definition withdrawn_run : system answer given :=
  play true Body JUndef
    (LogsOutAndNavigates :: replicate 4 (Continues 0 logged_out_at) ++ LogsOut :: replicate 9 (Continues 0 logged_out_at))
    (mkSystem (fresh_client bound None) []).
Definition navigated (e : Event) : bool := match e with Navigated _ _ _ => true | _ => false end.
Definition cleared (e : Event) : bool := match e with Cleared _ => true | _ => false end.

(** The first navigates; withdrawn, it still clears what the vault confirmed, and stays on the page. *)
Example withdrawn_stays :
  existsb navigated navigate_log = true ∧ existsb cleared (cl_log (sys_state withdrawn_run)) = true ∧
  existsb navigated (cl_log (sys_state withdrawn_run)) = false.
Proof. vm_compute. done. Qed.

(** ** What the theorems say of them *)

Notation steps_of mode transport := (session_steps mode transport (js "tab-1") (js "scope") (js "https://api/auth") no_url
  decode_units id no_decode no_decode).

Lemma body_steps : steps_of false Body (fresh_client stored None) body_run.
Proof. apply play_steps. Qed.
Lemma navigate_steps : steps_of true Body (fresh_client bound None) navigate_run.
Proof. apply play_steps. Qed.
Lemma cookie_steps : steps_of false Cookie (fresh_client None None) cookie_run.
Proof. apply play_steps. Qed.
Lemma body_logged : cl_log (sys_state body_run) = body_log.
Proof. vm_compute. reflexivity. Qed.
Lemma navigate_logged : cl_log (sys_state navigate_run) = navigate_log.
Proof. vm_compute. reflexivity. Qed.
Lemma cookie_logged : cl_log (sys_state cookie_run) = cookie_log.
Proof. vm_compute. reflexivity. Qed.

Definition authority (n : nat) : Authority := mkAuthority n 0 [].
Definition peer : Authority := mkAuthority 0 0 [SamePublication 0; SameLoginIntent 0].
Definition renewed_token : AccessToken := mkToken (js "opaque") Bearer 61000 (js "u1") None.
(** The events of the log between two positions. *)
Definition between (i j : nat) (l : list Event) : list Event := firstn (j - i)%nat (skipn i l).

Definition navigation : Authority := mkAuthority 1 0 [SameNavigation 0].
Definition continuation : jsstr := js "https://api/auth/logout/navigation".

Lemma superseded_work_silent_witness :
  Invalidated ∉ between 2 10 navigate_log ∧ Withdrawn ∉ between 2 10 navigate_log.
Proof.
  destruct (superseded_work_silent _ _ _ _ _ _ _ _ _ _ bound None navigate_run (firstn 1 navigate_log) navigation (between 2 10 navigate_log)
              (Navigated navigation RouteLogoutNavigation continuation) (skipn 11 navigate_log) navigate_steps) as (H1 & _ & H2).
  - rewrite navigate_logged. vm_compute. reflexivity.
  - reflexivity.
  - split; [exact H1|]. exact (H2 continuation eq_refl).
Defined.

Lemma bodies_take_turns_witness :
  ∃ l0 l4, firstn 14 body_log = l0 ++ Begun 1 :: l4 ∧ ∀ r, Begun r ∉ l4 ∧ Ended r ∉ l4.
Proof.
  apply (proj1 (bodies_take_turns _ _ _ _ _ _ _ _ _ _ stored None body_run body_steps) (firstn 14 body_log) 1%nat (authority 1)
           RouteRefresh (Some (js "s2")) None (skipn 15 body_log)).
  rewrite body_logged. vm_compute. reflexivity.
Defined.

Lemma latest_handle_presented_witness : last_stored (stored_id stored) (firstn 14 body_log) = Some (js "s2").
Proof.
  apply (latest_handle_presented _ _ _ _ _ _ _ _ _ _ stored None body_run (firstn 14 body_log) 1%nat (authority 1)
           RouteRefresh (js "s2") None (skipn 15 body_log) body_steps).
  rewrite body_logged. vm_compute. reflexivity.
Defined.

Lemma stale_failure_harmless_witness : Bumped ∉ between 14 15 body_log.
Proof.
  apply (stale_failure_harmless _ _ _ _ _ _ _ _ _ _ stored None body_run (firstn 13 body_log) (authority 1) (between 14 15 body_log)
           (skipn 16 body_log) body_steps).
  - rewrite body_logged. vm_compute. reflexivity.
  - vm_compute. intros b Hb. apply list_elem_of_singleton in Hb. discriminate.
Defined.

Lemma stale_peer_harmless_witness : Bumped ∉ [].
Proof.
  apply (stale_peer_harmless _ _ _ _ _ _ _ _ _ _ None None cookie_run [] peer peer_token [] [Bumped] cookie_steps).
  rewrite cookie_logged. vm_compute. reflexivity.
Defined.

Lemma memory_is_current_witness :
  ∃ l1 a e l2, cl_log (sys_state cookie_run) = l1 ++ e :: l2 ∧ (e = Committed a peer_token ∨ e = Adopted a peer_token) ∧
    Forgotten ∉ l2 ∧ Invalidated ∉ l2 ∧ Disposed ∉ cl_log (sys_state cookie_run).
Proof. apply (memory_is_current _ _ _ _ _ _ _ _ _ _ None None cookie_run peer_token cookie_steps). vm_compute. reflexivity. Defined.

(** What the first refresh committed, as another tab reads it a second before it expires. *)
Lemma peer_reads_credential_witness :
  readBearerPeerToken decode_units id no_decode no_decode (token_value renewed_token) (js "u1") (num_of_Z 60000) = Some renewed_token.
Proof.
  destruct (peer_reads_credential decode_units id no_decode no_decode (hr_value renewed) Body [] (num_of_Z 1000) (num_of_Z 60000)
              60000 (js "u1")) as [_ H]; [discriminate|vm_compute; reflexivity|].
  apply (H renewed_token (Some (js "s2"))); vm_compute; reflexivity.
Defined.
